(* ===== verification/_CoqProject ===== *)
-Q . S2P
Prelude.v
Addr.v
Semver.v
RemotePath.v
QueueOps.v
UploadRecovery.v
UploadQueue.v
QueueStore.v
QueueInv.v
QueueSend.v
QueueProps.v
Json.v
MeshCrdt.v
MeshShare.v
Paths.v
Replace.v
FsUploadPlan.v
FsUpload.v
FsUploadWork.v
SpacePlan.v
LibraryMove.v
SpaceRun.v
Program.v
JobWait.v
PkgRules.v
PkgStaging.v
PkgInstall.v
ArchiveParts.v
PlaylistOps.v
Playlists.v
Tasks.v
Schedules.v
UploadBatch.v
UploadReview.v
DumpSwap.v
BulkRename.v
Paste.v
Qr.v
QrField.v
QrRead.v
QrFacts.v
QrProps.v
ConvertQueue.v
QueueLeader.v
RpSps.v
NalUnits.v
SpsSyntax.v
Fmp4.v
Fmp4Demux.v
Fmp4Codec.v
