(* ===== verification/Prelude.v ===== *)
(** * ps5upload, its client's core logic

    This library models the parts of the TypeScript client ([src/client/src]) that decide what is
    sent, replaced, installed, merged or decoded, and proves them right. The client talks to a local
    engine, which talks to PS5 consoles; the client's own state lives in small stores (one object each)
    and in browser storage, and its operations run on one thread, interleaved at their awaits.

    ** The parts and the files

    The upload queue ([state/uploadQueue.ts], [lib/queueOps.ts], [lib/queueSize.ts],
    [lib/uploadRecovery.ts], [lib/consolePower.ts]):
    - [Addr], [RemotePath]: the console addresses a row carries, the base name of a path.
    - [QueueOps]: the edits on a list of rows (move inside a group, drop, remove, patch).
    - [UploadRecovery]: which failures are retried, parked until the console wakes, or final.
    - [UploadQueue]: the row and the pure rules over rows: which goes next, which install may be resumed.
    - [QueueStore]: the store and its runner as a state machine. The drain loop of a console is cut at its
      awaits; [env] holds what the engine answers; every action of the store is a function on the state.
    - [QueueInv], [QueueSend], [QueueProps]: the invariant and the theorems, of a tab that runs the queue
      from its start: one upload per console at a time, Send now hands back what it paused, Stop's effect,
      installs never run twice by themselves, a bound on automatic retries, the saved queue comes back;
      and what goes wrong when a tab takes the queue over, or finds an install again after a reload.
    - [QueueLeader]: [lib/queueLeader.ts], the election of the one tab that runs the queue, a lease in
      storage raced for by any number of tabs. One tab leads; the election refines an abstract lock; a
      lease left behind is taken over in time.

    The Files screen's uploads ([state/fsUploadPlan.ts], [state/fsUpload.ts], [state/fsUploadQueue.ts]):
    - [FsUploadPlan]: conflicts settled pick by pick, names for Keep both, files grouped into list jobs.
    - [FsUpload]: the line of picks, the run and the store's subscriber as one state machine of events.
    - [FsUploadWork]: nothing picked is forgotten or doubled, over any history; what a start may write
      over; which pick goes next; the two histories in which the code does otherwise.

    Uploading several sources ([state/uploadBatch.ts], [lib/uploadBatch.ts], [lib/archiveParts.ts],
    [lib/rarVolumes.ts], [lib/uploadDest.ts], [lib/archiveDefault.ts]):
    - [ArchiveParts]: which file names are parts or volumes of one archive, and what to say of a set.
    - [UploadBatch]: where each source lands, and what a batch is checked for before it is queued.
    - [UploadReview]: the review list, its rows inspected four at a time, as a state machine of events.

    Files on a console or a share:
    - [Paths]: [console/files/move.ts]'s path helpers.
    - [Replace]: [console/files/replace.ts], a replacement that keeps the old item until the new one is in
      place, over file operations that may fail at any point.
    - [Paste]: [console/files/paste.ts], Paste here with its questions, and the batch loop of [move.ts].
    - [BulkRename]: [console/files/bulkRename.ts], the new names of a set of entries and the renames.
    - [JobWait]: [console/files/batch.ts], [console/files/opJob.ts], [lib/pollRead.ts],
      [lib/deleteWithRetry.ts]: waiting for the jobs those start, Stop, and the retries.

    Room and games:
    - [SpacePlan]: [lib/spacePlan.ts], what to delete, move or uninstall to make room; [SpaceRun]:
      [state/spacePlanRun.ts] and [lib/moveTarget.ts], the run of a plan with its Stop.
    - [LibraryMove]: [state/libraryMove.ts], the moves of games between drives, any number at once;
      [Semver]: [lib/semver.ts] and [lib/movePollerPolicy.ts], versions and what a failed progress read
      means, which turns on them.
    - [ConvertQueue]: [state/convertQueue.ts], games converted one at a time and handed to the console.
    - [DumpSwap]: [lib/dumpSwap.ts], a dump that gives way to its package, journaled on the console.

    Packages ([state/pkgLibrary.ts], [state/installAsk.ts], [lib/pkgStagingPath.ts], [lib/pkgStorage.ts]):
    - [PkgRules]: the library's rows: alternatives, Install all, what is installed, a merged listing.
    - [PkgStaging]: where a package is staged, on which drive, and how a refresh lists it again.
    - [PkgInstall]: one install: readiness, the job and its status, the questions, the end of its task,
      the look for a late success.

    Payloads, tasks and reminders ([lib/playlistOps.ts], [lib/playlistShare.ts],
    [state/payloadPlaylists.ts], [lib/runGen.ts], [state/tasks.ts], [state/schedules.ts]):
    - [PlaylistOps]: playlists of payloads, their edits, and the set that goes to another computer.
    - [Playlists]: their runs, one live run per console, and Stop, as a state machine of events.
    - [Tasks]: the list of long operations, its bound, and what a restart finds of it in storage.
    - [Schedules]: reminders by the clock of any time zone: when one is due, that it rings once, and that
      it is told missed only when the runner was away.

    QR codes ([console/ui/qr.ts]):
    - [Qr]: the symbol of a text. [QrField]: its error correction as algebra. [QrRead]: a reader by the
      standard's rules; [QrFacts] and [QrProps] prove that it reads back what was encoded.

    Settings shared between devices ([lib/meshCrdt.ts], [lib/meshShare.ts], [lib/sharedPrefs.ts],
    [state/roster.ts]):
    - [Json]: the values that are stored and sent.
    - [MeshCrdt]: last-writer-wins registers under a hybrid logical clock; copies merged converge.
    - [MeshShare]: stamping what changed here, the console list a map describes, one sync round.

    Remote Play's pictures ([lib/rpSps.ts], [lib/fmp4.ts]):
    - [RpSps]: the reader of H.264 and HEVC parameter sets; [NalUnits] and [SpsSyntax] hold the standards'
      own writers, and prove that what they write is what the reader reads.
    - [Fmp4]: the fragmented MP4 the watch page plays; [Fmp4Demux] reads it by the container's rules and
      finds the stream's units; [Fmp4Codec] proves the two codec strings of the client agree.

    [Prelude] (this file) holds JavaScript's strings and numbers, list and option lemmas, and the
    notations and hints the others share; [Program] the asynchronous routines as trees of calls, with a
    weakest precondition for what holds wherever they are cut off and for how they end.

    ** What the parts promise each other

    [QueueStore] runs on [UploadQueue]'s rules, [QueueOps]'s edits and [UploadRecovery]'s verdicts, and
    starts by [QueueLeader]'s election. [Paste] calls [Replace] and names copies as [FsUploadPlan] does.
    [SpaceRun] takes a plan of [SpacePlan] and what [LibraryMove] answers. [PkgInstall] reads an inventory
    by [PkgRules], whose test of what is installed knows a package that [PkgStaging] listed again.
    [UploadReview] collapses and diagnoses sets by [ArchiveParts]; a set it offers is one upload to
    [UploadBatch] ([set_is_one_upload]). [Playlists] edits by [PlaylistOps]. What lies outside the client
    is an interface: a class of calls that may answer or throw ([Paste], [Replace]), a record of functions
    ([SpaceRun]), events ([QueueStore], [FsUpload], [ConvertQueue], [LibraryMove], [UploadReview],
    [Playlists], [Tasks], [Schedules]) or the answers to a tree's calls ([Program]'s clients).

    ** How the code is modelled

    A function of the code is a function here, under the same name. A store is a [Record], an action a
    function on it. An asynchronous function is cut at its awaits: each piece is one step, and what comes
    back is an argument of the next one, so that other steps run in between; where a routine has no state
    of its own but its place, it is a tree of calls ([Program]) that an environment answers. Errors are
    values ([option], a sum, or a constructor that says which answer came).

    Numbers the code keeps whole are [Z]; where 32-bit operators are used ([Fmp4]) or a number grows past
    2^53 ([FsUploadPlan]) this is written out. Text is a list of 8-bit code units: [normalize("NFC")] and
    case folding are what they are on Latin-1. Objects used as maps are [gmap]s where their order does not
    show, association lists where it does.

    ** Bounds and fuel

    The code's own: automatic retries of an upload stop after [MAX_AUTO_RECOVER_ATTEMPTS] = 3, temporary
    names after [TEMP_TRIES] = 16, a sync after [MAX_ATTEMPTS] = 4 rounds, the names a paste tries after
    [KEEP_BOTH_TRIES] = 999, a status read after 6 and a removal after 3 attempts, a move's progress
    reader after 5 failures in a row, the task list at 200 entries once no more are going on at once
    ([trim_length]), QR codes are of versions 1 to 10.

    Fuel is never a limit of the model; where a loop has no bound in its text, a theorem says the fuel
    given is enough. The loop over Keep both names runs at most as often as there are names taken
    ([keep_both_finds_a_name]); the loops over bits and bytes end with the input ([se_times_total] proves
    it for the one whose count is read from the stream), and the readers' fuel is the input's length. A
    swap looks 31 times at what holds the dump ([swap_ends]); after Stop a wait reads 12 times more, an
    operation's 11 ([waits_end_after_stop]; without Stop they wait as long as the job runs); a copied move
    ends in five answers ([copied_move_ends]); an install starts 5 jobs at most, each after at most 21
    looks at the console (both proved on the way to [install_tells_the_verdict]; the status of a job is
    read as long as it runs), and the look for a late success takes 60 ticks of 7 reads
    ([late_success_is_looked_for]); the review list's inspections need one answer each
    ([inspections_settle]); a playlist of [n] steps takes [4 n] answers at most ([playlist_runs_end]); the
    loop over an imported playlist's names as many rounds as there are names and one ([free_name_found]).
    An Exp-Golomb code has at most 31 leading zeros, as the code checks.

    ** Not modelled

    The engine, the helper and the desktop shell (Rust and C), the screens and their texts (React,
    [i18n]), the wrappers around the engine's HTTP calls ([api]), and the stores that only hold what these
    answer: the activity log, updates, saves, cheats and sensors. Remote Play's
    sockets and decoders, the game input (floating-point stick positions) and play together. Of the
    modelled files: messages and progress reports, timers that only start an operation modelled here, and
    the fields that only such texts read; of [state/pkgLibrary.ts] the transfer of an upload into the
    library and the installs from links, which use the same driver; of [state/uploadBatch.ts] what an
    inspection asks the engine; of [state/payloadPlaylists.ts] the file the playlists are saved to; of
    [state/tasks.ts] the speed and the time left, which are floating point. *)
From Stdlib Require Export ZArith Lia Ascii.
From stdpp Require Export base tactics option list gmap strings pretty sorting.

#[export] Set Warnings "-clear-no-such-hyp".

(** * JavaScript strings

    A string is its sequence of code units; the model's code units are the 8-bit ones
    ([ascii]), which is what every literal of the program is made of. *)
Abbreviation str := (list ascii).

Definition js (s : string) : str := String.list_ascii_of_string s.

Declare Scope js_scope.
Delimit Scope js_scope with js.
(** [x ?? d]: JavaScript's nullish coalescing. *)
Notation "x ?? d" := (default d x) (at level 50, left associativity) : js_scope.
#[global] Open Scope js_scope.
#[global] Open Scope Z_scope.

(** A number written in a template literal. *)
Definition num (n : Z) : str := js (pretty n).

(** [s.indexOf(c)] and [s.lastIndexOf(c)] for one character, [None] for -1. *)
Fixpoint index_of (c : ascii) (s : str) : option nat :=
  match s with
  | [] => None
  | a :: s' => if decide (a = c) then Some 0%nat else S <$> index_of c s'
  end.

Fixpoint last_index_of (c : ascii) (s : str) : option nat :=
  match s with
  | [] => None
  | a :: s' =>
      match last_index_of c s' with
      | Some i => Some (S i)
      | None => if decide (a = c) then Some 0%nat else None
      end
  end.

(** [s.startsWith(p)] and [s.includes(p)]. *)
Definition starts_with (p s : str) : bool := bool_decide (p `prefix_of` s).

Fixpoint includes (p s : str) : bool :=
  starts_with p s || match s with [] => false | _ :: s' => includes p s' end.

(** [s.split(c)] for a one-character separator. *)
Fixpoint split_on (c : ascii) (s : str) : list str :=
  match s with
  | [] => [[]]
  | a :: s' =>
      if decide (a = c) then [] :: split_on c s'
      else match split_on c s' with
           | [] => [[a]]
           | w :: ws => (a :: w) :: ws
           end
  end.

(** [s.replace(/c+$/, "")]: the trailing run of characters satisfying [p] cut off. *)
Fixpoint strip_end (p : ascii -> bool) (s : str) : str :=
  match s with
  | [] => []
  | a :: s' =>
      match strip_end p s' with
      | [] => if p a then [] else [a]
      | t => a :: t
      end
  end.

Definition is_char (c a : ascii) : bool := bool_decide (a = c).

(** [parts.join(sep)]. *)
Fixpoint join_with (sep : str) (l : list str) : str :=
  match l with
  | [] => []
  | [w] => w
  | w :: l' => w ++ sep ++ join_with sep l'
  end.

(** Character classes. *)
Definition code (a : ascii) : Z := Z.of_nat (nat_of_ascii a).
Definition is_digit (a : ascii) : bool := (48 <=? code a) && (code a <=? 57).
Definition is_lower (a : ascii) : bool := (97 <=? code a) && (code a <=? 122).
Definition is_upper (a : ascii) : bool := (65 <=? code a) && (code a <=? 90).
Definition is_alpha (a : ascii) : bool := is_lower a || is_upper a.

(** [s.toLowerCase()] on the 7-bit characters. *)
Definition lower_char (a : ascii) : ascii :=
  if is_upper a then ascii_of_nat (nat_of_ascii a + 32) else a.
Definition to_lower (s : str) : str := map lower_char s.

(** [a < b] on strings: code unit by code unit. *)
Fixpoint str_lt (a b : str) : bool :=
  match a, b with
  | _, [] => false
  | [], _ :: _ => true
  | x :: a', y :: b' =>
      if decide (x = y) then str_lt a' b' else code x <? code y
  end.

(** [Number(s)] / [parseInt(s, 10)] of a string of decimal digits. *)
Definition digit_val (a : ascii) : Z := code a - 48.
Definition parse_dec (s : str) : Z := fold_left (fun n a => 10 * n + digit_val a) s 0.

(** ** String lemmas *)

Lemma index_of_Some c s i :
  index_of c s = Some i <-> s !! i = Some c /\ c ∉ take i s.
Proof.
  revert i; induction s as [|a s IH]; intros i; simpl.
  - split; [done|]. intros [H _]. by rewrite lookup_nil in H.
  - case_decide as Ha; subst.
    + split.
      * intros [= <-]. split; [done|]. simpl. apply not_elem_of_nil.
      * intros [_ H]. destruct i as [|i]; [done|]. simpl in H. set_solver.
    + destruct i as [|i]; simpl.
      * split; [|intros [[= ->] _]; done].
        destruct (index_of c s); simpl; done.
      * rewrite fmap_Some. split.
        -- intros (k & Hk & [= ->]). apply IH in Hk as [? ?]. split; [done|]. set_solver.
        -- intros [H1 H2]. exists i. split; [|done]. apply IH. split; [done|]. set_solver.
Qed.

Lemma index_of_None c s : index_of c s = None <-> c ∉ s.
Proof.
  induction s as [|a s IH]; simpl; [set_solver|].
  case_decide; subst; [set_solver|]. rewrite fmap_None, IH. set_solver.
Qed.

Lemma last_index_of_None c s : last_index_of c s = None <-> c ∉ s.
Proof.
  induction s as [|a s IH]; simpl; [set_solver|].
  destruct (last_index_of c s) eqn:E.
  - split; [done|]. intros H. destruct IH as [_ IH].
    exfalso. assert (Some n = None) by (apply IH; set_solver). done.
  - case_decide; subst; [set_solver|]. split; [|done]. intros _. set_solver.
Qed.

Lemma last_index_of_Some c s i :
  last_index_of c s = Some i <-> s !! i = Some c /\ c ∉ drop (S i) s.
Proof.
  revert i; induction s as [|a s IH]; intros i; simpl.
  - split; [done|]. intros [H _]. by rewrite lookup_nil in H.
  - destruct (last_index_of c s) as [k|] eqn:E.
    + specialize (IH k) as IHk. destruct (proj1 IHk eq_refl) as [Hk Hd].
      destruct i as [|i].
      * split; [done|]. intros [_ H]. simpl in H. rewrite drop_0 in H.
        exfalso. apply H. by eapply list_elem_of_lookup_2.
      * simpl. rewrite <-(IH i). split; [intros [= ->]; done|intros [= ->]; done].
    + assert (c ∉ s) as Hc by by apply last_index_of_None.
      case_decide; subst.
      * split.
        -- intros [= <-]. simpl. by rewrite drop_0.
        -- intros [H _]. destruct i as [|i]; [done|]. simpl in H.
           exfalso. apply Hc. by eapply list_elem_of_lookup_2.
      * split; [done|]. intros [H' _]. destruct i as [|i]; simpl in H'; [congruence|].
        exfalso. apply Hc. by eapply list_elem_of_lookup_2.
Qed.

Lemma starts_with_true p s : starts_with p s = true <-> p `prefix_of` s.
Proof. unfold starts_with. by rewrite bool_decide_eq_true. Qed.

Lemma strip_end_all p s : forallb p s = true -> strip_end p s = [].
Proof.
  induction s as [|a s IH]; simpl; [done|]. intros [Ha Hs]%andb_true_iff.
  by rewrite (IH Hs), Ha.
Qed.

(** What is cut off is exactly a run of [p] characters. *)
Lemma strip_end_app p s : exists t, s = strip_end p s ++ t /\ forallb p t = true.
Proof.
  induction s as [|a s (t & Hs & Ht)]; [by exists []|]. simpl.
  destruct (strip_end p s) as [|b u] eqn:E.
  - destruct (p a) eqn:Pa.
    + exists (a :: s). split; [done|]. simpl. rewrite Pa. simpl. by rewrite Hs.
    + exists s. split; [done|]. by rewrite Hs.
  - exists t. split; [|done]. simpl. by rewrite Hs at 1.
Qed.

(** And what stays does not end in one. *)
Lemma strip_end_last p s a : last (strip_end p s) = Some a -> p a = false.
Proof.
  induction s as [|b s IH]; simpl; [done|].
  destruct (strip_end p s) as [|c t] eqn:E.
  - destruct (p b) eqn:Pb; [done|]. intros [= ->]. done.
  - rewrite last_cons_cons. done.
Qed.

Lemma strip_end_snoc p s a : p a = false -> strip_end p (s ++ [a]) = s ++ [a].
Proof.
  intros Ha. induction s as [|b s IH]; simpl; [by rewrite Ha|].
  rewrite IH. by destruct s.
Qed.

Lemma strip_end_id p s :
  (forall a, last s = Some a -> p a = false) -> strip_end p s = s.
Proof.
  destruct s as [|a s _] using rev_ind; [done|]. intros H. apply strip_end_snoc.
  apply H. by rewrite last_snoc.
Qed.

Lemma str_lt_irrefl a : str_lt a a = false.
Proof. induction a; simpl; [done|]. by rewrite decide_True. Qed.

Lemma code_inj a b : code a = code b -> a = b.
Proof.
  unfold code. intros H. apply Nat2Z.inj in H.
  by rewrite <-(ascii_nat_embedding a), <-(ascii_nat_embedding b), H.
Qed.

Lemma code_range a : 0 <= code a < 256.
Proof. unfold code. pose proof (nat_ascii_bounded a). lia. Qed.

Lemma str_lt_total a b : a <> b -> str_lt a b = false -> str_lt b a = true.
Proof.
  revert b; induction a as [|x a IH]; intros [|y b] Hne Hlt; simpl in *; try done.
  destruct (decide (x = y)) as [->|Hxy].
  - rewrite decide_True by done. apply IH; [congruence|done].
  - rewrite decide_False by done. apply Z.ltb_ge in Hlt. apply Z.ltb_lt.
    assert (code x <> code y) by (intros ?%code_inj; done). lia.
Qed.

Lemma str_lt_trans a b c : str_lt a b = true -> str_lt b c = true -> str_lt a c = true.
Proof.
  revert b c; induction a as [|x a IH]; intros [|y b] [|z c] H1 H2; simpl in *; try done.
  repeat case_decide; subst; try congruence; eauto;
    rewrite ?Z.ltb_lt in *; lia.
Qed.

Lemma str_lt_asym a b : str_lt a b = true -> str_lt b a = false.
Proof.
  intros H. destruct (str_lt b a) eqn:E; [|done].
  pose proof (str_lt_trans _ _ _ H E) as H'. by rewrite str_lt_irrefl in H'.
Qed.

Lemma num_inj n m : num n = num m -> n = m.
Proof.
  unfold num, js. intros H. apply (f_equal String.string_of_list_ascii) in H.
  rewrite !String.string_of_list_ascii_of_string in H. by apply (inj pretty).
Qed.

Lemma includes_true p s : includes p s = true <-> exists a b, s = a ++ p ++ b.
Proof.
  induction s as [|c s IH]; cbn [includes].
  - rewrite orb_false_r, starts_with_true. split.
    + intros [b Hb]. exists [], b. done.
    + intros (a & b & H). symmetry in H. apply app_nil in H as [-> H]. by exists b.
  - rewrite orb_true_iff, starts_with_true, IH. split.
    + intros [[b Hb]|(a & b & Hs)]; [by exists [], b|]. exists (c :: a), b. by rewrite Hs.
    + intros ([|x a] & b & H); [left; by exists b|]. right. injection H as -> ->. eauto.
Qed.

(** Decimal numbers and their digits. *)
Definition parse_from (n : Z) (s : str) : Z := fold_left (fun n a => 10 * n + digit_val a) s n.

Lemma pretty_N_char_digit k : (k < 10)%N ->
  is_digit (pretty_N_char k) = true /\ digit_val (pretty_N_char k) = Z.of_N k.
Proof.
  intros Hk. assert (k = 0 \/ k = 1 \/ k = 2 \/ k = 3 \/ k = 4 \/ k = 5 \/ k = 6 \/ k = 7
    \/ k = 8 \/ k = 9)%N as H by lia.
  repeat destruct H as [->|H]; [..|subst k]; split; reflexivity.
Qed.

Lemma pretty_N_go_spec n s :
  forallb is_digit (js s) = true ->
  forallb is_digit (js (pretty_N_go n s)) = true /\
  parse_from 0 (js (pretty_N_go n s)) = parse_from (Z.of_N n) (js s).
Proof.
  revert s. induction (N.lt_wf_0 n) as [n _ IH]. intros s Hs.
  destruct (decide (0 < n)%N) as [Hn|Hn].
  - rewrite pretty_N_go_step by done.
    destruct (pretty_N_char_digit (n mod 10)) as [Hd Hv]; [by apply N.mod_lt|].
    destruct (IH (n / 10)%N) with (s := String.String (pretty_N_char (n mod 10)) s) as [H1 H2].
    { by apply N.div_lt. } { unfold js in *. simpl. by rewrite Hd. }
    split; [done|]. rewrite H2. unfold js, parse_from. simpl. f_equal. rewrite Hv.
    pose proof (N.div_mod' n 10). lia.
  - assert (n = 0)%N as -> by lia. by rewrite pretty_N_go_0.
Qed.

Lemma num_digits n : 0 <= n -> forallb is_digit (num n) = true /\ parse_dec (num n) = n.
Proof.
  intros Hn. unfold num. destruct n as [|p|p]; [by split| |lia].
  change (pretty (Z.pos p)) with (pretty_N_go (N.pos p) ""%string) .
  destruct (pretty_N_go_spec (N.pos p) ""%string) as [H1 H2]; [done|]. split; [exact H1|].
  exact H2.
Qed.

Lemma num_not_nil n : num n <> [].
Proof.
  intros H. destruct (decide (0 <= n)) as [Hn|Hn].
  - destruct (num_digits n Hn) as [_ Hp]. rewrite H in Hp. change 0 with (parse_dec []) in Hp.
    cbn in Hp. subst. done.
  - destruct n; [lia|lia|]. unfold num, js in H. simpl in H. done.
Qed.

Lemma digit_not_upper a : is_digit a = true -> is_upper a = false.
Proof.
  unfold is_digit, is_upper. intros H. apply andb_true_iff in H as [H1 H2].
  apply Z.leb_le in H1, H2. apply andb_false_iff. left. apply Z.leb_gt. lia.
Qed.

Lemma to_lower_digits s : forallb is_digit s = true -> to_lower s = s.
Proof.
  induction s as [|a s IH]; simpl; [done|]. intros [Ha Hs]%andb_true_iff.
  unfold lower_char. rewrite digit_not_upper by done. by rewrite IH.
Qed.

Lemma to_lower_app s t : to_lower (s ++ t) = to_lower s ++ to_lower t.
Proof. apply map_app. Qed.

(** A text that ends in a non-digit and occurs in [s] followed by digits occurs in [s]. *)
Lemma includes_digits q c s ds :
  is_digit c = false -> forallb is_digit ds = true ->
  includes (q ++ [c]) (s ++ ds) = true -> includes (q ++ [c]) s = true.
Proof.
  intros Hc Hd. rewrite !includes_true. intros (a & b & H).
  assert (s = a ++ (q ++ [c]) ++ drop (length (a ++ q ++ [c])) s) as Hs; [|eauto].
  assert (length (a ++ q ++ [c]) <= length s)%nat as Hlen.
  { apply Nat.nlt_ge. intros Hlt.
    assert (c ∈ ds) as Hin.
    { apply list_elem_of_lookup. exists (length (a ++ q) - length s)%nat.
      rewrite !length_app in Hlt. simpl in Hlt.
      rewrite <-lookup_app_r by (rewrite length_app; lia). rewrite H.
      rewrite <-!(assoc_L (++)), (assoc_L (++)). by apply list_lookup_middle. }
    apply list_elem_of_In in Hin. rewrite forallb_forall in Hd. rewrite Hd in Hc; done. }
  rewrite (assoc_L (++)). rewrite <-(take_drop (length (a ++ q ++ [c])) s) at 1. f_equal.
  rewrite (assoc_L (++)) in H. apply (f_equal (take (length (a ++ q ++ [c])))) in H.
  by rewrite take_app_le, take_app_length in H by done.
Qed.

Lemma includes_prefix q d s : includes (q ++ d) s = true -> includes q s = true.
Proof.
  rewrite !includes_true. intros (a & b & ->). exists a, (d ++ b). by rewrite <-(assoc_L (++)).
Qed.

(** * Lists *)

(** [items.findIndex(p)] and [items.find(p)]. *)
Section find.
Context {A : Type}.

Definition find_index (p : A -> bool) (l : list A) : option nat :=
  fst <$> list_find (fun x => p x = true) l.
Definition find_first (p : A -> bool) (l : list A) : option A :=
  snd <$> list_find (fun x => p x = true) l.

Lemma find_index_Some p l i :
  find_index p l = Some i <->
  exists x, l !! i = Some x /\ p x = true /\ forall j y, (j < i)%nat -> l !! j = Some y -> p y = false.
Proof.
  unfold find_index. rewrite fmap_Some. split.
  - intros ([k x] & (H1 & H2 & H3)%list_find_Some & ->). exists x. split_and!; try done.
    intros j y Hj Hy. apply not_true_is_false. eauto.
  - intros (x & H1 & H2 & H3). exists (i, x). split; [|done].
    apply list_find_Some. split_and!; try done. intros j y Hy Hj.
    by rewrite (H3 j y).
Qed.

Lemma find_index_None p l : find_index p l = None <-> forall x, x ∈ l -> p x = false.
Proof.
  unfold find_index. rewrite fmap_None, list_find_None, Forall_forall.
  split; intros H x Hx; [apply not_true_is_false; auto|by rewrite H].
Qed.

Lemma find_first_Some p l x : find_first p l = Some x -> x ∈ l /\ p x = true.
Proof.
  unfold find_first. rewrite fmap_Some. intros ([k y] & (H1 & H2 & H3)%list_find_Some & ->).
  split; [by eapply list_elem_of_lookup_2|done].
Qed.

Lemma find_first_None p l : find_first p l = None <-> forall x, x ∈ l -> p x = false.
Proof.
  unfold find_first. rewrite fmap_None, list_find_None, Forall_forall.
  split; intros H x Hx; [apply not_true_is_false; auto|by rewrite H].
Qed.

(** [l.some(p)] and [l.every(p)] are [existsb] and [forallb]. *)
Lemma find_first_cons (f : A -> bool) x l : find_first f (x :: l) = if f x then Some x else find_first f l.
Proof.
  unfold find_first. simpl. destruct (decide (f x = true)) as [->|Hn]; [done|]. destruct (f x); [done|]. by destruct (list_find _ l) as [[? ?]|].
Qed.

Lemma existsb_elem (p : A -> bool) l : existsb p l = true <-> exists x, x ∈ l /\ p x = true.
Proof. rewrite existsb_exists. by setoid_rewrite list_elem_of_In. Qed.

Lemma existsb_false (p : A -> bool) l : existsb p l = false <-> forall x, x ∈ l -> p x = false.
Proof.
  split.
  - intros H x Hx. apply not_true_is_false. intros Hp.
    assert (existsb p l = true) by (apply existsb_elem; eauto). congruence.
  - intros H. apply not_true_is_false. rewrite existsb_elem. intros (x & Hx & Hp).
    rewrite H in Hp by done. done.
Qed.

Lemma forallb_elem (p : A -> bool) l : forallb p l = true <-> forall x, x ∈ l -> p x = true.
Proof. rewrite forallb_forall. by setoid_rewrite list_elem_of_In. Qed.
End find.

(** [l.sort(cmp)]: stable. *)
Fixpoint sort_insert {A} (cmp : A -> A -> Z) (x : A) (l : list A) : list A :=
  match l with
  | [] => [x]
  | y :: l' => if cmp x y <=? 0 then x :: l else y :: sort_insert cmp x l'
  end.
Definition sort_by {A} (cmp : A -> A -> Z) (l : list A) : list A := foldr (sort_insert cmp) [] l.
Lemma sort_insert_perm {A} (cmp : A -> A -> Z) x l : sort_insert cmp x l ≡ₚ x :: l.
Proof.
  induction l as [|y l IH]; simpl; [done|]. destruct (cmp x y <=? 0); [done|]. rewrite IH. by constructor.
Qed.
Lemma sort_by_perm {A} (cmp : A -> A -> Z) (l : list A) : sort_by cmp l ≡ₚ l.
Proof. unfold sort_by. induction l as [|x l IH]; simpl; [done|]. by rewrite sort_insert_perm, IH. Qed.

(** A stable sort by a comparison that answers in the sense of a transitive relation. *)
Section sorted.
Context {A : Type} (cmp : A -> A -> Z) (R : A -> A -> Prop) (P : A -> Prop).
Context (Htr : forall x y z, P x -> P y -> P z -> R x y -> R y z -> R x z).
Context (Hle : forall x y, P x -> P y -> cmp x y <= 0 -> R x y) (Hgt : forall x y, P x -> P y -> 0 < cmp x y -> R y x).
Lemma sort_insert_sorted x l : P x -> Forall P l -> StronglySorted R l -> StronglySorted R (sort_insert cmp x l).
Proof.
  intros Hx Hl Hs. revert Hl. induction Hs as [|y l Hs IH Hy]; intros Hl; simpl; [by repeat constructor|].
  apply Forall_cons in Hl as [Py Hl]. destruct (Z.leb_spec (cmp x y) 0) as [Hc|Hc].
  - constructor; [by constructor|]. constructor; [by apply Hle|]. rewrite Forall_forall in Hy, Hl |- *.
    intros z Hz. eapply Htr; [done|exact Py|by apply Hl|by apply Hle|by apply Hy].
  - constructor; [by apply IH|]. rewrite sort_insert_perm. constructor; [by apply Hgt|done].
Qed.
Lemma sort_by_sorted l : Forall P l -> StronglySorted R (sort_by cmp l).
Proof.
  induction 1 as [|x l Hx Hl IH]; [constructor|]. apply sort_insert_sorted; [done| |done].
  change (Forall P (sort_by cmp l)). by rewrite sort_by_perm.
Qed.
End sorted.
Lemma StronglySorted_lookup {A} (R : A -> A -> Prop) l i j x y : StronglySorted R l -> (i < j)%nat -> l !! i = Some x -> l !! j = Some y -> R x y.
Proof.
  intros Hs. revert i j. induction Hs as [|z l Hs IH Hz]; intros i j Hij Hi Hj; [done|].
  destruct j as [|j]; [lia|]. destruct i as [|i]; simplify_eq/=; [|eapply IH; [|done..]; lia].
  rewrite Forall_forall in Hz. apply Hz. by eapply list_elem_of_lookup_2.
Qed.

(** [new Map()] whose values are arrays: the members of each key, the keys in the order they come up. *)
Section groups.
Context {K A : Type} `{!EqDecision K}.
Fixpoint add_to_group (k : K) (x : A) (m : list (K * list A)) : list (K * list A) :=
  match m with
  | [] => [(k, [x])]
  | (k', g) :: m => if decide (k = k') then (k', g ++ [x]) :: m else (k', g) :: add_to_group k x m
  end.
Definition groups (key : A -> option K) (l : list A) : list (K * list A) :=
  fold_left (fun m x => match key x with Some k => add_to_group k x m | None => m end) l [].

Fixpoint group_at (k : K) (m : list (K * list A)) : list A :=
  match m with [] => [] | (k', g) :: m => if decide (k = k') then g else group_at k m end.
Lemma group_at_add k k0 x m : group_at k (add_to_group k0 x m) = group_at k m ++ (if decide (k = k0) then [x] else []).
Proof.
  induction m as [|[k' g] m IH]; simpl; [by destruct (decide (k = k0))|].
  destruct (decide (k0 = k')) as [<-|Hne]; simpl.
  - destruct (decide (k = k0)); [done|by rewrite app_nil_r].
  - destruct (decide (k = k')) as [->|]; [|apply IH]. destruct (decide (k' = k0)); [congruence|by rewrite app_nil_r].
Qed.
Lemma add_to_group_keys k x m : forall y, y ∈ fst <$> add_to_group k x m <-> y = k \/ y ∈ fst <$> m.
Proof.
  intros y. induction m as [|[k' g] m IH]; simpl; [by rewrite list_elem_of_singleton, elem_of_nil; tauto|].
  destruct (decide (k = k')) as [->|]; simpl; rewrite !elem_of_cons, ?IH; tauto.
Qed.
Lemma add_to_group_NoDup k x m : NoDup (fst <$> m) -> NoDup (fst <$> add_to_group k x m).
Proof.
  induction m as [|[k' g] m IH]; simpl; [intros _; apply NoDup_singleton|]. intros [Hn Hm]%NoDup_cons.
  destruct (decide (k = k')); simpl; constructor; auto. rewrite add_to_group_keys. by intros [->|?].
Qed.
Lemma group_at_elem k g m : NoDup (fst <$> m) -> (k, g) ∈ m -> group_at k m = g.
Proof.
  induction m as [|[k' g'] m IH]; simpl; [by intros _ ?%elem_of_nil|].
  intros [Hn Hm]%NoDup_cons [[= -> ->]|Hg]%elem_of_cons; [by rewrite decide_True|].
  rewrite decide_False; [by apply IH|]. intros ->. apply Hn, list_elem_of_fmap. by exists (k', g).
Qed.
Lemma groups_from key l m k : NoDup (fst <$> m) ->
  let m' := fold_left (fun m x => match key x with Some k => add_to_group k x m | None => m end) l m in
  NoDup (fst <$> m') /\ group_at k m' = group_at k m ++ List.filter (fun x => bool_decide (key x = Some k)) l /\
  (k ∈ fst <$> m' <-> k ∈ fst <$> m \/ exists x, x ∈ l /\ key x = Some k).
Proof.
  revert m. induction l as [|x l IH]; intros m Hm; simpl.
  { split; [done|]. split; [by rewrite app_nil_r|]. split; [by left|]. intros [?|(? & []%elem_of_nil & _)]; done. }
  destruct (key x) as [k0|] eqn:Ek.
  - destruct (IH _ (add_to_group_NoDup k0 x m Hm)) as (H1 & H2 & H3). split; [done|]. split.
    + rewrite H2, group_at_add, <- app_assoc. f_equal.
      destruct (decide (k = k0)) as [->|]; [by rewrite bool_decide_true|by rewrite bool_decide_false by congruence].
    + rewrite H3, add_to_group_keys. split.
      * intros [[->|?]|(y & ? & ?)]; [right; exists x; split; [by left|done]|by left|right; exists y; split; [by right|done]].
      * intros [?|(y & [->|?]%elem_of_cons & ?)]; [by left; right|left; left; congruence|right; eauto].
  - rewrite bool_decide_false by done. destruct (IH m Hm) as (H1 & H2 & H3). split; [done|]. split; [done|]. rewrite H3. split.
    + intros [?|(y & ? & ?)]; [by left|right; exists y; split; [by right|done]].
    + intros [?|(y & [->|?]%elem_of_cons & ?)]; [by left|congruence|right; eauto].
Qed.
Lemma groups_NoDup key l : NoDup (fst <$> groups key l).
Proof.
  unfold groups. assert (forall m, NoDup (fst <$> m) -> NoDup (fst <$> fold_left (fun m x => match key x with Some k => add_to_group k x m | None => m end) l m)) as H.
  { induction l as [|x l IH]; intros m Hm; simpl; [done|]. apply IH. destruct (key x); [by apply add_to_group_NoDup|done]. }
  apply H. constructor.
Qed.
Lemma groups_spec key l k g : (k, g) ∈ groups key l <-> g = List.filter (fun x => bool_decide (key x = Some k)) l /\ g <> [].
Proof.
  destruct (groups_from key l [] k) as (H1 & H2 & H3); [constructor|]. fold (groups key l) in *. simpl in H2, H3. split.
  - intros Hg. rewrite (group_at_elem _ _ _ H1 Hg) in H2. split; [done|]. intros ->.
    destruct (proj1 H3) as [[]%elem_of_nil|(x & Hx & Hk)]; [apply list_elem_of_fmap; by exists (k, [])|].
    assert (x ∈ List.filter (fun x => bool_decide (key x = Some k)) l) as Hin; [|by rewrite <- H2 in Hin; apply elem_of_nil in Hin].
    apply list_elem_of_In, filter_In. split; [by apply list_elem_of_In|by apply bool_decide_true].
  - intros [-> Hn]. rewrite <- H2. assert (k ∈ fst <$> groups key l) as ([k' g] & -> & Hg)%list_elem_of_fmap.
    { apply H3. right. destruct (List.filter _ l) as [|x l'] eqn:El; [done|]. exists x.
      assert (x ∈ List.filter (fun x => bool_decide (key x = Some k)) l) as Hx by (rewrite El; by left).
      apply list_elem_of_In, filter_In in Hx as [Hx Hk%bool_decide_eq_true]. split; [by apply list_elem_of_In|done]. }
    simpl. by rewrite (group_at_elem _ _ _ H1 Hg).
Qed.
End groups.
(** Different values that are all in a finite set are no more than it has elements. *)
Lemma fresh_among `{Countable A} (f : nat -> A) (X : gset A) n :
  (forall i j, f i = f j -> i = j) -> (forall j, (j < n)%nat -> f j ∈ X) -> (n <= size X)%nat.
Proof.
  intros Hf Hn. assert (NoDup (f <$> seq 0 n)) as Hnd by (apply NoDup_fmap_2_strong; [by intros x y _ _ ?%Hf|apply NoDup_seq]).
  assert (length (f <$> seq 0 n) <= length (elements X))%nat as Hlen.
  { apply submseteq_length, NoDup_submseteq; [done|]. intros k (j & -> & Hj%elem_of_seq)%list_elem_of_fmap. apply elem_of_elements, Hn. lia. }
  by rewrite length_fmap, length_seq in Hlen.
Qed.
(** Two members of one key are one, where keys do not repeat. *)
Lemma NoDup_map_inj {A B} (f : A -> B) (l : list A) x y : NoDup (map f l) -> x ∈ l -> y ∈ l -> f x = f y -> x = y.
Proof.
  intros Hn (i & Hi)%list_elem_of_lookup (j & Hj)%list_elem_of_lookup E. assert (i = j) as ->; [|congruence].
  eapply (NoDup_lookup (map f l)); [done| |]; rewrite list_lookup_fmap, ?Hi, ?Hj; simpl; by rewrite ?E.
Qed.
Lemma filter_sublist {A} (f : A -> bool) l : List.filter f l `sublist_of` l.
Proof. induction l as [|x l IH]; simpl; [done|]. destruct (f x); by constructor. Qed.

(** * Records

    [r <| f := v |>] is [{ ...r, f: v }].  A record type gives its eta-expansion once
    ([Settable]); the setter of a field is read off it. *)
Class Settable (R : Type) : Type := eta_of : R -> R.
Class Setter {R E : Type} (get : R -> E) : Type := set : (E -> E) -> R -> R.
Arguments set {R E} get {Setter} f r /.

Ltac solve_setter R get :=
  let e := constr:(_ : Settable R) in
  let e := eval red in e in
  match eval pattern get in e with
  | (fun _ => ?b) _ => fail 1 "no such field"
  | ?u _ => let t := eval cbv beta in (fun f => u (fun r => f (get r))) in exact t
  end.
#[export] Hint Extern 1 (@Setter ?R ?E ?get) => solve_setter R get : typeclass_instances.

Notation "r <| get := v |>" := (set get (fun _ => v) r)
  (at level 1, get at level 1, v at level 99, left associativity,
   format "r  <| get  :=  v |>") : js_scope.

(** * Automation *)

(** Rewrites every boolean comparison and connective in the context into its proposition. *)
Ltac bool_prop :=
  repeat match goal with
  | H : andb _ _ = true |- _ => apply andb_true_iff in H as [? ?]
  | H : orb _ _ = false |- _ => apply orb_false_iff in H as [? ?]
  | H : negb _ = true |- _ => apply negb_true_iff in H
  | H : negb _ = false |- _ => apply negb_false_iff in H
  | H : bool_decide _ = true |- _ => apply bool_decide_eq_true in H
  | H : bool_decide _ = false |- _ => apply bool_decide_eq_false in H
  | H : (_ <? _) = true |- _ => apply Z.ltb_lt in H
  | H : (_ <? _) = false |- _ => apply Z.ltb_ge in H
  | H : (_ <=? _) = true |- _ => apply Z.leb_le in H
  | H : (_ <=? _) = false |- _ => apply Z.leb_gt in H
  | H : (_ =? _) = true |- _ => apply Z.eqb_eq in H
  | H : (_ =? _) = false |- _ => apply Z.eqb_neq in H
  end.

(** Literal strings opened up to their characters. *)
Ltac js_simpl := cbn [app js String.list_ascii_of_string] in *.

Create HintDb model.
#[export] Hint Resolve str_lt_irrefl str_lt_asym str_lt_total str_lt_trans : model.
