(* ===== verification/Addr.v ===== *)
(** Console addresses (client/src/lib/addr.ts): the bare host a console is keyed by, taken from
    anything shaped like [host], [host:port], the legacy [host:port:port], a bracketed or a bare
    IPv6 literal, and the address the app sends. *)
From S2P Require Import Prelude.

Definition PS5_LOADER_PORT : Z := 9021.
Definition PS5_AVA1_PORT : Z := 9120.

(** [addr.match(/:/g)?.length ?? 0] *)
Definition count_char (c : ascii) (s : str) : nat := length (List.filter (is_char c) s).

Definition isBareIpv6 (addr : str) : bool :=
  let colons := count_char ":" addr in
  if (colons <? 2)%nat then false
  else negb (includes (js ".") addr) || includes (js "::") addr || (2 <? colons)%nat.

Definition hostOf (addr : str) : str :=
  match addr with
  | [] => []
  | c :: rest =>
      if decide (c = "["%char) then
        match index_of "]" addr with
        | Some (S e) => take e rest
        | _ => rest
        end
      else if isBareIpv6 addr then addr
      else match index_of ":" addr with
           | Some i => take i addr
           | None => addr
           end
  end.

(** [s.trim()]: the white space among the 8-bit code units. *)
Definition is_space (a : ascii) : bool :=
  let c := code a in ((9 <=? c) && (c <=? 13)) || (c =? 32) || (c =? 160).
Fixpoint trim_start (s : str) : str :=
  match s with
  | [] => []
  | a :: s' => if is_space a then trim_start s' else s
  end.
Definition trim (s : str) : str := strip_end is_space (trim_start s).

(** The rest after a run of [a-z0-9+.-] (any case) and then "://". *)
Fixpoint after_scheme_tail (s : str) : option str :=
  if starts_with (js "://") s then Some (drop 3 s)
  else
    match s with
    | [] => None
    | a :: s' =>
        if is_alpha a || is_digit a || existsb (is_char a) (js "+.-") then after_scheme_tail s'
        else None
    end.

(** [.replace(/^[a-z][a-z0-9+.-]*:\/\//i, "")] *)
Definition strip_scheme (s : str) : str :=
  match s with
  | a :: s' => if is_alpha a then after_scheme_tail s' ?? s else s
  | [] => []
  end.

(** [.split(/[/?#]/, 1)[0]] *)
Fixpoint before_path (s : str) : str :=
  match s with
  | [] => []
  | a :: s' => if existsb (is_char a) (js "/?#") then [] else a :: before_path s'
  end.

Definition cleanConsoleAddress (raw : str) : str := hostOf (before_path (strip_scheme (trim raw))).

Definition withPort (host : str) (port : Z) : str :=
  let bare := hostOf host in
  match bare with
  | [] => []
  | _ =>
      if includes (js ":") bare && negb (starts_with (js "[") bare)
      then js "[" ++ bare ++ js "]:" ++ num port
      else bare ++ js ":" ++ num port
  end.

Definition consoleAddr (host : str) : str :=
  let bare := hostOf host in
  if includes (js ":") bare then withPort bare PS5_AVA1_PORT else bare.

(** ** Lemmas *)

Lemma count_char_app c s t : (count_char c (s ++ t) = count_char c s + count_char c t)%nat.
Proof. unfold count_char. by rewrite List.filter_app, length_app. Qed.

Lemma count_char_0 c s : count_char c s = 0%nat <-> c ∉ s.
Proof.
  unfold count_char. induction s as [|a s IH]; simpl; [set_solver|].
  unfold is_char at 1. case_bool_decide; simpl; set_solver.
Qed.

Lemma includes_char c s : includes [c] s = true <-> c ∈ s.
Proof.
  induction s as [|a s IH]; cbn [includes].
  - split; [|set_solver]. rewrite orb_false_r, starts_with_true. intros H.
    by apply prefix_nil_inv in H.
  - rewrite orb_true_iff, IH, starts_with_true, elem_of_cons. split.
    + intros [H|H]; [|by right]. left. by apply prefix_cons_inv_1 in H.
    + intros [->|H]; [left|by right]. apply prefix_cons, prefix_nil.
Qed.

Lemma index_of_app c s t : c ∉ s -> index_of c (s ++ c :: t) = Some (length s).
Proof.
  intros H. apply index_of_Some. split; [by apply list_lookup_middle|].
  by rewrite take_app_length.
Qed.

(** A host the app keys a console by: a name or IPv4 literal without a colon, or a bare IPv6
    literal; neither starts with a bracket nor holds a closing one. *)
Definition valid_host (h : str) : Prop :=
  h <> [] /\ head h <> Some "["%char /\ ("]"%char ∉ h) /\ ((":"%char ∉ h) \/ isBareIpv6 h = true).

Lemma hostOf_valid h : valid_host h -> hostOf h = h.
Proof.
  intros (Hne & Hb & Hc & Hcol). destruct h as [|a h]; [done|]. unfold hostOf.
  rewrite decide_False by (intros ->; done).
  destruct Hcol as [Hcol| ->]; [|done]. destruct (isBareIpv6 (a :: h)); [done|].
  by apply index_of_None in Hcol as ->.
Qed.

Lemma hostOf_port h p : h <> [] -> head h <> Some "["%char -> (":"%char ∉ h) -> ":"%char ∉ p ->
  hostOf (h ++ js ":" ++ p) = h.
Proof.
  intros Hne Hb Hc Hp. destruct h as [|a h]; [done|].
  assert (isBareIpv6 ((a :: h) ++ js ":" ++ p) = false) as Hip.
  { unfold isBareIpv6. rewrite !count_char_app.
    apply count_char_0 in Hc, Hp. rewrite Hc, Hp. done. }
  unfold hostOf. js_simpl. rewrite decide_False by (intros ->; done). rewrite Hip.
  change (a :: h ++ ":"%char :: p) with ((a :: h) ++ ":"%char :: p).
  rewrite index_of_app by done. by rewrite take_app_length.
Qed.

Lemma hostOf_bracket h p : ("]"%char ∉ h) -> hostOf (js "[" ++ h ++ js "]" ++ p) = h.
Proof.
  intros Hc. unfold hostOf. js_simpl. rewrite decide_True by done.
  change ("["%char :: h ++ "]"%char :: p) with (("["%char :: h) ++ "]"%char :: p).
  rewrite index_of_app by set_solver. simpl. by rewrite take_app_length.
Qed.

Lemma includes_skip c d s t : c ∉ s -> includes [c; d] (s ++ t) = includes [c; d] t.
Proof.
  induction s as [|a s IH]; intros Hc; simpl; [done|].
  rewrite IH by set_solver. assert (starts_with [c; d] (a :: s ++ t) = false) as ->; [|done].
  apply not_true_is_false. rewrite starts_with_true. intros H%prefix_cons_inv_1. set_solver.
Qed.

Lemma includes_cons p a s : includes p (a :: s) = starts_with p (a :: s) || includes p s.
Proof. done. Qed.

Lemma no_double_colon h p1 p2 :
  (":"%char ∉ h) -> p1 <> [] -> ":"%char ∉ p1 -> ":"%char ∉ p2 ->
  includes (js "::") (h ++ ":"%char :: p1 ++ ":"%char :: p2) = false.
Proof.
  intros Hh Hne Hp1 Hp2.
  assert (forall b u, b <> ":"%char -> starts_with (js "::") (":"%char :: b :: u) = false) as Hs.
  { intros b u Hb. apply not_true_is_false. rewrite starts_with_true.
    intros H%prefix_cons_inv_2%prefix_cons_inv_1. congruence. }
  unfold js. simpl. rewrite includes_skip by done. destruct p1 as [|b p1]; [done|].
  rewrite includes_cons. cbn [app]. rewrite Hs by set_solver. rewrite orb_false_l.
  change (b :: p1 ++ ":"%char :: p2) with ((b :: p1) ++ ":"%char :: p2).
  rewrite (includes_skip ":" ":" (b :: p1)) by exact Hp1.
  destruct p2 as [|e p2]; [done|]. rewrite includes_cons, Hs by set_solver. rewrite orb_false_l.
  rewrite <-(app_nil_r (e :: p2)), (includes_skip ":" ":" (e :: p2)) by exact Hp2. done.
Qed.

(** A decimal number is digits and a sign: never a colon. *)
Lemma pretty_N_go_no_colon n s : ":"%char ∉ js s -> ":"%char ∉ js (pretty_N_go n s).
Proof.
  revert s. induction (N.lt_wf_0 n) as [n _ IH]. intros s Hs.
  destruct (decide (0 < n)%N) as [Hn|Hn].
  - rewrite pretty_N_go_step by done. apply IH; [apply N.div_lt; lia|].
    unfold js. simpl. apply not_elem_of_cons. split; [|done].
    unfold pretty_N_char. repeat case_match; discriminate.
  - assert (n = 0)%N as -> by lia. by rewrite pretty_N_go_0.
Qed.

Lemma num_no_colon n : ":"%char ∉ num n.
Proof.
  assert (forall m : N, ":"%char ∉ js (pretty m)) as Hn.
  { intros m. unfold pretty, pretty_N. case_decide; [by apply (bool_decide_unpack _)|].
    apply pretty_N_go_no_colon. by apply not_elem_of_nil. }
  unfold num, pretty, pretty_Z. destruct n as [|p|p]; [by apply (bool_decide_unpack _)| |].
  - apply (Hn (N.pos p)).
  - unfold js. simpl. apply not_elem_of_cons. split; [done|]. apply (Hn (N.pos p)).
Qed.

Lemma withPort_shape h p : valid_host h ->
  withPort h p = if decide (":"%char ∈ h) then js "[" ++ h ++ js "]:" ++ num p
                 else h ++ js ":" ++ num p.
Proof.
  intros Hv. unfold withPort. rewrite hostOf_valid by done.
  destruct Hv as (Hne & Hb & _). destruct h as [|a h]; [done|].
  assert (starts_with (js "[") (a :: h) = false) as ->.
  { apply not_true_is_false. rewrite starts_with_true. intros H%prefix_cons_inv_1.
    by subst. }
  rewrite andb_true_r. case_decide as Hd.
  - by assert (includes (js ":") (a :: h) = true) as -> by by apply includes_char.
  - destruct (includes (js ":") (a :: h)) eqn:E; [|done]. by apply includes_char in E.
Qed.

(** a console address keeps its host.  Whatever port is put on a host, the host read back
    is the same; putting another port on the result replaces the first one instead of stacking
    it; and the address sent to the engine still names that host.  The legacy
    [host:port:port] form reads as its host too. *)
Theorem hostOf_withPort (h : str) (p q : Z) :
  valid_host h ->
  hostOf (withPort h p) = h /\
  withPort (withPort h p) q = withPort h q /\
  hostOf (consoleAddr h) = h /\ consoleAddr (consoleAddr h) = consoleAddr h /\
  ((":"%char ∉ h) -> "."%char ∈ h ->
     forall p1 p2, p1 <> [] -> ":"%char ∉ p1 -> ":"%char ∉ p2 ->
       hostOf (h ++ js ":" ++ p1 ++ js ":" ++ p2) = h).
Proof.
  intros Hv.
  assert (forall p, hostOf (withPort h p) = h) as Hr.
  { intros p'. rewrite withPort_shape by done. destruct Hv as (Hne & Hb & Hc & Hcol).
    case_decide.
    - change (js "]:" ++ num p') with (js "]" ++ js ":" ++ num p'). by apply hostOf_bracket.
    - apply hostOf_port; try done. apply num_no_colon. }
  assert (hostOf (consoleAddr h) = h) as Hca.
  { unfold consoleAddr. rewrite (hostOf_valid h) by done. case_match; [done|].
    by apply hostOf_valid. }
  split_and!; [done| |done| |].
  - unfold withPort at 1. rewrite Hr. unfold withPort. by rewrite (hostOf_valid h).
  - unfold consoleAddr at 1. rewrite Hca. unfold consoleAddr. by rewrite (hostOf_valid h).
  - clear Hr Hca. intros Hc Hdot p1 p2 Hp1 Hp1c Hp2c.
    destruct Hv as (Hne & Hb & _ & _). destruct h as [|a h]; [done|].
    assert (isBareIpv6 ((a :: h) ++ js ":" ++ p1 ++ js ":" ++ p2) = false) as Hip.
    { assert (count_char ":" ((a :: h) ++ js ":" ++ p1 ++ js ":" ++ p2) = 2%nat) as Hn.
      { rewrite !count_char_app.
        apply count_char_0 in Hp1c as ->, Hp2c as ->, Hc as ->. done. }
      pose proof (no_double_colon (a :: h) p1 p2 Hc Hp1 Hp1c Hp2c) as Hdd.
      unfold isBareIpv6. rewrite Hn. js_simpl. rewrite Hdd. cbn [Nat.ltb Nat.leb].
      assert (includes ["."%char] ((a :: h) ++ ":"%char :: p1 ++ ":"%char :: p2) = true) as Hd.
      { apply includes_char. set_solver. }
      js_simpl. by rewrite Hd. }
    unfold hostOf. js_simpl. rewrite decide_False by (intros ->; done). rewrite Hip.
    change (a :: h ++ ":"%char :: p1 ++ ":"%char :: p2)
      with ((a :: h) ++ ":"%char :: (p1 ++ ":"%char :: p2)).
    rewrite index_of_app by done. by rewrite take_app_length.
Qed.

Lemma hostOf_withPort_witness : hostOf (withPort (js "10.0.0.2") 9113) = js "10.0.0.2".
Proof.
  apply (hostOf_withPort (js "10.0.0.2") 9113 9021). split_and!; [discriminate|discriminate| |left].
  - apply (bool_decide_unpack _). vm_compute. exact I.
  - apply (bool_decide_unpack _). vm_compute. exact I.
Defined.
