(* ===== verification/Semver.v ===== *)
(** Versions (client/src/lib/semver.ts) and what the Games move's progress reader makes of a failed
    read (client/src/lib/movePollerPolicy.ts), which turns on them. Numbers are exact: the code's are up
    to 2^53. *)
From S2P Require Import Prelude Addr.

(** * Parsing *)

Fixpoint span (p : ascii -> bool) (s : str) : str * str :=
  match s with
  | [] => ([], [])
  | a :: s' => if p a then (a :: (span p s').1, (span p s').2) else ([], s)
  end.
(** [[A-Za-z0-9.-]] *)
Definition is_ident (a : ascii) : bool := is_alpha a || is_digit a || is_char "." a || is_char "-" a.
Definition skip_char (c : ascii) (s : str) : option str := match s with a :: s' => if is_char c a then Some s' else None | [] => None end.
(** A nonempty run: [(\d+)], [([A-Za-z0-9.-]+)]. *)
Definition run_of (p : ascii -> bool) (s : str) : option (str * str) :=
  match span p s with ([], _) => None | r => Some r end.

Record ParsedVersion := { parts : Z * Z * Z; pre : option str }.
#[export] Instance parsed_eq_dec : EqDecision ParsedVersion.
Proof. solve_decision. Defined.

(** What may follow the three numbers: [(?:\+([A-Za-z0-9.-]+))?$]. *)
Definition build_ok (s : str) : bool :=
  match s with
  | [] => true
  | a :: s' => is_char "+" a && match run_of is_ident s' with Some (_, []) => true | _ => false end
  end.
Definition parse_pre (s : str) : option (option str) :=
  match skip_char "-" s with
  | Some s' => r ← run_of is_ident s'; if build_ok r.2 then Some (Some r.1) else None
  | None => if build_ok s then Some None else None
  end.
Definition parseVersion (v : str) : option ParsedVersion :=
  let s := trim v in
  let s := skip_char "v" s ?? s in
  a ← run_of is_digit s; s1 ← skip_char "." a.2;
  b ← run_of is_digit s1; s2 ← skip_char "." b.2;
  c ← run_of is_digit s2;
  p ← parse_pre c.2;
  Some {| parts := (parse_dec a.1, parse_dec b.1, parse_dec c.1); pre := p |}.

(** * Ordering *)

(** [/^\d+$/.test(x)] *)
Definition numeric (x : str) : bool := negb (bool_decide (x = [])) && forallb is_digit x.
(** One pair of differing identifiers. *)
Definition compare_ident (x y : str) : Z :=
  if numeric x && numeric y then if parse_dec x <? parse_dec y then -1 else 1
  else if negb (Bool.eqb (numeric x) (numeric y)) then if numeric x then -1 else 1
  else if str_lt x y then -1 else 1.
Fixpoint compare_idents (xs ys : list str) (longer : Z) : Z :=
  match xs, ys with
  | x :: xs', y :: ys' => if decide (x = y) then compare_idents xs' ys' longer else compare_ident x y
  | _, _ => longer
  end.
Definition comparePreRelease (a b : str) : Z :=
  let xs := split_on "." a in
  let ys := split_on "." b in
  compare_idents xs ys (if (length xs <? length ys)%nat then -1 else 1).

Definition compare_parsed (pa pb : ParsedVersion) : Z :=
  let '(a1, a2, a3) := parts pa in
  let '(b1, b2, b3) := parts pb in
  if a1 <? b1 then -1 else if b1 <? a1 then 1 else
  if a2 <? b2 then -1 else if b2 <? a2 then 1 else
  if a3 <? b3 then -1 else if b3 <? a3 then 1 else
  match pre pa, pre pb with
  | Some _, None => -1
  | None, Some _ => 1
  | None, None => 0
  | Some p, Some q => if decide (p = q) then 0 else comparePreRelease p q
  end.
Definition compareVersions (a b : str) : option Z :=
  match parseVersion a, parseVersion b with
  | Some pa, Some pb => Some (compare_parsed pa pb)
  | _, _ => None
  end.

(** * A failed progress read *)

Inductive MovePollOutcome := PRetry | PStopSilent | PStopOldPayload (threshold : str).
Definition CONSECUTIVE_FAILURE_LIMIT : Z := 5.
Definition FS_OP_STATUS_INTRODUCED : str := js "2.2.7".
Definition FS_OP_STATUS_ACK_BUFFER_FIX : str := js "2.2.16".

Definition classifyMovePollError (payloadVersion : option str) (errorMsg : str) (consecutiveFailures : Z) : MovePollOutcome :=
  let version := match payloadVersion with Some (_ :: _) => payloadVersion | _ => None end in
  let introCmp := v ← version; compareVersions v FS_OP_STATUS_INTRODUCED in
  let bufferCmp := v ← version; compareVersions v FS_OP_STATUS_ACK_BUFFER_FIX in
  let versionKnown := match introCmp, bufferCmp with Some _, Some _ => true | _, _ => false end in
  if versionKnown && bool_decide (introCmp = Some (-1)) then PStopOldPayload FS_OP_STATUS_INTRODUCED
  else if versionKnown && bool_decide (bufferCmp = Some (-1)) then PStopOldPayload FS_OP_STATUS_ACK_BUFFER_FIX
  else if consecutiveFailures <? CONSECUTIVE_FAILURE_LIMIT then PRetry
  else if negb versionKnown && includes (js "decode FS_OP_STATUS_ACK body") errorMsg then PStopOldPayload FS_OP_STATUS_ACK_BUFFER_FIX
  else if negb versionKnown && includes (js "unsupported_frame") errorMsg then PStopOldPayload FS_OP_STATUS_INTRODUCED
  else PStopSilent.
Definition isExpectedNotInFlight (errorMsg : str) : bool :=
  includes (js "404") errorMsg || includes (js "not in flight") errorMsg.

(** * Versions are ordered *)

(** The tags semver allows: a number is written without leading zeros. *)
Definition plain_ident (x : str) : Prop := numeric x = true -> x = num (parse_dec x).
Definition plain (v : ParsedVersion) : Prop := match pre v with Some p => Forall plain_ident (split_on "." p) | None => True end.

Lemma compare_ident_cases x y : compare_ident x y = -1 \/ compare_ident x y = 1.
Proof. unfold compare_ident. repeat case_match; auto. Qed.
Lemma compare_ident_anti x y : plain_ident x -> plain_ident y -> x <> y -> compare_ident y x = - compare_ident x y.
Proof.
  intros Hx Hy Hne. unfold compare_ident.
  destruct (numeric x) eqn:Ex, (numeric y) eqn:Ey; simpl; [|done|done|].
  - assert (parse_dec x <> parse_dec y) by (intros E; apply Hne; by rewrite (Hx Ex), (Hy Ey), E).
    do 2 case_match; lia.
  - destruct (str_lt x y) eqn:E1, (str_lt y x) eqn:E2; [|done|done|].
    + by rewrite (str_lt_asym _ _ E1) in E2.
    + by rewrite (str_lt_total _ _ Hne E1) in E2.
Qed.
Lemma compare_ident_trans x y z : compare_ident x y = -1 -> compare_ident y z = -1 -> compare_ident x z = -1.
Proof.
  unfold compare_ident. destruct (numeric x), (numeric y), (numeric z); simpl; try done.
  - do 2 case_match; try done. intros _ _. case_match; [done|lia].
  - destruct (str_lt x y) eqn:E1; [|done]. destruct (str_lt y z) eqn:E2; [|done]. intros _ _.
    by rewrite (str_lt_trans _ _ _ E1 E2).
Qed.
Lemma compare_ident_irrefl x y : plain_ident x -> plain_ident y -> compare_ident x y = -1 -> compare_ident y x = -1 -> False.
Proof.
  intros Hx Hy H1 H2. destruct (decide (x = y)) as [->|Hne]; [|rewrite compare_ident_anti in H2; [lia|done..]].
  revert H1. unfold compare_ident. rewrite Z.ltb_irrefl, str_lt_irrefl. by destruct (numeric y).
Qed.
Definition compare_lists (xs ys : list str) : Z := compare_idents xs ys (if (length xs <? length ys)%nat then -1 else 1).
Lemma compare_lists_cons x xs y ys : compare_lists (x :: xs) (y :: ys) = if decide (x = y) then compare_lists xs ys else compare_ident x y.
Proof. done. Qed.
Lemma compare_lists_cases xs ys : compare_lists xs ys = -1 \/ compare_lists xs ys = 1.
Proof.
  revert ys. induction xs as [|x xs IH]; intros [|y ys]; [by right|by left|by right|].
  rewrite compare_lists_cons. case_decide; [apply IH|apply compare_ident_cases].
Qed.
Lemma compare_lists_anti xs ys : Forall plain_ident xs -> Forall plain_ident ys -> xs <> ys ->
  compare_lists ys xs = - compare_lists xs ys.
Proof.
  revert ys. induction xs as [|x xs IH]; intros [|y ys]; [done|done|done|].
  intros [Hx Hxs]%Forall_cons [Hy Hys]%Forall_cons Hne. rewrite !compare_lists_cons.
  destruct (decide (x = y)) as [->|Hxy]; [rewrite decide_True by done; apply IH; congruence|].
  rewrite decide_False by done. by apply compare_ident_anti.
Qed.
Lemma compare_lists_trans xs ys zs : Forall plain_ident xs -> Forall plain_ident ys ->
  compare_lists xs ys = -1 -> compare_lists ys zs = -1 -> compare_lists xs zs = -1.
Proof.
  revert ys zs. induction xs as [|x xs IH]; intros [|y ys] [|z zs]; try done.
  intros [Hx Hxs]%Forall_cons [Hy Hys]%Forall_cons. rewrite !compare_lists_cons.
  destruct (decide (x = y)) as [->|Hxy], (decide (y = z)) as [->|Hyz]; [|done| |].
  - by apply IH.
  - intros H1 _. by destruct (decide (x = z)).
  - intros H1 H2. destruct (decide (x = z)) as [->|Hxz]; [|by eapply compare_ident_trans].
    destruct (compare_ident_irrefl z y); done.
Qed.
Lemma split_on_join c s : join_with [c] (split_on c s) = s.
Proof.
  induction s as [|a s IH]; [done|]. simpl. destruct (decide (a = c)) as [->|Ha].
  - destruct (split_on c s) eqn:E; [by destruct s; simpl in E; repeat case_match|]. simpl in *. by rewrite <-IH.
  - destruct (split_on c s) as [|w ws]; [simpl in IH; by subst|]. simpl in *. destruct ws; by rewrite <-IH.
Qed.
Lemma split_on_inj c s t : split_on c s = split_on c t -> s = t.
Proof. intros H. by rewrite <-(split_on_join c s), H, split_on_join. Qed.

(** [p] comes before [q] as tags of one version: any tag before none. *)
Definition pre_before (p q : option str) : Prop :=
  match p, q with
  | Some _, None => True
  | Some p, Some q => p <> q /\ comparePreRelease p q = -1
  | None, _ => False
  end.
Definition before (a b : ParsedVersion) : Prop :=
  let '(a1, a2, a3) := parts a in
  let '(b1, b2, b3) := parts b in
  a1 < b1 \/ a1 = b1 /\ (a2 < b2 \/ a2 = b2 /\ (a3 < b3 \/ a3 = b3 /\ pre_before (pre a) (pre b))).
Lemma comparePreRelease_cases p q : comparePreRelease p q = -1 \/ comparePreRelease p q = 1.
Proof. apply compare_lists_cases. Qed.
Lemma pre_before_trans p q r : plain {| parts := (0, 0, 0); pre := p |} -> plain {| parts := (0, 0, 0); pre := q |} ->
  pre_before p q -> pre_before q r -> pre_before p r.
Proof.
  destruct p as [p|], q as [q|], r as [r|]; unfold plain; simpl; try done. intros Hp Hq [Hpq H1] [Hqr H2].
  assert (comparePreRelease p r = -1) as H3 by by eapply compare_lists_trans. split; [|done]. intros ->.
  unfold comparePreRelease in *. fold (compare_lists (split_on "." r) (split_on "." q)) in H1.
  fold (compare_lists (split_on "." q) (split_on "." r)) in H2.
  rewrite compare_lists_anti in H2; [lia|done|done|]. by intros H%split_on_inj.
Qed.
(** The comparison's three answers. *)
Lemma compare_parsed_spec a b : plain a -> plain b ->
  (compare_parsed a b = -1 /\ before a b) \/ (compare_parsed a b = 0 /\ a = b) \/ (compare_parsed a b = 1 /\ before b a).
Proof.
  destruct a as [[[a1 a2] a3] p], b as [[[b1 b2] b3] q]. unfold compare_parsed, before, plain. simpl. intros Hp Hq.
  destruct (Z.ltb_spec a1 b1); [by left; auto|]. destruct (Z.ltb_spec b1 a1); [by right; right; auto|]. assert (a1 = b1) as -> by lia.
  destruct (Z.ltb_spec a2 b2); [by left; auto 6|]. destruct (Z.ltb_spec b2 a2); [by right; right; auto 6|]. assert (a2 = b2) as -> by lia.
  destruct (Z.ltb_spec a3 b3); [by left; auto 8|]. destruct (Z.ltb_spec b3 a3); [by right; right; auto 8|]. assert (a3 = b3) as -> by lia.
  destruct p as [p|], q as [q|]; simpl;
    [|left; split; [done|]; by do 3 (right; split; [done|])|right; right; split; [done|]; by do 3 (right; split; [done|])|by right; left].
  destruct (decide (p = q)) as [->|Hne]; [by right; left|].
  destruct (comparePreRelease_cases p q) as [E|E]; rewrite E; [left; split; [done|]; by do 3 (right; split; [done|])|].
  right. right. split; [done|]. do 3 (right; split; [done|]). split; [done|].
  pose proof (compare_lists_anti _ _ Hp Hq ltac:(by intros Hx%split_on_inj)) as Ha. unfold compare_lists in Ha.
  unfold comparePreRelease in *. rewrite Ha, E. done.
Qed.
Lemma before_trans a b c : plain a -> plain b -> before a b -> before b c -> before a c.
Proof.
  destruct a as [[[a1 a2] a3] p], b as [[[b1 b2] b3] q], c as [[[c1 c2] c3] r]. unfold before. simpl. intros Hp Hq.
  pose proof (pre_before_trans p q r Hp Hq) as Ht.
  intros [?|(-> & [?|(-> & [?|(-> & H1)])])] [?|(-> & [?|(-> & [?|(-> & H2)])])]; try (left; lia);
    right; (split; [lia|]); try (left; lia); right; (split; [lia|]); try (left; lia); right; (split; [lia|]); by apply Ht.
Qed.
Lemma before_irrefl a : plain a -> before a a -> False.
Proof.
  destruct a as [[[a1 a2] a3] p]. unfold before. simpl. intros Hp.
  intros [?|(_ & [?|(_ & [?|(_ & H)])])]; [lia..|]. destruct p as [p|]; simpl in H; [|done]. by destruct H.
Qed.

(** Versions are totally ordered, as semver says: of two that parse (tag numbers written without
    leading zeros) exactly one of before, same and after holds, the answers for the two orders of asking
    are opposite, "same" means the same numbers and tag, and being older goes through a third version; a
    text that is no version is compared with nothing. *)
Theorem compareVersions_order a b c pa pb pc :
  parseVersion a = Some pa -> parseVersion b = Some pb -> parseVersion c = Some pc -> plain pa -> plain pb -> plain pc ->
  exists z, compareVersions a b = Some z /\ compareVersions b a = Some (- z) /\
    (z = -1 \/ z = 0 \/ z = 1) /\ (z = 0 <-> pa = pb) /\ (z = -1 <-> before pa pb) /\
    (z = -1 -> compareVersions b c = Some (-1) -> compareVersions a c = Some (-1)) /\
    forall d, parseVersion d = None -> compareVersions a d = None /\ compareVersions d a = None.
Proof.
  intros Ha Hb Hc Hpa Hpb Hpc. exists (compare_parsed pa pb). unfold compareVersions. rewrite Ha, Hb, Hc.
  pose proof (before_irrefl pa Hpa) as Hirr. pose proof (before_irrefl pb Hpb) as Hirr'.
  pose proof (before_trans pa pb pa Hpa Hpb) as Hab. pose proof (before_trans pa pb pc Hpa Hpb) as Habc.
  pose proof (before_trans pa pc pa Hpa Hpc) as Hac.
  assert (forall d, parseVersion d = None -> match parseVersion d with Some pd => Some (compare_parsed pa pd) | None => None end = None /\
    match parseVersion d with Some pd => Some (compare_parsed pd pa) | None => None end = None) as Hd by (intros d ->; done).
  destruct (compare_parsed_spec pa pb Hpa Hpb) as [[E H1]|[[E H1]|[E H1]]], (compare_parsed_spec pb pa Hpb Hpa) as [[E' H2]|[[E' H2]|[E' H2]]];
    subst; try (exfalso; by eauto); rewrite ?E, ?E'.
  all: split_and!; [done|done|by auto|try (by split; [lia|intros <-; exfalso; eauto])|try (split; [done|intros; exfalso; by eauto])|try lia|done].
  all: try done.
  intros _ [= Ebc]. destruct (compare_parsed_spec pb pc Hpb Hpc) as [[_ H3]|[[E3 _]|[E3 _]]]; [|congruence..].
  destruct (compare_parsed_spec pa pc Hpa Hpc) as [[-> _]|[[_ <-]|[_ H4]]]; [done|by destruct (Hirr (Hab H1 H3))|].
  destruct Hirr. apply Hac; [by apply Habc|done].
Qed.
Definition parsed (v : string) : ParsedVersion := parseVersion (js v) ?? {| parts := (0, 0, 0); pre := None |}.
Lemma plain_ident_words : Forall plain_ident (split_on "." (js "rc.9")) /\ Forall plain_ident (split_on "." (js "rc.10")).
Proof. split; repeat constructor; intros H; try discriminate H; vm_compute; reflexivity. Qed.
Lemma compareVersions_order_witness :
  compareVersions (js "2.2.3-rc.9") (js "v2.2.3-rc.10+build") = Some (-1) /\ compareVersions (js "2.2.3-rc.9") (js "2.2.3") = Some (-1).
Proof.
  destruct (compareVersions_order (js "2.2.3-rc.9") (js "v2.2.3-rc.10+build") (js "2.2.3") (parsed "2.2.3-rc.9") (parsed "2.2.3-rc.10")
    (parsed "2.2.3")) as (z & H1 & _ & _ & _ & _ & H6 & _);
    [vm_compute; reflexivity..|apply plain_ident_words|apply plain_ident_words|exact I|].
  assert (z = -1) as -> by (vm_compute in H1; congruence).
  split; [exact H1|]. apply H6; [reflexivity|vm_compute; reflexivity].
Defined.
(** A tag's number with a leading zero, which semver forbids and the parser lets through: each of the
    two is newer than the other. *)
Lemma leading_zero_unordered : compareVersions (js "1.0.0-01") (js "1.0.0-1") = Some 1 /\ compareVersions (js "1.0.0-1") (js "1.0.0-01") = Some 1.
Proof. split; vm_compute; reflexivity. Qed.

(** Five failed reads in a row end the reading, and "the helper is too old" is said of a version known
    to be, or of an unknown one after five failures that look like it. *)
Lemma classify_gives_up version m n : CONSECUTIVE_FAILURE_LIMIT <= n -> classifyMovePollError version m n <> PRetry.
Proof. intros Hn. unfold classifyMovePollError. rewrite (proj2 (Z.ltb_ge n _)) by done. by repeat case_match. Qed.
Lemma banner_of_known_version version m n t v c : version = Some v -> v <> [] -> compareVersions v FS_OP_STATUS_ACK_BUFFER_FIX = Some c ->
  classifyMovePollError version m n = PStopOldPayload t -> c = -1.
Proof.
  intros -> Hv Hc. unfold classifyMovePollError. destruct v as [|x v]; [done|]. simpl. rewrite Hc.
  assert (exists c', compareVersions (x :: v) FS_OP_STATUS_INTRODUCED = Some c' /\ (c' = -1 -> c = -1)) as (c' & -> & Hcc).
  { unfold compareVersions in *. destruct (parseVersion (x :: v)) as [pv|] eqn:E; [|done].
    assert (exists p, parseVersion FS_OP_STATUS_INTRODUCED = Some p /\ p = {| parts := (2, 2, 7); pre := None |}) as (p & -> & ->) by (eexists; split; vm_compute; reflexivity).
    assert (exists p, parseVersion FS_OP_STATUS_ACK_BUFFER_FIX = Some p /\ p = {| parts := (2, 2, 16); pre := None |}) as (p & Hp & ->) by (eexists; split; vm_compute; reflexivity).
    rewrite Hp in Hc. injection Hc as <-. eexists. split; [done|]. unfold compare_parsed. destruct pv as [[[a b] d] [q|]]; simpl;
      repeat case_match; rewrite ?Z.ltb_lt, ?Z.ltb_ge in *; lia. }
  repeat case_bool_decide; simplify_eq; simpl; try done; try (by rewrite Hcc).
  - case_match; done.
Qed.
Example compare_examples :
  map (fun p => compareVersions (js p.1) (js p.2))
    [("2.2.7", "2.2.16"); ("v2.2.16", " 2.2.16 "); ("2.2.3-rc1", "2.2.3"); ("2.2.3-rc.9", "2.2.3-rc.10"); ("2.2.0+sha.abc", "2.2.0");
     ("2.2.3-rc.1", "2.2.3-rc.x"); ("2.2.3-rc", "2.2.3-rc.1"); ("2.2", "2.2.0"); ("2.2.0-", "2.2.0")]%string
  = [Some (-1); Some 0; Some (-1); Some (-1); Some 0; Some (-1); Some (-1); None; None].
Proof. vm_compute. reflexivity. Qed.
