(* ===== verification/RemotePath.v ===== *)
(** Paths of a file on a saved server (client/src/lib/remotePath.ts). *)
From S2P Require Import Prelude.

Definition SCHEME : str := js "remote://".
Definition isRemotePath (p : str) : bool := starts_with SCHEME p.
