(* ===== verification/QueueOps.v ===== *)
(** The list edits behind the upload queue and the payload playlists
    (client/src/lib/queueOps.ts): moving a row within its group, dropping one where another
    is, removing and patching one.  Rows are any type with an [id]; a group key is a string.
    A call that changes nothing gives back the list it was given. *)
From S2P Require Import Prelude.

Section queue_ops.
Context {T : Type} (id_of : T -> str).

Definition has_id (i : str) (it : T) : bool := bool_decide (id_of it = i).
Definition index_by_id (items : list T) (i : str) : option nat := find_index (has_id i) items.

(** [[next[j], next[i]] = [next[i], next[j]]] on a copy of [items]. *)
Definition swap (items : list T) (i j : nat) : list T :=
  match items !! i, items !! j with
  | Some x, Some y => <[j := x]> (<[i := y]> items)
  | _, _ => items
  end.

Section groups.
Context (group_of : T -> str).

Definition in_group (g : str) (it : T) : bool := bool_decide (group_of it = g).

(** [for (let k = i - 1; k >= 0; k--) if (groupOf(items[k]) === g) …] *)
Fixpoint prev_in_group (items : list T) (g : str) (i : nat) : option nat :=
  match i with
  | O => None
  | S k =>
      match items !! k with
      | Some it => if in_group g it then Some k else prev_in_group items g k
      | None => prev_in_group items g k
      end
  end.

(** [for (let k = i + 1; k < items.length; k++) if (groupOf(items[k]) === g) …] *)
Definition next_in_group (items : list T) (g : str) (i : nat) : option nat :=
  Nat.add (S i) <$> find_index (in_group g) (drop (S i) items).

Definition moveItemUpWithinGroup (items : list T) (i : str) : list T :=
  match index_by_id items i with
  | None => items
  | Some k =>
      match items !! k with
      | None => items
      | Some it =>
          match prev_in_group items (group_of it) k with
          | None => items
          | Some j => swap items j k
          end
      end
  end.

Definition moveItemDownWithinGroup (items : list T) (i : str) : list T :=
  match index_by_id items i with
  | None => items
  | Some k =>
      match items !! k with
      | None => items
      | Some it =>
          match next_in_group items (group_of it) k with
          | None => items
          | Some j => swap items k j
          end
      end
  end.

(** The array slots of group [g], from index [at_]. *)
Fixpoint slots_from (at_ : nat) (g : str) (items : list T) : list nat :=
  match items with
  | [] => []
  | it :: rest =>
      if in_group g it then at_ :: slots_from (S at_) g rest else slots_from (S at_) g rest
  end.

(** [slots.forEach((slot, k) => { next[slot] = members[k]; })] *)
Definition write_slots (next : list T) (slots : list nat) (members : list T) : list T :=
  fold_left (fun acc '(slot, m) => <[slot := m]> acc) (zip slots members) next.

(** [members.splice(fi, 1); members.splice(ti, 0, from);] *)
Definition splice_move (members : list T) (fi ti : nat) (from : T) : list T :=
  let rest := take fi members ++ drop (S fi) members in
  take ti rest ++ from :: drop ti rest.

Definition moveItemToWithinGroup (items : list T) (i target : str) : list T :=
  if decide (i = target) then items
  else
    match find_first (has_id i) items, find_first (has_id target) items with
    | Some from, Some to =>
        let g := group_of from in
        if negb (bool_decide (group_of to = g)) then items
        else
          let slots := slots_from 0 g items in
          let members := omap (fun k => items !! k) slots in
          match find_index (has_id i) members, find_index (has_id target) members with
          | Some fi, Some ti => write_slots items slots (splice_move members fi ti from)
          | _, _ => items
          end
    | _, _ => items
    end.
End groups.

Inductive side := before | after.

Definition dropSide (order : list str) (dragId overId : str) : option side :=
  match find_index (fun x => bool_decide (x = dragId)) order,
        find_index (fun x => bool_decide (x = overId)) order with
  | Some from, Some to =>
      if decide (from = to) then None
      else if decide (from < to)%nat then Some after else Some before
  | _, _ => None
  end.

Definition removeItem (items : list T) (i : str) : list T :=
  match index_by_id items i with
  | None => items
  | Some k => take k items ++ drop (S k) items
  end.

Definition patchItem (items : list T) (i : str) (patch : T -> T) : list T :=
  match index_by_id items i with
  | None => items
  | Some k => match items !! k with Some it => <[k := patch it]> items | None => items end
  end.

(** ** Lemmas *)

Lemma has_id_true i it : has_id i it = true <-> id_of it = i.
Proof. unfold has_id. by rewrite bool_decide_eq_true. Qed.

Lemma swap_perm items i j : swap items i j ≡ₚ items.
Proof.
  unfold swap. destruct (items !! i) eqn:Hi, (items !! j) eqn:Hj; try done.
  by apply Permutation_insert_swap.
Qed.

Lemma index_by_id_Some items i k :
  index_by_id items i = Some k -> exists it, items !! k = Some it /\ id_of it = i.
Proof.
  unfold index_by_id. rewrite find_index_Some. intros (x & ? & ?%has_id_true & _). eauto.
Qed.

Lemma index_by_id_NoDup items i k it :
  NoDup (map id_of items) -> items !! k = Some it -> id_of it = i ->
  index_by_id items i = Some k.
Proof.
  intros Hnd Hk Hi. apply find_index_Some. exists it. rewrite has_id_true. split_and!; try done.
  intros j y Hj Hy. unfold has_id. apply bool_decide_eq_false. intros Hid.
  assert (j = k); [|lia]. apply (NoDup_lookup (map id_of items) j k i); [done| |];
    (rewrite list_lookup_fmap; first [rewrite Hy|rewrite Hk]; simpl; congruence).
Qed.

Lemma elem_removeItem items i x :
  NoDup (map id_of items) -> x ∈ removeItem items i <-> x ∈ items /\ id_of x <> i.
Proof.
  intros Hnd. unfold removeItem. destruct (index_by_id items i) as [k|] eqn:E.
  - apply index_by_id_Some in E as (it & Hk & Hi).
    pose proof (take_drop_middle items k it Hk) as Hs.
    rewrite <-Hs in Hnd. rewrite map_app in Hnd. simpl in Hnd.
    apply NoDup_app in Hnd as (H1 & H2 & H3). apply NoDup_cons in H3 as [H3 H4].
    rewrite <-Hs at 3. rewrite !elem_of_app, elem_of_cons.
    split.
    + intros [Hx|Hx]; (split; [tauto|]); intros Heq.
      * eapply H2; [by eapply list_elem_of_fmap_2|]. rewrite Heq, Hi. set_solver.
      * apply H3. rewrite Hi, <-Heq. by eapply list_elem_of_fmap_2.
    + intros [[?|[->|?]] Hne]; [by left|congruence|by right].
  - unfold index_by_id in E. rewrite find_index_None in E. split; [|tauto].
    intros Hx. split; [done|]. intros Heq. apply E in Hx. unfold has_id in Hx. bool_prop. done.
Qed.

(** With distinct ids, patching row [i] is mapping over the rows with that id. *)
Lemma patchItem_map items i f :
  NoDup (map id_of items) ->
  patchItem items i f = map (fun y => if has_id i y then f y else y) items.
Proof.
  intros Hnd. unfold patchItem. destruct (index_by_id items i) as [k|] eqn:E.
  - apply find_index_Some in E as (x & Hx & Hp & _). rewrite Hx.
    unfold has_id in Hp. apply bool_decide_eq_true in Hp.
    apply list_eq. intros j. rewrite list_lookup_fmap.
    destruct (decide (j = k)) as [->|Hj].
    + rewrite list_lookup_insert_eq by (by eapply lookup_lt_Some). rewrite Hx. simpl.
      unfold has_id. by rewrite bool_decide_eq_true_2.
    + rewrite list_lookup_insert_ne by done. destruct (items !! j) as [y|] eqn:Ey; [|done].
      simpl. unfold has_id. rewrite bool_decide_eq_false_2; [done|]. intros Hy. apply Hj.
      eapply (NoDup_lookup (map id_of items)); [done| |]; rewrite list_lookup_fmap.
      * rewrite Ey. simpl. by rewrite Hy.
      * rewrite Hx. simpl. by rewrite Hp.
  - unfold index_by_id in E. rewrite find_index_None in E. symmetry.
    rewrite <-(list_fmap_id items) at 2. apply list_fmap_ext. intros j y Hy.
    rewrite E; [done|]. by eapply list_elem_of_lookup_2.
Qed.

Lemma removeItem_sublist items i : removeItem items i `sublist_of` items.
Proof.
  unfold removeItem. destruct (index_by_id items i) as [k|]; [|done].
  rewrite <-(take_drop k items) at 3. apply sublist_app; [done|].
  replace (drop (S k) items) with (drop 1 (drop k items)) by (rewrite drop_drop; f_equal; lia).
  apply sublist_drop.
Qed.

Section group_lemmas.
Context (group_of : T -> str).
Abbreviation members g items := (List.filter (in_group group_of g) items).

Lemma in_group_true g it : in_group group_of g it = true <-> group_of it = g.
Proof. unfold in_group. by rewrite bool_decide_eq_true. Qed.

(** The rows of group [g] replaced, in order, by [ms]. *)
Fixpoint refill (g : str) (items ms : list T) : list T :=
  match items with
  | [] => []
  | it :: rest =>
      if in_group group_of g it then
        match ms with
        | [] => it :: rest
        | m :: ms' => m :: refill g rest ms'
        end
      else it :: refill g rest ms
  end.

Lemma refill_nil g items : refill g items [] = items.
Proof. induction items as [|it rest IH]; simpl; [done|]. case_match; [done|]. by rewrite IH. Qed.

Lemma write_slots_refill g items ms pre :
  write_slots (pre ++ items) (slots_from group_of (length pre) g items) ms
  = pre ++ refill g items ms.
Proof.
  revert pre ms; induction items as [|it rest IH]; intros pre ms; simpl; [done|].
  destruct (in_group group_of g it) eqn:Hg.
  - destruct ms as [|m ms]; [done|]. unfold write_slots. simpl.
    rewrite insert_app_r_alt, Nat.sub_diag by lia. simpl.
    specialize (IH (pre ++ [m]) ms). rewrite length_app in IH. simpl in IH.
    rewrite Nat.add_1_r in IH. rewrite <-!(assoc_L (++)) in IH. exact IH.
  - specialize (IH (pre ++ [it]) ms). rewrite length_app in IH. simpl in IH.
    rewrite Nat.add_1_r in IH. rewrite <-!(assoc_L (++)) in IH. exact IH.
Qed.

Lemma slots_members g items pre :
  omap (fun k => (pre ++ items) !! k) (slots_from group_of (length pre) g items) = members g items.
Proof.
  revert pre; induction items as [|it rest IH]; intros pre; simpl; [done|].
  specialize (IH (pre ++ [it])). rewrite length_app in IH. simpl in IH.
  rewrite Nat.add_1_r in IH. rewrite <-!(assoc_L (++)) in IH. simpl in IH.
  destruct (in_group group_of g it) eqn:Hg; simpl; [|exact IH].
  rewrite list_lookup_middle by done. f_equal. exact IH.
Qed.

Lemma refill_groups g items ms :
  Forall (fun m => group_of m = g) ms -> map group_of (refill g items ms) = map group_of items.
Proof.
  revert ms; induction items as [|it rest IH]; intros ms Hms; simpl; [done|].
  destruct (in_group group_of g it) eqn:Hg; simpl; [|by rewrite IH].
  destruct ms as [|m ms]; [done|]. apply Forall_cons in Hms as [Hm Hms]. simpl.
  rewrite IH by done. apply in_group_true in Hg. congruence.
Qed.

Lemma refill_other g items ms k x :
  items !! k = Some x -> group_of x <> g -> refill g items ms !! k = Some x.
Proof.
  revert ms k; induction items as [|it rest IH]; intros ms k Hk Hx; simpl; [done|].
  destruct (in_group group_of g it) eqn:Hg.
  - apply in_group_true in Hg. destruct ms as [|m ms]; [done|].
    destruct k as [|k]; simpl in *; [congruence|]. by apply IH.
  - destruct k as [|k]; simpl in *; [done|]. by apply IH.
Qed.

Lemma refill_members g items ms :
  Forall (fun m => group_of m = g) ms -> length ms = length (members g items) ->
  members g (refill g items ms) = ms.
Proof.
  revert ms; induction items as [|it rest IH]; intros ms Hms Hlen; simpl in *.
  - by destruct ms.
  - destruct (in_group group_of g it) eqn:Hg; simpl in *.
    + destruct ms as [|m ms]; [done|]. apply Forall_cons in Hms as [Hm Hms]. simpl.
      apply in_group_true in Hm. rewrite Hm. simpl in Hlen. rewrite IH by (done || lia). done.
    + rewrite Hg. by apply IH.
Qed.

Lemma refill_perm g items ms :
  ms ≡ₚ members g items -> refill g items ms ≡ₚ items.
Proof.
  intros Hp.
  assert (forall items ms, length ms = length (members g items) ->
    refill g items ms ≡ₚ ms ++ List.filter (fun x => negb (in_group group_of g x)) items) as Hr.
  { clear. induction items as [|it rest IH]; intros ms Hlen; simpl in *.
    - by destruct ms.
    - destruct (in_group group_of g it) eqn:Hg; simpl in *.
      + destruct ms as [|m ms]; [done|]. simpl in *. rewrite IH by lia. done.
      + rewrite IH by done. by rewrite Permutation_middle. }
  rewrite Hr by by rewrite Hp. rewrite Hp. clear.
  induction items as [|it rest IH]; simpl; [done|].
  destruct (in_group group_of g it); simpl; [by rewrite IH|].
  by rewrite <-Permutation_middle, IH.
Qed.

Lemma splice_move_perm ms fi ti from :
  ms !! fi = Some from -> splice_move ms fi ti from ≡ₚ ms.
Proof.
  intros H. unfold splice_move. rewrite <-Permutation_middle, take_drop.
  rewrite <-(take_drop_middle ms fi from H) at 3. by rewrite Permutation_middle.
Qed.

Lemma members_lookup_group g items m : m ∈ members g items -> group_of m = g /\ m ∈ items.
Proof. rewrite list_elem_of_In, filter_In, <-list_elem_of_In, in_group_true. tauto. Qed.

Lemma prev_in_group_Some items g i j :
  prev_in_group group_of items g i = Some j ->
  (j < i)%nat /\ (exists y, items !! j = Some y /\ group_of y = g) /\
  forall k y, (j < k < i)%nat -> items !! k = Some y -> group_of y <> g.
Proof.
  induction i as [|i IH]; simpl; [done|].
  destruct (items !! i) as [y|] eqn:Hy.
  - destruct (in_group group_of g y) eqn:Hg.
    + intros [= ->]. apply in_group_true in Hg. split_and!; [lia|eauto|intros; lia].
    + intros (H1 & H2 & H3)%IH. split_and!; [lia|done|]. intros k z Hk Hz.
      destruct (decide (k = i)) as [->|]; [|apply (H3 k); [lia|done]].
      rewrite <-in_group_true. congruence.
  - intros (H1 & H2 & H3)%IH. split_and!; [lia|done|]. intros k z Hk Hz.
    destruct (decide (k = i)) as [->|]; [congruence|]. apply (H3 k); [lia|done].
Qed.

Lemma next_in_group_Some items g i j :
  next_in_group group_of items g i = Some j ->
  (i < j)%nat /\ (exists y, items !! j = Some y /\ group_of y = g) /\
  forall k y, (i < k < j)%nat -> items !! k = Some y -> group_of y <> g.
Proof.
  unfold next_in_group. rewrite fmap_Some.
  intros (k & (y & Hy & Hg & Hmin)%find_index_Some & ->).
  rewrite lookup_drop in Hy. apply in_group_true in Hg.
  split_and!; [lia|by exists y|]. intros k' z Hk Hz.
  rewrite <-in_group_true. specialize (Hmin (k' - S i)%nat z).
  rewrite lookup_drop in Hmin. rewrite Hmin; [done|lia|].
  by replace (S i + (k' - S i))%nat with k' by lia.
Qed.

Lemma prev_in_group_None items g i :
  prev_in_group group_of items g i = None ->
  forall j y, (j < i)%nat -> items !! j = Some y -> group_of y <> g.
Proof.
  induction i as [|i IH]; simpl; [lia|]. intros H j y Hj Hy.
  destruct (decide (j = i)) as [->|].
  - rewrite Hy in H. rewrite <-in_group_true. intros Hg. by rewrite Hg in H.
  - apply (IH ltac:(repeat case_match; done) j); [lia|done].
Qed.

Lemma next_in_group_None items g i :
  next_in_group group_of items g i = None ->
  forall j y, (i < j)%nat -> items !! j = Some y -> group_of y <> g.
Proof.
  unfold next_in_group. rewrite fmap_None, find_index_None. intros H j y Hj Hy.
  rewrite <-in_group_true, H; [done|]. apply list_elem_of_lookup. exists (j - S i)%nat.
  rewrite lookup_drop. by replace (S i + (j - S i))%nat with j by lia.
Qed.

Lemma swap_lookup items i j x y k :
  items !! i = Some x -> items !! j = Some y ->
  swap items i j !! k
  = if decide (k = j) then Some x else if decide (k = i) then Some y else items !! k.
Proof.
  intros Hi Hj. unfold swap. rewrite Hi, Hj.
  pose proof (lookup_lt_Some _ _ _ Hi). pose proof (lookup_lt_Some _ _ _ Hj).
  rewrite !list_lookup_insert, length_insert.
  repeat case_decide; try done; try lia; destruct_and?; subst; congruence || lia || tauto.
Qed.

Lemma splice_move_at ms fi ti from to :
  ms !! fi = Some from -> ms !! ti = Some to -> fi <> ti ->
  splice_move ms fi ti from !! ti = Some from /\
  take ti (splice_move ms fi ti from) ++ drop (S ti) (splice_move ms fi ti from)
  = take fi ms ++ drop (S fi) ms.
Proof.
  intros Hf Ht Hne. unfold splice_move. set (rest := take fi ms ++ drop (S fi) ms).
  pose proof (lookup_lt_Some _ _ _ Hf). pose proof (lookup_lt_Some _ _ _ Ht).
  assert (length rest = length ms - 1)%nat as Hlen.
  { unfold rest. rewrite length_app, length_take, length_drop. lia. }
  assert (length (take ti rest) = ti) as Htk by (rewrite length_take; lia).
  split.
  - by rewrite lookup_app_r, Htk, Nat.sub_diag by lia.
  - rewrite take_app_length' by done.
    rewrite (drop_app_ge _ _ (S ti)) by lia. rewrite Htk.
    replace (S ti - ti)%nat with 1%nat by lia. simpl. by rewrite drop_0, take_drop.
Qed.

Lemma splice_move_Forall (P : T -> Prop) ms fi ti from :
  ms !! fi = Some from -> Forall P ms -> Forall P (splice_move ms fi ti from).
Proof. intros Hf. by rewrite (splice_move_perm ms fi ti from Hf). Qed.

Lemma moveItemTo_refill items i target from to :
  i <> target ->
  find_first (has_id i) items = Some from -> find_first (has_id target) items = Some to ->
  group_of to = group_of from ->
  exists fi ti,
    members (group_of from) items !! fi = Some from /\
    members (group_of from) items !! ti = Some to /\ fi <> ti /\
    moveItemToWithinGroup group_of items i target
    = refill (group_of from) items (splice_move (members (group_of from) items) fi ti from).
Proof.
  intros Hne Hfrom Hto Hg. unfold moveItemToWithinGroup.
  rewrite decide_False, Hfrom, Hto, bool_decide_true by done. simpl.
  pose proof (slots_members (group_of from) items []) as Hm. simpl in Hm. rewrite Hm.
  assert (forall j x, find_first (has_id j) items = Some x -> group_of x = group_of from ->
    exists k, find_index (has_id j) (members (group_of from) items) = Some k /\
              members (group_of from) items !! k = Some x) as Hidx.
  { clear. intros j x. unfold find_first, find_index.
    induction items as [|it rest IH]; simpl; [done|].
    case_decide as Hj.
    - intros [= <-] Hgx. apply in_group_true in Hgx. rewrite Hgx. simpl.
      exists 0%nat. by rewrite decide_True.
    - intros Hx Hgx. destruct IH as (k & Hk & Hkx).
      { destruct (list_find _ rest) as [[]|]; simpl in *; [congruence|done]. }
      { done. }
      destruct (in_group group_of (group_of from) it); simpl; [|by exists k].
      rewrite decide_False by done. exists (S k). simpl. split; [|done].
      destruct (list_find _ (members _ rest)) as [[]|]; simpl in *; congruence. }
  destruct (Hidx i from Hfrom eq_refl) as (fi & Hfi & Hfil).
  destruct (Hidx target to Hto Hg) as (ti & Hti & Htil).
  exists fi, ti. rewrite Hfi, Hti. split_and!; try done.
  - intros ->. rewrite Hfil in Htil. injection Htil as ->.
    apply find_first_Some in Hfrom as [_ H1%has_id_true].
    apply find_first_Some in Hto as [_ H2%has_id_true]. congruence.
  - apply (write_slots_refill _ _ _ []).
Qed.

(** Every move permutes the rows. *)
Lemma moveItemTo_perm items i target : moveItemToWithinGroup group_of items i target ≡ₚ items.
Proof.
  destruct (decide (i = target)) as [Heq|Hne].
  { unfold moveItemToWithinGroup. by rewrite decide_True. }
  destruct (find_first (has_id i) items) as [from|] eqn:Hf;
    [destruct (find_first (has_id target) items) as [to|] eqn:Ht|].
  2,3: unfold moveItemToWithinGroup; rewrite decide_False, ?Hf, ?Ht by done; done.
  destruct (decide (group_of to = group_of from)) as [Hg|Hg].
  - destruct (moveItemTo_refill items i target from to) as (fi & ti & Hfi & _ & _ & ->); try done.
    apply refill_perm. by apply splice_move_perm.
  - unfold moveItemToWithinGroup.
    by rewrite decide_False, Hf, Ht, bool_decide_false by done.
Qed.

Lemma moveItemUp_perm items i : moveItemUpWithinGroup group_of items i ≡ₚ items.
Proof. unfold moveItemUpWithinGroup. repeat case_match; try done. apply swap_perm. Qed.

Lemma moveItemDown_perm items i : moveItemDownWithinGroup group_of items i ≡ₚ items.
Proof. unfold moveItemDownWithinGroup. repeat case_match; try done. apply swap_perm. Qed.
End group_lemmas.
End queue_ops.

(** ** Properties *)

Section properties.
Context {T : Type} (id_of : T -> str) (group_of : T -> str).
Abbreviation members g items := (List.filter (in_group group_of g) items).

(** dropping row [i] where row [target] of its group is permutes the queue, keeps every
    row of another group in its slot, puts [i]'s row exactly where [target]'s was among its
    group, and keeps the order of the group's other rows. *)
Theorem moveItemToWithinGroup_spec (items : list T) (i target : str) (from to : T) :
  i <> target ->
  find_first (has_id id_of i) items = Some from ->
  find_first (has_id id_of target) items = Some to ->
  group_of to = group_of from ->
  let g := group_of from in
  let r := moveItemToWithinGroup id_of group_of items i target in
  r ≡ₚ items /\
  (forall k x, items !! k = Some x -> group_of x <> g -> r !! k = Some x) /\
  exists fi ti,
    members g items !! fi = Some from /\ members g items !! ti = Some to /\
    members g r !! ti = Some from /\
    take ti (members g r) ++ drop (S ti) (members g r)
    = take fi (members g items) ++ drop (S fi) (members g items).
Proof.
  intros Hne Hfrom Hto Hg g r.
  destruct (moveItemTo_refill id_of group_of items i target from to) as (fi & ti & Hfi & Hti & Hd & Hr);
    try done.
  fold g in Hr, Hfi, Hti. subst r. rewrite Hr.
  pose proof (splice_move_perm _ fi ti from Hfi) as Hp.
  pose proof (splice_move_at _ fi ti from to Hfi Hti Hd) as [Hat Hrest].
  split_and!.
  - by apply refill_perm.
  - intros k x. apply refill_other.
  - exists fi, ti. rewrite refill_members; [done| |by rewrite Hp].
    apply splice_move_Forall; [done|]. apply Forall_forall. intros x.
    by intros [? _]%members_lookup_group.
Qed.

(** moving a row up or down swaps it with the nearest earlier or later row of its own
    group and touches no other slot; with no such row the queue is returned as it is. *)
Theorem moveItemUpDown_spec (items : list T) (i : str) (k : nat) (it : T) :
  index_by_id id_of items i = Some k -> items !! k = Some it ->
  (moveItemUpWithinGroup id_of group_of items i = items /\
     (forall j y, (j < k)%nat -> items !! j = Some y -> group_of y <> group_of it)
   \/ exists j y, (j < k)%nat /\ items !! j = Some y /\ group_of y = group_of it /\
        (forall m z, (j < m < k)%nat -> items !! m = Some z -> group_of z <> group_of it) /\
        forall m, moveItemUpWithinGroup id_of group_of items i !! m
          = if decide (m = k) then Some y else if decide (m = j) then Some it else items !! m) /\
  (moveItemDownWithinGroup id_of group_of items i = items /\
     (forall j y, (k < j)%nat -> items !! j = Some y -> group_of y <> group_of it)
   \/ exists j y, (k < j)%nat /\ items !! j = Some y /\ group_of y = group_of it /\
        (forall m z, (k < m < j)%nat -> items !! m = Some z -> group_of z <> group_of it) /\
        forall m, moveItemDownWithinGroup id_of group_of items i !! m
          = if decide (m = j) then Some it else if decide (m = k) then Some y else items !! m).
Proof.
  intros Hi Hk. unfold moveItemUpWithinGroup, moveItemDownWithinGroup. rewrite Hi, Hk. split.
  - destruct (prev_in_group group_of items (group_of it) k) as [j|] eqn:E.
    + right. apply prev_in_group_Some in E as (Hj & (y & Hy & Hg) & Hmid).
      exists j, y. split_and!; try done. intros m. by apply swap_lookup.
    + left. split; [done|]. by apply prev_in_group_None.
  - destruct (next_in_group group_of items (group_of it) k) as [j|] eqn:E.
    + right. apply next_in_group_Some in E as (Hj & (y & Hy & Hg) & Hmid).
      exists j, y. split_and!; try done. intros m. by apply swap_lookup.
    + left. split; [done|]. by apply next_in_group_None.
Qed.
End properties.

(** Four rows in two groups: the first character is the id, the second the group. *)
Definition w_id (x : str) : str := take 1 x.
Definition w_group (x : str) : str := drop 1 x.
Definition w_list : list str := [js "ax"; js "by"; js "cx"; js "dx"].

Lemma moveItemToWithinGroup_spec_witness :
  moveItemToWithinGroup w_id w_group w_list (js "a") (js "d") ≡ₚ w_list /\
  moveItemToWithinGroup w_id w_group w_list (js "a") (js "d") = [js "cx"; js "by"; js "dx"; js "ax"].
Proof.
  split; [|vm_compute; reflexivity].
  apply (moveItemToWithinGroup_spec w_id w_group w_list (js "a") (js "d") (js "ax") (js "dx")).
  - discriminate.
  - vm_compute. reflexivity.
  - vm_compute. reflexivity.
  - vm_compute. reflexivity.
Defined.

Lemma moveItemUpDown_spec_witness :
  exists j y, (j < 2)%nat /\ w_list !! j = Some y /\ w_group y = js "x".
Proof.
  destruct (moveItemUpDown_spec w_id w_group w_list (js "c") 2 (js "cx")) as [[[H _]|H] _].
  - vm_compute. reflexivity.
  - vm_compute. reflexivity.
  - vm_compute in H. discriminate H.
  - destruct H as (j & y & H1 & H2 & H3 & _). exists j, y. split; [exact H1|]. split; [exact H2|exact H3].
Defined.
