(* ===== verification/UploadRecovery.v ===== *)
(** When a failed upload tries again by itself (client/src/lib/uploadRecovery.ts): the policy
    the queue's runner asks after every failure.  A thrown error is modelled by the one thing
    the policy reads of it, whether it is a [PostUploadStepError] (its bytes are committed). *)
From S2P Require Import Prelude.

Definition MAX_AUTO_RECOVER_ATTEMPTS : Z := 3.
Definition AUTO_RECOVER_BACKOFF_MS : list Z := [5000; 15000; 30000].

(** [AUTO_RECOVER_BACKOFF_MS[Math.max(0, Math.min(attempt, length - 1))]] *)
Definition autoRecoverBackoffMs (attempt : Z) : Z :=
  let i := Z.max 0 (Z.min attempt (Z.of_nat (length AUTO_RECOVER_BACKOFF_MS) - 1)) in
  AUTO_RECOVER_BACKOFF_MS !! Z.to_nat i ?? 0.

Definition FATAL_REASON_SUBSTRINGS : list str := map js [
  "errno_28"; "errno_27"; "insufficient_space"; "no_space"; "direct_writer_io_error";
  "path_not_allowed"; "not_allowed"; "tx_table_full"; "corrupt"; "source_missing";
  "src_not_found"; "source_names_made_up"; "file_too_large"; "not_paired"; "password_needed";
  "ava1_failed"; "helper_not_running"; "zip_unsupported"; "7z_unsupported";
  "rar_unsupported"]%string.

Definition AVA1_FATAL_REASON_PREFIXES : list str := map js [
  "ava1_exists"; "ava1_cross_device"; "ava1_local_io"; "ava1_bad_manifest"; "ava1_copy_failed";
  "ava1_not_paired"; "ava1_wrong_console"; "ava1_no_identity"; "ava1_rar_"; "ava1_7z_";
  "ava1_zip_"; "rar_password_required"; "rar_password_wrong"; "ava1_taken_over";
  "ava1_shared_jobs_unsupported"; "ava1_cannot_watch"]%string.

Definition FATAL_MESSAGE_SUBSTRINGS : list str := map js [
  "no such file"; "source directory not found"; "rar_password"; "permission denied";
  "no space left"; "enospc"]%string.

(** [/os error 2(?!\d)/.test(m)] *)
Fixpoint fatal_enoent_numeric (m : str) : bool :=
  (starts_with (js "os error 2") m
   && match drop (length (js "os error 2")) m with
      | [] => true
      | a :: _ => negb (is_digit a)
      end)
  || match m with [] => false | _ :: m' => fatal_enoent_numeric m' end.

(** [/^ava1_refused_(\d+)$/.exec(r)]: the digits, when it matches. *)
Definition ava1_refused (r : str) : option str :=
  let p := js "ava1_refused_" in
  if starts_with p r then
    let ds := drop (length p) r in
    if negb (bool_decide (ds = [])) && forallb is_digit ds then Some ds else None
  else None.

Definition REST_MODE_REASON : str := js "console_rest_mode".
Definition isRestModeReason (reason : option str) : bool :=
  bool_decide (to_lower (reason ?? []) = REST_MODE_REASON).

(** A missing or empty reason is falsy. *)
Definition no_reason (reason : option str) : bool :=
  match reason with Some (_ :: _) => false | _ => true end.

Definition isAutoRecoverable (reason message : option str) (canSendHelper : option bool) : bool :=
  let r := to_lower (reason ?? []) in
  if bool_decide (r = js "helper_not_ava1") && bool_decide (canSendHelper = Some false) then false
  else if existsb (fun s => includes s r) FATAL_REASON_SUBSTRINGS then false
  else if starts_with (js "ava1_commit_") r then false
  else if existsb (fun p => starts_with p r) AVA1_FATAL_REASON_PREFIXES then false
  else if match ava1_refused r with
          | Some ds => (1 <=? parse_dec ds) && (parse_dec ds <=? 6)
          | None => false
          end then false
  else if no_reason reason then
    let m := to_lower (message ?? []) in
    if bool_decide (m = js "cancelled") || bool_decide (m = js "transfer_cancelled") then false
    else if existsb (fun s => includes s m) FATAL_MESSAGE_SUBSTRINGS then false
    else if fatal_enoent_numeric m then false
    else true
  else true.

Definition recoveryResendsHelper (reason : option str) : bool :=
  let r := to_lower (reason ?? []) in
  negb (bool_decide (r = js "source_read_failed") || bool_decide (r = js "ava1_stalled")
        || match ava1_refused r with Some _ => true | None => false end).

(** [post_upload]: the error is a [PostUploadStepError]. *)
Definition shouldAutoRecover (post_upload : bool) (reason message : option str)
    (canSendHelper : option bool) : bool :=
  if post_upload then false else isAutoRecoverable reason message canSendHelper.

Definition shouldParkForWake (post_upload : bool) (reason message : option str)
    (asleep : bool) : bool :=
  if post_upload then false
  else if isRestModeReason reason then true
  else asleep && isAutoRecoverable reason message (Some true).

(** ** Lemmas *)

Lemma ava1_refused_num n : 0 <= n -> ava1_refused (js "ava1_refused_" ++ num n) = Some (num n).
Proof.
  intros Hn. destruct (num_digits n Hn) as [Hd _]. unfold ava1_refused.
  assert (starts_with (js "ava1_refused_") (js "ava1_refused_" ++ num n) = true) as ->.
  { apply starts_with_true. by exists (num n). }
  rewrite drop_app_length, Hd, bool_decide_false by apply num_not_nil. done.
Qed.

(** Cutting a text after its last non-digit. *)
Fixpoint upto_nondigit (s : str) : option (str * ascii * str) :=
  match s with
  | [] => None
  | a :: s' =>
      match upto_nondigit s' with
      | Some (q, c, d) => Some (a :: q, c, d)
      | None => if is_digit a then None else Some ([], a, s')
      end
  end.

Lemma upto_nondigit_Some s q c d :
  upto_nondigit s = Some (q, c, d) -> s = (q ++ [c]) ++ d /\ is_digit c = false.
Proof.
  revert q c d; induction s as [|a s IH]; simpl; [done|]. intros q c d.
  destruct (upto_nondigit s) as [[[q' c'] d']|].
  - intros [= <- <- <-]. destruct (IH _ _ _ eq_refl) as [-> Hc]. done.
  - destruct (is_digit a) eqn:Ha; [done|]. intros [= <- <- <-]. done.
Qed.

(** No fatal substring occurs in [s] followed by digits, when none occurs in [s] up to its
    last non-digit. *)
Definition absent_before_digits (s p : str) : bool :=
  match upto_nondigit p with
  | Some (q, c, _) => negb (includes (q ++ [c]) s)
  | None => false
  end.

Lemma absent_before_digits_spec s p ds :
  absent_before_digits s p = true -> forallb is_digit ds = true -> includes p (s ++ ds) = false.
Proof.
  unfold absent_before_digits. destruct (upto_nondigit p) as [[[q c] d]|] eqn:E; [|done].
  apply upto_nondigit_Some in E as [-> Hc]. intros Hn Hd.
  apply not_true_is_false. intros Hi. apply includes_prefix in Hi.
  apply includes_digits in Hi; [|done..]. by rewrite Hi in Hn.
Qed.

Lemma starts_with_includes p s : starts_with p s = true -> includes p s = true.
Proof. intros H. destruct s; cbn [includes]; by rewrite H. Qed.

Lemma existsb_absent s ps ds :
  forallb (absent_before_digits s) ps = true -> forallb is_digit ds = true ->
  existsb (fun p => includes p (s ++ ds)) ps = false /\
  existsb (fun p => starts_with p (s ++ ds)) ps = false.
Proof.
  intros Hps Hds. split; apply existsb_false; intros p Hp;
    (rewrite forallb_elem in Hps; pose proof (absent_before_digits_spec s p ds (Hps p Hp) Hds)).
  - done.
  - apply not_true_is_false. intros ?%starts_with_includes. congruence.
Qed.

(** the console's numbered refusals.  A refusal with code [n] is retried exactly when [n] is
    not one of the protocol, pairing and version faults 1 to 6, whatever the message says and
    whether or not the helper can be sent, and it never re-sends the helper. *)
Theorem refused_code_recoverable (n : Z) (message : option str) (canSend : option bool) :
  0 <= n ->
  isAutoRecoverable (Some (js "ava1_refused_" ++ num n)) message canSend
    = negb ((1 <=? n) && (n <=? 6)) /\
  recoveryResendsHelper (Some (js "ava1_refused_" ++ num n)) = false.
Proof.
  intros Hn. destruct (num_digits n Hn) as [Hd Hp].
  assert (to_lower (Some (js "ava1_refused_" ++ num n) ?? []) = js "ava1_refused_" ++ num n) as Hr.
  { change (to_lower (js "ava1_refused_" ++ num n) = js "ava1_refused_" ++ num n).
    by rewrite to_lower_app, (to_lower_digits (num n)). }
  unfold isAutoRecoverable, recoveryResendsHelper. cbv zeta. rewrite Hr.
  rewrite ava1_refused_num, Hp by done.
  destruct (existsb_absent (js "ava1_refused_") FATAL_REASON_SUBSTRINGS (num n)) as [-> _];
    [by vm_compute|done|].
  destruct (existsb_absent (js "ava1_refused_") AVA1_FATAL_REASON_PREFIXES (num n)) as [_ ->];
    [by vm_compute|done|].
  destruct (existsb_absent (js "ava1_refused_") [js "ava1_commit_"; js "helper_not_ava1"] (num n))
    as [Hc Hs]; [by vm_compute|done|]. cbn [existsb] in Hc, Hs.
  apply orb_false_iff in Hs as [-> _]. apply orb_false_iff in Hc as [_ Hc].
  rewrite orb_false_r in Hc. rewrite bool_decide_false.
  2: { intros Heq. rewrite Heq in Hc. by vm_compute in Hc. }
  cbn [andb]. rewrite !orb_true_r. split; [|done]. by destruct (_ && _).
Qed.

(** the policy's guarantees.  Bytes already committed are never sent again, by a retry or by
    parking; a failure the engine blames on rest mode always parks; a sleeping console parks
    every failure a retry could fix, so no attempt is spent on it; a console that is awake
    parks nothing else; a reason, when there is one, decides alone (the message is not read);
    and the three retries wait 5, 15 and 30 seconds, the last one for any later attempt. *)
Theorem recovery_policy (reason message message' : option str) (canSend : option bool) :
  (forall asleep, shouldAutoRecover true reason message canSend = false /\
                  shouldParkForWake true reason message asleep = false) /\
  (isRestModeReason reason = true -> forall asleep, shouldParkForWake false reason message asleep = true) /\
  (shouldAutoRecover false reason message canSend = true ->
     shouldParkForWake false reason message true = true) /\
  (shouldParkForWake false reason message false = true -> isRestModeReason reason = true) /\
  (no_reason reason = false ->
     isAutoRecoverable reason message canSend = isAutoRecoverable reason message' canSend) /\
  (forall a, 0 <= a -> autoRecoverBackoffMs a = if a =? 0 then 5000 else if a =? 1 then 15000 else 30000).
Proof.
  split_and!.
  - done.
  - intros H asleep. unfold shouldParkForWake. by rewrite H.
  - unfold shouldAutoRecover, shouldParkForWake. intros H. destruct (isRestModeReason reason); [done|].
    cbn [andb]. revert H. unfold isAutoRecoverable.
    rewrite (bool_decide_false (Some true = Some false)), andb_false_r by done.
    by destruct (bool_decide _ && bool_decide (canSend = _)).
  - unfold shouldParkForWake. by destruct (isRestModeReason reason).
  - unfold isAutoRecoverable. by intros ->.
  - intros a Ha. unfold autoRecoverBackoffMs. destruct (a =? 0) eqn:E0; [by bool_prop; subst|].
    destruct (a =? 1) eqn:E1; [by bool_prop; subst|]. bool_prop.
    change (Z.of_nat _ - 1) with 2. by replace (Z.max 0 (Z.min a 2)) with 2 by lia.
Qed.

Lemma refused_code_recoverable_witness :
  isAutoRecoverable (Some (js "ava1_refused_9")) None None = true /\
  isAutoRecoverable (Some (js "ava1_refused_3")) None None = false.
Proof.
  split.
  - apply (refused_code_recoverable 9 None None). discriminate.
  - apply (refused_code_recoverable 3 None None). discriminate.
Defined.
