(* ===== verification/UploadQueue.v ===== *)
(** The upload queue's rows and the pure rules over them (client/src/state/uploadQueue.ts, the
    module-level functions, and the parts of lib/queueSize.ts and lib/queueOps.ts that work on
    its rows): which row runs next on a console, what may be paused, what Retry makes of a
    failed row, what counts as install work.  The store itself is in [QueueStore]. *)
From S2P Require Import Prelude Addr QueueOps UploadRecovery.

(** * Data *)

Inductive QueueItemStatus := Pending | Running | Done | Failed.

Inductive QueueSourceKind :=
  | KFile | KImage | KFolder | KGameFolder | KArchive | KPkg | KInstall | KPs5.

#[export] Instance status_eq_dec : EqDecision QueueItemStatus.
Proof. solve_decision. Defined.
#[export] Instance kind_eq_dec : EqDecision QueueSourceKind.
Proof. solve_decision. Defined.

(** What to install and where it comes from (state/consoleQueueBridge.ts). *)
Inductive InstallRequest :=
  | ViaLibrary (path : str)
  | ViaConsolePath (path : str)
  | ViaExternal (pkg_path : str)
  | ViaStream (source : str)
  | ViaLink (url : str).

Inductive ProgressPhase := PhStage | PhTransfer | PhInstall.
Record InstallProgress := { phase : ProgressPhase; current : Z; total : Z }.

Inductive InstallPhase := PInstalling | PDone | PWarn | PUnverified | PError.
#[export] Instance install_phase_eq_dec : EqDecision InstallPhase.
Proof. solve_decision. Defined.

(** Who paused a row. *)
Inductive PausedBy := ByUser | BySendNow.
#[export] Instance paused_by_eq_dec : EqDecision PausedBy.
Proof. solve_decision. Defined.

(** One row.  Fields that only the engine call or the row's text read (strategy, excludes,
    mount options, live readouts, display name) are left out: no rule below looks at them. *)
Record QueueItem := {
  id_ : str;
  sourceKind : QueueSourceKind;
  sourcePath : str;
  resolvedDest : str;
  addr : str;
  category : option str;
  install : option InstallRequest;
  fallbackToUpload : bool;
  installAfterUpload : option bool;
  installPhase : option InstallPhase;
  installPct : option Z;
  installProgress : option InstallProgress;
  installNote : option str;
  installJobId : option str;
  txIdHex : str;
  status : QueueItemStatus;
  interrupted : bool;
  paused : option PausedBy;
  sendNowAt : option Z;
  uploadDone : bool;
  waitingForWake : bool;
  stalledForMs : option Z;
  bytesSent : Z;
  totalBytes : Z;
  estimatedBytes : Z;
  bytesPerSec : Z;
  recovering : bool;
  recoverAttempt : Z;
  jobId : option str;
  error : option str;
  errorReason : option str;
  errorDetail : option str;
  completedAt : option Z;
  rarPassword : option str;
  attachJobId : option str;
  waitingForEngineQueue : bool;
  stopping : bool
}.

#[export] Instance settable_item : Settable QueueItem := fun x => {|
  id_ := id_ x; sourceKind := sourceKind x; sourcePath := sourcePath x;
  resolvedDest := resolvedDest x; addr := addr x; category := category x; install := install x;
  fallbackToUpload := fallbackToUpload x; installAfterUpload := installAfterUpload x;
  installPhase := installPhase x; installPct := installPct x;
  installProgress := installProgress x; installNote := installNote x;
  installJobId := installJobId x; txIdHex := txIdHex x; status := status x;
  interrupted := interrupted x; paused := paused x; sendNowAt := sendNowAt x;
  uploadDone := uploadDone x; waitingForWake := waitingForWake x; stalledForMs := stalledForMs x;
  bytesSent := bytesSent x; totalBytes := totalBytes x; estimatedBytes := estimatedBytes x;
  bytesPerSec := bytesPerSec x; recovering := recovering x; recoverAttempt := recoverAttempt x;
  jobId := jobId x; error := error x; errorReason := errorReason x;
  errorDetail := errorDetail x; completedAt := completedAt x; rarPassword := rarPassword x;
  attachJobId := attachJobId x; waitingForEngineQueue := waitingForEngineQueue x;
  stopping := stopping x |}.

(** * Rules *)

Definition host_of (it : QueueItem) : str := hostOf (addr it).
Definition is_status (s : QueueItemStatus) (it : QueueItem) : bool := bool_decide (status it = s).
Definition is_kind (k : QueueSourceKind) (it : QueueItem) : bool := bool_decide (sourceKind it = k).
Definition on_host (h : str) (it : QueueItem) : bool := bool_decide (host_of it = h).
Definition is_paused (it : QueueItem) : bool := match paused it with Some _ => true | None => false end.
(** [!it.sendNowAt]: null, missing and 0 are all falsy. *)
Definition sent_at (it : QueueItem) : option Z :=
  match sendNowAt it with Some 0 => None | o => o end.
Definition is_sent (it : QueueItem) : bool := match sent_at it with Some _ => true | None => false end.

(** Distinct hosts among the pending rows, first seen first. *)
Fixpoint distinct_hosts_from (skip_waking : bool) (seen : list str) (items : list QueueItem) : list str :=
  match items with
  | [] => []
  | it :: rest =>
      if negb (is_status Pending it) || is_paused it then distinct_hosts_from skip_waking seen rest
      else if waitingForWake it && skip_waking then distinct_hosts_from skip_waking seen rest
      else if bool_decide (host_of it ∈ seen) then distinct_hosts_from skip_waking seen rest
      else host_of it :: distinct_hosts_from skip_waking (host_of it :: seen) rest
  end.
Definition distinctPendingHosts (items : list QueueItem) (includeWaitingForWake : bool) : list str :=
  distinct_hosts_from (negb includeWaitingForWake) [] items.

Definition pendingCount (items : list QueueItem) : nat := length (List.filter (is_status Pending) items).

(** [/\/<dir>\/[^/]*$/.test(path)]: the path's last folder is [dir]. *)
Definition in_last_folder (dir path : str) : bool :=
  match last_index_of "/" path with
  | Some i => bool_decide ((js "/" ++ dir) `suffix_of` take i path)
  | None => false
  end.

Definition installOrderPriority (it : QueueItem) : Z :=
  if negb (is_kind KPkg it) && negb (is_kind KInstall it) then 0
  else
    match category it with
    | Some c =>
        if decide (c = js "gp") then 1
        else if decide (c = js "ac") then 2
        else if decide (c = js "gd") then 0
        else if in_last_folder (js "updates") (resolvedDest it) then 1
        else if in_last_folder (js "dlc") (resolvedDest it) then 2 else 0
    | None =>
        if in_last_folder (js "updates") (resolvedDest it) then 1
        else if in_last_folder (js "dlc") (resolvedDest it) then 2 else 0
    end.

Definition moveGroupOf (it : QueueItem) : str :=
  if is_status Pending it then host_of it ++ js "|" ++ num (installOrderPriority it)
  else id_ it ++ js "|fixed".

Definition installKey (r : InstallRequest) : str :=
  match r with
  | ViaLibrary p | ViaConsolePath p => js "ps5:" ++ p
  | ViaExternal p => js "ps5:" ++ p
  | ViaStream s => js "pc:" ++ s
  | ViaLink u => js "url:" ++ u
  end.

Definition failedStreamInstallIds (items : list QueueItem) (source : str) : list str :=
  map id_ (List.filter (fun it =>
    is_status Failed it && is_kind KInstall it
    && match install it with Some (ViaStream s) => bool_decide (s = source) | _ => false end) items).

Inductive LibraryState := Queued | Installing.
Definition libraryInstallStates (items : list QueueItem) (host : str) : gmap str LibraryState :=
  fold_left (fun out it =>
    match install it with
    | Some (ViaLibrary p) =>
        if negb (is_kind KInstall it) then out
        else if negb (on_host (hostOf host) it) then out
        else if is_status Pending it then <[p := Queued]> out
        else if is_status Running it then <[p := Installing]> out
        else out
    | _ => out
    end) items ∅.

Definition isUploadItem (it : QueueItem) : bool := negb (is_kind KInstall it).

Definition sameInstall (it : QueueItem) (host : str) (request : InstallRequest) : bool :=
  match install it with
  | Some r =>
      is_kind KInstall it
      && (is_status Pending it || is_status Running it)
      && bool_decide (host_of it = hostOf host)
      && bool_decide (installKey r = installKey request)
  | None => false
  end.

(** A caller's size; anything that is not a positive byte count is unknown (0). *)
Definition knownSize (n : option Z) : Z :=
  match n with Some b => if 0 <? b then b else 0 | None => 0 end.

Definition isInstallWork (it : QueueItem) : bool :=
  is_kind KInstall it || (is_kind KPkg it && uploadDone it).

Definition shouldRestAfterRun (items : list QueueItem) (h : str) (runStartedAt : Z)
    (installRunning : bool) : bool :=
  if installRunning then false
  else
    let thisRun := List.filter (fun it =>
      on_host h it && (runStartedAt <=? completedAt it ?? 0)) items in
    let installed it :=
      is_kind KInstall it
      || (is_kind KPkg it && negb (bool_decide (installAfterUpload it = Some false))) in
    if existsb (fun it => is_status Failed it || installed it) thisRun then false
    else if existsb (fun it => on_host h it && is_status Running it) items then false
    else existsb (fun it => is_status Done it && negb (is_kind KPkg it)) thisRun.

Definition canResumeUnattended (it : QueueItem) : bool :=
  is_status Failed it && negb (isInstallWork it)
  && bool_decide (installPhase it = None)
  && isAutoRecoverable (errorReason it) (error it) (Some true).

(** [{ ...it, ...retryPatch(it) }] *)
Definition retryPatch (it : QueueItem) : QueueItem :=
  let cleared := it <| status := Pending |> <| error := None |> <| errorReason := None |>
    <| errorDetail := None |> <| completedAt := None |> in
  if negb (is_kind KPkg it) || negb (uploadDone it)
     || bool_decide (installAfterUpload it = Some false) then cleared
  else
    let r := ViaLibrary (resolvedDest it) in
    cleared <| sourceKind := KInstall |> <| sourcePath := installKey r |>
      <| install := Some r |> <| uploadDone := false |> <| installPhase := None |>
      <| installPct := None |> <| installProgress := None |> <| installNote := None |>
      <| installJobId := None |>.

Definition canPauseItem (it : QueueItem) : bool :=
  is_status Running it && negb (is_kind KInstall it)
  && negb (bool_decide (installPhase it = Some PInstalling)) && negb (uploadDone it).

(** The row sent now first among those that may run, the earliest click first. *)
Fixpoint earliest_sent (h : str) (items : list QueueItem) (best : option QueueItem) : option QueueItem :=
  match items with
  | [] => best
  | it :: rest =>
      if negb (is_status Pending it) || is_paused it || negb (on_host h it) || negb (is_sent it)
      then earliest_sent h rest best
      else
        match best with
        | None => earliest_sent h rest (Some it)
        | Some b =>
            if sent_at it ?? 0 <? sendNowAt b ?? 0 then earliest_sent h rest (Some it)
            else earliest_sent h rest best
        end
  end.

(** Base before update before DLC, list order within a tier; stops at the first tier 0 row. *)
Fixpoint lowest_prio (h : str) (items : list QueueItem) (best : option (Z * QueueItem)) : option QueueItem :=
  match items with
  | [] => snd <$> best
  | it :: rest =>
      if negb (is_status Pending it) || is_paused it || negb (on_host h it)
      then lowest_prio h rest best
      else
        let prio := installOrderPriority it in
        if match best with Some (p, _) => prio <? p | None => true end
        then if prio =? 0 then Some it else lowest_prio h rest (Some (prio, it))
        else lowest_prio h rest best
  end.

Definition nextPendingForHost (items : list QueueItem) (host : str) : option QueueItem :=
  match earliest_sent host items None with
  | Some it => Some it
  | None => lowest_prio host items None
  end.

(** The row Clear names in its notice: the running upload it stopped, else the install it kept. *)
Definition clearNotice (items kept : list QueueItem) : option (str * bool) :=
  match find_first (fun it => is_status Running it
                     && negb (existsb (fun k => bool_decide (id_ k = id_ it)) kept)) items with
  | Some it => Some (addr it, true)
  | None => match kept with k :: _ => Some (addr k, false) | [] => None end
  end.

(** [resetRunningToPending] of lib/queueOps.ts. *)
Definition reset_row (it : QueueItem) : QueueItem :=
  it <| status := Pending |> <| bytesSent := 0 |> <| totalBytes := 0 |> <| bytesPerSec := 0 |>
     <| recovering := false |> <| recoverAttempt := 0 |> <| interrupted := true |>
     <| stalledForMs := None |>.
Definition resetRunningToPending (items : list QueueItem) (m : QueueItem -> bool) : list QueueItem :=
  map (fun it => if is_status Running it && m it then reset_row it else it) items.

(** ** Sizes (lib/queueSize.ts) *)

Definition truthy_or (a b : Z) : Z := if a =? 0 then b else a.

Definition queueItemBytes (it : QueueItem) : Z :=
  if is_kind KInstall it then
    truthy_or (estimatedBytes it) (match installProgress it with Some p => total p | None => 0 end)
  else truthy_or (estimatedBytes it) (totalBytes it).

Definition queueItemRemainingBytes (it : QueueItem) : Z :=
  if is_status Done it || is_status Failed it then 0
  else if is_status Running it then Z.max 0 (queueItemBytes it - bytesSent it)
  else queueItemBytes it.

Definition queueRemainingBytes (items : list QueueItem) : Z :=
  fold_left (fun n it => n + queueItemRemainingBytes it) items 0.

Record InstallNeeds := { count : Z; bytes : Z; unknown : Z }.

Definition queueInstallNeeds (items : list QueueItem) : InstallNeeds :=
  fold_left (fun n it =>
    if negb (is_kind KInstall it) then n
    else if negb (is_status Pending it) && negb (is_status Running it) then n
    else
      let t := queueItemBytes it in
      if t <=? 0 then {| count := count n + 1; bytes := bytes n; unknown := unknown n + 1 |}
      else
        let written :=
          match is_status Running it, installProgress it with
          | true, Some p =>
              match phase p with PhStage => 0 | _ => Z.min t (current p) end
          | _, _ => 0
          end in
        {| count := count n + 1; bytes := bytes n + Z.max 0 (t - written); unknown := unknown n |})
    items {| count := 0; bytes := 0; unknown := 0 |}.

(** What is short on the drive: claimed only when every install has a size. *)
Definition shortBy (needs : InstallNeeds) (freeBytes : option Z) : option Z :=
  match freeBytes with
  | Some f => if (unknown needs =? 0) && (f <? bytes needs) then Some (bytes needs - f) else None
  | None => None
  end.

(** * Picking the next row *)

(** A row the runner may take on [h]. *)
Definition eligible (h : str) (it : QueueItem) : Prop :=
  status it = Pending /\ paused it = None /\ host_of it = h.
#[export] Instance eligible_dec h it : Decision (eligible h it).
Proof. unfold eligible. apply _. Defined.

Lemma eligible_test h it :
  negb (is_status Pending it) || is_paused it || negb (on_host h it) = negb (bool_decide (eligible h it)).
Proof.
  unfold is_status, is_paused, on_host.
  destruct (decide (eligible h it)) as [He|He];
    [rewrite (bool_decide_eq_true_2 _ He)|rewrite (bool_decide_eq_false_2 _ He)];
    unfold eligible in He; destruct (paused it); repeat case_bool_decide; simpl; naive_solver.
Qed.

(** [a] runs before [b] among rows sent now; [a] is at or before [b] in the tiers. *)
Definition sent_le (a b : QueueItem) : Prop := sendNowAt a ?? 0 <= sendNowAt b ?? 0.
Definition prio_le (a b : QueueItem) : Prop := installOrderPriority a <= installOrderPriority b.

Lemma installOrderPriority_range it : 0 <= installOrderPriority it <= 2.
Proof. unfold installOrderPriority. repeat case_match; lia. Qed.

Lemma is_sent_at it : is_sent it = true -> sent_at it = Some (sendNowAt it ?? 0).
Proof. unfold is_sent, sent_at. destruct (sendNowAt it) as [[]|]; simpl; done. Qed.

(** The scan's answer from [best] on: the earliest of [best] and the rows sent now in [l]; on a
    tie the one met first. *)
Lemma earliest_sent_spec h l best :
  match earliest_sent h l best with
  | None => best = None /\ forall it, it ∈ l -> eligible h it -> is_sent it = false
  | Some r =>
      (best = Some r \/ r ∈ l /\ eligible h r /\ is_sent r = true)
      /\ (forall b, best = Some b -> sent_le r b)
      /\ (forall it, it ∈ l -> eligible h it -> is_sent it = true -> sent_le r it)
  end.
Proof.
  revert best. induction l as [|it l IH]; intros best; cbn [earliest_sent].
  - destruct best as [b|]; [|split; [done|set_solver]].
    split_and!; [by left|intros b' [= ->]; unfold sent_le; lia|set_solver].
  - rewrite eligible_test.
    destruct (decide (eligible h it)) as [He|He];
      [rewrite (bool_decide_eq_true_2 _ He)|rewrite (bool_decide_eq_false_2 _ He)]; simpl.
    + destruct (is_sent it) eqn:Es; simpl.
      * rewrite (is_sent_at _ Es). simpl.
        destruct best as [b|]; [destruct (sendNowAt it ?? 0 <? sendNowAt b ?? 0) eqn:Eb|].
        -- specialize (IH (Some it)). destruct (earliest_sent h l (Some it)) as [r|]; [|naive_solver].
           destruct IH as (IH1 & IH2 & IH3). specialize (IH2 _ eq_refl). apply Z.ltb_lt in Eb.
           unfold sent_le in *. split_and!; [set_solver|intros ? [= <-]; lia|].
           intros j [->|Hj]%elem_of_cons; auto.
        -- specialize (IH (Some b)). destruct (earliest_sent h l (Some b)) as [r|]; [|naive_solver].
           destruct IH as (IH1 & IH2 & IH3). specialize (IH2 _ eq_refl). apply Z.ltb_ge in Eb.
           unfold sent_le in *. split_and!; [set_solver|intros ? [= <-]; lia|].
           intros j [->|Hj]%elem_of_cons; intros; auto; lia.
        -- specialize (IH (Some it)). destruct (earliest_sent h l (Some it)) as [r|]; [|naive_solver].
           destruct IH as (IH1 & IH2 & IH3). specialize (IH2 _ eq_refl).
           split_and!; [set_solver|done|].
           intros j [->|Hj]%elem_of_cons; auto.
      * specialize (IH best). destruct (earliest_sent h l best) as [r|].
        -- destruct IH as (IH1 & IH2 & IH3). split_and!; [set_solver|done|].
           intros j [->|Hj]%elem_of_cons; intros; [congruence|auto].
        -- destruct IH as [-> IH]. split; [done|].
           intros j [->|Hj]%elem_of_cons; auto.
    + specialize (IH best). destruct (earliest_sent h l best) as [r|].
      * destruct IH as (IH1 & IH2 & IH3). split_and!; [set_solver|done|].
        intros j [->|Hj]%elem_of_cons; intros; [done|auto].
      * destruct IH as [-> IH]. split; [done|].
        intros j [->|Hj]%elem_of_cons; intros; [done|auto].
Qed.

(** The same for the tiers; a first [best] above tier 0 may be overtaken. *)
Lemma lowest_prio_spec h l best :
  (forall p b, best = Some (p, b) -> p = installOrderPriority b /\ 0 < p) ->
  match lowest_prio h l best with
  | None => best = None /\ forall it, it ∈ l -> ~ eligible h it
  | Some r =>
      ((exists p, best = Some (p, r)) \/
       exists l1 l2, l = l1 ++ r :: l2 /\ eligible h r
         /\ (forall it, it ∈ l1 -> eligible h it -> installOrderPriority r < installOrderPriority it)
         /\ (forall p b, best = Some (p, b) -> installOrderPriority r < p))
      /\ (forall p b, best = Some (p, b) -> installOrderPriority r <= p)
      /\ (forall it, it ∈ l -> eligible h it -> prio_le r it)
  end.
Proof.
  revert best. induction l as [|it l IH]; intros best Hb; cbn [lowest_prio].
  - destruct best as [[p b]|]; [|split; [done|set_solver]].
    destruct (Hb _ _ eq_refl) as [-> ?].
    split_and!; [left; by eexists|intros ? ? Hq; simplify_eq; simpl; lia|set_solver].
  - rewrite eligible_test.
    destruct (decide (eligible h it)) as [He|He];
      [rewrite (bool_decide_eq_true_2 _ He)|rewrite (bool_decide_eq_false_2 _ He)]; simpl.
    + set (p := installOrderPriority it). pose proof (installOrderPriority_range it) as Hr.
      fold p in Hr.
      destruct (match best with Some (q, _) => p <? q | None => true end) eqn:Eb.
      * assert (forall q b, best = Some (q, b) -> p < q) as Hlt.
        { intros q b ->. by apply Z.ltb_lt in Eb. }
        destruct (p =? 0) eqn:E0.
        -- apply Z.eqb_eq in E0. split_and!.
           ++ right. exists [], l. split_and!; try done. set_solver.
           ++ intros q b Hq. specialize (Hlt _ _ Hq). fold p. lia.
           ++ intros j _ _. pose proof (installOrderPriority_range j). unfold prio_le. subst p. lia.
        -- apply Z.eqb_neq in E0. specialize (IH (Some (p, it))).
           destruct (lowest_prio h l (Some (p, it))) as [r|].
           ++ destruct IH as (IH1 & IH2 & IH3).
              { intros q b [= <- <-]. split; [done|lia]. }
              specialize (IH2 _ _ eq_refl). split_and!.
              ** right. destruct IH1 as [[q [= ? ->]]|(l1 & l2 & -> & Her & Hl1 & Hl2)].
                 --- exists [], l. split_and!; try done; set_solver.
                 --- exists (it :: l1), l2. split_and!; try done.
                     +++ intros j [->|Hj]%elem_of_cons; intros; [by apply (Hl2 _ _ eq_refl)|auto].
                     +++ intros q b Hq. apply Hlt in Hq. specialize (Hl2 _ _ eq_refl). lia.
              ** intros q b Hq. specialize (Hlt _ _ Hq). lia.
              ** intros j [->|Hj]%elem_of_cons; intros; [done|auto].
           ++ destruct IH as [IH _]; [|done]. intros q b [= <- <-]. split; [done|lia].
      * destruct best as [[q b]|]; [|done]. apply Z.ltb_ge in Eb. specialize (IH _ Hb).
        destruct (lowest_prio h l (Some (q, b))) as [r|]; [|naive_solver].
        destruct IH as (IH1 & IH2 & IH3). specialize (IH2 _ _ eq_refl). split_and!.
        -- destruct IH1 as [?|(l1 & l2 & -> & Her & Hl1 & Hl2)]; [by left|].
           right. exists (it :: l1), l2. split_and!; try done.
           intros j [->|Hj]%elem_of_cons; intros; [|auto].
           specialize (Hl2 _ _ eq_refl). fold p. lia.
        -- intros ? ? [= <- <-]. lia.
        -- intros j [->|Hj]%elem_of_cons; intros; [|auto]. unfold prio_le. subst p. lia.
    + specialize (IH _ Hb). destruct (lowest_prio h l best) as [r|].
      * destruct IH as (IH1 & IH2 & IH3). split_and!; [|done|].
        -- destruct IH1 as [?|(l1 & l2 & -> & Her & Hl1 & Hl2)]; [by left|].
           right. exists (it :: l1), l2. split_and!; try done.
           intros j [->|Hj]%elem_of_cons; intros; [done|auto].
        -- intros j [->|Hj]%elem_of_cons; intros; [done|auto].
      * destruct IH as [-> IH]. split; [done|].
        intros j [->|Hj]%elem_of_cons; intros; [done|auto].
Qed.

Lemma nextPending_eligible l h n : nextPendingForHost l h = Some n -> n ∈ l /\ eligible h n.
Proof.
  unfold nextPendingForHost. pose proof (earliest_sent_spec h l None) as H1.
  destruct (earliest_sent h l None) as [r|].
  - intros [= ->]. naive_solver.
  - intros Hn. pose proof (lowest_prio_spec h l None) as H2. rewrite Hn in H2.
    destruct H2 as ([[? ?]|(l1 & l2 & -> & He & _)] & _); [done|done|].
    split; [set_solver|done].
Qed.

(** the runner's pick on a console: none exactly when no row there may run; else a row that
    may run, and no other beats it: a row sent now before every row that was not, the earliest
    click first; with none sent now, base before update before DLC and the first in the list
    within a tier. *)
Theorem nextPendingForHost_spec (l : list QueueItem) (h : str) :
  match nextPendingForHost l h with
  | None => forall it, it ∈ l -> ~ eligible h it
  | Some r =>
      r ∈ l /\ eligible h r /\
      ((is_sent r = true /\ forall it, it ∈ l -> eligible h it -> is_sent it = true -> sent_le r it)
       \/ ((forall it, it ∈ l -> eligible h it -> is_sent it = false) /\
           exists l1 l2, l = l1 ++ r :: l2
             /\ (forall it, it ∈ l1 -> eligible h it -> installOrderPriority r < installOrderPriority it)
             /\ (forall it, it ∈ l2 -> eligible h it -> installOrderPriority r <= installOrderPriority it)))
  end.
Proof.
  unfold nextPendingForHost. pose proof (earliest_sent_spec h l None) as H1.
  destruct (earliest_sent h l None) as [r|].
  - destruct H1 as ([?|(? & ? & ?)] & _ & ?); [done|]. naive_solver.
  - destruct H1 as [_ Hs]. pose proof (lowest_prio_spec h l None) as H2.
    destruct (lowest_prio h l None) as [r|]; [|by apply H2].
    destruct H2 as ([[? ?]|(l1 & l2 & -> & He & Hl1 & _)] & _ & Hall); [done|done|].
    split_and!; [set_solver|done|]. right. split; [done|]. exists l1, l2. split_and!; try done.
    intros it Hit. apply Hall. set_solver.
Qed.
