(* ===== verification/QueueStore.v ===== *)
(** The upload queue's store and runner (client/src/state/uploadQueue.ts,
    [useUploadQueueStore]) as a state machine.

    The state is the store's ([Store]): the rows, the per-console flags and generations, the
    scopes of limited runs, the pending restarts, and the drain loops themselves, each stopped
    at one of its [await]s ([Phase]).  The program is single-threaded, so what runs between two
    awaits is one transition: an action of the store ([addItem] … [stop]) or the resumption of a
    loop with what it awaited ([loop_event]).  [exec] performs any of them; [step] restricts the
    ids a new row may have (they are random in the code). *)
From S2P Require Import Prelude RemotePath Addr QueueOps UploadRecovery UploadQueue.

(** * State *)

Record RunScope := { sc_installs : bool; sc_ids : list str }.

(** [startHost]'s options. *)
Record StartOpts := { installsOnly : bool; onlyIds : list str; unattended : bool }.
Definition no_opts : StartOpts := {| installsOnly := false; onlyIds := []; unattended := false |}.

(** A console stopped to take one row out of it; [pr_gen] is the generation it was stopped at,
    which also tells one pending restart from another. *)
Record PendingRestart := { pr_host : str; pr_again : option StartOpts }.

(** Whose install occupies a console. *)
Inductive InFlight := ByLoop (gen : Z) | ByLookup (id : str).
#[export] Instance in_flight_eq_dec : EqDecision InFlight.
Proof. solve_decision. Defined.

(** What a run threw. *)
Record Failure := {
  f_post : bool;                 (* PostUploadStepError: the bytes are committed *)
  f_fallback : bool;             (* an install verdict that recommends staging *)
  f_reason : option str;
  f_message : str;
  f_detail : option str
}.
Record RunResult := { r_bytes : Z; r_rate : Z; r_phase : option InstallPhase; r_note : option str }.

(** The [await] a drain loop is stopped at.  [next] is the row object the loop picked, a
    snapshot: the store's row may have changed since. *)
Inductive Phase :=
  | Hold                                              (* holdConsoleFromEngineQueue *)
  | Preflight                                         (* ensurePayloadCurrent *)
  | WaitInstall                                       (* an install of a stopped loop *)
  | Retake (next : QueueItem)                         (* retakeEngineQueueHold *)
  | Settle (next : QueueItem)                         (* INTER_JOB_SETTLE_MS *)
  | Locking (next : QueueItem) (attempt : Z)          (* takeMeshLock, mkdir *)
  | Starting (next : QueueItem) (attempt : Z)         (* the start request *)
  | Polling (next : QueueItem) (attempt : Z) (job : str)
  | Finishing (next : QueueItem) (attempt : Z)        (* mount, register *)
  | WaitTurn (next : QueueItem) (attempt : Z)         (* waitForInstallTurn *)
  | Installs (next : QueueItem) (attempt : Z)         (* the installer *)
  | Backoff (next : QueueItem) (attempt : Z) (waited : Z) (why : Failure)
  | Heal (next : QueueItem) (attempt : Z).

Record Loop := {
  l_host : str; l_phase : Phase; l_jobs : Z; l_unattended : bool; l_started : Z
}.

Record Store := {
  items : list QueueItem;
  continueOnFailure : bool;
  isLeader : bool;
  loaded : bool;
  runningHosts : gset str;
  limitedHosts : gset str;
  genCounter : Z;
  hostGen : gmap str Z;
  runScope : gmap str RunScope;
  wholeQueueStarted : gset str;
  stoppingHosts : gmap str Z;
  restarts : gmap Z PendingRestart;
  runningJobByHost : gmap str str;
  cancelledJobs : gset str;
  reattaching : gset str;
  installInFlight : gmap str InFlight;
  lookups : gset str;
  standbys : list str;
  loops : gmap Z Loop
}.

#[export] Instance settable_loop : Settable Loop := fun l => {|
  l_host := l_host l; l_phase := l_phase l; l_jobs := l_jobs l;
  l_unattended := l_unattended l; l_started := l_started l |}.
#[export] Instance settable_store : Settable Store := fun s => {|
  items := items s; continueOnFailure := continueOnFailure s; isLeader := isLeader s;
  loaded := loaded s; runningHosts := runningHosts s; limitedHosts := limitedHosts s;
  genCounter := genCounter s; hostGen := hostGen s; runScope := runScope s;
  wholeQueueStarted := wholeQueueStarted s; stoppingHosts := stoppingHosts s;
  restarts := restarts s; runningJobByHost := runningJobByHost s;
  cancelledJobs := cancelledJobs s; reattaching := reattaching s;
  installInFlight := installInFlight s; lookups := lookups s; standbys := standbys s; loops := loops s |}.

Definition init : Store := {|
  items := []; continueOnFailure := false; isLeader := true; loaded := false;
  runningHosts := ∅; limitedHosts := ∅; genCounter := 0; hostGen := ∅; runScope := ∅;
  wholeQueueStarted := ∅; stoppingHosts := ∅; restarts := ∅; runningJobByHost := ∅;
  cancelledJobs := ∅; reattaching := ∅; installInFlight := ∅; lookups := ∅; standbys := []; loops := ∅ |}.

(** What a transition reads from outside the store: the clock, the settings and the poller's
    view of which consoles are in rest mode. *)
Record Env := {
  now : Z; autoResume : bool; queueAutoStart : bool; restAfterUpload : bool; asleep : str -> bool
}.
Definition hostAsleep (env : Env) (addr : str) : bool :=
  asleep env (match hostOf addr with [] => js "_" | h => h end).

(** * Helpers *)

Definition patch (i : str) (f : QueueItem -> QueueItem) (s : Store) : Store :=
  s <| items := patchItem id_ (items s) i f |>.
Definition row (i : str) (s : Store) : option QueueItem := find_first (has_id id_ i) (items s).
Definition isLive (h : str) (g : Z) (s : Store) : bool := bool_decide (hostGen s !! h = Some g).
Definition set_phase (g : Z) (l : Loop) (p : Phase) (s : Store) : Store :=
  s <| loops := <[g := l <| l_phase := p |>]> (loops s) |>.
Definition markLimited (h : str) (on : bool) (s : Store) : Store :=
  s <| limitedHosts := if on then {[h]} ∪ limitedHosts s else limitedHosts s ∖ {[h]} |>.
Definition inScope (h : str) (it : QueueItem) (s : Store) : bool :=
  match runScope s !! h with
  | None => true
  | Some sc => (sc_installs sc && is_kind KInstall it) || bool_decide (id_ it ∈ sc_ids sc)
  end.
Definition pickPending (h : str) (s : Store) : option QueueItem :=
  nextPendingForHost
    (List.filter (fun it => negb (bool_decide (id_ it ∈ reattaching s)) && inScope h it s) (items s)) h.

(** [cancelEngineJob] of this console's running job, if it has one. *)
Definition cancel_running_job (h : str) (s : Store) : Store :=
  match runningJobByHost s !! h with
  | None | Some [] => s
  | Some j => s <| runningJobByHost := delete h (runningJobByHost s) |>
                <| cancelledJobs := {[j]} ∪ cancelledJobs s |>
  end.
Definition bump_gen (h : str) (s : Store) : Store :=
  s <| genCounter := genCounter s + 1 |> <| hostGen := <[h := genCounter s + 1]> (hostGen s) |>.

(** Park an upload until its console wakes. *)
Definition parkForWake (next : QueueItem) (s : Store) : Store :=
  patch (id_ next) (fun it =>
    it <| status := Pending |> <| waitingForWake := true |> <| interrupted := true |>
       <| bytesPerSec := 0 |> <| stalledForMs := None |> <| recovering := false |>
       <| recoverAttempt := 0 |> <| error := None |> <| errorReason := None |>
       <| errorDetail := None |>) s.

(** A row sent now that has still to run or to finish. *)
Definition sent_live (h : str) (it : QueueItem) : bool :=
  on_host h it && is_sent it && negb (is_paused it) && (is_status Pending it || is_status Running it).
Definition settle_row (h : str) (live : bool) (it : QueueItem) : QueueItem :=
  if negb (on_host h it) then it
  else if is_sent it && (is_status Done it || is_status Failed it) then it <| sendNowAt := None |>
  else if negb live && bool_decide (paused it = Some BySendNow) && is_status Pending it
       then it <| paused := None |>
       else it.
Definition settle_resumed (h : str) (live : bool) (it : QueueItem) : bool :=
  on_host h it
  && negb (is_sent it && (is_status Done it || is_status Failed it))
  && negb live && bool_decide (paused it = Some BySendNow) && is_status Pending it.

(** Ends a Send now on [h] once no row sent now is left there; the ids it resumed. *)
Definition settleSendNow (h : str) (s : Store) : list str * Store :=
  let live := existsb (sent_live h) (items s) in
  let resumed := map id_ (List.filter (settle_resumed h live) (items s)) in
  let s1 := s <| items := map (settle_row h live) (items s) |> in
  (resumed,
   match runScope s1 !! h with
   | Some sc => s1 <| runScope := <[h := {| sc_installs := sc_installs sc; sc_ids := sc_ids sc ++ resumed |}]>
                                  (runScope s1) |>
   | None => s1
   end).

(** Every action of the store is refused on a tab that is not the runner ([refusals]). *)
Definition guarded (f : Store -> Store) (s : Store) : Store := if isLeader s then f s else s.

(** * Starting and stopping a console *)

Definition widen (o : StartOpts) (sc : RunScope) : RunScope :=
  {| sc_installs := sc_installs sc || installsOnly o; sc_ids := sc_ids sc ++ onlyIds o |}.
Definition is_limited (o : StartOpts) : bool :=
  installsOnly o || match onlyIds o with [] => false | _ => true end.

Definition startHost (env : Env) (host : str) (o : StartOpts) (s : Store) : Store :=
  let h := hostOf host in
  let limited := is_limited o in
  let s := if negb limited && negb (unattended o)
           then s <| wholeQueueStarted := {[h]} ∪ wholeQueueStarted s |> else s in
  if bool_decide (h ∈ runningHosts s) then
    if negb limited then markLimited h false (s <| runScope := delete h (runScope s) |>)
    else match runScope s !! h with
         | Some sc => s <| runScope := <[h := widen o sc]> (runScope s) |>
         | None => s
         end
  else
    let s := if limited
             then s <| runScope := <[h := widen o {| sc_installs := false; sc_ids := [] |}]> (runScope s) |>
             else s <| runScope := delete h (runScope s) |> in
    let s := bump_gen h (markLimited h limited s) in
    s <| runningHosts := {[h]} ∪ runningHosts s |>
      <| items := map (fun it => if waitingForWake it && on_host h it
                                 then it <| waitingForWake := false |> else it) (items s) |>
      <| loops := <[genCounter s := {| l_host := h; l_phase := Hold; l_jobs := 0;
                     l_unattended := unattended o; l_started := now env |}]> (loops s) |>.

Definition stopHost (host : str) (s : Store) : Store :=
  let h := hostOf host in
  let s := bump_gen h (cancel_running_job h s) in
  let s := (markLimited h false s) <| wholeQueueStarted := wholeQueueStarted s ∖ {[h]} |> in
  s <| runningHosts := runningHosts s ∖ {[h]} |>
    <| items := resetRunningToPending (items s) (fun it => on_host h it && negb (isInstallWork it)) |>.

(** The console runs again once its stopped job has ended ([restart_ready]). *)
Definition restartAfterStop (h : str) (again : option StartOpts) (s : Store) : Store :=
  match hostGen s !! h with
  | Some g => s <| stoppingHosts := <[h := g]> (stoppingHosts s) |>
                <| restarts := <[g := {| pr_host := h; pr_again := again |}]> (restarts s) |>
  | None => s
  end.

Definition restart_ready (env : Env) (g : Z) (s : Store) : Store :=
  match restarts s !! g with
  | None => s
  | Some r =>
      let h := pr_host r in
      let s := s <| restarts := delete g (restarts s) |> in
      let s := if decide (stoppingHosts s !! h = Some g)
               then s <| stoppingHosts := delete h (stoppingHosts s) |> else s in
      if negb (isLive h g s) then s
      else match nextPendingForHost (items s) h with
           | Some _ => guarded (startHost env h (pr_again r ?? no_opts)) s
           | None => s
           end
  end.

(** Runs [id] in the restart its console is waiting for; [None] when there is none. *)
Definition joinPendingRestart (h i : str) (s : Store) : option Store :=
  match stoppingHosts s !! h with
  | None => None
  | Some g =>
      if negb (isLive h g s) then None
      else
        match restarts s !! g with
        | Some {| pr_host := ph; pr_again := Some o |} =>
            if bool_decide (i ∈ onlyIds o) then Some s
            else Some (s <| restarts := <[g := {| pr_host := ph; pr_again := Some
                   {| installsOnly := installsOnly o; onlyIds := onlyIds o ++ [i];
                      unattended := unattended o |} |}]> (restarts s) |>)
        | _ => Some s
        end
  end.

(** The run a console goes on with after one of its rows was taken out: the scope it had. *)
Definition scope_again (h : str) (also : list str) (s : Store) : option StartOpts :=
  (fun sc => {| installsOnly := sc_installs sc; onlyIds := sc_ids sc ++ also; unattended := false |})
    <$> runScope s !! h.

Definition pauseRunning (it : QueueItem) (why : PausedBy) (also : list str) (s : Store) : Store :=
  let h := host_of it in
  let s1 := patch (id_ it) (fun r => r <| paused := Some why |>) (stopHost h s) in
  let '(resumed, s2) := match why with ByUser => settleSendNow h s1 | BySendNow => ([], s1) end in
  restartAfterStop h (scope_again h (also ++ resumed) s) s2.

(** * The drain loop *)

(** The loop's end: [startHost]'s [finally].  A loop that is no longer live changes nothing. *)
Definition end_loop (env : Env) (g : Z) (l : Loop) (s : Store) : Store :=
  let h := l_host l in
  let s1 := s <| loops := delete g (loops s) |> in
  if negb (isLive h g s1) then s1
  else
    let idle := match nextPendingForHost (items s1) h with None => true | Some _ => false end in
    let s2 := markLimited h false (s1 <| runningHosts := runningHosts s1 ∖ {[h]} |>) in
    let s3 := if idle then s2 <| wholeQueueStarted := wholeQueueStarted s2 ∖ {[h]} |> else s2 in
    if restAfterUpload env && idle
       && shouldRestAfterRun (items s3) h (l_started l) (bool_decide (is_Some (installInFlight s3 !! h)))
    then s3 <| standbys := standbys s3 ++ [h] |>
    else s3.

(** The top of [drain: while (isLive())]. *)
Definition drain_top (env : Env) (g : Z) (l : Loop) (s : Store) : Store :=
  let h := l_host l in
  if negb (isLive h g s) then end_loop env g l s
  else
    match pickPending h s with
    | None => end_loop env g l s
    | Some next =>
        let nh := host_of next in
        if bool_decide (is_Some (installInFlight s !! nh))
           && existsb (fun it => isInstallWork it && is_status Running it && on_host nh it) (items s)
        then set_phase g l WaitInstall s
        else set_phase g l (Retake next) s
    end.

Definition start_patch (it : QueueItem) : QueueItem :=
  it <| status := Running |> <| interrupted := false |> <| waitingForWake := false |>
     <| uploadDone := false |> <| stalledForMs := None |> <| installJobId := None |>
     <| installPhase := None |> <| installPct := None |> <| installProgress := None |>
     <| installNote := None |> <| bytesSent := 0 |> <| totalBytes := 0 |> <| bytesPerSec := 0 |>
     <| recovering := false |> <| recoverAttempt := 0 |> <| error := None |>
     <| errorReason := None |> <| errorDetail := None |>.

(** One attempt at [next]: [runOne] up to its first await. *)
Definition run_one (g : Z) (l : Loop) (next : QueueItem) (attempt : Z) (s : Store) : Store :=
  set_phase g l (if is_kind KInstall next then WaitTurn next attempt else Locking next attempt) s.

(** From the settle's end to the first attempt. *)
Definition begin_item (g : Z) (l : Loop) (next : QueueItem) (s : Store) : Store :=
  run_one g (l <| l_jobs := l_jobs l + 1 |>) next 0 (patch (id_ next) start_patch s).

Definition after_retake (env : Env) (g : Z) (l : Loop) (next : QueueItem) (s : Store) : Store :=
  if negb (isLive (l_host l) g s) then end_loop env g l s
  else if negb (is_kind KInstall next) && bool_decide (attachJobId next = None)
          && autoResume env && hostAsleep env (addr next)
  then end_loop env g l (parkForWake next s)
  else if 0 <? l_jobs l then set_phase g l (Settle next) s
  else begin_item g l next s.

Definition run_ok (env : Env) (g : Z) (l : Loop) (next : QueueItem) (r : RunResult) (s : Store) : Store :=
  let s1 := patch (id_ next) (fun it =>
    it <| status := Done |> <| bytesSent := r_bytes r |> <| bytesPerSec := r_rate r |>
       <| installPhase := r_phase r |> <| installNote := r_note r |> <| recovering := false |>
       <| recoverAttempt := 0 |> <| completedAt := Some (now env) |>) s in
  drain_top env g l (snd (settleSendNow (host_of next) s1)).

(** lib/remotePath.ts *)
Definition failed_patch (env : Env) (is_install : bool) (next : QueueItem) (f : Failure)
    (it : QueueItem) : QueueItem :=
  let it := it <| status := Failed |> <| bytesPerSec := 0 |> <| recovering := false |>
    <| recoverAttempt := 0 |> <| error := Some (f_message f) |> <| errorReason := f_reason f |>
    <| errorDetail := f_detail f |> <| completedAt := Some (now env) |> in
  let it := if is_install then it <| installPhase := Some PError |> <| installNote := None |> else it in
  match install next with
  | Some (ViaStream src) =>
      if is_install && f_fallback f && negb (isRemotePath src) then it <| fallbackToUpload := true |> else it
  | _ => it
  end.

Definition run_failed (env : Env) (g : Z) (l : Loop) (next : QueueItem) (attempt : Z) (f : Failure)
    (s : Store) : Store :=
  let h := l_host l in
  let is_install := isInstallWork (row (id_ next) s ?? next) in
  if negb (isLive h g s) && negb is_install then end_loop env g l s
  else if negb is_install && autoResume env
          && shouldParkForWake (f_post f) (f_reason f) (Some (f_message f)) (hostAsleep env (addr next))
  then end_loop env g l (parkForWake next s)
  else if negb is_install && autoResume env && (attempt <? MAX_AUTO_RECOVER_ATTEMPTS)
          && shouldAutoRecover (f_post f) (f_reason f) (Some (f_message f)) (Some true)
  then
    set_phase g l (Backoff next (attempt + 1) 0 f)
      (patch (id_ next) (fun it =>
         it <| status := Running |> <| recovering := true |> <| recoverAttempt := attempt + 1 |>
            <| bytesPerSec := 0 |> <| error := Some (f_message f) |> <| errorReason := f_reason f |>
            <| errorDetail := f_detail f |>) s)
  else
    let s1 := patch (id_ next) (failed_patch env is_install next f) s in
    let s2 := snd (settleSendNow (host_of next) s1) in
    if negb (isLive h g s2) then end_loop env g l s2
    else if negb is_install && negb (is_sent next) && negb (continueOnFailure s2) then
      let gone := match row (id_ next) s2 with Some it => negb (canResumeUnattended it) | None => true end in
      end_loop env g l
        (if gone then s2 <| wholeQueueStarted := wholeQueueStarted s2 ∖ {[host_of next]} |> else s2)
    else drain_top env g l s2.

(** What a loop's [await] gave it. *)
Inductive LoopEvent :=
  | EvWaiting (waiting : bool)
  | EvDone                                   (* hold, preflight, install wait, retake, settle, lock, heal *)
  | EvJob (job : str)
  | EvProgress (sent total rate : Z) (stalled : option Z)
  | EvUploaded (dest : option str)
  | EvTurnBusy (note : str)
  | EvTurn
  | EvInstallProgress (pct : option Z) (p : option InstallProgress)
  | EvInstallJob (job : str)
  | EvOk (r : RunResult)
  | EvErr (f : Failure)
  | EvTick.

(** [throw new Error("queue stopped")] *)
Definition stopped_failure : Failure := {|
  f_post := false; f_fallback := false; f_reason := None; f_message := js "queue stopped";
  f_detail := None |}.

(** [onWaiting]: an item of the engine's own queue runs on the console, or no longer. *)
Definition mark_waiting (h : str) (waiting : bool) (s : Store) : Store :=
  let next := if waiting then pickPending h s else None in
  s <| items := map (fun it =>
         if bool_decide (Some (id_ it) = id_ <$> next) then it <| waitingForEngineQueue := true |>
         else if waitingForEngineQueue it && on_host h it then it <| waitingForEngineQueue := false |>
         else it) (items s) |>.

Definition after_hold (env : Env) (g : Z) (l : Loop) (s : Store) : Store :=
  if negb (isLive (l_host l) g s) then end_loop env g l s
  else
    match pickPending (l_host l) s with
    | Some head =>
        if bool_decide (attachJobId head = None) && negb (hostAsleep env (addr head))
        then set_phase g l Preflight s else drain_top env g l s
    | None => drain_top env g l s
    end.

(** The upload has its engine job: it is the console's running job, unless the loop died while
    the start request was in flight; then the job is cancelled and the run throws. *)
Definition job_started (env : Env) (g : Z) (l : Loop) (next : QueueItem) (attempt : Z) (job : str)
    (s : Store) : Store :=
  if negb (isLive (l_host l) g s) then
    run_failed env g l next attempt stopped_failure
      (s <| cancelledJobs := {[job]} ∪ cancelledJobs s |>)
  else
    set_phase g l (Polling next attempt job)
      (patch (id_ next) (fun it => it <| jobId := Some job |>)
         (s <| runningJobByHost := <[host_of next := job]> (runningJobByHost s) |>)).

(** After the lock: an item handed back after a reload adopts its job at once. *)
Definition after_lock (env : Env) (g : Z) (l : Loop) (next : QueueItem) (attempt : Z) (s : Store) : Store :=
  match row (id_ next) s ≫= attachJobId with
  | Some ((_ :: _) as job) =>
      job_started env g l next attempt job
        (patch (id_ next) (fun it => it <| attachJobId := None |>) s)
  | _ => set_phase g l (Starting next attempt) s
  end.

Definition progress (g : Z) (next : QueueItem) (sent total rate : Z) (stalled : option Z) (s : Store) : Store :=
  patch (id_ next) (fun it => it <| bytesSent := sent |> <| totalBytes := total |>
    <| bytesPerSec := rate |> <| stalledForMs := stalled |>) s.

(** The job is done: the bytes are on the console.  A package then installs. *)
Definition uploaded (g : Z) (l : Loop) (next : QueueItem) (attempt : Z) (dest : option str) (s : Store) : Store :=
  let s1 := patch (id_ next) (fun it =>
    let it := it <| uploadDone := true |> in
    match dest with Some d => it <| resolvedDest := d |> | None => it end) s in
  if is_kind KPkg next && negb (bool_decide (installAfterUpload next = Some false)) then
    set_phase g l (Installs next attempt)
      ((patch (id_ next) (fun it => it <| installPhase := Some PInstalling |> <| installPct := Some 0 |>) s1)
       <| installInFlight := <[host_of next := ByLoop g]> (installInFlight s1) |>)
  else set_phase g l (Finishing next attempt) s1.

Definition install_started (g : Z) (l : Loop) (next : QueueItem) (attempt : Z) (s : Store) : Store :=
  set_phase g l (Installs next attempt)
    ((patch (id_ next) (fun it => it <| installPhase := Some PInstalling |> <| installPct := Some 0 |>
        <| installProgress := None |> <| installNote := None |>) s)
     <| installInFlight := <[host_of next := ByLoop g]> (installInFlight s) |>).

Definition leave_in_flight (h : str) (t : InFlight) (s : Store) : Store :=
  if decide (installInFlight s !! h = Some t)
  then s <| installInFlight := delete h (installInFlight s) |> else s.

Definition loop_event (env : Env) (g : Z) (ev : LoopEvent) (s : Store) : Store :=
  match loops s !! g with
  | None => s
  | Some l =>
      match l_phase l, ev with
      | Hold, EvWaiting w => mark_waiting (l_host l) w s
      | Hold, EvDone => after_hold env g l s
      | Preflight, EvDone => drain_top env g l s
      | WaitInstall, EvDone => drain_top env g l s
      | Retake next, EvDone => after_retake env g l next s
      | Settle next, EvDone =>
          if negb (isLive (l_host l) g s) then end_loop env g l s else begin_item g l next s
      | Locking next a, EvDone => after_lock env g l next a s
      | Starting next a, EvJob j => job_started env g l next a j s
      | Starting next a, EvErr f => run_failed env g l next a f s
      | Polling next a j, EvProgress sent total rate stalled =>
          if negb (isLive (l_host l) g s) then run_failed env g l next a stopped_failure s
          else progress g next sent total rate stalled s
      | Polling next a j, EvUploaded dest =>
          if negb (isLive (l_host l) g s) then run_failed env g l next a stopped_failure s
          else uploaded g l next a dest s
      | Polling next a j, EvErr f =>
          if negb (isLive (l_host l) g s) then run_failed env g l next a stopped_failure s
          else run_failed env g l next a f s
      | Finishing next a, EvOk r => run_ok env g l next r s
      | Finishing next a, EvErr f => run_failed env g l next a f s
      | WaitTurn next a, EvTurnBusy note =>
          patch (id_ next) (fun it => it <| installPhase := Some PInstalling |> <| installNote := Some note |>) s
      | WaitTurn next a, EvTurn => install_started g l next a s
      | WaitTurn next a, EvErr f => run_failed env g l next a f s
      | Installs next a, EvTurnBusy note =>
          patch (id_ next) (fun it => it <| installPhase := Some PInstalling |> <| installNote := Some note |>) s
      | Installs next a, EvInstallProgress pct p =>
          patch (id_ next) (fun it =>
            let it := it <| installPct := pct |> <| installNote := None |> in
            match p with Some p => it <| installProgress := Some p |> | None => it end) s
      | Installs next a, EvInstallJob j => patch (id_ next) (fun it => it <| installJobId := Some j |>) s
      | Installs next a, EvOk r => run_ok env g l next r (leave_in_flight (host_of next) (ByLoop g) s)
      | Installs next a, EvErr f => run_failed env g l next a f (leave_in_flight (host_of next) (ByLoop g) s)
      | Backoff next a waited f, EvTick =>
          if negb (isLive (l_host l) g s) then end_loop env g l s
          else if waited + 250 <? autoRecoverBackoffMs (a - 1)
          then set_phase g l (Backoff next a (waited + 250) f) s
          else if hostAsleep env (addr next) then end_loop env g l (parkForWake next s)
          else set_phase g l (Heal next a) s
      | Heal next a, EvDone =>
          if negb (isLive (l_host l) g s) then end_loop env g l s
          else run_one g l next a (patch (id_ next) (fun it =>
                 it <| status := Running |> <| recovering := false |> <| bytesSent := 0 |>
                    <| totalBytes := 0 |> <| bytesPerSec := 0 |> <| error := None |>
                    <| errorReason := None |> <| errorDetail := None |>) s)
      | _, _ => s
      end
  end.

(** * The store's actions *)

Definition set_items (f : list QueueItem -> list QueueItem) (s : Store) : Store :=
  s <| items := f (items s) |>.

(** [add]: the row is the caller's input under a new id and with fresh counters. *)
Definition addItem (input : QueueItem) (newId tx : str) (s : Store) : Store :=
  set_items (fun l => l ++ [input
    <| id_ := newId |> <| txIdHex := match txIdHex input with [] => tx | t => t end |>
    <| status := Pending |> <| bytesSent := 0 |> <| totalBytes := 0 |> <| bytesPerSec := 0 |>
    <| interrupted := false |> <| paused := None |> <| sendNowAt := None |> <| uploadDone := false |>
    <| waitingForWake := false |> <| recovering := false |> <| recoverAttempt := 0 |>
    <| jobId := None |> <| attachJobId := None |> <| installPhase := None |> <| installJobId := None |>
    <| error := None |> <| errorReason := None |> <| errorDetail := None |>
    <| completedAt := None |>]) s.

Definition startAdded (env : Env) (host : str) (s : Store) : Store :=
  if queueAutoStart env then startHost env host no_opts s else s.

(** [enqueueInstall]: the same install already waiting or running is joined. *)
Definition enqueueInstall (env : Env) (host : str) (req : InstallRequest) (input : QueueItem)
    (newId tx : str) (s : Store) : str * Store :=
  match find_first (fun it => sameInstall it host req) (items s) with
  | Some it => (id_ it, s)
  | None =>
      let it := input <| sourceKind := KInstall |> <| sourcePath := installKey req |>
        <| resolvedDest := [] |> <| addr := consoleAddr (hostOf host) |> <| install := Some req |> in
      (newId, startAdded env (hostOf host) (addItem it newId tx s))
  end.

Definition remove (i : str) (s : Store) : Store :=
  match row i s with
  | None => s
  | Some it => snd (settleSendNow (host_of it) (set_items (fun l => removeItem id_ l i) s))
  end.

(** [cancelItem]: a running install is asked to stop and its row goes when the job has ended
    ([cancel_install_end]); anything else goes now. *)
Definition cancelItem (i : str) (s : Store) : Store :=
  match row i s with
  | None => s
  | Some it =>
      let h := host_of it in
      if isInstallWork it && is_status Running it then
        if stopping it then s else patch i (fun r => r <| stopping := true |>) s
      else if negb (is_status Running it) then
        snd (settleSendNow h (set_items (fun l => removeItem id_ l i) s))
      else
        let was := bool_decide (h ∈ runningHosts s) in
        let s1 := set_items (fun l => removeItem id_ l i) (stopHost h s) in
        let s2 := snd (settleSendNow h s1) in
        if was then restartAfterStop h None s2 else s2
  end.

(** The end of a running install's cancellation: [job] is the engine job it asked to stop. *)
Definition cancel_install_end (env : Env) (i h : str) (job : option str) (s : Store) : Store :=
  match row i s with
  | Some it =>
      if is_status Running it then patch i (fun r => r <| stopping := false |>) s
      else
        let s1 := set_items (fun l => removeItem id_ l i) s in
        match job, nextPendingForHost (items s1) h with
        | None, Some _ => guarded (startHost env h no_opts) s1
        | _, _ => s1
        end
  | None => s
  end.

Definition pauseItem (i : str) (s : Store) : Store :=
  match row i s with
  | Some it => if canPauseItem it then pauseRunning it ByUser [] s else s
  | None => s
  end.

Definition only (i : str) : StartOpts := {| installsOnly := false; onlyIds := [i]; unattended := false |}.

Definition resumeItem (env : Env) (i : str) (s : Store) : Store :=
  match row i s with
  | Some it =>
      if negb (is_status Pending it) || negb (is_paused it) then s
      else
        let h := host_of it in
        let s1 := patch i (fun r => r <| paused := None |>) s in
        match joinPendingRestart h i s1 with
        | Some s2 => s2
        | None => startHost env h (only i) s1
        end
  | None => s
  end.

Definition send_at (env : Env) (l : list QueueItem) : Z :=
  fold_left Z.max (map (fun it => (sendNowAt it ?? 0) + 1) l) (now env).

Definition sendNow (env : Env) (i : str) (s : Store) : Store :=
  match row i s with
  | Some it =>
      if negb (is_status Pending it) || is_paused it then s
      else
        let h := host_of it in
        let s1 := patch i (fun r => r <| sendNowAt := Some (send_at env (items s)) |>) s in
        match find_first (fun r => is_status Running r && on_host h r) (items s1) with
        | Some running =>
            if canPauseItem running && negb (is_sent running) then pauseRunning running BySendNow [i] s1
            else match joinPendingRestart h i s1 with
                 | Some s2 => s2 | None => startHost env h (only i) s1 end
        | None => match joinPendingRestart h i s1 with
                  | Some s2 => s2 | None => startHost env h (only i) s1 end
        end
  | None => s
  end.

Definition noteSourceSize (i : str) (bytes : option Z) (s : Store) : Store :=
  let size := knownSize bytes in
  match row i s with
  | Some it =>
      if (size =? 0) || negb (is_status Pending it) || (0 <? estimatedBytes it) then s
      else patch i (fun r => r <| estimatedBytes := size |>) s
  | None => s
  end.

Definition moveUp (i : str) : Store -> Store := set_items (fun l => moveItemUpWithinGroup id_ moveGroupOf l i).
Definition moveDown (i : str) : Store -> Store := set_items (fun l => moveItemDownWithinGroup id_ moveGroupOf l i).
Definition moveTo (i target : str) : Store -> Store :=
  set_items (fun l => moveItemToWithinGroup id_ moveGroupOf l i target).

Definition mine (h : option str) (it : QueueItem) : bool :=
  match h with None => true | Some h => on_host h it end.

(** [clear]: every console it clears that is running is stopped, its engine job cancelled; a
    running install stays. *)
Definition clear (host : option str) (s : Store) : Store :=
  let h := hostOf <$> host in
  let keep := List.filter (fun it => negb (mine h it) || (isInstallWork it && is_status Running it)) (items s) in
  let stop_one s rh :=
    if bool_decide (h = None \/ h = Some rh)
    then (cancel_running_job rh (bump_gen rh s)) <| runningHosts := runningHosts s ∖ {[rh]} |>
    else s in
  (fold_left stop_one (elements (runningHosts s)) s) <| items := keep |>.

Definition start_pass (env : Env) (first : bool) (s : Store) : Store :=
  let hosts := List.filter (fun h => negb (bool_decide (h ∈ runningHosts s))
                                     && (first || negb (hostAsleep env h)))
                 (distinctPendingHosts (items s) first) in
  fold_left (fun s h => startHost env h no_opts s) hosts s.
Definition start (env : Env) : Store -> Store := start_pass env true.

Definition stop (s : Store) : Store :=
  (fold_left (fun s h => stopHost h s) (elements (runningHosts s)) s) <| wholeQueueStarted := ∅ |>.

Definition retryFailed (env : Env) (host : option str) (s : Store) : Store :=
  let h := hostOf <$> host in
  let s1 := set_items (map (fun it =>
    if negb (mine h it) || negb (is_status Failed it) then it
    else
      let p := it <| status := Pending |> in
      if is_kind KInstall it && negb (bool_decide (installPhase it = None))
      then p <| installPhase := None |> <| installPct := None |> <| installProgress := None |>
             <| installNote := None |> <| fallbackToUpload := false |>
      else p)) s in
  match h with Some h => startHost env h no_opts s1 | None => start env s1 end.

Definition restartItem (i : str) (s : Store) : Store :=
  match row i s with
  | Some it =>
      if negb (is_status Running it) || is_kind KInstall it then s
      else
        let h := host_of it in
        restartAfterStop h (scope_again h [i] s) (stopHost h s)
  | None => s
  end.

Definition retryItem (i : str) (s : Store) : bool * Store :=
  match row i s with
  | Some it =>
      if negb (is_status Failed it) then (false, s)
      else (true, set_items (map (fun c => if has_id id_ i c then retryPatch c else c)) s)
  | None => (false, s)
  end.

Definition retryInstall (env : Env) (i : str) (s : Store) : Store :=
  match row i s with
  | Some it =>
      if negb (is_kind KInstall it) || negb (is_status Failed it) then s
      else
        startHost env (host_of it) no_opts (patch i (fun r =>
          r <| status := Pending |> <| error := None |> <| errorReason := None |>
            <| errorDetail := None |> <| installPhase := None |> <| installPct := None |>
            <| installProgress := None |> <| installNote := None |> <| fallbackToUpload := false |>
            <| completedAt := None |>) s)
  | None => s
  end.

(** [resumeFailedRecoverable]: what a reconnect starts again by itself. *)
Definition resumeFailedRecoverable (env : Env) (host : str) (s : Store) : Store :=
  if negb (autoResume env) then s
  else
    let h := hostOf host in
    let candidates := List.filter (fun it => on_host h it && canResumeUnattended it) (items s) in
    let '(ids, s1) := fold_left (fun '(ids, s) it =>
        let '(ok, s') := retryItem (id_ it) s in
        (if ok then ids ++ [id_ it] else ids, s')) candidates ([], s) in
    let parked := map id_ (List.filter (fun it =>
        on_host h it && is_status Pending it && waitingForWake it) (items s1)) in
    match ids ++ parked with
    | [] => s1
    | ids =>
        startHost env host
          (if bool_decide (h ∈ wholeQueueStarted s1)
           then {| installsOnly := false; onlyIds := []; unattended := true |}
           else {| installsOnly := false; onlyIds := ids; unattended := true |}) s1
    end.

(** * Saving, loading and following *)

(** What [scheduleSave] writes of a row: no archive password, no link. *)
Definition persist_row (it : QueueItem) : QueueItem :=
  let it := it <| rarPassword := None |> <| waitingForEngineQueue := false |> in
  match install it with
  | Some (ViaLink _) => it <| install := None |> <| sourcePath := js "url:" |>
  | _ => it
  end.
(** The document of a save, when one is written at all. *)
Definition save (s : Store) : option (list QueueItem * bool) :=
  if loaded s && isLeader s then Some (map persist_row (items s), continueOnFailure s) else None.

Definition interrupted_text : str :=
  js "Interrupted when the app closed. Check the game on the PS5, then retry if it isn't installed.".
Definition looking_text : str := js "Checking how this install went…".

(** A row as loaded: an install that was running is looked up or failed, never re-run; an
    upload that was running waits again. *)
Definition hydrate_row (env : Env) (mint : str -> str) (it : QueueItem) : QueueItem :=
  let n := it <| attachJobId := None |> in
  let n :=
    if isInstallWork it && is_status Running it then
      match installJobId it with
      | Some (_ :: _) => n <| installNote := Some looking_text |>
      | _ => n <| status := Failed |> <| installPhase := Some PError |>
               <| error := Some interrupted_text |> <| completedAt := Some (now env) |>
      end
    else if is_status Running it then
      n <| status := Pending |> <| interrupted := true |> <| stalledForMs := None |>
    else n in
  match txIdHex n with [] => n <| txIdHex := mint (id_ n) |> | _ => n end.

Definition has_job (j : option str) : bool := match j with Some (_ :: _) => true | _ => false end.
Definition to_reattach (doc : list QueueItem) : list QueueItem :=
  List.filter (fun it => negb (isInstallWork it) && is_status Running it && has_job (jobId it)) doc.
Definition to_find (doc : list QueueItem) : list QueueItem :=
  List.filter (fun it => isInstallWork it && is_status Running it && has_job (installJobId it)) doc.

Definition hydrate (env : Env) (mint : str -> str) (doc : list QueueItem) (cont : bool) (s : Store) : Store :=
  let rows := map (hydrate_row env mint) doc in
  let kept := List.filter (fun it => negb (is_kind KInstall it) || negb (bool_decide (install it = None))) rows in
  let live := List.filter (fun it => negb (existsb (fun k => bool_decide (id_ k = id_ it)) kept)) (items s) in
  let s1 := s <| items := kept ++ live |> <| continueOnFailure := cont |> <| loaded := true |>
              <| reattaching := list_to_set (map id_ (to_reattach doc)) ∪ reattaching s |> in
  fold_left (fun s it => s <| installInFlight := <[host_of it := ByLookup (id_ it)]> (installInFlight s) |>
                           <| lookups := {[id_ it]} ∪ lookups s |>)
    (to_find doc) s1.

(** One row of [reattachRunning] looked up: the engine's job is still known, or not. *)
Definition reattached (i job : str) (known : bool) (s : Store) : Store :=
  (if known then patch i (fun it => it <| attachJobId := Some job |>) s else s)
  <| reattaching := reattaching s ∖ {[i]} |>.
Definition reattach_done (env : Env) (hosts : list str) (s : Store) : Store :=
  fold_left (fun s h => startHost env h {| installsOnly := false; onlyIds := []; unattended := true |} s) hosts s.

(** The end of one of the lookups [findInstallJob] started: [ok] is the install's verdict, with
    its may-not-launch flag. *)
Definition install_found (env : Env) (i h : str) (ok : option bool) (msg : option str) (s : Store) : Store :=
  if negb (bool_decide (i ∈ lookups s)) then s else
  let s1 := patch i (fun it =>
    match ok with
    | Some warn => it <| status := Done |> <| installPhase := Some (if warn : bool then PWarn else PDone) |>
        <| installPct := Some 100 |> <| error := None |> <| completedAt := Some (now env) |>
    | None => it <| status := Failed |> <| installPhase := Some PError |> <| error := msg |>
        <| installNote := None |> <| completedAt := Some (now env) |>
    end) s in
  leave_in_flight h (ByLookup i) (s1 <| lookups := lookups s1 ∖ {[i]} |>).

(** [syncFollower]: a tab that is not the runner shows the saved document as it is. *)
Definition syncFollower (doc : list QueueItem) (cont : bool) (s : Store) : Store :=
  s <| items := doc |> <| continueOnFailure := cont |> <| loaded := true |> <| isLeader := false |>
    <| runningHosts := list_to_set (map host_of (List.filter (is_status Running) doc)) |>.
(** The lease is won, or lost. *)
Definition take_lead (s : Store) : Store := s <| isLeader := true |>.
Definition lose_lead (s : Store) : Store :=
  (fold_left (fun s h => bump_gen h s) (elements (runningHosts s)) s)
  <| isLeader := false |> <| runningHosts := ∅ |> <| limitedHosts := ∅ |>.

(** * Steps *)

Inductive Action :=
  (* the user *)
  | AAdd (input : QueueItem) (newId tx : str) | AEnqueue (host : str) (req : InstallRequest) (input : QueueItem) (newId tx : str)
  | AStartAdded (host : str) | ARemove (i : str) | ACancel (i : str) | APause (i : str)
  | AResume (i : str) | ASendNow (i : str) | ANoteSize (i : str) (bytes : option Z)
  | AMoveUp (i : str) | AMoveDown (i : str) | AMoveTo (i target : str) | AClear (host : option str)
  | AStartHost (host : str) (o : StartOpts) | AStart | AStopHost (host : str) | AStop
  | ARetryFailed (host : option str) | ARestart (i : str) | ARetryItem (i : str) | ARetryInstall (i : str)
  | ASetContinue (b : bool)
  (* the program *)
  | AResumeFailed (host : str) | AStartPass | ARestartReady (g : Z)
  | ACancelInstallEnd (i h : str) (job : option str) | ALoop (g : Z) (ev : LoopEvent)
  | AReattached (i job : str) (known : bool) | AReattachDone (hosts : list str)
  | AInstallFound (i h : str) (ok : option bool) (msg : option str)
  | AHydrate (mint : str -> str) (doc : list QueueItem) (cont : bool)
  | ASync (doc : list QueueItem) (cont : bool) | ATakeLead | ALoseLead.

Definition exec (env : Env) (a : Action) (s : Store) : Store :=
  match a with
  | AAdd input i tx => guarded (addItem input i tx) s
  | AEnqueue h req input i tx => guarded (fun s => snd (enqueueInstall env h req input i tx s)) s
  | AStartAdded h => guarded (startAdded env h) s
  | ARemove i => guarded (remove i) s
  | ACancel i => guarded (cancelItem i) s
  | APause i => guarded (pauseItem i) s
  | AResume i => guarded (resumeItem env i) s
  | ASendNow i => guarded (sendNow env i) s
  | ANoteSize i b => guarded (noteSourceSize i b) s
  | AMoveUp i => guarded (moveUp i) s
  | AMoveDown i => guarded (moveDown i) s
  | AMoveTo i t => guarded (moveTo i t) s
  | AClear h => guarded (clear h) s
  | AStartHost h o => guarded (startHost env h o) s
  | AStart => guarded (start env) s
  | AStopHost h => guarded (stopHost h) s
  | AStop => guarded stop s
  | ARetryFailed h => guarded (retryFailed env h) s
  | ARestart i => guarded (restartItem i) s
  | ARetryItem i => guarded (fun s => snd (retryItem i s)) s
  | ARetryInstall i => guarded (retryInstall env i) s
  | ASetContinue b => guarded (fun s => s <| continueOnFailure := b |>) s
  | AResumeFailed h => guarded (resumeFailedRecoverable env h) s
  | AStartPass => guarded (start_pass env false) s
  | ARestartReady g => restart_ready env g s
  | ACancelInstallEnd i h j => cancel_install_end env i h j s
  | ALoop g ev => loop_event env g ev s
  | AReattached i j k => reattached i j k s
  | AReattachDone hs => guarded (reattach_done env hs) s
  | AInstallFound i h ok msg => install_found env i h ok msg s
  | AHydrate mint doc cont => hydrate env mint doc cont s
  | ASync doc cont => syncFollower doc cont s
  | ATakeLead => take_lead s
  | ALoseLead => lose_lead s
  end.
