(* ===== verification/QueueInv.v ===== *)
(** What the upload queue's runner keeps true ([QueueStore]), by induction over its steps:
    one live loop per console that is marked running and none elsewhere, every running upload
    owned by its console's live loop, no paused row ever run, and the bookkeeping of Send now. *)
From S2P Require Import Prelude Addr QueueOps UploadRecovery UploadQueue QueueStore.

(** * Invariant *)

(** The row a loop is attempting, and the row it has in hand (attempting or about to). *)
Definition phase_run (p : Phase) : option QueueItem :=
  match p with
  | Locking n _ | Starting n _ | Polling n _ _ | Finishing n _ | WaitTurn n _ | Installs n _
  | Backoff n _ _ _ | Heal n _ => Some n
  | _ => None
  end.
Definition phase_next (p : Phase) : option QueueItem :=
  match p with Retake n | Settle n => Some n | _ => phase_run p end.

Definition upload_running (it : QueueItem) : bool := is_status Running it && negb (isInstallWork it).

(** [it]'s console has a live loop, and it is attempting [it]. *)
Definition owned (s : Store) (it : QueueItem) : Prop :=
  exists g l n, hostGen s !! host_of it = Some g /\ loops s !! g = Some l
    /\ phase_run (l_phase l) = Some n /\ id_ n = id_ it.

Record row_ok (s : Store) (it : QueueItem) : Prop := {
  row_owned : upload_running it = true -> owned s it;
  row_paused : is_paused it = true ->
    (status it = Pending \/ status it = Done) /\ isInstallWork it = false;
  row_lookup : id_ it ∈ lookups s -> isInstallWork it = true /\ status it = Running;
  row_next : forall g l n, loops s !! g = Some l -> phase_next (l_phase l) = Some n ->
    id_ n = id_ it -> host_of it = l_host l
      /\ (hostGen s !! l_host l = Some g -> is_paused it = false);
  row_canon : hostOf (host_of it) = host_of it
}.

Record sys_ok (s : Store) : Prop := {
  sys_gen : forall g l, loops s !! g = Some l -> g <= genCounter s;
  sys_host : forall h g, hostGen s !! h = Some g -> g <= genCounter s;
  sys_own : forall h g l, hostGen s !! h = Some g -> loops s !! g = Some l -> l_host l = h;
  sys_run : forall h, h ∈ runningHosts s <->
    exists g l, hostGen s !! h = Some g /\ loops s !! g = Some l;
  sys_next : forall g l n, loops s !! g = Some l -> phase_next (l_phase l) = Some n ->
    host_of n = l_host l /\ id_ n ∉ lookups s
}.

Record Inv (s : Store) : Prop := {
  inv_ids : NoDup (map id_ (items s));
  inv_sys : sys_ok s;
  inv_rows : forall it, it ∈ items s -> row_ok s it
}.

Lemma id_unique (l : list QueueItem) it jt : NoDup (map id_ l) -> it ∈ l -> jt ∈ l ->
  id_ it = id_ jt -> it = jt.
Proof. apply NoDup_map_inj. Qed.

(** One owner, so one running upload per console. *)
Lemma upload_unique s it jt : Inv s -> it ∈ items s -> jt ∈ items s ->
  upload_running it = true -> upload_running jt = true -> host_of jt = host_of it -> jt = it.
Proof.
  intros [Hnd _ Hrows] Hit Hjt Hu Hu' Hh.
  destruct (row_owned _ _ (Hrows _ Hit) Hu) as (g & l & n & A1 & A2 & A3 & A4).
  destruct (row_owned _ _ (Hrows _ Hjt) Hu') as (g' & l' & n' & B1 & B2 & B3 & B4).
  rewrite Hh in B1. simplify_eq. eapply id_unique; [done..|congruence].
Qed.

(** ** Moves *)

Lemma phase_run_next p n : phase_run p = Some n -> phase_next p = Some n.
Proof. by destruct p. Qed.

Lemma elem_of_map {A B} (f : A -> B) l y : y ∈ map f l <-> exists x, y = f x /\ x ∈ l.
Proof. apply list_elem_of_fmap. Qed.

(** Rows replaced one by one, the rest of the state as it was. *)
Lemma inv_map (F : QueueItem -> QueueItem) (s s' : Store) :
  Inv s -> items s' = map F (items s) -> (forall it, id_ (F it) = id_ it) -> sys_ok s' ->
  (forall it, it ∈ items s -> row_ok s it -> row_ok s' (F it)) -> Inv s'.
Proof.
  intros [Hn _ Hr] Hi Hid Hs HF. split; [|done|].
  - rewrite Hi, map_map. erewrite map_ext; [exact Hn|done].
  - intros it. rewrite Hi, elem_of_map. intros (x & -> & Hx). auto.
Qed.

Lemma inv_sub (s s' : Store) :
  Inv s -> (forall it, it ∈ items s' -> it ∈ items s) -> NoDup (map id_ (items s')) -> sys_ok s' ->
  (forall it, it ∈ items s -> row_ok s it -> row_ok s' it) -> Inv s'.
Proof. intros [Hn Hs Hr] Hi Hnd Hs' HF. split; auto. Qed.

(** [s'] differs from [s] in nothing the invariant reads but the rows. *)
Definition same_sys (s s' : Store) : Prop :=
  loops s' = loops s /\ hostGen s' = hostGen s /\ genCounter s' = genCounter s /\
  runningHosts s' = runningHosts s /\ lookups s' = lookups s.

Lemma same_sys_ok s s' : same_sys s s' -> sys_ok s -> sys_ok s'.
Proof.
  intros (E1 & E2 & E3 & E4 & E5) [].
  split; rewrite ?E1, ?E2, ?E3, ?E4, ?E5; done.
Qed.

(** A row change that can only calm a row down. *)
Record calm (it it' : QueueItem) : Prop := {
  calm_id : id_ it' = id_ it;
  calm_host : host_of it' = host_of it;
  calm_run : upload_running it' = true -> upload_running it = true;
  calm_paused : is_paused it' = true -> is_paused it = true /\ (status it' = status it \/ status it' = Pending);
  calm_install : isInstallWork it' = isInstallWork it;
  calm_keep : isInstallWork it = true -> status it = Running -> status it' = Running
}.

Lemma calm_refl it : calm it it.
Proof. split; auto. Qed.

Lemma row_ok_calm s s' it it' : same_sys s s' -> calm it it' -> row_ok s it -> row_ok s' it'.
Proof.
  intros (E1 & E2 & E3 & E4 & E5) [Cid Ch Cr Cp Ci Ck] [Ro Rp Rl Rn Rc].
  split; rewrite ?E1, ?E2, ?E5, ?Cid.
  - intros H. destruct (Ro (Cr H)) as (g & l & n & ?). exists g, l, n.
    by rewrite E1, E2, Ch, Cid.
  - intros H. destruct (Cp H) as [Hp [Hs|Hs]]; rewrite Hs, Ci; destruct (Rp Hp); auto.
  - intros H. destruct (Rl H). rewrite Ci. auto.
  - intros g l n H1 H2 H3. destruct (Rn g l n H1 H2 H3) as [? Hu]. rewrite Ch. split; [done|].
    intros Hg. apply not_true_is_false. intros Hp. destruct (Cp Hp) as [Hp' _].
    rewrite Hu in Hp'; done.
  - by rewrite Ch.
Qed.

Lemma inv_calm F s s' :
  Inv s -> same_sys s s' -> items s' = map F (items s) -> (forall it, calm it (F it)) -> Inv s'.
Proof.
  intros HI Hs Hi HF. eapply inv_map; [done|done| | |].
  - intros it. apply HF.
  - eapply same_sys_ok; [done|apply HI].
  - intros it _. by apply row_ok_calm.
Qed.

(** A change of state the invariant does not read. *)
Lemma inv_same s s' : Inv s -> same_sys s s' -> items s' = items s -> Inv s'.
Proof.
  intros HI Hs Hi. apply (inv_calm id s s'); [done|done| |apply calm_refl].
  by rewrite Hi, map_id.
Qed.

(** As [inv_calm], for a change to row [i] alone, which may also end an install. *)
Lemma patch_items i f s : NoDup (map id_ (items s)) ->
  items (patch i f s) = map (fun y => if has_id id_ i y then f y else y) (items s).
Proof. intros H. unfold patch. simpl. by rewrite patchItem_map. Qed.

Lemma row_Some i s it : row i s = Some it -> it ∈ items s /\ id_ it = i.
Proof.
  unfold row. intros H%find_first_Some. unfold has_id in H. by rewrite bool_decide_eq_true in H.
Qed.

Lemma row_unique s i it jt : NoDup (map id_ (items s)) -> row i s = Some it -> jt ∈ items s ->
  id_ jt = i -> jt = it.
Proof.
  intros Hn Hr Hj Hi. apply row_Some in Hr as [Hit Hid]. eapply id_unique; [done..|congruence].
Qed.

Lemma row_None i s it : row i s = None -> it ∈ items s -> id_ it <> i.
Proof.
  intros H Hit. unfold row in H. rewrite find_first_None in H. specialize (H _ Hit).
  unfold has_id in H. by apply bool_decide_eq_false in H.
Qed.

(** ** Loop moves *)

Definition live (s : Store) (g : Z) (l : Loop) : Prop := hostGen s !! l_host l = Some g.
#[export] Instance live_dec s g l : Decision (live s g l).
Proof. unfold live. apply _. Defined.

Lemma isLive_spec s g l : isLive (l_host l) g s = bool_decide (live s g l).
Proof. done. Qed.

(** No upload is running on the console of a live loop. *)
Definition quiet (s : Store) (g : Z) (l : Loop) : Prop :=
  live s g l -> forall it, it ∈ items s -> upload_running it = true -> host_of it <> l_host l.

(** A loop with no row in hand owns no running upload; nor does one that is no longer live. *)
Lemma quiet_idle s g l : Inv s -> loops s !! g = Some l -> phase_run (l_phase l) = None -> quiet s g l.
Proof.
  intros [_ _ Hr] Hl Hp Hlive it Hit Hu Heq.
  destruct (row_owned _ _ (Hr it Hit) Hu) as (g' & l' & n & Hg & Hl' & Hn & _).
  rewrite Heq in Hg. unfold live in Hlive. congruence.
Qed.

Lemma quiet_dead s g l : ~ live s g l -> quiet s g l.
Proof. by intros ? ?. Qed.

(** Its owner is the one loop attempting it. *)
Lemma owned_by s g l n it : Inv s -> loops s !! g = Some l -> live s g l ->
  phase_next (l_phase l) = Some n -> it ∈ items s -> upload_running it = true ->
  host_of it = l_host l -> id_ it = id_ n /\ phase_run (l_phase l) = Some n.
Proof.
  intros [_ _ Hr] Hl Hlive Hn Hit Hu Heq.
  destruct (row_owned _ _ (Hr it Hit) Hu) as (g' & l' & n' & Hg & Hl' & Hn' & Hid).
  rewrite Heq in Hg. unfold live in Hlive. simplify_eq.
  pose proof (phase_run_next _ _ Hn'). simplify_eq. done.
Qed.

(** The loop [g] moves on to phase [p] while it changes its row [n]. *)
Lemma inv_touch s s' g l l' n f :
  Inv s -> loops s !! g = Some l -> phase_next (l_phase l) = Some n -> l_host l' = l_host l ->
  (forall it, id_ (f it) = id_ it /\ host_of (f it) = host_of it /\ paused (f it) = paused it) ->
  (phase_next (l_phase l') = None \/ phase_next (l_phase l') = Some n) ->
  (forall it, it ∈ items s -> id_ it = id_ n -> upload_running (f it) = true ->
     upload_running it = true /\ ~ live s g l \/ live s g l /\ phase_run (l_phase l') = Some n) ->
  (forall it, it ∈ items s -> id_ it = id_ n -> is_paused it = true -> ~ live s g l ->
     (status (f it) = Pending \/ status (f it) = Done) /\ isInstallWork (f it) = false) ->
  loops s' = <[g := l']> (loops s) -> items s' = items (patch (id_ n) f s) ->
  hostGen s' = hostGen s -> genCounter s' = genCounter s -> runningHosts s' = runningHosts s ->
  lookups s' = lookups s -> Inv s'.
Proof.
  intros HI Hl Hn Hh Hf Hp Hrun Hpause El Ei Eg Ec Er Ek.
  pose proof HI as [Hnd Hsys Hrows].
  rewrite patch_items in Ei by done.
  eapply inv_map; [done|exact Ei| | |].
  - intros it. destruct (Hf it) as (F1 & _ & _). by destruct (has_id id_ (id_ n) it).
  - destruct Hsys as [S1 S2 S3 S4 S5]. split; rewrite ?El, ?Eg, ?Ec, ?Er, ?Ek.
    + intros g0 l0 [[<- <-]|[_ ?]]%lookup_insert_Some; eauto.
    + done.
    + intros h g0 l0 Hg [[<- <-]|[_ ?]]%lookup_insert_Some; [rewrite Hh|]; eauto.
    + intros h. rewrite S4. split.
      * intros (g0 & l0 & ? & ?). destruct (decide (g0 = g)) as [->|].
        -- exists g, l'. by rewrite lookup_insert_eq.
        -- exists g0, l0. by rewrite lookup_insert_ne.
      * intros (g0 & l0 & ? & [[<- <-]|[_ ?]]%lookup_insert_Some); eauto.
    + intros g0 l0 n0 [[<- <-]|[_ ?]]%lookup_insert_Some Hn0; [|eauto].
      rewrite Hh. destruct Hp as [Hp|Hp]; rewrite Hp in Hn0; [done|]. simplify_eq. eauto.
  - intros it Hit [R1 R2 R3 R4 R5].
    assert (forall it0, paused it0 = paused it -> host_of it0 = host_of it -> id_ it0 = id_ it ->
      forall g0 l0 n0, loops s' !! g0 = Some l0 -> phase_next (l_phase l0) = Some n0 ->
      id_ n0 = id_ it0 -> host_of it0 = l_host l0
        /\ (hostGen s' !! l_host l0 = Some g0 -> is_paused it0 = false)) as Hnext.
    { intros it0 Ep Eh Eid g0 l0 n0. rewrite El, Eg, Eh, Eid. unfold is_paused. rewrite Ep.
      intros [[<- <-]|[_ ?]]%lookup_insert_Some Hn0 Hid; [|by eapply R4].
      rewrite Hh. destruct Hp as [Hp|Hp]; rewrite Hp in Hn0; [done|]. simplify_eq. by eapply R4. }
    unfold has_id. case_bool_decide as Hid.
    + destruct (Hf it) as (F1 & F2 & F3).
      destruct (R4 g l n Hl Hn (eq_sym Hid)) as [Hhost Hunp].
      split.
      * intros Hu. destruct (Hrun it Hit Hid Hu) as [[Hu' Hd]|[Hlive Hpr]].
        -- destruct (R1 Hu') as (g0 & l0 & n0 & ? & ? & ? & ?). exists g0, l0, n0.
           rewrite El, Eg, F1, F2. split_and!; try done.
           rewrite lookup_insert_ne; [done|]. intros <-. apply Hd. unfold live. congruence.
        -- exists g, l', n. rewrite El, Eg, F1, F2, Hhost, lookup_insert_eq. by split_and!.
      * intros Hpz. assert (is_paused it = true) as Hpz' by (unfold is_paused in *; by rewrite <-F3).
        apply Hpause; try done. intros Hlive. apply Hunp in Hlive. congruence.
      * rewrite F1, Ek. intros Hk. exfalso. destruct Hsys as [_ _ _ _ S5].
        destruct (S5 g l n Hl Hn) as [_ Hnk]. congruence.
      * apply Hnext; done.
      * by rewrite F2.
    + split; rewrite ?Ek; try done; try (by apply Hnext).
      intros Hu. destruct (R1 Hu) as (g0 & l0 & n0 & ? & Hl0 & Hn0 & Hid0). exists g0, l0, n0.
      rewrite El, Eg. split_and!; try done. rewrite lookup_insert_ne; [done|]. intros <-.
      simplify_eq. apply phase_run_next in Hn0. simplify_eq; congruence.
Qed.

(** The loop [g], whose console runs no upload, moves to a phase with no row or with a row it
    has just picked; or it ends. *)
Definition picks (s : Store) (g : Z) (l : Loop) (n : QueueItem) : Prop :=
  n ∈ items s /\ eligible (l_host l) n.

Lemma inv_idle s g l l' :
  Inv s -> loops s !! g = Some l -> quiet s g l -> l_host l' = l_host l ->
  (forall n, phase_next (l_phase l') = Some n -> picks s g l n) ->
  Inv (s <| loops := <[g := l']> (loops s) |>).
Proof.
  intros HI Hl Hq Hh Hp. pose proof HI as [Hnd Hsys Hrows].
  eapply inv_sub with (s := s); [done|done|done| |].
  - destruct Hsys as [S1 S2 S3 S4 S5]. split; simpl.
    + intros g0 l0 [[<- <-]|[_ ?]]%lookup_insert_Some; eauto.
    + done.
    + intros h g0 l0 Hg [[<- <-]|[_ ?]]%lookup_insert_Some; [rewrite Hh|]; eauto.
    + intros h. rewrite S4. split.
      * intros (g0 & l0 & ? & ?). destruct (decide (g0 = g)) as [->|].
        -- exists g, l'. by rewrite lookup_insert_eq.
        -- exists g0, l0. by rewrite lookup_insert_ne.
      * intros (g0 & l0 & ? & [[<- <-]|[_ ?]]%lookup_insert_Some); eauto.
    + intros g0 l0 n0 [[<- <-]|[_ ?]]%lookup_insert_Some Hn0; [|eauto].
      destruct (Hp _ Hn0) as [Hin (Hst & _ & Hho)]. rewrite Hh. split; [done|].
      intros Hk. destruct (row_lookup _ _ (Hrows _ Hin) Hk) as [_ ?]. congruence.
  - intros it Hit [R1 R2 R3 R4 R5]. split; simpl; try done.
    + intros Hu. destruct (R1 Hu) as (g0 & l0 & n0 & Hg0 & Hl0 & Hn0 & Hid0).
      destruct (decide (g0 = g)) as [->|Hne].
      * exfalso. destruct Hsys as [_ _ S3 _ _]. pose proof (S3 _ _ _ Hg0 Hl0) as Heq.
        simplify_eq. eapply Hq; [|done|done|done]. unfold live. congruence.
      * exists g0, l0, n0. simpl. by rewrite lookup_insert_ne.
    + intros g0 l0 n0 [[<- <-]|[_ ?]]%lookup_insert_Some Hn0 Hid; [|by eapply R4].
      destruct (Hp _ Hn0) as [Hin (Hst & Hpz & Hho)].
      assert (it = n0) as -> by (eapply id_unique; [exact Hnd|done..]).
      rewrite Hh. split; [done|]. intros _. unfold is_paused. by rewrite Hpz.
Qed.

(** A loop ends. *)
Lemma inv_end env s g l : Inv s -> loops s !! g = Some l -> quiet s g l -> Inv (end_loop env g l s).
Proof.
  intros HI Hl Hq. pose proof HI as [Hnd Hsys Hrows].
  assert (items (end_loop env g l s) = items s) as Hi
    by (unfold end_loop; repeat case_match; done).
  eapply inv_sub with (s := s); rewrite ?Hi; try done.
  - assert (loops (end_loop env g l s) = delete g (loops s)
      /\ hostGen (end_loop env g l s) = hostGen s /\ genCounter (end_loop env g l s) = genCounter s
      /\ lookups (end_loop env g l s) = lookups s
      /\ runningHosts (end_loop env g l s)
         = if decide (live s g l) then runningHosts s ∖ {[l_host l]} else runningHosts s)
      as (El & Eg & Ec & Ek & Er).
    { unfold end_loop. rewrite isLive_spec. change (live (s <| loops := _ |>) g l) with (live s g l).
      destruct (decide (live s g l)) as [Hlive|Hlive];
        [rewrite (bool_decide_eq_true_2 _ Hlive)|rewrite (bool_decide_eq_false_2 _ Hlive)];
        simpl; repeat case_match; done. }
    destruct Hsys as [S1 S2 S3 S4 S5].
    split; rewrite ?El, ?Eg, ?Ec, ?Ek; try done.
    + intros g0 l0 [_ ?]%lookup_delete_Some. eauto.
    + intros h g0 l0 ? [_ ?]%lookup_delete_Some. eauto.
    + intros h. rewrite Er. destruct (decide (live s g l)) as [Hlive|Hlive].
      * rewrite elem_of_difference, elem_of_singleton, S4. split.
        -- intros [(g0 & l0 & Hg0 & ?) Hne]. exists g0, l0. rewrite lookup_delete_ne; [done|].
           intros <-. apply Hne. rewrite <-(S3 _ _ _ Hg0 Hl). done.
        -- intros (g0 & l0 & Hg0 & [Hne ?]%lookup_delete_Some). split; [eauto|].
           intros ->. unfold live in Hlive. congruence.
      * rewrite S4. split.
        -- intros (g0 & l0 & Hg0 & Hl0). exists g0, l0. rewrite lookup_delete_ne; [done|].
           intros <-. apply Hlive. unfold live. by rewrite (S3 _ _ _ Hg0 Hl).
        -- intros (g0 & l0 & Hg0 & [_ ?]%lookup_delete_Some). eauto.
    + intros g0 l0 n0 [_ ?]%lookup_delete_Some. eauto.
  - intros it Hit [R1 R2 R3 R4 R5].
    assert (loops (end_loop env g l s) = delete g (loops s) /\
      hostGen (end_loop env g l s) = hostGen s /\ lookups (end_loop env g l s) = lookups s)
      as (El & Eg & Ek) by (unfold end_loop; repeat case_match; done).
    split; rewrite ?Ek; try done.
    + intros Hu. destruct (R1 Hu) as (g0 & l0 & n0 & Hg0 & Hl0 & Hn0 & Hid0).
      exists g0, l0, n0. rewrite El, Eg. split_and!; try done. rewrite lookup_delete_ne; [done|].
      intros <-. destruct Hsys as [_ _ S3 _ _]. pose proof (S3 _ _ _ Hg0 Hl) as Heq.
      eapply Hq; [unfold live|done|done|done]; congruence.
    + intros g0 l0 n0. rewrite El, Eg. intros [_ ?]%lookup_delete_Some. by apply R4.
Qed.

Lemma inv_drain_top env s g l : Inv s -> loops s !! g = Some l -> quiet s g l ->
  Inv (drain_top env g l s).
Proof.
  intros HI Hl Hq. unfold drain_top. case_match; [by apply inv_end|].
  destruct (pickPending (l_host l) s) as [n|] eqn:E; [|by apply inv_end].
  apply nextPending_eligible in E as [Hin He]. apply list_elem_of_In, filter_In in Hin as [Hin _].
  apply list_elem_of_In in Hin.
  case_match; apply (inv_idle s g l); try done; simpl; intros m [= <-]; by split.
Qed.

(** A patch of the row in hand, the loop staying where it is. *)
Lemma inv_patch_next s g l n f :
  Inv s -> loops s !! g = Some l -> phase_next (l_phase l) = Some n ->
  (forall it, id_ (f it) = id_ it /\ host_of (f it) = host_of it /\ paused (f it) = paused it) ->
  (forall it, it ∈ items s -> id_ it = id_ n -> upload_running (f it) = true ->
     upload_running it = true /\ ~ live s g l
     \/ live s g l /\ phase_run (l_phase l) = Some n) ->
  (forall it, it ∈ items s -> id_ it = id_ n -> is_paused it = true -> ~ live s g l ->
     (status (f it) = Pending \/ status (f it) = Done) /\ isInstallWork (f it) = false) ->
  Inv (patch (id_ n) f s).
Proof.
  intros HI Hl Hn Hf H1 H2. eapply (inv_touch s _ g l l n f); try done; [by right|].
  simpl. by rewrite insert_id.
Qed.

(** The same with a move to phase [p]. *)
Lemma inv_phase_patch s g l l0 n f p :
  Inv s -> loops s !! g = Some l -> phase_next (l_phase l) = Some n -> l_host l0 = l_host l ->
  (forall it, id_ (f it) = id_ it /\ host_of (f it) = host_of it /\ paused (f it) = paused it) ->
  (phase_next p = None \/ phase_next p = Some n) ->
  (forall it, it ∈ items s -> id_ it = id_ n -> upload_running (f it) = true ->
     upload_running it = true /\ ~ live s g l \/ live s g l /\ phase_run p = Some n) ->
  (forall it, it ∈ items s -> id_ it = id_ n -> is_paused it = true -> ~ live s g l ->
     (status (f it) = Pending \/ status (f it) = Done) /\ isInstallWork (f it) = false) ->
  Inv (set_phase g l0 p (patch (id_ n) f s)).
Proof. intros. by apply (inv_touch s _ g l (l0 <| l_phase := p |>) n f). Qed.

(** After it the console is quiet when the row no longer runs. *)
Lemma quiet_patch_next s g l n f :
  Inv s -> loops s !! g = Some l -> phase_next (l_phase l) = Some n ->
  (forall it, id_ (f it) = id_ it) ->
  (forall it, upload_running (f it) = false) ->
  quiet (patch (id_ n) f s) g l.
Proof.
  intros HI Hl Hn Hid Hf Hlive it Hit Hu Heq.
  rewrite patch_items in Hit by apply HI. apply elem_of_map in Hit as (x & -> & Hx).
  unfold has_id in *. case_bool_decide as Hx'; [by rewrite Hf in Hu|].
  destruct (owned_by s g l n x) as [? _]; try done.
Qed.

(** Send now's bookkeeping and the other calm changes. *)
Lemma settle_calm h b it : calm it (settle_row h b it).
Proof.
  unfold settle_row. destruct (negb (on_host h it)); [apply calm_refl|].
  destruct (is_sent it && _); [by split; auto|].
  destruct (negb b && _ && _) eqn:E; [|apply calm_refl].
  split; try done.
Qed.

Lemma settle_shape h s :
  items (snd (settleSendNow h s)) = map (settle_row h (existsb (sent_live h) (items s))) (items s)
  /\ same_sys s (snd (settleSendNow h s)).
Proof. unfold settleSendNow, same_sys. simpl. case_match; simpl; done. Qed.

Lemma inv_settle h s : Inv s -> Inv (snd (settleSendNow h s)).
Proof.
  intros HI. destruct (settle_shape h s) as [Hi Hs].
  eapply inv_calm; [done|done|done|]. intros it. apply settle_calm.
Qed.

Lemma quiet_settle h s g l : quiet s g l -> quiet (snd (settleSendNow h s)) g l.
Proof.
  intros Hq Hlive it. destruct (settle_shape h s) as [Hi (_ & Eg & _)]. rewrite Hi.
  rewrite elem_of_map. intros (x & -> & Hx) Hu.
  destruct (settle_calm h (existsb (sent_live h) (items s)) x) as [_ Ch Cr _ _ _].
  rewrite Ch. apply Hq; auto. unfold live in *. by rewrite <-Eg.
Qed.

(** ** The runner's transitions *)

Ltac keeps := intros ?; split_and!; reflexivity.

Lemma not_running_done it : status it <> Running -> upload_running it = false.
Proof. intros H. unfold upload_running, is_status. by rewrite bool_decide_eq_false_2. Qed.

(** The host of the row in hand is the loop's. *)
Lemma next_host s g l n : Inv s -> loops s !! g = Some l -> phase_next (l_phase l) = Some n ->
  host_of n = l_host l.
Proof. intros [_ [_ _ _ _ S] _] H1 H2. by destruct (S _ _ _ H1 H2). Qed.

(** A change of the row that ends its run, then [settleSendNow], then what quiet allows. *)
Lemma inv_run_end s g l n f :
  Inv s -> loops s !! g = Some l -> phase_next (l_phase l) = Some n ->
  (forall it, id_ (f it) = id_ it /\ host_of (f it) = host_of it /\ paused (f it) = paused it) ->
  (forall it, upload_running (f it) = false) ->
  (forall it, it ∈ items s -> id_ it = id_ n -> is_paused it = true -> ~ live s g l ->
     (status (f it) = Pending \/ status (f it) = Done) /\ isInstallWork (f it) = false) ->
  let s1 := patch (id_ n) f s in
  Inv s1 /\ quiet s1 g l /\ loops s1 !! g = Some l.
Proof.
  intros HI Hl Hn Hf Hr Hp s1. split_and!; [| |done].
  - apply (inv_patch_next s g l); try done. intros it _ _ Hu. by rewrite Hr in Hu.
  - apply quiet_patch_next; try done. intros it. by destruct (Hf it).
Qed.

Lemma inv_park env s g l n : Inv s -> loops s !! g = Some l -> phase_next (l_phase l) = Some n ->
  live s g l -> Inv (end_loop env g l (parkForWake n s)).
Proof.
  intros HI Hl Hn Hlive. unfold parkForWake.
  match goal with |- context [patch ?i ?f s] =>
    destruct (inv_run_end s g l n f) as (H1 & H2 & H3) end; try done.
  by apply inv_end.
Qed.

Lemma inv_run_ok env s g l n r : Inv s -> loops s !! g = Some l -> phase_next (l_phase l) = Some n ->
  Inv (run_ok env g l n r s).
Proof.
  intros HI Hl Hn. unfold run_ok.
  match goal with |- context [patch ?i ?f s] =>
    destruct (inv_run_end s g l n f) as (H1 & H2 & H3) end; try done.
  - intros it Hit Hid Hp _. destruct (row_paused _ _ (inv_rows _ HI _ Hit) Hp) as [_ Hi]. auto.
  - apply inv_drain_top; [by apply inv_settle| |by apply quiet_settle].
    match goal with |- loops (snd (settleSendNow ?h ?x)) !! _ = _ =>
      destruct (settle_shape h x) as [_ (E & _)]; by rewrite E end.
Qed.

Lemma failed_patch_status env b n f it :
  let it' := failed_patch env b n f it in
  status it' = Failed /\ id_ it' = id_ it /\ host_of it' = host_of it /\ paused it' = paused it
  /\ isInstallWork it' = isInstallWork it.
Proof. unfold failed_patch. repeat case_match; split_and!; reflexivity. Qed.

Lemma inv_run_failed env s g l n a f :
  Inv s -> loops s !! g = Some l -> phase_run (l_phase l) = Some n -> Inv (run_failed env g l n a f s).
Proof.
  intros HI Hl Hr. pose proof (phase_run_next _ _ Hr) as Hn. unfold run_failed.
  set (inst := isInstallWork (row (id_ n) s ?? n)). rewrite isLive_spec.
  destruct (decide (live s g l)) as [Hlive|Hlive];
    [rewrite (bool_decide_eq_true_2 _ Hlive)|rewrite (bool_decide_eq_false_2 _ Hlive)]; cbn [negb andb].
  all: destruct inst eqn:Einst; cbn [negb andb].
  3: { (* stopped, an install: its outcome is recorded *)
    destruct (inv_run_end s g l n (failed_patch env true n f)) as (H1 & H2 & H3); try done.
    + intros it. by destruct (failed_patch_status env true n f it) as (_ & ? & ? & ? & _).
    + intros it. apply not_running_done. by destruct (failed_patch_status env true n f it) as (-> & _).
    + intros it Hit Hid Hp _. destruct (row_paused _ _ (inv_rows _ HI _ Hit) Hp) as [_ Hi].
      subst inst. destruct (row (id_ n) s) as [it'|] eqn:Er.
      * pose proof (row_unique _ _ _ _ (inv_ids _ HI) Er Hit Hid) as ->. simpl in Einst. congruence.
      * by destruct (row_None _ _ _ Er Hit).
    + assert (forall s', Inv s' -> quiet s' g l -> loops s' !! g = Some l ->
        Inv (end_loop env g l s') /\ Inv (drain_top env g l s')) as Hend
        by (split; [by apply inv_end|by apply inv_drain_top]).
      destruct (Hend (snd (settleSendNow (host_of n) (patch (id_ n) (failed_patch env true n f) s))));
        [by apply inv_settle|by apply quiet_settle|
         match goal with |- loops (snd (settleSendNow ?h ?x)) !! _ = _ =>
           destruct (settle_shape h x) as [_ (E & _)]; by rewrite E end|].
      case_match; done. }
  3: { apply inv_end; [done..|by apply quiet_dead]. }
  all: assert (forall b, Inv (let s2 := snd (settleSendNow (host_of n)
      (patch (id_ n) (failed_patch env b n f) s)) in
      end_loop env g l s2) /\
    Inv (let s2 := snd (settleSendNow (host_of n) (patch (id_ n) (failed_patch env b n f) s)) in
      drain_top env g l s2) /\
    Inv (let s2 := snd (settleSendNow (host_of n) (patch (id_ n) (failed_patch env b n f) s)) in
      end_loop env g l (s2 <| wholeQueueStarted := wholeQueueStarted s2 ∖ {[host_of n]} |>))) as Hfail.
  1, 3: intros b; destruct (inv_run_end s g l n (failed_patch env b n f)) as (H1 & H2 & H3); try done;
    [intros it; by destruct (failed_patch_status env b n f it) as (_ & ? & ? & ? & _)
    |intros it; apply not_running_done; by destruct (failed_patch_status env b n f it) as (-> & _)|];
    apply (inv_settle (host_of n)) in H1; apply (quiet_settle (host_of n)) in H2;
    destruct (settle_shape (host_of n) (patch (id_ n) (failed_patch env b n f) s)) as [_ (E & _)];
    rewrite <-E in H3; split_and!;
    [by apply inv_end|by apply inv_drain_top|apply inv_end; [|done|done]];
    by apply (inv_same _ _ H1).
  - destruct (Hfail true) as (? & ? & ?). repeat case_match; done.
  - case_match; [by apply inv_park|]. case_match.
    + apply (inv_phase_patch s g l l n); try done; try (by right).
    + destruct (Hfail false) as (? & ? & ?). repeat case_match; done.
Qed.

(** The same row, another await. *)
Lemma inv_phase_move s g l l0 n p :
  Inv s -> loops s !! g = Some l -> phase_next (l_phase l) = Some n -> l_host l0 = l_host l ->
  phase_next p = Some n ->
  (forall it, it ∈ items s -> id_ it = id_ n -> upload_running it = true -> live s g l ->
     phase_run p = Some n) ->
  Inv (set_phase g l0 p s).
Proof.
  intros HI Hl Hn Hh Hp Hu.
  apply (inv_same (set_phase g l0 p (patch (id_ n) id s))); [|done|].
  - apply (inv_phase_patch s g l l0 n); try done; [by right| |].
    + intros it Hit Hid Hu'. destruct (decide (live s g l)); [right|by left]. eauto.
    + intros it Hit _ Hpz _. by apply (row_paused _ _ (inv_rows _ HI _ Hit)).
  - unfold set_phase. simpl. rewrite patchItem_map by apply HI. symmetry. etransitivity; [|apply map_id].
    apply map_ext. intros it. by destruct (has_id _ _ _).
Qed.

Lemma inv_phase s g l l0 n p :
  Inv s -> loops s !! g = Some l -> phase_run (l_phase l) = Some n -> l_host l0 = l_host l ->
  phase_run p = Some n -> Inv (set_phase g l0 p s).
Proof.
  intros HI Hl Hr Hh Hp. apply (inv_phase_move s g l l0 n); eauto using phase_run_next.
Qed.

(** A patch that leaves alone what the row rules read. *)
Record neutral (f : QueueItem -> QueueItem) : Prop := {
  n_id : forall it, id_ (f it) = id_ it;
  n_host : forall it, host_of (f it) = host_of it;
  n_paused : forall it, paused (f it) = paused it;
  n_status : forall it, status (f it) = status it;
  n_install : forall it, isInstallWork (f it) = isInstallWork it
}.

Lemma neutral_calm f it : neutral f -> calm it (f it).
Proof.
  intros [H1 H2 H3 H4 H5]. split; unfold upload_running, is_paused, is_status;
    rewrite ?H1, ?H2, ?H3, ?H4, ?H5; auto.
Qed.

Lemma inv_patch_neutral s i f : Inv s -> neutral f -> Inv (patch i f s).
Proof.
  intros HI Hf. eapply inv_calm; [done|done|by apply patch_items, HI|]. intros it.
  simpl. destruct (has_id id_ i it); [by apply neutral_calm|apply calm_refl].
Qed.

Ltac is_neutral := split; intros; repeat case_match; reflexivity.

Lemma inv_begin s g l n : Inv s -> loops s !! g = Some l -> phase_next (l_phase l) = Some n ->
  live s g l -> Inv (begin_item g l n s).
Proof.
  intros HI Hl Hn Hlive. unfold begin_item, run_one.
  apply (inv_phase_patch s g l); try done; [right; by case_match|].
  intros it _ _ _. right. split; [done|]. by case_match.
Qed.

Lemma inv_job_started env s g l n a j : Inv s -> loops s !! g = Some l ->
  phase_run (l_phase l) = Some n -> Inv (job_started env g l n a j s).
Proof.
  intros HI Hl Hr. unfold job_started. case_match.
  - apply inv_run_failed; [|done|done]. by apply (inv_same s).
  - eapply inv_phase; [|done|done|done|done]. apply inv_patch_neutral; [|is_neutral].
    by apply (inv_same s).
Qed.

Lemma inv_uploaded s g l n a d : Inv s -> loops s !! g = Some l ->
  phase_run (l_phase l) = Some n -> live s g l -> Inv (uploaded g l n a d s).
Proof.
  intros HI Hl Hr Hlive. unfold uploaded. pose proof (phase_run_next _ _ Hr) as Hn.
  set (f := fun it : QueueItem => _).
  assert (Inv (patch (id_ n) f s)) as H1.
  { apply (inv_patch_next s g l); try done; subst f.
    - intros it. simpl. case_match; split_and!; reflexivity.
    - intros it _ _ _. by right. }
  case_match.
  - eapply (inv_phase _ g l); [|done|done|done|done].
    eapply inv_same; [apply (inv_patch_neutral _ (id_ n)
      (fun it => it <| installPhase := Some PInstalling |> <| installPct := Some 0 |>) H1); is_neutral|done|done].
  - by eapply (inv_phase _ g l).
Qed.

Lemma inv_leave h t s : Inv s -> Inv (leave_in_flight h t s).
Proof. intros HI. unfold leave_in_flight. case_match; [|done]. by apply (inv_same s). Qed.

Lemma loops_leave h t s : loops (leave_in_flight h t s) = loops s.
Proof. unfold leave_in_flight. by case_match. Qed.

Lemma inv_after_retake env s g l n : Inv s -> loops s !! g = Some l -> l_phase l = Retake n ->
  Inv (after_retake env g l n s).
Proof.
  intros HI Hl Hp. assert (phase_next (l_phase l) = Some n) as Hn by by rewrite Hp.
  assert (quiet s g l) as Hq by (apply quiet_idle; [done..|by rewrite Hp]).
  unfold after_retake. rewrite isLive_spec. case_bool_decide as Hlive; cbn [negb]; [|by apply inv_end].
  case_match; [by apply inv_park|]. case_match.
  - apply (inv_phase_move s g l l n); try done. intros it Hit Hid Hu _.
    destruct (owned_by s g l n it) as [_ Hr]; try done; [|by rewrite ?Hp in Hr].
    by destruct (row_next _ _ (inv_rows _ HI _ Hit) g l n).
  - by apply inv_begin.
Qed.

Lemma inv_mark_waiting h w s : Inv s -> Inv (mark_waiting h w s).
Proof.
  intros HI. eapply inv_calm; [done|done|reflexivity|]. intros it. simpl.
  repeat case_match; [by split; auto..|apply calm_refl].
Qed.

Lemma inv_after_hold env s g l : Inv s -> loops s !! g = Some l -> phase_run (l_phase l) = None ->
  Inv (after_hold env g l s).
Proof.
  intros HI Hl Hp. assert (quiet s g l) by by apply quiet_idle.
  unfold after_hold. repeat case_match; try (by apply inv_end); try (by apply inv_drain_top).
  by apply (inv_idle s g l).
Qed.

Lemma inv_after_lock env s g l n a : Inv s -> loops s !! g = Some l -> l_phase l = Locking n a ->
  Inv (after_lock env g l n a s).
Proof.
  intros HI Hl Hp. assert (phase_run (l_phase l) = Some n) as Hr by by rewrite ?Hp.
  unfold after_lock. repeat case_match; try (by eapply (inv_phase s g l)).
  apply inv_job_started; [|done|done]. apply inv_patch_neutral; [done|is_neutral].
Qed.

Lemma inv_loop_event env g ev s : Inv s -> Inv (loop_event env g ev s).
Proof.
  intros HI. unfold loop_event. destruct (loops s !! g) as [l|] eqn:Hl; [|done].
  pose proof (inv_drain_top env s g l HI Hl) as Hdrain.
  pose proof (inv_end env s g l HI Hl) as Hend.
  pose proof (inv_run_failed env s g l) as Hfail.
  destruct (l_phase l) as [| | |n|n|n a|n a|n a j|n a|n a|n a|n a w f|n a] eqn:Hp;
    destruct ev; try done.
  - by apply inv_mark_waiting.
  - apply inv_after_hold; [done..|by rewrite ?Hp].
  - apply Hdrain, quiet_idle; [done..|by rewrite ?Hp].
  - apply Hdrain, quiet_idle; [done..|by rewrite ?Hp].
  - by apply inv_after_retake.
  - rewrite isLive_spec. case_bool_decide; cbn [negb].
    + apply inv_begin; [done..|by rewrite ?Hp|done].
    + by apply Hend, quiet_dead.
  - by apply inv_after_lock.
  - apply inv_job_started; [done..|by rewrite ?Hp].
  - apply Hfail; [done..|by rewrite ?Hp].
  - case_match; [apply Hfail; [done..|by rewrite ?Hp]|].
    unfold progress. apply inv_patch_neutral; [done|is_neutral].
  - rewrite isLive_spec. case_bool_decide; cbn [negb].
    + apply inv_uploaded; [done..|by rewrite ?Hp|done].
    + apply Hfail; [done..|by rewrite ?Hp].
  - case_match; (apply Hfail; [done..|by rewrite ?Hp]).
  - apply inv_run_ok; [done..|by rewrite ?Hp].
  - apply Hfail; [done..|by rewrite ?Hp].
  - apply inv_patch_neutral; [done|is_neutral].
  - eapply (inv_phase _ g l); [|done|by rewrite ?Hp|done|done].
    eapply inv_same; [apply (inv_patch_neutral s (id_ n) (fun it =>
      it <| installPhase := Some PInstalling |> <| installPct := Some 0 |>
         <| installProgress := None |> <| installNote := None |>) HI); is_neutral|done|done].
  - apply Hfail; [done..|by rewrite ?Hp].
  - apply inv_patch_neutral; [done|is_neutral].
  - apply inv_patch_neutral; [done|is_neutral].
  - apply inv_patch_neutral; [done|is_neutral].
  - apply inv_run_ok; [by apply inv_leave|by rewrite loops_leave|by rewrite ?Hp].
  - apply inv_run_failed; [by apply inv_leave|by rewrite loops_leave|by rewrite ?Hp].
  - rewrite isLive_spec. case_bool_decide; cbn [negb]; [|by apply Hend, quiet_dead].
    case_match; [by eapply (inv_phase s g l); [done..|by rewrite ?Hp|done|done]|].
    case_match; [apply inv_park; [done..|by rewrite ?Hp|done]|].
    by eapply (inv_phase s g l); [done..|by rewrite ?Hp|done|done].
  - rewrite isLive_spec. case_bool_decide as Hlive; cbn [negb]; [|by apply Hend, quiet_dead].
    unfold run_one. apply (inv_phase_patch s g l); try done.
    + by rewrite ?Hp.
    + right. by case_match.
    + intros it _ _ _. right. split; [done|]. by case_match.
Qed.

(** ** The store's actions *)

Lemma inv_bump h s s' : Inv s ->
  (forall it, it ∈ items s -> upload_running it = true -> host_of it <> h) ->
  items s' = items s -> loops s' = loops s -> lookups s' = lookups s ->
  hostGen s' = <[h := genCounter s + 1]> (hostGen s) -> genCounter s' = genCounter s + 1 ->
  runningHosts s' = runningHosts s ∖ {[h]} -> Inv s'.
Proof.
  intros HI Hno Hi El Ek Eg Ec Er. pose proof HI as [Hnd [S1 S2 S3 S4 S5] Hrows].
  assert (forall l, loops s !! (genCounter s + 1) = Some l -> False) as Hnew.
  { intros l Hl%S1. lia. }
  eapply inv_sub with (s := s); rewrite ?Hi; try done.
  - split; rewrite ?El, ?Ek, ?Eg, ?Ec.
    + intros g l Hl. pose proof (S1 _ _ Hl). lia.
    + intros h' g [[<- <-]|[_ Hg]]%lookup_insert_Some; [lia|]. pose proof (S2 _ _ Hg). lia.
    + intros h' g l [[<- <-]|[_ Hg]]%lookup_insert_Some Hl; [by destruct (Hnew l)|eauto].
    + intros h'. rewrite Er, elem_of_difference, elem_of_singleton, S4. split.
      * intros [(g & l & ? & ?) ?]. exists g, l. by rewrite lookup_insert_ne.
      * intros (g & l & [[<- <-]|[? ?]]%lookup_insert_Some & ?); [by destruct (Hnew l)|].
        split; [eauto|done].
    + eauto.
  - intros it Hit [R1 R2 R3 R4 R5]. split; rewrite ?El, ?Ek, ?Eg; try done.
    + intros Hu. destruct (R1 Hu) as (g & l & n & ? & ? & ? & ?). exists g, l, n.
      rewrite El, Eg, lookup_insert_ne; [done|]. intros Heq. by eapply Hno.
    + intros g l n Hl Hn Hid. destruct (R4 g l n Hl Hn Hid) as [? Hp]. split; [done|].
      intros [[_ <-]|[_ ?]]%lookup_insert_Some; [by destruct (Hnew l)|auto].
Qed.

Lemma inv_spawn h o env s s' : Inv s -> h ∉ runningHosts s ->
  items s' = items s -> lookups s' = lookups s ->
  hostGen s' = <[h := genCounter s + 1]> (hostGen s) -> genCounter s' = genCounter s + 1 ->
  runningHosts s' = {[h]} ∪ runningHosts s ->
  loops s' = <[genCounter s + 1 := {| l_host := h; l_phase := Hold; l_jobs := 0;
                     l_unattended := o; l_started := env |}]> (loops s) -> Inv s'.
Proof.
  intros HI Hh Hi Ek Eg Ec Er El. pose proof HI as [Hnd [S1 S2 S3 S4 S5] Hrows].
  assert (forall l, loops s !! (genCounter s + 1) = Some l -> False) as Hnew.
  { intros l Hl%S1. lia. }
  eapply inv_sub with (s := s); rewrite ?Hi; try done.
  - split; rewrite ?El, ?Ek, ?Eg, ?Ec.
    + intros g l [[<- <-]|[_ Hl]]%lookup_insert_Some; [lia|]. pose proof (S1 _ _ Hl). lia.
    + intros h' g [[<- <-]|[_ Hg]]%lookup_insert_Some; [lia|]. pose proof (S2 _ _ Hg). lia.
    + intros h' g l [[<- <-]|[_ Hg]]%lookup_insert_Some [[E <-]|[E Hl]]%lookup_insert_Some; try done.
      * pose proof (S2 _ _ Hg). lia.
      * eauto.
    + intros h'. rewrite Er, elem_of_union, elem_of_singleton, S4. split.
      * intros [->|(g & l & Hg & Hl)].
        -- eexists _, _. rewrite !lookup_insert_eq. done.
        -- exists g, l. assert (h <> h') by (intros <-; apply Hh, S4; eauto).
           rewrite !lookup_insert_ne; [done| |done]. intros <-. by destruct (Hnew l).
      * intros (g & l & [[<- <-]|[? Hg]]%lookup_insert_Some & Hl); [by left|right].
        apply lookup_insert_Some in Hl as [[<- <-]|[_ Hl]]; [|eauto]. pose proof (S2 _ _ Hg). lia.
    + intros g l n [[<- <-]|[_ Hl]]%lookup_insert_Some; [done|eauto].
  - intros it Hit [R1 R2 R3 R4 R5]. split; rewrite ?El, ?Ek, ?Eg; try done.
    + intros Hu. destruct (R1 Hu) as (g & l & n & Hg & Hl & ? & ?). exists g, l, n.
      rewrite El, Eg. assert (h <> host_of it) by (intros ->; apply Hh, S4; eauto).
      rewrite !lookup_insert_ne; [done| |done]. intros <-. by destruct (Hnew l).
    + intros g l n [[<- <-]|[_ Hl]]%lookup_insert_Some Hn Hid; [done|].
      destruct (R4 g l n Hl Hn Hid) as [? Hp]. split; [done|].
      intros [[_ <-]|[_ ?]]%lookup_insert_Some; [by destruct (Hnew l)|auto].
Qed.

Lemma cancel_shape h s : items (cancel_running_job h s) = items s /\ same_sys s (cancel_running_job h s).
Proof. unfold cancel_running_job, same_sys. repeat case_match; done. Qed.

Lemma reset_calm m it :
  calm it (if is_status Running it && (m it && negb (isInstallWork it)) then reset_row it else it).
Proof.
  destruct (is_status Running it && _) eqn:E; [|apply calm_refl]. bool_prop.
  split; try done; [by auto|]. intros Hw. exfalso. revert Hw. by rewrite H1.
Qed.

(** What [stopHost] makes of the rows. *)
Lemma stopHost_items host s :
  items (stopHost host s) = resetRunningToPending (items s)
    (fun it => on_host (hostOf host) it && negb (isInstallWork it)).
Proof. unfold stopHost. simpl. by destruct (cancel_shape (hostOf host) s) as [-> _]. Qed.

Lemma stopHost_sys host s :
  let s' := stopHost host s in let h := hostOf host in
  loops s' = loops s /\ lookups s' = lookups s /\ genCounter s' = genCounter s + 1 /\
  hostGen s' = <[h := genCounter s + 1]> (hostGen s) /\ runningHosts s' = runningHosts s ∖ {[h]}.
Proof.
  unfold stopHost. simpl. destruct (cancel_shape (hostOf host) s) as [_ (E1 & E2 & E3 & E4 & E5)].
  by rewrite E1, E2, E3, E4, E5.
Qed.

Lemma inv_stopHost host s : Inv s -> Inv (stopHost host s).
Proof.
  intros HI. destruct (stopHost_sys host s) as (E1 & E2 & E3 & E4 & E5).
  set (m := fun it => on_host (hostOf host) it && negb (isInstallWork it)).
  eapply (inv_bump (hostOf host) (s <| items := resetRunningToPending (items s) m |>)); simpl.
  - eapply (inv_calm _ s); [exact HI|by split_and!|reflexivity|]. intros it. apply reset_calm.
  - intros it. unfold resetRunningToPending. rewrite elem_of_map. intros (x & -> & _) Hu Hh. subst m.
    destruct (is_status Running x && _) eqn:E; [done|]. cbv beta in E.
    unfold upload_running in Hu. bool_prop. rewrite H, H0 in E. unfold on_host in E.
    rewrite bool_decide_eq_true_2 in E; done.
  - apply stopHost_items.
  - exact E1.
  - exact E2.
  - exact E4.
  - exact E3.
  - exact E5.
Qed.

Lemma inv_startHost env host o s : Inv s -> Inv (startHost env host o s).
Proof.
  intros HI. unfold startHost.
  set (h := hostOf host). set (s1 := if negb (is_limited o) && _ then _ else s).
  assert (Inv s1 /\ runningHosts s1 = runningHosts s) as [HI1 Hrh].
  { subst s1. case_match; [|done]. split; [by apply (inv_same s)|done]. }
  clearbody s1. case_bool_decide as Hr.
  - repeat case_match; try done; by apply (inv_same s1).
  - set (s2 := if is_limited o then _ else _).
    assert (Inv s2 /\ runningHosts s2 = runningHosts s1) as [HI2 Hrh2].
    { subst s2. case_match; (split; [by apply (inv_same s1)|done]). }
    clearbody s2.
    set (s3 := s2 <| items := map (fun it => if waitingForWake it && on_host h it
                 then it <| waitingForWake := false |> else it) (items s2) |>).
    eapply (inv_spawn h (unattended o) (now env) s3); try done.
    + eapply inv_calm; [done|done|reflexivity|]. intros it. simpl.
      case_match; [by split; auto|apply calm_refl].
    + change (h ∉ runningHosts s2). by rewrite Hrh2.
Qed.

Lemma inv_guarded f s : (Inv s -> Inv (f s)) -> Inv s -> Inv (guarded f s).
Proof. intros H HI. unfold guarded. case_match; auto. Qed.

Lemma inv_restartAfterStop h again s : Inv s -> Inv (restartAfterStop h again s).
Proof. intros HI. unfold restartAfterStop. case_match; [by apply (inv_same s)|done]. Qed.

Lemma inv_restart_ready env g s : Inv s -> Inv (restart_ready env g s).
Proof.
  intros HI. unfold restart_ready. destruct (restarts s !! g) as [r|]; [|done].
  set (s1 := s <| restarts := _ |>). set (s2 := if decide _ then _ else s1).
  assert (Inv s2) as HI2 by (subst s2; case_match; by apply (inv_same s)). clearbody s2.
  case_match; [done|]. case_match; [|done]. apply inv_guarded; [|done]. apply inv_startHost.
Qed.

Lemma join_shape h i s s' : joinPendingRestart h i s = Some s' -> items s' = items s /\ same_sys s s'.
Proof. unfold joinPendingRestart. intros H. repeat case_match; simplify_eq; done. Qed.

Lemma inv_join_or_start env h i o s : Inv s ->
  Inv (match joinPendingRestart h i s with Some s2 => s2 | None => startHost env h o s end).
Proof.
  intros HI. destruct (joinPendingRestart h i s) as [s2|] eqn:E; [|by apply inv_startHost].
  apply join_shape in E as [? ?]. by apply (inv_same s).
Qed.

(** Fewer rows, or the same ones in another order. *)
Lemma inv_items s l : Inv s -> (forall it, it ∈ l -> it ∈ items s) -> NoDup (map id_ l) ->
  Inv (s <| items := l |>).
Proof.
  intros HI Hl Hn. eapply inv_sub with (s := s); [done|done|done| |].
  - apply (same_sys_ok s); [done|apply HI].
  - intros it _ []. by split.
Qed.

Lemma inv_removeItem s i : Inv s -> Inv (set_items (fun l => removeItem id_ l i) s).
Proof.
  intros HI. apply inv_items; [done| |].
  - intros it Hit. eapply elem_of_sublist; [exact Hit|apply removeItem_sublist].
  - eapply sublist_NoDup; [apply HI|]. apply (fmap_sublist id_), removeItem_sublist.
Qed.

Lemma inv_permute s l : Inv s -> l ≡ₚ items s -> Inv (s <| items := l |>).
Proof.
  intros HI Hp. apply inv_items; [done| |].
  - intros it. by rewrite Hp.
  - change (NoDup (id_ <$> l)). rewrite Hp. apply HI.
Qed.

Lemma inv_remove i s : Inv s -> Inv (remove i s).
Proof.
  intros HI. unfold remove. case_match; [|done]. by apply inv_settle, inv_removeItem.
Qed.

Lemma inv_cancelItem i s : Inv s -> Inv (cancelItem i s).
Proof.
  intros HI. unfold cancelItem. destruct (row i s) as [it|]; [|done].
  destruct (isInstallWork it && _).
  { case_match; [done|]. apply inv_patch_neutral; [done|is_neutral]. }
  case_match; [by apply inv_settle, inv_removeItem|].
  assert (Inv (snd (settleSendNow (host_of it)
    (set_items (fun l => removeItem id_ l i) (stopHost (host_of it) s))))) as H2
    by by apply inv_settle, inv_removeItem, inv_stopHost.
  case_match; [by apply inv_restartAfterStop|done].
Qed.

Lemma inv_cancel_install_end env i h j s : Inv s -> Inv (cancel_install_end env i h j s).
Proof.
  intros HI. unfold cancel_install_end. destruct (row i s) as [it|]; [|done].
  case_match; [apply inv_patch_neutral; [done|is_neutral]|].
  pose proof (inv_removeItem s i HI) as H1.
  repeat case_match; try done. apply inv_guarded; [|done]. apply inv_startHost.
Qed.

(** Ids and hosts survive a stop. *)
Lemma reset_keeps (b : bool) it it' : it' = (if is_status Running it && b then reset_row it else it) ->
  id_ it' = id_ it /\ host_of it' = host_of it /\ addr it' = addr it
  /\ isInstallWork it' = isInstallWork it /\ paused it' = paused it /\ sendNowAt it' = sendNowAt it
  /\ (status it' = status it \/ status it' = Pending).
Proof. intros ->. case_match; split_and!; auto. Qed.

(** A row of the stopped console as it was before. *)
Lemma stopHost_elem h s x : x ∈ items (stopHost h s) ->
  exists y, y ∈ items s /\
    x = if is_status Running y && (on_host (hostOf h) y && negb (isInstallWork y)) then reset_row y else y.
Proof.
  rewrite stopHost_items. unfold resetRunningToPending. rewrite elem_of_map.
  intros (y & -> & Hy). eauto.
Qed.

(** A waiting upload that no live loop has in hand may be paused. *)
Lemma inv_pause_row i why s : Inv s ->
  (forall x, x ∈ items s -> id_ x = i -> status x = Pending /\ isInstallWork x = false
     /\ forall g l, loops s !! g = Some l -> host_of x = l_host l -> ~ live s g l) ->
  Inv (patch i (fun r => r <| paused := Some why |>) s).
Proof.
  intros HI Hx. eapply inv_map; [exact HI|by apply patch_items, HI| | |].
  - intros x. simpl. by case_match.
  - apply (same_sys_ok s); [done|apply HI].
  - intros x Hin [R1 R2 R3 R4 R5]. simpl. unfold has_id.
    case_bool_decide as Hxi; [|by split].
    destruct (Hx x Hin Hxi) as (Hs & Hw & Hl). split; simpl; try done.
    + rewrite Hs. auto.
    + intros g l n Hlo Hn Hid. destruct (R4 g l n Hlo Hn Hid) as [Hh _]. split; [done|].
      intros Hg. exfalso. by apply (Hl g l).
Qed.

(** After its console was stopped, the upload that ran there may be paused. *)
Lemma inv_pause i why s it : Inv s -> row i s = Some it -> upload_running it = true ->
  Inv (patch i (fun r => r <| paused := Some why |>) (stopHost (host_of it) s)).
Proof.
  intros HI Hrow Hu. pose proof (row_Some _ _ _ Hrow) as [Hit Hid].
  pose proof (row_canon _ _ (inv_rows _ HI _ Hit)) as Hc.
  destruct (stopHost_sys (host_of it) s) as (E1 & _ & _ & E4 & _).
  pose proof (stopHost_elem (host_of it) s) as Helem.
  apply inv_pause_row; [by apply inv_stopHost|]. intros x Hx Hxi.
  destruct (Helem x Hx) as (y & Hy & Exy). destruct (reset_keeps _ _ _ Exy) as (Ki & Kh & _ & Kw & _).
  assert (y = it) as -> by (eapply row_unique; [apply HI|done..|congruence]).
  unfold upload_running in Hu. bool_prop. rewrite Kw. split_and!; [|done|].
  - rewrite Exy. unfold on_host. rewrite H, H0, Hc, bool_decide_eq_true_2 by done. done.
  - intros g l Hl Hh. unfold live. rewrite E4, Hc, <-Hh, Kh, lookup_insert_eq. intros [= <-].
    rewrite E1 in Hl. pose proof (sys_gen _ (inv_sys _ HI) _ _ Hl). lia.
Qed.

Lemma canPause_running it : canPauseItem it = true -> upload_running it = true.
Proof.
  unfold canPauseItem, upload_running, isInstallWork.
  destruct (is_status Running it), (is_kind KInstall it), (is_kind KPkg it), (uploadDone it);
    simpl; rewrite ?andb_false_r; done.
Qed.

Lemma inv_pauseRunning it why also s : Inv s -> row (id_ it) s = Some it -> canPauseItem it = true ->
  Inv (pauseRunning it why also s).
Proof.
  intros HI Hrow Hc%canPause_running. unfold pauseRunning.
  pose proof (inv_pause (id_ it) why s it HI Hrow Hc) as H1.
  destruct why; [|by apply inv_restartAfterStop].
  apply (inv_settle (host_of it)) in H1. revert H1.
  destruct (settleSendNow (host_of it) _) as [resumed s2]. by apply inv_restartAfterStop.
Qed.

(** A row may also be put back in line after it failed. *)
Definition retried (it it' : QueueItem) : Prop :=
  status it = Failed /\ status it' = Pending /\ id_ it' = id_ it /\ host_of it' = host_of it
  /\ paused it' = paused it.

Lemma row_ok_retried s s' it it' : same_sys s s' -> retried it it' -> row_ok s it -> row_ok s' it'.
Proof.
  intros (E1 & E2 & E3 & E4 & E5) (Hf & Hp & Hid & Hh & Hpz) [R1 R2 R3 R4 R5].
  assert (is_paused it = false) as Hnp.
  { apply not_true_is_false. intros H. destruct (R2 H) as [[?|?] _]; congruence. }
  assert (is_paused it' = false) as Hnp' by (unfold is_paused in *; by rewrite Hpz).
  split; rewrite ?E1, ?E2, ?E5, ?Hid, ?Hh, ?Hnp'; try done.
  - rewrite not_running_done by congruence. done.
  - intros Hk. destruct (R3 Hk). congruence.
  - intros g l n H1 H2 H3. by destruct (R4 g l n H1 H2 H3).
Qed.

Lemma inv_change F s s' : Inv s -> same_sys s s' -> items s' = map F (items s) ->
  (forall it, id_ (F it) = id_ it) ->
  (forall it, it ∈ items s -> calm it (F it) \/ retried it (F it)) -> Inv s'.
Proof.
  intros HI Hs Hi Hid HF. eapply inv_map; [done|done|done| |].
  - eapply same_sys_ok; [done|apply HI].
  - intros it Hit. destruct (HF it Hit); [by apply row_ok_calm|by apply row_ok_retried].
Qed.

Lemma inv_patch_change s i f : Inv s -> (forall it, id_ (f it) = id_ it) ->
  (forall it, it ∈ items s -> id_ it = i -> calm it (f it) \/ retried it (f it)) ->
  Inv (patch i f s).
Proof.
  intros HI Hid Hf. eapply inv_change; [exact HI|done|by apply patch_items, HI| |].
  - intros it. simpl. by case_match.
  - intros it Hit. simpl. unfold has_id. case_bool_decide; [auto|left; apply calm_refl].
Qed.

Lemma unpause_calm it : calm it (it <| paused := None |>).
Proof. split; auto. done. Qed.

Lemma inv_resumeItem env i s : Inv s -> Inv (resumeItem env i s).
Proof.
  intros HI. unfold resumeItem. destruct (row i s) as [it|]; [|done]. case_match; [done|].
  apply inv_join_or_start. apply inv_patch_change; [done|done|]. intros x _ _. left. apply unpause_calm.
Qed.

Lemma inv_sendNow env i s : Inv s -> Inv (sendNow env i s).
Proof.
  intros HI. unfold sendNow. destruct (row i s) as [it|]; [|done]. case_match; [done|].
  set (s1 := patch i _ s).
  assert (Inv s1) as HI1 by (apply inv_patch_neutral; [done|is_neutral]). clearbody s1.
  destruct (find_first _ (items s1)) as [running|] eqn:E; [|by apply inv_join_or_start].
  case_match eqn:Ec; [|by apply inv_join_or_start]. bool_prop. apply inv_pauseRunning; [done| |done].
  apply find_first_Some in E as [Hin _].
  destruct (row (id_ running) s1) as [x|] eqn:Er.
  - f_equal. symmetry. by eapply row_unique; [apply HI1|done..].
  - by destruct (row_None _ _ _ Er Hin).
Qed.

Lemma inv_pauseItem i s : Inv s -> Inv (pauseItem i s).
Proof.
  intros HI. unfold pauseItem. destruct (row i s) as [it|] eqn:E; [|done].
  case_match; [|done]. apply inv_pauseRunning; [done| |done].
  by destruct (row_Some _ _ _ E) as [_ ->].
Qed.

Lemma inv_noteSourceSize i b s : Inv s -> Inv (noteSourceSize i b s).
Proof.
  intros HI. unfold noteSourceSize. repeat case_match; try done.
  apply inv_patch_neutral; [done|is_neutral].
Qed.

Lemma inv_fold {A} (f : Store -> A -> Store) l s :
  (forall s x, Inv s -> Inv (f s x)) -> Inv s -> Inv (fold_left f l s).
Proof. intros Hf. revert s. induction l as [|x l IH]; simpl; auto. Qed.

Lemma inv_start_pass env b s : Inv s -> Inv (start_pass env b s).
Proof. intros HI. apply inv_fold; [|done]. intros. by apply inv_startHost. Qed.

Lemma inv_stop s : Inv s -> Inv (stop s).
Proof.
  intros HI. unfold stop. apply (inv_same (fold_left (fun s h => stopHost h s) (elements (runningHosts s)) s));
    [|done|done].
  apply inv_fold; [|done]. intros. by apply inv_stopHost.
Qed.

Lemma inv_retryFailed env h s : Inv s -> Inv (retryFailed env h s).
Proof.
  intros HI. unfold retryFailed. set (s1 := set_items _ s).
  assert (Inv s1) as HI1.
  { eapply inv_change; [exact HI|done|reflexivity| |].
    - intros it. simpl. repeat case_match; reflexivity.
    - intros it _. simpl. destruct (negb _ || negb (is_status Failed it)) eqn:E; [left; apply calm_refl|].
      right. bool_prop. unfold is_status in *. bool_prop. repeat case_match; by split_and!. }
  clearbody s1. case_match; [by apply inv_startHost|by apply inv_start_pass].
Qed.

Lemma inv_restartItem i s : Inv s -> Inv (restartItem i s).
Proof.
  intros HI. unfold restartItem. repeat case_match; try done.
  by apply inv_restartAfterStop, inv_stopHost.
Qed.

Lemma retryPatch_keeps it : let it' := retryPatch it in
  status it' = Pending /\ id_ it' = id_ it /\ host_of it' = host_of it /\ paused it' = paused it
  /\ sendNowAt it' = sendNowAt it.
Proof. unfold retryPatch. case_match; done. Qed.

Lemma inv_retryItem i s : Inv s -> Inv (snd (retryItem i s)).
Proof.
  intros HI. unfold retryItem. destruct (row i s) as [x|] eqn:E; [|done].
  destruct (negb (is_status Failed x)) eqn:Ef; [done|]. simpl.
  eapply inv_change; [exact HI|done|reflexivity| |]; simpl; intros it; unfold has_id.
  - case_match; [|done]. by destruct (retryPatch_keeps it) as (_ & ? & _).
  - intros Hit. case_bool_decide as Hid; [right|left; apply calm_refl].
    pose proof (row_unique _ _ _ _ (inv_ids _ HI) E Hit Hid) as ->.
    destruct (retryPatch_keeps x) as (? & ? & ? & ? & _). unfold is_status in Ef. bool_prop.
    by split_and!.
Qed.

Lemma inv_retryInstall env i s : Inv s -> Inv (retryInstall env i s).
Proof.
  intros HI. unfold retryInstall. destruct (row i s) as [x|] eqn:E; [|done].
  destruct (_ || _) eqn:Ef; [done|]. apply inv_startHost, inv_patch_change; [done|done|].
  intros it Hit Hid. right. pose proof (row_unique _ _ _ _ (inv_ids _ HI) E Hit Hid) as ->.
  bool_prop. unfold is_status in *. bool_prop. by split_and!.
Qed.

Lemma inv_resumeFailed env h s : Inv s -> Inv (resumeFailedRecoverable env h s).
Proof.
  intros HI. unfold resumeFailedRecoverable. case_match; [done|].
  match goal with |- context [fold_left ?f ?cs ([], s)] =>
    assert (forall l ids s, Inv s -> Inv (snd (fold_left f l (ids, s)))) as Hfold end.
  { clear. intros l. induction l as [|it l IH]; intros ids s HI; simpl; [done|].
    destruct (retryItem (id_ it) s) as [ok s'] eqn:E. apply IH.
    change s' with (snd (ok, s')). rewrite <-E. by apply inv_retryItem. }
  match goal with |- context [fold_left ?f ?l ([], s)] => specialize (Hfold l [] s HI);
    destruct (fold_left f l ([], s)) as [ids s1] end.
  simpl in Hfold. case_match; [done|]. by apply inv_startHost.
Qed.

(** [clear] drops the rows first and then stops the consoles: the stops do not read the rows. *)
Definition stop_quietly (h : str) (s : Store) : Store :=
  (cancel_running_job h (bump_gen h s)) <| runningHosts := runningHosts s ∖ {[h]} |>.

Lemma stop_quietly_items h l s :
  (stop_quietly h s) <| items := l |> = stop_quietly h (s <| items := l |>).
Proof. unfold stop_quietly, cancel_running_job, bump_gen. simpl. repeat case_match; done. Qed.

Lemma inv_stop_quietly h s : Inv s ->
  (forall it, it ∈ items s -> upload_running it = true -> host_of it <> h) -> Inv (stop_quietly h s).
Proof.
  intros HI Hno. unfold stop_quietly.
  destruct (cancel_shape h (bump_gen h s)) as [Hi (E1 & E2 & E3 & E4 & E5)].
  apply (inv_bump h s); try done; simpl.
Qed.

Lemma stop_quietly_rows h s : items (stop_quietly h s) = items s.
Proof. unfold stop_quietly, cancel_running_job. simpl. by repeat case_match. Qed.

Lemma inv_clear host s : Inv s -> Inv (clear host s).
Proof.
  intros HI. unfold clear. set (h := hostOf <$> host).
  set (keep := List.filter _ (items s)).
  set (f := fun s rh => if bool_decide (h = None \/ h = Some rh) then _ else s).
  assert (forall l s, (fold_left f l s) <| items := keep |> = fold_left f l (s <| items := keep |>)) as Hcomm.
  { clear. intros l. induction l as [|x l IH]; intros s0; [done|]. cbn [fold_left]. rewrite IH. f_equal.
    unfold f. case_bool_decide; [apply (stop_quietly_items x)|done]. }
  rewrite Hcomm.
  assert (forall it, it ∈ keep -> upload_running it = true -> mine h it = false) as Hkeep.
  { intros it Hit Hu. subst keep. apply list_elem_of_In, filter_In in Hit as [_ Hk].
    unfold upload_running in Hu. bool_prop. rewrite H, H0 in Hk. simpl in Hk.
    rewrite orb_false_r in Hk. by apply negb_true_iff in Hk. }
  assert (Inv (s <| items := keep |>)) as HI1.
  { apply inv_items; [done| |].
    - intros it Hit. apply list_elem_of_In, filter_In in Hit as [Hit _]. by apply list_elem_of_In.
    - apply (sublist_NoDup _ (map id_ (items s))); [apply HI|]. apply (fmap_sublist id_).
      subst keep. clear. induction (items s) as [|x l IH]; simpl; [done|].
      case_match; by constructor. }
  assert (items (s <| items := keep |>) = keep) as Hk by done.
  revert HI1 Hk. generalize (s <| items := keep |>) as s1.
  induction (elements (runningHosts s)) as [|x l IH]; intros s1 HI1 Hk; [done|].
  cbn [fold_left]. unfold f at 2. case_bool_decide as Hx; [|by apply IH].
  apply IH; [|by rewrite <-Hk; apply (stop_quietly_rows x)].
  apply (inv_stop_quietly x); [done|]. rewrite Hk. intros it Hit Hu Heq.
  pose proof (Hkeep it Hit Hu) as Hm. destruct Hx as [Hx|Hx]; rewrite Hx in Hm; [done|].
  unfold mine, on_host in Hm. rewrite bool_decide_eq_true_2 in Hm; done.
Qed.

(** A new row's id is used nowhere yet, and its address is one its host can be read from again. *)
Definition fresh (i : str) (s : Store) : Prop :=
  (forall it, it ∈ items s -> id_ it <> i) /\ (i ∉ lookups s) /\
  forall g l n, loops s !! g = Some l -> phase_next (l_phase l) = Some n -> id_ n <> i.
Definition canonical (a : str) : Prop := hostOf (hostOf a) = hostOf a.

Lemma inv_addItem input i tx s : Inv s -> fresh i s -> canonical (addr input) ->
  Inv (addItem input i tx s).
Proof.
  intros HI (Hf1 & Hf2 & Hf3) Hc. unfold addItem, set_items. pose proof HI as [Hnd Hsys Hrows].
  split.
  - simpl. rewrite map_app, NoDup_app. simpl. split_and!; [done| |apply NoDup_singleton].
    intros x Hx. rewrite list_elem_of_singleton. intros ->.
    apply elem_of_map in Hx as (it & Hid & Hit). by apply (Hf1 it).
  - by apply (same_sys_ok s).
  - intros it. simpl. rewrite elem_of_app, list_elem_of_singleton. intros [Hit| ->].
    + destruct (Hrows _ Hit). by split.
    + split; simpl; try done. intros g l n H1 H2 H3. exfalso. by apply (Hf3 g l n).
Qed.

Lemma inv_enqueue env host req input i tx s : Inv s -> fresh i s ->
  canonical (consoleAddr (hostOf host)) -> Inv (snd (enqueueInstall env host req input i tx s)).
Proof.
  intros HI Hf Hc. unfold enqueueInstall. case_match; [done|]. simpl. unfold startAdded.
  case_match; [apply inv_startHost|]; by apply inv_addItem.
Qed.

Lemma inv_install_found env i h ok msg s : Inv s -> Inv (install_found env i h ok msg s).
Proof.
  intros HI. unfold install_found. case_bool_decide as Hk; cbn [negb]; [|done].
  apply inv_leave. pose proof HI as [Hnd Hsys Hrows].
  eapply inv_map; [exact HI|by apply patch_items| | |].
  - intros it. simpl. repeat case_match; reflexivity.
  - destruct Hsys as [S1 S2 S3 S4 S5]. split; simpl; try done.
    intros g l n H1 H2. destruct (S5 g l n H1 H2). split; [done|]. set_solver.
  - intros it Hit HR. pose proof HR as [R1 R2 R3 R4 R5]. simpl. unfold has_id.
    case_bool_decide as Hid.
    + rewrite <-Hid in Hk. destruct (R3 Hk) as [Hw Hrun].
      assert (is_paused it = false) as Hnp.
      { apply not_true_is_false. intros Hp. destruct (R2 Hp) as [_ ?]. congruence. }
      split.
      * rewrite not_running_done; [done|]. by repeat case_match.
      * intros Hp. exfalso. revert Hp Hnp. unfold is_paused. repeat case_match; done.
      * simpl. intros Hk'. exfalso. revert Hk'. repeat case_match; simpl; rewrite Hid; set_solver.
      * intros g l n H1 H2 H3. destruct (R4 g l n H1 H2) as [H4 H5]; [|split].
        -- rewrite H3. by repeat case_match.
        -- rewrite <-H4. by repeat case_match.
        -- intros H6. rewrite <-(H5 H6). by repeat case_match.
      * repeat case_match; done.
    + split; try done. simpl. rewrite elem_of_difference. intros [? _]. auto.
Qed.

(** * Runs *)

(** A run of one tab from its start: the saved queue loaded (or not yet), then any actions of
    the user and the program.  Left out is a tab of the web UI that shows another tab's queue, takes
    the lease over (loading the queue again) or loses it: there rows are running without a loop of the
    tab's own, and what that leads to is [takeover_leaves_console_stuck] of [QueueProps]. *)
Definition doc_ok (doc : list QueueItem) : Prop :=
  NoDup (map id_ doc) /\
  forall it, it ∈ doc -> canonical (addr it) /\
    (is_paused it = true -> (status it = Pending \/ status it = Done) /\ isInstallWork it = false).

Definition allowed (s : Store) (a : Action) : Prop :=
  match a with
  | AAdd input i _ => fresh i s /\ canonical (addr input)
  | AEnqueue host _ _ i _ => fresh i s /\ canonical (consoleAddr (hostOf host))
  | AHydrate _ _ _ | ASync _ _ | ATakeLead | ALoseLead => False
  | _ => True
  end.

Inductive run : Store -> Prop :=
  | run_init : run init
  | run_boot env mint doc cont : doc_ok doc -> run (hydrate env mint doc cont init)
  | run_step env a s : run s -> allowed s a -> run (exec env a s).

Lemma hydrate_row_keeps env mint it : let it' := hydrate_row env mint it in
  id_ it' = id_ it /\ addr it' = addr it /\ paused it' = paused it
  /\ isInstallWork it' = isInstallWork it /\ upload_running it' = false
  /\ (status it' = Running -> status it = Running)
  /\ (isInstallWork it = true -> status it = Running -> has_job (installJobId it) = true ->
      status it' = Running)
  /\ (status it <> Running -> status it' = status it).
Proof.
  unfold hydrate_row, upload_running.
  destruct (status it) eqn:Es; destruct (isInstallWork it) eqn:Ew;
    destruct (installJobId it) as [[|]|] eqn:Ej;
    unfold is_status; rewrite Es; simpl;
    (destruct (txIdHex it); simpl; split_and!; try done; simpl; rewrite ?Es, ?andb_false_r; try done).
  all: match goal with |- context [isInstallWork ?x] =>
    change (isInstallWork x) with (isInstallWork it); by rewrite Ew end.
Qed.

Lemma hydrate_items env mint doc cont s : let s' := hydrate env mint doc cont s in
  let kept := List.filter (fun it => negb (is_kind KInstall it) || negb (bool_decide (install it = None)))
                (map (hydrate_row env mint) doc) in
  items s' = kept ++ List.filter (fun it => negb (existsb (fun k => bool_decide (id_ k = id_ it)) kept)) (items s)
  /\ loops s' = loops s /\ hostGen s' = hostGen s /\ genCounter s' = genCounter s
  /\ runningHosts s' = runningHosts s
  /\ forall i, i ∈ lookups s' <-> i ∈ lookups s \/ i ∈ map id_ (to_find doc).
Proof.
  unfold hydrate. simpl.
  match goal with |- context [fold_left ?f ?ls ?s1] =>
    assert (forall l s0, let s' := fold_left f l s0 in
      items s' = items s0 /\ loops s' = loops s0 /\ hostGen s' = hostGen s0
      /\ genCounter s' = genCounter s0 /\ runningHosts s' = runningHosts s0
      /\ forall i, i ∈ lookups s' <-> i ∈ lookups s0 \/ i ∈ map id_ l) as Hf;
    [|destruct (Hf ls s1) as (-> & -> & -> & -> & -> & Hk); split_and!; done] end.
  clear. intros l. induction l as [|it l IH]; intros s0; simpl.
  - split_and!; try done. intros i. set_solver.
  - match goal with |- context [fold_left _ l ?s1] => destruct (IH s1) as (-> & -> & -> & -> & -> & Hk) end.
    split_and!; try done. intros i. rewrite Hk. simpl. set_solver.
Qed.

Lemma inv_boot env mint doc cont : doc_ok doc -> Inv (hydrate env mint doc cont init).
Proof.
  intros [Hnd Hdoc]. destruct (hydrate_items env mint doc cont init) as (Hi & El & Eg & Ec & Er & Hk).
  simpl in Hi. rewrite app_nil_r in Hi.
  assert (forall it, it ∈ items (hydrate env mint doc cont init) ->
    exists x, it = hydrate_row env mint x /\ x ∈ doc) as Hrow.
  { intros it. rewrite Hi, list_elem_of_In, filter_In, <-list_elem_of_In, elem_of_map. naive_solver. }
  split.
  - rewrite Hi. apply (sublist_NoDup _ (map id_ (map (hydrate_row env mint) doc))).
    + rewrite map_map. erewrite map_ext; [exact Hnd|]. intros x.
      by destruct (hydrate_row_keeps env mint x) as (-> & _).
    + apply (fmap_sublist id_). clear. induction (map _ doc) as [|x l IH]; simpl; [done|].
      case_match; by constructor.
  - split; rewrite ?El, ?Eg, ?Ec, ?Er; simpl; try set_solver.
  - intros it Hit. destruct (Hrow it Hit) as (x & -> & Hx).
    destruct (hydrate_row_keeps env mint x) as (H1 & H2 & H3 & H4 & H5 & H6 & H7 & H8).
    destruct (Hdoc x Hx) as [Hc Hp]. split; rewrite ?El, ?Eg; simpl.
    + by rewrite H5.
    + unfold is_paused in *. rewrite H3, H4. intros Hpz. destruct (Hp Hpz) as [Hs ?].
      rewrite H8; [done|]. destruct Hs; congruence.
    + rewrite Hk, H1, H4. intros [Hin|Hin]; [set_solver|].
      apply elem_of_map in Hin as (y & Hid & Hy). unfold to_find in Hy.
      apply list_elem_of_In, filter_In in Hy as [Hy Hcond]. apply list_elem_of_In in Hy.
      assert (x = y) as -> by (eapply id_unique; done). bool_prop. unfold is_status in *. bool_prop.
      split; [done|]. by apply H7.
    + done.
    + unfold host_of. by rewrite H2.
Qed.

Lemma inv_exec env a s : Inv s -> allowed s a -> Inv (exec env a s).
Proof.
  intros HI Ha. destruct a; simpl in Ha |- *; try (apply inv_guarded; [|done]; intros _); try done.
  - by destruct Ha; apply inv_addItem.
  - by destruct Ha; apply inv_enqueue.
  - unfold startAdded. case_match; [by apply inv_startHost|done].
  - by apply inv_remove.
  - by apply inv_cancelItem.
  - by apply inv_pauseItem.
  - by apply inv_resumeItem.
  - by apply inv_sendNow.
  - by apply inv_noteSourceSize.
  - apply inv_permute, moveItemUp_perm; done.
  - apply inv_permute, moveItemDown_perm; done.
  - apply inv_permute, moveItemTo_perm; done.
  - by apply inv_clear.
  - by apply inv_startHost.
  - by apply inv_start_pass.
  - by apply inv_stopHost.
  - by apply inv_stop.
  - by apply inv_retryFailed.
  - by apply inv_restartItem.
  - by apply inv_retryItem.
  - by apply inv_retryInstall.
  - by apply (inv_same s).
  - by apply inv_resumeFailed.
  - by apply inv_start_pass.
  - by apply inv_restart_ready.
  - by apply inv_cancel_install_end.
  - by apply inv_loop_event.
  - unfold reattached. apply (inv_same (if known then patch i (fun it => it <| attachJobId := Some job |>) s else s));
      [|done|done].
    case_match; [|done]. apply inv_patch_neutral; [done|is_neutral].
  - apply inv_fold; [|done]. intros. by apply inv_startHost.
  - by apply inv_install_found.
Qed.

Lemma run_inv s : run s -> Inv s.
Proof.
  induction 1 as [|env mint doc cont Hd|env a s _ IH Ha].
  - split; [apply NoDup_nil_2| |set_solver].
    split; simpl; try set_solver.
  - by apply inv_boot.
  - by apply inv_exec.
Qed.
