(* ===== verification/QueueSend.v ===== *)
(** Send now: an upload it paused is never forgotten while the tab stays open ([send_ok] is kept
    by every action but the two that end an install behind the drain loop's back). *)
From S2P Require Import Prelude Addr QueueOps UploadRecovery UploadQueue QueueStore QueueInv.

(** A row a Send now paused waits for a row sent now that has still to run or to finish. *)
Definition send_ok_on (ok : str -> Prop) (l : list QueueItem) : Prop :=
  forall it, it ∈ l -> ok (host_of it) -> paused it = Some BySendNow -> status it = Pending ->
  exists jt, jt ∈ l /\ sent_live (host_of it) jt = true.
Definition send_ok (l : list QueueItem) : Prop := send_ok_on (fun _ => True) l.

Lemma sent_live_spec h it : sent_live h it = true <->
  host_of it = h /\ is_sent it = true /\ paused it = None /\ (status it = Pending \/ status it = Running).
Proof.
  unfold sent_live, on_host, is_paused, is_status. destruct (is_sent it), (paused it);
    rewrite ?andb_false_r, ?andb_true_iff, ?orb_true_iff, ?bool_decide_eq_true; simpl; naive_solver.
Qed.

(** Such a row is not one [settleSendNow] touches. *)
Lemma settle_sent h b k it : sent_live k it = true -> settle_row h b it = it.
Proof.
  intros (_ & _ & Hp & Hs)%sent_live_spec. unfold settle_row, is_status. rewrite Hp.
  destruct (negb (on_host h it)); [done|].
  destruct Hs as [-> | ->]; rewrite !(bool_decide_eq_false_2 (_ = _)) by done;
    by rewrite ?andb_false_r.
Qed.

Lemma sent_live_host h it : sent_live h it = true -> host_of it = h.
Proof. unfold sent_live, on_host. intros. by bool_prop. Qed.

(** ** Keeping it *)

Record sends (it it' : QueueItem) : Prop := {
  sends_host : host_of it' = host_of it;
  sends_paused : paused it' = Some BySendNow -> status it' = Pending ->
    paused it = Some BySendNow /\ status it = Pending;
  sends_live : forall h, sent_live h it = true -> sent_live h it' = true
}.

Lemma sends_refl it : sends it it.
Proof. by split. Qed.

Lemma send_map ok F l : (forall it, it ∈ l -> sends it (F it)) -> send_ok_on ok l -> send_ok_on ok (map F l).
Proof.
  intros HF H it. rewrite elem_of_map. intros (x & -> & Hx). destruct (HF x Hx) as [Hh Hp _].
  rewrite Hh. intros Hok Hpz Hs. destruct (Hp Hpz Hs) as [Hpz' Hs'].
  destruct (H x Hx Hok Hpz' Hs') as (jt & Hj & Hlive). exists (F jt). split.
  - apply elem_of_map. eauto.
  - by apply (sends_live _ _ (HF jt Hj)).
Qed.

Lemma send_patch ok i f s : NoDup (map id_ (items s)) ->
  (forall it, it ∈ items s -> id_ it = i -> sends it (f it)) ->
  send_ok_on ok (items s) -> send_ok_on ok (items (patch i f s)).
Proof.
  intros Hnd Hf H. rewrite patch_items by done. apply send_map; [|done]. intros it Hit.
  unfold has_id. case_bool_decide; [auto|apply sends_refl].
Qed.

(** A change confined to one console's rows leaves the others' as they were. *)
Lemma send_elsewhere h (l l' : list QueueItem) :
  (forall it, host_of it <> h -> it ∈ l <-> it ∈ l') ->
  send_ok l -> send_ok_on (fun k => k <> h) l'.
Proof.
  intros Hl H it Hit Hne Hp Hs. apply Hl in Hit; [|done].
  destruct (H it Hit I Hp Hs) as (jt & Hj & Hlive). exists jt. split; [|done].
  apply Hl; [|done]. by rewrite (sent_live_host _ _ Hlive).
Qed.

Lemma elem_patch_other i f s it : NoDup (map id_ (items s)) -> (forall x, id_ (f x) = id_ x) ->
  id_ it <> i -> it ∈ items (patch i f s) <-> it ∈ items s.
Proof.
  intros Hnd Hid Hne. rewrite patch_items, elem_of_map by done. split.
  - intros (x & -> & Hx). revert Hne. unfold has_id. case_bool_decide as E; [|done]. by rewrite Hid.
  - intros Hit. exists it. split; [|done]. unfold has_id. by rewrite bool_decide_eq_false_2.
Qed.

(** [settleSendNow] restores it on its own console. *)
Lemma send_settle h s : send_ok_on (fun k => k <> h) (items s) -> send_ok (items (snd (settleSendNow h s))).
Proof.
  intros H. destruct (settle_shape h s) as [Hi _]. rewrite Hi.
  set (live := existsb (sent_live h) (items s)).
  assert (forall jt k, sent_live k jt = true -> sent_live k (settle_row h live jt) = true) as Hkeep.
  { intros jt k Hj. by rewrite (settle_sent _ _ _ _ Hj). }
  intros it. rewrite elem_of_map. intros (x & -> & Hx) _.
  destruct (settle_calm h live x) as [_ Hh _ _ _ _]. rewrite Hh. intros Hp Hs.
  assert (paused x = Some BySendNow /\ status x = Pending /\ (host_of x = h -> live = true)) as (Hp' & Hs' & Hlive).
  { revert Hp Hs. unfold settle_row, on_host. case_bool_decide as E; cbn [negb]; [|naive_solver].
    destruct (is_sent x && _) eqn:E1.
    - simpl. intros _ Hs. unfold is_status in E1. bool_prop. by rewrite Hs in H1.
    - destruct (negb live && _ && _) eqn:E2; [done|]. intros Hp Hs. split_and!; try done.
      intros _. unfold is_status in E2. rewrite Hp, Hs in E2. by destruct live. }
  destruct (decide (host_of x = h)) as [Heq|Hne].
  - specialize (Hlive Heq). subst live. apply existsb_elem in Hlive as (jt & Hj & Hjl).
    eexists (settle_row h _ jt). split; [apply elem_of_map; eauto|]. rewrite Heq. by apply Hkeep.
  - destruct (H x Hx Hne Hp' Hs') as (jt & Hj & Hjl).
    eexists (settle_row h _ jt). split; [apply elem_of_map; eauto|]. by apply Hkeep.
Qed.

(** ** The loops *)

Lemma items_end env g l s : items (end_loop env g l s) = items s.
Proof. unfold end_loop. by repeat case_match. Qed.

Lemma items_drain env g l s : items (drain_top env g l s) = items s.
Proof. unfold drain_top. repeat case_match; rewrite ?items_end; done. Qed.

(** The fields Send now reads, kept. *)
Definition keeps_send (f : QueueItem -> QueueItem) : Prop :=
  forall it, id_ (f it) = id_ it /\ host_of (f it) = host_of it /\ paused (f it) = paused it
    /\ sendNowAt (f it) = sendNowAt it.

Lemma sends_unpaused f it : keeps_send f -> paused it = None ->
  (status (f it) = Pending \/ status (f it) = Running) -> sends it (f it).
Proof.
  intros Hf Hp Hs. destruct (Hf it) as (_ & Hh & Hpz & Hsn). split; [done|intros; congruence|].
  intros h. rewrite !sent_live_spec. unfold is_sent, sent_at. rewrite Hh, Hpz, Hsn. naive_solver.
Qed.

Lemma sends_status f it : keeps_send f -> status (f it) = status it -> sends it (f it).
Proof.
  intros Hf Hs. destruct (Hf it) as (_ & Hh & Hpz & Hsn). split; [done|by rewrite Hpz, Hs|].
  intros h. rewrite !sent_live_spec. unfold is_sent, sent_at. by rewrite Hh, Hpz, Hsn, Hs.
Qed.

Lemma live_unpaused s g l n it : Inv s -> loops s !! g = Some l -> live s g l ->
  phase_next (l_phase l) = Some n -> it ∈ items s -> id_ it = id_ n -> paused it = None.
Proof.
  intros HI Hl Hlive Hn Hit Hid. destruct (row_next _ _ (inv_rows _ HI _ Hit) g l n Hl Hn) as [_ H]; [done|].
  specialize (H Hlive). unfold is_paused in H. by destruct (paused it).
Qed.

Lemma send_patch_status i f s : Inv s -> keeps_send f -> (forall it, status (f it) = status it) ->
  send_ok (items s) -> send_ok (items (patch i f s)).
Proof. intros HI Hf Hs. apply send_patch; [apply HI|]. intros. by apply sends_status. Qed.

Lemma send_patch_live s g l n f : Inv s -> loops s !! g = Some l -> live s g l ->
  phase_next (l_phase l) = Some n -> keeps_send f ->
  (forall it, status (f it) = Pending \/ status (f it) = Running) ->
  send_ok (items s) -> send_ok (items (patch (id_ n) f s)).
Proof.
  intros HI Hl Hlive Hn Hf Hs. apply send_patch; [apply HI|]. intros it Hit Hid.
  apply sends_unpaused; try done. by eapply live_unpaused.
Qed.

(** The row's end, whatever it is, followed by [settleSendNow]. *)
Lemma send_run_end s g l n f : Inv s -> loops s !! g = Some l -> phase_next (l_phase l) = Some n ->
  (forall it, id_ (f it) = id_ it /\ host_of (f it) = host_of it) ->
  send_ok (items s) -> send_ok (items (snd (settleSendNow (host_of n) (patch (id_ n) f s)))).
Proof.
  intros HI Hl Hn Hf H. apply send_settle. eapply send_elsewhere; [|exact H].
  pose proof (next_host _ _ _ _ HI Hl Hn) as Hh.
  intros it Hne. destruct (decide (id_ it = id_ n)) as [Hid|Hid].
  - split; intros Hit; exfalso; apply Hne.
    + destruct (row_next _ _ (inv_rows _ HI _ Hit) g l n) as [? _]; [done..|congruence].
    + rewrite patch_items, elem_of_map in Hit by apply HI. destruct Hit as (x & -> & Hx).
      revert Hid. unfold has_id. case_bool_decide as E; intros Hid; [|congruence].
      destruct (Hf x) as [_ ->]. destruct (row_next _ _ (inv_rows _ HI _ Hx) g l n) as [? _]; [done..|congruence].
  - symmetry. apply elem_patch_other; [apply HI| |done]. intros x. apply (Hf x).
Qed.

Lemma send_run_ok env s g l n r : Inv s -> loops s !! g = Some l -> phase_next (l_phase l) = Some n ->
  send_ok (items s) -> send_ok (items (run_ok env g l n r s)).
Proof. intros. unfold run_ok. rewrite items_drain. by eapply send_run_end. Qed.

Lemma send_park s g l n : Inv s -> loops s !! g = Some l -> phase_next (l_phase l) = Some n ->
  live s g l -> send_ok (items s) -> send_ok (items (parkForWake n s)).
Proof. intros. unfold parkForWake. by eapply send_patch_live; eauto. Qed.

Lemma send_run_failed env s g l n a f : Inv s -> loops s !! g = Some l ->
  phase_next (l_phase l) = Some n -> send_ok (items s) -> send_ok (items (run_failed env g l n a f s)).
Proof.
  intros HI Hl Hn H. unfold run_failed. set (inst := isInstallWork _).
  rewrite isLive_spec. destruct (decide (live s g l)) as [Hlive|Hlive];
    [rewrite (bool_decide_eq_true_2 _ Hlive)|rewrite (bool_decide_eq_false_2 _ Hlive)]; cbn [negb andb].
  all: assert (send_ok (items (snd (settleSendNow (host_of n)
         (patch (id_ n) (failed_patch env inst n f) s))))) as Hend
    by (eapply send_run_end; try done; intros it;
        by destruct (failed_patch_status env inst n f it) as (_ & ? & ? & _)).
  - case_match; [rewrite items_end; by eapply send_park|]. case_match.
    + eapply send_patch_live; try done. auto.
    + repeat case_match; rewrite ?items_end, ?items_drain; done.
  - case_match; [by rewrite items_end|]. destruct inst; [|done]. cbn [negb andb].
    repeat case_match; rewrite ?items_end, ?items_drain; done.
Qed.

Ltac keep_send := intros ?; repeat case_match; split_and!; reflexivity.
Ltac keep_status := intros ?; repeat case_match; reflexivity.

Lemma send_job_started env s g l n a j : Inv s -> loops s !! g = Some l ->
  phase_next (l_phase l) = Some n -> send_ok (items s) -> send_ok (items (job_started env g l n a j s)).
Proof.
  intros HI Hl Hn H. unfold job_started. case_match.
  - eapply send_run_failed; try done. by apply (inv_same s).
  - simpl. apply (send_patch_status _ _ s); [done|keep_send|keep_status|done].
Qed.

Lemma send_begin s g l n : Inv s -> loops s !! g = Some l -> phase_next (l_phase l) = Some n ->
  live s g l -> send_ok (items s) -> send_ok (items (begin_item g l n s)).
Proof. intros. unfold begin_item, run_one. simpl. eapply (send_patch_live s); try done. auto. Qed.

Lemma items_leave h t s : items (leave_in_flight h t s) = items s.
Proof. unfold leave_in_flight. by case_match. Qed.

Lemma send_loop_event env g ev s : Inv s -> send_ok (items s) -> send_ok (items (loop_event env g ev s)).
Proof.
  intros HI H. unfold loop_event. destruct (loops s !! g) as [l|] eqn:Hl; [|done].
  destruct (l_phase l) as [| | |n|n|n a|n a|n a j|n a|n a|n a|n a w f|n a] eqn:Hp;
    try (assert (phase_next (l_phase l) = Some n) as Hn by (by rewrite Hp)).
  all: destruct ev; try done; rewrite ?isLive_spec; rewrite ?items_drain; try done.
  - simpl. apply send_map; [|done]. intros it _. repeat case_match; try apply sends_refl;
      by (split; [done|done|intros ?; by rewrite !sent_live_spec]).
  - unfold after_hold. repeat case_match; rewrite ?items_end, ?items_drain; done.
  - unfold after_retake. rewrite isLive_spec. case_bool_decide as Hlive; cbn [negb]; [|by rewrite items_end].
    case_match; [rewrite items_end; by eapply send_park|]. case_match; [done|by eapply send_begin].
  - case_bool_decide; cbn [negb]; [by eapply send_begin|by rewrite items_end].
  - unfold after_lock. repeat case_match; try done.
    eapply send_job_started; try done; [apply inv_patch_neutral; [done|is_neutral]|].
    apply send_patch_status; [done|keep_send|keep_status|done].
  - by eapply send_job_started.
  - by eapply send_run_failed.
  - case_match; [by eapply send_run_failed|].
    apply send_patch_status; [done|keep_send|keep_status|done].
  - case_match; [by eapply send_run_failed|]. unfold uploaded.
    assert (Inv (uploaded g l n a dest s)) as _.
    { apply inv_uploaded; [done..|by rewrite Hp|]. rewrite negb_false_iff in H0. by bool_prop. }
    set (f := fun it : QueueItem => match dest with Some d => _ | None => _ end).
    assert (send_ok (items (patch (id_ n) f s))) as H1
      by (apply send_patch_status; [done|subst f; keep_send|subst f; keep_status|done]).
    case_match; [|done]. simpl.
    assert (Inv (patch (id_ n) f s)) as HI1.
    { apply (inv_patch_next s g l); try done; subst f.
      - intros it. simpl. case_match; split_and!; reflexivity.
      - intros it _ _ _. right. rewrite Hp. rewrite negb_false_iff in H0. by bool_prop.
      - intros it _ _ _ Hd. exfalso. apply Hd. rewrite negb_false_iff in H0. by bool_prop. }
    apply (send_patch_status (id_ n) _ (patch (id_ n) f s)); [done|keep_send|keep_status|done].
  - case_match; by eapply send_run_failed.
  - by eapply send_run_ok.
  - by eapply send_run_failed.
  - apply send_patch_status; [done|keep_send|keep_status|done].
  - simpl. apply (send_patch_status _ _ s); [done|keep_send|keep_status|done].
  - by eapply send_run_failed.
  - apply send_patch_status; [done|keep_send|keep_status|done].
  - apply send_patch_status; [done|keep_send|keep_status|done].
  - apply send_patch_status; [done|keep_send|keep_status|done].
  - eapply send_run_ok; [by apply inv_leave|by rewrite loops_leave|done|by rewrite items_leave].
  - eapply send_run_failed; [by apply inv_leave|by rewrite loops_leave|done|by rewrite items_leave].
  - case_bool_decide; cbn [negb]; [|by rewrite items_end]. case_match; [done|].
    case_match; [rewrite items_end; by eapply send_park|done].
  - case_bool_decide; cbn [negb]; [|by rewrite items_end]. unfold run_one. simpl.
    eapply (send_patch_live s); try done. auto.
Qed.

(** ** The actions *)

Lemma items_restartAfterStop h again s : items (restartAfterStop h again s) = items s.
Proof. unfold restartAfterStop. by case_match. Qed.

Lemma send_startHost env host o s : send_ok (items s) -> send_ok (items (startHost env host o s)).
Proof.
  intros H. unfold startHost. set (s1 := if negb (is_limited o) && _ then _ else s).
  assert (items s1 = items s) as E1 by (subst s1; by case_match). clearbody s1.
  case_bool_decide; [repeat case_match; by rewrite <-E1 in H|].
  set (s2 := if is_limited o then _ else _).
  assert (items s2 = items s1) as E2 by (subst s2; by case_match). clearbody s2.
  unfold markLimited, bump_gen. simpl. rewrite E2, E1. apply send_map; [|done]. intros it _.
  case_match; [|apply sends_refl]. split; [done|done|]. intros h. by rewrite !sent_live_spec.
Qed.

Lemma send_join_or_start env h i o s : send_ok (items s) ->
  send_ok (items (match joinPendingRestart h i s with Some s2 => s2 | None => startHost env h o s end)).
Proof.
  intros H. destruct (joinPendingRestart h i s) as [s2|] eqn:E; [|by apply send_startHost].
  apply join_shape in E as [-> _]. done.
Qed.

Lemma send_stopHost host s : Inv s -> send_ok (items s) -> send_ok (items (stopHost host s)).
Proof.
  intros HI H. rewrite stopHost_items. unfold resetRunningToPending. apply send_map; [|done].
  intros it Hit. case_match eqn:E; [|apply sends_refl]. unfold is_status in E. bool_prop.
  split; [done| |].
  - simpl. intros Hp _. destruct (row_paused _ _ (inv_rows _ HI _ Hit)) as [[?|?] _];
      [unfold is_paused; by rewrite Hp|congruence..].
  - intros h. rewrite !sent_live_spec. simpl. naive_solver.
Qed.

Lemma send_patch_elsewhere i it f s : Inv s -> row i s = Some it ->
  (forall x, id_ (f x) = id_ x /\ host_of (f x) = host_of x) ->
  send_ok (items s) -> send_ok_on (fun k => k <> host_of it) (items (patch i f s)).
Proof.
  intros HI Hr Hf H. eapply send_elsewhere; [|exact H].
  intros x Hne. destruct (decide (id_ x = i)) as [Hid|Hid].
  - split; intros Hx; exfalso; apply Hne.
    + f_equal. by eapply row_unique; [apply HI|..].
    + rewrite patch_items, elem_of_map in Hx by apply HI. destruct Hx as (y & -> & Hy).
      revert Hid. unfold has_id. case_bool_decide as E; intros Hid; [|done].
      destruct (Hf y) as [_ ->]. f_equal. by eapply row_unique; [apply HI|..].
  - symmetry. apply elem_patch_other; [apply HI| |done]. intros y. apply (Hf y).
Qed.

(** Rows of one console dropped, then [settleSendNow]. *)
Lemma send_remove i it s : Inv s -> row i s = Some it -> send_ok (items s) ->
  send_ok (items (snd (settleSendNow (host_of it) (set_items (fun l => removeItem id_ l i) s)))).
Proof.
  intros HI Hr H. apply send_settle. eapply send_elsewhere; [|exact H].
  intros x Hne. simpl. rewrite elem_removeItem by apply HI. split; [|naive_solver].
  intros Hx. split; [done|]. intros Hid. apply Hne. f_equal. by eapply row_unique; [apply HI|..].
Qed.

Lemma row_stopHost host i it s : Inv s -> row i s = Some it ->
  exists it', row i (stopHost host s) = Some it' /\ host_of it' = host_of it /\ id_ it' = i.
Proof.
  intros HI Hr. pose proof (row_Some _ _ _ Hr) as [Hit Hid].
  set (F := fun x => if is_status Running x && (on_host (hostOf host) x && negb (isInstallWork x))
                     then reset_row x else x).
  assert (F it ∈ items (stopHost host s)) as Hin.
  { rewrite stopHost_items. unfold resetRunningToPending. apply elem_of_map. by exists it. }
  destruct (reset_keeps _ it (F it) eq_refl) as (Ki & Kh & _).
  destruct (row i (stopHost host s)) as [x|] eqn:E.
  - assert (F it = x) as <- by (eapply row_unique; [apply (inv_stopHost host s HI)|done..|congruence]).
    exists (F it). split_and!; congruence.
  - exfalso. apply (row_None _ _ _ E Hin). congruence.
Qed.

Lemma send_cancelItem i s : Inv s -> send_ok (items s) -> send_ok (items (cancelItem i s)).
Proof.
  intros HI H. unfold cancelItem. destruct (row i s) as [it|] eqn:Er; [|done].
  destruct (isInstallWork it && _).
  { case_match; [done|]. apply send_patch_status; [done|keep_send|keep_status|done]. }
  case_match; [by apply send_remove|].
  destruct (row_stopHost (host_of it) i it s HI Er) as (it' & Er' & Eh & _).
  assert (send_ok (items (snd (settleSendNow (host_of it)
    (set_items (fun l => removeItem id_ l i) (stopHost (host_of it) s)))))) as H2.
  { rewrite <-Eh at 1. apply send_remove; [by apply inv_stopHost|done|by apply send_stopHost]. }
  case_match; [by rewrite items_restartAfterStop|done].
Qed.

(** Pausing by hand settles the console. *)
Lemma send_pause_user it also s : Inv s -> row (id_ it) s = Some it -> canPauseItem it = true ->
  send_ok (items s) -> send_ok (items (pauseRunning it ByUser also s)).
Proof.
  intros HI Hr Hc%canPause_running H. unfold pauseRunning.
  destruct (settleSendNow (host_of it) _) as [resumed s2] eqn:E. rewrite items_restartAfterStop.
  change s2 with (snd (resumed, s2)). rewrite <-E. apply send_settle.
  destruct (row_stopHost (host_of it) _ it s HI Hr) as (it' & Er' & Eh & _). rewrite <-Eh.
  apply send_patch_elsewhere; [by apply inv_stopHost|by rewrite Eh|done|by rewrite Eh; apply send_stopHost].
Qed.

Lemma fold_max_ge l z : z <= fold_left Z.max l z.
Proof. revert z. induction l as [|x l IH]; intros z; simpl; [lia|]. specialize (IH (Z.max z x)). lia. Qed.

Lemma send_at_pos env l : 0 < now env -> 0 < send_at env l.
Proof. intros H. unfold send_at. pose proof (fold_max_ge (map (fun it => (sendNowAt it ?? 0) + 1) l) (now env)). lia. Qed.

Lemma is_sent_pos it z : sendNowAt it = Some z -> 0 < z -> is_sent it = true.
Proof. intros H Hz. unfold is_sent, sent_at. rewrite H. by destruct z. Qed.

(** Pausing the running upload for a row [jt] sent now. *)
Lemma send_pause_sendNow it jt also s : Inv s -> row (id_ it) s = Some it -> canPauseItem it = true ->
  is_sent it = false -> jt ∈ items s -> status jt = Pending -> paused jt = None -> is_sent jt = true ->
  host_of jt = host_of it ->
  send_ok (items s) -> send_ok (items (pauseRunning it BySendNow also s)).
Proof.
  intros HI Hr Hc%canPause_running Hns Hj Hjs Hjp Hjsent Hjh H. unfold pauseRunning.
  rewrite items_restartAfterStop. pose proof (inv_stopHost (host_of it) s HI) as HI'.
  pose proof (send_stopHost (host_of it) s HI H) as H'.
  pose proof (stopHost_elem (host_of it) s) as Hel.
  assert (jt ∈ items (stopHost (host_of it) s)) as Hjin.
  { rewrite stopHost_items. unfold resetRunningToPending. apply elem_of_map. exists jt.
    split; [|done]. unfold is_status. by rewrite Hjs. }
  assert (id_ jt <> id_ it) as Hjid.
  { intros Hid. assert (jt = it) as -> by (eapply row_unique; [apply HI|done..]).
    unfold upload_running, is_status in Hc. rewrite Hjs in Hc. done. }
  assert (sent_live (host_of it) jt = true) as Hjl by (apply sent_live_spec; auto).
  revert HI' H' Hel Hjin. generalize (stopHost (host_of it) s) as s'. intros s' HI' H' Hel Hjin.
  assert (forall x, x ∈ items s' -> id_ x = id_ it -> is_sent x = false /\ host_of x = host_of it) as Hrow.
  { intros x Hx Hid. destruct (Hel x Hx) as (y & Hy & Exy).
    destruct (reset_keeps _ _ _ Exy) as (Ki & Kh & _ & _ & _ & Ks & _).
    assert (y = it) as -> by (eapply row_unique; [apply HI|done..|congruence]).
    split; [|done]. unfold is_sent, sent_at in *. by rewrite Ks. }
  intros x Hx _. rewrite patch_items, elem_of_map in Hx by apply HI'. destruct Hx as (y & -> & Hy).
  assert (forall z, z ∈ items s' -> id_ z <> id_ it ->
    z ∈ items (patch (id_ it) (fun r => r <| paused := Some BySendNow |>) s')) as Hstay.
  { intros z Hz Hne. apply elem_patch_other; [apply HI'|done..]. }
  unfold has_id. case_bool_decide as Hid.
  - intros _ _. exists jt. split; [by apply Hstay|]. simpl.
    change (sent_live (host_of y) jt = true). by destruct (Hrow y Hy Hid) as [_ ->].
  - intros Hp Hs. destruct (H' y Hy I Hp Hs) as (z & Hz & Hzl). exists z. split; [|done].
    apply Hstay; [done|]. intros Hzid. destruct (Hrow z Hz Hzid) as [Hzs _].
    apply sent_live_spec in Hzl as (_ & ? & _). congruence.
Qed.

Lemma row_find s i it : Inv s -> it ∈ items s -> id_ it = i -> row i s = Some it.
Proof.
  intros HI Hit Hid. destruct (row i s) as [x|] eqn:E.
  - f_equal. symmetry. by eapply row_unique; [apply HI|..].
  - by destruct (row_None _ _ _ E Hit).
Qed.

Lemma send_sendNow env i s : 0 < now env -> Inv s -> send_ok (items s) -> send_ok (items (sendNow env i s)).
Proof.
  intros Hnow HI H. unfold sendNow. destruct (row i s) as [it|] eqn:Er; [|done].
  destruct (negb (is_status Pending it) || is_paused it) eqn:Ec; [done|].
  assert (status it = Pending /\ paused it = None) as [Hps Hpz].
  { unfold is_status, is_paused in Ec. destruct (paused it); bool_prop; done. }
  set (f := fun r : QueueItem => r <| sendNowAt := _ |>).
  assert (Inv (patch i f s)) as HI1 by (apply inv_patch_neutral; [done|subst f; is_neutral]).
  assert (send_ok (items (patch i f s))) as HS1.
  { apply send_patch; [apply HI| |done]. intros x _ _. split; [done|done|].
    intros h. rewrite !sent_live_spec. intros (? & _ & ? & ?). split_and!; try done.
    eapply is_sent_pos; [done|by apply send_at_pos]. }
  pose proof (row_Some _ _ _ Er) as [Hit Hid].
  assert (f it ∈ items (patch i f s)) as Hfit.
  { rewrite patch_items, elem_of_map by apply HI. exists it. split; [|done].
    unfold has_id. by rewrite bool_decide_eq_true_2. }
  destruct (find_first _ (items (patch i f s))) as [running|] eqn:Ef; [|by apply send_join_or_start].
  case_match eqn:Ec'; [|by apply send_join_or_start]. bool_prop.
  apply find_first_Some in Ef as [Hrin Hr]. unfold on_host in Hr. bool_prop.
  eapply (send_pause_sendNow running (f it)); try done.
  - by apply row_find.
  - eapply is_sent_pos; [done|by apply send_at_pos].
Qed.

Lemma send_pauseItem i s : Inv s -> send_ok (items s) -> send_ok (items (pauseItem i s)).
Proof.
  intros HI H. unfold pauseItem. destruct (row i s) as [it|] eqn:E; [|done].
  case_match; [|done]. apply send_pause_user; try done. by destruct (row_Some _ _ _ E) as [_ ->].
Qed.

Lemma send_resumeItem env i s : Inv s -> send_ok (items s) -> send_ok (items (resumeItem env i s)).
Proof.
  intros HI H. unfold resumeItem. destruct (row i s) as [it|]; [|done]. case_match; [done|].
  apply send_join_or_start. apply send_patch; [apply HI| |done]. intros x _ _. split; [done|done|].
  intros h. rewrite !sent_live_spec. intros (? & ? & _ & ?). by split_and!.
Qed.

Lemma send_fold {A} (f : Store -> A -> Store) l s :
  (forall s x, Inv s -> send_ok (items s) -> Inv (f s x) /\ send_ok (items (f s x))) ->
  Inv s -> send_ok (items s) -> send_ok (items (fold_left f l s)).
Proof.
  intros Hf. revert s. induction l as [|x l IH]; intros s HI H; [done|]. simpl.
  destruct (Hf s x HI H). auto.
Qed.

Lemma send_start_pass env b s : Inv s -> send_ok (items s) -> send_ok (items (start_pass env b s)).
Proof.
  apply send_fold. intros. split; [by apply inv_startHost|by apply send_startHost].
Qed.

Lemma send_clear host s : send_ok (items s) -> send_ok (items (clear host s)).
Proof.
  intros H. unfold clear. simpl. intros it Hit _ Hp Hs.
  apply list_elem_of_In, filter_In in Hit as [Hit Hk]. apply list_elem_of_In in Hit.
  destruct (H it Hit I Hp Hs) as (jt & Hj & Hlive). exists jt. split; [|done].
  apply list_elem_of_In, filter_In. rewrite <-list_elem_of_In. split; [done|].
  assert (mine (hostOf <$> host) jt = mine (hostOf <$> host) it) as ->.
  { unfold mine, on_host. by rewrite (sent_live_host _ _ Hlive). }
  unfold is_status in Hk. rewrite Hs, (bool_decide_eq_false_2 (Pending = Running)), andb_false_r, orb_false_r in Hk by done.
  by rewrite Hk.
Qed.

(** A failed row is not paused, so putting it back in line is harmless. *)
Lemma sends_retried s it it' : Inv s -> it ∈ items s -> retried it it' -> sends it it'.
Proof.
  intros HI Hit (Hf & Hp & _ & Hh & Hpz).
  assert (paused it = None) as Hn.
  { destruct (paused it) eqn:E; [|done]. destruct (row_paused _ _ (inv_rows _ HI _ Hit)) as [[?|?] _];
      [unfold is_paused; by rewrite E|congruence..]. }
  split; [done|congruence|]. intros h. rewrite !sent_live_spec. intros (_ & _ & _ & [?|?]); congruence.
Qed.

Lemma send_patch_retried i f s : Inv s ->
  (forall it, it ∈ items s -> id_ it = i -> retried it (f it)) ->
  send_ok (items s) -> send_ok (items (patch i f s)).
Proof. intros HI Hf. apply send_patch; [apply HI|]. intros. eapply sends_retried; eauto. Qed.

Lemma send_retryItem i s : Inv s -> send_ok (items s) -> send_ok (items (snd (retryItem i s))).
Proof.
  intros HI H. unfold retryItem. destruct (row i s) as [x|] eqn:E; [|done].
  destruct (negb (is_status Failed x)) eqn:Ef; [done|]. simpl. apply send_map; [|done].
  intros it Hit. unfold has_id. case_bool_decide as Hid; [|apply sends_refl].
  assert (it = x) as -> by (eapply row_unique; [apply HI|done..]).
  destruct (retryPatch_keeps x) as (? & ? & ? & ? & _). unfold is_status in Ef. bool_prop.
  eapply sends_retried; [done..|by split_and!].
Qed.

Lemma send_retryInstall env i s : Inv s -> send_ok (items s) -> send_ok (items (retryInstall env i s)).
Proof.
  intros HI H. unfold retryInstall. destruct (row i s) as [x|] eqn:E; [|done].
  destruct (_ || _) eqn:Ef; [done|]. apply send_startHost, send_patch_retried; [done| |done].
  intros it Hit Hid. pose proof (row_unique _ _ _ _ (inv_ids _ HI) E Hit Hid) as ->.
  bool_prop. unfold is_status in *. bool_prop. by split_and!.
Qed.

Lemma send_retryFailed env h s : Inv s -> send_ok (items s) -> send_ok (items (retryFailed env h s)).
Proof.
  intros HI H. unfold retryFailed. set (s1 := set_items _ s).
  assert (Inv s1 /\ send_ok (items s1)) as [HI1 HS1].
  { assert (forall it, let it' :=
      (if negb (mine (hostOf <$> h) it) || negb (is_status Failed it) then it
       else if is_kind KInstall it && negb (bool_decide (installPhase it = None))
       then it <| status := Pending |> <| installPhase := None |> <| installPct := None |>
             <| installProgress := None |> <| installNote := None |> <| fallbackToUpload := false |>
       else it <| status := Pending |>) in it' = it \/ retried it it') as HF.
    { intros it. simpl. destruct (negb _ || negb (is_status Failed it)) eqn:E; [by left|right].
      bool_prop. unfold is_status in *. bool_prop. repeat case_match; by split_and!. }
    split.
    - eapply inv_change; [exact HI|done|reflexivity| |].
      + intros it. simpl. repeat case_match; reflexivity.
      + intros it _. destruct (HF it) as [E|E]; [left|by right]. simpl in E |- *. rewrite E. apply calm_refl.
    - apply send_map; [|done]. intros it Hit. destruct (HF it) as [E|E].
      + simpl in E |- *. rewrite E. apply sends_refl.
      + by eapply sends_retried. }
  clearbody s1. case_match; [by apply send_startHost|by apply send_start_pass].
Qed.

Lemma send_resumeFailed env h s : Inv s -> send_ok (items s) ->
  send_ok (items (resumeFailedRecoverable env h s)).
Proof.
  intros HI H. unfold resumeFailedRecoverable. case_match; [done|].
  match goal with |- context [fold_left ?f ?cs ([], s)] =>
    assert (forall l ids s, Inv s -> send_ok (items s) ->
      send_ok (items (snd (fold_left f l (ids, s))))) as Hfold;
    [|specialize (Hfold cs [] s HI H); destruct (fold_left f cs ([], s)) as [ids s1]] end.
  { clear. intros l. induction l as [|it l IH]; intros ids s HI H; simpl; [done|].
    pose proof (inv_retryItem (id_ it) s HI) as H1. pose proof (send_retryItem (id_ it) s HI H) as H2.
    destruct (retryItem (id_ it) s) as [ok s']. by apply IH. }
  simpl in Hfold. case_match; [done|]. by apply send_startHost.
Qed.

Lemma send_perm l l' : l' ≡ₚ l -> send_ok l -> send_ok l'.
Proof. intros Hp H it Hit. setoid_rewrite Hp. apply H. by rewrite <-Hp. Qed.

Lemma send_addItem input i tx s : send_ok (items s) -> send_ok (items (addItem input i tx s)).
Proof.
  intros H it. simpl. rewrite elem_of_app, list_elem_of_singleton. intros [Hit| ->] _; [|done].
  intros Hp Hs. destruct (H it Hit I Hp Hs) as (jt & ? & ?). exists jt. split; [set_solver|done].
Qed.

Definition keeps_hand_back (a : Action) : Prop :=
  match a with ACancelInstallEnd _ _ _ | AInstallFound _ _ _ _ => False | _ => True end.

Lemma send_exec env a s : 0 < now env -> Inv s -> allowed s a -> keeps_hand_back a ->
  send_ok (items s) -> send_ok (items (exec env a s)).
Proof.
  intros Hnow HI Ha Hk H.
  destruct a; simpl in Ha, Hk |- *; try done; try (unfold guarded; case_match; [|done]); try done.
  - by apply send_addItem.
  - unfold enqueueInstall. case_match; [done|]. simpl. unfold startAdded.
    case_match; [apply send_startHost|]; by apply send_addItem.
  - unfold startAdded. case_match; [by apply send_startHost|done].
  - unfold remove. case_match eqn:E; [|done]. by apply send_remove.
  - by apply send_cancelItem.
  - by apply send_pauseItem.
  - by apply send_resumeItem.
  - by apply send_sendNow.
  - unfold noteSourceSize. repeat case_match; try done.
    apply send_patch_status; [done|keep_send|keep_status|done].
  - eapply send_perm; [apply moveItemUp_perm|done].
  - eapply send_perm; [apply moveItemDown_perm|done].
  - eapply send_perm; [apply moveItemTo_perm|done].
  - by apply send_clear.
  - by apply send_startHost.
  - by apply send_start_pass.
  - by apply send_stopHost.
  - unfold stop. simpl. apply send_fold; [|done..]. intros.
    split; [by apply inv_stopHost|by apply send_stopHost].
  - by apply send_retryFailed.
  - unfold restartItem. repeat case_match; try done. rewrite items_restartAfterStop.
    by apply send_stopHost.
  - by apply send_retryItem.
  - by apply send_retryInstall.
  - by apply send_resumeFailed.
  - by apply send_start_pass.
  - unfold restart_ready, guarded. simpl. repeat case_match; try done; by apply send_startHost.
  - by apply send_loop_event.
  - unfold reattached. simpl. repeat case_match; try done.
    apply (send_patch_status _ _ s); [done|keep_send|keep_status|done].
  - apply send_fold; [|done..]. intros. split; [by apply inv_startHost|by apply send_startHost].
Qed.
