(* ===== verification/QueueProps.v ===== *)
(** The upload queue's properties: exclusivity of a console's transfer, what Stop, Send now,
    recovery, saving and loading do, and the windows in which the runner does not keep its
    comments' promises. *)
From S2P Require Import Prelude Addr QueueOps UploadRecovery UploadQueue QueueStore QueueInv QueueSend.

(** * Exclusivity *)

(** C1: in a tab that runs the queue from its start ([run]: the saved queue loaded once, no other tab's
    queue shown, the lease neither taken over nor lost), however the user's actions and the loops'
    resumptions interleave, a console never has two uploads running: a running upload's console is
    marked running, its one live drain loop is attempting exactly that row, and no other row of the
    console is an upload running. (A tab that shows another's queue and takes it over is
    [takeover_leaves_console_stuck].) *)
Theorem one_upload_per_console (s : Store) (it : QueueItem) :
  run s -> it ∈ items s -> upload_running it = true ->
  (exists g l n, hostGen s !! host_of it = Some g /\ loops s !! g = Some l /\ l_host l = host_of it
     /\ phase_run (l_phase l) = Some n /\ id_ n = id_ it) /\
  host_of it ∈ runningHosts s /\
  forall jt, jt ∈ items s -> upload_running jt = true -> host_of jt = host_of it -> jt = it.
Proof.
  intros HI%run_inv Hit Hu. pose proof (inv_sys _ HI) as [_ _ S3 S4 _].
  destruct (row_owned _ _ (inv_rows _ HI _ Hit) Hu) as (g & l & n & Hg & Hl & Hn & Hid).
  split_and!.
  - exists g, l, n. split_and!; eauto.
  - apply S4. eauto.
  - intros jt Hjt Hju Hh. by eapply upload_unique.
Qed.

(** a console is marked running exactly when it has a live drain loop, and it has at most one:
    Start never adds a second loop and no loop ends without clearing the mark. *)
Theorem running_mark_is_live_loop (s : Store) (h : str) :
  run s ->
  (h ∈ runningHosts s <-> exists g l, loops s !! g = Some l /\ l_host l = h /\ isLive h g s = true) /\
  forall g l g' l', loops s !! g = Some l -> loops s !! g' = Some l' -> l_host l = h -> l_host l' = h ->
    isLive h g s = true -> isLive h g' s = true -> g = g'.
Proof.
  intros HI%run_inv. pose proof (inv_sys _ HI) as [_ _ S3 S4 _]. unfold isLive.
  setoid_rewrite bool_decide_eq_true. split; [|naive_solver congruence].
  rewrite S4. naive_solver.
Qed.

(** a paused row is not running and not at its install, and no live loop has it in hand; so
    nothing but Resume (or the end of the Send now that paused it) runs it. *)
Theorem paused_row_waits (s : Store) (it : QueueItem) :
  run s -> it ∈ items s -> is_paused it = true ->
  status it <> Running /\ isInstallWork it = false /\
  forall g l n, loops s !! g = Some l -> isLive (l_host l) g s = true ->
    phase_next (l_phase l) = Some n -> id_ n <> id_ it.
Proof.
  intros HI%run_inv Hit Hp. destruct (inv_rows _ HI _ Hit) as [R1 R2 R3 R4 R5].
  destruct (R2 Hp) as [Hs Hw]. split_and!; [naive_solver congruence|done|].
  intros g l n Hl Hlive Hn Hid. unfold isLive in Hlive. bool_prop.
  destruct (R4 g l n Hl Hn Hid) as [_ H']. rewrite H' in Hp; done.
Qed.

(** * Stop *)

(** Stop on a console puts its running upload back in line and changes no other row: not a
    running install, not another console's.  Its loop is no longer live while every other
    console's stays so; its engine job is cancelled. *)
Theorem stopHost_effect (s : Store) (host : str) :
  run s -> let h := hostOf host in let s' := stopHost host s in
  items s' = map (fun it => if upload_running it && on_host h it then reset_row it else it) (items s) /\
  (forall it, it ∈ items s' -> upload_running it = true -> host_of it <> h) /\
  runningHosts s' = runningHosts s ∖ {[h]} /\
  (forall g l, loops s !! g = Some l -> isLive h g s' = false) /\
  (forall h' g, h' <> h -> isLive h' g s' = isLive h' g s) /\
  (forall j, runningJobByHost s !! h = Some j -> j <> [] ->
     j ∈ cancelledJobs s' /\ runningJobByHost s' !! h = None).
Proof.
  intros HI%run_inv h s'. destruct (stopHost_sys host s) as (E1 & E2 & E3 & E4 & E5).
  assert (items s' = map (fun it => if upload_running it && on_host h it then reset_row it else it) (items s)) as Hi.
  { subst s'. rewrite stopHost_items. unfold resetRunningToPending. apply map_ext. intros it.
    fold h. unfold upload_running. destruct (is_status Running it), (isInstallWork it), (on_host h it); done. }
  split_and!; [exact Hi| |exact E5| | |].
  - intros it. rewrite Hi, elem_of_map. intros (x & -> & _). case_match eqn:E; [done|].
    intros Hu Hh. rewrite Hu in E. unfold on_host in E. rewrite bool_decide_eq_true_2 in E; done.
  - intros g l Hl. subst s' h. unfold isLive. rewrite E4, lookup_insert_eq.
    apply bool_decide_eq_false. intros [= <-]. pose proof (sys_gen _ (inv_sys _ HI) _ _ Hl). lia.
  - intros h' g Hne. subst s' h. unfold isLive. by rewrite E4, lookup_insert_ne.
  - intros j Hj Hne. subst s' h. unfold stopHost, cancel_running_job. rewrite Hj.
    destruct j as [|c j]; [done|]. simpl. split; [set_solver|]. by rewrite lookup_delete_eq.
Qed.

(** a loop stopped while it waits, backs off or polls an upload changes no row's status when
    it resumes, whatever it was waiting for gives it, and marks no console: it is simply gone. *)
Theorem stopped_loop_is_inert (env : Env) (s : Store) (g : Z) (l : Loop) (ev : LoopEvent) :
  run s -> loops s !! g = Some l -> isLive (l_host l) g s = false ->
  match l_phase l with
  | Preflight | WaitInstall | Retake _ | Settle _ | Heal _ _ => ev = EvDone
  | Backoff _ _ _ _ => ev = EvTick
  | Starting n _ => (exists j, ev = EvJob j) \/ (exists f, ev = EvErr f)
  | Polling n _ _ => (exists a b c d, ev = EvProgress a b c d) \/ (exists d, ev = EvUploaded d)
                     \/ (exists f, ev = EvErr f)
  | _ => False
  end ->
  (forall n, phase_run (l_phase l) = Some n -> isInstallWork (row (id_ n) s ?? n) = false) ->
  let s' := loop_event env g ev s in
  items s' = items s /\ runningHosts s' = runningHosts s /\ hostGen s' = hostGen s
  /\ loops s' = delete g (loops s).
Proof.
  intros _ Hl Hd Hph Hw s'. subst s'. unfold loop_event. rewrite Hl.
  assert (forall s0, loops s0 = loops s -> items s0 = items s -> runningHosts s0 = runningHosts s ->
    hostGen s0 = hostGen s ->
    items (end_loop env g l s0) = items s /\ runningHosts (end_loop env g l s0) = runningHosts s
    /\ hostGen (end_loop env g l s0) = hostGen s /\ loops (end_loop env g l s0) = delete g (loops s)) as Hend.
  { intros s0 E1 E2 E3 E4. unfold end_loop, isLive in *. simpl. rewrite E4, Hd. simpl.
    by rewrite ?E1, ?E2, ?E3, ?E4. }
  assert (forall n a f s0, phase_run (l_phase l) = Some n -> loops s0 = loops s ->
    items s0 = items s -> runningHosts s0 = runningHosts s -> hostGen s0 = hostGen s ->
    run_failed env g l n a f s0 = end_loop env g l s0) as Hfail.
  { intros n a f s0 Hn E1 E2 E3 E4. unfold run_failed, isLive, row in *. rewrite E2, E4, Hd.
    by rewrite (Hw n Hn). }
  destruct (l_phase l) as [| | |n|n|n a|n a|n a j|n a|n a|n a|n a w f|n a] eqn:Hp; try done;
    cbn [phase_run] in Hfail.
  - subst ev. unfold drain_top. rewrite Hd. by apply Hend.
  - subst ev. unfold drain_top. rewrite Hd. by apply Hend.
  - subst ev. unfold after_retake. rewrite Hd. by apply Hend.
  - subst ev. rewrite Hd. by apply Hend.
  - destruct Hph as [[j ->]|[f ->]].
    + unfold job_started. rewrite Hd. cbn [negb]. rewrite Hfail; [|done..]. by apply Hend.
    + rewrite Hfail; [|done..]. by apply Hend.
  - destruct Hph as [(? & ? & ? & ? & ->)|[[? ->]|[? ->]]]; rewrite Hd; cbn [negb];
      (rewrite Hfail; [|done..]); by apply Hend.
  - subst ev. rewrite Hd. by apply Hend.
  - subst ev. rewrite Hd. by apply Hend.
Qed.

(** * Send now *)

(** The runs in which no install ends behind the drain loop's back: the clock is past 1970, and
    the actions are all but the end of a stopped install and of one found after a reload. *)
Inductive steady : Store -> Prop :=
  | steady_init : steady init
  | steady_boot env mint doc cont : doc_ok doc -> send_ok (items (hydrate env mint doc cont init)) ->
      steady (hydrate env mint doc cont init)
  | steady_step env a s : steady s -> 0 < now env -> allowed s a -> keeps_hand_back a ->
      steady (exec env a s).

Lemma steady_run s : steady s -> run s /\ send_ok (items s).
Proof.
  induction 1 as [|env mint doc cont Hd Hs|env a s _ [IH1 IH2] Hn Ha Hk].
  - split; [constructor|]. intros it Hit. set_solver.
  - split; [by constructor|done].
  - split; [by apply run_step|]. apply send_exec; try done. by apply run_inv.
Qed.


(** when the rows sent now on a console are all done or failed, [settleSendNow] puts every
    upload they paused back in line and clears their marks; while one is still to run it only
    clears marks.  It touches no other console's rows, and a limited run is widened to exactly
    the rows put back. *)
Theorem settleSendNow_spec (s : Store) (h : str) :
  let '(resumed, s') := settleSendNow h s in
  let live := existsb (sent_live h) (items s) in
  length (items s') = length (items s) /\
  (forall k it, items s !! k = Some it -> exists it', items s' !! k = Some it' /\
     id_ it' = id_ it /\ status it' = status it /\
     (host_of it <> h -> it' = it) /\
     (host_of it = h ->
        is_sent it' = is_sent it && negb (is_status Done it || is_status Failed it) /\
        (paused it = Some BySendNow -> status it = Pending -> paused it' = if live then paused it else None) /\
        (paused it <> Some BySendNow -> paused it' = paused it))) /\
  (forall i, i ∈ resumed <-> live = false /\ exists it, it ∈ items s /\ id_ it = i /\ host_of it = h
     /\ paused it = Some BySendNow /\ status it = Pending) /\
  (forall sc, runScope s !! h = Some sc -> exists sc', runScope s' !! h = Some sc'
     /\ sc_installs sc' = sc_installs sc /\ sc_ids sc' = sc_ids sc ++ resumed).
Proof.
  unfold settleSendNow. set (live := existsb (sent_live h) (items s)).
  set (s' := match runScope _ !! h with Some _ => _ | None => _ end).
  assert (items s' = map (settle_row h live) (items s)) as Hi by (subst s'; by case_match).
  split_and!.
  - by rewrite Hi, length_map.
  - intros k it Hk. exists (settle_row h live it). split; [by rewrite Hi, list_lookup_fmap, Hk|].
    unfold settle_row, on_host, is_sent, sent_at, is_status.
    destruct (decide (host_of it = h)) as [E|E];
      [rewrite (bool_decide_eq_true_2 _ E)|rewrite (bool_decide_eq_false_2 _ E)]; cbn [negb]; [|by split_and!].
    destruct (sendNowAt it) as [[|z|z]|] eqn:Es, (paused it) as [[]|] eqn:Ep, (status it) eqn:Est, live;
      simpl; rewrite ?Es, ?Ep, ?Est; by split_and!.
  - intros i. rewrite elem_of_map. setoid_rewrite list_elem_of_In at 1. setoid_rewrite filter_In.
    setoid_rewrite <-list_elem_of_In. unfold settle_resumed, on_host, is_status. split.
    + intros (it & -> & Hit & Hc). bool_prop. split; [done|]. eauto 10.
    + intros (Hl & it & Hit & Hid & Hh & Hp & Hs). exists it. split; [done|]. split; [done|].
      rewrite (bool_decide_eq_true_2 _ Hh), (bool_decide_eq_true_2 _ Hp), (bool_decide_eq_true_2 _ Hs).
      fold live. rewrite Hl, !(bool_decide_eq_false_2 (status it = _)) by congruence.
      by rewrite andb_false_r.
  - intros sc Hsc. subst s'. simpl. rewrite Hsc. simpl. rewrite lookup_insert_eq. eauto.
Qed.

(** How the rows of [s'] come from those of [s]: nothing Send now reads changes, but a row may be
    stopped, and the stopped one paused. *)
Definition derives (x x' : QueueItem) : Prop :=
  id_ x' = id_ x /\ host_of x' = host_of x /\ sendNowAt x' = sendNowAt x
  /\ isInstallWork x' = isInstallWork x.

Lemma startHost_items env host o s :
  exists W, items (startHost env host o s) = map W (items s)
    /\ forall x, W x = x \/ W x = x <| waitingForWake := false |>.
Proof.
  unfold startHost. set (s1 := if negb (is_limited o) && _ then _ else s).
  assert (items s1 = items s) as E1 by (subst s1; by case_match). clearbody s1.
  case_bool_decide.
  - exists id. rewrite map_id. split; [repeat case_match; done|auto].
  - set (s2 := if is_limited o then _ else _).
    assert (items s2 = items s1) as E2 by (subst s2; by case_match). clearbody s2.
    eexists. unfold markLimited, bump_gen. simpl. rewrite E2, E1. split; [done|].
    intros x. simpl. case_match; auto.
Qed.

(** The pick when exactly one row of the console was sent now and may run. *)
Lemma next_is_sole_sent l h i x : x ∈ l -> eligible h x -> is_sent x = true -> id_ x = i ->
  (forall y, y ∈ l -> eligible h y -> is_sent y = true -> id_ y = i) ->
  exists r, nextPendingForHost l h = Some r /\ id_ r = i.
Proof.
  intros Hx He Hs Hi Hall. pose proof (nextPendingForHost_spec l h) as H.
  destruct (nextPendingForHost l h) as [r|]; [|by destruct (H x)].
  exists r. split; [done|]. destruct H as (Hr & Her & [[Hrs _]|[Hno _]]); [by apply Hall|].
  specialize (Hno x Hx He). congruence.
Qed.

(** The rows a Send now leaves, from those it found with the row [i] marked. *)
Lemma sendNow_pick s1 s' h i x : x ∈ items s1 -> id_ x = i -> eligible h x -> is_sent x = true ->
  (forall y, y ∈ items s1 -> host_of y = h -> is_sent y = true -> id_ y = i) ->
  (forall y', y' ∈ items s' -> exists y, y ∈ items s1 /\ derives y y') ->
  (exists x', x' ∈ items s' /\ derives x x' /\ status x' = status x /\ paused x' = paused x) ->
  exists r, nextPendingForHost (items s') h = Some r /\ id_ r = i.
Proof.
  intros Hx Hi (He1 & He2 & He3) Hs Hall Hd (x' & Hx' & (D1 & D2 & D3 & _) & D5 & D6).
  apply (next_is_sole_sent _ _ _ x'); [done| | |congruence|].
  - split_and!; congruence.
  - unfold is_sent, sent_at in *. by rewrite D3.
  - intros y' Hy' (_ & _ & Hh) Hys. destruct (Hd y' Hy') as (y & Hy & (E1 & E2 & E3 & _)).
    rewrite E1. apply Hall; [done|congruence|]. unfold is_sent, sent_at in *. by rewrite <-E3.
Qed.

Lemma derives_refl x : derives x x.
Proof. by split_and!. Qed.

(** Pausing the running upload [f] for a Send now: its row waits, paused; every other row of its
    console that is not a running upload is as it was; no upload runs there. *)
Lemma pause_effect s f also : Inv s -> f ∈ items s -> canPauseItem f = true ->
  let s' := pauseRunning f BySendNow also s in
  (forall y', y' ∈ items s' -> exists y, y ∈ items s /\ derives y y') /\
  (forall y, y ∈ items s -> status y = Pending -> y ∈ items s') /\
  (forall y', y' ∈ items s' -> host_of y' = host_of f -> upload_running y' = false) /\
  exists f', f' ∈ items s' /\ id_ f' = id_ f /\ paused f' = Some BySendNow /\ status f' = Pending.
Proof.
  intros HI Hf Hc s'. pose proof (canPause_running f Hc) as Hu.
  pose proof (row_canon _ _ (inv_rows _ HI _ Hf)) as Hcan.
  set (R := fun x => if is_status Running x && (on_host (host_of f) x && negb (isInstallWork x))
                     then reset_row x else x).
  set (P := fun x => if has_id id_ (id_ f) x then x <| paused := Some BySendNow |> else x).
  assert (items s' = map P (map R (items s))) as Hi.
  { subst s'. unfold pauseRunning. rewrite items_restartAfterStop.
    rewrite patch_items by apply inv_stopHost, HI. by rewrite stopHost_items, Hcan. }
  rewrite map_map in Hi. setoid_rewrite Hi. setoid_rewrite elem_of_map.
  assert (forall x, derives x (P (R x))) as HD.
  { intros x. unfold P, R, derives. destruct (is_status Running x && _); case_match; by split_and!. }
  assert (forall x, id_ (R x) = id_ x) as HR by (intros x; unfold R; by case_match).
  split_and!.
  - intros y' (y & -> & Hy). eauto.
  - intros y Hy Hp. exists y. split; [|done]. unfold P, R, is_status. rewrite Hp. simpl.
    unfold has_id. case_bool_decide as Hid; [|done].
    assert (y = f) as -> by (eapply id_unique; [apply HI|done..]).
    unfold upload_running, is_status in Hu. by rewrite Hp in Hu.
  - intros y' (y & -> & Hy) Hh. destruct (HD y) as (_ & Dh & _). rewrite Dh in Hh.
    assert (upload_running (R y) = false) as Hr.
    { unfold R. destruct (is_status Running y && _) eqn:E; [done|].
      unfold on_host in E. rewrite (bool_decide_eq_true_2 _ Hh) in E. exact E. }
    unfold P. case_match; [|done]. exact Hr.
  - exists (P (R f)). split; [eauto|]. split; [by destruct (HD f)|].
    unfold upload_running in Hu.
    assert (R f = reset_row f) as ->.
    { unfold R, on_host. rewrite bool_decide_eq_true_2 by done. bool_prop. by rewrite H, H0. }
    unfold P, has_id. rewrite bool_decide_eq_true_2 by done. done.
Qed.

(** after Send now on a waiting row, with no other row sent now and no install running on its
    console, that row is the next the console runs, and the upload that ran there, if it could
    be paused, waits in line marked as paused by the Send now; an upload still running there is
    one that could not be. *)
Theorem sendNow_runs_next (env : Env) (s : Store) (i : str) (it : QueueItem) :
  run s -> 0 < now env -> row i s = Some it -> status it = Pending -> paused it = None ->
  (forall jt, jt ∈ items s -> host_of jt = host_of it -> is_sent jt = true -> id_ jt = i) ->
  (forall jt, jt ∈ items s -> host_of jt = host_of it -> status jt = Running ->
     isInstallWork jt = false) ->
  let s' := sendNow env i s in
  (exists it', nextPendingForHost (items s') (host_of it) = Some it' /\ id_ it' = i) /\
  (forall jt, jt ∈ items s -> host_of jt = host_of it -> canPauseItem jt = true ->
     (exists jt', jt' ∈ items s' /\ id_ jt' = id_ jt /\ paused jt' = Some BySendNow /\ status jt' = Pending)
     /\ forall jt', jt' ∈ items s' -> host_of jt' = host_of it -> upload_running jt' = false).
Proof.
  intros HI%run_inv Hnow Hr Hps Hpz Hsole Hnoi s'. pose proof (row_Some _ _ _ Hr) as [Hit Hid].
  assert (negb (is_status Pending it) || is_paused it = false) as Hgo
    by (unfold is_status, is_paused; by rewrite Hps, Hpz).
  subst s'. unfold sendNow. rewrite Hr, Hgo. clear Hgo.
  set (f := fun r : QueueItem => r <| sendNowAt := _ |>). set (s1 := patch i f s).
  assert (Inv s1) as HI1 by (apply inv_patch_neutral; [done|subst f; is_neutral]).
  assert (items s1 = map (fun y => if has_id id_ i y then f y else y) (items s)) as Hi1
    by apply patch_items, HI.
  assert (f it ∈ items s1) as Hfit.
  { rewrite Hi1, elem_of_map. exists it. split; [|done]. unfold has_id. by rewrite bool_decide_eq_true_2. }
  assert (is_sent (f it) = true) as Hsent by (eapply is_sent_pos; [done|by apply send_at_pos]).
  assert (eligible (host_of it) (f it)) as Hel by done.
  assert (forall y, y ∈ items s1 -> exists x, x ∈ items s /\ id_ y = id_ x /\ host_of y = host_of x
      /\ (id_ x <> i -> y = x) /\ status y = status x /\ isInstallWork y = isInstallWork x) as Hback.
  { intros y. rewrite Hi1, elem_of_map. intros (x & -> & Hx). exists x. split; [done|].
    unfold has_id. by case_bool_decide; split_and!. }
  assert (forall y, y ∈ items s1 -> host_of y = host_of it -> is_sent y = true -> id_ y = i) as Hsole1.
  { intros y Hy Hh Hys. destruct (Hback y Hy) as (x & Hx & E1 & E2 & E3 & _).
    destruct (decide (id_ x = i)); [congruence|]. rewrite (E3 n) in *. by apply Hsole. }
  assert (forall jt, jt ∈ items s -> host_of jt = host_of it -> canPauseItem jt = true ->
    jt ∈ items s1 /\ id_ jt <> i) as Hup.
  { intros jt Hjt Hh Hc%canPause_running.
    assert (id_ jt <> i) as Hne.
    { intros Hji. assert (jt = it) as -> by (eapply row_unique; [apply HI|done..]).
      unfold upload_running, is_status in Hc. by rewrite Hps in Hc. }
    split; [|done]. rewrite Hi1, elem_of_map. exists jt. split; [|done].
    unfold has_id. by rewrite bool_decide_eq_false_2. }
  assert (forall s2, (exists W, items s2 = map W (items s1) /\
      forall x, W x = x \/ W x = x <| waitingForWake := false |>) ->
    exists it', nextPendingForHost (items s2) (host_of it) = Some it' /\ id_ it' = i) as HB.
  { intros s2 (W & HW & HWx). apply (sendNow_pick s1 s2 _ i (f it)); try done.
    - intros y'. rewrite HW, elem_of_map. intros (y & -> & Hy). exists y. split; [done|].
      destruct (HWx y) as [-> | ->]; [apply derives_refl|by split_and!].
    - exists (W (f it)). rewrite HW, elem_of_map. split; [eauto|].
      destruct (HWx (f it)) as [-> | ->]; by split_and!. }
  assert (forall o, exists it', nextPendingForHost (items (match joinPendingRestart (host_of it) i s1 with
      Some s2 => s2 | None => startHost env (host_of it) o s1 end)) (host_of it) = Some it' /\ id_ it' = i) as HB'.
  { intros o. apply HB. destruct (joinPendingRestart (host_of it) i s1) as [s2|] eqn:Ej.
    - apply join_shape in Ej as [E _]. exists id. rewrite E, map_id. auto.
    - apply startHost_items. }
  destruct (find_first _ (items s1)) as [g|] eqn:Ef.
  - apply find_first_Some in Ef as [Hg Hgc]. apply andb_true_iff in Hgc as [Hgr Hgh].
    unfold is_status in Hgr. unfold on_host in Hgh. bool_prop.
    destruct (Hback g Hg) as (x & Hx & E1 & E2 & E3 & E4 & E5).
    assert (id_ x <> i) as Hxi.
    { intros Hxi. assert (x = it) as -> by (eapply row_unique; [apply HI|done..]). congruence. }
    rewrite (E3 Hxi) in *. clear E1 E2 E3 E4 E5.
    assert (is_sent x = false) as Hxs.
    { apply not_true_is_false. intros Hxs. by apply Hxi, Hsole. }
    rewrite Hxs. cbn [negb]. rewrite andb_true_r.
    destruct (canPauseItem x) eqn:Hc.
    + destruct (pause_effect s1 x [i] HI1 Hg Hc) as (P1 & P2 & P3 & P4). split.
      * apply (sendNow_pick s1 _ _ i (f it)); try done.
        exists (f it). split; [by apply P2|]. split; [apply derives_refl|done].
      * intros jt Hjt Hh Hjc.
        assert (jt = x) as ->; [|split; [exact P4|rewrite <-Hgh; exact P3]].
        eapply upload_unique; [exact HI|done..| | |congruence]; by apply canPause_running.
    + split; [apply HB'|]. intros jt Hjt Hh Hjc. exfalso.
      assert (jt = x) as ->; [|congruence].
      eapply upload_unique; [exact HI|done..| |by apply canPause_running|congruence].
      unfold upload_running, is_status. rewrite (Hnoi x Hx Hgh Hgr), Hgr. done.
  - split; [apply HB'|]. intros jt Hjt Hh Hjc. exfalso. destruct (Hup jt Hjt Hh Hjc) as [Hj1 _].
    rewrite find_first_None in Ef. specialize (Ef jt Hj1).
    apply canPause_running in Hjc. unfold upload_running in Hjc. bool_prop.
    unfold on_host in Ef. rewrite H, bool_decide_eq_true_2 in Ef; done.
Qed.

(** * Recovery *)

(** What a loop's phase may count: attempts and the time waited. *)
Definition phase_bounded (p : Phase) : Prop :=
  match p with
  | Locking _ a | Starting _ a | Polling _ a _ | Finishing _ a | WaitTurn _ a | Installs _ a
  | Heal _ a => 0 <= a <= MAX_AUTO_RECOVER_ATTEMPTS
  | Backoff _ a w _ => 1 <= a <= MAX_AUTO_RECOVER_ATTEMPTS
      /\ (w = 0 \/ 0 <= w < autoRecoverBackoffMs (a - 1))
  | _ => True
  end.
Definition loops_bounded (s : Store) : Prop :=
  forall g l, loops s !! g = Some l -> phase_bounded (l_phase l).

(** A change that adds no loop but one that has just started. *)
Definition grows (s s' : Store) : Prop :=
  forall g l, loops s' !! g = Some l -> loops s !! g = Some l \/ l_phase l = Hold.

Lemma grows_refl s s' : loops s' = loops s -> grows s s'.
Proof. intros E g l. rewrite E. auto. Qed.
Lemma grows_trans s1 s2 s3 : grows s1 s2 -> grows s2 s3 -> grows s1 s3.
Proof. intros H1 H2 g l [H|H]%H2; [by apply H1|by right]. Qed.
Lemma grows_bounded s s' : grows s s' -> loops_bounded s -> loops_bounded s'.
Proof. intros H Hb g l [Hl| ->]%H; [by eapply Hb|done]. Qed.

Lemma grows_settle h s : grows s (snd (settleSendNow h s)).
Proof. apply grows_refl. by destruct (settle_shape h s) as [_ (? & _)]. Qed.
Lemma grows_stopHost h s : grows s (stopHost h s).
Proof. apply grows_refl. by destruct (stopHost_sys h s) as (? & _). Qed.
Lemma grows_restartAfterStop h o s : grows s (restartAfterStop h o s).
Proof. apply grows_refl. unfold restartAfterStop. by case_match. Qed.

Lemma grows_startHost env h o s : grows s (startHost env h o s).
Proof.
  unfold startHost. set (s1 := if negb (is_limited o) && _ then _ else s).
  assert (loops s1 = loops s) as E1 by (subst s1; by case_match). clearbody s1.
  case_bool_decide; [apply grows_refl; repeat case_match; done|].
  set (s2 := if is_limited o then _ else _).
  assert (loops s2 = loops s1) as E2 by (subst s2; by case_match). clearbody s2.
  unfold markLimited, bump_gen. intros g l. simpl. rewrite E2, E1.
  intros [[_ <-]|[_ ?]]%lookup_insert_Some; auto.
Qed.

Lemma grows_fold {A} (f : Store -> A -> Store) l s :
  (forall s x, grows s (f s x)) -> grows s (fold_left f l s).
Proof.
  intros H. revert s. induction l as [|x l IH]; intros s; [by apply grows_refl|].
  eapply grows_trans; [apply H|apply IH].
Qed.

Create HintDb grow.
#[local] Hint Resolve grows_settle grows_stopHost grows_restartAfterStop grows_startHost : grow.
#[local] Hint Extern 5 (grows _ _) => apply grows_refl; reflexivity : grow.

Lemma grows_pauseRunning it why also s : grows s (pauseRunning it why also s).
Proof.
  unfold pauseRunning. set (s1 := patch _ _ (stopHost _ s)).
  assert (grows s s1) as H1 by apply grows_stopHost. destruct why.
  - destruct (settleSendNow (host_of it) s1) as [r s2] eqn:E.
    eapply grows_trans; [exact H1|]. eapply grows_trans; [|apply grows_restartAfterStop].
    change s2 with (snd (r, s2)). rewrite <-E. auto with grow.
  - eapply grows_trans; [exact H1|]. auto with grow.
Qed.

Lemma grows_join env h i o s :
  grows s (match joinPendingRestart h i s with Some s2 => s2 | None => startHost env h o s end).
Proof.
  destruct (joinPendingRestart h i s) as [s2|] eqn:E; [|auto with grow].
  apply join_shape in E as [_ (? & _)]. by apply grows_refl.
Qed.

Lemma grows_retryItem i s : grows s (snd (retryItem i s)).
Proof. apply grows_refl. unfold retryItem. by repeat case_match. Qed.

Lemma grows_resumeFailed env h s : grows s (resumeFailedRecoverable env h s).
Proof.
  unfold resumeFailedRecoverable. case_match; [by apply grows_refl|].
  match goal with |- context [fold_left ?f ?cs ([], s)] =>
    assert (forall l ids s, grows s (snd (fold_left f l (ids, s)))) as Hf;
    [|specialize (Hf cs [] s); destruct (fold_left f cs ([], s)) as [ids s1]] end.
  { clear. intros l. induction l as [|it l IH]; intros ids s; simpl; [by apply grows_refl|].
    pose proof (grows_retryItem (id_ it) s) as H. destruct (retryItem (id_ it) s) as [ok s'].
    eapply grows_trans; [exact H|apply IH]. }
  simpl in Hf. case_match; [done|]. eapply grows_trans; [exact Hf|auto with grow].
Qed.

Lemma grows_clear h s : grows s (clear h s).
Proof.
  unfold clear. apply (grows_trans _ (fold_left (fun s rh =>
    if bool_decide (hostOf <$> h = None \/ hostOf <$> h = Some rh) then stop_quietly rh s else s)
    (elements (runningHosts s)) s)); [|by apply grows_refl].
  apply grows_fold. intros s0 x. apply grows_refl. unfold stop_quietly, cancel_running_job.
  by repeat case_match.
Qed.

Lemma grows_exec env a s : (forall g ev, a <> ALoop g ev) -> allowed s a -> grows s (exec env a s).
Proof.
  intros Hne Ha. destruct a; simpl in Ha |- *; try done;
    try (unfold guarded; case_match; [|by apply grows_refl]); try (by auto with grow).
  - unfold enqueueInstall, startAdded. repeat case_match; try (by apply grows_refl).
    eapply grows_trans; [|apply grows_startHost]. by apply grows_refl.
  - unfold startAdded. case_match; auto with grow.
  - unfold remove. case_match; [|by apply grows_refl].
    eapply grows_trans; [|apply grows_settle]. by apply grows_refl.
  - unfold cancelItem. repeat case_match; try (by apply grows_refl);
      try (eapply grows_trans; [|apply grows_settle]; by apply grows_refl).
    + eapply grows_trans; [apply grows_stopHost|]. eapply grows_trans; [|apply grows_restartAfterStop].
      eapply grows_trans; [|apply grows_settle]. by apply grows_refl.
    + eapply grows_trans; [apply grows_stopHost|]. eapply grows_trans; [|apply grows_settle].
      by apply grows_refl.
  - unfold pauseItem. repeat case_match; try (by apply grows_refl). apply grows_pauseRunning.
  - unfold resumeItem. case_match; [|by apply grows_refl]. case_match; [by apply grows_refl|].
    eapply grows_trans; [|apply grows_join]. by apply grows_refl.
  - unfold sendNow. case_match; [|by apply grows_refl]. case_match; [by apply grows_refl|].
    set (s1 := patch i _ s). assert (grows s s1) as Hs1 by by apply grows_refl.
    destruct (find_first _ (items s1)) as [r|]; [destruct (canPauseItem r && _)|];
      (eapply grows_trans; [exact Hs1|]); first [apply grows_pauseRunning|apply grows_join].
  - unfold noteSourceSize. repeat case_match; by apply grows_refl.
  - apply grows_clear.
  - apply grows_fold. auto with grow.
  - unfold stop. eapply grows_trans; [apply grows_fold with (f := fun s h => stopHost h s)|by apply grows_refl].
    auto with grow.
  - unfold retryFailed. set (s1 := set_items _ s). apply (grows_trans _ s1); [by apply grows_refl|].
    clearbody s1. case_match; [apply grows_startHost|]. apply grows_fold. auto with grow.
  - unfold restartItem. repeat case_match; try (by apply grows_refl).
    eapply grows_trans; [apply grows_stopHost|auto with grow].
  - apply grows_retryItem.
  - unfold retryInstall. repeat case_match; try (by apply grows_refl).
    eapply grows_trans; [|apply grows_startHost]. by apply grows_refl.
  - apply grows_resumeFailed.
  - apply grows_fold. auto with grow.
  - unfold restart_ready, guarded. repeat case_match; try (by apply grows_refl);
      (eapply grows_trans; [|apply grows_startHost]; by apply grows_refl).
  - unfold cancel_install_end, guarded. repeat case_match; try (by apply grows_refl);
      (eapply grows_trans; [|apply grows_startHost]; by apply grows_refl).
  - by destruct (Hne g ev).
  - unfold reattached. repeat case_match; by apply grows_refl.
  - apply grows_fold. auto with grow.
  - unfold install_found, leave_in_flight. repeat case_match; by apply grows_refl.
Qed.

Lemma bounded_set s g l p : loops_bounded s -> phase_bounded p -> loops_bounded (set_phase g l p s).
Proof. intros H Hp g' l'. simpl. intros [[_ <-]|[_ ?]]%lookup_insert_Some; [done|by eapply H]. Qed.

Lemma bounded_end env s s0 g l : loops_bounded s -> loops s0 = loops s -> loops_bounded (end_loop env g l s0).
Proof.
  intros H E g' l'. assert (loops (end_loop env g l s0) = delete g (loops s)) as ->.
  { unfold end_loop. rewrite <-E. by repeat case_match. }
  intros [_ ?]%lookup_delete_Some. by eapply H.
Qed.

Lemma bounded_drain env s s0 g l : loops_bounded s -> loops s0 = loops s -> loops_bounded (drain_top env g l s0).
Proof.
  intros H E. unfold drain_top. assert (loops_bounded s0) as H0 by (intros g' l'; rewrite E; apply H).
  repeat case_match; try (by eapply bounded_end); by apply bounded_set.
Qed.

Lemma bounded_run_failed env s s0 g l n a f : loops_bounded s -> loops s0 = loops s ->
  0 <= a <= MAX_AUTO_RECOVER_ATTEMPTS -> loops_bounded (run_failed env g l n a f s0).
Proof.
  intros H E Ha. unfold run_failed.
  assert (forall h s1, loops s1 = loops s0 -> loops (snd (settleSendNow h s1)) = loops s) as Hset.
  { intros h s1 Hl. destruct (settle_shape h s1) as [_ (-> & _)]. congruence. }
  assert (loops_bounded s0) as H0 by (intros g' l'; rewrite E; apply H).
  case_match; [by eapply bounded_end|]. case_match; [by eapply bounded_end|].
  case_match eqn:Ec.
  - bool_prop. apply bounded_set; [exact H0|]. simpl. unfold MAX_AUTO_RECOVER_ATTEMPTS in *. lia.
  - repeat case_match; try (eapply bounded_end; [exact H|by apply Hset]);
      try (eapply bounded_end; [exact H|simpl; by apply Hset]); (eapply bounded_drain; [exact H|by apply Hset]).
Qed.

Lemma bounded_run_ok env s s0 g l n r : loops_bounded s -> loops s0 = loops s ->
  loops_bounded (run_ok env g l n r s0).
Proof.
  intros H E. unfold run_ok. eapply bounded_drain; [exact H|].
  match goal with |- loops (snd (settleSendNow ?h ?x)) = _ => destruct (settle_shape h x) as [_ (-> & _)] end.
  done.
Qed.

Lemma bounded_job env s s0 g l n a j : loops_bounded s -> loops s0 = loops s ->
  0 <= a <= MAX_AUTO_RECOVER_ATTEMPTS -> loops_bounded (job_started env g l n a j s0).
Proof.
  intros H E Ha. unfold job_started. case_match; [by eapply bounded_run_failed|].
  apply bounded_set; [|done]. intros g' l'. simpl. rewrite E. apply H.
Qed.

Lemma bounded_loop_event env g ev s : loops_bounded s -> loops_bounded (loop_event env g ev s).
Proof.
  intros H. unfold loop_event. destruct (loops s !! g) as [l|] eqn:Hl; [|done].
  pose proof (H g l Hl) as Hb.
  assert (0 <= 0 <= MAX_AUTO_RECOVER_ATTEMPTS) as H03 by (unfold MAX_AUTO_RECOVER_ATTEMPTS; lia).
  destruct (l_phase l) as [| | |n|n|n a|n a|n a j|n a|n a|n a|n a w f|n a] eqn:Hp;
    destruct ev; simpl in Hb; try done.
  all: unfold after_hold, after_retake, after_lock, uploaded, install_started, begin_item, run_one.
  all: repeat case_match; try done;
    first [by eapply bounded_end|by eapply bounded_drain|by eapply bounded_run_failed
          |by eapply bounded_job|by eapply bounded_run_ok
          |by eapply bounded_run_failed, loops_leave|by eapply bounded_run_ok, loops_leave
          |by apply bounded_set|idtac].
  all: bool_prop; first [eapply bounded_run_failed; [exact H|by rewrite ?loops_leave|done]
    |eapply bounded_run_ok; [exact H|by rewrite ?loops_leave]
    |apply bounded_set; [exact H|simpl; lia]].
Qed.

(** automatic recovery is bounded: whatever fails, and however often, a loop attempts a row it
    picked at most [MAX_AUTO_RECOVER_ATTEMPTS] more times, and the waiting before each of them
    stays below that attempt's backoff; the failure after the last is final. *)
Theorem recovery_is_bounded (env : Env) (s : Store) (g : Z) (l : Loop) :
  run s -> loops s !! g = Some l ->
  phase_bounded (l_phase l) /\
  forall n a f, phase_run (l_phase l) = Some n -> MAX_AUTO_RECOVER_ATTEMPTS <= a ->
    forall l' n' a' w' f', loops (run_failed env g l n a f s) !! g = Some l' ->
      l_phase l' <> Backoff n' a' w' f'.
Proof.
  intros Hrun Hl. split.
  - assert (loops_bounded s) as H; [|by eapply H]. clear Hl. induction Hrun.
    + intros g' l' H. done.
    + intros g' l'. destruct (hydrate_items env0 mint doc cont init) as (_ & -> & _). done.
    + destruct a; try (eapply grows_bounded; [by apply grows_exec|done]). by apply bounded_loop_event.
  - intros n a f Hn Ha l' n' a' w' f'.
    assert (forall s0, loops (end_loop env g l s0) !! g = Some l' -> False) as Hend.
    { intros s0. assert (loops (end_loop env g l s0) = delete g (loops s0)) as ->
        by (unfold end_loop; by repeat case_match). by rewrite lookup_delete_eq. }
    assert (forall s0, loops (drain_top env g l s0) !! g = Some l' -> l_phase l' <> Backoff n' a' w' f') as Hdr.
    { intros s0. unfold drain_top. repeat case_match; try (by intros ?%Hend);
        simpl; rewrite lookup_insert_eq; by intros [= <-]. }
    unfold run_failed. assert ((a <? MAX_AUTO_RECOVER_ATTEMPTS) = false) as -> by lia.
    rewrite andb_false_r. cbn [andb]. repeat case_match; try (by intros ?%Hend); apply Hdr.
Qed.

(** * Installs *)

Lemma not_resumable it : isInstallWork it = true -> canResumeUnattended it = false.
Proof. intros H. unfold canResumeUnattended. by rewrite H, andb_false_r. Qed.

Lemma retryItem_items i s : NoDup (map id_ (items s)) ->
  items (snd (retryItem i s)) =
    map (fun x => if has_id id_ i x && is_status Failed x then retryPatch x else x) (items s).
Proof.
  intros Hnd. unfold retryItem. destruct (row i s) as [it|] eqn:E.
  - pose proof (row_Some _ _ _ E) as [Hit Hid].
    destruct (is_status Failed it) eqn:Ef; cbn [negb]; simpl.
    + apply list_fmap_ext. intros k x Hk. unfold has_id. case_bool_decide as Hx; [|done].
      assert (x = it) as -> by (eapply id_unique; [done|by eapply list_elem_of_lookup_2|done|congruence]).
      by rewrite Ef.
    + symmetry. etransitivity; [|apply map_id]. apply list_fmap_ext. intros k x Hk.
      unfold has_id. case_bool_decide as Hx; [|done].
      assert (x = it) as -> by (eapply id_unique; [done|by eapply list_elem_of_lookup_2|done|congruence]).
      by rewrite Ef.
  - simpl. symmetry. etransitivity; [|apply map_id]. apply list_fmap_ext. intros k x Hk.
    unfold has_id. case_bool_decide as Hx; [|done].
    exfalso. eapply row_None; [exact E|by eapply list_elem_of_lookup_2|done].
Qed.

(** A row no candidate names is left alone by the retries of a reconnect. *)
Lemma retries_keep cs s x : Inv s -> x ∈ items s -> (forall c, c ∈ cs -> id_ c <> id_ x) ->
  forall ids, x ∈ items (snd (fold_left (fun '(ids, s) it =>
        let '(ok, s') := retryItem (id_ it) s in
        (if ok then ids ++ [id_ it] else ids, s')) cs (ids, s))).
Proof.
  revert s. induction cs as [|c cs IH]; intros s HI Hx Hc ids; [done|]. simpl.
  pose proof (retryItem_items (id_ c) s (inv_ids _ HI)) as Hi. pose proof (inv_retryItem (id_ c) s HI) as HI'.
  destruct (retryItem (id_ c) s) as [ok s']. simpl in Hi, HI'. apply IH; [done| |set_solver].
  rewrite Hi, elem_of_map. exists x. split; [|done]. unfold has_id. rewrite bool_decide_eq_false_2; [done|].
  intros Heq. by apply (Hc c); [set_solver|].
Qed.


(** * Saving and loading *)

Definition has_link (it : QueueItem) : bool :=
  match install it with Some (ViaLink _) => true | _ => false end.

Lemma hydrate_row_install env mint it : sourceKind (hydrate_row env mint it) = sourceKind it
  /\ install (hydrate_row env mint it) = install it.
Proof.
  unfold hydrate_row. destruct (isInstallWork it), (is_status Running it), (installJobId it) as [[|]|];
    simpl; destruct (txIdHex it); done.
Qed.

(** a save writes nothing before the saved queue has loaded and nothing on a tab that is not
    the runner; what it writes holds no archive password and no link, and loading it on a fresh
    start gives back every row that is not a link, in order, with its id, destination, order
    fields and resume id: those not running exactly as they were but for the password and the
    live marks. *)
Theorem saved_queue_comes_back (env : Env) (mint : str -> str) (s : Store) :
  (loaded s = false \/ isLeader s = false -> save s = None) /\
  forall doc cont, save s = Some (doc, cont) ->
    (forall it, it ∈ items s -> txIdHex it <> [] /\ (is_kind KInstall it = true -> install it <> None)) ->
    (forall it, it ∈ doc -> rarPassword it = None /\ has_link it = false) /\
    let back := items (hydrate env mint doc cont init) in
    map id_ back = map id_ (List.filter (fun it => negb (is_kind KInstall it && has_link it)) (items s)) /\
    forall it, it ∈ items s -> is_status Running it = false -> has_link it = false ->
      it <| rarPassword := None |> <| waitingForEngineQueue := false |> <| attachJobId := None |> ∈ back.
Proof.
  split.
  - unfold save. intros [-> | ->]; [done|]. by rewrite andb_false_r.
  - intros doc cont Hsave Hok. unfold save in Hsave. destruct (loaded s && isLeader s); [|done].
    injection Hsave as <- <-. cbv zeta. split_and!.
    + intros it. rewrite elem_of_map. intros (x & -> & _). unfold persist_row, has_link. simpl.
      destruct (install x) as [[]|] eqn:E; simpl; rewrite ?E; done.
    + destruct (hydrate_items env mint (map persist_row (items s)) (continueOnFailure s) init) as [Hi _].
      rewrite Hi, app_nil_r, map_map. clear Hi. induction (items s) as [|it l IH]; [done|].
      cbn [map List.filter].
      assert (negb (is_kind KInstall (hydrate_row env mint (persist_row it)))
        || negb (bool_decide (install (hydrate_row env mint (persist_row it)) = None))
        = negb (is_kind KInstall it && has_link it)) as ->.
      { destruct (Hok it) as [_ Hin]; [set_solver|].
        assert (sourceKind (hydrate_row env mint (persist_row it)) = sourceKind it
          /\ install (hydrate_row env mint (persist_row it))
             = if has_link it then None else install it) as [E1 E2].
        { destruct (hydrate_row_install env mint (persist_row it)) as [-> ->].
          unfold persist_row, has_link. simpl. destruct (install it) as [[]|] eqn:E; by rewrite ?E. }
        unfold is_kind in *. rewrite E1, E2. destruct (has_link it) eqn:El.
        - by destruct (bool_decide (sourceKind it = KInstall)).
        - rewrite andb_false_r. case_bool_decide as Hk; [|done]. simpl.
          rewrite bool_decide_eq_false_2; [done|]. by apply Hin. }
      assert (forall x, x ∈ l -> txIdHex x <> [] /\ (is_kind KInstall x = true -> install x <> None)) as Hok'
        by (intros; apply Hok; set_solver).
      specialize (IH Hok').
      destruct (negb (is_kind KInstall it && has_link it)); [|exact IH]. cbn [map]. f_equal; [|exact IH].
      destruct (hydrate_row_keeps env mint (persist_row it)) as (-> & _).
      unfold persist_row. by repeat case_match.
    + intros it Hit Hr Hlk.
      destruct (hydrate_items env mint (map persist_row (items s)) (continueOnFailure s) init) as [Hi _].
      rewrite Hi, app_nil_r. destruct (Hok it Hit) as [Htx Hin].
      assert (hydrate_row env mint (persist_row it)
        = it <| rarPassword := None |> <| waitingForEngineQueue := false |> <| attachJobId := None |>) as E.
      { assert (persist_row it = it <| rarPassword := None |> <| waitingForEngineQueue := false |>) as ->.
        { unfold persist_row, has_link in *. simpl. by repeat case_match. }
        unfold hydrate_row, is_status in *. simpl. rewrite Hr, andb_false_r. simpl.
        by destruct (txIdHex it). }
      apply list_elem_of_In, filter_In. rewrite <-list_elem_of_In. split.
      * apply elem_of_map. exists (persist_row it). split; [done|]. apply elem_of_map. eauto.
      * unfold is_kind in *. simpl. case_bool_decide as Hk; [|done]. simpl.
        rewrite bool_decide_eq_false_2; [done|]. by apply Hin.
Qed.

(** * Windows the code leaves open *)

(** a second tab that takes the queue over never starts a console it was showing as running:
    it keeps the mark it copied from the saved rows though no loop of its own is there, so the
    start that should adopt the running job, and every Start after it, is taken for a repeat. *)
Theorem takeover_leaves_console_stuck (env : Env) (mint : str -> str) (s : Store) (doc doc' : list QueueItem)
    (cont cont' : bool) (it : QueueItem) :
  loops s = ∅ -> it ∈ doc -> status it = Running ->
  let h := host_of it in
  let s1 := hydrate env mint doc' cont' (take_lead (syncFollower doc cont s)) in
  (h ∈ runningHosts s1) /\ loops s1 = ∅ /\
  forall host o, hostOf host = h ->
    (h ∈ runningHosts (startHost env host o s1)) /\ loops (startHost env host o s1) = ∅.
Proof.
  intros Hl Hit Hs h s1.
  destruct (hydrate_items env mint doc' cont' (take_lead (syncFollower doc cont s)))
    as (_ & E1 & _ & _ & E2 & _). fold s1 in E1, E2.
  assert (h ∈ runningHosts s1) as Hr.
  { rewrite E2. simpl. apply elem_of_list_to_set, elem_of_map. exists it. split; [done|].
    apply list_elem_of_In, filter_In. rewrite <-list_elem_of_In. unfold is_status.
    by rewrite bool_decide_eq_true_2. }
  assert (loops s1 = ∅) as Hl1 by by rewrite E1.
  split_and!; [done|done|]. intros host o Hh. clearbody s1. unfold startHost. rewrite Hh.
  rewrite (bool_decide_eq_true_2 (h ∈ _)) by (case_match; done).
  repeat case_match; done.
Qed.

(** a row removed while a loop that picked it settles is attempted all the same: no look at
    the queue stands between the settle's end and the run. *)
Theorem removed_row_still_runs (env : Env) (s : Store) (g : Z) (l : Loop) (n : QueueItem) :
  run s -> loops s !! g = Some l -> l_phase l = Settle n -> isLive (l_host l) g s = true ->
  let s1 := remove (id_ n) s in let s2 := loop_event env g EvDone s1 in
  (forall it, it ∈ items s2 -> id_ it <> id_ n) /\
  exists l', loops s2 !! g = Some l' /\ phase_run (l_phase l') = Some n.
Proof.
  intros HI%run_inv Hl Hp Hlive s1 s2.
  assert (loops s1 !! g = Some l /\ hostGen s1 = hostGen s) as [Hl1 Hg1].
  { subst s1. unfold remove. destruct (row (id_ n) s); [|done].
    match goal with |- context [settleSendNow ?h ?x] => destruct (settle_shape h x) as [_ (-> & -> & _)] end.
    done. }
  assert (forall it, it ∈ items s1 -> id_ it <> id_ n) as Hno.
  { subst s1. unfold remove. destruct (row (id_ n) s) as [x|] eqn:E.
    - intros it. match goal with |- context [settleSendNow ?h ?y] => destruct (settle_shape h y) as [-> _] end.
      rewrite elem_of_map. intros (y & -> & Hy). simpl in Hy.
      apply elem_removeItem in Hy as [_ Hne]; [|apply HI].
      by rewrite (calm_id _ _ (settle_calm _ _ y)).
    - intros it. by apply row_None. }
  assert (s2 = begin_item g l n s1) as ->.
  { subst s2. unfold loop_event. rewrite Hl1, Hp. unfold isLive in *. by rewrite Hg1, Hlive. }
  split.
  - intros it. unfold begin_item, run_one. simpl. intros Hit Hid.
    unfold patchItem in Hit. destruct (index_by_id id_ (items s1) (id_ n)) as [k|] eqn:Ek; [|by eapply Hno].
    apply index_by_id_Some in Ek as (x & Hx & Hxid). eapply Hno; [by eapply list_elem_of_lookup_2|done].
  - unfold begin_item, run_one. simpl. rewrite lookup_insert_eq. eexists. split; [done|]. simpl.
    by case_match.
Qed.

(** a stopped loop still polling the upload of a package whose row a later run has taken past
    its upload marks the row failed, while the later run's install goes on. *)
Theorem stale_loop_fails_live_install (env : Env) (s : Store) (g g' : Z) (l l' : Loop)
    (n n' it : QueueItem) (a a' : Z) (j : str) (sent total rate : Z) (st : option Z) :
  run s -> loops s !! g = Some l -> l_phase l = Polling n a j -> isLive (l_host l) g s = false ->
  loops s !! g' = Some l' -> l_phase l' = Installs n' a' -> g <> g' ->
  it ∈ items s -> id_ it = id_ n -> isInstallWork it = true ->
  let s' := loop_event env g (EvProgress sent total rate st) s in
  (exists it', it' ∈ items s' /\ id_ it' = id_ it /\ status it' = Failed
     /\ error it' = Some (js "queue stopped")) /\
  loops s' !! g' = Some l'.
Proof.
  intros HI%run_inv Hl Hp Hd Hl' Hp' Hne Hit Hid Hw s'.
  pose proof (row_find s (id_ n) it HI Hit Hid) as Hr.
  subst s'. unfold loop_event. rewrite Hl, Hp, Hd. cbn [negb]. unfold run_failed.
  rewrite Hr. simpl default. rewrite Hw, Hd. cbn [negb andb].
  set (s1 := patch (id_ n) (failed_patch env true n stopped_failure) s).
  destruct (settle_shape (host_of n) s1) as [Hi (El & Eg & _)].
  assert (isLive (l_host l) g (snd (settleSendNow (host_of n) s1)) = false) as ->
    by (unfold isLive in *; by rewrite Eg).
  cbn [negb]. rewrite items_end, Hi. split.
  - exists (settle_row (host_of n) (existsb (sent_live (host_of n)) (items s1))
      (failed_patch env true n stopped_failure it)). split; [|split].
    + apply elem_of_map. eexists. split; [done|]. subst s1. rewrite patch_items, elem_of_map by apply HI.
      exists it. split; [|done]. unfold has_id. by rewrite bool_decide_eq_true_2.
    + rewrite (calm_id _ _ (settle_calm _ _ _)).
      by destruct (failed_patch_status env true n stopped_failure it) as (_ & -> & _).
    + unfold settle_row, failed_patch. repeat case_match; done.
  - assert (loops (end_loop env g l (snd (settleSendNow (host_of n) s1)))
      = delete g (loops (snd (settleSendNow (host_of n) s1)))) as ->
      by (unfold end_loop; by repeat case_match).
    rewrite El, lookup_delete_ne; done.
Qed.

(** * Witnesses *)

Definition fresh_b (i : str) (s : Store) : bool :=
  forallb (fun it => negb (has_id id_ i it)) (items s) && negb (bool_decide (i ∈ lookups s))
  && forallb (fun '(_, l) => match phase_next (l_phase l) with
                             | Some n => negb (has_id id_ i n) | None => true end)
       (map_to_list (loops s)).

Lemma fresh_b_fresh i s : fresh_b i s = true -> fresh i s.
Proof.
  unfold fresh_b, has_id. rewrite !andb_true_iff, !forallb_elem. intros [[H1 H2] H3]. bool_prop.
  split_and!; [|done|].
  - intros it Hit. specialize (H1 it Hit). by bool_prop.
  - intros g l n Hl Hn. specialize (H3 (g, l)). rewrite elem_of_map_to_list in H3.
    specialize (H3 Hl). simpl in H3. rewrite Hn in H3. by bool_prop.
Qed.

Definition allowed_b (s : Store) (a : Action) : bool :=
  match a with
  | AAdd input i _ => fresh_b i s && bool_decide (hostOf (hostOf (addr input)) = hostOf (addr input))
  | AEnqueue _ _ _ _ _ | AHydrate _ _ _ | ASync _ _ | ATakeLead | ALoseLead => false
  | _ => true
  end.

Lemma allowed_b_allowed s a : allowed_b s a = true -> allowed s a.
Proof.
  destruct a; try done. simpl. rewrite andb_true_iff. intros [H1%fresh_b_fresh H2].
  bool_prop. by split.
Qed.

(** A list of actions performed from a state, [None] when one is not allowed. *)
Fixpoint perform (env : Env) (l : list Action) (s : Store) : option Store :=
  match l with
  | [] => Some s
  | a :: l' => if allowed_b s a then perform env l' (exec env a s) else None
  end.

Lemma perform_run env l s s' : run s -> perform env l s = Some s' -> run s'.
Proof.
  revert s. induction l as [|a l IH]; intros s Hr; cbn [perform]; [by intros [= <-]|].
  case_match eqn:E; [|done]. apply IH. apply run_step; [done|by apply allowed_b_allowed].
Qed.

Lemma perform_steady env l s s' : 0 < now env -> Forall keeps_hand_back l -> steady s ->
  perform env l s = Some s' -> steady s'.
Proof.
  intros Hn Hk. revert s. induction l as [|a l IH]; intros s Hr; cbn [perform]; [by intros [= <-]|].
  inversion Hk; subst. case_match eqn:E; [|done]. apply IH; [done|].
  apply steady_step; [done..|by apply allowed_b_allowed|done].
Qed.

Definition w_env : Env := {| now := 1000; autoResume := true; queueAutoStart := true;
  restAfterUpload := false; asleep := fun _ => false |}.
Definition w_row (i host : string) (k : QueueSourceKind) : QueueItem := {|
  id_ := js i; sourceKind := k; sourcePath := js "/a"; resolvedDest := js "/data/a";
  addr := js host; category := None; install := None; fallbackToUpload := false;
  installAfterUpload := None; installPhase := None; installPct := None; installProgress := None;
  installNote := None; installJobId := None; txIdHex := js "t"; status := Pending;
  interrupted := false; paused := None; sendNowAt := None; uploadDone := false;
  waitingForWake := false; stalledForMs := None; bytesSent := 0; totalBytes := 0;
  estimatedBytes := 0; bytesPerSec := 0; recovering := false; recoverAttempt := 0; jobId := None;
  error := None; errorReason := None; errorDetail := None; completedAt := None;
  rarPassword := None; attachJobId := None; waitingForEngineQueue := false; stopping := false |}.
Definition w_add (i : string) (k : QueueSourceKind) : Action :=
  AAdd (w_row i "10.0.0.2:9113" k) (js i) (js "t").
Definition w_host : str := js "10.0.0.2".
Definition w_state (l : list Action) : Store := perform w_env l init ?? init.

Ltac w_run := match goal with |- run (w_state ?l) =>
  apply (perform_run w_env l init); [constructor|vm_compute; reflexivity] end.

(** Two uploads queued, the first being sent. *)
Definition w_sending : list Action :=
  [w_add "a" KFile; w_add "b" KFile; AStartHost w_host no_opts; ALoop 1 EvDone; ALoop 1 EvDone;
   ALoop 1 EvDone; ALoop 1 EvDone; ALoop 1 (EvJob (js "J1"))].

Lemma w_sending_run : run (w_state w_sending).
Proof. w_run. Qed.

Definition w_it (i : string) (l : list Action) : QueueItem := row (js i) (w_state l) ?? w_row i "" KFile.
Lemma w_it_in i l : (match row (js i) (w_state l) with Some _ => true | None => false end) = true ->
  w_it i l ∈ items (w_state l) /\ row (js i) (w_state l) = Some (w_it i l).
Proof.
  unfold w_it. destruct (row (js i) (w_state l)) as [it|] eqn:E; [|done]. intros _. simpl.
  by split; [by apply row_Some in E as [? _]|].
Qed.

Lemma one_upload_per_console_witness :
  upload_running (w_it "a" w_sending) = true /\ (host_of (w_it "a" w_sending) ∈ runningHosts (w_state w_sending)).
Proof.
  split; [vm_compute; reflexivity|].
  apply (one_upload_per_console (w_state w_sending) (w_it "a" w_sending)).
  - apply w_sending_run.
  - apply w_it_in. vm_compute. reflexivity.
  - vm_compute. reflexivity.
Defined.

Lemma running_mark_is_live_loop_witness :
  exists g l, loops (w_state w_sending) !! g = Some l /\ l_host l = w_host
    /\ isLive w_host g (w_state w_sending) = true.
Proof.
  apply (running_mark_is_live_loop (w_state w_sending) w_host).
  - apply w_sending_run.
  - apply (bool_decide_unpack _). vm_compute. exact I.
Defined.

Definition w_paused : list Action := w_sending ++ [APause (js "a")].

Lemma paused_row_waits_witness :
  is_paused (w_it "a" w_paused) = true /\ status (w_it "a" w_paused) <> Running.
Proof.
  split; [vm_compute; reflexivity|].
  apply (paused_row_waits (w_state w_paused) (w_it "a" w_paused)).
  - w_run.
  - apply w_it_in. vm_compute. reflexivity.
  - vm_compute. reflexivity.
Defined.

Lemma stopHost_effect_witness :
  runningHosts (stopHost w_host (w_state w_sending)) = runningHosts (w_state w_sending) ∖ {[hostOf w_host]}.
Proof. apply (stopHost_effect (w_state w_sending) w_host), w_sending_run. Defined.

(** The first upload stopped while its engine job was polled. *)
Definition w_stopped : list Action := w_sending ++ [AStopHost w_host].
Definition w_loop (g : Z) (l : list Action) : Loop :=
  loops (w_state l) !! g ?? {| l_host := []; l_phase := Hold; l_jobs := 0; l_unattended := false; l_started := 0 |}.

Lemma w_loop_in g l : (match loops (w_state l) !! g with Some _ => true | None => false end) = true ->
  loops (w_state l) !! g = Some (w_loop g l).
Proof. unfold w_loop. by destruct (loops (w_state l) !! g). Qed.

Lemma stopped_loop_is_inert_witness :
  items (loop_event w_env 1 (EvUploaded None) (w_state w_stopped)) = items (w_state w_stopped).
Proof.
  apply (stopped_loop_is_inert w_env (w_state w_stopped) 1 (w_loop 1 w_stopped) (EvUploaded None)).
  - w_run.
  - apply w_loop_in. vm_compute. reflexivity.
  - vm_compute. reflexivity.
  - vm_compute. right. left. exists None. reflexivity.
  - vm_compute. intros n [= <-]. reflexivity.
Defined.

(** The second row sent now: the first waits, paused by it. *)
Definition w_sent : list Action := w_sending ++ [ASendNow (js "b")].


Lemma sendNow_runs_next_witness :
  exists it', nextPendingForHost (items (sendNow w_env (js "b") (w_state w_sending))) w_host = Some it'
    /\ id_ it' = js "b".
Proof.
  apply (sendNow_runs_next w_env (w_state w_sending) (js "b") (w_it "b" w_sending)).
  - apply w_sending_run.
  - reflexivity.
  - apply w_it_in. vm_compute. reflexivity.
  - vm_compute. reflexivity.
  - vm_compute. reflexivity.
  - intros jt Hj _ H.
    assert (negb (is_sent jt) || has_id id_ (js "b") jt = true) as H'
      by (revert jt Hj H; intros jt Hj _; revert jt Hj; apply forallb_elem; vm_compute; reflexivity).
    rewrite H in H'. unfold has_id in H'. exact (proj1 (bool_decide_eq_true _) H').
  - intros jt Hj _ H.
    assert (negb (is_status Running jt) || negb (isInstallWork jt) = true) as H'
      by (revert jt Hj H; intros jt Hj _; revert jt Hj; apply forallb_elem; vm_compute; reflexivity).
    unfold is_status in H'. rewrite (bool_decide_eq_true_2 _ H) in H'. exact (proj1 (negb_true_iff _) H').
Defined.

Lemma recovery_is_bounded_witness : phase_bounded (l_phase (w_loop 1 w_sending)).
Proof.
  apply (recovery_is_bounded w_env (w_state w_sending) 1 (w_loop 1 w_sending)).
  - apply w_sending_run.
  - apply w_loop_in. vm_compute. reflexivity.
Defined.

(** A package uploaded and now installing. *)
Definition w_install : list Action :=
  [w_add "p" KPkg; AStartHost w_host no_opts; ALoop 1 EvDone; ALoop 1 EvDone; ALoop 1 EvDone;
   ALoop 1 EvDone; ALoop 1 (EvJob (js "J1")); ALoop 1 (EvUploaded None)].


Definition w_running_row : QueueItem := (w_row "r" "10.0.0.2:9113" KFile) <| status := Running |>.

Lemma takeover_leaves_console_stuck_witness :
  loops (startHost w_env w_host no_opts (hydrate w_env id [w_running_row] false
    (take_lead (syncFollower [w_running_row] false init)))) = ∅.
Proof.
  apply (takeover_leaves_console_stuck w_env id init [w_running_row] [w_running_row] false false w_running_row).
  - reflexivity.
  - apply list_elem_of_singleton. reflexivity.
  - reflexivity.
  - vm_compute. reflexivity.
Defined.

(** The first upload done; its loop settles with the second in hand. *)
Definition w_settling : list Action := w_sending ++
  [ALoop 1 (EvUploaded None); ALoop 1 (EvOk {| r_bytes := 1; r_rate := 1; r_phase := None; r_note := None |});
   ALoop 1 EvDone].

Lemma removed_row_still_runs_witness :
  exists l', loops (loop_event w_env 1 EvDone (remove (js "b") (w_state w_settling))) !! 1 = Some l'
    /\ phase_run (l_phase l') = phase_next (l_phase (w_loop 1 w_settling)).
Proof.
  destruct (removed_row_still_runs w_env (w_state w_settling) 1 (w_loop 1 w_settling) (w_it "b" w_settling))
    as [_ (l' & H1 & H2)].
  - w_run.
  - apply w_loop_in. vm_compute. reflexivity.
  - vm_compute. reflexivity.
  - vm_compute. reflexivity.
  - exists l'. split; [exact H1|]. rewrite H2. vm_compute. reflexivity.
Defined.

(** A package stopped while its engine job was polled, run again and installing. *)
Definition w_stale : list Action :=
  [w_add "p" KPkg; AStartHost w_host no_opts; ALoop 1 EvDone; ALoop 1 EvDone; ALoop 1 EvDone;
   ALoop 1 EvDone; ALoop 1 (EvJob (js "J1")); AStopHost w_host; AStartHost w_host no_opts;
   ALoop 3 EvDone; ALoop 3 EvDone; ALoop 3 EvDone; ALoop 3 EvDone; ALoop 3 (EvJob (js "J2"));
   ALoop 3 (EvUploaded None)].

Lemma stale_loop_fails_live_install_witness :
  exists it', it' ∈ items (loop_event w_env 1 (EvProgress 0 0 0 None) (w_state w_stale))
    /\ status it' = Failed.
Proof.
  destruct (stale_loop_fails_live_install w_env (w_state w_stale) 1 3 (w_loop 1 w_stale) (w_loop 3 w_stale)
    (match phase_run (l_phase (w_loop 1 w_stale)) with Some n => n | None => w_it "p" w_stale end)
    (match phase_run (l_phase (w_loop 3 w_stale)) with Some n => n | None => w_it "p" w_stale end)
    (w_it "p" w_stale) 0 0 (js "J1") 0 0 0 None) as [(it' & H1 & _ & H2 & _) _].
  - w_run.
  - apply w_loop_in. vm_compute. reflexivity.
  - vm_compute. reflexivity.
  - vm_compute. reflexivity.
  - apply w_loop_in. vm_compute. reflexivity.
  - vm_compute. reflexivity.
  - discriminate.
  - apply w_it_in. vm_compute. reflexivity.
  - vm_compute. reflexivity.
  - vm_compute. reflexivity.
  - exists it'. split; [exact H1|exact H2].
Defined.

(** A package sent now, which pauses the upload before it, installs; the page is loaded again; the
    install is found, and ends well: the upload stays paused, and no row sent now is left to hand the
    console back. *)
Definition w_away : list Action := [w_add "a" KFile; w_add "p" KPkg; AStartHost w_host no_opts; ALoop 1 EvDone; ALoop 1 EvDone;
  ALoop 1 EvDone; ALoop 1 EvDone; ALoop 1 (EvJob (js "J1")); ASendNow (js "p"); ALoop 1 (EvErr stopped_failure); ARestartReady 2;
  ALoop 3 EvDone; ALoop 3 EvDone; ALoop 3 EvDone; ALoop 3 EvDone; ALoop 3 (EvJob (js "J2")); ALoop 3 (EvUploaded None); ALoop 3 EvTurn;
  ALoop 3 (EvInstallJob (js "J3"))].
Definition w_reloaded : Store :=
  install_found w_env (js "p") w_host (Some false) None (hydrate w_env id (items (w_state w_away)) false init).
Lemma found_install_strands_paused :
  map (fun it => (id_ it, status it, paused it, is_sent it)) (items (w_state w_away)) =
    [(js "a", Pending, Some BySendNow, false); (js "p", Running, None, true)] /\
  map (fun it => (id_ it, status it, paused it)) (items w_reloaded) = [(js "a", Pending, Some BySendNow); (js "p", Done, None)] /\
  existsb (sent_live w_host) (items w_reloaded) = false /\ loops w_reloaded = ∅ /\
  map (fun it => (id_ it, status it, paused it)) (items (startHost w_env w_host no_opts w_reloaded)) = [(js "a", Pending, Some BySendNow); (js "p", Done, None)].
Proof. vm_compute. by split_and!. Qed.
