(* ===== verification/Json.v ===== *)
(** Values as [JSON.parse] gives them and [JSON.stringify] writes them. Numbers are the integers the
    modelled documents hold; an object is its entries in order. Two values are equal exactly when
    their texts are, so [JSON.stringify(a) === JSON.stringify(b)] is equality here. *)
From S2P Require Import Prelude.

#[local] Unset Elimination Schemes.
Inductive json :=
| JNull
| JBool (b : bool)
| JNum (n : Z)
| JStr (s : str)
| JArr (l : list json)
| JObj (l : list (str * json)).

Section json_ind.
Context (P : json -> Prop) (Hnull : P JNull) (Hbool : forall b, P (JBool b)) (Hnum : forall n, P (JNum n))
  (Hstr : forall s, P (JStr s)) (Harr : forall l, Forall P l -> P (JArr l))
  (Hobj : forall l, Forall (fun e => P e.2) l -> P (JObj l)).

Fixpoint json_ind (j : json) : P j :=
  match j with
  | JNull => Hnull
  | JBool b => Hbool b
  | JNum n => Hnum n
  | JStr s => Hstr s
  | JArr l => Harr l ((fix go l := match l return Forall P l with
                       | [] => Forall_nil_2 _
                       | x :: l' => Forall_cons_2 _ _ _ (json_ind x) (go l')
                       end) l)
  | JObj l => Hobj l ((fix go l := match l return Forall (fun e => P e.2) l with
                       | [] => Forall_nil_2 _
                       | x :: l' => Forall_cons_2 _ _ _ (json_ind x.2) (go l')
                       end) l)
  end.
End json_ind.

Fixpoint json_eqb (a b : json) : bool :=
  match a, b with
  | JNull, JNull => true
  | JBool x, JBool y => Bool.eqb x y
  | JNum x, JNum y => x =? y
  | JStr x, JStr y => bool_decide (x = y)
  | JArr x, JArr y =>
      (fix go x y := match x, y with
       | [], [] => true
       | p :: x', q :: y' => json_eqb p q && go x' y'
       | _, _ => false
       end) x y
  | JObj x, JObj y =>
      (fix go x y := match x, y with
       | [], [] => true
       | (k, p) :: x', (k', q) :: y' => bool_decide (k = k') && json_eqb p q && go x' y'
       | _, _ => false
       end) x y
  | _, _ => false
  end.

Lemma json_eqb_spec a b : json_eqb a b = true <-> a = b.
Proof.
  revert b. induction a as [| | | |l IH|l IH] using json_ind; intros [| | | |l'|l']; simpl; try done.
  - rewrite eqb_true_iff. split; congruence.
  - rewrite Z.eqb_eq. split; congruence.
  - rewrite bool_decide_eq_true. split; congruence.
  - revert l'. induction IH as [|x l Hx _ IHl]; intros [|y l']; try done.
    rewrite andb_true_iff, Hx, IHl. split; [intros [-> [= ->]]; done|intros [= -> ->]; done].
  - revert l'. induction IH as [|[k x] l Hx _ IHl]; intros [|[k' y] l']; try done.
    simpl in Hx. rewrite !andb_true_iff, bool_decide_eq_true, Hx, IHl.
    split; [intros [[-> ->] [= ->]]; done|intros [= -> -> ->]; done].
Qed.

#[export] Instance json_eq_dec : EqDecision json.
Proof.
  intros a b. destruct (json_eqb a b) eqn:E; [left; by apply json_eqb_spec|right].
  intros H%json_eqb_spec. congruence.
Defined.

(** [o.k] of an object: its last entry of that name; [None] for undefined and for what has no
    entries. *)
Fixpoint entry (k : str) (l : list (str * json)) : option json :=
  match l with
  | [] => None
  | (k', x) :: l' => match entry k l' with
                     | Some y => Some y
                     | None => if decide (k = k') then Some x else None
                     end
  end.
Definition get (k : string) (j : json) : option json :=
  match j with JObj l => entry (js k) l | _ => None end.

(** [typeof x === "number"] and ["string"], with the value. *)
Definition as_num (o : option json) : option Z := match o with Some (JNum n) => Some n | _ => None end.
Definition as_str (o : option json) : option str := match o with Some (JStr s) => Some s | _ => None end.
