(* ===== verification/MeshCrdt.v ===== *)
(** The shared state kept the same on every device through the consoles
    (client/src/lib/meshCrdt.ts): a last-writer-wins map stamped with hybrid logical clocks.
    The laws hold for values of any type with decidable equality; the shared documents' are JSON
    values. The milliseconds and counters of a stamp are integers. *)
From S2P Require Import Prelude Json.

(** * Stamps *)

Record Hlc := { t : Z; c : Z; d : str }.
#[export] Instance hlc_eq_dec : EqDecision Hlc.
Proof. solve_decision. Defined.

(** -1, 0 or 1. *)
Definition cmpHlc (a b : Hlc) : Z :=
  if negb (t a =? t b) then if t a <? t b then -1 else 1
  else if negb (c a =? c b) then if c a <? c b then -1 else 1
  else if negb (bool_decide (d a = d b)) then if str_lt (d a) (d b) then -1 else 1
  else 0.

(** * Maps *)

Record Reg (V : Type) := { v : V; h : Hlc }.
Arguments v {V} _.
Arguments h {V} _.
Abbreviation LwwMap V := (gmap str (Reg V)).

#[export] Instance reg_eq_dec `{EqDecision V} : EqDecision (Reg V).
Proof. solve_decision. Defined.

Section crdt.
Context {V : Type} `{EqDecision V} (null : V).

(** Per key, the register with the higher stamp: the loop over [b]'s entries. *)
Definition merge_entry (k : str) (r : Reg V) (out : LwwMap V) : LwwMap V :=
  match out !! k with
  | None => <[k := r]> out
  | Some cur => if 0 <? cmpHlc (h r) (h cur) then <[k := r]> out else out
  end.
Definition merge (a b : LwwMap V) : LwwMap V := map_fold merge_entry a b.

(** Same registers, same stamps. *)
Definition sameMap (a b : LwwMap V) : bool :=
  Nat.eqb (size a) (size b)
  && forallb (fun '(k, x) => match b !! k with
       | None => false
       | Some y => negb (negb (cmpHlc (h x) (h y) =? 0) || negb (bool_decide (v x = v y)))
       end) (map_to_list a).

(** The highest stamp in a map. *)
Definition maxHlc (m : LwwMap V) : option Hlc :=
  map_fold (fun _ r best => match best with
    | None => Some (h r)
    | Some b => if 0 <? cmpHlc (h r) b then Some (h r) else Some b end) None m.

Definition TOMBSTONE_TTL_MS : Z := 365 * 86400000.
Definition pruneTombstones (m : LwwMap V) (now : Z) : LwwMap V :=
  base.filter (fun '(_, r) => ~ (v r = null /\ now - t (h r) > TOMBSTONE_TTL_MS)) m.
End crdt.

(** * The clock *)

Record Clock := { device : str; last_t : Z; last_c : Z }.

(** [now()], [w] being what [wall()] reads. *)
Definition now (w : Z) (k : Clock) : Hlc * Clock :=
  let k' := if last_t k <? w then {| device := device k; last_t := w; last_c := 0 |}
            else {| device := device k; last_t := last_t k; last_c := last_c k + 1 |} in
  ({| t := last_t k'; c := last_c k'; d := device k' |}, k').

Definition observe (o : option Hlc) (k : Clock) : Clock :=
  match o with
  | None => k
  | Some x =>
      if (last_t k <? t x) || ((t x =? last_t k) && (last_c k <? c x))
      then {| device := device k; last_t := t x; last_c := c x |} else k
  end.

(** * Maps read from elsewhere *)

Definition isHlc (x : json) : option Hlc :=
  match as_num (get "t" x), as_num (get "c" x), as_str (get "d" x) with
  | Some t, Some c, Some d => Some {| t := t; c := c; d := d |}
  | _, _, _ => None
  end.

(** A map read from elsewhere, checked: registers that are not well formed are dropped. *)
Definition asMap_entry (out : LwwMap json) (e : str * json) : LwwMap json :=
  match get "v" e.2, get "h" e.2 ≫= isHlc with
  | Some x, Some st => <[e.1 := {| v := x; h := st |}]> out
  | _, _ => out
  end.
Definition asMap (raw : json) : LwwMap json :=
  match raw with JObj l => fold_left asMap_entry l ∅ | _ => ∅ end.

(** The documents' form of a map. *)
Definition hlc_json (x : Hlc) : json :=
  JObj [(js "t", JNum (t x)); (js "c", JNum (c x)); (js "d", JStr (d x))].
Definition reg_json (r : Reg json) : json := JObj [(js "v", v r); (js "h", hlc_json (h r))].
Definition map_json (m : LwwMap json) : json := JObj (prod_map id reg_json <$> map_to_list m).

Lemma asMap_entry_reg out k r : asMap_entry out (k, reg_json r) = <[k := r]> out.
Proof. unfold asMap_entry. simpl. by destruct r as [x [tt cc dd]]. Qed.

(** Writing a map out and reading it back gives the map. *)
Lemma asMap_map_json m : asMap (map_json m) = m.
Proof.
  unfold asMap, map_json. rewrite <-(list_to_map_to_list m) at 2.
  assert (forall l (acc : LwwMap json), (forall k r, (k, r) ∈ l -> acc !! k = None) -> NoDup l.*1 ->
    fold_left asMap_entry (prod_map id reg_json <$> l) acc = list_to_map l ∪ acc) as H.
  { induction l as [|[k r] l IH]; intros acc Hl Hnd; simpl; [by rewrite (left_id_L ∅ (∪))|].
    inversion Hnd as [|? ? Hk Hnd']; subst. rewrite asMap_entry_reg, IH; [|intros k' r' Hin|done].
    - rewrite <-insert_union_r; [by rewrite insert_union_l|]. by apply not_elem_of_list_to_map_1.
    - rewrite lookup_insert_ne; [eapply Hl; by constructor|].
      intros ->. apply Hk. apply list_elem_of_fmap. by exists (k', r'). }
  rewrite H; [by rewrite (right_id_L ∅ (∪))|by intros; apply lookup_empty|apply NoDup_fst_map_to_list].
Qed.

(** * The order of stamps *)

Lemma cmpHlc_refl a : cmpHlc a a = 0.
Proof. unfold cmpHlc. by rewrite !Z.eqb_refl, bool_decide_eq_true_2. Qed.

Lemma cmpHlc_0 a b : cmpHlc a b = 0 <-> a = b.
Proof.
  split; [|intros ->; apply cmpHlc_refl]. unfold cmpHlc.
  destruct (t a =? t b) eqn:E1; cbn [negb]; [|by case_match].
  destruct (c a =? c b) eqn:E2; cbn [negb]; [|by case_match].
  case_bool_decide as E3; cbn [negb]; [|by case_match]. intros _.
  bool_prop. destruct a, b; simpl in *. by subst.
Qed.

Lemma cmpHlc_values a b : cmpHlc a b = -1 \/ cmpHlc a b = 0 \/ cmpHlc a b = 1.
Proof. unfold cmpHlc. repeat case_match; auto. Qed.

Lemma cmpHlc_antisym a b : cmpHlc b a = - cmpHlc a b.
Proof.
  unfold cmpHlc. rewrite (Z.eqb_sym (t b)), (Z.eqb_sym (c b)).
  destruct (t a =? t b) eqn:E1; cbn [negb].
  - destruct (c a =? c b) eqn:E2; cbn [negb].
    + case_bool_decide as E3; case_bool_decide as E4; cbn [negb]; try done; try congruence.
      destruct (str_lt (d a) (d b)) eqn:E5.
      * by rewrite str_lt_asym.
      * by rewrite (str_lt_total _ _ E4 E5).
    + destruct (c a <? c b) eqn:E5, (c b <? c a) eqn:E6; bool_prop; try done; lia.
  - destruct (t a <? t b) eqn:E5, (t b <? t a) eqn:E6; bool_prop; try done; lia.
Qed.

Definition hlc_lt (a b : Hlc) : Prop := cmpHlc a b = -1.

Lemma hlc_lt_spec a b : hlc_lt a b <->
  t a < t b \/ t a = t b /\ (c a < c b \/ c a = c b /\ str_lt (d a) (d b) = true).
Proof.
  unfold hlc_lt, cmpHlc. destruct (t a =? t b) eqn:E1; cbn [negb].
  - destruct (c a =? c b) eqn:E2; cbn [negb].
    + case_bool_decide as E3; cbn [negb].
      * bool_prop. rewrite E3, str_lt_irrefl. split; [done|]. intros [?|[_ [?|[_ ?]]]]; [lia|lia|done].
      * bool_prop. destruct (str_lt (d a) (d b)); split; try done; [auto|].
        intros [?|[_ [?|[_ ?]]]]; [lia|lia|done].
    + destruct (c a <? c b) eqn:E3; bool_prop; split; try done; [auto|].
      intros [?|[_ [?|[? _]]]]; lia.
  - destruct (t a <? t b) eqn:E3; bool_prop; split; try done; [auto|]. intros [?|[? _]]; lia.
Qed.

Lemma hlc_lt_trans a b x : hlc_lt a b -> hlc_lt b x -> hlc_lt a x.
Proof.
  rewrite !hlc_lt_spec. intros [?|[? [?|[? H1]]]] [?|[? [?|[? H2]]]];
    try (left; lia); right; (split; [lia|]); try (left; lia).
  right. split; [lia|]. by eapply str_lt_trans.
Qed.

Lemma cmpHlc_gt a b : (0 <? cmpHlc a b) = true <-> hlc_lt b a.
Proof.
  unfold hlc_lt. rewrite (cmpHlc_antisym a b), Z.ltb_lt.
  destruct (cmpHlc_values a b) as [-> |[-> | ->]]; lia.
Qed.

Lemma hlc_lt_irrefl a : ~ hlc_lt a a.
Proof. unfold hlc_lt. by rewrite cmpHlc_refl. Qed.

Lemma hlc_total a b : hlc_lt a b \/ a = b \/ hlc_lt b a.
Proof.
  unfold hlc_lt. rewrite (cmpHlc_antisym a b).
  destruct (cmpHlc_values a b) as [E|[E|E]]; [auto|right; left; by apply cmpHlc_0|right; right; lia].
Qed.

Definition hlc_le (a b : Hlc) : Prop := ~ hlc_lt b a.

Lemma hlc_le_trans a b x : hlc_le a b -> hlc_le b x -> hlc_le a x.
Proof.
  unfold hlc_le. intros H1 H2 H. destruct (hlc_total a b) as [Hab|[->|?]]; [|done..].
  apply H2. by eapply hlc_lt_trans.
Qed.

(** * Merging *)

Section laws.
Context {V : Type} `{EqDecision V}.
Implicit Types a b m : LwwMap V.

(** The one register two copies of a key leave. *)
Definition pick (x y : option (Reg V)) : option (Reg V) :=
  match x, y with
  | None, y => y
  | x, None => x
  | Some x, Some y => if 0 <? cmpHlc (h y) (h x) then Some y else Some x
  end.

Lemma merge_lookup a b k : merge a b !! k = pick (a !! k) (b !! k).
Proof.
  revert k. unfold merge.
  apply (map_fold_weak_ind (A := Reg V) (B := LwwMap V)
    (fun out (b : LwwMap V) => forall k, out !! k = pick (a !! k) (b !! k))).
  - intros k. rewrite lookup_empty. by destruct (a !! k).
  - intros i x m r Hi IH k. unfold merge_entry. rewrite (IH i), Hi.
    destruct (decide (k = i)) as [->|Hk].
    + rewrite lookup_insert_eq. destruct (a !! i) as [y|] eqn:Ea; simpl.
      * destruct (0 <? cmpHlc (h x) (h y)); [by rewrite lookup_insert_eq|].
        by rewrite IH, Hi, Ea.
      * by rewrite lookup_insert_eq.
    + rewrite (lookup_insert_ne m) by done. rewrite <-IH.
      destruct (pick (a !! i) None); [case_match|]; rewrite ?lookup_insert_ne by done; done.
Qed.

Lemma pick_assoc x y z : pick (pick x y) z = pick x (pick y z).
Proof.
  destruct x as [x|], y as [y|], z as [z|]; simpl; try done; [|by case_match..].
  destruct (0 <? cmpHlc (h y) (h x)) eqn:E1; simpl; destruct (0 <? cmpHlc (h z) (h y)) eqn:E2; simpl;
    rewrite ?E1, ?E2; try done.
  - assert ((0 <? cmpHlc (h z) (h x)) = true) as ->; [|done]. rewrite cmpHlc_gt in *.
    by eapply hlc_lt_trans.
  - assert ((0 <? cmpHlc (h z) (h x)) = false) as ->; [|done].
    apply not_true_iff_false. rewrite <-not_true_iff_false in *. rewrite cmpHlc_gt in *.
    change (hlc_le (h z) (h x)). by eapply hlc_le_trans.
Qed.

Lemma pick_idem x : pick x x = x.
Proof. destruct x; simpl; [|done]. by case_match. Qed.

(** No stamp of a map is later than its highest. *)
Lemma maxHlc_spec m k r : m !! k = Some r ->
  exists top, maxHlc m = Some top /\ hlc_le (h r) top.
Proof.
  revert k r. unfold maxHlc.
  apply (map_fold_weak_ind (A := Reg V) (B := option Hlc)
    (fun best (m : LwwMap V) =>
       forall k r, m !! k = Some r -> exists top, best = Some top /\ hlc_le (h r) top)).
  - intros k r Hk. by rewrite lookup_empty in Hk.
  - intros i x m' best Hi IH k r Hk. destruct (decide (i = k)) as [->|Hne].
    + rewrite lookup_insert_eq in Hk. injection Hk as <-. destruct best as [top|].
      * destruct (0 <? cmpHlc (h x) top) eqn:E; eexists; (split; [done|]); [apply hlc_lt_irrefl|].
        apply not_true_iff_false in E. by rewrite cmpHlc_gt in E.
      * eexists; split; [done|]. apply hlc_lt_irrefl.
    + rewrite lookup_insert_ne in Hk by done. destruct (IH _ _ Hk) as (top & -> & Hb).
      destruct (0 <? cmpHlc (h x) top) eqn:E; eexists; (split; [done|]); [|done].
      apply cmpHlc_gt in E. eapply hlc_le_trans; [exact Hb|].
      intros Hl. eapply hlc_lt_irrefl, hlc_lt_trans; eauto.
Qed.

(** Two copies of one key are coherent when one stamp never carries two registers. *)
Definition coherent_regs (x y : option (Reg V)) : Prop :=
  forall p q, x = Some p -> y = Some q -> h p = h q -> p = q.

Lemma pick_comm_iff x y : pick x y = pick y x <-> coherent_regs x y.
Proof.
  unfold coherent_regs.
  destruct x as [x|], y as [y|]; simpl; [|split; [by intros ? ? ? ? [=]|by intros]..].
  destruct (hlc_total (h x) (h y)) as [Hl|[He|Hl]].
  - assert ((0 <? cmpHlc (h y) (h x)) = true) as -> by by apply cmpHlc_gt.
    assert ((0 <? cmpHlc (h x) (h y)) = false) as ->.
    { apply not_true_iff_false. rewrite cmpHlc_gt. intros H. eapply hlc_lt_irrefl, hlc_lt_trans; eauto. }
    split; [|done]. intros _ p q [= <-] [= <-] E. rewrite E in Hl. by apply hlc_lt_irrefl in Hl.
  - rewrite He, cmpHlc_refl. simpl. split; [by intros [= ->] p q [= <-] [= <-] _|].
    intros H. by rewrite (H x y).
  - assert ((0 <? cmpHlc (h x) (h y)) = true) as -> by by apply cmpHlc_gt.
    assert ((0 <? cmpHlc (h y) (h x)) = false) as ->.
    { apply not_true_iff_false. rewrite cmpHlc_gt. intros H. eapply hlc_lt_irrefl, hlc_lt_trans; eauto. }
    split; [|done]. intros _ p q [= <-] [= <-] E. rewrite E in Hl. by apply hlc_lt_irrefl in Hl.
Qed.
End laws.

(** * What merging promises *)

Section merge_laws.
Context {V : Type} `{EqDecision V}.
Implicit Types a b x : LwwMap V.

Definition coherent a b : Prop := forall k, coherent_regs (a !! k) (b !! k).

Lemma merge_assoc_aux a b x : merge (merge a b) x = merge a (merge b x).
Proof. apply map_eq. intros k. by rewrite !merge_lookup, pick_assoc. Qed.

(** the merge of two copies is associative and idempotent, the result holds per key one of the
    two registers and never the one with the lower stamp, and it does not depend on which of the
    two copies comes first exactly when no stamp carries two registers in them. *)
Theorem merge_laws a b x :
  merge (merge a b) x = merge a (merge b x)
  /\ merge a a = a
  /\ merge a (merge a b) = merge a b /\ merge (merge a b) b = merge a b
  /\ (forall k r, merge a b !! k = Some r ->
        (a !! k = Some r \/ b !! k = Some r)
        /\ (forall r', a !! k = Some r' \/ b !! k = Some r' -> hlc_le (h r') (h r)))
  /\ (merge a b = merge b a <-> coherent a b).
Proof.
  split_and!.
  - apply merge_assoc_aux.
  - apply map_eq. intros k. by rewrite merge_lookup, pick_idem.
  - rewrite <-merge_assoc_aux. f_equal. apply map_eq. intros k. by rewrite merge_lookup, pick_idem.
  - rewrite merge_assoc_aux. f_equal. apply map_eq. intros k. by rewrite merge_lookup, pick_idem.
  - intros k r. rewrite merge_lookup. destruct (a !! k) as [p|], (b !! k) as [q|]; simpl; try done.
    + destruct (0 <? cmpHlc (h q) (h p)) eqn:E; intros [= <-]; split; [auto| |auto|].
      * apply cmpHlc_gt in E. intros r' [[= <-]|[= <-]] Hl; [|by apply hlc_lt_irrefl in Hl].
        eapply hlc_lt_irrefl, hlc_lt_trans; eauto.
      * apply not_true_iff_false in E. rewrite cmpHlc_gt in E.
        intros r' [[= <-]|[= <-]]; [apply hlc_lt_irrefl|done].
    + intros [= <-]. split; [auto|]. intros r' [[= <-]|?]; [apply hlc_lt_irrefl|done].
    + intros [= <-]. split; [auto|]. intros r' [?|[= <-]]; [done|apply hlc_lt_irrefl].
  - split.
    + intros H k. apply pick_comm_iff. by rewrite <-!merge_lookup, H.
    + intros H. apply map_eq. intros k. rewrite !merge_lookup. by apply pick_comm_iff.
Qed.

(** A copy made of the source copies [seen], merged in any order, any number of times, through any
    number of intermediate copies. *)
Inductive gossip (src : nat -> LwwMap V) : gset nat -> LwwMap V -> Prop :=
| gossip_src i : gossip src {[ i ]} (src i)
| gossip_merge s1 s2 m1 m2 : gossip src s1 m1 -> gossip src s2 m2 ->
    gossip src (s1 ∪ s2) (merge m1 m2).

(** What such a copy holds under [k]: some source's register, and no source it saw has a later one. *)
Lemma gossip_lookup src s m k : gossip src s m ->
  match m !! k with
  | None => forall i, i ∈ s -> src i !! k = None
  | Some r => (exists i, i ∈ s /\ src i !! k = Some r)
              /\ forall i r', i ∈ s -> src i !! k = Some r' -> hlc_le (h r') (h r)
  end.
Proof.
  induction 1 as [i|s1 s2 m1 m2 _ IH1 _ IH2].
  - destruct (src i !! k) as [r|] eqn:E; [|set_solver]. split; [exists i; set_solver|].
    intros j r' ->%elem_of_singleton Hr'. replace r' with r by congruence. apply hlc_lt_irrefl.
  - rewrite merge_lookup. destruct (m1 !! k) as [r1|], (m2 !! k) as [r2|]; simpl.
    + destruct IH1 as [(i1 & Hi1 & He1) Hm1], IH2 as [(i2 & Hi2 & He2) Hm2].
      destruct (0 <? cmpHlc (h r2) (h r1)) eqn:E; (split; [eexists; split; [|eassumption]; set_solver|]).
      * apply cmpHlc_gt in E. intros i r' [Hi|Hi]%elem_of_union Hr' Hlt; [|by eapply Hm2].
        eapply Hm1; [done..|]. by eapply hlc_lt_trans.
      * apply not_true_iff_false in E. rewrite cmpHlc_gt in E.
        intros i r' [Hi|Hi]%elem_of_union Hr'; [by eapply Hm1|].
        eapply hlc_le_trans; [by eapply Hm2|done].
    + destruct IH1 as [(i1 & Hi1 & He1) Hm1]. split; [exists i1; set_solver|].
      intros i r' [Hi|Hi]%elem_of_union Hr'; [by eapply Hm1|]. rewrite IH2 in Hr'; done.
    + destruct IH2 as [(i1 & Hi1 & He1) Hm1]. split; [exists i1; set_solver|].
      intros i r' [Hi|Hi]%elem_of_union Hr'; [|by eapply Hm1]. rewrite IH1 in Hr'; done.
    + intros i [Hi|Hi]%elem_of_union; auto.
Qed.

(** C12: two copies made of the same source copies hold the same map, whatever order the copies met
    in, however often, and through however many consoles, as long as no stamp carries two
    registers among the sources. *)
Theorem copies_converge src s m1 m2 :
  (forall i j, i ∈ s -> j ∈ s -> coherent (src i) (src j)) ->
  gossip src s m1 -> gossip src s m2 -> m1 = m2.
Proof.
  intros Hc H1 H2. apply map_eq. intros k.
  pose proof (gossip_lookup _ _ _ k H1) as G1. pose proof (gossip_lookup _ _ _ k H2) as G2.
  destruct (m1 !! k) as [r1|], (m2 !! k) as [r2|]; [| | |done].
  - destruct G1 as [(i & Hi & Ei) M1], G2 as [(j & Hj & Ej) M2]. f_equal.
    apply (Hc i j Hi Hj k r1 r2 Ei Ej).
    destruct (hlc_total (h r1) (h r2)) as [Hlt|[?|Hlt]]; [|done|].
    + by destruct (M1 j r2).
    + by destruct (M2 i r1).
  - destruct G1 as [(i & Hi & Ei) _]. by rewrite G2 in Ei.
  - destruct G2 as [(i & Hi & Ei) _]. by rewrite G1 in Ei.
Qed.
End merge_laws.

(** Three devices: a rename here, a wake key there, and a removal of the rename's key later. *)
Definition w_src (i : nat) : LwwMap Z :=
  let st n x := {| t := n; c := 0; d := js x |} in
  match i with
  | 0%nat => {[ js "a" := {| v := 1; h := st 10 "mac" |} ]}
  | 1%nat => {[ js "b" := {| v := 2; h := st 10 "phone" |} ]}
  | _ => {[ js "a" := {| v := 0; h := st 12 "phone" |} ]}
  end.

Lemma copies_converge_witness :
  merge (merge (w_src 0) (w_src 1)) (w_src 2) = merge (w_src 2) (merge (w_src 1) (merge (w_src 0) (w_src 2))).
Proof.
  apply (copies_converge w_src {[0%nat; 1%nat; 2%nat]}).
  - assert (forall i j k, (if decide (i ∈ [0; 1; 2]%nat) then true else false) = true ->
      (if decide (j ∈ [0; 1; 2]%nat) then true else false) = true ->
      coherent_regs (w_src i !! k) (w_src j !! k)) as H.
    { intros i j k Hi Hj p q.
      destruct i as [|[|[|?]]], j as [|[|[|?]]]; try done; unfold w_src;
        rewrite ?lookup_singleton_Some; intros [<- <-] [? <-]; simpl; congruence. }
    intros i j Hi Hj k. apply H; rewrite decide_True; set_solver.
  - replace {[0%nat; 1%nat; 2%nat]} with ({[0%nat]} ∪ {[1%nat]} ∪ {[2%nat]} : gset nat) by set_solver.
    repeat constructor.
  - replace {[0%nat; 1%nat; 2%nat]}
      with ({[2%nat]} ∪ ({[1%nat]} ∪ ({[0%nat]} ∪ {[2%nat]})) : gset nat) by set_solver.
    repeat constructor.
Defined.

(** * The clock's promise *)

(** What a device does with its clock: stamps a change (its wall clock reading [w]), or moves past
    a stamp it received. *)
Inductive clock_op := Now (w : Z) | Observe (o : option Hlc).

(** The clock after some operations, and every stamp it made or saw on the way. *)
Definition clock_step (kl : Clock * list Hlc) (op : clock_op) : Clock * list Hlc :=
  let '(k, l) := kl in
  match op with
  | Now w => let '(x, k') := now w k in (k', x :: l)
  | Observe o => (observe o k, option_list o ++ l)
  end.
Definition clock_run (k : Clock) (ops : list clock_op) : Clock * list Hlc :=
  fold_left clock_step ops (k, []).

(** The clock's own reading is not behind [x]. *)
Definition ahead (k : Clock) (x : Hlc) : Prop :=
  t x < last_t k \/ t x = last_t k /\ c x <= last_c k.

Lemma observe_ahead o k x : ahead k x -> ahead (observe o k) x.
Proof. unfold ahead, observe. destruct o as [y|]; [|done]. case_match; simpl; bool_prop; lia. Qed.

Lemma observe_ahead_self y k : ahead (observe (Some y) k) y.
Proof. unfold ahead, observe. case_match; simpl; bool_prop; lia. Qed.

Lemma now_ahead w k x : ahead k x -> ahead (now w k).2 x.
Proof. unfold ahead, now. case_match; simpl; bool_prop; lia. Qed.

Lemma now_later w k x : ahead k x -> hlc_lt x (now w k).1.
Proof. unfold ahead, now. rewrite hlc_lt_spec. case_match; simpl; bool_prop; lia. Qed.

Lemma clock_run_ahead k ops : Forall (ahead (clock_run k ops).1) (clock_run k ops).2.
Proof.
  induction ops as [|op ops IH] using rev_ind; [constructor|].
  unfold clock_run in *. rewrite fold_left_app. simpl.
  destruct (fold_left clock_step ops (k, [])) as [k1 l1]. simpl in *.
  destruct op as [w|o]; simpl.
  - constructor.
    + unfold ahead, now. case_match; simpl; lia.
    + eapply Forall_impl; [exact IH|]. intros x. apply (now_ahead w).
  - apply Forall_app. split.
    + destruct o; constructor; [apply observe_ahead_self|constructor].
    + eapply Forall_impl; [exact IH|]. intros x. apply observe_ahead.
Qed.

(** a stamp a clock makes is later than every stamp it made or saw before, whatever its wall
    clock reads (behind, equal or running backwards) and whichever devices made them; it carries
    the device's own name, and its time is never behind the wall clock. *)
Theorem clock_now_later k ops w :
  let '(k1, seen) := clock_run k ops in
  let x := (now w k1).1 in
  Forall (fun y => hlc_lt y x) seen /\ d x = device k /\ w <= t x.
Proof.
  pose proof (clock_run_ahead k ops) as H.
  assert (device (clock_run k ops).1 = device k) as Hd.
  { clear. induction ops as [|op ops IH] using rev_ind; [done|].
    unfold clock_run in *. rewrite fold_left_app. simpl.
    destruct (fold_left clock_step ops (k, [])) as [k1 l1]. simpl in *.
    destruct op as [w|[y|]]; simpl; [by case_match|by case_match|done]. }
  destruct (clock_run k ops) as [k1 seen]. simpl in *. split_and!.
  - eapply Forall_impl; [exact H|]. intros y. apply now_later.
  - rewrite <-Hd. unfold now. by case_match.
  - unfold now. case_match; simpl; bool_prop; lia.
Qed.
