(* ===== verification/MeshShare.v ===== *)
(** Settings and the console list shared through the consoles (client/src/lib/meshShare.ts, with
    MESH_KEYS of lib/sharedPrefs.ts and replaceShared of state/roster.ts): stamping what changed on
    this device, the console list a map describes, what a device must change to match a map, and one
    sync with a console's document. A console (a profile) is the map of its fields; a field set to
    undefined is a null here, and the order of an object's keys is not kept. *)
From S2P Require Import Prelude Addr Json MeshCrdt.

(** * Keys *)

Definition SHARED_KEYS : list str := js <$> [
  "ps5upload.desktop-sidebar.pinned.v1"; "ps5upload.desktop-sidebar.hidden.v1";
  "ps5upload.desktop-sidebar.closed-sections.v1";
  "ps5upload.always_overwrite"; "ps5upload.show_transfer_files"; "ps5upload.bandwidth_cap_mbps";
  "ps5upload.auto_resume"; "ps5upload.queue_auto_start"; "ps5upload.wake_for_uploads";
  "ps5upload.keep_ps5_awake_mode"; "ps5upload.keep_ps5_awake"; "ps5upload.auto_bring_up";
  "ps5upload.system_file_read"; "ps5upload.rest_after_upload"; "ps5upload.register_after_upload";
  "ps5upload.auto_install_after_upload"; "ps5upload.auto_remove_after_install";
  "ps5upload.auto_scan_external"; "ps5upload.install_path_fallback"; "ps5upload.link_install_mode";
  "ps5upload.link_install_insecure";
  "ps5upload.convert.compression"; "ps5upload.convert.full_verify"; "ps5upload.convert.image_compress";
  "ps5upload.convert.image_format"; "ps5upload.convert.image_level"; "ps5upload.convert.make";
  "ps5upload.convert.output_dir"; "ps5upload.convert.verify_chunk_kib";
  "ps5upload.save_path"; "ps5upload.auto_save_backup"; "ps5upload.beta_features";
  "ps5upload.log_level"; "ps5upload.notif_prune_days.v1"; "ps5upload.screenshots.png_mode";
  "ps5upload.saved_searches.v1";
  "ps5upload.helperStopped"; "ps5upload.minionOff"; "ps5upload.c2c.routes.v1"]%string.

Definition MESH_KEYS : list str :=
  base.filter (fun k => k ∉ js <$> ["ps5upload.bandwidth_cap_mbps"; "ps5upload.convert.output_dir";
    "ps5upload.save_path"; "ps5upload.log_level"; "ps5upload.c2c.routes.v1"; "ps5upload.minionOff"]%string)
  SHARED_KEYS.

(** Fields of a console that are this device's own, never shared. *)
Definition LOCAL_FIELDS : list str :=
  js <$> ["id"; "last_seen_at"; "last_seen_kernel"; "last_seen_payload"]%string.

Definition P : str := js "p:".
Definition C : str := js "c:".
Definition settingKey (k : str) : str := P ++ k.
Definition consoleKey (host : str) : str := C ++ hostOf host.
Definition fieldKey (host field : str) : str := C ++ hostOf host ++ [":"%char] ++ field.
Definition isConsoleKey (k : str) : bool :=
  starts_with C k && negb (includes [":"%char] (drop (length C) k)).

(** * This device *)

(** A console of the list: the map of its fields. *)
Abbreviation PS5Profile := (gmap str json).
Definition host (p : PS5Profile) : str := default [] (as_str (p !! js "host")).

(** A [Map]: its entries in the order their keys were first set. *)
Abbreviation View := (list (str * json)).
Fixpoint map_set (k : str) (x : json) (l : View) : View :=
  match l with
  | [] => [(k, x)]
  | (k', y) :: l' => if decide (k = k') then (k, x) :: l' else (k', y) :: map_set k x l'
  end.
Fixpoint map_get (k : str) (l : View) : option json :=
  match l with
  | [] => None
  | (k', y) :: l' => if decide (k = k') then Some y else map_get k l'
  end.

(** What this device has now, for every shared key it holds. *)
Definition localView_profile (out : View) (p : PS5Profile) : View :=
  match hostOf (host p) with
  | [] => out
  | _ => fold_left (fun out '(f, x) =>
           if decide (f ∈ LOCAL_FIELDS) then out else map_set (fieldKey (host p) f) x out)
         (map_to_list p) (map_set (consoleKey (host p)) (JNum 1) out)
  end.
Definition str_or_null (o : option str) : json := match o with Some s => JStr s | None => JNull end.
Definition localView (profiles : list PS5Profile) (read : str -> option str) : View :=
  fold_left localView_profile profiles
    (fold_left (fun out k => map_set (settingKey k) (str_or_null (read k)) out) MESH_KEYS []).

(** [same(a, b)], undefined being null. *)
Definition same (a b : option json) : bool := bool_decide (a ?? JNull = b ?? JNull).

(** * Stamping what changed here

    [w k] is what the wall clock reads when key [k] is stamped. *)
Definition added (m : LwwMap json) (view : View) : list str :=
  base.filter (fun k => (isConsoleKey k &&
      negb match m !! k with Some r => negb (bool_decide (v r = JNull)) | None => false end) = true)
    view.*1.
Definition ofAdded (add : list str) (k : str) : bool :=
  match index_of ":" (drop (length C) k) with
  | Some i => bool_decide (take (i + length C) k ∈ add)
  | None => false
  end.

Definition set_now (w : Z) (k : str) (x : json) (oc : LwwMap json * Clock) : LwwMap json * Clock :=
  let '(st, c') := now w oc.2 in (<[k := {| v := x; h := st |}]> oc.1, c').

Definition stamp_view (w : str -> Z) (baseline : bool) (add : list str)
    (oc : LwwMap json * Clock) (e : str * json) : LwwMap json * Clock :=
  let '(k, x) := e in
  match oc.1 !! k with
  | None =>
      if decide (x = JNull) then oc
      else if baseline || ofAdded add k
           then (<[k := {| v := x; h := {| t := 0; c := 0; d := device oc.2 |} |}]> oc.1, oc.2)
           else set_now (w k) k x oc
  | Some cur => if negb (same (Some (v cur)) (Some x)) then set_now (w k) k x oc else oc
  end.

Definition stamp_gone (w : str -> Z) (view : View)
    (oc : LwwMap json * Clock) (e : str * Reg json) : LwwMap json * Clock :=
  let '(k, r) := e in
  if isConsoleKey k && negb (bool_decide (v r = JNull)) && bool_decide (map_get k view = None)
  then set_now (w k) k JNull oc else oc.

Definition stampLocal (w : str -> Z) (m : LwwMap json) (view : View) (clock : Clock) (baseline : bool)
    : LwwMap json * Clock :=
  fold_left (stamp_gone w view) (map_to_list m)
    (fold_left (stamp_view w baseline (added m view)) view (m, clock)).

(** * The console list a map describes *)

(** The fields a map holds for the console [hk]. *)
Definition field_prefix (hk : str) : str := C ++ hk ++ [":"%char].
Definition fieldsOf (m : LwwMap json) (hk : str) : PS5Profile :=
  list_to_map (omap (fun '(k, r) =>
    if starts_with (field_prefix hk) k then Some (drop (length (field_prefix hk)) k, v r) else None)
    (map_to_list m)).

Definition with_id (i : option json) (p : PS5Profile) : PS5Profile :=
  match i with Some i => <[js "id" := i]> p | None => delete (js "id") p end.

Definition keep_local (m : LwwMap json) (ns : list PS5Profile * list str) (p : PS5Profile)
    : list PS5Profile * list str :=
  let '(next, seen) := ns in
  let hk := hostOf (host p) in
  if bool_decide (hk = []) then (next ++ [p], seen)
  else if bool_decide (hk ∈ seen) then (next, seen)
  else if match m !! (C ++ hk) with Some r => bool_decide (v r = JNull) | None => false end
  then (next, seen)
  else (next ++ [with_id (p !! js "id") (fieldsOf m hk ∪ p)], hk :: seen).

(** [String(x)] of a field, for the values a name can be. *)
Definition to_string (x : json) : str :=
  match x with
  | JStr s => s
  | JNum n => if n <? 0 then js "-" ++ num (- n) else num n
  | JBool true => js "true"
  | JBool false => js "false"
  | JNull => js "null"
  | JArr _ | JObj _ => js "[object Object]"
  end.
(** [f.name ?? f.host]: null counts as absent. *)
Definition name_or_host (f : PS5Profile) (h : str) : str :=
  match f !! js "name" with
  | None | Some JNull => h
  | Some x => to_string x
  end.

(** [newId n] is the [n]th id made. *)
Definition append_new (m : LwwMap json) (newId : nat -> str)
    (ns : (list PS5Profile * list str) * nat) (e : str * Reg json) : (list PS5Profile * list str) * nat :=
  let '((next, seen), n) := ns in
  let '(k, r) := e in
  let hk := drop (length C) k in
  if negb (isConsoleKey k) then ns
  else if bool_decide (v r = JNull) || bool_decide (hk ∈ seen) then ns
  else match as_str (fieldsOf m hk !! js "host") with
       | None | Some [] => ns
       | Some hst =>
           ((next ++ [<[js "name" := JStr (name_or_host (fieldsOf m hk) hst)]>
                       (<[js "id" := JStr (newId n)]> (fieldsOf m hk))], hk :: seen), S n)
       end.

Definition rosterFrom (m : LwwMap json) (local : list PS5Profile) (newId : nat -> str) : list PS5Profile :=
  (fold_left (append_new m newId) (map_to_list m) (fold_left (keep_local m) local ([], []), 0%nat)).1.1.

(** * What to change here *)

Definition strip (l : list PS5Profile) : list PS5Profile :=
  (fun p : PS5Profile => base.filter (fun '(f, _) => f ∉ LOCAL_FIELDS \/ f = js "id") p) <$> l.

Definition plan_setting (m : LwwMap json) (view : View) (k : str) : option (str * option str) :=
  match m !! settingKey k with
  | None => None
  | Some r => if same (Some (v r)) (map_get (settingKey k) view) then None
              else Some (k, as_str (Some (v r)))
  end.
Definition plan (m : LwwMap json) (view : View) (profiles : list PS5Profile) (newId : nat -> str)
    : list (str * option str) * option (list PS5Profile) :=
  let roster := rosterFrom m profiles newId in
  (omap (plan_setting m view) MESH_KEYS,
   if bool_decide (strip roster = strip profiles) then None else Some roster).

(** * The stored copy *)

Record Persisted := { clock : Clock; shared : LwwMap json }.

Definition clock_json (k : Clock) : json := JObj [(js "t", JNum (last_t k)); (js "c", JNum (last_c k))].
Definition saveState (s : Persisted) : json :=
  JObj [(js "device", JStr (device (clock s))); (js "clock", clock_json (clock s)); (js "m", map_json (shared s))].
(** [p] is what is stored, parsed; [None] when it is missing or does not parse. *)
Definition loadState (randomId : str) (p : option json) : Persisted :=
  let fresh := {| clock := {| device := randomId; last_t := 0; last_c := 0 |}; shared := ∅ |} in
  match p with
  | None => fresh
  | Some p =>
      match as_str (get "device" p), get "clock" p with
      | Some (a :: dev), Some ck =>
          match as_num (get "t" ck) with
          | Some ms => {| clock := {| device := a :: dev; last_t := ms; last_c := as_num (get "c" ck) ?? 0 |};
                          shared := match get "m" p with Some m => asMap m | None => ∅ end |}
          | None => fresh
          end
      | _, _ => fresh
      end
  end.

(** * One sync *)

(** A device: its copy, its settings and its console list. *)
Record Device := { st : Persisted; settings : gmap str str; profiles : list PS5Profile }.

Definition view_of (dv : Device) : View := localView (profiles dv) (fun k => settings dv !! k).

Definition stampNow (w : str -> Z) (baseline : bool) (dv : Device) : Device :=
  let '(m, ck) := stampLocal w (shared (st dv)) (view_of dv) (clock (st dv)) baseline in
  {| st := {| clock := ck; shared := m |}; settings := settings dv; profiles := profiles dv |}.

(** A set-up from before sharing (stamp time 0) gives way to what the consoles already hold. *)
Definition adoptBaseline (local remote : LwwMap json) : LwwMap json :=
  map_imap (fun k r =>
    if (t (h r) =? 0) && match remote !! k with
                         | Some theirs => negb (bool_decide (d (h theirs) = d (h r)))
                         | None => false
                         end
    then None else Some r) local.

(** [replaceShared]: the incoming list, keeping what this device saw of each console itself. *)
Definition seen_fields : list str := js <$> ["last_seen_at"; "last_seen_kernel"; "last_seen_payload"]%string.
Definition replaceShared (mine incoming : list PS5Profile) : list PS5Profile :=
  (fun p =>
     let local := find_first (fun q => bool_decide (q !! js "id" = p !! js "id")) (rev mine) in
     fold_left (fun out f =>
       <[f := match local with
              | Some q => if bool_decide (hostOf (host q) = hostOf (host p)) then q !! f ?? JNull else JNull
              | None => JNull
              end]> out) seen_fields p) <$> incoming.

Definition apply_setting (s : gmap str str) (e : str * option str) : gmap str str :=
  match e.2 with Some x => <[e.1 := x]> s | None => delete e.1 s end.

(** What one round leaves: this device, what the console should hold, and whether to write it. *)
Definition sync_round (w : str -> Z) (today : Z) (newId : nat -> str) (dv : Device) (remote : LwwMap json)
    : Device * LwwMap json * list str :=
  let dv1 := stampNow w false dv in
  let ck := observe (maxHlc remote) (clock (st dv1)) in
  let merged := pruneTombstones JNull (merge (adoptBaseline (shared (st dv1)) remote) remote) today in
  let todo := plan merged (view_of dv1) (profiles dv1) newId in
  ({| st := {| clock := ck; shared := merged |};
      settings := fold_left apply_setting todo.1 (settings dv1);
      profiles := match todo.2 with Some l => replaceShared (profiles dv1) l | None => profiles dv1 end |},
   merged, todo.1.*1).

(** The console's answer to a write: stored, not kept by its helper, or another device wrote in
    between (its revision and document). *)
Inductive PutAnswer := PutSaved | PutUnsupported | PutConflict (rev : Z) (doc : LwwMap json).

Definition MAX_ATTEMPTS : nat := 4.
(** The rounds of one sync, round [i] being attempt number [i]: what the wall clock read, the ids
    made and what the console answered are the round's. *)
Fixpoint sync_rounds (env : nat -> (str -> Z) * Z * (nat -> str)) (put : nat -> Z -> LwwMap json -> PutAnswer)
    (fuel i : nat) (dv : Device) (rev : Z) (remote : LwwMap json) (written : list str)
    : Device * list (Z * LwwMap json) * list str :=
  match fuel with
  | O => (dv, [], written)
  | S fuel =>
      let '(w, today, newId) := env i in
      let '(dv', merged, wrote) := sync_round w today newId dv remote in
      if sameMap merged remote then (dv', [], written ++ wrote)
      else
        let '(dv'', puts, wr) :=
          match put i rev merged with
          | PutConflict rev' doc => sync_rounds env put fuel (S i) dv' rev' doc (written ++ wrote)
          | _ => (dv', [], written ++ wrote)
          end in
        (dv'', (rev, merged) :: puts, wr)
  end.
Definition syncWith (env : nat -> (str -> Z) * Z * (nat -> str)) (put : nat -> Z -> LwwMap json -> PutAnswer)
    (legacy remote : LwwMap json) (rev : Z) (dv : Device)
    : Device * list (Z * LwwMap json) * list str :=
  sync_rounds env put MAX_ATTEMPTS 0 dv rev (if rev =? 0 then merge legacy remote else remote) [].

(** * The documents of 8.0.0 *)

Definition LEGACY : Hlc := {| t := 0; c := 0; d := js "legacy" |}.

Definition legacy_setting (keys : json) (out : LwwMap json) (k : str) : LwwMap json :=
  match match keys with JObj l => entry k l | _ => None end with
  | Some e => match as_num (get "at" e) with
              | Some at_ => <[settingKey k := {| v := str_or_null (as_str (get "v" e));
                                                h := {| t := at_; c := c LEGACY; d := d LEGACY |} |}]> out
              | None => out
              end
  | None => out
  end.
Definition legacy_console (out : LwwMap json) (p : json) : LwwMap json :=
  match p, as_str (get "host" p) with
  | JObj l, Some hst =>
      match hostOf hst with
      | [] => out
      | _ => fold_left (fun out '(f, x) =>
               if decide (f ∈ LOCAL_FIELDS) then out else <[fieldKey hst f := {| v := x; h := LEGACY |}]> out)
             l (<[consoleKey hst := {| v := JNum 1; h := LEGACY |}]> out)
      end
  | _, _ => out
  end.
(** [prefs] and [consoles]: the two documents, [None] when one is missing or could not be read. *)
Definition legacy (prefs consoles : option json) : LwwMap json :=
  let out := match prefs ≫= get "keys" with
             | Some keys => fold_left (legacy_setting keys) MESH_KEYS ∅
             | None => ∅
             end in
  match consoles ≫= get "profiles" with
  | Some (JArr l) => fold_left legacy_console l out
  | _ => out
  end.

(** * Stamping: what it records *)

Definition later (ck : Clock) (st : Hlc) : Prop :=
  d st = device ck /\ forall y, ahead ck y -> hlc_lt y st.

(** [ck'] is [ck] moved on. *)
Definition moved (ck ck' : Clock) : Prop :=
  device ck' = device ck /\ forall y, ahead ck y -> ahead ck' y.

Lemma moved_refl ck : moved ck ck.
Proof. by split. Qed.
Lemma moved_trans a b x : moved a b -> moved b x -> moved a x.
Proof. intros [? ?] [? ?]. split; [congruence|auto]. Qed.
Lemma moved_later a b x : moved a b -> later b x -> later a x.
Proof. intros [? ?] [? ?]. split; [congruence|auto]. Qed.

Lemma set_now_spec w k x oc : exists st, later oc.2 st /\ moved oc.2 (set_now w k x oc).2 /\
  (set_now w k x oc).1 = <[k := {| v := x; h := st |}]> oc.1.
Proof.
  exists (now w oc.2).1. unfold set_now. destruct (now w oc.2) as [st ck] eqn:E. simpl.
  pose proof (now_later w oc.2) as Hl. pose proof (now_ahead w oc.2) as Ha.
  assert (device (now w oc.2).2 = device oc.2 /\ d (now w oc.2).1 = device oc.2) as [? ?].
  { unfold now. by case_match. }
  rewrite E in *. unfold later, moved. auto.
Qed.

(** What one value of this device leaves in its register. *)
Definition stamped (low : bool) (ck : Clock) (x : json) (old new : option (Reg json)) : Prop :=
  (old = None /\ x = JNull /\ new = None)
  \/ (exists cur, old = Some cur /\ v cur = x /\ new = old)
  \/ (old = None /\ x <> JNull /\ low = true /\ new = Some {| v := x; h := {| t := 0; c := 0; d := device ck |} |})
  \/ (exists st, later ck st /\ new = Some {| v := x; h := st |}
        /\ match old with None => x <> JNull /\ low = false | Some cur => v cur <> x end).

Lemma stamped_moved low a b x old new : moved a b -> stamped low b x old new -> stamped low a x old new.
Proof.
  unfold stamped. intros Hm [?|[?|[(? & ? & ? & ->)|(x0 & ? & ?)]]]; [auto|auto| |].
  - destruct Hm as [-> _]. right. right. left. auto.
  - right. right. right. exists x0. split; [by eapply moved_later|done].
Qed.

Lemma stamp_view_spec w base add oc k x :
  let oc' := stamp_view w base add oc (k, x) in
  moved oc.2 oc'.2 /\ stamped (base || ofAdded add k) oc.2 x (oc.1 !! k) (oc'.1 !! k)
  /\ forall k', k' <> k -> oc'.1 !! k' = oc.1 !! k'.
Proof.
  cbv zeta. unfold stamp_view. destruct (set_now_spec (w k) k x oc) as (s0 & Hl & Hm & Hs).
  destruct (oc.1 !! k) as [cur|] eqn:E.
  - unfold same. case_bool_decide as Hv; cbn [negb]; cbn in Hv.
    + rewrite E. split_and!; [apply moved_refl|right; left; eauto|done].
    + rewrite Hs. split_and!; [done| |].
      * right. right. right. exists s0. by rewrite lookup_insert_eq.
      * intros k' Hk'. by rewrite lookup_insert_ne.
  - case_decide as Hx; [|destruct (base || ofAdded add k) eqn:Hlow].
    + rewrite E. split_and!; [apply moved_refl|by left|done].
    + cbn [fst snd]. split_and!; [apply moved_refl| |intros k' Hk'; by rewrite lookup_insert_ne].
      right. right. left. by rewrite lookup_insert_eq.
    + rewrite Hs. split_and!; [done| |].
      * right. right. right. exists s0. by rewrite lookup_insert_eq.
      * intros k' Hk'. by rewrite lookup_insert_ne.
Qed.

Lemma stamp_views_spec w base add l oc : NoDup l.*1 ->
  let oc' := fold_left (stamp_view w base add) l oc in
  moved oc.2 oc'.2
  /\ (forall k x, (k, x) ∈ l -> stamped (base || ofAdded add k) oc.2 x (oc.1 !! k) (oc'.1 !! k))
  /\ (forall k, k ∉ l.*1 -> oc'.1 !! k = oc.1 !! k).
Proof.
  revert oc. induction l as [|[k x] l IH]; intros oc Hnd; cbv zeta.
  { split_and!; [apply moved_refl|by intros ? ? ?%elem_of_nil|done]. }
  inversion Hnd as [|? ? Hk Hnd']; subst. cbn [fold_left].
  destruct (stamp_view_spec w base add oc k x) as (Hm & Hs & Ho). cbv zeta in Hm, Hs, Ho.
  set (oc1 := stamp_view w base add oc (k, x)) in *.
  destruct (IH oc1 Hnd') as (Hm1 & Hs1 & Ho1). split_and!.
  - by eapply moved_trans.
  - intros k' x' [[= -> ->]|Hin]%elem_of_cons; [by rewrite Ho1|].
    assert (k' <> k) as Hne. { intros ->. apply Hk, list_elem_of_fmap. by exists (k, x'). }
    rewrite <-(Ho k' Hne). eapply stamped_moved; eauto.
  - intros k' [Hne Hni]%not_elem_of_cons. rewrite Ho1 by done. by apply Ho.
Qed.

(** The second pass: consoles no longer here. *)
Definition is_gone (view : View) (k : str) (r : Reg json) : bool :=
  isConsoleKey k && negb (bool_decide (v r = JNull)) && bool_decide (map_get k view = None).

Lemma stamp_gones_spec w view l oc : NoDup l.*1 ->
  let oc' := fold_left (stamp_gone w view) l oc in
  moved oc.2 oc'.2
  /\ (forall k r, (k, r) ∈ l -> if is_gone view k r
        then exists st, later oc.2 st /\ oc'.1 !! k = Some {| v := JNull; h := st |}
        else oc'.1 !! k = oc.1 !! k)
  /\ (forall k, k ∉ l.*1 -> oc'.1 !! k = oc.1 !! k).
Proof.
  revert oc. induction l as [|[k r] l IH]; intros oc Hnd; cbv zeta.
  { split_and!; [apply moved_refl|by intros ? ? ?%elem_of_nil|done]. }
  inversion Hnd as [|? ? Hk Hnd']; subst. cbn [fold_left stamp_gone]. fold (is_gone view k r).
  destruct (is_gone view k r) eqn:Hg.
  - destruct (set_now_spec (w k) k JNull oc) as (st & Hl & Hm & Ho).
    set (oc1 := set_now (w k) k JNull oc) in *.
    destruct (IH oc1 Hnd') as (Hm1 & Hs1 & Ho1). split_and!.
    + by eapply moved_trans.
    + intros k' r' [[= -> ->]|Hin]%elem_of_cons.
      * rewrite Hg, (Ho1 k Hk), Ho, lookup_insert_eq. eauto.
      * assert (k' <> k) as Hne. { intros ->. apply Hk, list_elem_of_fmap. by exists (k, r'). }
        specialize (Hs1 k' r' Hin). case_match.
        -- destruct Hs1 as (st' & ? & ?). exists st'. split; [by eapply moved_later|done].
        -- by rewrite Hs1, Ho, lookup_insert_ne.
    + intros k' [Hne Hni]%not_elem_of_cons. by rewrite Ho1, Ho, lookup_insert_ne.
  - destruct (IH oc Hnd') as (Hm1 & Hs1 & Ho1). split_and!; [done| |].
    + intros k' r' [[= -> ->]|Hin]%elem_of_cons; [|by apply Hs1]. rewrite Hg. by apply Ho1.
    + intros k' [Hne Hni]%not_elem_of_cons. by apply Ho1.
Qed.

Lemma map_get_None k l : map_get k l = None <-> k ∉ l.*1.
Proof.
  induction l as [|[k' y] l IH]; simpl; [set_solver|].
  case_decide; subst; [set_solver|]. rewrite IH. set_solver.
Qed.

(** Every register the two passes leave, by what the key was and is. *)
Lemma stampLocal_lookup w m view ck base : NoDup view.*1 ->
  let oc := stampLocal w m view ck base in
  moved ck oc.2
  /\ (forall k x, (k, x) ∈ view -> stamped (base || ofAdded (added m view) k) ck x (m !! k) (oc.1 !! k))
  /\ (forall k, k ∉ view.*1 ->
        match m !! k with
        | Some r => if isConsoleKey k && negb (bool_decide (v r = JNull))
                    then exists st, later ck st /\ oc.1 !! k = Some {| v := JNull; h := st |}
                    else oc.1 !! k = Some r
        | None => oc.1 !! k = None
        end).
Proof.
  intros Hnd. cbv zeta. unfold stampLocal.
  destruct (stamp_views_spec w base (added m view) view (m, ck) Hnd) as (Hm1 & Hs1 & Ho1).
  set (oc1 := fold_left _ view _) in *. simpl in Hm1, Hs1, Ho1.
  destruct (stamp_gones_spec w view (map_to_list m) oc1 (NoDup_fst_map_to_list m)) as (Hm2 & Hs2 & Ho2).
  set (oc2 := fold_left _ _ oc1) in *. split_and!; [by eapply moved_trans| |].
  - intros k x Hin. replace (oc2.1 !! k) with (oc1.1 !! k); [by apply Hs1|symmetry].
    destruct (m !! k) as [r|] eqn:E.
    + specialize (Hs2 k r). rewrite elem_of_map_to_list in Hs2. specialize (Hs2 E).
      replace (is_gone view k r) with false in Hs2; [done|symmetry].
      unfold is_gone. rewrite (bool_decide_eq_false_2 (map_get k view = None)); [apply andb_false_r|].
      rewrite map_get_None. intros Hn. apply Hn, list_elem_of_fmap. by exists (k, x).
    + apply Ho2. intros ((k' & r') & -> & Hin')%list_elem_of_fmap.
      apply elem_of_map_to_list in Hin'. simpl in *. congruence.
  - intros k Hk. destruct (m !! k) as [r|] eqn:E.
    + specialize (Hs2 k r). rewrite elem_of_map_to_list in Hs2. specialize (Hs2 E). unfold is_gone in Hs2.
      rewrite (bool_decide_eq_true_2 (map_get k view = None)), andb_true_r in Hs2 by by apply map_get_None.
      case_match; [|by rewrite Hs2, Ho1]. destruct Hs2 as (st & ? & ?). exists st.
      split; [by eapply moved_later|done].
    + rewrite Ho2, Ho1; [done|done|]. intros ((k' & r') & -> & Hin')%list_elem_of_fmap.
      apply elem_of_map_to_list in Hin'. simpl in *. congruence.
Qed.

(** With nothing to say, a look changes neither the map nor the clock. *)
Lemma stampLocal_quiet w m view ck base :
  (forall k x, (k, x) ∈ view -> same (v <$> m !! k) (Some x) = true) ->
  (forall k r, m !! k = Some r -> is_gone view k r = false) ->
  stampLocal w m view ck base = (m, ck).
Proof.
  intros H1 H2. unfold stampLocal.
  assert (forall add l, (forall k x, (k, x) ∈ l -> same (v <$> m !! k) (Some x) = true) ->
    fold_left (stamp_view w base add) l (m, ck) = (m, ck)) as Hv.
  { intros add l. induction l as [|[k x] l IH]; intros Hl; [done|]. cbn [fold_left].
    replace (stamp_view w base add (m, ck) (k, x)) with (m, ck); [apply IH; set_solver|].
    assert (same (v <$> m !! k) (Some x) = true) as Hs by (apply Hl; set_solver).
    unfold stamp_view. cbn [fst]. destruct (m !! k) as [cur|]; cbn in Hs.
    - by rewrite Hs.
    - unfold same in Hs. cbn in Hs. apply bool_decide_eq_true in Hs. by rewrite decide_True. }
  rewrite Hv by done. set (l := map_to_list m) at 1.
  assert (forall k r, (k, r) ∈ l -> is_gone view k r = false) as Hl.
  { intros k r Hin%elem_of_map_to_list. eauto. }
  clearbody l. induction l as [|[k r] l IH]; [done|]. cbn [fold_left stamp_gone].
  fold (is_gone view k r). rewrite Hl by set_solver. apply IH. set_solver.
Qed.

Lemma merge_forward (m out : LwwMap json) :
  (forall k r, m !! k = Some r -> out !! k = Some r \/ exists r', out !! k = Some r' /\ hlc_lt (h r) (h r')) ->
  merge m out = out /\ merge out m = out.
Proof.
  intros H. split; apply map_eq; intros k; rewrite merge_lookup; specialize (H k);
    destruct (m !! k) as [r|]; try by destruct (out !! k).
  - destruct (H r eq_refl) as [->|(r' & -> & Hl)]; simpl; [by case_match|].
    by rewrite (proj2 (cmpHlc_gt _ _) Hl).
  - destruct (H r eq_refl) as [->|(r' & -> & Hl)]; simpl; [by case_match|].
    destruct (0 <? cmpHlc (h r) (h r')) eqn:E; [|done]. apply cmpHlc_gt in E.
    exfalso. eapply hlc_lt_irrefl, hlc_lt_trans; eauto.
Qed.

Lemma elem_of_fst {A B} (l : list (A * B)) k : k ∈ l.*1 <-> exists x, (k, x) ∈ l.
Proof.
  rewrite list_elem_of_fmap. split; [intros ([? x] & -> & ?); by exists x|intros [x ?]; by exists (k, x)].
Qed.

(** stamping this device's changes leaves a copy that says what the device has: every value it
    holds is in its register (a null nobody ever set needs none), a console gone from its list is
    a removal, every other key is as it was; each change beats the copy it was made on (merging the
    two, either way round, gives the new one), and a second look at the same device stamps
    nothing. *)
Theorem stampLocal_settles w w' m view ck base
  (Hmap : NoDup view.*1)
  (Hck : forall k r, m !! k = Some r -> ahead ck (h r)) :
  let '(out, ck') := stampLocal w m view ck false in
  (forall k x, (k, x) ∈ view -> same (v <$> out !! k) (Some x) = true)
  /\ (forall k r, m !! k = Some r -> k ∉ view.*1 -> isConsoleKey k = true -> v <$> out !! k = Some JNull)
  /\ (forall k, k ∉ view.*1 -> isConsoleKey k = false -> out !! k = m !! k)
  /\ merge m out = out /\ merge out m = out
  /\ stampLocal w' out view ck' base = (out, ck').
Proof.
  destruct (stampLocal_lookup w m view ck false Hmap) as (Hm & Hv & Ho).
  destruct (stampLocal w m view ck false) as [out ck']. cbv zeta in *. cbn [fst snd] in *.
  assert (forall k x, (k, x) ∈ view -> same (v <$> out !! k) (Some x) = true) as G1.
  { intros k x Hin. unfold same. apply bool_decide_eq_true.
    destruct (Hv k x Hin) as [(_ & -> & ->)|[(cur & He & <- & ->)|[(_ & _ & _ & ->)|(s0 & _ & -> & _)]]]; try done.
    by rewrite He. }
  assert (forall k r, m !! k = Some r -> k ∉ view.*1 -> isConsoleKey k = true -> v <$> out !! k = Some JNull) as G2.
  { intros k r Hr Hk Hc. specialize (Ho k Hk). rewrite Hr, Hc in Ho.
    case_bool_decide as Hn; cbn in Ho; [by rewrite Ho, <-Hn|]. by destruct Ho as (s0 & _ & ->). }
  split_and!; [done|done| | | |].
  - intros k Hk Hc. specialize (Ho k Hk). destruct (m !! k); [|done]. by rewrite Hc in Ho.
  - apply merge_forward. intros k r Hr. destruct (decide (k ∈ view.*1)) as [[x Hin]%elem_of_fst|Hk].
    + destruct (Hv k x Hin) as [(? & _)|[(cur & _ & _ & ->)|[(? & _)|(s0 & [_ Hl] & -> & _)]]]; try congruence; [by left|].
      right. eexists; split; [done|]. cbn. eauto.
    + specialize (Ho k Hk). rewrite Hr in Ho. case_match; [|by left].
      destruct Ho as (s0 & [_ Hl] & ->). right. eexists; split; [done|]. cbn. eauto.
  - apply merge_forward. intros k r Hr. destruct (decide (k ∈ view.*1)) as [[x Hin]%elem_of_fst|Hk].
    + destruct (Hv k x Hin) as [(? & _)|[(cur & _ & _ & ->)|[(? & _)|(s0 & [_ Hl] & -> & _)]]]; try congruence; [by left|].
      right. eexists; split; [done|]. cbn. eauto.
    + specialize (Ho k Hk). rewrite Hr in Ho. case_match; [|by left].
      destruct Ho as (s0 & [_ Hl] & ->). right. eexists; split; [done|]. cbn. eauto.
  - apply stampLocal_quiet; [done|]. intros k r Hr. unfold is_gone.
    destruct (isConsoleKey k) eqn:Hc; [|done]. destruct (map_get k view) eqn:Hg; [by rewrite andb_false_r|].
    apply map_get_None in Hg. destruct (m !! k) as [r0|] eqn:Hr0.
    + pose proof (G2 k r0 Hr0 Hg Hc) as E. rewrite Hr in E. injection E as ->. done.
    + specialize (Ho k Hg). rewrite Hr0 in Ho. congruence.
Qed.

Lemma stampLocal_settles_witness :
  let view := [(js "c:10.0.0.2", JNum 1); (js "c:10.0.0.2:name", JStr (js "Den"))] in
  let m : LwwMap json := {[ js "c:10.0.0.1" := {| v := JNum 1; h := {| t := 5; c := 0; d := js "mac" |} |} ]} in
  let out := (stampLocal (fun _ => 3) m view {| device := js "phone"; last_t := 5; last_c := 0 |} false).1 in
  v <$> out !! js "c:10.0.0.1" = Some JNull /\ merge m out = out.
Proof.
  cbv zeta.
  pose proof (stampLocal_settles (fun _ => 3) (fun _ => 3) {[ js "c:10.0.0.1" := {| v := JNum 1; h := {| t := 5; c := 0; d := js "mac" |} |} ]}
    [(js "c:10.0.0.2", JNum 1); (js "c:10.0.0.2:name", JStr (js "Den"))]
    {| device := js "phone"; last_t := 5; last_c := 0 |} false) as H.
  destruct (stampLocal _ _ _ _ false) as [out ck']. destruct H as (_ & H & _ & H' & _).
  - apply (bool_decide_unpack _). vm_compute. done.
  - intros k r [<- <-]%lookup_singleton_Some. unfold ahead. simpl. lia.
  - split; [|exact H']. apply (H _ {| v := JNum 1; h := {| t := 5; c := 0; d := js "mac" |} |}).
    + by rewrite lookup_singleton_eq.
    + apply (bool_decide_unpack _). vm_compute. done.
    + reflexivity.
Defined.

(** * IPv6 consoles *)

Lemma isConsoleKey_consoleKey hst : isConsoleKey (consoleKey hst) = negb (includes [":"%char] (hostOf hst)).
Proof. unfold isConsoleKey, consoleKey. by rewrite drop_app_length, (proj2 (starts_with_true _ _)) by by apply prefix_app_r. Qed.

(** a console reached by an IPv6 address is not shared: its key is not taken for a console's, so
    removing it here leaves its register as it was, and no device adds it to its list from the map. *)
Theorem ipv6_console_not_shared hst
  (Hcolon : includes [":"%char] (hostOf hst) = true) :
  isConsoleKey (consoleKey hst) = false
  /\ (forall w m view ck base, NoDup view.*1 -> consoleKey hst ∉ view.*1 ->
        (stampLocal w m view ck base).1 !! consoleKey hst = m !! consoleKey hst)
  /\ (forall m newId ns r, append_new m newId ns (consoleKey hst, r) = ns).
Proof.
  assert (isConsoleKey (consoleKey hst) = false) as Hk by by rewrite isConsoleKey_consoleKey, Hcolon.
  split_and!; [done| |].
  - intros w m view ck base Hnd Hni. destruct (stampLocal_lookup w m view ck base Hnd) as (_ & _ & Ho).
    cbv zeta in Ho. specialize (Ho _ Hni). rewrite Hk in Ho. by destruct (m !! consoleKey hst).
  - intros m newId [[next seen] n] r. unfold append_new. by rewrite Hk.
Qed.

Lemma ipv6_console_not_shared_witness :
  hostOf (js "[fe80::1]:9114") = js "fe80::1" /\ isConsoleKey (consoleKey (js "[fe80::1]:9114")) = false.
Proof. split; [reflexivity|]. apply ipv6_console_not_shared. vm_compute. reflexivity. Defined.

(** * What a sync writes here *)

Lemma map_get_set k k' x l : map_get k (map_set k' x l) = if decide (k = k') then Some x else map_get k l.
Proof.
  induction l as [|[k1 y] l IH]; simpl; [by repeat case_decide|].
  destruct (decide (k' = k1)) as [->|]; simpl; repeat case_decide; subst; congruence.
Qed.

Lemma localView_setting ps read k : k ∈ MESH_KEYS ->
  map_get (settingKey k) (localView ps read) = Some (str_or_null (read k)).
Proof.
  intros Hk. unfold localView.
  assert (map_get (settingKey k) (fold_left (fun out k => map_set (settingKey k) (str_or_null (read k)) out)
            MESH_KEYS []) = Some (str_or_null (read k))) as H0.
  { generalize (@nil (str * json)) as acc. revert Hk. generalize MESH_KEYS as l.
    induction l as [|k1 l IH] using rev_ind; intros Hk acc; [by apply elem_of_nil in Hk|].
    rewrite fold_left_app. simpl. rewrite map_get_set. case_decide as He.
    - unfold settingKey in He. apply app_inv_head in He. by subst.
    - apply IH. apply elem_of_app in Hk as [?|Hk]; [done|].
      apply list_elem_of_singleton in Hk as ->. done. }
  revert H0. generalize (fold_left (fun out k => map_set (settingKey k) (str_or_null (read k)) out) MESH_KEYS []).
  induction ps as [|p ps IH]; intros acc H0; [done|]. cbn [fold_left]. apply IH.
  unfold localView_profile. destruct (hostOf (host p)) as [|a hh] eqn:Hh; [done|].
  assert (forall l acc, map_get (settingKey k) acc = Some (str_or_null (read k)) ->
    map_get (settingKey k) (fold_left (fun out '(f, x) =>
      if decide (f ∈ LOCAL_FIELDS) then out else map_set (fieldKey (host p) f) x out) l acc)
    = Some (str_or_null (read k))) as Hl.
  { induction l as [|[f x] l IHl]; intros acc' Ha; [done|]. cbn [fold_left]. apply IHl.
    case_decide; [done|]. rewrite map_get_set, decide_False; [done|].
    unfold settingKey, fieldKey, P, C. by intros [=]. }
  apply Hl. rewrite map_get_set, decide_False; [done|].
  unfold settingKey, consoleKey, P, C. by intros [=].
Qed.

Lemma MESH_KEYS_NoDup : NoDup MESH_KEYS.
Proof. apply (bool_decide_unpack _). vm_compute. exact I. Qed.

Lemma apply_settings_lookup (f : str -> option (option str)) l s k : NoDup l ->
  fold_left apply_setting (omap (fun k => (fun x => (k, x)) <$> f k) l) s !! k =
  match (if decide (k ∈ l) then f k else None) with Some x => x | None => s !! k end.
Proof.
  revert s. induction l as [|k1 l IH]; intros s Hnd; [done|].
  inversion Hnd as [|? ? Hk Hnd']; subst. cbn [omap list_omap].
  destruct (decide (k = k1)) as [->|Hne].
  - rewrite (decide_True (P := k1 ∈ k1 :: l)) by (apply elem_of_cons; by left).
    assert (forall s, fold_left apply_setting (omap (fun k => (fun x => (k, x)) <$> f k) l) s !! k1 = s !! k1) as H.
    { intros s'. rewrite IH by done. by rewrite decide_False. }
    destruct (f k1) as [x|]; cbn [fmap option_fmap option_map fold_left].
    + rewrite H. unfold apply_setting. cbn. destruct x; [by rewrite lookup_insert_eq|by rewrite lookup_delete_eq].
    + apply H.
  - rewrite (decide_ext (k ∈ k1 :: l) (k ∈ l)) by (rewrite elem_of_cons; naive_solver).
    destruct (f k1) as [x|]; cbn [fmap option_fmap option_map fold_left]; rewrite IH by done.
    + destruct (if decide (k ∈ l) then f k else None); [done|]. unfold apply_setting. cbn.
      destruct x; [by rewrite lookup_insert_ne|by rewrite lookup_delete_ne].
    + done.
Qed.

(** after one round with a console, every shared setting the merged map has a register for holds
    exactly its value on this device (unset for a value that is no text), every other setting is as
    it was, and this device's copy is the merged map. *)
Theorem sync_applies_settings w today newId dv remote :
  let '(dv', merged, written) := sync_round w today newId dv remote in
  shared (st dv') = merged
  /\ (forall k, settings dv' !! k =
        match (if decide (k ∈ MESH_KEYS) then merged !! settingKey k else None) with
        | Some r => as_str (Some (v r))
        | None => settings dv !! k
        end)
  /\ (forall k, k ∉ written -> settings dv' !! k = settings dv !! k).
Proof.
  unfold sync_round. destruct (stampNow w false dv) as [st1 s1 p1] eqn:Edv. cbn [st settings profiles].
  assert (s1 = settings dv) as ->.
  { unfold stampNow in Edv. destruct (stampLocal _ _ _ _ _). by injection Edv. }
  set (merged := pruneTombstones _ _ _). cbn [shared st].
  set (f := fun k => match merged !! settingKey k with
     | None => None
     | Some r => if same (Some (v r)) (Some (str_or_null (settings dv !! k))) then None else Some (as_str (Some (v r)))
     end).
  assert ((plan merged (view_of {| st := st1; settings := settings dv; profiles := p1 |}) p1 newId).1
    = omap (fun k => (fun x => (k, x)) <$> f k) MESH_KEYS) as Hp.
  { unfold plan. cbn [fst]. assert (forall l : list str, (forall k, k ∈ l -> k ∈ MESH_KEYS) ->
      omap (plan_setting merged (view_of {| st := st1; settings := settings dv; profiles := p1 |})) l
      = omap (fun k => (fun x => (k, x)) <$> f k) l) as H; [|by apply H].
    induction l as [|k l IH]; intros Hl; [done|]. cbn [omap list_omap].
    rewrite IH by (intros k' Hk'; apply Hl; apply elem_of_cons; by right).
    unfold plan_setting, view_of, f. cbn [profiles settings].
    rewrite localView_setting by (apply Hl, elem_of_cons; by left).
    destruct (merged !! settingKey k) as [r|]; [|done]. by destruct (same _ _). }
  rewrite Hp. split_and!; [done| |].
  - intros k. rewrite apply_settings_lookup by apply MESH_KEYS_NoDup. case_decide; [|done]. unfold f.
    destruct (merged !! settingKey k) as [r|]; [|done].
    destruct (same _ _) eqn:Hs; [|done]. unfold same in Hs. apply bool_decide_eq_true in Hs. cbn in Hs.
    rewrite Hs. by destruct (settings dv !! k).
  - intros k Hk. rewrite apply_settings_lookup by apply MESH_KEYS_NoDup. case_decide; [|done].
    destruct (f k) as [x|] eqn:Hf; [|done]. exfalso. apply Hk, elem_of_fst. exists x.
    apply list_elem_of_omap. exists k. by rewrite Hf.
Qed.

(** * The console list *)

Lemma fieldsOf_lookup m hk f : fieldsOf m hk !! f = v <$> m !! (field_prefix hk ++ f).
Proof.
  unfold fieldsOf. set (g := fun e : str * Reg json => _).
  assert (forall x, (f, x) ∈ omap g (map_to_list m) <-> exists r, m !! (field_prefix hk ++ f) = Some r /\ v r = x) as H.
  { intros x. rewrite list_elem_of_omap. split.
    - intros ([k r] & Hin%elem_of_map_to_list & Hg). unfold g in Hg.
      destruct (starts_with (field_prefix hk) k) eqn:E; [|done]. apply starts_with_true in E as [u ->].
      injection Hg as <- <-. rewrite drop_app_length. eauto.
    - intros (r & Hr & <-). exists (field_prefix hk ++ f, r). rewrite elem_of_map_to_list. split; [done|].
      unfold g. by rewrite (proj2 (starts_with_true _ _)), drop_app_length by by apply prefix_app_r. }
  destruct (list_to_map (omap g (map_to_list m)) !! f) as [x|] eqn:E.
  - apply elem_of_list_to_map_2, H in E as (r & -> & <-). done.
  - destruct (m !! (field_prefix hk ++ f)) as [r|] eqn:Hr; [|done].
    apply not_elem_of_list_to_map_2 in E. exfalso. apply E, elem_of_fst. exists (v r). apply H. eauto.
Qed.

Definition address (p : PS5Profile) : str := hostOf (host p).
Definition addresses (l : list PS5Profile) : list str := base.filter (fun a => a <> []) (address <$> l).
Definition removed_in (m : LwwMap json) (hk : str) : bool :=
  match m !! (C ++ hk) with Some r => bool_decide (v r = JNull) | None => false end.

(** A console entry agrees with the map: it is not a removed one, and every field the map has a
    register for holds its value (its id is this device's; a name is a text). *)
Definition agrees (m : LwwMap json) (p : PS5Profile) : Prop :=
  address p <> [] ->
  removed_in m (address p) = false
  /\ forall f r, m !! (field_prefix (address p) ++ f) = Some r ->
       f <> js "id" -> (f = js "name" -> exists s, v r = JStr s) -> p !! f = Some (v r).

(** The host field of a console says the address it is kept under: what [localView] writes. *)
Definition wf_hosts (m : LwwMap json) : Prop :=
  forall hk r, m !! (field_prefix hk ++ js "host") = Some r ->
    hk <> [] /\ exists s, v r = JStr s /\ hostOf s = hk.

Definition roster_inv (m : LwwMap json) (next : list PS5Profile) (seen : list str) : Prop :=
  NoDup (addresses next) /\ (forall hk, hk ∈ seen <-> hk ∈ addresses next) /\ Forall (agrees m) next.

Lemma addresses_snoc l p : addresses (l ++ [p]) = addresses l ++ (if decide (address p = []) then [] else [address p]).
Proof.
  unfold addresses. rewrite fmap_app, filter_app. f_equal. cbn [fmap list_fmap]. rewrite filter_cons.
  destruct (decide (address p = [])) as [E|E].
  - rewrite decide_False; [done|]. by intros H.
  - by rewrite decide_True.
Qed.

Lemma elem_of_addresses hk l : hk ∈ addresses l <-> hk <> [] /\ exists p, p ∈ l /\ address p = hk.
Proof.
  unfold addresses. rewrite list_elem_of_filter, list_elem_of_fmap. naive_solver.
Qed.

Lemma roster_inv_snoc m next seen p hk : roster_inv m next seen ->
  address p = hk -> hk <> [] -> hk ∉ seen -> agrees m p -> roster_inv m (next ++ [p]) (hk :: seen).
Proof.
  intros (Hn & Hs & Ha) Hp Hne Hni Hag. unfold roster_inv.
  rewrite addresses_snoc, Hp, decide_False by done. split_and!.
  - apply NoDup_app. split_and!; [done| |apply NoDup_singleton].
    intros x Hx ->%list_elem_of_singleton. by apply Hni, Hs.
  - intros x. rewrite elem_of_cons, elem_of_app, list_elem_of_singleton, Hs. tauto.
  - apply Forall_app. split; [done|by constructor].
Qed.

Lemma with_id_lookup i p f : f <> js "id" -> with_id i p !! f = p !! f.
Proof.
  intros Hf. destruct i; simpl; [by rewrite lookup_insert_ne|by rewrite lookup_delete_ne].
Qed.

(** The merged entry of a console of this device's list. *)
Lemma kept_entry m p i : wf_hosts m -> removed_in m (address p) = false ->
  let q := with_id i (fieldsOf m (address p) ∪ p) in address q = address p /\ agrees m q.
Proof.
  intros Hwf Hr. cbv zeta. set (q := with_id _ _).
  assert (forall f r, m !! (field_prefix (address p) ++ f) = Some r -> f <> js "id" -> q !! f = Some (v r)) as Hq.
  { intros f r Hf Hid. unfold q. rewrite with_id_lookup by done.
    apply lookup_union_Some_l. by rewrite fieldsOf_lookup, Hf. }
  assert (address q = address p) as Haq.
  { destruct (m !! (field_prefix (address p) ++ js "host")) as [r|] eqn:E.
    - destruct (Hwf _ _ E) as (_ & s & Hs & Hh). unfold address at 1, host.
      rewrite (Hq _ _ E) by done. by rewrite Hs.
    - unfold address at 1, host, q. rewrite with_id_lookup by done.
      rewrite lookup_union_r by by rewrite fieldsOf_lookup, E. done. }
  split; [done|]. intros _. rewrite Haq. split; [done|]. auto.
Qed.

Lemma keep_local_inv m ns p : wf_hosts m -> roster_inv m ns.1 ns.2 ->
  let ns' := keep_local m ns p in
  roster_inv m ns'.1 ns'.2 /\ (forall q, q ∈ ns.1 -> q ∈ ns'.1)
  /\ (address p = [] -> p ∈ ns'.1)
  /\ (address p <> [] -> removed_in m (address p) = false -> address p ∈ ns'.2)
  /\ (forall a, a ∈ ns.2 -> a ∈ ns'.2).
Proof.
  destruct ns as [next seen]. cbn [fst snd]. intros Hwf Hinv. cbv zeta. unfold keep_local.
  fold (address p). fold (removed_in m (address p)).
  destruct (bool_decide (address p = [])) eqn:E1.
  { apply bool_decide_eq_true in E1. cbn [fst snd]. split_and!; [|set_solver..].
    destruct Hinv as (Hn & Hs & Ha). unfold roster_inv. rewrite addresses_snoc, decide_True by done.
    rewrite app_nil_r. split_and!; [done..|]. apply Forall_app. split; [done|].
    constructor; [by intros ?|constructor]. }
  apply bool_decide_eq_false in E1. destruct (bool_decide (address p ∈ seen)) eqn:E2.
  { apply bool_decide_eq_true in E2. cbn [fst snd]. split_and!; [done|done|done|done|done]. }
  apply bool_decide_eq_false in E2. destruct (removed_in m (address p)) eqn:E3.
  { cbn [fst snd]. split_and!; done. }
  destruct (kept_entry m p (p !! js "id") Hwf E3) as [Haq Hag]. cbn [fst snd]. split_and!; [|set_solver..].
  by apply roster_inv_snoc.
Qed.

Lemma keep_locals_inv m l ns : wf_hosts m -> roster_inv m ns.1 ns.2 ->
  let ns' := fold_left (keep_local m) l ns in
  roster_inv m ns'.1 ns'.2 /\ (forall q, q ∈ ns.1 -> q ∈ ns'.1)
  /\ (forall p, p ∈ l -> address p = [] -> p ∈ ns'.1)
  /\ (forall p, p ∈ l -> address p <> [] -> removed_in m (address p) = false -> address p ∈ ns'.2)
  /\ (forall a, a ∈ ns.2 -> a ∈ ns'.2).
Proof.
  intros Hwf. revert ns. induction l as [|p l IH]; intros ns Hinv; cbv zeta; cbn [fold_left].
  { split_and!; [done|done|by intros ? ?%elem_of_nil|by intros ? ?%elem_of_nil|done]. }
  destruct (keep_local_inv m ns p Hwf Hinv) as (I1 & K1 & N1 & S1 & M1).
  destruct (IH _ I1) as (I2 & K2 & N2 & S2 & M2). split_and!; [done|auto| | |auto].
  - intros q [->|Hq]%elem_of_cons; auto.
  - intros q [->|Hq]%elem_of_cons; auto.
Qed.

Lemma append_new_inv m newId l nsn : wf_hosts m -> (forall k r, (k, r) ∈ l -> m !! k = Some r) ->
  roster_inv m nsn.1.1 nsn.1.2 ->
  let nsn' := fold_left (append_new m newId) l nsn in
  roster_inv m nsn'.1.1 nsn'.1.2 /\ (forall q, q ∈ nsn.1.1 -> q ∈ nsn'.1.1)
  /\ (forall a, a ∈ nsn.1.2 -> a ∈ nsn'.1.2)
  /\ (forall hk r s, (C ++ hk, r) ∈ l -> isConsoleKey (C ++ hk) = true -> v r <> JNull ->
        fieldsOf m hk !! js "host" = Some (JStr s) -> hk ∈ nsn'.1.2).
Proof.
  intros Hwf. revert nsn. induction l as [|[k r] l IH]; intros nsn Hl Hinv; cbv zeta; cbn [fold_left].
  { split_and!; [done|done|done|by intros ? ? ? ?%elem_of_nil]. }
  assert (let nsn' := append_new m newId nsn (k, r) in
    roster_inv m nsn'.1.1 nsn'.1.2 /\ (forall q, q ∈ nsn.1.1 -> q ∈ nsn'.1.1)
    /\ (forall a, a ∈ nsn.1.2 -> a ∈ nsn'.1.2)
    /\ (forall hk s, k = C ++ hk -> isConsoleKey k = true -> v r <> JNull ->
          fieldsOf m hk !! js "host" = Some (JStr s) -> hk ∈ nsn'.1.2)) as Hstep.
  { cbv zeta. destruct nsn as [[next seen] n]. cbn [fst snd] in *. unfold append_new.
    destruct (isConsoleKey k) eqn:Hk; cbn [negb]; [|by split_and!].
    assert (exists hk, k = C ++ hk) as [hk ->].
    { unfold isConsoleKey in Hk. apply andb_true_iff in Hk as [[u ->]%starts_with_true _]. by exists u. }
    rewrite drop_app_length. destruct (bool_decide (v r = JNull)) eqn:Ev; cbn [orb].
    { apply bool_decide_eq_true in Ev. by split_and!. }
    destruct (bool_decide (hk ∈ seen)) eqn:Es.
    { apply bool_decide_eq_true in Es. split_and!; [done..|]. by intros hk' s ->%app_inv_head. }
    apply bool_decide_eq_false in Es, Ev. destruct (fieldsOf m hk !! js "host") as [hj|] eqn:Hh; cbn [as_str];
      [|split_and!; [done..|]; intros hk' s <-%app_inv_head; congruence].
    rewrite fieldsOf_lookup in Hh. destruct (m !! (field_prefix hk ++ js "host")) as [rh|] eqn:Er; [|done].
    destruct (Hwf _ _ Er) as (Hne & s & Hs & Hhk). injection Hh as <-. rewrite Hs. cbn [as_str].
    destruct s as [|a s]; [by rewrite <-Hhk in Hne|]. set (q := <[js "name" := _]> _). cbn [fst snd].
    assert (address q = hk) as Haq.
    { unfold address, host, q. rewrite !lookup_insert_ne by done. by rewrite fieldsOf_lookup, Er, <-Hhk; cbn; rewrite Hs. }
    split_and!; [|set_solver..|by intros hk' s' ->%app_inv_head; left]. apply roster_inv_snoc; try done.
    intros _. rewrite Haq. split.
    - unfold removed_in. rewrite (Hl (C ++ hk) r) by (apply elem_of_cons; by left). by apply bool_decide_eq_false.
    - intros f r' Hr' Hid Hname. unfold q. destruct (decide (f = js "name")) as [->|Hf].
      + rewrite lookup_insert_eq. destruct (Hname eq_refl) as [s' Hs'].
        unfold name_or_host. rewrite fieldsOf_lookup, Hr'. cbn. by rewrite Hs'.
      + rewrite !lookup_insert_ne by done. by rewrite fieldsOf_lookup, Hr'. }
  destruct Hstep as (I1 & K1 & M1 & S1).
  destruct (IH (append_new m newId nsn (k, r))) as (I2 & K2 & M2 & S2); [|done|].
  { intros k' r' Hin. apply Hl, elem_of_cons. by right. }
  split_and!; [done|auto|auto|].
  intros hk r' s [[= Hk ->]|Hin]%elem_of_cons Hc Hv Hs; [|by eapply S2]. apply M2. eapply S1; eauto. by rewrite <-Hk.
Qed.

(** the console list a map describes has one entry per address, each agreeing with the map (no
    removed console, every field at its value); it keeps the entries of this device without an
    address and an entry for each of its consoles that was not removed, and it has one for every
    console the map lists with its address. *)
Theorem rosterFrom_spec m local newId (Hwf : wf_hosts m) :
  let roster := rosterFrom m local newId in
  NoDup (addresses roster)
  /\ Forall (agrees m) roster
  /\ (forall p, p ∈ local -> address p = [] -> p ∈ roster)
  /\ (forall p, p ∈ local -> address p <> [] -> removed_in m (address p) = false ->
        exists q, q ∈ roster /\ address q = address p)
  /\ (forall hk r rh, m !! (C ++ hk) = Some r -> isConsoleKey (C ++ hk) = true -> v r <> JNull ->
        m !! (field_prefix hk ++ js "host") = Some rh ->
        exists q, q ∈ roster /\ address q = hk).
Proof.
  cbv zeta. unfold rosterFrom.
  destruct (keep_locals_inv m local ([], []) Hwf) as (I1 & _ & N1 & S1 & _).
  { split_and!; [constructor|done|constructor]. }
  set (ns := fold_left (keep_local m) local ([], [])) in *.
  destruct (append_new_inv m newId (map_to_list m) (ns, 0%nat) Hwf) as (I2 & K2 & M2 & S2); [|done|].
  { intros k r. apply elem_of_map_to_list. }
  set (nsn := fold_left (append_new m newId) (map_to_list m) (ns, 0%nat)) in *. cbn [fst snd] in K2, M2.
  destruct I2 as (Hn & Hs & Ha). split_and!; [done|done|auto| |].
  - intros p Hp Hne Hr. pose proof (M2 _ (S1 p Hp Hne Hr)) as Hin. apply Hs, elem_of_addresses in Hin as [_ ?]. done.
  - intros hk r rh Hr Hc Hv Hrh. destruct (Hwf _ _ Hrh) as (_ & s & Hs' & _).
    assert (hk ∈ nsn.1.2) as Hin.
    { eapply S2; [by apply elem_of_map_to_list|done|done|]. rewrite fieldsOf_lookup, Hrh. cbn. by rewrite Hs'. }
    apply Hs, elem_of_addresses in Hin as [_ ?]. done.
Qed.

(** A rename made elsewhere, a console removed elsewhere and one added elsewhere. *)
Definition w_hlc (n : Z) (dev : string) : Hlc := {| t := n; c := 0; d := js dev |}.
Definition w_shared : LwwMap json := list_to_map [
  (js "c:10.0.0.1", {| v := JNull; h := w_hlc 9 "mac" |});
  (js "c:10.0.0.2", {| v := JNum 1; h := w_hlc 5 "mac" |});
  (js "c:10.0.0.2:name", {| v := JStr (js "Den"); h := w_hlc 7 "mac" |});
  (js "c:10.0.0.3", {| v := JNum 1; h := w_hlc 8 "mac" |});
  (js "c:10.0.0.3:host", {| v := JStr (js "10.0.0.3:9021"); h := w_hlc 8 "mac" |})].
Definition w_profile (id name host : string) : PS5Profile :=
  list_to_map [(js "id", JStr (js id)); (js "name", JStr (js name)); (js "host", JStr (js host))].
Definition w_list : list PS5Profile := [w_profile "a" "Left" "10.0.0.1"; w_profile "b" "PS5" "10.0.0.2"].
Definition w_ids (n : nat) : str := js "new" ++ num (Z.of_nat n).

Lemma rosterFrom_spec_witness :
  address <$> rosterFrom w_shared w_list w_ids = [js "10.0.0.2"; js "10.0.0.3"]
  /\ exists q, q ∈ rosterFrom w_shared w_list w_ids /\ address q = js "10.0.0.3".
Proof.
  split; [vm_compute; reflexivity|].
  apply (rosterFrom_spec w_shared w_list w_ids) with
    (r := {| v := JNum 1; h := w_hlc 8 "mac" |}) (rh := {| v := JStr (js "10.0.0.3:9021"); h := w_hlc 8 "mac" |});
    [|vm_compute; reflexivity|vm_compute; reflexivity|done|vm_compute; reflexivity].
  intros hk r Hr. apply elem_of_list_to_map_2 in Hr.
  repeat (apply elem_of_cons in Hr as [Hr|Hr]); [..|by apply elem_of_nil in Hr].
  all: pose proof (f_equal fst Hr) as Hk; pose proof (f_equal snd Hr) as Hv; cbn [fst snd] in Hk, Hv; subst r.
  1-4: exfalso; apply (f_equal (@List.rev ascii)) in Hk; unfold field_prefix in Hk; rewrite !rev_app_distr in Hk; discriminate.
  change (js "c:10.0.0.3:host") with (field_prefix (js "10.0.0.3") ++ js "host") in Hk.
  apply app_inv_tail in Hk. unfold field_prefix in Hk. apply app_inv_head, app_inv_tail in Hk. subst hk.
  split; [done|]. by exists (js "10.0.0.3:9021").
Defined.

(** * Two consoles with documents of 8.0.0 *)

(** A console's kept document: its revision and its map. A sync with it, every write being kept. *)
Definition w_env (i : nat) : (str -> Z) * Z * (nat -> str) := (fun _ => 1000, 1000, w_ids).
Definition meet (legacy : LwwMap json) (dv : Device) (doc : Z * LwwMap json) : Device * (Z * LwwMap json) :=
  let '(dv', puts, _) := syncWith w_env (fun _ _ _ => PutSaved) legacy doc.2 doc.1 dv in
  (dv', match last puts with Some (r, m) => (r + 1, m) | None => doc end).

(** The two devices syncing with the same console in turn, [n] times. *)
Fixpoint take_turns (n : nat) (a b : Device) (doc : Z * LwwMap json) : Device * Device * (Z * LwwMap json) :=
  match n with
  | O => (a, b, doc)
  | S n => let '(a', doc1) := meet ∅ a doc in
           let '(b', doc2) := meet ∅ b doc1 in
           take_turns n a' b' doc2
  end.

(** A console whose 8.0.0 list names the PS5 at 10.0.0.9 [name], and a new device. *)
Definition w_legacy (name : string) : LwwMap json :=
  legacy None (Some (JObj [(js "profiles", JArr [JObj [(js "id", JStr (js "1"));
    (js "host", JStr (js "10.0.0.9")); (js "name", JStr (js name))]])])).
Definition w_device (dev : string) : Device :=
  {| st := loadState (js dev) None; settings := ∅; profiles := [] |}.
Definition w_phone : Device := (meet (w_legacy "Left") (w_device "phone") (0, ∅)).1.
Definition w_mac : Device := (meet (w_legacy "Right") (w_device "mac") (0, ∅)).1.
Definition names (dv : Device) : list (option json) := (fun p : PS5Profile => p !! js "name") <$> profiles dv.

Lemma meet_kept dv rev m : 0 < rev ->
  meet ∅ dv (rev, m) =
  (let '(dv', merged, _) := sync_round (fun _ => 1000) 1000 w_ids dv m in
   (dv', if sameMap merged m then (rev, m) else (rev + 1, merged))).
Proof.
  intros Hr. unfold meet, syncWith. cbn [fst snd].
  replace (rev =? 0) with false by (symmetry; apply Z.eqb_neq; lia).
  unfold MAX_ATTEMPTS. cbn [sync_rounds w_env].
  destruct (sync_round _ _ _ dv m) as [[dv' merged] wrote]. by destruct (sameMap merged m).
Qed.

(** One turn each: both devices are as before, each having put its own name on the console. *)
Definition turn (dv : Device) (m : LwwMap json) : Device * LwwMap json * bool :=
  let '(dv', merged, _) := sync_round (fun _ => 1000) 1000 w_ids dv m in (dv', merged, sameMap merged m).

#[export] Instance clock_eq_dec : EqDecision Clock.
Proof. solve_decision. Defined.
#[export] Instance persisted_eq_dec : EqDecision Persisted.
Proof. solve_decision. Defined.
#[export] Instance device_eq_dec : EqDecision Device.
Proof. solve_decision. Defined.

Lemma turn_phone : turn w_phone (shared (st w_mac)) = (w_phone, shared (st w_phone), false).
Proof. apply (bool_decide_unpack _). vm_compute. exact I. Qed.
Lemma turn_mac : turn w_mac (shared (st w_phone)) = (w_mac, shared (st w_mac), false).
Proof. apply (bool_decide_unpack _). vm_compute. exact I. Qed.
Lemma turn_phone_own : turn w_phone (shared (st w_phone)) = (w_phone, shared (st w_phone), true).
Proof. apply (bool_decide_unpack _). vm_compute. exact I. Qed.

Lemma meet_turn dv rev m dv' m' b : 0 < rev -> turn dv m = (dv', m', b) ->
  exists rev', 0 < rev' /\ meet ∅ dv (rev, m) = (dv', (rev', if b then m else m')).
Proof.
  intros Hr Ht. rewrite meet_kept by done. unfold turn in Ht.
  destruct (sync_round _ _ _ dv m) as [[dv1 merged] wrote]. injection Ht as -> -> <-.
  destruct (sameMap m' m); [exists rev|exists (rev + 1)]; (split; [lia|done]).
Qed.

Lemma turns_keep n rev : 0 < rev -> exists rev', 0 < rev' /\
  take_turns n w_phone w_mac (rev, shared (st w_mac)) = (w_phone, w_mac, (rev', shared (st w_mac))).
Proof.
  revert rev. induction n as [|n IH]; intros rev Hr; [by exists rev|]. cbn [take_turns].
  destruct (meet_turn w_phone rev _ _ _ _ Hr turn_phone) as (r1 & Hr1 & ->).
  destruct (meet_turn w_mac r1 _ _ _ _ Hr1 turn_mac) as (r2 & Hr2 & ->). by apply IH.
Qed.

(** two devices whose first syncs were through two consoles with 8.0.0 documents (which give
    different names to one PS5, both under the one stamp of such documents) never agree: however
    often they then take turns with one console, each keeps its own name for the PS5, each turn
    writing the console's copy over. *)
Theorem legacy_copies_never_agree n :
  let '(a, b, _) := take_turns n w_phone w_mac (1, shared (st w_phone)) in
  names a = [Some (JStr (js "Left"))] /\ names b = [Some (JStr (js "Right"))].
Proof.
  assert (names w_phone = [Some (JStr (js "Left"))] /\ names w_mac = [Some (JStr (js "Right"))]) as Hn.
  { split; (apply (bool_decide_unpack _); vm_compute; exact I). }
  destruct n as [|n]; [exact Hn|]. cbn [take_turns].
  destruct (meet_turn w_phone 1 _ _ _ _ eq_refl turn_phone_own) as (r1 & Hr1 & ->).
  destruct (meet_turn w_mac r1 _ _ _ _ Hr1 turn_mac) as (r2 & Hr2 & ->).
  destruct (turns_keep n r2 Hr2) as (r3 & _ & ->). exact Hn.
Qed.

(** * The stored copy comes back *)

(** what a device stores of its copy is what it loads: its sync id, its clock and every register
    with its stamp; anything that is not such a copy starts over with a new id and an empty map. *)
Theorem stored_copy_comes_back s randomId
  (Hdev : device (clock s) <> []) :
  loadState randomId (Some (saveState s)) = s
  /\ loadState randomId None = {| clock := {| device := randomId; last_t := 0; last_c := 0 |}; shared := ∅ |}.
Proof.
  split; [|done]. destruct s as [[[|a dev] lt lc] m]; [done|].
  transitivity {| clock := {| device := a :: dev; last_t := lt; last_c := lc |}; shared := asMap (map_json m) |};
    [done|by rewrite asMap_map_json].
Qed.

Lemma stored_copy_comes_back_witness :
  loadState (js "new") (Some (saveState (st w_phone))) = st w_phone.
Proof.
  refine (proj1 (stored_copy_comes_back (st w_phone) (js "new") _)).
  apply (bool_decide_unpack _). vm_compute. exact I.
Defined.
