(* ===== verification/Paths.v ===== *)
(** Console paths as the Files pages build and read them (client/src/console/files/move.ts). *)
From S2P Require Import Prelude.

Definition slash : ascii := "/"%char.

(** [p.replace(/\/+$/, "")]. *)
Definition trim (p : str) : str := strip_end (is_char slash) p.

Fixpoint strip_slashes (s : str) : str := match s with a :: s' => if decide (a = slash) then strip_slashes s' else s | [] => [] end.
(** [replace(/^\/+|\/+$/g, "")] *)
Definition strip_both (s : str) : str := strip_end (is_char slash) (strip_slashes s).

Definition joinPath (dir name : str) : str := trim dir ++ [slash] ++ name.
Definition parentPath (path : str) : str :=
  match last_index_of slash (trim path) with
  | None | Some O => [slash]
  | Some i => take i (trim path)
  end.
Definition baseName (path : str) : str :=
  match last_index_of slash (trim path) with
  | None => trim path
  | Some i => drop (S i) (trim path)
  end.

(** [destDir] is [item] or inside it. *)
Definition or_root (p : str) : str := match p with [] => [slash] | _ => p end.
Definition isInside (destDir item : str) : bool :=
  let d := or_root (trim destDir) in
  let i := or_root (trim item) in
  bool_decide (d = i) || starts_with (if decide (i = [slash]) then [slash] else i ++ [slash]) d.

(** A name the page can send: not empty, no "/", not "." or "..", no NUL. *)
Definition validName (name : str) : bool :=
  (0 <? Z.of_nat (length name)) && bool_decide (index_of slash name = None)
  && negb (bool_decide (name = js ".")) && negb (bool_decide (name = js ".."))
  && bool_decide (index_of "000" name = None).

(** The drive (volume path) holding [path]: the longest volume path it starts with. *)
Definition on_volume (path root : str) : bool := bool_decide (path = root) || starts_with (root ++ [slash]) path.
Definition volumeOf_step (path : str) (best : option str) (v : str) : option str :=
  let root := trim v in
  if on_volume path root && match best with
                            | None => true
                            | Some b => (length b <? length root)%nat
                            end
  then Some v else best.
Definition volumeOf (path : str) (volumes : list str) : option str :=
  fold_left (volumeOf_step path) volumes None.

(** One level up: the parent, or [None] (the drive list) from a drive's top or "/". *)
Definition upFrom (path : option str) (volumes : list str) : option str :=
  match path with
  | None => None
  | Some path =>
      let p := or_root (trim path) in
      if bool_decide (p = [slash]) || existsb (fun v => bool_decide (trim v = p)) volumes then None
      else Some (parentPath p)
  end.

(** * What they promise *)

Lemma trim_idem p : trim (trim p) = trim p.
Proof. apply strip_end_id. intros a. apply strip_end_last. Qed.

Lemma validName_spec n : validName n = true ->
  n <> [] /\ slash ∉ n.
Proof.
  unfold validName. rewrite !andb_true_iff, Z.ltb_lt, bool_decide_eq_true, index_of_None.
  intros ((((? & ?) & _) & _) & _). split; [|done]. intros ->. simpl in *. lia.
Qed.

Lemma trim_no_slash_end n : n <> [] -> slash ∉ n -> forall p, trim (p ++ [slash] ++ n) = p ++ [slash] ++ n.
Proof.
  intros Hne Hn p. apply strip_end_id. intros a Ha.
  destruct n as [|b n _] using rev_ind; [done|].
  rewrite !(assoc_L (++)), last_snoc in Ha. injection Ha as <-.
  unfold is_char. apply bool_decide_eq_false. intros ->. apply Hn. set_solver.
Qed.

Lemma last_index_of_join p n : slash ∉ n -> last_index_of slash (p ++ [slash] ++ n) = Some (length p).
Proof.
  intros Hn. apply last_index_of_Some. split; [by apply list_lookup_middle|].
  replace (drop _ _) with n; [done|]. rewrite (assoc_L (++)). rewrite <-(drop_app_length (p ++ [slash]) n) at 1.
  f_equal. rewrite length_app. simpl. lia.
Qed.

(** a path built from a folder and a name gives back both: its last part is the name, its parent
    the folder (without trailing slashes, "/" for the root), and it lies inside the folder. *)
Theorem joinPath_parts dir name (Hname : validName name = true) :
  baseName (joinPath dir name) = name
  /\ parentPath (joinPath dir name) = or_root (trim dir)
  /\ isInside (joinPath dir name) dir = true
  /\ isInside dir (joinPath dir name) = false.
Proof.
  apply validName_spec in Hname as [Hne Hn].
  assert (trim (joinPath dir name) = joinPath dir name) as Ht by by apply trim_no_slash_end.
  unfold baseName, parentPath. rewrite Ht. unfold joinPath at 1 2 3 4. rewrite last_index_of_join by done.
  split_and!.
  - rewrite (assoc_L (++)). rewrite <-(drop_app_length (trim dir ++ [slash]) name) at 2.
    f_equal. rewrite length_app. simpl. lia.
  - destruct (trim dir) as [|a d] eqn:E; [done|]. unfold joinPath. rewrite E.
    exact (take_app_length (a :: d) ([slash] ++ name)).
  - unfold isInside. rewrite Ht. apply orb_true_iff. right. apply starts_with_true.
    unfold joinPath. destruct (trim dir) as [|a d] eqn:E; cbn [or_root].
    + rewrite decide_True by done. by exists name.
    + assert (a :: d <> [slash]) as Hd.
      { intros Hd. rewrite Hd in E. pose proof (strip_end_last (is_char slash) dir slash) as Hl.
        fold (trim dir) in Hl. rewrite E in Hl. by specialize (Hl eq_refl). }
      rewrite decide_False by done. exists name. by rewrite <-(assoc_L (++)).
  - unfold isInside. rewrite Ht. apply orb_false_iff.
    assert (or_root (joinPath dir name) = joinPath dir name) as ->.
    { unfold joinPath. by destruct (trim dir). }
    assert (length (or_root (trim dir)) < length (joinPath dir name))%nat as Hlen.
    { unfold joinPath. rewrite !length_app. destruct name; [done|]. destruct (trim dir); simpl; lia. }
    split.
    + apply bool_decide_eq_false. intros He. rewrite He in Hlen. lia.
    + apply not_true_iff_false. rewrite starts_with_true. intros [u Hu].
      apply (f_equal length) in Hu. rewrite length_app in Hu.
      case_decide as Hd; [rewrite Hd in Hlen; simpl in Hlen; destruct (or_root (trim dir)) eqn:E; simpl in *; [by destruct (trim dir)|lia]|].
      rewrite length_app in Hu. simpl in Hu. lia.
Qed.

Lemma joinPath_parts_witness :
  validName (js "game.pkg") = true /\ baseName (joinPath (js "/mnt/usb0/") (js "game.pkg")) = js "game.pkg".
Proof. split; [reflexivity|]. apply joinPath_parts. reflexivity. Defined.

(** * The drive of a path *)

Lemma on_volume_prefix path root : on_volume path root = true -> root `prefix_of` path.
Proof.
  unfold on_volume. rewrite orb_true_iff, bool_decide_eq_true, starts_with_true.
  intros [->|H]; [done|]. etrans; [|exact H]. by exists [slash].
Qed.

(** Two roots of one path never differ by one character: the longer one would end in the slash. *)
Lemma roots_apart path a b : on_volume path a = true -> on_volume path (trim b) = true ->
  (length a < length (trim b))%nat -> (S (length a) < length (trim b))%nat.
Proof.
  intros Ha Hb%on_volume_prefix Hlt.
  assert (a ++ [slash] `prefix_of` path) as Hs.
  { unfold on_volume in Ha. rewrite orb_true_iff, bool_decide_eq_true, starts_with_true in Ha.
    destruct Ha as [->|H]; [|done]. apply prefix_length in Hb. lia. }
  destruct (decide (length (trim b) = S (length a))) as [E|]; [|lia]. exfalso.
  assert (trim b = a ++ [slash]) as H.
  { destruct Hs as [u ->], Hb as [u' Hu]. apply (f_equal (take (S (length a)))) in Hu.
    rewrite <-E in Hu at 2. rewrite take_app_length in Hu. rewrite <-Hu.
    rewrite take_app_le by (rewrite length_app; simpl; lia). rewrite take_ge; [done|].
    rewrite length_app. simpl. lia. }
  pose proof (strip_end_last (is_char slash) b slash) as Hl. fold (trim b) in Hl.
  rewrite H, last_snoc in Hl. by specialize (Hl eq_refl).
Qed.

(** the drive found for a path is one of the listed ones, holds the path, and no listed drive
    that holds it has a longer mount point (so a drive mounted inside another one is the one found);
    none is found only when none holds it. A listed path may end in a slash. *)
Theorem volumeOf_longest path volumes
  (Hslash : Forall (fun v => (length v <= S (length (trim v)))%nat) volumes) :
  match volumeOf path volumes with
  | Some v => v ∈ volumes /\ on_volume path (trim v) = true
              /\ forall v', v' ∈ volumes -> on_volume path (trim v') = true ->
                   (length (trim v') <= length (trim v))%nat
  | None => forall v, v ∈ volumes -> on_volume path (trim v) = false
  end.
Proof.
  unfold volumeOf. induction volumes as [|v l IH] using rev_ind; [by intros ? ?%elem_of_nil|].
  apply Forall_app in Hslash as [Hl Hv]. specialize (IH Hl). apply Forall_singleton in Hv.
  rewrite fold_left_app. cbn [fold_left]. unfold volumeOf_step at 1.
  destruct (fold_left (volumeOf_step path) l None) as [b|] eqn:E.
  - destruct IH as (Hin & Hb & Hmax). rewrite Forall_forall in Hl.
    assert (length (trim b) <= length b)%nat as Htb.
    { destruct (strip_end_app (is_char slash) b) as (u & Hu & _). fold (trim b) in Hu.
      apply (f_equal length) in Hu. rewrite length_app in Hu. lia. }
    specialize (Hl b Hin).
    destruct (on_volume path (trim v)) eqn:Ov; [destruct (length b <? length (trim v))%nat eqn:Hlt|]; cbn [andb].
    + apply Nat.ltb_lt in Hlt. split_and!; [set_solver|done|].
      intros v' [Hv'| ->%list_elem_of_singleton]%elem_of_app H'; [|lia]. specialize (Hmax v' Hv' H'). lia.
    + apply Nat.ltb_ge in Hlt. split_and!; [set_solver|done|].
      intros v' [Hv'| ->%list_elem_of_singleton]%elem_of_app H'; [by apply Hmax|].
      destruct (decide (length (trim b) < length (trim v))%nat) as [Hlt'|]; [|lia].
      pose proof (roots_apart path (trim b) v Hb Ov Hlt'). lia.
    + split_and!; [set_solver|done|]. intros v' [Hv'| ->%list_elem_of_singleton]%elem_of_app H'; [by apply Hmax|congruence].
  - destruct (on_volume path (trim v)) eqn:Ov; cbn [andb].
    + split_and!; [set_solver|done|]. intros v' [Hv'| ->%list_elem_of_singleton]%elem_of_app H'; [|done].
      rewrite IH in H'; done.
    + intros v' [Hv'| ->%list_elem_of_singleton]%elem_of_app; auto.
Qed.

Lemma volumeOf_longest_witness :
  let vs := [js "/data"; js "/mnt/usb0/"; js "/mnt/usb0/ext"] in
  volumeOf (js "/mnt/usb0/ext/game") vs = Some (js "/mnt/usb0/ext")
  /\ forall v', v' ∈ vs -> on_volume (js "/mnt/usb0/ext/game") (trim v') = true ->
       (length (trim v') <= length (js "/mnt/usb0/ext"))%nat.
Proof.
  cbv zeta. split; [reflexivity|].
  pose proof (volumeOf_longest (js "/mnt/usb0/ext/game") [js "/data"; js "/mnt/usb0/"; js "/mnt/usb0/ext"]) as H.
  change (volumeOf _ _) with (Some (js "/mnt/usb0/ext")) in H. apply H.
  repeat (constructor; [vm_compute; lia|]). constructor.
Defined.
