(* ===== verification/Replace.v ===== *)
(** Replace in Files (client/src/console/files/replace.ts): the new item goes to a temporary name
    beside the old one, the two change places by renames, the old one is deleted. The console or the
    share it works on is an interface ([ReplaceSide], its [SideSpec] what the source relies on); a
    call answers or throws and leaves a new world, so every fault between two calls is a run of the
    model. Text is made of Latin-1 characters (one or two UTF-8 bytes). *)
From S2P Require Import Prelude Paths.

(** * Calls that answer or throw *)

Inductive ReplaceFailure := Copy | Swap | Stuck | OldLeft | SourceLeft | TempLeft.
#[export] Instance failure_eq_dec : EqDecision ReplaceFailure.
Proof. solve_decision. Defined.

#[local] Set Warnings "-register-all".
(** What a call throws: an [ApiError], a [ReplaceError] (an [ApiError] of status 500), or any other
    exception. *)
Inductive Err :=
| ApiError (status : Z) (code : str)
| ReplaceError (what : ReplaceFailure) (item : str) (why : option Err) (temp old : option str)
| Thrown (message : str).

Definition status (e : Err) : option Z :=
  match e with ApiError s _ => Some s | ReplaceError _ _ _ _ _ => Some 500 | Thrown _ => None end.
Definition isTokenGone (e : Err) : bool := bool_decide (status e = Some 401).

Inductive Result (A : Type) := Ok (x : A) | Throw (e : Err).
Arguments Ok {A} _.
Arguments Throw {A} _.

Definition M (W A : Type) : Type := W -> Result A * W.
Section monad.
Context {W : Type}.
Definition ret {A} (x : A) : M W A := fun w => (Ok x, w).
Definition throw {A} (e : Err) : M W A := fun w => (Throw e, w).
Definition bind {A B} (m : M W A) (k : A -> M W B) : M W B := fun w =>
  match m w with (Ok x, w') => k x w' | (Throw e, w') => (Throw e, w') end.
Definition catch {A} (m : M W A) (hdl : Err -> M W A) : M W A := fun w =>
  match m w with (Ok x, w') => (Ok x, w') | (Throw e, w') => hdl e w' end.
End monad.
Notation "'let*' x ':=' m 'in' k" := (bind m (fun x => k))
  (at level 10, x name, m at level 100, k at level 200) : js_scope.

(** One side's file operations: the console's, or a share's. *)
Class ReplaceSide (W : Type) := {
  taken : str -> M W bool;
  rename : str -> str -> M W unit;
  remove : str -> M W bool
}.

(** * Temporary names *)

Definition TEMP_NEW : str := js "ps5u-new".
Definition TEMP_OLD : str := js "ps5u-old".
Definition TEMP_TRIES : nat := 16.
Definition TEMP_STEM_BYTES : Z := 200.

Definition utf8_bytes (ch : ascii) : Z := if code ch <? 128 then 1 else 2.
(** The loop: [bytes] counted so far. *)
Fixpoint tempStem_from (bytes : Z) (name : str) (maxBytes : Z) : str :=
  match name with
  | [] => []
  | ch :: name' =>
      let bytes := bytes + utf8_bytes ch in
      if maxBytes <? bytes then [] else ch :: tempStem_from bytes name' maxBytes
  end.
Definition tempStem (name : str) : str := tempStem_from 0 name TEMP_STEM_BYTES.

Definition candidate (name tag : str) (n : nat) : str :=
  tempStem name ++ js "." ++ tag ++ (if Nat.eqb n 1 then [] else num (Z.of_nat n)).

Section replace.
Context {W : Type} `{!ReplaceSide W}.

Fixpoint tempName_from (dir name tag : str) (tries n : nat) : M W str :=
  match tries with
  | O => throw (ApiError 409 (js "exists"))
  | S tries =>
      let* there := taken (joinPath dir (candidate name tag n)) in
      if there then tempName_from dir name tag tries (S n) else ret (candidate name tag n)
  end.
Definition tempName (dir name tag : str) : M W str := tempName_from dir name tag TEMP_TRIES 1.

(** * Replace *)

(** How the new item's way to its temporary name ended; [undo] puts it back where it came from. *)
Inductive Placed :=
| PDone (undo : option (M W unit))
| PStopped
| PLeft
| PFailed (why : option Err) (notThere : bool).

Inductive ReplaceEnd := EDone (old : option str) | EStopped (temp : option str).

(** A rename whose answer never came is checked by reading the two names (both reads are sent). *)
Definition renameChecked (from to : str) : M W unit :=
  catch (rename from to) (fun why w =>
    if negb (match why with ApiError s _ => s =? 0 | _ => false end) then throw why w
    else
      let '(f, w) := taken from w in
      let '(t, w) := taken to w in
      match f, t with
      | Ok f, Ok t => if negb f && t then ret tt w else throw why w
      | _, _ => throw why w
      end).

(** Clear away a temporary copy, tried twice; its name when it is still there. *)
Definition still_taken (temp : str) : M W bool := catch (taken temp) (fun _ => ret true).
Fixpoint discard_from (tries : nat) (temp : str) : M W (option str) :=
  match tries with
  | O => let* there := still_taken temp in ret (if there then Some temp else None)
  | S tries =>
      let* there := still_taken temp in
      if negb there then ret None
      else let* _ := catch (remove temp) (fun _ => ret false) in discard_from tries temp
  end.
Definition discard (temp : str) : M W (option str) := discard_from 2 temp.

Definition dropPlaced (undo : option (M W unit)) (temp : str) : M W (option str) :=
  match undo with
  | None => discard temp
  | Some u => catch (let* _ := u in ret None) (fun _ => ret (Some temp))
  end.

(** The second half: the new item is whole at [temp]. *)
Definition swap_in (dir dest item : str) (undo : option (M W unit)) (temp : str) : M W ReplaceEnd :=
  let* aside := catch
    (let* n := tempName dir item TEMP_OLD in
     let* _ := renameChecked dest (joinPath dir n) in ret (joinPath dir n))
    (fun why => if isTokenGone why then throw why
                else let* t := dropPlaced undo temp in throw (ReplaceError Swap item (Some why) t None)) in
  let* _ := catch (renameChecked temp dest)
    (fun why =>
       let* back := catch (let* _ := renameChecked aside dest in ret true) (fun _ => ret false) in
       if negb back then throw (ReplaceError Stuck item (Some why) (Some temp) (Some aside))
       else let* t := dropPlaced undo temp in throw (ReplaceError Swap item (Some why) t None)) in
  let* gone := catch (remove aside) (fun _ => ret false) in
  ret (EDone (if gone then None else Some aside)).

Definition replaceItem (dir dest : str) (place : str -> M W Placed) : M W ReplaceEnd :=
  let item := baseName dest in
  let* temp := catch (let* n := tempName dir item TEMP_NEW in ret (joinPath dir n))
    (fun why => if isTokenGone why then throw why else throw (ReplaceError Copy item (Some why) None None)) in
  let* placed := catch (place temp)
    (fun why => if isTokenGone why then throw why else ret (PFailed (Some why) false)) in
  match placed with
  | PLeft => ret (EStopped (Some temp))
  | PStopped => let* t := discard temp in ret (EStopped t)
  | PFailed why notThere =>
      let* t := if notThere then ret None else discard temp in throw (ReplaceError Copy item why t None)
  | PDone undo => swap_in dir dest item undo temp
  end.
End replace.
Arguments Placed : clear implicits.

(** * What the source relies on *)

Section spec.
Context {W X : Type} `{!ReplaceSide W} (view : W -> str -> option X).

Definition same_view (w w' : W) : Prop := forall p, view w' p = view w p.
Definition moved (from to : str) (w w' : W) : Prop :=
  from <> to /\ view w to = None /\ view w' from = None /\ view w' to = view w from
  /\ forall p, p <> from -> p <> to -> view w' p = view w p.

(** What holds after a call, whatever it answers. *)
Definition post {A} (m : M W A) (w : W) (Q : Result A -> W -> Prop) : Prop := Q (m w).1 (m w).2.

(** [view w p]: what is at [p]. Reading a name changes nothing and tells the truth when it
    answers; a rename is never over something, happens whole, and one that fails with an answer
    (a status) did not happen; a delete touches what it deletes only, and says true when it is
    gone. *)
Class SideSpec := {
  taken_spec p w : post (taken p) w (fun r w' => same_view w w' /\
    match r with Ok b => b = true <-> is_Some (view w p) | Throw _ => True end);
  rename_spec from to w : post (rename from to) w (fun r w' =>
    match r with
    | Ok _ => moved from to w w'
    | Throw (ApiError 0 _) => same_view w w' \/ moved from to w w'
    | Throw _ => same_view w w'
    end);
  remove_spec p w : post (remove p) w (fun r w' =>
    (forall q, q <> p -> view w' q = view w q) /\ (r = Ok true -> view w' p = None))
}.

(** What [place] may do: write at the name it is given and at names of its own elsewhere
    ([foreign]); when it says done the new item [new] is there, and putting it back frees the name. *)
Definition undo_ok (foreign : str -> Prop) (temp : str) (undo : option (M W unit)) : Prop :=
  forall u, undo = Some u -> forall w, post u w (fun r w' =>
    (forall p, p <> temp -> ~ foreign p -> view w' p = view w p) /\ (r = Ok tt -> view w' temp = None)).
Definition place_ok (foreign : str -> Prop) (new : X) (place : str -> M W (Placed W)) : Prop :=
  forall temp w, view w temp = None -> post (place temp) w (fun r w' =>
    (forall p, p <> temp -> ~ foreign p -> view w' p = view w p)
    /\ match r with
       | Ok (PDone undo) => view w' temp = Some new /\ undo_ok foreign temp undo
       | Ok (PFailed _ true) => view w' temp = None
       | _ => True
       end).

(** A side whose name checks always answer. *)
Definition reliable : Prop := forall p w, exists b w', taken p w = (Ok b, w').
End spec.

Arguments post {W A} m w Q /.

(** * Running a call *)

Section rules.
Context {W : Type}.
Lemma post_bind {A B} (m : M W A) (k : A -> M W B) w Q :
  post m w (fun r w' => match r with Ok x => post (k x) w' Q | Throw e => Q (Throw e) w' end) ->
  post (bind m k) w Q.
Proof. simpl. unfold bind. by destruct (m w) as [[x|e] w']. Qed.
Lemma post_catch {A} (m : M W A) (hdl : Err -> M W A) w Q :
  post m w (fun r w' => match r with Ok x => Q (Ok x) w' | Throw e => post (hdl e) w' Q end) ->
  post (catch m hdl) w Q.
Proof. simpl. unfold catch. by destruct (m w) as [[x|e] w']. Qed.
Lemma post_impl {A} (m : M W A) w (P Q : Result A -> W -> Prop) :
  post m w P -> (forall r w', P r w' -> Q r w') -> post m w Q.
Proof. simpl. eauto. Qed.
End rules.

Section laws.
Context {W X : Type} `{!ReplaceSide W} (view : W -> str -> option X) `{!SideSpec view}.
Local Abbreviation same_view := (same_view view).
Local Abbreviation moved := (moved view).

Lemma still_taken_spec p w : post (still_taken p) w (fun r w' => same_view w w' /\
  (r = Ok false -> view w' p = None) /\ exists b, r = Ok b).
Proof.
  apply post_catch. eapply post_impl; [apply (taken_spec view)|]. intros [b|e] w' [Hs Hb]; simpl.
  - split_and!; [done| |by eexists]. intros [= ->]. rewrite Hs. apply eq_None_not_Some. intros H%Hb. done.
  - split_and!; [done|done|by eexists].
Qed.

(** Clearing away touches only the name it clears, never throws, and "gone" is the truth. *)
Lemma discard_spec p w : post (discard p) w (fun r w' =>
  (forall q, q <> p -> view w' q = view w q)
  /\ (r = Ok None /\ view w' p = None \/ r = Ok (Some p))).
Proof.
  unfold discard. generalize 2%nat as n. intros n. revert w. induction n as [|n IH]; intros w; cbn [discard_from].
  - apply post_bind. eapply post_impl; [apply still_taken_spec|]. intros r w' (Hs & Hf & b & ->).
    destruct b; simpl; (split; [done|]); [by right|left; auto].
  - apply post_bind. eapply post_impl; [apply still_taken_spec|]. intros r w' (Hs & Hf & b & ->).
    destruct b; cbn [negb]; [|simpl; split; [done|left; auto]].
    apply post_bind, post_catch. eapply post_impl; [apply (remove_spec view)|]. intros r w2 [Hr _].
    assert (post (discard_from n p) w2 (fun r w' => (forall q, q <> p -> view w' q = view w q)
      /\ (r = Ok None /\ view w' p = None \/ r = Ok (Some p)))) as H.
    { eapply post_impl; [apply IH|]. intros r3 w3 [Hq Hd]. split; [|done].
      intros q Hne. by rewrite Hq, Hr, Hs. }
    destruct r; exact H.
Qed.

Lemma tempName_spec dir name tag w : post (tempName dir name tag) w (fun r w' => same_view w w' /\
  match r with Ok c => (exists n, c = candidate name tag n) /\ view w (joinPath dir c) = None | Throw _ => True end).
Proof.
  unfold tempName. generalize TEMP_TRIES 1%nat. intros tries. revert w.
  induction tries as [|tries IH]; intros w n; cbn [tempName_from]; [simpl; by split|].
  apply post_bind. eapply post_impl; [apply (taken_spec view)|]. intros [[|]|e] w' [Hs Hb]; [| |by split].
  - eapply post_impl; [apply IH|]. intros r w2 [Hs2 Hr]. split; [intros p; by rewrite Hs2|].
    destruct r; [|done]. by rewrite <-Hs.
  - simpl. split_and!; [done|by eexists|]. apply eq_None_not_Some. intros H%Hb. done.
Qed.

(** A checked rename of something there: done means moved; a failure moved nothing, unless a check
    of the names failed too. *)
Lemma renameChecked_spec from to w x : view w from = Some x -> post (renameChecked from to) w (fun r w' =>
  match r with
  | Ok _ => moved from to w w'
  | Throw _ => same_view w w' \/ (moved from to w w' /\ ~ reliable)
  end).
Proof.
  intros Hx. apply post_catch. eapply post_impl; [apply (rename_spec view)|]. intros [u|e] w' H; [done|].
  assert (forall why, same_view w w' \/ moved from to w w' ->
    post (fun w => let '(f, w) := taken from w in let '(t, w) := taken to w in
      match f, t with
      | Ok f, Ok t => if negb f && t then ret tt w else throw why w
      | _, _ => throw why w
      end) w' (fun r w' => match r with
        | Ok _ => moved from to w w'
        | Throw _ => same_view w w' \/ (moved from to w w' /\ ~ reliable)
        end)) as Hcheck.
  { clear H. intros why H. unfold post.
    destruct (taken from w') as [f w1] eqn:E1. destruct (taken to w1) as [t w2] eqn:E2.
    pose proof (taken_spec view from w') as T1. pose proof (taken_spec view to w1) as T2. simpl in T1, T2.
    rewrite E1 in T1. rewrite E2 in T2. simpl in T1, T2. destruct T1 as [S1 T1], T2 as [S2 T2].
    assert (same_view w' w2) as S by (intros p; by rewrite S2, S1).
    assert (forall m, m = moved from to w w' -> m -> moved from to w w2) as Hm.
    { intros m -> (? & ? & ? & ? & Ho). unfold Replace.moved. rewrite !S. split_and!; try done.
      intros p ? ?. rewrite S. auto. }
    specialize (Hm _ eq_refl).
    destruct f as [f|], t as [t|]; cbn [fst snd].
    - destruct (negb f && t) eqn:Eb; simpl; [|].
      + bool_prop. subst. destruct H as [Hs|H]; [|auto]. exfalso.
        enough (false = true) by done. apply T1. rewrite Hs, Hx. by eexists.
      + left. destruct H as [Hs|(Hne & Hto & Hf & Ht & _)]; [intros p; by rewrite S|].
        exfalso. assert (f = false) as ->.
        { apply not_true_iff_false. intros Hf'%T1. rewrite Hf in Hf'. by destruct Hf'. }
        assert (t = true) as ->; [|done]. apply T2. rewrite S1, Ht, Hx. by eexists.
    - simpl. destruct H as [Hs|H]; [left; intros p; by rewrite S|right]. split; [auto|].
      intros Hr. destruct (Hr to w1) as (b & ? & ?). congruence.
    - simpl. destruct H as [Hs|H]; [left; intros p; by rewrite S|right]. split; [auto|].
      intros Hr. destruct (Hr from w') as (b & ? & ?). congruence.
    - simpl. destruct H as [Hs|H]; [left; intros p; by rewrite S|right]. split; [auto|].
      intros Hr. destruct (Hr from w') as (b & ? & ?). congruence. }
  destruct e as [[|s|s] cd| |]; simpl in H; [by apply Hcheck|by left..].
Qed.
End laws.

(** * What a Replace leaves *)

Section outcome.
Context {W X : Type} `{!ReplaceSide W} (view : W -> str -> option X) `{!SideSpec view}.
Context (dir dest : str) (foreign : str -> Prop) (old new : X).
Local Abbreviation same_view := (same_view view).
Local Abbreviation moved := (moved view).
Local Abbreviation cand tag n := (joinPath dir (candidate (baseName dest) tag n)).

(** The names a Replace uses are none of those [place] works on elsewhere. *)
Definition apart : Prop := ~ foreign dest /\ forall tag n, ~ foreign (cand tag n).

(** Everything [place] does not own is as it was, but for the names [but]. *)
Definition same_but (but : list str) (w0 w' : W) : Prop :=
  forall p, p ∉ but -> ~ foreign p -> view w' p = view w0 p.

(** Neither item is lost: what was at any other name is still there, and the old item is at its name
    or at an aside name, unless the new one has replaced it. *)
Definition nothing_lost (w0 : W) (r : Result ReplaceEnd) (w' : W) : Prop :=
  (forall p x, view w0 p = Some x -> p <> dest -> ~ foreign p -> view w' p = Some x)
  /\ (view w' dest = Some old \/ (exists n, view w' (cand TEMP_OLD n) = Some old)
      \/ exists o, r = Ok (EDone o) /\ view w' dest = Some new).

(** What is reported is how it is: nothing but what is named differs. *)
Definition reported (w0 : W) (r : Result ReplaceEnd) (w' : W) : Prop :=
  match r with
  | Ok (EDone None) => view w' dest = Some new /\ same_but [dest] w0 w'
  | Ok (EDone (Some a)) => view w' dest = Some new /\ view w0 a = None /\ same_but [dest; a] w0 w'
  | Ok (EStopped None) | Throw (ReplaceError Copy _ _ None None) | Throw (ReplaceError Swap _ _ None None) =>
      same_but [] w0 w'
  | Ok (EStopped (Some t)) | Throw (ReplaceError Copy _ _ (Some t) None) | Throw (ReplaceError Swap _ _ (Some t) None) =>
      view w0 t = None /\ same_but [t] w0 w'
  | Throw (ReplaceError Stuck _ _ (Some t) (Some a)) =>
      view w' t = Some new /\ view w' a = Some old /\ view w' dest = None /\ same_but [t; a; dest] w0 w'
  | Throw e => isTokenGone e = true
      /\ (same_but [] w0 w' \/ exists n, view w0 (cand TEMP_NEW n) = None /\ same_but [cand TEMP_NEW n] w0 w')
  end.

Definition outcome (w0 : W) (r : Result ReplaceEnd) (w' : W) : Prop :=
  nothing_lost w0 r w' /\ (reliable -> reported w0 r w').

Lemma same_but_trans l w0 w1 w2 : same_but l w0 w1 -> same_but l w1 w2 -> same_but l w0 w2.
Proof. intros H1 H2 p Hp Hf. rewrite H2, H1; done. Qed.
Lemma same_view_but l w w' : same_view w w' -> same_but l w w'.
Proof. intros H p _ _. apply H. Qed.
Lemma same_but_weaken l l' w w' : same_but l w w' -> l ⊆ l' -> same_but l' w w'.
Proof. intros H Hl p Hp. apply H. auto. Qed.

Lemma dropPlaced_spec undo temp w : undo_ok view foreign temp undo -> ~ foreign temp ->
  post (dropPlaced undo temp) w (fun r w' => same_but [temp] w w'
    /\ (r = Ok None /\ view w' temp = None \/ r = Ok (Some temp))).
Proof.
  intros Hu Hf. destruct undo as [u|]; cbn [dropPlaced].
  - apply post_catch, post_bind. eapply post_impl; [by apply Hu|]. intros [[]|e] w' [Hs Hd]; simpl;
      (split; [intros p Hp Hfp; apply Hs; set_solver|auto]).
  - eapply post_impl; [apply (discard_spec view)|]. intros r w' [Hs Hd]. split; [|done].
    intros p Hp _. apply Hs. set_solver.
Qed.

Lemma nothing_lost_as_is w0 r w' but : view w0 dest = Some old ->
  (forall p, p ∈ but -> view w0 p = None) -> ~ foreign dest -> same_but but w0 w' -> nothing_lost w0 r w'.
Proof.
  intros Hd Hb Hf Hs. assert (forall p x, view w0 p = Some x -> ~ foreign p -> view w' p = Some x) as H.
  { intros p x Hp Hfp. rewrite Hs; [done| |done]. intros Hin%Hb. congruence. }
  split; [eauto|]. left. eauto.
Qed.

Section placed.
Context (w0 : W) (n : nat) (undo : option (M W unit)).
Local Abbreviation temp := (cand TEMP_NEW n).
Context (Hdest : view w0 dest = Some old) (Htemp : view w0 temp = None) (Hapart : apart)
  (Hundo : undo_ok view foreign temp undo).

(** Giving up the swap with the old item at its name. *)
Lemma swap_abandoned {A} w why : same_but [temp] w0 w ->
  post (let* t := dropPlaced undo temp in throw (A := A) (ReplaceError Swap (baseName dest) why t None)) w
    (fun r w' => match r with Ok _ => False | Throw e => outcome w0 (Throw e) w' end).
Proof.
  intros Hs. apply post_bind. eapply post_impl; [apply dropPlaced_spec; [done|apply Hapart]|].
  intros r w' [Hs' Hr]. pose proof (same_but_trans _ _ _ _ Hs Hs') as Hs2.
  assert (forall r, nothing_lost w0 r w') as Hn.
  { intros r'. apply (nothing_lost_as_is _ _ _ [temp]); [done| |apply Hapart|done].
    by intros p ->%list_elem_of_singleton. }
  destruct Hr as [[-> Ht]| ->]; simpl; (split; [apply Hn|intros _]); [|done].
  intros p _ Hf. destruct (decide (p = temp)) as [->|]; [congruence|]. apply Hs2; [set_solver|done].
Qed.

(** The old item aside, the new one whole: the second rename and what follows. *)
Lemma second_rename w k : let aside := cand TEMP_OLD k in
  view w0 aside = None -> aside <> temp -> temp <> dest -> aside <> dest ->
  view w temp = Some new -> view w aside = Some old -> view w dest = None ->
  same_but [temp; aside; dest] w0 w ->
  post (let* _ := catch (renameChecked temp dest)
    (fun why =>
       let* back := catch (let* _ := renameChecked aside dest in ret true) (fun _ => ret false) in
       if negb back then throw (ReplaceError Stuck (baseName dest) (Some why) (Some temp) (Some aside))
       else let* t := dropPlaced undo temp in throw (ReplaceError Swap (baseName dest) (Some why) t None)) in
  let* gone := catch (remove aside) (fun _ => ret false) in
  ret (EDone (if gone then None else Some aside))) w (outcome w0).
Proof.
  cbv zeta. intros Ha Hat Htd Had Wt Wa Wd Ws.
  assert (forall w', same_but [temp; cand TEMP_OLD k; dest] w0 w' ->
    forall p x, view w0 p = Some x -> p <> dest -> ~ foreign p -> view w' p = Some x) as Hothers.
  { intros w' Hs p x Hp Hne Hf. rewrite Hs; [done| |done].
    intros [E|[E|[E|?%elem_of_nil]%elem_of_cons]%elem_of_cons]%elem_of_cons; subst; congruence. }
  apply post_bind, post_catch. eapply post_impl; [exact (renameChecked_spec view _ _ _ _ Wt)|].
  intros [u|why] w1 H1.
  - (* the new item has the name *)
    destruct H1 as (_ & _ & Mt & Md & Mo).
    apply post_bind, post_catch. eapply post_impl; [apply (remove_spec view)|]. intros r w2 [Ro Rg].
    assert (view w2 dest = Some new) as Hd2 by by rewrite Ro, Md.
    assert (view w2 temp = None) as Ht2 by by rewrite Ro.
    assert (same_but [dest; cand TEMP_OLD k] w0 w2) as Hs2.
    { intros p Hp Hf. destruct (decide (p = temp)) as [->|Hpt]; [congruence|].
      rewrite Ro, Mo by set_solver. apply Ws; [set_solver|done]. }
    assert (forall o, nothing_lost w0 (Ok (EDone o)) w2) as Hn.
    { intros o. split; [|right; right; eauto]. apply Hothers.
      eapply same_but_weaken; [exact Hs2|set_solver]. }
    destruct r as [[|]|e]; simpl; (split; [apply Hn|intros _]); try (split_and!; done).
    split; [done|]. intros p Hp Hf. destruct (decide (p = cand TEMP_OLD k)) as [->|]; [|apply Hs2; [set_solver|done]].
    rewrite Ha. by apply Rg.
  - (* it failed: the old item goes back *)
    apply post_bind, post_catch, post_bind.
    assert (view w1 (cand TEMP_OLD k) = Some old) as Wa1.
    { destruct H1 as [Hs|[(_ & _ & _ & _ & Mo) _]]; [by rewrite Hs|by rewrite Mo]. }
    assert (same_but [temp; cand TEMP_OLD k; dest] w0 w1) as Ws1.
    { intros p Hp Hf. destruct H1 as [Hs|[(_ & _ & _ & _ & Mo) _]]; [rewrite Hs|rewrite Mo by set_solver]; by apply Ws. }
    eapply post_impl; [exact (renameChecked_spec view _ _ _ _ Wa1)|]. intros [u|e] w2 H2; cbn [fst snd negb].
    + destruct H2 as (_ & Hd1 & Ba & Bd & Bo).
      assert (same_view w w1) as Hs.
      { destruct H1 as [Hs|[(_ & _ & _ & Md & _) _]]; [done|]. congruence. }
      refine (post_impl _ _ _ _ (swap_abandoned w2 (Some why) _) _); [|by intros [?|?]].
      intros p Hp Hf.
      destruct (decide (p = dest)) as [->|Hpd]; [congruence|].
      destruct (decide (p = cand TEMP_OLD k)) as [->|Hpa]; [congruence|].
      rewrite Bo by done. apply Ws1; [set_solver|done].
    + simpl. split.
      * split; [apply Hothers|].
        -- intros p Hp Hf. destruct H2 as [Hs|[(_ & _ & _ & _ & Mo) _]]; [rewrite Hs|rewrite Mo by set_solver]; by apply Ws1.
        -- destruct H2 as [Hs|[(_ & _ & _ & Md & _) _]]; [right; left; exists k; by rewrite Hs|left; by rewrite Md].
      * intros Hr. destruct H1 as [Hs|[_ ?]]; [|done]. destruct H2 as [Hs'|[_ ?]]; [|done].
        split_and!; [by rewrite Hs', Hs|by rewrite Hs', Hs|by rewrite Hs', Hs|].
        intros p Hp Hf. rewrite Hs', Hs. by apply Ws.
Qed.

Lemma swap_in_spec w : same_but [temp] w0 w -> view w temp = Some new ->
  post (swap_in dir dest (baseName dest) undo temp) w (outcome w0).
Proof.
  intros Hs Wt. destruct Hapart as [Hfd Hfc].
  assert (temp <> dest) as Htd by (intros E; rewrite E in Htemp; congruence).
  assert (view w dest = Some old) as Wd by (rewrite Hs; [done|set_solver|done]).
  apply post_bind, post_catch, post_bind. eapply post_impl; [apply (tempName_spec view)|].
  assert (forall e w', same_but [temp] w0 w' ->
    post (if isTokenGone e then throw e
          else let* t := dropPlaced undo temp in throw (ReplaceError Swap (baseName dest) (Some e) t None)) w'
      (fun (r : Result str) w' => match r with Ok _ => False | Throw e => outcome w0 (Throw e) w' end)) as Hgive.
  { intros e w' Hs'. destruct (isTokenGone e) eqn:He; [|by apply swap_abandoned]. simpl. split.
    - eapply (nothing_lost_as_is w0 _ w' [temp]); [done| |done|done]. by intros p ->%list_elem_of_singleton.
    - intros _. destruct e; simpl; [split; [done|right; by exists n]|discriminate|discriminate]. }
  intros [c|e] w1 [S1 H1].
  2:{ refine (post_impl _ _ _ _ (Hgive e w1 _) _); [|by intros [?|?]].
      eapply same_but_trans; [exact Hs|by apply same_view_but]. }
  destruct H1 as [[k ->] Ha]. apply post_bind.
  assert (cand TEMP_OLD k <> temp) as Hat by congruence.
  assert (cand TEMP_OLD k <> dest) as Had by congruence.
  assert (view w0 (cand TEMP_OLD k) = None) as Ha0 by (rewrite <-Hs; [done|set_solver|apply Hfc]).
  assert (view w1 dest = Some old) as Wd1 by by rewrite S1.
  eapply post_impl; [exact (renameChecked_spec view _ _ _ _ Wd1)|]. intros [u|e] w2 H2.
  - cbn [post ret fst snd]. destruct H2 as (_ & _ & Md & Ma & Mo).
    apply second_rename; try done.
    + by rewrite Mo, S1.
    + by rewrite Ma.
    + intros p Hp Hf. rewrite Mo, S1 by set_solver. apply Hs; [set_solver|done].
  - destruct H2 as [Hv|[Hm Hur]].
    + refine (post_impl _ _ _ _ (Hgive e w2 _) _); [|by intros [?|?]].
      intros p Hp Hf. rewrite Hv, S1. by apply Hs.
    + (* it happened, unseen: the old item is at the aside name *)
      destruct Hm as (_ & _ & Md & Ma & Mo).
      assert (forall r w', same_but [temp] w2 w' -> outcome w0 r w') as Hout.
      { intros r w' Hw'. split; [|done]. split.
        - intros p x Hp Hpd Hf. assert (p <> temp /\ p <> cand TEMP_OLD k) as [? ?] by (split; congruence).
          rewrite Hw', Mo, S1, Hs; set_solver.
        - right. left. exists k. rewrite Hw', Ma; [done|set_solver|apply Hfc]. }
      destruct (isTokenGone e); [simpl; apply Hout; by intros ? ? ?|].
      apply post_bind. eapply post_impl; [apply dropPlaced_spec; [done|apply Hfc]|].
      intros [t|e'] w3 [H3 _]; simpl; by apply Hout.
Qed.
End placed.

(** The whole Replace. *)
Lemma replaceItem_outcome place w : apart -> view w dest = Some old -> place_ok view foreign new place ->
  post (replaceItem dir dest place) w (outcome w).
Proof.
  intros Hap Hd Hplace. pose proof Hap as [Hfd Hfc].
  assert (forall l w' r, same_but l w w' -> (forall p, p ∈ l -> view w p = None) -> nothing_lost w r w') as Hnl.
  { intros l w' r Hs Hl. by apply (nothing_lost_as_is w r w' l). }
  apply post_bind, post_catch, post_bind. eapply post_impl; [apply (tempName_spec view)|].
  intros [c|e] w1 [S1 H1].
  2:{ assert (same_but [] w w1) as Hs by by apply same_view_but.
      assert (forall r, nothing_lost w r w1) as Hn by (intros r; apply (Hnl [] _ _ Hs); by intros ? ?%elem_of_nil).
      destruct (isTokenGone e) eqn:He; simpl; (split; [apply Hn|intros _]); [|exact Hs].
      destruct e; simpl; [|discriminate..]. auto. }
  destruct H1 as [[n ->] Ht]. cbn [post ret fst snd].
  assert (forall l, same_but l w w1) as Hs1 by (intros l; by apply same_view_but).
  assert (view w1 (cand TEMP_NEW n) = None) as Ht1 by by rewrite S1.
  apply post_bind, post_catch. eapply post_impl; [by apply Hplace|]. intros r w2 [H2 Hr].
  assert (same_but [cand TEMP_NEW n] w w2) as Hs2.
  { eapply same_but_trans; [apply Hs1|]. intros p Hp Hf. apply H2; [set_solver|done]. }
  assert (forall r w', same_but [cand TEMP_NEW n] w w' -> nothing_lost w r w') as Hn.
  { intros r' w' Hs. apply (Hnl _ _ _ Hs). by intros p ->%list_elem_of_singleton. }
  assert (forall w', same_but [cand TEMP_NEW n] w w' -> view w' (cand TEMP_NEW n) = None -> same_but [] w w') as Hclear.
  { intros w' Hs Hc p _ Hf. destruct (decide (p = cand TEMP_NEW n)) as [->|]; [congruence|apply Hs; [set_solver|done]]. }
  assert (forall why, post (let* t := discard (cand TEMP_NEW n) in
    throw (ReplaceError Copy (baseName dest) why t None)) w2 (outcome w)) as Hfail.
  { intros why. apply post_bind. eapply post_impl; [apply (discard_spec view)|]. intros r3 w3 [H3 Hr3].
    assert (same_but [cand TEMP_NEW n] w w3) as Hs3.
    { eapply same_but_trans; [exact Hs2|]. intros p Hp _. apply H3. set_solver. }
    destruct Hr3 as [[-> Hc]| ->]; simpl; (split; [by apply Hn|intros _]); [by apply Hclear|done]. }
  destruct r as [[undo| | |why [|]]|e].
  - destruct Hr as [Hnew Hundo]. by apply swap_in_spec.
  - apply post_bind. eapply post_impl; [apply (discard_spec view)|]. intros r3 w3 [H3 Hr3].
    assert (same_but [cand TEMP_NEW n] w w3) as Hs3.
    { eapply same_but_trans; [exact Hs2|]. intros p Hp _. apply H3. set_solver. }
    destruct Hr3 as [[-> Hc]| ->]; simpl; (split; [by apply Hn|intros _]); [by apply Hclear|done].
  - simpl. split; [by apply Hn|done].
  - simpl. split; [by apply Hn|intros _]. by apply Hclear.
  - apply Hfail.
  - destruct (isTokenGone e) eqn:He; [|apply Hfail]. simpl. split; [by apply Hn|intros _].
    destruct e; simpl; [|discriminate..]. eauto.
Qed.
End outcome.

(** * The claims *)

Section claims.
Context {W X : Type} `{!ReplaceSide W} (view : W -> str -> option X) `{!SideSpec view}.

(** C9: whatever a Replace meets (a refused call, an answer that never came, a failed delete, a
    token gone, a Stop), neither item is lost: everything at another name of the folder is still
    there, and the old item is at its name or under an aside name, unless the Replace ended done
    and the new item has the name. *)
Theorem replace_loses_nothing dir dest foreign old new place w
  (Hapart : apart dir dest foreign) (Hold : view w dest = Some old)
  (Hplace : place_ok view foreign new place) :
  let '(r, w') := replaceItem dir dest place w in nothing_lost view dir dest foreign old new w r w'.
Proof.
  pose proof (replaceItem_outcome view dir dest foreign old new place w Hapart Hold Hplace) as H.
  unfold post in H. destruct (replaceItem dir dest place w) as [r w']. apply H.
Qed.

(** on a side whose name checks answer, what a Replace reports is how it is: done, the new item
    has the name and only what is named as left differs; stopped, or failed to copy or to swap,
    the old item has its name and only the temporary name reported may differ; stuck, the old item
    is under the aside name and the new one under the temporary name, as reported. *)
Theorem replace_reports_the_truth dir dest foreign old new place w
  (Hapart : apart dir dest foreign) (Hold : view w dest = Some old)
  (Hplace : place_ok view foreign new place) (Hreads : reliable) :
  let '(r, w') := replaceItem dir dest place w in reported view dir dest foreign old new w r w'.
Proof.
  pose proof (replaceItem_outcome view dir dest foreign old new place w Hapart Hold Hplace) as H.
  unfold post in H. destruct (replaceItem dir dest place w) as [r w']. by apply H.
Qed.
End claims.

(** * A folder with faults

    What the witnesses run on: a folder's items, and what goes wrong with each call in turn (when
    the list is over, nothing does). *)

Inductive Fault := Works | Refused | Lost | NeverSent.
Definition Folder : Type := gmap str Z * list Fault.

Definition next (w : Folder) : Fault * Folder :=
  match w.2 with [] => (Works, w) | f :: l => (f, (w.1, l)) end.
Definition move_item (from to : str) (m : gmap str Z) : option (gmap str Z) :=
  match m !! from, m !! to with
  | Some x, None => Some (<[to := x]> (delete from m))
  | _, _ => None
  end.

(** [steady]: reading a name always answers. *)
Definition folder_side (steady : bool) : ReplaceSide Folder := {|
  taken p w := let '(f, w') := if steady then (Works, w) else next w in
    match f with Works => (Ok (bool_decide (is_Some (w.1 !! p))), w') | _ => (Throw (ApiError 0 (js "offline")), w') end;
  rename from to w := let '(f, w') := next w in
    match f, move_item from to w.1 with
    | Works, Some m => (Ok tt, (m, w'.2))
    | Works, None => (Throw (ApiError 409 (js "exists")), w')
    | Refused, _ => (Throw (ApiError 500 (js "rename")), w')
    | Lost, Some m => (Throw (ApiError 0 (js "timeout")), (m, w'.2))
    | _, _ => (Throw (ApiError 0 (js "timeout")), w')
    end;
  remove p w := let '(f, w') := next w in
    match f with Works => (Ok true, (delete p w.1, w'.2)) | _ => (Ok false, w') end
|}.

Definition items (w : Folder) (p : str) : option Z := w.1 !! p.

Lemma next_items w : (next w).2.1 = w.1.
Proof. unfold next. by destruct w.2. Qed.

Lemma folder_spec steady : SideSpec (ReplaceSide0 := folder_side steady) items.
Proof.
  split.
  - intros p w. assert ((if steady then (Works, w) else next w).2.1 = w.1) as Hn.
    { destruct steady; [done|apply next_items]. }
    simpl. destruct (if steady then (Works, w) else next w) as [f w']. simpl in Hn.
    destruct f; simpl; (split; [intros q; unfold items; by rewrite Hn|]); [|done..].
    unfold items. apply bool_decide_eq_true.
  - intros from to w. pose proof (next_items w) as Hn. simpl. destruct (next w) as [f w']. simpl in Hn.
    assert (same_view items w w') as Hs by (intros q; unfold items; by rewrite Hn).
    unfold move_item. destruct (w.1 !! from) as [x|] eqn:Ef, (w.1 !! to) eqn:Et;
      destruct f; simpl; try done; try by left.
    all: assert (moved items from to w (<[to := x]> (delete from w.1), w'.2)) as Hm; [|auto].
    all: assert (from <> to) as Hne by (intros ->; congruence); unfold moved, items; cbn [fst].
    all: rewrite (lookup_insert_ne _ to from), lookup_delete_eq, lookup_insert_eq by done; split_and!; try done.
    all: intros p ? ?; by rewrite lookup_insert_ne, lookup_delete_ne.
  - intros p w. pose proof (next_items w) as Hn. simpl. destruct (next w) as [f w']. simpl in Hn.
    destruct f; simpl; unfold items; cbn [fst]; (split; [intros q Hq|intros ?]); rewrite ?Hn; try done.
    + by rewrite lookup_delete_ne.
    + by rewrite lookup_delete_eq.
Qed.

(** A copy of an item to the temporary name. *)
Definition copy_of (x : Z) (temp : str) : M Folder (Placed Folder) := fun w =>
  let '(f, w') := next w in
  match f with Works => (Ok (PDone None), (<[temp := x]> w.1, w'.2)) | _ => (Throw (ApiError 507 (js "no_space")), w') end.

Lemma copy_of_ok x : place_ok items (fun _ => False) x (copy_of x).
Proof.
  intros temp w Ht. pose proof (next_items w) as Hn. unfold copy_of. simpl.
  destruct (next w) as [f w']. simpl in Hn. destruct f; simpl; unfold items; cbn [fst]; rewrite ?Hn; try (split; done).
  split; [intros p Hp _; by rewrite lookup_insert_ne|]. split; [by rewrite lookup_insert_eq|]. by intros u.
Qed.

Definition w_dir : str := js "/data".
Definition w_dest : str := js "/data/game".
Definition w_folder (faults : list Fault) : Folder := ({[ w_dest := 1 ]}, faults).

Lemma w_apart : apart w_dir w_dest (fun _ => False).
Proof. split; [auto|]. auto. Qed.

Definition w_replace (steady : bool) (w : Folder) : Result ReplaceEnd * Folder :=
  replaceItem (ReplaceSide0 := folder_side steady) w_dir w_dest (copy_of 2) w.

(** The second rename is refused and so is putting the old item back. *)
Lemma replace_loses_nothing_witness :
  let w := w_folder [Works; Works; Works; Works; Refused; Refused] in
  let '(r, w') := w_replace false w in
  r = Throw (ReplaceError Stuck (js "game") (Some (ApiError 500 (js "rename")))
               (Some (js "/data/game.ps5u-new")) (Some (js "/data/game.ps5u-old")))
  /\ nothing_lost items w_dir w_dest (fun _ => False) 1 2 w r w'.
Proof.
  cbv zeta.
  pose proof (replace_loses_nothing (ReplaceSide0 := folder_side false) (SideSpec0 := folder_spec false)
    items w_dir w_dest (fun _ => False) 1 2 (copy_of 2)
    (w_folder [Works; Works; Works; Works; Refused; Refused]) w_apart) as H.
  fold (w_replace false (w_folder [Works; Works; Works; Works; Refused; Refused])) in H.
  assert ((w_replace false (w_folder [Works; Works; Works; Works; Refused; Refused])).1 =
    Throw (ReplaceError Stuck (js "game") (Some (ApiError 500 (js "rename")))
               (Some (js "/data/game.ps5u-new")) (Some (js "/data/game.ps5u-old")))) as E by reflexivity.
  destruct (w_replace _ _) as [r w']. split; [exact E|]. apply H; [reflexivity|apply copy_of_ok].
Defined.

(** The answer to the first rename is lost: the names tell it happened, and the Replace goes on. *)
Lemma replace_reports_the_truth_witness :
  let w := w_folder [Works; Lost] in
  let '(r, w') := w_replace true w in
  r = Ok (EDone None) /\ reported items w_dir w_dest (fun _ => False) 1 2 w r w'.
Proof.
  cbv zeta.
  pose proof (replace_reports_the_truth (ReplaceSide0 := folder_side true) (SideSpec0 := folder_spec true)
    items w_dir w_dest (fun _ => False) 1 2 (copy_of 2) (w_folder [Works; Lost]) w_apart) as H.
  fold (w_replace true (w_folder [Works; Lost])) in H.
  assert ((w_replace true (w_folder [Works; Lost])).1 = Ok (EDone None)) as E by reflexivity.
  destruct (w_replace _ _) as [r w']. split; [exact E|].
  apply H; [reflexivity|apply copy_of_ok|]. intros p w. by do 2 eexists.
Defined.

(** when the answer to the first rename is lost and a read of the names fails too, the Replace
    reports that the swap failed and names nothing as left, but the folder has no item of that
    name any more: the old one is under the aside name, which the report does not give, and the
    new copy has been deleted. *)
Theorem swap_report_can_be_wrong :
  let w := w_folder [Works; Works; Works; Lost; Refused; Works] in
  let '(r, w') := w_replace false w in
  r = Throw (ReplaceError Swap (js "game") (Some (ApiError 0 (js "timeout"))) None None)
  /\ items w w_dest = Some 1 /\ items w' w_dest = None
  /\ items w' (js "/data/game.ps5u-new") = None /\ items w' (js "/data/game.ps5u-old") = Some 1.
Proof. vm_compute. auto. Qed.

(** * Temporary names fit *)

Definition utf8_len (s : str) : Z := fold_right (fun ch n => utf8_bytes ch + n) 0 s.

Lemma utf8_len_app s u : utf8_len (s ++ u) = utf8_len s + utf8_len u.
Proof. induction s as [|a s IH]; simpl; lia. Qed.

Lemma utf8_bytes_range ch : 1 <= utf8_bytes ch <= 2.
Proof. unfold utf8_bytes. destruct (code ch <? 128); lia. Qed.

Lemma tempStem_from_spec name bytes maxBytes : bytes <= maxBytes ->
  let s := tempStem_from bytes name maxBytes in
  s `prefix_of` name /\ bytes + utf8_len s <= maxBytes
  /\ forall ch rest, name = s ++ ch :: rest -> maxBytes < bytes + utf8_len s + utf8_bytes ch.
Proof.
  cbv zeta. revert bytes. induction name as [|a name IH]; intros bytes Hb; simpl.
  { split_and!; [done|lia|by intros ? ? ?]. }
  destruct (maxBytes <? bytes + utf8_bytes a) eqn:E; bool_prop; simpl.
  - split_and!; [apply prefix_nil|lia|]. intros ch rest [= <- _]. lia.
  - destruct (IH (bytes + utf8_bytes a)) as (Hp & Hl & Hm); [lia|]. split_and!; [by apply prefix_cons|lia|].
    intros ch rest [= Heq]. specialize (Hm ch rest Heq). lia.
Qed.

(** the name a temporary name starts with is the longest start of the item's name in whole
    characters within 200 bytes; every name a Replace tries is at most 255 bytes whatever the
    item's name, and the sixteen it tries are different. *)
Theorem temp_names_fit name :
  tempStem name `prefix_of` name
  /\ (utf8_len name <= TEMP_STEM_BYTES -> tempStem name = name)
  /\ (forall tag n, tag ∈ [TEMP_NEW; TEMP_OLD] -> (1 <= n <= TEMP_TRIES)%nat ->
        utf8_len (candidate name tag n) <= 255)
  /\ (forall tag n m, (1 <= n)%nat -> (1 <= m)%nat -> candidate name tag n = candidate name tag m -> n = m).
Proof.
  destruct (tempStem_from_spec name 0 TEMP_STEM_BYTES) as (Hp & Hl & Hm); [done|].
  fold (tempStem name) in Hp, Hl, Hm. split_and!; [done| | |].
  - intros Hn. destruct Hp as [[|ch rest] Hr]; [by rewrite app_nil_r in Hr|].
    specialize (Hm ch rest Hr). rewrite Hr, utf8_len_app in Hn. simpl in Hn.
    assert (0 <= utf8_len rest); [|lia]. clear. induction rest as [|a l IH]; simpl; [lia|].
    pose proof (utf8_bytes_range a). lia.
  - intros tag n Ht Hn. unfold candidate. rewrite !utf8_len_app.
    assert (utf8_len tag = 8) as ->.
    { repeat (apply elem_of_cons in Ht as [->|Ht]; [done|]). by apply elem_of_nil in Ht. }
    assert (utf8_len (if (n =? 1)%nat then [] else num (Z.of_nat n)) <= 2).
    { unfold TEMP_TRIES in Hn. do 17 (destruct n as [|n]; [vm_compute; discriminate|]). lia. }
    change (utf8_len (js ".")) with 1. unfold TEMP_STEM_BYTES in Hl. lia.
  - intros tag n m Hn Hm' H. unfold candidate in H. do 3 apply app_inv_head in H.
    destruct (n =? 1)%nat eqn:En, (m =? 1)%nat eqn:Em;
      rewrite ?Nat.eqb_eq in *; subst; try done.
    + symmetry in H. by apply num_not_nil in H.
    + by apply num_not_nil in H.
    + apply num_inj in H. lia.
Qed.
