(* ===== verification/FsUploadPlan.v ===== *)
(** What a pick on the Files screen becomes (client/src/state/fsUploadPlan.ts, with keepBothName of
    lib/consolePath.ts): conflicts settled one by one, then the files grouped into one list job.
    Text is Latin-1 (where NFC changes nothing); a counted name is followed up to 2^53, where a
    JavaScript number stops counting. *)
From S2P Require Import Prelude RemotePath.

(** * Names *)

(** [c.toLowerCase()] of a Latin-1 character. *)
Definition lower_latin1 (a : ascii) : ascii :=
  if is_upper a || ((192 <=? code a) && (code a <=? 222) && negb (code a =? 215))
  then ascii_of_nat (nat_of_ascii a + 32) else a.
(** How two names are compared for a conflict. *)
Definition nameKey (name : str) : str := map lower_latin1 name.

Definition is_sep (a : ascii) : bool := is_char "/" a || is_char "\" a.
(** The last part of [s] after a separator. *)
Fixpoint after_last_sep (s : str) : str :=
  match s with
  | [] => []
  | a :: s' => if existsb is_sep s' then after_last_sep s' else if is_sep a then s' else s
  end.
(** Last part of a path, whichever separator the computer uses. *)
Definition baseNameOf (p : str) : str :=
  match after_last_sep (strip_end is_sep p) with
  | [] => match strip_end is_sep p with [] => js "file" | t => t end
  | n => n
  end.

(** [/^(.+) \((\d+)\)$/]: what comes before the count, and its digits. *)
Fixpoint take_while (p : ascii -> bool) (s : str) : str * str :=
  match s with
  | [] => ([], [])
  | a :: s' => if p a then let '(t, r) := take_while p s' in (a :: t, r) else ([], s)
  end.
Definition is_line_end (a : ascii) : bool := (code a =? 10) || (code a =? 13).
Definition counted (stem : str) : option (str * str) :=
  match reverse stem with
  | ")"%char :: s =>
      match take_while is_digit s with
      | ((_ :: _) as ds, "("%char :: " "%char :: ((_ :: _) as pre)) =>
          if existsb is_line_end pre then None else Some (reverse pre, reverse ds)
      | _ => None
      end
  | _ => None
  end.

(** The stem and the extension of a name; a folder's dots are part of its name. *)
Definition split_ext (name : str) (dir : bool) : str * str :=
  match (if dir then None else last_index_of "." name) with
  | Some ((S _) as dot) => (take dot name, drop dot name)
  | _ => (name, [])
  end.
Definition keepBothName (name : str) (n : Z) (dir : bool) : str :=
  let '(stem, ext) := split_ext name dir in
  match counted stem with Some (m1, _) => m1 | None => stem end ++ js " (" ++ num n ++ js ")" ++ ext.

(** [n + 1] of a JavaScript number up to 2^53. *)
Definition MAX_COUNT : Z := 2 ^ 53.
Definition js_incr (n : Z) : Z := if n <? MAX_COUNT then n + 1 else n.

(** The loop of [freeKeepBothName]; [None] when [fuel] rounds found no free name. *)
Fixpoint free_from (fuel : nat) (n : Z) (name : str) (dir : bool) (taken : str -> bool) : option str :=
  match fuel with
  | O => None
  | S fuel =>
      let candidate := keepBothName name n dir in
      if negb (taken candidate) then Some candidate else free_from fuel (js_incr n) name dir taken
  end.
Definition first_count (name : str) (dir : bool) : Z :=
  match counted (split_ext name dir).1 with
  | Some (_, m2) => Z.max 2 (js_incr (parse_dec m2))
  | None => 2
  end.
(** The first Keep both name for [name] that is not [taken]. *)
Definition freeKeepBothName (fuel : nat) (name : str) (dir : bool) (taken : str -> bool) : option str :=
  free_from fuel (first_count name dir) name dir taken.

(** * Data *)

Inductive FsConflictChoice := Replace | Skip | Keep.
#[export] Instance choice_eq_dec : EqDecision FsConflictChoice.
Proof. solve_decision. Defined.

Record FsConflict := {
  c_name : str; pickedDir : bool; existingDir : bool; canReplace : bool; left_ : Z
}.
Record FsConflictDecision := { choice : FsConflictChoice; all : bool }.

Inductive PathKind := KFile | KFolder | KOther | KMissing.
#[export] Instance kind_eq_dec : EqDecision PathKind.
Proof. solve_decision. Defined.
Record FsPickedItem := { p_src : str; kind : PathKind }.
Record FsExistingEntry := { e_name : str; e_kind : str; e_size : Z }.

Record FsListFile := { f_src : str; f_name : str; f_replacesSize : option Z }.
Inductive FsUploadStep :=
| One (src name : str) (asFile : bool) (txId : str)
| ListStep (txId : str) (files : list FsListFile).
Record FsUploadPlan := { steps : list FsUploadStep; skipped : list str }.

(** Whether a picked file can go in a file-list job: a file on this computer's disk. *)
Definition listable (i : FsPickedItem) : bool :=
  bool_decide (kind i = KFile) && negb (isRemotePath (p_src i)).

(** [key] tells two objects of the plan apart: the item's place in the pick. *)
Record Planned := {
  key : nat; src : str; name : str; dir : bool; is_listable : bool; replacesSize : option Z
}.

(** * Settling the conflicts *)

Record Settling := {
  planned : gmap str Planned;
  order : list Planned;
  skips : list str;
  always : option FsConflictChoice;
  pending : Z;
  talk : list (FsConflict * FsConflictDecision)   (* the questions asked so far, and the answers *)
}.
#[export] Instance eta_planned : Settable Planned :=
  fun x => Build_Planned (key x) (src x) (name x) (dir x) (is_listable x) (replacesSize x).
#[export] Instance eta_settling : Settable Settling :=
  fun x => Build_Settling (planned x) (order x) (skips x) (always x) (pending x) (talk x).

(** How the settling can end early: the user cancelled at a conflict, or no free name is ever found. *)
Inductive Ended := Cancelled | NeverEnds.

Section settle.
Context (there : gmap str FsExistingEntry) (decide_ : nat -> FsConflict -> option FsConflictDecision).

(** The item [p] goes in: recorded under its name's key, last in the order. *)
Definition put (item : Planned) (s : Settling) : Settling :=
  s <| planned := <[nameKey (name item) := item]> (planned s) |> <| order := order s ++ [item] |>.
Definition drop_from_order (k : nat) (l : list Planned) : list Planned :=
  match find_index (fun i => Nat.eqb (key i) k) l with Some j => delete j l | None => l end.

(** Every name taken now: the folder's and this plan's. *)
Definition taken_key (s : Settling) (n : str) : bool :=
  bool_decide (is_Some (there !! nameKey n)) || bool_decide (is_Some (planned s !! nameKey n)).
Definition name_fuel (s : Settling) : nat := S (size there + size (planned s)).

Definition replace_with (item : Planned) (earlier : option Planned) (onDisk : option FsExistingEntry)
    (s : Settling) : Settling :=
  match earlier, onDisk with
  | Some e, _ =>
      let item := item <| name := name e |> in
      if dir item then put item s
      else
        let item := match replacesSize e with Some z => item <| replacesSize := Some z |> | None => item end in
        put item (s <| order := drop_from_order (key e) (order s) |>)
  | None, Some d =>
      put (item <| name := e_name d |>
                <| replacesSize := if bool_decide (e_kind d = js "file") then Some (e_size d) else replacesSize item |>) s
  | None, None => put item s
  end.

Definition settle_choice (item : Planned) (earlier : option Planned) (onDisk : option FsExistingEntry)
    (c : FsConflictChoice) (s : Settling) : Settling + Ended :=
  match c with
  | Skip => inl (s <| skips := skips s ++ [src item] |>)
  | Keep =>
      match freeKeepBothName (name_fuel s) (name item) (dir item) (taken_key s) with
      | Some n => inl (put (item <| name := n |>) s)
      | None => inr NeverEnds
      end
  | Replace => inl (replace_with item earlier onDisk s)
  end.

(** One pick: [i] is its place in the list. *)
Definition settle_one (i : nat) (p : FsPickedItem) (s : Settling) : Settling + Ended :=
  let name := baseNameOf (p_src p) in
  let isDir := bool_decide (kind p = KFolder) in
  let item := {| key := i; src := p_src p; name := name; dir := isDir; is_listable := listable p; replacesSize := None |} in
  let earlier := planned s !! nameKey name in
  let onDisk := there !! nameKey name in
  match earlier, onDisk with
  | None, None => inl (put item s)
  | _, _ =>
      let s := s <| pending := pending s - 1 |> in
      let existing := match earlier, onDisk with
                      | Some e, _ => dir e
                      | None, Some d => bool_decide (e_kind d = js "dir")
                      | None, None => false
                      end in
      let can := Bool.eqb existing isDir in
      let standing := match always s with Some Replace => if can then Some Replace else None | o => o end in
      match standing with
      | Some c => settle_choice item earlier onDisk c s
      | None =>
          let question := {| c_name := name; pickedDir := isDir; existingDir := existing;
                             canReplace := can; left_ := Z.max 0 (pending s) |} in
          match decide_ (length (talk s)) question with
          | None => inr Cancelled
          | Some a =>
              let c := match choice a with Replace => if can then Replace else Keep | c => c end in
              settle_choice item earlier onDisk c
                (s <| talk := talk s ++ [(question, a)] |> <| always := if all a then Some (choice a) else always s |>)
          end
      end
  end.

Fixpoint settle_all (i : nat) (l : list FsPickedItem) (s : Settling) : Settling + Ended :=
  match l with
  | [] => inl s
  | p :: l => match settle_one i p s with inl s' => settle_all (S i) l s' | inr e => inr e end
  end.
End settle.

(** Conflicts still to come, counted up front. *)
Fixpoint count_pending (there : gmap str FsExistingEntry) (seen : gset str) (l : list FsPickedItem) : Z :=
  match l with
  | [] => 0
  | p :: l =>
      let k := nameKey (baseNameOf (p_src p)) in
      (if bool_decide (is_Some (there !! k)) || bool_decide (k ∈ seen) then 1 else 0)
      + count_pending there ({[ k ]} ∪ seen) l
  end.

Definition index_there (existing : list FsExistingEntry) : gmap str FsExistingEntry :=
  fold_left (fun m e => <[nameKey (e_name e) := e]> m) existing ∅.

(** * Grouping into steps *)

Definition in_list (i : Planned) : bool := is_listable i && negb (dir i).
Definition list_file (i : Planned) : FsListFile :=
  {| f_src := src i; f_name := name i; f_replacesSize := replacesSize i |}.

(** [txId n] is the [n]th job id minted. [listed]: the list job when one is made, not yet placed. *)
Fixpoint group_steps (txId : nat -> str) (n : nat) (listed : list Planned) (placed : bool) (l : list Planned)
    : list FsUploadStep :=
  match l with
  | [] => []
  | i :: l =>
      if (2 <=? length listed)%nat && in_list i then
        if placed then group_steps txId n listed true l
        else ListStep (txId n) (list_file <$> listed) :: group_steps txId (S n) listed true l
      else One (src i) (name i) false (txId n) :: group_steps txId (S n) listed placed l
  end.

Definition settle_picked (picked : list FsPickedItem) (existing : list FsExistingEntry)
    (decide_ : nat -> FsConflict -> option FsConflictDecision) : Settling + Ended :=
  let there := index_there existing in
  settle_all there decide_ 0 picked
    {| planned := ∅; order := []; skips := []; always := None; pending := count_pending there ∅ picked; talk := [] |}.
Definition planFsUpload (picked : list FsPickedItem) (existing : list FsExistingEntry)
    (decide_ : nat -> FsConflict -> option FsConflictDecision) (newTxId : nat -> str) : FsUploadPlan + Ended :=
  match settle_picked picked existing decide_ with
  | inr e => inr e
  | inl s => inl {| steps := group_steps newTxId 0 (base.filter (fun i => in_list i = true) (order s)) false (order s);
                    skipped := skips s |}
  end.

(** What the person was asked, and answered. *)
Definition conversation (picked : list FsPickedItem) (existing : list FsExistingEntry)
    (decide_ : nat -> FsConflict -> option FsConflictDecision) : list (FsConflict * FsConflictDecision) :=
  match settle_picked picked existing decide_ with inl s => talk s | inr _ => [] end.

(** How many of the pick a step accounts for. *)
Definition stepCount (s : FsUploadStep) : nat :=
  match s with ListStep _ files => length files | One _ _ _ _ => 1 end.

(** * After a list job failed *)

Definition has_landed (listing : gmap str FsExistingEntry) (sizes : str -> option Z) (f : FsListFile) : bool :=
  match listing !! nameKey (f_name f) with
  | None => false
  | Some e =>
      bool_decide (e_kind e = js "file")
      && match sizes (f_name f) with
         | None => bool_decide (f_replacesSize f = None)
         | Some want => e_size e =? want
         end
      && match f_replacesSize f, sizes (f_name f) with
         | Some old, Some want => negb (old =? want)
         | _, _ => true
         end
  end.
(** Which files of a list are in place, read from the folder's listing ([None]: it could not be read). *)
Definition landedOfList (files : list FsListFile) (listing : option (list FsExistingEntry)) (sizes : str -> option Z)
    : list FsListFile * list FsListFile :=
  match listing with
  | None => ([], files)
  | Some l =>
      let at_ := index_there l in
      (base.filter (fun f => has_landed at_ sizes f = true) files, base.filter (fun f => has_landed at_ sizes f = false) files)
  end.

(** * Keep both always finds a name *)

Lemma nameKey_app s u : nameKey (s ++ u) = nameKey s ++ nameKey u.
Proof. apply map_app. Qed.

Lemma digit_latin1 a : is_digit a = true -> lower_latin1 a = a.
Proof.
  intros Hd. unfold lower_latin1. rewrite digit_not_upper by done.
  unfold is_digit in Hd. apply andb_true_iff in Hd as [_ Hd]. apply Z.leb_le in Hd.
  replace (192 <=? code a) with false by (symmetry; apply Z.leb_gt; lia). done.
Qed.

Lemma nameKey_num n : 0 <= n -> nameKey (num n) = num n.
Proof.
  intros Hn. destruct (num_digits n Hn) as [H _]. unfold nameKey. revert H.
  induction (num n) as [|a s IH]; simpl; [done|]. intros [Ha Hs]%andb_true_iff.
  by rewrite digit_latin1, IH.
Qed.

(** Different counts give different names, even to the eyes of a drive that ignores case. *)
Lemma keepBothName_inj name dir n m : 0 <= n -> 0 <= m ->
  nameKey (keepBothName name n dir) = nameKey (keepBothName name m dir) -> n = m.
Proof.
  intros Hn Hm. unfold keepBothName. destruct (split_ext name dir) as [stem ext].
  rewrite !nameKey_app, !nameKey_num by done. intros H. do 2 apply app_inv_head in H.
  rewrite !(assoc_L (++)) in H. do 2 apply app_inv_tail in H. by apply num_inj.
Qed.

Lemma free_from_spec fuel n name dir taken : 0 <= n -> n + Z.of_nat fuel <= MAX_COUNT ->
  match free_from fuel n name dir taken with
  | Some c => exists k, (k < fuel)%nat /\ c = keepBothName name (n + Z.of_nat k) dir /\ taken c = false
      /\ forall j, (j < k)%nat -> taken (keepBothName name (n + Z.of_nat j) dir) = true
  | None => forall j, (j < fuel)%nat -> taken (keepBothName name (n + Z.of_nat j) dir) = true
  end.
Proof.
  revert n. induction fuel as [|fuel IH]; intros n Hn Hf; cbn [free_from]; [by intros j ?; lia|].
  destruct (taken (keepBothName name n dir)) eqn:E; cbn [negb].
  2:{ exists 0%nat. rewrite Z.add_0_r. split_and!; [lia|done|done|by intros j ?; lia]. }
  assert (js_incr n = n + 1) as ->. { unfold js_incr. replace (n <? MAX_COUNT) with true; [done|]. symmetry. apply Z.ltb_lt. lia. }
  specialize (IH (n + 1)). destruct (free_from fuel (n + 1) name dir taken) as [c|].
  - destruct IH as (k & Hk & -> & Hc & Hj); [lia..|]. exists (S k).
    split_and!; [lia|f_equal; lia| |]. { by replace (n + Z.of_nat (S k)) with (n + 1 + Z.of_nat k) by lia. }
    intros [|j] Hlt; [by rewrite Z.add_0_r|].
    replace (n + Z.of_nat (S j)) with (n + 1 + Z.of_nat j) by lia. apply Hj. lia.
  - intros [|j] Hlt; [by rewrite Z.add_0_r|].
    replace (n + Z.of_nat (S j)) with (n + 1 + Z.of_nat j) by lia. apply IH; lia.
Qed.

Lemma free_from_free fuel n name dir taken c : free_from fuel n name dir taken = Some c -> taken c = false.
Proof.
  revert n. induction fuel as [|fuel IH]; intros n; cbn [free_from]; [done|].
  destruct (taken (keepBothName name n dir)) eqn:E; cbn [negb]; [apply IH|]. intros [= <-]. exact E.
Qed.

Lemma first_count_pos name dir : 2 <= first_count name dir.
Proof. unfold first_count. destruct (counted _) as [[? ?]|]; lia. Qed.

(** Keep both ends: with [taken] names no more than the set [used] (of keys) and a count that
    stays below 2^53, the loop finds a name within one round more than [used] has names; the name
    is free, and it is the first free one counting on from the name's own count. *)
Theorem keep_both_finds_a_name (name : str) (dir : bool) (taken : str -> bool) (used : gset str) fuel
  (Htaken : forall n, taken n = true -> nameKey n ∈ used)
  (Hfuel : (size used < fuel)%nat)
  (Hcount : first_count name dir + Z.of_nat fuel <= MAX_COUNT) :
  exists n, freeKeepBothName fuel name dir taken = Some (keepBothName name n dir)
    /\ first_count name dir <= n <= first_count name dir + Z.of_nat (size used)
    /\ taken (keepBothName name n dir) = false
    /\ forall m, first_count name dir <= m < n -> taken (keepBothName name m dir) = true.
Proof.
  pose proof (first_count_pos name dir) as Hpos. set (n0 := first_count name dir) in *.
  assert (forall f, (forall j, (j < f)%nat -> taken (keepBothName name (n0 + Z.of_nat j) dir) = true) -> (f <= size used)%nat) as Hpig.
  { intros f Hf. apply (fresh_among (fun j => nameKey (keepBothName name (n0 + Z.of_nat j) dir))).
    - intros x y E. apply keepBothName_inj in E; lia.
    - intros j Hj. by apply Htaken, Hf. }
  pose proof (free_from_spec fuel n0 name dir taken) as H. unfold freeKeepBothName. fold n0.
  destruct (free_from fuel n0 name dir taken) as [c|].
  - destruct H as (k & Hk & -> & Hc & Hj); [lia..|]. exists (n0 + Z.of_nat k).
    pose proof (Hpig k Hj). split_and!; [done|lia|lia|done|].
    intros m Hm. replace m with (n0 + Z.of_nat (Z.to_nat (m - n0))) by lia. apply Hj. lia.
  - specialize (Hpig fuel (H ltac:(lia) ltac:(lia))). lia.
Qed.

Lemma keep_both_finds_a_name_witness :
  let taken n := bool_decide (nameKey n ∈ ({[js "a.txt"; js "a (2).txt"; js "a (3).txt"]} : gset str)) in
  exists n, freeKeepBothName 4 (js "A.txt") false taken = Some (keepBothName (js "A.txt") n false)
    /\ taken (keepBothName (js "A.txt") n false) = false.
Proof.
  cbv zeta. destruct (keep_both_finds_a_name (js "A.txt") false
    (fun n => bool_decide (nameKey n ∈ ({[js "a.txt"; js "a (2).txt"; js "a (3).txt"]} : gset str)))
    {[js "a.txt"; js "a (2).txt"; js "a (3).txt"]} 4) as (n & H1 & _ & H2 & _).
  - intros n. apply bool_decide_eq_true.
  - vm_compute. lia.
  - vm_compute. discriminate.
  - eauto.
Defined.

(** a name that counts 2^53 and is taken makes Keep both count on the spot: no number of rounds
    finds a name (the screen's thread never comes back). *)
Theorem keep_both_can_hang fuel :
  let name := js "a (9007199254740992).txt" in
  freeKeepBothName fuel name false (fun n => bool_decide (nameKey n = nameKey name)) = None.
Proof.
  cbv zeta. unfold freeKeepBothName.
  replace (first_count (js "a (9007199254740992).txt") false) with MAX_COUNT by (vm_compute; reflexivity).
  induction fuel as [|fuel IH]; [done|]. cbn [free_from].
  replace (keepBothName (js "a (9007199254740992).txt") MAX_COUNT false) with (js "a (9007199254740992).txt")
    by (vm_compute; reflexivity).
  rewrite bool_decide_eq_true_2 by done. cbn [negb].
  replace (js_incr MAX_COUNT) with MAX_COUNT by (vm_compute; reflexivity). exact IH.
Qed.

(** * What the settling keeps *)

#[local] Arguments nameKey : simpl never.

(** The person answered so to a conflict of this name, or for all. Replace where it cannot be counts as
    Keep both. *)
Definition replace_said (talked : list (FsConflict * FsConflictDecision)) (n : str) : Prop :=
  exists c a, (c, a) ∈ talked /\ choice a = Replace /\ ((c_name c = n /\ canReplace c = true) \/ all a = true).
Definition skip_said (talked : list (FsConflict * FsConflictDecision)) (n : str) : Prop :=
  exists c a, (c, a) ∈ talked /\ choice a = Skip /\ (c_name c = n \/ all a = true).
Definition keep_said (talked : list (FsConflict * FsConflictDecision)) (n : str) : Prop :=
  exists c a, (c, a) ∈ talked /\ ((choice a = Keep /\ (c_name c = n \/ all a = true)) \/
    (choice a = Replace /\ c_name c = n /\ canReplace c = false)).
Definition said (c : FsConflictChoice) : list (FsConflict * FsConflictDecision) -> str -> Prop :=
  match c with Replace => replace_said | Skip => skip_said | Keep => keep_said end.
Lemma said_mono c t t' n : t ⊆ t' -> said c t n -> said c t' n.
Proof. intros Ht. destruct c; intros (q & a & Hin & H); exists q, a; (split; [by apply Ht|done]). Qed.

Lemma key_inj (l : list Planned) x y : NoDup (key <$> l) -> x ∈ l -> y ∈ l -> key x = key y -> x = y.
Proof.
  intros Hnd (i & Hi)%list_elem_of_lookup (j & Hj)%list_elem_of_lookup Hk.
  assert (i = j) as ->; [|congruence].
  eapply (NoDup_lookup (key <$> l)); [done|..]; rewrite list_lookup_fmap, ?Hi, ?Hj; simpl; [done|by rewrite Hk].
Qed.

Section invariant.
Context (there : gmap str FsExistingEntry) (decide_ : nat -> FsConflict -> option FsConflictDecision).
Context (picked : list FsPickedItem).
Context (there_wf : forall k e, there !! k = Some e -> nameKey (e_name e) = k).

(** An item is what was picked at its place, and fits what is at its name. *)
Definition item_ok (it : Planned) : Prop :=
  (exists p, picked !! key it = Some p /\ src it = p_src p
     /\ dir it = bool_decide (kind p = KFolder) /\ is_listable it = listable p)
  /\ match there !! nameKey (name it) with
     | Some e => name it = e_name e /\ dir it = bool_decide (e_kind e = js "dir")
                 /\ replacesSize it = if bool_decide (e_kind e = js "file") then Some (e_size e) else None
     | None => replacesSize it = None
     end.

(** The names a picked file may get, as the drive sees them. *)
Definition may_be_named (p : FsPickedItem) (k : str) : Prop :=
  k = nameKey (baseNameOf (p_src p)) \/ exists n, k = nameKey (keepBothName (baseNameOf (p_src p)) n false).
(** A file picked later replaces the file [p] under the name it would have had. *)
Definition gave_way (talked : list (FsConflict * FsConflictDecision)) (items : list Planned) (j : nat) (p : FsPickedItem) : Prop :=
  kind p <> KFolder /\ exists it, it ∈ items /\ (j < key it)%nat /\ dir it = false /\ may_be_named p (nameKey (name it)) /\
    nameKey (name it) = nameKey (baseNameOf (src it)) /\ replace_said talked (baseNameOf (src it)).
(** What became of the pick at place [j]: it goes in, was skipped, or gave way. *)
Definition accounted (s : Settling) (j : nat) : Prop := exists p, picked !! j = Some p /\
  ((p_src p ∈ skips s /\ skip_said (talk s) (baseNameOf (p_src p)))
   \/ (exists it, it ∈ order s /\ key it = j)
   \/ gave_way (talk s) (order s) j p).
(** The name an item goes in under: its own, which nobody has in the folder; that of what it replaces or
    merges with; or a counted one, which nobody has. *)
Definition well_named (talked : list (FsConflict * FsConflictDecision)) (it : Planned) : Prop :=
  let own := baseNameOf (src it) in
  (name it = own /\ there !! nameKey own = None)
  \/ (nameKey (name it) = nameKey own /\ replace_said talked own)
  \/ ((exists n, name it = keepBothName own n (dir it)) /\ there !! nameKey (name it) = None /\ keep_said talked own).

Record settled (i : nat) (s : Settling) : Prop := {
  s_planned : forall k it, planned s !! k = Some it -> nameKey (name it) = k /\ it ∈ order s;
  s_order : forall it, it ∈ order s -> exists it', planned s !! nameKey (name it) = Some it'
              /\ (it = it' \/ dir it = true /\ dir it' = true);
  s_keys : NoDup (key <$> order s);
  s_below : forall it, it ∈ order s -> (key it < i)%nat;
  s_items : forall it, it ∈ order s -> item_ok it;
  s_named : forall it, it ∈ order s -> well_named (talk s) it;
  s_merged : forall x y, x ∈ order s -> y ∈ order s -> (key x < key y)%nat -> nameKey (name x) = nameKey (name y) ->
               replace_said (talk s) (baseNameOf (src y));
  s_always : forall c, always s = Some c -> exists q a, (q, a) ∈ talk s /\ choice a = c /\ all a = true;
  s_all : forall j, (j < i)%nat -> accounted s j
}.

(** Putting item [i] in at a name: free, or shared by folders. *)
Lemma settled_put i s it : settled i s -> key it = i -> item_ok it -> well_named (talk s) it ->
  match planned s !! nameKey (name it) with
  | Some e => dir it = true /\ dir e = true /\ replace_said (talk s) (baseNameOf (src it))
  | None => True
  end -> settled (S i) (put it s).
Proof.
  intros [Hp Ho Hk Hb Hi Hn Hm Hal Ha] Hkey Hok Hnm Hfree.
  assert (forall x, x ∈ order (put it s) <-> x ∈ order s \/ x = it) as Hin.
  { intros x. simpl. by rewrite elem_of_app, list_elem_of_singleton. }
  split.
  - intros k x. simpl. destruct (decide (nameKey (name it) = k)) as [<-|Hne].
    + rewrite lookup_insert_eq. intros [= <-]. split; [done|]. set_solver.
    + rewrite lookup_insert_ne by done. intros [? ?]%Hp. split; [done|]. set_solver.
  - intros x [Hx| ->]%Hin; simpl; [|rewrite lookup_insert_eq; eauto].
    destruct (Ho x Hx) as (e & He & Hxe). destruct (decide (nameKey (name it) = nameKey (name x))) as [Heq|Hne].
    + rewrite Heq, lookup_insert_eq. rewrite Heq, He in Hfree. exists it. split; [done|]. right.
      destruct Hxe as [->|[? ?]]; tauto.
    + rewrite lookup_insert_ne by done. eauto.
  - simpl. rewrite fmap_app. apply NoDup_app. split_and!; [done| |apply NoDup_singleton].
    intros k (x & -> & Hx)%list_elem_of_fmap Hk'%list_elem_of_singleton. specialize (Hb x Hx). lia.
  - intros x [Hx| ->]%Hin; [specialize (Hb x Hx)|]; lia.
  - intros x [Hx| ->]%Hin; auto.
  - intros x [Hx| ->]%Hin; [by apply Hn|done].
  - intros x y [Hx| ->]%Hin [Hy| ->]%Hin Hlt Hxy; cbn.
    + by apply (Hm x y).
    + destruct (Ho x Hx) as (e & He & _). rewrite Hxy in He. rewrite He in Hfree. apply Hfree.
    + specialize (Hb y Hy). lia.
    + lia.
  - exact Hal.
  - intros j Hj. destruct (decide (j = i)) as [->|Hne].
    + destruct Hok as [(p & Hpk & _) _]. rewrite Hkey in Hpk. exists p. split; [done|]. right. left. exists it. split; [apply Hin; by right|done].
    + destruct (Ha j) as (p & Hpk & H); [lia|]. exists p. split; [done|]. destruct H as [?|[(x & Hx & ?)|(? & x & Hx & ?)]]; [by left| |].
      * right. left. exists x. split; [apply Hin; by left|done].
      * right. right. split; [done|]. exists x. split; [apply Hin; by left|done].
Qed.

Lemma elem_of_drop_key k l it : NoDup (key <$> l) ->
  it ∈ drop_from_order k l <-> it ∈ l /\ key it <> k.
Proof.
  intros Hnd. unfold drop_from_order. destruct (find_index _ l) as [j|] eqn:E.
  - apply find_index_Some in E as (x & Hx & Hkx & _). apply Nat.eqb_eq in Hkx.
    rewrite list_elem_of_lookup, list_elem_of_lookup. split.
    + intros (i & Hi). destruct (decide (i < j)%nat) as [Hlt|Hge].
      * rewrite list_lookup_delete_lt in Hi by done. split; [eauto|]. intros <-.
        assert (i = j); [|lia]. eapply (NoDup_lookup (key <$> l)); [done|..]; rewrite list_lookup_fmap, ?Hi, ?Hx; simpl; [done|by rewrite Hkx].
      * rewrite list_lookup_delete_ge in Hi by lia. split; [eauto|]. intros <-.
        assert (S i = j); [|lia]. eapply (NoDup_lookup (key <$> l)); [done|..]; rewrite list_lookup_fmap, ?Hi, ?Hx; simpl; [done|by rewrite Hkx].
    + intros [(i & Hi) Hne]. destruct (decide (i < j)%nat) as [Hlt|Hge].
      * exists i. by rewrite list_lookup_delete_lt.
      * destruct (decide (i = j)) as [->|Hij]; [congruence|]. exists (pred i).
        rewrite list_lookup_delete_ge by lia. by replace (S (pred i)) with i by lia.
  - pose proof (proj1 (find_index_None _ _) E) as H. split; [|by intros [? ?]].
    intros Hin. split; [done|]. specialize (H it Hin). by apply Nat.eqb_neq in H.
Qed.

Lemma NoDup_drop_key k l : NoDup (key <$> l) -> NoDup (key <$> drop_from_order k l).
Proof.
  unfold drop_from_order. destruct (find_index _ l); [|done]. intros H.
  eapply sublist_NoDup; [exact H|]. apply fmap_sublist, sublist_delete.
Qed.

(** A file put in at the name of an earlier one, which goes. *)
Lemma settled_replace i s it e : settled i s -> key it = i -> item_ok it -> dir it = false ->
  planned s !! nameKey (name it) = Some e -> dir e = false ->
  nameKey (name it) = nameKey (baseNameOf (src it)) -> replace_said (talk s) (baseNameOf (src it)) ->
  settled (S i) (put it (s <| order := drop_from_order (key e) (order s) |>)).
Proof.
  intros [Hp Ho Hk Hb Hi Hn Hm Hal Ha] Hkey Hok Hdir He Hde Hown Hsaid.
  destruct (Hp _ _ He) as [Hek Hein].
  assert (forall x, x ∈ order (put it (s <| order := drop_from_order (key e) (order s) |>))
    <-> (x ∈ order s /\ key x <> key e) \/ x = it) as Hin.
  { intros x. cbn -[drop_from_order]. rewrite elem_of_app, list_elem_of_singleton, elem_of_drop_key by done. done. }
  assert (forall x, x ∈ order s -> key x <> key e -> nameKey (name x) <> nameKey (name it)) as Hother.
  { intros x Hx Hne Heq. destruct (Ho x Hx) as (e' & He' & Hxe). rewrite Heq, He in He'. injection He' as <-.
    destruct Hxe as [->|[? ?]]; congruence. }
  split.
  - intros k x. cbn -[drop_from_order]. destruct (decide (nameKey (name it) = k)) as [<-|Hne].
    + rewrite lookup_insert_eq. intros [= <-]. split; [done|]. apply Hin. by right.
    + rewrite lookup_insert_ne by done. intros [Hk' Hx]%Hp. split; [done|]. apply Hin. left. split; [done|].
      intros Heq. apply Hne. rewrite <-Hk', <-Hek. f_equal. f_equal.
      by eapply (key_inj (order s)).
  - intros x [[Hx Hne]| ->]%Hin; cbn -[drop_from_order]; [|rewrite lookup_insert_eq; eauto].
    rewrite lookup_insert_ne by (apply not_eq_sym, Hother; done). by apply Ho.
  - cbn -[drop_from_order]. rewrite fmap_app. apply NoDup_app. split_and!; [by apply NoDup_drop_key| |apply NoDup_singleton].
    intros k (x & -> & Hx)%list_elem_of_fmap Hk'%list_elem_of_singleton.
    apply elem_of_drop_key in Hx as [Hx _]; [|done]. specialize (Hb x Hx). lia.
  - intros x [[Hx _]| ->]%Hin; [specialize (Hb x Hx)|]; lia.
  - intros x [[Hx _]| ->]%Hin; auto.
  - intros x [[Hx _]| ->]%Hin; [by apply Hn|]. right. left. by split.
  - intros x y [[Hx Hxe]| ->]%Hin [[Hy Hye]| ->]%Hin Hlt Hxy; cbn -[drop_from_order]; [by apply (Hm x y)|done| |lia].
    specialize (Hb y Hy). lia.
  - exact Hal.
  - assert (it ∈ order (put it (s <| order := drop_from_order (key e) (order s) |>))) as Hnew by (apply Hin; by right).
    intros j Hj. destruct (decide (j = i)) as [->|Hne].
    + destruct Hok as [(p & Hpk & _) _]. rewrite Hkey in Hpk. exists p. split; [done|]. right. left. by exists it.
    + destruct (Ha j) as (p & Hpk & H); [lia|]. exists p. split; [done|]. destruct H as [?|[(x & Hx & Hjx)|(Hpd & x & Hx & Hjx & Hdx & Hxn & Hxs & Hxr)]]; [by left| |].
      * destruct (decide (key x = key e)) as [Hxe|]; [right; right|right; left; exists x; split; [apply Hin; by left|done]].
        assert (x = e) as -> by (by eapply (key_inj (order s))). destruct (Hi e Hein) as [(q & Hq & Hqs & Hqd & _) _].
        rewrite Hjx, Hpk in Hq. injection Hq as <-. rewrite Hde in Hqd. symmetry in Hqd. apply bool_decide_eq_false in Hqd. split; [done|]. exists it.
        split_and!; [done|lia|done| |done|done]. rewrite <- Hek. pose proof (Hn e Hein) as Hne'. unfold well_named in Hne'. rewrite Hqs, Hde in Hne'.
        destruct Hne' as [[-> _]|[[-> _]|((n & ->) & _)]]; [by left|by left|right; by exists n].
      * right. right. split; [done|]. destruct (decide (key x = key e)) as [Hxe|]; [|exists x; split; [apply Hin; by left|done]].
        assert (x = e) as -> by (by eapply (key_inj (order s))). exists it. split_and!; [done|lia|done| |done|done]. by rewrite <- Hek.
Qed.

Lemma settled_ext i s s' : settled i s ->
  planned s' = planned s -> order s' = order s -> skips s' = skips s -> talk s ⊆ talk s' ->
  (forall c, always s' = Some c -> exists q a, (q, a) ∈ talk s' /\ choice a = c /\ all a = true) -> settled i s'.
Proof.
  intros [Hp Ho Hk Hb Hi Hn Hm Hal Ha] E1 E2 E3 E4 E5.   split; rewrite ?E1, ?E2; try done.
  - intros it Hit. destruct (Hn it Hit) as [?|[[? ?]|(? & ? & ?)]]; [by left|right; left; split; [done|by eapply (said_mono Replace)]|right; right]. split_and!; [done|done|].
    by eapply (said_mono Keep).
  - intros x y Hx Hy Hlt Hk'. eapply (said_mono Replace); [exact E4|]. by apply (Hm x y).
  - intros j Hj. destruct (Ha j Hj) as (p & Hpk & H). exists p. rewrite E2, E3. split; [done|].
    destruct H as [[? ?]|[?|(? & it & ? & ? & ? & ? & ? & ?)]]; [left|by right; left|right; right].
    + split; [done|]. by eapply (said_mono Skip).
    + split; [done|]. exists it. split_and!; try done. by eapply (said_mono Replace).
Qed.

Lemma settled_skip i s p : settled i s -> picked !! i = Some p -> skip_said (talk s) (baseNameOf (p_src p)) ->
  settled (S i) (s <| skips := skips s ++ [p_src p] |>).
Proof.
  intros [Hp Ho Hk Hb Hi Hn Hm Hal Ha] Hpick Hsaid. split; try done.
  - intros x Hx. specialize (Hb x Hx). lia.
  - intros j Hj. destruct (decide (j = i)) as [->|Hne].
    + exists p. split; [done|]. left. split; [|done]. simpl. set_solver.
    + destruct (Ha j) as (q & Hq & H); [lia|]. exists q. split; [done|].
      destruct H as [[? ?]|H]; [left; split; [simpl; set_solver|done]|right; exact H].
Qed.

(** The item made of the pick at place [i]. *)
Definition item_of (i : nat) (p : FsPickedItem) : Planned :=
  {| key := i; src := p_src p; name := baseNameOf (p_src p); dir := bool_decide (kind p = KFolder);
     is_listable := listable p; replacesSize := None |}.

Lemma settled_replace_with i s p e d : settled i s -> picked !! i = Some p ->
  planned s !! nameKey (baseNameOf (p_src p)) = e -> there !! nameKey (baseNameOf (p_src p)) = d ->
  Bool.eqb (match e, d with
            | Some e, _ => dir e
            | None, Some d => bool_decide (e_kind d = js "dir")
            | None, None => false
            end) (bool_decide (kind p = KFolder)) = true ->
  (e <> None \/ d <> None) -> replace_said (talk s) (baseNameOf (p_src p)) ->
  settled (S i) (replace_with (item_of i p) e d s).
Proof.
  intros Hs Hpick He Hd Hcan%eqb_prop Hsome Hsaid. unfold replace_with. destruct e as [e|].
  - destruct (s_planned _ _ Hs _ _ He) as [Hek Hein]. destruct (s_items _ _ Hs e Hein) as [_ Heok].
    assert (forall it, key it = i -> src it = p_src p -> dir it = dir e -> is_listable it = listable p ->
      name it = name e -> replacesSize it = replacesSize e -> item_ok it) as Hok.
    { intros it H1 H2 H3 H4 H5 H6. split; [exists p; rewrite H1, H3, Hcan; done|]. rewrite H5, H3, H6. exact Heok. }
    assert (dir e = true -> replacesSize e = None) as Hdn.
    { intros Hde. destruct (there !! nameKey (name e)) as [x|]; [|done].
      destruct Heok as (_ & Hx & ->). rewrite Hde in Hx. symmetry in Hx. apply bool_decide_eq_true in Hx.
      by rewrite bool_decide_eq_false_2 by (rewrite Hx; done). }
    destruct (dir ((item_of i p) <| name := name e |>)) eqn:Hdir; cbn in Hdir.
    + assert (dir e = true) as Hde by congruence. apply settled_put; [done|done| | |].
      * apply Hok; try done. symmetry. by apply Hdn.
      * right. left. cbn. by rewrite Hek.
      * change (nameKey (name _)) with (nameKey (name e)). rewrite Hek, He. by split.
    + destruct (replacesSize e) as [z|] eqn:Ez; (eapply settled_replace; [done|done| |done|cbn; rewrite Hek; exact He|congruence|cbn; by rewrite Hek|done]);
        apply Hok; try done; cbn; congruence.
  - destruct d as [d|]; [|by destruct Hsome].
    assert (nameKey (e_name d) = nameKey (baseNameOf (p_src p))) as Hk by by apply there_wf.
    apply settled_put; [done|done| |right; left; cbn; by rewrite Hk|cbn; by rewrite Hk, He].
    split; [by exists p|]. cbn. rewrite Hk, Hd. split_and!; [done|symmetry; exact Hcan|done].
Qed.
Lemma free_from_named fuel n nm d taken c : free_from fuel n nm d taken = Some c -> exists k, c = keepBothName nm k d.
Proof.
  revert n. induction fuel as [|fuel IH]; intros n; cbn [free_from]; [done|].
  destruct (negb _); [intros [= <-]; by exists n|apply IH].
Qed.

Lemma settled_choice i s s' p e d c : settled i s -> picked !! i = Some p ->
  planned s !! nameKey (baseNameOf (p_src p)) = e -> there !! nameKey (baseNameOf (p_src p)) = d ->
  (c = Replace -> Bool.eqb (match e, d with
            | Some e, _ => dir e
            | None, Some d => bool_decide (e_kind d = js "dir")
            | None, None => false
            end) (bool_decide (kind p = KFolder)) = true) ->
  (e <> None \/ d <> None) -> said c (talk s) (baseNameOf (p_src p)) ->
  settle_choice there (item_of i p) e d c s = inl s' -> settled (S i) s'.
Proof.
  intros Hs Hpick He Hd Hcan Hsome Hsaid. destruct c; cbn [settle_choice].
  - intros [= <-]. apply settled_replace_with; auto.
  - intros [= <-]. by apply settled_skip.
  - destruct (freeKeepBothName _ _ _ _) as [n|] eqn:En; [|done]. intros [= <-].
    assert (taken_key there s n = false) as Ht.
    { by eapply free_from_free. }
    unfold taken_key in Ht. apply orb_false_iff in Ht as [H1 H2]. apply bool_decide_eq_false in H1, H2.
    apply eq_None_not_Some in H1, H2.
    destruct (free_from_named _ _ _ _ _ _ En) as [k Hk]. cbn in Hk.
    apply settled_put; [done|done| |right; right; cbn; split_and!; [by exists k|done|exact Hsaid]|cbn; by rewrite H2].
    split; [by exists p|]. cbn. by rewrite H1.
Qed.

Lemma settled_one i s s' p : settled i s -> picked !! i = Some p ->
  settle_one there decide_ i p s = inl s' -> settled (S i) s'.
Proof.
  intros Hs Hpick. unfold settle_one. fold (item_of i p).
  set (e := planned s !! nameKey (baseNameOf (p_src p))). set (d := there !! nameKey (baseNameOf (p_src p))).
  set (can := Bool.eqb _ _).
  assert (forall c s1, planned s1 = planned s -> order s1 = order s -> skips s1 = skips s -> talk s ⊆ talk s1 ->
    (forall c, always s1 = Some c -> exists q a, (q, a) ∈ talk s1 /\ choice a = c /\ all a = true) ->
    (c = Replace -> can = true) -> (e <> None \/ d <> None) -> said c (talk s1) (baseNameOf (p_src p)) ->
    settle_choice there (item_of i p) e d c s1 = inl s' -> settled (S i) s') as Hc.
  { intros c s1 E1 E2 E3 E4 E5 Hcan Hsome Hsaid. apply settled_choice; [by eapply settled_ext|done|by rewrite E1|done|done|done|done]. }
  assert (e = None /\ d = None \/ (e <> None \/ d <> None)) as [[Ee Ed]|Hsome] by (destruct e, d; naive_solver).
  { rewrite Ee, Ed. intros [= <-]. unfold e in Ee. unfold d in Ed. apply settled_put; [done|done| |left; by split|cbn; by rewrite Ee].
    split; [by exists p|]. cbn. by rewrite Ed. }
  set (s1 := s <| pending := pending s - 1 |>). set (question := {| c_name := _ |}).
  assert (forall c, match always s1 with Some Replace => if can then Some Replace else None | o => o end = Some c ->
    settle_choice there (item_of i p) e d c s1 = inl s' -> settled (S i) s') as Hstanding.
  { intros c Hst. assert (always s = Some c /\ (c = Replace -> can = true)) as [Hal Hcan] by (cbn in Hst; repeat case_match; split; congruence).
    destruct (s_always _ _ Hs c Hal) as (q & a & Hin & Hch & Hall). apply Hc; try done; [apply (s_always _ _ Hs)|].
    destruct c; exists q, a; (split; [done|]); auto. }
  assert (forall a, let c := match choice a with Replace => if can then Replace else Keep | c => c end in
    settle_choice there (item_of i p) e d c (s1 <| talk := talk s1 ++ [(question, a)] |> <| always := if all a then Some (choice a) else always s1 |>) = inl s' ->
    settled (S i) s') as Hasked.
  { intros a c. assert ((question, a) ∈ talk s ++ [(question, a)]) as Hin by (apply elem_of_app; right; by left).
    apply Hc; try done; [cbn; set_solver| | |].
    - cbn. intros c' Hc'. destruct (all a) eqn:Ea; [exists question, a; by simplify_eq|].
      destruct (s_always _ _ Hs c' Hc') as (q & b & Hq & ?). exists q, b. split; [set_solver|done].
    - unfold c. destruct (choice a); try done. by destruct can.
    - cbn. unfold c. destruct (choice a) eqn:Ech; [destruct can eqn:Ecan|..]; exists question, a; (split; [done|]); cbn; auto. }
  destruct e as [x|], d as [y|]; [| | |by destruct Hsome].
  all: destruct (match always s1 with Some Replace => _ | o => o end) as [c|]; [by apply Hstanding|].
  all: fold question; change (length (talk s1)) with (length (talk s)); destruct (decide_ _ _) as [a|]; [|done]; apply Hasked.
Qed.

Lemma settled_all i l s s' : settled i s -> (forall j p, l !! j = Some p -> picked !! (i + j)%nat = Some p) ->
  settle_all there decide_ i l s = inl s' -> settled (i + length l) s'.
Proof.
  revert i s. induction l as [|p l IH]; intros i s Hs Hl; cbn [settle_all].
  - intros [= <-]. by rewrite Nat.add_0_r.
  - destruct (settle_one there decide_ i p s) as [s1|] eqn:E; [|done]. intros H.
    replace (i + length (p :: l))%nat with (S i + length l)%nat by (simpl; lia). eapply IH; [| |exact H].
    + eapply settled_one; [done| |exact E]. specialize (Hl 0%nat p eq_refl). by rewrite Nat.add_0_r in Hl.
    + intros j q Hq. replace (S i + j)%nat with (i + S j)%nat by lia. by apply Hl.
Qed.
End invariant.

(** * Nothing is overwritten unasked *)

Section unasked.
Context (there : gmap str FsExistingEntry) (decide_ : nat -> FsConflict -> option FsConflictDecision).
Context (never_replace : forall n c a, decide_ n c = Some a -> choice a <> Replace).

Record untouched (s : Settling) : Prop := {
  u_always : always s <> Some Replace;
  u_there : forall it, it ∈ order s -> there !! nameKey (name it) = None;
  u_planned : forall it, it ∈ order s -> is_Some (planned s !! nameKey (name it));
  u_names : NoDup ((fun it => nameKey (name it)) <$> order s)
}.

Lemma untouched_put it s : untouched s -> there !! nameKey (name it) = None ->
  planned s !! nameKey (name it) = None -> untouched (put it s).
Proof.
  intros [Ha Ht Hp Hn] H1 H2. split; cbn; [done|..].
  - intros x [Hx| ->%list_elem_of_singleton]%elem_of_app; auto.
  - intros x [Hx| ->%list_elem_of_singleton]%elem_of_app; [|rewrite lookup_insert_eq; by eexists].
    rewrite lookup_insert_ne; [auto|]. intros E. specialize (Hp x Hx). rewrite <-E, H2 in Hp. by destruct Hp.
  - rewrite fmap_app. apply NoDup_app. split_and!; [done| |apply NoDup_singleton].
    intros k (x & -> & Hx)%list_elem_of_fmap E%list_elem_of_singleton.
    specialize (Hp x Hx). rewrite E, H2 in Hp. by destruct Hp.
Qed.

Lemma untouched_choice it e d c s s' : untouched s -> c <> Replace ->
  settle_choice there it e d c s = inl s' -> untouched s'.
Proof.
  intros Hu Hc. destruct c; [done| |]; cbn [settle_choice].
  - intros [= <-]. by destruct Hu.
  - destruct (freeKeepBothName _ _ _ _) as [n|] eqn:En; [|done]. intros [= <-].
    apply free_from_free in En. unfold taken_key in En. apply orb_false_iff in En as [H1 H2].
    apply bool_decide_eq_false in H1, H2. apply eq_None_not_Some in H1, H2. by apply untouched_put.
Qed.

Lemma untouched_one i p s s' : untouched s -> settle_one there decide_ i p s = inl s' -> untouched s'.
Proof.
  intros Hu. unfold settle_one.
  destruct (planned s !! _) as [x|] eqn:Ee, (there !! _) as [y|] eqn:Ed.
  4:{ intros [= <-]. by apply untouched_put. }
  all: destruct (match always _ with Some Replace => _ | o => o end) as [c|] eqn:Est.
  all: try (apply untouched_choice; [by destruct Hu|]; intros ->; destruct Hu as [Ha _ _ _]; cbn in Est;
            repeat case_match; congruence).
  all: destruct (decide_ _ _) as [a|] eqn:Ea; [|done]; apply never_replace in Ea.
  all: apply untouched_choice; [destruct Hu as [Ha Ht Hp Hn]; split; cbn; [destruct (all a); congruence|done..]|].
  all: destruct (choice a); done.
Qed.

Lemma untouched_all i l s s' : untouched s -> settle_all there decide_ i l s = inl s' -> untouched s'.
Proof.
  revert i s. induction l as [|p l IH]; intros i s Hu; cbn [settle_all]; [by intros [= <-]|].
  destruct (settle_one there decide_ i p s) as [s1|] eqn:E; [|done]. apply IH. by eapply untouched_one.
Qed.
End unasked.

(** * What the steps send *)

(** What a step sends: sources, each with the name it gets. *)
Definition step_files (s : FsUploadStep) : list (str * str) :=
  match s with
  | One src name _ _ => [(src, name)]
  | ListStep _ files => (fun f => (f_src f, f_name f)) <$> files
  end.
Definition sent (i : Planned) : str * str := (src i, name i).

Lemma step_files_list t l : step_files (ListStep t (list_file <$> l)) = sent <$> l.
Proof. simpl. rewrite <-list_fmap_compose. done. Qed.

Lemma group_steps_ones txId n listed placed l : (length listed < 2)%nat ->
  concat (step_files <$> group_steps txId n listed placed l) = sent <$> l.
Proof.
  intros Hl. revert n. induction l as [|i l IH]; intros n; cbn [group_steps]; [done|].
  replace (2 <=? length listed)%nat with false by (symmetry; apply Nat.leb_gt; lia). simpl. by rewrite IH.
Qed.

Lemma group_steps_sends txId n listed placed l : (2 <= length listed)%nat ->
  concat (step_files <$> group_steps txId n listed placed l)
  ≡ₚ (if placed || negb (existsb in_list l) then [] else sent <$> listed)
     ++ (sent <$> base.filter (fun i => in_list i = false) l).
Proof.
  intros Hl. revert n placed. induction l as [|i l IH]; intros n placed; cbn [group_steps existsb].
  { by destruct placed. }
  replace (2 <=? length listed)%nat with true by (symmetry; apply Nat.leb_le; lia). cbn [andb]. rewrite filter_cons.
  destruct (in_list i) eqn:E; cbn [orb].
  - rewrite decide_False by done. destruct placed; cbn [orb negb].
    + by rewrite (IH n true).
    + cbn [fmap list_fmap concat]. rewrite step_files_list. by rewrite (IH (S n) true).
  - rewrite decide_True by done. cbn [fmap list_fmap concat step_files app]. rewrite (IH (S n) placed).
    apply Permutation_middle.
Qed.

Lemma group_steps_listed txId n listed placed l t fs : ListStep t fs ∈ group_steps txId n listed placed l ->
  (2 <= length listed)%nat /\ fs = list_file <$> listed.
Proof.
  revert n placed. induction l as [|i l IH]; intros n placed; cbn [group_steps]; [by intros ?%elem_of_nil|].
  destruct (2 <=? length listed)%nat eqn:E; cbn [andb]; [destruct (in_list i), placed|];
    rewrite ?elem_of_cons; try (intros [[=]|H]; by eapply IH); try (by eapply IH).
  intros [[= -> ->]|H]; [|by eapply IH]. by apply Nat.leb_le in E.
Qed.

Lemma filter_parts (l : list Planned) :
  base.filter (fun i => in_list i = true) l ++ base.filter (fun i => in_list i = false) l ≡ₚ l.
Proof.
  induction l as [|i l IH]; [done|]. rewrite !filter_cons. destruct (in_list i) eqn:E.
  - rewrite decide_True, decide_False by done. simpl. by rewrite IH.
  - rewrite decide_False, decide_True by done. rewrite <-Permutation_middle. by rewrite IH.
Qed.

Lemma filter_none (l : list Planned) : existsb in_list l = false -> base.filter (fun i => in_list i = true) l = [].
Proof.
  induction l as [|i l IH]; [done|]. simpl. intros [H1 H2]%orb_false_iff. rewrite filter_cons, H1. by apply IH.
Qed.

Lemma group_steps_all txId l :
  concat (step_files <$> group_steps txId 0 (base.filter (fun i => in_list i = true) l) false l) ≡ₚ sent <$> l.
Proof.
  destruct (decide (length (base.filter (fun i => in_list i = true) l) < 2)%nat) as [Hl|Hl].
  - by rewrite group_steps_ones.
  - rewrite group_steps_sends by lia. cbn [orb]. destruct (existsb in_list l) eqn:E; cbn [negb].
    + rewrite <-fmap_app. apply fmap_Permutation, filter_parts.
    + exfalso. apply Hl. rewrite filter_none by done. simpl. lia.
Qed.

Lemma index_there_wf l k e : index_there l !! k = Some e -> nameKey (e_name e) = k.
Proof.
  unfold index_there. induction l as [|x l IH] using rev_ind; [done|]. rewrite fold_left_app. cbn [fold_left].
  destruct (decide (nameKey (e_name x) = k)) as [<-|Hne]; [rewrite lookup_insert_eq; by intros [= <-]|].
  by rewrite lookup_insert_ne.
Qed.

Lemma group_steps_grouped txId n listed l : (2 <= length listed)%nat -> existsb in_list l = true ->
  exists t, ListStep t (list_file <$> listed) ∈ group_steps txId n listed false l.
Proof.
  intros Hl. revert n. induction l as [|i l IH]; intros n; [done|]. cbn [group_steps existsb].
  replace (2 <=? length listed)%nat with true by (symmetry; by apply Nat.leb_le). cbn [andb].
  destruct (in_list i); cbn [orb]; [intros _; exists (txId n); by left|]. intros [t Ht]%(IH (S n)). exists t. by right.
Qed.
Lemma settle_picked_settled picked existing decide_ s : settle_picked picked existing decide_ = inl s ->
  settled (index_there existing) picked (length picked) s.
Proof.
  intros E. eapply (settled_all (index_there existing) decide_ picked (index_there_wf existing) 0 picked); [|done|exact E].
  split; cbn; try done; try (by intros ? ?%elem_of_nil); try (by intros ? ? ?%elem_of_nil); [constructor|by intros ? ?; lia].
Qed.
Lemma settle_all_talk there decide_ i l s s' : (forall n q, talk s !! n = Some q -> decide_ n q.1 = Some q.2) ->
  settle_all there decide_ i l s = inl s' -> forall n q, talk s' !! n = Some q -> decide_ n q.1 = Some q.2.
Proof.
  assert (forall it e d c s s', settle_choice there it e d c s = inl s' -> talk s' = talk s) as Hc.
  { intros it e d [] t t'; cbn [settle_choice]; [|by intros [= <-]|by destruct (freeKeepBothName _ _ _ _); [intros [= <-]|]].
    intros [= <-]. unfold replace_with. by repeat case_match. }
  revert i s. induction l as [|p l IH]; intros i s Ht; cbn [settle_all]; [by intros [= <-]|].
  destruct (settle_one there decide_ i p s) as [s1|] eqn:E; [|done]. apply IH. clear IH. unfold settle_one in E.
  set (question := {| c_name := _ |}) in E.
  assert (talk s1 = talk s \/ exists a, talk s1 = talk s ++ [(question, a)] /\ decide_ (length (talk s)) question = Some a) as [->|(a & -> & Ha)]; [|done|].
  { destruct (planned s !! _), (there !! _); [| | |injection E as <-; by left].
    all: destruct (match always _ with Some Replace => _ | o => o end); [left; by apply Hc in E|].
    all: fold question in E; destruct (decide_ _ _) as [a|] eqn:Ea; [|done]; apply Hc in E; right; exists a; done. }
  intros n q [[_ Hn]|[-> <-]]%lookup_snoc_Some; [by apply Ht|exact Ha].
Qed.


(** Two files and a folder picked; a.txt is in the folder, and the two files share one name. *)
Definition w_picked : list FsPickedItem :=
  [{| p_src := js "/x/A.txt"; kind := KFile |}; {| p_src := js "/y/dir"; kind := KFolder |};
   {| p_src := js "/z/a.TXT"; kind := KFile |}; {| p_src := js "/z/b"; kind := KFile |}].
Definition w_existing : list FsExistingEntry :=
  [{| e_name := js "a.txt"; e_kind := js "file"; e_size := 7 |}; {| e_name := js "dir"; e_kind := js "dir"; e_size := 0 |}].
Definition w_answers (n : nat) (c : FsConflict) : option FsConflictDecision :=
  Some {| choice := if pickedDir c then Replace else Keep; all := false |}.
Definition w_plan : FsUploadPlan := {|
  steps := [ListStep (js "tx0") [{| f_src := js "/x/A.txt"; f_name := js "A (2).txt"; f_replacesSize := None |};
                                 {| f_src := js "/z/a.TXT"; f_name := js "a (3).TXT"; f_replacesSize := None |};
                                 {| f_src := js "/z/b"; f_name := js "b"; f_replacesSize := None |}];
            One (js "/y/dir") (js "dir") false (js "tx1")];
  skipped := [] |}.

