(* ===== verification/FsUpload.v ===== *)
(** The Files screen's uploads of one console: [state/fsUpload.ts] (the run) and
    [state/fsUploadQueue.ts] (the line of picks behind it), as one state machine. Every operation and
    every answer a loop waits for is an event; what the code does between two awaits, the store's
    subscriber included, happens at once. The tries and polls of one step are one event (its end);
    a run whose first step is a single item waits for [pathKind] before it counts as active.
    [deps.listDir], [startList] and [newTxId] are there, as in the app. *)
From S2P Require Import Prelude FsUploadPlan.

(** * Data *)

Inductive StopWhy := Failed | ByUser | Interrupted.
#[export] Instance why_eq_dec : EqDecision StopWhy.
Proof. solve_decision. Defined.
Inductive PauseWhy := PUser | PSendNow.
#[export] Instance pause_eq_dec : EqDecision PauseWhy.
Proof. solve_decision. Defined.

Record Request := {
  queueId : option str;
  addr : str;
  destDir : str;
  srcPaths : list str;
  rq_steps : option (list FsUploadStep);
  replaceRemoteName : option str;
  doneBefore : option Z;
  countTotal : option Z
}.

Record Stopped := {
  st_queueId : option str;
  why : StopWhy;
  st_error : str;
  st_addr : str;
  st_destDir : str;
  st_srcPaths : list str;
  st_steps : option (list FsUploadStep);
  st_replaceRemoteName : option str;
  doneCount : Z;
  stepsDone : option Z;
  count : Z
}.

Record PendingFsUpload := {
  id_ : str;
  request : Request;
  allowedExisting : list str;
  paused_ : option PauseWhy;
  sendNowAt : option Z;
  error_ : option str
}.
#[export] Instance settable_pending : Settable PendingFsUpload := fun i => {|
  id_ := id_ i; request := request i; allowedExisting := allowedExisting i; paused_ := paused_ i;
  sendNowAt := sendNowAt i; error_ := error_ i |}.

(** * Steps *)

(** The steps a request stands for; [mint] gives a step its job id. *)
Definition stepsOf (mint : nat -> str) (rq : Request) : list FsUploadStep :=
  match rq_steps rq with
  | Some l => l
  | None =>
      imap (fun i src => match replaceRemoteName rq with
                         | Some n => One src n true (mint i)
                         | None => One src (baseNameOf src) false (mint i)
                         end) (srcPaths rq)
  end.
Definition srcsOf (l : list FsUploadStep) : list str :=
  mjoin ((fun s => match s with ListStep _ files => f_src <$> files | One src _ _ _ => [src] end) <$> l).
(** A list step as one job per file. *)
Definition unlist (mint : nat -> str) (s : FsUploadStep) : list FsUploadStep :=
  match s with
  | ListStep _ files => imap (fun i f => One (f_src f) (f_name f) true (mint i)) files
  | One _ _ _ _ => [s]
  end.
Definition names (rq : Request) : list str :=
  match rq_steps rq with
  | Some l => mjoin ((fun s => match s with ListStep _ files => f_name <$> files | One _ n _ _ => [n] end) <$> l)
  | None => []
  end.
Definition total (l : list FsUploadStep) : nat := sum_list (stepCount <$> l).

(** * State *)

(** A run between two awaits: its steps, the one it is on, the items of the steps before it.
    [opening]: it waits to hear what its first item is, and has not shown itself yet. *)
Record Run := {
  r_req : Request;
  r_steps : list FsUploadStep;
  at_ : nat;
  doneItems : Z;
  r_count : Z;
  opening : bool
}.
#[export] Instance settable_run : Settable Run := fun r => {|
  r_req := r_req r; r_steps := r_steps r; at_ := at_ r; doneItems := doneItems r; r_count := r_count r;
  opening := opening r |}.

(** The drain loop at its two awaits: the folder's listing, and the run of the pick. *)
Inductive Loop := Listing (item : PendingFsUpload) | Running (item : PendingFsUpload) (run : nat).

Record St := {
  (* state/fsUpload.ts *)
  active : bool;
  stopped : option Stopped;
  cancelRequested : bool;
  runs : gmap nat Run;
  nextRun : nat;
  (* state/fsUploadQueue.ts: the slot ([running]: the loop is there), and the module's own maps *)
  items : list PendingFsUpload;
  paused : bool;
  error : option str;
  currentId : option str;
  loop : option Loop;
  pausing : option PauseWhy;
  parked : bool;
  runner : bool;
  seq : Z
}.
#[export] Instance settable_st : Settable St := fun s => {|
  active := active s; stopped := stopped s; cancelRequested := cancelRequested s; runs := runs s; nextRun := nextRun s;
  items := items s; paused := paused s; error := error s; currentId := currentId s; loop := loop s;
  pausing := pausing s; parked := parked s; runner := runner s; seq := seq s |}.

Definition init : St := {|
  active := false; stopped := None; cancelRequested := false; runs := ∅; nextRun := 0;
  items := []; paused := false; error := None; currentId := None; loop := None;
  pausing := None; parked := false; runner := false; seq := 0 |}.

Definition running (s : St) : bool := match loop s with Some _ => true | None => false end.

(** [patch] of the queue: an empty line is never held. *)
Definition settle (s : St) : St :=
  match items s with [] => s <| paused := false |> <| error := None |> | _ => s end.

Definition sent_now (i : PendingFsUpload) : bool :=
  match sendNowAt i with Some n => negb (n =? 0) | None => false end.
Definition is_paused (i : PendingFsUpload) : bool := match paused_ i with Some _ => true | None => false end.
Definition has_id (i : str) (it : PendingFsUpload) : bool := bool_decide (id_ it = i).
(** Sent now and waiting. *)
Definition sending (i : PendingFsUpload) : bool := sent_now i && negb (is_paused i).

(** The loop of [pick]: the earliest sent now seen so far is [sent]. *)
Fixpoint pick_sent (l : list PendingFsUpload) (sent : option PendingFsUpload) : option PendingFsUpload :=
  match l with
  | [] => sent
  | i :: l =>
      if negb (sending i) then pick_sent l sent
      else match sent with
           | Some b => if (sendNowAt i ?? 0) <? (sendNowAt b ?? 0) then pick_sent l (Some i) else pick_sent l sent
           | None => pick_sent l (Some i)
           end
  end.
Definition pick (l : list PendingFsUpload) (held : bool) : option PendingFsUpload :=
  match pick_sent l None with
  | Some i => Some i
  | None => if held then None else find_first (fun i => negb (is_paused i)) l
  end.
Definition held (s : St) : bool := paused s || match stopped s with Some _ => true | None => false end.

(** * The drain loop and the subscriber *)

(** One turn of the loop: the next pick's folder is listed; with none, [finally]. *)
Definition next (s : St) : St :=
  match pick (items s) (held s) with
  | Some item => s <| currentId := Some (id_ item) |> <| loop := Some (Listing item) |>
  | None => settle (s <| loop := None |> <| currentId := None |>)
  end.
Definition break_loop (s : St) : St := settle (s <| loop := None |> <| currentId := None |>).
Definition drainFsUploadQueue (s : St) : St :=
  if running s || active s then s
  else match pick (items s) (held s) with Some _ => next s | None => s end.

Definition settleSendNow (s : St) : St :=
  if existsb sending (items s) then s
  else if negb (existsb (fun i => bool_decide (paused_ i = Some PSendNow)) (items s)) then s
  else settle (s <| items := (fun i => if decide (paused_ i = Some PSendNow) then i <| paused_ := None |> else i) <$> items s |>).

(** The subscriber, when no run is stopped: nothing to park. *)
Definition on_change_none (s : St) : St :=
  let s := if active s then s else s <| pausing := None |> in
  if runner s then drainFsUploadQueue s else s.

(** [fsq-<ms>-<n>]. *)
Definition fsq_id (now n : Z) : str := js "fsq-" ++ num now ++ js "-" ++ num n.

Definition parked_request (st : Stopped) (i : str) : Request := {|
  queueId := Some i; addr := st_addr st; destDir := st_destDir st; srcPaths := st_srcPaths st;
  rq_steps := st_steps st; replaceRemoteName := st_replaceRemoteName st;
  doneBefore := Some (stepsDone st ?? doneCount st); countTotal := Some (count st) |}.
Definition parkStopped (now : Z) (w : PauseWhy) (st : Stopped) (err : option str) (inQueue : bool) (s : St) : St :=
  let s := s <| seq := seq s + 1 |> in
  let i := fsq_id now (seq s) in
  let item := {| id_ := i; request := parked_request st i; allowedExisting := nameKey <$> names (parked_request st i);
                 paused_ := Some w; sendNowAt := None; error_ := err |} in
  let s := settle (s <| items := item :: items s |>) in
  (* dismissFsUploadStopped *)
  let s := on_change_none (s <| stopped := None |>) in
  if inQueue then s <| parked := true |> else s.

(** The subscriber. *)
Definition on_change (now : Z) (s : St) : St :=
  let s' :=
    match pausing s with
    | Some w =>
        if active s then s
        else
          let s := s <| pausing := None |> in
          match stopped s with Some st => parkStopped now w st None (running s) s | None => s end
    | None => s
    end in
  if runner s' then drainFsUploadQueue s' else s'.

(** * The run *)

Inductive Started := Busy | Empty | Going (run : nat).

Definition new_run (mint : nat -> str) (rq : Request) : Run := {|
  r_req := rq; r_steps := stepsOf mint rq; at_ := 0; doneItems := 0;
  r_count := Z.max (countTotal rq ?? 0) ((doneBefore rq ?? 0) + Z.of_nat (total (stepsOf mint rq)));
  opening := match stepsOf mint rq with One _ _ false _ :: _ => true | _ => false end |}.
(** [runFsUpload] up to its first await. *)
Definition runFsUpload (mint : nat -> str) (rq : Request) (s : St) : Started * St :=
  match stepsOf mint rq with
  | [] => (Empty, s)
  | _ =>
      if active s then (Busy, s) else
      let s := on_change_none (s <| stopped := None |> <| cancelRequested := false |>) in
      let r := new_run mint rq in
      (Going (nextRun s),
       s <| runs := <[nextRun s := r]> (runs s) |> <| nextRun := S (nextRun s) |>
         <| active := active s || negb (opening r) |>)
  end.

(** What is left of a run; [landed] of a stopped list's files are in place. *)
Definition left_of (r : Run) (w : StopWhy) (err : str) (landed : Z) : Stopped :=
  let rest := drop (at_ r) (r_steps r) in
  let done := (doneBefore (r_req r) ?? 0) + doneItems r in
  {| st_queueId := queueId (r_req r); why := w; st_error := err; st_addr := addr (r_req r);
     st_destDir := destDir (r_req r); st_srcPaths := srcsOf rest; st_steps := Some rest;
     st_replaceRemoteName := replaceRemoteName (r_req r);
     doneCount := done + landed; stepsDone := Some done; count := r_count r |}.

(** The loop after a pick's run. *)
Definition after_run (now : Z) (item : PendingFsUpload) (ok : bool) (s : St) : St :=
  let s := settle (s <| items := base.filter (fun i => id_ i <> id_ item) (items s) |>) in
  if parked s then next (settleSendNow (s <| parked := false |>))
  else if ok then next (settleSendNow s)
  else
    match (if sent_now item then stopped s else None) with
    | Some st =>
        if decide (why st = Failed)
        then next (settleSendNow ((parkStopped now PUser st (Some (st_error st)) true s) <| parked := false |>))
        else break_loop (settleSendNow (settle (s <| paused := true |>)))
    | None => break_loop (settleSendNow (settle (s <| paused := true |>)))
    end.

(** [ended], and the loop that awaited the run's answer [ok]. *)
Definition end_run (now : Z) (i : nat) (res : option Stopped) (ok : bool) (s : St) : St :=
  let s := on_change now (s <| runs := delete i (runs s) |> <| active := false |> <| cancelRequested := false |>
                            <| stopped := res |>) in
  match loop s with
  | Some (Running item j) =>
      if Nat.eqb i j then after_run now item ok s else s
  | _ => s
  end.

(** The end of the step a run is on; [landed] of a stopped list's files are in place. *)
Inductive StepEnd :=
| Done (landed : Z)                    (* its job is done *)
| Refused (err : str) (landed : Z)     (* it failed, its retries spent *)
| CutOff (landed : Z)                  (* its job ended after a cancel *)
| NoListJob.                           (* the engine has no file-list job *)

(** The loop goes on at the top: the next step, or the end. *)
Definition go_on (now : Z) (i : nat) (r : Run) (s : St) : St :=
  if (at_ r <? length (r_steps r))%nat then
    if cancelRequested s then end_run now i (Some (left_of r ByUser [] 0)) false s
    else s <| runs := <[i := r]> (runs s) |> <| active := true |>
  else end_run now i None (negb (cancelRequested s)) s.

Definition step_end (now : Z) (mint : nat -> str) (i : nat) (e : StepEnd) (s : St) : St :=
  match runs s !! i with
  | Some r =>
      if opening r then s else
      match e, r_steps r !! at_ r with
      | Refused err landed, Some _ => end_run now i (Some (left_of r Failed err landed)) false s
      | CutOff landed, Some _ =>
          if cancelRequested s then end_run now i (Some (left_of r ByUser [] landed)) false s else s
      | Done landed, Some step =>
          if cancelRequested s then end_run now i (Some (left_of r ByUser [] landed)) false s
          else go_on now i (r <| doneItems := doneItems r + Z.of_nat (stepCount step) |> <| at_ := S (at_ r) |>) s
      | NoListJob, Some (ListStep _ _ as step) =>
          go_on now i (r <| r_steps := take (at_ r) (r_steps r) ++ unlist mint step ++ drop (S (at_ r)) (r_steps r) |>) s
      | _, _ => s
      end
  | None => s
  end.

(** [pathKind] answered: the run's first item shows. *)
Definition opened (i : nat) (s : St) : St :=
  match runs s !! i with
  | Some r => if opening r then s <| runs := <[i := r <| opening := false |>]> (runs s) |> <| active := true |> else s
  | None => s
  end.

Definition cancelFsUpload (s : St) : St := if active s then s <| cancelRequested := true |> else s.

(** * The line *)

(** A name of the pick that is there now and was not when its conflicts were settled. *)
Definition conflict (item : PendingFsUpload) (present : list FsExistingEntry) : option str :=
  let taken := (fun e => nameKey (e_name e)) <$> present in
  find_first (fun n => bool_decide (nameKey n ∈ taken) && negb (bool_decide (nameKey n ∈ allowedExisting item)))
    (names (request item)).
Definition changed_text (n : str) : str :=
  js "Destination changed while queued: " ++ n ++
  js ". Remove this queued pick and add it again to choose Replace, Keep both or Skip.".

(** The loop threw: the line holds. *)
Definition hold (m : str) (s : St) : St :=
  break_loop (settleSendNow (settle (s <| paused := true |> <| error := Some m |>))).

(** The folder's listing came, or failed with a message. *)
Definition listed (mint : nat -> str) (now : Z) (a : list FsExistingEntry + str) (s : St) : St :=
  match loop s with
  | Some (Listing item) =>
      match a with
      | inr m => hold m s
      | inl present =>
          match conflict item present with
          | Some n => hold (changed_text n) s
          | None =>
              match runFsUpload mint (request item) s with
              | (Busy, s) => break_loop s
              | (Empty, s) => after_run now item true s
              | (Going i, s) => s <| loop := Some (Running item i) |>
              end
          end
      end
  | _ => s
  end.

(** The names the line will still write into a folder. *)
Definition fsUploadReservations (dir : str) (s : St) : list str :=
  mjoin ((fun i => names (request i)) <$> base.filter (fun i => destDir (request i) = dir) (items s)).

Definition enqueueFsUpload (now : Z) (rq : Request) (existing : list FsExistingEntry) (s : St) : St :=
  let s := s <| seq := seq s + 1 |> in
  let i := fsq_id now (seq s) in
  let item := {| id_ := i;
                 request := {| queueId := Some i; addr := addr rq; destDir := destDir rq; srcPaths := srcPaths rq;
                               rq_steps := rq_steps rq; replaceRemoteName := replaceRemoteName rq;
                               doneBefore := doneBefore rq; countTotal := countTotal rq |};
                 allowedExisting := (fun e => nameKey (e_name e)) <$> existing;
                 paused_ := None; sendNowAt := None; error_ := None |} in
  drainFsUploadQueue ((settle (s <| items := items s ++ [item] |>)) <| runner := true |>).

Definition removeFsUploadQueued (i : str) (s : St) : St :=
  if running s && bool_decide (currentId s = Some i) then s
  else settleSendNow (settle (s <| items := base.filter (fun it => id_ it <> i) (items s) |>)).

Definition pauseFsUpload (w : PauseWhy) (s : St) : St :=
  if active s then cancelFsUpload (s <| pausing := Some w |>) else s.

Definition resumeFsUploadItem (i : str) (s : St) : St :=
  if negb (existsb (fun it => has_id i it && is_paused it) (items s)) then s
  else drainFsUploadQueue (settle (s <| runner := true |>
         <| items := (fun it => if decide (id_ it = i) then it <| paused_ := None |> <| error_ := None |> else it) <$> items s |>
         <| paused := false |> <| error := None |>)).

Definition send_at (now : Z) (l : list PendingFsUpload) : Z :=
  foldr (fun i m => Z.max ((sendNowAt i ?? 0) + 1) m) now l.
Definition sendFsUploadNow (now : Z) (i : str) (s : St) : St :=
  if negb (existsb (fun it => has_id i it && negb (is_paused it)) (items s)) then s
  else
    let at_ := send_at now (items s) in
    let s' := settle (s <| runner := true |>
      <| items := (fun it => if decide (id_ it = i) then it <| sendNowAt := Some at_ |> else it) <$> items s |>) in
    let cur := if running s then currentId s else None in
    let runningSent :=
      match cur with
      | Some c => match find_first (has_id c) (items s) with Some it => sent_now it | None => false end
      | None => false
      end in
    if active s' && negb runningSent && negb (bool_decide (cur = Some i)) then pauseFsUpload PSendNow s'
    else drainFsUploadQueue s'.

Definition pauseFsUploadQueue (s : St) : St := settle (s <| paused := true |>).
Definition resumeFsUploadQueue (s : St) : St :=
  drainFsUploadQueue (settle (s <| runner := true |> <| paused := false |> <| error := None |>)).

(** A copy outside the line: the row action Replace, or Resume of the stopped card. *)
Definition start_outside (mint : nat -> str) (rq : Request) (s : St) : St := (runFsUpload mint rq s).2.
Definition resumed_request (st : Stopped) : Request := {|
  queueId := st_queueId st; addr := st_addr st; destDir := st_destDir st; srcPaths := st_srcPaths st;
  rq_steps := st_steps st; replaceRemoteName := st_replaceRemoteName st;
  doneBefore := Some (stepsDone st ?? doneCount st); countTotal := Some (count st) |}.
Definition resumeFsUpload (mint : nat -> str) (s : St) : St :=
  match stopped s with
  | Some st => if active s then s else start_outside mint (resumed_request st) s
  | None => s
  end.
(** The person gives the stopped run up. *)
Definition giveUpFsUploadStopped (s : St) : St := on_change_none (s <| stopped := None |>).

(** * Events *)

Inductive Event :=
| Enqueue (rq : Request) (existing : list FsExistingEntry)
| RemoveQueued (i : str)
| Pause
| ResumeItem (i : str)
| SendNow (i : str)
| PauseQueue
| ResumeQueue
| Stop
| Outside (rq : Request)
| ResumeStopped
| GiveUp
| FolderListed (a : list FsExistingEntry + str)
| Opened (i : nat)
| StepEnded (i : nat) (e : StepEnd).

Definition exec (now : Z) (mint : nat -> str) (e : Event) (s : St) : St :=
  match e with
  | Enqueue rq existing => enqueueFsUpload now rq existing s
  | RemoveQueued i => removeFsUploadQueued i s
  | Pause => pauseFsUpload PUser s
  | ResumeItem i => resumeFsUploadItem i s
  | SendNow i => sendFsUploadNow now i s
  | PauseQueue => pauseFsUploadQueue s
  | ResumeQueue => resumeFsUploadQueue s
  | Stop => cancelFsUpload s
  | Outside rq => start_outside mint rq s
  | ResumeStopped => resumeFsUpload mint s
  | GiveUp => giveUpFsUploadStopped s
  | FolderListed a => listed mint now a s
  | Opened i => opened i s
  | StepEnded i e => step_end now mint i e s
  end.

(** * A restart *)

(** [load]: the saved line, held; the pick whose run was cut off comes back as the stopped card. *)
Definition load (saved : list PendingFsUpload) (card : option Stopped) : St :=
  let rest := base.filter (fun i => Some (id_ i) <> (st ← card; st_queueId st)) saved in
  let rest :=
    if existsb sending rest then rest
    else (fun i => if decide (paused_ i = Some PSendNow) then i <| paused_ := None |> else i) <$> rest in
  settle (init <| items := rest |> <| paused := true |> <| stopped := card |>).
