(* ===== verification/FsUploadWork.v ===== *)
(** Nothing picked is forgotten: what the Files screen's uploads still have to send
    ([FsUpload.v]) is accounted for by every event, source by source. *)
From S2P Require Import Prelude FsUploadPlan FsUpload.

(** * What is left to send *)

Definition srcs_rq (rq : Request) : list str :=
  match rq_steps rq with Some l => srcsOf l | None => srcPaths rq end.

Lemma srcsOf_cons s l :
  srcsOf (s :: l) = (match s with ListStep _ files => f_src <$> files | One src _ _ _ => [src] end) ++ srcsOf l.
Proof. done. Qed.
Lemma srcsOf_app l k : srcsOf (l ++ k) = srcsOf l ++ srcsOf k.
Proof. induction l as [|s l IH]; [done|]. cbn [app]. by rewrite !srcsOf_cons, IH, app_assoc. Qed.
Lemma srcsOf_ones {A} (f : A -> str) (g : A -> str) (k : A -> bool) (mint : nat -> str) (l : list A) :
  srcsOf (imap (fun i x => One (f x) (g x) (k x) (mint i)) l) = f <$> l.
Proof.
  revert mint. induction l as [|a l IH]; intros mint; [done|]. cbn [imap]. rewrite srcsOf_cons. cbn [app fmap list_fmap].
  f_equal. exact (IH (mint ∘ S)).
Qed.
Lemma srcsOf_stepsOf mint rq : srcsOf (stepsOf mint rq) = srcs_rq rq.
Proof.
  unfold stepsOf, srcs_rq. destruct (rq_steps rq); [done|].
  destruct (replaceRemoteName rq) as [n|].
  - rewrite (srcsOf_ones (fun x => x) (fun _ => n) (fun _ => true) mint). apply list_fmap_id.
  - rewrite (srcsOf_ones (fun x => x) baseNameOf (fun _ => false) mint). apply list_fmap_id.
Qed.
Lemma srcsOf_unlist mint s : srcsOf (unlist mint s) = srcsOf [s].
Proof.
  destruct s as [src n a t|t files]; [done|]. cbn [unlist]. rewrite (srcsOf_ones f_src f_name (fun _ => true) mint).
  rewrite srcsOf_cons, app_nil_r. done.
Qed.

(** The pick being sent counts as its run. *)
Definition busy (s : St) : option str := match loop s with Some (Running it _) => Some (id_ it) | _ => None end.
Definition item_srcs (b : option str) (it : PendingFsUpload) : list str :=
  if decide (b = Some (id_ it)) then [] else srcs_rq (request it).
Definition waiting (b : option str) (l : list PendingFsUpload) : list str := l ≫= item_srcs b.
Definition run_srcs (r : Run) : list str := srcsOf (drop (at_ r) (r_steps r)).
Definition sending_srcs (m : gmap nat Run) : list str := map_to_list m ≫= (fun e => run_srcs e.2).
Definition card (s : St) : list str := match stopped s with Some st => srcs_rq (resumed_request st) | None => [] end.
(** Waiting in the line, being sent, or on the stopped card. *)
Definition work (s : St) : list str := waiting (busy s) (items s) ++ sending_srcs (runs s) ++ card s.

(** * Well-formed states *)

Definition id_ok (n : Z) (i : str) : Prop := exists t k, i = fsq_id t k /\ 0 <= k <= n.
Definition loop_item (l : Loop) : PendingFsUpload := match l with Listing it | Running it _ => it end.

Record wf (s : St) : Prop := {
  wf_seq : 0 <= seq s;
  wf_nodup : NoDup (id_ <$> items s);
  wf_ids : forall it, it ∈ items s -> id_ok (seq s) (id_ it);
  wf_loop : forall l, loop s = Some l -> currentId s = Some (id_ (loop_item l)) /\ id_ok (seq s) (id_ (loop_item l));
  wf_runs : forall i r, runs s !! i = Some r -> (i < nextRun s)%nat
}.

(** The pick the loop is on stands in the line, between two events. *)
Definition in_line (s : St) : Prop := forall l, loop s = Some l ->
  exists it, it ∈ items s /\ id_ it = id_ (loop_item l) /\ request it = request (loop_item l).
(** The busy pick is out of the line, or there is none: the loop may turn. *)
Definition turned (s : St) : Prop := forall it, it ∈ items s -> busy s <> Some (id_ it).

(** [s'] has the same work left as [s], and is as well-formed. *)
Definition keeps (s s' : St) : Prop :=
  wf s -> wf s' /\ work s' ≡ₚ work s /\ (in_line s -> in_line s') /\ (turned s -> turned s').

Lemma keeps_refl s : keeps s s.
Proof. done. Qed.
Lemma keeps_trans s1 s2 s3 : keeps s1 s2 -> keeps s2 s3 -> keeps s1 s3.
Proof.
  intros H1 H2 (H & W & L & T)%H1. apply H2 in H as (H & W' & L' & T'). split; [done|].
  split; [by rewrite W'|]. auto.
Qed.

(** Ids are made once. *)
Lemma num_no_dash n : 0 <= n -> "-"%char ∉ num n.
Proof.
  intros Hn Hin. destruct (num_digits n Hn) as [H _]. rewrite forallb_elem in H. apply H in Hin. done.
Qed.
Lemma dash_inj (a b c d : str) :
  "-"%char ∉ b -> "-"%char ∉ d -> a ++ "-"%char :: b = c ++ "-"%char :: d -> b = d.
Proof.
  intros Hb Hd H. revert c H. induction a as [|x a IH]; intros [|y c] H; simplify_eq/=; [done| | |eauto].
  - exfalso. apply Hb. apply elem_of_app. right. left.
  - exfalso. apply Hd. apply elem_of_app. right. left.
Qed.
Lemma fsq_id_inj t k t' k' : 0 <= k -> 0 <= k' -> fsq_id t k = fsq_id t' k' -> k = k'.
Proof.
  intros Hk Hk' H. unfold fsq_id in H. apply num_inj.
  apply (dash_inj (js "fsq-" ++ num t) _ (js "fsq-" ++ num t')); [by apply num_no_dash..|].
  revert H. rewrite !app_assoc, <- !(app_assoc _ (js "-")). done.
Qed.
Lemma fresh_id s t it : wf s -> it ∈ items s -> id_ it <> fsq_id t (seq s + 1).
Proof.
  intros H Hin E. destruct (wf_ids s H it Hin) as (t' & k & Hk & ? & ?). rewrite Hk in E.
  apply fsq_id_inj in E; lia.
Qed.

(** ** Changes that leave the work as it is *)

(** What the work and its well-formedness depend on. *)
Definition core (s : St) := (items s, loop s, currentId s, runs s, nextRun s, seq s, stopped s).

Lemma keeps_core s s' : core s' = core s -> keeps s s'.
Proof.
  unfold core. intros [= E1 E2 E3 E4 E5 E6 E7] [H1 H2 H3 H4 H5]. split.
  - split; rewrite ?E1, ?E2, ?E3, ?E4, ?E5, ?E6; done.
  - unfold work, waiting, in_line, turned, busy, card. by rewrite E1, E2, E4, E7.
Qed.
Lemma keeps_parked b s : keeps s (s <| parked := b |>).
Proof. by apply keeps_core. Qed.
Lemma keeps_paused b s : keeps s (s <| paused := b |>).
Proof. by apply keeps_core. Qed.
Lemma keeps_if (b : bool) s s1 s2 : keeps s s1 -> keeps s s2 -> keeps s (if b then s1 else s2).
Proof. by destruct b. Qed.

Lemma core_settle s : core (settle s) = core s.
Proof. unfold settle. by destruct (items s) eqn:E; unfold core; simpl; rewrite ?E. Qed.
Lemma keeps_settle s s' : keeps s s' -> keeps s (settle s').
Proof. intros H. eapply keeps_trans; [exact H|]. apply keeps_core, core_settle. Qed.

(** Picks changed in place: neither their ids nor their requests. *)
Lemma waiting_map b f l :
  (forall it, id_ (f it) = id_ it /\ request (f it) = request it) -> waiting b (f <$> l) = waiting b l.
Proof.
  intros H. unfold waiting. induction l as [|it l IH]; [done|]. cbn [fmap list_fmap mbind list_bind]. f_equal; [|exact IH].
  unfold item_srcs. destruct (H it) as [-> ->]. done.
Qed.
Lemma keeps_map f s s' :
  (forall it, id_ (f it) = id_ it /\ request (f it) = request it) ->
  core s' = core (s <| items := f <$> items s |>) -> keeps s s'.
Proof.
  intros Hf E. eapply keeps_trans; [|apply keeps_core, E]. clear s' E. intros [H1 H2 H3 H4 H5]. split.
  - split; simpl; [done| | |done|done].
    + rewrite <- list_fmap_compose. erewrite list_fmap_ext; [exact H2|]. intros _ it _. apply Hf.
    + intros it (it' & -> & Hin)%list_elem_of_fmap. destruct (Hf it') as [-> _]. auto.
  - split; [unfold work; simpl; by rewrite waiting_map|]. split.
    + intros L l Hl. destruct (L l Hl) as (it & Hin & ? & ?). exists (f it).
      destruct (Hf it) as [-> ->]. split; [|done]. by apply list_elem_of_fmap_2.
    + intros T it (it' & -> & Hin)%list_elem_of_fmap. destruct (Hf it') as [-> _]. exact (T it' Hin).
Qed.

Lemma keeps_settleSendNow s : keeps s (settleSendNow s).
Proof.
  unfold settleSendNow. apply keeps_if; [apply keeps_refl|]. apply keeps_if; [apply keeps_refl|].
  apply keeps_settle, (keeps_map (fun i => if decide (paused_ i = Some PSendNow) then i <| paused_ := None |> else i)); [|done].
  intros it. by destruct (decide _).
Qed.

(** ** The loop *)

Lemma waiting_not_busy b l : (forall it, it ∈ l -> b <> Some (id_ it)) -> waiting b l = waiting None l.
Proof.
  intros H. unfold waiting. induction l as [|it l IH]; [done|]. cbn [mbind list_bind]. f_equal.
  - unfold item_srcs. rewrite (decide_False (P := b = _)), (decide_False (P := None = _)); [done..|]. apply H. left.
  - apply IH. intros it' ?. apply H. by right.
Qed.

Lemma pick_sent_elem l sent it : pick_sent l sent = Some it -> it ∈ l \/ sent = Some it.
Proof.
  revert sent. induction l as [|i l IH]; intros sent; cbn [pick_sent]; [by right|].
  intros H. assert (it ∈ i :: l \/ it ∈ l \/ sent = Some it \/ it = i) as D.
  { destruct (negb (sending i)); [apply IH in H; tauto|].
    destruct sent as [b|]; [destruct (_ <? _)|]; apply IH in H as [?|[= <-]]; tauto. }
  rewrite elem_of_cons in *. tauto.
Qed.
Lemma pick_elem l h it : pick l h = Some it -> it ∈ l.
Proof.
  unfold pick. destruct (pick_sent l None) as [i|] eqn:E.
  - intros [= ->]. by apply pick_sent_elem in E as [?|?].
  - destruct h; [done|]. by intros [? _]%find_first_Some.
Qed.

Lemma keeps_idle s : turned s -> keeps s (s <| loop := None |> <| currentId := None |>).
Proof.
  intros T [H1 H2 H3 H4 H5]. split; [by split|]. unfold work. simpl.
  split; [by rewrite (waiting_not_busy (busy s))|]. done.
Qed.
Lemma keeps_break s : turned s -> keeps s (break_loop s).
Proof. intros T. by apply keeps_settle, keeps_idle. Qed.
Lemma keeps_next s : turned s -> keeps s (next s).
Proof.
  intros T. unfold next. destruct (pick (items s) (held s)) as [item|] eqn:E; [|by apply keeps_break].
  apply pick_elem in E. intros [H1 H2 H3 H4 H5]. split.
  - split; simpl; try done. intros l [= <-]. split; [done|]. by apply H3.
  - split; [unfold work; simpl; by rewrite (waiting_not_busy (busy s))|].
    split; [|done]. intros _ l [= <-]. by exists item.
Qed.
Lemma in_line_break s : in_line (break_loop s).
Proof.
  unfold break_loop. intros l. assert (loop (settle (s <| loop := None |> <| currentId := None |>)) = None) as ->; [|done].
  unfold settle. by destruct (items _).
Qed.
Lemma in_line_next s : in_line (next s).
Proof.
  unfold next. destruct (pick (items s) (held s)) as [item|] eqn:E; [|apply in_line_break].
  intros l [= <-]. exists item. split; [by apply pick_elem in E|done].
Qed.

Lemma turned_idle s : loop s = None -> turned s.
Proof. intros H it _. unfold busy. by rewrite H. Qed.
Lemma keeps_drain s : keeps s (drainFsUploadQueue s).
Proof.
  unfold drainFsUploadQueue, running. destruct (loop s) eqn:E; [apply keeps_refl|]. cbn [orb].
  destruct (active s); [apply keeps_refl|]. destruct (pick _ _); [|apply keeps_refl].
  by apply keeps_next, turned_idle.
Qed.
(** The work [s'] keeps of an intermediate [s1], the work of [s]. *)
Lemma keeps_then (f : St -> St) s s' : (forall x, keeps x (f x)) -> keeps s s' -> keeps s (f s').
Proof. intros Hf H. by eapply keeps_trans. Qed.

Lemma keeps_on_change_none s : keeps s (on_change_none s).
Proof.
  unfold on_change_none. set (s1 := if active s then s else _).
  assert (keeps s s1) by (apply keeps_if; by apply keeps_core).
  destruct (runner s1); [|done]. apply keeps_then; [exact keeps_drain|done].
Qed.

(** The stopped card becomes a pick. *)
Lemma keeps_parkStopped now w st err inq s : stopped s = Some st -> keeps s (parkStopped now w st err inq s).
Proof.
  intros Hst. unfold parkStopped. cbn zeta.
  set (s1 := s <| seq := seq s + 1 |>).
  set (item := {| id_ := fsq_id now (seq s1); request := _; allowedExisting := _; paused_ := _; sendNowAt := _; error_ := _ |}).
  enough (keeps s ((settle (s1 <| items := item :: items s1 |>)) <| stopped := None |>)) as H.
  { pose proof (keeps_then on_change_none _ _ keeps_on_change_none H) as H'.
    destruct inq; [|done]. eapply keeps_trans; [exact H'|]. by apply keeps_core. }
  assert (core ((settle (s1 <| items := item :: items s1 |>)) <| stopped := None |>) =
          core (s1 <| items := item :: items s1 |> <| stopped := None |>)) as E by done.
  eapply keeps_trans; [|by apply keeps_core, E]. intros W. pose proof W as [H1 H2 H3 H4 H5]. split.
  - split; simpl.
    + lia.
    + constructor; [|done]. intros (it & Hid & Hin)%list_elem_of_fmap. by apply (fresh_id s now it W Hin).
    + intros it [->|Hin]%elem_of_cons; simpl.
      * exists now, (seq s + 1). split; [done|lia].
      * destruct (H3 it Hin) as (t & k & ? & ? & ?). exists t, k. split; [done|lia].
    + intros l Hl. destruct (H4 l Hl) as (? & t & k & ? & ? & ?). split; [done|]. exists t, k. split; [done|lia].
    + exact H5.
  - assert (busy s <> Some (id_ item)) as Hne.
    { unfold busy. destruct (loop s) as [[|it k]|]; try done.
      destruct (H4 _ eq_refl) as (_ & t & n & Hid & ? & ?). cbn [loop_item] in Hid. rewrite Hid. intros Hx%(inj Some).
      change (id_ item) with (fsq_id now (seq s + 1)) in Hx. apply fsq_id_inj in Hx; lia. }
    split; [|split].
    2:{ intros L l Hl. destruct (L l Hl) as (it & ? & ? & ?). exists it. split; [by right|done]. }
    2:{ intros T it [->|Hin]%elem_of_cons; [done|exact (T it Hin)]. }
    change (waiting (busy s) (item :: items s) ++ sending_srcs (runs s) ++ [] ≡ₚ work s).
    change (waiting (busy s) (item :: items s)) with (item_srcs (busy s) item ++ waiting (busy s) (items s)).
    unfold work, card. rewrite Hst.
    assert (item_srcs (busy s) item = srcs_rq (resumed_request st)) as ->.
    { unfold item_srcs. by rewrite decide_False. }
    rewrite app_nil_r, <- app_assoc, (Permutation_app_comm (srcs_rq _)), <- app_assoc. done.
Qed.

Lemma keeps_on_change now s : keeps s (on_change now s).
Proof.
  unfold on_change. set (s' := match pausing s with Some _ => _ | None => _ end).
  assert (keeps s s') as H.
  { unfold s'. destruct (pausing s) as [w|]; [|apply keeps_refl]. apply keeps_if; [apply keeps_refl|].
    cbn zeta. change (stopped (s <| pausing := None |>)) with (stopped s).
    destruct (stopped s) as [st|] eqn:E; [|by apply keeps_core].
    eapply keeps_trans; [|apply keeps_parkStopped; exact E]. by apply keeps_core. }
  destruct (runner s'); [|done]. apply keeps_then; [exact keeps_drain|done].
Qed.

(** ** The pick whose run ended leaves the line *)

Definition done_item (item : PendingFsUpload) (s : St) : St :=
  settle (s <| items := base.filter (fun i => id_ i <> id_ item) (items s) |>).

(** What the pick stands for is counted elsewhere, or is nothing. *)
Definition spent (item : PendingFsUpload) (s : St) : Prop :=
  forall it, it ∈ items s -> id_ it = id_ item -> item_srcs (busy s) it = [].

Lemma waiting_filter b (P : PendingFsUpload -> Prop) `{forall x, Decision (P x)} l :
  (forall it, it ∈ l -> ~ P it -> item_srcs b it = []) -> waiting b (base.filter P l) = waiting b l.
Proof.
  intros Hn. unfold waiting. induction l as [|it l IH]; [done|].
  assert (base.filter P l ≫= item_srcs b = l ≫= item_srcs b) as E by (apply IH; intros; apply Hn; [by right|done]).
  rewrite filter_cons. cbn [mbind list_bind] in *. case_decide.
  - cbn [mbind list_bind]. by rewrite E.
  - rewrite (Hn it) by (done || left). done.
Qed.

Lemma wf_filter (P : PendingFsUpload -> Prop) `{forall x, Decision (P x)} s :
  wf s -> wf (s <| items := base.filter P (items s) |>).
Proof.
  intros [H1 H2 H3 H4 H5]. split; simpl; try done.
  - eapply sublist_NoDup; [exact H2|]. apply fmap_sublist, sublist_filter.
  - intros it [_ Hin]%list_elem_of_filter. auto.
Qed.

Lemma done_item_wf item s : wf s -> wf (done_item item s).
Proof.
  intros H. apply (wf_filter (fun i => id_ i <> id_ item)) in H.
  exact (proj1 (keeps_core _ _ (core_settle _) H)).
Qed.
Lemma done_item_work item s : spent item s -> work (done_item item s) = work s.
Proof.
  intros Hs. unfold done_item.
  set (s1 := s <| items := base.filter (fun i => id_ i <> id_ item) (items s) |>).
  assert (work (settle s1) = work s1) as ->.
  { pose proof (core_settle s1) as E. injection E as E1 E2 E3 E4 E5 E6 E7.
    unfold work, busy, card. by rewrite E1, E2, E4, E7. }
  unfold work. simpl. f_equal. change (busy s1) with (busy s). apply waiting_filter.
  intros it Hin Hid. apply Hs; [done|]. destruct (decide (id_ it = id_ item)); tauto.
Qed.
Lemma done_item_turned item s : busy s = None \/ busy s = Some (id_ item) -> turned (done_item item s).
Proof.
  intros Hb it Hin. unfold done_item in *.
  set (s1 := s <| items := base.filter (fun i => id_ i <> id_ item) (items s) |>) in *.
  pose proof (core_settle s1) as E. injection E as E1 E2 _ _ _ _ _.
  assert (busy (settle s1) = busy s) as -> by (unfold busy; by rewrite E2).
  rewrite E1 in Hin. simpl in Hin. apply list_elem_of_filter in Hin as [Hne _].
  destruct Hb as [->| ->]; congruence.
Qed.

(** The work is what it was and the line is in order again. *)
Definition restores (s s' : St) : Prop := wf s -> turned s -> wf s' /\ work s' ≡ₚ work s /\ in_line s'.

Lemma restores_next s s' : keeps s s' -> restores s (next s').
Proof.
  intros K W T. destruct (K W) as (W' & P & _ & T'). destruct (keeps_next s' (T' T) W') as (W'' & P' & _).
  split; [done|]. split; [by rewrite P'|apply in_line_next].
Qed.
Lemma restores_break s s' : keeps s s' -> restores s (break_loop s').
Proof.
  intros K W T. destruct (K W) as (W' & P & _ & T'). destruct (keeps_break s' (T' T) W') as (W'' & P' & _).
  split; [done|]. split; [by rewrite P'|apply in_line_break].
Qed.

Lemma after_run_restores now item ok s :
  let s1 := done_item item s in restores s1 (after_run now item ok s).
Proof.
  cbn zeta. unfold after_run. fold (done_item item s). set (s1 := done_item item s).
  assert (restores s1 (break_loop (settleSendNow (settle (s1 <| paused := true |>))))) as Hhold.
  { apply restores_break, keeps_then; [exact keeps_settleSendNow|]. apply keeps_settle, keeps_paused. }
  destruct (parked s1).
  { apply restores_next, keeps_then; [exact keeps_settleSendNow|apply keeps_parked]. }
  destruct ok; [apply restores_next, keeps_settleSendNow|].
  destruct (if sent_now item then stopped s1 else None) as [st|] eqn:E; [|exact Hhold].
  assert (stopped s1 = Some st) as Est by (destruct (sent_now item) in E; [exact E|done]). clear E.
  destruct (decide (why st = Failed)); [|exact Hhold].
  apply restores_next, keeps_then; [exact keeps_settleSendNow|].
  eapply keeps_trans; [apply (keeps_parkStopped now PUser st); exact Est|apply keeps_parked].
Qed.

(** ** Runs *)

Lemma sending_insert m i r : m !! i = None -> sending_srcs (<[i := r]> m) ≡ₚ run_srcs r ++ sending_srcs m.
Proof. intros H. unfold sending_srcs. by rewrite map_to_list_insert. Qed.
Lemma sending_delete m i r : m !! i = Some r -> sending_srcs m ≡ₚ run_srcs r ++ sending_srcs (delete i m).
Proof.
  intros H. rewrite <- sending_insert by apply lookup_delete_eq. by rewrite insert_delete_id.
Qed.

(** The stopped card is cleared. *)
Lemma clear_card s : wf s ->
  let s0 := s <| stopped := None |> <| cancelRequested := false |> in
  wf s0 /\ work s ≡ₚ work s0 ++ card s /\ (in_line s -> in_line s0).
Proof.
  intros [H1 H2 H3 H4 H5]. split; [by split|]. split; [|done].
  unfold work. cbn. by rewrite app_nil_r, app_assoc.
Qed.

Lemma run_srcs_new mint rq : run_srcs (new_run mint rq) = srcs_rq rq.
Proof. exact (srcsOf_stepsOf mint rq). Qed.

Lemma add_run s mint rq a : wf s ->
  let s' := s <| runs := <[nextRun s := new_run mint rq]> (runs s) |> <| nextRun := S (nextRun s) |> <| active := a |> in
  wf s' /\ work s' ≡ₚ work s ++ srcs_rq rq /\ (in_line s -> in_line s').
Proof.
  intros [H1 H2 H3 H4 H5]. split; [|split; [|done]].
  - split; simpl; try done. intros i r [[<- _]|[_ Hi]]%lookup_insert_Some; [lia|]. apply H5 in Hi. lia.
  - change (waiting (busy s) (items s) ++ sending_srcs (<[nextRun s := new_run mint rq]> (runs s)) ++ card s ≡ₚ
            (waiting (busy s) (items s) ++ sending_srcs (runs s) ++ card s) ++ srcs_rq rq).
    rewrite sending_insert, run_srcs_new.
    + rewrite <- !app_assoc. apply Permutation_app_head.
      rewrite (Permutation_app_comm (srcs_rq rq)), <- app_assoc. done.
    + destruct (runs s !! nextRun s) as [r|] eqn:E; [|done]. apply H5 in E. lia.
Qed.

Lemma runFsUpload_started mint rq s i s' :
  wf s -> runFsUpload mint rq s = (Going i, s') ->
  wf s' /\ work s' ++ card s ≡ₚ work s ++ srcs_rq rq /\ (in_line s -> in_line s') /\ i = nextRun s /\
  active s = false /\
  (running s = true -> loop s' = loop s /\ items s' = items s /\ currentId s' = currentId s /\ seq s' = seq s).
Proof.
  intros W. unfold runFsUpload. destruct (stepsOf mint rq) as [|first more]; [done|].
  destruct (active s) eqn:Ea; [done|]. cbn zeta. intros [E <-]%pair_eq.
  assert (i = nextRun (on_change_none (s <| stopped := None |> <| cancelRequested := false |>))) as -> by congruence. clear E.
  destruct (clear_card s W) as (W0 & P0 & L0). set (s0 := s <| stopped := None |> <| cancelRequested := false |>) in *.
  destruct (keeps_on_change_none s0 W0) as (W1 & P1 & L1 & _). set (s1 := on_change_none s0) in *.
  destruct (add_run s1 mint rq (active s1 || negb (opening (new_run mint rq))) W1) as (W2 & P2 & L2).
  assert (nextRun s1 = nextRun s) as En.
  { unfold s1, on_change_none, drainFsUploadQueue, next, settle. repeat case_match; reflexivity. }
  split; [exact W2|]. split.
  { rewrite P2, P1, P0. rewrite <- !app_assoc. apply Permutation_app_head, Permutation_app_comm. }
  split; [auto|]. split; [done|]. split; [done|].
  intros Hr. simpl. unfold s1, on_change_none, drainFsUploadQueue, s0, running in *. simpl.
  rewrite Ea. simpl. destruct (runner s); [|done]. by destruct (loop s).
Qed.

(** A pick counts once: in the line, or as its run. *)
Lemma waiting_busy it l : NoDup (id_ <$> l) -> it ∈ l ->
  waiting None l ≡ₚ srcs_rq (request it) ++ waiting (Some (id_ it)) l.
Proof.
  intros Hn Hin. apply list_elem_of_split in Hin as (l1 & l2 & ->). rewrite fmap_app, fmap_cons in Hn.
  apply NoDup_app in Hn as (_ & Hd & Hn). apply NoDup_cons in Hn as [Hn _].
  unfold waiting. rewrite !bind_app. cbn [mbind list_bind].
  assert (item_srcs None it = srcs_rq (request it)) as -> by done.
  assert (item_srcs (Some (id_ it)) it = []) as -> by (unfold item_srcs; by rewrite decide_True).
  change (l1 ≫= item_srcs (Some (id_ it))) with (waiting (Some (id_ it)) l1).
  change (l2 ≫= item_srcs (Some (id_ it))) with (waiting (Some (id_ it)) l2).
  rewrite (waiting_not_busy _ l1), (waiting_not_busy _ l2).
  - cbn [app]. rewrite !app_assoc. apply Permutation_app_tail, Permutation_app_comm.
  - intros x Hx [= E]. apply Hn. rewrite E. by apply list_elem_of_fmap_2.
  - intros x Hx [= E]. apply (Hd (id_ x)); [by apply list_elem_of_fmap_2|]. rewrite E. left.
Qed.

Lemma shuffle {A} (a b c d l : list A) : (a ++ b ++ l) ++ c ++ d ≡ₚ (a ++ (c ++ b) ++ d) ++ l.
Proof. solve_Permutation. Qed.

(** [ended]: the run is gone, what is left of it on the card. *)
Lemma end_run_spec now i r res ok s :
  wf s -> in_line s -> runs s !! i = Some r ->
  let s' := end_run now i res ok s in
  wf s' /\ in_line s' /\
  work s' ++ run_srcs r ++ card s ≡ₚ
    work s ++ match res with Some st => srcs_rq (resumed_request st) | None => [] end.
Proof.
  intros W L Hr. cbn zeta. unfold end_run.
  set (s0 := s <| runs := delete i (runs s) |> <| active := false |> <| cancelRequested := false |> <| stopped := res |>).
  set (left := match res with Some st => srcs_rq (resumed_request st) | None => [] end).
  assert (wf s0) as W0.
  { destruct W as [H1 H2 H3 H4 H5]. split; simpl; try done. intros j x [_ Hj]%lookup_delete_Some. eauto. }
  assert (work s0 ++ run_srcs r ++ card s ≡ₚ work s ++ left) as P0.
  { change (work s0) with (waiting (busy s) (items s) ++ sending_srcs (delete i (runs s)) ++ left).
    change (work s) with (waiting (busy s) (items s) ++ sending_srcs (runs s) ++ card s).
    rewrite (sending_delete (runs s) i r Hr).
    apply shuffle. }
  destruct (keeps_on_change now s0 W0) as (W1 & P1 & L1 & T1). set (s1 := on_change now s0) in *.
  assert (work s1 ++ run_srcs r ++ card s ≡ₚ work s ++ left) as P by (by rewrite P1).
  assert (in_line s1) as L1' by (apply L1; exact L).
  destruct (loop s1) as [[item|item j]|] eqn:El; [done| |done].
  destruct (Nat.eqb i j); [|done].
  pose proof (after_run_restores now item ok s1) as R. cbn zeta in R.
  assert (busy s1 = Some (id_ item)) as Hb by (unfold busy; by rewrite El).
  destruct R as (W2 & P2 & L2).
  - by apply done_item_wf.
  - apply done_item_turned. by right.
  - split; [done|]. split; [done|]. rewrite P2, done_item_work; [done|].
    intros it _ Hid. unfold item_srcs. rewrite decide_True; [done|]. by rewrite Hb, Hid.
Qed.

Lemma cancel_left {A} (l w w' d c : list A) : w' ++ (l ++ d) ++ c ≡ₚ w ++ l -> w ≡ₚ w' ++ d ++ c.
Proof.
  intros P. apply (Permutation_app_inv_r l). rewrite <- P, <- !app_assoc. apply Permutation_app_head.
  by rewrite Permutation_app_comm, <- !app_assoc.
Qed.

(** A run's end, [d] of what it had left delivered: what the card held is gone. *)
Lemma end_run_accounts now i r res ok s d :
  wf s -> in_line s -> runs s !! i = Some r ->
  run_srcs r ≡ₚ match res with Some st => srcs_rq (resumed_request st) | None => [] end ++ d ->
  let s' := end_run now i res ok s in wf s' /\ in_line s' /\ work s ≡ₚ work s' ++ d ++ card s.
Proof.
  intros W L Hr Hd. cbn zeta. destruct (end_run_spec now i r res ok s W L Hr) as (W' & L' & P).
  split; [done|]. split; [done|]. revert P Hd. generalize (match res with Some st => srcs_rq (resumed_request st) | None => [] end).
  intros left P Hd. rewrite Hd in P. by apply (cancel_left left).
Qed.

(** * The events *)

(** What an event asks for, delivers, and gives up. *)
Definition asked (e : Event) (s : St) : list str :=
  match e with
  | Enqueue rq _ => srcs_rq rq
  | Outside rq => if active s then [] else srcs_rq rq
  | _ => []
  end.
Definition delivered (e : Event) (s : St) : list str :=
  match e with
  | StepEnded i (Done _) =>
      match runs s !! i with
      | Some r => if opening r || cancelRequested s then [] else match r_steps r !! at_ r with Some step => srcsOf [step] | None => [] end
      | None => []
      end
  | _ => []
  end.
Definition given (e : Event) (s : St) : list str :=
  match e with
  | RemoveQueued i =>
      if running s && bool_decide (currentId s = Some i) then []
      else base.filter (fun it => id_ it = i) (items s) ≫= (fun it => srcs_rq (request it))
  | GiveUp => card s
  | _ => []
  end.

(** [s'] accounts for [s]: only what the card held may be gone, [ok] saying that it is not. *)
Definition accounts (ask del giv : list str) (ok : Prop) (s s' : St) : Prop :=
  wf s' /\ in_line s' /\ exists lost, ask ++ work s ≡ₚ work s' ++ del ++ giv ++ lost /\ (lost = [] \/ lost = card s /\ ~ ok).

Lemma keeps_accounts ok s s' : wf s -> in_line s -> keeps s s' -> accounts [] [] [] ok s s'.
Proof.
  intros W L K. destruct (K W) as (W' & P & L' & _). split; [done|]. split; [auto|]. exists [].
  split; [|by left]. rewrite app_nil_r. by rewrite P.
Qed.

Lemma srcsOf_drop l n step : l !! n = Some step -> srcsOf (drop n l) = srcsOf [step] ++ srcsOf (drop (S n) l).
Proof. intros H. rewrite (drop_S l step n H), srcsOf_cons, (srcsOf_cons step []), app_nil_r. done. Qed.

Lemma set_run s i r r' a d : wf s -> in_line s -> runs s !! i = Some r -> run_srcs r ≡ₚ run_srcs r' ++ d ->
  let s' := s <| runs := <[i := r']> (runs s) |> <| active := a |> in
  wf s' /\ in_line s' /\ work s ≡ₚ work s' ++ d.
Proof.
  intros [H1 H2 H3 H4 H5] L Hr Hd. split; [|split; [done|]].
  - split; simpl; try done. intros j x [[<- _]|[_ Hj]]%lookup_insert_Some; eauto.
  - change (waiting (busy s) (items s) ++ sending_srcs (runs s) ++ card s ≡ₚ
            (waiting (busy s) (items s) ++ sending_srcs (<[i := r']> (runs s)) ++ card s) ++ d).
    rewrite (sending_delete _ _ _ Hr), <- (insert_delete_eq (runs s)), sending_insert by apply lookup_delete_eq.
    rewrite Hd. solve_Permutation.
Qed.

(** Only a start and an end change the runs. *)
Lemma runs_settle s : runs (settle s) = runs s.
Proof. unfold settle. by destruct (items s). Qed.
Lemma runs_settleSendNow s : runs (settleSendNow s) = runs s.
Proof. unfold settleSendNow. repeat case_match; rewrite ?runs_settle; done. Qed.
Lemma runs_break s : runs (break_loop s) = runs s.
Proof. unfold break_loop. by rewrite runs_settle. Qed.
Lemma runs_next s : runs (next s) = runs s.
Proof. unfold next. destruct (pick _ _); [done|]. by rewrite runs_settle. Qed.
Lemma runs_drain s : runs (drainFsUploadQueue s) = runs s.
Proof. unfold drainFsUploadQueue. repeat case_match; rewrite ?runs_next; done. Qed.
Lemma runs_on_change_none s : runs (on_change_none s) = runs s.
Proof. unfold on_change_none. destruct (active s); cbn zeta; case_match; rewrite ?runs_drain; done. Qed.
Lemma runs_park now w st err inq s : runs (parkStopped now w st err inq s) = runs s.
Proof.
  assert (forall (b : bool) x, runs (if b then x <| parked := true |> else x) = runs x) as H by (by intros []).
  unfold parkStopped. cbn zeta. rewrite H, runs_on_change_none. exact (runs_settle _).
Qed.
Lemma runs_on_change now s : runs (on_change now s) = runs s.
Proof.
  unfold on_change. cbn zeta. set (s' := match pausing s with Some _ => _ | None => _ end).
  assert (runs s' = runs s) by (unfold s'; repeat case_match; rewrite ?runs_park; done).
  destruct (runner s'); [by rewrite runs_drain|done].
Qed.
Lemma runs_after now item ok s : runs (after_run now item ok s) = runs s.
Proof.
  unfold after_run. cbn zeta. set (s1 := settle _). assert (runs s1 = runs s) as <- by exact (runs_settle _).
  assert (forall b, runs (settle (s1 <| paused := b |>)) = runs s1) as H by (intros b; exact (runs_settle _)).
  assert (forall b x, runs (x <| parked := b |>) = runs x) as H' by done.
  repeat case_match; rewrite ?runs_next, ?runs_break, runs_settleSendNow, ?H, ?H', ?runs_park; done.
Qed.
Lemma runs_end now i res ok s : runs (end_run now i res ok s) = delete i (runs s).
Proof.
  unfold end_run. cbn zeta. repeat case_match; rewrite ?runs_after, runs_on_change; done.
Qed.

(** A run's end is a change. *)
Lemma run_end_accounts now i r res ok s d :
  wf s -> in_line s -> runs s !! i = Some r ->
  run_srcs r ≡ₚ match res with Some st => srcs_rq (resumed_request st) | None => [] end ++ d ->
  accounts [] d [] (runs (end_run now i res ok s) = runs s) s (end_run now i res ok s).
Proof.
  intros W L Hr Hd. destruct (end_run_accounts now i r res ok s d W L Hr Hd) as (W' & L' & P).
  split; [done|]. split; [done|]. exists (card s). split; [exact P|]. right. split; [done|].
  rewrite runs_end. intros E. pose proof (lookup_delete_eq (runs s) i) as H. rewrite E in H. congruence.
Qed.

Lemma go_on_accounts now i r r' s d :
  let s' := go_on now i r' s in
  wf s -> in_line s -> runs s !! i = Some r -> run_srcs r ≡ₚ run_srcs r' ++ d ->
  accounts [] d [] (runs s' = runs s) s s'.
Proof.
  cbn zeta. intros W L Hr Hd. unfold go_on. destruct (Nat.ltb_spec (at_ r') (length (r_steps r'))) as [Hl|Hl].
  - destruct (cancelRequested s); [by apply (run_end_accounts now i r)|].
    destruct (set_run s i r r' true d W L Hr Hd) as (W' & L' & P). split; [done|]. split; [done|].
    exists []. split; [|by left]. rewrite !app_nil_r. exact P.
  - apply (run_end_accounts now i r); [done..|]. rewrite Hd. unfold run_srcs. by rewrite drop_ge.
Qed.

Lemma step_end_accounts now mint i e s :
  let s' := step_end now mint i e s in
  wf s -> in_line s -> accounts [] (delivered (StepEnded i e) s) [] (runs s' = runs s) s s'.
Proof.
  cbn zeta. intros W L. unfold step_end, delivered.
  assert (forall d, d = [] -> accounts [] d [] (runs s = runs s) s s) as Hsame.
  { intros d ->. apply keeps_accounts; [done..|apply keeps_refl]. }
  destruct (runs s !! i) as [r|] eqn:Hr; [|by apply Hsame; destruct e].
  destruct (opening r) eqn:Ho; cbn [orb]; [by apply Hsame; destruct e|].
  destruct (r_steps r !! at_ r) as [step|] eqn:Hs; [|by destruct e; try destruct (cancelRequested s); apply Hsame].
  assert (run_srcs r ≡ₚ srcsOf (drop (at_ r) (r_steps r)) ++ []) as Hall by (by rewrite app_nil_r).
  destruct e as [landed|err landed|landed|].
  - destruct (cancelRequested s); [by apply (run_end_accounts now i r)|].
    apply (go_on_accounts now i r); [done..|]. unfold run_srcs. cbn [at_ r_steps set].
    rewrite (srcsOf_drop _ _ _ Hs). apply Permutation_app_comm.
  - by apply (run_end_accounts now i r).
  - destruct (cancelRequested s); [by apply (run_end_accounts now i r)|by apply Hsame].
  - destruct step as [src n a t|t files]; [by apply Hsame|]. apply (go_on_accounts now i r); [done..|].
    unfold run_srcs. cbn [at_ r_steps set]. pose proof (lookup_lt_Some _ _ _ Hs) as Hlt.
    rewrite drop_app_length', srcsOf_app, srcsOf_unlist, app_nil_r, (srcsOf_drop _ _ _ Hs); [done|].
    rewrite length_take. lia.
Qed.

(** The loop takes the pick it listed the folder for: it counts as its run from here on. *)
Lemma loop_takes item i s : wf s -> in_line s -> loop s = Some (Listing item) ->
  let s' := s <| loop := Some (Running item i) |> in
  wf s' /\ in_line s' /\ work s ≡ₚ work s' ++ srcs_rq (request item).
Proof.
  intros [H1 H2 H3 H4 H5] L Hl. destruct (L _ Hl) as (it & Hin & Hid & Hrq). cbn [loop_item] in Hid, Hrq. split; [|split].
  - split; simpl; try done. intros l [= <-]. exact (H4 _ Hl).
  - intros l [= <-]. by exists it.
  - assert (busy s = None) as Hb by (unfold busy; by rewrite Hl).
    change (waiting (busy s) (items s) ++ sending_srcs (runs s) ++ card s ≡ₚ
            (waiting (Some (id_ item)) (items s) ++ sending_srcs (runs s) ++ card s) ++ srcs_rq (request item)).
    rewrite Hb, (waiting_busy it) by done. rewrite Hid, Hrq, <- app_assoc. apply Permutation_app_comm.
Qed.

Lemma hold_accounts ok m s : wf s -> in_line s -> busy s = None -> accounts [] [] [] ok s (hold m s).
Proof.
  intros W L Hb. apply keeps_accounts; [done..|]. unfold hold.
  assert (keeps s (settleSendNow (settle (s <| paused := true |> <| error := Some m |>)))) as K.
  { apply keeps_then; [exact keeps_settleSendNow|]. apply keeps_settle. by apply keeps_core. }
  intros W0. destruct (K W0) as (W' & P & _ & T).
  assert (turned s) as T0 by (intros it _; by rewrite Hb).
  destruct (keeps_break _ (T T0) W') as (W'' & P' & _ & T'). split; [done|]. split; [by rewrite P'|].
  split; [intros _; apply in_line_break|auto].
Qed.

Lemma runFsUpload_grows mint rq s i s' : wf s -> runFsUpload mint rq s = (Going i, s') -> runs s' <> runs s.
Proof.
  intros W. unfold runFsUpload. destruct (stepsOf mint rq); [done|]. destruct (active s); [done|]. cbn zeta.
  intros [_ <-]%pair_eq E. destruct (clear_card s W) as (W0 & _ & _).
  set (s0 := s <| stopped := None |> <| cancelRequested := false |>) in *.
  destruct (keeps_on_change_none s0 W0) as (W1 & _). assert (runs (on_change_none s0) = runs s) as Hr by exact (runs_on_change_none s0).
  set (s1 := on_change_none s0) in *.
  assert (runs s1 !! nextRun s1 = Some (new_run mint rq)) as Hn by (rewrite Hr, <- E; apply lookup_insert_eq).
  apply (wf_runs s1 W1) in Hn. lia.
Qed.

Lemma listed_accounts mint now a s :
  let s' := listed mint now a s in wf s -> in_line s -> accounts [] [] [] (runs s' = runs s) s s'.
Proof.
  cbn zeta. intros W L. unfold listed. destruct (loop s) as [[item|item j]|] eqn:Hl; [|by apply keeps_accounts, keeps_refl..].
  assert (busy s = None) as Hb by (unfold busy; by rewrite Hl). destruct a as [present|m]; [|by apply hold_accounts].
  destruct (conflict item present); [by apply hold_accounts|].
  assert (turned s) as T by (intros it _; by rewrite Hb).
  destruct (runFsUpload mint (request item) s) as [[| |i] s1] eqn:E.
  - assert (s1 = s) as -> by (revert E; unfold runFsUpload; repeat case_match; congruence).
    destruct (keeps_break s T W) as (W' & P & _). split; [done|]. split; [apply in_line_break|]. exists [].
    split; [by rewrite !app_nil_r, P|by left].
  - assert (s1 = s /\ stepsOf mint (request item) = []) as [-> Hnil] by (revert E; unfold runFsUpload; repeat case_match; split; congruence).
    destruct (L _ Hl) as (it & Hin & Hid & Hrq). cbn [loop_item] in Hid, Hrq.
    destruct (after_run_restores now item true s (done_item_wf item s W)) as (W' & P & L').
    { apply done_item_turned. by left. }
    split; [done|]. split; [done|]. exists []. split; [|by left]. rewrite !app_nil_r. rewrite P, done_item_work; [done|].
    intros x Hx Hxid. assert (x = it) as ->.
    { apply list_elem_of_lookup in Hx as [n Hx], Hin as [k Hk].
      assert (n = k) as ->; [|congruence]. apply (NoDup_lookup (id_ <$> items s) n k (id_ item)); [by destruct W|..];
      rewrite list_lookup_fmap, ?Hx, ?Hk; simpl; by rewrite ?Hxid, ?Hid. }
    unfold item_srcs. rewrite Hb, decide_False, Hrq, <- (srcsOf_stepsOf mint), Hnil by done. done.
  - destruct (runFsUpload_started mint (request item) s i s1 W E) as (W1 & P1 & L1 & _ & _ & Hk).
    destruct Hk as (Hk & _); [by unfold running; rewrite Hl|]. rewrite Hl in Hk.
    destruct (loop_takes item i s1 W1 (L1 L) Hk) as (W2 & L2 & P2). split; [done|]. split; [done|]. exists (card s). split.
    + cbn [app]. rewrite P2 in P1. revert P1. generalize (srcs_rq (request item)) (work (s1 <| loop := Some (Running item i) |>)).
      intros l w P1. apply (Permutation_app_inv_r l). rewrite <- P1, <- !app_assoc. apply Permutation_app_head, Permutation_app_comm.
    + right. split; [done|]. exact (runFsUpload_grows _ _ _ _ _ W E).
Qed.

Lemma start_accounts mint rq s :
  let s' := start_outside mint rq s in
  wf s -> in_line s -> accounts (asked (Outside rq) s) [] [] (runs s' = runs s) s s'.
Proof.
  cbn zeta. intros W L. unfold start_outside, asked. destruct (runFsUpload mint rq s) as [[| |i] s1] eqn:E; cbn [snd].
  - revert E. unfold runFsUpload. destruct (stepsOf mint rq); [done|]. destruct (active s); [|done]. intros [= <-].
    by apply keeps_accounts, keeps_refl.
  - assert (s1 = s /\ stepsOf mint rq = []) as [-> Hnil] by (revert E; unfold runFsUpload; repeat case_match; split; congruence).
    rewrite <- (srcsOf_stepsOf mint), Hnil. destruct (active s); by apply keeps_accounts, keeps_refl.
  - destruct (runFsUpload_started mint rq s i s1 W E) as (W1 & P1 & L1 & _ & Ha & _). rewrite Ha.
    split; [done|]. split; [auto|]. exists (card s). split.
    + cbn [app]. rewrite P1. apply Permutation_app_comm.
    + right. split; [done|]. exact (runFsUpload_grows _ _ _ _ _ W E).
Qed.

(** Resume of the stopped card: what the card held is the run. *)
Lemma resume_accounts mint ok s :
  wf s -> in_line s -> accounts [] [] [] ok s (resumeFsUpload mint s).
Proof.
  intros W L. unfold resumeFsUpload. destruct (stopped s) as [st|] eqn:Hst; [|by apply keeps_accounts, keeps_refl].
  destruct (active s); [by apply keeps_accounts, keeps_refl|]. unfold start_outside.
  destruct (runFsUpload mint (resumed_request st) s) as [[| |i] s1] eqn:E; cbn [snd].
  1,2: assert (s1 = s) as -> by (revert E; unfold runFsUpload; repeat case_match; congruence); by apply keeps_accounts, keeps_refl.
  destruct (runFsUpload_started _ _ s i s1 W E) as (W1 & P1 & L1 & _).
  split; [done|]. split; [auto|]. exists []. split; [|by left]. rewrite app_nil_r.
  assert (card s = srcs_rq (resumed_request st)) as Hc by (unfold card; by rewrite Hst).
  rewrite Hc in P1. by apply Permutation_app_inv_r in P1.
Qed.

Lemma enqueue_accounts now rq existing ok s :
  wf s -> in_line s -> accounts (srcs_rq rq) [] [] ok s (enqueueFsUpload now rq existing s).
Proof.
  intros W L. unfold enqueueFsUpload. cbn zeta. set (s1 := s <| seq := seq s + 1 |>).
  set (item := {| id_ := fsq_id now (seq s1); request := _; allowedExisting := _; paused_ := _; sendNowAt := _; error_ := _ |}).
  set (s2 := s1 <| items := items s1 ++ [item] |>).
  assert (wf s2) as W2.
  { pose proof W as [H1 H2 H3 H4 H5]. split; simpl.
    - lia.
    - rewrite fmap_app. apply NoDup_app. split; [done|]. split; [|repeat constructor; by intros ?%elem_of_nil].
      intros x (it & -> & Hin)%list_elem_of_fmap Hx%list_elem_of_singleton. exact (fresh_id s now it W Hin Hx).
    - intros it [Hin|Hin%list_elem_of_singleton]%elem_of_app; [|rewrite Hin].
      + destruct (H3 it Hin) as (t & k & ? & ? & ?). exists t, k. split; [done|lia].
      + exists now, (seq s + 1). split; [done|lia].
    - intros l Hl. destruct (H4 l Hl) as (? & t & k & ? & ? & ?). split; [done|]. exists t, k. split; [done|lia].
    - exact H5. }
  assert (in_line s2) as L2.
  { intros l Hl. destruct (L l Hl) as (it & ? & ? & ?). exists it. split; [|done]. apply elem_of_app. by left. }
  assert (work s2 ≡ₚ work s ++ srcs_rq rq) as P2.
  { unfold work, waiting. change (busy s2) with (busy s). change (items s2) with (items s ++ [item]). rewrite bind_app.
    assert ([item] ≫= item_srcs (busy s) = srcs_rq rq) as ->.
    { cbn [mbind list_bind]. unfold item_srcs. rewrite decide_False; [apply app_nil_r|].
      unfold busy. destruct (loop s) as [[|it k]|] eqn:Hl; try done. intros Hx%(inj Some).
      destruct W as [_ _ _ H4 _]. destruct (H4 _ Hl) as (_ & t & n & Hid & ? & ?). cbn [loop_item] in Hid.
      assert (fsq_id t n = fsq_id now (seq s + 1)) as Hx' by (by rewrite <- Hid, Hx). apply fsq_id_inj in Hx'; lia. }
    change (runs s2) with (runs s). change (card s2) with (card s).
    rewrite <- !app_assoc. apply Permutation_app_head. rewrite (Permutation_app_comm (srcs_rq rq)), <- app_assoc. done. }
  assert (keeps s2 (drainFsUploadQueue ((settle s2) <| runner := true |>))) as K.
  { apply keeps_then; [exact keeps_drain|]. eapply keeps_trans; [apply keeps_settle, keeps_refl|]. by apply keeps_core. }
  destruct (K W2) as (W3 & P3 & L3 & _). split; [done|]. split; [auto|]. exists []. split; [|by left].
  rewrite !app_nil_r. rewrite Permutation_app_comm. by rewrite P3, P2.
Qed.

Lemma waiting_split b i l : b <> Some i ->
  waiting b l ≡ₚ waiting b (base.filter (fun it => id_ it <> i) l) ++
    (base.filter (fun it => id_ it = i) l ≫= (fun it => srcs_rq (request it))).
Proof.
  intros Hb. unfold waiting. induction l as [|it l IH]; [done|]. rewrite !filter_cons. cbn [mbind list_bind].
  destruct (decide (id_ it = i)) as [Hid|Hid].
  - rewrite decide_False by tauto. cbn [mbind list_bind]. unfold item_srcs at 1. rewrite decide_False by congruence.
    rewrite IH. rewrite !app_assoc. apply Permutation_app_tail, Permutation_app_comm.
  - rewrite decide_True by done. cbn [mbind list_bind]. rewrite <- app_assoc. apply Permutation_app_head. exact IH.
Qed.
Lemma remove_accounts i ok s :
  wf s -> in_line s -> accounts [] [] (given (RemoveQueued i) s) ok s (removeFsUploadQueued i s).
Proof.
  intros W L. unfold removeFsUploadQueued, given.
  destruct (running s && bool_decide (currentId s = Some i)) eqn:E; [by apply keeps_accounts, keeps_refl|].
  set (s1 := s <| items := base.filter (fun it => id_ it <> i) (items s) |>).
  assert (forall l, loop s = Some l -> id_ (loop_item l) <> i) as Hne.
  { intros l Hl Hx. destruct (wf_loop s W l Hl) as [Hc _]. revert E. unfold running. rewrite Hl, Hc, Hx.
    by rewrite bool_decide_eq_true_2. }
  pose proof (wf_filter (fun it => id_ it <> i) s W : wf s1) as W1.
  assert (in_line s1) as L1.
  { intros l Hl. destruct (L l Hl) as (it & Hin & Hid & ?). exists it. split; [|done].
    apply list_elem_of_filter. split; [rewrite Hid; by apply Hne|done]. }
  assert (keeps s1 (settleSendNow (settle s1))) as K.
  { apply keeps_then; [exact keeps_settleSendNow|apply keeps_settle, keeps_refl]. }
  destruct (K W1) as (W2 & P2 & L2 & _). split; [done|]. split; [auto|]. exists []. split; [|by left].
  rewrite P2. cbn [app]. rewrite app_nil_r.
  assert (busy s <> Some i) as Hb by (unfold busy; destruct (loop s) as [[|it j]|] eqn:Hl; [done| |done]; intros [= Hx]; exact (Hne _ eq_refl Hx)).
  change (work s1) with (waiting (busy s) (base.filter (fun it => id_ it <> i) (items s)) ++ sending_srcs (runs s) ++ card s).
  unfold work. rewrite (waiting_split _ i _ Hb), <- !app_assoc. apply Permutation_app_head. rewrite Permutation_app_comm.
  by rewrite <- app_assoc.
Qed.

Lemma giveUp_accounts ok s : wf s -> in_line s -> accounts [] [] (card s) ok s (giveUpFsUploadStopped s).
Proof.
  intros W L. unfold giveUpFsUploadStopped. destruct (clear_card s W) as (W0 & P0 & L0).
  set (s0 := s <| stopped := None |> <| cancelRequested := false |>) in *. set (s1 := s <| stopped := None |>).
  assert (keeps s0 s1) as K0 by (by apply keeps_core). destruct (keeps_then on_change_none s0 s1 keeps_on_change_none K0 W0) as (W1 & P1 & L1 & _).
  split; [done|]. split; [auto|]. exists []. split; [|by left]. rewrite app_nil_r. cbn [app]. by rewrite P1, P0.
Qed.

Lemma keeps_cancel s : keeps s (cancelFsUpload s).
Proof. unfold cancelFsUpload. apply keeps_if; [by apply keeps_core|apply keeps_refl]. Qed.
Lemma keeps_pause w s : keeps s (pauseFsUpload w s).
Proof.
  unfold pauseFsUpload. apply keeps_if; [|apply keeps_refl]. apply keeps_then; [exact keeps_cancel|by apply keeps_core].
Qed.
Lemma keeps_opened i s : keeps s (opened i s).
Proof.
  unfold opened. destruct (runs s !! i) as [r|] eqn:Hr; [|apply keeps_refl]. destruct (opening r); [|apply keeps_refl].
  intros W. pose proof W as [H1 H2 H3 H4 H5]. split; [|split; [|done]].
  - split; simpl; try done. intros j x [[<- _]|[_ Hj]]%lookup_insert_Some; eauto.
  - change (waiting (busy s) (items s) ++ sending_srcs (<[i := r <| opening := false |>]> (runs s)) ++ card s ≡ₚ work s).
    unfold work. rewrite (sending_delete _ _ _ Hr), <- (insert_delete_eq (runs s)), sending_insert by apply lookup_delete_eq. done.
Qed.
(** An answer of the person that changes picks in place, then may turn the loop. *)
Lemma keeps_restart f s s' :
  (forall it, id_ (f it) = id_ it /\ request (f it) = request it) ->
  core s' = core (s <| items := f <$> items s |>) -> keeps s (drainFsUploadQueue (settle s')).
Proof. intros Hf E. apply keeps_then; [exact keeps_drain|]. apply keeps_settle. by apply (keeps_map f). Qed.
Lemma keeps_resumeItem i s : keeps s (resumeFsUploadItem i s).
Proof.
  unfold resumeFsUploadItem. apply keeps_if; [apply keeps_refl|].
  apply (keeps_restart (fun it => if decide (id_ it = i) then it <| paused_ := None |> <| error_ := None |> else it)); [|done].
  intros it. by destruct (decide _).
Qed.
Lemma keeps_sendNow now i s : keeps s (sendFsUploadNow now i s).
Proof.
  unfold sendFsUploadNow. apply keeps_if; [apply keeps_refl|]. cbn zeta.
  assert (forall f : PendingFsUpload -> PendingFsUpload, (forall it, id_ (f it) = id_ it /\ request (f it) = request it) ->
    keeps s (settle (s <| runner := true |> <| items := f <$> items s |>))) as K.
  { intros f Hf. by apply keeps_settle, (keeps_map f). }
  match goal with |- context [settle (s <| runner := true |> <| items := ?f <$> _ |>)] => specialize (K f) end.
  apply keeps_if.
  - apply keeps_then; [apply keeps_pause|]. apply K. intros it. by destruct (decide _).
  - apply keeps_then; [apply keeps_drain|]. apply K. intros it. by destruct (decide _).
Qed.

(** One event. *)
Lemma exec_accounts now mint e s :
  let s' := exec now mint e s in
  wf s -> in_line s ->
  accounts (asked e s) (delivered e s) (given e s) (runs s' = runs s \/ e = ResumeStopped) s s'.
Proof.
  cbn zeta. intros W L.
  assert (forall ask del giv s', accounts ask del giv (runs s' = runs s) s s' -> e <> ResumeStopped ->
    accounts ask del giv (runs s' = runs s \/ e = ResumeStopped) s s') as Hor.
  { intros ask del giv s' (W' & L' & lost & P & D) Hne. split; [done|]. split; [done|]. exists lost. tauto. }
  destruct e; cbn [exec asked delivered given].
  - by apply enqueue_accounts.
  - by apply (remove_accounts i).
  - apply keeps_accounts; [done..|apply keeps_pause].
  - apply keeps_accounts; [done..|apply keeps_resumeItem].
  - apply keeps_accounts; [done..|apply keeps_sendNow].
  - apply keeps_accounts; [done..|]. apply keeps_settle, keeps_paused.
  - apply keeps_accounts; [done..|]. unfold resumeFsUploadQueue. apply keeps_then; [exact keeps_drain|]. apply keeps_settle. by apply keeps_core.
  - apply keeps_accounts; [done..|apply keeps_cancel].
  - apply Hor; [by apply start_accounts|done].
  - by apply resume_accounts.
  - by apply giveUp_accounts.
  - apply Hor; [by apply listed_accounts|done].
  - apply keeps_accounts; [done..|apply keeps_opened].
  - apply Hor; [by apply step_end_accounts|done].
Qed.

(** * Histories *)

(** The clock, the job ids it mints, and what happens. *)
Definition Happening : Type := Z * (nat -> str) * Event.
Definition after (h : list Happening) (s : St) : St := fold_left (fun s '(now, mint, e) => exec now mint e s) h s.
(** What [f] gathers over a history. *)
Fixpoint gathered (f : Event -> St -> list str) (h : list Happening) (s : St) : list str :=
  match h with
  | [] => []
  | (now, mint, e) :: h => f e s ++ gathered f h (exec now mint e s)
  end.
(** While a stopped card waits, no run starts or ends but by its Resume. *)
Fixpoint undisturbed (h : list Happening) (s : St) : Prop :=
  match h with
  | [] => True
  | (now, mint, e) :: h =>
      (stopped s = None \/ runs (exec now mint e s) = runs s \/ e = ResumeStopped) /\ undisturbed h (exec now mint e s)
  end.

Lemma regroup {A} (a as_ d ds g gs w s s1 : list A) :
  a ++ s ≡ₚ s1 ++ d ++ g -> as_ ++ s1 ≡ₚ w ++ ds ++ gs -> (a ++ as_) ++ s ≡ₚ w ++ (d ++ ds) ++ (g ++ gs).
Proof.
  intros H1 H2. transitivity (as_ ++ s1 ++ d ++ g); [rewrite <- H1; solve_Permutation|].
  rewrite app_assoc, H2. solve_Permutation.
Qed.
Lemma gathered_accounts h s : wf s -> in_line s -> undisturbed h s ->
  wf (after h s) /\
  gathered asked h s ++ work s ≡ₚ work (after h s) ++ gathered delivered h s ++ gathered given h s.
Proof.
  revert s. induction h as [|[[now mint] e] h IH]; intros s W L U; [by rewrite app_nil_r|]. destruct U as [U Us].
  destruct (exec_accounts now mint e s W L) as (W' & L' & lost & P & D).
  assert (lost = []) as ->.
  { destruct D as [->|(-> & Hn)]; [done|]. unfold card. destruct U as [-> |U]; [done|tauto]. }
  destruct (IH _ W' L' Us) as (W'' & P'). split; [exact W''|]. rewrite !app_nil_r in P.
  exact (regroup _ _ _ _ _ _ _ _ _ P P').
Qed.
Lemma init_wf : wf init.
Proof. split; simpl; try done. constructor. intros it []%elem_of_nil. Qed.

(** C4: nothing picked is forgotten or doubled: over any history from an empty start, whatever the person
    does and the console answers, each source asked for is still to send (in the line, in a run, or on the
    stopped card), was delivered, or was given up, exactly once each, as long as no run starts or ends while a
    stopped card waits. *)
Theorem nothing_forgotten (h : list Happening) : undisturbed h init ->
  gathered asked h init ≡ₚ
    work (after h init) ++ gathered delivered h init ++ gathered given h init.
Proof.
  intros U. destruct (gathered_accounts h init init_wf ltac:(done) U) as [_ P].
  by rewrite <- P, app_nil_r.
Qed.
Definition job (n : nat) : str := js "job-" ++ num (Z.of_nat n).
Definition one_list (to : string) (files : list string) : Request := {|
  queueId := None; addr := js "ps5"; destDir := js to; srcPaths := [];
  rq_steps := Some [ListStep (js to) ((fun f => {| f_src := js f; f_name := js f; f_replacesSize := None |}) <$> files)];
  replaceRemoteName := None; doneBefore := None; countTotal := None |}.
Definition at_once (e : Event) : Happening := (0, job, e).
Definition two_picks : list Happening := at_once <$>
  [Enqueue (one_list "/a" ["x"; "y"]) []; Enqueue (one_list "/b" ["z"]) []; FolderListed (inl [])].
(** The first pick's list is copied, the second pick follows. *)
Definition both_sent : list Happening := two_picks ++ (at_once <$>
  [StepEnded 0 (Done 2); FolderListed (inl []); Pause; StepEnded 1 (CutOff 0); ResumeQueue]).
Lemma nothing_forgotten_witness :
  undisturbed both_sent init /\ gathered delivered both_sent init = [js "x"; js "y"] /\
  work (after both_sent init) = [js "z"] /\
  gathered asked both_sent init ≡ₚ
    work (after both_sent init) ++ gathered delivered both_sent init ++ gathered given both_sent init.
Proof.
  assert (undisturbed both_sent init) as U by (cbn; repeat split; try (left; reflexivity); right; left; reflexivity).
  split; [exact U|]. split; [vm_compute; reflexivity|]. split; [vm_compute; reflexivity|].
  exact (nothing_forgotten both_sent U).
Defined.

(** A pick sent now while a stopped upload waits on its card: [runFsUpload] clears the card, and what the
    stopped upload had left is nowhere; nobody gave it up. *)
Definition sent_past_card : list Happening := two_picks ++ (at_once <$>
  [StepEnded 0 (Refused (js "e") 0); SendNow (fsq_id 0 2); FolderListed (inl [])]).
Theorem card_forgotten :
  gathered asked sent_past_card init = [js "x"; js "y"; js "z"] /\
  gathered delivered sent_past_card init = [] /\ gathered given sent_past_card init = [] /\
  work (after sent_past_card init) = [js "z"].
Proof. split_and!; vm_compute; reflexivity. Qed.

(** * Which pick goes next *)

Lemma pick_sent_spec l sent :
  match pick_sent l sent with
  | Some it =>
      (sent = Some it \/ (it ∈ l /\ sending it = true)) /\
      (forall b, sent = Some b -> (sendNowAt it ?? 0) <= (sendNowAt b ?? 0)) /\
      (forall j, j ∈ l -> sending j = true -> (sendNowAt it ?? 0) <= (sendNowAt j ?? 0))
  | None => sent = None /\ forall j, j ∈ l -> sending j = false
  end.
Proof.
  revert sent. induction l as [|i l IH]; intros sent; cbn [pick_sent].
  { destruct sent as [b|].
    - split; [by left|]. split; [intros ? [= ->]; lia|]. by intros j ?%elem_of_nil.
    - split; [done|]. by intros j ?%elem_of_nil. }
  destruct (sending i) eqn:Hi; cbn [negb].
  - set (o := match sent with Some b => if (sendNowAt i ?? 0) <? (sendNowAt b ?? 0) then Some i else Some b | None => Some i end).
    assert (match sent with Some b => if (sendNowAt i ?? 0) <? (sendNowAt b ?? 0) then pick_sent l (Some i) else pick_sent l sent
            | None => pick_sent l (Some i) end = pick_sent l o) as -> by (unfold o; by destruct sent as [b|]; [destruct (_ <? _)|]).
    specialize (IH o). unfold o in *. clear o.
    destruct (pick_sent l _) as [it|]; [|destruct sent as [b|]; [destruct (_ <? _)|]; by destruct IH].
    destruct IH as (H1 & H2 & H3).
    assert ((sendNowAt it ?? 0) <= (sendNowAt i ?? 0) /\ forall b, sent = Some b -> (sendNowAt it ?? 0) <= (sendNowAt b ?? 0)) as [Hle Hb].
    { destruct sent as [b|]; [|split; [by apply H2|done]].
      destruct (Z.ltb_spec (sendNowAt i ?? 0) (sendNowAt b ?? 0)); specialize (H2 _ eq_refl); split; try lia; intros ? [= <-]; lia. }
    split; [|split; [exact Hb|]].
    + destruct H1 as [H1|[? ?]]; [|right; split; [by right|done]].
      destruct sent as [b|]; [destruct (_ <? _)|]; injection H1 as <-; [right|by left|right]; (split; [left|done]).
    + intros j [->|Hj]%elem_of_cons Hs; [exact Hle|by apply H3].
  - specialize (IH sent). destruct (pick_sent l sent) as [it|].
    + destruct IH as (H1 & H2 & H3). split; [|split; [done|]].
      * destruct H1 as [?|[? ?]]; [by left|right; split; [by right|done]].
      * intros j [->|Hj]%elem_of_cons Hs; [congruence|auto].
    + destruct IH as [-> H]. split; [done|]. by intros j [->|Hj]%elem_of_cons; [|apply H].
Qed.

(** the next pick: one sent now, the earliest sent, whether the line is held or not; with none, nothing
    when held, else the first that is not paused; a paused pick never goes. *)
Theorem pick_spec l h :
  match pick l h with
  | Some it =>
      it ∈ l /\ is_paused it = false /\
      if existsb sending l
      then sent_now it = true /\ forall j, j ∈ l -> sending j = true -> (sendNowAt it ?? 0) <= (sendNowAt j ?? 0)
      else h = false /\ exists k, l !! k = Some it /\ forall n j, (n < k)%nat -> l !! n = Some j -> is_paused j = true
  | None => forall j, j ∈ l -> sending j = false /\ (h = true \/ is_paused j = true)
  end.
Proof.
  unfold pick. pose proof (pick_sent_spec l None) as H. destruct (pick_sent l None) as [it|].
  - destruct H as ([?|[Hin Hs]] & _ & H); [done|]. split; [done|].
    assert (existsb sending l = true) as -> by (apply existsb_exists; exists it; split; [by apply list_elem_of_In|done]).
    revert Hs H. unfold sending at 1. destruct (sent_now it), (is_paused it); done.
  - destruct H as [_ H]. destruct h; [intros j Hj; split; [auto|by left]|].
    assert (existsb sending l = false) as ->.
    { destruct (existsb sending l) eqn:E; [|done]. apply existsb_exists in E as (j & Hj%list_elem_of_In & Hs). rewrite H in Hs; done. }
    destruct (find_first _ l) as [it|] eqn:E.
    + pose proof E as [Hin Hp]%find_first_Some. apply negb_true_iff in Hp. split; [done|]. split; [done|]. split; [done|].
      revert E. unfold find_first. rewrite fmap_Some. intros ([k x] & (H1 & _ & H3)%list_find_Some & ->).
      exists k. split; [exact H1|]. intros n j Hn Hj. specialize (H3 n j Hj Hn). by destruct (is_paused j).
    + rewrite find_first_None in E. intros j Hj. split; [auto|]. right. specialize (E j Hj). by destruct (is_paused j).
Qed.

(** * What a start may write over *)

(** a pick is started only after its folder was read again, and only when every name it writes that is
    there now was there when its conflicts were settled: a file that appeared since holds the line instead of
    being replaced. *)
Theorem start_overwrites_known mint now a s :
  wf s -> runs (listed mint now a s) <> runs s ->
  exists item present, loop s = Some (Listing item) /\ a = inl present /\ stopped (listed mint now a s) = None /\
    forall n e, n ∈ names (request item) -> e ∈ present -> nameKey (e_name e) = nameKey n -> nameKey n ∈ allowedExisting item.
Proof.
  intros W. unfold listed. destruct (loop s) as [[item|item j]|] eqn:Hl; [|done..].
  assert (forall m, runs (hold m s) = runs s) as Hh.
  { intros m. unfold hold. rewrite runs_break, runs_settleSendNow. exact (runs_settle _). }
  destruct a as [present|m]; [|by rewrite Hh].
  destruct (conflict item present) eqn:Hc; [by rewrite Hh|].
  destruct (runFsUpload mint (request item) s) as [[| |i] s1] eqn:E.
  - assert (s1 = s) as -> by (revert E; unfold runFsUpload; repeat case_match; congruence). by rewrite runs_break.
  - assert (s1 = s) as -> by (revert E; unfold runFsUpload; repeat case_match; congruence). by rewrite runs_after.
  - intros _. exists item, present. split; [done|]. split; [done|]. split.
    + revert E. unfold runFsUpload. destruct (stepsOf _ _); [done|]. destruct (active s) eqn:Ha; [done|]. cbn zeta. intros [_ <-]%pair_eq.
      unfold on_change_none, drainFsUploadQueue, running. simpl. rewrite Ha, Hl. simpl. by destruct (runner s).
    + intros n e Hn He Hk. unfold conflict in Hc. rewrite find_first_None in Hc. specialize (Hc n Hn).
      apply andb_false_iff in Hc as [Hc|Hc].
      * apply bool_decide_eq_false in Hc. exfalso. apply Hc. rewrite <- Hk.
        exact (list_elem_of_fmap_2 (fun e => nameKey (e_name e)) present e He).
      * apply negb_false_iff, bool_decide_eq_true in Hc. done.
Qed.
Lemma start_overwrites_known_witness :
  let s := after (take 2 two_picks) init in
  runs (listed job 0 (inl []) s) <> runs s /\
  exists item present, loop s = Some (Listing item) /\ @inl _ str [] = inl present /\ stopped (listed job 0 (inl []) s) = None /\
    forall n e, n ∈ names (request item) -> e ∈ present -> nameKey (e_name e) = nameKey n -> nameKey n ∈ allowedExisting item.
Proof.
  cbn zeta. assert (wf (after (take 2 two_picks) init)) as W.
  { apply (gathered_accounts (take 2 two_picks) init init_wf); [done|]. cbn. repeat split; left; reflexivity. }
  assert (runs (listed job 0 (inl []) (after (take 2 two_picks) init)) <> runs (after (take 2 two_picks) init)) as H.
  { intros H. apply (f_equal (fun m => match m !! 0%nat with Some _ => true | None => false end)) in H. vm_compute in H. done. }
  split; [exact H|]. exact (start_overwrites_known job 0 (inl []) _ W H).
Defined.

(** Two copies at once: Resume of a stopped folder asks what its first item is before it shows as running;
    clearing the card lets the line go on meanwhile. *)
Definition one_folder (to src : string) : Request := {|
  queueId := None; addr := js "ps5"; destDir := js to; srcPaths := [];
  rq_steps := Some [One (js src) (js src) false (js "t")]; replaceRemoteName := None; doneBefore := None; countTotal := None |}.
Definition resumed_beside_line : list Happening := at_once <$>
  [Enqueue (one_folder "/a" "d") []; Enqueue (one_list "/b" ["z"]) []; FolderListed (inl []); Opened 0;
   StepEnded 0 (Refused (js "e") 0); ResumeQueue; ResumeStopped; FolderListed (inl []); Opened 1].
Theorem two_runs_at_once :
  (fun e : nat * Run => (r_steps e.2 !! at_ e.2, opening e.2)) <$> map_to_list (runs (after resumed_beside_line init)) ≡ₚ
    [(Some (One (js "d") (js "d") false (js "t")), false);
     (Some (ListStep (js "/b") [{| f_src := js "z"; f_name := js "z"; f_replacesSize := None |}]), false)].
Proof. vm_compute. apply Permutation_swap. Qed.
