(* ===== verification/SpacePlan.v ===== *)
(** The space planner (client/src/lib/spacePlan.ts): what could free room on a drive, ranked; which
    of it a plan takes; where the moves go. Sizes and times are integers. *)
From S2P Require Import Prelude Paths.

(** * Candidates *)

Inductive SpaceStepKind := Leftover | Move | Uninstall.
#[export] Instance stepkind_eq_dec : EqDecision SpaceStepKind.
Proof. solve_decision. Defined.
(** The groups in the order a plan uses them. *)
Definition KIND_ORDER : list SpaceStepKind := [Leftover; Move; Uninstall].

Record SpaceCandidate := {
  id : str; kind : SpaceStepKind; label : str; titleId : option str; bytes : Z;
  lastPlayedMs : option Z; hasCopy : option bool; moveTargets : option (list str);
  cleanupId : option Z; path : option str
}.
#[export] Instance candidate_eq_dec : EqDecision SpaceCandidate.
Proof. solve_decision. Defined.

Record SpacePlanInput := {
  neededBytes : Z; roomBytes : Z; candidates : list SpaceCandidate; destRoom : gmap str Z; nowMs : Z
}.
Record PlannedStep := { candidate : SpaceCandidate; selected : bool; dest : option str }.
Record SpacePlan := {
  steps : list PlannedStep; shortBytes : Z; freedBytes : Z; enough : bool; missingBytes : Z; actions : Z
}.

Definition DAY_MS : Z := 24 * 60 * 60 * 1000.

(** The "last played" bands, doubled (the unknown's is 2.5). *)
Definition ageBand (lastPlayedMs : option Z) (nowMs : Z) : Z :=
  match lastPlayedMs with
  | None => 5
  | Some t =>
      if t <=? 0 then 5
      else let ago := nowMs - t in
           if 90 * DAY_MS <=? ago then 2 else if 30 * DAY_MS <=? ago then 4
           else if 7 * DAY_MS <=? ago then 6 else 8
  end.

(** Can this candidate be proposed at all. *)
Definition isUsable (c : SpaceCandidate) : bool :=
  if negb (0 <? bytes c) then false
  else match kind c with
       | Uninstall => bool_decide (hasCopy c = Some true)
       | Move => match moveTargets c with Some (_ :: _) => true | _ => false end
       | Leftover => bool_decide (is_Some (cleanupId c))
       end.

(** * Ranking *)

Definition kind_index (k : SpaceStepKind) : Z := match k with Leftover => 0 | Move => 1 | Uninstall => 2 end.
Definition rankCompare (nowMs : Z) (a b : SpaceCandidate) : Z :=
  if negb (kind_index (kind a) =? kind_index (kind b)) then kind_index (kind a) - kind_index (kind b)
  else
    let ba := ageBand (lastPlayedMs a) nowMs in
    let bb := ageBand (lastPlayedMs b) nowMs in
    if negb (bool_decide (kind a = Leftover)) && negb (ba =? bb) then ba - bb
    else if negb (bytes a =? bytes b) then bytes b - bytes a
    else
      let la := lastPlayedMs a ?? 0 in
      let lb := lastPlayedMs b ?? 0 in
      if negb (la =? lb) then la - lb
      else if str_lt (id a) (id b) then -1 else if str_lt (id b) (id a) then 1 else 0.

Definition ranked_of (input : SpacePlanInput) : list SpaceCandidate :=
  sort_by (rankCompare (nowMs input)) (base.filter (fun c => isUsable c = true) (candidates input)).

(** * Where the moves go *)

Definition room_at (room : gmap str Z) (t : str) : Z := room !! t ?? 0.
(** The drive with the most room left that can take [b]: the first one of the most. *)
Definition best_step (room : gmap str Z) (b : Z) (best : option str) (t : str) : option str :=
  if (b <=? room_at room t)
     && match best with None => true | Some x => room_at room x <? room_at room t end
  then Some t else best.
Definition best_drive (room : gmap str Z) (b : Z) (targets : list str) : option str :=
  fold_left (best_step room b) targets None.

Definition assign_step (ids : list str) (ro : gmap str Z * gmap str (option str)) (c : SpaceCandidate)
    : gmap str Z * gmap str (option str) :=
  let '(room, out) := ro in
  if negb (bool_decide (kind c = Move)) || negb (bool_decide (id c ∈ ids)) then ro
  else
    let best := best_drive room (bytes c) (moveTargets c ?? []) in
    (match best with Some t => <[t := room_at room t - bytes c]> room | None => room end,
     <[id c := best]> out).
(** Destinations for the moves in [ids], in rank order; a move no drive can take gets [Some None]. *)
Definition assignMoves (ranked : list SpaceCandidate) (ids : list str) (destRoom : gmap str Z)
    : gmap str (option str) :=
  (fold_left (assign_step ids) ranked (destRoom, ∅)).2.

(** * The plan for a selection *)

Definition shortOf (input : SpacePlanInput) : Z := Z.max 0 (neededBytes input - Z.max 0 (roomBytes input)).

Definition step_of (dests : gmap str (option str)) (ids : list str) (c : SpaceCandidate) : PlannedStep :=
  let sel := bool_decide (id c ∈ ids) in
  {| candidate := c; selected := sel;
     dest := if bool_decide (kind c = Move) then if sel then dests !! id c ?? None else None else None |}.
(** Whether a step counts: selected, and a move only with somewhere to go (a drive's path is not
    the empty text). *)
Definition goes (s : PlannedStep) : bool :=
  match dest s with Some (_ :: _) => true | _ => negb (bool_decide (kind (candidate s) = Move)) end.
Definition counts (s : PlannedStep) : bool := selected s && goes s.

Definition planWithSelection (input : SpacePlanInput) (ids : list str) : SpacePlan :=
  let ranked := ranked_of input in
  let steps := step_of (assignMoves ranked ids (destRoom input)) ids <$> ranked in
  let counted := base.filter (fun s => counts s = true) steps in
  let freed := foldr (fun s n => bytes (candidate s) + n) 0 counted in
  let leftovers := existsb (fun s => bool_decide (kind (candidate s) = Leftover)) counted in
  let others := base.filter (fun s => kind (candidate s) <> Leftover) counted in
  let missing := Z.max 0 (shortOf input - freed) in
  {| steps := steps; shortBytes := shortOf input; freedBytes := freed; enough := missing =? 0;
     missingBytes := missing; actions := Z.of_nat (length others) + if leftovers then 1 else 0 |}.

(** * What a plan takes *)

Section pick.
Context (fits : SpaceCandidate -> list SpaceCandidate -> bool).

(** Items in rank order until covered, with their sum. *)
Fixpoint take_until (need : Z) (group : list SpaceCandidate) (taken : list SpaceCandidate) (sum : Z)
    : list SpaceCandidate * Z :=
  match group with
  | [] => (taken, sum)
  | c :: group =>
      if need <=? sum then (taken, sum)
      else if negb (fits c taken) then take_until need group taken sum
      else take_until need group (taken ++ [c]) (sum + bytes c)
  end.
(** Taken items the rest cover without are put back, the latest-ranked first: [left] items are
    still to be looked at. *)
Fixpoint put_back (need : Z) (left : nat) (taken : list SpaceCandidate) (sum : Z) : list SpaceCandidate :=
  match left with
  | O => taken
  | S i =>
      match taken !! i with
      | Some c => if need <=? sum - bytes c then put_back need i (delete i taken) (sum - bytes c)
                  else put_back need i taken sum
      | None => put_back need i taken sum
      end
  end.
Definition pickFromGroup (group : list SpaceCandidate) (need : Z) : list SpaceCandidate :=
  if need <=? 0 then []
  else match find_first (fun c => (need <=? bytes c) && fits c []) group with
       | Some c => [c]
       | None =>
           let '(taken, sum) := take_until need group [] 0 in
           if sum <? need then taken else put_back need (length taken) taken sum
       end.
End pick.

Definition move_fits (ranked : list SpaceCandidate) (room : gmap str Z) (c : SpaceCandidate)
    (taken : list SpaceCandidate) : bool :=
  match assignMoves ranked ((id <$> taken) ++ [id c]) room !! id c with Some (Some _) => true | _ => false end.

Definition pick_kind (ranked : list SpaceCandidate) (room : gmap str Z) (k : SpaceStepKind) (need : Z)
    : list SpaceCandidate :=
  let group := base.filter (fun c => kind c = k) ranked in
  match k with
  | Move => pickFromGroup (move_fits ranked room) group need
  | _ => pickFromGroup (fun _ _ => true) group need
  end.

Definition sum_bytes (l : list SpaceCandidate) : Z := foldr (fun c n => bytes c + n) 0 l.
Fixpoint pick_kinds (ranked : list SpaceCandidate) (room : gmap str Z) (kinds : list SpaceStepKind) (need : Z)
    : list SpaceCandidate :=
  match kinds with
  | [] => []
  | k :: kinds =>
      if need <=? 0 then []
      else let picked := pick_kind ranked room k need in
           picked ++ pick_kinds ranked room kinds (need - sum_bytes picked)
  end.

(** The proposed plan: leftovers, then moves, then uninstalls, each for what is still short. *)
Definition planSpace (input : SpacePlanInput) : SpacePlan :=
  planWithSelection input (id <$> pick_kinds (ranked_of input) (destRoom input) KIND_ORDER (shortOf input)).

(** Selected steps in the order they run. *)
Definition runOrder (plan : SpacePlan) : list PlannedStep := base.filter (fun s => counts s = true) (steps plan).

(** * Drives *)

Definition isInternalPath (volume : str) : bool := bool_decide (volume = js "/data") || bool_decide (volume = js "/user").
(** [/^\/mnt\/([a-z]+\d+)$/]. *)
Fixpoint letters_digits (s : str) : bool :=
  match s with
  | a :: ((b :: _) as s') =>
      is_lower a && (letters_digits s' || (is_digit b && forallb is_digit s'))
  | _ => false
  end.
Definition driveToken (volume : str) : str :=
  if isInternalPath volume then js "internal"
  else if starts_with (js "/mnt/") volume && letters_digits (drop 5 volume) then drop 5 volume else volume.
Definition sameDrive (a b : str) : bool := bool_decide (driveToken a = driveToken b).

Definition volume_step (p : str) (best : option str) (v : str) : option str :=
  let root := trim v in
  if on_volume p root && match best with None => true | Some b => (length b <? length root)%nat end
  then Some root else best.
(** The drive a console path lives on; the internal drive's /user and /data count as one. *)
Definition volumeOfPath (p : str) (volumes : list str) : option str :=
  match fold_left (volume_step p) volumes None with
  | Some (_ :: _) as b => b
  | _ => if starts_with (js "/user/") p || starts_with (js "/data/") p then find_first isInternalPath volumes else None
  end.
Definition resolveDrive (drive : str) (volumes : list str) : option str :=
  if bool_decide (drive = js "internal") || isInternalPath drive then find_first isInternalPath volumes
  else find_first (fun v => bool_decide (v = drive)) volumes.

(** * Candidates from what the console and the Collection report *)

Record LeftoverSource := {
  l_id : Z; cat : str; drive : str; action : str; is_default : bool; l_bytes : Z; alloc_bytes : Z;
  l_path : str; l_name : option str; l_title_id : option str
}.
Inductive MoveKind := Game | Image.
Record MoveSource := {
  m_kind : MoveKind; m_name : str; m_path : str; volume : str; size : Z;
  imageFormat : option str; m_titleId : option str
}.
Record InstalledSource := {
  i_titleId : str; titleName : str; from_pkg : bool; system : bool; base_ : option (str * Z)
}.
Record CandidateInput := {
  target : str; volumes : list str; imageMounts : list str; leftovers : list LeftoverSource;
  library : list MoveSource; folderBytes : gmap str Z; use_paths : list str; use_images : list str;
  installed : list InstalledSource; collectionIds : list str; running : list str;
  lastPlayed : option str -> option Z
}.

Definition GAME_IMAGES : list str := js <$> ["exfat"; "ffpkg"; "ffpfsc"]%string.

Definition upper_char (a : ascii) : ascii := if is_lower a then ascii_of_nat (nat_of_ascii a - 32) else a.
Definition to_upper (s : str) : str := map upper_char s.

(** A path's file name without its extension. *)
Definition leafName (p : str) : str :=
  let leaf := match last_index_of slash p with Some i => drop (S i) p | None => p end in
  match last_index_of "." leaf with
  | Some i => if (S i =? length leaf)%nat then leaf else take i leaf
  | None => leaf
  end.

(** [a || b] of texts. *)
Definition or_text (a : option str) (b : str) : str := match a with Some ((_ :: _) as s) => s | _ => b end.

Definition leftover_candidate (token : str) (l : LeftoverSource) : option SpaceCandidate :=
  if negb (bool_decide (drive l = token)) || bool_decide (cat l = js "A") || bool_decide (cat l = js "G")
     || bool_decide (action l = js "none") || negb (is_default l)
  then None
  else Some {| id := js "leftover:" ++ num (l_id l); kind := Leftover;
               label := or_text (l_name l) (or_text (l_title_id l) (or_text (Some (leafName (l_path l))) (l_path l)));
               titleId := l_title_id l;
               bytes := if 0 <? alloc_bytes l then alloc_bytes l else l_bytes l;
               lastPlayedMs := None; hasCopy := None; moveTargets := None;
               cleanupId := Some (l_id l); path := Some (l_path l) |}.

Definition move_targets (inp : CandidateInput) : list str :=
  base.filter (fun v => sameDrive v (target inp) = false /\ v ∉ imageMounts inp) (volumes inp).
Definition insideImage (inp : CandidateInput) (p : str) : bool := existsb (on_volume p) (imageMounts inp).
Definition is_image (e : MoveSource) : bool := match m_kind e with Image => true | Game => false end.
Definition is_running (inp : CandidateInput) (t : str) : bool := bool_decide (to_upper t ∈ running inp).

Definition move_candidate (inp : CandidateInput) (e : MoveSource) : option SpaceCandidate :=
  let vol := volumeOfPath (m_path e) (volumes inp) ?? volume e in
  if negb (sameDrive vol (target inp)) || insideImage inp (m_path e)
     || (is_image e && negb (bool_decide ((imageFormat e ?? []) ∈ GAME_IMAGES)))
     || bool_decide (m_path e ∈ use_paths inp)
     || (is_image e && bool_decide (leafName (m_path e) ∈ use_images inp))
     || match m_titleId e with Some ((_ :: _) as t) => is_running inp t | _ => false end
  then None
  else Some {| id := js "move:" ++ m_path e; kind := Move; label := m_name e; titleId := m_titleId e;
               bytes := if is_image e then size e else folderBytes inp !! m_path e ?? 0;
               lastPlayedMs := lastPlayed inp (m_titleId e); hasCopy := None;
               moveTargets := Some (move_targets inp); cleanupId := None; path := Some (m_path e) |}.

Definition uninstall_candidate (inp : CandidateInput) (t : InstalledSource) : option SpaceCandidate :=
  match base_ t with
  | Some (bpath, bsize) =>
      if negb (from_pkg t) || system t || is_running inp (i_titleId t) then None
      else match volumeOfPath bpath (volumes inp) with
           | Some ((_ :: _) as vol) =>
               if negb (sameDrive vol (target inp)) then None
               else Some {| id := js "uninstall:" ++ to_upper (i_titleId t); kind := Uninstall;
                            label := titleName t; titleId := Some (i_titleId t); bytes := bsize;
                            lastPlayedMs := lastPlayed inp (Some (i_titleId t));
                            hasCopy := Some (bool_decide (to_upper (i_titleId t) ∈ collectionIds inp));
                            moveTargets := None; cleanupId := None; path := None |}
           | _ => None
           end
  | None => None
  end.

(** Everything that could free room on the target, before ranking. *)
Definition buildCandidates (inp : CandidateInput) : list SpaceCandidate :=
  omap (leftover_candidate (driveToken (target inp))) (leftovers inp)
  ++ omap (move_candidate inp) (library inp)
  ++ omap (uninstall_candidate inp) (installed inp).

(** * Ranking keeps every usable candidate *)

Lemma elem_of_ranked input c : c ∈ ranked_of input <-> c ∈ candidates input /\ isUsable c = true.
Proof. unfold ranked_of. rewrite sort_by_perm, list_elem_of_filter. tauto. Qed.

Lemma ranked_NoDup input : NoDup (id <$> candidates input) -> NoDup (id <$> ranked_of input).
Proof.
  intros H. unfold ranked_of. rewrite sort_by_perm.
  eapply sublist_NoDup; [exact H|]. apply fmap_sublist, sublist_filter.
Qed.

(** * The drive a move gets *)

Lemma room_at_insert room x n t : room_at (<[x := n]> room) t = if decide (t = x) then n else room_at room t.
Proof.
  unfold room_at. case_decide as E; [subst; by rewrite lookup_insert_eq|by rewrite lookup_insert_ne by congruence].
Qed.

Lemma best_drive_spec room b targets :
  match best_drive room b targets with
  | Some t => t ∈ targets /\ b <= room_at room t /\ forall t', t' ∈ targets -> room_at room t' <= room_at room t
  | None => forall t, t ∈ targets -> room_at room t < b
  end.
Proof.
  unfold best_drive. induction targets as [|t l IH] using rev_ind; [by intros ? ?%elem_of_nil|].
  rewrite fold_left_app. cbn [fold_left]. unfold best_step at 1.
  destruct (fold_left (best_step room b) l None) as [x|].
  - destruct IH as (Hx & Hb & Hm). destruct (b <=? room_at room t) eqn:E1, (room_at room x <? room_at room t) eqn:E2;
      cbn [andb]; bool_prop; (split_and!; [set_solver|lia|]);
      intros t' [Ht'| ->%list_elem_of_singleton]%elem_of_app; try (specialize (Hm t' Ht')); lia.
  - destruct (b <=? room_at room t) eqn:E1; cbn [andb]; bool_prop.
    + split_and!; [set_solver|lia|]. intros t' [Ht'| ->%list_elem_of_singleton]%elem_of_app; [|lia].
      specialize (IH t' Ht'). lia.
    + intros t' [Ht'| ->%list_elem_of_singleton]%elem_of_app; [auto|lia].
Qed.

(** * Moves one by one

    [allot] is [assignMoves] written as a list: the moves of [ids] in rank order, each with the
    drive it gets. *)
Definition is_move (ids : list str) (c : SpaceCandidate) : bool :=
  bool_decide (kind c = Move) && bool_decide (id c ∈ ids).
Definition take_room (room : gmap str Z) (b : Z) (t : option str) : gmap str Z :=
  match t with Some t => <[t := room_at room t - b]> room | None => room end.
Fixpoint allot (ids : list str) (room : gmap str Z) (l : list SpaceCandidate)
    : list (SpaceCandidate * option str) :=
  match l with
  | [] => []
  | c :: l =>
      if is_move ids c then
        let best := best_drive room (bytes c) (moveTargets c ?? []) in
        (c, best) :: allot ids (take_room room (bytes c) best) l
      else allot ids room l
  end.

Lemma assign_step_move ids room out c :
  assign_step ids (room, out) c =
  (if is_move ids c then
     let best := best_drive room (bytes c) (moveTargets c ?? []) in
     (take_room room (bytes c) best, <[id c := best]> out)
   else (room, out)).
Proof. unfold assign_step, is_move. repeat case_bool_decide; done. Qed.

Lemma elem_of_allot ids room l c t : (c, t) ∈ allot ids room l -> c ∈ l /\ is_move ids c = true.
Proof.
  revert room. induction l as [|x l IH]; intros room; cbn [allot]; [by intros ?%elem_of_nil|].
  destruct (is_move ids x) eqn:E; [intros [[= -> _]|H]%elem_of_cons|intros H];
    [split; [apply elem_of_cons; by left|done]|..]; apply IH in H as [? ?]; (split; [apply elem_of_cons; by right|done]).
Qed.

Lemma assign_out ids l room out k : k ∉ id <$> l -> (fold_left (assign_step ids) l (room, out)).2 !! k = out !! k.
Proof.
  revert room out. induction l as [|c l IH]; intros room out Hk; [done|]. cbn [fold_left].
  rewrite assign_step_move. rewrite fmap_cons, not_elem_of_cons in Hk. destruct Hk as [Hne Hk].
  destruct (is_move ids c); cbv zeta; rewrite IH by done; [|done]. by rewrite lookup_insert_ne.
Qed.

Lemma assign_allot ids l room out c t : NoDup (id <$> l) -> (c, t) ∈ allot ids room l ->
  (fold_left (assign_step ids) l (room, out)).2 !! id c = Some t.
Proof.
  revert room out. induction l as [|x l IH]; intros room out Hnd; cbn [allot]; [by intros ?%elem_of_nil|].
  rewrite fmap_cons in Hnd. inversion Hnd as [|? ? Hx Hnd']; subst. cbn [fold_left]. rewrite assign_step_move.
  destruct (is_move ids x) eqn:E; cbv zeta; [|by apply IH].
  intros [[= -> ->]|H]%elem_of_cons; [|by apply IH]. rewrite assign_out by done. by rewrite lookup_insert_eq.
Qed.

Lemma allot_all ids room l c : c ∈ l -> is_move ids c = true -> exists t, (c, t) ∈ allot ids room l.
Proof.
  revert room. induction l as [|x l IH]; intros room; [by intros ?%elem_of_nil|].
  cbn [allot]. intros [->|Hc]%elem_of_cons Hm.
  - rewrite Hm. eexists. apply elem_of_cons. by left.
  - destruct (is_move ids x); [|by apply IH]. destruct (IH (take_room room (bytes x) (best_drive room (bytes x) (moveTargets x ?? []))) Hc Hm) as [t Ht].
    exists t. apply elem_of_cons. by right.
Qed.

(** What the moves put on a drive fits the room it had. *)
Definition put_on (t : str) (l : list (SpaceCandidate * option str)) : Z :=
  foldr (fun ct n => (if bool_decide (ct.2 = Some t) then bytes ct.1 else 0) + n) 0 l.

Lemma allot_fits ids room l t : (forall c, c ∈ l -> 0 < bytes c) ->
  0 <= put_on t (allot ids room l) <= Z.max 0 (room_at room t).
Proof.
  revert room. induction l as [|c l IH]; intros room Hl; cbn [allot]; [simpl; lia|].
  assert (forall c, c ∈ l -> 0 < bytes c) as Hl' by (intros x Hx; apply Hl, elem_of_cons; by right).
  assert (0 < bytes c) as Hc by (apply Hl, elem_of_cons; by left).
  destruct (is_move ids c); [|by apply IH]. pose proof (best_drive_spec room (bytes c) (moveTargets c ?? [])) as Hb.
  destruct (best_drive _ _ _) as [x|]; cbn [put_on foldr fst snd take_room].
  - destruct Hb as (_ & Hb & _). specialize (IH (<[x:=room_at room x - bytes c]> room) Hl').
    fold (put_on t (allot ids (<[x:=room_at room x - bytes c]> room) l)).
    rewrite room_at_insert in IH. case_bool_decide as E.
    + injection E as ->. rewrite decide_True in IH by done. lia.
    + rewrite decide_False in IH by congruence. lia.
  - rewrite bool_decide_eq_false_2 by done. apply IH. done.
Qed.

(** A drive named in a plan's moves is one of the move's own, and it has the room. *)
Lemma allot_target ids room l c t : (c, Some t) ∈ allot ids room l -> t ∈ moveTargets c ?? [].
Proof.
  revert room. induction l as [|x l IH]; intros room; cbn [allot]; [by intros ?%elem_of_nil|].
  destruct (is_move ids x); [|by apply IH]. intros [[= -> E]|H]%elem_of_cons; [|by eapply IH].
  pose proof (best_drive_spec room (bytes x) (moveTargets x ?? [])) as Hb. rewrite <-E in Hb. apply Hb.
Qed.

Lemma dest_of_step room ids l c t : NoDup (id <$> l) -> c ∈ l ->
  dest (step_of (assignMoves l ids room) ids c) = Some t <-> (c, Some t) ∈ allot ids room l.
Proof.
  intros Hnd Hc. unfold step_of. cbn [dest]. split.
  - destruct (bool_decide (kind c = Move)) eqn:E1, (bool_decide (id c ∈ ids)) eqn:E2; try done.
    destruct (allot_all ids room l c Hc) as [t' Ht']; [unfold is_move; by rewrite E1, E2|].
    unfold assignMoves. rewrite (assign_allot _ _ _ _ _ _ Hnd Ht'). simpl. by intros ->.
  - intros Hin. pose proof (elem_of_allot _ _ _ _ _ Hin) as [_ Hm]. unfold is_move in Hm.
    apply andb_true_iff in Hm as [-> ->]. unfold assignMoves. by rewrite (assign_allot _ _ _ _ _ _ Hnd Hin).
Qed.

Lemma put_on_allot room ids l t (g : SpaceCandidate -> bool) :
  (forall c, c ∈ l -> g c = true <-> (c, Some t) ∈ allot ids room l) -> NoDup l ->
  put_on t (allot ids room l) = foldr (fun c n => (if g c then bytes c else 0) + n) 0 l.
Proof.
  revert room. induction l as [|x l IH]; intros room Hg Hnd; [done|].
  inversion Hnd as [|? ? Hx Hnd']; subst.
  assert (forall room', (forall c, c ∈ l -> g c = true <-> (c, Some t) ∈ allot ids room' l) ->
    put_on t (allot ids room' l) = foldr (fun c n => (if g c then bytes c else 0) + n) 0 l) as IH' by (intros; by apply IH).
  cbn [allot foldr]. cbn [allot] in Hg. destruct (is_move ids x) eqn:Em.
  - set (best := best_drive room (bytes x) (moveTargets x ?? [])) in *. cbn [put_on foldr fst snd].
    fold (put_on t (allot ids (take_room room (bytes x) best) l)). rewrite IH'.
    + f_equal. destruct (bool_decide (best = Some t)) eqn:E.
      * apply bool_decide_eq_true in E. rewrite (proj2 (Hg x ltac:(apply elem_of_cons; by left))); [done|].
        apply elem_of_cons. left. by rewrite E.
      * apply bool_decide_eq_false in E. destruct (g x) eqn:Egx; [|done]. exfalso.
        apply Hg in Egx; [|apply elem_of_cons; by left]. apply elem_of_cons in Egx as [[= ?]|H]; [congruence|].
        by apply elem_of_allot in H as [? _].
    + intros c Hc. rewrite Hg by (apply elem_of_cons; by right). rewrite elem_of_cons. split; [|by right].
      intros [[= -> _]|?]; done.
  - rewrite IH'.
    + destruct (g x) eqn:Egx; [|lia]. exfalso. apply Hg in Egx; [|apply elem_of_cons; by left].
      by apply elem_of_allot in Egx as [? _].
    + intros c Hc. apply Hg, elem_of_cons. by right.
Qed.

Lemma NoDup_ids l : NoDup (id <$> l) -> NoDup l.
Proof. apply NoDup_fmap_1. Qed.

Lemma sum_onto (step : SpaceCandidate -> PlannedStep) t l : (forall c, candidate (step c) = c) ->
  sum_bytes (candidate <$> base.filter (fun s => dest s = Some t) (step <$> l)) =
  foldr (fun c n => (if bool_decide (dest (step c) = Some t) then bytes c else 0) + n) 0 l.
Proof.
  intros Hs. unfold sum_bytes. induction l as [|c l IH]; [done|]. cbn [fmap list_fmap]. rewrite filter_cons.
  cbn [foldr]. rewrite <-IH. case_decide as E.
  - rewrite bool_decide_eq_true_2 by done. cbn [fmap list_fmap foldr]. by rewrite Hs.
  - by rewrite bool_decide_eq_false_2.
Qed.

(** a plan never sends more to a drive than it has room for, whatever is ticked: the moves it
    puts on a drive fit together, each on one of its own drives, and a move that fits nowhere frees
    nothing. *)
Theorem moves_never_overfill input ids t
  (Hids : NoDup (id <$> candidates input)) :
  let plan := planWithSelection input ids in
  let onto := base.filter (fun s => dest s = Some t) (steps plan) in
  sum_bytes (candidate <$> onto) <= Z.max 0 (room_at (destRoom input) t)
  /\ Forall (fun s => kind (candidate s) = Move /\ t ∈ moveTargets (candidate s) ?? [] /\ id (candidate s) ∈ ids) onto
  /\ freedBytes plan = sum_bytes (candidate <$> base.filter (fun s => counts s = true) (steps plan)).
Proof.
  cbv zeta. cbn [steps planWithSelection freedBytes].
  pose proof (ranked_NoDup input Hids) as Hnd. set (l := ranked_of input) in *.
  set (step := step_of (assignMoves l ids (destRoom input)) ids).
  assert (forall c, c ∈ l -> 0 < bytes c) as Hpos.
  { intros c [_ Hu]%elem_of_ranked. unfold isUsable in Hu. destruct (0 <? bytes c) eqn:E; [by apply Z.ltb_lt|done]. }
  split_and!.
  - pose proof (allot_fits ids (destRoom input) l t Hpos) as [_ Hle]. etrans; [|exact Hle].
    rewrite (put_on_allot _ _ _ _ (fun c => bool_decide (dest (step c) = Some t))); [|..|by apply NoDup_ids].
    + by rewrite sum_onto.
    + intros c Hc. rewrite bool_decide_eq_true. by apply dest_of_step.
  - apply Forall_forall. intros s [Hd (c & -> & Hc)%list_elem_of_fmap]%list_elem_of_filter.
    apply dest_of_step in Hd; [|done|done]. cbn [candidate step step_of]. pose proof (allot_target _ _ _ _ _ Hd) as Ht.
    apply elem_of_allot in Hd as [_ Hm]. unfold is_move in Hm. apply andb_true_iff in Hm as [H1 H2].
    apply bool_decide_eq_true in H1, H2. done.
  - unfold sum_bytes. induction (base.filter _ _) as [|s q IH]; simpl; [done|]. by rewrite IH.
Qed.

(** * Putting a move back never strands another

    When every move may go to the same drives [T], leaving moves out keeps the others placed: the
    rooms left dominate, counted per size. *)
Section stranded.
Context (T : list str) (HT : NoDup T).

Definition cnt (room : gmap str Z) (x : Z) : nat := length (base.filter (fun t => x <= room_at room t) T).
Definition dominates (r r' : gmap str Z) : Prop := forall x, (cnt r x <= cnt r' x)%nat.

Lemma cnt_pos room x t : t ∈ T -> x <= room_at room t -> (1 <= cnt room x)%nat.
Proof.
  intros Ht Hx. unfold cnt. destruct (base.filter _ T) as [|? ?] eqn:E; [|simpl; lia].
  assert (t ∈ base.filter (fun t => x <= room_at room t) T) as Hin by by apply list_elem_of_filter.
  rewrite E in Hin. by apply elem_of_nil in Hin.
Qed.
Lemma cnt_zero room x : (forall t, t ∈ T -> room_at room t < x) -> cnt room x = 0%nat.
Proof.
  intros H. unfold cnt. destruct (base.filter _ T) as [|t ?] eqn:E; [done|].
  assert (t ∈ base.filter (fun t => x <= room_at room t) T) as Hin by (rewrite E; apply elem_of_cons; by left).
  apply list_elem_of_filter in Hin as [? Hin]. specialize (H t Hin). lia.
Qed.

Lemma cnt_take room t b x : t ∈ T -> 0 < b ->
  (cnt (<[t := (room_at room t - b)%Z]> room) x
   + (if decide (room_at room t - b < x <= room_at room t)%Z then 1 else 0) = cnt room x)%nat.
Proof.
  intros Ht Hb. unfold cnt.
  assert (forall l : list str, t ∉ l -> base.filter (fun t0 => x <= room_at (<[t := room_at room t - b]> room) t0) l
    = base.filter (fun t0 => x <= room_at room t0) l) as Hout.
  { intros l Hl. induction l as [|y l IH]; [done|]. apply not_elem_of_cons in Hl as [Hne Hl].
    rewrite !filter_cons, room_at_insert. rewrite (decide_False (P := y = t)) by congruence. by rewrite IH. }
  apply list_elem_of_split in Ht as (l1 & l2 & E). rewrite E in HT |- *.
  apply NoDup_app in HT as (_ & H1 & H2). inversion H2 as [|? ? H3 _]; subst.
  assert (t ∉ l1) as H4. { intros Hin. apply (H1 t Hin), elem_of_cons. by left. }
  rewrite !filter_app, !length_app, !filter_cons, !Hout by done. rewrite room_at_insert.
  rewrite (decide_True (P := t = t)) by done. repeat case_decide; simpl; lia.
Qed.

Lemma dominates_take r r' t t' b : dominates r r' -> 0 < b ->
  t ∈ T -> b <= room_at r t -> (forall x, x ∈ T -> room_at r x <= room_at r t) ->
  t' ∈ T -> b <= room_at r' t' -> (forall x, x ∈ T -> room_at r' x <= room_at r' t') ->
  dominates (<[t := room_at r t - b]> r) (<[t' := room_at r' t' - b]> r').
Proof.
  intros Hd Hb Ht Hbt Hmax Ht' Hbt' Hmax' x.
  pose proof (cnt_take r t b x Ht Hb) as E. pose proof (cnt_take r' t' b x Ht' Hb) as E'. specialize (Hd x) as Hx.
  assert (room_at r t <= room_at r' t') as Hle.
  { destruct (decide (room_at r t <= room_at r' t')) as [|Hlt]; [done|exfalso].
    specialize (Hd (room_at r t)). pose proof (cnt_pos r (room_at r t) t Ht ltac:(lia)).
    rewrite (cnt_zero r') in Hd; [lia|]. intros y Hy. specialize (Hmax' y Hy). lia. }
  destruct (decide (room_at r t < x)) as [Hbig|Hsmall].
  - rewrite (cnt_zero r x) in E; [lia|]. intros y Hy. specialize (Hmax y Hy). lia.
  - destruct (decide (room_at r t - b < x <= room_at r t)); destruct (decide (room_at r' t' - b < x <= room_at r' t')); lia.
Qed.

Definition all_placed (ids : list str) (room : gmap str Z) (l : list SpaceCandidate) : Prop :=
  Forall (fun ct => is_Some ct.2) (allot ids room l).

Lemma all_placed_fewer ids ids' l r r' : (forall c, c ∈ l -> kind c = Move -> moveTargets c = Some T) ->
  (forall c, c ∈ l -> 0 < bytes c) -> (forall i, i ∈ ids' -> i ∈ ids) -> dominates r r' ->
  all_placed ids r l -> all_placed ids' r' l.
Proof.
  intros HTl Hpos Hids. revert r r'. induction l as [|c l IH]; intros r r' Hd H; [done|].
  specialize (IH ltac:(intros x Hx; apply HTl, elem_of_cons; by right) ltac:(intros x Hx; apply Hpos, elem_of_cons; by right)).
  assert (0 < bytes c) as Hb by (apply Hpos, elem_of_cons; by left).
  assert (kind c = Move -> moveTargets c = Some T) as HTc by (apply HTl, elem_of_cons; by left).
  unfold all_placed in *. cbn [allot] in *. unfold is_move in *.
  destruct (bool_decide (kind c = Move)) eqn:Ek; cbn [andb] in *; [|by eapply IH].
  apply bool_decide_eq_true in Ek. rewrite (HTc Ek) in *. change (Some T ?? []) with T in *.
  pose proof (best_drive_spec r (bytes c) T) as Br. pose proof (best_drive_spec r' (bytes c) T) as Br'.
  destruct (bool_decide (id c ∈ ids)) eqn:E1, (bool_decide (id c ∈ ids')) eqn:E2; bool_prop; [..|by eapply IH].
  - apply Forall_cons in H as [[t Et] H]. cbn [snd] in Et. rewrite Et in Br, H. cbv beta iota in Br. destruct Br as (Ht & Hbt & Hmax).
    destruct (best_drive r' (bytes c) T) as [t'|].
    + destruct Br' as (Ht' & Hbt' & Hmax'). constructor; [by eexists|].
      eapply IH; [|exact H]. by apply dominates_take.
    + exfalso. specialize (Hd (bytes c)). rewrite (cnt_zero r') in Hd by done.
      pose proof (cnt_pos r (bytes c) t Ht Hbt). lia.
  - apply Forall_cons in H as [[t Et] H]. cbn [snd] in Et. rewrite Et in Br, H. cbv beta iota in Br. destruct Br as (Ht & Hbt & Hmax).
    eapply IH; [|exact H]. intros x. cbn [take_room]. pose proof (cnt_take r t (bytes c) x Ht Hb). specialize (Hd x). lia.
  - exfalso. apply E1. by apply Hids.
Qed.
End stranded.

(** * What a pick from one group takes *)

Lemma sum_bytes_app l k : sum_bytes (l ++ k) = sum_bytes l + sum_bytes k.
Proof. induction l as [|c l IH]; simpl; lia. Qed.
Lemma sum_bytes_delete l i c : l !! i = Some c -> sum_bytes (delete i l) = sum_bytes l - bytes c.
Proof.
  revert i. induction l as [|x l IH]; intros [|i]; simpl; intros H; try done; [injection H as ->; lia|].
  specialize (IH i H). lia.
Qed.

Lemma put_back_spec need n taken sum : (forall c, c ∈ taken -> 0 < bytes c) ->
  sum = sum_bytes taken -> need <= sum ->
  (forall j c, (n <= j)%nat -> taken !! j = Some c -> sum - bytes c < need) ->
  let p := put_back need n taken sum in
  p `sublist_of` taken /\ need <= sum_bytes p /\ forall c, c ∈ p -> sum_bytes p - bytes c < need.
Proof.
  cbv zeta. revert taken sum. induction n as [|i IH]; intros taken sum Hpos Hsum Hn Hj; cbn [put_back].
  { split_and!; [done|lia|]. intros c (j & Hc)%list_elem_of_lookup. rewrite <-Hsum. eapply Hj; [lia|done]. }
  destruct (taken !! i) as [c|] eqn:Ec.
  - assert (0 < bytes c) as Hc by (eapply Hpos, list_elem_of_lookup_2; done).
    destruct (need <=? sum - bytes c) eqn:E; bool_prop.
    + destruct (IH (delete i taken) (sum - bytes c)) as (H1 & H2 & H3).
      * intros x Hx. apply Hpos. eapply elem_of_sublist; [exact Hx|apply sublist_delete].
      * rewrite (sum_bytes_delete _ _ _ Ec). lia.
      * done.
      * intros j x Hji Hx. rewrite list_lookup_delete_ge in Hx by lia. specialize (Hj (S j) x ltac:(lia) Hx). lia.
      * split_and!; [etrans; [exact H1|apply sublist_delete]|done|done].
    + apply IH; [done..|]. intros j x Hji Hx. destruct (decide (j = i)) as [->|]; [|apply (Hj j); [lia|done]].
      replace x with c by congruence. lia.
  - apply IH; [done..|]. intros j x Hji Hx. apply lookup_ge_None in Ec. apply lookup_lt_Some in Hx. lia.
Qed.

Section picked.
Context (fits : SpaceCandidate -> list SpaceCandidate -> bool).

Lemma take_until_spec need l taken sum : let r := take_until fits need l taken sum in
  (exists k, k `sublist_of` l /\ r.1 = taken ++ k /\ r.2 = sum + sum_bytes k).
Proof.
  revert taken sum. induction l as [|c l IH]; intros taken sum; cbn [take_until]; cbv zeta.
  { exists []. rewrite app_nil_r. simpl. split_and!; [done|done|lia]. }
  destruct (need <=? sum); [exists []; rewrite app_nil_r; simpl; split_and!; [apply sublist_nil_l|done|lia]|].
  destruct (fits c taken); cbn [negb].
  - destruct (IH (taken ++ [c]) (sum + bytes c)) as (k & H1 & H2 & H3). exists (c :: k).
    rewrite H2, H3, <-(assoc_L (++)). simpl. split_and!; [by apply sublist_skip|done|lia].
  - destruct (IH taken sum) as (k & H1 & H2 & H3). exists k. split_and!; [by apply sublist_cons|done|done].
Qed.

(** When everything fits, what is taken covers the need or is the whole group. *)
Lemma take_until_covers need l taken sum : (forall c t, fits c t = true) ->
  let r := take_until fits need l taken sum in need <= r.2 \/ r.1 = taken ++ l.
Proof.
  intros Hf. revert taken sum. induction l as [|c l IH]; intros taken sum; cbn [take_until]; cbv zeta.
  { right. by rewrite app_nil_r. }
  destruct (need <=? sum) eqn:E; [left; by apply Z.leb_le|]. rewrite Hf. cbn [negb].
  destruct (IH (taken ++ [c]) (sum + bytes c)) as [H|H]; [by left|right]. by rewrite H, <-(assoc_L (++)).
Qed.

(** What is picked is of the group, in its order; when it covers the need, none of it could be left
    out; when one item alone covers it, one item is picked. *)
Lemma pickFromGroup_spec group need : (forall c, c ∈ group -> 0 < bytes c) ->
  let p := pickFromGroup fits group need in
  p `sublist_of` group
  /\ (need <= sum_bytes p -> forall c, c ∈ p -> sum_bytes p - bytes c < need)
  /\ ((exists c, c ∈ group /\ need <= bytes c /\ fits c [] = true) -> (length p <= 1)%nat)
  /\ ((forall c t, fits c t = true) -> need <= sum_bytes p \/ p = group).
Proof.
  intros Hpos. cbv zeta. unfold pickFromGroup. destruct (need <=? 0) eqn:E0; bool_prop.
  { split_and!; [apply sublist_nil_l|by intros _ ? ?%elem_of_nil|simpl; lia|simpl; lia]. }
  destruct (find_first _ group) as [c|] eqn:Ef.
  - apply find_first_Some in Ef as [Hc Hb]. bool_prop. split_and!.
    + apply list_elem_of_split in Hc as (l1 & l2 & ->). apply sublist_inserts_l, sublist_skip, sublist_nil_l.
    + intros _ x ->%list_elem_of_singleton. simpl. lia.
    + simpl. lia.
    + simpl. lia.
  - destruct (take_until_spec need group [] 0) as (k & H1 & H2 & H3). cbv zeta in *.
    pose proof (take_until_covers need group [] 0) as Hcov. cbv zeta in Hcov.
    destruct (take_until fits need group [] 0) as [taken sum]. cbn [fst snd app] in *. subst k.
    assert (~ exists c, c ∈ group /\ need <= bytes c /\ fits c [] = true) as Hno.
    { intros (c & Hc & Hb & Hfc). pose proof (proj1 (find_first_None _ _) Ef c Hc) as H. cbn in H.
      rewrite Hfc, andb_true_r in H. apply Z.leb_gt in H. lia. }
    destruct (sum <? need) eqn:E; bool_prop.
    + split_and!; [done|lia|done|]. intros Hf. destruct (Hcov Hf); [lia|by right].
    + destruct (put_back_spec need (length taken) taken sum) as (P1 & P2 & P3).
      * intros c Hc. apply Hpos. by eapply elem_of_sublist.
      * lia.
      * done.
      * intros j c Hj Hl. apply lookup_lt_Some in Hl. lia.
      * split_and!; [by etrans|done|done|by left].
Qed.
End picked.

(** * The moves a plan takes all have somewhere to go *)

Lemma pickFromGroup_from fits group need : let p := pickFromGroup fits group need in
  p = [] \/ (exists c, c ∈ group /\ fits c [] = true /\ p = [c])
  \/ p `sublist_of` (take_until fits need group [] 0).1.
Proof.
  cbv zeta. unfold pickFromGroup. destruct (need <=? 0); [by left|].
  destruct (find_first _ group) as [c|] eqn:Ef.
  - apply find_first_Some in Ef as [Hc Hb]. bool_prop. right. left. eauto.
  - destruct (take_until fits need group [] 0) as [taken sum]. right. right. cbn [fst].
    destruct (sum <? need); [done|]. generalize (length taken) as n. intros n. revert taken sum.
    induction n as [|n IH]; intros taken sum; cbn [put_back]; [done|].
    destruct (taken !! n) as [c|]; [|apply IH]. destruct (need <=? sum - bytes c); [|apply IH].
    etrans; [apply IH|apply sublist_delete].
Qed.

Fixpoint rooms (ids : list str) (room : gmap str Z) (l : list SpaceCandidate) : gmap str Z :=
  match l with
  | [] => room
  | c :: l => rooms ids (if is_move ids c then take_room room (bytes c) (best_drive room (bytes c) (moveTargets c ?? []))
                         else room) l
  end.
Lemma allot_app ids room l1 l2 : allot ids room (l1 ++ l2) = allot ids room l1 ++ allot ids (rooms ids room l1) l2.
Proof.
  revert room. induction l1 as [|c l1 IH]; intros room; cbn [app allot rooms]; [done|].
  destruct (is_move ids c); [|apply IH]. cbv zeta. cbn [app]. by rewrite IH.
Qed.
Lemma allot_ext ids ids' room l : (forall c, c ∈ l -> is_move ids c = is_move ids' c) ->
  allot ids room l = allot ids' room l.
Proof.
  revert room. induction l as [|c l IH]; intros room H; cbn [allot]; [done|].
  rewrite (H c) by (apply elem_of_cons; by left).
  destruct (is_move ids' c); cbv zeta; rewrite IH; try done; intros x Hx; apply H, elem_of_cons; by right.
Qed.
Lemma allot_none ids room l : (forall c, c ∈ l -> is_move ids c = false) -> allot ids room l = [].
Proof.
  induction l as [|c l IH]; intros H; cbn [allot]; [done|]. rewrite (H c) by (apply elem_of_cons; by left).
  apply IH. intros x Hx. apply H, elem_of_cons. by right.
Qed.

Section promise.
Context (ranked : list SpaceCandidate) (room : gmap str Z) (T : list str).
Context (Hids : NoDup (id <$> ranked)) (HT : NoDup T) (Hpos : forall c, c ∈ ranked -> 0 < bytes c).
Context (HTm : forall c, c ∈ ranked -> kind c = Move -> moveTargets c = Some T).

(** One move more that fits: the ones before it keep their drives. *)
Lemma all_placed_snoc l1 c l2 taken : ranked = l1 ++ c :: l2 -> kind c = Move -> (forall x, x ∈ taken -> x ∈ l1) ->
  all_placed (id <$> taken) room ranked -> move_fits ranked room c taken = true ->
  all_placed ((id <$> taken) ++ [id c]) room ranked.
Proof.
  intros E Hk Hl1 Hall Hfit. set (ids := (id <$> taken) ++ [id c]).
  assert (forall x, x ∈ l1 -> id x <> id c /\ (id x ∈ ids <-> id x ∈ id <$> taken)) as H1.
  { intros x Hx. assert (id x <> id c) as Hne.
    { intros Heq. rewrite E, fmap_app, fmap_cons in Hids. apply NoDup_app in Hids as (_ & Hd & _).
      apply (Hd (id x)); [by apply list_elem_of_fmap_2|rewrite Heq; apply elem_of_cons; by left]. }
    split; [done|]. unfold ids. rewrite elem_of_app, list_elem_of_singleton. tauto. }
  assert (forall x, x ∈ l2 -> id x ∉ ids) as H2.
  { intros x Hx Hin. rewrite E, fmap_app, fmap_cons in Hids. apply NoDup_app in Hids as (_ & Hd & Hn).
    apply NoDup_cons in Hn as [Hn _]. unfold ids in Hin. apply elem_of_app in Hin as [(y & Hy & Hyt)%list_elem_of_fmap|Hin].
    - apply (Hd (id x)); [rewrite Hy; by apply list_elem_of_fmap_2, Hl1|]. apply elem_of_cons. right. by apply list_elem_of_fmap_2.
    - apply list_elem_of_singleton in Hin. apply Hn. rewrite <-Hin. by apply list_elem_of_fmap_2. }
  assert (is_move ids c = true) as Hc.
  { unfold is_move, ids. rewrite !bool_decide_eq_true_2; [done|set_solver|done]. }
  unfold all_placed in *. rewrite E, allot_app in Hall |- *. apply Forall_app in Hall as [Hall _].
  assert (allot ids room l1 = allot (id <$> taken) room l1) as E1.
  { apply allot_ext. intros x Hx. unfold is_move. f_equal. apply bool_decide_ext. by apply H1. }
  apply Forall_app. rewrite E1. split; [done|]. cbn [allot]. rewrite Hc. cbv zeta.
  rewrite (allot_none ids _ l2) by (intros x Hx; unfold is_move; rewrite (bool_decide_eq_false_2 (id x ∈ ids)) by auto; apply andb_false_r).
  constructor; [|constructor]. cbn [snd]. unfold move_fits in Hfit. fold ids in Hfit.
  assert ((c, best_drive (rooms ids room l1) (bytes c) (moveTargets c ?? [])) ∈ allot ids room ranked) as Hin.
  { rewrite E, allot_app. apply elem_of_app. right. cbn [allot]. rewrite Hc. cbv zeta. apply elem_of_cons. by left. }
  unfold assignMoves in Hfit. rewrite (assign_allot _ _ _ _ _ _ Hids Hin) in Hfit.
  destruct (best_drive _ _ _); [by eexists|done].
Qed.

Lemma take_moves need l2 l1 taken sum : ranked = l1 ++ l2 -> (forall x, x ∈ taken -> x ∈ l1) ->
  all_placed (id <$> taken) room ranked ->
  all_placed (id <$> (take_until (move_fits ranked room) need (base.filter (fun c => kind c = Move) l2) taken sum).1) room ranked.
Proof.
  revert l1 taken sum. induction l2 as [|c l2 IH]; intros l1 taken sum E Hl1 Hall; [done|]. rewrite filter_cons.
  assert (forall taken sum, (forall x, x ∈ taken -> x ∈ l1 ++ [c]) -> all_placed (id <$> taken) room ranked ->
    all_placed (id <$> (take_until (move_fits ranked room) need (base.filter (fun c => kind c = Move) l2) taken sum).1) room ranked) as IH'.
  { intros tk sm. apply IH. by rewrite <-(assoc_L (++)). }
  assert (forall x, x ∈ taken -> x ∈ l1 ++ [c]) as Hl1' by (intros x Hx; apply elem_of_app; left; auto).
  case_decide as Hk; [|by apply IH']. cbn [take_until]. destruct (need <=? sum); [done|].
  destruct (move_fits ranked room c taken) eqn:Hf; cbn [negb]; [|by apply IH']. apply IH'.
  - intros x [Hx| ->%list_elem_of_singleton]%elem_of_app; [auto|set_solver].
  - rewrite fmap_app. by eapply all_placed_snoc.
Qed.

Lemma dominates_refl : dominates T room room.
Proof. by intros x. Qed.

Lemma pick_moves_placed need : all_placed (id <$> pick_kind ranked room Move need) room ranked.
Proof.
  assert (all_placed [] room ranked) as Hnil.
  { unfold all_placed. rewrite allot_none; [constructor|]. intros c _. unfold is_move.
    rewrite (bool_decide_eq_false_2 (id c ∈ [])) by apply not_elem_of_nil. apply andb_false_r. }
  unfold pick_kind. destruct (pickFromGroup_from (move_fits ranked room) (base.filter (fun c => kind c = Move) ranked) need)
    as [->|[(c & [Hk Hc]%list_elem_of_filter & Hf & ->)|Hs]]; [done|..].
  - apply list_elem_of_split in Hc as (l1 & l2 & E). apply (all_placed_snoc l1 c l2 []); try done. by intros x ?%elem_of_nil.
  - eapply (all_placed_fewer T HT); [exact HTm|exact Hpos| |apply dominates_refl|].
    2:{ apply (take_moves need ranked [] [] 0); [done|by intros ? ?%elem_of_nil|exact Hnil]. }
    intros i (x & -> & Hx)%list_elem_of_fmap. apply list_elem_of_fmap_2. by eapply elem_of_sublist.
Qed.
End promise.

Lemma pick_kinds_order ranked room need :
  let l := pick_kind ranked room Leftover need in
  let m := pick_kind ranked room Move (need - sum_bytes l) in
  let u := pick_kind ranked room Uninstall (need - sum_bytes l - sum_bytes m) in
  pick_kinds ranked room KIND_ORDER need = l ++ m ++ u.
Proof.
  assert (forall k n, n <= 0 -> pick_kind ranked room k n = []) as H0.
  { intros k n Hn. unfold pick_kind, pickFromGroup. replace (n <=? 0) with true by (symmetry; by apply Z.leb_le). by destruct k. }
  cbv zeta. unfold KIND_ORDER. cbn [pick_kinds].
  destruct (need <=? 0) eqn:E1; bool_prop.
  { rewrite (H0 Leftover) by done. cbn [sum_bytes foldr app]. rewrite (H0 Move) by lia. cbn [sum_bytes foldr app]. by rewrite (H0 Uninstall) by lia. }
  f_equal. destruct (need - sum_bytes _ <=? 0) eqn:E2; bool_prop.
  { rewrite (H0 Move) by done. cbn [sum_bytes foldr app]. by rewrite (H0 Uninstall) by lia. }
  f_equal. destruct (_ - sum_bytes _ <=? 0) eqn:E3; bool_prop; [by rewrite (H0 Uninstall)|]. by rewrite app_nil_r.
Qed.

Lemma pick_kind_sublist ranked room k need : (forall c, c ∈ ranked -> 0 < bytes c) ->
  pick_kind ranked room k need `sublist_of` base.filter (fun c => kind c = k) ranked.
Proof.
  intros Hpos. unfold pick_kind.
  assert (forall c, c ∈ base.filter (fun c => kind c = k) ranked -> 0 < bytes c) as H.
  { intros c [_ ?]%list_elem_of_filter. auto. }
  destruct k; apply pickFromGroup_spec; exact H.
Qed.

Lemma pick_kind_minimal ranked room k need : (forall c, c ∈ ranked -> 0 < bytes c) ->
  let p := pick_kind ranked room k need in need <= sum_bytes p -> forall c, c ∈ p -> sum_bytes p - bytes c < need.
Proof.
  intros Hpos. unfold pick_kind.
  assert (forall c, c ∈ base.filter (fun c => kind c = k) ranked -> 0 < bytes c) as H.
  { intros c [_ ?]%list_elem_of_filter. auto. }
  destruct k; apply pickFromGroup_spec; exact H.
Qed.

Lemma sum_bytes_perm l k : l ≡ₚ k -> sum_bytes l = sum_bytes k.
Proof. induction 1; simpl; lia. Qed.

Lemma picked_perm (l p : list SpaceCandidate) : NoDup (id <$> l) -> NoDup p -> (forall c, c ∈ p -> c ∈ l) ->
  base.filter (fun c => id c ∈ id <$> p) l ≡ₚ p.
Proof.
  intros Hl Hp Hin. apply NoDup_Permutation; [apply NoDup_filter; by apply NoDup_ids|done|].
  intros c. rewrite list_elem_of_filter. split.
  - intros [(x & Hx & Hxp)%list_elem_of_fmap Hc]. replace c with x; [done|].
    pose proof (Hin x Hxp) as Hxl. apply list_elem_of_lookup in Hxl as (i & Hi), Hc as (j & Hj).
    assert (i = j); [|congruence]. eapply (NoDup_lookup (id <$> l)); [done|..]; rewrite list_lookup_fmap, ?Hi, ?Hj; simpl; [done|by rewrite Hx].
  - intros Hc. split; [by apply list_elem_of_fmap_2|auto].
Qed.

Lemma steps_filtered (st : SpaceCandidate -> PlannedStep) (ids : list str) (g : PlannedStep -> bool) (l : list SpaceCandidate) :
  (forall c, candidate (st c) = c) -> (forall c, c ∈ l -> g (st c) = bool_decide (id c ∈ ids)) ->
  candidate <$> base.filter (fun s => g s = true) (st <$> l) = base.filter (fun c => id c ∈ ids) l.
Proof.
  intros Hst. induction l as [|c l IH]; intros Hg; [done|]. cbn [fmap list_fmap]. rewrite !filter_cons.
  rewrite (Hg c) by (apply elem_of_cons; by left).
  assert (candidate <$> base.filter (fun s => g s = true) (st <$> l) = base.filter (fun c => id c ∈ ids) l) as IH'.
  { apply IH. intros x Hx. apply Hg, elem_of_cons. by right. }
  case_bool_decide as Hi.
  - rewrite (decide_True (P := true = true)), (decide_True (P := id c ∈ ids)) by done. cbn [fmap list_fmap].
    rewrite Hst. f_equal. exact IH'.
  - rewrite (decide_False (P := false = true)), (decide_False (P := id c ∈ ids)) by done. exact IH'.
Qed.

Section proposal.
Context (input : SpacePlanInput) (T : list str).
Context (Hids : NoDup (id <$> candidates input)) (HT : NoDup T) (Hne : [] ∉ T)
  (HTm : forall c, c ∈ candidates input -> kind c = Move -> moveTargets c = Some T).

Local Abbreviation ranked := (ranked_of input).
Local Abbreviation l := (pick_kind ranked (destRoom input) Leftover (shortOf input)).
Local Abbreviation m := (pick_kind ranked (destRoom input) Move (shortOf input - sum_bytes l)).
Local Abbreviation u := (pick_kind ranked (destRoom input) Uninstall (shortOf input - sum_bytes l - sum_bytes m)).
Local Abbreviation sel := (l ++ m ++ u).
Local Abbreviation step := (step_of (assignMoves ranked (id <$> sel) (destRoom input)) (id <$> sel)).

Lemma ranked_pos c : c ∈ ranked -> 0 < bytes c.
Proof.
  intros [_ Hu]%elem_of_ranked. unfold isUsable in Hu. destruct (0 <? bytes c) eqn:E; [by apply Z.ltb_lt|done].
Qed.

Lemma picks_kind k need c : c ∈ pick_kind ranked (destRoom input) k need -> kind c = k /\ c ∈ ranked.
Proof.
  intros Hc. assert (c ∈ base.filter (fun c => kind c = k) ranked) as H; [|by apply list_elem_of_filter in H].
  eapply elem_of_sublist; [exact Hc|]. apply pick_kind_sublist, ranked_pos.
Qed.

Lemma picks_NoDup k need : NoDup (pick_kind ranked (destRoom input) k need).
Proof.
  eapply sublist_NoDup; [|apply pick_kind_sublist, ranked_pos]. apply NoDup_filter, NoDup_ids. by apply ranked_NoDup.
Qed.

Lemma sel_NoDup : NoDup sel.
Proof.
  apply NoDup_app. split_and!; [apply picks_NoDup| |apply NoDup_app; split_and!; [apply picks_NoDup| |apply picks_NoDup]].
  - intros c [H1 _]%picks_kind [[H2 _]%picks_kind|[H2 _]%picks_kind]%elem_of_app; congruence.
  - intros c [H1 _]%picks_kind [H2 _]%picks_kind. congruence.
Qed.

Lemma sel_ranked c : c ∈ sel -> c ∈ ranked.
Proof. intros [[_ ?]%picks_kind|[[_ ?]%picks_kind|[_ ?]%picks_kind]%elem_of_app]%elem_of_app; done. Qed.

Lemma sel_ids c : c ∈ ranked -> id c ∈ id <$> sel -> c ∈ sel.
Proof.
  intros Hc Hi. rewrite <-(picked_perm ranked sel (ranked_NoDup _ Hids) sel_NoDup sel_ranked). by apply list_elem_of_filter.
Qed.

(** A move of the picks gets a drive in the whole plan. *)
Lemma sel_move c : c ∈ ranked -> id c ∈ id <$> sel -> kind c = Move -> exists t, t ∈ T /\ dest (step c) = Some t.
Proof.
  intros Hc Hi Hk. pose proof (sel_ids c Hc Hi) as Hs.
  assert (forall c, c ∈ ranked -> kind c = Move -> moveTargets c = Some T) as HTr.
  { intros x [Hx _]%elem_of_ranked. by apply HTm. }
  pose proof (pick_moves_placed ranked (destRoom input) T (ranked_NoDup _ Hids) HT ranked_pos HTr
    (shortOf input - sum_bytes l)) as Hp.
  unfold all_placed in Hp. rewrite (allot_ext _ (id <$> sel)) in Hp.
  - destruct (allot_all (id <$> sel) (destRoom input) ranked c Hc) as [t Ht].
    { unfold is_move. by rewrite !bool_decide_eq_true_2. }
    rewrite Forall_forall in Hp. destruct (Hp _ Ht) as [t' E]. cbn [snd] in E. subst t. exists t'. split.
    + pose proof (allot_target _ _ _ _ _ Ht) as Hin. by rewrite (HTr c Hc Hk) in Hin.
    + apply dest_of_step; [by apply ranked_NoDup|done|done].
  - intros x Hx. unfold is_move. destruct (bool_decide (kind x = Move)) eqn:Ek; [|done].
    apply bool_decide_eq_true in Ek. cbn [andb]. apply bool_decide_ext. split.
    + rewrite !fmap_app, !elem_of_app. by right; left.
    + intros Hxi. pose proof (sel_ids x Hx Hxi) as Hxs. apply list_elem_of_fmap_2.
      apply elem_of_app in Hxs as [[? _]%picks_kind|[?|[? _]%picks_kind]%elem_of_app]; [congruence|done|congruence].
Qed.

Lemma sel_counts c : c ∈ ranked -> counts (step c) = bool_decide (id c ∈ id <$> sel).
Proof.
  intros Hc. unfold counts. change (selected (step c)) with (bool_decide (id c ∈ id <$> sel)).
  case_bool_decide as Hi; [|done]. cbn [andb]. unfold goes.
  destruct (decide (kind c = Move)) as [Hk|Hk].
  - destruct (sel_move c Hc Hi Hk) as ([|a t] & Ht & ->); [done|done].
  - cbn [dest step_of candidate]. rewrite !(bool_decide_eq_false_2 (kind c = Move)) by done. done.
Qed.

Lemma steps_in (g : PlannedStep -> bool) : (forall c, c ∈ ranked -> g (step c) = bool_decide (id c ∈ id <$> sel)) ->
  candidate <$> base.filter (fun s => g s = true) (step <$> ranked) ≡ₚ sel.
Proof.
  intros Hg. rewrite (steps_filtered _ (id <$> sel)) by done.
  exact (picked_perm ranked sel (ranked_NoDup _ Hids) sel_NoDup sel_ranked).
Qed.
End proposal.

(** The picks of a kind with no drive to choose cover what is needed, or are all there is; none costs room. *)
Lemma picks_cover input room k need : k <> Move -> let p := pick_kind (ranked_of input) room k need in
  need <= sum_bytes p \/ sum_bytes p = sum_bytes (base.filter (fun c => kind c = k) (ranked_of input)).
Proof.
  intros Hk. cbv zeta. assert (forall c, c ∈ base.filter (fun c => kind c = k) (ranked_of input) -> 0 < bytes c) as Hp.
  { intros c [_ Hc]%list_elem_of_filter. by apply (ranked_pos input). }
  destruct (pickFromGroup_spec (fun _ _ => true) (base.filter (fun c => kind c = k) (ranked_of input)) need Hp) as (_ & _ & _ & H).
  unfold pick_kind. destruct k; [|done|]; destruct (H (fun _ _ => eq_refl)) as [?|E]; auto; right; by rewrite E.
Qed.
Lemma picks_nonneg input k need : let room := destRoom input in 0 <= sum_bytes (pick_kind (ranked_of input) room k need).
Proof.
  intros room. assert (forall c, c ∈ pick_kind (ranked_of input) room k need -> 0 < bytes c) as Hp.
  { intros c [_ Hc]%picks_kind. by apply (ranked_pos input). }
  induction (pick_kind (ranked_of input) room k need) as [|c q IH]; simpl; [lia|].
  assert (0 < bytes c) by (apply Hp, elem_of_cons; by left).
  assert (0 <= sum_bytes q) by (apply IH; intros x Hx; apply Hp, elem_of_cons; by right). unfold sum_bytes in *. lia.
Qed.

(** C18: what the planner proposes is what it says: its picks are leftovers, then moves, then
    uninstalls that can be installed again, and none when the game already fits; every move
    proposed has a drive to go to, so all that is ticked counts; in each group that covers what is
    left to free, no pick could be left out; and when the leftovers and uninstalls together would
    free enough, the plan is enough. (The moves may all go to the same drives, as the candidates of
    one drive do.) *)
Theorem planSpace_keeps_its_promise input T
  (Hids : NoDup (id <$> candidates input)) (HT : NoDup T) (Hne : [] ∉ T)
  (HTm : forall c, c ∈ candidates input -> kind c = Move -> moveTargets c = Some T) :
  let plan := planSpace input in
  let usable k := sum_bytes (base.filter (fun c => kind c = k) (ranked_of input)) in
  (exists l m u,
     candidate <$> base.filter (fun s => selected s = true) (steps plan) ≡ₚ l ++ m ++ u
     /\ Forall (fun c => kind c = Leftover) l /\ Forall (fun c => kind c = Move) m
     /\ Forall (fun c => kind c = Uninstall /\ hasCopy c = Some true) u
     /\ (shortOf input <= 0 -> l ++ m ++ u = [])
     /\ (shortOf input <= sum_bytes l -> forall c, c ∈ l -> sum_bytes l - bytes c < shortOf input)
     /\ (shortOf input - sum_bytes l <= sum_bytes m -> forall c, c ∈ m -> sum_bytes m - bytes c < shortOf input - sum_bytes l)
     /\ (shortOf input - sum_bytes l - sum_bytes m <= sum_bytes u -> forall c, c ∈ u ->
           sum_bytes u - bytes c < shortOf input - sum_bytes l - sum_bytes m)
     /\ freedBytes plan = sum_bytes l + sum_bytes m + sum_bytes u)
  /\ (forall s, s ∈ steps plan -> selected s = true -> counts s = true)
  /\ (shortOf input <= usable Leftover + usable Uninstall -> enough plan = true).
Proof.
  cbv zeta. unfold planSpace. rewrite pick_kinds_order. cbv zeta.
  set (r := ranked_of input). set (room := destRoom input). set (n := shortOf input).
  set (l := pick_kind r room Leftover n). set (m := pick_kind r room Move (n - sum_bytes l)).
  set (u := pick_kind r room Uninstall (n - sum_bytes l - sum_bytes m)).
  pose proof (sel_counts input T Hids HT Hne HTm) as Hcounts.
  pose proof (steps_in input Hids) as Hsteps. fold r room n in Hcounts, Hsteps. fold l in Hcounts, Hsteps.
  fold m in Hcounts, Hsteps. fold u in Hcounts, Hsteps.
  cbn [planWithSelection steps freedBytes enough]. fold r room. set (step := step_of _ _) in *.
  assert (freed : foldr (fun s k => bytes (candidate s) + k) 0 (base.filter (fun s => counts s = true) (step <$> r))
    = sum_bytes l + sum_bytes m + sum_bytes u).
  { transitivity (sum_bytes (candidate <$> base.filter (fun s => counts s = true) (step <$> r))).
    - unfold sum_bytes. induction (base.filter _ _) as [|s q IH]; simpl; [done|]. by rewrite IH.
    - rewrite (sum_bytes_perm _ _ (Hsteps counts Hcounts)), !sum_bytes_app. lia. }
  split_and!.
  - exists l, m, u. split_and!; try (apply pick_kind_minimal, ranked_pos).
    + by apply Hsteps.
    + apply Forall_forall. by intros c [? _]%picks_kind.
    + apply Forall_forall. by intros c [? _]%picks_kind.
    + apply Forall_forall. intros c [Hk [_ Hu]%elem_of_ranked]%picks_kind. split; [done|].
      unfold isUsable in Hu. rewrite Hk in Hu. destruct (negb _); [done|]. by apply bool_decide_eq_true in Hu.
    + intros Hn. pose proof (pick_kinds_order r room n) as E. cbv zeta in E. fold l m u in E. rewrite <-E.
      unfold KIND_ORDER. cbn [pick_kinds]. by replace (n <=? 0) with true by (symmetry; by apply Z.leb_le).
    + exact freed.
  - intros s (c & -> & Hc)%list_elem_of_fmap Hsel. rewrite Hcounts by done. exact Hsel.
  - intros Husable. apply Z.eqb_eq. fold n. rewrite freed.
    pose proof (fun k need => picks_cover input room k need) as Hcov. pose proof (fun k need => picks_nonneg input k need) as Hge. cbv zeta in Hge. fold r room in Hcov, Hge.
    pose proof (Hcov Leftover n ltac:(done)) as H1. pose proof (Hcov Uninstall (n - sum_bytes l - sum_bytes m) ltac:(done)) as H2.
    pose proof (Hge Move (n - sum_bytes l)) as H3. pose proof (Hge Uninstall (n - sum_bytes l - sum_bytes m)) as H4.
    pose proof (Hge Leftover n) as H5. cbv zeta in H1, H2. fold l in H1, H5. fold m in H3. fold u in H2, H4. lia.
Qed.

(** * A drive to make room on *)

Definition w_candidate (i : string) (k : SpaceStepKind) (n : Z) (targets : option (list str)) : SpaceCandidate :=
  {| id := js i; kind := k; label := js i; titleId := None; bytes := n; lastPlayedMs := None; hasCopy := Some true;
     moveTargets := targets; cleanupId := Some 1; path := None |}.
Definition w_targets : list str := [js "/mnt/usb0"; js "/mnt/usb1"].
Definition w_input : SpacePlanInput := {|
  neededBytes := 100; roomBytes := 60;
  candidates := [w_candidate "u" Uninstall 30 None; w_candidate "m1" Move 12 (Some w_targets);
                 w_candidate "l" Leftover 4 None; w_candidate "m2" Move 9 (Some w_targets);
                 w_candidate "m3" Move 8 (Some w_targets)];
  destRoom := {[ js "/mnt/usb0" := 13; js "/mnt/usb1" := 10 ]}; nowMs := 0 |}.

Lemma w_ids_NoDup : NoDup (id <$> candidates w_input).
Proof. apply (bool_decide_unpack _). vm_compute. exact I. Qed.

Lemma moves_never_overfill_witness :
  let plan := planWithSelection w_input (js <$> ["m1"; "m2"; "m3"]%string) in
  dest <$> steps plan = [None; Some (js "/mnt/usb0"); Some (js "/mnt/usb1"); None; None]
  /\ sum_bytes (candidate <$> base.filter (fun s => dest s = Some (js "/mnt/usb0")) (steps plan))
     <= Z.max 0 (room_at (destRoom w_input) (js "/mnt/usb0")).
Proof.
  cbv zeta. split; [vm_compute; reflexivity|].
  exact (proj1 (moves_never_overfill w_input (js <$> ["m1"; "m2"; "m3"]%string) (js "/mnt/usb0") w_ids_NoDup)).
Defined.

Lemma planSpace_keeps_its_promise_witness :
  let plan := planSpace w_input in
  (fun s => id (candidate s)) <$> base.filter (fun s => selected s = true) (steps plan)
    = js <$> ["l"; "m1"; "m2"; "u"]%string
  /\ freedBytes plan = 55
  /\ (forall s, s ∈ steps plan -> selected s = true -> counts s = true).
Proof.
  cbv zeta. split_and!; [vm_compute; reflexivity|vm_compute; reflexivity|].
  destruct (planSpace_keeps_its_promise w_input w_targets w_ids_NoDup) as (_ & H & _); [..|exact H].
  - apply (bool_decide_unpack _). vm_compute. exact I.
  - apply (bool_decide_unpack _). vm_compute. exact I.
  - intros c Hc. repeat (apply elem_of_cons in Hc as [->|Hc]; [done|]). by apply elem_of_nil in Hc.
Defined.
