(* ===== verification/LibraryMove.v ===== *)
(** A Games-row Move (client/src/state/libraryMove.ts): the console copies an entry, then the source is
    removed. The store holds a state per console and entry. [runLibraryMove] is three activities at once
    - the copy and removal, a progress reader, a watcher for Stop - each cut at its awaits; [exec]
    interleaves the pieces of any number of runs with Stop and Dismiss. A run keeps the calls it made and
    their answers ([did]). *)
From S2P Require Import Prelude Addr Semver.

(** * Data *)

Inductive LibraryMovePhase := Copying | Deleting | Done | Cancelled | CopyFailed | DeleteFailed.
#[export] Instance phase_eq_dec : EqDecision LibraryMovePhase.
Proof. solve_decision. Defined.
Record LibraryMoveState := {
  phase : LibraryMovePhase; from : str; to : str; bytesCopied : Z; totalBytes : Z; error : option str;
  progressUnsupported : option str; stopRequested : bool; startedAtMs : Z }.
#[export] Instance settable_state : Settable LibraryMoveState := fun s => {|
  phase := phase s; from := from s; to := to s; bytesCopied := bytesCopied s; totalBytes := totalBytes s; error := error s;
  progressUnsupported := progressUnsupported s; stopRequested := stopRequested s; startedAtMs := startedAtMs s |}.
Record LibraryMoveRequest := { r_host : str; r_addr : str; r_from : str; r_to : str; r_payloadVersion : option str }.

(** The calls of a run, and how they were answered. *)
Inductive Obs :=
| CopyAsked | CopyAnswered (e : option str)
| CancelAsked
| DeleteAsked | DeleteAnswered (e : option str).
(** Where the three activities are. *)
Inductive Poller := PSleep | PAsk | PDone.
Inductive Watcher := WSleep | WAsk | WDone.
Inductive Main := MCopy | MSettle (e : option str) | MDelete | MEnd.
Record Run := {
  req : LibraryMoveRequest; opId : Z; copyDone : bool; failures : Z;
  poller : Poller; watcher : Watcher; main : Main; did : list Obs }.
#[export] Instance settable_run : Settable Run := fun r => {|
  req := req r; opId := opId r; copyDone := copyDone r; failures := failures r; poller := poller r; watcher := watcher r;
  main := main r; did := did r |}.
Record World := { byKey : gmap str LibraryMoveState; runs : list Run }.

(** * Operations *)

Definition libraryMoveKey (host from : str) : str := hostOf host ++ js ":" ++ from.
Definition key_of (r : Run) : str := libraryMoveKey (r_host (req r)) (r_from (req r)).
Definition libraryMove (w : World) (key : str) : option LibraryMoveState := byKey w !! key.
Definition moveRetryDest (m : option LibraryMoveState) : option str :=
  match m with
  | Some s => if bool_decide (phase s = Cancelled) || bool_decide (phase s = CopyFailed) then Some (to s) else None
  | None => None
  end.
Definition running (m : option LibraryMoveState) : bool :=
  match m with Some s => bool_decide (phase s = Copying) || bool_decide (phase s = Deleting) | None => false end.

Definition set_run (k : nat) (r : Run) (w : World) : World := {| byKey := byKey w; runs := <[k := r]> (runs w) |}.
(** [store.put] on an entry that is there. *)
Definition put (key : str) (f : LibraryMoveState -> LibraryMoveState) (w : World) : World :=
  {| byKey := alter f key (byKey w); runs := runs w |}.

(** Up to the first awaits: the reader and the watcher sleep, the copy is asked for. *)
Definition runLibraryMove (req : LibraryMoveRequest) (opId now : Z) (w : World) : World :=
  let key := libraryMoveKey (r_host req) (r_from req) in
  if running (libraryMove w key) then w else
  {| byKey := <[key := {| phase := Copying; from := r_from req; to := r_to req; bytesCopied := 0; totalBytes := 0; error := None;
                          progressUnsupported := None; stopRequested := false; startedAtMs := now |}]> (byKey w);
     runs := runs w ++ [{| req := req; opId := opId; copyDone := false; failures := 0; poller := PSleep; watcher := WSleep;
                           main := MCopy; did := [CopyAsked] |}] |}.

(** [while (!copyDone)], at its test. *)
Definition poller_wakes (k : nat) (r : Run) (w : World) : World :=
  set_run k (r <| poller := if copyDone r then PDone else PAsk |>) w.
Definition status_answers (a : (Z * Z) + str) (k : nat) (r : Run) (w : World) : World :=
  match a with
  | inl (bytes, total) =>
      let r := r <| failures := 0 |> in
      if copyDone r then set_run k (r <| poller := PDone |>) w
      else set_run k (r <| poller := PSleep |>) (put (key_of r) (fun s => s <| bytesCopied := bytes |> <| totalBytes := total |>) w)
  | inr msg =>
      if isExpectedNotInFlight msg then set_run k (r <| poller := PSleep |>) w else
      let n := failures r + 1 in
      let r := r <| failures := n |> in
      match classifyMovePollError (r_payloadVersion (req r)) msg n with
      | PStopOldPayload t => set_run k (r <| poller := PDone |>) (put (key_of r) (fun s => s <| progressUnsupported := Some t |>) w)
      | PStopSilent => set_run k (r <| poller := PDone |>) w
      | PRetry => set_run k (r <| poller := PSleep |>) w
      end
  end.
Definition watcher_wakes (k : nat) (r : Run) (w : World) : World :=
  if copyDone r then set_run k (r <| watcher := WDone |>) w
  else if match libraryMove w (key_of r) with Some s => stopRequested s | None => false end
  then set_run k (r <| watcher := WAsk |> <| did := did r ++ [CancelAsked] |>) w
  else set_run k (r <| watcher := WSleep |>) w.
Definition copy_answers (e : option str) (k : nat) (r : Run) (w : World) : World :=
  set_run k (r <| copyDone := true |> <| main := MSettle e |> <| did := did r ++ [CopyAnswered e] |>) w.
Definition ends (f : LibraryMoveState -> LibraryMoveState) (k : nat) (r : Run) (w : World) : World :=
  set_run k (r <| main := MEnd |>) (put (key_of r) f w).
(** [Promise.allSettled([poller, stopWatcher])], and what follows it. *)
Definition settled (e : option str) (k : nat) (r : Run) (w : World) : World :=
  match e with
  | Some msg =>
      ends (if includes (js "cancelled") msg then fun s => s <| phase := Cancelled |> <| error := None |>
            else fun s => s <| phase := CopyFailed |> <| error := Some msg |>) k r w
  | None => set_run k (r <| main := MDelete |> <| did := did r ++ [DeleteAsked] |>) (put (key_of r) (fun s => s <| phase := Deleting |>) w)
  end.
Definition delete_answers (e : option str) (k : nat) (r : Run) (w : World) : World :=
  let r := r <| did := did r ++ [DeleteAnswered e] |> in
  match e with
  | Some msg => ends (fun s => s <| phase := DeleteFailed |> <| error := Some msg |>) k r w
  | None => ends (fun s => s <| phase := Done |> <| error := None |>) k r w
  end.
Definition stopLibraryMove (key : str) (w : World) : World :=
  match libraryMove w key with
  | Some s => if bool_decide (phase s = Copying) then put key (fun s => s <| stopRequested := true |>) w else w
  | None => w
  end.
Definition dismissLibraryMove (key : str) (w : World) : World :=
  if running (libraryMove w key) then w else {| byKey := delete key (byKey w); runs := runs w |}.

Inductive Event :=
| EMove (req : LibraryMoveRequest) (opId now : Z)
| EPollerWakes (k : nat)
| EStatus (k : nat) (a : (Z * Z) + str)
| EWatcherWakes (k : nat)
| ECancelled (k : nat)
| ECopy (k : nat) (e : option str)
| ESettled (k : nat)
| EDelete (k : nat) (e : option str)
| EStop (key : str)
| EDismiss (key : str).

(** An activity hears only what it awaits. *)
Definition exec (ev : Event) (w : World) : option World :=
  match ev with
  | EMove q o n => Some (runLibraryMove q o n w)
  | EPollerWakes k => r ← runs w !! k; match poller r with PSleep => Some (poller_wakes k r w) | _ => None end
  | EStatus k a => r ← runs w !! k; match poller r with PAsk => Some (status_answers a k r w) | _ => None end
  | EWatcherWakes k => r ← runs w !! k; match watcher r with WSleep => Some (watcher_wakes k r w) | _ => None end
  | ECancelled k => r ← runs w !! k; match watcher r with WAsk => Some (set_run k (r <| watcher := WDone |>) w) | _ => None end
  | ECopy k e => r ← runs w !! k; match main r with MCopy => Some (copy_answers e k r w) | _ => None end
  | ESettled k =>
      r ← runs w !! k;
      match main r, poller r, watcher r with MSettle e, PDone, WDone => Some (settled e k r w) | _, _, _ => None end
  | EDelete k e => r ← runs w !! k; match main r with MDelete => Some (delete_answers e k r w) | _ => None end
  | EStop key => Some (stopLibraryMove key w)
  | EDismiss key => Some (dismissLibraryMove key w)
  end.
Definition step (w w' : World) : Prop := exists ev, exec ev w = Some w'.
Definition no_moves : World := {| byKey := ∅; runs := [] |}.
Definition reachable (w : World) : Prop := rtc step no_moves w.

(** * The invariant *)

Definition is_cancel (o : Obs) : bool := match o with CancelAsked => true | _ => false end.
(** What a run did, apart from asking to stop. *)
Definition told (r : Run) : list Obs := List.filter (fun o => negb (is_cancel o)) (did r).
(** What the store is to say of a run. *)
Definition outcome (r : Run) : LibraryMovePhase * option str :=
  match main r, told r with
  | MDelete, _ => (Deleting, None)
  | MEnd, [_; CopyAnswered (Some msg)] => if includes (js "cancelled") msg then (Cancelled, None) else (CopyFailed, Some msg)
  | MEnd, [_; _; _; DeleteAnswered (Some msg)] => (DeleteFailed, Some msg)
  | MEnd, _ => (Done, None)
  | _, _ => (Copying, None)
  end.
(** The rest of a run's calls after the copy was asked for and at most one Stop was sent. *)
Definition rest_ok (r : Run) (rest : list Obs) : Prop :=
  match main r with
  | MCopy => copyDone r = false /\ rest = []
  | MSettle e => copyDone r = true /\ rest = [CopyAnswered e]
  | MDelete => copyDone r = true /\ poller r = PDone /\ watcher r = WDone /\ rest = [CopyAnswered None; DeleteAsked]
  | MEnd => copyDone r = true /\ poller r = PDone /\ watcher r = WDone /\
      ((exists msg, rest = [CopyAnswered (Some msg)]) \/ exists e, rest = [CopyAnswered None; DeleteAsked; DeleteAnswered e])
  end.
Record run_ok (r : Run) : Prop := {
  ok_did : exists c rest, (c <= 1)%nat /\ (watcher r = WSleep -> c = 0%nat) /\ did r = CopyAsked :: repeat CancelAsked c ++ rest /\ rest_ok r rest;
  ok_failures : 0 <= failures r <= CONSECUTIVE_FAILURE_LIMIT;
  ok_gives_up : failures r = CONSECUTIVE_FAILURE_LIMIT -> poller r = PDone
}.
Definition says (r : Run) (s : LibraryMoveState) : Prop :=
  from s = r_from (req r) /\ to s = r_to (req r) /\ (phase s, error s) = outcome r.
(** No later run moves this entry. *)
Definition latest (w : World) (k : nat) (key : str) : Prop := forall j r, runs w !! j = Some r -> key_of r = key -> (j <= k)%nat.
Record Inv (w : World) : Prop := {
  inv_run : forall k r, runs w !! k = Some r -> run_ok r;
  inv_says : forall key s, byKey w !! key = Some s -> exists k r, runs w !! k = Some r /\ key_of r = key /\ says r s /\ latest w k key;
  inv_active : forall k r, runs w !! k = Some r -> main r <> MEnd -> exists s, byKey w !! key_of r = Some s /\ says r s /\ latest w k (key_of r);
  inv_one : forall j k r r', runs w !! j = Some r -> runs w !! k = Some r' -> main r <> MEnd -> main r' <> MEnd ->
    key_of r = key_of r' -> j = k
}.

Lemma latest_set w k r r' b i key : runs w !! k = Some r -> key_of r' = key_of r -> latest w i key ->
  latest {| byKey := b; runs := <[k := r']> (runs w) |} i key.
Proof.
  intros Hk Hkey Hl j x. simpl. intros [(<- & -> & _)|[_ Hx]]%list_lookup_insert_Some; [intros E; apply (Hl k r Hk); congruence|by apply Hl].
Qed.
(** A piece of an active run. *)
Lemma Inv_set w k r r' b : Inv w -> runs w !! k = Some r -> main r <> MEnd -> run_ok r' -> req r' = req r ->
  (forall key, key <> key_of r -> b !! key = byKey w !! key) -> (exists s, b !! key_of r = Some s /\ says r' s) ->
  Inv {| byKey := b; runs := <[k := r']> (runs w) |}.
Proof.
  intros [Hrun Hsays Hact Hone] Hk Hm Hok Hreq Hb (s & Hs & Hsay).
  assert (key_of r' = key_of r) as Hkey by (unfold key_of; by rewrite Hreq).
  pose proof (lookup_lt_Some _ _ _ Hk) as Hlt. destruct (Hact k r Hk Hm) as (_ & _ & _ & Hlat).
  assert (forall j x, <[k := r']> (runs w) !! j = Some x -> (j = k /\ x = r') \/ (j <> k /\ runs w !! j = Some x)) as Hcase.
  { intros j x. destruct (decide (j = k)) as [->|Hjk]; [rewrite list_lookup_insert_eq by done|rewrite list_lookup_insert_ne by done]; [intros [= <-]; by left|by right]. }
  split; simpl.
  - intros j x [[-> ->]|[_ Hx]]%Hcase; [done|by eapply Hrun].
  - intros key s' Hs'. destruct (decide (key = key_of r)) as [->|Hne].
    + exists k, r'. split; [by apply list_lookup_insert_eq|]. split; [done|]. split; [congruence|by eapply latest_set].
    + rewrite Hb in Hs' by done. destruct (Hsays _ _ Hs') as (j & x & Hj & Hjk & Hx & Hl). exists j, x.
      split; [|split_and!; [done|done|by eapply latest_set]]. rewrite list_lookup_insert_ne; [done|]. intros ->. congruence.
  - intros j x [[-> ->]|[Hjk Hx]]%Hcase Hmx; [exists s; rewrite Hkey; split_and!; [done|done|by eapply latest_set]|].
    destruct (Hact j x Hx Hmx) as (s' & Hs' & Hsay' & Hl'). exists s'. split; [|split; [done|by eapply latest_set]]. rewrite Hb; [done|]. intros E.
    apply Hjk. by eapply Hone.
  - intros i j x y Hi Hj Hx Hy E. apply Hcase in Hi as [[-> ->]|[Hik Hi]], Hj as [[-> ->]|[Hjk Hj]]; [done| | |by eapply Hone].
    + rewrite Hkey in E. by eapply Hone.
    + rewrite Hkey in E. by eapply Hone.
Qed.
Lemma told_did r c rest : did r = CopyAsked :: repeat CancelAsked c ++ rest -> told r = CopyAsked :: List.filter (fun o => negb (is_cancel o)) rest.
Proof.
  intros E. unfold told. rewrite E. clear E. simpl. f_equal. induction c as [|c IH]; [done|]. simpl. exact IH.
Qed.
(** The parts of an active run that the store does not show. *)
Lemma outcome_active r r' : main r <> MEnd -> main r' = main r -> outcome r' = outcome r.
Proof. unfold outcome. intros Hm ->. by destruct (main r). Qed.

Lemma says_same r r' s s' : says r s -> main r <> MEnd -> main r' = main r -> req r' = req r ->
  from s' = from s -> to s' = to s -> phase s' = phase s -> error s' = error s -> says r' s'.
Proof.
  intros (H1 & H2 & H3) Hm Hm' Hr E1 E2 E3 E4. unfold says. rewrite (outcome_active r r') by done.
  rewrite Hr. split_and!; congruence.
Qed.
(** A piece that changes neither the phase nor the error. *)
Lemma Inv_quiet w k r r' f : Inv w -> runs w !! k = Some r -> main r <> MEnd -> run_ok r' -> req r' = req r -> main r' = main r ->
  (forall s, from (f s) = from s /\ to (f s) = to s /\ phase (f s) = phase s /\ error (f s) = error s) ->
  Inv (set_run k r' (put (key_of r) f w)).
Proof.
  intros Hinv Hk Hm Hok Hreq Hm' Hf. destruct (inv_active _ Hinv k r Hk Hm) as (s & Hs & Hsay & _).
  apply (Inv_set w k r r' (alter f (key_of r) (byKey w))); [done..| |].
  - intros key Hne. simpl. by rewrite lookup_alter_ne.
  - exists (f s). split; [simpl; by rewrite lookup_alter_eq, Hs|]. destruct (Hf s) as (E1 & E2 & E3 & E4). by eapply says_same.
Qed.
Lemma alter_id_same {A} (key : str) (m : gmap str A) : alter (fun x => x) key m = m.
Proof. by apply alter_id. Qed.
Lemma Inv_still w k r r' : Inv w -> runs w !! k = Some r -> main r <> MEnd -> run_ok r' -> req r' = req r -> main r' = main r ->
  Inv (set_run k r' w).
Proof.
  intros Hinv Hk Hm Hok Hreq Hm'. pose proof (Inv_quiet w k r r' (fun s => s) Hinv Hk Hm Hok Hreq Hm' ltac:(done)) as H.
  unfold set_run, put in *. simpl in *. by rewrite alter_id_same in H.
Qed.
(** While the reader or the watcher is not over, the copy is not settled. *)
Lemma active_watch r : run_ok r -> poller r <> PDone \/ watcher r <> WDone -> main r <> MEnd /\ main r <> MDelete.
Proof.
  intros [(c & rest & _ & _ & _ & Hr) _ _] Hw. unfold rest_ok in Hr.
  destruct (main r); [done|done|destruct Hr as (_ & Hp & Hwt & _)|destruct Hr as (_ & Hp & Hwt & _)]; rewrite Hp, Hwt in Hw; naive_solver.
Qed.
(** What the reader alone changes. *)
Lemma run_ok_poller r r' : run_ok r -> main r <> MEnd /\ main r <> MDelete -> main r' = main r -> copyDone r' = copyDone r ->
  did r' = did r -> watcher r' = watcher r -> 0 <= failures r' <= CONSECUTIVE_FAILURE_LIMIT ->
  (failures r' = CONSECUTIVE_FAILURE_LIMIT -> poller r' = PDone) -> run_ok r'.
Proof.
  intros [(c & rest & Hc & Hw & Hd & Hr) _ _] [Hm1 Hm2] E1 E2 E3 E4 Hf Hg. split; [|done|done].
  exists c, rest. rewrite E4, E3. split; [done|]. split; [done|]. split; [done|]. unfold rest_ok in *. rewrite E1, E2. by destruct (main r).
Qed.
Lemma Inv_poller_wakes w k r : Inv w -> runs w !! k = Some r -> poller r = PSleep -> Inv (poller_wakes k r w).
Proof.
  intros Hinv Hk Hp. pose proof (inv_run _ Hinv _ _ Hk) as Hok.
  destruct (active_watch r Hok ltac:(left; by rewrite Hp)) as [Hm1 Hm2].
  apply (Inv_still w k r); try done. eapply run_ok_poller; try done; [by apply Hok|].
  intros Hf. pose proof (ok_gives_up _ Hok Hf). congruence.
Qed.
Lemma Inv_status w k r a : Inv w -> runs w !! k = Some r -> poller r = PAsk -> Inv (status_answers a k r w).
Proof.
  intros Hinv Hk Hp. pose proof (inv_run _ Hinv _ _ Hk) as Hok.
  destruct (active_watch r Hok ltac:(left; by rewrite Hp)) as [Hm1 Hm2].
  assert (failures r <> CONSECUTIVE_FAILURE_LIMIT) as Hlt by (intros Hf; pose proof (ok_gives_up _ Hok Hf); congruence).
  pose proof (ok_failures _ Hok) as Hf. unfold CONSECUTIVE_FAILURE_LIMIT in *. destruct a as [[bytes total]|msg]; simpl.
  - case_match.
    + apply (Inv_still w k r); try done. by eapply run_ok_poller; try done.
    + apply (Inv_quiet w k r); try done. by eapply run_ok_poller; try done.
  - case_match; [apply (Inv_still w k r); try done; by eapply run_ok_poller; try done|].
    destruct (classifyMovePollError (r_payloadVersion (req r)) msg (failures r + 1)) as [| |t] eqn:E.
    + apply (Inv_still w k r); try done. eapply run_ok_poller; try done; simpl; unfold CONSECUTIVE_FAILURE_LIMIT; [lia|].
      intros Hn. exfalso. by apply (classify_gives_up (r_payloadVersion (req r)) msg (failures r + 1)); [rewrite Hn|].
    + apply (Inv_still w k r); try done. eapply run_ok_poller; try done; simpl; unfold CONSECUTIVE_FAILURE_LIMIT; lia.
    + apply (Inv_quiet w k r); try done. eapply run_ok_poller; try done; simpl; unfold CONSECUTIVE_FAILURE_LIMIT; lia.
Qed.

Lemma main_cases r rest : rest_ok r rest -> main r <> MEnd /\ main r <> MDelete ->
  (main r = MCopy /\ copyDone r = false /\ rest = []) \/ (exists e, main r = MSettle e /\ copyDone r = true /\ rest = [CopyAnswered e]).
Proof. unfold rest_ok. intros Hr [H1 H2]. destruct (main r) as [|e| |]; [by left|right; by exists e|done|done]. Qed.
Lemma Inv_watcher_wakes w k r : Inv w -> runs w !! k = Some r -> watcher r = WSleep -> Inv (watcher_wakes k r w).
Proof.
  intros Hinv Hk Hp. pose proof (inv_run _ Hinv _ _ Hk) as Hok.
  destruct (active_watch r Hok ltac:(right; by rewrite Hp)) as [Hm1 Hm2].
  destruct Hok as [(c & rest & Hc & Hw & Hd & Hr) Hf Hg]. specialize (Hw Hp) as ->.
  pose proof (main_cases _ _ Hr (conj Hm1 Hm2)) as Hcase.
  assert (forall r', main r' = main r -> copyDone r' = copyDone r -> rest_ok r' rest) as Hrest.
  { intros r' E1 E2. unfold rest_ok. rewrite E1, E2. destruct Hcase as [(-> & Hx)|(e & -> & Hx)]; exact Hx. }
  unfold watcher_wakes. destruct (copyDone r) eqn:Ed; [|destruct (libraryMove w (key_of r)) as [s|] eqn:Es; [destruct (stopRequested s)|]].
  - apply (Inv_still w k r); try done. split; [|done|done]. exists 0%nat, rest. split_and!; [lia|done|done|]. by apply Hrest.
  - apply (Inv_still w k r); try done. split; [|done|done]. exists 1%nat, rest. split_and!; [lia|done| |by apply Hrest].
    simpl. rewrite Hd. destruct Hcase as [(_ & _ & ->)|(e & _ & Hx & _)]; [done|congruence].
  - apply (Inv_still w k r); try done. split; [|done|done]. exists 0%nat, rest. split_and!; [lia|done|done|]. by apply Hrest.
  - apply (Inv_still w k r); try done. split; [|done|done]. exists 0%nat, rest. split_and!; [lia|done|done|]. by apply Hrest.
Qed.
Lemma Inv_cancelled w k r : Inv w -> runs w !! k = Some r -> watcher r = WAsk -> Inv (set_run k (r <| watcher := WDone |>) w).
Proof.
  intros Hinv Hk Hp. pose proof (inv_run _ Hinv _ _ Hk) as Hok.
  destruct (active_watch r Hok ltac:(right; by rewrite Hp)) as [Hm1 Hm2].
  destruct Hok as [(c & rest & Hc & Hw & Hd & Hr) Hf Hg].
  apply (Inv_still w k r); try done. split; [|done|done]. exists c, rest. split_and!; [done|done|done|].
  unfold rest_ok in *. simpl. by destruct (main r).
Qed.
Lemma Inv_copy w k r e : Inv w -> runs w !! k = Some r -> main r = MCopy -> Inv (copy_answers e k r w).
Proof.
  intros Hinv Hk Hm. pose proof (inv_run _ Hinv _ _ Hk) as Hok.
  destruct Hok as [(c & rest & Hc & Hw & Hd & Hr) Hf Hg]. unfold rest_ok in Hr. rewrite Hm in Hr. destruct Hr as [_ ->].
  destruct (inv_active _ Hinv k r Hk ltac:(by rewrite Hm)) as (s & Hs & (H1 & H2 & H3) & _).
  apply (Inv_set w k r _ (byKey w)); [done|done|by rewrite Hm| |done|done|].
  - split; [|done|done]. exists c, [CopyAnswered e]. split_and!; [done|done| |done]. simpl. rewrite Hd, app_nil_r. done.
  - exists s. split; [done|]. split_and!; [done|done|]. rewrite H3. unfold outcome. by rewrite Hm.
Qed.
(** The run's last pieces: the store says what they came to. *)
Lemma Inv_end w k r r' f : Inv w -> runs w !! k = Some r -> main r <> MEnd -> run_ok r' -> req r' = req r ->
  (forall s, says r s -> says r' (f s)) -> Inv (set_run k r' (put (key_of r) f w)).
Proof.
  intros Hinv Hk Hm Hok Hreq Hf. destruct (inv_active _ Hinv k r Hk Hm) as (s & Hs & Hsay & _).
  apply (Inv_set w k r r' (alter f (key_of r) (byKey w))); [done..| |].
  - intros key Hne. by rewrite lookup_alter_ne.
  - exists (f s). split; [by rewrite lookup_alter_eq, Hs|]. by apply Hf.
Qed.
Lemma Inv_settled w k r e : Inv w -> runs w !! k = Some r -> main r = MSettle e -> poller r = PDone -> watcher r = WDone ->
  Inv (settled e k r w).
Proof.
  intros Hinv Hk Hm Hp Hwt. pose proof (inv_run _ Hinv _ _ Hk) as Hok.
  destruct Hok as [(c & rest & Hc & Hw & Hd & Hr) Hf Hg]. unfold rest_ok in Hr. rewrite Hm in Hr. destruct Hr as [Hcd ->].
  unfold settled. destruct e as [msg|].
  - unfold ends. apply Inv_end; [done|done|by rewrite Hm| |done|].
    + split; [|done|done]. exists c, [CopyAnswered (Some msg)]. split_and!; [done|done|done|]. unfold rest_ok. simpl.
      split_and!; [done..|]. left. by exists msg.
    + intros s (H1 & H2 & H3). assert (outcome (r <| main := MEnd |>) = if includes (js "cancelled") msg then (Cancelled, None) else (CopyFailed, Some msg)) as Ho.
      { unfold outcome. simpl. erewrite (told_did _ c [CopyAnswered (Some msg)]) by done. done. }
      unfold says. rewrite Ho. by case_match.
  - apply (Inv_end w k r); [done|done|by rewrite Hm| |done|].
    + split; [|done|done]. exists c, [CopyAnswered None; DeleteAsked]. split_and!; [done|done| |done].
      simpl. rewrite Hd. by rewrite <-app_comm_cons, <-app_assoc.
    + intros s (H1 & H2 & H3). split_and!; [done|done|]. simpl. unfold outcome in H3. rewrite Hm in H3. unfold outcome. simpl. congruence.
Qed.
Lemma Inv_delete w k r e : Inv w -> runs w !! k = Some r -> main r = MDelete -> Inv (delete_answers e k r w).
Proof.
  intros Hinv Hk Hm. pose proof (inv_run _ Hinv _ _ Hk) as Hok.
  destruct Hok as [(c & rest & Hc & Hw & Hd & Hr) Hf Hg]. unfold rest_ok in Hr. rewrite Hm in Hr. destruct Hr as (Hcd & Hp & Hwt & ->).
  assert (forall r', req r' = req r -> copyDone r' = true -> poller r' = PDone -> watcher r' = WDone -> failures r' = failures r ->
    main r' = MEnd -> did r' = did r ++ [DeleteAnswered e] ->
    run_ok r' /\ outcome r' = match e with Some msg => (DeleteFailed, Some msg) | None => (Done, None) end) as Hend.
  { intros r' E1 E2 E3 E4 E5 E6 E7.
    assert (did r' = CopyAsked :: repeat CancelAsked c ++ [CopyAnswered None; DeleteAsked; DeleteAnswered e]) as Hd'
      by (by rewrite E7, Hd, <-app_comm_cons, <-app_assoc).
    split; [|unfold outcome; rewrite E6, (told_did _ _ _ Hd'); by destruct e].
    split; [|by rewrite E5|by rewrite E3]. exists c, [CopyAnswered None; DeleteAsked; DeleteAnswered e]. split_and!; [done|by rewrite E4|done|].
    unfold rest_ok. rewrite E6. split_and!; [done..|]. right. by exists e. }
  unfold delete_answers, ends. cbv zeta. change (key_of (r <| did := did r ++ [DeleteAnswered e] |>)) with (key_of r).
  destruct e as [msg|]; (apply Inv_end; [done|done|by rewrite Hm|by apply Hend|done|]);
    intros s (H1 & H2 & H3); match goal with |- says ?x _ => destruct (Hend x) as [_ Ho]; [done..|] end; unfold says; by rewrite Ho.
Qed.
Lemma Inv_stop w key : Inv w -> Inv (stopLibraryMove key w).
Proof.
  intros Hinv. unfold stopLibraryMove, libraryMove. destruct (byKey w !! key) as [s|] eqn:Es; [|done]. case_bool_decide as Hp; [|done].
  destruct Hinv as [Hrun Hsays Hact Hone]. split; simpl; [done| | |done].
  - intros key' s' Hs'. destruct (decide (key' = key)) as [->|Hne]; [|rewrite lookup_alter_ne in Hs' by done; by apply Hsays].
    rewrite lookup_alter_eq, Es in Hs'. injection Hs' as <-. destruct (Hsays _ _ Es) as (k & r & Hk & Hkey & H). by exists k, r.
  - intros k r Hk Hm. destruct (Hact k r Hk Hm) as (s' & Hs' & H). destruct (decide (key_of r = key)) as [E|Hne];
      [|exists s'; by rewrite lookup_alter_ne]. rewrite E in *. rewrite Es in Hs'. injection Hs' as <-.
    exists (s <| stopRequested := true |>). by rewrite lookup_alter_eq, Es.
Qed.
(** An entry that is being moved has an active run, and the other way round. *)
Lemma running_active w key : Inv w -> running (byKey w !! key) = true <-> exists k r, runs w !! k = Some r /\ key_of r = key /\ main r <> MEnd.
Proof.
  intros [Hrun Hsays Hact _]. split.
  - destruct (byKey w !! key) as [s|] eqn:Es; [|done]. unfold running. intros Hr. destruct (Hsays _ _ Es) as (k & r & Hk & Hkey & (_ & _ & H) & _).
    exists k, r. split; [done|]. split; [done|]. intros Hm. destruct (Hrun _ _ Hk) as [(c & rest & _ & _ & Hd & Hro) _ _].
    unfold rest_ok in Hro. rewrite Hm in Hro. destruct Hro as (_ & _ & _ & Hro). unfold outcome in H. rewrite Hm, (told_did _ _ _ Hd) in H.
    apply (f_equal fst) in H. simpl in H. rewrite H in Hr. revert Hr.
    destruct Hro as [[msg ->]|[[msg|] ->]]; cbn [List.filter is_cancel negb fst]; [by destruct (includes _ _)|done|done].
  - intros (k & r & Hk & <- & Hm). destruct (Hact _ _ Hk Hm) as (s & -> & (_ & _ & H) & _). unfold running, outcome in *.
    destruct (main r) as [|e| |]; [..|done]; injection H as -> _; done.
Qed.
Lemma Inv_dismiss w key : Inv w -> Inv (dismissLibraryMove key w).
Proof.
  intros Hinv. unfold dismissLibraryMove, libraryMove. destruct (running (byKey w !! key)) eqn:Er; [done|].
  pose proof (running_active w key Hinv) as Ha. rewrite Er in Ha. destruct Hinv as [Hrun Hsays Hact Hone]. split; simpl; [done| | |done].
  - intros key' s [Hne Hs]%lookup_delete_Some. by apply Hsays.
  - intros k r Hk Hm. destruct (Hact k r Hk Hm) as (s & Hs & H). exists s. split; [|done].
    rewrite lookup_delete_ne; [done|]. intros E. destruct Ha as [_ Ha]. specialize (Ha ltac:(by exists k, r)). done.
Qed.
Lemma Inv_move w q o n : Inv w -> Inv (runLibraryMove q o n w).
Proof.
  intros Hinv. unfold runLibraryMove, libraryMove. destruct (running (byKey w !! _)) eqn:Er; [done|].
  set (key := libraryMoveKey (r_host q) (r_from q)) in *. set (r0 := Build_Run _ _ _ _ _ _ _ _).
  pose proof (running_active w key Hinv) as Ha. rewrite Er in Ha. destruct Hinv as [Hrun Hsays Hact Hone].
  assert (forall k r, runs w !! k = Some r -> main r <> MEnd -> key_of r <> key) as Hfree.
  { intros k r Hk Hm E. destruct Ha as [_ Ha]. specialize (Ha ltac:(by exists k, r)). done. }
  set (w' := {| byKey := _; runs := runs w ++ [r0] |}).
  assert (forall k r, (runs w ++ [r0]) !! k = Some r -> runs w !! k = Some r \/ k = length (runs w) /\ r = r0) as Hcase.
  { intros k r [?|[Hk Hr]]%lookup_app_Some; [by left|]. apply list_lookup_singleton_Some in Hr as [Hz <-]. right. split; [lia|done]. }
  assert (latest w' (length (runs w)) key) as Hnew.
  { intros j x Hj _. simpl in Hj. apply lookup_lt_Some in Hj. rewrite length_app in Hj. simpl in Hj. lia. }
  assert (forall k key', key' <> key -> latest w k key' -> latest w' k key') as Hold.
  { intros k key' Hne Hl j x [Hj|[-> ->]]%Hcase Hx; [by eapply Hl|]. destruct Hne. by rewrite <- Hx. }
  split; simpl.
  - intros k r [Hk|[_ ->]]%Hcase; [by eapply Hrun|]. split; [exists 0%nat, []; split_and!; [lia|done..]|done|done].
  - intros key' s Hs. destruct (decide (key' = key)) as [->|Hne].
    + rewrite lookup_insert_eq in Hs. injection Hs as <-. exists (length (runs w)), r0. split; [by apply list_lookup_middle|]. split_and!; [done..|exact Hnew].
    + rewrite lookup_insert_ne in Hs by done. destruct (Hsays _ _ Hs) as (k & r & Hk & Hkk & H & Hl). exists k, r. split; [by apply lookup_app_l_Some|].
      split_and!; [done|done|by apply Hold].
  - intros k r [Hk|[-> ->]]%Hcase Hm; [|eexists; split; [by apply lookup_insert_eq|split; [done|exact Hnew]]].
    destruct (Hact _ _ Hk Hm) as (s & Hs & H & Hl). assert (key_of r <> key) as Hkk by (intros E; by apply (Hfree k r)). exists s.
    split; [by rewrite lookup_insert_ne|split; [done|by apply Hold]].
  - intros j k r r' [Hj|[-> ->]]%Hcase [Hk|[-> ->]]%Hcase Hm Hm' E; [by eapply Hone| | |done].
    + by destruct (Hfree j r).
    + by destruct (Hfree k r').
Qed.
Lemma Inv_step w w' : Inv w -> step w w' -> Inv w'.
Proof.
  intros Hinv [ev Hev]. destruct ev as [q o n|k|k a|k|k|k e|k|k e|key|key]; simpl in Hev;
    try (injection Hev as <-; first [by apply Inv_move|by apply Inv_stop|by apply Inv_dismiss]);
    destruct (runs w !! k) as [r|] eqn:Hk; try done; simpl in Hev.
  - destruct (poller r) eqn:Hp; [|done..]. injection Hev as <-. by apply Inv_poller_wakes.
  - destruct (poller r) eqn:Hp; [done| |done]. injection Hev as <-. by apply Inv_status.
  - destruct (watcher r) eqn:Hp; [|done..]. injection Hev as <-. by apply Inv_watcher_wakes.
  - destruct (watcher r) eqn:Hp; [done| |done]. injection Hev as <-. by apply Inv_cancelled.
  - destruct (main r) eqn:Hm; [|done..]. injection Hev as <-. by apply Inv_copy.
  - destruct (main r) as [|e| |] eqn:Hm; [done| |done..]. destruct (poller r) eqn:Hp, (watcher r) eqn:Hw; try done. injection Hev as <-. by apply Inv_settled.
  - destruct (main r) eqn:Hm; [done..| |done]. injection Hev as <-. by apply Inv_delete.
Qed.
Lemma reachable_Inv w : reachable w -> Inv w.
Proof.
  unfold reachable. intros H. assert (Inv no_moves) as H0 by (split; simpl; by intros; simplify_map_eq).
  revert H0. induction H as [|w0 w1 w2 Hs _ IH]; [done|]. intros H0. apply IH. by eapply Inv_step.
Qed.

(** * The properties *)

(** The calls a move makes, in order; [stops] is 0 or 1. *)
Definition calls_in_order (stops : nat) (l : list Obs) : Prop :=
  exists rest, l = CopyAsked :: repeat CancelAsked stops ++ rest /\
    (rest = [] \/ (exists e, rest = [CopyAnswered e]) \/ rest = [CopyAnswered None; DeleteAsked] \/
     exists e, rest = [CopyAnswered None; DeleteAsked; DeleteAnswered e]).

Definition tells (did : list Obs) (p : LibraryMovePhase) (e : option str) : Prop :=
  match p with
  | Copying => ~ DeleteAsked ∈ did
  | Deleting => CopyAnswered None ∈ did /\ last did = Some DeleteAsked
  | Done => CopyAnswered None ∈ did /\ last did = Some (DeleteAnswered None)
  | Cancelled => exists msg, last did = Some (CopyAnswered (Some msg)) /\ includes (js "cancelled") msg = true
  | CopyFailed => exists msg, last did = Some (CopyAnswered (Some msg)) /\ e = Some msg
  | DeleteFailed => CopyAnswered None ∈ did /\ exists msg, last did = Some (DeleteAnswered (Some msg)) /\ e = Some msg
  end.
Lemma outcome_tells r : run_ok r -> tells (did r) (outcome r).1 (outcome r).2.
Proof.
  intros [(c & rest & _ & _ & Hd & Hr) _ _]. pose proof (told_did _ _ _ Hd) as Ht.
  assert (forall x, x ∈ rest -> x ∈ did r) as Hin by (intros x Hx; rewrite Hd; right; apply elem_of_app; by right).
  assert (forall x, last rest = Some x -> last (did r) = Some x) as Hlast by (intros x Hx; by rewrite Hd, app_comm_cons, last_app, Hx).
  assert (DeleteAsked ∉ rest -> DeleteAsked ∉ did r) as Hno.
  { intros Hx. rewrite Hd, elem_of_cons, elem_of_app. intros [?|[Hy|?]]; [done| |done].
    apply list_elem_of_In, repeat_spec in Hy. done. }
  unfold outcome. rewrite Ht. unfold rest_ok in Hr. destruct (main r) as [|e| |].
  - destruct Hr as [_ ->]. apply Hno. apply not_elem_of_nil.
  - destruct Hr as [_ ->]. apply Hno. by intros ?%list_elem_of_singleton.
  - destruct Hr as (_ & _ & _ & ->). split; [apply Hin; left|by apply Hlast].
  - destruct Hr as (_ & _ & _ & [[msg ->]|[[msg|] ->]]); cbn [List.filter is_cancel negb fst snd].
    + destruct (includes (js "cancelled") msg) eqn:Ei; exists msg; (split; [by apply Hlast|done]).
    + split; [apply Hin; left|]. exists msg. split; [by apply Hlast|done].
    + split; [apply Hin; left|by apply Hlast].
Qed.

(** ** Stop is sent only when it was pressed *)

Fixpoint execs (es : list Event) (w : World) : option World :=
  match es with [] => Some w | ev :: es => w' ← exec ev w; execs es w' end.
Lemma execs_snoc es ev w : execs (es ++ [ev]) w = (w' ← execs es w; exec ev w').
Proof.
  revert w. induction es as [|e es IH]; intros w; simpl; [by destruct (exec ev w)|]. destruct (exec e w); [apply IH|done].
Qed.
Lemma execs_reachable es w : execs es no_moves = Some w -> reachable w.
Proof.
  revert w. induction es as [|ev es IH] using rev_ind; intros w; [intros [= <-]; constructor|]. rewrite execs_snoc.
  intros (w1 & H1 & H2)%bind_Some. eapply rtc_r; [by apply IH|by exists ev].
Qed.
(** Stop was pressed on the entry of the run [k] while that run was under way. *)
Definition pressed (es : list Event) (k : nat) (key : str) : Prop :=
  exists pre post w r, es = pre ++ EStop key :: post /\ execs pre no_moves = Some w /\ runs w !! k = Some r /\ key_of r = key /\ main r <> MEnd.
Lemma pressed_snoc es ev k key : pressed es k key -> pressed (es ++ [ev]) k key.
Proof. intros (pre & post & w & r & -> & H). exists pre, (post ++ [ev]), w, r. by rewrite <- app_assoc. Qed.
(** A run that sent a Stop, or is to send one. *)
Definition asked_to_stop (w : World) (k : nat) (r : Run) : Prop :=
  CancelAsked ∈ did r \/ (main r <> MEnd /\ exists s, byKey w !! key_of r = Some s /\ stopRequested s = true).
Lemma new_requests ev w w' : Inv w -> exec ev w = Some w' -> forall k r', runs w' !! k = Some r' -> asked_to_stop w' k r' ->
  exists r, runs w !! k = Some r /\ key_of r = key_of r' /\ (asked_to_stop w k r \/ (ev = EStop (key_of r) /\ main r <> MEnd)).
Proof.
  intros Hinv Hev.
  set (goal := fun (w' : World) => forall k r', runs w' !! k = Some r' -> asked_to_stop w' k r' ->
    exists r, runs w !! k = Some r /\ key_of r = key_of r' /\ (asked_to_stop w k r \/ (ev = EStop (key_of r) /\ main r <> MEnd))).
  assert (forall j r f r1, runs w !! j = Some r -> main r <> MEnd -> req r1 = req r -> (forall s, stopRequested (f s) = stopRequested s) ->
    (CancelAsked ∈ did r1 -> CancelAsked ∈ did r \/ exists s, byKey w !! key_of r = Some s /\ stopRequested s = true) ->
    goal (set_run j r1 (put (key_of r) f w))) as Hpiece.
  { intros j r f r1 Hj Hm Hq Hf Hd k r' Hk Ha. simpl in Hk.
    assert (key_of r1 = key_of r) as Hkr by (unfold key_of; by rewrite Hq).
    assert (forall x, (exists s, alter f (key_of r) (byKey w) !! key_of x = Some s /\ stopRequested s = true) ->
      exists s, byKey w !! key_of x = Some s /\ stopRequested s = true) as Hs.
    { intros x (s & Hs & Hst). destruct (decide (key_of x = key_of r)) as [E|E].
      - rewrite E, lookup_alter_eq in Hs. rewrite E. apply fmap_Some in Hs as (s0 & Hs0 & ->). rewrite Hf in Hst. eauto.
      - rewrite lookup_alter_ne in Hs by done. eauto. }
    apply list_lookup_insert_Some in Hk as [(<- & -> & _)|[Hne Hk]].
    - exists r. split; [done|]. split; [done|]. left. destruct Ha as [Hc|[_ Hx]]; [destruct (Hd Hc) as [?|?]; [by left|by right]|].
      right. split; [done|]. rewrite <- Hkr. by apply Hs.
    - exists r'. split; [done|]. split; [done|]. left. destruct Ha as [?|[? Hx]]; [by left|right]. split; [done|]. by apply Hs. }
  assert (forall j r r1, runs w !! j = Some r -> main r <> MEnd -> req r1 = req r ->
    (CancelAsked ∈ did r1 -> CancelAsked ∈ did r \/ exists s, byKey w !! key_of r = Some s /\ stopRequested s = true) -> goal (set_run j r1 w)) as Hset.
  { intros j r r1 Hj Hm Hq Hd. pose proof (Hpiece j r (fun s => s) r1 Hj Hm Hq ltac:(done) Hd) as H.
    unfold set_run, put in *. simpl in *. by rewrite alter_id_same in H. }
  assert (forall j r, runs w !! j = Some r -> poller r <> PDone \/ watcher r <> WDone -> main r <> MEnd) as Hact
    by (intros j r Hj Hp; by apply (active_watch r (inv_run _ Hinv _ _ Hj))).
  assert (forall l o, CancelAsked ∈ l ++ [o] -> o <> CancelAsked -> CancelAsked ∈ l) as Hlast by set_solver.
  destruct ev as [q o n|j|j a|j|j|j e|j|j e|key|key]; simpl in Hev;
    try (destruct (runs w !! j) as [r|] eqn:Hj; [simpl in Hev|done]).
  - injection Hev as <-. intros k r' Hk Ha. unfold runLibraryMove, libraryMove in Hk, Ha. destruct (running (byKey w !! _)) eqn:Er; [exists r'; split_and!; [done|done|by left]|].
    set (key := libraryMoveKey (r_host q) (r_from q)) in *. simpl in Hk. apply lookup_app_Some in Hk as [Hk|[_ Hk]].
    + exists r'. split; [done|]. split; [done|]. left. destruct Ha as [?|[Hm (s & Hs & Hst)]]; [by left|right]. split; [done|]. simpl in Hs.
      rewrite lookup_insert_ne in Hs; [eauto|]. intros E. assert (false = true); [|done]. rewrite <- Er. apply running_active; [done|]. by exists k, r'.
    + apply list_lookup_singleton_Some in Hk as [_ <-]. destruct Ha as [?%list_elem_of_singleton|[_ (s & Hs & Hst)]]; [done|]. simpl in Hs.
      change (key_of _) with key in Hs. rewrite lookup_insert_eq in Hs. injection Hs as <-. done.
  - destruct (poller r) eqn:Hp; [|done..]. injection Hev as <-. eapply Hset; [done| |done|by left]. eapply Hact; [done|left; by rewrite Hp].
  - destruct (poller r) eqn:Hp; [done| |done]. injection Hev as <-. assert (main r <> MEnd) as Hm by (eapply Hact; [done|left; by rewrite Hp]).
    unfold status_answers. destruct a as [[b t]|msg]; [case_match|case_match; [|case_match]];
      first [by eapply Hset; [done|done|done|left]|by eapply (Hpiece j r); [done|done|done|done|left]].
  - destruct (watcher r) eqn:Hp; [|done..]. injection Hev as <-. assert (main r <> MEnd) as Hm by (eapply Hact; [done|right; by rewrite Hp]).
    unfold watcher_wakes, libraryMove. case_match; [by eapply Hset; [done|done|done|left]|].
    destruct (byKey w !! key_of r) as [s|] eqn:Es; [destruct (stopRequested s) eqn:Est|]; (eapply Hset; [done|done|done|]); [right; eauto|by left|by left].
  - destruct (watcher r) eqn:Hp; [done| |done]. injection Hev as <-. eapply Hset; [done| |done|by left]. eapply Hact; [done|right; by rewrite Hp].
  - destruct (main r) eqn:Hm; [|done..]. injection Hev as <-. eapply Hset; [done|by rewrite Hm|done|]. simpl. intros Hc. left. by eapply Hlast.
  - destruct (main r) as [|e| |] eqn:Hm; [done| |done..]. destruct (poller r), (watcher r); try done. injection Hev as <-. unfold settled, ends.
    destruct e as [msg|]; (eapply (Hpiece j r); [done|by rewrite Hm|done| |]); [by intros s; case_match|by left|done|].
    simpl. intros Hc. left. by eapply Hlast.
  - destruct (main r) eqn:Hm; [done..| |done]. injection Hev as <-. unfold delete_answers, ends.
    destruct e as [msg|]; (apply (Hpiece j r); [done|by rewrite Hm|done|done|]); simpl; intros Hc; left; by eapply Hlast.
  - injection Hev as <-. intros k r' Hk Ha. unfold stopLibraryMove, libraryMove in Hk, Ha. exists r'. 
    assert (runs w !! k = Some r') as Hk' by (by repeat case_match). split; [done|]. split; [done|].
    destruct Ha as [?|[Hm (s & Hs & Hst)]]; [left; by left|]. destruct (decide (key = key_of r')) as [->|Hne]; [by right|left; right].
    split; [done|]. destruct (byKey w !! key) as [s0|]; [|eauto]. case_bool_decide; [|eauto]. simpl in Hs. rewrite lookup_alter_ne in Hs by done. eauto.
  - injection Hev as <-. intros k r' Hk Ha. unfold dismissLibraryMove in Hk, Ha. exists r'.
    assert (runs w !! k = Some r') as Hk' by (by repeat case_match). split; [done|]. split; [done|]. left.
    destruct Ha as [?|[Hm (s & Hs & Hst)]]; [by left|right]. split; [done|]. case_match; [eauto|]. simpl in Hs. apply lookup_delete_Some in Hs as [_ Hs]. eauto.
Qed.
Lemma stop_was_pressed es w k r : execs es no_moves = Some w -> runs w !! k = Some r -> asked_to_stop w k r -> pressed es k (key_of r).
Proof.
  revert w k r. induction es as [|ev es IH] using rev_ind; intros w k r; [by intros [= <-]|]. rewrite execs_snoc. intros (w1 & H1 & H2)%bind_Some Hk Ha.
  destruct (new_requests ev w1 w (reachable_Inv _ (execs_reachable _ _ H1)) H2 k r Hk Ha) as (r1 & Hk1 & <- & [Ha1|[-> Hm]]).
  - apply pressed_snoc. by eapply IH.
  - exists es, [], w1, r1. by split_and!.
Qed.

(** C37: Whatever moves, stops and dismissals interleave: every move asks for its copy once, sends at most
    one Stop and only while the copy runs and after Stop was pressed on its entry while it was under way,
    and asks to remove the source at most once and only after the copy succeeded; what the store says of an
    entry - copying, removing, done, stopped, copy failed, both copies there - is what its latest move did,
    with the console's own error; and an entry has at most one move under way. *)
Theorem moves_tell_what_they_did es w : execs es no_moves = Some w ->
  (forall k r, runs w !! k = Some r -> exists stops, (stops <= 1)%nat /\ calls_in_order stops (did r)) /\
  (forall k r, runs w !! k = Some r -> CancelAsked ∈ did r -> pressed es k (key_of r)) /\
  (forall key s, byKey w !! key = Some s -> exists k r, runs w !! k = Some r /\ key_of r = key /\ latest w k key /\
     from s = r_from (req r) /\ to s = r_to (req r) /\ tells (did r) (phase s) (error s)) /\
  (forall j k r r', runs w !! j = Some r -> runs w !! k = Some r' -> main r <> MEnd -> main r' <> MEnd -> key_of r = key_of r' -> j = k).
Proof.
  intros Hes. pose proof (reachable_Inv _ (execs_reachable _ _ Hes)) as Hw. split_and!; [| | |by apply Hw].
  - intros k r Hk. destruct (inv_run _ Hw _ _ Hk) as [(c & rest & Hc & _ & Hd & Hr) _ _]. exists c. split; [done|].
    exists rest. split; [done|]. unfold rest_ok in Hr.
    destruct (main r) as [|e| |]; [naive_solver..| |]; destruct Hr as (_ & _ & _ & Hr); naive_solver.
  - intros k r Hk Hc. eapply stop_was_pressed; [done|done|by left].
  - intros key s Hs. destruct (inv_says _ Hw _ _ Hs) as (k & r & Hk & Hkey & (H1 & H2 & H3) & Hl). exists k, r. split_and!; [done..|].
    pose proof (outcome_tells r (inv_run _ Hw _ _ Hk)) as Ht. by rewrite <-H3 in Ht.
Qed.

(** ** A move whose copy is over ends *)

Definition of_run (k : nat) (ev : Event) : bool :=
  match ev with
  | EPollerWakes j | EStatus j _ | EWatcherWakes j | ECancelled j | ECopy j _ | ESettled j | EDelete j _ => bool_decide (j = k)
  | _ => false
  end.
(** How many more answers a run whose copy is over can take. *)
Definition left_over (r : Run) : nat :=
  (match main r with MCopy => 3 | MSettle _ => 2 | MDelete => 1 | MEnd => 0 end +
   match poller r with PAsk => 2 | PSleep => 1 | PDone => 0 end + match watcher r with WDone => 0 | _ => 1 end)%nat.
(** One event moves one run on, or starts one at most. *)
Lemma exec_runs ev w w' : exec ev w = Some w' ->
  (exists j r r', of_run j ev = true /\ runs w !! j = Some r /\ runs w' = <[j := r']> (runs w) /\
     (copyDone r = true -> run_ok r -> copyDone r' = true /\ (left_over r' < left_over r)%nat)) \/
  ((forall k, of_run k ev = false) /\ exists more, runs w' = runs w ++ more).
Proof.
  destruct ev as [q o n|k|k a|k|k|k e|k|k e|key|key]; simpl; intros Hev.
  1: injection Hev as <-; right; split; [done|]; unfold runLibraryMove; case_match; [by exists []; rewrite app_nil_r|by eexists].
  8: injection Hev as <-; right; split; [done|]; exists []; rewrite app_nil_r; unfold stopLibraryMove; by repeat case_match.
  8: injection Hev as <-; right; split; [done|]; exists []; rewrite app_nil_r; unfold dismissLibraryMove; by repeat case_match.
  all: left; destruct (runs w !! k) as [r|] eqn:Hk; [|done]; simpl in Hev; exists k, r;
    assert (bool_decide (k = k) = true) as Ek by (by apply bool_decide_eq_true).
  - destruct (poller r) eqn:Hp; [|done..]. injection Hev as <-. eexists. split_and!; [done|done|done|]. intros Hc _. simpl. rewrite Hc.
    split; [done|]. unfold left_over. simpl. rewrite Hp. lia.
  - destruct (poller r) eqn:Hp; [done| |done]. injection Hev as <-.
    assert (exists r', runs (status_answers a k r w) = <[k := r']> (runs w) /\ copyDone r' = copyDone r /\ main r' = main r /\
      watcher r' = watcher r /\ poller r' <> PAsk) as (r' & E & E1 & E2 & E3 & E4).
    { unfold status_answers. destruct a as [[b t]|msg]; cbv zeta; [change (copyDone (r <| failures := 0 |>)) with (copyDone r); destruct (copyDone r) eqn:Hc|case_match; [|case_match]];
        eexists; (split_and!; [reflexivity|..]); simpl; rewrite ?Hc; done. }
    exists r'. split_and!; [done|done|done|]. intros Hc _. split; [congruence|]. unfold left_over. rewrite E2, E3, Hp.
    destruct (poller r'); [lia|done|lia].
  - destruct (watcher r) eqn:Hp; [|done..]. injection Hev as <-.
    unfold watcher_wakes. destruct (copyDone r) eqn:Hc.
    + exists (r <| watcher := WDone |>). split_and!; [done|done|done|]. intros _ _. split; [done|]. unfold left_over. simpl. rewrite Hp. lia.
    + destruct (match libraryMove w (key_of r) with Some s => stopRequested s | None => false end); eexists; split_and!; done.
  - destruct (watcher r) eqn:Hp; [done| |done]. injection Hev as <-. eexists. split_and!; [done|done|done|]. intros Hc _. split; [done|].
    unfold left_over. simpl. rewrite Hp. lia.
  - destruct (main r) eqn:Hm; [|done..]. injection Hev as <-. eexists. split_and!; [done|done|done|]. intros Hc [(c & rest & _ & _ & _ & Hr) _ _].
    unfold rest_ok in Hr. rewrite Hm in Hr. destruct Hr. congruence.
  - destruct (main r) as [|e| |] eqn:Hm; [done| |done..]. destruct (poller r) eqn:Hp, (watcher r) eqn:Hw; try done. injection Hev as <-.
    unfold settled. destruct e as [msg|]; eexists; (split_and!; [done|done|done|]); intros Hc _; (split; [done|]);
      unfold left_over; simpl; rewrite Hm, Hp, Hw; lia.
  - destruct (main r) eqn:Hm; [done..| |done]. injection Hev as <-. unfold delete_answers. destruct e as [msg|];
      eexists; (split_and!; [done|done|done|]); intros Hc _; (split; [done|]); unfold left_over; simpl; rewrite Hm; lia.
Qed.
Lemma exec_left_over ev w w' k r : Inv w -> runs w !! k = Some r -> copyDone r = true -> exec ev w = Some w' ->
  exists r', runs w' !! k = Some r' /\ copyDone r' = true /\ (left_over r' + (if of_run k ev then 1 else 0) <= left_over r)%nat.
Proof.
  intros Hinv Hk Hc Hev. destruct (exec_runs ev w w' Hev) as [(j & r0 & r' & Hof & Hj & Hw' & Hlt)|[Hof [more Hw']]].
  - destruct (decide (j = k)) as [->|Hne].
    + assert (r0 = r) as -> by congruence. destruct (Hlt Hc (inv_run _ Hinv _ _ Hk)) as [Hc' Hl]. exists r'. rewrite Hw', Hof.
      split; [apply list_lookup_insert_eq; by eapply lookup_lt_Some|]. split; [done|]. lia.
    + exists r. rewrite Hw', list_lookup_insert_ne by done. split; [done|]. split; [done|].
      assert (of_run k ev = false) as ->; [|lia]. destruct ev; simpl in *; try done;
        apply bool_decide_eq_true in Hof as <-; by apply bool_decide_eq_false.
  - exists r. rewrite Hw', Hof. split; [by apply lookup_app_l_Some|]. split; [done|]. lia.
Qed.
(** Someone is always waited for. *)
Lemma run_waits w k r : Inv w -> runs w !! k = Some r -> main r <> MEnd -> exists ev, of_run k ev = true /\ is_Some (exec ev w).
Proof.
  intros Hinv Hk Hm. destruct (inv_run _ Hinv _ _ Hk) as [(c & rest & _ & _ & _ & Hr) _ _]. unfold rest_ok in Hr.
  assert (bool_decide (k = k) = true) as Ek by (by apply bool_decide_eq_true).
  destruct (main r) as [|e| |] eqn:Em; [|destruct (poller r) eqn:Hp; [| |destruct (watcher r) eqn:Hw]| |done].
  - exists (ECopy k None). split; [done|]. simpl. rewrite Hk. simpl. rewrite Em. by eexists.
  - exists (EPollerWakes k). split; [done|]. simpl. rewrite Hk. simpl. rewrite Hp. by eexists.
  - exists (EStatus k (inr [])). split; [done|]. simpl. rewrite Hk. simpl. rewrite Hp. by eexists.
  - exists (EWatcherWakes k). split; [done|]. simpl. rewrite Hk. simpl. rewrite Hw. by eexists.
  - exists (ECancelled k). split; [done|]. simpl. rewrite Hk. simpl. rewrite Hw. by eexists.
  - exists (ESettled k). split; [done|]. simpl. rewrite Hk. simpl. rewrite Em, Hp, Hw. by eexists.
  - exists (EDelete k None). split; [done|]. simpl. rewrite Hk. simpl. rewrite Em. by eexists.
Qed.

(** Once its copy is over, a move ends: it takes at most five more answers, whatever they are and
    whatever happens to other moves meanwhile, and until it has ended it is waiting for one of them. *)
Theorem copied_move_ends w k r es w' : reachable w -> runs w !! k = Some r -> copyDone r = true -> execs es w = Some w' ->
  (length (List.filter (of_run k) es) <= 5)%nat /\
  exists r', runs w' !! k = Some r' /\ (main r' = MEnd \/ exists ev, of_run k ev = true /\ is_Some (exec ev w')).
Proof.
  intros Hw%reachable_Inv Hk Hc Hes.
  assert ((length (List.filter (of_run k) es) <= left_over r)%nat /\ Inv w' /\ exists r', runs w' !! k = Some r') as (Hl & Hw' & r' & Hr').
  { revert w r Hw Hk Hc Hes. induction es as [|ev es IH]; intros w r Hw Hk Hc; simpl; [intros [= <-]; split; [lia|eauto]|].
    destruct (exec ev w) as [w1|] eqn:Hev; [|done]. simpl. intros Hes.
    destruct (exec_left_over ev w w1 k r Hw Hk Hc Hev) as (r1 & Hk1 & Hc1 & Hl1).
    destruct (IH w1 r1) as (Hl & H); [by eapply Inv_step; [|by exists ev]|done..|]. split; [|done].
    destruct (of_run k ev); simpl; lia. }
  split.
  - assert (left_over r <= 5)%nat; [|lia]. destruct (inv_run _ Hw _ _ Hk) as [(c & rest & _ & _ & _ & Hr) _ _]. unfold rest_ok in Hr.
    unfold left_over. destruct (main r), (poller r), (watcher r); try lia; destruct Hr; congruence.
  - exists r'. split; [done|]. destruct (main r') eqn:Em; [right|right|right|by left]; (eapply run_waits; [done|done|by rewrite Em]).
Qed.

(** * Runs *)

Definition a_move : LibraryMoveRequest := {| r_host := js "10.0.0.2"; r_addr := js "10.0.0.2:9113"; r_from := js "/data/homebrew/A";
  r_to := js "/mnt/ext0/homebrew/A"; r_payloadVersion := Some (js "6.2.3") |}.
Definition a_key : str := libraryMoveKey (r_host a_move) (r_from a_move).
Definition at_rest (es : list Event) : World := default no_moves (execs es no_moves).
(** The copy shows its bytes, is stopped, and the console says so. *)
Definition stopped_move : list Event :=
  [EMove a_move 7 1000; EPollerWakes 0; EStatus 0 (inl (40, 100)); EStop a_key; EWatcherWakes 0; ECopy 0 (Some (js "op cancelled"))].
Definition stopped_end : list Event := [ECancelled 0; EMove a_move 8 2000; EPollerWakes 0; EStop a_key; ESettled 0].
Lemma at_rest_execs es : is_Some (execs es no_moves) -> execs es no_moves = Some (at_rest es).
Proof. intros [w H]. unfold at_rest. by rewrite H. Qed.
Lemma stopped_execs : execs (stopped_move ++ stopped_end) no_moves = Some (at_rest (stopped_move ++ stopped_end)).
Proof. apply at_rest_execs. vm_compute. by eexists. Qed.
Lemma moves_tell_what_they_did_witness :
  (phase <$> byKey (at_rest (stopped_move ++ stopped_end)) !! a_key) = Some Cancelled /\
  exists k r msg, runs (at_rest (stopped_move ++ stopped_end)) !! k = Some r /\ last (did r) = Some (CopyAnswered (Some msg)).
Proof.
  assert ((phase <$> byKey (at_rest (stopped_move ++ stopped_end)) !! a_key) = Some Cancelled) as Hp by (vm_compute; reflexivity).
  pose proof stopped_execs as Hr. revert Hp Hr. generalize (at_rest (stopped_move ++ stopped_end)). generalize (stopped_move ++ stopped_end). intros es w Hp Hr.
  split; [exact Hp|]. destruct (moves_tell_what_they_did es w Hr) as (_ & _ & H & _).
  apply fmap_Some in Hp as (s & Hs & Hps). destruct (H _ _ Hs) as (k & r & Hk & _ & _ & _ & _ & Ht). rewrite <-Hps in Ht.
  destruct Ht as (msg & Hm & _). by exists k, r, msg.
Defined.
Lemma copied_move_ends_witness : exists r, runs (at_rest stopped_move) !! 0%nat = Some r /\ copyDone r = true /\
  is_Some (execs stopped_end (at_rest stopped_move)) /\ (length (List.filter (of_run 0) stopped_end) <= 5)%nat.
Proof.
  eexists. split; [vm_compute; reflexivity|]. split; [reflexivity|]. split; [vm_compute; by eexists|].
  assert (exists w', execs stopped_end (at_rest stopped_move) = Some w') as [w' Hw'] by (vm_compute; by eexists).
  refine (proj1 (copied_move_ends (at_rest stopped_move) 0 _ stopped_end w' _ _ _ Hw')).
  - apply (execs_reachable stopped_move), at_rest_execs. vm_compute. by eexists.
  - vm_compute. reflexivity.
  - reflexivity.
Defined.

(** [stopLibraryMove] takes a Stop while the phase is "copying", and says the run then ends "cancelled"
    with the source intact. The phase stays "copying" after the console finished the copy, while the
    reader and the watcher come to their ends (up to half a second and a status read): a Stop taken then
    is sent to nobody, and the source is removed. *)
Theorem late_stop_is_lost : exists w w',
  execs [EMove a_move 7 1000; ECopy 0 None] no_moves = Some w /\
  (phase <$> byKey w !! a_key) = Some Copying /\
  (stopRequested <$> byKey (stopLibraryMove a_key w) !! a_key) = Some true /\
  execs [EPollerWakes 0; EWatcherWakes 0; ESettled 0; EDelete 0 None] (stopLibraryMove a_key w) = Some w' /\
  (phase <$> byKey w' !! a_key) = Some Done /\ (did <$> runs w' !! 0%nat) = Some [CopyAsked; CopyAnswered None; DeleteAsked; DeleteAnswered None].
Proof.
  do 2 eexists. split; [vm_compute; reflexivity|]. split; [vm_compute; reflexivity|]. split; [vm_compute; reflexivity|].
  split; [vm_compute; reflexivity|]. split; vm_compute; reflexivity.
Qed.
