(* ===== verification/SpaceRun.v ===== *)
(** Running a space plan (client/src/state/spacePlanRun.ts) and where its moves go
    (client/src/lib/moveTarget.ts): the leftovers in one clean-up, then each move and each uninstall, one
    after another. The console's calls are the functions of [SpaceRunDeps]; while one is awaited Stop may
    be pressed and progress may come in ([Meanwhile]). Every call and its answer is kept ([log]). *)
From S2P Require Import Prelude Addr Paths SpacePlan LibraryMove.

(** * Where a move goes *)

Definition detectSourceVolume (entryPath : str) (volumePaths : list str) : option str :=
  match volumePaths with
  | [] => None
  | first :: _ =>
      Some (fold_left (fun best v =>
        let v2 := match last v with Some c => if decide (c = slash) then removelast v else v | None => v end in
        if (bool_decide (entryPath = v2) || starts_with (v2 ++ [slash]) entryPath) &&
           match best with None => true | Some b => (length b <? length v2)%nat end
        then Some v2 else best) volumePaths None ?? first)
  end.
Definition defaultMoveSubpath (entryPath volume : str) : str :=
  let v2 := match last volume with Some c => if decide (c = slash) then removelast volume else volume | None => volume end in
  if negb (starts_with (v2 ++ [slash]) entryPath) then [] else
  let rest := drop (S (length v2)) entryPath in
  match last_index_of slash rest with Some i => take i rest | None => [] end.
Definition is_sep (a : ascii) : bool := is_char slash a || is_char "\" a.
(** [/[\\/]+$/] off, then what follows the last separator. *)
Fixpoint after_sep (s : str) : str :=
  match s with
  | [] => []
  | a :: s' => if existsb is_sep s' then after_sep s' else if is_sep a then s' else s
  end.
Definition sourceBasename (sourcePath : str) : str := after_sep (strip_end is_sep sourcePath).
Definition resolveMoveDestination (volume subpath sourcePath : str) (customName : option str) : str :=
  let v := strip_end (is_char slash) volume in
  let sub := strip_both subpath in
  let root := match sub with [] => v | _ => v ++ [slash] ++ sub end in
  let overridden := strip_both (Addr.trim (customName ?? [])) in
  let name := match overridden with [] => sourceBasename sourcePath | _ => overridden end in
  match name with [] => root | _ => root ++ [slash] ++ name end.
Definition isMoveNoop (sourcePath destination : str) : bool :=
  bool_decide (strip_end (is_char slash) sourcePath = strip_end (is_char slash) destination).
Definition isInvalidName (name : str) : bool :=
  match name with [] => false | _ => existsb is_sep name || bool_decide (name = js ".") || bool_decide (name = js "..") end.

(** * The run's state *)

Inductive StepState := Waiting | Running | SDone | SFailed | SSkipped | SStopped.
#[export] Instance stepstate_eq_dec : EqDecision StepState.
Proof. solve_decision. Defined.
Record StepProgress := { state : StepState; detail : option str; bytesDone : option Z; bytesTotal : option Z }.
#[export] Instance settable_progress : Settable StepProgress := fun p =>
  {| state := state p; detail := detail p; bytesDone := bytesDone p; bytesTotal := bytesTotal p |}.
Record SpaceRunState := {
  host : option str; running : bool; stopRequested : bool; steps : gmap str StepProgress; order : list str; finished : bool }.
#[export] Instance settable_run : Settable SpaceRunState := fun s => {|
  host := host s; running := running s; stopRequested := stopRequested s; steps := steps s; order := order s; finished := finished s |}.
Definition IDLE : SpaceRunState :=
  {| host := None; running := false; stopRequested := false; steps := ∅; order := []; finished := false |}.
Definition reset (s : SpaceRunState) : SpaceRunState := if running s then s else IDLE.

Inductive MovePhase := MDone | MCancelled | MCopyFailed | MDeleteFailed.
Record MoveOutcome := { m_phase : MovePhase; m_error : option str }.
Record CleanupResult := { c_done : list Z; c_skipped : list (Z * str); c_failed : list (Z * str) }.
(** What happens while a call is awaited. *)
Inductive Meanwhile := PressStop | Progress (bytes total : Z).
(** The console: each call answers or throws its message. *)
Class SpaceRunDeps (W : Type) := {
  cleanup : list (option Z) -> W -> (CleanupResult + str) * list Meanwhile * W;
  pathExists : str -> W -> (bool + str) * list Meanwhile * W;
  move : str -> str -> str -> W -> (MoveOutcome + str) * list Meanwhile * W;
  stopMove : str -> W -> W;
  uninstall : str -> str -> W -> (bool + str) * list Meanwhile * W   (* [stillPresent] *)
}.
(** A call, its answer, and whether Stop was pressed while it was awaited. *)
Inductive Call :=
| CCleanup (ids : list (option Z)) (r : CleanupResult + str)
| CExists (p : str) (r : bool + str)
| CMove (from to : str) (r : MoveOutcome + str)
| CUninstall (titleId : str) (r : bool + str).

(** The console's world, the store, and the calls so far. *)
Record St (W : Type) := { world : W; store : SpaceRunState; log : list (Call * bool) }.
Arguments world {W} _.
Arguments store {W} _.
Arguments log {W} _.
#[export] Instance settable_st {W} : Settable (St W) := fun p => {| world := world p; store := store p; log := log p |}.

Section run.
Context {W : Type} `{!SpaceRunDeps W} (plan : SpacePlan) (volumes : list str).
#[local] Abbreviation P := (St W).

Definition put (id : str) (f : StepProgress -> StepProgress) (p : P) : P :=
  p <| store := (store p) <| steps := <[id := f (steps (store p) !! id ?? {| state := Waiting; detail := None; bytesDone := None; bytesTotal := None |})]> (steps (store p)) |> |>.
Definition to_state (t : StepState) (p : StepProgress) : StepProgress := p <| state := t |>.
Definition to_end (t : StepState) (d : str) (p : StepProgress) : StepProgress := p <| state := t |> <| detail := Some d |>.
Definition state_of (id : str) (p : P) : option StepState := state <$> steps (store p) !! id.

(** One of the plan's steps, at Stop: a move under way stops its copy. *)
Definition stop_one (st : gmap str StepProgress) (p : P) (s : PlannedStep) : P :=
  match kind (candidate s), path (candidate s), state <$> st !! id (candidate s) with
  | Move, Some ((_ :: _) as from), Some Running => p <| world := stopMove from (world p) |>
  | _, _, _ => p
  end.
Definition stopSpacePlan (p : P) : P :=
  if negb (running (store p)) then p
  else fold_left (stop_one (steps (store p))) (SpacePlan.steps plan) (p <| store := (store p) <| stopRequested := true |> |>).
(** [onProgress] of the step [id]; other calls' progress is nothing to the run. *)
Definition happens (id : option str) (p : P) (m : Meanwhile) : P :=
  match m with
  | PressStop => stopSpacePlan p
  | Progress bytes total => match id with Some i => put i (fun q => q <| bytesDone := Some bytes |> <| bytesTotal := Some total |>) p | None => p end
  end.
Definition pressed (ms : list Meanwhile) : bool := existsb (fun m => match m with PressStop => true | _ => false end) ms.
Definition awaited (id : option str) (ms : list Meanwhile) (w : W) (p : P) : P := fold_left (happens id) ms (p <| world := w |>).
Definition call {A} (id : option str) (f : W -> A * list Meanwhile * W) (obs : A -> Call) (p : P) : A * P :=
  let '(a, ms, w) := f (world p) in
  (a, let p := awaited id ms w p in p <| log := log p ++ [(obs a, pressed ms)] |>).

Definition moveDestination (from dest : str) : str :=
  let src := volumeOfPath from volumes ?? [] in
  resolveMoveDestination dest (match src with [] => [] | _ => defaultMoveSubpath from src end) from None.

(** ** The leftovers *)

Definition is_leftover (s : PlannedStep) : bool := bool_decide (kind (candidate s) = Leftover).
Definition sid (s : PlannedStep) : str := id (candidate s).
(** [new Map(...)]: a key's place is its first, its value its last. *)
Fixpoint map_set (k : option Z) (v : str) (m : list (option Z * str)) : list (option Z * str) :=
  match m with
  | [] => [(k, v)]
  | (k', v') :: m' => if decide (k' = k) then (k, v) :: m' else (k', v') :: map_set k v m'
  end.
Definition byCleanupId (leftovers : list PlannedStep) : list (option Z * str) :=
  fold_left (fun m s => map_set (cleanupId (candidate s)) (sid s) m) leftovers [].
Fixpoint map_get (k : Z) (m : list (option Z * str)) : option str :=
  match m with [] => None | (k', v) :: m' => if decide (k' = Some k) then match v with [] => None | _ => Some v end else map_get k m' end.
Definition mark (m : list (option Z * str)) (f : StepProgress -> StepProgress) (n : Z) (p : P) : P :=
  match map_get n m with Some i => put i f p | None => p end.
Definition unmentioned (p : P) (s : PlannedStep) : P :=
  if bool_decide (state_of (sid s) p = Some Running) then put (sid s) (to_end SSkipped (js "stopped")) p else p.
Definition cleaned (leftovers : list PlannedStep) (m : list (option Z * str)) (res : CleanupResult) (p : P) : P :=
  let p := fold_left (fun p n => mark m (to_state SDone) n p) (c_done res) p in
  let p := fold_left (fun p r => mark m (to_end SSkipped r.2) r.1 p) (c_skipped res) p in
  let p := fold_left (fun p r => mark m (to_end SFailed r.2) r.1 p) (c_failed res) p in
  fold_left unmentioned leftovers p.
Definition run_leftovers (leftovers : list PlannedStep) (p : P) : P :=
  if bool_decide (leftovers = []) || stopRequested (store p) then p else
  let p := fold_left (fun p s => put (sid s) (to_state Running) p) leftovers p in
  let m := byCleanupId leftovers in
  let ids := map fst m in
  let '(r, p) := call None (cleanup ids) (CCleanup ids) p in
  match r with
  | inl res => cleaned leftovers m res p
  | inr e => fold_left (fun p s => put (sid s) (to_end SFailed e) p) leftovers p
  end.

(** ** A move or an uninstall *)

Definition move_end (r : MoveOutcome + str) : StepProgress -> StepProgress :=
  match r with
  | inl out =>
      match m_phase out with
      | MDone => to_state SDone
      | MCancelled => to_state SStopped
      | MDeleteFailed => to_end SFailed (js "both_copies")
      | MCopyFailed => to_end SFailed (m_error out ?? [])
      end
  | inr e => to_end SFailed e
  end.
Definition uninstall_end (r : bool + str) : StepProgress -> StepProgress :=
  match r with
  | inl true => to_end SFailed (js "still_present")
  | inl false => to_state SDone
  | inr e => to_end SFailed e
  end.
Definition run_move (c : SpaceCandidate) (from to : str) (p : P) : P :=
  let '(r, p) := call None (pathExists to) (CExists to) p in
  match r with
  | inl true => put (id c) (to_end SSkipped (js "dest_exists")) p
  | _ =>
      let '(out, p) := call (Some (id c)) (move from to (label c)) (CMove from to) p in
      put (id c) (move_end out) p
  end.
(** What a step is, past the run's own checks. *)
Inductive Work := WMove (from to : str) | WUninstall (titleId : str) | WNothing.
Definition work_of (s : PlannedStep) : Work :=
  let c := candidate s in
  match kind c, path c, dest s, titleId c with
  | Move, Some ((_ :: _) as from), Some ((_ :: _) as d), _ => WMove from (moveDestination from d)
  | Uninstall, _, _, Some ((_ :: _) as t) => WUninstall t
  | _, _, _, _ => WNothing
  end.
Definition run_other (p : P) (s : PlannedStep) : P :=
  let c := candidate s in
  if stopRequested (store p) then put (id c) (to_state SStopped) p else
  let p := put (id c) (to_state Running) p in
  match work_of s with
  | WMove from to => run_move c from to p
  | WUninstall t =>
      let '(r, p) := call None (uninstall t (label c)) (CUninstall t) p in
      put (id c) (uninstall_end r) p
  | WNothing => put (id c) (to_state SSkipped) p
  end.

Definition waiting_step : StepProgress := {| state := Waiting; detail := None; bytesDone := None; bytesTotal := None |}.
Definition runSpacePlan (host_ : str) (p : P) : P :=
  if running (store p) then p else
  let all := runOrder plan in
  let leftovers := List.filter is_leftover all in
  let others := List.filter (fun s => negb (is_leftover s)) all in
  let ids := map sid leftovers ++ map sid others in
  let p := p <| store := {| host := Some host_; running := true; stopRequested := false; finished := false; order := ids;
                            steps := list_to_map (map (fun i => (i, waiting_step)) ids) |} |> in
  let p := run_leftovers leftovers p in
  let p := fold_left run_other others p in
  p <| store := (store p) <| running := false |> <| finished := true |> |>.
End run.
(** * What a run is to tell *)

(** Stop was pressed while one of the calls was awaited. *)
Definition stopped_in (obs : list (Call * bool)) : bool := existsb snd obs.
(** What a step shows after a move that ended so, and after an uninstall. *)
Definition failed (why : str) (q : StepProgress) : Prop := state q = SFailed /\ detail q = Some why.
Inductive move_shows : MoveOutcome + str -> StepProgress -> Prop :=
| shows_moved e q : state q = SDone -> move_shows (inl {| m_phase := MDone; m_error := e |}) q
| shows_stopped e q : state q = SStopped -> move_shows (inl {| m_phase := MCancelled; m_error := e |}) q
| shows_both e q : failed (js "both_copies") q -> move_shows (inl {| m_phase := MDeleteFailed; m_error := e |}) q
| shows_not_copied e q : failed e q -> move_shows (inl {| m_phase := MCopyFailed; m_error := Some e |}) q
| shows_not_copied_silently q : failed [] q -> move_shows (inl {| m_phase := MCopyFailed; m_error := None |}) q
| shows_thrown e q : failed e q -> move_shows (inr e) q.
Inductive uninstall_shows : bool + str -> StepProgress -> Prop :=
| shows_uninstalled q : state q = SDone -> uninstall_shows (inl false) q
| shows_still_there q : failed (js "still_present") q -> uninstall_shows (inl true) q
| shows_refused e q : failed e q -> uninstall_shows (inr e) q.
Lemma move_end_shows r q : move_shows r (move_end r q).
Proof. destruct r as [[[] [e|]]|e]; by constructor. Qed.
Lemma uninstall_end_shows r q : uninstall_shows r (uninstall_end r q).
Proof. destruct r as [[]|e]; by constructor. Qed.
(** A move's or an uninstall's own calls, and what its step shows at the end; once Stop was pressed no
    further step makes a call. *)
Definition told (volumes : list str) (stop : bool) (s : PlannedStep) (obs : list (Call * bool)) (q : StepProgress) : Prop :=
  if stop then obs = [] /\ state q = SStopped
  else match work_of volumes s with
  | WNothing => obs = [] /\ state q = SSkipped
  | WUninstall t => exists r b, obs = [(CUninstall t r, b)] /\ uninstall_shows r q
  | WMove from to =>
      (exists b, obs = [(CExists to (inl true), b)] /\ state q = SSkipped /\ detail q = Some (js "dest_exists")) \/
      (exists x b r b', x <> inl true /\ obs = [(CExists to x, b); (CMove from to r, b')] /\ move_shows r q)
  end.
Fixpoint told_all (volumes : list str) (stop : bool) (l : list PlannedStep) (obs : list (Call * bool)) (st : gmap str StepProgress) : Prop :=
  match l with
  | [] => obs = []
  | s :: l =>
      exists own rest q, obs = own ++ rest /\ st !! sid s = Some q /\ told volumes stop s own q /\
        told_all volumes (stop || stopped_in own) l rest st
  end.
(** A leftover ends as the clean-up says of its item, or as not removed. *)
Definition leftover_state (res : CleanupResult) (s : PlannedStep) : StepState :=
  match cleanupId (candidate s) with
  | Some n =>
      if bool_decide (n ∈ map fst (c_failed res)) then SFailed
      else if bool_decide (n ∈ map fst (c_skipped res)) then SSkipped
      else if bool_decide (n ∈ c_done res) then SDone else SSkipped
  | None => SSkipped
  end.
Definition told_leftovers (l : list PlannedStep) (obs : list (Call * bool)) (st : gmap str StepProgress) : Prop :=
  match l with
  | [] => obs = []
  | _ => exists r b, obs = [(CCleanup (map (fun s => cleanupId (candidate s)) l) r, b)] /\
      forall s, s ∈ l -> exists q, st !! sid s = Some q /\
        match r with inl res => state q = leftover_state res s | inr e => state q = SFailed /\ detail q = Some e end
  end.

(** * Lemmas *)

Section facts.
Context {W : Type} `{!SpaceRunDeps W} (plan : SpacePlan) (volumes : list str).
Implicit Types p : St W.

Lemma put_steps id f p i : i <> id -> steps (store (put id f p)) !! i = steps (store p) !! i.
Proof. intros Hi. simpl. by rewrite lookup_insert_ne. Qed.
Lemma put_here id f p : exists q0, steps (store (put id f p)) !! id = Some (f q0).
Proof. eexists. simpl. by rewrite lookup_insert_eq. Qed.
Lemma put_rest id f p : log (put id f p) = log p /\ stopRequested (store (put id f p)) = stopRequested (store p) /\
  running (store (put id f p)) = running (store p) /\ order (store (put id f p)) = order (store p).
Proof. done. Qed.
Lemma stop_store p : steps (store (stopSpacePlan plan p)) = steps (store p) /\ log (stopSpacePlan plan p) = log p /\
  running (store (stopSpacePlan plan p)) = running (store p) /\ order (store (stopSpacePlan plan p)) = order (store p) /\
  (running (store p) = true -> stopRequested (store (stopSpacePlan plan p)) = true) /\
  (stopRequested (store p) = true -> stopRequested (store (stopSpacePlan plan p)) = true).
Proof.
  unfold stopSpacePlan. destruct (running (store p)) eqn:Er; simpl; [|done].
  assert (forall st l p0, store (fold_left (stop_one st) l p0) = store p0 /\ log (fold_left (stop_one st) l p0) = log p0) as H.
  { intros st l. induction l as [|s l IH]; intros p0; [done|]. simpl. destruct (IH (stop_one st p0 s)) as [-> ->].
    unfold stop_one. by repeat case_match. }
  destruct (H (steps (store p)) (SpacePlan.steps plan) (p <| store := (store p) <| stopRequested := true |> |>)) as [E1 E2].
  simpl in E1, E2. rewrite E1, E2. done.
Qed.
Lemma happens_spec id p m : running (store p) = true ->
  log (happens plan id p m) = log p /\ running (store (happens plan id p m)) = true /\ order (store (happens plan id p m)) = order (store p) /\
  (forall i, Some i <> id -> steps (store (happens plan id p m)) !! i = steps (store p) !! i) /\
  stopRequested (store (happens plan id p m)) = stopRequested (store p) || match m with PressStop => true | _ => false end.
Proof.
  intros Hr. destruct m as [|bytes total]; simpl.
  - destruct (stop_store p) as (E1 & E2 & E3 & E4 & E5 & _). rewrite E1, E2, E3, E4, E5, orb_true_r by done. done.
  - rewrite orb_false_r. destruct id as [j|]; [|done]. split_and!; [done|done|done| |done]. intros i Hi. apply put_steps. congruence.
Qed.
Lemma happen_all id ms p : running (store p) = true -> let p' := fold_left (happens plan id) ms p in
  log p' = log p /\ running (store p') = true /\ order (store p') = order (store p) /\
  (forall i, Some i <> id -> steps (store p') !! i = steps (store p) !! i) /\
  stopRequested (store p') = stopRequested (store p) || pressed ms.
Proof.
  revert p. induction ms as [|m ms IH]; intros p Hr; simpl; [by rewrite orb_false_r|].
  destruct (happens_spec id p m Hr) as (E1 & E2 & E3 & E4 & E5). destruct (IH _ E2) as (F1 & F2 & F3 & F4 & F5).
  rewrite F1, F3, F5, E1, E3, E5, orb_assoc. split_and!; [done|done|done| |done]. intros i Hi. by rewrite F4, E4.
Qed.
Lemma awaited_spec id ms w p : running (store p) = true -> let p' := awaited plan id ms w p in
  log p' = log p /\ running (store p') = true /\ order (store p') = order (store p) /\
  (forall i, Some i <> id -> steps (store p') !! i = steps (store p) !! i) /\
  stopRequested (store p') = stopRequested (store p) || pressed ms.
Proof. intros Hr. apply (happen_all id ms {| world := w; store := store p; log := log p |} Hr). Qed.
Lemma call_spec {A} id (f : W -> A * list Meanwhile * W) obs p : running (store p) = true -> exists a p' b, call plan id f obs p = (a, p') /\
  log p' = log p ++ [(obs a, b)] /\ running (store p') = true /\ order (store p') = order (store p) /\
  (forall i, Some i <> id -> steps (store p') !! i = steps (store p) !! i) /\ stopRequested (store p') = stopRequested (store p) || b.
Proof.
  intros Hr. unfold call. destruct (f (world p)) as [[a ms] w]. eexists a, _, (pressed ms). split; [done|].
  destruct (awaited_spec id ms w p Hr) as (F1 & F2 & F3 & F4 & F5). simpl. rewrite F1, F3, F5. by split_and!.
Qed.
(** A step's own part of the run. *)
Lemma run_other_spec p s : running (store p) = true -> exists own q, let p' := run_other plan volumes p s in
  log p' = log p ++ own /\ running (store p') = true /\ order (store p') = order (store p) /\
  (forall i, i <> sid s -> steps (store p') !! i = steps (store p) !! i) /\
  steps (store p') !! sid s = Some q /\ told volumes (stopRequested (store p)) s own q /\
  stopRequested (store p') = stopRequested (store p) || stopped_in own.
Proof.
  intros Hr. unfold run_other, told. cbv zeta. fold (sid s). destruct (stopRequested (store p)) eqn:Es.
  { destruct (put_here (sid s) (to_state SStopped) p) as [q0 Hq]. exists [], (to_state SStopped q0). rewrite app_nil_r.
    split_and!; [done..|intros i Hi; by apply put_steps|done|done|done|done]. }
  set (p1 := put (sid s) (to_state Running) p). assert (running (store p1) = true) as Hr1 by done.
  assert (forall i, i <> sid s -> steps (store p1) !! i = steps (store p) !! i) as Hp1 by (intros i Hi; by apply put_steps).
  destruct (work_of volumes s) as [from to|t|].
  - unfold run_move. fold (sid s).
    destruct (call_spec None (pathExists to) (CExists to) p1 Hr1) as (x & p2 & b & -> & L2 & R2 & O2 & S2 & T2).
    assert (x = inl true \/ x <> inl true) as [->|Hx] by (destruct x as [[]|]; [by left|by right..]).
    + destruct (put_here (sid s) (to_end SSkipped (js "dest_exists")) p2) as [q0 Hq]. eexists [_], _. split_and!; [exact L2|done|done| |exact Hq| |].
      * intros i Hi. rewrite put_steps, S2 by done. by apply Hp1.
      * left. by exists b.
      * simpl. rewrite T2. simpl. rewrite Es. by rewrite orb_false_r.
    + destruct (call_spec (Some (sid s)) (move from to (label (candidate s))) (CMove from to) p2 R2) as (r & p3 & b' & E3 & L3 & R3 & O3 & S3 & T3).
      destruct (put_here (sid s) (move_end r) p3) as [q0 Hq].
      assert (match x with inl true => put (sid s) (to_end SSkipped (js "dest_exists")) p2
        | _ => let '(out, p) := call plan (Some (sid s)) (move from to (label (candidate s))) (CMove from to) p2 in put (sid s) (move_end out) p end
        = put (sid s) (move_end r) p3) as -> by (rewrite E3; destruct x as [[]|]; done).
      eexists [_; _], _. split_and!; [simpl; by rewrite L3, L2, <-app_assoc|done|simpl; by rewrite O3, O2| |exact Hq| |].
      * intros i Hi. rewrite put_steps, S3, S2 by congruence. by apply Hp1.
      * right. exists x, b, r, b'. split_and!; [done|done|apply move_end_shows].
      * simpl. rewrite T3, T2. simpl. rewrite Es. by rewrite orb_false_r.
  - destruct (call_spec None (uninstall t (label (candidate s))) (CUninstall t) p1 Hr1) as (r & p2 & b & -> & L2 & R2 & O2 & S2 & T2).
    destruct (put_here (sid s) (uninstall_end r) p2) as [q0 Hq]. eexists [_], _. split_and!; [exact L2|done|done| |exact Hq| |].
    + intros i Hi. rewrite put_steps, S2 by done. by apply Hp1.
    + exists r, b. split; [done|apply uninstall_end_shows].
    + simpl. rewrite T2. simpl. rewrite Es. by rewrite orb_false_r.
  - destruct (put_here (sid s) (to_state SSkipped) p1) as [q0 Hq]. exists [], (to_state SSkipped q0). rewrite app_nil_r.
    split_and!; [done..| |done|done|done|done]. intros i Hi. rewrite put_steps by done. by apply Hp1.
Qed.
Lemma told_all_frame stop l obs st st' : (forall s, s ∈ l -> st' !! sid s = st !! sid s) ->
  told_all volumes stop l obs st -> told_all volumes stop l obs st'.
Proof.
  revert stop obs. induction l as [|s l IH]; intros stop obs Hst; [done|]. simpl. intros (own & rest & q & H1 & H2 & H3 & H4).
  exists own, rest, q. split_and!; [done|by rewrite Hst by left|done|]. apply IH; [|done]. intros s' Hs'. apply Hst. by right.
Qed.
Lemma run_others_spec l : forall p, running (store p) = true -> NoDup (sid <$> l) -> exists obs, let p' := fold_left (run_other plan volumes) l p in
  log p' = log p ++ obs /\ running (store p') = true /\ order (store p') = order (store p) /\
  (forall i, i ∉ sid <$> l -> steps (store p') !! i = steps (store p) !! i) /\
  told_all volumes (stopRequested (store p)) l obs (steps (store p')).
Proof.
  induction l as [|s l IH]; intros p Hr Hd; [exists []; simpl; by rewrite app_nil_r|].
  rewrite fmap_cons in Hd. apply NoDup_cons in Hd as [Hs Hd].
  destruct (run_other_spec p s Hr) as (own & q & L1 & R1 & O1 & S1 & Q1 & T1 & P1).
  destruct (IH (run_other plan volumes p s) R1 Hd) as (obs & L2 & R2 & O2 & S2 & T2). exists (own ++ obs). simpl.
  split_and!; [by rewrite L2, L1, app_assoc|done|congruence| |].
  - intros i Hi. apply not_elem_of_cons in Hi as [Hi1 Hi2]. by rewrite S2, S1.
  - exists own, obs, q. split_and!; [done|by rewrite S2|done|]. by rewrite <-P1.
Qed.

(** ** The clean-up's answer, spread over the leftovers *)

Definition same_rest (p p' : St W) : Prop :=
  log p' = log p /\ stopRequested (store p') = stopRequested (store p) /\ running (store p') = running (store p) /\ order (store p') = order (store p).
(** Only the steps in [ids] change. *)
Definition writes (ids : list str) (p p' : St W) : Prop := same_rest p p' /\ forall i, i ∉ ids -> steps (store p') !! i = steps (store p) !! i.
Lemma writes_refl ids p : writes ids p p.
Proof. done. Qed.
Lemma writes_trans ids p p1 p2 : writes ids p p1 -> writes ids p1 p2 -> writes ids p p2.
Proof.
  intros [(A1 & A2 & A3 & A4) A5] [(B1 & B2 & B3 & B4) B5]. split; [split_and!; congruence|]. intros i Hi. by rewrite B5, A5.
Qed.
Lemma writes_fold {A} ids (f : St W -> A -> St W) l p : (forall p x, x ∈ l -> writes ids p (f p x)) -> writes ids p (fold_left f l p).
Proof.
  revert p. induction l as [|x l IH]; intros p H; [apply writes_refl|]. simpl. eapply writes_trans; [apply H; left|].
  apply IH. intros p1 y Hy. apply H. by right.
Qed.
Lemma writes_put ids i f p : i ∈ ids -> writes ids p (put i f p).
Proof. intros Hi. split; [done|]. intros j Hj. apply put_steps. by intros ->. Qed.
Lemma put_state i t f p : (forall q, state (f q) = t) -> state_of i (put i f p) = Some t.
Proof. intros Hf. unfold state_of. destruct (put_here i f p) as [q ->]. simpl. by rewrite Hf. Qed.
Lemma state_of_writes ids p p' i : writes ids p p' -> i ∉ ids -> state_of i p' = state_of i p.
Proof. intros [_ H] Hi. unfold state_of. by rewrite H. Qed.

(** The same edit of every leftover. *)
Lemma fold_put (l : list PlannedStep) f p s : s ∈ l -> exists q, steps (store (fold_left (fun p s => put (sid s) f p) l p)) !! sid s = Some (f q).
Proof.
  revert s p. induction l as [|x l IH]; intros s p; [by intros ?%elem_of_nil|]. simpl. intros [->|Hs]%elem_of_cons; [|by apply IH].
  destruct (decide (sid x ∈ sid <$> l)) as [(y & E & Hy)%list_elem_of_fmap|Hn]; [rewrite E; by apply IH|].
  destruct (put_here (sid x) f p) as [q Hq]. exists q. rewrite <-Hq.
  assert (writes (sid <$> l) (put (sid x) f p) (fold_left (fun p s => put (sid s) f p) l (put (sid x) f p))) as [_ Hw]; [|by apply Hw].
  apply writes_fold. intros p1 y Hy. apply writes_put. by apply list_elem_of_fmap_2.
Qed.
Lemma map_set_new k v m : k ∉ map fst m -> map_set k v m = m ++ [(k, v)].
Proof.
  induction m as [|[k' v'] m IH]; [done|]. simpl. intros [Hne Hk]%not_elem_of_cons. rewrite decide_False by done. by rewrite IH.
Qed.
Definition entry_of (s : PlannedStep) : option Z * str := (cleanupId (candidate s), sid s).
Lemma byCleanupId_nodup l : NoDup (map (fun s => cleanupId (candidate s)) l) -> byCleanupId l = map entry_of l.
Proof.
  intros Hd. unfold byCleanupId. rewrite <-(app_nil_l (map entry_of l)).
  assert (NoDup (map fst ([] : list (option Z * str)) ++ map (fun s => cleanupId (candidate s)) l)) as H0 by done. clear Hd. revert H0.
  generalize ([] : list (option Z * str)) as m. induction l as [|s l IH]; intros m Hd; simpl; [by rewrite app_nil_r|].
  simpl in Hd. rewrite map_set_new.
  - rewrite IH; [by rewrite <-app_assoc|]. rewrite map_app. simpl. by rewrite <-app_assoc.
  - apply NoDup_app in Hd as (_ & H & _). intros Hx. apply (H _ Hx). left.
Qed.
Lemma map_get_entry l s n : NoDup (map (fun s => cleanupId (candidate s)) l) -> s ∈ l -> cleanupId (candidate s) = Some n -> sid s <> [] ->
  map_get n (map entry_of l) = Some (sid s).
Proof.
  induction l as [|x l IH]; [by intros _ ?%elem_of_nil|]. simpl. intros [Hx Hd]%NoDup_cons [->|Hs]%elem_of_cons Hn Hi.
  - rewrite decide_True by done. by destruct (sid x).
  - rewrite decide_False; [by apply IH|]. intros E. apply Hx. rewrite E, <-Hn. by apply (list_elem_of_fmap_2 (fun s => cleanupId (candidate s))).
Qed.
Lemma map_get_some n l i : map_get n (map entry_of l) = Some i -> exists s, s ∈ l /\ cleanupId (candidate s) = Some n /\ sid s = i.
Proof.
  induction l as [|x l IH]; [done|]. simpl. case_decide as Hx.
  - intros H. exists x. split; [left|]. split; [done|]. destruct (sid x); [done|congruence].
  - intros (s & Hs & H)%IH. exists s. split; [by right|done].
Qed.
Section spread.
Context (l : list PlannedStep) (Hids : NoDup (sid <$> l)) (Hkeys : NoDup (map (fun s => cleanupId (candidate s)) l)) (Hne : forall s, s ∈ l -> sid s <> []).
Lemma mark_writes f n p : writes (sid <$> l) p (mark (map entry_of l) f n p).
Proof.
  unfold mark. destruct (map_get n (map entry_of l)) as [i|] eqn:E; [|apply writes_refl].
  apply map_get_some in E as (s & Hs & _ & <-). apply writes_put. by apply list_elem_of_fmap_2.
Qed.
Lemma sid_inj s s' : s ∈ l -> s' ∈ l -> sid s = sid s' -> s = s'.
Proof.
  intros (a & Ha)%list_elem_of_lookup (b & Hb)%list_elem_of_lookup E.
  assert (a = b) as ->; [|congruence]. eapply (NoDup_lookup (sid <$> l) a b (sid s)); [done|..]; rewrite list_lookup_fmap; [by rewrite Ha|by rewrite Hb, E].
Qed.
Lemma mark_state f t n p s k : (forall q, state (f q) = t) -> s ∈ l -> cleanupId (candidate s) = Some k ->
  state_of (sid s) (mark (map entry_of l) f n p) = if decide (k = n) then Some t else state_of (sid s) p.
Proof.
  intros Hf Hs Hk. unfold mark. case_decide as Hkn.
  - subst k. rewrite (map_get_entry l s n) by auto. by apply put_state.
  - destruct (map_get n (map entry_of l)) as [i|] eqn:E; [|done]. apply map_get_some in E as (s' & Hs' & Hn & <-).
    unfold state_of. rewrite put_steps; [done|]. intros Hi. assert (s = s') as -> by by apply sid_inj. congruence.
Qed.
(** One list of the answer. *)
Lemma marks_state {A} (key : A -> Z) (f : A -> StepProgress -> StepProgress) t xs p s k :
  (forall x q, state (f x q) = t) -> s ∈ l -> cleanupId (candidate s) = Some k ->
  state_of (sid s) (fold_left (fun p x => mark (map entry_of l) (f x) (key x) p) xs p) =
    if bool_decide (k ∈ map key xs) then Some t else state_of (sid s) p.
Proof.
  intros Hf Hs Hk. revert p. induction xs as [|x xs IH]; intros p; [done|]. simpl. rewrite IH, (mark_state _ t _ _ _ k) by done.
  destruct (decide (k = key x)) as [->|Hn].
  - rewrite (bool_decide_true (key x ∈ _ :: _)) by left. by destruct (bool_decide _).
  - destruct (decide (k ∈ map key xs)) as [Hin|Hout]; [rewrite !bool_decide_true; [done|by right|done]|].
    rewrite !bool_decide_false; [done|by intros [?|?]%elem_of_cons|done].
Qed.
Lemma unmentioned_writes p s : s ∈ l -> writes (sid <$> l) p (unmentioned p s).
Proof. intros Hs. unfold unmentioned. case_bool_decide; [apply writes_put; by apply list_elem_of_fmap_2|apply writes_refl]. Qed.
Lemma unmentioned_state p s s' : sid s <> sid s' -> state_of (sid s) (unmentioned p s') = state_of (sid s) p.
Proof. intros Hne'. unfold unmentioned. case_bool_decide; [|done]. unfold state_of. by rewrite put_steps. Qed.
Lemma unmentioned_here p s : state_of (sid s) (unmentioned p s) =
  if bool_decide (state_of (sid s) p = Some Running) then Some SSkipped else state_of (sid s) p.
Proof. unfold unmentioned. case_bool_decide; [by apply put_state|done]. Qed.
Lemma unmentioned_all l' p s : NoDup (sid <$> l') -> s ∈ l' -> state_of (sid s) (fold_left unmentioned l' p) =
  if bool_decide (state_of (sid s) p = Some Running) then Some SSkipped else state_of (sid s) p.
Proof.
  revert p. induction l' as [|x l' IH]; intros p; [by intros _ ?%elem_of_nil|]. rewrite fmap_cons. intros [Hx Hd]%NoDup_cons [->|Hs]%elem_of_cons; simpl.
  - rewrite <-unmentioned_here. clear IH. generalize (unmentioned p x) as p1. revert Hx. clear. induction l' as [|y l' IH]; [done|].
    rewrite fmap_cons. intros [Hy Hx]%not_elem_of_cons p1. simpl. rewrite IH by done. by apply unmentioned_state.
  - rewrite IH by done. rewrite unmentioned_state; [done|]. intros E. apply Hx. rewrite <-E. by apply list_elem_of_fmap_2.
Qed.
End spread.

(** ** The whole run *)

Definition leftovers_ok (l : list PlannedStep) : Prop :=
  NoDup (map (fun s => cleanupId (candidate s)) l) /\ forall s, s ∈ l -> sid s <> [] /\ is_Some (cleanupId (candidate s)).
Lemma cleaned_spec l res p : NoDup (sid <$> l) -> leftovers_ok l -> (forall s, s ∈ l -> state_of (sid s) p = Some Running) ->
  writes (sid <$> l) p (cleaned l (map entry_of l) res p) /\
  forall s, s ∈ l -> state_of (sid s) (cleaned l (map entry_of l) res p) = Some (leftover_state res s).
Proof.
  intros Hids [Hkeys Hok] Hrun. split.
  - unfold cleaned. cbv zeta.
    eapply writes_trans; [|apply writes_fold; intros p1 s Hs; by apply unmentioned_writes].
    do 2 (eapply writes_trans; [|apply writes_fold; intros p1 x _; apply mark_writes]).
    apply writes_fold. intros p1 x _. apply mark_writes.
  - intros s Hs. destruct (Hok s Hs) as [Hne [k Hk]]. unfold cleaned, leftover_state. cbv zeta. rewrite Hk, (unmentioned_all l _ s Hids Hs).
    pose proof (fun s Hs => proj1 (Hok s Hs)) as Hne'.
    rewrite (marks_state l Hids Hkeys Hne' fst _ SFailed _ _ s k), (marks_state l Hids Hkeys Hne' fst _ SSkipped _ _ s k) by done.
    rewrite (marks_state l Hids Hkeys Hne' (fun n => n) (fun _ => to_state SDone) SDone _ _ s k) by done.
    rewrite (Hrun s Hs), map_id. by repeat case_bool_decide.
Qed.
Lemma run_leftovers_spec l p : running (store p) = true -> stopRequested (store p) = false -> NoDup (sid <$> l) -> leftovers_ok l ->
  exists obs, let p' := run_leftovers plan l p in
  log p' = log p ++ obs /\ running (store p') = true /\ order (store p') = order (store p) /\
  stopRequested (store p') = stopped_in obs /\ told_leftovers l obs (steps (store p')).
Proof.
  intros Hr Hs Hids Hok. unfold run_leftovers. rewrite Hs, orb_false_r. case_bool_decide as Hl.
  { exists []. rewrite app_nil_r. by subst. }
  set (p1 := fold_left (fun p s => put (sid s) (to_state Running) p) l p).
  assert (writes (sid <$> l) p p1) as [(L1 & P1 & R1 & O1) _] by (apply writes_fold; intros q s Hin; apply writes_put; by apply list_elem_of_fmap_2).
  rewrite byCleanupId_nodup by apply Hok.
  assert (map fst (map entry_of l) = map (fun s => cleanupId (candidate s)) l) as -> by (rewrite map_map; done). cbv zeta.
  destruct (call_spec None (cleanup (map (fun s => cleanupId (candidate s)) l)) (CCleanup (map (fun s => cleanupId (candidate s)) l)) p1
    ltac:(congruence)) as (r & p2 & b & -> & L2 & R2 & O2 & S2 & T2).
  assert (forall s, s ∈ l -> state_of (sid s) p2 = Some Running) as Hrun.
  { intros s Hin. unfold state_of. rewrite S2 by done. destruct (fold_put l (to_state Running) p s Hin) as [q Hq]. fold p1 in Hq. by rewrite Hq. }
  assert (exists p', match r with inl res => cleaned l (map entry_of l) res p2 | inr e => fold_left (fun p s => put (sid s) (to_end SFailed e) p) l p2 end = p' /\
    same_rest p2 p' /\ (forall s, s ∈ l -> exists q, steps (store p') !! sid s = Some q /\
      match r with inl res => state q = leftover_state res s | inr e => state q = SFailed /\ detail q = Some e end)) as (p' & -> & (L3 & P3 & R3 & O3) & Hend).
  { eexists. split; [done|]. destruct r as [res|e].
    - destruct (cleaned_spec l res p2 Hids Hok Hrun) as [[Hrest _] Hst]. split; [done|]. intros s Hin.
      specialize (Hst s Hin). apply fmap_Some in Hst as (q & Hq & E). by exists q.
    - split; [apply (writes_fold (sid <$> l)); intros q s Hin; apply writes_put; by apply list_elem_of_fmap_2|].
      intros s Hin. destruct (fold_put l (to_end SFailed e) p2 s Hin) as [q Hq]. by eexists. }
  exists [(CCleanup (map (fun s => cleanupId (candidate s)) l) r, b)]. split_and!; [congruence|congruence|congruence| |].
  - rewrite P3, T2, P1, Hs. simpl. by rewrite orb_false_r.
  - unfold told_leftovers. destruct l as [|x l]; [done|]. by exists r, b.
Qed.
End facts.

Lemma filter_both {A} (f : A -> bool) l : List.filter f l ++ List.filter (fun x => negb (f x)) l ≡ₚ l.
Proof. induction l as [|x l IH]; [done|]. simpl. destruct (f x); simpl; [by rewrite IH|]. by rewrite <-Permutation_middle, IH. Qed.


(** * The console's own calls *)

(** [consoleSpaceRunDeps.move]: what the plan hears of the Games Move it ran. *)
Definition console_move (m : option LibraryMoveState) : MoveOutcome :=
  match m with
  | None => {| m_phase := MCopyFailed; m_error := Some (js "move did not start") |}
  | Some s =>
      match phase s with
      | Copying | Deleting => {| m_phase := MCopyFailed; m_error := Some (js "already moving") |}
      | Done => {| m_phase := MDone; m_error := error s |}
      | Cancelled => {| m_phase := MCancelled; m_error := error s |}
      | CopyFailed => {| m_phase := MCopyFailed; m_error := error s |}
      | DeleteFailed => {| m_phase := MDeleteFailed; m_error := error s |}
      end
  end.
(** A step the plan shows as done is a move whose copy and removal the console confirmed, and one shown
    as "both copies" one whose removal alone failed. *)
Lemma console_move_told w key : LibraryMove.reachable w ->
  match m_phase (console_move (libraryMove w key)) with
  | MDone => exists k r, runs w !! k = Some r /\ key_of r = key /\ CopyAnswered None ∈ did r /\ last (did r) = Some (DeleteAnswered None)
  | MDeleteFailed => exists k r msg, runs w !! k = Some r /\ key_of r = key /\ CopyAnswered None ∈ did r /\ last (did r) = Some (DeleteAnswered (Some msg))
  | MCancelled => exists k r msg, runs w !! k = Some r /\ key_of r = key /\ last (did r) = Some (CopyAnswered (Some msg)) /\ ~ DeleteAsked ∈ did r
  | MCopyFailed => True
  end.
Proof.
  intros Hw%reachable_Inv. unfold console_move, libraryMove. destruct (byKey w !! key) as [s|] eqn:Es; [|done].
  destruct (inv_says _ Hw _ _ Es) as (k & r & Hk & Hkey & (_ & _ & H3) & _).
  pose proof (inv_run _ Hw _ _ Hk) as Hok. pose proof (outcome_tells r Hok) as Ht. rewrite <-H3 in Ht. simpl in Ht.
  destruct (phase s); simpl; [done|done|by exists k, r| |done|].
  - destruct Ht as (msg & Hl & _). exists k, r, msg. split_and!; [done..|].
    destruct Hok as [(c & rest & _ & _ & Hd & Hr) _ _]. rewrite Hd in Hl |- *. unfold rest_ok in Hr. intros Hin.
    assert (DeleteAsked ∈ rest) as Hrest.
    { apply elem_of_cons in Hin as [?|[Hx|?]%elem_of_app]; [done| |done]. by apply list_elem_of_In, repeat_spec in Hx. }
    assert (rest = [CopyAnswered None; DeleteAsked] \/ exists e, rest = [CopyAnswered None; DeleteAsked; DeleteAnswered e]) as Hcase.
    { destruct (main r) as [|e| |]; [destruct Hr as [_ ->]; by apply elem_of_nil in Hrest
        |destruct Hr as [_ ->]; by apply list_elem_of_singleton in Hrest|destruct Hr as (_ & _ & _ & ->); by left|].
      destruct Hr as (_ & _ & _ & [[msg' ->]|[e ->]]); [by apply list_elem_of_singleton in Hrest|right; by exists e]. }
    rewrite app_comm_cons, last_app in Hl. destruct Hcase as [->|[e ->]]; done.
  - destruct Ht as (Hc & msg & Hl & _). by exists k, r, msg.
Qed.

(** * Runs *)

(** A console whose copy to [busy] is in the way, whose clean-up leaves item 2 out, and on which Stop is
    pressed while the second move copies. *)
#[local] Instance demo_deps (busy stop_at : str) : SpaceRunDeps (list str) := {|
  cleanup ids w := (inl {| c_done := [1]; c_skipped := []; c_failed := [] |}, [], w);
  pathExists p w := (inl (bool_decide (p = busy)), if decide (p = stop_at) then [PressStop] else [], w ++ [js "look "; p]);
  move from to _ w := (inl {| m_phase := MDone; m_error := None |}, if decide (from = stop_at) then [Progress 1 2; PressStop] else [Progress 1 2], w ++ [js "move "; from; to]);
  stopMove from w := w ++ [js "stop "; from];
  uninstall t _ w := (inr (js "offline"), [], w ++ [js "uninstall "; t]) |}.
Definition step_for (i : string) (k : SpaceStepKind) (c : option Z) (p d : option string) (t : option string) : PlannedStep := {|
  candidate := {| id := js i; kind := k; label := js i; titleId := js <$> t; bytes := 5; lastPlayedMs := None; hasCopy := Some true;
    moveTargets := Some [js "/mnt/ext1"]; cleanupId := c; path := js <$> p |}; selected := true; dest := js <$> d |}.
Definition demo_plan : SpacePlan := {|
  SpacePlan.steps := [step_for "m1" Move None (Some "/data/homebrew/A") (Some "/mnt/ext1") None; step_for "l1" Leftover (Some 1) None None None;
    step_for "m2" Move None (Some "/data/homebrew/B") (Some "/mnt/ext1") None; step_for "l2" Leftover (Some 2) None None None;
    step_for "u1" Uninstall None None None (Some "CUSA00001")]%string;
  shortBytes := 9; freedBytes := 9; enough := true; missingBytes := 0; actions := 5 |}.
Definition drives : list str := js <$> ["/data"; "/mnt/ext1"]%string.
Definition demo_start : St (list str) := {| world := []; store := IDLE; log := [] |}.
Definition demo_end (busy stop_at : string) : St (list str) :=
  runSpacePlan (SpaceRunDeps0 := demo_deps (js busy) (js stop_at)) demo_plan drives (js "10.0.0.2") demo_start.
Definition shown (p : St (list str)) : list (option StepState) := map (fun i => state_of (js i) p) ["l1"; "l2"; "m1"; "m2"; "u1"]%string.
Lemma demo_ids : NoDup (sid <$> runOrder demo_plan).
Proof. apply (bool_decide_unpack _). vm_compute. exact I. Qed.
Lemma demo_leftovers : leftovers_ok (List.filter is_leftover (runOrder demo_plan)).
Proof.
  split; [apply (bool_decide_unpack _); vm_compute; exact I|]. intros s Hs.
  assert (List.filter is_leftover (runOrder demo_plan) = [step_for "l1" Leftover (Some 1) None None None; step_for "l2" Leftover (Some 2) None None None]) as E by (vm_compute; reflexivity).
  rewrite E in Hs. apply elem_of_cons in Hs as [->|Hs%list_elem_of_singleton]; [|subst s]; (split; [done|by eexists]).
Qed.

(** Stop while the run looks whether a move's destination is free: the move is asked to stop before it
    started, which stops nothing, and then it is copied and its source removed ([stopSpacePlan] says a
    move under way stops its copy and the original stays). *)
Theorem stop_before_the_copy_is_lost :
  world (demo_end "" "/mnt/ext1/homebrew/A") =
    js <$> ["look "; "/mnt/ext1/homebrew/A"; "stop "; "/data/homebrew/A"; "move "; "/data/homebrew/A"; "/mnt/ext1/homebrew/A"]%string /\
  shown (demo_end "" "/mnt/ext1/homebrew/A") = [Some SDone; Some SSkipped; Some SDone; Some SStopped; Some SStopped] /\
  forall w, libraryMove w (libraryMoveKey (js "10.0.0.2") (js "/data/homebrew/A")) = None ->
    stopLibraryMove (libraryMoveKey (js "10.0.0.2") (js "/data/homebrew/A")) w = w.
Proof. split; [vm_compute; reflexivity|]. split; [vm_compute; reflexivity|]. intros w Hw. unfold stopLibraryMove. by rewrite Hw. Qed.

(** A move keeps its folder; but a console that lists its internal drive as /user loses the folder of a
    path under /data, against what [moveDestination] says of itself. *)
Theorem moveDestination_folders :
  moveDestination drives (js "/data/homebrew/X") (js "/mnt/ext1") = js "/mnt/ext1/homebrew/X" /\
  moveDestination (js <$> ["/user"; "/mnt/ext1"]%string) (js "/data/homebrew/X") (js "/mnt/ext1") = js "/mnt/ext1/X".
Proof. split; vm_compute; reflexivity. Qed.
