(* ===== verification/Program.v ===== *)
(** Asynchronous routines as trees of calls: each await is a call the environment answers or refuses,
    and between two calls the routine may be cut off for good (the window is closed, the power goes).
    What a routine may be interrupted in is therefore every state its calls lead through. *)
From S2P Require Import Prelude.

Section program.
Context {Cmd : Type} {reply : Cmd -> Type} {E : Type}.

(** [Spin]: a loop goes round once more than the model counts. *)
Inductive Prog (A : Type) :=
| Ret (x : A)
| Throw (e : E)
| Op (c : Cmd) (k : reply c + E -> Prog A)
| Spin.
Arguments Ret {A} x.
Arguments Throw {A} e.
Arguments Op {A} c k.
Arguments Spin {A}.

Definition call (c : Cmd) : Prog (reply c) :=
  Op c (fun r => match r with inl x => Ret x | inr e => Throw e end).
Fixpoint bind {A B} (p : Prog A) (f : A -> Prog B) : Prog B :=
  match p with
  | Ret x => f x
  | Throw e => Throw e
  | Op c k => Op c (fun r => bind (k r) f)
  | Spin => Spin
  end.
(** [try { return p } catch (e) { return f(e) }] *)
Fixpoint catch {A} (p : Prog A) (f : E -> Prog A) : Prog A :=
  match p with
  | Ret x => Ret x
  | Throw e => f e
  | Op c k => Op c (fun r => catch (k r) f)
  | Spin => Spin
  end.

(** ** Runs *)
Section runs.
Context {W : Type} (answers : W -> forall c, reply c + E -> W -> Prop).

Inductive step {A} : Prog A * W -> Prog A * W -> Prop :=
| step_op c k w r w' : answers w c r w' -> step (Op c k, w) (k r, w').

(** What holds whatever the environment answers: [I] in every state the routine can be cut off in,
    [G] before each call, [Q] at its end; it never spins unless [S]. *)
Section wp.
Context (I : W -> Prop) (G : Cmd -> W -> Prop) (S : Prop).

Fixpoint wp {A} (p : Prog A) (Q : A + E -> W -> Prop) (w : W) : Prop :=
  I w /\
  match p with
  | Ret x => Q (inl x) w
  | Throw e => Q (inr e) w
  | Op c k => G c w /\ forall r w', answers w c r w' -> wp (k r) Q w'
  | Spin => S
  end.

Lemma wp_inv {A} (p : Prog A) Q w : wp p Q w -> I w.
Proof. by destruct p; intros [? _]. Qed.
Lemma wp_impl {A} (p : Prog A) (Q Q' : A + E -> W -> Prop) w :
  wp p Q w -> (forall r w', I w' -> Q r w' -> Q' r w') -> wp p Q' w.
Proof.
  revert w. induction p as [x|e|c k IH|]; intros w; simpl; [intuition eauto..| |done].
  intros (HI & HG & H) HQ. split; [done|]. split; [done|]. intros r w' Hr. eauto.
Qed.
Lemma wp_bind {A B} (p : Prog A) (f : A -> Prog B) Q w :
  wp p (fun r w' => match r with inl x => wp (f x) Q w' | inr e => Q (inr e) w' end) w ->
  wp (bind p f) Q w.
Proof.
  revert w. induction p as [x|e|c k IH|]; intros w; simpl; [by intros [_ ?]|done| |done].
  intros (HI & HG & H). split; [done|]. split; [done|]. eauto.
Qed.
Lemma wp_catch {A} (p : Prog A) (f : E -> Prog A) Q w :
  wp p (fun r w' => match r with inl x => Q (inl x) w' | inr e => wp (f e) Q w' end) w ->
  wp (catch p f) Q w.
Proof.
  revert w. induction p as [x|e|c k IH|]; intros w; simpl; [done|by intros [_ ?]| |done].
  intros (HI & HG & H). split; [done|]. split; [done|]. eauto.
Qed.
Lemma wp_ret {A} (x : A) Q w : I w -> Q (inl x) w -> wp (Ret x) Q w.
Proof. done. Qed.
Lemma wp_throw {A} e (Q : A + E -> W -> Prop) w : I w -> Q (inr e) w -> wp (Throw e) Q w.
Proof. done. Qed.
Lemma wp_call c (Q : reply c + E -> W -> Prop) w :
  I w -> G c w -> (forall r w', answers w c r w' -> I w' /\ Q r w') -> wp (call c) Q w.
Proof.
  intros HI HG H. simpl. split; [done|]. split; [done|].
  intros [x|e] w' [HI' HQ]%H; by split.
Qed.

(** Every state of every run. *)
Lemma wp_step {A} (Q : A + E -> W -> Prop) s s' : step s s' -> wp s.1 Q s.2 -> wp s'.1 Q s'.2.
Proof. intros [c k w r w' Hr]. simpl. intros (_ & _ & H). by apply H. Qed.
Lemma wp_reach {A} (Q : A + E -> W -> Prop) s s' : rtc step s s' -> wp s.1 Q s.2 -> wp s'.1 Q s'.2.
Proof. induction 1 as [|s s1 s2 H1 _ IH]; [done|]. intros H. apply IH. by eapply wp_step. Qed.
End wp.

(** ** What a routine comes to, where nothing is asked of the moments in between *)
Definition Wp (S : Prop) {A} (p : Prog A) (Q : A + E -> W -> Prop) (w : W) : Prop := wp (fun _ => True) (fun _ _ => True) S p Q w.
Lemma Wp_ret S {A} (x : A) (Q : A + E -> W -> Prop) w : Q (inl x) w -> Wp S (Ret x) Q w.
Proof. by split. Qed.
Lemma Wp_throw S {A} e (Q : A + E -> W -> Prop) w : Q (inr e) w -> Wp S (Throw e) Q w.
Proof. by split. Qed.
Lemma Wp_spin (S : Prop) {A} (Q : A + E -> W -> Prop) w : S -> Wp S Spin Q w.
Proof. by split. Qed.
Lemma Wp_bind S {A B} (p : Prog A) (f : A -> Prog B) Q w :
  Wp S p (fun r w' => match r with inl x => Wp S (f x) Q w' | inr e => Q (inr e) w' end) w -> Wp S (bind p f) Q w.
Proof. apply wp_bind. Qed.
Lemma Wp_catch S {A} (p : Prog A) f Q w :
  Wp S p (fun r w' => match r with inl x => Q (inl x) w' | inr e => Wp S (f e) Q w' end) w -> Wp S (catch p f) Q w.
Proof. apply wp_catch. Qed.
Lemma Wp_call S c (Q : reply c + E -> W -> Prop) w : (forall r w', answers w c r w' -> Q r w') -> Wp S (call c) Q w.
Proof. intros H. apply wp_call; [done|done|]. intros r w' Hr. split; [done|]. by apply H. Qed.
Lemma Wp_impl S {A} (p : Prog A) (Q Q' : A + E -> W -> Prop) w : Wp S p Q w -> (forall r w', Q r w' -> Q' r w') -> Wp S p Q' w.
Proof. intros H HQ. eapply wp_impl; [exact H|]. intros r w' _. apply HQ. Qed.
(** The routine is at its end, with what [Q] says of it. *)
Definition ended_as {A} (Q : A + E -> W -> Prop) (p : Prog A) (w : W) : Prop :=
  match p with Ret x => Q (inl x) w | Throw e => Q (inr e) w | _ => True end.
Lemma Wp_run (S : Prop) {A} (p : Prog A) Q w q w' : Wp S p Q w -> rtc step (p, w) (q, w') -> ended_as Q q w' /\ (q = Spin -> S).
Proof.
  intros Hw Hr. apply (wp_reach _ _ _ _ (p, w) (q, w') Hr) in Hw. simpl in Hw. destruct q; simpl; (split; [try apply Hw; done|]); try done. intros _. apply Hw.
Qed.

(** Weaker demands hold of the same routine. *)
Lemma wp_weaken (I I' : W -> Prop) (G G' : Cmd -> W -> Prop) (S S' : Prop) {A} (p : Prog A) Q w :
  (forall w, I w -> I' w) -> (forall c w, G c w -> G' c w) -> (S -> S') ->
  wp I G S p Q w -> wp I' G' S' p Q w.
Proof.
  intros HI HG HS. revert w. induction p as [x|e|c k IH|]; intros w; simpl; [naive_solver..| |naive_solver].
  intros (? & ? & H). split; [auto|]. split; [auto|]. eauto.
Qed.

(** ** A run against one environment that is a function *)
Fixpoint play {A} (n : nat) (env : W -> forall c, (reply c + E) * W) (p : Prog A) (w : W) : Prog A * W :=
  match n, p with
  | S n, Op c k => let '(r, w') := env w c in play n env (k r) w'
  | _, _ => (p, w)
  end.
Lemma play_runs {A} n env (p : Prog A) w : (forall w c, answers w c (env w c).1 (env w c).2) -> rtc step (p, w) (play n env p w).
Proof.
  intros He. revert p w. induction n as [|n IH]; intros [x|e|c k|] w; try apply rtc_refl. simpl.
  specialize (He w c). destruct (env w c) as [r w']. eapply rtc_l; [by constructor|apply IH].
Qed.
End runs.
End program.
Arguments Prog {Cmd} reply E A.
Arguments Ret {Cmd reply E A} x.
Arguments Throw {Cmd reply E A} e.
Arguments Op {Cmd reply E A} c k.
Arguments Spin {Cmd reply E A}.

Notation "'do' x '<-' p 'in' k" := (bind p (fun x => k)) (at level 10, x name, p at level 100, k at level 200) : js_scope.

(** A routine that never spins comes to its end when every call is answered, whatever the answers. *)
Definition finished {Cmd} {reply : Cmd -> Type} {E A} (p : Prog reply E A) : Prop :=
  match p with Ret _ | Throw _ => True | _ => False end.
Lemma wp_ends {Cmd} {reply : Cmd -> Type} {E W} (answers : W -> forall c : Cmd, reply c + E -> W -> Prop) I G
    {A} (p : Prog reply E A) Q w :
  (forall w c, exists r w', answers w c r w') -> wp answers I G False p Q w ->
  exists p' w', rtc (step answers) (p, w) (p', w') /\ finished p' /\ wp answers I G False p' Q w'.
Proof.
  intros Ht. revert w. induction p as [x|e|c k IH|]; intros w H.
  - by exists (Ret x), w.
  - by exists (Throw e), w.
  - destruct (Ht w c) as (r & w' & Hr). destruct H as (_ & _ & H). destruct (IH r w' (H r w' Hr)) as (p' & w2 & Hs & Hf & Hw).
    exists p', w2. split; [|done]. eapply rtc_l; [by constructor|exact Hs].
  - by destruct H.
Qed.
