(* ===== verification/JobWait.v ===== *)
(** Waiting for the helper's and the engine's jobs: the batch's waiter and the page's one batch
    (client/src/console/files/batch.ts), a watched operation (client/src/console/files/opJob.ts), status
    reads and removals with retries (client/src/lib/pollRead.ts, client/src/lib/deleteWithRetry.ts).

    The loops are [Program]s: each call is answered by anything or fails, and Stop may be pressed while
    any of them is awaited. [Tracked] is the environment that keeps the calls and answers; the loops'
    rounds are counted by fuel, and [Spin] is one round too many. *)
From S2P Require Import Prelude Program.

(** * Calls *)

Inductive JobState := JRunning | JDone | JFailed.
#[export] Instance jobstate_eq_dec : EqDecision JobState.
Proof. solve_decision. Defined.
Record Job := { job : str; j_state : JobState }.
(** [ApiError] with its status, or any other error. *)
Inductive Err := ApiError (status : Z) (code : str) | Other (message : str).
Definition is_status (n : Z) (e : Err) : bool := match e with ApiError s _ => s =? n | Other _ => false end.
Record OpStatus := { o_state : JobState; o_message : option str; o_result : option str }.

Inductive Cmd :=
| FetchJobs
| Status (id : str)
| Cancel (id : str)
| Stopped            (* [stopped()]: whether Stop was pressed *)
| Sleep (ms : Z)
| Delete
| Read.
Definition reply (T : Type) (c : Cmd) : Type :=
  match c with FetchJobs => list Job | Status _ => OpStatus | Stopped => bool | Read => T | _ => unit end.

Section programs.
Context {T : Type}.
#[local] Abbreviation Prog := (Prog (reply T) Err).
Definition ask (c : Cmd) : Prog (reply T c) := call c.

(** ** The batch's waiter *)

Inductive JobEnd := EDone | EFailed | EGone | ELeft | ECancelled.
Definition BATCH_POLL_MS : Z := 1000.
Definition BATCH_ABSENT_READS : Z := 2.
Definition BATCH_CANCEL_READS : Z := 10.

(** [p.catch((e) => { if (e is a 401) throw e; })] *)
Definition unless_401 (p : Prog unit) : Prog unit := catch p (fun e => if is_status 401 e then Throw e else Ret tt).
Definition find_job (id : str) (l : list Job) : option JobState := j_state <$> find_first (fun j => bool_decide (job j = id)) l.
Definition end_of (cancelAsked : bool) (s : JobState) : JobEnd :=
  match s with JFailed => if cancelAsked then ECancelled else EFailed | _ => EDone end.

(** [createJobWaiter(deps)(id, stopped)] past its declarations; [can_cancel]: [deps.cancel] is given. *)
Fixpoint wait_loop (rounds : nat) (can_cancel : bool) (pollMs : Z) (id : str) (absent : Z) (cancelAsked : bool) (after : Z) : Prog JobEnd :=
  match rounds with
  | O => Spin
  | S rounds =>
      do jobs <- catch (do l <- ask FetchJobs in Ret (Some l)) (fun e => if is_status 401 e then Throw e else Ret None) in
      let rest (absent : Z) : Prog JobEnd :=
        do stop <- ask Stopped in
        let next cancelAsked after :=
          do _ <- ask (Sleep pollMs) in
          if can_cancel then wait_loop rounds can_cancel pollMs id absent cancelAsked after
          else do stop <- ask Stopped in
               if stop then Ret ELeft else wait_loop rounds can_cancel pollMs id absent cancelAsked after in
        if stop then
          if negb can_cancel then Ret ELeft
          else if cancelAsked then if BATCH_CANCEL_READS <? after + 1 then Ret ELeft else next true (after + 1)
          else do _ <- unless_401 (ask (Cancel id)) in next true after
        else next cancelAsked after in
      match jobs with
      | Some l =>
          match find_job id l with
          | Some JRunning => rest 0
          | Some s => Ret (end_of cancelAsked s)
          | None =>
              if BATCH_ABSENT_READS <=? absent + 1 then Ret (if cancelAsked then ECancelled else EGone)
              else rest (absent + 1)
          end
      | None => rest absent
      end
  end.
Definition waitJob (rounds : nat) (can_cancel : bool) (id : str) : Prog JobEnd := wait_loop rounds can_cancel BATCH_POLL_MS id 0 false 0.

(** ** A watched operation *)

Definition OP_POLL_MS : Z := 1000.
Definition OP_CANCEL_READS : Z := 10.
Inductive OpEnd := OEnd (e : JobEnd) (s : OpStatus) | OGone.
Fixpoint watch_loop (rounds : nat) (id : str) (cancelAsked : bool) (after : Z) : Prog OpEnd :=
  match rounds with
  | O => Spin
  | S rounds =>
      do cancelAsked <- (if cancelAsked then Ret true
                         else do stop <- ask Stopped in
                              if stop then do _ <- unless_401 (ask (Cancel id)) in Ret true else Ret false) in
      do s <- catch (do s <- ask (Status id) in Ret (inl s))
                (fun e => if is_status 401 e then Throw e else Ret (inr (is_status 404 e))) in
      let rest : Prog OpEnd :=
        if cancelAsked && (OP_CANCEL_READS <? after + 1) then Ret OGone
        else do _ <- ask (Sleep OP_POLL_MS) in
             watch_loop rounds id cancelAsked (if cancelAsked then after + 1 else after) in
      match s with
      | inr true => Ret OGone
      | inr false => rest
      | inl s => match o_state s with JRunning => rest | t => Ret (OEnd (end_of cancelAsked t) s) end
      end
  end.
Definition watchOp (rounds : nat) (id : str) : Prog OpEnd := watch_loop rounds id false 0.

(** ** Reads and removals with retries *)

Definition MAX_POLL_FAILURES : Z := 6.
Definition WAIT_AFTER_MISS_MS : Z := 1000.
(** The error's message, in any case of letters. *)
Definition err_text (e : Err) : str := match e with ApiError s c => num s ++ js " " ++ c | Other m => m end.
Definition isJobUnknownError (e : Err) : bool := includes (js "job not found") (to_lower (err_text e)).
Fixpoint read_loop (rounds : nat) (misses : Z) : Prog (reply T Read) :=
  match rounds with
  | O => Spin
  | S rounds =>
      do r <- catch (do x <- ask Read in Ret (inl x)) (fun e => Ret (inr e)) in
      match r with
      | inl x => Ret x
      | inr e =>
          if isJobUnknownError e || (MAX_POLL_FAILURES <=? misses) then Throw e
          else do _ <- ask (Sleep WAIT_AFTER_MISS_MS) in read_loop rounds (misses + 1)
      end
  end.
Definition readWithRetries (rounds : nat) : Prog (reply T Read) := read_loop rounds 1.

Record DeleteWithRetryResult := { d_ok : bool; d_attempts : Z; d_lastError : option Err }.
Fixpoint delete_loop (rounds : nat) (maxAttempts backoffMs : Z) (attempt : Z) (lastError : option Err) : Prog DeleteWithRetryResult :=
  match rounds with
  | O => Spin
  | S rounds =>
      if maxAttempts <? attempt then Ret {| d_ok := false; d_attempts := maxAttempts; d_lastError := lastError |} else
      do r <- catch (do _ <- ask Delete in Ret None) (fun e => Ret (Some e)) in
      match r with
      | None => Ret {| d_ok := true; d_attempts := attempt; d_lastError := None |}
      | Some e =>
          do _ <- (if attempt <? maxAttempts then ask (Sleep (backoffMs * attempt)) else Ret tt) in
          delete_loop rounds maxAttempts backoffMs (attempt + 1) (Some e)
      end
  end.
Definition deleteWithRetry (rounds : nat) : Prog DeleteWithRetryResult := delete_loop rounds 3 500 1 None.
End programs.

(** ** Texts *)

(** A failed operation's cause: its message up to its first ":" or white space. *)
Definition is_cut (a : ascii) : bool := bool_decide (code a ∈ [9; 10; 11; 12; 13; 32; 160; 58]).
Fixpoint before_cut (s : str) : str := match s with [] => [] | a :: s' => if is_cut a then [] else a :: before_cut s' end.
Definition opCause (s : option OpStatus) : str := before_cut ((s ≫= o_message) ?? []).
Definition hex_digit (n : Z) : ascii := if n <? 10 then ascii_of_nat (48 + Z.to_nat n) else ascii_of_nat (55 + Z.to_nat n).
Fixpoint hex_from (digits : nat) (n : Z) (acc : str) : str :=
  match digits with O => acc | S digits => let acc := hex_digit (n mod 16) :: acc in if n / 16 =? 0 then acc else hex_from digits (n / 16) acc end.
(** [n >>> 0], printed with at least eight digits. *)
Definition crcHex (n : Z) : str :=
  let h := hex_from 8 (n mod 2 ^ 32) [] in
  if (8 <=? length h)%nat then h else repeat "0"%char (8 - length h) ++ h.
Definition isFfpfsc (name : str) : bool := bool_decide (js ".ffpfsc" `suffix_of` to_lower name).
Record UnpackInfo := { u_name : str; u_need : Z; u_free : option Z; u_exists : bool }.
Inductive Blocker := BExists | BSpace.
Definition unpackBlocker (info : UnpackInfo) (name : option str) : option Blocker :=
  if u_exists info && match name with None => true | Some n => bool_decide (n = u_name info) end then Some BExists
  else match u_free info with Some f => if f <? u_need info then Some BSpace else None | None => None end.

(** * The environment *)

(** What a trace keeps of a call and its answer. *)
Inductive Ev :=
| EJobs (r : list Job + Err)
| EStatus (id : str) (r : OpStatus + Err)
| ECancel (id : str) (r : unit + Err)
| EStop
| ERead
| EDelete (r : unit + Err)
| ESleep.
Record Tracked := { pressed : bool; trace : list Ev }.
Section env.
Context {T : Type}.
Definition ev_of (c : Cmd) : reply T c + Err -> list Ev :=
  match c return reply T c + Err -> list Ev with
  | FetchJobs => fun r => [EJobs r]
  | Status id => fun r => [EStatus id r]
  | Cancel id => fun r => [ECancel id r]
  | Stopped => fun r => match r with inl true => [EStop] | _ => [] end
  | Sleep _ => fun _ => [ESleep]
  | Delete => fun r => [EDelete r]
  | Read => fun r => match r with inl _ => [ERead] | _ => [ERead] end
  end.
(** Any answer; Stop, once pressed, stays, and [stopped()] tells; a timer does not fail. *)
Definition answers (w : Tracked) (c : Cmd) (r : reply T c + Err) (w' : Tracked) : Prop :=
  trace w' = trace w ++ ev_of c r /\ (pressed w = true -> pressed w' = true) /\
  match c return reply T c + Err -> Prop with
  | Stopped => fun r => r = inl (pressed w)
  | Sleep _ => fun r => r = inl tt
  | _ => fun _ => True
  end r.
Lemma Wp_ask S c (Q : reply T c + Err -> Tracked -> Prop) w : (forall r w', answers w c r w' -> Q r w') -> Wp answers S (ask c) Q w.
Proof. apply Wp_call. Qed.
End env.

(** * The waiter tells the truth, and comes to an end after Stop *)

(** The reads that were answered, and what each said of the job. *)
Definition seen (id : str) (tr : list Ev) : list (option JobState) :=
  omap (fun e => match e with EJobs (inl l) => Some (find_job id l) | _ => None end) tr.
Definition cancels (tr : list Ev) : list str := omap (fun e => match e with ECancel id _ => Some id | _ => None end) tr.
(** Reads since the last cancellation was asked for. *)
Definition reads_since (tr : list Ev) : Z :=
  fold_left (fun n e => match e with EJobs _ | EStatus _ _ => n + 1 | ECancel _ _ => 0 | _ => n end) tr 0.
Definition two_absent (id : str) (tr : list Ev) : Prop := exists l, seen id tr = l ++ [None; None].
Definition end_told (can_cancel : bool) (id : str) (tr : list Ev) (e : JobEnd) : Prop :=
  match e with
  | EDone => last (seen id tr) = Some (Some JDone)
  | EFailed => last (seen id tr) = Some (Some JFailed) /\ cancels tr = []
  | EGone => two_absent id tr /\ cancels tr = []
  | ECancelled => cancels tr = [id] /\ (last (seen id tr) = Some (Some JFailed) \/ two_absent id tr)
  | ELeft => if can_cancel then cancels tr = [id] /\ BATCH_CANCEL_READS < reads_since tr else cancels tr = []
  end.
(** [cancels] is nothing, or this job once, and then only once Stop was seen. *)
Definition asked_once (can_cancel : bool) (id : str) (tr : list Ev) : Prop :=
  cancels tr = [] \/ (cancels tr = [id] /\ EStop ∈ tr /\ can_cancel = true).
Definition wait_told (can_cancel : bool) (id : str) (r : JobEnd + Err) (w : Tracked) : Prop :=
  asked_once can_cancel id (trace w) /\
  match r with inl e => end_told can_cancel id (trace w) e /\ (e = ELeft -> EStop ∈ trace w) | inr e => is_status 401 e = true end.
Lemma seen_app id a b : seen id (a ++ b) = seen id a ++ seen id b.
Proof. apply omap_app. Qed.
Lemma cancels_app a b : cancels (a ++ b) = cancels a ++ cancels b.
Proof. apply omap_app. Qed.
Lemma reads_app a b : reads_since (a ++ b) = fold_left (fun n e => match e with EJobs _ | EStatus _ _ => n + 1 | ECancel _ _ => 0 | _ => n end) b (reads_since a).
Proof. apply fold_left_app. Qed.

Section waiter.
Context {T : Type} (can_cancel : bool) (pollMs : Z) (id : str).
(** A round's state; [d]: reads made in this round. *)
Record head (d absent : Z) (cancelAsked : bool) (after : Z) (w : Tracked) : Prop := {
  h_cancels : cancels (trace w) = if cancelAsked then [id] else [];
  h_asked : cancelAsked = true -> can_cancel = true /\ EStop ∈ trace w /\ reads_since (trace w) = after + d /\ pressed w = true;
  h_not_asked : cancelAsked = false -> after = 0;
  h_after : 0 <= after <= BATCH_CANCEL_READS;
  h_absent : absent = 0 \/ (absent = 1 /\ last (seen id (trace w)) = Some None)
}.
(** Rounds enough to the end once Stop is pressed. *)
Definition enough (w : Tracked) (cancelAsked : bool) (after : Z) (rounds : nat) : Prop :=
  pressed w = true /\ (if cancelAsked then 11 - after else 12) <= Z.of_nat rounds.
Lemma head_asked d absent ca after w : head d absent ca after w -> asked_once can_cancel id (trace w).
Proof. intros [H1 H2 _ _ _]. unfold asked_once. destruct ca; [right|by left]. by destruct (H2 eq_refl) as (? & ? & _). Qed.
(** Time passes, or [stopped()] is read. *)
Lemma head_next d absent ca after w w' evs : head d absent ca after w -> trace w' = trace w ++ evs -> (pressed w = true -> pressed w' = true) ->
  cancels evs = [] -> seen id evs = [] -> reads_since evs = 0 -> Forall (fun e => match e with EJobs _ | EStatus _ _ | ECancel _ _ => False | _ => True end) evs ->
  head d absent ca after w'.
Proof.
  intros [H1 H2 H3 H4 H5] Ht Hp Hc Hs _ Hr.
  assert (forall n, fold_left (fun n e => match e with EJobs _ | EStatus _ _ => n + 1 | ECancel _ _ => 0 | _ => n end) evs n = n) as Hf.
  { clear -Hr. induction Hr as [|e evs He _ IH]; [done|]. intros n. simpl. rewrite IH. by destruct e. }
  split; rewrite ?Ht, ?cancels_app, ?seen_app, ?reads_app, ?Hc, ?Hs, ?app_nil_r, ?Hf; try done.
  intros Hca. destruct (H2 Hca) as (? & ? & ? & ?). split_and!; [done|apply elem_of_app; by left|done|auto].
Qed.

Section round.
Context (S : Prop) (rounds : nat).
Context (IH : forall absent ca after w, head 0 absent ca after w -> S \/ enough w ca after rounds ->
  Wp (answers (T := T)) S (wait_loop rounds can_cancel pollMs id absent ca after) (wait_told can_cancel id) w).
(** The end of a round: sleep, then again. *)
Definition next_ (absent : Z) (cancelAsked : bool) (after : Z) : Prog (reply T) Err JobEnd :=
  do _ <- ask (Sleep pollMs) in
  if can_cancel then wait_loop rounds can_cancel pollMs id absent cancelAsked after
  else do stop <- ask Stopped in
       if stop then Ret ELeft else wait_loop rounds can_cancel pollMs id absent cancelAsked after.
Lemma next_wp absent ca after w : head 0 absent ca after w -> S \/ enough w ca after rounds -> Wp answers S (next_ absent ca after) (wait_told can_cancel id) w.
Proof.
  intros Hh Hs. apply Wp_bind, Wp_ask. intros r w1 (Ht & Hp & ->).
  assert (head 0 absent ca after w1) as Hh1 by (by eapply head_next; [exact Hh|exact Ht|exact Hp|..]; repeat constructor).
  assert (S \/ enough w1 ca after rounds) as Hs1 by (destruct Hs as [?|[? ?]]; [by left|right; by split; [apply Hp|]]).
  destruct can_cancel eqn:Ec; [by apply IH|]. apply Wp_bind, Wp_ask. intros r w2 (Ht2 & Hp2 & ->).
  assert (head 0 absent ca after w2) as Hh2.
  { eapply head_next; [exact Hh1|exact Ht2|exact Hp2|..]; simpl; destruct (pressed w1); repeat constructor. }
  destruct (pressed w1) eqn:Eq.
  - apply Wp_ret. pose proof (head_asked _ _ _ _ _ Hh2) as Ha. rewrite Ec in Ha. split; [exact Ha|].
    split; [|intros _; rewrite Ht2; apply elem_of_app; right; left].
    simpl. destruct ca; [|by destruct Hh2]. destruct (h_asked _ _ _ _ _ Hh2 eq_refl); congruence.
  - apply IH; [done|]. destruct Hs1 as [?|[? ?]]; [by left|congruence].
Qed.
(** A round past its read. *)
Definition rest_ (absent : Z) (cancelAsked : bool) (after : Z) : Prog (reply T) Err JobEnd :=
  do stop <- ask Stopped in
  if stop then
    if negb can_cancel then Ret ELeft
    else if cancelAsked then if BATCH_CANCEL_READS <? after + 1 then Ret ELeft else next_ absent true (after + 1)
    else do _ <- unless_401 (ask (Cancel id)) in next_ absent true after
  else next_ absent cancelAsked after.
Lemma rest_wp absent ca after w : head 1 absent ca after w -> S \/ enough w ca after (Datatypes.S rounds) ->
  Wp answers S (rest_ absent ca after) (wait_told can_cancel id) w.
Proof.
  intros Hh Hs. apply Wp_bind, Wp_ask. intros r w1 (Ht & Hp & ->).
  assert (head 1 absent ca after w1) as Hh1 by (eapply head_next; [exact Hh|exact Ht|exact Hp|..]; simpl; destruct (pressed w); repeat constructor).
  destruct (pressed w) eqn:Eq.
  2:{ apply next_wp; [|destruct Hs as [?|[? _]]; [by left|congruence]]. destruct Hh1 as [H1 H2 H3 H4 H5]. split; try done.
      intros ->. destruct (h_asked _ _ _ _ _ Hh eq_refl) as (_ & _ & _ & ?). congruence. }
  assert (EStop ∈ trace w1) as Hstop by (rewrite Ht; apply elem_of_app; right; left). specialize (Hp eq_refl).
  assert (negb can_cancel = false \/ can_cancel = false) as [Ec|Ec] by (destruct can_cancel; auto); [rewrite Ec|rewrite Ec at 1; cbn [negb]].
  2:{ apply Wp_ret. split; [by eapply head_asked|]. split; [|done].
      simpl. rewrite Ec. destruct ca; [|by destruct Hh1]. destruct (h_asked _ _ _ _ _ Hh1 eq_refl); congruence. }
  destruct ca.
  - destruct (h_asked _ _ _ _ _ Hh1 eq_refl) as (_ & _ & Hr & _). pose proof (h_after _ _ _ _ _ Hh1) as Ha.
    destruct (Z.ltb_spec BATCH_CANCEL_READS (after + 1)).
    + apply Wp_ret. split; [by eapply head_asked|]. split; [|done]. simpl. apply negb_false_iff in Ec. rewrite Ec.
      split; [by destruct Hh1|lia].
    + apply next_wp.
      * destruct Hh1 as [H1 H2 H3 H4 H5]. split; [done|intros _; split_and!; [by apply negb_false_iff|done|lia|done]|done|lia|done].
      * destruct Hs as [?|[? ?]]; [by left|right]. split; [done|]. unfold enough in *. lia.
  - apply Wp_bind, Wp_catch, Wp_ask. intros r w2 (Ht2 & Hp2 & _).
    assert (after = 0) as -> by (by destruct Hh1 as [_ _ H _ _]; apply H).
    assert (cancels (trace w2) = [id]) as Hc2 by (rewrite Ht2, cancels_app, (h_cancels _ _ _ _ _ Hh1); done).
    assert (EStop ∈ trace w2) as Hs2 by (rewrite Ht2; apply elem_of_app; by left).
    assert (head 0 absent true 0 w2) as Hh2.
    { destruct Hh1 as [H1 H2 H3 H4 H5]. split; [done| |done|unfold BATCH_CANCEL_READS; lia|].
      - intros _. split_and!; [by apply negb_false_iff|done|by rewrite Ht2, reads_app|by apply Hp2].
      - by rewrite Ht2, seen_app, app_nil_r. }
    assert (Wp answers S (next_ absent true 0) (wait_told can_cancel id) w2) as Hnext.
    { apply next_wp; [done|]. destruct Hs as [?|[? ?]]; [by left|right]. split; [by apply Hp2|]. lia. }
    apply negb_false_iff in Ec. destruct r as [[]|e]; [exact Hnext|]. destruct (is_status 401 e) eqn:E4.
    + apply Wp_throw. split; [right; by split_and!|done].
    + apply Wp_ret. exact Hnext.
Qed.
End round.
Lemma wait_loop_round rounds absent ca after :
  wait_loop (T := T) (Datatypes.S rounds) can_cancel pollMs id absent ca after =
  do jobs <- catch (do l <- ask FetchJobs in Ret (Some l)) (fun e => if is_status 401 e then Throw e else Ret None) in
  match jobs with
  | Some l =>
      match find_job id l with
      | Some JRunning => rest_ rounds 0 ca after
      | Some s => Ret (end_of ca s)
      | None => if BATCH_ABSENT_READS <=? absent + 1 then Ret (if ca then ECancelled else EGone) else rest_ rounds (absent + 1) ca after
      end
  | None => rest_ rounds absent ca after
  end.
Proof. reflexivity. Qed.
Lemma wait_loop_wp (S : Prop) rounds : forall absent ca after w, head 0 absent ca after w -> S \/ enough w ca after rounds ->
  Wp (answers (T := T)) S (wait_loop rounds can_cancel pollMs id absent ca after) (wait_told can_cancel id) w.
Proof.
  induction rounds as [|rounds IH]; intros absent ca after w Hh Hs.
  { apply Wp_spin. destruct Hs as [?|[_ Hn]]; [done|]. pose proof (h_after _ _ _ _ _ Hh) as Ha. unfold BATCH_CANCEL_READS in Ha. destruct ca; lia. }
  rewrite wait_loop_round. apply Wp_bind, Wp_catch, Wp_bind, Wp_ask. intros r w1 (Ht & Hp & _).
  assert (forall absent', (absent' = 0 \/ absent' = 1 /\ last (seen id (trace w1)) = Some None) -> head 1 absent' ca after w1) as Hh1.
  { intros absent' Ha. destruct Hh as [H1 H2 H3 H4 H5]. split; [by rewrite Ht, cancels_app, app_nil_r| |done|done|done].
    intros Hca. destruct (H2 Hca) as (? & ? & Hr & ?). split_and!; [done|rewrite Ht; apply elem_of_app; by left| |auto].
    rewrite Ht, reads_app, Hr. simpl. lia. }
  assert (S \/ enough w1 ca after (Datatypes.S rounds)) as Hs1 by (destruct Hs as [?|[? ?]]; [by left|right; split; [by apply Hp|done]]).
  assert (asked_once can_cancel id (trace w1)) as Hasked by (by eapply (head_asked 1 0), Hh1; left).
  destruct r as [l|e].
  - apply Wp_ret. assert (seen id (trace w1) = seen id (trace w) ++ [find_job id l]) as Hseen by (by rewrite Ht, seen_app).
    assert (cancels (trace w1) = if ca then [id] else []) as Hc by (by destruct (Hh1 0 ltac:(by left))).
    assert (last (seen id (trace w1)) = Some (find_job id l)) as Hlast by (by rewrite Hseen, last_snoc).
    destruct (find_job id l) as [st|] eqn:Ef.
    + assert (forall st', st = st' -> st' <> JRunning -> Wp (answers (T := T)) S (Ret (end_of ca st')) (wait_told can_cancel id) w1) as Hend.
      { intros st' -> Hne. apply Wp_ret. split; [done|]. destruct st'; [done|by destruct ca|]. destruct ca; simpl; [split; [|done]|done]. split; [done|by left]. }
      destruct st; [apply (rest_wp _ _ IH); [apply Hh1; by left|done]|by apply Hend|by apply Hend].
    + destruct (Z.leb_spec BATCH_ABSENT_READS (absent + 1)).
      * assert (two_absent id (trace w1)) as H2.
        { destruct (h_absent _ _ _ _ _ Hh) as [->|[-> Hl]]; [done|]. apply last_Some in Hl as [l' Hl]. exists l'. by rewrite Hseen, Hl, <-app_assoc. }
        apply Wp_ret. split; [done|]. destruct ca; (split; [|done]); [split; [done|by right]|done].
      * apply (rest_wp _ _ IH); [|done]. apply Hh1. right. split; [|done].
        destruct (h_absent _ _ _ _ _ Hh) as [->|[-> _]]; [done|unfold BATCH_ABSENT_READS in *; lia].
  - destruct (is_status 401 e) eqn:E4; [by apply Wp_throw|]. apply Wp_ret, (rest_wp _ _ IH); [|done]. apply Hh1.
    destruct (h_absent _ _ _ _ _ Hh) as [?|[? Hl]]; [by left|right]. split; [done|]. by rewrite Ht, seen_app, app_nil_r.
Qed.
End waiter.

(** * So does a watched operation *)

Definition statuses (tr : list Ev) : list (OpStatus + Err) := omap (fun e => match e with EStatus _ r => Some r | _ => None end) tr.
(** A read that leaves the job going on: it says it runs, or fails in a way that says nothing of it. *)
Definition going_on (r : OpStatus + Err) : Prop :=
  match r with inl s => o_state s = JRunning | inr e => is_status 401 e = false /\ is_status 404 e = false end.
(** The first read that says the job is over, or not there, is the end; after Stop it is also given up
    after eleven reads that do not. *)
Definition op_told (id : str) (r : OpEnd + Err) (w : Tracked) : Prop :=
  asked_once true id (trace w) /\
  match r with
  | inl (OEnd e s) => (exists reads, statuses (trace w) = reads ++ [inl s] /\ Forall going_on reads) /\
      match e with
      | EDone => o_state s = JDone
      | EFailed => o_state s = JFailed /\ cancels (trace w) = []
      | ECancelled => o_state s = JFailed /\ cancels (trace w) = [id]
      | _ => False
      end
  | inl OGone =>
      (exists reads e, statuses (trace w) = reads ++ [inr e] /\ Forall going_on reads /\ is_status 404 e = true) \/
      (cancels (trace w) = [id] /\ reads_since (trace w) = OP_CANCEL_READS + 1 /\ Forall going_on (statuses (trace w)))
  | inr e => is_status 401 e = true
  end.
Section watch.
Context {T : Type} (id : str).
Record whead (d : Z) (cancelAsked : bool) (after : Z) (w : Tracked) : Prop := {
  wh_cancels : cancels (trace w) = if cancelAsked then [id] else [];
  wh_asked : cancelAsked = true -> EStop ∈ trace w /\ reads_since (trace w) = after + d;
  wh_not_asked : cancelAsked = false -> after = 0;
  wh_after : 0 <= after <= OP_CANCEL_READS;
  wh_going : Forall going_on (statuses (trace w))
}.
Definition wenough (w : Tracked) (cancelAsked : bool) (after : Z) (rounds : nat) : Prop :=
  pressed w = true /\ 11 - after <= Z.of_nat rounds.
Lemma whead_asked d ca after w : whead d ca after w -> asked_once true id (trace w).
Proof. intros [H1 H2 _ _ _]. unfold asked_once. destruct ca; [right|by left]. by destruct (H2 eq_refl) as (? & ?). Qed.
Lemma whead_quiet d ca after w w' e : whead d ca after w -> trace w' = trace w ++ e -> e = [] \/ e = [EStop] \/ e = [ESleep] -> whead d ca after w'.
Proof.
  intros [H1 H2 H3 H4 H5] Ht He.
  assert (statuses (trace w') = statuses (trace w)) as Hst
    by (rewrite Ht; unfold statuses; rewrite omap_app; destruct He as [->|[->| ->]]; apply app_nil_r).
  assert (cancels e = [] /\ forall n, fold_left (fun n e => match e with EJobs _ | EStatus _ _ => n + 1 | ECancel _ _ => 0 | _ => n end) e n = n) as [Hc Hf]
    by (destruct He as [->|[->| ->]]; done).
  split; rewrite ?Hst, ?Ht, ?cancels_app, ?reads_app, ?Hc, ?Hf, ?app_nil_r; try done.
  intros Hca. destruct (H2 Hca). split; [apply elem_of_app; by left|done].
Qed.
Definition after_read (rounds : nat) (cancelAsked : bool) (after : Z) : Prog (reply T) Err OpEnd :=
  if cancelAsked && (OP_CANCEL_READS <? after + 1) then Ret OGone
  else do _ <- ask (Sleep OP_POLL_MS) in watch_loop rounds id cancelAsked (if cancelAsked then after + 1 else after).
Definition read_round (rounds : nat) (after : Z) (cancelAsked : bool) : Prog (reply T) Err OpEnd :=
  do s <- catch (do s <- ask (Status id) in Ret (inl s)) (fun e => if is_status 401 e then Throw e else Ret (inr (is_status 404 e))) in
  match s with
  | inr true => Ret OGone
  | inr false => after_read rounds cancelAsked after
  | inl s => match o_state s with JRunning => after_read rounds cancelAsked after | t => Ret (OEnd (end_of cancelAsked t) s) end
  end.
Lemma watch_round rounds ca after :
  watch_loop (T := T) (S rounds) id ca after =
  do ca <- (if ca then Ret true else do stop <- ask Stopped in if stop then do _ <- unless_401 (ask (Cancel id)) in Ret true else Ret false) in
  read_round rounds after ca.
Proof. reflexivity. Qed.
Lemma watch_loop_wp (S : Prop) rounds : forall ca after w, whead 0 ca after w -> S \/ wenough w ca after rounds ->
  Wp (answers (T := T)) S (watch_loop rounds id ca after) (op_told id) w.
Proof.
  induction rounds as [|rounds IH]; intros ca after w Hh Hs.
  { apply Wp_spin. destruct Hs as [?|[_ Hn]]; [done|]. pose proof (wh_after _ _ _ _ Hh) as Ha. unfold OP_CANCEL_READS in Ha. lia. }
  rewrite watch_round.
  (* past the read *)
  assert (forall ca w1, whead 1 ca after w1 -> S \/ (ca = true /\ wenough w1 ca after (Datatypes.S rounds)) ->
    Wp (answers (T := T)) S (after_read rounds ca after) (op_told id) w1) as Hafter.
  { intros ca1 w1 Hh1 Hs1. unfold after_read. destruct (ca1 && (OP_CANCEL_READS <? after + 1)) eqn:E.
    - apply andb_true_iff in E as [-> E%Z.ltb_lt]. apply Wp_ret. split; [by eapply whead_asked|]. right.
      destruct (wh_asked _ _ _ _ Hh1 eq_refl) as [_ Hr]. pose proof (wh_after _ _ _ _ Hh1).
      split; [by destruct Hh1|split; [lia|apply (wh_going _ _ _ _ Hh1)]].
    - apply Wp_bind, Wp_ask. intros r w2 (Ht & Hp & ->). apply IH.
      + assert (whead 1 ca1 after w2) as [H1 H2 H3 H4 H5] by (eapply whead_quiet; [exact Hh1|exact Ht|by right; right]).
        destruct ca1; simpl in E; [apply Z.ltb_ge in E|]; split; try done; [|lia].
        intros _. destruct (H2 eq_refl). split; [done|lia].
      + destruct Hs1 as [?|[-> [? ?]]]; [by left|right]. split; [by apply Hp|]. lia. }
  (* the read *)
  assert (forall ca w1, whead 0 ca after w1 -> S \/ (ca = true /\ wenough w1 ca after (Datatypes.S rounds)) ->
    Wp (answers (T := T)) S (read_round rounds after ca) (op_told id) w1) as Hread.
  { intros ca1 w1 Hh1 Hs1. apply Wp_bind, Wp_catch, Wp_bind, Wp_ask. intros r w2 (Ht & Hp & _).
    assert (statuses (trace w2) = statuses (trace w1) ++ [r]) as Hlast by (rewrite Ht; unfold statuses; by rewrite omap_app).
    assert (going_on r -> whead 1 ca1 after w2) as Hh2.
    { intros Hg. destruct Hh1 as [H1 H2 H3 H4 H5]. split; [by rewrite Ht, cancels_app, app_nil_r| |done|done|].
      - intros Hca. destruct (H2 Hca) as [? Hr]. split; [rewrite Ht; apply elem_of_app; by left|]. rewrite Ht, reads_app, Hr. simpl. lia.
      - rewrite Hlast. apply Forall_app_2; [done|by constructor]. }
    assert (S \/ (ca1 = true /\ wenough w2 ca1 after (Datatypes.S rounds))) as Hs2 by (destruct Hs1 as [?|[-> [? ?]]]; [by left|right; split; [done|]; split; [by apply Hp|done]]).
    pose proof (wh_going _ _ _ _ Hh1) as Hg.
    assert (cancels (trace w2) = if ca1 then [id] else []) as Hc by (rewrite Ht, cancels_app, app_nil_r; apply (wh_cancels _ _ _ _ Hh1)).
    assert (asked_once true id (trace w2)) as Hask.
    { destruct (whead_asked _ _ _ _ Hh1) as [H|(H & ? & _)]; [left|right]; rewrite Ht, cancels_app, H; [done|]. split; [done|]. split; [apply elem_of_app; by left|done]. }
    destruct r as [s|e].
    - apply Wp_ret. destruct (o_state s) eqn:Eo; [by apply Hafter; [apply Hh2|]| |]; apply Wp_ret; (split; [done|]); (split; [by exists (statuses (trace w1))|]); [done|]. by destruct ca1.
    - destruct (is_status 401 e) eqn:E1; [by apply Wp_throw|]. apply Wp_ret. destruct (is_status 404 e) eqn:E4; [|by apply Hafter; [apply Hh2|]].
      apply Wp_ret. split; [done|]. left. by exists (statuses (trace w1)), e. }
  destruct ca.
  - apply Wp_bind, Wp_ret. apply Hread; [done|]. destruct Hs; [by left|by right].
  - apply Wp_bind, Wp_bind, Wp_ask. intros r w1 (Ht & Hp & ->).
    assert (whead 0 false after w1) as Hh1 by (eapply whead_quiet; [exact Hh|exact Ht|]; simpl; destruct (pressed w); auto).
    destruct (pressed w) eqn:Eq.
    + apply Wp_bind, Wp_catch, Wp_ask. intros r w2 (Ht2 & Hp2 & _).
      assert (cancels (trace w2) = [id]) as Hc2 by (rewrite Ht2, cancels_app, (wh_cancels _ _ _ _ Hh1); done).
      assert (EStop ∈ trace w2) as Hs2 by (rewrite Ht2, Ht; apply elem_of_app; left; apply elem_of_app; right; left).
      assert (after = 0) as -> by (by destruct Hh1 as [_ _ H _ _]; apply H).
      assert (whead 0 true 0 w2) as Hh2.
      { split; [done| |done|done|].
        - intros _. split; [done|]. by rewrite Ht2, reads_app.
        - rewrite Ht2. unfold statuses. rewrite omap_app, app_nil_r. apply (wh_going _ _ _ _ Hh1). }
      assert (Wp (answers (T := T)) S (read_round rounds 0 true) (op_told id) w2) as Hr.
      { apply Hread; [done|]. destruct Hs as [?|[? ?]]; [by left|right]. split; [done|]. split; [by apply Hp2, Hp|done]. }
      destruct r as [[]|e]; [apply Wp_ret; exact Hr|]. destruct (is_status 401 e) eqn:E1; [apply Wp_throw; split; [by right|done]|].
      apply Wp_ret, Wp_ret. exact Hr.
    + apply Wp_ret. apply Hread; [done|]. destruct Hs as [?|[? _]]; [by left|congruence].
Qed.
End watch.

(** * The properties *)

Section ends.
Context {T : Type}.
Definition begun (p : bool) : Tracked := {| pressed := p; trace := [] |}.
(** There is always an answer. *)
Lemma answers_total (x0 : T) : forall w c, exists (r : reply T c + Err) w', answers w c r w'.
Proof.
  intros w c. exists (match c return reply T c + Err with Stopped => inl (pressed w) | Sleep _ => inl tt | FetchJobs => inl [] | Status _ => inr (Other [])
    | Cancel _ => inl tt | Delete => inl tt | Read => inl x0 end).
  eexists {| pressed := pressed w; trace := _ |}. split; [done|]. split; [done|]. by destruct c.
Qed.
End ends.
Lemma waiter_head can_cancel id p : head can_cancel id 0 0 false 0 (begun p).
Proof. split; [done|done|done|done|by left]. Qed.
Lemma watch_head id p : whead id 0 false 0 (begun p).
Proof. by split. Qed.

(** A console whose reads are functions of what was asked so far. *)
Definition env (jobs : list Ev -> list Job) (status : list Ev -> OpStatus + Err) (w : Tracked) (c : Cmd) : (reply unit c + Err) * Tracked :=
  let r : reply unit c + Err := match c return reply unit c + Err with
    | FetchJobs => inl (jobs (trace w)) | Status _ => status (trace w) | Stopped => inl (pressed w) | _ => inl tt end in
  (r, {| pressed := pressed w; trace := trace w ++ ev_of c r |}).
Lemma jobs_answer jobs status w c : answers w c (env jobs status w c).1 (env jobs status w c).2.
Proof. split; [done|]. split; [done|]. by destruct c. Qed.
Definition still_running : OpStatus := {| o_state := JRunning; o_message := None; o_result := None |}.
(** Stop was pressed before the wait began. The batch's job fails at the third read; the operation runs on. *)
Definition stopped_wait : Prog (reply unit) Err JobEnd * Tracked :=
  play 60 (env (fun tr => [{| job := js "1-1"; j_state := if decide (length (seen (js "1-1") tr) = 2)%nat then JFailed else JRunning |}]) (fun _ => inl still_running))
    (waitJob 20 true (js "1-1")) (begun true).
Definition stopped_watch : Prog (reply unit) Err OpEnd * Tracked :=
  play 60 (env (fun _ => []) (fun _ => inl still_running)) (watchOp 20 (js "1-1")) (begun true).
(** An operation that goes on for eleven reads after Stop is told as gone ("no longer listed"), though every
    read, the last one too, said it runs. *)
Example watch_given_up : stopped_watch.1 = Ret OGone /\ statuses (trace stopped_watch.2) = repeat (inl still_running) 11.
Proof. by vm_compute. Qed.
(** Once Stop is pressed a wait ends: from any of its rounds the batch's waiter makes at most twelve
    reads more and a watched operation's at most eleven, whatever they answer, and with every call
    answered both come to their end. *)
Theorem waits_end_after_stop {T} (x0 : T) can_cancel pollMs id absent ca after w : pressed w = true ->
  (head can_cancel id 0 absent ca after w -> forall q w', rtc (step (answers (T := T))) (wait_loop 12 can_cancel pollMs id absent ca after, w) (q, w') ->
     q <> Spin /\ exists q' w'', rtc (step answers) (q, w') (q', w'') /\ finished q') /\
  (whead id 0 ca after w -> forall q w', rtc (step (answers (T := T))) (watch_loop 11 id ca after, w) (q, w') ->
     q <> Spin /\ exists q' w'', rtc (step answers) (q, w') (q', w'') /\ finished q').
Proof.
  assert (forall A (p q : Prog (reply T) Err A) Q w w', Wp answers False p Q w -> rtc (step answers) (p, w) (q, w') ->
    q <> Spin /\ exists q' w'', rtc (step answers) (q, w') (q', w'') /\ finished q') as H.
  { intros A p q Q w0 w1 Hw Hr. split; [intros Hq; by destruct (Wp_run answers False p Q w0 q w1 Hw Hr)|].
    apply (wp_reach _ _ _ _ _ (p, w0) (q, w1) Hr) in Hw. destruct (wp_ends answers _ _ q Q w1 (answers_total x0) Hw) as (q' & w2 & ? & ? & _). eauto. }
  intros Hp. split; intros Hh q w' Hr; (eapply H; [|exact Hr]).
  - apply wait_loop_wp; [done|right]. split; [done|]. pose proof (h_after _ _ _ _ _ _ _ Hh). destruct ca; lia.
  - apply watch_loop_wp; [done|right]. split; [done|]. pose proof (wh_after _ _ _ _ _ Hh). lia.
Qed.

(** ** Retries *)

(** Answered removals so far. *)
Definition deletes (tr : list Ev) : list (unit + Err) := omap (fun e => match e with EDelete r => Some r | _ => None end) tr.
Definition read_count (tr : list Ev) : Z := Z.of_nat (length (omap (fun e => match e with ERead => Some tt | _ => None end) tr)).
(** A status read is tried six times, and given up at once when the engine does not know the job. *)
Lemma readWithRetries_ends {T} p : Wp (answers (T := T)) False (readWithRetries 6)
  (fun r w => match r with inl _ => True | inr e => isJobUnknownError e = true \/ read_count (trace w) = MAX_POLL_FAILURES end) (begun p).
Proof.
  assert (forall rounds misses w, misses + Z.of_nat rounds = 7 -> 1 <= misses <= 6 -> read_count (trace w) = misses - 1 ->
    Wp (answers (T := T)) False (read_loop rounds misses) (fun r w => match r with inl _ => True | inr e => isJobUnknownError e = true \/ read_count (trace w) = MAX_POLL_FAILURES end) w) as H.
  { induction rounds as [|rounds IH]; intros misses w Hn Hm Hc; [lia|]. cbn [read_loop]. apply Wp_bind, Wp_catch, Wp_bind, Wp_ask. intros r w1 (Ht & _ & _).
    assert (read_count (trace w1) = misses) as Hc1.
    { rewrite Ht. unfold read_count in *. rewrite omap_app, length_app. assert (omap (fun e => match e with ERead => Some tt | _ => None end) (ev_of Read r) = [tt]) as ->; [by destruct r|simpl; lia]. }
    destruct r as [x|e]; apply Wp_ret; [by apply Wp_ret|].
    destruct (isJobUnknownError e) eqn:E; [apply Wp_throw; by left|]. cbn [orb]. destruct (Z.leb_spec MAX_POLL_FAILURES misses) as [Hl|Hl]; unfold MAX_POLL_FAILURES in *.
    - apply Wp_throw. right. lia.
    - apply Wp_bind, Wp_ask. intros r w2 (Ht2 & _ & ->). apply IH; [lia|lia|]. rewrite Ht2. unfold read_count in *. rewrite omap_app, length_app. simpl. lia. }
  apply H; done.
Qed.
(** A removal is tried three times; it went well exactly when its last try did. *)
Lemma deleteWithRetry_ends {T} p : Wp (answers (T := T)) False (deleteWithRetry 4)
  (fun r w => exists d, r = inl d /\ d_attempts d = Z.of_nat (length (deletes (trace w))) /\ d_attempts d <= 3 /\
     last (deletes (trace w)) = Some (match d_lastError d with Some e => inr e | None => inl tt end) /\ (d_ok d = true <-> d_lastError d = None)) (begun p).
Proof.
  set (Q := fun (r : DeleteWithRetryResult + Err) (w : Tracked) => _).
  assert (forall rounds attempt lastError w, attempt + Z.of_nat rounds = 5 -> 1 <= attempt <= 4 -> Z.of_nat (length (deletes (trace w))) = attempt - 1 ->
    (attempt <> 1 -> exists e, lastError = Some e /\ last (deletes (trace w)) = Some (inr e)) -> Wp (answers (T := T)) False (delete_loop rounds 3 500 attempt lastError) Q w) as H.
  { induction rounds as [|rounds IH]; intros attempt lastError w Hn Ha Hc Hl; [lia|]. cbn [delete_loop].
    destruct (Z.ltb_spec 3 attempt).
    { apply Wp_ret. destruct (Hl ltac:(lia)) as (e & -> & He). eexists. split; [done|]. simpl. split_and!; [lia|lia|done|done]. }
    apply Wp_bind, Wp_catch, Wp_bind, Wp_ask. intros r w1 (Ht & _ & _).
    assert (deletes (trace w1) = deletes (trace w) ++ [r]) as Hd by (by rewrite Ht; unfold deletes; rewrite omap_app).
    assert (Z.of_nat (length (deletes (trace w1))) = attempt) as Hc1 by (rewrite Hd, length_app; simpl; lia).
    assert (last (deletes (trace w1)) = Some r) as Hlast by (by rewrite Hd, last_snoc).
    destruct r as [[]|e]; apply Wp_ret.
    - apply Wp_ret. eexists. split; [done|]. simpl. split_and!; [done|lia|done|done].
    - apply Wp_bind. destruct (Z.ltb_spec attempt 3).
      + apply Wp_ask. intros r w2 (Ht2 & _ & ->).
        assert (deletes (trace w2) = deletes (trace w1)) as Hd2 by (rewrite Ht2; unfold deletes; rewrite omap_app; apply app_nil_r).
        apply IH; rewrite ?Hd2; [lia|lia|lia|]. intros _. by exists e.
      + apply Wp_ret. apply IH; [lia|lia|lia|]. intros _. by exists e. }
  apply H; done.
Qed.

Lemma waits_end_after_stop_witness : exists q w,
  rtc (step (answers (T := unit))) (wait_loop 12 true BATCH_POLL_MS (js "1-1") 0 false 0, begun true) (q, w) /\ finished q.
Proof.
  destruct (waits_end_after_stop tt true BATCH_POLL_MS (js "1-1") 0 false 0 (begun true) ltac:(reflexivity)) as [Hw _].
  destruct (Hw ltac:(apply waiter_head) _ _ ltac:(apply rtc_refl)) as (_ & q & w & Hr & Hf). by exists q, w.
Defined.

(** * The page's one batch *)

Inductive BatchOp := BCopy | BMove | BDelete | BChmod | BRename | BUnpack | BInstall | BExtract.
Record BatchProgress := { b_op : BatchOp; b_at : Z; b_total : Z; stopping : bool; paths : option (list str);
                          bytes : option (Z * Z); phase : option (option str); cancels_too : bool }.
(** The module's two variables. *)
Record Page := { progress : option BatchProgress; stopAsked : bool }.
#[export] Instance settable_batch : Settable BatchProgress := fun b => {|
  b_op := b_op b; b_at := b_at b; b_total := b_total b; stopping := stopping b; paths := paths b; bytes := bytes b;
  phase := phase b; cancels_too := cancels_too b |}.
#[export] Instance settable_page : Settable Page := fun p => {| progress := progress p; stopAsked := stopAsked p |}.
Definition idle_page : Page := {| progress := None; stopAsked := false |}.
Definition with_progress (f : BatchProgress -> BatchProgress) (p : Page) : Page := p <| progress := f <$> progress p |>.
Definition stopBatch (p : Page) : Page :=
  match progress p with
  | Some b => if stopping b then p else {| progress := Some (b <| stopping := true |>); stopAsked := true |}
  | None => p
  end.
(** [None]: another batch runs. *)
Definition startBatch (op : BatchOp) (total : Z) (ps : option (list str)) (c : bool) (p : Page) : option Page :=
  match progress p with
  | Some _ => None
  | None => Some {| progress := Some {| b_op := op; b_at := 0; b_total := total; stopping := false; paths := ps; bytes := None; phase := None; cancels_too := c |};
                    stopAsked := false |}
  end.
Definition onProgress (at_ n : Z) : Page -> Page := with_progress (fun b => b <| b_at := at_ |> <| b_total := n |>).
Definition onBytes (done total : Z) : Page -> Page :=
  with_progress (fun b => if bool_decide (bytes b = Some (done, total)) then b else b <| bytes := Some (done, total) |>).
Definition onPhase (t : option str) : Page -> Page :=
  with_progress (fun b => if bool_decide (phase b = Some t) then b else b <| phase := Some t |>).
(** [run.finally]: the batch's promise settled. *)
Definition settled (p : Page) : Page := p <| progress := None |> <| stopAsked := false |>.

Inductive PageEvent :=
| PStart (op : BatchOp) (total : Z) (ps : option (list str)) (c : bool)
| PStop
| PProgress (at_ n : Z)
| PBytes (done total : Z)
| PPhase (t : option str)
| PSettled.
Definition page_event (p : Page) (e : PageEvent) : Page :=
  match e with
  | PStart op total ps c => default p (startBatch op total ps c p)
  | PStop => stopBatch p
  | PProgress at_ n => onProgress at_ n p
  | PBytes d t => onBytes d t p
  | PPhase t => onPhase t p
  | PSettled => settled p
  end.
(** What tells the batches of a page apart. *)
Definition batch_of (p : Page) : option (BatchOp * option (list str) * bool) := (fun b => (b_op b, paths b, cancels_too b)) <$> progress p.
Definition page_ok (p : Page) : Prop := stopAsked p = match progress p with Some b => stopping b | None => false end.
Lemma page_event_ok p e : page_ok p -> page_ok (page_event p e).
Proof.
  unfold page_ok. destruct p as [[b|] s], e; simpl; intros H; try done.
  - unfold stopBatch. simpl. destruct (stopping b) eqn:E; simpl; congruence.
  - by case_match.
  - by case_match.
Qed.
(** Over any history the work sees Stop exactly when the page shows the batch stopping; a batch, once
    started, is the page's only one and a pressed Stop stays, both until its work settles. *)
Lemma one_batch evs1 e evs2 : Forall (fun e => e <> PSettled) evs2 ->
  let p := fold_left page_event evs1 idle_page in let p1 := page_event p e in let p2 := fold_left page_event evs2 p1 in
  page_ok p2 /\ (progress p1 <> None -> batch_of p2 = batch_of p1) /\ (stopAsked p1 = true -> stopAsked p2 = true).
Proof.
  intros Hn p p1 p2.
  assert (forall evs q, page_ok q -> page_ok (fold_left page_event evs q)) as Hok.
  { induction evs as [|x evs IH]; intros q Hq; [done|]. by apply IH, page_event_ok. }
  assert (page_ok p1) as Hp1 by (by apply page_event_ok, Hok).
  split; [by apply Hok|]. subst p2. clearbody p1. clear p Hok evs1 e.
  revert p1 Hp1. induction Hn as [|e evs He _ IH]; intros p1 Hp1; [done|]. simpl.
  destruct (IH _ (page_event_ok p1 e Hp1)) as [IHb IHs].
  assert (progress p1 <> None -> progress (page_event p1 e) <> None /\ batch_of (page_event p1 e) = batch_of p1) as Hb.
  { intros Hp. destruct p1 as [[b|] s]; [|done].
    assert (exists b', progress (page_event {| progress := Some b; stopAsked := s |} e) = Some b' /\
      (b_op b', paths b', cancels_too b') = (b_op b, paths b, cancels_too b)) as (b' & Hb' & Ht); [|unfold batch_of; by rewrite Hb'; simpl; rewrite Ht].
    destruct e; try done; unfold page_event, stopBatch, onBytes, onPhase, with_progress; simpl; repeat case_match; eauto. }
  split; [intros Hp; destruct (Hb Hp) as [Hp' Hb']; by rewrite (IHb Hp')|].
  intros Hp. apply IHs. destruct p1 as [[b|] s], e; unfold page_ok in Hp1; simpl in *; try congruence; unfold stopBatch; simpl; by repeat case_match.
Qed.
(** One batch at a time. *)
Example busy_page : startBatch BCopy 1 None false (fold_left page_event [PStart BDelete 3 None false; PStop] idle_page) = None.
Proof. reflexivity. Qed.
Example cause_cut : opCause (Some {| o_state := JFailed; o_message := Some (js "fs_unpack_no_space: 3 GB"); o_result := None |}) = js "fs_unpack_no_space".
Proof. reflexivity. Qed.
Example crc_text : crcHex (-1) = js "FFFFFFFF" /\ crcHex 48879 = js "0000BEEF".
Proof. split; reflexivity. Qed.
