(* ===== verification/PkgRules.v ===== *)
(** The rules of the package library (client/src/state/pkgLibrary.ts): what tells staged packages apart,
    which of them Install all installs and in which order, what a row says is installed, and how a
    fresh listing is merged into the rows.

    Of a row the fields these rules read are kept. [localeCompare] with [numeric] is written out for the
    texts it gets here, versions: runs of digits by value, other characters before them. *)
From S2P Require Import Prelude Addr.

(** * Rows *)

Inductive PkgStatus := Idle | Queued | Uploading | Installing.
#[export] Instance pkg_status_eq_dec : EqDecision PkgStatus.
Proof. solve_decision. Defined.
(** A row's last result, without its texts. *)
Record LastResult := { lr_ok : bool; lr_unconfirmed : bool }.
Record PkgEntry := {
  name : str; path : str; size : Z; contentId : str; title : option str; appVer : option str; fingerprint : option str;
  installedHere : bool; titleId : option str; category : option str; status : PkgStatus; lastResult : option LastResult }.
#[export] Instance settable_entry : Settable PkgEntry := fun e => {|
  name := name e; path := path e; size := size e; contentId := contentId e; title := title e; appVer := appVer e;
  fingerprint := fingerprint e; installedHere := installedHere e; titleId := titleId e; category := category e;
  status := status e; lastResult := lastResult e |}.

(** [o || d] for a text that may be missing. *)
Definition or_else (o : option str) (d : str) : str := match o with Some ((_ :: _) as s) => s | _ => d end.
Definition is_cat (c : string) (e : PkgEntry) : bool := bool_decide (category e = Some (js c)).

(** * Ids *)

(** [/^[A-Z]{4}\d{5}$/] *)
Definition is_title_id (s : str) : bool :=
  (length s =? 9)%nat && forallb is_upper (take 4 s) && forallb is_digit (drop 4 s).
Definition titleIdFromContentId (c : str) : option str :=
  match c with
  | [] => None
  | _ =>
      let id := match split_on "-" c !! 1%nat with Some seg => (split_on "_" seg !! 0%nat) ?? [] | None => [] end in
      if is_title_id id then Some id else None
  end.
Definition platformFromTitleId (t : option str) : str :=
  match t with
  | Some ((_ :: _) as t) => if starts_with (js "CUSA") t then js "ps4" else if starts_with (js "PPSA") t then js "ps5" else []
  | _ => []
  end.
Definition ends_with (p s : str) : bool := bool_decide (p `suffix_of` s).
Definition contentIdFromName (n : str) : str :=
  let lower := to_lower n in
  if ends_with (js ".fpkg") lower then take (length n - 5) n
  else if ends_with (js ".pkg") lower then take (length n - 4) n else n.
Definition pkgTypeForCategory (c : option str) (platform : option str) : option str :=
  let prefix := if bool_decide (platform = Some (js "ps5")) then js "PS5" else js "PS4" in
  match c with
  | Some c =>
      if bool_decide (c = js "gd") then Some (prefix ++ js "GD")
      else if bool_decide (c = js "gp") then Some (prefix ++ js "DP")
      else if bool_decide (c = js "ac") then Some (prefix ++ js "AC")
      else if bool_decide (c = js "gde") then Some (prefix ++ js "GDE")
      else if bool_decide (c = js "la") then Some (prefix ++ js "LA") else None
  | None => None
  end.

(** * Which packages are alternatives of each other *)

Definition pkgEntryInstallOrder (e : PkgEntry) : Z :=
  if is_cat "gp" e then 1 else if is_cat "ac" e then 2 else if is_cat "gd" e then 0
  else if includes (js "/updates/") (path e) then 1 else if includes (js "/dlc/") (path e) then 2 else 0.
Definition pkgAlternativeKey (e : PkgEntry) : option str :=
  if is_cat "gp" e then
    match or_else (titleId e) (contentId e) with
    | [] => None
    | t => Some (js "patch:" ++ t ++ js ":" ++ or_else (appVer e) (js "unknown"))
    end
  else if is_cat "ac" e then match contentId e with [] => None | c => Some (js "dlc:" ++ c) end
  else None.
Definition pkgEntryIdentity (e : PkgEntry) : str := or_else (fingerprint e) (path e).
Definition pkgAlternativeGroups (entries : list PkgEntry) : list (str * list PkgEntry) :=
  List.filter (fun g => (1 <? length (remove_dups (map pkgEntryIdentity g.2)))%nat) (groups pkgAlternativeKey entries).
Definition pkgHasConflictingAlternative (e : PkgEntry) (entries : list PkgEntry) : bool :=
  match pkgAlternativeKey e with
  | None => false
  | Some k =>
      existsb (fun o => negb (bool_decide (path o = path e)) && bool_decide (pkgAlternativeKey o = Some k) &&
                        negb (bool_decide (pkgEntryIdentity o = pkgEntryIdentity e))) entries
  end.

(** * Install all *)

(** [a.localeCompare(b, undefined, { numeric: true })] on versions. *)
Fixpoint version_key (run : option Z) (s : str) : list Z :=
  match s with
  | [] => match run with Some n => [n] | None => [] end
  | a :: s =>
      if is_digit a then version_key (Some (10 * (run ?? 0) + digit_val a)) s
      else match run with Some n => [n] | None => [] end ++ (code a - 256) :: version_key None s
  end.
Fixpoint compare_keys (a b : list Z) : Z :=
  match a, b with
  | [], [] => 0
  | [], _ => -1
  | _, [] => 1
  | x :: a, y :: b => if x <? y then -1 else if y <? x then 1 else compare_keys a b
  end.
Definition localeCompare (a b : str) : Z := compare_keys (version_key None a) (version_key None b).
Definition installOrder (a b : PkgEntry) : Z :=
  let tier := pkgEntryInstallOrder a - pkgEntryInstallOrder b in
  if negb (tier =? 0) then tier
  else if is_cat "gp" a && is_cat "gp" b then localeCompare (appVer a ?? []) (appVer b ?? []) else 0.

Section plan.
Context (entries : list PkgEntry) (selections : gmap str str).
Definition staged : list PkgEntry := List.filter (fun e => bool_decide (status e = Idle)) entries.
Definition ready : list PkgEntry := List.filter (fun e => negb (installedHere e)) staged.
Definition add_variant (m : gmap str (gset str)) (e : PkgEntry) : gmap str (gset str) :=
  match pkgAlternativeKey e with
  | None => m
  | Some k => <[k := {[pkgEntryIdentity e]} ∪ (m !! k ?? ∅)]> m
  end.
Definition variants : gmap str (gset str) := fold_left add_variant staged ∅.
(** The group of [e], when more than one artifact is staged of it. *)
Definition several (e : PkgEntry) : option (str * gset str) :=
  match pkgAlternativeKey e with
  | None => None
  | Some k => match variants !! k with Some v => if (1 <? base.size v)%nat then Some (k, v) else None | None => None end
  end.
Definition in_conflict (e : PkgEntry) : bool :=
  match several e with
  | None => false
  | Some (k, v) => match selections !! k with Some ((_ :: _) as s) => negb (bool_decide (s ∈ v)) | _ => true end
  end.
Definition conflicts : list PkgEntry := List.filter in_conflict ready.
Definition is_target (e : PkgEntry) : bool :=
  if bool_decide (path e ∈ map path conflicts) then false
  else match several e with None => true | Some (k, _) => bool_decide (selections !! k = Some (pkgEntryIdentity e)) end.
Definition targets : list PkgEntry := sort_by installOrder (List.filter is_target ready).
Definition pkgInstallAllPlan : list PkgEntry * list PkgEntry := (targets, conflicts).
End plan.

(** * What a row says is installed *)

Inductive ArtifactKind := KBase | KPatch | KDlc.
#[export] Instance artifact_kind_eq_dec : EqDecision ArtifactKind.
Proof. solve_decision. Defined.
Record Artifact := { a_kind : ArtifactKind; a_size : Z; a_fingerprint : str; a_contentId : str }.
(** What [pkgRowInstalled] is asked about: a row, or what is expected of an install. *)
Record Wanted := { w_titleId : option str; w_category : option str; w_installedHere : bool; w_size : option Z;
                   w_fingerprint : option str; w_contentId : option str }.
Definition wanted_of (e : PkgEntry) : Wanted := {|
  w_titleId := titleId e; w_category := category e; w_installedHere := installedHere e; w_size := Some (size e);
  w_fingerprint := fingerprint e; w_contentId := Some (contentId e) |}.
Definition isAddonCategory (c : option str) : bool := bool_decide (c = Some (js "gp")) || bool_decide (c = Some (js "ac")).
Definition kind_of (c : option str) : ArtifactKind :=
  if bool_decide (c = Some (js "gp")) then KPatch else if bool_decide (c = Some (js "ac")) then KDlc else KBase.
Definition is_hex (a : ascii) : bool := is_digit a || ((97 <=? code a) && (code a <=? 102)).
Definition exact_match (w : Wanted) (a : Artifact) : bool :=
  match w_fingerprint w with
  | Some ((_ :: _) as f) =>
      let expected := to_lower f in
      let actual := to_lower (a_fingerprint a) in
      if (length expected =? 32)%nat && forallb is_hex expected then starts_with expected actual else bool_decide (actual = expected)
  | _ =>
      if (0 <? w_size w ?? 0) && negb (a_size a =? w_size w ?? 0) then false
      else match w_contentId w, a_contentId a with
           | Some ((_ :: _) as c), (_ :: _) as ac => if bool_decide (kind_of (w_category w) = KDlc) then bool_decide (ac = c) else true
           | _, _ => true
           end
  end.
Definition pkgRowInstalled (w : Wanted) (installedTitleIds : gset str) (artifacts : option (list Artifact)) : bool :=
  let title_there := match w_titleId w with Some ((_ :: _) as t) => bool_decide (t ∈ installedTitleIds) | _ => false end in
  let base := title_there && negb (isAddonCategory (w_category w)) in
  match artifacts with
  | Some l =>
      let candidates := List.filter (fun a => bool_decide (a_kind a = kind_of (w_category w))) l in
      let wanted := to_lower (w_fingerprint w ?? []) in
      let ps5 := bool_decide (platformFromTitleId (w_titleId w) = js "ps5") in
      if (33 <=? length wanted)%nat && forallb is_hex wanted && existsb (fun a => bool_decide (to_lower (a_fingerprint a) = wanted)) l then true
      else if ps5 && match w_contentId w with
                     | Some ((_ :: _) as c) => existsb (fun a => bool_decide (a_contentId a = c) && (0 <? a_size a)) candidates
                     | _ => false end then true
      else if existsb (exact_match w) candidates then true
      else if isAddonCategory (w_category w) then
        ps5 && w_installedHere w && match candidates with [] => true | _ => false end && title_there
      else base
  | None => if w_installedHere w then true else base
  end.

(** * The rows and a fresh listing *)

Definition isFinishedPkg (e : PkgEntry) : bool :=
  bool_decide (status e = Idle) && match lastResult e with Some r => lr_ok r && negb (lr_unconfirmed r) | None => false end.
(** [new Map(prev.map((e) => [e.path, e]))]: the last of two rows of one path. *)
Definition byPath (prev : list PkgEntry) : gmap str PkgEntry := fold_left (fun m e => <[path e := e]> m) prev ∅.
Definition merged_row (prev : list PkgEntry) (l : PkgEntry) : PkgEntry :=
  match byPath prev !! path l with
  | Some old =>
      if negb (bool_decide (status old = Idle)) then old <| size := if size l =? 0 then size old else size l |>
      else match lastResult old with Some r => l <| lastResult := Some r |> | None => l end
  | None => l
  end.
(** Before they are put in the order of their labels. *)
Definition mergeListing (prev listed : list PkgEntry) : list PkgEntry :=
  List.filter (fun e => negb (bool_decide (status e = Idle)) && negb (existsb (fun l => bool_decide (path l = path e)) listed)) prev
  ++ map (merged_row prev) listed.

(** * Versions in order *)

Lemma compare_keys_refl a : compare_keys a a = 0.
Proof. induction a as [|x a IH]; [done|]. simpl. by rewrite Z.ltb_irrefl. Qed.
Lemma compare_keys_trans a b c : compare_keys a b <= 0 -> compare_keys b c <= 0 -> compare_keys a c <= 0.
Proof.
  revert b c. induction a as [|x a IH]; intros [|y b] [|z c]; simpl; try lia.
  repeat case_match; bool_prop; try lia. intros. by apply (IH b).
Qed.
Lemma compare_keys_total a b : 0 < compare_keys a b -> compare_keys b a <= 0.
Proof.
  revert b. induction a as [|x a IH]; intros [|y b]; simpl; try lia.
  repeat case_match; bool_prop; try lia. apply IH.
Qed.

(** * The plan *)

Section plan_facts.
Context (entries : list PkgEntry) (selections : gmap str str).
Lemma variants_spec k i :
  (exists v, variants entries !! k = Some v /\ i ∈ v) <-> exists e, e ∈ staged entries /\ pkgAlternativeKey e = Some k /\ pkgEntryIdentity e = i.
Proof.
  unfold variants. generalize (staged entries) as l. intros l.
  assert (forall l m, (exists v, fold_left add_variant l m !! k = Some v /\ i ∈ v) <->
    (exists v, m !! k = Some v /\ i ∈ v) \/ exists e, e ∈ l /\ pkgAlternativeKey e = Some k /\ pkgEntryIdentity e = i) as H.
  { clear l. induction l as [|e l IH]; intros m; simpl; [set_solver|]. rewrite IH. clear IH. unfold add_variant.
    destruct (pkgAlternativeKey e) as [k'|] eqn:Ek; [|set_solver].
    destruct (decide (k' = k)) as [->|Hne].
    - rewrite lookup_insert_eq.
      assert ((exists v, Some ({[pkgEntryIdentity e]} ∪ (m !! k ?? ∅)) = Some v /\ i ∈ v) <-> i = pkgEntryIdentity e \/ exists v, m !! k = Some v /\ i ∈ v) as ->.
      { destruct (m !! k) as [v|]; simpl; (split; [intros (v' & [= <-] & Hi); set_solver|intros Hi; eexists; split; [done|]; set_solver]). }
      setoid_rewrite elem_of_cons. naive_solver.
    - rewrite lookup_insert_ne by done. setoid_rewrite elem_of_cons. naive_solver. }
  rewrite H, lookup_empty. set_solver.
Qed.
(** Another artifact of [e]'s group is staged. *)
Definition rivals (e : PkgEntry) : Prop :=
  exists o, o ∈ staged entries /\ pkgAlternativeKey o = pkgAlternativeKey e /\ pkgAlternativeKey e <> None /\ pkgEntryIdentity o <> pkgEntryIdentity e.
Lemma several_spec e : e ∈ staged entries ->
  (exists k v, several entries e = Some (k, v) /\ pkgAlternativeKey e = Some k /\ variants entries !! k = Some v /\ rivals e) \/ (several entries e = None /\ ~ rivals e).
Proof.
  intros He. unfold several. destruct (pkgAlternativeKey e) as [k|] eqn:Ek; [|right; split; [done|]; by intros (? & ? & ? & ? & ?)].
  destruct (proj2 (variants_spec k (pkgEntryIdentity e)) ltac:(eauto)) as (v & Hv & Hi). rewrite Hv.
  destruct (Nat.ltb_spec 1 (base.size v)) as [Hs|Hs]; [left|right].
  - exists k, v. split_and!; [done..|].
    assert (exists i, i ∈ v /\ i <> pkgEntryIdentity e) as (i & Hiv & Hne).
    { destruct (set_choose_or_empty (v ∖ {[pkgEntryIdentity e]})) as [(i & Hx)|Hx]; [exists i; set_solver|].
      assert (v ⊆ {[pkgEntryIdentity e]}) as Hsub.
      { intros i Hiv. destruct (decide (i = pkgEntryIdentity e)) as [->|]; [set_solver|]. exfalso. set_solver. }
      apply subseteq_size in Hsub. rewrite size_singleton in Hsub. lia. }
    destruct (proj1 (variants_spec k i) ltac:(eauto)) as (o & Ho & Hok & <-). exists o. rewrite Ek. naive_solver.
  - split; [done|]. intros (o & Ho & Hok & _ & Hne). rewrite Ek in Hok.
    destruct (proj2 (variants_spec k (pkgEntryIdentity o)) ltac:(eauto)) as (v' & Hv' & Hoi). simplify_eq.
    assert ({[pkgEntryIdentity e; pkgEntryIdentity o]} ⊆ v) as Hsub by set_solver.
    apply subseteq_size in Hsub. rewrite size_union, !size_singleton in Hsub by set_solver. lia.
Qed.
(** A staged artifact of [e]'s group is the one chosen. *)
Definition decided (e : PkgEntry) : Prop :=
  exists k o, pkgAlternativeKey e = Some k /\ o ∈ staged entries /\ pkgAlternativeKey o = Some k /\ selections !! k = Some (pkgEntryIdentity o).
Context (Hpaths : forall e, e ∈ entries -> path e <> []).
Lemma staged_entry e : e ∈ staged entries -> e ∈ entries.
Proof. unfold staged. rewrite list_elem_of_In, filter_In, <- list_elem_of_In. tauto. Qed.
Lemma identity_filled e : e ∈ staged entries -> pkgEntryIdentity e <> [].
Proof. intros He%staged_entry%Hpaths. unfold pkgEntryIdentity, or_else. by repeat case_match. Qed.
Lemma in_conflict_spec e : e ∈ staged entries -> in_conflict entries selections e = true <-> rivals e /\ ~ decided e.
Proof.
  intros He. unfold in_conflict. destruct (several_spec e He) as [(k & v & -> & Hk & Hv & Hr)|[-> Hr]]; [|naive_solver].
  assert ((exists i, selections !! k = Some i /\ i <> [] /\ i ∈ v) <-> decided e) as Hd.
  { split.
    - intros (i & Hs & Hi & Hiv). destruct (proj1 (variants_spec k i) ltac:(eauto)) as (o & ? & ? & <-). by exists k, o.
    - intros (k' & o & Hk' & Ho & Hok & Hs). assert (k' = k) as -> by congruence. exists (pkgEntryIdentity o).
      split; [done|]. split; [by apply identity_filled|].
      destruct (proj2 (variants_spec k (pkgEntryIdentity o)) ltac:(eauto)) as (v' & ? & ?). by simplify_eq. }
  rewrite <- Hd. destruct (selections !! k) as [[|a s]|] eqn:Es; [naive_solver| |naive_solver].
  rewrite negb_true_iff, bool_decide_eq_false. naive_solver.
Qed.
Lemma ready_staged e : e ∈ ready entries -> e ∈ staged entries /\ installedHere e = false.
Proof. unfold ready. rewrite list_elem_of_In, filter_In, <- list_elem_of_In, negb_true_iff. done. Qed.
Lemma conflicts_spec e : e ∈ conflicts entries selections <-> e ∈ ready entries /\ rivals e /\ ~ decided e.
Proof.
  unfold conflicts. rewrite list_elem_of_In, filter_In, <- list_elem_of_In.
  split; intros [Hr H]; (split; [done|]); by apply in_conflict_spec in H || apply in_conflict_spec; try apply ready_staged.
Qed.
Lemma targets_spec e : NoDup (map path entries) ->
  e ∈ targets entries selections <-> e ∈ ready entries /\ (rivals e -> exists k, pkgAlternativeKey e = Some k /\ selections !! k = Some (pkgEntryIdentity e)).
Proof.
  intros Hnd. unfold targets. rewrite sort_by_perm, list_elem_of_In, filter_In, <- list_elem_of_In.
  assert (e ∈ ready entries -> is_target entries selections e = true <-> (rivals e -> exists k, pkgAlternativeKey e = Some k /\ selections !! k = Some (pkgEntryIdentity e))) as H; [|naive_solver].
  intros Hr. pose proof (proj1 (ready_staged e Hr)) as Hs.
  assert (path e ∈ map path (conflicts entries selections) <-> rivals e /\ ~ decided e) as Hc.
  { rewrite list_elem_of_fmap. split; [|intros ?; exists e; split; [done|by apply conflicts_spec]].
    intros (e' & Hp & He'). pose proof (proj1 (conflicts_spec e') He') as (Hr' & H').
    assert (e = e') as ->; [|done].
    apply list_elem_of_lookup in Hs as Hs0. apply staged_entry, list_elem_of_lookup in Hs as (i & Hi).
    apply ready_staged, proj1, staged_entry, list_elem_of_lookup in Hr' as (j & Hj).
    assert (i = j) as ->; [|by simplify_eq]. eapply NoDup_lookup; [exact Hnd| |]; rewrite list_lookup_fmap; [by rewrite Hi|rewrite Hj; simpl; by rewrite Hp]. }
  unfold is_target. case_bool_decide as Hp.
  - apply Hc in Hp as [Hv Hd]. split; [done|]. intros H. destruct (H Hv) as (k & Hk & Hsel). destruct Hd. by exists k, e.
  - destruct (several_spec e Hs) as [(k & v & -> & Hk & Hv & Hri)|[-> Hri]]; [|naive_solver].
    rewrite bool_decide_eq_true. rewrite Hk. naive_solver.
Qed.
(** What Install all leaves alone of what is ready: an artifact another of its group was chosen over. *)
Lemma left_out e : NoDup (map path entries) -> e ∈ ready entries -> e ∉ targets entries selections -> e ∉ conflicts entries selections ->
  exists k o, pkgAlternativeKey e = Some k /\ o ∈ staged entries /\ pkgAlternativeKey o = Some k /\
    selections !! k = Some (pkgEntryIdentity o) /\ pkgEntryIdentity o <> pkgEntryIdentity e.
Proof.
  intros Hnd Hr Ht Hc. rewrite targets_spec in Ht by done. rewrite conflicts_spec in Hc.
  destruct (several_spec e (proj1 (ready_staged e Hr))) as [(k & v & _ & Hk & _ & Hv)|[_ Hv]]; [|destruct Ht; by split].
  destruct (decide (Exists (fun o => pkgAlternativeKey o = Some k /\ selections !! k = Some (pkgEntryIdentity o)) (staged entries))) as [Hd|Hd].
  - apply Exists_exists in Hd as (o & Ho & Hok & Hs). exists k, o. split_and!; [done..|]. intros Hi. apply Ht. split; [done|]. intros _.
    exists k. by rewrite <- Hi.
  - destruct Hc. split_and!; [done|done|]. intros (k' & o & Hk' & Ho & Hok & Hs). assert (k' = k) as -> by congruence.
    apply Hd, Exists_exists. eauto.
Qed.
End plan_facts.

(** ** The order of the targets *)

(** Every update row says so (and is not told by its folder alone). *)
Definition updates_say_so (entries : list PkgEntry) : Prop :=
  forall e, e ∈ entries -> pkgEntryInstallOrder e = 1 -> is_cat "gp" e = true.
Definition in_order (say : Prop) (a b : PkgEntry) : Prop :=
  pkgEntryInstallOrder a <= pkgEntryInstallOrder b /\
  (say -> is_cat "gp" a = true -> is_cat "gp" b = true -> localeCompare (appVer a ?? []) (appVer b ?? []) <= 0).
Lemma gp_order e : is_cat "gp" e = true -> pkgEntryInstallOrder e = 1.
Proof. unfold pkgEntryInstallOrder. by intros ->. Qed.
Lemma targets_sorted entries selections : StronglySorted (in_order (updates_say_so entries)) (targets entries selections).
Proof.
  set (say := updates_say_so entries).
  apply sort_by_sorted with (P := fun e => say -> pkgEntryInstallOrder e = 1 -> is_cat "gp" e = true).
  - intros x y z Hx Hy Hz [H1 H2] [H3 H4]. split; [lia|]. intros Hs Gx Gz. apply gp_order in Gx as Ox. apply gp_order in Gz as Oz.
    assert (is_cat "gp" y = true) as Gy by (apply Hy; [done|lia]). eapply compare_keys_trans; [by apply H2|by apply H4].
  - intros x y Hx Hy. unfold installOrder, in_order. destruct (Z.eqb_spec (pkgEntryInstallOrder x - pkgEntryInstallOrder y) 0) as [He|He]; cbn [negb].
    + intros Hc. split; [lia|]. intros _ Gx Gy. by rewrite Gx, Gy in Hc.
    + intros Hc. split; [lia|]. intros _ Gx%gp_order Gy%gp_order. lia.
  - intros x y Hx Hy. unfold installOrder, in_order. destruct (Z.eqb_spec (pkgEntryInstallOrder x - pkgEntryInstallOrder y) 0) as [He|He]; cbn [negb].
    + intros Hc. split; [lia|]. intros _ Gy Gx. rewrite Gx, Gy in Hc. by apply compare_keys_total.
    + intros Hc. split; [lia|]. intros _ Gy%gp_order Gx%gp_order. lia.
  - rewrite Forall_forall. intros e He Hs. apply Hs. rewrite list_elem_of_In, filter_In, <- list_elem_of_In in He. destruct He as [He _].
    by apply staged_entry, ready_staged.
Qed.


(** ** Groups *)

(** The groups: each holds the rows of its key in their order, and at least two different artifacts. *)
Lemma alternative_groups entries k g :
  (k, g) ∈ pkgAlternativeGroups entries -> g = List.filter (fun e => bool_decide (pkgAlternativeKey e = Some k)) entries /\
    exists a b, a ∈ g /\ b ∈ g /\ pkgEntryIdentity a <> pkgEntryIdentity b.
Proof.
  unfold pkgAlternativeGroups. rewrite list_elem_of_In, filter_In, <- list_elem_of_In. intros [Hg Hn]. split.
  - by apply groups_spec in Hg as [-> _].
  - apply Nat.ltb_lt in Hn. simpl in Hn.
    destruct (remove_dups (map pkgEntryIdentity g)) as [|i [|j l]] eqn:El; simpl in Hn; [lia..|].
    pose proof (NoDup_remove_dups (map pkgEntryIdentity g)) as Hnd. rewrite El in Hnd. apply NoDup_cons in Hnd as [Hnd _].
    assert (i ∈ map pkgEntryIdentity g /\ j ∈ map pkgEntryIdentity g) as [Hi Hj].
    { split; apply elem_of_remove_dups; rewrite El; [by left|by right; left]. }
    apply list_elem_of_fmap in Hi as (a & -> & Ha). apply list_elem_of_fmap in Hj as (b & -> & Hb). exists a, b. split_and!; [done..|].
    intros Heq. apply Hnd. rewrite Heq. by left.
Qed.

(** * What a row says is installed *)

(** The installed file is the package: its very bytes, or (a PS5 package, which lands with other bytes) its
    content id on a file of its kind, or what is known of it on one. *)
Definition is_this_package (w : Wanted) (a : Artifact) : Prop :=
  (to_lower (a_fingerprint a) = to_lower (w_fingerprint w ?? []) /\ (33 <= length (w_fingerprint w ?? []))%nat) \/
  (a_kind a = kind_of (w_category w) /\
    (exact_match w a = true \/ (w_contentId w = Some (a_contentId a) /\ a_contentId a <> [] /\ 0 < a_size a))).
(** With the console's inventory at hand a row says installed for a file of its own. An update or add-on
    does so for nothing else, never because its base game is there (but for a PS5 package this app
    installed, which may have no file of its own); anything else also when its title is there. *)
Lemma row_installed_cases w ids l : pkgRowInstalled w ids (Some l) = true ->
  (exists a, a ∈ l /\ is_this_package w a) \/
  (isAddonCategory (w_category w) = true /\ w_installedHere w = true /\ platformFromTitleId (w_titleId w) = js "ps5" /\
     forall a, a ∈ l -> a_kind a <> kind_of (w_category w)) \/
  (isAddonCategory (w_category w) = false /\ exists t, w_titleId w = Some t /\ t ∈ ids).
Proof.
  unfold pkgRowInstalled.
  set (cand := List.filter _ l).
  assert (forall a, a ∈ cand <-> a ∈ l /\ a_kind a = kind_of (w_category w)) as Hcand
    by (intros a; unfold cand; by rewrite list_elem_of_In, filter_In, <- list_elem_of_In, bool_decide_eq_true).
  assert (length (to_lower (w_fingerprint w ?? [])) = length (w_fingerprint w ?? [])) as Hlen by apply length_map.
  destruct (_ && _ && existsb _ l) eqn:E1.
  { intros _. left. bool_prop. apply existsb_elem in H0 as (a & Ha & Hf%bool_decide_eq_true). exists a. split; [done|]. left.
    split; [done|]. rewrite <- Hlen. by apply Nat.leb_le. }
  match goal with |- context [if ?b then true else if existsb (exact_match w) cand then _ else _] => destruct b eqn:E2 end.
  { intros _. left. apply andb_true_iff in E2 as [_ E2]. destruct (w_contentId w) as [[|x c]|] eqn:Ew; [done| |done].
    apply existsb_elem in E2 as (a & Ha%Hcand & Hp). apply andb_true_iff in Hp as [Hp%bool_decide_eq_true Hs%Z.ltb_lt]. exists a. split; [apply Ha|]. right.
    split; [apply Ha|]. right. rewrite Ew, Hp. done. }
  destruct (existsb (exact_match w) cand) eqn:E3.
  { intros _. left. apply existsb_elem in E3 as (a & Ha%Hcand & Hp). exists a. split; [apply Ha|]. right. split; [apply Ha|]. by left. }
  intros H. right. destruct (isAddonCategory (w_category w)); [left|right].
  - repeat (apply andb_true_iff in H as [H ?]). apply bool_decide_eq_true in H. split_and!; [done..|].
    intros a Ha Hk. assert (a ∈ cand) as Hin by (by apply Hcand). destruct cand; [set_solver|done].
  - split; [done|]. apply andb_true_iff in H as [H _]. destruct (w_titleId w) as [[|x t]|]; [done| |done].
    apply bool_decide_eq_true in H. eauto.
Qed.

(** * Merging a listing *)

Lemma byPath_spec prev p e : NoDup (map path prev) -> byPath prev !! p = Some e <-> e ∈ prev /\ path e = p.
Proof.
  unfold byPath. intros Hnd.
  assert (forall m : gmap str PkgEntry, (forall p e, m !! p = Some e -> path e = p) -> (forall e, e ∈ prev -> m !! path e = None) ->
    fold_left (fun m e => <[path e := e]> m) prev m !! p = Some e <-> (e ∈ prev /\ path e = p) \/ m !! p = Some e) as H.
  { induction prev as [|x prev IH]; intros m Hm Hd; simpl; [set_solver|]. apply NoDup_cons in Hnd as [Hx Hnd].
    rewrite IH; [|done| |].
    - rewrite elem_of_cons. destruct (decide (path x = p)) as [<-|Hne].
      + rewrite lookup_insert_eq. specialize (Hd x ltac:(by left)). split; [naive_solver|]. intros [[[->|?] ?]|?]; [by right|by left|congruence].
      + rewrite lookup_insert_ne by done. naive_solver.
    - intros p' e'. rewrite lookup_insert_Some. naive_solver.
    - intros e' He'. rewrite lookup_insert_ne; [apply Hd; by right|]. intros Heq. apply Hx. rewrite Heq. by apply list_elem_of_fmap_2. }
  rewrite H; [|done|done]. rewrite lookup_empty. naive_solver.
Qed.
Lemma merged_row_path prev l : NoDup (map path prev) -> path (merged_row prev l) = path l.
Proof.
  intros Hnd. unfold merged_row. destruct (byPath prev !! path l) as [old|] eqn:E; [|done].
  apply byPath_spec in E as [_ E]; [|done]. destruct (negb _); [exact E|]. by destruct (lastResult old).
Qed.
(** A refresh shows what is on the console and what is on its way there, each once; a row that is being
    uploaded or installed keeps its state, one at rest its last result. *)
Lemma merge_keeps_rows prev listed : NoDup (map path prev) -> NoDup (map path listed) ->
  NoDup (map path (mergeListing prev listed)) /\
  (forall p, p ∈ map path (mergeListing prev listed) <-> p ∈ map path listed \/ exists e, e ∈ prev /\ path e = p /\ status e <> Idle) /\
  (forall e, e ∈ prev -> status e <> Idle -> exists n, e <| size := n |> ∈ mergeListing prev listed) /\
  (forall e l, e ∈ prev -> status e = Idle -> l ∈ listed -> path l = path e -> lastResult e <> None -> l <| lastResult := lastResult e |> ∈ mergeListing prev listed).
Proof.
  intros Hp Hl. unfold mergeListing. set (act := List.filter _ prev).
  assert (forall e, e ∈ act <-> e ∈ prev /\ status e <> Idle /\ path e ∉ map path listed) as Hact.
  { intros e. unfold act. rewrite list_elem_of_In, filter_In, <- list_elem_of_In, andb_true_iff, !negb_true_iff, bool_decide_eq_false.
    assert (existsb (fun l => bool_decide (path l = path e)) listed = false <-> path e ∉ map path listed) as ->; [|done].
    rewrite existsb_false, list_elem_of_fmap. split.
    - intros H (l & Heq & Hin). specialize (H l Hin). by apply bool_decide_eq_false in H.
    - intros H l Hin. apply bool_decide_eq_false. intros Heq. apply H. by exists l. }
  assert (map path (map (merged_row prev) listed) = map path listed) as Hm.
  { rewrite map_map. apply map_ext. intros l. by apply merged_row_path. }
  rewrite map_app, Hm. split_and!.
  - apply NoDup_app. split_and!; [eapply sublist_NoDup; [exact Hp|]; apply fmap_sublist, filter_sublist| |done].
    intros p Hi. apply list_elem_of_fmap in Hi as (e & -> & He). by apply Hact in He as (_ & _ & ?).
  - intros p. rewrite elem_of_app, list_elem_of_fmap. setoid_rewrite Hact. split; [naive_solver|].
    intros [?|(e & ? & <- & ?)]; [by right|]. destruct (decide (path e ∈ map path listed)); [by right|left]. naive_solver.
  - intros e He Hs. destruct (decide (path e ∈ map path listed)) as [Hin|Hin].
    + apply list_elem_of_fmap in Hin as (l & Hpl & Hin). exists (if size l =? 0 then size e else size l).
      apply elem_of_app. right. apply list_elem_of_fmap. exists l. split; [|done]. unfold merged_row.
      rewrite (proj2 (byPath_spec prev (path l) e Hp)) by done. by rewrite bool_decide_false.
    + exists (size e). apply elem_of_app. left. apply Hact. by destruct e.
  - intros e l He Hs Hin Hpl Hr. apply elem_of_app. right. apply list_elem_of_fmap. exists l. split; [|done]. unfold merged_row.
    rewrite (proj2 (byPath_spec prev (path l) e Hp)) by done. rewrite bool_decide_true by done. simpl. by destruct (lastResult e).
Qed.

(** * What a confirmed install leaves in the library *)

(** [new Set(l)] and [set.add(x)], as arrays. *)
Definition set_add (s : list str) (x : str) : list str := if decide (x ∈ s) then s else s ++ [x].
Definition js_set (l : list str) : list str := fold_left set_add l [].
(** The record of what was installed where, [hostOf] taken. *)
Definition recordPkgInstalled (host path : str) (replaced : list str) (c : gmap str (list str)) : gmap str (list str) :=
  match path with
  | [] => c
  | _ => let h := hostOf host in
         <[h := set_add (List.filter (fun p => negb (bool_decide (p ∈ replaced))) (js_set (c !! h ?? []))) path]> c
  end.
Definition isPkgInstalledHere (host path : str) (c : gmap str (list str)) : bool :=
  match path with [] => false | _ => bool_decide (path ∈ (c !! hostOf host ?? [])) end.
(** The other rows of the alternative just installed. *)
Definition replacedAlternativePaths (p : str) (entries : list PkgEntry) : list str :=
  match find_first (fun e => bool_decide (path e = p)) entries ≫= pkgAlternativeKey with
  | None => []
  | Some k => map path (List.filter (fun e => negb (bool_decide (path e = p)) && bool_decide (pkgAlternativeKey e = Some k)) entries)
  end.
(** [finalizePkgInstallSuccess], its rows and record. *)
Definition finalized_rows (p : str) (autoRemove : bool) (entries : list PkgEntry) : list PkgEntry :=
  let replaced := replacedAlternativePaths p entries in
  let entries := map (fun e => if decide (path e ∈ replaced) then e <| installedHere := false |> else e) entries in
  let entries := map (fun e => if decide (path e = p)
    then e <| status := Idle |> <| installedHere := true |> <| lastResult := Some {| lr_ok := true; lr_unconfirmed := false |} |> else e) entries in
  if autoRemove then List.filter (fun e => negb (bool_decide (path e = p))) entries else entries.
Definition finalized_record (host p : str) (entries : list PkgEntry) : gmap str (list str) -> gmap str (list str) :=
  recordPkgInstalled host p (replacedAlternativePaths p entries).

Lemma elem_of_set_add s x y : y ∈ set_add s x <-> y ∈ s \/ y = x.
Proof. unfold set_add. destruct (decide (x ∈ s)); set_solver. Qed.
Lemma elem_of_js_set l y : y ∈ js_set l <-> y ∈ l.
Proof.
  unfold js_set. induction l as [|x l IH] using rev_ind; [done|]. rewrite fold_left_app. cbn [fold_left]. rewrite elem_of_set_add, IH. set_solver.
Qed.
Lemma replaced_spec p e entries : NoDup (map path entries) -> e ∈ entries -> path e = p -> forall o, o ∈ entries ->
  path o ∈ replacedAlternativePaths p entries <-> path o <> p /\ pkgAlternativeKey o = pkgAlternativeKey e /\ pkgAlternativeKey e <> None.
Proof.
  intros Hnd He Hp o Ho. unfold replacedAlternativePaths.
  assert (forall x y, x ∈ entries -> y ∈ entries -> path x = path y -> x = y) as Hinj.
  { intros x y (i & Hi)%list_elem_of_lookup (j & Hj)%list_elem_of_lookup Heq.
    assert (i = j) as ->; [|congruence]. eapply NoDup_lookup; [exact Hnd| |]; rewrite list_lookup_fmap; [by rewrite Hi|rewrite Hj; simpl; by rewrite Heq]. }
  destruct (find_first _ entries) as [e'|] eqn:Ef.
  - apply find_first_Some in Ef as [He' Hp'%bool_decide_eq_true]. assert (e' = e) as -> by (apply Hinj; [done..|congruence]). simpl.
    destruct (pkgAlternativeKey e) as [k|]; [|split; [by intros ?%elem_of_nil|naive_solver]].
    rewrite list_elem_of_fmap. setoid_rewrite list_elem_of_In at 1. setoid_rewrite filter_In. setoid_rewrite <- list_elem_of_In.
    split.
    + intros (x & Hx & Hin & Hc). assert (x = o) as -> by (by apply Hinj). bool_prop. by split_and!.
    + intros (H1 & H2 & _). exists o. split; [done|]. split; [done|]. by rewrite bool_decide_false, bool_decide_true.
  - rewrite find_first_None in Ef. specialize (Ef e He). by rewrite bool_decide_true in Ef.
Qed.
(** After a confirmed install the package's row says so; no other row of its alternatives does, on the
    screen as in the record; and every other row and record is as it was. *)
Lemma one_variant_installed host e entries c : NoDup (map path entries) -> e ∈ entries -> path e <> [] ->
  let rows := finalized_rows (path e) false entries in
  let c' := finalized_record host (path e) entries c in
  (exists r, r ∈ rows /\ path r = path e /\ installedHere r = true /\ isFinishedPkg r = true) /\ isPkgInstalledHere host (path e) c' = true /\
  (forall r, r ∈ rows -> path r <> path e -> pkgAlternativeKey r = pkgAlternativeKey e -> pkgAlternativeKey e <> None ->
     installedHere r = false /\ isPkgInstalledHere host (path r) c' = false) /\
  (forall o, o ∈ entries -> path o <> path e -> pkgAlternativeKey o <> pkgAlternativeKey e ->
     o ∈ rows /\ isPkgInstalledHere host (path o) c' = isPkgInstalledHere host (path o) c) /\
  (forall h p, hostOf h <> hostOf host -> isPkgInstalledHere h p c' = isPkgInstalledHere h p c).
Proof.
  intros Hnd He Hp rows c'. pose proof (replaced_spec (path e) e entries Hnd He eq_refl) as Hr.
  assert (forall o, o ∈ entries -> path o <> [] -> isPkgInstalledHere host (path o) c' =
    bool_decide (path o = path e \/ (~ (path o ∈ replacedAlternativePaths (path e) entries) /\ path o ∈ (c !! hostOf host ?? [])))) as Hrec.
  { intros o Ho Hpo. unfold isPkgInstalledHere, c', finalized_record, recordPkgInstalled.
    destruct (path o) as [|x po] eqn:Eo; [done|]. rewrite <- Eo. destruct (path e) as [|y pe] eqn:Ee; [done|]. rewrite <- Ee.
    rewrite lookup_insert_eq. simpl. apply bool_decide_ext. rewrite elem_of_set_add, list_elem_of_In, filter_In, <- list_elem_of_In, elem_of_js_set, negb_true_iff, bool_decide_eq_false. tauto. }
  assert (path e ∉ replacedAlternativePaths (path e) entries) as Hself by (rewrite Hr by done; naive_solver).
  unfold finalized_rows in rows. split_and!.
  - eexists. split; [apply list_elem_of_fmap; eexists; split; [reflexivity|]; apply list_elem_of_fmap; exists e; split; [reflexivity|done]|].
    rewrite (decide_False (P := path e ∈ _)) by done. by rewrite decide_True.
  - rewrite Hrec by done. apply bool_decide_true. by left.
  - intros r (o1 & -> & (o & -> & Ho)%list_elem_of_fmap)%list_elem_of_fmap Hne Hk Hkn.
    set (o' := if decide (path o ∈ _) then _ else _) in *.
    assert (path o' = path o /\ pkgAlternativeKey o' = pkgAlternativeKey o) as [Hpo Hko] by (unfold o'; destruct (decide (path o ∈ replacedAlternativePaths (path e) entries)); split; reflexivity).
    assert (path o <> path e) as Hneo by (destruct (decide (path o' = path e)); simpl in Hne; congruence).
    rewrite (decide_False (P := path o' = path e)) in * by congruence.
    assert (path o ∈ replacedAlternativePaths (path e) entries) as Hin by (apply Hr; [done|split_and!; [done|congruence|done]]).
    split; [subst o'; by rewrite decide_True|]. rewrite Hpo. destruct (decide (path o = [])) as [Hz|Hz]; [by rewrite Hz|].
    rewrite Hrec by done. apply bool_decide_false. naive_solver.
  - intros o Ho Hne Hk. assert (path o ∉ replacedAlternativePaths (path e) entries) as Hin by (rewrite Hr by done; naive_solver).
    split; [apply list_elem_of_fmap; exists o; split; [by rewrite decide_False|]; apply list_elem_of_fmap; exists o; by rewrite decide_False|].
    destruct (decide (path o = [])) as [Hz|Hz]; [by rewrite Hz|]. rewrite Hrec by done. unfold isPkgInstalledHere. destruct (path o) eqn:Eo; [done|].
    apply bool_decide_ext. naive_solver.
  - intros h p Hh. unfold isPkgInstalledHere, c', finalized_record, recordPkgInstalled. destruct (path e); [done|]. by rewrite lookup_insert_ne.
Qed.

(** * Examples *)

Definition row (p c v f : string) : PkgEntry := {|
  name := js "a.pkg"; path := js p; size := 1; contentId := js "UP0000-CUSA33334_00-TEST000000000000"; title := None;
  appVer := Some (js v); fingerprint := Some (js f); installedHere := false; titleId := Some (js "CUSA33334");
  category := Some (js c); status := Idle; lastResult := None |}.
Definition library : list PkgEntry := [
  row "/d/dlc/x/a.pkg" "ac" "" "d1"; row "/d/updates/u10.pkg" "gp" "01.10" "u10"; row "/d/updates/u9.pkg" "gp" "01.9" "u9";
  row "/d/updates/fix/u9.pkg" "gp" "01.9" "fix"; row "/d/a.pkg" "gd" "01.00" "b"].
Definition u9_key : str := js "patch:CUSA33334:01.9".
(** Two variants of an update wait for a choice; the rest goes base, update, add-on. *)
Example plan_without_choice : let '(t, c) := pkgInstallAllPlan library ∅ in
  map path t = js <$> ["/d/a.pkg"; "/d/updates/u10.pkg"; "/d/dlc/x/a.pkg"]%string /\
  map path c = js <$> ["/d/updates/u9.pkg"; "/d/updates/fix/u9.pkg"]%string.
Proof. vm_compute. done. Qed.
(** One artifact staged on two drives is two rows: both are installed, chosen or not. *)
Example same_package_twice :
  let two := [row "/d/updates/u9.pkg" "gp" "01.9" "u9"; row "/mnt/ext0/updates/u9.pkg" "gp" "01.9" "u9"] in
  map path (pkgInstallAllPlan two ∅).1 = map path two /\ map path (pkgInstallAllPlan two {[u9_key := js "u9"]}).1 = map path two.
Proof. vm_compute. done. Qed.
(** An update that only its folder tells is in no order with the others, and keeps two of them apart. *)
Example folder_update_breaks_order :
  let l := [row "/d/updates/u10.pkg" "gp" "01.10" "u10"; row "/d/updates/x.pkg" "" "01.11" "x"; row "/d/updates/u9.pkg" "gp" "01.9" "u9"] in
  map path (pkgInstallAllPlan l ∅).1 = map path l.
Proof. vm_compute. done. Qed.
Example title_id : titleIdFromContentId (js "EP9000-CUSA00207_00-BLOODBORNE000000") = Some (js "CUSA00207").
Proof. reflexivity. Qed.
Example no_title_id : titleIdFromContentId (js "EP9000-cusa00207_00") = None /\ titleIdFromContentId (js "a.b") = None.
Proof. done. Qed.
Example versions : localeCompare (js "01.9") (js "01.10") = -1 /\ localeCompare (js "01.09") (js "1.9") = 0.
Proof. done. Qed.
