(* ===== verification/PkgStaging.v ===== *)
(** Where a package goes in the console's library and how a fresh listing reads it back
    (client/src/lib/pkgStagingPath.ts, lib/pkgStorage.ts, and [refresh] and the destination of
    [addAndUpload] of state/pkgLibrary.ts): its safe name, a directory for each update and add-on, the
    drive the library is on.

    [listDir] is the console's answer about one directory: its entries, that it does not exist, or
    another failure. *)
From S2P Require Import Prelude Addr Semver Paths PkgRules.

(** * The staged name and directory *)

Definition CONTENT_ID_MAX_LEN : nat := 36.
(** [/^[A-Za-z0-9._-]+$/] *)
Definition safe_char (a : ascii) : bool := is_alpha a || is_digit a || is_char "." a || is_char "_" a || is_char "-" a.
Definition PACKAGE_FINGERPRINT_DIR_HEX_LEN : nat := 32.
(** A missing content id is the empty one. *)
Definition isSafeContentId (c : str) : bool :=
  match c with
  | [] => false
  | _ => negb (CONTENT_ID_MAX_LEN <? length c)%nat && negb (includes (js "..") c) && forallb safe_char c
  end.
Definition stagingBasename (c queueId : str) (nowMs : Z) : str :=
  if isSafeContentId c then c ++ js ".pkg" else queueId ++ js "_" ++ num nowMs ++ js ".pkg".
Definition stagingSubdirForCategory (c : option str) : str :=
  if bool_decide (c = Some (js "gp")) then js "updates" else if bool_decide (c = Some (js "ac")) then js "dlc" else [].
(** [/^[a-f0-9]{n}$/i] *)
Definition is_hex_of (n : nat) (s : str) : bool := (length s =? n)%nat && forallb is_hex (to_lower s).
Definition stagingDirectoryForPackage (c fp : option str) : str :=
  match stagingSubdirForCategory c with
  | [] => []
  | dir =>
      let f := fp ?? [] in
      if is_hex_of 64 f then dir ++ js "/" ++ to_lower (take PACKAGE_FINGERPRINT_DIR_HEX_LEN f) else dir
  end.
Definition fingerprintFromStagingSubdir (subdir : str) : option str :=
  match split_on slash subdir !! 1%nat with
  | Some token => if is_hex_of 32 token || is_hex_of 64 token then Some (to_lower token) else None
  | None => None
  end.
Definition categoryForSubdir (subdir : str) : option str :=
  match split_on slash subdir !! 0%nat with
  | Some d => if bool_decide (d = js "updates") then Some (js "gp") else if bool_decide (d = js "dlc") then Some (js "ac") else None
  | None => None
  end.
Inductive Label := Base | Update | DLC.
Definition pkgCategoryLabel (c : option str) : option Label :=
  if bool_decide (c = Some (js "gd")) then Some Base else if bool_decide (c = Some (js "gp")) then Some Update
  else if bool_decide (c = Some (js "ac")) then Some DLC else None.
(** [destPath] of [addAndUpload]. *)
Definition destPath (libraryDir stagingDir basename : str) : str :=
  match stagingDir with [] => libraryDir ++ [slash] ++ basename | _ => libraryDir ++ [slash] ++ stagingDir ++ [slash] ++ basename end.

(** * The drive *)

Record Volume := { v_path : str; v_writable : bool; v_placeholder : bool; v_source_image : str }.
Definition INTERNAL_PKG_DIR : str := js "/user/data/ps5upload/pkg_library".
Definition INTERNAL_MOUNTS : list str := js <$> ["/data"; "/user"; "/user/data"]%string.
Definition trimSlash (p : str) : str := or_root (trim p).
Definition isInternalVolume (p : str) : bool := match p with [] => true | _ => bool_decide (trimSlash p ∈ INTERNAL_MOUNTS) end.
Definition pkgDirOnVolume (v : str) : str := if isInternalVolume v then INTERNAL_PKG_DIR else trimSlash v ++ js "/ps5upload/pkg_library".
Definition isPackageDrive (v : Volume) : bool :=
  v_writable v && negb (v_placeholder v) && bool_decide (v_source_image v = []) && negb (starts_with (js "/mnt/ps5upload/") (v_path v)).
Record PkgStorage := { st_dir : str; st_volume : option str; fellBack : bool }.
(** [None] for [volumes]: the drives cannot be read. No drive chosen is the empty path. *)
Definition resolvePkgStorage (chosen : str) (volumes : option (list Volume)) : PkgStorage :=
  if isInternalVolume chosen then {| st_dir := INTERNAL_PKG_DIR; st_volume := None; fellBack := false |}
  else
    let want := trimSlash chosen in
    if existsb (fun v => bool_decide (trimSlash (v_path v) = want) && isPackageDrive v) (volumes ?? [])
    then {| st_dir := pkgDirOnVolume want; st_volume := Some want; fellBack := false |}
    else {| st_dir := INTERNAL_PKG_DIR; st_volume := None; fellBack := true |}.
Definition add_library (dirs : list str) (v : Volume) : list str :=
  if negb (isPackageDrive v) || isInternalVolume (v_path v) then dirs else set_add dirs (pkgDirOnVolume (v_path v)).
Definition libraryDirs (volumes : option (list Volume)) : list str := fold_left add_library (volumes ?? []) [INTERNAL_PKG_DIR].
(** The drive chosen for each console. *)
Definition defaultFor (host : str) (defaults : gmap str str) : str := defaults !! hostOf host ?? [].
Definition setDefault (host volume : str) (defaults : gmap str str) : gmap str str :=
  match hostOf host with
  | [] => defaults
  | key => if isInternalVolume volume then delete key defaults else <[key := trimSlash volume]> defaults
  end.

(** [s.indexOf(p)] *)
Fixpoint index_of_text (p s : str) : option nat :=
  if starts_with p s then Some 0%nat else match s with [] => None | _ :: s => S <$> index_of_text p s end.
(** The drive a package's path is labelled with. *)
Definition volumeOfPkgPath (path : str) : option str :=
  if starts_with (INTERNAL_PKG_DIR ++ [slash]) path then None
  else match index_of_text (js "/ps5upload/pkg_library/") path with Some ((S _) as i) => Some (take i path) | _ => None end.
Fixpoint chain_from (cur : str) (parts : list str) : list str :=
  match parts with [] => [] | part :: parts => (cur ++ [slash] ++ part) :: chain_from (cur ++ [slash] ++ part) parts end.
(** The folders to create, top-down, for a package folder. *)
Definition pkgMkdirChain (dir : str) : list str :=
  let clean := trimSlash dir in
  match index_of_text (js "/ps5upload/pkg_library") clean with
  | None => [clean]
  | Some at_ => chain_from (take at_ clean) (split_on slash (drop (S at_) clean))
  end.

(** * The listing *)

Inductive EntryKind := KFile | KDir | KOther.
#[export] Instance entry_kind_eq_dec : EqDecision EntryKind.
Proof. solve_decision. Defined.
Record DirEntry := { e_name : str; e_kind : EntryKind; e_size : Z }.
#[export] Instance dir_entry_eq_dec : EqDecision DirEntry.
Proof. solve_decision. Defined.
Inductive Answer := Entries (l : list DirEntry) | Missing | Failed.
#[export] Instance answer_eq_dec : EqDecision Answer.
Proof. solve_decision. Defined.
(** What is remembered of a staged path, of the fields the rows here have. *)
Record PathMeta := { m_appVer : option str; m_fingerprint : option str; m_category : option str }.

Definition isInstallPackagePath (p : str) : bool := ends_with (js ".pkg") (to_lower p) || ends_with (js ".fpkg") (to_lower p).
Definition pathMetaCacheKey (host path : str) : str := hostOf host ++ ["000"%char] ++ path.
Definition pathMetaFor (cache : gmap str PathMeta) (host path : str) : option PathMeta :=
  match cache !! pathMetaCacheKey host path with Some m => Some m | None => cache !! path end.
Definition over {A} (a b : option A) : option A := match a with Some _ => a | None => b end.

Section refresh.
Context (host : str) (cache : gmap str PathMeta) (titles : gmap str str) (installed : gmap str (list str)) (listDir : str -> Answer).
Definition listOne (dir : str) (strict : bool) : option (list DirEntry) :=
  match listDir dir with Entries l => Some l | Missing => Some [] | Failed => if strict then None else Some [] end.
Definition listed_row (subdir dir : str) (e : DirEntry) : PkgEntry :=
  let contentId := contentIdFromName (e_name e) in
  let path := dir ++ [slash] ++ e_name e in
  let cached := pathMetaFor cache host path in
  {| name := e_name e; path := path; size := e_size e; contentId := contentId; title := titles !! contentId;
     appVer := cached ≫= m_appVer; fingerprint := over (cached ≫= m_fingerprint) (fingerprintFromStagingSubdir subdir);
     installedHere := isPkgInstalledHere host path installed; titleId := titleIdFromContentId contentId;
     category := over (cached ≫= m_category) (categoryForSubdir subdir); status := Idle; lastResult := None |}.
Definition is_package (e : DirEntry) : bool := bool_decide (e_kind e = KFile) && isInstallPackagePath (e_name e).
Definition addFrom (listed : list DirEntry) (subdir dir : str) : list PkgEntry :=
  map (listed_row subdir dir) (List.filter is_package listed).
Definition dirs_of (listed : list DirEntry) : list str := map e_name (List.filter (fun e => bool_decide (e_kind e = KDir)) listed).
(** A directory listed the lenient way. *)
Definition soft (dir : str) : list DirEntry := listOne dir false ?? [].
Definition list_category (base : str) (presentDirs : list str) (subdir : str) : list PkgEntry :=
  if negb (bool_decide (subdir ∈ presentDirs)) then []
  else
    let dir := base ++ [slash] ++ subdir in
    let categoryList := soft dir in
    addFrom categoryList subdir dir ++
    flat_map (fun instance => let instanceDir := dir ++ [slash] ++ instance in addFrom (soft instanceDir) (subdir ++ [slash] ++ instance) instanceDir)
      (dirs_of categoryList).
Definition list_base (base : str) (strict : bool) : option (list PkgEntry) :=
  match listOne base strict with
  | None => None
  | Some rootList => Some (addFrom rootList [] base ++ flat_map (list_category base (dirs_of rootList)) [js "updates"; js "dlc"])
  end.
Fixpoint list_bases (bases : list str) (strict : bool) : option (list PkgEntry) :=
  match bases with
  | [] => Some []
  | base :: bases =>
      match list_base base strict with
      | None => None
      | Some l => option_map (app l) (list_bases bases false)
      end
  end.
(** The rows a refresh finds; [None]: it stops at an error. *)
Definition listing (volumes : option (list Volume)) : option (list PkgEntry) := list_bases (libraryDirs volumes) true.
End refresh.

(** * What a staged path says *)

Lemma split_on_none c s : c ∉ s -> split_on c s = [s].
Proof. induction s as [|a s IH]; simpl; [done|]. intros [Ha Hs]%not_elem_of_cons. rewrite decide_False by done. by rewrite IH. Qed.
Lemma split_on_app c s t : c ∉ s -> split_on c (s ++ [c] ++ t) = s :: split_on c t.
Proof.
  induction s as [|a s IH]; simpl; [by rewrite decide_True|]. intros [Ha Hs]%not_elem_of_cons.
  rewrite decide_False by done. simpl in IH. by rewrite IH.
Qed.
Lemma hex_lower n s : is_hex_of n s = true -> forallb is_hex (to_lower s) = true /\ length s = n.
Proof. unfold is_hex_of. intros [H1%Nat.eqb_eq H2]%andb_true_iff. done. Qed.
Lemma hex_no_slash s : forallb is_hex s = true -> slash ∉ s.
Proof. rewrite forallb_forall. intros H Hin%list_elem_of_In%H. done. Qed.
Lemma hex_not_upper s : forallb is_hex s = true -> to_lower s = s.
Proof.
  induction s as [|a s IH]; simpl; [done|]. intros [Ha Hs]%andb_true_iff. rewrite IH by done. f_equal. unfold lower_char.
  destruct (is_upper a) eqn:E; [|done]. exfalso. unfold is_hex, is_digit, is_upper in *.
  apply orb_true_iff in Ha. rewrite !andb_true_iff, !Z.leb_le in *. lia.
Qed.
Lemma token_of s : is_hex_of 64 s = true -> let t := to_lower (take PACKAGE_FINGERPRINT_DIR_HEX_LEN s) in
  t = take 32 (to_lower s) /\ forallb is_hex t = true /\ to_lower t = t /\ length t = 32%nat.
Proof.
  intros [Hh Hl]%hex_lower t. assert (t = take 32 (to_lower s)) as Ht by (symmetry; apply firstn_map).
  assert (forallb is_hex t = true) as Hx.
  { rewrite Ht, forallb_forall. rewrite forallb_forall in Hh. intros a (i & Ha & _)%list_elem_of_In%elem_of_take. by eapply Hh, list_elem_of_In, list_elem_of_lookup_2. }
  split_and!; [done..|by apply hex_not_upper|]. unfold t, to_lower. rewrite length_map, length_take, Hl. done.
Qed.
(** An add-on's directory: its category's, then its token. *)
Lemma addon_dir c f : isAddonCategory (Some c) = true -> is_hex_of 64 f = true ->
  let sub := stagingSubdirForCategory (Some c) in
  let tok := to_lower (take PACKAGE_FINGERPRINT_DIR_HEX_LEN f) in
  (sub = js "updates" \/ sub = js "dlc") /\ stagingDirectoryForPackage (Some c) (Some f) = sub ++ [slash] ++ tok /\
  categoryForSubdir (sub ++ [slash] ++ tok) = Some c /\ fingerprintFromStagingSubdir (sub ++ [slash] ++ tok) = Some tok.
Proof.
  intros Hc Hf sub tok. destruct (token_of f Hf) as (_ & Hx & Hl & Hn). fold tok in Hx, Hl, Hn. pose proof (hex_no_slash _ Hx) as Hs.
  assert (is_hex_of 32 tok = true) as H32 by (unfold is_hex_of; by rewrite Hn, Hl, Hx).
  assert (c = js "gp" \/ c = js "ac") as [-> | ->].
  { unfold isAddonCategory in Hc. apply orb_true_iff in Hc as [[= ->]%bool_decide_eq_true|[= ->]%bool_decide_eq_true]; [by left|by right]. }
  all: assert (split_on slash (sub ++ [slash] ++ tok) = [sub; tok]) as Hsp
    by (rewrite split_on_app, split_on_none; [done|done|by apply (bool_decide_unpack _)]).
  all: split; [first [left; reflexivity|right; reflexivity]|]; unfold stagingDirectoryForPackage; change (Some f ?? []) with f; rewrite Hf; split; [done|].
  all: unfold categoryForSubdir, fingerprintFromStagingSubdir; rewrite Hsp; split; [done|];
    change ((if is_hex_of 32 tok || is_hex_of 64 tok then Some (to_lower tok) else None) = Some tok); by rewrite H32, Hl.
Qed.
Lemma safe_id c : isSafeContentId c = true -> c <> [] /\ (length c <= 36)%nat /\ slash ∉ c.
Proof.
  unfold isSafeContentId. destruct c as [|a c]; [done|]. intros [[Hl%negb_true_iff%Nat.ltb_ge _]%andb_true_iff Hs]%andb_true_iff.
  split_and!; [done|exact Hl|]. rewrite forallb_forall in Hs. by intros Hin%list_elem_of_In%Hs.
Qed.
(** The staged name gives the content id back. *)
Lemma contentId_of_name c : contentIdFromName (c ++ js ".pkg") = c.
Proof.
  unfold contentIdFromName. rewrite to_lower_app. change (to_lower (js ".pkg")) with (js ".pkg").
  assert (ends_with (js ".fpkg") (to_lower c ++ js ".pkg") = false) as ->.
  { apply bool_decide_eq_false. intros [u Hu]. change (js ".fpkg") with ([ "."%char ] ++ js "fpkg") in Hu. rewrite app_assoc in Hu.
    apply app_inj_2 in Hu as [_ Hu]; [done|done]. }
  assert (ends_with (js ".pkg") (to_lower c ++ js ".pkg") = true) as -> by (apply bool_decide_eq_true; by exists (to_lower c)).
  rewrite length_app, Nat.add_sub. apply take_app_length.
Qed.
Lemma staged_name c q n : isSafeContentId c = true -> let b := stagingBasename c q n in
  b = c ++ js ".pkg" /\ contentIdFromName b = c /\ isInstallPackagePath b = true /\ (slash ∉ b) /\ (length b <= 40)%nat.
Proof.
  intros Hc. unfold stagingBasename. rewrite Hc. destruct (safe_id c Hc) as (_ & Hl & Hs). split_and!; [done|apply contentId_of_name| | |].
  - unfold isInstallPackagePath. apply orb_true_iff. left. apply bool_decide_eq_true. rewrite to_lower_app. by exists (to_lower c).
  - intros [?|Hin]%elem_of_app; [done|]. revert Hin. by apply (bool_decide_unpack _).
  - rewrite length_app. simpl. lia.
Qed.

(** * The drive is one that is listed *)

Lemma or_root_trim p : trimSlash (trimSlash p) = trimSlash p.
Proof. unfold trimSlash. destruct (trim p) as [|a t] eqn:E; [done|]. simpl. by rewrite <-E, trim_idem, E. Qed.
Lemma internal_trim p : p <> [] -> isInternalVolume p = bool_decide (trimSlash p ∈ INTERNAL_MOUNTS).
Proof. by destruct p. Qed.
Lemma trimSlash_nonempty p : trimSlash p <> [].
Proof. unfold trimSlash. by destruct (trim p). Qed.
Lemma dir_of_trimmed p : p <> [] -> pkgDirOnVolume (trimSlash p) = pkgDirOnVolume p.
Proof. intros Hp. unfold pkgDirOnVolume. rewrite !internal_trim by (done || apply trimSlash_nonempty). by rewrite or_root_trim. Qed.
Lemma elem_of_libraries l dirs d : d ∈ fold_left add_library l dirs <->
  d ∈ dirs \/ exists v, v ∈ l /\ isPackageDrive v = true /\ isInternalVolume (v_path v) = false /\ d = pkgDirOnVolume (v_path v).
Proof.
  revert dirs. induction l as [|v l IH]; intros dirs; simpl; [set_solver|]. rewrite IH. unfold add_library.
  destruct (negb (isPackageDrive v) || isInternalVolume (v_path v)) eqn:E.
  - apply orb_true_iff in E. setoid_rewrite elem_of_cons. split; [naive_solver|].
    intros [?|(w & [->|?] & H1 & H2 & ->)]; [by left| |right; eauto]. rewrite H1, H2 in E. by destruct E.
  - apply orb_false_iff in E as [E1%negb_false_iff E2]. rewrite elem_of_set_add. setoid_rewrite elem_of_cons. naive_solver.
Qed.
Lemma libraries_head l : exists rest, libraryDirs l = INTERNAL_PKG_DIR :: rest.
Proof.
  unfold libraryDirs. generalize (l ?? []). clear l. intros l.
  assert (forall dirs, exists rest, fold_left add_library l (INTERNAL_PKG_DIR :: dirs) = INTERNAL_PKG_DIR :: rest) as H; [|apply H].
  induction l as [|v l IH]; intros dirs; simpl; [eauto|]. unfold add_library at 2. destruct (_ || _); [apply IH|].
  unfold set_add. destruct (decide _); apply IH.
Qed.
(** Among the drives read is the one chosen, fit for packages. *)
Definition still_there (chosen : str) (volumes : option (list Volume)) : Prop :=
  exists l v, volumes = Some l /\ v ∈ l /\ v_path v <> [] /\ isPackageDrive v = true /\ trimSlash (v_path v) = trimSlash chosen.
Lemma storage_listed chosen before volumes : st_volume (resolvePkgStorage chosen before) = None \/ still_there chosen volumes ->
  st_dir (resolvePkgStorage chosen before) ∈ libraryDirs volumes.
Proof.
  intros Hv. unfold libraryDirs. rewrite elem_of_libraries. unfold resolvePkgStorage in *.
  destruct (isInternalVolume chosen) eqn:Ei; [left; by apply list_elem_of_singleton|].
  destruct (existsb _ _) eqn:Ee; [right|left; by apply list_elem_of_singleton].
  destruct Hv as [?|(l & v & -> & Hin & Hne & Hd & Ht)]; [done|].
  assert (chosen <> []) as Hc by (by intros ->). exists v. split_and!; [done..| |].
  - rewrite internal_trim, Ht by done. by rewrite <-internal_trim.
  - cbn [st_dir]. by rewrite <-Ht, dir_of_trimmed.
Qed.
Lemma index_of_text_Some p s i : index_of_text p s = Some i -> p `prefix_of` drop i s.
Proof.
  revert i. induction s as [|a s IH]; intros i; cbn [index_of_text]; (destruct (starts_with p _) eqn:E; [intros [= <-]; by apply starts_with_true|]); [done|].
  intros (j & H & ->)%fmap_Some. simpl. by apply IH.
Qed.
Lemma last_chain cur parts : parts <> [] -> last (chain_from cur parts) = Some (cur ++ [slash] ++ join_with [slash] parts).
Proof.
  revert cur. induction parts as [|w ws IH]; intros cur; [done|]. intros _. destruct ws as [|w' ws]; [done|].
  cbn [chain_from]. cbn [chain_from] in IH. rewrite last_cons_cons, IH by done. cbn [join_with]. by rewrite <-!app_assoc.
Qed.
(** The folders made for a package end with the one it goes to. *)
Lemma chain_makes_dir dir : last (pkgMkdirChain dir) = Some (trimSlash dir).
Proof.
  unfold pkgMkdirChain. destruct (index_of_text _ _) as [i|] eqn:E; [|done]. apply index_of_text_Some in E as [u Hu].
  rewrite last_chain by (intros H; by destruct (drop (S i) (trimSlash dir)); simpl in H; repeat case_match).
  rewrite split_on_join. f_equal. rewrite <-(take_drop i (trimSlash dir)) at 3. f_equal.
  assert (drop (S i) (trimSlash dir) = drop 1 (drop i (trimSlash dir))) as -> by (rewrite drop_drop; f_equal; lia).
  by rewrite Hu.
Qed.
(** The drive chosen for a console is the one its next package goes to while it is there. *)
Lemma chosen_drive host v defaults : hostOf host <> [] ->
  defaultFor host (setDefault host v defaults) = (if isInternalVolume v then [] else trimSlash v) /\
  (forall h, hostOf h <> hostOf host -> defaultFor h (setDefault host v defaults) = defaultFor h defaults).
Proof.
  intros Hh. unfold defaultFor, setDefault. destruct (hostOf host) as [|a k]; [done|]. split; [|intros h Hne].
  - destruct (isInternalVolume v); [by rewrite lookup_delete_eq|by rewrite lookup_insert_eq].
  - destruct (isInternalVolume v); [by rewrite lookup_delete_ne|by rewrite lookup_insert_ne].
Qed.

(** * The listing finds what is staged *)

Section refresh_facts.
Context (host : str) (cache : gmap str PathMeta) (titles : gmap str str) (installed : gmap str (list str)) (listDir : str -> Answer).
(** What one library adds. *)
Definition library_rows (base : str) : list PkgEntry :=
  addFrom host cache titles installed (soft listDir base) [] base ++
  flat_map (list_category host cache titles installed listDir base (dirs_of (soft listDir base))) [js "updates"; js "dlc"].
Lemma list_bases_soft bases : list_bases host cache titles installed listDir bases false = Some (flat_map library_rows bases).
Proof.
  induction bases as [|b bases IH]; [done|]. simpl. rewrite IH. unfold list_base, library_rows, soft, listOne. by destruct (listDir b).
Qed.
(** The package of [tok]'s directory under [base]/[sub] is among them. *)
Definition on_console (base sub tok : str) (e : DirEntry) : Prop :=
  sub ∈ dirs_of (soft listDir base) /\ tok ∈ dirs_of (soft listDir (base ++ [slash] ++ sub)) /\
  e ∈ soft listDir ((base ++ [slash] ++ sub) ++ [slash] ++ tok) /\ is_package e = true.
Lemma addon_listed base sub tok e : sub = js "updates" \/ sub = js "dlc" -> on_console base sub tok e ->
  listed_row host cache titles installed (sub ++ [slash] ++ tok) ((base ++ [slash] ++ sub) ++ [slash] ++ tok) e ∈ library_rows base.
Proof.
  intros Hsub (H1 & H2 & H3 & H4). unfold library_rows. apply elem_of_app. right. apply list_elem_of_In, in_flat_map. exists sub.
  split; [destruct Hsub as [-> | ->]; simpl; tauto|]. unfold list_category. rewrite bool_decide_true by done. simpl negb. cbv iota.
  apply in_or_app. right. apply in_flat_map. exists tok. split; [by apply list_elem_of_In|].
  unfold addFrom. apply in_map, filter_In. split; [by apply list_elem_of_In|done].
Qed.
(** Only an error of the internal library stops a refresh. *)
Lemma listing_rows volumes :
  listing host cache titles installed listDir volumes = if decide (listDir INTERNAL_PKG_DIR = Failed) then None else Some (flat_map library_rows (libraryDirs volumes)).
Proof.
  unfold listing. destruct (libraries_head volumes) as [rest ->]. simpl. rewrite list_bases_soft.
  unfold list_base, library_rows, soft, listOne. by destruct (listDir INTERNAL_PKG_DIR).
Qed.
End refresh_facts.

(** An installed file of the full fingerprint answers for a row that has it, or its token. *)
Lemma fingerprint_installed w ids arts a f : is_hex_of 64 f = true -> a ∈ arts -> a_kind a = kind_of (w_category w) ->
  to_lower (a_fingerprint a) = to_lower f ->
  w_fingerprint w = Some (to_lower (take PACKAGE_FINGERPRINT_DIR_HEX_LEN f)) \/ w_fingerprint w = Some f ->
  pkgRowInstalled w ids (Some arts) = true.
Proof.
  intros Hf Ha Hk Hl Hw. destruct (token_of f Hf) as (Ht & Hx & Hlo & Hn). destruct (hex_lower _ _ Hf) as [Hh Hlen].
  assert (exact_match w a = true) as Hm.
  { unfold exact_match. destruct Hw as [-> | ->].
    - destruct (to_lower (take _ f)) as [|x t] eqn:E; [done|]. rewrite <-E in *. rewrite Hlo, Hn, Hx, Hl, Ht. apply starts_with_true, prefix_take.
    - destruct f as [|x f]; [done|]. assert (length (to_lower (x :: f)) = 64%nat) as -> by (unfold to_lower; by rewrite length_map).
      simpl andb. cbv iota. by apply bool_decide_true. }
  unfold pkgRowInstalled. destruct (_ && _ && existsb _ arts); [done|]. destruct (_ && match w_contentId w with _ => _ end); [done|].
  assert (existsb (exact_match w) (List.filter (fun a => bool_decide (a_kind a = kind_of (w_category w))) arts) = true) as ->; [|done].
  apply existsb_elem. exists a. split; [|done]. apply list_elem_of_In, filter_In. split; [by apply list_elem_of_In|by apply bool_decide_true].
Qed.
(** C24: A package staged on a console is found again by a later refresh, whichever drive is chosen for the
    console: an update or add-on with a safe content id, on the drive its upload resolved, is among the
    rows, with its path, size, content id and category and its fingerprint or the first half of it; and
    that row says installed once the console holds a file of that kind with the package's full fingerprint.
    That is where the refresh can list the internal library (an error there stops it) and, for a package on
    another drive, still reads that drive among the console's (without_drives shows the need). *)
Theorem staged_is_listed host cache titles installed listDir before volumes defaults c cid f qid now n :
  isSafeContentId cid = true -> is_hex_of 64 f = true -> isAddonCategory (Some c) = true ->
  listDir INTERNAL_PKG_DIR <> Failed ->
  st_volume (resolvePkgStorage (defaultFor host defaults) before) = None \/ still_there (defaultFor host defaults) volumes ->
  let lib := st_dir (resolvePkgStorage (defaultFor host defaults) before) in
  let b := stagingBasename cid qid now in
  let tok := to_lower (take PACKAGE_FINGERPRINT_DIR_HEX_LEN f) in
  let p := destPath lib (stagingDirectoryForPackage (Some c) (Some f)) b in
  on_console listDir lib (stagingSubdirForCategory (Some c)) tok {| e_name := b; e_kind := KFile; e_size := n |} ->
  (forall m, pathMetaFor cache host p = Some m -> m_category m ∈ [None; Some c] /\ m_fingerprint m ∈ [None; Some f]) ->
  exists rows r, listing host cache titles installed listDir volumes = Some rows /\ r ∈ rows /\
    path r = p /\ size r = n /\ contentId r = cid /\ category r = Some c /\ (fingerprint r = Some tok \/ fingerprint r = Some f) /\
    forall ids arts a, a ∈ arts -> a_kind a = kind_of (Some c) -> to_lower (a_fingerprint a) = to_lower f ->
      pkgRowInstalled (wanted_of r) ids (Some arts) = true.
Proof.
  intros Hid Hf Hc Hi Hv lib b tok p Hon Hm. set (sub := stagingSubdirForCategory (Some c)) in *.
  destruct (addon_dir c f Hc Hf) as (Hsub & Hd & Hcat & Hfp). fold sub tok in Hsub, Hd, Hcat, Hfp.
  destruct (staged_name cid qid now Hid) as (_ & Hn & _ & _). fold b in Hn.
  assert (p = ((lib ++ [slash] ++ sub) ++ [slash] ++ tok) ++ [slash] ++ b) as Hp.
  { unfold p, destPath. rewrite Hd. destruct (sub ++ [slash] ++ tok) as [|x d] eqn:E; [by destruct Hsub as [Hs|Hs]; rewrite Hs in E|].
    rewrite <-E. by rewrite <-!app_assoc. }
  assert (forall o, o ∈ [None; Some f] -> over o (Some tok) = Some tok \/ over o (Some tok) = Some f) as Ho by (set_solver by auto).
  assert (forall o, o ∈ [None; Some c] -> over o (Some c) = Some c) as Hoc by (set_solver by auto).
  eexists _, _. split; [by rewrite listing_rows, decide_False|]. split.
  { apply list_elem_of_In, in_flat_map. exists lib. split; [apply list_elem_of_In; by apply storage_listed|].
    apply list_elem_of_In. by apply addon_listed; [|exact Hon]. }
  set (r := listed_row _ _ _ _ _ _ _).
  assert (category r = Some c) as Hrc.
  { unfold r, listed_row. cbn [category e_name]. rewrite Hcat, <-Hp. destruct (pathMetaFor cache host p) as [m|] eqn:E; [|done]. by apply Hoc, (Hm m). }
  assert (fingerprint r = Some tok \/ fingerprint r = Some f) as Hrf.
  { unfold r, listed_row. cbn [fingerprint e_name]. rewrite Hfp, <-Hp. destruct (pathMetaFor cache host p) as [m|] eqn:E; [|by left]. by apply Ho, (Hm m). }
  split_and!; [by rewrite Hp|done|exact Hn|done|done|]. intros ids arts a Ha Hk Hl.
  apply (fingerprint_installed _ ids arts a f Hf Ha); [change (w_category (wanted_of r)) with (category r); by rewrite Hrc|done|exact Hrf].
Qed.

Lemma after_last_slash x y b c : slash ∉ b -> slash ∉ c -> x ++ [slash] ++ b = y ++ [slash] ++ c -> x = y /\ b = c.
Proof.
  intros Hb Hc H. pose proof (last_index_of_join x b Hb) as H1. rewrite H, (last_index_of_join y c Hc) in H1.
  injection H1 as Hl. apply app_inj_1 in H as [-> H]; [|done]. split; [done|]. by injection H.
Qed.
(** The place of a package of any category below a library: its base game's, or the add-on's. *)
Lemma staged_dir c f : is_hex_of 64 f = true ->
  let d := stagingDirectoryForPackage c (Some f) in
  let sub := stagingSubdirForCategory c in
  let tok := to_lower (take PACKAGE_FINGERPRINT_DIR_HEX_LEN f) in
  (d = [] /\ sub = []) \/ (d = sub ++ [slash] ++ tok /\ (sub = js "updates" \/ sub = js "dlc") /\ (slash ∉ tok) /\ length tok = 32%nat).
Proof.
  intros Hf d sub tok. destruct (isAddonCategory c) eqn:E.
  - right. destruct c as [c|]; [|done]. destruct (addon_dir c f E Hf) as (Hs & Hd & _).
    destruct (token_of f Hf) as (_ & Hx & _ & Hn). split_and!; [done|done|by apply hex_no_slash|exact Hn].
  - left. apply orb_false_iff in E as [E1 E2]. unfold d, sub, stagingDirectoryForPackage, stagingSubdirForCategory. by rewrite E1, E2.
Qed.
(** C28: No staged package overwrites another's: of two packages with safe content ids that are staged at
    one path of one library, the content id, the kind of directory and, for updates and add-ons, the
    first half of the fingerprint are the same. And on internal storage the path stays within the 127
    characters the console's installer takes. *)
Theorem staged_apart lib c1 c2 id1 id2 f1 f2 q1 q2 n1 n2 :
  isSafeContentId id1 = true -> isSafeContentId id2 = true -> is_hex_of 64 f1 = true -> is_hex_of 64 f2 = true ->
  let p1 := destPath lib (stagingDirectoryForPackage c1 (Some f1)) (stagingBasename id1 q1 n1) in
  let p2 := destPath lib (stagingDirectoryForPackage c2 (Some f2)) (stagingBasename id2 q2 n2) in
  (p1 = p2 -> id1 = id2 /\ stagingSubdirForCategory c1 = stagingSubdirForCategory c2 /\
    (stagingSubdirForCategory c1 = [] \/ to_lower (take 32 f1) = to_lower (take 32 f2))) /\
  (lib = INTERNAL_PKG_DIR -> (length p1 <= 127)%nat).
Proof.
  intros Hi1 Hi2 Hf1 Hf2 p1 p2.
  destruct (staged_name id1 q1 n1 Hi1) as (Hb1 & _ & _ & Hs1 & Hl1), (staged_name id2 q2 n2 Hi2) as (Hb2 & _ & _ & Hs2 & _).
  pose proof (staged_dir c1 f1 Hf1) as Hd1. pose proof (staged_dir c2 f2 Hf2) as Hd2.
  unfold p1, p2, PACKAGE_FINGERPRINT_DIR_HEX_LEN in *. clear p1 p2.
  set (b1 := stagingBasename id1 q1 n1) in *. set (b2 := stagingBasename id2 q2 n2) in *.
  set (d1 := stagingDirectoryForPackage c1 (Some f1)) in *. set (d2 := stagingDirectoryForPackage c2 (Some f2)) in *.
  assert (forall d b, destPath lib d b = (lib ++ match d with [] => [] | _ => [slash] ++ d end) ++ [slash] ++ b) as Hdest
    by (intros [|a d] b; simpl; [by rewrite app_nil_r|by rewrite <-app_assoc]).
  rewrite !Hdest. clearbody d1 d2 b1 b2. split.
  - intros [[= Heq]%app_inv_head Hb]%after_last_slash; [|done..]. rewrite Hb1, Hb2 in Hb. apply app_inv_tail in Hb. split; [done|].
    destruct Hd1 as [[Ed1 Es1]|(Ed1 & Hsub1 & Ht1 & _)], Hd2 as [[Ed2 Es2]|(Ed2 & Hsub2 & Ht2 & _)].
    + split; [congruence|by left].
    + rewrite Ed1, Ed2 in Heq. by destruct Hsub2 as [Hs|Hs]; rewrite Hs in Heq.
    + rewrite Ed1, Ed2 in Heq. by destruct Hsub1 as [Hs|Hs]; rewrite Hs in Heq.
    + assert (d1 = d2) as Hdd.
      { destruct d1 as [|x1 u1], d2 as [|x2 u2]; try done. by injection Heq as -> ->. }
      rewrite Ed1, Ed2 in Hdd. apply after_last_slash in Hdd as [-> ->]; [|done..]. by auto.
  - intros ->. rewrite !length_app. change (length INTERNAL_PKG_DIR) with 32%nat. change (length [slash]) with 1%nat.
    assert (length d1 <= 40)%nat as Hld.
    { destruct Hd1 as [[-> _]|(-> & Hsub1 & _ & Hl)]; [simpl; lia|]. rewrite !length_app, Hl. destruct Hsub1 as [-> | ->]; simpl; lia. }
    destruct d1; simpl in Hld |- *; lia.
Qed.

(** * Examples *)

Definition fp64 : str := js "00112233445566778899aabbccddeeff00112233445566778899AABBCCDDEEFF".
Definition disk : Volume := {| v_path := js "/mnt/ext1/"; v_writable := true; v_placeholder := false; v_source_image := [] |}.
Definition usb : Volume := {| v_path := js "/mnt/usb0"; v_writable := true; v_placeholder := false; v_source_image := [] |}.
Definition an_id : str := js "EP9000-CUSA00207_00-BLOODBORNE000000".
Definition token : str := js "00112233445566778899aabbccddeeff".
(** An update of 5 bytes on the second drive. *)
Definition console_answer (d : str) : Answer :=
  let dir n := {| e_name := n; e_kind := KDir; e_size := 0 |} in
  if decide (d = js "/mnt/ext1/ps5upload/pkg_library") then Entries [dir (js "updates")]
  else if decide (d = js "/mnt/ext1/ps5upload/pkg_library/updates") then Entries [dir token]
  else if decide (d = js "/mnt/ext1/ps5upload/pkg_library/updates/" ++ token) then
    Entries [{| e_name := an_id ++ js ".pkg"; e_kind := KFile; e_size := 5 |}]
  else Missing.
Example drives : libraryDirs (Some [disk]) = [INTERNAL_PKG_DIR; js "/mnt/ext1/ps5upload/pkg_library"] /\
  fellBack (resolvePkgStorage (js "/mnt/usb0") (Some [disk])) = true /\ libraryDirs None = [INTERNAL_PKG_DIR].
Proof. by vm_compute. Qed.
Example folders : pkgMkdirChain (js "/mnt/ext1/ps5upload/pkg_library/dlc/") =
  js <$> ["/mnt/ext1/ps5upload"; "/mnt/ext1/ps5upload/pkg_library"; "/mnt/ext1/ps5upload/pkg_library/dlc"]%string /\
  volumeOfPkgPath (js "/mnt/ext1/ps5upload/pkg_library/a.pkg") = Some (js "/mnt/ext1") /\ volumeOfPkgPath (INTERNAL_PKG_DIR ++ js "/a.pkg") = None.
Proof. by vm_compute. Qed.
Example names : stagingBasename (js "../escape") (js "qid") 1 = js "qid_1.pkg" /\ isSafeContentId (replicate 37 "A"%char) = false /\
  stagingDirectoryForPackage (Some (js "ac")) (Some (js "../escape")) = js "dlc" /\ pkgCategoryLabel (Some (js "gp")) = Some Update /\
  fingerprintFromStagingSubdir (js "updates/../escape") = None.
Proof. by vm_compute. Qed.
(** With the drives unread the package on the second drive is not found. *)
Example without_drives : listing (js "h") ∅ ∅ ∅ console_answer None = Some [].
Proof. by vm_compute. Qed.
(** Staged with the second drive alone; at the refresh another is there too. *)
Lemma staged_is_listed_witness : exists rows r,
  listing (js "h") ∅ ∅ ∅ console_answer (Some [usb; disk]) = Some rows /\ r ∈ rows /\
  path r = js "/mnt/ext1/ps5upload/pkg_library/updates/00112233445566778899aabbccddeeff/EP9000-CUSA00207_00-BLOODBORNE000000.pkg" /\
  size r = 5 /\ contentId r = an_id /\ category r = Some (js "gp").
Proof.
  destruct (staged_is_listed (js "h") ∅ ∅ ∅ console_answer (Some [disk]) (Some [usb; disk]) {[js "h" := js "/mnt/ext1"]} (js "gp") an_id fp64 (js "q") 1 5)
    as (rows & r & H1 & H2 & H3 & H4 & H5 & H6 & _).
  - reflexivity.
  - reflexivity.
  - reflexivity.
  - discriminate.
  - right. exists [usb; disk], disk. split_and!; [done|right; by left|done|done|done].
  - split_and!; apply (bool_decide_unpack _); by vm_compute.
  - intros m Hm. unfold pathMetaFor in Hm. by rewrite !lookup_empty in Hm.
  - exists rows, r. split_and!; [exact H1|exact H2|rewrite H3; by vm_compute|exact H4|exact H5|exact H6].
Defined.
Lemma staged_apart_witness :
  length (destPath INTERNAL_PKG_DIR (stagingDirectoryForPackage (Some (js "gp")) (Some fp64)) (stagingBasename an_id (js "q") 1)) = 114%nat /\
  destPath INTERNAL_PKG_DIR (stagingDirectoryForPackage (Some (js "gp")) (Some fp64)) (stagingBasename an_id (js "q") 1) <>
  destPath INTERNAL_PKG_DIR (stagingDirectoryForPackage (Some (js "gd")) (Some fp64)) (stagingBasename an_id (js "q") 1).
Proof.
  destruct (staged_apart INTERNAL_PKG_DIR (Some (js "gp")) (Some (js "gd")) an_id an_id fp64 fp64 (js "q") (js "q") 1 1) as [H _]; [reflexivity..|].
  split; [reflexivity|]. intros E. destruct (H E) as (_ & Hs & _). discriminate.
Defined.
