(* ===== verification/PkgInstall.v ===== *)
(** Installing a package (client/src/state/pkgLibrary.ts): [driveUnifiedInstall] and what it calls, the
    task around it ([runPkgInstall]), and the look for a late success ([scheduleInstallReverify],
    [verifyDpiInstalledArtifact]); with the questions an install asks (client/src/state/installAsk.ts).

    The routines are [Program]s over the engine, the clock, the person and the task list; the
    environment answers anything, timers do not fire early (but the ones a finished job may end) and
    the clock is not set back. Texts and progress samples are left out. *)
From S2P Require Import Prelude Program PkgRules.

(** * The engine's answers *)

Inductive Phase := Resolve | Deliver | Install | Verify | PDone | PFailed.
#[export] Instance phase_eq_dec : EqDecision Phase.
Proof. solve_decision. Defined.
Inductive Route := Loopback | Stream | Path.
#[export] Instance route_eq_dec : EqDecision Route.
Proof. solve_decision. Defined.
Inductive Verdict := VInstalled | VMayNotLaunch | VFailed | VUnverified.
#[export] Instance verdict_eq_dec : EqDecision Verdict.
Proof. solve_decision. Defined.
Record InstallStatus := {
  phase : Phase; route : option Route; verdict : option Verdict; code_ : Z; reason : option str; total_bytes : Z; served_bytes : Z;
  retry_with_stream : bool; package_type : option str; net_diag : bool }.
#[export] Instance settable_status : Settable InstallStatus := fun s => {|
  phase := phase s; route := route s; verdict := verdict s; code_ := code_ s; reason := reason s; total_bytes := total_bytes s;
  served_bytes := served_bytes s; retry_with_stream := retry_with_stream s; package_type := package_type s; net_diag := net_diag s |}.
Record StartReply := { s_ok : bool; s_job : option str; s_error : option str }.
Definition has_reason (r : string) (s : InstallStatus) : bool := bool_decide (reason s = Some (js r)).
Definition terminal (s : InstallStatus) : bool := bool_decide (phase s = PDone) || bool_decide (phase s = PFailed).

(** ** How they are read *)

Record PkgInstallOutcome := {
  installed : bool; mayNotLaunch : bool; unverified : bool; retryWithStream : bool; stagedRefused : bool; netDiag : bool;
  noSpace : bool; stopped_ : bool }.
#[export] Instance settable_outcome : Settable PkgInstallOutcome := fun o => {|
  installed := installed o; mayNotLaunch := mayNotLaunch o; unverified := unverified o; retryWithStream := retryWithStream o;
  stagedRefused := stagedRefused o; netDiag := netDiag o; noSpace := noSpace o; stopped_ := stopped_ o |}.
Definition no_outcome : PkgInstallOutcome := {|
  installed := false; mayNotLaunch := false; unverified := false; retryWithStream := false; stagedRefused := false; netDiag := false;
  noSpace := false; stopped_ := false |}.
Definition JOB_LOST : str := js "job_lost".
Definition said_installed (s : InstallStatus) : bool :=
  bool_decide (verdict s = Some VInstalled) || bool_decide (verdict s = Some VMayNotLaunch).
Definition statusToOutcome (s : InstallStatus) : PkgInstallOutcome :=
  let installed_ := said_installed s in
  if has_reason "cancelled" s then no_outcome <| stopped_ := true |>
  else if has_reason "job_lost" s then no_outcome <| unverified := true |>
  else if bool_decide (verdict s = Some VUnverified) then no_outcome <| unverified := true |>
  else no_outcome <| installed := installed_ |> <| mayNotLaunch := bool_decide (verdict s = Some VMayNotLaunch) |>
         <| retryWithStream := negb installed_ && retry_with_stream s |>
         <| stagedRefused := negb installed_ && has_reason "staged_refused" s |>
         <| netDiag := negb installed_ && net_diag s |>.
Inductive SamplePhase := SQueued | SDownload | SInstall | SEnd (p : Phase).
Record InstallSample := { sample_phase : SamplePhase; installedBytes : Z; transferBytes : Z; sample_total : Z; servedRequests : Z }.
Definition sampleFromStatus (s : InstallStatus) : InstallSample :=
  let served := served_bytes s in
  let past := match phase s with Install | Verify | PDone => true | _ => false end in
  {| sample_phase := match phase s with
                     | Resolve => SQueued
                     | Deliver => if decide (route s = Some Loopback) then SInstall else SDownload
                     | Install | Verify => SInstall
                     | p => SEnd p
                     end;
     installedBytes := if past then served else 0; transferBytes := served; sample_total := total_bytes s;
     servedRequests := if 0 <? served then 1 else 0 |}.
(** [last]'s fields over the defaults, and the end nobody saw. *)
Definition jobLostStatus (last : option InstallStatus) : InstallStatus :=
  let s := last ?? {| phase := PDone; route := None; verdict := None; code_ := 0; reason := None; total_bytes := 0; served_bytes := 0;
                      retry_with_stream := false; package_type := None; net_diag := false |} in
  s <| phase := PDone |> <| verdict := Some VUnverified |> <| reason := Some JOB_LOST |>.
Definition TRANSIENT_REFUSAL : Z := 0x80020002.
Definition TRANSIENT_REFUSAL_RETRIES : Z := 3.
Definition TRANSIENT_REFUSAL_WAIT_MS : Z := 5000.
Definition isTransientRefusal (s : InstallStatus) : bool :=
  bool_decide (phase s = PFailed) && (code_ s mod 2 ^ 32 =? TRANSIENT_REFUSAL) && (served_bytes s =? 0).
(** Whether the size calls for a question. *)
Definition installSpaceWarning (needed : Z) (free : option Z) : bool :=
  match free with Some f => (0 <? needed) && (f <? needed) | None => false end.

(** * Calls *)

Inductive Err := Error (message : str).
Definition no_such_job (e : Err) : bool := match e with Error m => includes (js "no such job") (to_lower m) end.
Inductive Question := QSpace | QReinstall.
Inductive TaskEnd := TDone | TFailed | TCancelled | TUnverified.
Inductive TaskStep := TRegister | TAwait | TFinish (e : TaskEnd) | TGaveUp.
Inductive Cmd :=
| Now
| Sleep (ms : Z) (poll : bool)
| Readiness (left : Z)       (* [consoleReadiness], or [left] ms pass first *)
| Start (replace force : bool)
| Status (job : str)
| AskInstall (q : Question)
| FreeBytes
| Preflight
| FsDelete
| Task (t : TaskStep)
| Schedule                   (* [scheduleInstallReverify] starts *)
| IsAwaiting                 (* the task is there and still awaiting *)
| Busy                       (* [transferScreenBusy] *)
| Inventory
| Finalize.                  (* [finalizePkgInstallSuccess], not waited for *)
Definition reply (c : Cmd) : Type :=
  match c with
  | Now => Z | Readiness _ => bool | Start _ _ => StartReply | Status _ => InstallStatus | AskInstall _ => bool
  | FreeBytes => option Z | IsAwaiting => bool | Busy => bool | Inventory => list Artifact | _ => unit
  end.
#[local] Abbreviation Prog := (Prog reply Err).
Definition ask (c : Cmd) : Prog (reply c) := call c.

(** * Driving one install *)

Definition READY_POLL_MS : Z := 1500.
Definition READY_WAIT_TIMEOUT_MS : Z := 30000.
Definition PKG_VERIFY_POLL_MS : Z := 2500.
Fixpoint ready_loop (rounds : nat) (timeoutMs started : Z) : Prog bool :=
  match rounds with
  | O => Spin
  | S rounds =>
      do now <- ask Now in
      do ready <- ask (Readiness (Z.max (timeoutMs - (now - started)) READY_POLL_MS)) in
      if ready then Ret true else
      do now <- ask Now in
      if timeoutMs <=? now - started + READY_POLL_MS then Ret false
      else do _ <- ask (Sleep READY_POLL_MS false) in ready_loop rounds timeoutMs started
  end.
Definition waitForConsoleReady (rounds : nat) : Prog bool :=
  do started <- ask Now in ready_loop rounds READY_WAIT_TIMEOUT_MS started.

(** [rounds] status reads. *)
Fixpoint poll_loop (rounds : nat) (job : str) (errBudget : Z) (last : option InstallStatus) : Prog InstallStatus :=
  match rounds with
  | O => Spin
  | S rounds =>
      do r <- catch (do s <- ask (Status job) in Ret (inl s)) (fun e => Ret (inr e)) in
      match r with
      | inr e =>
          if no_such_job e then Ret (jobLostStatus last)
          else if errBudget - 1 <=? 0 then Throw e
          else do _ <- ask (Sleep PKG_VERIFY_POLL_MS false) in poll_loop rounds job (errBudget - 1) last
      | inl s =>
          if terminal s then Ret s
          else do _ <- ask (Sleep PKG_VERIFY_POLL_MS true) in poll_loop rounds job 8 (Some s)
      end
  end.
Definition start_refused (r : StartReply) : Err :=
  Error (if bool_decide (s_error r = Some (js "busy")) then js "busy" else or_else (s_error r) (js "refused")).
Definition runUnifiedInstallOnce (polls : nat) (force replace : bool) : Prog InstallStatus :=
  do start <- ask (Start replace force) in
  match s_ok start, s_job start with
  | true, Some ((_ :: _) as job) => poll_loop polls job 8 None
  | _, _ => Throw (start_refused start)
  end.

Section drive.
Context (once : bool -> Prog InstallStatus).
Fixpoint drive_loop (rounds : nat) (retries : Z) (replace : bool) : Prog InstallStatus :=
  match rounds with
  | O => Spin
  | S rounds =>
      do _ <- waitForConsoleReady 21 in
      do st <- once replace in
      if has_reason "destructive_guard" st && negb replace then
        do go <- ask (AskInstall QReinstall) in
        if go then drive_loop rounds retries true else Ret st
      else if isTransientRefusal st && (retries <? TRANSIENT_REFUSAL_RETRIES) then
        do _ <- ask (Sleep TRANSIENT_REFUSAL_WAIT_MS false) in drive_loop rounds (retries + 1) replace
      else Ret st
  end.
End drive.
Definition driveUnifiedInstall (polls : nat) (force : bool) : Prog InstallStatus :=
  drive_loop (runUnifiedInstallOnce polls force) 5 0 false.

(** * The task around it *)

Record PkgExpectedIdentity := { e_size : option Z; e_fingerprint : option str }.
Definition sized (o : option PkgExpectedIdentity) : Z := (o ≫= e_size) ?? 0.
Definition installReverifyProbeViable (contentId : option str) (expected : option PkgExpectedIdentity) : bool :=
  match titleIdFromContentId (contentId ?? []) with
  | None => false
  | Some _ => match expected ≫= e_fingerprint with Some (_ :: _) => true | _ => 0 <? sized expected end
  end.
Record InstallArgs := {
  i_contentId : option str; i_packageType : option str; i_deleteStaging : bool; i_expected : option PkgExpectedIdentity;
  i_forceStream : bool; i_spaceChecked : bool }.
(** Whether the person was asked about the room and did not say to go on. *)
Definition declinedForSpace (needed : Z) : Prog bool :=
  do free <- ask FreeBytes in
  if installSpaceWarning needed free then do go <- ask (AskInstall QSpace) in Ret (negb go) else Ret false.
Definition end_task (a : InstallArgs) (st : InstallStatus) : Prog PkgInstallOutcome :=
  let result := statusToOutcome st in
  if installed result then
    do _ <- ask (Task (TFinish TDone)) in
    do _ <- (if i_deleteStaging a then catch (ask FsDelete) (fun _ => Ret tt) else Ret tt) in Ret result
  else if unverified result then
    if (0 <? served_bytes st) && installReverifyProbeViable (i_contentId a) (i_expected a) then
      do _ <- ask (Task TAwait) in do _ <- ask Schedule in Ret result
    else do _ <- ask (Task (TFinish TDone)) in Ret result
  else if stopped_ result then do _ <- ask (Task (TFinish TCancelled)) in Ret result
  else do _ <- ask (Task (TFinish TFailed)) in Ret result.
Definition runPkgInstall (polls : nat) (a : InstallArgs) : Prog PkgInstallOutcome :=
  do _ <- ask (Task TRegister) in
  catch
    (do declined <- (if negb (i_spaceChecked a) && negb (sized (i_expected a) =? 0) then declinedForSpace (sized (i_expected a)) else Ret false) in
     if declined then do _ <- ask (Task (TFinish TCancelled)) in Ret (no_outcome <| noSpace := true |>)
     else
       do _ <- (match i_contentId a with Some (_ :: _) => ask Preflight | _ => Ret tt end) in
       do st <- driveUnifiedInstall polls (i_forceStream a) in
       end_task a st)
    (fun e => do _ <- ask (Task (TFinish TFailed)) in Throw e).

(** * Looking for a late success *)

Definition DPI_VERIFY_IDLE_MS : Z := 3 * 60 * 1000.
Definition DPI_VERIFY_MAX_MS : Z := 4 * 60 * 60 * 1000.
Definition installReverifyDelaysMs (attempt : nat) : Z := ([30000; 60000; 120000; 300000] !! Nat.min attempt 3) ?? 0.
Definition INSTALL_REVERIFY_MAX_MS : Z := 30 * 60 * 1000.
Definition INSTALL_REVERIFY_PROBE_MS : Z := 15000.
Definition INSTALL_REVERIFY_BUSY_RETRY_MS : Z := 30000.

Section reverify.
Context (contentId : option str) (packageType : str) (expected : option PkgExpectedIdentity).
(** What the console's inventory is asked for. *)
Definition probe : Wanted := {|
  w_titleId := titleIdFromContentId (contentId ?? []);
  w_category := Some (if ends_with (js "DP") packageType then js "gp" else if ends_with (js "AC") packageType then js "ac" else js "gd");
  w_installedHere := false; w_size := expected ≫= e_size; w_fingerprint := expected ≫= e_fingerprint;
  w_contentId := match contentId with Some [] => None | c => c end |}.
Fixpoint verify_loop (rounds : nat) (idleMs hardDeadline idleDeadline bestSeen : Z) : Prog bool :=
  match rounds with
  | O => Spin
  | S rounds =>
      do now <- ask Now in
      if negb (now <? idleDeadline) then Ret false else
      do now <- ask Now in
      if negb (now <? hardDeadline) then Ret false else
      do read <- catch (do l <- ask Inventory in Ret (Some l)) (fun _ => Ret None) in
      let rest idleDeadline bestSeen :=
        do _ <- ask (Sleep PKG_VERIFY_POLL_MS false) in verify_loop rounds idleMs hardDeadline idleDeadline bestSeen in
      match read with
      | Some l =>
          if pkgRowInstalled probe ∅ (Some l) then Ret true else
          let seen := fold_left (fun n a => n + a_size a) l 0 in
          if bestSeen <? seen then do now <- ask Now in rest (now + idleMs) seen else rest idleDeadline bestSeen
      | None => do now <- ask Now in rest (Z.max idleDeadline (now + idleMs)) bestSeen
      end
  end.
Definition verifyDpiInstalledArtifact (rounds : nat) (idleMs maxMs : Z) : Prog bool :=
  if negb (installReverifyProbeViable contentId expected) then Ret false else
  do startedAt <- ask Now in
  verify_loop rounds idleMs (startedAt + maxMs) (startedAt + idleMs) 0.
(** [path]: the staged package is known, so that a success can be finished. *)
Fixpoint tick (rounds : nat) (path : bool) (giveUpAt : Z) (attempt : nat) : Prog unit :=
  match rounds with
  | O => Spin
  | S rounds =>
      do awaiting <- ask IsAwaiting in
      if negb awaiting then Ret tt else
      do now <- ask Now in
      if giveUpAt <=? now then ask (Task TGaveUp) else
      do busy <- ask Busy in
      if busy then do _ <- ask (Sleep INSTALL_REVERIFY_BUSY_RETRY_MS false) in tick rounds path giveUpAt attempt else
      do ok <- verifyDpiInstalledArtifact 7 INSTALL_REVERIFY_PROBE_MS INSTALL_REVERIFY_PROBE_MS in
      if ok then do _ <- ask (Task (TFinish TDone)) in (if path then ask Finalize else Ret tt) else
      do now <- ask Now in
      if giveUpAt <=? now then ask (Task TGaveUp) else
      do _ <- ask (Sleep (installReverifyDelaysMs attempt) false) in tick rounds path giveUpAt (S attempt)
  end.
Definition scheduleInstallReverify (rounds : nat) (path : bool) : Prog unit :=
  if negb (installReverifyProbeViable contentId expected) then ask (Task (TFinish TUnverified)) else
  do now <- ask Now in
  do _ <- ask (Sleep (installReverifyDelaysMs 0) false) in
  tick rounds path (now + INSTALL_REVERIFY_MAX_MS) 0.
End reverify.

(** * The environment *)

Inductive Ev :=
| EStart (replace : bool) (r : StartReply + Err)
| EStatus (r : InstallStatus + Err)
| EAsk (q : Question) (yes : bool)
| EFree (free : option Z)
| EDelete
| ETask (t : TaskStep)
| ESchedule
| EAwaiting (yes : bool)
| EBusy (yes : bool)
| EInventory (r : list Artifact + Err)
| EFinalize.
Record World := { clock : Z; trace : list Ev }.
Definition ev_of (c : Cmd) : reply c + Err -> list Ev :=
  match c return reply c + Err -> list Ev with
  | Start replace _ => fun r => [EStart replace r]
  | Status _ => fun r => [EStatus r]
  | AskInstall q => fun r => match r with inl yes => [EAsk q yes] | inr _ => [] end
  | FreeBytes => fun r => match r with inl f => [EFree f] | inr _ => [] end
  | FsDelete => fun _ => [EDelete]
  | Task t => fun _ => [ETask t]
  | Schedule => fun _ => [ESchedule]
  | IsAwaiting => fun r => match r with inl yes => [EAwaiting yes] | inr _ => [] end
  | Busy => fun r => match r with inl yes => [EBusy yes] | inr _ => [] end
  | Inventory => fun r => [EInventory r]
  | Finalize => fun _ => [EFinalize]
  | _ => fun _ => []
  end.
(** The engine and the console may fail; the clock, the person, the page's own stores and what the API
    wrappers catch do not. *)
Definition may_fail (c : Cmd) : bool := match c with Start _ _ | Status _ | FsDelete | Inventory => true | _ => false end.
Definition answers (w : World) (c : Cmd) (r : reply c + Err) (w' : World) : Prop :=
  trace w' = trace w ++ ev_of c r /\ clock w <= clock w' /\ (may_fail c = false -> exists x, r = inl x) /\
  match c return reply c + Err -> Prop with
  | Now => fun r => r = inl (clock w)
  | Sleep ms false => fun _ => clock w + ms <= clock w'
  | _ => fun _ => True
  end r.
Lemma anything_answered w c : exists r w', answers w c r w'.
Proof.
  assert (exists x : reply c, match c return reply c -> Prop with Now => fun x => x = clock w | _ => fun _ => True end x) as (x & Hx).
  { destruct c; simpl; eauto; try (by exists tt); try (by exists true); try (by exists (Build_StartReply false None None)).
    all: first [by exists (jobLostStatus None)|by exists None|by exists []]. }
  exists (inl x). exists {| clock := clock w + match c with Sleep ms _ => Z.max ms 0 | _ => 0 end; trace := trace w ++ ev_of c (inl x) |}.
  split; [done|]. destruct c; simpl in *; subst; (split; [lia|]); (split; [eauto|]); try done. destruct poll; [done|lia].
Qed.

(** * What a trace says *)

Definition reads (tr : list Ev) : list InstallStatus := omap (fun e => match e with EStatus (inl s) => Some s | _ => None end) tr.
Definition starts (tr : list Ev) : list bool := omap (fun e => match e with EStart b _ => Some b | _ => None end) tr.
Definition tasks (tr : list Ev) : list TaskStep := omap (fun e => match e with ETask t => Some t | _ => None end) tr.
Definition deletes (tr : list Ev) : nat := length (List.filter (fun e => match e with EDelete => true | _ => false end) tr).
(** What a job that ended means, by the engine's own words. *)
Inductive Meaning := MStopped | MUnknown | MInstalled (launches : bool) | MFailed.
#[export] Instance meaning_eq_dec : EqDecision Meaning.
Proof. solve_decision. Defined.
Definition on_its_own (st : InstallStatus) : Prop := reason st <> Some (js "cancelled") /\ reason st <> Some (js "job_lost").
Inductive means (st : InstallStatus) : Meaning -> Prop :=
| means_stopped : reason st = Some (js "cancelled") -> means st MStopped
| means_lost : reason st = Some (js "job_lost") -> means st MUnknown
| means_unverified : on_its_own st -> verdict st = Some VUnverified -> means st MUnknown
| means_installed : on_its_own st -> verdict st = Some VInstalled -> means st (MInstalled true)
| means_may_not_launch : on_its_own st -> verdict st = Some VMayNotLaunch -> means st (MInstalled false)
| means_failed : on_its_own st -> verdict st = Some VFailed \/ verdict st = None -> means st MFailed.
(** The outcome a meaning has: only a failure carries the engine's hints on what to try. *)
Definition outcome_of (st : InstallStatus) (m : Meaning) : PkgInstallOutcome := {|
  installed := bool_decide (m = MInstalled true \/ m = MInstalled false); mayNotLaunch := bool_decide (m = MInstalled false);
  unverified := bool_decide (m = MUnknown);
  retryWithStream := bool_decide (m = MFailed /\ retry_with_stream st = true);
  stagedRefused := bool_decide (m = MFailed /\ reason st = Some (js "staged_refused"));
  netDiag := bool_decide (m = MFailed /\ net_diag st = true);
  noSpace := false; stopped_ := bool_decide (m = MStopped) |}.
Lemma status_means st : exists m, means st m /\ statusToOutcome st = outcome_of st m.
Proof.
  unfold statusToOutcome, has_reason, said_installed.
  destruct (bool_decide_reflect (reason st = Some (js "cancelled"))) as [Hc|Hc]; [exists MStopped; split; [by constructor|done]|].
  destruct (bool_decide_reflect (reason st = Some (js "job_lost"))) as [Hl|Hl]; [exists MUnknown; split; [by constructor|done]|].
  assert (on_its_own st) as Ho by (by split).
  destruct (verdict st) as [[]|] eqn:Ev; simpl;
    [exists (MInstalled true)|exists (MInstalled false)|exists MFailed|exists MUnknown|exists MFailed];
    (split; [by (constructor; auto)|]); unfold outcome_of; simpl; try done.
  all: f_equal; symmetry; [destruct (retry_with_stream st)|destruct (decide (reason st = Some (js "staged_refused")))|destruct (net_diag st)];
    first [rewrite !bool_decide_eq_true_2 by tauto; done|rewrite !bool_decide_eq_false_2 by naive_solver; done].
Qed.
(** What may come after [pre]: the staged package goes only once the engine said it is installed; a job is
    started again only after one that ended, refused before anything was fetched or because something
    would be replaced and the person agreed; what replaces is started only when the person agreed. *)
Definition may (a : InstallArgs) (pre : list Ev) (e : Ev) : Prop :=
  match e with
  | EStart replace _ =>
      (replace = true -> EAsk QReinstall true ∈ pre) /\ (length (starts pre) < 5)%nat /\
      (starts pre <> [] -> exists st, last (reads pre) = Some st /\ terminal st = true /\
         ((has_reason "destructive_guard" st = true /\ replace = true) \/ isTransientRefusal st = true))
  | EAsk QReinstall _ => exists st, last (reads pre) = Some st /\ has_reason "destructive_guard" st = true
  | EDelete => i_deleteStaging a = true /\ exists st, last (reads pre) = Some st /\ terminal st = true /\ exists launches, means st (MInstalled launches)
  | _ => True
  end.
Definition trace_ok (a : InstallArgs) (tr : list Ev) : Prop := forall pre e post, tr = pre ++ e :: post -> may a pre e.
(** The last status, as the engine told it or (its job unknown to it) as the client says. *)
Definition told (tr : list Ev) (st : InstallStatus) : Prop :=
  (last (reads tr) = Some st /\ terminal st = true) \/ (exists l, st = jobLostStatus l).

Lemma trace_ok_nil a : trace_ok a [].
Proof. intros pre e post H. by apply (f_equal length) in H; rewrite length_app in H; simpl in H; lia. Qed.
Lemma trace_ok_snoc a tr e : trace_ok a tr -> may a tr e -> trace_ok a (tr ++ [e]).
Proof.
  intros Ht He pre e' post. destruct post as [|x post _] using rev_ind.
  - intros [-> [= ->]]%app_inj_tail. done.
  - rewrite app_comm_cons, app_assoc. intros [-> _]%app_inj_tail. by eapply Ht.
Qed.

Section safety.
Context (a : InstallArgs).
(** Every moment of the routine is fine, and [Q] at its end. *)
Definition ok {A} (p : Prog A) (Q : A + Err -> World -> Prop) (w : World) : Prop :=
  wp answers (fun w => trace_ok a (trace w)) (fun _ _ => True) True p Q w.
Lemma ok_ret {A} (x : A) (Q : A + Err -> World -> Prop) w : trace_ok a (trace w) -> Q (inl x) w -> ok (Ret x) Q w.
Proof. by split. Qed.
Lemma ok_throw {A} e (Q : A + Err -> World -> Prop) w : trace_ok a (trace w) -> Q (inr e) w -> ok (Throw e) Q w.
Proof. by split. Qed.
Lemma ok_spin {A} (Q : A + Err -> World -> Prop) w : trace_ok a (trace w) -> ok Spin Q w.
Proof. by split. Qed.
Lemma ok_bind {A B} (p : Prog A) (f : A -> Prog B) Q w :
  ok p (fun r w' => match r with inl x => ok (f x) Q w' | inr e => Q (inr e) w' end) w -> ok (bind p f) Q w.
Proof. apply wp_bind. Qed.
Lemma ok_catch {A} (p : Prog A) f Q w :
  ok p (fun r w' => match r with inl x => Q (inl x) w' | inr e => ok (f e) Q w' end) w -> ok (catch p f) Q w.
Proof. apply wp_catch. Qed.
Lemma ok_impl {A} (p : Prog A) (Q Q' : A + Err -> World -> Prop) w :
  ok p Q w -> (forall r w', trace_ok a (trace w') -> Q r w' -> Q' r w') -> ok p Q' w.
Proof. intros H HQ. by eapply wp_impl. Qed.
Lemma ok_ask c (Q : reply c + Err -> World -> Prop) w : trace_ok a (trace w) -> (forall r, Forall (may a (trace w)) (ev_of c r)) ->
  (forall r w', answers w c r w' -> trace_ok a (trace w') -> Q r w') -> ok (ask c) Q w.
Proof.
  intros Ht Hm HQ. apply wp_call; [done|done|]. intros r w' Hr.
  assert (trace_ok a (trace w')) as Ht'; [|split; [done|by apply HQ]].
  destruct Hr as (-> & _). specialize (Hm r).
  assert (ev_of c r = [] \/ exists e, ev_of c r = [e]) as [->|[e He]].
  { destruct c; simpl; eauto; destruct r; eauto. }
  - by rewrite app_nil_r.
  - rewrite He in Hm |- *. apply trace_ok_snoc; [done|by inversion Hm].
Qed.
(** A call that leaves no trace and does not fail. *)
Lemma ok_quiet c (Q : reply c + Err -> World -> Prop) w : (forall r, ev_of c r = []) -> may_fail c = false -> trace_ok a (trace w) ->
  (forall x w', trace w' = trace w -> Q (inl x) w') -> ok (ask c) Q w.
Proof.
  intros Hc Hf Ht HQ. apply ok_ask; [done|intros r; by rewrite Hc|]. intros r w' (Htr & _ & Hx & _) _.
  destruct (Hx Hf) as [x ->]. apply HQ. by rewrite Htr, Hc, app_nil_r.
Qed.

Lemma ready_ok rounds t s w : trace_ok a (trace w) -> ok (ready_loop rounds t s) (fun r w' => (exists b, r = inl b) /\ trace w' = trace w) w.
Proof.
  revert w. induction rounds as [|rounds IH]; intros w Hw; [by apply ok_spin|]. cbn [ready_loop].
  apply ok_bind, ok_quiet; [done..|]. intros t1 w1 H1. apply ok_bind, ok_quiet; [done|done|by rewrite H1|]. intros b w2 H2.
  assert (trace_ok a (trace w2)) as Hw2 by (by rewrite H2, H1).
  destruct b; [apply ok_ret; [done|]; split; [eauto|congruence]|].
  apply ok_bind, ok_quiet; [done..|]. intros t2 w3 H3. assert (trace_ok a (trace w3)) as Hw3 by (by rewrite H3).
  destruct (_ <=? _); [apply ok_ret; [done|]; split; [eauto|congruence]|].
  apply ok_bind, ok_quiet; [done..|]. intros [] w4 H4. eapply ok_impl; [apply IH; by rewrite H4|].
  intros r w5 _ [? ?]. split; [done|congruence].
Qed.
(** The reads of one job: whatever they say, the last one is what is told. *)
Lemma poll_ok rounds job b last_ w : trace_ok a (trace w) ->
  ok (poll_loop rounds job b last_) (fun r w' => (forall st, r = inl st -> told (trace w') st) /\
    exists new, trace w' = trace w ++ new /\ Forall (fun e => match e with EStatus _ => True | _ => False end) new) w.
Proof.
  revert b last_ w. induction rounds as [|rounds IH]; intros b last_ w Hw; [by apply ok_spin|]. cbn [poll_loop].
  apply ok_bind, ok_catch, ok_bind, ok_ask; [done|by repeat constructor|]. intros r w1 (Ht & _) Hw1. simpl in Ht.
  set (Q := fun (r : InstallStatus + Err) w' => _).
  assert (forall rounds' poll b' last', rounds' = rounds -> ok (do _ <- ask (Sleep PKG_VERIFY_POLL_MS poll) in poll_loop rounds' job b' last') Q w1) as Hnext.
  { intros rounds' poll b' last' ->. apply ok_bind, ok_quiet; [done..|]. intros [] w2 H2. eapply ok_impl; [apply IH; by rewrite H2|].
    intros r' w3 _ (Hst & new & Hn & Hf). split; [done|]. exists (EStatus r :: new). split; [|by constructor].
    rewrite Hn, H2, Ht, <- app_assoc. done. }
  assert (exists new, trace w1 = trace w ++ new /\ Forall (fun e => match e with EStatus _ => True | _ => False end) new) as Hnew
    by (exists [EStatus r]; split; [done|by repeat constructor]).
  destruct r as [st|e]; apply ok_ret; try done.
  - destruct (terminal st) eqn:Et; [|by apply Hnext]. apply ok_ret; [done|]. split; [|done]. intros st' [= <-]. left.
    split; [|done]. rewrite Ht. unfold reads. rewrite omap_app. apply last_snoc.
  - destruct (no_such_job e); [apply ok_ret; [done|]; split; [|done]; intros st [= <-]; right; eauto|].
    destruct (_ <=? 0); [|by apply Hnext]. apply ok_throw; [done|]. by split.
Qed.
Definition is_read (e : Ev) : Prop := match e with EStatus _ => True | _ => False end.
Lemma once_ok polls force replace w : trace_ok a (trace w) -> (forall r, may a (trace w) (EStart replace r)) ->
  ok (runUnifiedInstallOnce polls force replace) (fun r w' => (forall st, r = inl st -> told (trace w') st) /\
    exists s new, trace w' = trace w ++ EStart replace s :: new /\ Forall is_read new) w.
Proof.
  intros Hw Hm. apply ok_bind, ok_ask; [done|intros r; constructor; [apply Hm|constructor]|]. intros r w1 (Ht & _) Hw1. simpl in Ht.
  assert (exists s new, trace w1 = trace w ++ EStart replace s :: new /\ Forall is_read new) as Hnew by (exists r, []; by split).
  destruct r as [s|e]; [|by split].
  assert (forall e, ok (Throw e) (fun (r : InstallStatus + Err) w' => (forall st, r = inl st -> told (trace w') st) /\
    exists s new, trace w' = trace w ++ EStart replace s :: new /\ Forall is_read new) w1) as Hthrow by (intros e; by apply ok_throw).
  destruct (s_ok s); [|apply Hthrow]. destruct (s_job s) as [[|x job]|]; [apply Hthrow| |apply Hthrow].
  eapply ok_impl; [by apply poll_ok|]. intros r w2 _ (Hst & new & Hn & Hf). split; [done|].
  exists (inl s), new. split; [|done]. by rewrite Hn, Ht, <- app_assoc.
Qed.
Lemma reads_both t1 t2 : reads (t1 ++ t2) = reads t1 ++ reads t2.
Proof. apply omap_app. Qed.
Lemma starts_app t1 t2 : starts (t1 ++ t2) = starts t1 ++ starts t2.
Proof. apply omap_app. Qed.
Lemma starts_reads new : Forall is_read new -> starts new = [].
Proof. induction 1 as [|e new He _ IH]; [done|]. by destruct e. Qed.
(** What the driver leaves behind. *)
Definition is_drive (e : Ev) : Prop := match e with EStart _ _ | EStatus _ | EAsk QReinstall _ => True | _ => False end.
Lemma drive_ok polls force rounds : forall retries replace w, trace_ok a (trace w) -> (length (starts (trace w)) + rounds <= 5)%nat ->
  (replace = true -> EAsk QReinstall true ∈ trace w) ->
  (starts (trace w) <> [] -> exists st, last (reads (trace w)) = Some st /\ terminal st = true /\
     ((has_reason "destructive_guard" st = true /\ replace = true) \/ isTransientRefusal st = true)) ->
  ok (drive_loop (runUnifiedInstallOnce polls force) rounds retries replace) (fun r w' => (forall st, r = inl st -> told (trace w') st) /\
    exists new, trace w' = trace w ++ new /\ Forall is_drive new) w.
Proof.
  induction rounds as [|rounds IH]; intros retries replace w Hw Hn Hr Hs; [by apply ok_spin|]. cbn [drive_loop].
  apply ok_bind. unfold waitForConsoleReady. apply ok_bind, ok_quiet; [done..|]. intros t0 w0 H0.
  eapply ok_impl; [apply ready_ok; by rewrite H0|]. intros r1 w1 Hw1 [[b ->] H1]. rewrite H0 in H1.
  apply ok_bind. eapply ok_impl; [apply once_ok; [done|]|].
  { intros s. rewrite H1. split; [done|]. split; [lia|done]. }
  intros r w2 Hw2 (Htold & s & new & Hn2 & Hf). rewrite H1 in Hn2.
  assert (Forall is_drive (EStart replace s :: new)) as Hd by (constructor; [done|]; eapply Forall_impl; [exact Hf|]; by intros []).
  assert (exists new, trace w2 = trace w ++ new /\ Forall is_drive new) as Hnew by eauto.
  destruct r as [st|e]; [|done]. specialize (Htold st eq_refl).
  assert (length (starts (trace w2)) + rounds <= 5)%nat as Hn2'.
  { rewrite Hn2, starts_app. simpl. rewrite (starts_reads new Hf), length_app. simpl. lia. }
  set (Q := fun (r : InstallStatus + Err) w' => _).
  assert (ok (Ret st) Q w2) as Hret by (apply ok_ret; [done|]; split; [by intros st' [= <-]|done]).
  assert (forall rt rp e w3, trace_ok a (trace w3) -> trace w3 = trace w2 ++ e -> starts e = [] -> reads e = [] -> Forall is_drive e ->
    (rp = true -> EAsk QReinstall true ∈ trace w3) -> last (reads (trace w2)) = Some st -> terminal st = true ->
    (has_reason "destructive_guard" st = true /\ rp = true) \/ isTransientRefusal st = true ->
    ok (drive_loop (runUnifiedInstallOnce polls force) rounds rt rp) Q w3) as Hnext.
  { intros rt rp e w3 Hw3 He Hse Hre Hde Hrp Hl Hte Hc. eapply ok_impl; [apply IH; [done| |done|]|].
    - by rewrite He, starts_app, Hse, app_nil_r.
    - intros _. exists st. by rewrite He, reads_both, Hre, app_nil_r.
    - intros r w4 _ (Hst & new' & Hn' & Hf'). split; [done|]. exists ((EStart replace s :: new) ++ e ++ new').
      rewrite Hn', He, Hn2, <- !app_assoc. split; [done|]. by repeat apply Forall_app_2. }
  destruct (has_reason "destructive_guard" st && negb replace) eqn:Eg.
  - apply andb_true_iff in Eg as [Eg Er]. apply negb_true_iff in Er as ->.
    assert (last (reads (trace w2)) = Some st /\ terminal st = true) as [Hl Hte] by (destruct Htold as [?|[l ->]]; [done|done]).
    apply ok_bind, ok_ask; [done| |].
    { intros [yes|e]; repeat constructor. by exists st. }
    intros r w3 (Ht3 & _ & Hx & _) Hw3. destruct (Hx eq_refl) as [yes ->]. simpl in Ht3.
    destruct yes.
    + eapply Hnext; [done|exact Ht3|done|done|by repeat constructor| |done|done|by left].
      intros _. rewrite Ht3. apply elem_of_app. right. by left.
    + apply ok_ret; [done|]. split; [intros st' [= <-]; left; by rewrite Ht3, reads_both, app_nil_r|].
      exists ((EStart false s :: new) ++ [EAsk QReinstall false]). rewrite Ht3, Hn2, <- app_assoc. split; [done|].
      apply Forall_app_2; [done|by repeat constructor].
  - destruct (isTransientRefusal st && _) eqn:Et; [|exact Hret]. apply andb_true_iff in Et as [Et _].
    assert (last (reads (trace w2)) = Some st /\ terminal st = true) as [Hl Hte].
    { destruct Htold as [?|[l ->]]; [done|]. unfold isTransientRefusal in Et. by destruct l. }
    apply ok_bind, ok_quiet; [done..|]. intros [] w3 H3.
    eapply (Hnext _ _ []); [by rewrite H3|by rewrite app_nil_r|done|done|done| |done|done|by right].
    intros ->. rewrite H3, Hn2. apply elem_of_app. left. by apply Hr.
Qed.

(** ** The whole install *)

(** What the task is left as: a late success can be looked for when the engine served some of the package
    and there is something to tell it by. *)
Definition tellable : Prop :=
  titleIdFromContentId (i_contentId a ?? []) <> None /\
  ((exists f, i_expected a ≫= e_fingerprint = Some f /\ f <> []) \/ exists n, i_expected a ≫= e_size = Some n /\ 0 < n).
Definition left_as (st : InstallStatus) (m : Meaning) (t : TaskStep) : Prop :=
  match m with
  | MInstalled _ => t = TFinish TDone
  | MUnknown => (0 < served_bytes st /\ tellable -> t = TAwait) /\ (~ (0 < served_bytes st /\ tellable) -> t = TFinish TDone)
  | MStopped => t = TFinish TCancelled
  | MFailed => t = TFinish TFailed
  end.
Lemma viable_tellable : installReverifyProbeViable (i_contentId a) (i_expected a) = true <-> tellable.
Proof.
  unfold installReverifyProbeViable, tellable, sized. destruct (titleIdFromContentId _) as [t|]; [|naive_solver].
  destruct (i_expected a ≫= e_fingerprint) as [[|x f]|] eqn:Ef; destruct (i_expected a ≫= e_size) as [n|] eqn:En; simpl; rewrite ?Z.ltb_lt;
    (split; [intros H|intros [_ [(g & [= <-] & Hg)|(k & [= <-] & Hk)]]]); try done; try lia; (split; [done|]); first [by left; eauto|right; eauto].
Qed.
Record ends_with_task (tr : list Ev) (t : TaskStep) (dels : nat) : Prop := {
  ew_tasks : tasks tr = [TRegister; t];
  ew_deletes : deletes tr = dels;
  ew_schedule : ESchedule ∈ tr <-> t = TAwait }.
Definition run_told (r : PkgInstallOutcome + Err) (w : World) : Prop :=
  match r with
  | inl o =>
      (o = no_outcome <| noSpace := true |> /\ EAsk QSpace false ∈ trace w /\ starts (trace w) = [] /\ ends_with_task (trace w) (TFinish TCancelled) 0) \/
      (exists st m t, told (trace w) st /\ means st m /\ o = outcome_of st m /\ left_as st m t /\
         ends_with_task (trace w) t (match m with MInstalled _ => if i_deleteStaging a then 1 else 0 | _ => 0 end))
  | inr _ => ends_with_task (trace w) (TFinish TFailed) 0
  end.
(** The task is running. *)
Definition under_way (tr : list Ev) : Prop := tasks tr = [TRegister] /\ deletes tr = 0%nat /\ ESchedule ∉ tr.
Lemma tasks_app t1 t2 : tasks (t1 ++ t2) = tasks t1 ++ tasks t2.
Proof. apply omap_app. Qed.
Lemma deletes_app t1 t2 : deletes (t1 ++ t2) = (deletes t1 + deletes t2)%nat.
Proof. unfold deletes. by rewrite List.filter_app, length_app. Qed.
Definition is_quiet (e : Ev) : Prop := match e with ETask _ | EDelete | ESchedule => False | _ => True end.
Lemma under_way_app tr new : under_way tr -> Forall is_quiet new -> under_way (tr ++ new).
Proof.
  intros (H1 & H2 & H3) Hn.
  assert (tasks new = [] /\ deletes new = 0%nat /\ ESchedule ∉ new) as (H4 & H5 & H6).
  { induction Hn as [|e new He _ (IH1 & IH2 & IH3)]; [split_and!; [done|done|set_solver]|].
    destruct e; try done; (split_and!; [exact IH1|exact IH2|set_solver]). }
  split_and!; [by rewrite tasks_app, H4, app_nil_r|by rewrite deletes_app, H2, H5|set_solver].
Qed.
Lemma under_way_ends tr t : under_way tr -> t <> TAwait -> ends_with_task (tr ++ [ETask t]) t 0.
Proof.
  intros (H1 & H2 & H3) Ht. split; [by rewrite tasks_app, H1|by rewrite deletes_app, H2|]. set_solver.
Qed.
Lemma told_quiet tr new st : told tr st -> reads new = [] -> told (tr ++ new) st.
Proof. intros [[? ?]|?] Hn; [left|by right]. by rewrite reads_both, Hn, app_nil_r. Qed.
Lemma task_ok t (Q : unit + Err -> World -> Prop) w : trace_ok a (trace w) ->
  (forall w', trace w' = trace w ++ [ETask t] -> trace_ok a (trace w') -> Q (inl tt) w') -> ok (ask (Task t)) Q w.
Proof.
  intros Hw HQ. apply ok_ask; [done|intros r; by repeat constructor|]. intros r w' (Ht & _ & Hx & _) Hw'.
  destruct (Hx eq_refl) as [[] ->]. by apply HQ.
Qed.
Lemma end_plain st m t w : trace_ok a (trace w) -> under_way (trace w) -> told (trace w) st -> means st m ->
  t <> TAwait -> left_as st m t -> (forall b, m = MInstalled b -> i_deleteStaging a = false) ->
  ok (do _ <- ask (Task t) in Ret (outcome_of st m)) (fun r w' => exists o, r = inl o /\ run_told r w') w.
Proof.
  intros Hw Hu Ht Hm Hna Hof Hd. apply ok_bind, task_ok; [done|]. intros w1 H1 Hw1. apply ok_ret; [done|]. eexists. split; [done|]. right.
  exists st, m, t. rewrite H1. split_and!; [by apply told_quiet|done|done|done|].
  destruct m as [| |b|]; try rewrite (Hd b eq_refl); by apply under_way_ends.
Qed.
Lemma end_installed st b w : trace_ok a (trace w) -> under_way (trace w) -> told (trace w) st -> means st (MInstalled b) -> i_deleteStaging a = true ->
  ok (do _ <- ask (Task (TFinish TDone)) in do _ <- catch (ask FsDelete) (fun _ => Ret tt) in Ret (outcome_of st (MInstalled b)))
    (fun r w' => exists o, r = inl o /\ run_told r w') w.
Proof.
  intros Hw (Hu1 & Hu2 & Hu3) Ht Hm Ed. apply ok_bind, task_ok; [done|]. intros w1 H1 Hw1. apply ok_bind, ok_catch, ok_ask; [done| |].
  { intros r. constructor; [|constructor]. split; [done|]. exists st.
    destruct Ht as [[Hl Hte]|[l ->]]; [rewrite H1, reads_both, app_nil_r; eauto|].
    exfalso. inversion Hm as [| | |[]|[]|]; done. }
  intros r w2 (H2 & _) Hw2. simpl in H2.
  assert (ok (Ret (outcome_of st (MInstalled b))) (fun r w' => exists o, r = inl o /\ run_told r w') w2) as Hret.
  { apply ok_ret; [done|]. eexists. split; [done|]. right. exists st, (MInstalled b), (TFinish TDone).
    rewrite H2, H1, Ed. split_and!; [by apply told_quiet; [apply told_quiet|]|done|done|done|split].
    - by rewrite !tasks_app, Hu1.
    - by rewrite !deletes_app, Hu2.
    - set_solver. }
  destruct r as [[]|e]; [exact Hret|]. apply ok_ret; [done|exact Hret].
Qed.
Lemma end_awaiting st w : trace_ok a (trace w) -> under_way (trace w) -> told (trace w) st -> means st MUnknown -> left_as st MUnknown TAwait ->
  ok (do _ <- ask (Task TAwait) in do _ <- ask Schedule in Ret (outcome_of st MUnknown)) (fun r w' => exists o, r = inl o /\ run_told r w') w.
Proof.
  intros Hw (Hu1 & Hu2 & Hu3) Ht Hm Hl. apply ok_bind, task_ok; [done|]. intros w1 H1 Hw1.
  apply ok_bind, ok_ask; [done|by repeat constructor|]. intros r w2 (H2 & _ & Hx & _) Hw2. destruct (Hx eq_refl) as [[] ->]. simpl in H2.
  apply ok_ret; [done|]. eexists. split; [done|]. right. exists st, MUnknown, TAwait.
  rewrite H2, H1. split_and!; [by apply told_quiet; [apply told_quiet|]|done|done|done|split].
  - by rewrite !tasks_app, Hu1.
  - by rewrite !deletes_app, Hu2.
  - split; [done|]. set_solver.
Qed.
Lemma end_ok st w : trace_ok a (trace w) -> under_way (trace w) -> told (trace w) st ->
  ok (end_task a st) (fun r w' => exists o, r = inl o /\ run_told r w') w.
Proof.
  intros Hw Hu Ht. destruct (status_means st) as (m & Hm & Ho). unfold end_task. rewrite Ho. destruct m as [| |b|].
  - by apply end_plain.
  - change (unverified _) with true. cbn [installed outcome_of].
    pose proof viable_tellable as Hv. destruct (Z.ltb_spec 0 (served_bytes st)); simpl.
    + destruct (installReverifyProbeViable _ _).
      * apply end_awaiting; try done. split; [done|]. intros []. split; [done|by apply Hv].
      * apply end_plain; try done. split; [|done]. intros [_ Hn]. by apply Hv in Hn.
    + apply end_plain; try done. split; [|done]. intros []. lia.
  - replace (installed (outcome_of st (MInstalled b))) with true by (by destruct b).
    destruct (i_deleteStaging a) eqn:Ed; [by apply end_installed|].
    change (ok (do _ <- ask (Task (TFinish TDone)) in Ret (outcome_of st (MInstalled b))) (fun r w' => exists o, r = inl o /\ run_told r w') w).
    by apply end_plain.
  - by apply end_plain.
Qed.
Lemma drive_quiet new : Forall is_drive new -> Forall is_quiet new.
Proof. intros H. eapply Forall_impl; [exact H|]. by intros []. Qed.
Lemma run_ok polls w : trace w = [] -> ok (runPkgInstall polls a) run_told w.
Proof.
  intros Hw. apply ok_bind, task_ok; [rewrite Hw; apply trace_ok_nil|]. intros w1 H1 Hw1. rewrite Hw in H1. simpl in H1.
  assert (under_way (trace w1)) as Hu by (rewrite H1; split_and!; [done|done|set_solver]).
  assert (starts (trace w1) = []) as Hs by (by rewrite H1).
  apply ok_catch. set (Q := fun (r : PkgInstallOutcome + Err) w' => _).
  assert (forall w2, trace_ok a (trace w2) -> under_way (trace w2) -> starts (trace w2) = [] ->
    ok (do _ <- (match i_contentId a with Some (_ :: _) => ask Preflight | _ => Ret tt end) in
        do st <- driveUnifiedInstall polls (i_forceStream a) in end_task a st) Q w2) as Hdrive.
  { clear -a. intros w2 Hw2 Hu2 Hs2.
    assert (forall w3, trace w3 = trace w2 -> ok (do st <- driveUnifiedInstall polls (i_forceStream a) in end_task a st) Q w3) as H3.
    { intros w3 H3. rewrite <- H3 in Hw2, Hu2, Hs2. clear w2 H3. apply ok_bind. eapply ok_impl.
      - apply drive_ok; [done|rewrite Hs2; simpl; lia|done|by rewrite Hs2].
      - intros r w4 Hw4 (Ht & new & Hn & Hf). apply drive_quiet in Hf. pose proof (under_way_app _ _ Hu2 Hf) as Hu4. rewrite <- Hn in Hu4.
        destruct r as [st|e].
        + eapply ok_impl; [apply end_ok; auto|]. intros r w5 _ (o & -> & Hr). exact Hr.
        + apply ok_bind, task_ok; [done|]. intros w5 H5 Hw5. apply ok_throw; [done|]. unfold run_told. rewrite H5. by apply under_way_ends. }
    destruct (i_contentId a) as [[|x c]|]; [by apply ok_bind, ok_ret; [|apply H3]| |by apply ok_bind, ok_ret; [|apply H3]].
    apply ok_bind, ok_quiet; [done..|]. intros [] w3 H. by apply H3. }
  destruct (_ && _); [|apply ok_bind, ok_ret; [done|]; by apply Hdrive].
  apply ok_bind, ok_bind, ok_ask; [done|intros [f|e]; by repeat constructor|]. intros r w2 (H2 & _ & Hx & _) Hw2. destruct (Hx eq_refl) as [f ->].
  assert (under_way (trace w2)) as Hu2 by (rewrite H2; apply under_way_app; [done|by repeat constructor]).
  assert (starts (trace w2) = []) as Hs2 by (by rewrite H2, starts_app, Hs).
  destruct (installSpaceWarning _ f); [|apply ok_ret; [done|]; by apply Hdrive].
  apply ok_bind, ok_ask; [done|intros [y|e]; by repeat constructor|]. intros r w3 (H3 & _ & Hy & _) Hw3. destruct (Hy eq_refl) as [go ->]. simpl in H3.
  assert (under_way (trace w3)) as Hu3 by (rewrite H3; apply under_way_app; [done|by repeat constructor]).
  assert (starts (trace w3) = []) as Hs3 by (by rewrite H3, starts_app, Hs2).
  apply ok_ret; [done|]. destruct go; [by apply Hdrive|]. apply ok_bind, task_ok; [done|]. intros w4 H4 Hw4.
  apply ok_ret; [done|]. left. rewrite H4. split; [done|].
  split; [rewrite H3; apply elem_of_app; left; apply elem_of_app; right; by left|]. split; [by rewrite starts_app, Hs3|by apply under_way_ends].
Qed.
End safety.

Definition beginning (t : Z) : World := {| clock := t; trace := [] |}.

(** * The look for a late success comes to an end *)

Section late.
Context (contentId : option str) (packageType : str) (expected : option PkgExpectedIdentity).
#[local] Abbreviation probe := (probe contentId packageType expected).
Definition inventories (tr : list Ev) : list (list Artifact + Err) := omap (fun e => match e with EInventory r => Some r | _ => None end) tr.
(** The last inventory read holds the package. *)
Definition found (tr : list Ev) : Prop := exists l a, last (inventories tr) = Some (inl l) /\ a ∈ l /\ is_this_package probe a.
Lemma probe_found l : pkgRowInstalled probe ∅ (Some l) = true -> exists a, a ∈ l /\ is_this_package probe a.
Proof. intros [?|[(_ & ? & _)|(_ & t & _ & Ht)]]%row_installed_cases; [done|done|set_solver]. Qed.
(** The look goes on: the task waits, the console was asked. *)
Definition is_inventory (e : Ev) : Prop := match e with EInventory _ | EAwaiting true | EBusy _ => True | _ => False end.
(** From [w] on only that happens, and time passes. *)
Definition looks (w w' : World) : Prop := clock w <= clock w' /\ exists new, trace w' = trace w ++ new /\ Forall is_inventory new.
Lemma looks_refl w : looks w w.
Proof. split; [lia|]. exists []. by rewrite app_nil_r. Qed.
Lemma looks_trans w1 w2 w3 : looks w1 w2 -> looks w2 w3 -> looks w1 w3.
Proof.
  intros (H1 & n1 & E1 & F1) (H2 & n2 & E2 & F2). split; [lia|]. exists (n1 ++ n2). rewrite E2, E1, <- app_assoc.
  split; [done|by apply Forall_app_2].
Qed.
Lemma quiet_looks w c r w' : answers w c r w' -> ev_of c r = [] -> looks w w'.
Proof. intros (Ht & Hc & _) He. split; [done|]. exists []. by rewrite Ht, He. Qed.
Lemma look_looks w c r w' : answers w c r w' -> Forall is_inventory (ev_of c r) -> looks w w'.
Proof. intros (Ht & Hc & _) He. split; [done|]. exists (ev_of c r). by rewrite Ht. Qed.
Definition verified (w : World) (r : bool + Err) (w' : World) : Prop := looks w w' /\ exists b, r = inl b /\ (b = true -> found (trace w')).
Lemma verify_ends rounds idleMs hard : forall idle best w, (1 <= rounds)%nat -> hard <= clock w + PKG_VERIFY_POLL_MS * (Z.of_nat rounds - 1) ->
  Wp answers False (verify_loop contentId packageType expected rounds idleMs hard idle best) (verified w) w.
Proof.
  induction rounds as [|rounds IH]; intros idle best w Hn Hh; [lia|]. cbn [verify_loop].
  apply Wp_bind, Wp_call. intros r w1 Hr1. pose proof (quiet_looks _ _ _ _ Hr1 eq_refl) as L1. destruct Hr1 as (_ & _ & _ & ->).
  destruct (negb _); [apply Wp_ret; split; [done|by exists false]|].
  apply Wp_bind, Wp_call. intros r w2 Hr2. pose proof (quiet_looks _ _ _ _ Hr2 eq_refl) as L2. destruct Hr2 as (_ & _ & _ & ->).
  pose proof (looks_trans _ _ _ L1 L2) as L12.
  destruct (Z.ltb_spec (clock w1) hard) as [Hlt|Hge]; cbn [negb]; [|apply Wp_ret; split; [done|by exists false]].
  assert (forall w3 i b, looks w w3 -> clock w1 <= clock w3 ->
    Wp answers False (do _ <- ask (Sleep PKG_VERIFY_POLL_MS false) in verify_loop contentId packageType expected rounds idleMs hard i b) (verified w) w3) as Hrest.
  { intros w3 i b L3 Hc. apply Wp_bind, Wp_call. intros r w4 Hr4. pose proof (quiet_looks _ _ _ _ Hr4 eq_refl) as L4.
    destruct Hr4 as (_ & _ & Hx & Hs). destruct (Hx eq_refl) as [[] ->]. destruct L1 as [L1 _]. unfold PKG_VERIFY_POLL_MS in *.
    eapply Wp_impl; [apply IH; lia|]. intros r w5 (L5 & Hb). split; [|done]. eapply looks_trans; [exact L3|]. by eapply looks_trans. }
  apply Wp_bind, Wp_catch, Wp_bind, Wp_call. intros r w3 (Ht3 & Hc3 & _ & _).
  assert (looks w w3) as L3 by (eapply looks_trans; [exact L12|]; split; [done|]; exists [EInventory r]; split; [done|by repeat constructor]).
  assert (clock w1 <= clock w3) as Hc13 by (destruct L2; lia).
  destruct r as [l|e].
  - apply Wp_ret. destruct (pkgRowInstalled probe ∅ (Some l)) eqn:Ep.
    + apply Wp_ret. split; [done|]. exists true. split; [done|]. intros _. destruct (probe_found _ Ep) as (a & ? & ?).
      exists l, a. split; [|done]. rewrite Ht3. unfold inventories. rewrite omap_app. apply last_snoc.
    + destruct (_ <? _); [|by apply Hrest]. apply Wp_bind, Wp_call. intros r w4 Hr4. pose proof (quiet_looks _ _ _ _ Hr4 eq_refl) as L4.
      destruct Hr4 as (_ & Hc4 & _ & ->). apply Hrest; [by eapply looks_trans|lia].
  - apply Wp_ret, Wp_bind, Wp_call. intros r w4 Hr4. pose proof (quiet_looks _ _ _ _ Hr4 eq_refl) as L4.
    destruct Hr4 as (_ & Hc4 & _ & ->). apply Hrest; [by eapply looks_trans|lia].
Qed.

(** How the chain may end: the task found not to wait any more, the half hour gone, or the package found. *)
Definition late_end (start : Z) (path : bool) (r : unit + Err) (w : World) : Prop :=
  r = inl tt /\ exists pre, Forall is_inventory pre /\
   (trace w = pre ++ [EAwaiting false] \/ (trace w = pre ++ [ETask TGaveUp] /\ start + INSTALL_REVERIFY_MAX_MS <= clock w) \/
    (found (trace w) /\ trace w = pre ++ ETask (TFinish TDone) :: if path then [EFinalize] else [])).
Lemma delay_long attempt : 30000 <= installReverifyDelaysMs attempt.
Proof. unfold installReverifyDelaysMs. destruct attempt as [|[|[|[|n]]]]; simpl; lia. Qed.
(** One round of the chain, given the rounds after it. *)
Section round.
Context (start : Z) (path : bool) (rounds : nat).
#[local] Abbreviation giveUpAt := (start + INSTALL_REVERIFY_MAX_MS).
#[local] Abbreviation chain := (tick contentId packageType expected rounds path giveUpAt).
Context (IH : forall attempt w, (1 <= rounds)%nat -> Forall is_inventory (trace w) -> giveUpAt <= clock w + 30000 * (Z.of_nat rounds - 1) ->
  Wp answers False (chain attempt) (late_end start path) w).
Context (w0 : World) (Hi : Forall is_inventory (trace w0)) (Hh : giveUpAt <= clock w0 + 30000 * Z.of_nat rounds).
Lemma looks_inventory w : looks w0 w -> Forall is_inventory (trace w).
Proof. intros (_ & new & -> & Hf). by apply Forall_app_2. Qed.
Lemma give_up_end w : looks w0 w -> giveUpAt <= clock w -> Wp answers False (ask (Task TGaveUp)) (late_end start path) w.
Proof.
  intros L Hc. apply Wp_call. intros r w2 (Ht & Hc2 & Hx & _). destruct (Hx eq_refl) as [[] ->]. split; [done|]. exists (trace w).
  split; [by apply looks_inventory|]. right; left. split; [done|lia].
Qed.
Lemma sleep_end w attempt ms : looks w0 w -> 30000 <= ms -> clock w0 < giveUpAt ->
  Wp answers False (do _ <- ask (Sleep ms false) in chain attempt) (late_end start path) w.
Proof.
  intros L Hms Hlt. apply Wp_bind, Wp_call. intros r w2 Hr. pose proof (quiet_looks _ _ _ _ Hr eq_refl) as L2.
  destruct Hr as (_ & _ & Hx & Hs). destruct (Hx eq_refl) as [[] ->]. pose proof L as [Lc _].
  apply IH; [lia|apply looks_inventory; by eapply looks_trans|lia].
Qed.
Lemma found_end w : looks w0 w -> found (trace w) ->
  Wp answers False (do _ <- ask (Task (TFinish TDone)) in if path then ask Finalize else Ret tt) (late_end start path) w.
Proof.
  intros L (l & a & Hl & Ha). apply Wp_bind, Wp_call. intros r w5 (Ht5 & _ & Hx5 & _). destruct (Hx5 eq_refl) as [[] ->]. simpl in Ht5.
  assert (forall w6 more, trace w6 = trace w5 ++ more -> inventories more = [] -> found (trace w6)) as Hfound.
  { intros w6 more -> Hm. exists l, a. split; [|done]. rewrite Ht5. unfold inventories in *. by rewrite !omap_app, Hm, !app_nil_r. }
  pose proof (looks_inventory w L). destruct path.
  - apply Wp_call. intros r w6 (Ht6 & _ & Hx6 & _). destruct (Hx6 eq_refl) as [[] ->]. simpl in Ht6. split; [done|]. exists (trace w).
    split; [done|]. right; right. split; [by eapply Hfound|]. by rewrite Ht6, Ht5, <- app_assoc.
  - apply Wp_ret. split; [done|]. exists (trace w). split; [done|]. right; right. split; [by apply (Hfound w5 []); rewrite ?app_nil_r|done].
Qed.
Lemma not_found_end w attempt : looks w0 w -> clock w0 < giveUpAt ->
  Wp answers False (do now <- ask Now in if giveUpAt <=? now then ask (Task TGaveUp) else
    do _ <- ask (Sleep (installReverifyDelaysMs attempt) false) in chain (S attempt)) (late_end start path) w.
Proof.
  intros L Hlt. apply Wp_bind, Wp_call. intros r w2 Hr. pose proof (looks_trans _ _ _ L (quiet_looks _ _ _ _ Hr eq_refl)) as L2.
  destruct Hr as (_ & Hc & _ & ->). destruct (Z.leb_spec giveUpAt (clock w)); [by apply give_up_end; [|lia]|].
  apply sleep_end; [done|apply delay_long|done].
Qed.
Lemma round_end attempt : Wp answers False (tick contentId packageType expected (S rounds) path giveUpAt attempt) (late_end start path) w0.
Proof.
  cbn [tick]. apply Wp_bind, Wp_call. intros r w1 Hr1. pose proof Hr1 as (Ht1 & Hc1 & Hx1 & _). destruct (Hx1 eq_refl) as [b ->].
  destruct b; cbn [negb]; [|apply Wp_ret; split; [done|]; exists (trace w0); split; [done|by left]].
  assert (looks w0 w1) as L1 by (eapply look_looks; [exact Hr1|by repeat constructor]). clear Ht1.
  apply Wp_bind, Wp_call. intros r w2 Hr2. pose proof (looks_trans _ _ _ L1 (quiet_looks _ _ _ _ Hr2 eq_refl)) as L2. destruct Hr2 as (_ & Hc2 & _ & ->).
  destruct (Z.leb_spec giveUpAt (clock w1)) as [Hle|Hlt]; [by apply give_up_end; [|lia]|].
  assert (clock w0 < giveUpAt) as Hlt0 by lia.
  apply Wp_bind, Wp_call. intros r w3 Hr3. pose proof Hr3 as (_ & Hc3 & Hx3 & _). destruct (Hx3 eq_refl) as [busy ->].
  assert (looks w0 w3) as L3 by (eapply looks_trans; [exact L2|]; eapply look_looks; [exact Hr3|by repeat constructor]).
  destruct busy; [by apply sleep_end|]. apply Wp_bind. unfold verifyDpiInstalledArtifact.
  destruct (negb _); [apply Wp_ret; by apply not_found_end|].
  apply Wp_bind, Wp_call. intros r w4 Hr4. pose proof (looks_trans _ _ _ L3 (quiet_looks _ _ _ _ Hr4 eq_refl)) as L4. destruct Hr4 as (_ & Hc4 & _ & ->).
  eapply Wp_impl; [apply verify_ends; [lia|unfold INSTALL_REVERIFY_PROBE_MS, PKG_VERIFY_POLL_MS; lia]|].
  intros r w5 (L5 & v & -> & Hv). pose proof (looks_trans _ _ _ L4 L5). destruct v; [apply found_end; auto|by apply not_found_end].
Qed.
End round.
Lemma tick_ends start path rounds : forall attempt w, (1 <= rounds)%nat -> Forall is_inventory (trace w) ->
  start + INSTALL_REVERIFY_MAX_MS <= clock w + 30000 * (Z.of_nat rounds - 1) ->
  Wp answers False (tick contentId packageType expected rounds path (start + INSTALL_REVERIFY_MAX_MS) attempt) (late_end start path) w.
Proof.
  induction rounds as [|rounds IH]; intros attempt w Hn Hi Hh; [lia|]. apply round_end; [exact IH|done|lia].
Qed.
End late.

Definition schedule_end (contentId : option str) (packageType : str) (expected : option PkgExpectedIdentity) (t : Z) (path : bool)
    (r : unit + Err) (w : World) : Prop :=
  if installReverifyProbeViable contentId expected then late_end contentId packageType expected t path r w
  else r = inl tt /\ trace w = [ETask (TFinish TUnverified)].

(** * Examples *)

(** An environment that is a function of what was asked so far. *)
Definition env (start : list Ev -> StartReply) (status : list Ev -> InstallStatus + Err) (yes : bool) (inv : list Ev -> list Artifact)
    (w : World) (c : Cmd) : (reply c + Err) * World :=
  let r : reply c + Err := match c return reply c + Err with
    | Now => inl (clock w) | Readiness _ => inl true | Start _ _ => inl (start (trace w)) | Status _ => status (trace w)
    | AskInstall _ => inl yes | FreeBytes => inl (Some 1000) | IsAwaiting => inl true | Busy => inl false | Inventory => inl (inv (trace w))
    | _ => inl tt end in
  (r, {| clock := clock w + match c with Sleep ms _ => Z.max ms 0 | _ => 0 end; trace := trace w ++ ev_of c r |}).
Lemma env_answers start status yes inv w c : answers w c (env start status yes inv w c).1 (env start status yes inv w c).2.
Proof. split; [done|]. destruct c; simpl; (split; [lia|]); (split; [eauto|]); try done. destruct poll; [done|lia]. Qed.
Definition a_status (p : Phase) (v : option Verdict) (code : Z) (r : option string) (served : Z) : InstallStatus := {|
  phase := p; route := Some Loopback; verdict := v; code_ := code; reason := js <$> r; total_bytes := 100; served_bytes := served;
  retry_with_stream := false; package_type := Some (js "PS4DP"); net_diag := false |}.
Definition an_install : InstallArgs := {|
  i_contentId := Some (js "EP9000-CUSA00207_00-BLOODBORNE000000"); i_packageType := Some (js "PS4DP"); i_deleteStaging := true;
  i_expected := Some {| e_size := Some 100; e_fingerprint := None |}; i_forceStream := false; i_spaceChecked := false |}.
Definition a_job (tr : list Ev) : StartReply := {| s_ok := true; s_job := Some (js "7"); s_error := None |}.
(** The first job is refused: busy. The second: it would replace the game; the person agrees. The third installs. *)
Definition busy_console (tr : list Ev) : InstallStatus + Err :=
  inl match length (starts tr), length (reads tr) with
      | 1%nat, _ => a_status PFailed (Some VFailed) TRANSIENT_REFUSAL (Some "sony_refused"%string) 0
      | 2%nat, _ => a_status PFailed (Some VFailed) 0 (Some "destructive_guard"%string) 0
      | _, 2%nat => a_status Deliver None 0 None 50
      | _, _ => a_status PDone (Some VInstalled) 0 None 100
      end.
Definition busy_run : Prog PkgInstallOutcome * World :=
  play 60 (env a_job busy_console true (fun _ => [])) (runPkgInstall 9 an_install) (beginning 0).
(** The engine is gone in the middle of the job: nothing is deleted, and a late success is looked for. *)
Definition lost_engine (tr : list Ev) : InstallStatus + Err :=
  match length (reads tr) with O => inl (a_status Deliver None 0 None 40) | _ => inr (Error (js "Error: No such job")) end.
Definition lost_run : Prog PkgInstallOutcome * World :=
  play 60 (env a_job lost_engine true (fun _ => [])) (runPkgInstall 9 an_install) (beginning 0).
(** The update is written after two reads of the inventory. *)
Definition late_inventory (tr : list Ev) : list Artifact :=
  [{| a_kind := KBase; a_size := 100; a_fingerprint := []; a_contentId := [] |}] ++
  if (2 <=? length (inventories tr))%nat then [{| a_kind := KPatch; a_size := 100; a_fingerprint := []; a_contentId := [] |}] else [].
Definition late_run : Prog unit * World :=
  play 60 (env a_job busy_console true late_inventory)
    (scheduleInstallReverify (i_contentId an_install) (js "PS4DP") (i_expected an_install) 60 true) (beginning 0).

(** * The questions *)

(** [useInstallAskStore], its questions told apart by a number, and the answers they got in order. *)
Record AskStore := { hosts : Z; pending : list nat; answered : list (nat * bool) }.
#[export] Instance settable_asks : Settable AskStore := fun s => {| hosts := hosts s; pending := pending s; answered := answered s |}.
Definition resolve (yes : bool) (qs : list nat) (s : AskStore) : AskStore := s <| answered := answered s ++ map (fun q => (q, yes)) qs |>.
Definition askInstall (q : nat) (s : AskStore) : AskStore :=
  if hosts s =? 0 then resolve false [q] s else s <| pending := pending s ++ [q] |>.
Definition answerInstallAsk (yes : bool) (s : AskStore) : AskStore :=
  match pending s with
  | [] => s
  | first :: rest => resolve yes [first] (s <| pending := rest |>)
  end.
Definition registerInstallAskHost (s : AskStore) : AskStore := s <| hosts := hosts s + 1 |>.
Definition unregisterInstallAskHost (s : AskStore) : AskStore :=
  let s := s <| hosts := Z.max 0 (hosts s - 1) |> in
  if hosts s =? 0 then resolve false (pending s) s <| pending := [] |> else s.
Inductive AskEvent := EAsked (q : nat) | EAnswered (yes : bool) | EHost | ENoHost.
Definition ask_event (s : AskStore) (e : AskEvent) : AskStore :=
  match e with
  | EAsked q => askInstall q s
  | EAnswered yes => answerInstallAsk yes s
  | EHost => registerInstallAskHost s
  | ENoHost => unregisterInstallAskHost s
  end.
Definition no_asks : AskStore := {| hosts := 0; pending := []; answered := [] |}.
(** Over any history the questions are answered in the order they were asked, each once; the ones left
    wait for a screen that is there, and nothing is agreed to but by somebody's answer. *)
Lemma questions_answered_in_order evs :
  let s := fold_left ask_event evs no_asks in
  map fst (answered s) ++ pending s = omap (fun e => match e with EAsked q => Some q | _ => None end) evs /\
  0 <= hosts s /\ (hosts s = 0 -> pending s = []) /\
  (length (List.filter snd (answered s)) <= length (List.filter (fun e => match e with EAnswered true => true | _ => false end) evs))%nat.
Proof.
  induction evs as [|e evs (H1 & H0 & H2 & H3)] using rev_ind; [by split_and!; [..|simpl; lia]|]. cbv zeta.
  rewrite fold_left_app, omap_app, !List.filter_app, length_app, <- H1. cbn [fold_left].
  destruct (fold_left ask_event evs no_asks) as [h p a]. simpl in *.
  destruct e as [q|yes| |]; simpl.
  - unfold askInstall. simpl. destruct (Z.eqb_spec h 0) as [->|Hh]; simpl.
    + rewrite (H2 eq_refl), map_app, !app_nil_r, List.filter_app, app_nil_r. split_and!; [done|done|done|lia].
    + rewrite app_assoc. split_and!; [done|lia|by intros ?|lia].
  - unfold answerInstallAsk. simpl. destruct p as [|f p]; simpl; [rewrite !app_nil_r; split_and!; [done|done|done|lia]|].
    rewrite map_app, <- app_assoc, app_nil_r, List.filter_app, length_app. split_and!; [done|done|by intros ?%H2|]. destruct yes; simpl; lia.
  - rewrite app_nil_r. split_and!; [done|lia|lia|lia].
  - unfold unregisterInstallAskHost. simpl. destruct (Z.eqb_spec (Z.max 0 (h - 1)) 0) as [Hh|Hh]; simpl.
    + rewrite map_app, map_map, map_id, !app_nil_r, List.filter_app, length_app. split_and!; [done|lia|done|].
      assert (List.filter snd (map (fun q : nat => (q, false)) p) = []) as -> by (clear; by induction p). simpl. lia.
    + rewrite app_nil_r. split_and!; [done|lia|lia|lia].
Qed.
