(* ===== verification/ArchiveParts.v ===== *)
(** Archives in several parts (client/src/lib/archiveParts.ts, client/src/lib/rarVolumes.ts): which file
    names belong to one set, which file opens it, and what is worth telling about a set before it is
    uploaded. Names are Latin-1; a part's number is exact, where JavaScript's is up to 2^53. *)
From S2P Require Import Prelude Addr FsUploadPlan.

(** * Names *)

(** [toLowerCase()], and how a regular expression with [i] compares these characters. *)
Definition lower (s : str) : str := map lower_latin1 s.
Definition cut_last (c : ascii) (s : str) : option (str * str) :=
  match last_index_of c s with Some i => Some (take i s, drop (S i) s) | None => None end.
Definition is_digits (s : str) : bool := negb (bool_decide (s = [])) && forallb is_digit s.
(** [.*]: no line end. *)
Definition one_line (s : str) : bool := forallb (fun a => negb (is_line_end a)) s.
(** From here on a number is [Infinity]. *)
Definition FINITE : Z := 2 ^ 1024 - 2 ^ 970.

(** * Parts *)

Record ArchivePartInfo := { stem : str; index : Z; ext : str }.
Definition ARCHIVE_EXTS : list str := [js "zip"; js "7z"; js "rar"].
(** [PART_RE], and the part it reads. *)
Definition parseArchivePart (filename : str) : option ArchivePartInfo :=
  match cut_last "." filename with
  | None => None
  | Some (rest, e) =>
      if negb (bool_decide (lower e ∈ ARCHIVE_EXTS)) then None else
      match cut_last "." rest with
      | None => None
      | Some (st, mark) =>
          if bool_decide (lower (take 4 mark) = js "part") && is_digits (drop 4 mark) && one_line st && (parse_dec (drop 4 mark) <? FINITE)
          then Some {| stem := st; index := parse_dec (drop 4 mark); ext := lower e |} else None
      end
  end.
Definition same_set (a b : ArchivePartInfo) : bool :=
  bool_decide (ext a = ext b) && bool_decide (lower (stem a) = lower (stem b)).
(** The first with each number, in order. *)
Fixpoint first_each (seen : list Z) (l : list ArchivePartInfo) : list ArchivePartInfo :=
  match l with
  | [] => []
  | p :: l => if decide (index p ∈ seen) then first_each seen l else p :: first_each (index p :: seen) l
  end.
Definition found_parts (self : ArchivePartInfo) (names : list str) : list ArchivePartInfo :=
  List.filter (fun p => same_set p self) (omap parseArchivePart names).
Definition siblingParts (filename : str) (names : list str) : list ArchivePartInfo :=
  match parseArchivePart filename with
  | None => []
  | Some self =>
      let all := sort_by (fun a b => index a - index b) (first_each [] (found_parts self names)) in
      if (1 <? length all)%nat then all else []
  end.
Definition needsManualPartUploads (filename : str) (names : list str) : bool :=
  match parseArchivePart filename with
  | None => false
  | Some self => negb (bool_decide (ext self = js "rar")) && (1 <? length (siblingParts filename names))%nat
  end.
(** The last separator of a path, and what is before, at and after it. *)
Definition last_sep (p : str) : Z :=
  Z.max (match last_index_of "/" p with Some i => Z.of_nat i | None => -1 end)
        (match last_index_of "\" p with Some i => Z.of_nat i | None => -1 end).
Definition set_number (parts : list ArchivePartInfo) (m : gmap Z str) (n : str) : gmap Z str :=
  match parseArchivePart n with
  | None => m
  | Some info =>
      if existsb (fun p => (index p =? index info) && same_set p info) parts && negb (bool_decide (is_Some (m !! index info)))
      then <[index info := n]> m else m
  end.
Definition siblingPartPaths (selectedPath : str) (names : list str) : list str :=
  let sep := last_sep selectedPath in
  if sep <=? 0 then [] else
  let k := Z.to_nat sep in
  let parts := siblingParts (drop (S k) selectedPath) names in
  let nameByIndex := fold_left (set_number parts) names ∅ in
  map (fun n => take k selectedPath ++ take 1 (drop k selectedPath) ++ n) (omap (fun p => nameByIndex !! index p) parts).
(** Parts of one set, each number once, that are uploaded one after another. *)
Definition isManualPartSet (filenames : list str) : bool :=
  match map parseArchivePart filenames with
  | Some first :: _ =>
      negb (bool_decide (ext first = js "rar")) &&
      forallb (fun p => match p with Some p => same_set p first | None => false end) (map parseArchivePart filenames) &&
      bool_decide (NoDup (omap (fun p => option_map index p) (map parseArchivePart filenames)))
  | _ => false
  end.

(** * Volumes of the formats' own splits *)

Inductive Scheme := Numeric | SZip | SRar.
#[export] Instance scheme_eq_dec : EqDecision Scheme.
Proof. solve_decision. Defined.
Record SplitVolumeInfo := { scheme : Scheme; v_index : Z; entryName : str }.
(** [NUMERIC_SPLIT_RE], [ZIP_VOL_RE] and [RAR_VOL_RE]. The stem's lazy match leaves the format's
    extension to the second group, which [entryName] puts back. *)
Definition numeric_volume (f : str) : option SplitVolumeInfo :=
  match cut_last "." f with
  | Some (rest, ds) =>
      if is_digits ds && (3 <=? length ds)%nat && one_line rest
      then Some {| scheme := Numeric; v_index := parse_dec ds; entryName := rest |} else None
  | None => None
  end.
Definition zip_volume (f : str) : option (str * Z) :=
  match cut_last "." f with
  | Some (st, z :: ds) =>
      if bool_decide (lower_latin1 z = "z"%char) && is_digits ds && (2 <=? length ds)%nat && one_line st
      then Some (st, parse_dec ds) else None
  | _ => None
  end.
Definition rar_volume (f : str) : option SplitVolumeInfo :=
  match cut_last "." f with
  | Some (st, r :: ds) =>
      let c := code (lower_latin1 r) in
      if (114 <=? c) && (c <=? 121) && is_digits ds && (length ds =? 2)%nat && one_line st
      then Some {| scheme := SRar; v_index := (c - 114) * 100 + parse_dec ds; entryName := st ++ js ".rar" |} else None
  | _ => None
  end.
Definition parseSplitVolume (f : str) : option SplitVolumeInfo :=
  match parseArchivePart f with
  | Some _ => None
  | None =>
      match numeric_volume f with
      | Some v => Some v
      | None =>
          match zip_volume f with
          | Some (st, n) => Some {| scheme := SZip; v_index := n; entryName := st ++ js ".zip" |}
          | None => rar_volume f
          end
      end
  end.
(** The stem of a name that ends in [.zip]. *)
Definition zip_stem (f : str) : option str :=
  match cut_last "." f with
  | Some (st, e) => if bool_decide (lower e = js "zip") && one_line st then Some st else None
  | None => None
  end.
Definition disk_of (st n : str) : bool :=
  match zip_volume n with Some (st', _) => bool_decide (lower st' = lower st) | None => false end.
Definition isSpannedZip (f : str) (names : list str) : bool :=
  match zip_stem f with Some st => existsb (disk_of st) names | None => false end.

(** * What to say about a set *)

Inductive ArchiveSetIssue :=
| ManualParts (total : nat)
| MixedExtensions (selectedExt otherExt : str) (otherCount : nat) (missingFirst : option str)
| PickEntryVolume (entry : str)
| SplitUnsupported (s : Scheme) (entry : option str) (volumeCount : nat).
Fixpoint mates_each (seen : list (str * Z)) (l : list ArchivePartInfo) : list ArchivePartInfo :=
  match l with
  | [] => []
  | p :: l => if decide ((ext p, index p) ∈ seen) then mates_each seen l else p :: mates_each ((ext p, index p) :: seen) l
  end.
Definition stemMatesAnyExt (self : ArchivePartInfo) (names : list str) : list ArchivePartInfo :=
  mates_each [] (List.filter (fun p => bool_decide (lower (stem p) = lower (stem self))) (omap parseArchivePart names)).
(** [byExt]: the parts of each format, in the order the formats come up. *)
Definition by_ext (l : list ArchivePartInfo) : list (str * list ArchivePartInfo) := groups (fun p => Some (ext p)) l.
Definition volume_count (vol : SplitVolumeInfo) (names : list str) : nat :=
  length (List.filter (fun n => match parseSplitVolume n with
    | Some v => bool_decide (scheme v = scheme vol) && bool_decide (entryName v = entryName vol) | None => false end) names).
Definition present (names : list str) (f : str) : bool := bool_decide (lower f ∈ map lower names).
Definition volume_issue (vol : SplitVolumeInfo) (names : list str) : option ArchiveSetIssue :=
  if bool_decide (scheme vol = SRar) && present names (entryName vol) then Some (PickEntryVolume (entryName vol)) else
  let n := volume_count vol names in
  if bool_decide (scheme vol = Numeric) && (n <? 2)%nat then None else
  if bool_decide (scheme vol = SRar) && (100 <=? v_index vol) && (n <? 2)%nat then None else
  Some (SplitUnsupported (if decide (scheme vol = SZip) then SZip else Numeric)
          (match entryName vol with [] => None | e => Some e end) n).
Definition mixed_issue (self : ArchivePartInfo) (others : list ArchivePartInfo) : option ArchiveSetIssue :=
  match sort_by (fun a b => Z.of_nat (length b.2) - Z.of_nat (length a.2)) (by_ext others) with
  | [] => None
  | (otherExt, group) :: _ =>
      Some (MixedExtensions (ext self) otherExt (length group)
        (if existsb (fun p => index p =? 1) group then None else Some (stem self ++ js ".part01." ++ otherExt)))
  end.
(** A part's own set. *)
Definition part_issue (f : str) (self : ArchivePartInfo) (names : list str) : option ArchiveSetIssue :=
  match List.filter (fun p => negb (bool_decide (ext p = ext self))) (stemMatesAnyExt self names) with
  | (_ :: _) as others => mixed_issue self others
  | [] => if needsManualPartUploads f names then Some (ManualParts (length (siblingParts f names))) else None
  end.
Definition diagnoseArchiveSet (f : str) (names : list str) : option ArchiveSetIssue :=
  match parseSplitVolume f with
  | Some vol => volume_issue vol names
  | None =>
      if isSpannedZip f names then Some (SplitUnsupported SZip (Some f) (S (length (List.filter (disk_of (zip_stem f ?? [])) names))))
      else match parseArchivePart f with None => None | Some self => part_issue f self names end
  end.

(** * RAR sets in a list *)

Definition dir_of (p : str) : str := lower (take (Z.to_nat (last_sep p + 1)) p).
Definition name_of (p : str) : str := drop (Z.to_nat (last_sep p + 1)) p.
Definition is_rar (p : ArchivePartInfo) : bool := bool_decide (ext p = js "rar").
(** The set a first part opens. *)
Definition first_part (path : str) : option str :=
  match parseArchivePart (name_of path) with
  | Some p => if is_rar p && (index p =? 1) then Some (dir_of path ++ lower (stem p)) else None
  | None => None
  end.
Definition keeps (paths : list str) (path : str) : bool :=
  match parseArchivePart (name_of path) with
  | Some p =>
      if is_rar p then (index p =? 1) || negb (bool_decide (dir_of path ++ lower (stem p) ∈ omap first_part paths)) else true
  | None =>
      match parseSplitVolume (name_of path) with
      | Some v => negb (bool_decide (scheme v = SRar) && bool_decide (dir_of path ++ lower (entryName v) ∈ map lower paths))
      | None => true
      end
  end.
Definition collapseRarVolumes {T} (path : T -> str) (entries : list T) : list T :=
  List.filter (fun e => keeps (map path entries) (path e)) entries.
(** [isRarFirstVolume] and [isRarLaterVolume]. *)
Definition rar_part_number (low : str) : option Z :=
  match cut_last "." low with
  | Some (rest, _) =>
      match cut_last "." rest with
      | Some (_, mark) => if bool_decide (take 4 mark = js "part") && is_digits (drop 4 mark) then Some (parse_dec (drop 4 mark)) else None
      | None => None
      end
  | None => None
  end.
Definition isRarFirstVolume (path : str) : bool :=
  let low := lower (after_last_sep path) in
  if negb (bool_decide (js ".rar" `suffix_of` low)) then false
  else match rar_part_number low with Some n => n =? 1 | None => true end.
Definition isRarLaterVolume (path : str) : bool :=
  bool_decide (js ".rar" `suffix_of` lower (trim path)) && negb (isRarFirstVolume (trim path)).

(** * Reading names *)

Lemma cut_last_Some c s a b : cut_last c s = Some (a, b) <-> s = a ++ c :: b /\ c ∉ b.
Proof.
  unfold cut_last. destruct (last_index_of c s) as [i|] eqn:E.
  - apply last_index_of_Some in E as (Hi & Hn). split.
    + intros [= <- <-]. split; [|done]. symmetry. by apply take_drop_middle.
    + intros [-> Hb]. assert (i = length a) as ->.
      { destruct (Nat.lt_trichotomy i (length a)) as [Hl|[->|Hl]]; [exfalso|done|exfalso].
        - apply Hn. rewrite drop_app_le by lia. apply elem_of_app. right. by left.
        - apply Hb. rewrite lookup_app_r in Hi by lia. destruct (i - length a)%nat as [|j] eqn:Ej; [lia|]. by eapply list_elem_of_lookup_2. }
      by rewrite take_app_length, drop_app_ge, Nat.sub_succ_l, Nat.sub_diag by lia.
  - apply last_index_of_None in E. split; [done|]. intros [-> _]. destruct E. apply elem_of_app. right. by left.
Qed.
Lemma lower_app a b : lower (a ++ b) = lower a ++ lower b.
Proof. apply map_app. Qed.
(** Lower case leaves the dots where they are. *)
Lemma lower_dot a : lower_latin1 a = "."%char <-> a = "."%char.
Proof. destruct a as [[] [] [] [] [] [] [] []]; vm_compute; intuition congruence. Qed.
Lemma lower_no_dot s : "."%char ∉ lower s <-> "."%char ∉ s.
Proof.
  unfold lower. rewrite list_elem_of_fmap. split.
  - intros H Hin. apply H. by exists "."%char.
  - intros H (a & Ha & Hin). symmetry in Ha. apply lower_dot in Ha as ->. done.
Qed.
Lemma lower_digit a : is_digit (lower_latin1 a) = is_digit a.
Proof. by destruct a as [[] [] [] [] [] [] [] []]. Qed.
Lemma lower_digits s : forallb is_digit s = true -> lower s = s.
Proof.
  induction s as [|a s IH]; simpl; [done|]. intros [Ha Hs]%andb_true_iff. unfold lower in *. simpl. rewrite IH by done.
  by rewrite digit_latin1.
Qed.
Lemma is_digits_all s : is_digits s = true -> forallb is_digit s = true /\ s <> [].
Proof. unfold is_digits. intros [H1 H2]%andb_true_iff. bool_prop. done. Qed.
Lemma digits_no_dot s : is_digits s = true -> "."%char ∉ s.
Proof. intros [H _]%is_digits_all Hin. rewrite forallb_elem in H. specialize (H _ Hin). done. Qed.
(** What a part's name is made of. *)
Lemma parseArchivePart_Some f p : parseArchivePart f = Some p <-> exists mark ds e,
  f = stem p ++ js "." ++ mark ++ ds ++ js "." ++ e /\ lower mark = js "part" /\ is_digits ds = true /\ index p = parse_dec ds /\
  ext p = lower e /\ ext p ∈ ARCHIVE_EXTS /\ one_line (stem p) = true /\ index p < FINITE.
Proof.
  unfold parseArchivePart. split.
  - destruct (cut_last "." f) as [[rest e]|] eqn:E1; [|done]. apply cut_last_Some in E1 as [-> He].
    case_bool_decide as Hext; [simpl|done].
    destruct (cut_last "." rest) as [[st mark]|] eqn:E2; [|done]. apply cut_last_Some in E2 as [-> Hm].
    destruct (_ && _ && _ && _) eqn:Ec; [|done]. intros [= <-]. bool_prop.
    exists (take 4 mark), (drop 4 mark), e. simpl. split_and!; try done. change (stem _) with st. rewrite <- app_assoc. f_equal. simpl. f_equal. by rewrite app_assoc, take_drop.
  - intros (mark & ds & e & -> & Hm & Hd & Hi & He & Hin & Ho & Hf).
    assert ("."%char ∉ e) as Hne.
    { apply lower_no_dot. rewrite <- He. unfold ARCHIVE_EXTS in Hin. intros Hx. rewrite !elem_of_cons, elem_of_nil in Hin.
      destruct Hin as [E|[E|[E|[]]]]; rewrite E in Hx; clear -Hx; set_solver. }
    assert ("."%char ∉ mark) as Hnm by (apply lower_no_dot; rewrite Hm; clear; set_solver).
    assert (length mark = 4%nat) as Hl by (rewrite <- (length_map lower_latin1); change (length (lower mark) = 4%nat); by rewrite Hm).
    replace (cut_last "." _) with (Some (stem p ++ js "." ++ mark ++ ds, e)) by (symmetry; apply cut_last_Some; split; [|done]; rewrite <- !app_assoc; done).
    rewrite <- He, bool_decide_true by done. simpl.
    replace (cut_last "." _) with (Some (stem p, mark ++ ds)) by (symmetry; apply cut_last_Some; split; [done|rewrite elem_of_app; intros [?|?]; [done|by apply digits_no_dot in Hd]]).
    rewrite take_app_length', drop_app_length' by done. rewrite Hm, bool_decide_true, Hd, Ho by done. simpl.
    rewrite <- Hi. destruct (Z.ltb_spec (index p) FINITE) as [_|]; [|lia]. by destruct p.
Qed.

(** * The files of a set *)

Lemma first_each_spec seen l :
  NoDup (map index (first_each seen l)) /\ (forall p, p ∈ first_each seen l -> p ∈ l /\ index p ∉ seen) /\
  (forall p, p ∈ l -> index p ∉ seen -> exists q, q ∈ first_each seen l /\ index q = index p).
Proof.
  revert seen. induction l as [|p l IH]; intros seen; simpl; [split_and!; [constructor|set_solver|set_solver]|].
  case_decide as Hd; [destruct (IH seen) as (I1 & I2 & I3)|destruct (IH (index p :: seen)) as (I1 & I2 & I3)]; simpl; split_and!.
  - done.
  - intros q [? ?]%I2. split; [by right|done].
  - intros q [->|Hq]%elem_of_cons Hn; [done|]. by apply I3.
  - constructor; [|done]. rewrite list_elem_of_fmap. intros (q & Hq & Hin). destruct (I2 q Hin) as [_ Hn]. apply Hn. rewrite Hq. left.
  - intros q [->|Hq]%elem_of_cons; [split; [by left|done]|]. destruct (I2 q Hq) as [? Hn]. split; [by right|]. set_solver.
  - intros q [->|Hq]%elem_of_cons Hn; [exists p; split; [by left|done]|].
    destruct (decide (index q = index p)) as [->|Hne]; [exists p; split; [by left|done]|].
    destruct (I3 q Hq) as (r & ? & ?); [set_solver|]. exists r. split; [by right|done].
Qed.
Definition by_number (a b : ArchivePartInfo) : Prop := index a < index b.
(** The parts of [self]'s set, each number once, in the order of the numbers. *)
Lemma sorted_parts self names : let all := sort_by (fun a b => index a - index b) (first_each [] (found_parts self names)) in
  StronglySorted by_number all /\
  (forall p, p ∈ all -> same_set p self = true /\ exists n, n ∈ names /\ parseArchivePart n = Some p) /\
  (forall n p, n ∈ names -> parseArchivePart n = Some p -> same_set p self = true -> exists q, q ∈ all /\ index q = index p).
Proof.
  destruct (first_each_spec [] (found_parts self names)) as (H1 & H2 & H3).
  assert (forall p, p ∈ found_parts self names <-> same_set p self = true /\ exists n, n ∈ names /\ parseArchivePart n = Some p) as Hf.
  { intros p. unfold found_parts. rewrite list_elem_of_In, filter_In, <- list_elem_of_In, list_elem_of_omap. tauto. }
  cbv zeta. set (l := first_each [] _) in *. split_and!.
  - assert (NoDup (map index (sort_by (fun a b => index a - index b) l))) as Hnd by (by rewrite sort_by_perm).
    assert (StronglySorted (fun a b => index a <= index b) (sort_by (fun a b => index a - index b) l)) as Hs.
    { apply (sort_by_sorted _ _ (fun _ => True)); try (intros; lia). by apply Forall_true. }
    induction Hs as [|a s Hs IH Ha]; constructor; apply NoDup_cons in Hnd as [Hn Hnd]; [by apply IH|].
    rewrite Forall_forall in Ha |- *. intros b Hb. specialize (Ha b Hb). unfold by_number.
    assert (index a <> index b); [|lia]. intros E. apply Hn. rewrite E. apply list_elem_of_fmap. by exists b.
  - intros p. rewrite sort_by_perm. intros [Hp _]%H2. by apply Hf.
  - intros n p Hn Hp Hs. destruct (H3 p) as (q & Hq & Hi); [apply Hf; eauto|set_solver|]. exists q. split; [by rewrite sort_by_perm|done].
Qed.
(** The name kept for a number is the first listed of that number. *)
Lemma set_number_lookup parts names m i : fold_left (set_number parts) names m !! i =
  match m !! i with
  | Some n => Some n
  | None => find_first (fun n => match parseArchivePart n with
      | Some info => (index info =? i) && existsb (fun p => (index p =? index info) && same_set p info) parts | None => false end) names
  end.
Proof.
  revert m. induction names as [|n names IH]; intros m; simpl; [by destruct (m !! i)|].
  rewrite IH, find_first_cons. unfold set_number. destruct (parseArchivePart n) as [info|]; [|by destruct (m !! i)].
  destruct (existsb _ parts) eqn:Ep; simpl; [|rewrite andb_false_r; by destruct (m !! i)]. rewrite andb_true_r.
  case_bool_decide as Hm; simpl.
  - destruct (m !! i) eqn:Ei; [done|]. destruct (Z.eqb_spec (index info) i) as [<-|]; [|done]. by destruct Hm as [? ?]; congruence.
  - destruct (Z.eqb_spec (index info) i) as [<-|Hne].
    + rewrite lookup_insert_eq. destruct (m !! index info) eqn:Ei; [by destruct Hm|done].
    + by rewrite lookup_insert_ne.
Qed.
Lemma sep_cases c : is_sep c = true -> c = "/"%char \/ c = "\"%char.
Proof. unfold is_sep, is_char. intros [H|H]%orb_true_iff; bool_prop; tauto. Qed.
Lemma drop_past {A} (l : list A) x k : drop (S (length l)) (l ++ x :: k) = k.
Proof. by rewrite drop_app_ge, Nat.sub_succ_l, Nat.sub_diag by lia. Qed.
Lemma last_sep_at dir c name : is_sep c = true -> existsb is_sep name = false -> last_sep (dir ++ c :: name) = Z.of_nat (length dir).
Proof.
  intros Hc Hn. rewrite existsb_false in Hn. unfold last_sep.
  assert (forall d i, is_sep d = true -> last_index_of d (dir ++ c :: name) = Some i -> (i <= length dir)%nat) as Hle.
  { intros d i Hd (Hi & _)%last_index_of_Some. destruct (decide (i <= length dir)%nat) as [|Hgt]; [done|].
    rewrite lookup_app_r in Hi by lia. destruct (i - length dir)%nat as [|j] eqn:Ej; [lia|]. simpl in Hi.
    rewrite (Hn d) in Hd by (by eapply list_elem_of_lookup_2). done. }
  assert (last_index_of c (dir ++ c :: name) = Some (length dir)) as Hlast.
  { apply last_index_of_Some. split; [by rewrite lookup_app_r, Nat.sub_diag by lia|].
    rewrite drop_past. intros Hin. by rewrite (Hn c Hin) in Hc. }
  destruct (sep_cases c Hc) as [-> | ->]; rewrite Hlast.
  - destruct (last_index_of "\" _) as [j|] eqn:E; [apply Hle in E; [lia|done]|lia].
  - destruct (last_index_of "/" _) as [j|] eqn:E; [apply Hle in E; [lia|done]|lia].
Qed.
Lemma same_set_spec a b : same_set a b = true <-> ext a = ext b /\ lower (stem a) = lower (stem b).
Proof. unfold same_set. rewrite andb_true_iff, !bool_decide_eq_true. done. Qed.

(** [n] is of the set of the file [name]; its number. *)
Definition mate (name n : str) : Prop :=
  exists p q, parseArchivePart name = Some p /\ parseArchivePart n = Some q /\ same_set q p = true.
Definition number (n : str) : Z := match parseArchivePart n with Some p => index p | None => 0 end.
(** A file listed under the number of each part. *)
Lemma named_parts self names parts : (forall p, p ∈ parts -> same_set p self = true /\ exists n, n ∈ names /\ parseArchivePart n = Some p) ->
  Forall2 (fun p n => n ∈ names /\ exists q, parseArchivePart n = Some q /\ same_set q self = true /\ index q = index p) parts
    (omap (fun p => fold_left (set_number parts) names ∅ !! index p) parts).
Proof.
  intros Hp. set (m := fold_left _ _ _). assert (forall p, p ∈ parts -> exists n, m !! index p = Some n /\ n ∈ names /\
    exists q, parseArchivePart n = Some q /\ same_set q self = true /\ index q = index p) as Hm.
  { intros p Hin. destruct (Hp p Hin) as (Hs & n & Hn & Hpn). unfold m. rewrite set_number_lookup, lookup_empty.
    destruct (find_first _ names) as [n'|] eqn:Ef.
    - apply find_first_Some in Ef as [Hn' Hc]. destruct (parseArchivePart n') as [q|] eqn:Eq; [|done].
      apply andb_true_iff in Hc as [Hi (r & Hr & Hc)%existsb_elem]. apply andb_true_iff in Hc as [_ Hc]. apply Z.eqb_eq in Hi.
      exists n'. split; [done|]. split; [done|]. exists q. split; [done|]. split; [|done].
      destruct (Hp r Hr) as [Hrs _]. rewrite same_set_spec in Hc, Hrs |- *. destruct Hc, Hrs. split; congruence.
    - rewrite find_first_None in Ef. specialize (Ef n Hn). rewrite Hpn, Z.eqb_refl in Ef. simpl in Ef.
      rewrite existsb_false in Ef. specialize (Ef p Hin). rewrite Z.eqb_refl in Ef. simpl in Ef.
      assert (same_set p p = true) by (by apply same_set_spec). congruence. }
  assert (forall l, (forall p, p ∈ l -> p ∈ parts) -> Forall2 (fun p n => n ∈ names /\ exists q, parseArchivePart n = Some q /\
    same_set q self = true /\ index q = index p) l (omap (fun p => m !! index p) l)) as Hl; [|by apply Hl].
  induction l as [|p l IH]; intros Hin; simpl; [constructor|].
  destruct (Hm p) as (n & -> & Hn); [apply Hin; by left|]. constructor; [done|]. apply IH. intros r Hr. apply Hin. by right.
Qed.
Lemma sorted_along {A B} (R : A -> B -> Prop) (S : A -> A -> Prop) (T : B -> B -> Prop) l k : Forall2 R l k ->
  (forall a a' b b', R a b -> R a' b' -> S a a' -> T b b') -> StronglySorted S l -> StronglySorted T k.
Proof.
  intros H2 Hmap. induction H2 as [|a b l k Hab H2 IH]; intros Hs; [constructor|].
  apply StronglySorted_inv in Hs as [Hs Ha]. constructor; [by apply IH|]. clear -H2 Hab Ha Hmap.
  induction H2 as [|a' b' l k Hab' H2 IH]; [constructor|]. apply Forall_cons in Ha as [? ?]. constructor; [by eapply Hmap|by apply IH].
Qed.

Lemma mate_self name self n : parseArchivePart name = Some self -> mate name n <-> exists q, parseArchivePart n = Some q /\ same_set q self = true.
Proof. intros Es. unfold mate. rewrite Es. naive_solver. Qed.
Lemma siblings_of dir c name names : is_sep c = true -> existsb is_sep name = false -> dir <> [] ->
  exists ns, siblingPartPaths (dir ++ c :: name) names = map (fun n => dir ++ c :: n) ns /\
    (forall n, n ∈ ns -> n ∈ names /\ mate name n) /\ StronglySorted (fun a b => number a < number b) ns /\
    Forall2 (fun p n => number n = index p) (siblingParts name names) ns.
Proof.
  intros Hc Hn Hd. unfold siblingPartPaths. rewrite last_sep_at by done. destruct (Z.leb_spec (Z.of_nat (length dir)) 0) as [Hz|_]; [by destruct dir|].
  rewrite Nat2Z.id, drop_past, take_app_length, drop_app_length. simpl. eexists. split; [reflexivity|].
  destruct (parseArchivePart name) as [self|] eqn:Es; unfold siblingParts; rewrite Es; [|simpl; split_and!; [by intros ? ?%elem_of_nil|constructor|constructor]].
  destruct (sorted_parts self names) as (Hs & Hin & _). set (all := sort_by _ _) in *.
  destruct (1 <? length all)%nat; [|simpl; split_and!; [by intros ? ?%elem_of_nil|constructor|constructor]].
  pose proof (named_parts self names all Hin) as H2. set (ns := omap _ _) in *. split_and!.
  - intros n Hns. apply list_elem_of_lookup in Hns as (i & Hi). destruct (Forall2_lookup_r _ _ _ _ _ H2 Hi) as (p & _ & ? & q & ? & ? & _).
    split; [done|]. apply (mate_self _ self); eauto.
  - eapply sorted_along; [exact H2| |exact Hs]. intros p p' n n' (_ & q & Hq & _ & Hi) (_ & q' & Hq' & _ & Hi'). unfold by_number, number. rewrite Hq, Hq'. lia.
  - eapply Forall2_impl; [exact H2|]. intros p n (_ & q & Hq & _ & Hi). unfold number. by rewrite Hq.
Qed.
(** The other parts of an archive's set that are offered with it: files of its folder, of the same
    stem and format, in the order of their numbers, each number once; every number of the set is among
    them; and none is offered when the folder holds only one. *)
Theorem set_paths dir c name names : is_sep c = true -> existsb is_sep name = false -> dir <> [] ->
  exists ns, siblingPartPaths (dir ++ c :: name) names = map (fun n => dir ++ c :: n) ns /\
    (forall n, n ∈ ns -> n ∈ names /\ mate name n) /\
    StronglySorted (fun a b => number a < number b) ns /\
    (ns <> [] -> forall n, n ∈ names -> mate name n -> exists n', n' ∈ ns /\ number n' = number n) /\
    (ns = [] <-> forall a b, a ∈ names -> b ∈ names -> mate name a -> mate name b -> number a = number b).
Proof.
  intros Hc Hn Hd. destruct (siblings_of dir c name names Hc Hn Hd) as (ns & Hp & Hin & Hs & H2). exists ns. split; [done|]. split; [done|]. split; [done|].
  clear Hp Hin Hs. unfold siblingParts in H2. destruct (parseArchivePart name) as [self|] eqn:Es.
  2: { apply Forall2_nil_inv_l in H2 as ->. split; [done|]. split; [|done]. intros _ a b _ _ (p & q & ? & _). congruence. }
  pose proof (fun n => mate_self name self n Es) as Hmate.
  destruct (sorted_parts self names) as (Hs & Hin & Hall). set (all := sort_by _ _) in *. split.
  - intros Hne n Hnn (q & Hq & Hqs)%Hmate. destruct (Hall n q Hnn Hq Hqs) as (p & Hp & Hpi).
    destruct (1 <? length all)%nat; [|by apply Forall2_nil_inv_l in H2]. apply list_elem_of_lookup in Hp as (i & Hi).
    destruct (Forall2_lookup_l _ _ _ _ _ H2 Hi) as (n' & Hn' & Hnum). exists n'. split; [by eapply list_elem_of_lookup_2|].
    rewrite Hnum, Hpi. unfold number. by rewrite Hq.
  - transitivity ((1 <? length all)%nat = false).
    { destruct (1 <? length all)%nat eqn:El; split; try done; [|by apply Forall2_nil_inv_l in H2].
      intros ->. apply Forall2_nil_inv_r in H2. by rewrite H2 in El. }
    split.
    + intros Hl%Nat.ltb_ge a b Ha Hb (p & Hp & Hps)%Hmate (q & Hq & Hqs)%Hmate. unfold number. rewrite Hp, Hq.
      destruct (Hall a p Ha Hp Hps) as (p' & Hp' & <-). destruct (Hall b q Hb Hq Hqs) as (q' & Hq' & <-).
      destruct all as [|x [|]]; [by apply elem_of_nil in Hp'| |simpl in Hl; lia]. rewrite list_elem_of_singleton in Hp', Hq'. congruence.
    + intros He. apply Nat.ltb_ge. destruct all as [|x [|y l]]; simpl; [lia|lia|exfalso].
      apply StronglySorted_inv in Hs as [_ (Hxy & _)%Forall_cons]. unfold by_number in Hxy.
      destruct (Hin x) as (Hsx & nx & Hnx & Hpx); [by left|]. destruct (Hin y) as (Hsy & ny & Hny & Hpy); [by right; left|].
      specialize (He nx ny Hnx Hny). unfold number in He. rewrite Hpx, Hpy in He. rewrite He in Hxy; [lia|apply Hmate; eauto..].
Qed.
(** Files that are parts of one set, no number twice, and not volumes UnRAR follows by itself. *)
Lemma isManualPartSet_spec ns : isManualPartSet ns = true <->
  ns <> [] /\ NoDup (map number ns) /\ exists self, ext self <> js "rar" /\
    forall n, n ∈ ns -> exists p, parseArchivePart n = Some p /\ same_set p self = true.
Proof.
  assert (forall ns, (forall n, n ∈ ns -> exists p, parseArchivePart n = Some p) ->
    omap (fun p => option_map index p) (map parseArchivePart ns) = map number ns) as Hnum.
  { clear. induction ns as [|n ns IH]; intros H; [done|]. destruct (H n) as (p & Hp); [by left|]. unfold number at 1. simpl. rewrite Hp. simpl.
    f_equal. apply IH. intros m Hm. apply H. by right. }
  unfold isManualPartSet. split.
  - destruct ns as [|n ns]; [done|]. simpl map at 1. destruct (parseArchivePart n) as [self|] eqn:En; [|done].
    intros [[Hr Ha]%andb_true_iff Hd]%andb_true_iff. bool_prop. rewrite forallb_elem in Ha. split; [done|].
    assert (forall m, m ∈ n :: ns -> exists p, parseArchivePart m = Some p /\ same_set p self = true) as Hall.
    { intros m Hm. specialize (Ha (parseArchivePart m)). destruct (parseArchivePart m) as [p|] eqn:Em.
      - exists p. split; [done|]. apply Ha. apply list_elem_of_fmap. by exists m.
      - discriminate Ha. apply list_elem_of_fmap. by exists m. }
    split; [|by eauto]. rewrite Hnum in Hd; [done|]. intros m Hm. destruct (Hall m Hm) as (p & ? & _). eauto.
  - intros (Hne & Hn & self & Hr & Hall). assert (forall m, m ∈ ns -> exists p, parseArchivePart m = Some p) as Hp.
    { intros m Hm. destruct (Hall m Hm) as (p & ? & _). eauto. }
    rewrite Hnum by done. destruct ns as [|n ns]; [done|]. destruct (Hall n) as (p0 & E0 & S0); [by left|]. simpl map at 1. rewrite E0.
    apply same_set_spec in S0 as [S0 L0]. rewrite !andb_true_iff, negb_true_iff, bool_decide_eq_false, bool_decide_eq_true, forallb_elem.
    split; [split; [by rewrite S0|]|done]. intros o (m & -> & Hm)%list_elem_of_fmap. destruct (Hall m Hm) as (p & -> & [Sp Lp]%same_set_spec).
    apply same_set_spec. split; congruence.
Qed.

(** * What a list of files keeps of a RAR set *)

Lemma lower_sep a : is_sep (lower_latin1 a) = is_sep a.
Proof. by destruct a as [[] [] [] [] [] [] [] []]. Qed.
Lemma lower_no_sep s : existsb is_sep (lower s) = existsb is_sep s.
Proof. unfold lower. induction s as [|a s IH]; simpl; [done|]. by rewrite lower_sep, IH. Qed.
(** A path is its folder and its name: nothing, or what ends with a separator; then none. *)
Definition is_dir (d : str) : Prop := d = [] \/ exists d' c, d = d' ++ [c] /\ is_sep c = true.
Lemma path_parts p : p = take (Z.to_nat (last_sep p + 1)) p ++ name_of p /\ is_dir (take (Z.to_nat (last_sep p + 1)) p) /\
  existsb is_sep (name_of p) = false.
Proof.
  unfold name_of. split; [by rewrite take_drop|].
  destruct (existsb is_sep p) eqn:E.
  - assert (exists d c n, p = d ++ c :: n /\ is_sep c = true /\ existsb is_sep n = false) as (d & c & n & -> & Hc & Hn).
    { clear -E. induction p as [|a p IH]; simpl in E; [done|]. destruct (existsb is_sep p) eqn:Ep.
      - destruct IH as (d & c & n & -> & ? & ?); [done|]. exists (a :: d), c, n. done.
      - rewrite orb_false_r in E. exists [], a, p. done. }
    rewrite last_sep_at by done. replace (Z.to_nat (Z.of_nat (length d) + 1)) with (S (length d)) by lia.
    rewrite drop_past. split; [|done]. right. exists d, c. split; [|done].
    rewrite take_app_ge, Nat.sub_succ_l, Nat.sub_diag by lia. done.
  - assert (last_sep p = -1) as ->.
    { rewrite existsb_false in E. unfold last_sep. destruct (last_index_of "/" p) as [i|] eqn:E1.
      { apply last_index_of_Some in E1 as [Hi _]. by specialize (E _ (list_elem_of_lookup_2 _ _ _ Hi)). }
      destruct (last_index_of "\" p) as [i|] eqn:E2; [|done]. apply last_index_of_Some in E2 as [Hi _]. by specialize (E _ (list_elem_of_lookup_2 _ _ _ Hi)). }
    split; [by left|done].
Qed.
Lemma dir_split d n d' n' : is_dir d -> is_dir d' -> existsb is_sep n = false -> existsb is_sep n' = false ->
  d ++ n = d' ++ n' -> d = d' /\ n = n'.
Proof.
  intros Hd Hd' Hn Hn' E. enough (length d = length d') as Hl by (by apply app_inj_1).
  assert (forall d n d' n', is_dir d -> existsb is_sep n' = false -> d ++ n = d' ++ n' -> (length d <= length d')%nat) as Hle; [|apply Nat.le_antisymm; eauto].
  clear. intros d n d' n' [->|(d0 & c & -> & Hc)] Hn' E; [simpl; lia|]. rewrite length_app. simpl.
  destruct (decide (length d0 < length d')%nat) as [|Hge]; [lia|exfalso]. rewrite existsb_false in Hn'. rewrite (Hn' c) in Hc; [done|].
  assert ((d' ++ n') !! length d0 = Some c) as Hi by (rewrite <- E, <- app_assoc, lookup_app_r, Nat.sub_diag by lia; done).
  rewrite lookup_app_r in Hi by lia. by eapply list_elem_of_lookup_2.
Qed.
Lemma is_dir_of p : is_dir (dir_of p).
Proof.
  destruct (path_parts p) as (_ & [H|(d & c & H & Hc)] & _); unfold dir_of; rewrite H; [by left|right].
  exists (lower d), (lower_latin1 c). rewrite lower_app, lower_sep. done.
Qed.
Lemma lower_path p : lower p = dir_of p ++ lower (name_of p).
Proof. unfold dir_of. rewrite <- lower_app. by rewrite <- (proj1 (path_parts p)). Qed.
Lemma name_no_sep p : existsb is_sep (lower (name_of p)) = false.
Proof. rewrite lower_no_sep. apply path_parts. Qed.
Lemma existsb_app_false {A} (f : A -> bool) a b : existsb f (a ++ b) = false <-> existsb f a = false /\ existsb f b = false.
Proof. rewrite existsb_app, orb_false_iff. done. Qed.
(** The stem of a part, and of a volume's opening file, has no separator either. *)
Lemma stem_no_sep p a : parseArchivePart (name_of p) = Some a -> existsb is_sep (lower (stem a)) = false.
Proof.
  intros (mark & ds & e & H & _)%parseArchivePart_Some. pose proof (proj2 (proj2 (path_parts p))) as Hn. rewrite H in Hn.
  apply existsb_app_false in Hn as [Hn _]. by rewrite lower_no_sep.
Qed.
Lemma rar_volume_Some f v : parseSplitVolume f = Some v -> scheme v = SRar -> exists st e, f = st ++ e /\ entryName v = st ++ js ".rar".
Proof.
  unfold parseSplitVolume. destruct (parseArchivePart f); [done|]. destruct (numeric_volume f) as [w|] eqn:En.
  { unfold numeric_volume in En. destruct (cut_last "." f) as [[rest ds]|]; [|done]. destruct (_ && _ && _); [|done]. by intros [= <-]; simplify_eq. }
  destruct (zip_volume f) as [[st n]|]; [by intros [= <-]|]. unfold rar_volume. destruct (cut_last "." f) as [[st [|r ds]]|] eqn:Ec; [done| |done].
  apply cut_last_Some in Ec as [-> _]. destruct (_ && _ && _ && _ && _); [|done]. intros [= <-] _. by exists st, ("."%char :: r :: ds).
Qed.
Lemma entry_no_sep p v : parseSplitVolume (name_of p) = Some v -> scheme v = SRar -> existsb is_sep (lower (entryName v)) = false.
Proof.
  intros Hv Hs. destruct (rar_volume_Some _ _ Hv Hs) as (st & e & H & ->). pose proof (proj2 (proj2 (path_parts p))) as Hn. rewrite H in Hn.
  apply existsb_app_false in Hn as [Hn _]. rewrite lower_app, existsb_app, lower_no_sep, Hn. done.
Qed.

(** UnRAR goes from [q] on to [p]: the first part of its set, or the file its volumes belong to. *)
Inductive opened_by (p q : str) : Prop :=
| by_first_part a b : parseArchivePart (name_of p) = Some a -> parseArchivePart (name_of q) = Some b -> ext a = js "rar" -> ext b = js "rar" ->
    index b = 1 -> dir_of p = dir_of q -> lower (stem a) = lower (stem b) -> opened_by p q
| by_entry v : parseSplitVolume (name_of p) = Some v -> scheme v = SRar -> dir_of p = dir_of q -> lower (name_of q) = lower (entryName v) -> opened_by p q.

Lemma first_part_Some q k : first_part q = Some k <-> exists b, parseArchivePart (name_of q) = Some b /\ ext b = js "rar" /\ index b = 1 /\ k = dir_of q ++ lower (stem b).
Proof.
  unfold first_part, is_rar. destruct (parseArchivePart (name_of q)) as [b|]; [|naive_solver].
  destruct (bool_decide (ext b = js "rar")) eqn:E1; bool_prop; simpl; [|naive_solver].
  destruct (Z.eqb_spec (index b) 1); naive_solver.
Qed.
(** A file is left out exactly when it is no first part and one of the list opens it. *)
Lemma keeps_false paths p : keeps paths p = false <-> first_part p = None /\ exists q, q ∈ paths /\ opened_by p q.
Proof.
  unfold keeps. destruct (parseArchivePart (name_of p)) as [a|] eqn:Ea.
  - unfold is_rar. destruct (bool_decide (ext a = js "rar")) eqn:Er; bool_prop.
    + rewrite orb_false_iff, negb_false_iff, bool_decide_eq_true. apply Morphisms_Prop.and_iff_morphism.
      * rewrite Z.eqb_neq. destruct (first_part p) as [k|] eqn:Ef; [apply first_part_Some in Ef; naive_solver|].
        split; [done|]. intros _ Hi. enough (first_part p = Some (dir_of p ++ lower (stem a))) by congruence. apply first_part_Some. eauto.
      * rewrite list_elem_of_omap. split.
        -- intros (q & Hq & (b & Hb & Hrb & Hi & Hk)%first_part_Some). apply dir_split in Hk as [Hd Hs]; [|apply is_dir_of..|by eapply stem_no_sep|by eapply stem_no_sep].
           exists q. split; [done|]. by eapply by_first_part.
        -- intros (q & Hq & [a' b Ha' Hb _ Hrb Hi Hd Hs|v Hv]); [|unfold parseSplitVolume in Hv; by rewrite Ea in Hv]. simplify_eq.
           exists q. split; [done|]. apply first_part_Some. exists b. by rewrite Hd, Hs.
    + split; [done|]. intros (_ & q & _ & [a' b Ha' _ Hra _ _ _ _|v Hv]); [congruence|]. unfold parseSplitVolume in Hv. by rewrite Ea in Hv.
  - assert (first_part p = None) as -> by (unfold first_part; by rewrite Ea).
    destruct (parseSplitVolume (name_of p)) as [v|] eqn:Ev.
    + rewrite negb_false_iff, andb_true_iff, !bool_decide_eq_true, list_elem_of_fmap. split.
      * intros (Hs & q & Hk & Hq). rewrite (lower_path q) in Hk. apply dir_split in Hk as [Hd Hl]; [|apply is_dir_of..|by eapply entry_no_sep|apply name_no_sep].
        split; [done|]. exists q. split; [done|]. by eapply by_entry.
      * intros (_ & q & Hq & [a' b Ha' _ _ _ _ _ _|w Hw Hs Hd Hl]); [congruence|]. simplify_eq. split; [done|]. exists q. split; [|done].
        by rewrite (lower_path q), Hd, Hl.
    + split; [done|]. intros (_ & q & _ & [a' b Ha' _ _ _ _ _ _|w Hw _ _ _]); congruence.
Qed.
Lemma kept_iff {T} (path : T -> str) entries e : e ∈ collapseRarVolumes path entries <-> e ∈ entries /\ keeps (map path entries) (path e) = true.
Proof. unfold collapseRarVolumes. by rewrite list_elem_of_In, filter_In, <- list_elem_of_In. Qed.
(** What opens a set by its name is no volume of the old kind itself. *)
Lemma rar_no_volume p v st : parseSplitVolume (name_of p) = Some v -> scheme v = SRar -> lower (name_of p) = st ++ js ".rar" -> False.
Proof.
  unfold parseSplitVolume. destruct (parseArchivePart _); [done|]. destruct (numeric_volume _) as [w|] eqn:En.
  { unfold numeric_volume in En. destruct (cut_last "." _) as [[rest ds]|]; [|done]. destruct (_ && _ && _); [|done]. by intros [= <-]; simplify_eq. }
  destruct (zip_volume _) as [[? n]|]; [by intros [= <-]|]. unfold rar_volume. destruct (cut_last "." _) as [[st' [|r ds]]|] eqn:Ec; [done| |done].
  apply cut_last_Some in Ec as [-> Hn]. destruct (is_digits ds) eqn:Ed; [|by rewrite andb_false_r]. intros _ _. rewrite lower_app. intros H.
  apply is_digits_all in Ed as [Ed _].
  assert (forall a b, length (lower (r :: ds)) = length b -> a ++ lower (r :: ds) = st ++ b -> lower (r :: ds) = b) as Hcut by (intros a b Hl E; by apply app_inj_2 in E as [_ ?]).
  assert ("."%char ∉ lower (r :: ds)) as Hdot by by apply lower_no_dot.
  change (lower ("."%char :: r :: ds)) with (["."%char] ++ lower (r :: ds)) in H. rewrite app_assoc in H.
  assert (cut_last "." ((lower st' ++ ["."%char]) ++ lower (r :: ds)) = Some (lower st', lower (r :: ds))) as H1 by (apply cut_last_Some; by rewrite <- app_assoc).
  assert (cut_last "." (st ++ js ".rar") = Some (st, js "rar")) as H2 by (apply cut_last_Some; split; [done|clear; set_solver]).
  rewrite H, H2 in H1. injection H1 as _ _ Hd. change (js "ar" = lower ds) in Hd. rewrite lower_digits in Hd by done.
  by rewrite <- Hd in Ed.
Qed.
(** A list of picked files keeps, in their order, all but the later volumes of the RAR sets it opens
    anyway: a file stays exactly when it is a first part or no file of the list opens it; and whatever is
    left out is opened, directly or through another volume, by a file that stays. *)
Theorem collapse_keeps_openers {T} (path : T -> str) (entries : list T) : let kept := collapseRarVolumes path entries in
  kept `sublist_of` entries /\
  (forall e, e ∈ kept <-> e ∈ entries /\ (first_part (path e) <> None \/ forall o, o ∈ entries -> ~ opened_by (path e) (path o))) /\
  (forall e, e ∈ entries -> e ∉ kept -> exists o, o ∈ kept /\ tc opened_by (path e) (path o)).
Proof.
  cbv zeta. assert (forall e, e ∈ entries -> e ∈ collapseRarVolumes path entries \/
    (first_part (path e) = None /\ exists o, o ∈ entries /\ opened_by (path e) (path o))) as Hout.
  { intros e He. destruct (keeps (map path entries) (path e)) eqn:Ek; [left; by apply kept_iff|right].
    apply keeps_false in Ek as (Hf & q & (o & -> & Ho)%list_elem_of_fmap & Hop). eauto. }
  split; [apply filter_sublist|]. split.
  - intros e. rewrite kept_iff. split; intros [He Hk]; (split; [done|]).
    + destruct (first_part (path e)) eqn:Ef; [by left|right]. intros o Ho Hop. enough (keeps (map path entries) (path e) = false) by congruence.
      apply keeps_false. split; [done|]. exists (path o). split; [apply list_elem_of_fmap; eauto|done].
    + apply not_false_is_true. intros (Hf & q & (o & -> & Ho)%list_elem_of_fmap & Hop)%keeps_false. naive_solver.
  - intros e He Hn. destruct (Hout e He) as [|(_ & o & Ho & Hop)]; [done|].
    destruct (Hout o Ho) as [Hko|(Hfo & o' & Ho' & Hop')]; [exists o; split; [done|]; by apply tc_once|]. exists o'. split; [|by eapply tc_l, tc_once].
    apply kept_iff. split; [done|]. apply not_false_is_true. intros (Hf & _)%keeps_false. destruct Hop' as [a b Ha Hb Hra Hrb Hi Hd Hs|v Hv Hs Hd Hl].
    + enough (first_part (path o') = Some (dir_of (path o') ++ lower (stem b))) by congruence. apply first_part_Some. eauto.
    + destruct Hop as [a b Ha Hb Hra Hrb Hi Hd' Hs'|w Hw Hs' Hd' Hl'].
      * enough (first_part (path o) = Some (dir_of (path o) ++ lower (stem b))) by congruence. apply first_part_Some. eauto.
      * destruct (rar_volume_Some _ _ Hw Hs') as (st & ext & _ & E). rewrite E, lower_app in Hl'. by eapply (rar_no_volume (path o)).
Qed.

(** * What is said about a part's set *)

(** The numbers of the parts of [self]'s stem in the format [e]. *)
Definition numbers_of (self : ArchivePartInfo) (names : list str) (e : str) : gset Z :=
  list_to_set (map index (List.filter (fun p => bool_decide (ext p = e /\ lower (stem p) = lower (stem self))) (omap parseArchivePart names))).
Lemma elem_of_numbers self names e i : i ∈ numbers_of self names e <->
  exists n p, n ∈ names /\ parseArchivePart n = Some p /\ ext p = e /\ lower (stem p) = lower (stem self) /\ index p = i.
Proof.
  unfold numbers_of. rewrite elem_of_list_to_set, list_elem_of_fmap. setoid_rewrite list_elem_of_In. setoid_rewrite filter_In.
  setoid_rewrite bool_decide_eq_true. setoid_rewrite <- list_elem_of_In. setoid_rewrite list_elem_of_omap. naive_solver.
Qed.
Lemma mates_each_spec seen l :
  NoDup (map (fun p => (ext p, index p)) (mates_each seen l)) /\
  (forall p, p ∈ mates_each seen l -> p ∈ l /\ (ext p, index p) ∉ seen) /\
  (forall p, p ∈ l -> (ext p, index p) ∉ seen -> exists q, q ∈ mates_each seen l /\ ext q = ext p /\ index q = index p).
Proof.
  revert seen. induction l as [|p l IH]; intros seen; simpl; [split_and!; [constructor|set_solver|set_solver]|].
  case_decide as Hd; [destruct (IH seen) as (I1 & I2 & I3)|destruct (IH ((ext p, index p) :: seen)) as (I1 & I2 & I3)]; simpl; split_and!.
  - done.
  - intros q [? ?]%I2. split; [by right|done].
  - intros q [->|Hq]%elem_of_cons Hn; [done|]. by apply I3.
  - constructor; [|done]. rewrite list_elem_of_fmap. intros (q & Hq & Hin). destruct (I2 q Hin) as [_ Hn]. apply Hn. rewrite <- Hq. left.
  - intros q [->|Hq]%elem_of_cons; [split; [by left|done]|]. destruct (I2 q Hq) as [? Hn]. split; [by right|]. set_solver.
  - intros q [->|Hq]%elem_of_cons Hn; [exists p; split; [by left|done]|].
    destruct (decide ((ext q, index q) = (ext p, index p))) as [[= -> ->]|Hne]; [exists p; split; [by left|done]|].
    destruct (I3 q Hq) as (r & ? & ?); [set_solver|]. exists r. split; [by right|done].
Qed.
Lemma size_of_numbers l (s : gset Z) : NoDup (map index l) -> (forall i, i ∈ s <-> exists p, p ∈ l /\ index p = i) -> length l = base.size s.
Proof.
  intros Hn Hs. rewrite <- (length_map index l). rewrite <- (size_list_to_set (C := gset Z)) by done. f_equal.
  apply set_eq. intros i. rewrite Hs, elem_of_list_to_set, list_elem_of_fmap. naive_solver.
Qed.
(** The other formats' parts of a stem, a group for each format, as many as it has numbers. *)
Lemma mates_by_ext self names e g : (e, g) ∈ by_ext (List.filter (fun p => negb (bool_decide (ext p = ext self))) (stemMatesAnyExt self names)) <->
  e <> ext self /\ g <> [] /\ g = List.filter (fun p => bool_decide (ext p = e)) (stemMatesAnyExt self names).
Proof.
  unfold by_ext. rewrite groups_spec. assert (forall l, List.filter (fun p => bool_decide (Some (ext p) = Some e)) (List.filter (fun p => negb (bool_decide (ext p = ext self))) l) =
    if decide (e = ext self) then [] else List.filter (fun p => bool_decide (ext p = e)) l) as H.
  { induction l as [|p l IH]; simpl; [by case_decide|]. destruct (decide (ext p = ext self)) as [Hp|Hp].
    - rewrite (bool_decide_true _ Hp). simpl. rewrite IH. case_decide; [done|]. by rewrite bool_decide_false by congruence.
    - rewrite (bool_decide_false _ Hp). simpl. rewrite IH. destruct (decide (ext p = e)) as [<-|Hne].
      + rewrite decide_False by done. rewrite !bool_decide_true by done. by rewrite decide_False.
      + rewrite !bool_decide_false by congruence. done. }
  rewrite H. case_decide; naive_solver.
Qed.
Lemma mates_number self names e : length (List.filter (fun p => bool_decide (ext p = e)) (stemMatesAnyExt self names)) = base.size (numbers_of self names e) /\
  forall i, i ∈ numbers_of self names e <-> exists p, p ∈ List.filter (fun p => bool_decide (ext p = e)) (stemMatesAnyExt self names) /\ index p = i.
Proof.
  unfold stemMatesAnyExt. set (l := List.filter _ (omap _ names)). destruct (mates_each_spec [] l) as (H1 & H2 & H3).
  assert (forall i, i ∈ numbers_of self names e <-> exists p, p ∈ List.filter (fun p => bool_decide (ext p = e)) (mates_each [] l) /\ index p = i) as Hi.
  { intros i. rewrite elem_of_numbers. setoid_rewrite list_elem_of_In. setoid_rewrite filter_In. setoid_rewrite bool_decide_eq_true. setoid_rewrite <- list_elem_of_In.
    assert (forall p, p ∈ l <-> lower (stem p) = lower (stem self) /\ exists n, n ∈ names /\ parseArchivePart n = Some p) as Hl.
    { intros p. unfold l. rewrite list_elem_of_In, filter_In, bool_decide_eq_true, <- list_elem_of_In, list_elem_of_omap. tauto. }
    split.
    - intros (n & p & Hn & Hp & <- & Hs & <-). destruct (H3 p) as (q & Hq & He & Hx); [apply Hl; eauto|set_solver|]. exists q. auto.
    - intros (p & [[(Hs & n & Hn & Hp)%Hl _]%H2 <-] & <-). eauto 10. }
  split; [|done]. apply size_of_numbers; [|done]. clear -H1. induction (mates_each [] l) as [|p k IH]; simpl; [constructor|].
  apply NoDup_cons in H1 as [Hn H1]. case_bool_decide as He; [|by apply IH]. simpl. constructor; [|by apply IH].
  intros (q & Hq & [Hin Hqe%bool_decide_eq_true]%list_elem_of_In%filter_In)%list_elem_of_fmap. apply Hn, list_elem_of_fmap. exists q.
  split; [by rewrite He, Hq, Hqe|]. by apply list_elem_of_In.
Qed.
Lemma sibling_count f self names : parseArchivePart f = Some self ->
  let n := base.size (numbers_of self names (ext self)) in length (siblingParts f names) = if (1 <? n)%nat then n else 0%nat.
Proof.
  intros Hf. cbv zeta. unfold siblingParts. rewrite Hf. destruct (sorted_parts self names) as (Hs & Hin & Hall). set (all := sort_by _ _) in *.
  assert (length all = base.size (numbers_of self names (ext self))) as <-; [|by destruct (1 <? length all)%nat].
  apply size_of_numbers.
  - clear -Hs. induction Hs as [|p l Hs IH Hp]; simpl; constructor; [|done]. intros (q & Hq & Hin)%list_elem_of_fmap.
    rewrite Forall_forall in Hp. specialize (Hp q Hin). unfold by_number in Hp. lia.
  - intros i. rewrite elem_of_numbers. split.
    + intros (n & p & Hn & Hp & He & Hl & <-). destruct (Hall n p Hn Hp) as (q & Hq & Hi); [by apply same_set_spec|eauto].
    + intros (p & Hp & <-). destruct (Hin p Hp) as ([He Hl]%same_set_spec & n & Hn & Hpn). exists n, p. done.
Qed.
Lemma mixed_issue_spec self names others : others = List.filter (fun p => negb (bool_decide (ext p = ext self))) (stemMatesAnyExt self names) -> others <> [] ->
  exists other n missing, mixed_issue self others = Some (MixedExtensions (ext self) other n missing) /\ other <> ext self /\
    n = base.size (numbers_of self names other) /\ n <> 0%nat /\ (forall e, e <> ext self -> (base.size (numbers_of self names e) <= n)%nat) /\
    missing = if decide (1 ∈ numbers_of self names other) then None else Some (stem self ++ js ".part01." ++ other).
Proof.
  intros Ho Hne. unfold mixed_issue. set (cmp := fun a b : str * list ArchivePartInfo => Z.of_nat (length b.2) - Z.of_nat (length a.2)).
  assert (forall e g, (e, g) ∈ sort_by cmp (by_ext others) <-> e <> ext self /\ g <> [] /\ g = List.filter (fun p => bool_decide (ext p = e)) (stemMatesAnyExt self names)) as Hin.
  { intros e g. rewrite sort_by_perm, Ho. apply mates_by_ext. }
  assert (StronglySorted (fun a b : str * list ArchivePartInfo => length b.2 <= length a.2)%nat (sort_by cmp (by_ext others))) as Hs.
  { apply (sort_by_sorted _ _ (fun _ => True)); unfold cmp; try (intros; lia). by apply Forall_true. }
  destruct (sort_by cmp (by_ext others)) as [|[other group] rest].
  - exfalso. destruct others as [|p l]; [done|]. assert (p ∈ p :: l) as Hp by by left. rewrite Ho in Hp.
    apply list_elem_of_In, filter_In in Hp as [Hp%list_elem_of_In Hpe%negb_true_iff%bool_decide_eq_false].
    assert (p ∈ List.filter (fun q => bool_decide (ext q = ext p)) (stemMatesAnyExt self names)) as Hp' by (apply list_elem_of_In, filter_In; split; [by apply list_elem_of_In|by apply bool_decide_true]).
    apply (elem_of_nil (ext p, List.filter (fun q => bool_decide (ext q = ext p)) (stemMatesAnyExt self names))), Hin.
    split_and!; [done| |reflexivity]. intros E. rewrite E in Hp'. by apply elem_of_nil in Hp'.
  - destruct (proj1 (Hin other group)) as (Hoe & Hg & Hgeq); [by left|]. destruct (mates_number self names other) as [Hlen Hel]. rewrite <- Hgeq in Hlen, Hel.
    eexists _, _, _. split; [reflexivity|]. split; [done|]. split; [done|]. split; [by destruct group|]. split.
    + intros e He. destruct (mates_number self names e) as [Hle _]. rewrite <- Hle. clear Hle. set (g := List.filter (fun p => bool_decide (ext p = e)) _).
      destruct (decide (g = [])) as [Hg0|Hgn]; [rewrite Hg0; simpl; lia|]. assert ((e, g) ∈ (other, group) :: rest) as Heg by by apply Hin.
      apply elem_of_cons in Heg as [[= _ Hgg]|Heg]; [by rewrite Hgg|]. apply StronglySorted_inv in Hs as [_ Hs]. rewrite Forall_forall in Hs. apply (Hs (e, g) Heg).
    + destruct (existsb _ group) eqn:Ex.
      * rewrite decide_True; [done|]. apply Hel. apply existsb_elem in Ex as (p & Hp & Hi%Z.eqb_eq). eauto.
      * rewrite decide_False; [done|]. rewrite Hel. intros (p & Hp & Hi). rewrite existsb_false in Ex. specialize (Ex p Hp). by rewrite Hi in Ex.
Qed.
(** What is said about a part that is uploaded alone: other formats first, the one with most parts; then
    a zip or 7z set, whose parts are sent one by one; and nothing otherwise. *)
Lemma set_diagnosis f names self : parseArchivePart f = Some self -> isSpannedZip f names = false ->
  let parts := numbers_of self names in
  match diagnoseArchiveSet f names with
  | Some (MixedExtensions own other n missing) => own = ext self /\ other <> own /\ n = base.size (parts other) /\ n <> 0%nat /\
      (forall e, e <> own -> (base.size (parts e) <= n)%nat) /\
      missing = if decide (1 ∈ parts other) then None else Some (stem self ++ js ".part01." ++ other)
  | Some (ManualParts n) => (forall e, e <> ext self -> parts e = ∅) /\ ext self <> js "rar" /\ n = base.size (parts (ext self)) /\ (2 <= n)%nat
  | None => (forall e, e <> ext self -> parts e = ∅) /\ (ext self = js "rar" \/ (base.size (parts (ext self)) <= 1)%nat)
  | _ => False
  end.
Proof.
  intros Hf Hz. cbv zeta. unfold diagnoseArchiveSet, parseSplitVolume. rewrite Hf, Hz. unfold part_issue.
  remember (List.filter _ (stemMatesAnyExt self names)) as others eqn:Ho. destruct others as [|p others].
  - assert (forall e, e <> ext self -> numbers_of self names e = ∅) as Hno.
    { intros e He. apply leibniz_equiv, size_empty_inv. destruct (mates_number self names e) as [Hlen _]. rewrite <- Hlen. change 0%nat with (@length ArchivePartInfo []). f_equal.
      destruct (List.filter (fun p => bool_decide (ext p = e)) _) as [|p l] eqn:El; [done|exfalso].
      assert (p ∈ p :: l) as Hp by by left. rewrite <- El in Hp. apply list_elem_of_In, filter_In in Hp as [Hp Hpe%bool_decide_eq_true].
      assert (In p []) as []. rewrite Ho. apply filter_In. split; [done|]. by rewrite Hpe, bool_decide_false. }
    unfold needsManualPartUploads. rewrite Hf, (sibling_count f self names Hf).
    destruct (decide (ext self = js "rar")) as [Hr|Hr]; [rewrite (bool_decide_true _ Hr); simpl; by auto|rewrite (bool_decide_false _ Hr); simpl].
    destruct (Nat.ltb_spec 1 (base.size (numbers_of self names (ext self)))) as [Hn|Hn]; simpl; [|by auto].
    apply Nat.ltb_lt in Hn as Hn'. rewrite Hn'. auto.
  - destruct (mixed_issue_spec self names (p :: others) Ho) as (other & n & missing & -> & ? & ? & ? & ? & ?); done.
Qed.

(** * Two readers of RAR parts *)

Lemma cut_last_lower s : cut_last "." (lower s) = option_map (fun ab => (lower ab.1, lower ab.2)) (cut_last "." s).
Proof.
  destruct (cut_last "." s) as [[a b]|] eqn:E.
  - apply cut_last_Some in E as [-> Hb]. apply cut_last_Some. split; [by rewrite lower_app|by apply lower_no_dot].
  - unfold cut_last in *. destruct (last_index_of "." s) eqn:Es; [done|]. apply last_index_of_None, lower_no_dot, last_index_of_None in Es. by rewrite Es.
Qed.
Lemma parse_dec_bound s : forallb is_digit s = true -> 0 <= parse_dec s < 10 ^ Z.of_nat (length s).
Proof.
  unfold parse_dec. induction s as [|a s IH] using rev_ind; [done|]. rewrite forallb_app. intros [Hs Ha]%andb_true_iff. simpl in Ha. rewrite andb_true_r in Ha.
  rewrite fold_left_app, length_app. cbn [fold_left length]. specialize (IH Hs). unfold is_digit in Ha. apply andb_true_iff in Ha as [H1%Z.leb_le H2%Z.leb_le].
  set (n := fold_left _ s 0) in *. unfold digit_val. rewrite Nat2Z.inj_add, Z.pow_add_r by lia. change (10 ^ Z.of_nat 1) with 10. lia.
Qed.
Lemma is_digits_lower s : is_digits (lower s) = is_digits s.
Proof.
  unfold is_digits, lower. destruct s as [|a s]; [done|]. simpl. rewrite lower_digit. f_equal. induction s as [|b s IH]; simpl; [done|]. by rewrite lower_digit, IH.
Qed.
(** [isRarLaterVolume] and [parseArchivePart] mean the same files by a later part of a RAR set, on names
    of one line with no space around them. *)
Lemma later_parts_agree name : existsb is_sep name = false -> one_line name = true -> trim name = name -> (length name <= 300)%nat ->
  isRarLaterVolume name = match parseArchivePart name with Some p => is_rar p && negb (index p =? 1) | None => false end.
Proof.
  intros Hs Ho Ht Hl. unfold isRarLaterVolume, isRarFirstVolume. rewrite Ht.
  assert (after_last_sep name = name) as -> by (destruct name as [|a n]; [done|]; simpl in *; apply orb_false_iff in Hs as [-> ->]; done).
  destruct (bool_decide (js ".rar" `suffix_of` lower name)) eqn:Er; simpl.
  - apply bool_decide_eq_true in Er as [k Hk]. unfold rar_part_number, parseArchivePart.
    pose proof (cut_last_lower name) as Hc. assert (cut_last "." (lower name) = Some (k, js "rar")) as Hkr by (apply cut_last_Some; split; [done|clear; set_solver]).
    rewrite Hkr in Hc. rewrite Hkr. destruct (cut_last "." name) as [[rest e]|] eqn:Ec; [|done]. simpl in Hc. injection Hc as -> He. rewrite <- He.
    change (bool_decide (js "rar" ∈ ARCHIVE_EXTS)) with true. cbn [negb].
    rewrite cut_last_lower. destruct (cut_last "." rest) as [[st mark]|] eqn:Em; [|done]. cbn [option_map fst snd].
    change (take 4 (lower mark)) with (take 4 (map lower_latin1 mark)). change (drop 4 (lower mark)) with (drop 4 (map lower_latin1 mark)).
    rewrite firstn_map, skipn_map. fold (lower (take 4 mark)) (lower (drop 4 mark)). rewrite is_digits_lower.
    apply cut_last_Some in Ec as [-> _]. apply cut_last_Some in Em as [-> _].
    assert (one_line st = true) as -> by (unfold one_line in *; rewrite !forallb_app in Ho; bool_prop; done).
    destruct (bool_decide (lower (take 4 mark) = _)); [|done]. destruct (is_digits (drop 4 mark)) eqn:Ed; [|done].
    apply is_digits_all in Ed as [Ed _]. rewrite lower_digits by done. pose proof (parse_dec_bound _ Ed) as [_ Hb].
    destruct (Z.ltb_spec (parse_dec (drop 4 mark)) FINITE) as [|Hf]; [done|exfalso]. rewrite !length_app in Hl. simpl in Hl. rewrite length_drop in Hb.
    assert (10 ^ Z.of_nat (length mark - 4) <= 10 ^ 300) by (apply Z.pow_le_mono_r; lia). assert (10 ^ 300 < FINITE) by done. lia.
  - destruct (parseArchivePart name) as [p|] eqn:Ep; [|done]. apply parseArchivePart_Some in Ep as (mark & ds & e & -> & Hm & Hd & Hi & He & _).
    unfold is_rar. destruct (decide (ext p = js "rar")) as [Hr|Hr]; [|by rewrite (bool_decide_false _ Hr)]. exfalso. bool_prop. apply Er. exists (lower (stem p ++ js "." ++ mark ++ ds)).
    rewrite !lower_app, <- He, Hr. rewrite <- !app_assoc. done.
Qed.

(** * Examples *)

Definition a_folder : list str := map js ["Game.part2.zip"; "readme.txt"; "Game.part10.zip"; "Game.part01.zip"; "Game.part1.zip"; "Game.part1.rar"].
Lemma set_paths_witness : siblingPartPaths (js "C:\Games\Game.part2.zip") a_folder =
    map js ["C:\Games\Game.part01.zip"; "C:\Games\Game.part2.zip"; "C:\Games\Game.part10.zip"] /\
  exists ns, siblingPartPaths (js "C:\Games" ++ "\"%char :: js "Game.part2.zip") a_folder = map (fun n => js "C:\Games" ++ "\"%char :: n) ns /\
    StronglySorted (fun a b => number a < number b) ns.
Proof.
  split; [by vm_compute|].
  destruct (set_paths (js "C:\Games") "\"%char (js "Game.part2.zip") a_folder eq_refl eq_refl ltac:(done)) as (ns & H1 & _ & H2 & _).
  exists ns. exact (conj H1 H2).
Defined.
Example a_part : parseArchivePart (js "Game.PART02.ZIP") = Some {| stem := js "Game"; index := 2; ext := js "zip" |} /\
  parseArchivePart (js "Counterpart.zip") = None /\ parseArchivePart (js "Game.zip") = None.
Proof. by vm_compute. Qed.
Example volumes_read : map (fun n => option_map (fun v => (scheme v, v_index v, entryName v)) (parseSplitVolume (js n)))
    ["Game.7z.001"; "Game.z01"; "Game.s00"; "Game.part1.rar"; "Game.rar"; "save.99"] =
  [Some (Numeric, 1, js "Game.7z"); Some (SZip, 1, js "Game.zip"); Some (SRar, 100, js "Game.rar"); None; None; None].
Proof. by vm_compute. Qed.
Example list_collapsed : collapseRarVolumes id (map js ["/d/G.rar"; "/d/G.r00"; "/e/G.r00"; "/d/H.part2.rar"; "/d/H.part1.rar"; "/d/H.part1.zip"]) =
  map js ["/d/G.rar"; "/e/G.r00"; "/d/H.part1.rar"; "/d/H.part1.zip"].
Proof. by vm_compute. Qed.
Example mixed_folder : diagnoseArchiveSet (js "G.part01.zip") (map js ["G.part01.zip"; "G.part02.rar"; "G.part03.rar"]) =
  Some (MixedExtensions (js "zip") (js "rar") 2 (Some (js "G.part01.rar"))).
Proof. by vm_compute. Qed.
(** The volumes of a 7-Zip split are told apart by case: a set whose names differ in it is no set. *)
Example split_by_case : diagnoseArchiveSet (js "Game.7z.001") (map js ["Game.7z.001"; "game.7z.002"]) = None /\
  diagnoseArchiveSet (js "Game.7z.001") (map js ["Game.7z.001"; "Game.7z.002"]) = Some (SplitUnsupported Numeric (Some (js "Game.7z")) 2).
Proof. by vm_compute. Qed.
