(* ===== verification/PlaylistOps.v ===== *)
(** Payload playlists as documents (client/src/lib/playlistOps.ts, client/src/lib/playlistShare.ts): the
    edits on a list of playlists and on the steps of one, where a step's payload comes from, and the
    export of a set that another computer imports.

    Times and ids that the code draws ([Date.now()], [newId()]) are arguments; waits are whole
    milliseconds. What the catalogue answers is an argument of [resolveRepoStepPath]. *)
From S2P Require Import Prelude Addr QueueOps Json FsUploadPlan.

(** * Playlists *)

Record PlaylistStep := {
  path : str; payloadId : option str; payloadLabel : option str; sleepMs : Z; ip : option str; port : option Z }.
#[export] Instance settable_step : Settable PlaylistStep := fun s => {|
  path := path s; payloadId := payloadId s; payloadLabel := payloadLabel s; sleepMs := sleepMs s; ip := ip s; port := port s |}.
Record Playlist := {
  id : str; name : str; steps : list PlaylistStep; continueOnFailure : bool; createdAt : Z; updatedAt : Z; lastRunAt : option Z }.
#[export] Instance settable_playlist : Settable Playlist := fun p => {|
  id := id p; name := name p; steps := steps p; continueOnFailure := continueOnFailure p; createdAt := createdAt p;
  updatedAt := updatedAt p; lastRunAt := lastRunAt p |}.
Record AutoLoaderConfig := { enabled : bool; playlistId : option str; bringUpPlaylistId : option str }.
Definition DEFAULT_AUTO_LOADER : AutoLoaderConfig := {| enabled := false; playlistId := None; bringUpPlaylistId := None |}.

Definition PAYLOAD_EXTENSIONS : list str := js <$> ["elf"; "bin"; "js"; "lua"; "jar"]%string.
(** [/\.([a-z0-9]+)$/i]: only what follows the last dot can be it. *)
Definition isPayloadPath (p : str) : bool :=
  let p := trim p in
  match last_index_of "." p with
  | Some i => bool_decide (to_lower (drop (S i) p) ∈ PAYLOAD_EXTENSIONS)
  | None => false
  end.
Definition isRepoStep (s : PlaylistStep) : bool := match trim (payloadId s ?? []) with [] => false | _ => true end.

(** ** Where a repo step's payload comes from *)

Record Cached := { c_id : str; c_path : str; c_version : str }.
Record Release := { tag : str; picked_asset_url : str }.
Definition no_asset (i : str) : str := js "no downloadable payload asset in the latest release of " ++ i.
(** [inventory]: what is cached, [None] when it cannot be read; [latest] and [download]: what the calls
    answer, or the text they throw. *)
Definition resolveRepoStepPath (i : str) (inventory : option (list Cached)) (latest : Release + str) (download : str + str) (preferCached : bool) : str + str :=
  let cached := match find_first (fun e => bool_decide (c_id e = i)) (inventory ?? []) with
                | Some e => match c_path e with [] => None | _ => Some e end | None => None end in
  let or_cached (e : str) : str + str := match cached with Some c => inl (c_path c) | None => inr e end in
  match preferCached, cached with
  | true, Some c => inl (c_path c)
  | _, _ =>
      match latest with
      | inr e => or_cached e
      | inl rel =>
          match picked_asset_url rel with
          | [] => or_cached (no_asset i)
          | _ =>
              match cached with
              | Some c => if decide (c_version c = tag rel) then inl (c_path c) else match download with inl p => inl p | inr e => or_cached e end
              | None => match download with inl p => inl p | inr e => or_cached e end
              end
          end
      end
  end.

(** ** Edits *)

Definition find_playlist (i : str) (l : list Playlist) : option Playlist := find_first (fun p => bool_decide (id p = i)) l.
Definition at_index {A} (f : A -> A) (k : nat) (l : list A) : list A := match l !! k with Some x => <[k := f x]> l | None => l end.
Definition patchPlaylist (l : list Playlist) (i : str) (f : Playlist -> Playlist) (now : Z) : list Playlist :=
  match find_index (fun p => bool_decide (id p = i)) l with
  | None => l
  | Some k => at_index (fun p => (f p) <| updatedAt := now |>) k l
  end.
Definition appendStep (l : list Playlist) (i : str) (st : PlaylistStep) (now : Z) : list Playlist :=
  let old := match find_playlist i l with Some p => steps p | None => [] end in
  patchPlaylist l i (fun p => p <| steps := old ++ [st] |>) now.
(** The new steps of the playlist, when the edit is one. *)
Definition edit_steps (l : list Playlist) (i : str) (ok : nat -> bool) (f : list PlaylistStep -> list PlaylistStep) (now : Z) : list Playlist :=
  match find_playlist i l with
  | None => l
  | Some pl => if ok (length (steps pl)) then patchPlaylist l i (fun p => p <| steps := f (steps pl) |>) now else l
  end.
Definition removeStep (l : list Playlist) (i : str) (k : nat) : Z -> list Playlist :=
  edit_steps l i (fun n => (k <? n)%nat) (fun st => take k st ++ drop (S k) st).
Definition moveStepUp (l : list Playlist) (i : str) (k : nat) : Z -> list Playlist :=
  edit_steps l i (fun n => (0 <? k)%nat && (k <? n)%nat) (fun st => swap st (k - 1) k).
Definition moveStepDown (l : list Playlist) (i : str) (k : nat) : Z -> list Playlist :=
  edit_steps l i (fun n => (S k <? n)%nat) (fun st => swap st k (S k)).
Definition updateStep (l : list Playlist) (i : str) (k : nat) (f : PlaylistStep -> PlaylistStep) : Z -> list Playlist :=
  edit_steps l i (fun n => (k <? n)%nat) (at_index f k).
Definition index_of_id (i : str) (l : list Playlist) : option nat := find_index (fun p => bool_decide (id p = i)) l.
Definition removePlaylist (l : list Playlist) (i : str) : list Playlist :=
  match index_of_id i l with None => l | Some k => take k l ++ drop (S k) l end.
Definition movePlaylistUp (l : list Playlist) (i : str) : list Playlist :=
  match index_of_id i l with Some (S k) => swap l k (S k) | _ => l end.
Definition movePlaylistDown (l : list Playlist) (i : str) : list Playlist :=
  match index_of_id i l with Some k => if (S k <? length l)%nat then swap l k (S k) else l | None => l end.

(** ** The app's own helper *)

Definition is_ours (v : str) : bool :=
  starts_with (js "ps5upload") v &&
  match v !! 9%nat with None => true | Some a => is_char "." a || is_char "-" a || is_char "_" a end.
Definition stepSendsOurHelper (st : PlaylistStep) : bool :=
  is_ours (to_lower (after_last_sep (path st))) || is_ours (to_lower (payloadId st ?? [])).
Definition playlistResendsOurHelper (l : list PlaylistStep) : option PlaylistStep := find_first stepSendsOurHelper l.

(** * A set for another computer *)

Record PayloadInfo := { i_id : str; i_custom : bool; i_owner : str; i_repo : str; i_label : str; homepage : str }.
Record SharedRepo := { s_id : str; s_host : str; s_owner : str; s_name : str; displayName : str }.
Record PlaylistExport := { exportedAt : Z; x_playlists : list Playlist; x_autoLoader : option AutoLoaderConfig; customRepos : list SharedRepo }.
Definition PLAYLIST_EXPORT_FORMAT : str := js "ps5upload-playlists".

Section export.
(** [new URL(u).host]; [None] when it throws. *)
Context (url_host : str -> option str).
Definition repoHostOf (p : PayloadInfo) : str := match url_host (homepage p) with Some ((_ :: _) as h) => h | _ => js "github.com" end.
Definition shared_repo (p : PayloadInfo) : SharedRepo :=
  {| s_id := i_id p; s_host := repoHostOf p; s_owner := i_owner p; s_name := i_repo p; displayName := i_label p |}.
Definition buildPlaylistExport (l : list Playlist) (auto : option AutoLoaderConfig) (catalog : list PayloadInfo) (now : Z) : PlaylistExport :=
  {| exportedAt := now; x_playlists := map (fun p => p <| lastRunAt := None |>) l; x_autoLoader := auto;
     customRepos := map shared_repo (List.filter i_custom catalog) |}.
End export.

(** ** Its text, as [JSON.stringify] takes it: a field that is undefined is left out. *)

Definition field (k : string) (v : json) : list (str * json) := [(js k, v)].
Definition str_field (k : string) (o : option str) : list (str * json) := match o with Some s => field k (JStr s) | None => [] end.
Definition num_field (k : string) (o : option Z) : list (str * json) := match o with Some n => field k (JNum n) | None => [] end.
Definition or_null (o : option str) : json := match o with Some s => JStr s | None => JNull end.
Definition step_json (s : PlaylistStep) : json :=
  JObj (field "path" (JStr (path s)) ++ field "sleepMs" (JNum (sleepMs s)) ++ str_field "payloadId" (payloadId s) ++
        str_field "payloadLabel" (payloadLabel s) ++ str_field "ip" (ip s) ++ num_field "port" (port s)).
Definition playlist_json (p : Playlist) : json :=
  JObj (field "id" (JStr (id p)) ++ field "name" (JStr (name p)) ++ field "steps" (JArr (map step_json (steps p))) ++
        field "continueOnFailure" (JBool (continueOnFailure p)) ++ field "createdAt" (JNum (createdAt p)) ++ field "updatedAt" (JNum (updatedAt p)) ++
        num_field "lastRunAt" (lastRunAt p)).
Definition auto_json (a : AutoLoaderConfig) : json :=
  JObj (field "enabled" (JBool (enabled a)) ++ field "playlistId" (or_null (playlistId a)) ++ field "bringUpPlaylistId" (or_null (bringUpPlaylistId a))).
Definition repo_json (r : SharedRepo) : json :=
  JObj (field "id" (JStr (s_id r)) ++ field "host" (JStr (s_host r)) ++ field "owner" (JStr (s_owner r)) ++ field "name" (JStr (s_name r)) ++
        field "displayName" (JStr (displayName r))).
Definition export_json (d : PlaylistExport) : json :=
  JObj (field "format" (JStr PLAYLIST_EXPORT_FORMAT) ++ field "version" (JNum 1) ++ field "exportedAt" (JNum (exportedAt d)) ++
        field "playlists" (JArr (map playlist_json (x_playlists d))) ++
        (match x_autoLoader d with Some a => field "autoLoader" (auto_json a) | None => [] end) ++
        field "customRepos" (JArr (map repo_json (customRepos d)))).

(** ** Reading it: [None] where it throws *)

Definition str_of (o : option json) : str := as_str o ?? [].
Definition num_of (o : option json) : Z := as_num o ?? 0.
Definition some_str (s : str) : option str := match s with [] => None | _ => Some s end.
Definition is_object (j : json) : bool := match j with JObj _ | JArr _ => true | _ => false end.
Definition is_true (o : option json) : bool := bool_decide (o = Some (JBool true)).
Definition cleanStep (v : json) : option PlaylistStep :=
  if negb (is_object v) then None else
  let step := {| path := str_of (get "path" v); sleepMs := Z.max 0 (num_of (get "sleepMs" v)); payloadId := some_str (str_of (get "payloadId" v));
                 payloadLabel := some_str (str_of (get "payloadLabel" v)); ip := some_str (str_of (get "ip" v));
                 port := if 0 <? num_of (get "port" v) then Some (num_of (get "port" v)) else None |} in
  match path step, payloadId step with [], None => None | _, _ => Some step end.
Definition read_playlist (v : json) : option Playlist :=
  if negb (is_object v) then None else
  let steps := match get "steps" v with Some (JArr l) => omap cleanStep l | _ => [] end in
  match str_of (get "id" v), str_of (get "name" v) with
  | ((_ :: _) as i), ((_ :: _) as n) =>
      Some {| id := i; name := n; steps := steps; continueOnFailure := is_true (get "continueOnFailure" v);
              createdAt := num_of (get "createdAt" v); updatedAt := num_of (get "updatedAt" v); lastRunAt := None |}
  | _, _ => None
  end.
Definition read_auto (v : json) : option AutoLoaderConfig :=
  if negb (is_object v) then None else
  Some {| enabled := is_true (get "enabled" v); playlistId := some_str (str_of (get "playlistId" v));
          bringUpPlaylistId := some_str (str_of (get "bringUpPlaylistId" v)) |}.
Definition read_repo (v : json) : option SharedRepo :=
  match str_of (get "owner" v), str_of (get "name" v) with
  | ((_ :: _) as o), ((_ :: _) as n) =>
      Some {| s_id := str_of (get "id" v); s_host := some_str (str_of (get "host" v)) ?? js "github.com"; s_owner := o; s_name := n;
              displayName := str_of (get "displayName" v) |}
  | _, _ => None
  end.
(** [text]: what [JSON.parse] gives, [None] when it throws. *)
Definition parsePlaylistExport (text : option json) : option PlaylistExport :=
  match text with
  | None => None
  | Some d =>
      match get "format" d, get "playlists" d with
      | Some (JStr f), Some (JArr l) =>
          if negb (bool_decide (f = PLAYLIST_EXPORT_FORMAT)) then None else
          Some {| exportedAt := num_of (get "exportedAt" d); x_playlists := omap read_playlist l; x_autoLoader := get "autoLoader" d ≫= read_auto;
                  customRepos := match get "customRepos" d with Some (JArr r) => omap read_repo r | _ => [] end |}
      | _, _ => None
      end
  end.

(** ** Taking it in *)

Definition numbered (n : str) (k : Z) : str := n ++ js " (" ++ num k ++ js ")".
(** The loop over [n], which ends within one round more than there are names ([free_name_found]). *)
Fixpoint free_name (fuel : nat) (n : str) (k : Z) (names : gset str) : option str :=
  match fuel with
  | O => None
  | S fuel => if decide (numbered n k ∈ names) then free_name fuel n (k + 1) names else Some (numbered n k)
  end.
Definition new_name (n : str) (names : gset str) : str :=
  if decide (n ∈ names) then free_name (S (size names)) n 2 names ?? n else n.
(** [newId]: the ids drawn, in order. *)
Fixpoint imported_from (k : nat) (newId : nat -> str) (now : Z) (names : gset str) (idMap : gmap str str) (l : list Playlist) : list Playlist * gmap str str :=
  match l with
  | [] => ([], idMap)
  | p :: l =>
      let n := new_name (name p) names in
      let r := imported_from (S k) newId now ({[n]} ∪ names) (<[id p := newId k]> idMap) l in
      (p <| id := newId k |> <| name := n |> <| createdAt := now |> <| updatedAt := now |> :: r.1, r.2)
  end.
Definition importedPlaylists (existing incoming : list Playlist) (newId : nat -> str) (now : Z) : list Playlist * gmap str str :=
  imported_from 0 newId now (list_to_set (map name existing)) ∅ incoming.
(** [importPlaylists] of the store: the playlists and the auto-loader after it. *)
Definition importPlaylists (existing : list Playlist) (here : AutoLoaderConfig) (doc : PlaylistExport) (newId : nat -> str) (now : Z) :
    list Playlist * AutoLoaderConfig :=
  let r := importedPlaylists existing (x_playlists doc) newId now in
  let mapped (o : option str) : option str := match o with Some ((_ :: _) as i) => r.2 !! i | _ => None end in
  (existing ++ r.1,
   match x_autoLoader doc, playlistId here, bringUpPlaylistId here with
   | Some there, None, None => {| enabled := enabled there; playlistId := mapped (playlistId there); bringUpPlaylistId := mapped (bringUpPlaylistId there) |}
   | _, _, _ => here
   end).

(** * What an export keeps *)

Section export_facts.
Context (url_host : str -> option str).
(** What a set holds that the app made itself: no empty ids or names, no negative waits or ports, and a
    payload for each step. *)
Definition step_ok (s : PlaylistStep) : Prop :=
  0 <= sleepMs s /\ payloadId s <> Some [] /\ (forall p, port s = Some p -> 0 < p) /\ (path s <> [] \/ payloadId s <> None).
(** A field that was cleared is read back as one that was never set. *)
Definition unset (o : option str) : option str := if decide (o = Some []) then None else o.
Definition cleared (s : PlaylistStep) : PlaylistStep := s <| ip := unset (ip s) |> <| payloadLabel := unset (payloadLabel s) |>.
Definition playlist_ok (p : Playlist) : Prop := id p <> [] /\ name p <> [] /\ Forall step_ok (steps p).
Definition auto_ok (a : AutoLoaderConfig) : Prop := playlistId a <> Some [] /\ bringUpPlaylistId a <> Some [].
Definition repo_ok (p : PayloadInfo) : Prop := i_owner p <> [] /\ i_repo p <> [].

Lemma some_str_of o : o <> Some [] -> some_str (o ?? []) = o.
Proof. by destruct o as [[|a s]|]. Qed.
Lemma some_str_unset o : some_str (o ?? []) = unset o.
Proof. by destruct o as [[|a s]|]. Qed.
Lemma cleanStep_json s : step_ok s -> cleanStep (step_json s) = Some (cleared s).
Proof.
  intros (H1 & H2 & H5 & H6). destruct s as [p i l ms a po]. simpl in *.
  assert (cleanStep (step_json {| path := p; payloadId := i; payloadLabel := l; sleepMs := ms; ip := a; port := po |}) =
    let step := {| path := p; sleepMs := Z.max 0 ms; payloadId := some_str (i ?? []); payloadLabel := some_str (l ?? []); ip := some_str (a ?? []);
                   port := if 0 <? (po ?? 0) then Some (po ?? 0) else None |} in
    match path step, payloadId step with [], None => None | _, _ => Some step end) as ->.
  { destruct i, l, a, po; reflexivity. }
  rewrite (some_str_of i) by done. rewrite !some_str_unset, Z.max_r by done.
  assert ((if 0 <? (po ?? 0) then Some (po ?? 0) else None) = po) as ->.
  { destruct po as [n|]; [|done]. simpl. specialize (H5 n eq_refl). by rewrite (proj2 (Z.ltb_lt 0 n)). }
  simpl. destruct p; [|done]. destruct i; [done|]. by destruct H6.
Qed.
Lemma omap_inverse {A B C} (f : A -> B) (g : B -> option C) (h : A -> C) (l : list A) : (forall x, x ∈ l -> g (f x) = Some (h x)) -> omap g (map f l) = map h l.
Proof.
  induction l as [|x l IH]; intros H; [done|]. simpl. rewrite (H x) by (by left). f_equal. apply IH. intros y Hy. apply H. by right.
Qed.
Definition as_read (p : Playlist) : Playlist := p <| lastRunAt := None |> <| steps := map cleared (steps p) |>.
Lemma read_playlist_json p : playlist_ok p -> read_playlist (playlist_json (p <| lastRunAt := None |>)) = Some (as_read p).
Proof.
  intros (Hi & Hn & Hs). destruct p as [i n st cf ca ua lr]. simpl in *.
  assert (omap cleanStep (map step_json st) = map cleared st) as Hst.
  { apply omap_inverse. intros s Hin. apply cleanStep_json. by eapply Forall_forall. }
  destruct i as [|a i]; [done|]. destruct n as [|b n]; [done|].
  assert (read_playlist (playlist_json {| id := a :: i; name := b :: n; steps := st; continueOnFailure := cf; createdAt := ca; updatedAt := ua; lastRunAt := None |}) =
    Some {| id := a :: i; name := b :: n; steps := omap cleanStep (map step_json st); continueOnFailure := bool_decide (Some (JBool cf) = Some (JBool true));
            createdAt := ca; updatedAt := ua; lastRunAt := None |}) as -> by reflexivity.
  rewrite Hst. do 2 f_equal. by destruct cf.
Qed.
Lemma read_repo_json p : repo_ok p -> read_repo (repo_json (shared_repo url_host p)) = Some (shared_repo url_host p).
Proof.
  intros (Ho & Hn). destruct p as [i cu o n la ho]. simpl in *. destruct o as [|a o]; [done|]. destruct n as [|b n]; [done|].
  unfold shared_repo. simpl. set (h := repoHostOf _ _). assert (some_str h ?? js "github.com" = h) as Hh.
  { unfold h, repoHostOf. simpl. destruct (url_host ho) as [[|c t]|]; done. }
  transitivity (Some {| s_id := i; s_host := some_str h ?? js "github.com"; s_owner := a :: o; s_name := b :: n; displayName := la |}); [reflexivity|].
  by rewrite Hh.
Qed.
Lemma read_auto_json a : auto_ok a -> read_auto (auto_json a) = Some a.
Proof.
  intros [H1 H2]. destruct a as [e p b]. simpl in *.
  transitivity (Some {| enabled := bool_decide (Some (JBool e) = Some (JBool true)); playlistId := some_str (p ?? []); bringUpPlaylistId := some_str (b ?? []) |}).
  { destruct p, b; reflexivity. }
  rewrite !some_str_of by done. by destruct e.
Qed.
(** A custom repository as it is shared: where it is, and under which name. *)
Definition shares (p : PayloadInfo) (r : SharedRepo) : Prop :=
  s_id r = i_id p /\ s_owner r = i_owner p /\ s_name r = i_repo p /\ displayName r = i_label p /\
  (url_host (homepage p) = Some (s_host r) /\ s_host r <> [] \/ (url_host (homepage p) = None \/ url_host (homepage p) = Some []) /\ s_host r = js "github.com").
Lemma shared_shares p : shares p (shared_repo url_host p).
Proof. unfold shares, shared_repo, repoHostOf. simpl. split_and!; [done..|]. destruct (url_host (homepage p)) as [[|a t]|]; [by right; split; [right|]|by left|by right; split; [left|]]. Qed.
(** C34: A set of playlists that is exported is read on another computer as it was: the playlists in order,
    each with its steps (a cleared address or label is read as none, which says the same) and all but
    when it last ran; the auto-loader's choice; and each custom repository of the catalogue, in order,
    with its id, owner, name and label, and the host of its page (github.com where that has none). *)
Theorem export_comes_back l auto catalog now :
  Forall playlist_ok l -> (forall a, auto = Some a -> auto_ok a) -> Forall repo_ok (List.filter i_custom catalog) ->
  exists doc, parsePlaylistExport (Some (export_json (buildPlaylistExport url_host l auto catalog now))) = Some doc /\
    exportedAt doc = now /\ x_playlists doc = map as_read l /\ x_autoLoader doc = auto /\
    Forall2 shares (List.filter i_custom catalog) (customRepos doc).
Proof.
  intros Hl Ha Hr. set (doc := buildPlaylistExport url_host l auto catalog now). eexists. split_and!.
  - transitivity (Some {| exportedAt := now; x_playlists := omap read_playlist (map playlist_json (x_playlists doc));
      x_autoLoader := (auto_json <$> auto) ≫= read_auto; customRepos := omap read_repo (map repo_json (customRepos doc)) |}); [destruct auto; reflexivity|].
    unfold doc, buildPlaylistExport. cbn [x_playlists customRepos]. rewrite !map_map.
    rewrite (omap_inverse (fun p => playlist_json (p <| lastRunAt := None |>)) read_playlist as_read) by (intros p Hp; apply read_playlist_json; by eapply Forall_forall).
    rewrite (omap_inverse (fun p => repo_json (shared_repo url_host p)) read_repo (shared_repo url_host))
      by (intros p Hp; apply read_repo_json; by eapply (Forall_forall repo_ok)).
    reflexivity.
  - done.
  - done.
  - cbn [x_autoLoader]. destruct auto as [a|]; [|done]. simpl. by apply read_auto_json, Ha.
  - cbn [customRepos]. generalize (List.filter i_custom catalog). intros r. induction r as [|p r IH]; simpl; constructor; [apply shared_shares|done].
Qed.
End export_facts.

(** * What an import adds *)

Lemma numbered_inj n j k : numbered n j = numbered n k -> j = k.
Proof. unfold numbered. intros H%app_inv_head. apply (app_inv_head (js " (")) in H. apply app_inv_tail in H. by apply num_inj. Qed.
Lemma free_name_spec (fuel : nat) (n : str) (k : Z) (names : gset str) :
  match free_name fuel n k names with
  | Some m => (m ∉ names) /\ exists j, k <= j /\ m = numbered n j
  | None => forall j, (j < fuel)%nat -> numbered n (k + Z.of_nat j) ∈ names
  end.
Proof.
  revert k. induction fuel as [|fuel IH]; intros k; cbn [free_name]; [by intros j ?; lia|]. case_decide as Hd.
  - specialize (IH (k + 1)). destruct (free_name fuel n (k + 1) names) as [m|].
    + destruct IH as (Hm & j & Hj & ->). split; [done|]. exists j. split; [lia|done].
    + intros [|j] Hj; [by rewrite Z.add_0_r|]. replace (k + Z.of_nat (S j)) with (k + 1 + Z.of_nat j) by lia. apply IH. lia.
  - split; [done|]. exists k. split; [lia|done].
Qed.
(** The loop over numbered names ends: one round more than there are names is enough. *)
Lemma free_name_found (n : str) (k : Z) (names : gset str) : exists m, free_name (S (size names)) n k names = Some m.
Proof.
  pose proof (free_name_spec (S (size names)) n k names) as H. destruct (free_name _ _ _ _) as [m|]; [eauto|].
  pose proof (fresh_among (fun j => numbered n (k + Z.of_nat j)) names (S (size names)) ltac:(intros i j E%numbered_inj; lia) H). lia.
Qed.
Lemma new_name_spec (n : str) (names : gset str) : (new_name n names ∉ names) /\ (n ∉ names -> new_name n names = n) /\ (new_name n names = n \/ exists k, new_name n names = numbered n k).
Proof.
  unfold new_name. case_decide as Hd; [|by auto]. destruct (free_name_found n 2 names) as [m Hm]. rewrite Hm. simpl.
  pose proof (free_name_spec (S (size names)) n 2 names) as H. rewrite Hm in H. destruct H as (H1 & j & _ & H2). split_and!; [done|done|right; eauto].
Qed.
Lemma imported_spec (k : nat) (newId : nat -> str) (now : Z) (names : gset str) (idMap : gmap str str) (l : list Playlist) :
  let r := imported_from k newId now names idMap l in
  map id r.1 = map (fun j => newId (k + j)%nat) (seq 0 (length l)) /\ NoDup (map name r.1) /\ (forall n, n ∈ map name r.1 -> n ∉ names) /\
  map steps r.1 = map steps l /\ map continueOnFailure r.1 = map continueOnFailure l /\
  (forall i, i ∉ map id l -> r.2 !! i = idMap !! i) /\
  (NoDup (map id l) -> forall j p, l !! j = Some p -> r.2 !! id p = Some (newId (k + j)%nat)).
Proof.
  revert k names idMap. induction l as [|p l IH]; intros k names idMap r; simpl in r; subst r; simpl.
  - split_and!; [done|constructor|by intros ? ?%elem_of_nil|done..].
  - destruct (new_name_spec (name p) names) as (Hn & _). set (n := new_name (name p) names) in *.
    destruct (IH (S k) ({[n]} ∪ names) (<[id p := newId k]> idMap)) as (I1 & I2 & I3 & I4 & I5 & I6 & I7). split_and!.
    + rewrite Nat.add_0_r. f_equal. rewrite I1, <- seq_shift, map_map. apply map_ext. intros j. f_equal. lia.
    + constructor; [|done]. intros Hin. apply (I3 n Hin). set_solver.
    + intros m [->|Hm]%elem_of_cons; [done|]. intros Hin. apply (I3 m Hm). set_solver.
    + by f_equal.
    + by f_equal.
    + intros i [H1 H2]%not_elem_of_cons. rewrite I6 by done. by rewrite lookup_insert_ne.
    + intros [H1 H2]%NoDup_cons [|j] q Hq; simpl in Hq.
      * injection Hq as ->. rewrite I6 by done. rewrite lookup_insert_eq. by rewrite Nat.add_0_r.
      * rewrite (I7 H2 j q Hq). by replace (S k + j)%nat with (k + S j)%nat by lia.
Qed.
(** An import adds and replaces nothing: with ids not used yet, the playlists that are there stay as
    they are and first, the imported ones follow in order with their steps, no id and no name comes
    twice, and a name is the imported one or that with a number. The auto-loader of a computer that has
    chosen nothing is taken over and names the copies of the playlists it named; a choice made here stays. *)
Theorem import_adds existing here doc newId now :
  NoDup (map id existing) -> NoDup (map name existing) -> NoDup (map id (x_playlists doc)) -> (forall a b, newId a = newId b -> a = b) ->
  (forall k, newId k ∉ map id existing) ->
  exists added auto, importPlaylists existing here doc newId now = (existing ++ added, auto) /\
    map steps added = map steps (x_playlists doc) /\ map continueOnFailure added = map continueOnFailure (x_playlists doc) /\
    NoDup (map id (existing ++ added)) /\ NoDup (map name (existing ++ added)) /\
    (playlistId here <> None \/ bringUpPlaylistId here <> None \/ x_autoLoader doc = None -> auto = here) /\
    (forall there j p, playlistId here = None -> bringUpPlaylistId here = None -> x_autoLoader doc = Some there ->
       x_playlists doc !! j = Some p -> id p <> [] ->
       (playlistId there = Some (id p) -> playlistId auto = id <$> added !! j) /\
       (bringUpPlaylistId there = Some (id p) -> bringUpPlaylistId auto = id <$> added !! j)).
Proof.
  intros Hi Hn Hx Hinj Hfresh. set (names := list_to_set (map name existing) : gset str).
  destruct (imported_spec 0 newId now names ∅ (x_playlists doc)) as (I1 & I2 & I3 & I4 & I5 & _ & I7).
  unfold importPlaylists, importedPlaylists. fold names. set (r := imported_from 0 newId now names ∅ (x_playlists doc)) in *.
  eexists r.1, _. split; [reflexivity|]. split_and!; [done|done| | | |].
  - rewrite map_app, I1. apply NoDup_app. split_and!; [done| |].
    + intros i Hin (j & -> & _)%list_elem_of_fmap. by apply (Hfresh (0 + j)%nat).
    + apply NoDup_fmap_2_strong; [|apply NoDup_seq]. intros a b _ _ E. by apply Hinj in E.
  - rewrite map_app. apply NoDup_app. split_and!; [done| |done]. intros m Hm Hin. apply (I3 m Hin). unfold names. by apply elem_of_list_to_set.
  - intros H. destruct (x_autoLoader doc), (playlistId here), (bringUpPlaylistId here); naive_solver.
  - intros there j p -> -> -> Hj Hp.
    assert (id <$> r.1 !! j = Some (newId (0 + j)%nat)) as ->.
    { rewrite <- (list_lookup_fmap id). change (id <$> r.1) with (map id r.1). rewrite I1. rewrite list_lookup_fmap, lookup_seq_lt; [done|]. by eapply lookup_lt_Some. }
    simpl. specialize (I7 Hx j p Hj). destruct (id p) as [|a s]; [done|]. split; intros ->; exact I7.
Qed.

(** * Where a payload comes from *)

(** With nothing cached a payload comes from the latest release's download, and only from there. *)
Definition fetch (i : str) (latest : Release + str) (download : str + str) : str + str :=
  match latest with
  | inr e => inr e
  | inl rel => match picked_asset_url rel with [] => inr (no_asset i) | _ => match download with inl p => inl p | inr e => inr e end end
  end.
Lemma fetch_spec i latest download p :
  fetch i latest download = inl p <-> exists rel, latest = inl rel /\ picked_asset_url rel <> [] /\ download = inl p.
Proof.
  unfold fetch. destruct latest as [rel|e]; [|split; [done|by intros (? & ? & _)]].
  destruct (picked_asset_url rel) eqn:Eu; [split; [done|]; by intros (? & [= <-] & ? & _)|].
  destruct download as [q|e]; (split; [intros [= ->]; exists rel; by rewrite Eu|by intros (? & _ & _ & [= ->])]).
Qed.
(** A repo step fails only when there is neither a cached copy nor a release to download; a cached copy
    is taken without asking when it may be. *)
Lemma resolve_spec i inventory latest download preferCached :
  let cached := exists c, find_first (fun e => bool_decide (c_id e = i)) (inventory ?? []) = Some c /\ c_path c <> [] in
  (cached -> exists p, resolveRepoStepPath i inventory latest download preferCached = inl p) /\
  (~ cached -> forall p, resolveRepoStepPath i inventory latest download preferCached = inl p <->
     exists rel, latest = inl rel /\ picked_asset_url rel <> [] /\ download = inl p).
Proof.
  intros cached. unfold resolveRepoStepPath. subst cached. destruct (find_first _ _) as [c|].
  - destruct (c_path c) as [|a t] eqn:Ec; [split; [by intros (? & [= <-] & H)|]|split; [|intros H; exfalso; apply H; exists c; by rewrite Ec]].
    + intros _ p. rewrite <- (fetch_spec i latest download p). by destruct preferCached.
    + intros _. rewrite Ec. destruct preferCached; [eauto|]. destruct latest as [rel|e]; [|eauto].
      destruct (picked_asset_url rel); [eauto|]. destruct (decide _); [eauto|]. destruct download; eauto.
  - split; [by intros (? & ? & _)|]. intros _ p. rewrite <- (fetch_spec i latest download p). by destruct preferCached.
Qed.

(** * Examples *)

Definition a_step (p : string) : PlaylistStep := {| path := js p; payloadId := None; payloadLabel := None; sleepMs := 500; ip := None; port := Some 9021 |}.
Definition a_repo_step (i : string) : PlaylistStep := {| path := []; payloadId := Some (js i); payloadLabel := Some (js "Label"); sleepMs := 0; ip := Some (js "192.168.0.9"); port := None |}.
Definition a_playlist (i n : string) (l : list PlaylistStep) : Playlist :=
  {| id := js i; name := js n; steps := l; continueOnFailure := true; createdAt := 1; updatedAt := 2; lastRunAt := Some 3 |}.
Definition a_repo : PayloadInfo := {| i_id := js "custom-1"; i_custom := true; i_owner := js "me"; i_repo := js "tool"; i_label := js "Tool"; homepage := js "https://git.example.org/me/tool" |}.
Lemma export_comes_back_witness :
  let l := [a_playlist "a" "Boot" [(a_step "C:\k.elf") <| ip := Some [] |>; a_repo_step "custom-1"]] in
  let auto := Some {| enabled := true; playlistId := Some (js "a"); bringUpPlaylistId := None |} in
  exists doc, parsePlaylistExport (Some (export_json (buildPlaylistExport (fun _ => None) l auto [a_repo] 7))) = Some doc /\
    map (fun p => map ip (steps p)) (x_playlists doc) = [[None; Some (js "192.168.0.9")]] /\ x_autoLoader doc = auto /\ map s_id (customRepos doc) = [js "custom-1"].
Proof.
  intros l auto. destruct (export_comes_back (fun _ => None) l auto [a_repo] 7) as (doc & H1 & _ & H2 & H3 & H4).
  - repeat constructor; try done; try (by left); try (by right); intros p [= <-]; lia.
  - intros a [= <-]. done.
  - repeat constructor; done.
  - exists doc. split_and!; [exact H1|by rewrite H2|exact H3|]. inversion H4 as [|? r ? ? (Hi & _) Hn]; subst. inversion Hn; subst. simpl. by rewrite Hi.
Defined.
Lemma import_adds_witness : exists added,
  (importPlaylists [a_playlist "a" "Boot" []] DEFAULT_AUTO_LOADER
     {| exportedAt := 0; x_playlists := [a_playlist "x" "Boot" [a_step "b.elf"]]; x_autoLoader := Some {| enabled := true; playlistId := Some (js "x"); bringUpPlaylistId := None |}; customRepos := [] |}
     (fun k => js "new" ++ num (Z.of_nat k)) 5).1 = [a_playlist "a" "Boot" []] ++ added /\ map name added = [js "Boot (2)"] /\ map id added = [js "new0"] /\ map steps added = [[a_step "b.elf"]].
Proof.
  destruct (import_adds [a_playlist "a" "Boot" []] DEFAULT_AUTO_LOADER
     {| exportedAt := 0; x_playlists := [a_playlist "x" "Boot" [a_step "b.elf"]]; x_autoLoader := Some {| enabled := true; playlistId := Some (js "x"); bringUpPlaylistId := None |}; customRepos := [] |}
     (fun k => js "new" ++ num (Z.of_nat k)) 5) as (added & auto & H & Hs & _).
  - by apply NoDup_singleton.
  - by apply NoDup_singleton.
  - by apply NoDup_singleton.
  - intros a b E%app_inv_head%num_inj. lia.
  - intros k [E|[]%elem_of_nil]%elem_of_cons. discriminate.
  - exists added. match type of H with ?L = _ => assert (drop 1 L.1 = added) as Hd by (rewrite H; reflexivity) end.
    split_and!; [by rewrite H|rewrite <- Hd; by vm_compute|rewrite <- Hd; by vm_compute|exact Hs].
Defined.
(** Our own helper is known by its name, another's that begins alike is not. *)
Example helper_steps : stepSendsOurHelper (a_step "C:\dl\PS5Upload.elf") = true /\ stepSendsOurHelper (a_step "/x/ps5upload-wake") = true /\
  stepSendsOurHelper (a_step "ps5uploader.elf") = false /\ isPayloadPath (js " a.ELF ") = true /\ isPayloadPath (js "a.pkg") = false.
Proof. by vm_compute. Qed.
Example steps_moved : map steps (moveStepUp [a_playlist "a" "Boot" [a_step "1"; a_step "2"]] (js "a") 1 9) = [[a_step "2"; a_step "1"]] /\
  moveStepDown [a_playlist "a" "Boot" [a_step "1"]] (js "a") 0 9 = [a_playlist "a" "Boot" [a_step "1"]].
Proof. by vm_compute. Qed.
