(* ===== verification/Playlists.v ===== *)
(** Running payload playlists (client/src/state/payloadPlaylists.ts, with lib/runGen.ts): any number of
    consoles, each with at most one live run, Stop, and edits while a run goes on.

    A run is cut at its awaits, and an event is what comes back at one of them: the path of a repo step
    resolved, a server's file copied here, a payload sent, a wait over (or cut short by Stop). A run that
    is no longer live stays until its await comes back. [log] is what has been begun, answered, resolved,
    copied and sent.
    Saving the document is left out: a timer that writes what is here. *)
From S2P Require Import Prelude Addr RemotePath QueueOps Json FsUploadPlan PlaylistOps.

(** * The store *)

Inductive RunStatus :=
| Idle | Running (playlist : str) (at_ : nat) (host : str) | Sleeping (playlist host : str) (at_ : nat) (since ms : Z)
| Done (playlist host : str) (successCount failureCount : nat) (failures : list (nat * str)) | Failed (playlist host : str) (at_ : nat) (err : str).
#[export] Instance run_status_eq_dec : EqDecision RunStatus.
Proof. solve_decision. Defined.
(** Where a run waits. *)
Inductive Await := WResolve | WCopy (p : str) | WSend | WSleep.
Record Run := {
  r_key : str; r_gen : Z; r_id : str; r_host : str; r_port : Z; r_steps : list PlaylistStep; r_continue : bool;
  r_at : nat; r_await : Await; r_ok : nat; r_failures : list (nat * str) }.
#[export] Instance settable_run : Settable Run := fun r => {|
  r_key := r_key r; r_gen := r_gen r; r_id := r_id r; r_host := r_host r; r_port := r_port r; r_steps := r_steps r; r_continue := r_continue r;
  r_at := r_at r; r_await := r_await r; r_ok := r_ok r; r_failures := r_failures r |}.
(** What comes back to a run: a path or the text that was thrown, the end of a send, the end of a wait. *)
Inductive Back := BPath (answer : str + str) | BSent (result : option str) | BWoke.
Inductive Note :=
| NBegan (r : Run)
| NAnswered (key : str) (gen : Z) (at_ : nat) (b : Back)
| NResolved (key : str) (gen : Z) (at_ : nat) (p : str)
| NCopied (key : str) (gen : Z) (at_ : nat) (remote p : str)
| NSent (key : str) (gen : Z) (at_ : nat) (host p : str) (port : Z).
Record St := {
  playlists : list Playlist; autoLoader : AutoLoaderConfig; runStatusByHost : gmap str RunStatus; gens : gmap str Z; runs : list Run; log : list Note }.
#[export] Instance settable_state : Settable St := fun s => {|
  playlists := playlists s; autoLoader := autoLoader s; runStatusByHost := runStatusByHost s; gens := gens s; runs := runs s; log := log s |}.
Definition init : St := {| playlists := []; autoLoader := DEFAULT_AUTO_LOADER; runStatusByHost := ∅; gens := ∅; runs := []; log := [] |}.

Definition keyOf (host : str) : str := match trim host with [] => [] | _ => hostOf host end.
Definition status_at (key : str) (s : St) : RunStatus := runStatusByHost s !! key ?? Idle.
Definition runStatusForHost (s : St) (host : str) : RunStatus := status_at (keyOf host) s.
Definition setRunStatus (key : str) (st : RunStatus) (s : St) : St := s <| runStatusByHost := <[key := st]> (runStatusByHost s) |>.
Definition gen_at (key : str) (s : St) : Z := gens s !! key ?? 0.
Definition next (key : str) (s : St) : St := s <| gens := <[key := gen_at key s + 1]> (gens s) |>.
Definition isLive (r : Run) (s : St) : bool := gen_at (r_key r) s =? r_gen r.
Definition note (n : Note) (s : St) : St := s <| log := log s ++ [n] |>.
Definition wait (r : Run) (w : Await) (s : St) : St := s <| runs := runs s ++ [r <| r_await := w |>] |>.

(** * A run *)

Definition stepHost (st : PlaylistStep) (host : str) : str := match trim (ip st ?? []) with [] => host | h => h end.
Definition stepPort (st : PlaylistStep) (p : Z) : Z := match port st with Some q => if 0 <? q then q else p | None => p end.
(** The bytes of [p] go to the console; [withLocalCopy] of a file of this computer. *)
Definition send (r : Run) (st : PlaylistStep) (p : str) (s : St) : St :=
  wait r WSend (note (NSent (r_key r) (r_gen r) (r_at r) (stepHost st (r_host r)) p (stepPort st (r_port r))) s).
Definition with_local_copy (r : Run) (st : PlaylistStep) (p : str) (s : St) : St :=
  if isRemotePath p then wait r (WCopy p) s else send r st p s.
(** The head of the loop. *)
Definition enter (r : Run) (s : St) : St :=
  match r_steps r !! r_at r with
  | None =>
      if isLive r s
      then setRunStatus (r_key r) (Done (r_id r) (r_host r) (r_ok r) (length (r_failures r)) (r_failures r)) s else s
  | Some st =>
      if negb (isLive r s) then s else
      let s := setRunStatus (r_key r) (Running (r_id r) (r_at r) (r_host r)) s in
      if isRepoStep st then wait r WResolve s else with_local_copy r st (path st) s
  end.
(** The end of the loop's body: the wait, or the next step. *)
Definition go_on (r : Run) (now : Z) (s : St) : St :=
  if negb (isLive r s) then s else
  match r_steps r !! r_at r with
  | Some st =>
      if (0 <? sleepMs st) && (S (r_at r) <? length (r_steps r))%nat
      then wait r WSleep (setRunStatus (r_key r) (Sleeping (r_id r) (r_host r) (r_at r) now (sleepMs st)) s)
      else enter (r <| r_at := S (r_at r) |>) s
  | None => s
  end.
(** After a step: [None] when it was sent, else what went wrong. *)
Definition after_step (r : Run) (result : option str) (now : Z) (s : St) : St :=
  match result with
  | None => go_on (r <| r_ok := S (r_ok r) |>) now s
  | Some e =>
      if r_continue r then go_on (r <| r_failures := r_failures r ++ [(r_at r, e)] |>) now s
      else if isLive r s then setRunStatus (r_key r) (Failed (r_id r) (r_host r) (r_at r) e) s else s
  end.
(** What a call answered, or the text it threw. *)
Definition resolved (r : Run) (answer : str + str) (now : Z) (s : St) : St :=
  match r_steps r !! r_at r with
  | None => s
  | Some st =>
      match answer with
      | inr e => after_step r (Some e) now s
      | inl p =>
          let s := if isLive r s && negb (bool_decide (p = [])) && negb (bool_decide (p = path st))
                   then s <| playlists := map (fun q => if decide (id q = r_id r) then q <| steps := at_index (fun x => x <| path := p |>) (r_at r) (steps q) |> else q) (playlists s) |>
                   else s in
          if negb (isLive r s) then s
          else with_local_copy r st p (note (NResolved (r_key r) (r_gen r) (r_at r) p) s)
      end
  end.
Definition copied (r : Run) (remote : str) (answer : str + str) (now : Z) (s : St) : St :=
  match r_steps r !! r_at r with
  | None => s
  | Some st =>
      match answer with
      | inr e => after_step r (Some e) now s
      | inl p => send r st p (note (NCopied (r_key r) (r_gen r) (r_at r) remote p) s)
      end
  end.
Definition woke (r : Run) (s : St) : St := if negb (isLive r s) then s else enter (r <| r_at := S (r_at r) |>) s.
(** What comes back to a run, by where it waits. *)
Definition fits (w : Await) (b : Back) : bool :=
  match w, b with WResolve, BPath _ | WCopy _, BPath _ | WSend, BSent _ | WSleep, BWoke => true | _, _ => false end.
Definition come_back (r : Run) (b : Back) (now : Z) (s : St) : St :=
  match r_await r, b with
  | WResolve, BPath a => resolved r a now s
  | WCopy q, BPath a => copied r q a now s
  | WSend, BSent e => after_step r e now s
  | WSleep, BWoke => woke r s
  | _, _ => s
  end.
(** The [k]-th run's await comes back. *)
Definition back (k : nat) (b : Back) (now : Z) (s : St) : St :=
  match runs s !! k with
  | None => s
  | Some r =>
      if negb (fits (r_await r) b) then s
      else come_back r b now (note (NAnswered (r_key r) (r_gen r) (r_at r) b) (s <| runs := take k (runs s) ++ drop (S k) (runs s) |>))
  end.

(** * Actions *)

Definition busy (st : RunStatus) : bool := match st with Running _ _ _ | Sleeping _ _ _ _ _ => true | _ => false end.
Definition run (i host : str) (p now : Z) (s : St) : St :=
  match find_playlist i (playlists s) with
  | None => s
  | Some pl =>
      let key := keyOf host in
      if busy (status_at key s) then s else
      let s := s <| playlists := map (fun q => if decide (id q = i) then q <| lastRunAt := Some now |> else q) (playlists s) |> in
      let s := next key s in
      let r := {| r_key := key; r_gen := gen_at key s; r_id := i; r_host := host; r_port := p; r_steps := steps pl; r_continue := continueOnFailure pl;
                  r_at := 0; r_await := WSend; r_ok := 0; r_failures := [] |} in
      enter r (note (NBegan r) s)
  end.
Definition stop (host : str) (s : St) : St := setRunStatus (keyOf host) Idle (next (keyOf host) s).
Definition edit (f : list Playlist -> list Playlist) (s : St) : St := s <| playlists := f (playlists s) |>.
Definition or_untitled (n : str) : str := match n with [] => js "Untitled playlist" | _ => n end.
Definition createPlaylist (i n : str) (now : Z) : St -> St :=
  edit (fun l => l ++ [{| id := i; name := or_untitled n; steps := []; continueOnFailure := false; createdAt := now; updatedAt := now; lastRunAt := None |}]).
Definition renamePlaylist (i n : str) (now : Z) : St -> St := edit (fun l => patchPlaylist l i (fun p => p <| name := or_untitled n |>) now).
Definition setContinueOnFailure (i : str) (b : bool) (now : Z) : St -> St := edit (fun l => patchPlaylist l i (fun p => p <| continueOnFailure := b |>) now).
Definition setAutoLoader (f : AutoLoaderConfig -> AutoLoaderConfig) (s : St) : St := s <| autoLoader := f (autoLoader s) |>.
Definition import (doc : PlaylistExport) (newId : nat -> str) (now : Z) (s : St) : St :=
  let r := importPlaylists (playlists s) (autoLoader s) doc newId now in s <| playlists := r.1 |> <| autoLoader := r.2 |>.

Inductive Event :=
| ERun (i host : str) (p now : Z) | EStop (host : str) | EBack (k : nat) (b : Back) (now : Z)
| ECreate (i n : str) (now : Z) | ERename (i n : str) (now : Z) | EDelete (i : str) | EContinue (i : str) (b : bool) (now : Z)
| EUp (i : str) | EDown (i : str) | EAddStep (i : str) (st : PlaylistStep) (now : Z) | ERemoveStep (i : str) (k : nat) (now : Z)
| EStepUp (i : str) (k : nat) (now : Z) | EStepDown (i : str) (k : nat) (now : Z) | EUpdateStep (i : str) (k : nat) (f : PlaylistStep -> PlaylistStep) (now : Z)
| EAuto (f : AutoLoaderConfig -> AutoLoaderConfig) | EImport (doc : PlaylistExport) (newId : nat -> str) (now : Z).
Definition step (s : St) (e : Event) : St :=
  match e with
  | ERun i h p now => run i h p now s
  | EStop h => stop h s
  | EBack k b now => back k b now s
  | ECreate i n now => createPlaylist i n now s
  | ERename i n now => renamePlaylist i n now s
  | EDelete i => edit (fun l => removePlaylist l i) s
  | EContinue i b now => setContinueOnFailure i b now s
  | EUp i => edit (fun l => movePlaylistUp l i) s
  | EDown i => edit (fun l => movePlaylistDown l i) s
  | EAddStep i st now => edit (fun l => appendStep l i st now) s
  | ERemoveStep i k now => edit (fun l => removeStep l i k now) s
  | EStepUp i k now => edit (fun l => moveStepUp l i k now) s
  | EStepDown i k now => edit (fun l => moveStepDown l i k now) s
  | EUpdateStep i k f now => edit (fun l => updateStep l i k f now) s
  | EAuto f => setAutoLoader f s
  | EImport doc newId now => import doc newId now s
  end.
Definition history (evs : list Event) : St := fold_left step evs init.

(** * The invariant *)

Definition tag (r : Run) : str * Z := (r_key r, r_gen r).
Definition same_run (r0 r : Run) : Prop :=
  tag r0 = tag r /\ r_id r0 = r_id r /\ r_host r0 = r_host r /\ r_port r0 = r_port r /\ r_steps r0 = r_steps r /\ r_continue r0 = r_continue r.
Definition began (l : list Note) (r : Run) : Prop := exists r0, NBegan r0 ∈ l /\ same_run r0 r.
(** The steps a run has sent, in order. *)
Definition sent_by (t : str * Z) (n : Note) : option nat :=
  match n with NSent key gen at_ _ _ _ => if decide ((key, gen) = t) then Some at_ else None | _ => None end.
Definition sent_of (t : str * Z) (l : list Note) : list nat := omap (sent_by t) l.
Definition began_tag (n : Note) : option (str * Z) := match n with NBegan r => Some (tag r) | _ => None end.
(** How the steps of a run ended, by what came back: sent, or what went wrong. *)
Definition ended_by (t : str * Z) (n : Note) : option (nat * option str) :=
  match n with
  | NAnswered key gen at_ b =>
      if decide ((key, gen) = t) then match b with BSent e => Some (at_, e) | BPath (inr e) => Some (at_, Some e) | _ => None end else None
  | _ => None
  end.
Definition results_of (t : str * Z) (l : list Note) : list (nat * option str) := omap (ended_by t) l.
(** The steps that went well, and those that did not, each with its error. *)
Definition went (rs : list (nat * option str)) : list nat := omap (fun x => match x.2 with None => Some x.1 | Some _ => None end) rs.
Definition failed (rs : list (nat * option str)) : list (nat * str) := omap (fun x => e ← x.2; Some (x.1, e)) rs.
(** The path that is sent for a step: its own or the resolver's, or the copy made of that. *)
Definition from_step (l : list Note) (t : str * Z) (at_ : nat) (st : PlaylistStep) (p : str) : Prop :=
  exists q, (if isRepoStep st then NResolved t.1 t.2 at_ q ∈ l else q = path st) /\
            (if isRemotePath q then NCopied t.1 t.2 at_ q p ∈ l else p = q).
(** Before the copy of the source of a step that is to be sent. *)
Definition source_of (l : list Note) (t : str * Z) (at_ : nat) (st : PlaylistStep) (q : str) : Prop :=
  if isRepoStep st then NResolved t.1 t.2 at_ q ∈ l else q = path st.
Definition note_ok (s : St) (n : Note) : Prop :=
  match n with
  | NBegan r => r_gen r <= gen_at (r_key r) s
  | NSent key gen at_ h p po =>
      gen <= gen_at key s /\
      exists r0 st, NBegan r0 ∈ log s /\ tag r0 = (key, gen) /\ r_steps r0 !! at_ = Some st /\ h = stepHost st (r_host r0) /\ po = stepPort st (r_port r0) /\
        from_step (log s) (key, gen) at_ st p
  | NAnswered key gen at_ b =>
      gen <= gen_at key s /\ match b with BSent _ => at_ ∈ sent_of (key, gen) (log s) | _ => True end
  | _ => True
  end.
(** What a status that is not of a run under way tells. *)
Definition ended_ok (s : St) (key : str) (st : RunStatus) : Prop :=
  match st with
  | Done i h ok f fs => exists r0, NBegan r0 ∈ log s /\ tag r0 = (key, gen_at key s) /\ r_id r0 = i /\ r_host r0 = h /\
      let rs := results_of (tag r0) (log s) in
      map fst rs = seq 0 (length (r_steps r0)) /\ ok = length (went rs) /\ fs = failed rs /\ f = length fs /\ (r_continue r0 = false -> fs = [])
  | Failed i h at_ e => exists r0, NBegan r0 ∈ log s /\ tag r0 = (key, gen_at key s) /\ r_id r0 = i /\ r_host r0 = h /\
      let rs := results_of (tag r0) (log s) in
      (at_ < length (r_steps r0))%nat /\ r_continue r0 = false /\ map fst rs = seq 0 (S at_) /\ failed rs = [(at_, e)]
  | Idle => forall r0, NBegan r0 ∈ log s -> tag r0 <> (key, gen_at key s)
  | _ => True
  end.
Record base (s : St) : Prop := {
  b_notes : forall n, n ∈ log s -> note_ok s n;
  b_sorted : forall t, StronglySorted lt (sent_of t (log s));
  b_began : NoDup (omap began_tag (log s)) }.
(** A run that has sent no step from [m] on. *)
Record ready (r : Run) (m : nat) (s : St) : Prop := {
  h_gen : r_gen r <= gen_at (r_key r) s;
  h_began : began (log s) r;
  h_fails : r_continue r = false -> r_failures r = [];
  h_sent : forall k, k ∈ sent_of (tag r) (log s) -> (k < m)%nat }.
(** It has tried its first [n] steps, with these results. *)
Definition counts (r : Run) (rs : list (nat * option str)) (n : nat) : Prop :=
  map fst rs = seq 0 n /\ r_ok r = length (went rs) /\ r_failures r = failed rs.
Definition holds (r : Run) (n m : nat) (s : St) : Prop := ready r m s /\ counts r (results_of (tag r) (log s)) n.
Definition live (r : Run) (s : St) : Prop := gen_at (r_key r) s = r_gen r.
Definition tried (r : Run) : nat := match r_await r with WSleep => S (r_at r) | _ => r_at r end.
Definition unsent (r : Run) : nat := match r_await r with WSend | WSleep => S (r_at r) | _ => r_at r end.
Definition shown (r : Run) (st : RunStatus) : Prop :=
  match r_await r with
  | WSleep => exists since ms, st = Sleeping (r_id r) (r_host r) (r_at r) since ms
  | _ => st = Running (r_id r) (r_at r) (r_host r)
  end.
Definition at_step (r : Run) (s : St) : Prop :=
  exists st, r_steps r !! r_at r = Some st /\
    match r_await r with WResolve => isRepoStep st = true | WCopy q => isRemotePath q = true /\ source_of (log s) (tag r) (r_at r) st q
    | WSend => r_at r ∈ sent_of (tag r) (log s) | WSleep => True end.
Definition kept (s : St) (r : Run) : Prop :=
  holds r (tried r) (unsent r) s /\ at_step r s /\ (live r s -> shown r (status_at (r_key r) s)).
(** The invariant, with the runs of [h] in hand. *)
Record inv (h : list Run) (s : St) : Prop := {
  i_base : base s;
  i_uniq : NoDup (map tag (h ++ runs s));
  i_runs : forall r, r ∈ runs s -> kept s r;
  i_busy : forall key, busy (status_at key s) = true -> exists r, r ∈ h ++ runs s /\ r_key r = key /\ live r s;
  i_ended : forall key, (exists r, r ∈ h /\ r_key r = key /\ live r s) \/ ended_ok s key (status_at key s) }.

(** ** Notes *)

Lemma sent_of_app t l n : sent_of t (l ++ [n]) = sent_of t l ++ option_list (sent_by t n).
Proof. unfold sent_of. rewrite omap_app. simpl. by destruct (sent_by t n). Qed.
Lemma results_of_app t l n : results_of t (l ++ [n]) = results_of t l ++ option_list (ended_by t n).
Proof. unfold results_of. rewrite omap_app. simpl. by destruct (ended_by t n). Qed.
Lemma began_grows l n r : began l r -> began (l ++ [n]) r.
Proof. intros (r0 & H & Hs). exists r0. split; [apply elem_of_app; by left|done]. Qed.
Lemma source_grows l n t k st q : source_of l t k st q -> source_of (l ++ [n]) t k st q.
Proof. unfold source_of. destruct (isRepoStep st); [|done]. rewrite elem_of_app. by left. Qed.
Lemma from_grows l n t k st p : from_step l t k st p -> from_step (l ++ [n]) t k st p.
Proof.
  intros (q & H1 & H2). exists q. split; [by apply source_grows|]. destruct (isRemotePath q); [|done]. rewrite elem_of_app. by left.
Qed.
Lemma sent_grows t l n k : k ∈ sent_of t l -> k ∈ sent_of t (l ++ [n]).
Proof. intros H. rewrite sent_of_app. apply elem_of_app. by left. Qed.
Lemma note_grows s n m : note_ok s m -> note_ok (note n s) m.
Proof.
  destruct m as [r|? ? ? b|? ? ? ?|? ? ? ? ?|key gen k h p po]; simpl; try done.
  - intros [H1 H2]. split; [done|]. destruct b; try done. by apply sent_grows.
  - intros (H1 & r0 & st & H2 & H3 & H4 & H5 & H6 & H7). split; [done|]. exists r0, st. split_and!; [apply elem_of_app; by left|done..|by apply from_grows].
Qed.
Lemma ended_grows s n key st : ended_by (key, gen_at key s) n = None -> began_tag n <> Some (key, gen_at key s) -> ended_ok s key st -> ended_ok (note n s) key st.
Proof.
  intros Hn Hnb. assert (results_of (key, gen_at key s) (log (note n s)) = results_of (key, gen_at key s) (log s)) as Hr by (simpl; by rewrite results_of_app, Hn, app_nil_r).
  destruct st; simpl; try done; [intros H r0 [Hr1|Hr1%list_elem_of_singleton]%elem_of_app; [by apply H|subst n; intros Ht; apply Hnb; simpl; by rewrite Ht]|..]; intros (r0 & H1 & H2 & H3 & H4 & H5); exists r0; rewrite H2 in *; change (log s ++ [n]) with (log (note n s)); rewrite Hr; (split; [apply elem_of_app; by left|done]).
Qed.
Lemma holds_same r n m s s' : gens s' = gens s -> log s' = log s -> holds r n m s -> holds r n m s'.
Proof. intros Hg Hl [[H1 H2 H3 H4] H5]. split; [|by rewrite Hl]. split; [unfold gen_at; by rewrite Hg|by rewrite Hl..|done|by rewrite Hl]. Qed.
(** A note of another run. *)
Definition not_of (t : str * Z) (n : Note) : Prop := sent_by t n = None /\ ended_by t n = None.
Lemma ready_grows r m s x : sent_by (tag r) x = None -> ready r m s -> ready r m (note x s).
Proof. intros Hx [H1 H2 H3 H4]. split; [done|by apply began_grows|done|]. simpl. by rewrite sent_of_app, Hx, app_nil_r. Qed.
Lemma holds_grows r n m s x : not_of (tag r) x -> holds r n m s -> holds r n m (note x s).
Proof. intros [Hx Hy] [H1 H2]. split; [by apply ready_grows|]. simpl. by rewrite results_of_app, Hy, app_nil_r. Qed.
Lemma at_step_grows r n s : at_step r s -> at_step r (note n s).
Proof.
  intros (st & H1 & H2). exists st. split; [done|]. destruct (r_await r); try done; [|by apply sent_grows]. destruct H2 as [H2 H3]. split; [done|]. by apply source_grows.
Qed.
(** The run in hand notes what it does. *)
Lemma own_note_inv r n s : (forall t, t <> tag r -> not_of t n) -> began_tag n = None -> note_ok (note n s) n ->
  (forall k, sent_by (tag r) n = Some k -> forall k', k' ∈ sent_of (tag r) (log s) -> (k' < k)%nat) -> inv [r] s -> inv [r] (note n s).
Proof.
  intros Ho Hb Hn Hlt Hi. assert (forall r', r' ∈ runs s -> tag r' <> tag r) as Hne.
  { intros r' Hr' Ht. pose proof (i_uniq _ _ Hi) as Hu. apply NoDup_cons in Hu as [Hu _]. apply Hu. rewrite <- Ht. by apply list_elem_of_fmap_2. }
  split.
  - destruct (i_base _ _ Hi) as [H1 H2 H3]. split.
    + intros m [Hm| ->%list_elem_of_singleton]%elem_of_app; [by apply note_grows, H1|done].
    + intros t. simpl. rewrite sent_of_app. destruct (decide (t = tag r)) as [->|Ht]; [|destruct (Ho t Ht) as [-> _]; by rewrite app_nil_r].
      destruct (sent_by (tag r) n) as [k|]; simpl; [|by rewrite app_nil_r].
      apply StronglySorted_app_2; [|by apply H2|by repeat constructor]. intros x y Hx ->%list_elem_of_singleton. by apply (Hlt k).
    + simpl. rewrite omap_app. simpl. by rewrite Hb, app_nil_r.
  - apply Hi.
  - intros r' Hr'. destruct (i_runs _ _ Hi r' Hr') as (H1 & H2 & H3). split_and!; [by apply holds_grows; [by apply Ho, Hne|]|by apply at_step_grows|done].
  - apply Hi.
  - intros key. destruct (i_ended _ _ Hi key) as [H|H]; [by left|]. destruct (decide ((key, gen_at key s) = tag r)) as [Ht|Ht].
    + left. exists r. injection Ht as -> Hg. by split_and!; [left| |].
    + right. apply ended_grows; [by apply Ho|by rewrite Hb|done].
Qed.
(** A note of a resolved or copied path changes nothing that holds. *)
Definition is_path_note (n : Note) : bool := match n with NResolved _ _ _ _ | NCopied _ _ _ _ _ => true | _ => false end.
Lemma path_note_not_of t n : is_path_note n = true -> not_of t n.
Proof. by destruct n. Qed.
Lemma path_note_inv r n s : is_path_note n = true -> inv [r] s -> inv [r] (note n s).
Proof. intros Hn. apply own_note_inv; [intros t _; by apply path_note_not_of|by destruct n..]. Qed.
Lemma sent_note_inv r st p s : inv [r] s -> holds r (r_at r) (r_at r) s -> r_steps r !! r_at r = Some st -> from_step (log s) (tag r) (r_at r) st p ->
  let s' := note (NSent (r_key r) (r_gen r) (r_at r) (stepHost st (r_host r)) p (stepPort st (r_port r))) s in
  inv [r] s' /\ holds r (r_at r) (S (r_at r)) s' /\ r_at r ∈ sent_of (tag r) (log s').
Proof.
  intros Hi [Hr Hc] Hst Hp s'. set (n := NSent _ _ _ _ _ _) in *.
  assert (sent_by (tag r) n = Some (r_at r)) as Hsr by (unfold n, tag; simpl; by rewrite decide_True).
  assert (sent_of (tag r) (log s') = sent_of (tag r) (log s) ++ [r_at r]) as Hs by (simpl; by rewrite sent_of_app, Hsr).
  split_and!.
  - apply own_note_inv; [|done| | |done].
    + intros t Ht. unfold n, tag, not_of in *. simpl. by rewrite decide_False.
    + split; [apply (h_gen _ _ _ Hr)|]. destruct (h_began _ _ _ Hr) as (r0 & Hr0 & Ht & _ & Hho & Hpo & Hss & _). exists r0, st.
      split_and!; [apply elem_of_app; by left|done|by rewrite Hss|by rewrite Hho|by rewrite Hpo|by apply from_grows].
    + rewrite Hsr. intros k [= <-]. apply (h_sent _ _ _ Hr).
  - split; [|simpl; by rewrite results_of_app, app_nil_r]. destruct Hr as [G1 G2 G3 G4]. split; [done|by apply began_grows|done|]. rewrite Hs.
    intros k [Hk|Hk%list_elem_of_singleton]%elem_of_app; [specialize (G4 k Hk); lia|lia].
  - rewrite Hs. apply elem_of_app. right. by left.
Qed.
(** What comes back to it. *)
Lemma answered_inv r b s : inv [r] s -> kept s r -> fits (r_await r) b = true ->
  let n := NAnswered (r_key r) (r_gen r) (r_at r) b in inv [r] (note n s) /\ sent_by (tag r) n = None.
Proof.
  intros Hi ([Hr Hc] & (st & Hst & Ha) & Hs) Hf n. split; [|done]. apply own_note_inv; [|done| |done|done].
  - intros t Ht. unfold n, tag, not_of in *. simpl. by rewrite decide_False.
  - split; [apply (h_gen _ _ _ Hr)|]. destruct b; try done. destruct (r_await r); try done. by apply sent_grows.
Qed.

(** ** Statuses *)

Lemma live_iff r s : isLive r s = true <-> live r s.
Proof. unfold isLive, live. by rewrite Z.eqb_eq. Qed.
Lemma status_set key st s k : status_at k (setRunStatus key st s) = if decide (k = key) then st else status_at k s.
Proof.
  unfold status_at, setRunStatus. simpl. destruct (decide (k = key)) as [->|]; [by rewrite lookup_insert_eq|by rewrite lookup_insert_ne].
Qed.
(** A live run in hand is the only live one of its console. *)
Lemma only_live r s r' : inv [r] s -> live r s -> r' ∈ runs s -> r_key r' = r_key r -> ~ live r' s.
Proof.
  intros Hi Hl Hr' Hk Hl'. pose proof (i_uniq _ _ Hi) as Hu. apply NoDup_cons in Hu as [Hu _]. apply Hu. apply list_elem_of_fmap. exists r'.
  split; [|done]. unfold tag, live in *. rewrite Hk in *. congruence.
Qed.
Lemma status_inv r st s : inv [r] s -> live r s -> inv [r] (setRunStatus (r_key r) st s).
Proof.
  intros Hi Hl. split.
  - destruct (i_base _ _ Hi). by split.
  - apply Hi.
  - intros r' Hr'. destruct (i_runs _ _ Hi r' Hr') as (H1 & H2 & H3). split_and!; [by apply (holds_same _ _ _ s)|done|]. intros Hl'. rewrite status_set.
    rewrite decide_False; [by apply H3|]. intros Hk. by eapply (only_live r s r').
  - intros key. rewrite status_set. case_decide as Hk; [|apply Hi]. intros _. exists r. split; [by left|done].
  - intros key. destruct (decide (key = r_key r)) as [->|Hk]; [left; exists r; split; [by left|done]|]. rewrite status_set, decide_False by done. apply Hi.
Qed.
(** A run let go: one that is not live, or whose console tells how it ended. *)
Lemma drop_inv r s : inv [r] s -> (live r s -> busy (status_at (r_key r) s) = false /\ ended_ok s (r_key r) (status_at (r_key r) s)) -> inv [] s.
Proof.
  intros Hi He. split; [apply Hi| |apply Hi| |].
  - pose proof (i_uniq _ _ Hi) as Hu. by apply NoDup_cons in Hu as [_ Hu].
  - intros key Hb. destruct (i_busy _ _ Hi key Hb) as (r' & [->|Hr']%elem_of_cons & Hk & Hl); [|by exists r']. subst key. destruct (He Hl). congruence.
  - intros key. right. destruct (i_ended _ _ Hi key) as [(r' & ->%list_elem_of_singleton & <- & Hl)|H]; [|done]. by apply He.
Qed.
Lemma dead_inv r s : inv [r] s -> isLive r s = false -> inv [] s.
Proof. intros Hi El. apply (drop_inv r); [done|]. intros H%live_iff. congruence. Qed.
Lemma wait_inv r w s : inv [r] s -> let r' := r <| r_await := w |> in
  kept s r' -> inv [] (wait r w s).
Proof.
  intros Hi r' Hk. assert (live r' s -> busy (status_at (r_key r) s) = true /\ ended_ok s (r_key r) (status_at (r_key r) s)) as Hsh.
  { intros Hl. destruct Hk as (_ & _ & Hs). specialize (Hs Hl). unfold shown in Hs. change (r_key r') with (r_key r) in Hs. destruct (r_await r'); [..|destruct Hs as (? & ? & Hs)]; by rewrite Hs. }
  split.
  - destruct (i_base _ _ Hi). by split.
  - change (NoDup (map tag (runs s ++ [r']))). rewrite map_app. simpl. rewrite (Permutation_app_comm _ [tag r']). apply (i_uniq _ _ Hi).
  - assert (forall x, kept s x -> kept (wait r w s) x) as Hw by (intros x (H1 & H2 & H3); split_and!; [by apply (holds_same _ _ _ s)|done|done]).
    intros x Hx. simpl in Hx. apply elem_of_app in Hx as [Hx|Hx%list_elem_of_singleton]; [|subst x; by apply Hw]. by apply Hw, (i_runs _ _ Hi).
  - intros key Hb. destruct (i_busy _ _ Hi key Hb) as (x & [->|Hx]%elem_of_cons & Hkx & Hl); [exists r'|exists x]; (split; [simpl; apply elem_of_app|done]); [right; by left|by left].
  - intros key. right. destruct (i_ended _ _ Hi key) as [(x & ->%list_elem_of_singleton & <- & Hl)|H]; [|done]. by apply Hsh.
Qed.

(** ** The steps of a run *)

Lemma holds_status r n m key st s : holds r n m s -> holds r n m (setRunStatus key st s).
Proof. by apply holds_same. Qed.
Lemma holds_await r w n m s : holds r n m s -> holds (r <| r_await := w |>) n m s.
Proof. by intros [[] ?]. Qed.
Lemma send_inv r st p s : inv [r] s -> holds r (r_at r) (r_at r) s -> r_steps r !! r_at r = Some st -> from_step (log s) (tag r) (r_at r) st p ->
  (live r s -> status_at (r_key r) s = Running (r_id r) (r_at r) (r_host r)) -> inv [] (send r st p s).
Proof.
  intros Hi Hh Hst Hp Hs. destruct (sent_note_inv r st p s Hi Hh Hst Hp) as (Hi' & Hh' & Hin). apply wait_inv; [done|].
  split_and!; [by apply holds_await|by exists st|exact Hs].
Qed.
Lemma copy_inv r st q s : inv [r] s -> holds r (r_at r) (r_at r) s -> r_steps r !! r_at r = Some st -> source_of (log s) (tag r) (r_at r) st q ->
  (live r s -> status_at (r_key r) s = Running (r_id r) (r_at r) (r_host r)) -> inv [] (with_local_copy r st q s).
Proof.
  intros Hi Hh Hst Hq Hs. unfold with_local_copy. destruct (isRemotePath q) eqn:Er.
  - apply wait_inv; [done|]. split_and!; [by apply holds_await| |exact Hs]. exists st. split; [done|]. split; [done|exact Hq].
  - apply send_inv; [done..| |done]. exists q. rewrite Er. by split.
Qed.
(** The last step is over: the console tells what came of each. *)
Lemma done_inv r s : inv [r] s -> holds r (r_at r) (r_at r) s -> r_at r = length (r_steps r) -> live r s ->
  inv [] (setRunStatus (r_key r) (Done (r_id r) (r_host r) (r_ok r) (length (r_failures r)) (r_failures r)) s).
Proof.
  intros Hi [Hr (C1 & C2 & C3)] Ha El. apply (drop_inv r); [by apply status_inv|]. intros _. rewrite status_set, decide_True by done. split; [done|].
  destruct (h_began _ _ _ Hr) as (r0 & H0 & Ht & Hid & Hho & _ & Hss & Hco). exists r0.
  split_and!; [done|rewrite Ht; unfold tag; f_equal; by symmetry|done|done|]. rewrite Ht, Hss, <- Ha. split_and!; [done..|rewrite Hco; apply (h_fails _ _ _ Hr)].
Qed.
Lemma enter_inv r s : inv [r] s -> holds r (r_at r) (r_at r) s -> (r_at r <= length (r_steps r))%nat ->
  (live r s \/ ended_ok s (r_key r) (status_at (r_key r) s)) -> inv [] (enter r s).
Proof.
  intros Hi Hh Ha Hl. unfold enter. destruct (r_steps r !! r_at r) as [st|] eqn:Est.
  - destruct (isLive r s) eqn:El; simpl.
    + apply live_iff in El. set (s' := setRunStatus _ _ s). assert (inv [r] s') as Hi' by (by apply status_inv).
      assert (holds r (r_at r) (r_at r) s') as Hh' by (by apply holds_status).
      assert (live r s' -> status_at (r_key r) s' = Running (r_id r) (r_at r) (r_host r)) as Hs by (intros _; unfold s'; by rewrite status_set, decide_True).
      destruct (isRepoStep st) eqn:Er.
      * apply wait_inv; [done|]. split_and!; [by apply holds_await|by exists st|exact Hs].
      * apply copy_inv; [done..| |done]. unfold source_of. by rewrite Er.
    + exact (dead_inv r s Hi El).
  - apply lookup_ge_None in Est. destruct (isLive r s) eqn:El; [|exact (dead_inv r s Hi El)].
    apply live_iff in El. apply done_inv; [done..|lia|done].
Qed.
Lemma hand_over r r1 s : tag r1 = tag r -> inv [r] s -> inv [r1] s.
Proof.
  intros Ht Hi. assert (r_key r1 = r_key r /\ (live r s -> live r1 s)) as [Hk Hl].
  { injection Ht as Hk Hg. split; [done|]. unfold live. congruence. }
  split; [apply Hi| |apply Hi| |].
  - change (NoDup (tag r1 :: map tag (runs s))). rewrite Ht. apply (i_uniq _ _ Hi).
  - intros key Hb. destruct (i_busy _ _ Hi key Hb) as (x & [->|Hx]%elem_of_cons & Hkx & Hlx); [exists r1|exists x]; (split; [|split]); try done; [by left|by rewrite Hk|by apply Hl|by right].
  - intros key. destruct (i_ended _ _ Hi key) as [(x & ->%list_elem_of_singleton & <- & Hlx)|H]; [left|by right]. exists r1. split; [by left|]. by auto.
Qed.
Lemma go_on_inv r now s : inv [r] s -> holds r (S (r_at r)) (S (r_at r)) s -> (r_at r < length (r_steps r))%nat -> inv [] (go_on r now s).
Proof.
  intros Hi Hh Ha. unfold go_on. destruct (isLive r s) eqn:El; [|exact (dead_inv r s Hi El)].
  apply live_iff in El. simpl negb. cbv iota. destruct (lookup_lt_is_Some_2 _ _ Ha) as [st Hst]. rewrite Hst. destruct ((0 <? sleepMs st) && _).
  - apply wait_inv; [by apply status_inv|]. split_and!.
    + by apply holds_status, holds_await.
    + by exists st.
    + intros _. change (r_key (r <| r_await := WSleep |>)) with (r_key r). rewrite status_set, decide_True by done. unfold shown. simpl. eauto.
  - apply enter_inv; [by apply (hand_over r)|by destruct Hh as [[] ?]|simpl; lia|by left].
Qed.
(** A run whose last answer is the result of its step, not counted yet. *)
Definition answered (r : Run) (result : option str) (s : St) : Prop :=
  ready r (S (r_at r)) s /\ exists rs, results_of (tag r) (log s) = rs ++ [(r_at r, result)] /\ counts r rs (r_at r).
Lemma went_app l1 l2 : went (l1 ++ l2) = went l1 ++ went l2.
Proof. apply omap_app. Qed.
Lemma failed_app l1 l2 : failed (l1 ++ l2) = failed l1 ++ failed l2.
Proof. apply omap_app. Qed.
Lemma counted r result r1 s : answered r result s -> tag r1 = tag r -> ready r1 (S (r_at r)) s ->
  r_ok r1 = (r_ok r + match result with None => 1 | _ => 0 end)%nat -> r_failures r1 = r_failures r ++ match result with Some e => [(r_at r, e)] | None => [] end ->
  holds r1 (S (r_at r)) (S (r_at r)) s.
Proof.
  intros (_ & rs & Hrs & C1 & C2 & C3) Ht Hr Hok Hf. split; [done|]. rewrite Ht, Hrs. split_and!.
  - rewrite map_app, C1, seq_S. done.
  - rewrite Hok, C2, went_app, length_app. by destruct result.
  - rewrite Hf, C3, failed_app. by destruct result.
Qed.
Lemma after_step_inv r result now s : inv [r] s -> answered r result s -> (r_at r < length (r_steps r))%nat -> inv [] (after_step r result now s).
Proof.
  intros Hi Hh Ha. pose proof Hh as ([Ga Gb Gc Gd] & rs & Hrs & C1 & C2 & C3). unfold after_step. destruct result as [e|]; [destruct (r_continue r) eqn:Ec|].
  - apply go_on_inv; [by apply (hand_over r)| |done]. apply (counted r _ _ s Hh); [done| |simpl; lia|done]. split; [done..| |done]. simpl. congruence.
  - destruct (isLive r s) eqn:El; [|exact (dead_inv r s Hi El)]. apply live_iff in El.
    apply (drop_inv r); [by apply status_inv|]. intros _. rewrite status_set, decide_True by done. split; [done|].
    destruct Gb as (r0 & H0 & T1 & T2 & T3 & _ & T5 & T6). exists r0. split_and!; [done|rewrite T1; unfold tag; f_equal; by symmetry|done|done|].
    rewrite T1, T5. change (log (setRunStatus _ _ s)) with (log s). rewrite Hrs. split_and!; [done|congruence|by rewrite map_app, C1, seq_S|].
    rewrite failed_app, <- C3, Gc; done.
  - apply go_on_inv; [by apply (hand_over r)| |done]. apply (counted r _ _ s Hh); [done|by split|simpl; lia|by rewrite app_nil_r].
Qed.
Lemma resolved_inv r p now s : inv [r] s -> r_await r = WResolve -> kept s r -> inv [] (resolved r (inl p) now s).
Proof.
  intros Hi Hw (Hh & (st & Hst & Hat) & Hsh). unfold tried, unsent in Hh. unfold shown in Hsh. rewrite Hw in *. unfold resolved. rewrite Hst.
  set (s1 := if isLive r s && _ && _ then _ else s).
  assert (exists l, s1 = s <| playlists := l |>) as [l El] by (unfold s1; destruct (_ && _); [by eexists|exists (playlists s); by destruct s]).
  assert (inv [r] s1 /\ holds r (r_at r) (r_at r) s1) as [Hi1 Hh1].
  { rewrite El. split; [|by apply (holds_same _ _ _ s)]. destruct Hi as [[B1 B2 B3] J2 J3 J4 J5]. split; [by split|done| |done|done].
    intros r' Hr'. destruct (J3 r' Hr') as (H1 & H2 & H3). split_and!; [by apply (holds_same _ _ _ s)|done..]. }
  destruct (isLive r s1) eqn:Eli; [|exact (dead_inv r s1 Hi1 Eli)].
  simpl negb. cbv iota. apply copy_inv; [by apply path_note_inv|by apply holds_grows|done| |].
  - unfold source_of. rewrite Hat. apply elem_of_app. right. by left.
  - intros _. apply live_iff in Eli. rewrite El in Eli |- *. by apply Hsh.
Qed.
Lemma copied_inv r q p now s : inv [r] s -> r_await r = WCopy q -> kept s r -> inv [] (copied r q (inl p) now s).
Proof.
  intros Hi Hw (Hh & (st & Hst & Hat) & Hsh). unfold tried, unsent in Hh. unfold shown in Hsh. rewrite Hw in *. unfold copied. rewrite Hst.
  destruct Hat as [Hr Hq]. apply send_inv; [by apply path_note_inv|by apply holds_grows|done| |exact Hsh].
  exists q. split; [by apply source_grows|]. rewrite Hr. apply elem_of_app. right. by left.
Qed.
Lemma woke_inv r s : inv [r] s -> r_await r = WSleep -> kept s r -> inv [] (woke r s).
Proof.
  intros Hi Hw (Hh & (st & Hst & _) & _). unfold tried, unsent in Hh. rewrite Hw in Hh. unfold woke.
  destruct (isLive r s) eqn:El; [|exact (dead_inv r s Hi El)]. apply live_iff in El.
  apply lookup_lt_Some in Hst. apply enter_inv; [by apply (hand_over r)|by destruct Hh as [[] ?]|simpl; lia|by left].
Qed.
(** What the answer says of the step, when it says how the step ended. *)
Definition result_in (b : Back) : option (option str) := match b with BSent e => Some e | BPath (inr e) => Some (Some e) | _ => None end.
Lemma answered_note r b e s : kept s r -> fits (r_await r) b = true -> result_in b = Some e ->
  answered r e (note (NAnswered (r_key r) (r_gen r) (r_at r) b) s).
Proof.
  intros ([Hr Hc] & _ & _) Hf He. assert (tried r = r_at r /\ (unsent r <= S (r_at r))%nat) as [Ht Hu].
  { unfold tried, unsent. destruct (r_await r); try (split; [done|lia]). destruct b as [[|]| |]; done. }
  rewrite Ht in Hc. split.
  - apply ready_grows; [done|]. destruct Hr as [G1 G2 G3 G4]. split; [done..|]. intros k Hk. specialize (G4 k Hk). lia.
  - eexists. simpl. rewrite results_of_app. split; [|exact Hc]. f_equal. unfold tag. simpl. rewrite decide_True by done. destruct b as [[|]| |]; try done; by injection He as ->.
Qed.
Lemma kept_answered r b s : kept s r -> fits (r_await r) b = true -> result_in b = None -> kept (note (NAnswered (r_key r) (r_gen r) (r_at r) b) s) r.
Proof.
  intros (H1 & H2 & H3) Hf He. split_and!; [apply holds_grows; [|done]|by apply at_step_grows|done].
  split; [done|]. simpl. case_decide; [|done]. by destruct b as [[|]| |].
Qed.

(** ** Events *)

Lemma back_inv k b now s : inv [] s -> inv [] (back k b now s).
Proof.
  intros Hi. unfold back. destruct (runs s !! k) as [r|] eqn:Ek; [|done]. destruct (fits _ b) eqn:Ef; [|done]. simpl.
  set (rest := take k (runs s) ++ drop (S k) (runs s)). set (s1 := s <| runs := rest |>).
  assert (runs s ≡ₚ r :: rest) as Hp.
  { rewrite <- (take_drop_middle _ _ _ Ek) at 1. unfold rest. by rewrite Permutation_middle. }
  assert (kept s1 r) as Hk by (destruct (i_runs _ _ Hi r) as (H1 & H2 & H3); [by eapply list_elem_of_lookup_2|]; split_and!; [by apply (holds_same _ _ _ s)|done..]).
  assert (inv [r] s1) as Hi1.
  { destruct Hi as [[B1 B2 B3] J2 J3 J4 J5]. split; [by split| | | |].
    - change (NoDup (map tag (r :: rest))). by rewrite <- Hp.
    - intros x Hx. destruct (J3 x) as (H1 & H2 & H3); [rewrite Hp; by right|]. split_and!; [by apply (holds_same _ _ _ s)|done..].
    - intros key Hb. destruct (J4 key Hb) as (x & Hx & H). exists x. simpl in Hx. by rewrite Hp in Hx.
    - intros key. destruct (J5 key) as [(x & Hx%elem_of_nil & _)|H]; [done|by right]. }
  destruct (answered_inv r b s1 Hi1 Hk Ef) as [Hi2 _]. fold s1.
  assert (r_at r < length (r_steps r))%nat as Hat by (destruct Hk as (_ & (st & Hst & _) & _); by eapply lookup_lt_Some).
  destruct (result_in b) as [e|] eqn:Eb.
  - pose proof (answered_note r b e s1 Hk Ef Eb) as Ha. pose proof (after_step_inv r e now _ Hi2 Ha Hat) as H. destruct (lookup_lt_is_Some_2 _ _ Hat) as [st Hst].
    unfold come_back. destruct (r_await r), b as [[|]| |]; try done; simpl in Eb; simplify_eq; try done; unfold resolved, copied; by rewrite Hst.
  - pose proof (kept_answered r b s1 Hk Ef Eb) as Hk2. unfold come_back. destruct (r_await r) as [|q| |] eqn:Ew, b as [[p|]| |]; try done.
    + by apply resolved_inv.
    + by apply copied_inv.
    + by apply woke_inv.
Qed.
Lemma inv_playlists s l a : inv [] s -> inv [] (s <| playlists := l |> <| autoLoader := a |>).
Proof.
  intros [[B1 B2 B3] J2 J3 J4 J5]. split; [by split|done| |done|done].
  intros r Hr. destruct (J3 r Hr) as (H1 & H2 & H3). split_and!; [by apply (holds_same _ _ _ s)|done..].
Qed.
Lemma gen_next key s k : gen_at k (next key s) = if decide (k = key) then gen_at key s + 1 else gen_at k s.
Proof. unfold gen_at at 1, next. simpl. destruct (decide (k = key)) as [->|]; [by rewrite lookup_insert_eq|by rewrite lookup_insert_ne]. Qed.
Lemma gen_grows key s k : gen_at k s <= gen_at k (next key s).
Proof. rewrite gen_next. case_decide; subst; lia. Qed.
Lemma next_base key s : base s -> base (next key s).
Proof.
  intros [B1 B2 B3]. split; [|done..]. intros n Hn. specialize (B1 n Hn). destruct n as [r|k g a b|? ? ? ?|? ? ? ? ?|k g a h p po]; try done; simpl in *.
  - pose proof (gen_grows key s (r_key r)). lia.
  - destruct B1 as [B1 B1']. split; [|done]. pose proof (gen_grows key s k). lia.
  - destruct B1 as [B1 B1']. split; [|done]. pose proof (gen_grows key s k). lia.
Qed.
(** After a console's generation moves on, none of its runs is live; the others are as they were. *)
Lemma next_live key s r : r_gen r <= gen_at (r_key r) s -> live r (next key s) <-> r_key r <> key /\ live r s.
Proof. intros Hg. unfold live. rewrite gen_next. case_decide as Hk; [rewrite Hk in Hg; split; [lia|by intros [? _]]|]. tauto. Qed.
Lemma next_kept key s r : kept s r -> kept (next key s) r.
Proof.
  intros (H1 & H2 & H3). split_and!; [|done|].
  - destruct H1 as [[] ?]. split; [|done]. split; [|done..]. pose proof (gen_grows key s (r_key r)). lia.
  - intros [_ Hl]%next_live; [by apply H3|apply (h_gen _ _ _ (proj1 H1))].
Qed.
Lemma stop_inv host s : inv [] s -> inv [] (stop host s).
Proof.
  intros [J1 J2 J3 J4 J5]. unfold stop. set (key := keyOf host). assert (forall r, r ∈ runs s -> r_gen r <= gen_at (r_key r) s) as Hg by (intros r Hr; destruct (J3 r Hr) as (H & _); apply (h_gen _ _ _ (proj1 H))).
  split.
  - destruct (next_base key s J1). by split.
  - done.
  - intros r Hr. destruct (next_kept key s r (J3 r Hr)) as (H1 & H2 & H3). split_and!; [by apply holds_status|done|]. intros Hl. rewrite status_set.
    rewrite decide_False; [by apply H3|]. by apply (next_live key s r (Hg r Hr)) in Hl as [? _].
  - intros k. rewrite status_set. case_decide as Hk; [done|]. intros Hb. destruct (J4 k Hb) as (r & Hr & <- & Hl). exists r. split_and!; [done..|].
    apply (next_live key s r (Hg r Hr)). by split.
  - intros k. right. rewrite status_set. case_decide as Hk.
    { subst k. intros r0 Hr0 Ht. pose proof (b_notes _ J1 _ Hr0) as Hle. simpl in Hle. injection Ht as Hk Hgr. rewrite Hk in Hle.
      change (gen_at key (setRunStatus key Idle (next key s))) with (gen_at key (next key s)) in Hgr. rewrite gen_next, decide_True in Hgr by done. lia. } destruct (J5 k) as [(r & Hr%elem_of_nil & _)|He]; [done|].
    assert (gen_at k (setRunStatus key Idle (next key s)) = gen_at k s) as Hgk by (change (gen_at k (next key s) = gen_at k s); by rewrite gen_next, decide_False).
    change (status_at k (next key s)) with (status_at k s). destruct (status_at k s); simpl in *; rewrite ?Hgk; done.
Qed.
Lemma run_begins_inv r s : inv [] s -> busy (status_at (r_key r) s) = false -> r_gen r = gen_at (r_key r) s + 1 -> r_ok r = O -> r_failures r = [] ->
  let s' := note (NBegan r) (next (r_key r) s) in inv [r] s' /\ holds r 0 0 s'.
Proof.
  intros [J1 J2 J3 J4 J5] Hb Hgen Hok Hf s'. set (key := r_key r) in *.
  assert (forall x, x ∈ runs s -> r_gen x <= gen_at (r_key x) s) as Hg by (intros x Hx; destruct (J3 x Hx) as (H & _); apply (h_gen _ _ _ (proj1 H))).
  assert (forall t, sent_of t (log s') = sent_of t (log s)) as Hsent by (intros t; simpl; by rewrite sent_of_app, app_nil_r).
  assert (forall t, results_of t (log s') = results_of t (log s)) as Hres by (intros t; simpl; by rewrite results_of_app, app_nil_r).
  assert (gen_at key s' = gen_at key s + 1) as Hgk by (change (gen_at key (next key s) = gen_at key s + 1); by rewrite gen_next, decide_True).
  assert (forall k, k <> key -> gen_at k s' = gen_at k s) as Hgo by (intros k Hk; change (gen_at k (next key s) = gen_at k s); by rewrite gen_next, decide_False).
  assert (live r s') as Hlr by (unfold live; fold key; by rewrite Hgk, Hgen).
  split; [split|].
  - destruct (next_base key s J1) as [B1 B2 B3]. split.
    + intros n [Hn|Hn%list_elem_of_singleton]%elem_of_app; [by apply note_grows, B1|]. subst n. simpl. fold key. rewrite Hgk. lia.
    + intros t. rewrite Hsent. apply B2.
    + simpl. rewrite omap_app. simpl. apply NoDup_app. split_and!; [done| |by apply NoDup_singleton].
      intros t (n & Hn & Ht)%list_elem_of_omap Ht'%list_elem_of_singleton. subst t. destruct n as [x| | | |]; try done. injection Ht as Hk Hgx.
      pose proof (b_notes _ J1 _ Hn) as Hx. simpl in Hx. rewrite Hk in Hx. fold key in Hx. lia.
  - simpl. constructor; [|done]. intros (x & Ht & Hx)%list_elem_of_fmap. injection Ht as Hk Hgx. specialize (Hg x Hx). rewrite <- Hk in Hg. fold key in Hg. lia.
  - intros x Hx. destruct (next_kept key s x (J3 x Hx)) as (H1 & H2 & H3). split_and!; [by apply holds_grows|by apply at_step_grows|done].
  - intros k Hbk. destruct (decide (k = key)) as [->|Hk]; [exists r; split; [by left|done]|]. destruct (J4 k Hbk) as (x & Hx & <- & Hl). exists x.
    split; [by right|]. split; [done|]. unfold live in *. by rewrite Hgo.
  - intros k. destruct (decide (k = key)) as [->|Hk]; [left; exists r; split; [by left|done]|right]. destruct (J5 k) as [(x & Hx%elem_of_nil & _)|He]; [done|].
    apply ended_grows; [done|intros [= H _]; by apply Hk|]. change (status_at k s') with (status_at k s). pose proof (Hgo k Hk) as Hgk'. change (gen_at k (next key s) = gen_at k s) in Hgk'. destruct (status_at k s); simpl in *; rewrite ?Hgk'; done.
  - assert (forall n, n ∈ log s -> not_of (tag r) n) as Hno.
    { intros n Hn. pose proof (b_notes _ J1 _ Hn) as Hle. unfold not_of, tag. fold key. destruct n as [|k g a b| | |k g a h p po]; simpl in *; try done.
      all: destruct Hle as [Hle _]; split; try done; rewrite decide_False; [done|]; intros [= -> ->]; lia. }
    split; [split|].
    + fold key. rewrite Hgk. lia.
    + exists r. split; [apply elem_of_app; right; by left|done].
    + done.
    + rewrite Hsent. intros k (n & Hn & Hs)%list_elem_of_omap. destruct (Hno n Hn). congruence.
    + rewrite Hres. assert (results_of (tag r) (log s) = []) as ->; [|unfold counts; by rewrite Hok, Hf].
      destruct (results_of (tag r) (log s)) as [|x l] eqn:E; [done|]. assert (x ∈ results_of (tag r) (log s)) as Hx by (rewrite E; by left).
      apply list_elem_of_omap in Hx as (n & Hn & Hx). destruct (Hno n Hn). congruence.
Qed.
Lemma playlist_event_inv s e : inv [] s -> inv [] (step s e).
Proof.
  intros Hi. assert (forall l, inv [] (s <| playlists := l |>)) as He by (intros l; apply (inv_playlists s l (autoLoader s) Hi)).
  destruct e; simpl; try apply He; [|by apply stop_inv|by apply back_inv|by apply (inv_playlists s (playlists s))|by apply inv_playlists].
  unfold run. destruct (find_playlist i (playlists s)) as [pl|]; [|done]. destruct (busy (status_at (keyOf host) s)) eqn:Eb; [done|].
  set (s1 := s <| playlists := _ |>). assert (inv [] s1) as Hi1 by apply He. set (r := {| r_key := _; r_gen := _ |}).
  destruct (run_begins_inv r s1) as [H1 H2]; [done|exact Eb|unfold r; simpl; by rewrite gen_next, decide_True|done..|].
  apply enter_inv; [exact H1|exact H2|simpl; lia|left]. unfold live. simpl. reflexivity.
Qed.
Lemma playlists_inv evs : inv [] (history evs).
Proof.
  unfold history. assert (inv [] init) as H0.
  { split; [split; [by intros ? ?%elem_of_nil|intros t; apply SSorted_nil|apply NoDup_nil_2]|apply NoDup_nil_2|by intros ? ?%elem_of_nil|intros key; done|intros key]. right. change (ended_ok init key Idle). by intros r0 H%elem_of_nil. }
  revert H0. generalize init. induction evs as [|e evs IH]; intros s Hs; simpl; [done|]. by apply IH, playlist_event_inv.
Qed.

(** * The theorems *)

(** The address a step says, or else that of the run. *)
Definition addressed (st : PlaylistStep) (host : str) (p : Z) (h : str) (po : Z) : Prop :=
  ((exists i, ip st = Some i /\ trim i <> [] /\ h = trim i) \/ ((forall i, ip st = Some i -> trim i = []) /\ h = host)) /\
  ((exists q, port st = Some q /\ 0 < q /\ po = q) \/ ((forall q, port st = Some q -> q <= 0) /\ po = p)).
Lemma step_address st host p : addressed st host p (stepHost st host) (stepPort st p).
Proof.
  unfold stepHost, stepPort. split.
  - destruct (ip st) as [i|]; simpl; [|right; by split]. destruct (trim i) eqn:E; [right|left; exists i; by rewrite E]. split; [by intros ? [= <-]|done].
  - destruct (port st) as [q|]; [|right; by split]. destruct (Z.ltb_spec 0 q); [left; by exists q|right]. split; [by intros ? [= <-]|done].
Qed.
(** What a console's status says of its runs. *)
Definition status_true (s : St) (key : str) : Prop :=
  match status_at key s with
  | Running i at_ h => exists r, r ∈ runs s /\ r_key r = key /\ live r s /\ r_id r = i /\ r_host r = h /\ r_at r = at_ /\ r_await r <> WSleep
  | Sleeping i h at_ _ _ => exists r, r ∈ runs s /\ r_key r = key /\ live r s /\ r_id r = i /\ r_host r = h /\ r_at r = at_ /\ r_await r = WSleep
  | st => (forall r, r ∈ runs s -> r_key r = key -> ~ live r s) /\ ended_ok s key st
  end.
Lemma live_busy s r : inv [] s -> r ∈ runs s -> live r s -> busy (status_at (r_key r) s) = true.
Proof.
  intros Hi Hr Hl. destruct (i_runs _ _ Hi r Hr) as (_ & _ & Hs). specialize (Hs Hl). unfold shown in Hs.
  destruct (r_await r); [..|destruct Hs as (? & ? & Hs)]; by rewrite Hs.
Qed.
Lemma status_is_true s key : inv [] s -> status_true s key.
Proof.
  intros Hi. pose proof (live_busy s) as Hb. unfold status_true. destruct (i_ended _ _ Hi key) as [(r & Hr%elem_of_nil & _)|He]; [done|].
  destruct (busy (status_at key s)) eqn:E.
  - destruct (i_busy _ _ Hi key E) as (r & Hr & <- & Hl). destruct (i_runs _ _ Hi r Hr) as (_ & _ & Hs). specialize (Hs Hl). unfold shown in Hs.
    destruct (r_await r) eqn:Ew; [..|destruct Hs as (? & ? & Hs)]; rewrite Hs; exists r; by rewrite Ew.
  - assert (forall r, r ∈ runs s -> r_key r = key -> ~ live r s) as Hn by (intros r Hr <- Hl; rewrite (Hb r Hi Hr Hl) in E; done).
    destruct (status_at key s); done.
Qed.

(** ** Stop *)

Definition of_key (key : str) (r : Run) : bool := bool_decide (r_key r = key).
Definition is_sent_to (key : str) (n : Note) : bool := match n with NSent k _ _ _ _ _ => bool_decide (k = key) | _ => false end.
Definition sends_to (key : str) (s : St) : list Note := List.filter (is_sent_to key) (log s).
Definition runs_of (key : str) (s : St) : list Run := List.filter (of_key key) (runs s).
Definition is_copying (r : Run) : bool := match r_await r with WCopy _ => true | _ => false end.
Definition copying (key : str) (s : St) : nat := length (List.filter is_copying (runs_of key s)).
(** Nothing of a console has changed. *)
Definition frame (key : str) (s s' : St) : Prop :=
  status_at key s' = status_at key s /\ gen_at key s' = gen_at key s /\ sends_to key s' = sends_to key s /\ runs_of key s' = runs_of key s.
Lemma frame_trans key s1 s2 s3 : frame key s1 s2 -> frame key s2 s3 -> frame key s1 s3.
Proof. unfold frame. intros (-> & -> & -> & ->) (-> & -> & -> & ->). done. Qed.
Lemma frame_status key k st s : k <> key -> frame key s (setRunStatus k st s).
Proof. intros Hk. split; [by rewrite status_set, decide_False|done]. Qed.
Lemma frame_wait key r w s : r_key r <> key -> frame key s (wait r w s).
Proof.
  intros Hk. split_and!; [done..|]. unfold runs_of, wait. simpl. rewrite List.filter_app. simpl. unfold of_key at 2. simpl. rewrite bool_decide_false by done. by rewrite app_nil_r.
Qed.
Lemma frame_note key n s : is_sent_to key n = false -> frame key s (note n s).
Proof. intros Hn. split_and!; try done. unfold sends_to, note. simpl. rewrite List.filter_app. simpl. by rewrite Hn, app_nil_r. Qed.
Lemma frame_send key r st p s : r_key r <> key -> frame key s (send r st p s).
Proof. intros Hk. eapply frame_trans; [apply frame_note|by apply frame_wait]. simpl. by apply bool_decide_false. Qed.
Lemma frame_copy key r st q s : r_key r <> key -> frame key s (with_local_copy r st q s).
Proof. intros Hk. unfold with_local_copy. destruct (isRemotePath q); [by apply frame_wait|by apply frame_send]. Qed.
Lemma frame_enter key r s : r_key r <> key -> frame key s (enter r s).
Proof.
  intros Hk. unfold enter. destruct (_ !! _) as [st|]; [|destruct (isLive r s); [by apply frame_status|done]]. destruct (isLive r s); [|done]. simpl negb. cbv iota.
  eapply frame_trans; [by apply (frame_status key (r_key r))|]. destruct (isRepoStep st); [by apply frame_wait|by apply frame_copy].
Qed.
Lemma frame_go_on key r now s : r_key r <> key -> frame key s (go_on r now s).
Proof.
  intros Hk. unfold go_on. destruct (isLive r s); [|done]. simpl negb. cbv iota. destruct (_ !! _) as [st|]; [|done]. destruct (_ && _); [|by apply frame_enter].
  eapply frame_trans; [by apply (frame_status key (r_key r))|by apply frame_wait].
Qed.
Lemma frame_after key r e now s : r_key r <> key -> frame key s (after_step r e now s).
Proof.
  intros Hk. unfold after_step. destruct e as [e|]; [|by apply frame_go_on]. destruct (r_continue r); [by apply frame_go_on|]. destruct (isLive r s); [by apply frame_status|done].
Qed.
Lemma frame_back key r b now s : r_key r <> key -> frame key s (come_back r b now s).
Proof.
  intros Hk. unfold come_back. destruct (r_await r) as [|q| |], b as [a|e|]; try done.
  - unfold resolved. destruct (_ !! _) as [st|]; [|done]. destruct a as [p|e]; [|by apply frame_after]. set (s1 := if isLive r s && _ && _ then _ else s).
    assert (frame key s s1) as H1 by (unfold s1; by destruct (_ && _)). destruct (isLive r s1); [|done]. simpl negb. cbv iota.
    eapply frame_trans; [exact H1|]. eapply frame_trans; [apply frame_note|by apply frame_copy]; done.
  - unfold copied. destruct (_ !! _) as [st|]; [|done]. destruct a as [p|e]; [|by apply frame_after]. eapply frame_trans; [apply frame_note|by apply frame_send]; done.
  - by apply frame_after.
  - unfold woke. destruct (isLive r s); [|done]. by apply frame_enter.
Qed.
(** A run that is not live only sends what it was copying. *)
Lemma dead_back r b now s : isLive r s = false ->
  come_back r b now s = s \/
  exists q p st, r_await r = WCopy q /\ come_back r b now s = send r st p (note (NCopied (r_key r) (r_gen r) (r_at r) q p) s).
Proof.
  intros Hd. assert (forall r' e, isLive r' s = false -> after_step r' e now s = s) as Ha.
  { intros r' e Hr'. unfold after_step, go_on. destruct e as [e|]; [destruct (r_continue r')|]; try (by rewrite Hr').
    - change (isLive (r' <| r_failures := r_failures r' ++ [(r_at r', e)] |>) s) with (isLive r' s). by rewrite Hr'.
    - change (isLive (r' <| r_ok := S (r_ok r') |>) s) with (isLive r' s). by rewrite Hr'. }
  unfold come_back. destruct (r_await r) as [|q| |], b as [a|e|]; try (by left).
  - left. unfold resolved. destruct (_ !! _) as [st|]; [|done]. destruct a as [p|e]; [|by apply Ha]. rewrite Hd. simpl. by rewrite Hd.
  - unfold copied. destruct (_ !! _) as [st|]; [|by left]. destruct a as [p|e]; [|left; by apply Ha]. right. by exists q, p, st.
  - left. by apply Ha.
  - left. unfold woke. by rewrite Hd.
Qed.
(** No new run on the console. *)
Definition quiet (key : str) (e : Event) : Prop := match e with ERun _ h _ _ => keyOf h <> key | _ => True end.
Record stopped (key : str) (sent0 : list Note) (n : nat) (s : St) : Prop := {
  s_idle : status_at key s = Idle;
  s_dead : forall r, r ∈ runs_of key s -> r_gen r < gen_at key s;
  s_sent : exists new, sends_to key s = sent0 ++ new /\ (length new + copying key s <= n)%nat }.
Lemma stopped_frame key l n s s' : frame key s s' -> stopped key l n s -> stopped key l n s'.
Proof.
  intros (H1 & H2 & H3 & H4) [S1 S2 S3]. split; [by rewrite H1|intros r; rewrite H4, H2; apply S2|]. unfold copying. rewrite H3, H4. exact S3.
Qed.
Lemma runs_of_split key s k r : runs s !! k = Some r -> let rest := take k (runs s) ++ drop (S k) (runs s) in
  runs_of key s ≡ₚ (if of_key key r then [r] else []) ++ List.filter (of_key key) rest.
Proof.
  intros Hk rest. unfold runs_of. rewrite <- (take_drop_middle _ _ _ Hk) at 1. unfold rest. rewrite !List.filter_app. simpl.
  destruct (of_key key r); simpl; [by rewrite Permutation_middle|done].
Qed.
Lemma stopped_back key l n k b now s : stopped key l n s -> stopped key l n (back k b now s).
Proof.
  intros [S1 S2 (new & S3 & S4)]. unfold back. destruct (runs s !! k) as [r|] eqn:Ek; [|by split; eauto]. destruct (fits _ b); [|by split; eauto]. simpl negb. cbv iota.
  pose proof (runs_of_split key s k r Ek) as Hp. set (rest := take k (runs s) ++ drop (S k) (runs s)) in *. set (s1 := s <| runs := rest |>).
  assert (forall x, x ∈ runs_of key s1 -> x ∈ runs_of key s) as Hsub by (intros x Hx; rewrite Hp; apply elem_of_app; by right).
  assert (copying key s = ((if of_key key r && is_copying r then 1 else 0) + copying key s1)%nat) as Hc.
  { unfold copying. assert (List.filter is_copying (runs_of key s) ≡ₚ List.filter is_copying ((if of_key key r then [r] else []) ++ List.filter (of_key key) rest)) as Hp'.
    { clear -Hp. induction Hp; simpl; [done| | |by etrans].
      - destruct (is_copying x); [by f_equiv|done].
      - destruct (is_copying x), (is_copying y); try done. by apply perm_swap. }
    rewrite Hp'. rewrite List.filter_app, length_app. destruct (of_key key r); simpl; [by destruct (is_copying r)|done]. }
  set (s2 := note (NAnswered (r_key r) (r_gen r) (r_at r) b) s1). assert (frame key s1 s2) as Hf by (by apply frame_note).
  assert (stopped key l n s1) as Hs1 by (split; [done|intros x Hx; by apply S2, Hsub|exists new; split; [done|lia]]).
  apply (stopped_frame _ _ _ _ _ Hf) in Hs1. destruct (decide (r_key r = key)) as [Hk|Hk]; [|eapply stopped_frame; [by apply frame_back|done]].
  assert (of_key key r = true) as Hok by (by apply bool_decide_true).
  assert (isLive r s2 = false) as Hd.
  { apply Z.eqb_neq. rewrite Hk. assert (r ∈ runs_of key s) as Hin by (rewrite Hp, Hok; by left). specialize (S2 r Hin). change (gen_at key s <> r_gen r). lia. }
  assert (sends_to key s2 = l ++ new) as S3' by (destruct Hf as (_ & _ & -> & _); exact S3).
  destruct (dead_back r b now s2 Hd) as [->|(q & p & st & Hw & ->)]; [done|].
  assert (is_copying r = true) as Hcr by (unfold is_copying; by rewrite Hw). rewrite Hok, Hcr in Hc. simpl in Hc.
  assert (r ∈ runs_of key s) as Hin by (rewrite Hp, Hok; by left). split.
  - done.
  - intros x Hx. unfold runs_of in Hx. simpl in Hx. rewrite List.filter_app, elem_of_app in Hx. destruct Hx as [Hx|Hx]; [by apply S2, Hsub|].
    simpl in Hx. destruct (of_key key _); [|by apply elem_of_nil in Hx]. apply list_elem_of_singleton in Hx. subst x. simpl. by apply S2.
  - exists (new ++ [NSent (r_key r) (r_gen r) (r_at r) (stepHost st (r_host r)) p (stepPort st (r_port r))]). split.
    + unfold send, with_local_copy. rewrite app_assoc, <- S3'. unfold sends_to. simpl. rewrite !List.filter_app. simpl. rewrite !app_nil_r. by rewrite (bool_decide_true _ Hk).
    + rewrite length_app. simpl. assert (copying key (send r st p (note (NCopied (r_key r) (r_gen r) (r_at r) q p) s2)) = copying key s1) as ->; [|lia].
      unfold copying, runs_of. simpl. rewrite !List.filter_app. simpl. destruct (of_key key _); simpl; by rewrite app_nil_r.
Qed.
Lemma frame_next key k s : k <> key -> frame key s (next k s).
Proof. intros Hk. split_and!; try done. by rewrite gen_next, decide_False. Qed.
Lemma stopped_stop key l n host s : stopped key l n s -> stopped key l n (stop host s).
Proof.
  intros Hs. unfold stop. destruct (decide (keyOf host = key)) as [->|Hk].
  - destruct Hs as [S1 S2 S3]. split; [by rewrite status_set, decide_True| |exact S3].
    intros r Hr. specialize (S2 r Hr). change (r_gen r < gen_at key (next key s)). rewrite gen_next, decide_True by done. lia.
  - eapply stopped_frame; [|exact Hs]. eapply frame_trans; [by apply frame_next|by apply frame_status].
Qed.
Lemma stopped_step key l n s e : quiet key e -> stopped key l n s -> stopped key l n (step s e).
Proof.
  intros Hq Hs. destruct e; simpl in *; try (by destruct Hs); [|by apply stopped_stop|by apply stopped_back].
  unfold run. destruct (find_playlist i (playlists s)) as [pl|]; [|done]. destruct (busy _); [done|].
  set (s1 := s <| playlists := _ |>). assert (frame key s s1) as H1 by done. eapply stopped_frame; [|exact Hs].
  eapply frame_trans; [exact H1|]. eapply frame_trans; [by apply (frame_next key (keyOf host))|]. eapply frame_trans; [apply frame_note|by apply frame_enter]; done.
Qed.
(** C30: Stop stops: from Stop on a console on, until a run is started on it again, its status stays idle
    whatever else happens, and nothing more is sent for its runs but, at most, the files of a server
    that were being copied to this computer when Stop was pressed; and Stop touches no other console. *)
Theorem stop_stops evs host after : let key := keyOf host in
  let s := history evs in
  Forall (quiet key) after ->
  let s' := fold_left step after (stop host s) in
  status_at key s' = Idle /\
  (exists new, sends_to key s' = sends_to key s ++ new /\ (length new <= copying key s)%nat) /\
  (forall k, k <> key -> frame k s (stop host s)).
Proof.
  intros key s Hq s'. assert (stopped key (sends_to key s) (copying key s) (stop host s)) as Hs.
  { split.
    - unfold stop. by rewrite status_set, decide_True.
    - intros r [Hr Hk%bool_decide_eq_true]%list_elem_of_In%filter_In. apply list_elem_of_In in Hr.
      change (r_gen r < gen_at key (next key s)). rewrite gen_next, decide_True by done.
      destruct (i_runs _ _ (playlists_inv evs) r Hr) as (H & _). apply proj1, h_gen in H. rewrite Hk in H. fold s in H. lia.
    - exists []. rewrite app_nil_r. split; [done|]. change (copying key (stop host s)) with (copying key s). simpl. lia. }
  assert (stopped key (sends_to key s) (copying key s) s') as [S1 _ (new & S2 & S3)].
  { unfold s'. revert Hs. generalize (stop host s). induction Hq as [|e l He _ IH]; intros x Hx; [done|]. simpl. by apply IH, stopped_step. }
  split_and!; [done|exists new; split; [done|lia]|]. intros k Hk. unfold stop. eapply frame_trans; [by apply (frame_next k (keyOf host))|by apply frame_status].
Qed.

(** ** The end of a run *)

(** The answers a run can still get. *)
Definition answers_left (r : Run) : nat :=
  (4 * (length (r_steps r) - r_at r) - match r_await r with WResolve => 0 | WCopy _ => 1 | WSend => 2 | WSleep => 3 end)%nat.
Definition all_left (s : St) : nat := list_sum (map answers_left (runs s)).
Lemma left_wait r w s : all_left (wait r w s) = (all_left s + answers_left (r <| r_await := w |>))%nat.
Proof. unfold all_left, wait. simpl. rewrite map_app, list_sum_app. simpl. lia. Qed.
Lemma left_status k st s : all_left (setRunStatus k st s) = all_left s.
Proof. done. Qed.
Lemma left_note n s : all_left (note n s) = all_left s.
Proof. done. Qed.
Lemma left_copy r st q s : (r_at r < length (r_steps r))%nat ->
  (all_left (with_local_copy r st q s) <= all_left s + (4 * (length (r_steps r) - r_at r) - 1))%nat.
Proof.
  intros Ha. unfold with_local_copy, send. destruct (isRemotePath q); rewrite left_wait, ?left_note; unfold answers_left; simpl; lia.
Qed.
Lemma left_enter r s : (all_left (enter r s) <= all_left s + 4 * (length (r_steps r) - r_at r))%nat.
Proof.
  unfold enter. destruct (r_steps r !! r_at r) as [st|] eqn:Est; [apply lookup_lt_Some in Est|destruct (isLive r s); rewrite ?left_status; lia].
  destruct (isLive r s); simpl negb; cbv iota; [|lia]. set (s1 := setRunStatus _ _ s). change (all_left s) with (all_left s1). destruct (isRepoStep st).
  - rewrite left_wait. unfold answers_left. simpl. lia.
  - pose proof (left_copy r st (path st) s1 Est). lia.
Qed.
Lemma left_next r s : (all_left (enter (r <| r_at := S (r_at r) |>) s) <= all_left s + 4 * (length (r_steps r) - S (r_at r)))%nat.
Proof. exact (left_enter (r <| r_at := S (r_at r) |>) s). Qed.
Lemma left_go_on r now s : (r_at r < length (r_steps r))%nat -> (all_left (go_on r now s) <= all_left s + (4 * (length (r_steps r) - r_at r) - 3))%nat.
Proof.
  intros Ha. unfold go_on. destruct (isLive r s); simpl negb; cbv iota; [|lia]. destruct (_ !! _) as [st|]; [|lia]. destruct (_ && _).
  - rewrite left_wait, left_status. unfold answers_left. simpl. lia.
  - pose proof (left_next r s). lia.
Qed.
Lemma left_after r e now s : (r_at r < length (r_steps r))%nat -> (all_left (after_step r e now s) <= all_left s + (4 * (length (r_steps r) - r_at r) - 3))%nat.
Proof.
  intros Ha. unfold after_step. destruct e as [e|]; [destruct (r_continue r)|].
  - eapply Nat.le_trans; [apply left_go_on; exact Ha|exact (Nat.le_refl _)].
  - destruct (isLive r s); rewrite ?left_status; lia.
  - eapply Nat.le_trans; [apply left_go_on; exact Ha|exact (Nat.le_refl _)].
Qed.
Lemma left_back r b now s : (r_at r < length (r_steps r))%nat -> fits (r_await r) b = true -> (all_left (come_back r b now s) < all_left s + answers_left r)%nat.
Proof.
  intros Ha Hf. unfold come_back, answers_left. destruct (r_await r) as [|q| |], b as [a|e|]; try done.
  - unfold resolved. destruct (_ !! _) as [st|]; [|lia]. destruct a as [p|e]; [|pose proof (left_after r (Some e) now s Ha); lia].
    set (s1 := if isLive r s && _ && _ then _ else s). assert (all_left s1 = all_left s) as H1 by (unfold s1; by destruct (_ && _)).
    destruct (isLive r s1); simpl negb; cbv iota; [|lia]. set (s2 := note _ s1). pose proof (left_copy r st p s2 Ha). change (all_left s2) with (all_left s1) in *. lia.
  - unfold copied. destruct (_ !! _) as [st|]; [|lia]. destruct a as [p|e]; [|pose proof (left_after r (Some e) now s Ha); lia].
    unfold send. rewrite left_wait, !left_note. unfold answers_left. simpl. lia.
  - pose proof (left_after r e now s Ha). lia.
  - unfold woke. destruct (isLive r s); simpl negb; cbv iota; [|lia]. pose proof (left_next r s). lia.
Qed.
(** Answers, each to a run that waits for one of its kind. *)
Fixpoint answers_ok (s : St) (l : list (nat * Back * Z)) : Prop :=
  match l with
  | [] => True
  | (k, b, now) :: l => (exists r, runs s !! k = Some r /\ fits (r_await r) b = true) /\ answers_ok (back k b now s) l
  end.
Lemma backs_inv l s : inv [] s -> inv [] (fold_left (fun s a => back a.1.1 a.1.2 a.2 s) l s).
Proof. revert s. induction l as [|[[k b] now] l IH]; intros s Hi; simpl; [done|]. by apply IH, back_inv. Qed.
(** C36: Every run ends: a playlist of [n] steps takes at most [4 n] answers, whatever they are and however
    those of several consoles mix; and when no run waits for one, no console is shown as running or
    sleeping. *)
Theorem playlist_runs_end evs l : let s := history evs in answers_ok s l ->
  let s' := fold_left (fun s a => back a.1.1 a.1.2 a.2 s) l s in
  (length l + all_left s' <= all_left s)%nat /\ (forall r, r ∈ runs s -> (0 < answers_left r <= 4 * length (r_steps r))%nat) /\
  (runs s' = [] -> forall key, busy (status_at key s') = false).
Proof.
  intros s. pose proof (playlists_inv evs) as Hi. fold s in Hi. intros Hl s'. split_and!.
  - subst s'. revert Hi Hl. generalize s. clear s. induction l as [|[[k b] now] l IH]; intros s Hi Hl; simpl; [lia|]. destruct Hl as ((r & Hr & Hf) & Hl).
    specialize (IH _ (back_inv k b now s Hi) Hl). assert (all_left (back k b now s) < all_left s)%nat; [|simpl in IH; lia].
    unfold back. rewrite Hr, Hf. simpl negb. cbv iota. destruct (i_runs _ _ Hi r) as (_ & (st & Hst & _) & _); [by eapply list_elem_of_lookup_2|]. apply lookup_lt_Some in Hst.
    pose proof (left_back r b now (note (NAnswered (r_key r) (r_gen r) (r_at r) b) (s <| runs := take k (runs s) ++ drop (S k) (runs s) |>)) Hst Hf) as H. rewrite left_note in H.
    assert (all_left (s <| runs := take k (runs s) ++ drop (S k) (runs s) |>) + answers_left r = all_left s)%nat as Heq; [|lia].
    unfold all_left. simpl. rewrite <- (take_drop_middle _ _ _ Hr) at 3. rewrite !map_app, !list_sum_app. simpl. lia.
  - intros r Hr. destruct (i_runs _ _ Hi r Hr) as (_ & (st & Hst & _) & _). apply lookup_lt_Some in Hst. unfold answers_left. destruct (r_await r); lia.
  - intros Hn key. pose proof (backs_inv l s Hi) as Hi'. fold s' in Hi'.
    apply not_true_is_false. intros Hb. destruct (i_busy _ _ Hi' key Hb) as (r & Hr & _). simpl in Hr. rewrite Hn in Hr. by apply elem_of_nil in Hr.
Qed.

(** * Examples *)

Definition boot : list PlaylistStep := [a_step "/pc/k.elf"; a_repo_step "kstuff"; a_step "/pc/h.elf"].
(** A playlist of three steps, made by hand. *)
Definition written : list Event :=
  ECreate (js "p") (js "Boot") 1 :: map (fun st => EAddStep (js "p") st 2) boot.
(** It runs to its end on one console; the second step's payload is the cached one, sent to its own console. *)
Definition a_boot : list Event := written ++ [
  ERun (js "p") (js "10.0.0.5:9021") 9021 3; EBack 0 (BSent None) 4; EBack 0 BWoke 5; EBack 0 (BPath (inl (js "/cache/kstuff.elf"))) 6;
  EBack 0 (BSent None) 7; EBack 0 (BSent None) 8].
Example a_boot_done : runStatusForHost (history a_boot) (js "10.0.0.5") = Done (js "p") (js "10.0.0.5:9021") 3 0 [] /\
  sends_to (js "10.0.0.5") (history a_boot) = [
    NSent (js "10.0.0.5") 1 0 (js "10.0.0.5:9021") (js "/pc/k.elf") 9021; NSent (js "10.0.0.5") 1 1 (js "192.168.0.9") (js "/cache/kstuff.elf") 9021;
    NSent (js "10.0.0.5") 1 2 (js "10.0.0.5:9021") (js "/pc/h.elf") 9021].
Proof. by vm_compute. Qed.
(** The first failure stops it. *)
Example a_boot_failed : runStatusForHost (history (written ++ [ERun (js "p") (js "10.0.0.5") 9021 3; EBack 0 (BSent (Some (js "refused"))) 4])) (js "10.0.0.5") =
  Failed (js "p") (js "10.0.0.5") 0 (js "refused").
Proof. by vm_compute. Qed.
(** Stop while a server's file is copied here: the file is sent all the same. *)
Definition from_server : list Event := [
  ECreate (js "p") (js "Boot") 1; EAddStep (js "p") (a_step "remote://nas/k.elf") 2; ERun (js "p") (js "10.0.0.5") 9021 3].
Lemma stopped_copy_is_sent : let s := stop (js "10.0.0.5") (history from_server) in
  status_at (js "10.0.0.5") s = Idle /\ sends_to (js "10.0.0.5") s = [] /\
  sends_to (js "10.0.0.5") (step s (EBack 0 (BPath (inl (js "/tmp/k.elf"))) 4)) = [NSent (js "10.0.0.5") 1 0 (js "10.0.0.5") (js "/tmp/k.elf") 9021].
Proof. by vm_compute. Qed.
(** Steps moved while a repo step is being resolved: its payload's path is written onto another step,
    which sends that payload from then on. *)
Definition edited : list Event := written ++ [
  ERun (js "p") (js "10.0.0.5") 9021 3; EBack 0 (BSent None) 4; EBack 0 BWoke 5; EStepUp (js "p") 2 6; EBack 0 (BPath (inl (js "/cache/kstuff.elf"))) 7].
Lemma resolved_path_on_wrong_step :
  map (fun p => map (fun st => (path st, payloadId st)) (steps p)) (playlists (history edited)) =
    [[(js "/pc/k.elf", None); (js "/cache/kstuff.elf", None); ([], Some (js "kstuff"))]].
Proof. by vm_compute. Qed.
Lemma stop_stops_witness : let s := history from_server in
  let s' := fold_left step [EBack 0 (BPath (inl (js "/tmp/k.elf"))) 4; EBack 0 (BSent None) 5] (stop (js "10.0.0.5") s) in
  status_at (js "10.0.0.5") s' = Idle /\ exists new, sends_to (js "10.0.0.5") s' = sends_to (js "10.0.0.5") s ++ new /\ (length new <= 1)%nat.
Proof.
  destruct (stop_stops from_server (js "10.0.0.5") [EBack 0 (BPath (inl (js "/tmp/k.elf"))) 4; EBack 0 (BSent None) 5]) as (H1 & H2 & _); [by repeat constructor|].
  split; [exact H1|exact H2].
Defined.
Lemma playlist_runs_end_witness : let s := history (written ++ [ERun (js "p") (js "10.0.0.5") 9021 3]) in
  (all_left s <= 12)%nat /\
  forall key, busy (status_at key (fold_left (fun s a => back a.1.1 a.1.2 a.2 s) [(0%nat, BSent (Some (js "refused")), 4)] s)) = false.
Proof.
  destruct (playlist_runs_end (written ++ [ERun (js "p") (js "10.0.0.5") 9021 3]) [(0%nat, BSent (Some (js "refused")), 4)]) as (_ & _ & H).
  - split; [|exact I]. eexists. split; reflexivity.
  - split; [apply (bool_decide_unpack _); by vm_compute|]. apply H. by vm_compute.
Defined.
