(* ===== verification/Tasks.v ===== *)
(** The task list (client/src/state/tasks.ts): one entry for each long operation, its end, the bound on
    the history, and what a restart finds of it in storage.

    Of a task the fields below are kept: its origin, the text of its creation time, its payload, the
    reference to the store that controls it and its stage are copied along and read by nothing here, and
    the speed and the time left are derived in floating point; they are left out. A write to storage
    succeeds and storage holds what was written. The console's identity that the roster resolves, the
    new id and the time are arguments. *)
From S2P Require Import Prelude Addr.

(** * Tasks *)

Inductive TaskStatus := Queued | Running | Paused | Awaiting | Done | Failed | Cancelled | Unverified | Interrupted.
#[export] Instance task_status_eq_dec : EqDecision TaskStatus.
Proof. solve_decision. Defined.
Record TaskProgress := { current : Z; total : Z; unit_ : str }.
#[export] Instance progress_eq_dec : EqDecision TaskProgress.
Proof. solve_decision. Defined.
(** [kind] is the text of the kind; the rules here tell apart ["console-task"] only. *)
Record Task := {
  id : str; kind : str; label : str; detail : option str; consoleId : str; consoleKey : option str; engineJobId : option str; status : TaskStatus;
  progress : option TaskProgress; lastError : option str; updatedAtMs : Z; endedAtMs : option Z }.
#[export] Instance settable_task : Settable Task := fun t => {|
  id := id t; kind := kind t; label := label t; detail := detail t; consoleId := consoleId t; consoleKey := consoleKey t;
  engineJobId := engineJobId t; status := status t; progress := progress t; lastError := lastError t; updatedAtMs := updatedAtMs t; endedAtMs := endedAtMs t |}.
Definition isTerminal (st : TaskStatus) : bool := match st with Done | Failed | Cancelled | Unverified | Interrupted => true | _ => false end.
Definition isActivatable (st : TaskStatus) : bool := match st with Running | Queued | Paused | Awaiting => true | _ => false end.

Definition MAX_TASK_HISTORY : nat := 200.
Definition is_active (t : Task) : bool := negb (isTerminal (status t)).
Definition activeCount (l : list Task) : nat := length (List.filter is_active l).
(** The filter of [trimTaskHistory], with the slots left. *)
Fixpoint keep_slots (slots : nat) (l : list Task) : list Task :=
  match l with
  | [] => []
  | t :: l =>
      if is_active t then t :: keep_slots slots l
      else match slots with O => keep_slots O l | S n => t :: keep_slots n l end
  end.
Definition trimTaskHistory (l : list Task) : list Task := keep_slots (MAX_TASK_HISTORY - activeCount l) l.

(** * The store and its storage *)

Record St := { tasks : list Task; pendingPersist : option (list Task); persistTimer : bool; stored : list Task; interruptedAtLoad : list str }.
#[export] Instance settable_st : Settable St := fun s => {|
  tasks := tasks s; pendingPersist := pendingPersist s; persistTimer := persistTimer s; stored := stored s; interruptedAtLoad := interruptedAtLoad s |}.
Definition init : St := {| tasks := []; pendingPersist := None; persistTimer := false; stored := []; interruptedAtLoad := [] |}.
Definition flushPersist (s : St) : St :=
  let s := s <| persistTimer := false |> in
  match pendingPersist s with Some l => s <| pendingPersist := None |> <| stored := trimTaskHistory l |> | None => s end.
Definition persist (l : list Task) (s : St) : St := flushPersist (s <| pendingPersist := Some l |>).
Definition persistProgress (l : list Task) (s : St) : St := s <| pendingPersist := Some l |> <| persistTimer := true |>.
Definition is_console (t : Task) : bool := bool_decide (kind t = js "console-task").
Definition interrupt (t : Task) : Task := if isTerminal (status t) then t else t <| status := Interrupted |> <| endedAtMs := Some (updatedAtMs t) |>.
Definition kept_at_load (t : Task) : bool := negb (is_console t) || isTerminal (status t).
Definition loadInitial (l : list Task) : list Task := map interrupt (List.filter kept_at_load l).

(** ** Actions *)

Record Init := { n_kind : str; n_label : str; n_detail : option str; n_console : str; n_key : option str; n_job : option str; n_status : option TaskStatus; n_progress : option TaskProgress }.
Definition registerTask (i : str) (t : Init) (resolved : option str) (now : Z) (s : St) : St :=
  let task := {| id := i; kind := n_kind t; label := n_label t; detail := n_detail t; consoleId := hostOf (n_console t);
                 consoleKey := match n_key t with Some k => Some k | None => resolved end; engineJobId := n_job t; status := n_status t ?? Running;
                 progress := n_progress t; lastError := None; updatedAtMs := now; endedAtMs := None |} in
  let l := trimTaskHistory (task :: tasks s) in
  persist l s <| tasks := l |>.
Definition index_of_task (i : str) (s : St) : option nat := find_index (fun t => bool_decide (id t = i)) (tasks s).
(** The first task of that id, unless it has ended. *)
Definition open_task (i : str) (s : St) : option (nat * Task) :=
  match index_of_task i s with
  | None => None
  | Some k => match tasks s !! k with Some t => if isTerminal (status t) then None else Some (k, t) | None => None end
  end.
(** [patch] keeps the id, the kind, the console and when it ended. *)
Record Patch := { p_label : option str; p_progress : option TaskProgress; p_status : option TaskStatus; p_detail : option str; p_job : option str; p_error : option str }.
#[export] Instance settable_patch : Settable Patch := fun p => {|
  p_label := p_label p; p_progress := p_progress p; p_status := p_status p; p_detail := p_detail p; p_job := p_job p; p_error := p_error p |}.
Definition patched (p : Patch) (t : Task) : Task :=
  t <| label := p_label p ?? label t |> <| progress := match p_progress p with Some x => Some x | None => progress t end |>
    <| status := p_status p ?? status t |> <| detail := match p_detail p with Some x => Some x | None => detail t end |>
    <| engineJobId := match p_job p with Some x => Some x | None => engineJobId t end |>
    <| lastError := match p_error p with Some x => Some x | None => lastError t end |>.
Definition updateTask (i : str) (p : Patch) (now : Z) (s : St) : St :=
  match open_task i s with
  | None => s
  | Some (k, t) =>
      let l := trimTaskHistory (<[k := (patched p t) <| updatedAtMs := now |>]> (tasks s)) in
      persistProgress l s <| tasks := l |>
  end.
Inductive End := EndDone | EndFailed | EndCancelled | EndUnverified.
Definition end_status (e : End) : TaskStatus := match e with EndDone => Done | EndFailed => Failed | EndCancelled => Cancelled | EndUnverified => Unverified end.
Record Extras := { x_error : option str; x_progress : option TaskProgress; x_detail : option str }.
Definition finished (e : End) (x : Extras) (now : Z) (t : Task) : Task :=
  t <| lastError := match x_error x with Some v => Some v | None => lastError t end |>
    <| progress := match x_progress x with Some v => Some v | None => progress t end |>
    <| detail := match x_detail x with Some v => Some v | None => detail t end |>
    <| status := end_status e |> <| endedAtMs := Some now |> <| updatedAtMs := now |>.
Definition finishTask (i : str) (e : End) (x : Extras) (now : Z) (s : St) : St :=
  match open_task i s with
  | None => s
  | Some (k, t) =>
      let l := trimTaskHistory (<[k := finished e x now t]> (tasks s)) in
      persist l s <| tasks := l |>
  end.
Definition getTask (i : str) (s : St) : option Task := find_first (fun t => bool_decide (id t = i)) (tasks s).
Definition removeTask (i : str) (s : St) : St :=
  match getTask i s with
  | Some t =>
      if isTerminal (status t) then
        let l := List.filter (fun t => negb (bool_decide (id t = i))) (tasks s) in persist l s <| tasks := l |>
      else s
  | None => s
  end.
Definition clearFinished (s : St) : St := let l := List.filter is_active (tasks s) in persist l s <| tasks := l |>.
(** The program starts again: what is in memory is gone. *)
Definition restart (s : St) : St :=
  {| tasks := loadInitial (stored s); pendingPersist := None; persistTimer := false; stored := stored s;
     interruptedAtLoad := map id (List.filter is_active (List.filter kept_at_load (stored s))) |}.

Inductive Event :=
| ERegister (i : str) (t : Init) (resolved : option str) (now : Z) | EUpdate (i : str) (p : Patch) (now : Z)
| EFinish (i : str) (e : End) (x : Extras) (now : Z) | ERemove (i : str) | EClear
| ETimer | EQuit | ERestart.
Definition step (s : St) (e : Event) : St :=
  match e with
  | ERegister i t r now => registerTask i t r now s
  | EUpdate i p now => updateTask i p now s
  | EFinish i e x now => finishTask i e x now s
  | ERemove i => removeTask i s
  | EClear => clearFinished s
  | ETimer => if persistTimer s then flushPersist s else s
  | EQuit => flushPersist s
  | ERestart => restart s
  end.
Definition history (evs : list Event) : St := fold_left step evs init.

(** * The bound on the history *)

Definition ended (t : Task) : bool := isTerminal (status t).
Definition endedCount (l : list Task) : nat := length (List.filter ended l).
Lemma is_active_ended t : is_active t = negb (ended t).
Proof. done. Qed.
Lemma count_all l : length l = (activeCount l + endedCount l)%nat.
Proof. unfold activeCount, endedCount, is_active, ended. induction l as [|t l IH]; simpl; [done|]. destruct (isTerminal (status t)); simpl; lia. Qed.
Lemma keep_slots_id n l : (endedCount l <= n)%nat -> keep_slots n l = l.
Proof.
  unfold endedCount. revert n. induction l as [|t l IH]; intros n Hn; simpl in *; [done|]. rewrite is_active_ended. destruct (ended t); simpl in *.
  - destruct n as [|n]; [lia|]. by rewrite IH by lia.
  - by rewrite IH.
Qed.
Lemma keep_slots_spec n l : let l' := keep_slots n l in
  l' `sublist_of` l /\ activeCount l' = activeCount l /\ (endedCount l' <= n)%nat /\ (forall t, t ∈ l -> is_active t = true -> t ∈ l').
Proof.
  unfold activeCount, endedCount. revert n. induction l as [|t l IH]; intros n; simpl; [split_and!; [constructor|done|simpl; lia|done]|].
  destruct (is_active t) eqn:Ea.
  - destruct (IH n) as (I1 & I2 & I3 & I4). simpl. rewrite Ea. rewrite is_active_ended in Ea. apply negb_true_iff in Ea. rewrite Ea. simpl.
    split_and!; [by constructor|lia|done|]. intros x [->|Hx]%elem_of_cons Hax; [by left|right; auto].
  - assert (ended t = true) as Het by (rewrite is_active_ended in Ea; by apply negb_false_iff in Ea). destruct n as [|n].
    + destruct (IH O) as (I1 & I2 & I3 & I4). split_and!; [by constructor|done|done|]. intros x [->|Hx]%elem_of_cons Hax; [congruence|auto].
    + destruct (IH n) as (I1 & I2 & I3 & I4). simpl. rewrite Ea, Het. simpl. split_and!; [by constructor|done|lia|].
      intros x [->|Hx]%elem_of_cons Hax; [congruence|right; auto].
Qed.
(** What has ended fills no more than the active ones leave. *)
Definition fits (l : list Task) : Prop := (endedCount l <= MAX_TASK_HISTORY - activeCount l)%nat.
Lemma trim_id l : fits l -> trimTaskHistory l = l.
Proof. apply keep_slots_id. Qed.
Lemma trim_sublist l : trimTaskHistory l `sublist_of` l.
Proof. apply keep_slots_spec. Qed.
Lemma trim_active l : activeCount (trimTaskHistory l) = activeCount l.
Proof. apply keep_slots_spec. Qed.
Lemma trim_elem l t : t ∈ l -> is_active t = true -> t ∈ trimTaskHistory l.
Proof. apply keep_slots_spec. Qed.
(** The active tasks are kept, however many; the rest fills what they leave of the bound. *)
Lemma trim_length l : (length (trimTaskHistory l) <= Nat.max MAX_TASK_HISTORY (activeCount l))%nat.
Proof.
  rewrite count_all, trim_active. destruct (keep_slots_spec (MAX_TASK_HISTORY - activeCount l) l) as (_ & _ & H & _). fold (trimTaskHistory l) in H. lia.
Qed.

Lemma trim_fits l : fits (trimTaskHistory l).
Proof. unfold fits. rewrite trim_active. apply keep_slots_spec. Qed.
Lemma trim_trim l : trimTaskHistory (trimTaskHistory l) = trimTaskHistory l.
Proof. apply trim_id, trim_fits. Qed.
Lemma trim_in l t : t ∈ trimTaskHistory l -> t ∈ l.
Proof. intros H. eapply elem_of_submseteq; [exact H|apply sublist_submseteq, trim_sublist]. Qed.
Lemma trim_NoDup l : NoDup (map id l) -> NoDup (map id (trimTaskHistory l)).
Proof. intros H. eapply sublist_NoDup; [exact H|]. apply fmap_sublist, trim_sublist. Qed.
Lemma counts_sublist l l' : l `sublist_of` l' -> (activeCount l <= activeCount l' /\ endedCount l <= endedCount l')%nat.
Proof.
  intros H. unfold activeCount, endedCount. induction H as [|x l l' _ IH|x l l' _ IH]; simpl; [lia| |]; destruct (is_active x), (ended x); simpl; lia.
Qed.
Lemma fits_sublist l l' : l `sublist_of` l' -> fits l' -> fits l.
Proof. unfold fits. intros H. pose proof (counts_sublist l l' H). lia. Qed.
(** One task of the list ends, or goes on. *)
Lemma counts_insert (k : nat) (t t' : Task) l : l !! k = Some t -> ended t = false ->
  (activeCount (<[k := t']> l) + (if ended t' then 1 else 0) = activeCount l /\ endedCount (<[k := t']> l) = endedCount l + if ended t' then 1 else 0)%nat.
Proof.
  intros Hk He. assert (activeCount (<[k := t']> l) + (if ended t' then 1 else 0) = activeCount l)%nat as H.
  { rewrite insert_take_drop by (by eapply lookup_lt_Some). rewrite <- (take_drop_middle _ _ _ Hk) at 3. unfold activeCount. rewrite !List.filter_app, !length_app. simpl.
    rewrite !is_active_ended, He. destruct (ended t'); simpl; lia. }
  split; [exact H|]. pose proof (count_all l). pose proof (count_all (<[k := t']> l)) as Hc. rewrite length_insert in Hc. lia.
Qed.
(** What ends stays in the list, unless the active ones fill it. *)
Lemma insert_stays (k : nat) (t t' : Task) l : l !! k = Some t -> ended t = false -> fits l ->
  t' ∈ trimTaskHistory (<[k := t']> l) \/ (ended t' = true /\ MAX_TASK_HISTORY <= activeCount (trimTaskHistory (<[k := t']> l)))%nat.
Proof.
  intros Hk He Hf. assert (t' ∈ <[k := t']> l) as Hin by (apply (list_elem_of_lookup_2 _ k), list_lookup_insert_eq; by eapply lookup_lt_Some).
  rewrite trim_active. destruct (counts_insert k t t' l Hk He) as [Ha Hc]. destruct (ended t') eqn:Et; [|left; apply trim_elem; [done|by rewrite is_active_ended, Et]].
  destruct (decide (MAX_TASK_HISTORY <= activeCount (<[k := t']> l))%nat) as [|Hlt]; [by right|left]. rewrite trim_id; [done|]. unfold fits in *. lia.
Qed.

(** * The invariant *)

Definition registers (e : Event) : option str := match e with ERegister i _ _ _ => Some i | _ => None end.
Definition mine (l : list Task) : list Task := List.filter (fun t => negb (is_console t)) l.
(** What storage has of a list in memory: every task it is to hold but the console's own, an end only if it is the end in memory. *)
Definition behind (l0 l : list Task) : Prop :=
  map id (mine (trimTaskHistory l)) `sublist_of` map id (mine l0) /\ (forall t0 t, t0 ∈ l0 -> t ∈ l -> id t0 = id t -> ended t0 = true -> t = t0) /\
  (forall t0 t, t0 ∈ l0 -> t ∈ l -> id t0 = id t -> kind t = kind t0).
Record inv (seen : list str) (s : St) : Prop := {
  v_ids : NoDup (map id (tasks s));
  v_fits : fits (tasks s) \/ activeCount (tasks s) = O;
  v_seen : forall t, t ∈ tasks s \/ t ∈ stored s -> id t ∈ seen;
  v_stored : NoDup (map id (stored s));
  v_pending : forall l, pendingPersist s = Some l -> l = tasks s /\ persistTimer s = true;
  v_behind : behind (stored s) (tasks s);
  v_written : pendingPersist s = None -> stored s = trimTaskHistory (tasks s) \/ tasks s = loadInitial (stored s) }.
Lemma behind_trim l : NoDup (map id l) -> behind (trimTaskHistory l) l.
Proof. intros Hn. split_and!; [done| |]; intros t0 t H0%trim_in H E; [intros _; by symmetry; eapply (NoDup_map_inj id)|by rewrite (NoDup_map_inj id l t0 t Hn H0 H E)]. Qed.
Lemma mine_sublist l l' : l `sublist_of` l' -> map id (mine l) `sublist_of` map id (mine l').
Proof.
  intros H. apply fmap_sublist. unfold mine. induction H as [|x l l' _ IH|x l l' _ IH]; simpl; [constructor| |]; destruct (negb _); [by constructor|done|by constructor|done].
Qed.
Lemma interrupt_id t : id (interrupt t) = id t /\ kind (interrupt t) = kind t /\ ended (interrupt t) = true /\ (ended t = true -> interrupt t = t).
Proof. unfold interrupt, ended. destruct (isTerminal (status t)) eqn:E; [by rewrite E|by split_and!]. Qed.
Lemma elem_load l t : t ∈ loadInitial l <-> exists t0, t0 ∈ l /\ kept_at_load t0 = true /\ t = interrupt t0.
Proof.
  unfold loadInitial. rewrite list_elem_of_fmap. setoid_rewrite list_elem_of_In at 1. setoid_rewrite filter_In. setoid_rewrite <- list_elem_of_In. naive_solver.
Qed.
Lemma load_ids l : map id (loadInitial l) = map id (List.filter kept_at_load l).
Proof. unfold loadInitial. rewrite map_map. apply map_ext. intros t. apply interrupt_id. Qed.
Lemma mine_load l : map id (mine (loadInitial l)) = map id (mine l).
Proof.
  unfold mine, loadInitial. induction l as [|t l IH]; simpl; [done|]. unfold kept_at_load at 1.
  destruct (interrupt_id t) as (Hi & Hk & _). assert (is_console (interrupt t) = is_console t) as Hc by (unfold is_console; by rewrite Hk).
  destruct (is_console t) eqn:Ec; simpl.
  - destruct (isTerminal (status t)); simpl; [by rewrite Hc|exact IH].
  - rewrite Hc. simpl. rewrite Hi. by f_equal.
Qed.
Lemma behind_load l : NoDup (map id l) -> behind l (loadInitial l).
Proof.
  intros Hn. split_and!.
  - rewrite <- (mine_load l). apply mine_sublist, trim_sublist.
  - intros t0 t H0 (t1 & H1 & _ & ->)%elem_load E He. destruct (interrupt_id t1) as (Hi & _ & _ & Hx). rewrite Hi in E.
    rewrite (NoDup_map_inj id l t0 t1 Hn H0 H1 E) in He |- *. by apply Hx.
  - intros t0 t H0 (t1 & H1 & _ & ->)%elem_load E. destruct (interrupt_id t1) as (Hi & -> & _). rewrite Hi in E. by rewrite (NoDup_map_inj id l t0 t1 Hn H0 H1 E).
Qed.
Lemma load_none_active l : activeCount (loadInitial l) = O.
Proof.
  unfold activeCount, loadInitial. induction (List.filter kept_at_load l) as [|t l' IH]; simpl; [done|].
  destruct (interrupt_id t) as (_ & _ & He & _). rewrite is_active_ended, He. exact IH.
Qed.
Lemma load_NoDup l : NoDup (map id l) -> NoDup (map id (loadInitial l)).
Proof. intros H. rewrite load_ids. eapply sublist_NoDup; [exact H|]. apply fmap_sublist, filter_sublist. Qed.

(** ** Writing *)

(** A list written as it is set. *)
Lemma written_inv seen l s : NoDup (map id l) -> fits l \/ activeCount l = O -> (forall t, t ∈ l -> id t ∈ seen) -> inv seen (persist l s <| tasks := l |>).
Proof.
  intros Hn Hb Hs. split; simpl; try done.
  - intros t [H|H%trim_in]; by apply Hs.
  - by apply trim_NoDup.
  - by apply behind_trim.
  - by left.
Qed.
Lemma flush_inv seen s : inv seen s -> inv seen (flushPersist s).
Proof.
  intros Hv. unfold flushPersist. simpl. destruct (pendingPersist s) as [l|] eqn:Ep.
  - destruct (v_pending _ _ Hv l Ep) as [-> _]. split; simpl.
    + apply Hv.
    + apply Hv.
    + intros t [Ht|Ht%trim_in]; apply (v_seen _ _ Hv); tauto.
    + apply trim_NoDup, Hv.
    + done.
    + apply behind_trim, Hv.
    + by left.
  - split; simpl; try apply Hv; [|by intros _; apply (v_written _ _ Hv)]. intros l E. congruence.
Qed.
Lemma open_Some i s k t : open_task i s = Some (k, t) -> tasks s !! k = Some t /\ id t = i /\ ended t = false.
Proof.
  unfold open_task, index_of_task. destruct (find_index _ _) as [j|] eqn:Ef; [|done]. apply find_index_Some in Ef as (x & Hx & Hp & _).
  rewrite Hx. destruct (isTerminal (status x)) eqn:Et; [done|]. intros [= -> ->]. bool_prop. by split_and!.
Qed.

(** A task replaced by one of its id and kind. *)
Lemma map_insert_same {A B} (f : A -> B) (k : nat) (x y : A) (l : list A) : l !! k = Some x -> f y = f x -> map f (<[k := y]> l) = map f l.
Proof. intros Hk Hf. change (f <$> <[k := y]> l = f <$> l). rewrite list_fmap_insert, Hf. apply list_insert_id. by rewrite list_lookup_fmap, Hk. Qed.
Lemma mine_insert (k : nat) (t t' : Task) (l : list Task) : l !! k = Some t -> id t' = id t -> kind t' = kind t -> map id (mine (<[k := t']> l)) = map id (mine l).
Proof.
  intros Hk Hi Hc. unfold mine. revert k Hk. induction l as [|x l IH]; intros [|k] Hk; simpl in *; try done.
  - injection Hk as ->. unfold is_console. rewrite Hc. destruct (negb _); simpl; by rewrite ?Hi.
  - destruct (negb (is_console x)); simpl; by rewrite (IH k Hk).
Qed.
Lemma elem_insert (k : nat) (t t' : Task) (l : list Task) x : l !! k = Some t -> x ∈ <[k := t']> l -> x = t' \/ x ∈ l.
Proof. intros Hk (j & Hj)%list_elem_of_lookup. apply list_lookup_insert_Some in Hj as [(_ & -> & _)|[_ Hj]]; [by left|right; by eapply list_elem_of_lookup_2]. Qed.
Section replace.
Context (seen : list str) (s : St) (k : nat) (t t' : Task) (Hv : inv seen s) (Hk : tasks s !! k = Some t) (Hi : id t' = id t) (Hc : kind t' = kind t) (He : ended t = false).
Lemma fits_now : fits (tasks s).
Proof.
  destruct (v_fits _ _ Hv) as [|H]; [done|]. exfalso. pose proof (counts_insert k t t (tasks s) Hk He) as [Ha _]. rewrite list_insert_id in Ha by done.
  assert (t ∈ List.filter is_active (tasks s)) as Hin by (apply list_elem_of_In, filter_In; split; [by eapply list_elem_of_In, list_elem_of_lookup_2|by rewrite is_active_ended, He]).
  unfold activeCount in H. destruct (List.filter _ _); [by apply elem_of_nil in Hin|done].
Qed.
Lemma replaced : let l := <[k := t']> (tasks s) in
  NoDup (map id l) /\ (forall x, x ∈ l -> id x ∈ seen) /\ map id (mine l) = map id (mine (tasks s)).
Proof.
  intros l. split_and!.
  - unfold l. rewrite (map_insert_same id k t t') by done. apply Hv.
  - intros x [->|Hx]%(elem_insert k t); [rewrite Hi; apply (v_seen _ _ Hv); left; by eapply list_elem_of_lookup_2|apply (v_seen _ _ Hv); by left|done].
  - by eapply mine_insert.
Qed.
Lemma behind_replaced : behind (stored s) (trimTaskHistory (<[k := t']> (tasks s))).
Proof.
  destruct (v_behind _ _ Hv) as (B1 & B2 & B3). assert (t ∈ tasks s) as Hin by (by eapply list_elem_of_lookup_2). split_and!.
  - rewrite trim_trim. rewrite (trim_id (tasks s) fits_now) in B1. etrans; [apply mine_sublist, trim_sublist|]. destruct replaced as (_ & _ & ->). exact B1.
  - intros t0 x H0 Hx%trim_in E H. apply (elem_insert k t) in Hx as [->|Hx]; [|by apply B2|done]. exfalso. rewrite Hi in E. pose proof (B2 t0 t H0 Hin E H). congruence.
  - intros t0 x H0 Hx%trim_in E. apply (elem_insert k t) in Hx as [->|Hx]; [|by apply B3|done]. rewrite Hc. apply B3; [done..|]. by rewrite E.
Qed.
End replace.
Lemma part_inv seen s (f : Task -> bool) : inv seen s -> let l := List.filter f (tasks s) in inv seen (persist l s <| tasks := l |>).
Proof.
  intros Hv l. assert (l `sublist_of` tasks s) as Hsub by apply filter_sublist. apply written_inv.
  - eapply sublist_NoDup; [apply (v_ids _ _ Hv)|]. by apply fmap_sublist.
  - destruct (v_fits _ _ Hv) as [H|H]; [left; by eapply fits_sublist|right]. pose proof (counts_sublist _ _ Hsub). lia.
  - intros y Hy. apply (v_seen _ _ Hv). left. eapply elem_of_submseteq; [exact Hy|by apply sublist_submseteq].
Qed.
Lemma inv_step seen s e : inv seen s -> (forall i, registers e = Some i -> i ∉ seen) -> inv (option_list (registers e) ++ seen) (step s e).
Proof.
  intros Hv Hf. destruct e as [i t r now|i p now|i e x now|i| | | |]; simpl in *.
  - unfold registerTask. set (task := {| id := i; kind := _ |}). set (l := trimTaskHistory (task :: tasks s)). apply written_inv.
    + apply trim_NoDup. simpl. constructor; [|apply Hv]. intros (x & Hx & Hin)%list_elem_of_fmap. apply (Hf i eq_refl). rewrite Hx. apply (v_seen _ _ Hv). by left.
    + left. apply trim_fits.
    + intros y [->|Hy]%trim_in%elem_of_cons; [by left|right]. apply (v_seen _ _ Hv). by left.
  - unfold updateTask. destruct (open_task i s) as [[k t]|] eqn:Eo; [|done]. apply open_Some in Eo as (Hk & Hid & He).
    set (t' := (patched p t) <| updatedAtMs := now |>) in *. destruct (replaced seen s k t t' Hv Hk eq_refl eq_refl) as (Hn & Hs & _). split; simpl; try done.
    + by apply trim_NoDup.
    + left. apply trim_fits.
    + intros y [Hy%trim_in|Hy]; [by apply Hs|]. apply (v_seen _ _ Hv). by right.
    + apply Hv.
    + intros l [= <-]. done.
    + by eapply behind_replaced.
  - unfold finishTask in *. destruct (open_task i s) as [[k t]|] eqn:Eo; [|done]. apply open_Some in Eo as (Hk & Hid & He).
    destruct (replaced seen s k t (finished e x now t) Hv Hk eq_refl eq_refl) as (Hn & Hs & _). apply written_inv; [by apply trim_NoDup|left; apply trim_fits|].
    intros y Hy%trim_in. by apply Hs.
  - unfold removeTask. destruct (getTask i s) as [t|]; [|done]. destruct (isTerminal _); [|done]. by apply part_inv.
  - by apply part_inv.
  - destruct (persistTimer s); [by apply flush_inv|done].
  - by apply flush_inv.
  - pose proof (v_stored _ _ Hv) as Hn. split; simpl; try done.
    + by apply load_NoDup.
    + right. apply load_none_active.
    + intros y [(t0 & H0 & _ & ->)%elem_load|Hy]; [destruct (interrupt_id t0) as (-> & _)|]; apply (v_seen _ _ Hv); by right.
    + by apply behind_load.
    + by right.
Qed.
(** No list is longer than the bound, or than the active tasks there ever were at once. *)
Definition within (n : nat) (s : St) : Prop := (length (tasks s) <= n /\ length (stored s) <= n)%nat.
Lemma within_set n l s : (length l <= n)%nat -> within n (persist l s <| tasks := l |>).
Proof. intros H. split; simpl; [done|]. pose proof (sublist_length _ _ (trim_sublist l)). lia. Qed.
Lemma trim_within n l : (MAX_TASK_HISTORY <= n)%nat -> (activeCount (trimTaskHistory l) <= n)%nat -> (length (trimTaskHistory l) <= n)%nat.
Proof. intros H1 H2. pose proof (trim_length l). rewrite trim_active in H2. lia. Qed.
Lemma flush_within n seen s : inv seen s -> within n s -> within n (flushPersist s).
Proof.
  intros Hv [H1 H2]. unfold flushPersist. simpl. destruct (pendingPersist s) as [l|] eqn:Ep; [|done]. destruct (v_pending _ _ Hv l Ep) as [-> _].
  split; simpl; [done|]. pose proof (sublist_length _ _ (trim_sublist (tasks s))). lia.
Qed.
Lemma step_within n seen s e : inv seen s -> within n s -> (MAX_TASK_HISTORY <= n)%nat -> (activeCount (tasks (step s e)) <= n)%nat -> within n (step s e).
Proof.
  intros Hv Hw Hm Ha. pose proof Hw as [H1 H2]. destruct e as [i t r now|i p now|i e x now|i| | | |]; simpl in *.
  - by apply within_set, trim_within.
  - unfold updateTask in *. destruct (open_task i s) as [[k t]|]; [|done]. split; [by apply trim_within|done].
  - unfold finishTask in *. destruct (open_task i s) as [[k t]|]; [|done]. by apply within_set, trim_within.
  - unfold removeTask. destruct (getTask i s) as [t|]; [|done]. destruct (isTerminal _); [|done]. apply within_set. pose proof (List.filter_length_le (fun t => negb (bool_decide (id t = i))) (tasks s)). lia.
  - apply within_set. pose proof (List.filter_length_le is_active (tasks s)). lia.
  - destruct (persistTimer s); [by eapply flush_within|done].
  - by eapply flush_within.
  - split; simpl; [|done]. unfold loadInitial. rewrite length_map. pose proof (List.filter_length_le kept_at_load (stored s)). lia.
Qed.

(** * The theorems *)

(** The most tasks that were ever active at once. *)
Definition peak (evs : list Event) : nat := list_max (map (fun k => activeCount (tasks (history (take k evs)))) (seq 0 (S (length evs)))).
Lemma peak_snoc evs e : peak (evs ++ [e]) = Nat.max (peak evs) (activeCount (tasks (history (evs ++ [e])))).
Proof.
  unfold peak. rewrite length_app. simpl length. rewrite Nat.add_1_r, (seq_S (S (length evs))), map_app, list_max_app. f_equal.
  - f_equal. apply map_ext_in. intros k Hk%in_seq. by rewrite take_app_le by lia.
  - simpl. rewrite (take_ge (evs ++ [e])) by (rewrite length_app; simpl; lia). by rewrite Nat.max_0_r.
Qed.
Lemma init_inv : inv [] init.
Proof.
  split; [constructor|left; apply Nat.le_0_l|intros t [H|H]; by apply elem_of_nil in H|constructor|done|by apply behind_trim; constructor|by left].
Qed.
Lemma inv_history evs : NoDup (omap registers evs) ->
  exists seen, inv seen (history evs) /\ (forall i, i ∈ seen -> i ∈ omap registers evs) /\ within (Nat.max MAX_TASK_HISTORY (peak evs)) (history evs).
Proof.
  induction evs as [|e evs IH] using rev_ind.
  - intros _. exists []. split_and!; [apply init_inv|done|split; simpl; lia].
  - rewrite omap_app. intros (Hn1 & Hn2 & _)%NoDup_app. destruct (IH Hn1) as (seen & Hv & Hs & Hw). pose proof (peak_snoc evs e) as Hp.
    unfold history in *. rewrite fold_left_app in Hp |- *. simpl in Hp |- *. exists (option_list (registers e) ++ seen). split_and!.
    + apply inv_step; [done|]. intros i Hi Hin. apply (Hn2 i); [by apply Hs|]. simpl. rewrite Hi. by left.
    + intros i [Hi|Hi]%elem_of_app; [|apply elem_of_app; left; by apply Hs]. apply elem_of_app. right. simpl. by destruct (registers e).
    + eapply step_within; [exact Hv| |lia|lia]. destruct Hw. split; lia.
Qed.
Lemma getTask_Some seen i s t : inv seen s -> t ∈ tasks s -> id t = i -> getTask i s = Some t.
Proof.
  intros Hv Ht Hi. unfold getTask. destruct (find_first _ _) as [x|] eqn:Ef.
  - apply find_first_Some in Ef as [Hx Hp%bool_decide_eq_true]. f_equal. apply (NoDup_map_inj id (tasks s)); [apply Hv|done|done|congruence].
  - rewrite find_first_None in Ef. specialize (Ef t Ht). by rewrite bool_decide_true in Ef.
Qed.
(** The event that ends a task. *)
Definition ends (e : Event) (i : str) : bool :=
  match e with
  | EFinish j _ _ _ => bool_decide (j = i)
  | EUpdate j p _ => bool_decide (j = i) && match p_status p with Some st => isTerminal st | None => false end
  | _ => false
  end.
(** What a change leaves of a task: an active one stays, unless it ends among too many; an ended one stays as it is if it stays. *)
Definition kept (e : Event) (t : Task) (l : list Task) : Prop :=
  (is_active t = true -> (exists t', t' ∈ l /\ id t' = id t) \/ (ends e (id t) = true /\ MAX_TASK_HISTORY <= activeCount l)%nat) /\
  (ended t = true -> forall t', t' ∈ l -> id t' = id t -> t' = t).
Section keeps.
Context (seen : list str) (s : St) (t : Task) (e : Event) (Hv : inv seen s) (Ht : t ∈ tasks s).
Lemma kept_part (l : list Task) : (forall x, x ∈ l -> x ∈ tasks s) -> (is_active t = true -> t ∈ l) -> kept e t l.
Proof.
  intros Hl Ha. split; [intros H; left; exists t; split; [by apply Ha|done]|].
  intros _ t' H' E. apply (NoDup_map_inj id (tasks s)); [apply Hv|by apply Hl|done|done].
Qed.
Lemma kept_filter (f : Task -> bool) : (is_active t = true -> f t = true) -> kept e t (List.filter f (tasks s)).
Proof.
  intros Hf. apply kept_part; [intros x [Hx _]%list_elem_of_In%filter_In; by apply list_elem_of_In|].
  intros Ha. apply list_elem_of_In, filter_In. split; [by apply list_elem_of_In|by apply Hf].
Qed.
Lemma kept_all : kept e t (tasks s).
Proof. by apply kept_part. Qed.
Lemma kept_replaced (k : nat) (x x' : Task) : tasks s !! k = Some x -> id x' = id x -> kind x' = kind x -> ended x = false -> (ended x' = true -> ends e (id x) = true) ->
  kept e t (trimTaskHistory (<[k := x']> (tasks s))).
Proof.
  intros Hk Hi Hc He Hee. assert (x ∈ tasks s) as Hx by (by eapply list_elem_of_lookup_2). split.
  - intros Ha. destruct (insert_stays k x x' _ Hk He (fits_now seen s k x Hv Hk He)) as [Hin|[Hend Hm]].
    all: destruct (decide (id t = id x)) as [E|E]; [|left; exists t; split; [|done]; apply trim_elem; [|done]].
    + left. exists x'. split; [done|congruence].
    + apply list_elem_of_lookup in Ht as [n Hn]. apply (list_elem_of_lookup_2 _ n). rewrite list_lookup_insert_ne; [done|]. intros ->. congruence.
    + right. rewrite E. by split; [apply Hee|].
    + apply list_elem_of_lookup in Ht as [n Hn]. apply (list_elem_of_lookup_2 _ n). rewrite list_lookup_insert_ne; [done|]. intros ->. congruence.
  - intros Het t' H'%trim_in E. apply (elem_insert k x) in H' as [->|H']; [|by apply (NoDup_map_inj id (tasks s)); [apply Hv|..]|done]. exfalso. rewrite Hi in E.
    rewrite (NoDup_map_inj id (tasks s) x t (v_ids _ _ Hv)) in He; congruence.
Qed.
Lemma kept_registered (task : Task) : (id task ∉ seen) -> kept e t (trimTaskHistory (task :: tasks s)).
Proof.
  intros Hf. split.
  - intros Ha. left. exists t. split; [|done]. apply trim_elem; [by right|done].
  - intros _ t' [->|H'']%trim_in%elem_of_cons E; [by exfalso; apply Hf; rewrite E; apply (v_seen _ _ Hv); left|].
    by apply (NoDup_map_inj id (tasks s)); [apply Hv|..].
Qed.
End keeps.
Lemma flush_tasks s : tasks (flushPersist s) = tasks s.
Proof. unfold flushPersist. simpl. by destruct (pendingPersist s). Qed.
Lemma step_keeps seen s e t : inv seen s -> (forall i, registers e = Some i -> i ∉ seen) -> e <> ERestart -> t ∈ tasks s -> kept e t (tasks (step s e)).
Proof.
  intros Hv Hf Hr Ht. pose proof (kept_all seen s t e Hv Ht) as Hall. destruct e as [i n r now|i p now|i e x now|i| | | |]; simpl; try done.
  - unfold registerTask. eapply (kept_registered seen); [done..|]. by apply Hf.
  - unfold updateTask. destruct (open_task i s) as [[k x]|] eqn:Eo; [|done]. apply open_Some in Eo as (Hk & Hi & He). apply (kept_replaced seen s t _ Hv Ht k x); try done.
    unfold ended, patched. simpl. intros Hst. rewrite bool_decide_true by done. simpl. destruct (p_status p); simpl in Hst; [done|]. unfold ended in He. congruence.
  - unfold finishTask. destruct (open_task i s) as [[k y]|] eqn:Eo; [|done]. apply open_Some in Eo as (Hk & Hi & He). apply (kept_replaced seen s t _ Hv Ht k y); try done.
    intros _. simpl. by apply bool_decide_true.
  - unfold removeTask. destruct (getTask i s) as [y|] eqn:Eg; [|done]. destruct (isTerminal (status y)) eqn:Ey; [|done].
    apply (kept_filter seen s t _ Hv Ht). intros Ha. apply negb_true_iff, bool_decide_eq_false. intros E.
    rewrite (getTask_Some seen i s t Hv Ht E) in Eg. injection Eg as ->. unfold is_active in Ha. by rewrite Ey in Ha.
  - by apply (kept_filter seen s t _ Hv Ht).
  - destruct (persistTimer s); [by rewrite flush_tasks|done].
  - by rewrite flush_tasks.
Qed.
(** C33: Until the program starts again, an active task never leaves the list, whatever else is registered,
    finished, removed or cleared, except that one that ends while two hundred others are active leaves at
    once; a task that has ended never changes again, so its first end is the one it keeps; ids are not
    shared; and the list is never longer than two hundred, or than the active tasks there once were at
    the same time. (New tasks have new ids. What a restart makes of the tasks is C35.) *)
Theorem first_end_wins evs e : NoDup (omap registers (evs ++ [e])) ->
  let s := history evs in let s' := step s e in
  NoDup (map id (tasks s)) /\ (length (tasks s) <= Nat.max 200 (peak evs))%nat /\
  (e <> ERestart -> forall t, t ∈ tasks s ->
     (is_active t = true -> (exists t', t' ∈ tasks s' /\ id t' = id t) \/ (ends e (id t) = true /\ 200 <= activeCount (tasks s'))%nat) /\
     (ended t = true -> forall t', t' ∈ tasks s' -> id t' = id t -> t' = t)).
Proof.
  rewrite omap_app. intros (Hn1 & Hn2 & _)%NoDup_app s s'. destruct (inv_history evs Hn1) as (seen & Hv & Hs & Hw). fold s in Hv. split_and!; [apply Hv|apply Hw|].
  intros Hr t Ht. apply (step_keeps seen); [done| |done|done]. intros i Hi Hin. apply (Hn2 i); [by apply Hs|]. simpl. rewrite Hi. by left.
Qed.
(** An end is written at once, with its time; but one among too many active tasks is not kept at all. *)
Lemma finish_writes seen s i e x now t : inv seen s -> getTask i s = Some t -> is_active t = true -> let s2 := finishTask i e x now s in
  stored s2 = tasks s2 /\ pendingPersist s2 = None /\
  ((exists t2, t2 ∈ stored s2 /\ id t2 = i /\ status t2 = end_status e /\ endedAtMs t2 = Some now) \/ (MAX_TASK_HISTORY <= activeCount (tasks s2))%nat).
Proof.
  intros Hv Hg Ha s2. apply find_first_Some in Hg as Hg2. destruct Hg2 as [Hin Hi%bool_decide_eq_true].
  assert (exists k, open_task i s = Some (k, t)) as [k Ho].
  { unfold open_task, index_of_task. destruct (find_index (fun t => bool_decide (id t = i)) (tasks s)) as [k|] eqn:Ef.
    - apply find_index_Some in Ef as (y & Hy & Hp%bool_decide_eq_true & _). exists k. rewrite Hy.
      rewrite (NoDup_map_inj id (tasks s) y t (v_ids _ _ Hv)); [|by eapply list_elem_of_lookup_2|done|congruence]. unfold is_active in Ha. by destruct (isTerminal (status t)).
    - rewrite find_index_None in Ef. specialize (Ef t Hin). by rewrite bool_decide_true in Ef. }
  unfold s2, finishTask. rewrite Ho. apply open_Some in Ho as (Hk & _ & He). simpl. rewrite trim_trim. split_and!; [done|done|].
  destruct (insert_stays k t (finished e x now t) _ Hk He (fits_now seen s k t Hv Hk He)) as [H|[_ H]]; [left|by right]. by exists (finished e x now t).
Qed.
(** C35: What a restart finds: every task of the list (as the bound cuts it) but the console's own, in their
    order; each as it ended, or marked interrupted when it was not over, or when its end came with a
    progress report that was not written yet; nothing is shown as going on. An end reported as one
    ([finishTask]) is written at once: storage then holds the list, in it the task with this end and
    its time, unless two hundred others are active, which leaves no place for it. *)
Theorem restart_finds evs : NoDup (omap registers evs) -> let s := history evs in let s' := restart s in
  map id (mine (trimTaskHistory (tasks s))) `sublist_of` map id (mine (tasks s')) /\ (forall t', t' ∈ tasks s' -> ended t' = true) /\
  (forall t t', t ∈ tasks s -> t' ∈ tasks s' -> id t' = id t ->
     t' = t \/ (status t' = Interrupted /\ (is_active t = true \/ pendingPersist s <> None))) /\
  (forall i e x now t, getTask i s = Some t -> is_active t = true -> let s2 := finishTask i e x now s in
     stored s2 = tasks s2 /\ pendingPersist s2 = None /\
     ((exists t2, t2 ∈ stored s2 /\ id t2 = i /\ status t2 = end_status e /\ endedAtMs t2 = Some now) \/ (200 <= activeCount (tasks s2))%nat)).
Proof.
  intros Hn s s'. destruct (inv_history evs Hn) as (seen & Hv & _). fold s in Hv. destruct (v_behind _ _ Hv) as (B1 & B2 & _). pose proof (v_stored _ _ Hv) as Hns.
  split_and!.
  - etrans; [exact B1|]. unfold s', restart. simpl. by rewrite mine_load.
  - intros t' (t0 & _ & _ & ->)%elem_load. apply interrupt_id.
  - intros t t' Ht (t0 & H0 & _ & ->)%elem_load E. destruct (interrupt_id t0) as (Hi & _ & _ & Hx). rewrite Hi in E. destruct (ended t0) eqn:Et.
    + left. rewrite Hx by done. symmetry. by apply B2.
    + destruct (pendingPersist s) as [l|] eqn:Ep; [right; split; [unfold interrupt, ended in *; by rewrite Et|by right]|]. destruct (v_written _ _ Hv Ep) as [Hw|Hw].
      * right. split; [unfold interrupt, ended in *; by rewrite Et|left]. rewrite Hw in H0. apply trim_in in H0. rewrite (NoDup_map_inj id (tasks s) t t0 (v_ids _ _ Hv) Ht H0) by done. rewrite is_active_ended. by rewrite Et.
      * left. rewrite Hw in Ht. apply elem_load in Ht as (t1 & H1 & _ & ->). destruct (interrupt_id t1) as (Hi1 & _). rewrite Hi1 in E. by rewrite (NoDup_map_inj id (stored s) t0 t1 Hns H0 H1 E).
  - intros i e x now t. by apply (finish_writes seen).
Qed.

(** ** Examples *)

Definition an_init (k : string) : Init :=
  {| n_kind := js k; n_label := js "Upload"; n_detail := None; n_console := js "10.0.0.2:9114"; n_key := None; n_job := None; n_status := None; n_progress := None |}.
Definition no_extras : Extras := {| x_error := None; x_progress := None; x_detail := None |}.
Definition no_patch : Patch := {| p_label := None; p_progress := None; p_status := None; p_detail := None; p_job := None; p_error := None |}.
Definition a_day : list Event :=
  [ERegister (js "1") (an_init "upload-file") None 10; ERegister (js "2") (an_init "console-task") None 20;
   ERegister (js "3") (an_init "download") (Some (js "p1")) 30; EFinish (js "1") EndFailed no_extras 40;
   EUpdate (js "3") (no_patch <| p_detail := Some (js "half") |>) 50; EFinish (js "1") EndDone no_extras 60].
(** The first end is kept; the restart marks the download, drops the console's own task, and does not
    find the progress report that was waiting. *)
Example a_day_ends :
  map (fun t => (id t, status t)) (tasks (history a_day)) = [(js "3", Running); (js "2", Running); (js "1", Failed)] /\
  map (fun t => (id t, status t, detail t, endedAtMs t)) (tasks (history (a_day ++ [ERestart]))) =
    [(js "3", Interrupted, None, Some 30); (js "1", Failed, None, Some 40)] /\
  interruptedAtLoad (history (a_day ++ [ERestart])) = [js "3"].
Proof. vm_compute. by split_and!. Qed.
(** An end that comes with a progress report waits for the timer: a crash before it loses the end. *)
Example end_by_update_waits : let evs := [ERegister (js "1") (an_init "download") None 10; EUpdate (js "1") (no_patch <| p_status := Some Done |>) 20] in
  map status (tasks (history evs)) = [Done] /\ map status (tasks (history (evs ++ [ERestart]))) = [Interrupted] /\
  map status (tasks (history (evs ++ [ETimer; ERestart]))) = [Done].
Proof. vm_compute. by split_and!. Qed.
Lemma first_end_wins_witness : let s := history a_day in
  (length (tasks s) <= 200)%nat /\ forall t, t ∈ tasks s -> ended t = true -> forall t', t' ∈ tasks (step s EClear) -> id t' = id t -> t' = t.
Proof.
  destruct (first_end_wins a_day EClear) as (_ & Hl & Hk); [by apply (bool_decide_unpack _); vm_compute|].
  split; [exact Hl|]. intros t Ht. by apply Hk.
Defined.
Lemma restart_finds_witness : let s' := restart (history a_day) in
  (length s'.(tasks) = 2)%nat /\ forall t', t' ∈ tasks s' -> ended t' = true.
Proof.
  destruct (restart_finds a_day) as (_ & He & _); [by apply (bool_decide_unpack _); vm_compute|].
  split; [reflexivity|exact He].
Defined.
