(* ===== verification/Schedules.v ===== *)
(** Scheduled reminders (client/src/state/schedules.ts): when one is due, what a tick of the runner does
    with it, and the store.

    A [Date] is its time value; its local fields are those of the language's definition over the two
    conversions of the computer's time zone ([local] and [utc]), which are a parameter. What storage
    holds is the list in memory; reading it back keeps the rows of the one action left. [log] is what the
    runner did. *)
From S2P Require Import Prelude Addr.

(** * Schedules *)

Inductive ScheduleKind := Daily | Weekly | Once.
#[export] Instance schedule_kind_eq_dec : EqDecision ScheduleKind.
Proof. solve_decision. Defined.
Record Schedule := {
  id : str; enabled : bool; kind : ScheduleKind; action : str; hhmm : option str; weekdays : option (list Z); oneShotMs : option Z;
  label : str; body : option str; lastFiredMs : option Z; armedMs : option Z; missedAtMs : option Z }.
#[export] Instance settable_schedule : Settable Schedule := fun s => {|
  id := id s; enabled := enabled s; kind := kind s; action := action s; hhmm := hhmm s; weekdays := weekdays s; oneShotMs := oneShotMs s;
  label := label s; body := body s; lastFiredMs := lastFiredMs s; armedMs := armedMs s; missedAtMs := missedAtMs s |}.
(** The rows of a stored list that this version runs. *)
Definition parseSchedules (l : list Schedule) : list Schedule := List.filter (fun s => bool_decide (action s = js "notif")) l.

Definition CATCH_UP_MS : Z := 15 * 60000.

(** ** The hour and minute *)

Fixpoint digits_of (s : str) : str := match s with a :: s => if is_digit a then a :: digits_of s else [] | [] => [] end.
(** [parseInt(s, 10)], [None] for NaN. *)
Definition parse_int (s : str) : option Z :=
  let s := trim_start s in
  let neg := match s with a :: _ => is_char "-" a | [] => false end in
  let s := match s with a :: s' => if is_char "-" a || is_char "+" a then s' else s | [] => [] end in
  match digits_of s with [] => None | d => Some (if neg then - parse_dec d else parse_dec d) end.
Definition hour_minute (text : str) : option (Z * Z) :=
  match split_on ":" text with
  | h :: m :: _ =>
      match parse_int h, parse_int m with
      | Some hh, Some mm => if (hh <? 0) || (23 <? hh) || (mm <? 0) || (59 <? mm) then None else Some (hh, mm)
      | _, _ => None
      end
  | _ => None
  end.

(** * Local time *)

Definition DAY : Z := 86400000.
Definition day (x : Z) : Z := x / DAY.
Section zone.
(** The local time of a time value, as milliseconds of a clock without a zone; and back. *)
Context (local utc : Z -> Z).
(** [d.setDate(d.getDate() - back)], [d.setHours(hh, mm, 0, 0)] and [d.getDay()]. *)
Definition set_date_back (t back : Z) : Z := utc (local t - back * DAY).
Definition set_hours (t hh mm : Z) : Z := utc (day (local t) * DAY + hh * 3600000 + mm * 60000).
Definition get_day (t : Z) : Z := (day (local t) + 4) mod 7.

(** [!s.weekdays || s.weekdays.length === 0], of a weekly schedule. *)
Definition no_weekday (s : Schedule) : bool :=
  bool_decide (kind s = Weekly) && match weekdays s with Some (_ :: _) => false | _ => true end.
Definition on_weekday (s : Schedule) (t : Z) : bool := negb (bool_decide (kind s = Weekly)) || bool_decide (get_day t ∈ weekdays s ?? []).
Fixpoint walk_back (s : Schedule) (now hh mm : Z) (backs : list Z) : option Z :=
  match backs with
  | [] => None
  | back :: backs =>
      let t := set_hours (set_date_back now back) hh mm in
      if now <? t then walk_back s now hh mm backs
      else if negb (on_weekday s t) then walk_back s now hh mm backs
      else Some t
  end.
Definition latestDue (s : Schedule) (nowMs : Z) : option Z :=
  match kind s with
  | Once => match oneShotMs s with Some t => if negb (t =? 0) && (t <=? nowMs) then Some t else None | None => None end
  | Daily | Weekly =>
      match hhmm s with
      | Some ((_ :: _) as text) =>
          match hour_minute text with
          | Some (hh, mm) => if no_weekday s then None else walk_back s nowMs hh mm [0; 1; 2; 3; 4; 5; 6; 7]
          | None => None
          end
      | _ => None
      end
  end.

(** * What to do with a schedule *)

Inductive ScheduleVerdict := Fire (dueMs : Z) | Missed (dueMs : Z).
Definition evaluateSchedule (s : Schedule) (nowMs catchUpMs : Z) : option ScheduleVerdict :=
  if negb (enabled s) then None else
  match latestDue s nowMs with
  | None => None
  | Some due =>
      if due <=? (lastFiredMs s ?? 0) then None else
      if due <=? (missedAtMs s ?? 0) then None else
      if nowMs - due <=? catchUpMs then
        match armedMs s with
        | Some a => if due <? a then None else Some (Fire due)
        | None => Some (Fire due)
        end
      else
        let since := Z.max (armedMs s ?? 0) (lastFiredMs s ?? 0) in
        if (since =? 0) || (due <? since) then None else Some (Missed due)
  end.

(** ** The store *)

Inductive Note :=
| NTick (now : Z) | NFired (i : str) (due now : Z) | NMissed (i : str) (due now : Z) | NRan (i : str) | NDismissed (i : str)
| NAdded (i : str) (now : Z) | NSwitched (i : str) (was on : bool) (now : Z).
Record St := { schedules : list Schedule; log : list Note }.
Definition edit (i : str) (f : Schedule -> Schedule) (s : St) : St :=
  {| schedules := map (fun x => if decide (id x = i) then f x else x) (schedules s); log := log s |}.
Definition note (n : Note) (s : St) : St := {| schedules := schedules s; log := log s ++ [n] |}.
(** [add] takes no id and no last firing. *)
Definition add (i : str) (x : Schedule) (now : Z) (s : St) : St :=
  {| schedules := schedules s ++ [x <| id := i |> <| lastFiredMs := None |> <| armedMs := Some now |>]; log := log s |}.
(** [patch]: its [enabled], and the rest of what it sets. *)
Definition update (i : str) (on : option bool) (rest : Schedule -> Schedule) (now : Z) : St -> St :=
  edit i (fun x =>
    let merged := (rest x) <| enabled := on ?? enabled x |> in
    if (on ?? false) && negb (enabled x) then merged <| armedMs := Some now |> else merged).
Definition remove (i : str) (s : St) : St :=
  {| schedules := List.filter (fun x => negb (bool_decide (id x = i))) (schedules s); log := log s |}.
(** A one-shot is over once it fired, or was missed. *)
Definition off_once (x : Schedule) : bool := if decide (kind x = Once) then false else enabled x.
Definition markFired (i : str) (ms : Z) : St -> St := edit i (fun x => x <| lastFiredMs := Some ms |> <| enabled := off_once x |>).
Definition markMissed (i : str) (at_ : Z) : St -> St := edit i (fun x => x <| missedAtMs := Some at_ |> <| enabled := off_once x |>).
Definition clearMissed (i : str) : St -> St := edit i (fun x => x <| missedAtMs := None |>).

(** A tick of the runner: over the list as it was. *)
Definition tick_one (now : Z) (s : St) (x : Schedule) : St :=
  match evaluateSchedule x now CATCH_UP_MS with
  | Some (Fire due) => note (NFired (id x) due now) (markFired (id x) now s)
  | Some (Missed due) => note (NMissed (id x) due now) (markMissed (id x) due s)
  | None => s
  end.
Definition tick (now : Z) (s : St) : St := fold_left (tick_one now) (schedules s) (note (NTick now) s).

(** What the screens do, the runner's ticks, and a restart. *)
Definition is_on (i : str) (s : St) : bool := existsb (fun x => bool_decide (id x = i) && enabled x) (schedules s).
Inductive Event :=
| EAdd (i : str) (x : Schedule) (now : Z) | EEnable (i : str) (on : bool) (now : Z) | ERemove (i : str)
| ERunNow (i : str) | EDismiss (i : str) | ETick (now : Z) | ELoad.
Definition step (s : St) (e : Event) : St :=
  match e with
  | EAdd i x now => add i x now (note (NAdded i now) s)
  | EEnable i on now => update i (Some on) (fun x => x) now (note (NSwitched i (is_on i s) on now) s)
  | ERemove i => remove i s
  | ERunNow i => clearMissed i (note (NRan i) s)
  | EDismiss i => clearMissed i (note (NDismissed i) s)
  | ETick now => tick now s
  | ELoad => {| schedules := parseSchedules (schedules s); log := log s |}
  end.
Definition history (l0 : list Schedule) (evs : list Event) : St := fold_left step evs {| schedules := parseSchedules l0; log := [] |}.
End zone.

(** * The latest time it was due *)

(** The time of day [hh]:[mm] of a date, as a clock shows it. *)
Definition clock_at (d hh mm : Z) : Z := d * DAY + hh * 3600000 + mm * 60000.
Lemma day_clock d hh mm : 0 <= hh <= 23 -> 0 <= mm <= 59 -> day (clock_at d hh mm) = d.
Proof. intros Hh Hm. unfold day, clock_at, DAY. symmetry. apply (Z.div_unique _ _ _ (hh * 3600000 + mm * 60000)); lia. Qed.
Lemma hour_minute_range text hh mm : hour_minute text = Some (hh, mm) -> 0 <= hh <= 23 /\ 0 <= mm <= 59.
Proof.
  unfold hour_minute. destruct (split_on ":" text) as [|h [|m l]]; try done. destruct (parse_int h) as [a|], (parse_int m) as [b|]; try done.
  destruct ((a <? 0) || (23 <? a) || (b <? 0) || (59 <? b)) eqn:E; [done|]. intros [= -> ->]. bool_prop. lia.
Qed.
(** What a zone keeps to: the date never runs backwards, and a time of a date is on that date. *)
Class ZoneLaws (local utc : Z -> Z) : Prop := {
  date_forwards : forall t t', t <= t' -> day (local t) <= day (local t');
  on_its_date : forall x, day (local (utc x)) = day x }.
Section latest.
Context (local utc : Z -> Z) `{Hz : ZoneLaws local utc}.
Implicit Types (s : Schedule).
(** The times a schedule is due. *)
Definition is_due s (t : Z) : Prop :=
  match kind s with
  | Once => oneShotMs s = Some t /\ t <> 0
  | _ => exists text hh mm d, hhmm s = Some text /\ hour_minute text = Some (hh, mm) /\ t = utc (clock_at d hh mm) /\
           (kind s = Weekly -> (d + 4) mod 7 ∈ weekdays s ?? [])
  end.
Lemma earlier_date x t : day x < day (local t) -> utc x <= t.
Proof. intros H. destruct (Z.le_gt_cases (utc x) t) as [Hle|Hgt]; [done|]. assert (day (local t) <= day (local (utc x))) by (apply date_forwards; lia). rewrite on_its_date in *. lia. Qed.
Lemma later_date x t : day (local t) < day x -> t < utc x.
Proof. intros H. destruct (Z.lt_ge_cases t (utc x)) as [Hlt|Hge]; [done|]. assert (day (local (utc x)) <= day (local t)) by (apply date_forwards; lia). rewrite on_its_date in *. lia. Qed.
Lemma dates_apart x y : day x < day y -> utc x < utc y.
Proof. intros H. apply later_date. by rewrite on_its_date. Qed.

Section hour.
Context s (hh mm now : Z) (Hhm : 0 <= hh <= 23 /\ 0 <= mm <= 59).
Let back_due (b : Z) : Z := utc (clock_at (day (local now) - b) hh mm).
Let good (b : Z) : Prop := back_due b <= now /\ (kind s = Weekly -> (day (local now) - b + 4) mod 7 ∈ weekdays s ?? []).
Lemma set_back b : set_hours local utc (set_date_back local utc now b) hh mm = back_due b.
Proof.
  unfold set_hours, set_date_back, back_due, clock_at. rewrite on_its_date. do 3 f_equal. unfold day.
  replace (local now - b * DAY) with (local now + (- b) * DAY) by lia. rewrite Z.div_add by done. lia.
Qed.
Lemma weekday_ok b : on_weekday local s (back_due b) = true <-> (kind s = Weekly -> (day (local now) - b + 4) mod 7 ∈ weekdays s ?? []).
Proof.
  unfold on_weekday, get_day, back_due. rewrite on_its_date, day_clock by lia. rewrite orb_true_iff, negb_true_iff, bool_decide_eq_false, bool_decide_eq_true.
  destruct (decide (kind s = Weekly)); naive_solver.
Qed.
Lemma walk_first backs : StronglySorted Z.lt backs ->
  match walk_back local utc s now hh mm backs with
  | Some t => exists b, b ∈ backs /\ t = back_due b /\ good b /\ forall b', b' ∈ backs -> good b' -> b <= b'
  | None => forall b, b ∈ backs -> ~ good b
  end.
Proof.
  induction 1 as [|b backs _ IH Hb]; [by intros b Hb%elem_of_nil|]. simpl. rewrite set_back. rewrite Forall_forall in Hb.
  assert (~ good b -> match walk_back local utc s now hh mm backs with
    | Some t => exists c, c ∈ b :: backs /\ t = back_due c /\ good c /\ forall b', b' ∈ b :: backs -> good b' -> c <= b'
    | None => forall c, c ∈ b :: backs -> ~ good c end) as Hskip.
  { intros Hg. destruct (walk_back _ _ _ _ _ _ _) as [t|]; [|intros c [->|Hc]%elem_of_cons; [done|by apply IH]].
    destruct IH as (c & Hc & Ht & Hgc & Hm). exists c. split_and!; [by right|done|done|]. intros b' [->|Hb']%elem_of_cons Hg'; [done|by apply Hm]. }
  destruct (now <? back_due b) eqn:En; bool_prop; [apply Hskip; unfold good; lia|].
  destruct (on_weekday local s (back_due b)) eqn:Ew; simpl.
  - exists b. split_and!; [by left|done|split; [done|by apply weekday_ok]|]. intros b' [->|Hb']%elem_of_cons _; [done|]. apply Hb in Hb'. lia.
  - apply Hskip. intros [_ Hw]. apply weekday_ok in Hw. congruence.
Qed.
(** A time of a date not after now is on a day that has begun; a time of an earlier date is past. *)
Lemma begun d : utc (clock_at d hh mm) <= now -> d <= day (local now).
Proof. intros H. destruct (Z.le_gt_cases d (day (local now))) as [|Hd]; [done|]. pose proof (later_date (clock_at d hh mm) now) as H'. rewrite day_clock in H' by lia. lia. Qed.
Lemma past b : 0 < b -> back_due b <= now.
Proof. intros H. apply earlier_date. rewrite day_clock by lia. lia. Qed.
(** A weekday it was due on came again within the last eight days. *)
Lemma within_week d : utc (clock_at d hh mm) <= now -> (kind s = Weekly -> (d + 4) mod 7 ∈ weekdays s ?? []) ->
  exists b, b ∈ [0; 1; 2; 3; 4; 5; 6; 7] /\ good b.
Proof.
  intros Hd Hw. pose proof (begun d Hd) as Hle. set (D := day (local now)) in *. change [0; 1; 2; 3; 4; 5; 6; 7] with (seqZ 0 8).
  assert (forall b k, D - b = d + k * 7 -> kind s = Weekly -> (D - b + 4) mod 7 ∈ weekdays s ?? []) as Hk.
  { intros b k E Hks. replace (D - b + 4) with (d + 4 + k * 7) by lia. rewrite Z.mod_add by done. by apply Hw. }
  pose proof (Z.div_mod (D - d) 7) as Hdm. pose proof (Z.mod_pos_bound (D - d) 7) as Hm. destruct (decide ((D - d) mod 7 = 0)) as [E|E].
  - destruct (decide (D = d)) as [E2|Hne].
    + exists 0. split; [apply elem_of_seqZ; lia|]. split; [unfold back_due; fold D; by rewrite Z.sub_0_r, E2|apply (Hk 0 0); lia].
    + exists 7. split; [apply elem_of_seqZ; lia|]. split; [by apply past|apply (Hk 7 ((D - d) / 7 - 1)); lia].
  - exists ((D - d) mod 7). split; [apply elem_of_seqZ; lia|]. split; [apply past; lia|apply (Hk _ ((D - d) / 7)); lia].
Qed.
End hour.
Lemma no_weekday_never s text hh mm t : no_weekday s = true -> hhmm s = Some text -> hour_minute text = Some (hh, mm) -> ~ is_due s t.
Proof.
  unfold no_weekday, is_due. intros Hn Hx Hh. destruct (kind s); simpl in Hn; try done. intros (? & ? & ? & d & _ & _ & _ & H). specialize (H eq_refl).
  destruct (weekdays s) as [[|w l]|]; simpl in *; [by apply elem_of_nil in H|done|by apply elem_of_nil in H].
Qed.
(** [latestDue] is the latest of the times the schedule is due that are not after now. *)
Definition latest_of s (now t : Z) : Prop := is_due s t /\ t <= now /\ forall t', is_due s t' -> t' <= now -> t' <= t.
Lemma latest_walk s text hh mm now : kind s <> Once -> hhmm s = Some text -> hour_minute text = Some (hh, mm) ->
  match walk_back local utc s now hh mm [0; 1; 2; 3; 4; 5; 6; 7] with
  | Some t => latest_of s now t
  | None => forall t, is_due s t -> now < t
  end.
Proof.
  intros Hk Hx Hh. pose proof (hour_minute_range _ _ _ Hh) as Hr.
  assert (forall t, is_due s t <-> exists d, t = utc (clock_at d hh mm) /\ (kind s = Weekly -> (d + 4) mod 7 ∈ weekdays s ?? [])) as Hdue.
  { intros t. unfold is_due. destruct (kind s); try done; split; (intros (text' & h & m & d & ? & ? & ? & ?)|| intros (d & ? & ?)); simplify_eq; eauto 10. }
  assert (StronglySorted Z.lt [0; 1; 2; 3; 4; 5; 6; 7]) as Hs by (repeat constructor; lia).
  pose proof (walk_first s hh mm now Hr _ Hs) as Hw. destruct (walk_back _ _ _ _ _ _ _) as [t|].
  - destruct Hw as (b & Hb & -> & [Hle Hwd] & Hmin). split_and!; [apply Hdue; by eexists|done|]. intros t' (d & -> & Hd)%Hdue Hnow.
    pose proof (begun hh mm now Hr d Hnow) as Hbeg. set (D := day (local now)) in *. destruct (Z.lt_trichotomy d (D - b)) as [Hlt|[->|Hgt]]; [|done|].
    + apply Z.lt_le_incl, dates_apart. rewrite !day_clock by lia. done.
    + assert (b <= D - d) as ?; [|lia]. change [0; 1; 2; 3; 4; 5; 6; 7] with (seqZ 0 8) in *. apply elem_of_seqZ in Hb. apply Hmin.
      * apply elem_of_seqZ. lia.
      * fold D. replace (D - (D - d)) with d by lia. done.
  - intros t (d & -> & Hd)%Hdue. destruct (Z.lt_ge_cases now (utc (clock_at d hh mm))) as [|Hge]; [done|].
    destruct (within_week s hh mm now Hr d Hge Hd) as (b & Hb & Hg). by destruct (Hw b Hb).
Qed.
Lemma latestDue_spec s now t : latestDue local utc s now = Some t <-> latest_of s now t.
Proof.
  unfold latestDue. destruct (decide (kind s = Once)) as [Ek|Ek].
  - rewrite Ek. unfold latest_of, is_due. rewrite Ek. destruct (oneShotMs s) as [o|]; [|naive_solver].
    destruct (Z.eqb_spec o 0), (Z.leb_spec o now); simpl; split; try (by naive_solver lia); intros (([= <-] & ?) & ? & ?); done || lia.
  - assert (forall r, (forall t, latest_of s now t -> False) -> r = None -> (r = Some t <-> latest_of s now t)) as Hnone by naive_solver.
    replace (match kind s with Once => _ | _ => _ end) with
      (match hhmm s with Some ((_ :: _) as text) => match hour_minute text with Some (hh, mm) =>
         if no_weekday s then None else walk_back local utc s now hh mm [0; 1; 2; 3; 4; 5; 6; 7] | None => None end | _ => None end) by (by destruct (kind s)).
    assert (forall t', is_due s t' -> exists text hh mm, hhmm s = Some text /\ hour_minute text = Some (hh, mm)) as Hsome by (unfold is_due; destruct (kind s); naive_solver).
    destruct (hhmm s) as [text|] eqn:Ex; [|by apply Hnone; [intros t' (Hd & _); destruct (Hsome t' Hd) as (? & ? & ? & ? & _)|]].
    destruct (hour_minute text) as [[hh mm]|] eqn:Eh.
    2: { destruct text; (apply Hnone; [intros t' (Hd & _); destruct (Hsome t' Hd) as (? & ? & ? & [= <-] & ?); congruence|done]). }
    destruct text as [|a text]; [done|]. destruct (no_weekday s) eqn:En; [apply Hnone; [|done]; intros t' (Hd & _); by eapply no_weekday_never|].
    pose proof (latest_walk s (a :: text) hh mm now Ek Ex Eh) as Hw. destruct (walk_back _ _ _ _ _ _ _) as [t2|].
    + split; [by intros [= <-]|]. intros (H1 & H2 & H3). destruct Hw as (W1 & W2 & W3). f_equal. apply Z.le_antisymm; auto.
    + split; [done|]. intros (H1 & H2 & _). apply Hw in H1. lia.
Qed.
Lemma latest_between s now due n : latestDue local utc s now = Some due -> due <= n <= now -> latestDue local utc s n = Some due.
Proof. rewrite !latestDue_spec. intros (H1 & H2 & H3) Hn. split_and!; [done|lia|]. intros t Ht Hle. apply H3; [done|lia]. Qed.
End latest.

(** * The runner *)

Section runner.
Context (local utc : Z -> Z).
Abbreviation latestDue := (latestDue local utc).
Abbreviation evaluateSchedule := (evaluateSchedule local utc).
Abbreviation tick := (tick local utc).
Abbreviation history := (history local utc).
(** When it is due is told by the plan alone. *)
Definition same_plan (x y : Schedule) : Prop := kind x = kind y /\ hhmm x = hhmm y /\ weekdays x = weekdays y /\ oneShotMs x = oneShotMs y.
Lemma plan_due x y now : same_plan x y -> latestDue x now = latestDue y now.
Proof. destruct x, y. intros (Hk & Hh & Hw & Ho). simpl in *. subst. reflexivity. Qed.
Lemma latestDue_past x now due : latestDue x now = Some due -> due <= now.
Proof.
  assert (forall hh mm backs, walk_back local utc x now hh mm backs = Some due -> due <= now) as Hw.
  { intros hh mm. induction backs as [|b backs IH]; simpl; [done|]. destruct (now <? _) eqn:E; [done|]. destruct (negb _); [done|]. intros [= <-]. bool_prop. lia. }
  unfold Schedules.latestDue. destruct (kind x).
  1,2: destruct (hhmm x) as [[|a text]|]; try done; destruct (hour_minute _) as [[hh mm]|]; try done; destruct (no_weekday x); try done; apply Hw.
  destruct (oneShotMs x) as [o|]; [|done]. destruct (negb (o =? 0) && (o <=? now)) eqn:E; [|done]. intros [= ->]. bool_prop. lia.
Qed.

(** ** What a tick does to the list and to the log *)

Definition ticked (now : Z) (x : Schedule) : Schedule :=
  match evaluateSchedule x now CATCH_UP_MS with
  | Some (Fire _) => x <| lastFiredMs := Some now |> <| enabled := off_once x |>
  | Some (Missed due) => x <| missedAtMs := Some due |> <| enabled := off_once x |>
  | None => x
  end.
Definition told (now : Z) (x : Schedule) : option Note :=
  match evaluateSchedule x now CATCH_UP_MS with
  | Some (Fire due) => Some (NFired (id x) due now)
  | Some (Missed due) => Some (NMissed (id x) due now)
  | None => None
  end.
Lemma edit_mid i f pre x l g : id x = i -> NoDup (map id (pre ++ x :: l)) ->
  edit i f {| schedules := pre ++ x :: l; log := g |} = {| schedules := pre ++ f x :: l; log := g |}.
Proof.
  intros <- Hn. unfold edit. simpl. f_equal. rewrite map_app in Hn |- *. apply NoDup_app in Hn as (_ & Hpre & Hx). simpl in Hx. apply NoDup_cons in Hx as [Hx _]. simpl. rewrite decide_True by done.
  assert (forall l', (forall y, y ∈ l' -> id y <> id x) -> map (fun y => if decide (id y = id x) then f y else y) l' = l') as Hsame.
  { intros l' Hl. rewrite <- (map_id l') at 2. apply map_ext_in. intros y Hy%list_elem_of_In. rewrite decide_False; [done|by apply Hl]. }
  rewrite !Hsame; [done| |].
  - intros y Hy E. apply Hx. rewrite <- E. by apply list_elem_of_fmap_2.
  - intros y Hy E. apply (Hpre (id y)); [by apply list_elem_of_fmap_2|]. rewrite E. by left.
Qed.
Lemma ticks_from now l pre g : NoDup (map id (pre ++ l)) ->
  fold_left (tick_one local utc now) l {| schedules := pre ++ l; log := g |} = {| schedules := pre ++ map (ticked now) l; log := g ++ omap (told now) l |}.
Proof.
  revert pre g. induction l as [|x l IH]; intros pre g Hn; simpl; [by rewrite !app_nil_r|].
  assert (tick_one local utc now {| schedules := pre ++ x :: l; log := g |} x = {| schedules := pre ++ ticked now x :: l; log := g ++ option_list (told now x) |}) as ->.
  { unfold tick_one, ticked, told, note, markFired, markMissed. destruct (evaluateSchedule x now CATCH_UP_MS) as [[d|d]|]; [..|by rewrite app_nil_r].
    all: by rewrite (edit_mid (id x) _ pre x l g eq_refl Hn). }
  assert (id (ticked now x) = id x) as Hi by (unfold ticked; by destruct (evaluateSchedule x now CATCH_UP_MS) as [[]|]).
  specialize (IH (pre ++ [ticked now x]) (g ++ option_list (told now x))). rewrite <- !app_assoc in IH. simpl in IH. rewrite IH.
  - f_equal. by destruct (told now x).
  - rewrite map_app in Hn |- *. simpl in *. by rewrite Hi.
Qed.
Lemma tick_eq now s : NoDup (map id (schedules s)) ->
  tick now s = {| schedules := map (ticked now) (schedules s); log := (log s ++ [NTick now]) ++ omap (told now) (schedules s) |}.
Proof. intros Hn. apply (ticks_from now (schedules s) []). exact Hn. Qed.

(** ** Why it fires, calls a run missed, or does neither *)

Lemma fire_why x now d : evaluateSchedule x now CATCH_UP_MS = Some (Fire d) ->
  enabled x = true /\ latestDue x now = Some d /\ (lastFiredMs x ?? 0) < d /\ now - d <= CATCH_UP_MS /\ (forall a, armedMs x = Some a -> a <= d).
Proof.
  unfold Schedules.evaluateSchedule. destruct (enabled x); simpl; [|done]. destruct (latestDue x now) as [due|]; [|done].
  destruct (due <=? (lastFiredMs x ?? 0)) eqn:E1; [done|]. destruct (due <=? (missedAtMs x ?? 0)); [done|].
  destruct (now - due <=? CATCH_UP_MS) eqn:E2; [|by destruct (_ || _)]. bool_prop. destruct (armedMs x) as [a|].
  - destruct (due <? a) eqn:E3; [done|]. intros [= <-]. bool_prop. split_and!; try done. intros b [= ->]. done.
  - intros [= <-]. done.
Qed.
Lemma missed_iff x now d : let since := Z.max (armedMs x ?? 0) (lastFiredMs x ?? 0) in
  evaluateSchedule x now CATCH_UP_MS = Some (Missed d) <->
  enabled x = true /\ latestDue x now = Some d /\ (lastFiredMs x ?? 0) < d /\ (missedAtMs x ?? 0) < d /\ CATCH_UP_MS < now - d /\ since <> 0 /\ since <= d.
Proof.
  intros since. unfold Schedules.evaluateSchedule. fold since. destruct (enabled x); simpl; [|naive_solver]. destruct (latestDue x now) as [due|]; [|naive_solver].
  destruct (Z.leb_spec due (lastFiredMs x ?? 0)); [split; [done|intros (_ & [= ->] & ?); lia]|]. destruct (Z.leb_spec due (missedAtMs x ?? 0)); [split; [done|intros (_ & [= ->] & ? & ? & _); lia]|].
  destruct (Z.leb_spec (now - due) CATCH_UP_MS).
  - split; [destruct (armedMs x) as [a|]; [by destruct (due <? a)|done]|intros (_ & [= ->] & ? & ? & ? & _); lia].
  - destruct (Z.eqb_spec since 0), (Z.ltb_spec due since); simpl; split; try done; intros H'; destruct_and?; simplify_eq; try lia.
    all: try done; by split_and!.
Qed.
Lemma missed_why x now d : evaluateSchedule x now CATCH_UP_MS = Some (Missed d) ->
  enabled x = true /\ latestDue x now = Some d /\ (lastFiredMs x ?? 0) < d /\ CATCH_UP_MS < now - d /\ (armedMs x ?? 0) <= d.
Proof. intros (He & Hd & Hf & Hm & Hc & Hz & Hs)%missed_iff. split_and!; try done; lia. Qed.
Lemma neither_why x now d : evaluateSchedule x now CATCH_UP_MS = None -> enabled x = true -> latestDue x now = Some d ->
  d <= (lastFiredMs x ?? 0) \/ d <= (missedAtMs x ?? 0) \/ d < (armedMs x ?? 0) \/ (CATCH_UP_MS < now - d /\ (armedMs x ?? 0) <= 0).
Proof.
  unfold Schedules.evaluateSchedule. intros H He Hd. rewrite He, Hd in H. simpl in H.
  destruct (d <=? (lastFiredMs x ?? 0)) eqn:E1; bool_prop; [by left|]. destruct (d <=? (missedAtMs x ?? 0)) eqn:E2; bool_prop; [by right; left|].
  destruct (now - d <=? CATCH_UP_MS) eqn:E3; bool_prop.
  - destruct (armedMs x) as [a|]; [|done]. destruct (d <? a) eqn:E4; [|done]. bool_prop. by right; right; left.
  - destruct ((Z.max (armedMs x ?? 0) (lastFiredMs x ?? 0) =? 0) || (d <? Z.max (armedMs x ?? 0) (lastFiredMs x ?? 0))) eqn:E4; [|done].
    apply orb_true_iff in E4 as [E4%Z.eqb_eq|E4%Z.ltb_lt]; lia.
Qed.

(** ** The invariant *)

(** The firings of a schedule: when it was due and when it fired. *)
Definition fires (i : str) (l : list Note) : list (Z * Z) :=
  omap (fun n => match n with NFired j d t => if decide (j = i) then Some (d, t) else None | _ => None end) l.
Definition later (a b : Z * Z) : Prop := a.2 < b.1.
(** An enabled schedule has fired for whatever a tick found due, no later than the runner catches up, since it was switched on. *)
Definition heard (l : list Note) (x : Schedule) : Prop :=
  enabled x = true -> forall n d, NTick n ∈ l -> (armedMs x ?? 0) < n -> latestDue x n = Some d -> 0 < d -> (armedMs x ?? 0) <= d -> n - d <= CATCH_UP_MS ->
  d <= (lastFiredMs x ?? 0).
Record inv (seen : list str) (c : Z) (s : St) : Prop := {
  i_ids : NoDup (map id (schedules s));
  i_seen : forall x, x ∈ schedules s -> id x ∈ seen;
  i_fired : forall i, fires i (log s) <> [] -> i ∈ seen;
  i_later : forall i, StronglySorted later (fires i (log s));
  i_timely : forall i d t, (d, t) ∈ fires i (log s) -> d <= t <= d + CATCH_UP_MS /\ forall x, x ∈ schedules s -> id x = i -> t <= (lastFiredMs x ?? 0);
  i_ticks : forall n, NTick n ∈ log s -> n <= c;
  i_missed : forall x d, x ∈ schedules s -> missedAtMs x = Some d -> d + CATCH_UP_MS < c;
  i_heard : forall x, x ∈ schedules s -> heard (log s) x }.
Lemma fires_app i l l' : fires i (l ++ l') = fires i l ++ fires i l'.
Proof. apply omap_app. Qed.
(** A change of a schedule that is no tick. *)
Definition calm (c : Z) (x x' : Schedule) : Prop :=
  id x' = id x /\ lastFiredMs x' = lastFiredMs x /\ (missedAtMs x' = missedAtMs x \/ missedAtMs x' = None) /\
  (enabled x' = true -> (enabled x = true /\ armedMs x' = armedMs x /\ same_plan x' x) \/ c <= (armedMs x' ?? 0)).
Lemma schedule_calm_refl c x : calm c x x.
Proof. unfold calm, same_plan. naive_solver. Qed.
Lemma schedules_calm seen c c' s l : inv seen c s -> NoDup (map id l) -> (forall x', x' ∈ l -> exists x, x ∈ schedules s /\ calm c x x') -> c <= c' ->
  inv seen c' {| schedules := l; log := log s |}.
Proof.
  intros [I1 I2 I3 I4 I5 I6 I7 I8] Hn Hl Hc. split; simpl; try done.
  - intros x' (x & Hx & Hi & _)%Hl. rewrite Hi. by apply I2.
  - intros i d t Hin. destruct (I5 i d t Hin) as [H1 H2]. split; [done|]. intros x' (x & Hx & Hi & Hf & _)%Hl E. rewrite Hf. apply H2; [done|congruence].
  - intros n Hin. specialize (I6 n Hin). lia.
  - intros x' d (x & Hx & _ & _ & [Hm|Hm] & _)%Hl E; [|congruence]. rewrite Hm in E. specialize (I7 x d Hx E). lia.
  - intros x' (x & Hx & _ & Hf & _ & He)%Hl. intros Hen n d Hin Ha Hd Hp Had Hcu. rewrite Hf. destruct (He Hen) as [(Hen0 & Harm & Hplan)|Hlate].
    + rewrite Harm in Ha, Had. rewrite (plan_due x' x n Hplan) in Hd. by eapply (I8 x Hx).
    + specialize (I6 n Hin). lia.
Qed.
Lemma inv_edit seen c c' s i f : inv seen c s -> (forall x, calm c x (f x)) -> c <= c' -> inv seen c' (edit i f s).
Proof.
  intros Hi Hf Hc. apply (schedules_calm seen c); [done| | |done].
  - rewrite map_map. erewrite map_ext; [apply (i_ids _ _ _ Hi)|]. intros x. simpl. destruct (decide _); [apply Hf|done].
  - intros x' (x & -> & Hx)%list_elem_of_fmap. exists x. split; [done|]. destruct (decide _); [apply Hf|apply schedule_calm_refl].
Qed.
Lemma inv_filter seen c s f : inv seen c s -> inv seen c {| schedules := List.filter f (schedules s); log := log s |}.
Proof.
  intros Hi. apply (schedules_calm seen c); [done| | |done].
  - eapply sublist_NoDup; [apply (i_ids _ _ _ Hi)|]. apply fmap_sublist, filter_sublist.
  - intros x [Hx _]%list_elem_of_In%filter_In. exists x. split; [by apply list_elem_of_In|apply schedule_calm_refl].
Qed.
Lemma inv_add seen c i x now s : inv seen c s -> (i ∉ seen) -> missedAtMs x = None -> c <= now -> inv (i :: seen) now (add i x now s).
Proof.
  intros [I1 I2 I3 I4 I5 I6 I7 I8] Hi Hm Hc. assert (fires i (log s) = []) as Hno by (destruct (fires i (log s)) eqn:E; [done|]; exfalso; apply Hi, I3; by rewrite E).
  unfold add. set (y := _ <| armedMs := _ |>). split; simpl; try done.
  - rewrite map_app. apply NoDup_app. split_and!; [done| |apply NoDup_singleton]. intros j (z & -> & Hz)%list_elem_of_fmap E%list_elem_of_singleton. apply Hi. simpl in E. rewrite <- E. by apply I2.
  - intros z [Hz| ->%list_elem_of_singleton]%elem_of_app; [right; by apply I2|by left].
  - intros j Hj. right. by apply I3.
  - intros j d t Hin. destruct (I5 j d t Hin) as [H1 H2]. split; [done|]. intros z [Hz| ->%list_elem_of_singleton]%elem_of_app E; [by apply H2|].
    simpl in E. subst j. rewrite Hno in Hin. by apply elem_of_nil in Hin.
  - intros n Hn. specialize (I6 n Hn). lia.
  - intros z d [Hz| ->%list_elem_of_singleton]%elem_of_app E; [|simpl in E; congruence]. specialize (I7 z d Hz E). lia.
  - intros z [Hz| ->%list_elem_of_singleton]%elem_of_app; [by apply I8|]. intros _ n d Hn Ha. simpl in Ha. specialize (I6 n Hn). lia.
Qed.

(** ** A tick keeps it *)

Lemma ticked_same now x : id (ticked now x) = id x /\ armedMs (ticked now x) = armedMs x /\ same_plan (ticked now x) x /\ (enabled (ticked now x) = true -> enabled x = true).
Proof.
  unfold ticked, off_once, same_plan. destruct (evaluateSchedule x now CATCH_UP_MS) as [[d|d]|]; simpl; [| |by split_and!].
  all: split_and!; try done; by destruct (decide (kind x = Once)).
Qed.
Lemma ticked_fired now x : (lastFiredMs (ticked now x) = lastFiredMs x /\ forall d, evaluateSchedule x now CATCH_UP_MS <> Some (Fire d)) \/
  (lastFiredMs (ticked now x) = Some now /\ exists d, evaluateSchedule x now CATCH_UP_MS = Some (Fire d)).
Proof. unfold ticked. destruct (evaluateSchedule x now CATCH_UP_MS) as [[d|d]|]; simpl; naive_solver. Qed.
Lemma told_fires i now l : NoDup (map id l) -> fires i (omap (told now) l) = [] \/
  exists x d, x ∈ l /\ id x = i /\ evaluateSchedule x now CATCH_UP_MS = Some (Fire d) /\ fires i (omap (told now) l) = [(d, now)].
Proof.
  induction l as [|x l IH]; intros Hn; [by left|]. simpl in Hn. apply NoDup_cons in Hn as [Hx Hn].
  assert (id x = i -> fires i (omap (told now) l) = []) as Hno.
  { intros E. destruct (IH Hn) as [H|(y & d & Hy & Ey & _)]; [done|]. exfalso. apply Hx. rewrite E, <- Ey. by apply list_elem_of_fmap_2. }
  change (omap (told now) (x :: l)) with (match told now x with Some n => n :: omap (told now) l | None => omap (told now) l end).
  assert (fires i (omap (told now) l) = [] \/ exists y d, y ∈ x :: l /\ id y = i /\ evaluateSchedule y now CATCH_UP_MS = Some (Fire d) /\ fires i (omap (told now) l) = [(d, now)]) as Hrest.
  { destruct (IH Hn) as [H|(y & d & Hy & ? & ? & ?)]; [by left|]. right. exists y, d. split; [by right|done]. }
  pose proof (eq_refl (told now x)) as Et. unfold told in Et at 2. destruct (evaluateSchedule x now CATCH_UP_MS) as [[d|d]|] eqn:Ev; rewrite Et; [|exact Hrest..].
  change (fires i (NFired (id x) d now :: omap (told now) l)) with (fires i ([NFired (id x) d now] ++ omap (told now) l)). rewrite fires_app. unfold fires at 1 3. simpl.
  destruct (decide (id x = i)) as [E|E]; simpl; [|exact Hrest]. right. exists x, d. split_and!; [by left|done|done|by rewrite (Hno E)].
Qed.
Lemma told_no_tick now n (l : list Schedule) : NTick n ∈ omap (told now) l -> False.
Proof. intros (x & _ & H)%list_elem_of_omap. unfold told in H. by destruct (evaluateSchedule x now CATCH_UP_MS) as [[]|]. Qed.
Lemma heard_tick seen c now s x : inv seen c s -> c <= now -> x ∈ schedules s -> heard ((log s ++ [NTick now]) ++ omap (told now) (schedules s)) (ticked now x).
Proof.
  intros Hi Hc Hx. destruct (ticked_same now x) as (_ & Harm & Hplan & Hen). intros He n d Hn Ha Hd Hp Had Hcu. rewrite Harm in Ha, Had. rewrite (plan_due _ x n Hplan) in Hd. specialize (Hen He).
  pose proof (latestDue_past _ _ _ Hd) as Hdn. apply elem_of_app in Hn as [[Hn|Hn%list_elem_of_singleton]%elem_of_app|Hn%told_no_tick]; [| |done].
  - pose proof (i_heard _ _ _ Hi x Hx Hen n d Hn Ha Hd Hp Had Hcu) as H. pose proof (i_ticks _ _ _ Hi n Hn). destruct (ticked_fired now x) as [[-> _]|[-> _]]; simpl; lia.
  - injection Hn as ->. destruct (ticked_fired now x) as [[-> Hno]|[-> _]]; [|simpl; lia]. destruct (evaluateSchedule x now CATCH_UP_MS) as [[d2|d2]|] eqn:Ev.
    + by destruct (Hno d2).
    + apply missed_why in Ev as (_ & Hd2 & _ & Hlate & _). simplify_eq. lia.
    + destruct (neither_why x now d Ev Hen Hd) as [H|[H|[H|H]]]; [done| |lia|lia]. destruct (missedAtMs x) as [m|] eqn:Em; simpl in H; [|lia].
      pose proof (i_missed _ _ _ Hi x m Hx Em). lia.
Qed.
Lemma schedules_tick seen c now s : inv seen c s -> c <= now -> inv seen now (tick now s).
Proof.
  intros Hi Hc. pose proof Hi as [I1 I2 I3 I4 I5 I6 I7 _]. rewrite tick_eq by done. pose proof (fun i => told_fires i now (schedules s) I1) as Hnew.
  assert (forall i, fires i ((log s ++ [NTick now]) ++ omap (told now) (schedules s)) = fires i (log s) ++ fires i (omap (told now) (schedules s))) as Hf.
  { intros i. rewrite !fires_app. simpl. by rewrite app_nil_r. }
  split; simpl.
  - rewrite map_map. erewrite map_ext; [exact I1|]. intros x. apply ticked_same.
  - intros x' (x & -> & Hx)%list_elem_of_fmap. destruct (ticked_same now x) as [-> _]. by apply I2.
  - intros i. rewrite Hf. destruct (Hnew i) as [->|(x & d & Hx & <- & _)]; [rewrite app_nil_r; apply I3|intros _; by apply I2].
  - intros i. rewrite Hf. destruct (Hnew i) as [->|(x & d & Hx & Hxi & Ev & ->)]; [by rewrite app_nil_r|]. apply StronglySorted_app_2; [|done|repeat constructor].
    intros [d0 t0] b H0 ->%list_elem_of_singleton. unfold later. simpl. apply fire_why in Ev as (_ & _ & Hl & _). destruct (I5 i d0 t0 H0) as [_ H]. specialize (H x Hx Hxi). lia.
  - intros i d t. rewrite Hf. intros [Hin|Hin]%elem_of_app.
    + destruct (I5 i d t Hin) as [H1 H2]. split; [done|]. intros x' (x & -> & Hx)%list_elem_of_fmap E. destruct (ticked_same now x) as [Hxi _]. rewrite Hxi in E. specialize (H2 x Hx E).
      destruct (ticked_fired now x) as [[-> _]|[-> (d2 & Ev)]]; [done|]. apply fire_why in Ev as (_ & Hd2%latestDue_past & Hl & _). simpl. lia.
    + destruct (Hnew i) as [E|(x & d2 & Hx & Hxi & Ev & E)]; rewrite E in Hin; [by apply elem_of_nil in Hin|]. apply list_elem_of_singleton in Hin. simplify_eq.
      pose proof (fire_why _ _ _ Ev) as (_ & Hd%latestDue_past & _ & Hcu & _). split; [lia|]. intros x' (y & -> & Hy)%list_elem_of_fmap Ey. destruct (ticked_same now y) as [Hyi _]. rewrite Hyi in Ey.
      assert (y = x) as -> by (by apply (NoDup_map_inj id (schedules s))). destruct (ticked_fired now x) as [[_ Hno]|[-> _]]; [by destruct (Hno d2)|done].
  - intros n [[Hn|Hn%list_elem_of_singleton]%elem_of_app|Hn%told_no_tick]%elem_of_app; [specialize (I6 n Hn); lia|injection Hn as ->; lia|done].
  - intros x' d (x & -> & Hx)%list_elem_of_fmap. unfold ticked. destruct (evaluateSchedule x now CATCH_UP_MS) as [[d2|d2]|] eqn:Ev; simpl.
    1,3: intros Hm; specialize (I7 x d Hx Hm); lia. intros [= ->]. apply missed_why in Ev as (_ & _ & _ & Hlate & _). lia.
  - intros x' (x & -> & Hx)%list_elem_of_fmap. by apply (heard_tick seen c).
Qed.

(** ** Histories *)

Definition time_of (e : Event) : option Z := match e with EAdd _ _ now | EEnable _ _ now | ETick now => Some now | _ => None end.
(** The clock does not go back, and a new schedule has a new id and no missed run. *)
Fixpoint sensible (seen : list str) (c : Z) (evs : list Event) : Prop :=
  match evs with
  | [] => True
  | e :: evs =>
      c <= (time_of e ?? c) /\ match e with EAdd i x _ => (i ∉ seen) /\ missedAtMs x = None | _ => True end /\
      sensible (match e with EAdd i _ _ => i :: seen | _ => seen end) (time_of e ?? c) evs
  end.
Definition stored_ok (c : Z) (l : list Schedule) : Prop :=
  NoDup (map id l) /\ (forall x d, x ∈ l -> missedAtMs x = Some d -> d + CATCH_UP_MS < c) /\ (forall x a, x ∈ l -> armedMs x = Some a -> a <= c).
Definition clock_after (c : Z) (evs : list Event) : Z := fold_left (fun c e => time_of e ?? c) evs c.
(** Notes of what the screens do. *)
Definition from_screen (n : Note) : bool := match n with NTick _ | NFired _ _ _ | NMissed _ _ _ => false | _ => true end.
Lemma inv_note seen c m s : from_screen m = true -> inv seen c s -> inv seen c (note m s).
Proof.
  intros Hm [I1 I2 I3 I4 I5 I6 I7 I8]. assert (forall j, fires j (log s ++ [m]) = fires j (log s)) as Hf by (intros j; rewrite fires_app; destruct m; try done; by rewrite app_nil_r).
  assert (forall n, NTick n ∈ log s ++ [m] -> NTick n ∈ log s) as Ht by (intros n [Hn|Hn%list_elem_of_singleton]%elem_of_app; [done|by subst m]).
  split; simpl; try done.
  - intros j. rewrite Hf. apply I3.
  - intros j. rewrite Hf. apply I4.
  - intros j d t. rewrite Hf. apply I5.
  - intros n Hn%Ht. by apply I6.
  - intros x Hx He n d Hn%Ht. by apply (I8 x Hx He).
Qed.
Lemma inv_event seen c e s : inv seen c s -> c <= (time_of e ?? c) -> match e with EAdd i x _ => (i ∉ seen) /\ missedAtMs x = None | _ => True end ->
  inv (match e with EAdd i _ _ => i :: seen | _ => seen end) (time_of e ?? c) (step local utc s e).
Proof.
  intros Hi Hc Hok. destruct e as [i x now|i on now|i|i|i|now|]; simpl in *.
  - destruct Hok as [Hn Hm]. apply (inv_add seen c); [by apply inv_note|done..].
  - apply (inv_edit seen c); [by apply inv_note| |done]. intros x. unfold calm, same_plan. destruct on; simpl; [|by split_and!; [..|left|]].
    destruct (enabled x) eqn:He; simpl; (split_and!; [done|done|by left|]); intros _; [left; by split_and!|by right].
  - by apply inv_filter.
  - apply (inv_edit seen c); [by apply inv_note| |done]. intros x. unfold calm, same_plan. simpl. split_and!; [done|done|by right|]. intros He. left. by split_and!.
  - apply (inv_edit seen c); [by apply inv_note| |done]. intros x. unfold calm, same_plan. simpl. split_and!; [done|done|by right|]. intros He. left. by split_and!.
  - by apply (schedules_tick seen c).
  - by apply inv_filter.
Qed.
Lemma inv_events evs : forall seen c s, inv seen c s -> sensible seen c evs -> exists seen', inv seen' (clock_after c evs) (fold_left (step local utc) evs s).
Proof.
  induction evs as [|e evs IH]; intros seen c s Hi Hs; [by exists seen|]. destruct Hs as (Hc & Hok & Hs). simpl. eapply IH; [|exact Hs]. by apply inv_event.
Qed.
Lemma stored_inv l0 c : stored_ok c l0 -> inv (map id l0) c {| schedules := parseSchedules l0; log := [] |}.
Proof.
  intros (Hn & Hm & _). unfold parseSchedules. set (f := fun x => _). assert (forall x, x ∈ List.filter f l0 -> x ∈ l0) as Hin by (intros x [Hx _]%list_elem_of_In%filter_In; by apply list_elem_of_In).
  split; simpl; try done.
  - eapply sublist_NoDup; [exact Hn|]. apply fmap_sublist, filter_sublist.
  - intros x Hx%Hin. by apply list_elem_of_fmap_2.
  - intros i. constructor.
  - intros i d t []%elem_of_nil.
  - intros n []%elem_of_nil.
  - intros x d Hx%Hin. by apply Hm.
  - intros x _ _ n d []%elem_of_nil.
Qed.
Lemma schedules_inv l0 c evs : stored_ok c l0 -> sensible (map id l0) c evs -> exists seen, inv seen (clock_after c evs) (history l0 evs).
Proof. intros Hl Hs. apply (inv_events evs (map id l0)); [by apply stored_inv|done]. Qed.
Lemma sensible_app evs e : forall seen c, sensible seen c (evs ++ [e]) -> sensible seen c evs /\ clock_after c evs <= (time_of e ?? clock_after c evs).
Proof using. clear. induction evs as [|e0 evs IH]; intros seen c; simpl; [tauto|]. intros (H1 & H2 & H3). apply IH in H3 as [H3 H4]. done. Qed.

(** ** What the log tells of a row *)

(** The times a schedule was added or switched on, having been off. *)
Definition on_by (i : str) (n : Note) : option Z :=
  match n with
  | NAdded j t => if decide (j = i) then Some t else None
  | NSwitched j false true t => if decide (j = i) then Some t else None
  | _ => None
  end.
Definition switched_on (i : str) (l : list Note) : list Z := omap (on_by i) l.
Lemma switched_app i l l' : switched_on i (l ++ l') = switched_on i l ++ switched_on i l'.
Proof. apply omap_app. Qed.
(** The times it was switched on, those kept from an earlier session among them. *)
Definition on_times (l0 : list Schedule) (i : str) (l : list Note) : list Z :=
  omap (fun x => if decide (id x = i) then armedMs x else None) l0 ++ switched_on i l.
Lemma on_times_app l0 i l l' : on_times l0 i (l ++ l') = on_times l0 i l ++ switched_on i l'.
Proof. unfold on_times. by rewrite switched_app, app_assoc. Qed.
(** What a row keeps is what the log says happened, or what it held when the app began. *)
Record traced (l0 : list Schedule) (c : Z) (s : St) : Prop := {
  t_armed : forall x a, x ∈ schedules s -> a ∈ on_times l0 (id x) (log s) -> exists a', armedMs x = Some a' /\ a <= a';
  t_from : forall x a, x ∈ schedules s -> armedMs x = Some a -> a ∈ on_times l0 (id x) (log s);
  t_since : forall l1 l2 i d t, log s = l1 ++ NFired i d t :: l2 -> forall a, a ∈ on_times l0 i l1 -> a <= d;
  t_rang : forall x t, x ∈ schedules s -> lastFiredMs x = Some t ->
    (exists x0, x0 ∈ l0 /\ id x0 = id x /\ lastFiredMs x0 = Some t) \/ (t <= c /\ exists d, (d, t) ∈ fires (id x) (log s) /\ latestDue x t = Some d);
  t_missed : forall x m, x ∈ schedules s -> missedAtMs x = Some m ->
    (exists x0, x0 ∈ l0 /\ id x0 = id x /\ missedAtMs x0 = Some m) \/ exists t, t <= c /\ latestDue x t = Some m;
  t_times : forall i a, a ∈ on_times l0 i (log s) -> a <= c }.
(** A row whose history the log goes on telling. *)
Definition row_traced (l0 : list Schedule) (c : Z) (g : list Note) (x : Schedule) : Prop :=
  (forall a, a ∈ on_times l0 (id x) g -> exists a', armedMs x = Some a' /\ a <= a') /\
  (forall a, armedMs x = Some a -> a ∈ on_times l0 (id x) g) /\
  (forall t, lastFiredMs x = Some t ->
    (exists x0, x0 ∈ l0 /\ id x0 = id x /\ lastFiredMs x0 = Some t) \/ (t <= c /\ exists d, (d, t) ∈ fires (id x) g /\ latestDue x t = Some d)) /\
  (forall m, missedAtMs x = Some m ->
    (exists x0, x0 ∈ l0 /\ id x0 = id x /\ missedAtMs x0 = Some m) \/ exists t, t <= c /\ latestDue x t = Some m).
Definition log_traced (l0 : list Schedule) (c : Z) (g : list Note) : Prop :=
  (forall l1 l2 i d t, g = l1 ++ NFired i d t :: l2 -> forall a, a ∈ on_times l0 i l1 -> a <= d) /\ forall i a, a ∈ on_times l0 i g -> a <= c.
Lemma traced_rows l0 c s : traced l0 c s <-> log_traced l0 c (log s) /\ forall x, x ∈ schedules s -> row_traced l0 c (log s) x.
Proof.
  split; [intros []|intros [[H1 H2] H]]; [split; [by split|]|split; try done].
  - intros x Hx. split_and!; eauto.
  - intros x a Hx. by apply (H x Hx).
  - intros x a Hx. by apply (H x Hx).
  - intros x t Hx. by apply (H x Hx).
  - intros x m Hx. by apply (H x Hx).
Qed.
(** The log grows by a note; a firing is for a time not before it was switched on. *)
Lemma log_traced_grows l0 c c' g n : log_traced l0 c g -> c <= c' -> (forall i d t, n = NFired i d t -> forall a, a ∈ on_times l0 i g -> a <= d) ->
  (forall i a, on_by i n = Some a -> a <= c') -> log_traced l0 c' (g ++ [n]).
Proof.
  intros [H1 H2] Hc Hn Ho. split.
  - intros l1 l2 i d t Hg. destruct l2 as [|m l2 _] using rev_ind; [apply app_inj_tail in Hg as [-> ->]; by apply (Hn i d t)|].
    rewrite app_comm_cons, app_assoc in Hg. apply app_inj_tail in Hg as [Hg _]. by eapply H1.
  - intros i a. rewrite on_times_app. intros [Ha|Ha]%elem_of_app; [specialize (H2 i a Ha); lia|]. unfold switched_on in Ha. simpl in Ha.
    destruct (on_by i n) as [b|] eqn:Eb; [|by apply elem_of_nil in Ha]. apply list_elem_of_singleton in Ha. subst b. by apply (Ho i).
Qed.
(** A row as before, in a longer log that does not say it was switched on. *)
Lemma row_traced_calm l0 c c' g n x x' : row_traced l0 c g x -> c <= c' -> id x' = id x -> lastFiredMs x' = lastFiredMs x -> missedAtMs x' = missedAtMs x \/ missedAtMs x' = None ->
  same_plan x' x ->
  (on_by (id x) n = None /\ armedMs x' = armedMs x) \/ (on_by (id x) n = Some c' /\ armedMs x' = Some c' /\ forall a, a ∈ on_times l0 (id x) g -> a <= c') ->
  row_traced l0 c' (g ++ [n]) x'.
Proof.
  intros (R1 & R2 & R3 & R4) Hc Hid Hf Hm Hp Ha. assert (forall d t, (d, t) ∈ fires (id x) g -> (d, t) ∈ fires (id x) (g ++ [n])) as Hfi by (intros d t H; rewrite fires_app; apply elem_of_app; by left).
  assert (on_times l0 (id x) (g ++ [n]) = on_times l0 (id x) g ++ option_list (on_by (id x) n)) as Hs by (rewrite on_times_app; unfold switched_on; simpl; by destruct (on_by (id x) n)).
  unfold row_traced. rewrite Hid, Hs. split_and!.
  - intros a [Hin|Hin]%elem_of_app; destruct Ha as [[E ->]|(E & -> & Hle)]; rewrite ?E in *; [by apply R1|eexists; split; [done|by apply Hle]|by apply elem_of_nil in Hin|].
    apply list_elem_of_singleton in Hin. subst a. eexists. split; [done|lia].
  - intros a Ea. destruct Ha as [[_ Ha]|(E & Ha & _)]; rewrite Ha in Ea; [apply elem_of_app; left; by apply R2|].
    injection Ea as ->. rewrite E. apply elem_of_app. right. by left.
  - intros t. rewrite Hf. intros Ht. destruct (R3 t Ht) as [H|(H1 & d & H2 & H3)]; [by left|right]. split; [lia|]. exists d. split; [by apply Hfi|]. by rewrite (plan_due x' x).
  - intros m Em. destruct Hm as [Hm|Hm]; rewrite Hm in Em; [|done]. destruct (R4 m Em) as [H|(t & H1 & H2)]; [by left|right]. exists t. split; [lia|]. by rewrite (plan_due x' x).
Qed.
Lemma row_traced_sooner l0 c c' g x : row_traced l0 c g x -> c <= c' -> row_traced l0 c' g x.
Proof.
  intros (R1 & R2 & R3 & R4) Hc. split_and!; try done.
  - intros t Ht. destruct (R3 t Ht) as [H|(H1 & H2)]; [by left|right]. split; [lia|done].
  - intros m Em. destruct (R4 m Em) as [H|(t & H1 & H2)]; [by left|right]. exists t. split; [lia|done].
Qed.

(** *** Each event goes on telling it *)

Lemma told_not_on i now x n : told now x = Some n -> on_by i n = None.
Proof. unfold told. destruct (evaluateSchedule x now CATCH_UP_MS) as [[]|]; by intros [= <-]. Qed.
Lemma told_switched i now l : switched_on i (omap (told now) l) = [].
Proof.
  unfold switched_on. induction l as [|x l IH]; [done|]. simpl. destruct (told now x) as [n|] eqn:E; simpl; [|done]. by rewrite (told_not_on i now x n E).
Qed.
Lemma tick_row_traced l0 c now s x : traced l0 c s -> NoDup (map id (schedules s)) -> c <= now -> x ∈ schedules s ->
  row_traced l0 now ((log s ++ [NTick now]) ++ omap (told now) (schedules s)) (ticked now x).
Proof.
  intros [Hl Hr]%traced_rows Hn Hc Hx. destruct (Hr x Hx) as (R1 & R2 & R3 & R4). destruct (ticked_same now x) as (Hid & Harm & Hplan & _).
  set (g := (log s ++ [NTick now]) ++ _). assert (on_times l0 (id x) g = on_times l0 (id x) (log s)) as Hsw by (unfold g; rewrite !on_times_app, told_switched; by rewrite !app_nil_r).
  assert (forall d t, (d, t) ∈ fires (id x) (log s) -> (d, t) ∈ fires (id x) g) as Hfi by (intros d t H; unfold g; rewrite !fires_app; apply elem_of_app; left; apply elem_of_app; by left).
  unfold row_traced. rewrite Hid, Harm, Hsw. split_and!; [done|done| |].
  - intros t Ht. rewrite (plan_due _ x t Hplan). destruct (ticked_fired now x) as [[Hf _]|[Hf [d Ev]]]; rewrite Hf in Ht.
    + destruct (R3 t Ht) as [H|(H1 & d & H2 & H3)]; [by left|right]. split; [lia|]. exists d. split; [by apply Hfi|done].
    + injection Ht as <-. right. split; [lia|]. exists d. pose proof (fire_why _ _ _ Ev) as (_ & Hd & _). split; [|done].
      apply list_elem_of_omap. exists (NFired (id x) d now). split; [|by rewrite decide_True]. apply elem_of_app. right. apply list_elem_of_omap. exists x. split; [done|]. unfold told. by rewrite Ev.
  - intros m Hm. assert ((exists t, t <= now /\ latestDue x t = Some m) \/ missedAtMs x = Some m) as [(t & H1 & H2)|Hm'].
    { unfold ticked in Hm. destruct (evaluateSchedule x now CATCH_UP_MS) as [[d|d]|] eqn:Ev; simpl in Hm; [by right| |by right].
      injection Hm as <-. left. exists now. apply missed_why in Ev as (_ & Hd & _). done. }
    + right. exists t. by rewrite (plan_due _ x t Hplan).
    + destruct (R4 m Hm') as [H|(t & H1 & H2)]; [by left|right]. exists t. split; [lia|]. by rewrite (plan_due _ x t Hplan).
Qed.
Lemma told_log_traced l0 now l g : log_traced l0 now g ->
  (forall x d, x ∈ l -> evaluateSchedule x now CATCH_UP_MS = Some (Fire d) -> forall a, a ∈ on_times l0 (id x) g -> a <= d) -> log_traced l0 now (g ++ omap (told now) l).
Proof.
  revert g. induction l as [|x l IH]; intros g Hg Hf; [simpl; by rewrite app_nil_r|].
  change (omap (told now) (x :: l)) with (match told now x with Some n => n :: omap (told now) l | None => omap (told now) l end).
  destruct (told now x) as [n|] eqn:Et; [|apply IH; [done|]; intros y d Hy; apply Hf; by right].
  replace (g ++ n :: omap (told now) l) with ((g ++ [n]) ++ omap (told now) l) by (by rewrite <- app_assoc). pose proof (told_not_on) as Ho. apply IH.
  - apply (log_traced_grows l0 now); [done|lia| |intros i a E; by rewrite (Ho i now x n Et) in E].
    intros i d t -> a. unfold told in Et. destruct (evaluateSchedule x now CATCH_UP_MS) as [[d2|d2]|] eqn:Ev; try done. injection Et as <- <- _. apply Hf; [by left|done].
  - intros y d Hy Ev a. rewrite on_times_app. unfold switched_on. simpl. rewrite (Ho (id y) now x n Et), app_nil_r. apply Hf; [by right|done].
Qed.
Lemma traced_tick l0 c now s : traced l0 c s -> NoDup (map id (schedules s)) -> c <= now -> traced l0 now (tick now s).
Proof.
  intros Ht Hn Hc. pose proof Ht as [Hl Hr]%traced_rows. rewrite tick_eq by done. apply traced_rows. simpl. split.
  - apply told_log_traced; [by apply (log_traced_grows l0 c)|]. intros x d Hx (_ & _ & _ & _ & Ha)%fire_why a. rewrite on_times_app, app_nil_r.
    intros (a' & E & Hle)%(proj1 (Hr x Hx)). specialize (Ha a' E). lia.
  - intros x' (x & -> & Hx)%list_elem_of_fmap. by apply (tick_row_traced l0 c).
Qed.
(** The rows of an edit, after a note of the screen. *)
Lemma traced_edit l0 c c' n i f s : traced l0 c s -> c <= c' -> (forall j d t, n <> NFired j d t) ->
  (forall j a, on_by j n = Some a -> j = i /\ a = c') ->
  (forall x, id x = i -> id (f x) = i /\ lastFiredMs (f x) = lastFiredMs x /\ (missedAtMs (f x) = missedAtMs x \/ missedAtMs (f x) = None) /\ same_plan (f x) x /\
     ((x ∈ schedules s -> on_by i n = None) /\ armedMs (f x) = armedMs x \/ (x ∈ schedules s -> on_by i n = Some c') /\ armedMs (f x) = Some c')) ->
  traced l0 c' (edit i f (note n s)).
Proof.
  intros Ht Hc Hn Ho Hf. pose proof Ht as [Hl Hr]%traced_rows. apply traced_rows. simpl. split.
  - apply (log_traced_grows l0 c); [done|done| |intros j a Ha; destruct (Ho j a Ha); lia]. intros j d t E. by destruct (Hn j d t).
  - intros x' (x & -> & Hx)%list_elem_of_fmap. destruct (decide (id x = i)) as [E|E].
    + subst i. destruct (Hf x eq_refl) as (F1 & F2 & F3 & F4 & F5). eapply row_traced_calm; [by apply Hr|done..|].
      destruct F5 as [[F5 F6]|[F5 F6]]; [left; by auto|right]. split_and!; [by auto|done|]. intros a Ha. pose proof (proj2 Hl _ a Ha). lia.
    + eapply row_traced_calm; [by apply Hr|done|done|done|by left|done|left]. split; [|done]. destruct (on_by (id x) n) as [a|] eqn:Ea; [|done]. by destruct (Ho _ a Ea).
Qed.
Lemma traced_filter l0 c s f : traced l0 c s -> traced l0 c {| schedules := List.filter f (schedules s); log := log s |}.
Proof. intros [Hl Hr]%traced_rows. apply traced_rows. split; [done|]. intros x [Hx _]%list_elem_of_In%filter_In. by apply Hr, list_elem_of_In. Qed.
Lemma traced_add l0 c i x now s seen : traced l0 c s -> inv seen c s -> (i ∉ seen) -> missedAtMs x = None -> c <= now -> traced l0 now (add i x now (note (NAdded i now) s)).
Proof.
  intros Ht Hi Hnew Hm Hc. pose proof Ht as [Hl Hr]%traced_rows. apply traced_rows. simpl. split.
  - apply (log_traced_grows l0 c); [done..|]. intros j a Ha. simpl in Ha. case_decide; [|done]. injection Ha as ->. lia.
  - intros y [Hy| ->%list_elem_of_singleton]%elem_of_app.
    + eapply row_traced_calm; [by apply Hr|done|done|done|by left|done|left]. split; [|done]. simpl. rewrite decide_False; [done|].
      intros E. apply Hnew. rewrite E. by apply (i_seen _ _ _ Hi).
    + split_and!; simpl.
      * intros a Ha. exists now. split; [done|]. rewrite on_times_app in Ha. unfold switched_on in Ha. simpl in Ha. rewrite decide_True in Ha by done.
        apply elem_of_app in Ha as [Ha|Ha%list_elem_of_singleton]; [|lia]. pose proof (proj2 Hl _ a Ha). lia.
      * intros a [= <-]. rewrite on_times_app. unfold switched_on. simpl. rewrite decide_True by done. apply elem_of_app. right. by left.
      * done.
      * by rewrite Hm.
Qed.
Lemma is_on_true i s x : NoDup (map id (schedules s)) -> x ∈ schedules s -> id x = i -> is_on i s = enabled x.
Proof.
  intros Hn Hx Hi. unfold is_on. destruct (enabled x) eqn:E.
  - apply existsb_exists. exists x. split; [by apply list_elem_of_In|]. by rewrite bool_decide_true, E.
  - apply not_true_is_false. intros (y & Hy%list_elem_of_In & [Hyi%bool_decide_eq_true Hye]%andb_true_iff)%existsb_exists.
    assert (y = x) as -> by (apply (NoDup_map_inj id (schedules s)); [done..|congruence]). congruence.
Qed.
Lemma traced_event l0 seen c e s : inv seen c s -> traced l0 c s -> c <= (time_of e ?? c) -> match e with EAdd i x _ => (i ∉ seen) /\ missedAtMs x = None | _ => True end ->
  traced l0 (time_of e ?? c) (step local utc s e).
Proof.
  intros Hi Ht Hc Hok. pose proof (i_ids _ _ _ Hi) as Hn. destruct e as [i x now|i on now|i|i|i|now|]; simpl in *.
  - destruct Hok as [Hnew Hm]. by apply (traced_add l0 c _ _ _ _ seen).
  - apply (traced_edit l0 c); [done|done|done| |].
    + intros j a. simpl. destruct (is_on i s), on; try done. case_decide; [|done]. intros [= <-]. done.
    + intros x Hxi. simpl. assert (x ∈ schedules s -> is_on i s = enabled x) as Hon by (intros Hx; by apply is_on_true).
      destruct on; simpl; [destruct (enabled x) eqn:Ee; simpl|]; split_and!; try done; try (by left).
      * left. split; [|done]. intros Hx. by rewrite Hon.
      * right. split; [|done]. intros Hx. rewrite Hon, decide_True; done.
      * left. split; [|done]. intros Hx. by destruct (is_on i s).
  - by apply traced_filter.
  - apply (traced_edit l0 c); try done. intros x Hxi. simpl. split_and!; try done; [by right|by left].
  - apply (traced_edit l0 c); try done. intros x Hxi. simpl. split_and!; try done; [by right|by left].
  - by apply (traced_tick l0 c).
  - by apply traced_filter.
Qed.
Lemma traced_events l0 evs : forall seen c s, inv seen c s -> traced l0 c s -> sensible seen c evs -> traced l0 (clock_after c evs) (fold_left (step local utc) evs s).
Proof.
  induction evs as [|e evs IH]; intros seen c s Hi Ht Hs; [done|]. destruct Hs as (Hc & Hok & Hs). simpl. eapply IH; [by apply inv_event| |exact Hs]. by apply (traced_event l0 seen).
Qed.
Lemma schedules_traced l0 c evs : stored_ok c l0 -> sensible (map id l0) c evs -> traced l0 (clock_after c evs) (history l0 evs).
Proof.
  intros Hl Hs. pose proof Hl as (Hn & _ & Ha). apply (traced_events l0 evs (map id l0)); [by apply stored_inv| |done].
  assert (forall i a, a ∈ on_times l0 i [] -> exists x, x ∈ l0 /\ id x = i /\ armedMs x = Some a) as Hon.
  { intros i a. unfold on_times. rewrite app_nil_r. intros (x & Hx & Ex)%list_elem_of_omap. case_decide; [|done]. by exists x. }
  apply traced_rows. simpl. split; [split|].
  - intros l1 l2 i d t H. by destruct l1.
  - intros i a (x & Hx & _ & E)%Hon. by apply (Ha x).
  - intros x [Hx _]%list_elem_of_In%filter_In. apply list_elem_of_In in Hx. split_and!.
    + intros a (y & Hy & Ey & E)%Hon. assert (y = x) as -> by (by apply (NoDup_map_inj id l0)). exists a. split; [done|lia].
    + intros a E. unfold on_times. apply elem_of_app. left. apply list_elem_of_omap. exists x. by rewrite decide_True.
    + intros t E. left. by exists x.
    + intros m E. left. by exists x.
Qed.

(** * The theorems *)

(** C31: A reminder rings once for each time it is due: however it is added, switched, missed, dismissed or
    run by hand, and whenever the runner ticks, a schedule's firings come one after the other, each for a
    time it was due after the firing before it; none comes early or more than fifteen minutes late; a
    tick rings only an enabled schedule, for the latest time its plan says (in a zone whose dates do not
    run backwards); and never for a time before one at
    which it had been added or switched on. *)
Theorem rings_once l0 c evs : stored_ok c l0 -> sensible (map id l0) c evs -> let s := history l0 evs in forall i,
  StronglySorted later (fires i (log s)) /\ Forall (fun p => p.1 <= p.2 <= p.1 + CATCH_UP_MS) (fires i (log s)) /\
  (forall d now, (d, now) ∈ fires i (log (tick now s)) -> (d, now) ∈ fires i (log s) \/
     exists x, x ∈ schedules s /\ id x = i /\ enabled x = true /\ (ZoneLaws local utc -> latest_of utc x now d)) /\
  (forall l1 l2 d t, log s = l1 ++ NFired i d t :: l2 -> forall a, a ∈ on_times l0 i l1 -> a <= d).
Proof.
  intros Hl Hs s i. destruct (schedules_inv l0 c evs Hl Hs) as (seen & Hi). fold s in Hi. split_and!.
  - apply (i_later _ _ _ Hi).
  - apply Forall_forall. intros [d t] Hin. by apply (i_timely _ _ _ Hi i d t).
  - intros d now. rewrite tick_eq by apply Hi. simpl. rewrite !fires_app. intros [[Hin|Hin%elem_of_nil]%elem_of_app|Hin]%elem_of_app; [by left|done|].
    destruct (told_fires i now (schedules s) (i_ids _ _ _ Hi)) as [E|(x & d2 & Hx & Hxi & Ev & E)]; rewrite E in Hin; [by apply elem_of_nil in Hin|].
    apply list_elem_of_singleton in Hin. simplify_eq. right. exists x. apply fire_why in Ev as (? & ? & _). split_and!; [done..|]. intros Hz. by apply (latestDue_spec local utc).
  - intros l1 l2 d t. apply (t_since _ _ _ (schedules_traced l0 c evs Hl Hs)).
Qed.
(** The row was told so when the app began: it rang, or was missed, in an earlier session. *)
Definition was (f : Schedule -> option Z) (l0 : list Schedule) (i : str) (t : Z) : Prop := exists x0, x0 ∈ l0 /\ id x0 = i /\ f x0 = Some t.
Lemma on_time_armed l0 c s x d : traced l0 c s -> x ∈ schedules s -> (exists a, a ∈ on_times l0 (id x) (log s) /\ 0 < a) -> (forall a, a ∈ on_times l0 (id x) (log s) -> a <= d) ->
  0 < (armedMs x ?? 0) <= d.
Proof.
  intros Ht Hx (a & Ha & Hp) Hle. destruct (t_armed _ _ _ Ht x a Hx Ha) as (a' & E & Hm). rewrite E. simpl. specialize (Hle a' (t_from _ _ _ Ht x a' Hx E)). lia.
Qed.
Section told.
Context `{Hz : ZoneLaws local utc}.
(** A time it is due, and that it has not been due since, is the one it rang for, or was told missed. *)
Lemma rang_for l0 c s x now d t : traced l0 c s -> x ∈ schedules s -> c <= now -> latestDue x now = Some d -> lastFiredMs x = Some t -> d <= t ->
  was lastFiredMs l0 (id x) t \/ (d, t) ∈ fires (id x) (log s).
Proof.
  intros Ht Hx Hc Hd Hf Hle. destruct (t_rang _ _ _ Ht x t Hx Hf) as [H|(H1 & d' & H2 & H3)]; [by left|right].
  assert (latestDue x t = Some d) as E by (apply (latest_between local utc x now d t Hd); lia). congruence.
Qed.
Lemma missed_for l0 c s x now d m : traced l0 c s -> x ∈ schedules s -> c <= now -> latestDue x now = Some d -> missedAtMs x = Some m -> d <= m ->
  was missedAtMs l0 (id x) m \/ m = d.
Proof.
  intros Ht Hx Hc Hd Hf Hle. destruct (t_missed _ _ _ Ht x m Hx Hf) as [H|(t & H1 & H2)]; [by left|right]. pose proof (latestDue_past _ _ _ H2).
  assert (latestDue x t = Some d) as E by (apply (latest_between local utc x now d t Hd); lia). congruence.
Qed.
Lemma ticked_tells x now d : enabled x = true -> latestDue x now = Some d -> 0 < (armedMs x ?? 0) <= d -> (forall m, missedAtMs x = Some m -> m + CATCH_UP_MS < now) ->
  (exists t, lastFiredMs (ticked now x) = Some t /\ d <= t) \/ (CATCH_UP_MS < now - d /\ exists m, missedAtMs (ticked now x) = Some m /\ d <= m).
Proof using. clear.
  intros He Hd Ha Hm. pose proof (latestDue_past _ _ _ Hd) as Hdn. unfold ticked. destruct (evaluateSchedule x now CATCH_UP_MS) as [[d2|d2]|] eqn:Ev; simpl.
  - left. exists now. split; [done|lia].
  - right. apply missed_why in Ev as (_ & Hd2 & _ & Hlate & _). simplify_eq. split; [lia|]. exists d. split; [done|lia].
  - destruct (neither_why x now d Ev He Hd) as [H|[H|[H|H]]]; [left|right|lia|lia].
    + destruct (lastFiredMs x) as [t|]; simpl in H; [by exists t|lia].
    + destruct (missedAtMs x) as [m|]; simpl in H; [|lia]. specialize (Hm m eq_refl). split; [lia|by exists m].
Qed.
End told.
(** A missed reminder that was dismissed or run by hand is told missed again by the next tick, until it is due anew. *)
Lemma dismissed_comes_back x now now' d : 0 < d -> evaluateSchedule x now CATCH_UP_MS = Some (Missed d) -> kind x <> Once -> now <= now' -> latestDue x now' = Some d ->
  evaluateSchedule (ticked now x) now' CATCH_UP_MS = None /\
  evaluateSchedule ((ticked now x) <| missedAtMs := None |>) now' CATCH_UP_MS = Some (Missed d).
Proof.
  intros Hp Ev Hk Hn Hd. assert (ticked now x = x <| missedAtMs := Some d |> <| enabled := true |>) as ->.
  { unfold ticked, off_once. rewrite Ev. rewrite decide_False by done. apply missed_why in Ev as [-> _]. done. }
  assert (forall m, latestDue (x <| missedAtMs := m |> <| enabled := true |>) now' = Some d) as Hd' by (intros m; by rewrite (plan_due _ x)).
  apply missed_iff in Ev as (He & _ & Hf & Hm & Hc & Hz & Hs). split.
  - unfold Schedules.evaluateSchedule. rewrite Hd'. simpl. destruct (Z.leb_spec d (lastFiredMs x ?? 0)); [lia|]. by rewrite Z.leb_refl.
  - apply missed_iff. split_and!; [done|apply (Hd' None)|done|simpl; lia|lia|done|done].
Qed.
End runner.

(** * Zones and examples *)

(** A zone of one offset keeps the laws, and so does one whose summer time begins on a day at two. *)
#[export] Instance fixed_zone off : ZoneLaws (fun t => t + off) (fun x => x - off).
Proof. split; intros; [apply Z.div_le_mono; unfold DAY; lia|f_equal; lia]. Qed.
Definition spring (d t : Z) : Z := if t <? d * DAY + 2 * 3600000 then t else t + 3600000.
Definition spring_back (d x : Z) : Z := if x <? d * DAY + 3 * 3600000 then x else x - 3600000.
#[export] Instance spring_zone d : ZoneLaws (spring d) (spring_back d).
Proof.
  split.
  - intros t t' Ht. apply Z.div_le_mono; [unfold DAY; lia|]. unfold spring. destruct (Z.ltb_spec t (d * DAY + 2 * 3600000)), (Z.ltb_spec t' (d * DAY + 2 * 3600000)); lia.
  - intros x. unfold spring_back, spring. destruct (Z.ltb_spec x (d * DAY + 3 * 3600000)); [|destruct (Z.ltb_spec (x - 3600000) (d * DAY + 2 * 3600000)); [lia|f_equal; lia]].
    destruct (Z.ltb_spec x (d * DAY + 2 * 3600000)); [done|]. unfold day. transitivity d; [|symmetry]; symmetry.
    + apply (Z.div_unique _ _ _ (x + 3600000 - d * DAY)); unfold DAY in *; lia.
    + apply (Z.div_unique _ _ _ (x - d * DAY)); unfold DAY in *; lia.
Qed.
Definition a_schedule (k : ScheduleKind) (at_ : string) : Schedule :=
  {| id := []; enabled := true; kind := k; action := js "notif"; hhmm := Some (js at_); weekdays := Some [1; 5]; oneShotMs := None; label := js "Back up";
     body := None; lastFiredMs := None; armedMs := None; missedAtMs := None |}.
Definition minutes (d h m : Z) : Z := d * DAY + h * 3600000 + m * 60000.
Example due_daily : latestDue (fun t => t) (fun x => x) (a_schedule Daily "09:05") (minutes 20000 9 4) = Some (minutes 19999 9 5).
Proof. by vm_compute. Qed.
(** Day 20000 is a Friday; the Monday before it is 19996. *)
Example due_weekly : latestDue (fun t => t) (fun x => x) (a_schedule Weekly "09:05") (minutes 20000 9 4) = Some (minutes 19996 9 5).
Proof. by vm_compute. Qed.
(** A time that the clocks skip is due an hour later. *)
Example due_in_the_gap : latestDue (spring 20000) (spring_back 20000) (a_schedule Daily "02:30") (minutes 20000 12 0) = Some (minutes 20000 2 30).
Proof. by vm_compute. Qed.
(** Added at eight, it rings at nine, once; the computer is asleep on the next day until noon. *)
Definition two_days : list Event :=
  [EAdd (js "1") (a_schedule Daily "09:00") (minutes 20000 8 0); ETick (minutes 20000 8 59); ETick (minutes 20000 9 0 + 20000); ETick (minutes 20000 9 1);
   ETick (minutes 20001 12 0)].
Definition at_greenwich : (Z -> Z) * (Z -> Z) := (fun t => t + 0, fun x => x - 0).
Definition days (evs : list Event) : St := history at_greenwich.1 at_greenwich.2 [] evs.
Definition rung (s : St) : list Note := List.filter (fun n => match n with NFired _ _ _ | NMissed _ _ _ => true | _ => false end) (log s).
Example two_days_ring : rung (days two_days) =
  [NFired (js "1") (minutes 20000 9 0) (minutes 20000 9 0 + 20000); NMissed (js "1") (minutes 20001 9 0) (minutes 20001 12 0)].
Proof. by vm_compute. Qed.
(** Dismissed, the missed reminder is back half a minute later. *)
Example dismissed_again : rung (days (two_days ++ [EDismiss (js "1"); ETick (minutes 20001 12 0 + 30000)])) =
  rung (days two_days) ++ [NMissed (js "1") (minutes 20001 9 0) (minutes 20001 12 0 + 30000)].
Proof. by vm_compute. Qed.
Lemma two_days_sensible : sensible [] 0 (two_days ++ [ETick (minutes 20001 12 1)]).
Proof. simpl. unfold minutes, DAY. split_and!; try lia; [|done]. intros H. by apply elem_of_nil in H. Qed.
Lemma rings_once_witness : StronglySorted later (fires (js "1") (log (days two_days))) /\
  fires (js "1") (log (days two_days)) = [(minutes 20000 9 0, minutes 20000 9 0 + 20000)].
Proof.
  split; [|reflexivity]. apply (rings_once at_greenwich.1 at_greenwich.2 [] 0 two_days).
  - split_and!; [constructor|intros x d H; by apply elem_of_nil in H..].
  - apply sensible_app with (e := ETick (minutes 20001 12 1)). exact two_days_sensible.
Defined.
Definition rung_row : Schedule :=
  (a_schedule Daily "09:00") <| id := js "1" |> <| armedMs := Some (minutes 20000 8 0) |> <| lastFiredMs := Some (minutes 20000 9 0 + 20000) |>.
