(* ===== verification/UploadBatch.v ===== *)
(** Uploading several sources at once: where a source lands (client/src/lib/uploadDest.ts), whether an
    archive is unpacked (client/src/lib/archiveDefault.ts) and what a batch is checked for before it is
    queued (client/src/lib/uploadBatch.ts).

    Texts of messages are left out, a message is its key and values; sizes are integers; text is Latin-1. *)
From S2P Require Import Prelude RemotePath FsUploadPlan Paths ArchiveParts.

(** * Where a source lands *)

Definition basename (p : str) : str := after_last_sep (strip_end is_sep p).
(** [raw.replace(/\.(zip|7z|rar)$/i, "")] and [raw.replace(/\.part\d+$/i, "")]. *)
Definition strip_archive_ext (raw : str) : str :=
  match cut_last "." raw with Some (r, e) => if bool_decide (lower e ∈ ARCHIVE_EXTS) then r else raw | None => raw end.
Definition strip_part (raw : str) : str :=
  match cut_last "." raw with
  | Some (r, m) => if bool_decide (lower (take 4 m) = js "part") && is_digits (drop 4 m) then r else raw
  | None => raw
  end.
Definition dest_root (volume : option str) (subpath : str) : str :=
  let vol := volume ?? js "/data" in
  match strip_both subpath with [] => vol | sub => vol ++ [slash] ++ sub end.
Definition resolveUploadDest (volume : option str) (subpath sourcePath : str) (isArchive archiveIntoSubfolder : bool) : str * str :=
  let destRoot := dest_root volume subpath in
  if isArchive && negb archiveIntoSubfolder then (destRoot, destRoot) else
  let raw := basename sourcePath in
  let name := if isArchive then strip_part (strip_archive_ext raw) else raw in
  (destRoot, match name with [] => destRoot | _ => destRoot ++ [slash] ++ name end).

(** * Whether an archive is unpacked *)

Inductive ArchiveChoice := Unpack | AsIs.
#[export] Instance archive_choice_eq_dec : EqDecision ArchiveChoice.
Proof. solve_decision. Defined.
Record ZipInfo := { game_root : option str; entry_names : option (list str); entry_names_complete : bool }.
Definition PACKAGE_EXTS : list str := [js ".pkg"; js ".ffpkg"; js ".exfat"; js ".ffpfs"; js ".ffpfsc"].
Definition GAME_FILES : list str := [js "eboot.bin"; js "param.json"; js "param.sfo"].
(** [replace(/^(\.\/|\/)+/, "")] *)
Fixpoint strip_lead (s : str) : str :=
  match s with
  | "."%char :: "/"%char :: s => strip_lead s
  | "/"%char :: s => strip_lead s
  | _ => s
  end.
Definition ends (e s : str) : bool := bool_decide (e `suffix_of` s).
Definition marksGameOrPackage (path : str) : bool :=
  let norm := lower (strip_lead (map (fun a => if decide (a = "\"%char) then slash else a) path)) in
  let isDir := ends [slash] norm in
  let parts := List.filter (fun p => negb (bool_decide (p = []))) (split_on slash norm) in
  match last parts with
  | None => false
  | Some l =>
      (negb isDir && existsb (fun e => ends e l) PACKAGE_EXTS) ||
      match find_index (fun p => bool_decide (p = js "sce_sys")) parts with
      | Some ((0 | 1)%nat as i) => isDir || (S i <? length parts)%nat
      | _ => false
      end ||
      (negb isDir && (length parts <=? 2)%nat && bool_decide (l ∈ GAME_FILES))
  end.
Definition archiveDefault (info : option ZipInfo) : option ArchiveChoice :=
  match info with
  | None => None
  | Some z =>
      match game_root z, entry_names z with
      | Some _, _ => Some Unpack
      | None, None => None
      | None, Some names => if existsb marksGameOrPackage names then Some Unpack else if entry_names_complete z then Some AsIs else None
      end
  end.

(** * What a batch is checked for *)

Inductive ScanClass := ScFolder | ScPackage | ScArchive | ScImage | ScOther.
Definition classifyScanEntry (name : str) (isDir : bool) : ScanClass :=
  if starts_with [ "."%char ] name then ScOther else if isDir then ScFolder else
  let low := lower name in
  if ends (js ".pkg") low || ends (js ".fpkg") low then ScPackage
  else if isRarLaterVolume low then ScOther
  else if existsb (fun e => ends (["."%char] ++ e) low) ARCHIVE_EXTS then ScArchive
  else if existsb (fun e => ends e low) [js ".exfat"; js ".ffpkg"; js ".ffpfs"; js ".ffpfsc"] then ScImage
  else ScOther.
Definition volumeOfDest (dest : str) : str :=
  match List.filter (fun p => negb (bool_decide (p = []))) (split_on slash dest) with
  | p :: q :: _ => if decide (p = js "mnt") then js "/mnt/" ++ q else [slash] ++ p
  | p :: _ => [slash] ++ p
  | [] => [slash]
  end.

Record BatchCheckRow := { id : str; sourcePath : str; dest : str; size : option Z; needsPassword : bool; c_setIssue : option ArchiveSetIssue }.
(** The messages, by their keys. *)
Inductive BatchMsg :=
| SplitVolume | PickEntry (entry : str) | MixedParts (own other : str) | MissingParts (listed total : nat)
| SameDest (dest : str) | NeedsPassword
| SpaceUnknown (drive : str) (known : Z) | SpaceShort (drive : str) (known free : Z) | SpaceTight (drive : str) (known fits : Z)
| SpacePartial (drive : str) (unknown : nat) (known : Z) | SpaceShortHint.
Record BatchCheck := { issues : gmap str (list BatchMsg); skip : list str; space : list BatchMsg; blocked : bool }.
Definition fileNameOf (p : str) : str := drop (Z.to_nat (last_sep p + 1)) p.
Definition in_set_of (self : ArchivePartInfo) (r : BatchCheckRow) : bool :=
  match parseArchivePart (fileNameOf (sourcePath r)) with Some p => same_set p self | None => false end.
Definition setIssueNote (r : BatchCheckRow) (live : list BatchCheckRow) : option BatchMsg :=
  match c_setIssue r with
  | None => None
  | Some (SplitUnsupported _ _ _) => Some SplitVolume
  | Some (PickEntryVolume e) => Some (PickEntry e)
  | Some (MixedExtensions own other _ _) => Some (MixedParts own other)
  | Some (ManualParts total) =>
      match parseArchivePart (fileNameOf (sourcePath r)) with
      | None => None
      | Some self =>
          let listed := length (List.filter (in_set_of self) live) in
          if (total <=? listed)%nat then None else Some (MissingParts listed total)
      end
  end.
Definition note (i : str) (msg : BatchMsg) (m : gmap str (list BatchMsg)) : gmap str (list BatchMsg) := <[i := (m !! i ?? []) ++ [msg]]> m.
Definition is_queued (queued : list (str * str)) (r : BatchCheckRow) : bool := existsb (fun q => bool_decide (q.1 = sourcePath r) && bool_decide (q.2 = dest r)) queued.
(** Two rows of one destination that are not the parts of one set. *)
Definition clash (g : str * list BatchCheckRow) : bool := (2 <=? length g.2)%nat && negb (isManualPartSet (map (fun r => fileNameOf (sourcePath r)) g.2)).
Definition note_clash (m : gmap str (list BatchMsg)) (g : str * list BatchCheckRow) : gmap str (list BatchMsg) :=
  if clash g then fold_left (fun m r => note (id r) (SameDest g.1) m) g.2 m else m.
Definition note_row (live : list BatchCheckRow) (m : gmap str (list BatchMsg)) (r : BatchCheckRow) : gmap str (list BatchMsg) :=
  let m := if needsPassword r then note (id r) NeedsPassword m else m in
  match setIssueNote r live with Some msg => note (id r) msg m | None => m end.
Definition known_of (l : list BatchCheckRow) : Z := fold_left (fun n r => n + (size r ?? 0)) l 0.
Definition unknown_of (l : list BatchCheckRow) : nat := length (List.filter (fun r => bool_decide (size r = None)) l).
Definition space_of (free fits : gmap str Z) (g : str * list BatchCheckRow) : option BatchMsg :=
  let '(vol, l) := g in
  match free !! vol with
  | None => Some (SpaceUnknown vol (known_of l))
  | Some f =>
      if f <? known_of l then Some (SpaceShort vol (known_of l) f)
      else if (fits !! vol ?? f) <? known_of l then Some (SpaceTight vol (known_of l) (fits !! vol ?? f))
      else if (0 <? unknown_of l)%nat then Some (SpacePartial vol (unknown_of l) (known_of l)) else None
  end.
Definition is_short (m : BatchMsg) : bool := match m with SpaceShort _ _ _ => true | _ => false end.
Definition live_rows (rows : list BatchCheckRow) (queued : list (str * str)) : list BatchCheckRow := List.filter (fun r => negb (is_queued queued r)) rows.
Definition validateBatch (rows : list BatchCheckRow) (queued : list (str * str)) (free fits : gmap str Z) : BatchCheck :=
  let live := live_rows rows queued in
  let byDest := groups (fun r => Some (dest r)) live in
  let space := omap (space_of free fits) (groups (fun r => Some (volumeOfDest (dest r))) live) in
  {| issues := fold_left (note_row live) live (fold_left note_clash byDest ∅);
     skip := map id (List.filter (is_queued queued) rows);
     space := space ++ (if existsb is_short space then [SpaceShortHint] else []);
     blocked := existsb clash byDest || existsb needsPassword live |}.

(** * The checks of a batch *)

Section checks.
Context (rows : list BatchCheckRow) (queued : list (str * str)) (free fits : gmap str Z).
#[local] Abbreviation live := (live_rows rows queued).
Definition same_dest (d : str) : list BatchCheckRow := List.filter (fun r => bool_decide (dest r = d)) live.
Definition on_drive (v : str) : list BatchCheckRow := List.filter (fun r => bool_decide (volumeOfDest (dest r) = v)) live.
(** What a row is told. *)
Definition told_row (r : BatchCheckRow) : list BatchMsg :=
  (if clash (dest r, same_dest (dest r)) then [SameDest (dest r)] else []) ++ (if needsPassword r then [NeedsPassword] else []) ++
  option_list (setIssueNote r live).
Definition drive_of (m : BatchMsg) : option str :=
  match m with SpaceUnknown v _ | SpaceShort v _ _ | SpaceTight v _ _ | SpacePartial v _ _ => Some v | _ => None end.

Lemma elem_of_live r : r ∈ live <-> r ∈ rows /\ is_queued queued r = false.
Proof. unfold live_rows. by rewrite list_elem_of_In, filter_In, <- list_elem_of_In, negb_true_iff. Qed.
Lemma note_at i j msg m : note i msg m !! j ?? [] = (m !! j ?? []) ++ (if decide (i = j) then [msg] else []).
Proof. unfold note. destruct (decide (i = j)) as [->|]; [by rewrite lookup_insert_eq|by rewrite lookup_insert_ne, app_nil_r]. Qed.
Lemma note_all d l m i : fold_left (fun m r => note (id r) (SameDest d) m) l m !! i ?? [] =
  (m !! i ?? []) ++ map (fun _ => SameDest d) (List.filter (fun r => bool_decide (id r = i)) l).
Proof.
  revert m. induction l as [|r l IH]; intros m; simpl; [by rewrite app_nil_r|]. rewrite IH, note_at, <- app_assoc. f_equal.
  destruct (decide (id r = i)); [by rewrite bool_decide_true|by rewrite bool_decide_false].
Qed.
Lemma note_clashes l m i : fold_left note_clash l m !! i ?? [] =
  (m !! i ?? []) ++ concat (map (fun g => if clash g then map (fun _ => SameDest g.1) (List.filter (fun r => bool_decide (id r = i)) g.2) else []) l).
Proof.
  revert m. induction l as [|g l IH]; intros m; simpl; [by rewrite app_nil_r|]. rewrite IH, app_assoc. f_equal. unfold note_clash.
  destruct (clash g); [apply note_all|by rewrite app_nil_r].
Qed.
Lemma note_rows all l m i : fold_left (note_row all) l m !! i ?? [] =
  (m !! i ?? []) ++ concat (map (fun r => (if needsPassword r then [NeedsPassword] else []) ++ option_list (setIssueNote r all)) (List.filter (fun r => bool_decide (id r = i)) l)).
Proof.
  revert m. induction l as [|r l IH]; intros m; simpl; [by rewrite app_nil_r|]. rewrite IH. unfold note_row.
  assert ((match setIssueNote r all with Some msg => note (id r) msg (if needsPassword r then note (id r) NeedsPassword m else m)
    | None => if needsPassword r then note (id r) NeedsPassword m else m end) !! i ?? [] =
    (m !! i ?? []) ++ (if bool_decide (id r = i) then (if needsPassword r then [NeedsPassword] else []) ++ option_list (setIssueNote r all) else [])) as ->.
  { destruct (setIssueNote r all) as [msg|], (needsPassword r); rewrite ?note_at; destruct (decide (id r = i)) as [E|E];
      [rewrite (bool_decide_true _ E)|rewrite (bool_decide_false _ E)|..]; rewrite ?app_nil_r, <- ?app_assoc; try done;
      (rewrite (bool_decide_true _ E) || rewrite (bool_decide_false _ E)); rewrite ?app_nil_r; done. }
  rewrite <- app_assoc. f_equal. by destruct (bool_decide (id r = i)).
Qed.
Lemma filter_unique {A} (key : A -> str) l x : NoDup (map key l) -> x ∈ l -> List.filter (fun y => bool_decide (key y = key x)) l = [x].
Proof.
  induction l as [|y l IH]; simpl; [by intros _ ?%elem_of_nil|]. intros [Hn Hl]%NoDup_cons [->|Hx]%elem_of_cons.
  - rewrite bool_decide_true by done. f_equal. destruct (List.filter _ l) as [|z k] eqn:E; [done|exfalso].
    assert (z ∈ z :: k) as Hz by by left. rewrite <- E in Hz. apply list_elem_of_In, filter_In in Hz as [Hz Hk%bool_decide_eq_true].
    apply Hn. rewrite <- Hk. apply list_elem_of_fmap. exists z. split; [done|]. by apply list_elem_of_In.
  - rewrite bool_decide_false; [by apply IH|]. intros E. apply Hn. rewrite E. apply list_elem_of_fmap. eauto.
Qed.
Lemma filter_nothing {A} (f : A -> bool) l : (forall x, x ∈ l -> f x = false) -> List.filter f l = [].
Proof. induction l as [|x l IH]; intros H; simpl; [done|]. rewrite H by by left. apply IH. intros y Hy. apply H. by right. Qed.
(** One group of a list by keys, when the others give nothing. *)
Lemma one_group {B} (f : str * list BatchCheckRow -> list B) l k g : NoDup (fst <$> l) -> (k, g) ∈ l -> (forall k' g', (k', g') ∈ l -> k' <> k -> f (k', g') = []) ->
  concat (map f l) = f (k, g).
Proof.
  induction l as [|[k' g'] l IH]; simpl; [by intros _ ?%elem_of_nil|]. intros [Hn Hl]%NoDup_cons [[= -> ->]|Hg]%elem_of_cons H.
  - rewrite (proj2 (concat_nil_Forall _)); [by rewrite app_nil_r|]. apply Forall_forall. intros x ([k2 g2] & -> & H2)%list_elem_of_fmap.
    apply H; [by right|]. intros ->. apply Hn, list_elem_of_fmap. by exists (k', g2).
  - rewrite H; [|by left|intros ->; apply Hn, list_elem_of_fmap; by exists (k, g)]. apply IH; [done..|]. intros. apply H; [by right|done].
Qed.
Lemma groups_some (key : BatchCheckRow -> str) l k g :
  (k, g) ∈ groups (fun r => Some (key r)) l <-> g = List.filter (fun r => bool_decide (key r = k)) l /\ g <> [].
Proof.
  rewrite groups_spec. replace (List.filter (fun r => bool_decide (Some (key r) = Some k)) l) with (List.filter (fun r => bool_decide (key r = k)) l); [done|].
  apply List.filter_ext. intros r. apply bool_decide_ext. naive_solver.
Qed.
Lemma in_group (key : BatchCheckRow -> str) l r : r ∈ l -> (key r, List.filter (fun o => bool_decide (key o = key r)) l) ∈ groups (fun r => Some (key r)) l.
Proof.
  intros Hr. apply groups_some. split; [done|]. intros E.
  assert (r ∈ List.filter (fun o => bool_decide (key o = key r)) l) as Hin by (apply list_elem_of_In, filter_In; split; [by apply list_elem_of_In|by apply bool_decide_true]).
  rewrite E in Hin. by apply elem_of_nil in Hin.
Qed.
Lemma queued_not_live r : NoDup (map id rows) -> r ∈ rows -> is_queued queued r = true -> forall o, o ∈ live -> id o <> id r.
Proof.
  intros Hn Hr Hq o [Ho Hoq]%elem_of_live E. enough (o = r) by congruence.
  assert (o ∈ List.filter (fun y => bool_decide (id y = id r)) rows) as Hin by (apply list_elem_of_In, filter_In; split; [by apply list_elem_of_In|by apply bool_decide_true]).
  rewrite (filter_unique id rows r Hn Hr) in Hin. by apply list_elem_of_singleton in Hin.
Qed.
Lemma live_ids : NoDup (map id rows) -> NoDup (map id live).
Proof. intros Hn. eapply sublist_NoDup; [exact Hn|]. apply fmap_sublist, filter_sublist. Qed.
Lemma issues_of r : NoDup (map id rows) -> r ∈ rows ->
  issues (validateBatch rows queued free fits) !! id r ?? [] = if is_queued queued r then [] else told_row r.
Proof.
  intros Hn Hr. unfold validateBatch. cbn [issues]. rewrite note_rows, note_clashes, lookup_empty. cbn [from_option id app default].
  pose proof (live_ids Hn) as Hnl. destruct (is_queued queued r) eqn:Eq.
  - pose proof (queued_not_live r Hn Hr Eq) as Hno. rewrite (filter_nothing _ live) by (intros o Ho; apply bool_decide_false; by apply Hno). cbn [map concat].
    rewrite app_nil_r. simpl. apply concat_nil_Forall, Forall_forall. intros x ([k g] & -> & Hg%groups_some)%list_elem_of_fmap. destruct Hg as [-> _]. simpl.
    destruct (clash _); [|done]. rewrite filter_nothing; [done|]. intros o [Ho _]%list_elem_of_In%filter_In. apply bool_decide_false, Hno. by apply list_elem_of_In.
  - assert (r ∈ live) as Hl by by apply elem_of_live. rewrite (filter_unique id live r Hnl Hl). cbn [map concat]. rewrite app_nil_r.
    unfold told_row. f_equal. simpl.
    rewrite (one_group _ _ (dest r) (same_dest (dest r))); [|apply groups_NoDup|apply (in_group dest live r Hl)|].
    + destruct (clash _); [|done]. unfold same_dest. cbn [snd fst]. rewrite (filter_unique id); [done| |apply list_elem_of_In, filter_In; split; [by apply list_elem_of_In|by apply bool_decide_true]].
      eapply sublist_NoDup; [exact Hnl|]. apply fmap_sublist, filter_sublist.
    + intros k g [-> _]%groups_some Hk. destruct (clash _); [|done]. cbn [snd fst]. rewrite filter_nothing; [done|].
      intros o [Ho Hd%bool_decide_eq_true]%list_elem_of_In%filter_In. apply bool_decide_false. intros E. apply Hk. rewrite <- Hd. f_equal.
      assert (o ∈ List.filter (fun y => bool_decide (id y = id r)) live) as Hin by (apply list_elem_of_In, filter_In; split; [done|by apply bool_decide_true]).
      rewrite (filter_unique id live r Hnl Hl) in Hin. by apply list_elem_of_singleton in Hin.
Qed.
Lemma nothing_unknown l : (0 <? unknown_of l)%nat = false <-> forall o, o ∈ l -> size o <> None.
Proof.
  unfold unknown_of. rewrite Nat.ltb_ge. split.
  - intros Hl o Ho E. destruct (List.filter _ l) as [|x k] eqn:Ef; [|simpl in Hl; lia].
    assert (o ∈ List.filter (fun r => bool_decide (size r = None)) l) as Hin by (apply list_elem_of_In, filter_In; split; [by apply list_elem_of_In|by apply bool_decide_true]).
    rewrite Ef in Hin. by apply elem_of_nil in Hin.
  - intros H. rewrite filter_nothing; [simpl; lia|]. intros o Ho. apply bool_decide_false. by apply H.
Qed.
Lemma space_of_drive v l m : space_of free fits (v, l) = Some m -> drive_of m = Some v.
Proof. unfold space_of. intros H. repeat case_match; by simplify_eq. Qed.
(** The parts of one zip or 7z set, each once. *)
Definition one_set (names : list str) : Prop :=
  names <> [] /\ NoDup (map number names) /\ exists self, ext self <> js "rar" /\
    forall n, n ∈ names -> exists p, parseArchivePart n = Some p /\ same_set p self = true.
Definition taken (r : BatchCheckRow) : Prop :=
  (2 <= length (same_dest (dest r)))%nat /\ ~ one_set (map (fun o => fileNameOf (sourcePath o)) (same_dest (dest r))).
Definition parts_there (self : ArchivePartInfo) : nat := length (List.filter (in_set_of self) live).
(** What is said about the set of a row. *)
Inductive lacks (r : BatchCheckRow) : list BatchMsg -> Prop :=
| lacks_nothing : c_setIssue r = None -> lacks r []
| lacks_split x y z : c_setIssue r = Some (SplitUnsupported x y z) -> lacks r [SplitVolume]
| lacks_entry e : c_setIssue r = Some (PickEntryVolume e) -> lacks r [PickEntry e]
| lacks_one_kind own other x y : c_setIssue r = Some (MixedExtensions own other x y) -> lacks r [MixedParts own other]
| lacks_no_name total : c_setIssue r = Some (ManualParts total) -> parseArchivePart (fileNameOf (sourcePath r)) = None -> lacks r []
| lacks_none total self : c_setIssue r = Some (ManualParts total) -> parseArchivePart (fileNameOf (sourcePath r)) = Some self ->
    (total <= parts_there self)%nat -> lacks r []
| lacks_parts total self : c_setIssue r = Some (ManualParts total) -> parseArchivePart (fileNameOf (sourcePath r)) = Some self ->
    (parts_there self < total)%nat -> lacks r [MissingParts (parts_there self) total].
(** What a row is told. *)
Definition row_told (r : BatchCheckRow) (ms : list BatchMsg) : Prop := exists c p l, ms = c ++ p ++ l /\
  ((c = [SameDest (dest r)] /\ taken r) \/ (c = [] /\ ~ taken r)) /\
  ((p = [NeedsPassword] /\ needsPassword r = true) \/ (p = [] /\ needsPassword r = false)) /\ lacks r l.
(** The sizes known of what goes to a drive, and what is said about its room. *)
Definition known_size (v : str) : Z := foldr Z.add 0 (omap size (on_drive v)).
Inductive room_told (v : str) : list BatchMsg -> Prop :=
| room_unread : free !! v = None -> room_told v [SpaceUnknown v (known_size v)]
| room_short f : free !! v = Some f -> f < known_size v -> room_told v [SpaceShort v (known_size v) f]
| room_tight f t : free !! v = Some f -> known_size v <= f -> fits !! v = Some t -> t < known_size v -> room_told v [SpaceTight v (known_size v) t]
| room_partial f : free !! v = Some f -> known_size v <= f -> (forall t, fits !! v = Some t -> known_size v <= t) -> (0 < unknown_of (on_drive v))%nat ->
    room_told v [SpacePartial v (unknown_of (on_drive v)) (known_size v)]
| room_enough f : free !! v = Some f -> known_size v <= f -> (forall t, fits !! v = Some t -> known_size v <= t) ->
    (forall o, o ∈ on_drive v -> size o <> None) -> room_told v [].

Lemma clash_taken r : clash (dest r, same_dest (dest r)) = true <-> taken r.
Proof.
  unfold clash, taken. cbn [fst snd]. rewrite andb_true_iff, Nat.leb_le, negb_true_iff, <- not_true_iff_false, isManualPartSet_spec. done.
Qed.
Lemma row_lacks r : lacks r (option_list (setIssueNote r live)).
Proof.
  unfold setIssueNote. destruct (c_setIssue r) as [[]|] eqn:E; try by econstructor.
  destruct (parseArchivePart _) as [self|] eqn:Ep; [|by eapply lacks_no_name].
  destruct (Nat.leb_spec total (length (List.filter (in_set_of self) live))); [by eapply lacks_none|by eapply lacks_parts].
Qed.
Lemma told_row_told r : row_told r (told_row r).
Proof.
  unfold told_row. eexists _, _, _. split; [done|]. pose proof (clash_taken r) as Hc. split_and!; [|by destruct (needsPassword r); auto|apply row_lacks].
  destruct (clash _); [left|right]; (split; [done|]); [by apply Hc|]. intros H. by apply Hc in H.
Qed.
Lemma known_sum l : known_of l = foldr Z.add 0 (omap size l).
Proof.
  unfold known_of. assert (forall n, fold_left (fun n r => n + (size r ?? 0)) l n = n + foldr Z.add 0 (omap size l)) as ->; [|lia].
  induction l as [|r l IH]; intros n; [simpl; lia|]. cbn [fold_left]. rewrite IH.
  change (omap size (r :: l)) with (match size r with Some z => z :: omap size l | None => omap size l end).
  destruct (size r); cbn [from_option default foldr]; simpl; lia.
Qed.
Lemma space_told v : room_told v (option_list (space_of free fits (v, on_drive v))).
Proof.
  unfold space_of. rewrite known_sum. change (foldr Z.add 0 (omap size (on_drive v))) with (known_size v).
  destruct (free !! v) as [f|] eqn:Ef; [|by constructor]. destruct (Z.ltb_spec f (known_size v)); [by constructor|].
  destruct (fits !! v) as [t|] eqn:Et; simpl.
  - destruct (Z.ltb_spec t (known_size v)); [by eapply room_tight|].
    destruct (0 <? unknown_of (on_drive v))%nat eqn:Eu; [eapply room_partial|eapply room_enough]; try done; try (intros t' ?; simplify_eq; done).
    + by apply Nat.ltb_lt.
    + by apply nothing_unknown.
  - destruct (Z.ltb_spec f (known_size v)); [lia|].
    destruct (0 <? unknown_of (on_drive v))%nat eqn:Eu; [eapply room_partial|eapply room_enough]; try done; try (intros t' ?; simplify_eq; done).
    + by apply Nat.ltb_lt.
    + by apply nothing_unknown.
Qed.
Definition about (v : str) (m : BatchMsg) : bool := bool_decide (drive_of m = Some v).
Lemma said_of_drive r : r ∈ live -> let v := volumeOfDest (dest r) in
  List.filter (about v) (space (validateBatch rows queued free fits)) = option_list (space_of free fits (v, on_drive v)).
Proof.
  intros Hr v. unfold validateBatch. cbn [space]. rewrite List.filter_app.
  match goal with |- _ ++ List.filter _ ?l = _ => replace (List.filter (about v) l) with (@nil BatchMsg) by by destruct (existsb _ _) end. rewrite app_nil_r.
  pose proof (groups_NoDup (fun r => Some (volumeOfDest (dest r))) live) as Hnd.
  pose proof (in_group (fun r => volumeOfDest (dest r)) live r Hr) as Hg. fold v in Hg. fold (on_drive v) in Hg.
  set (G := groups _ _) in *. set (said := fun g : str * list BatchCheckRow => if decide (g.1 = v) then option_list (space_of free fits g) else []).
  transitivity (concat (map said G)).
  - clear Hnd Hg. induction G as [|[k g] G IH]; [done|]. cbn [map concat]. rewrite <- IH. unfold said at 1. cbn [fst omap list_omap].
    destruct (space_of free fits (k, g)) as [m|] eqn:Em; [|by destruct (decide (k = v))]. apply space_of_drive in Em. simpl. unfold about at 1. rewrite Em.
    destruct (decide (k = v)) as [->|Hk]; [by rewrite bool_decide_true|by rewrite bool_decide_false by congruence].
  - rewrite (one_group said G v (on_drive v)); [unfold said; by rewrite decide_True|done|done|]. intros k g _ Hk. unfold said. by rewrite decide_False.
Qed.
(** C26: What a batch is told before it is queued, the rows being told apart by their ids. Left out are
    exactly the rows that are in the queue already. The batch is held back exactly when a remaining row
    needs a password, or goes where another goes and the two are not parts of one set; room never holds it
    back. A row is told, in this order, that its place is taken, that it needs its password, and what its
    set lacks; a row left out is told nothing. Of each drive something goes to, one thing at most is said
    about its room: that its free room is unknown, that the known sizes do not fit, that they are unlikely
    to, or that some sizes are unknown, each exactly when it is so and none before it is; nothing is said
    of any other drive, and what to do about it is said exactly when a drive is short. *)
Theorem batch_check : NoDup (map id rows) -> let c := validateBatch rows queued free fits in
  (forall r, r ∈ rows -> id r ∈ skip c <-> is_queued queued r = true) /\
  (blocked c = true <-> exists r, r ∈ live /\ (needsPassword r = true \/ taken r)) /\
  (forall r, r ∈ live -> row_told r (issues c !! id r ?? [])) /\
  (forall r, r ∈ rows -> is_queued queued r = true -> issues c !! id r ?? [] = []) /\
  (forall r, r ∈ live -> room_told (volumeOfDest (dest r)) (List.filter (about (volumeOfDest (dest r))) (space c))) /\
  (forall m, m ∈ space c -> (m = SpaceShortHint /\ exists v n f, SpaceShort v n f ∈ space c) \/
     exists r, r ∈ live /\ drive_of m = Some (volumeOfDest (dest r))) /\
  (forall v n f, SpaceShort v n f ∈ space c -> SpaceShortHint ∈ space c).
Proof.
  intros Hn c. split_and!.
  - intros r Hr. unfold c, validateBatch. cbn [skip]. rewrite list_elem_of_fmap. split.
    + intros (o & E & [Ho Hq]%list_elem_of_In%filter_In). destruct (is_queued queued r) eqn:Er; [done|exfalso].
      apply (queued_not_live o Hn) with r; [by apply list_elem_of_In|done|by apply elem_of_live|done].
    + intros Hq. exists r. split; [done|]. apply list_elem_of_In, filter_In. split; [by apply list_elem_of_In|done].
  - unfold c, validateBatch. cbn [blocked]. rewrite orb_true_iff, !existsb_elem. split.
    + intros [([k g] & [-> Hne]%groups_some & Hc)|(r & Hr & Hp)]; [|by eauto]. destruct (List.filter (fun r => bool_decide (dest r = k)) live) as [|r l] eqn:El; [done|].
      assert (r ∈ List.filter (fun r => bool_decide (dest r = k)) live) as [Hr Hk%bool_decide_eq_true]%list_elem_of_In%filter_In by (rewrite El; by left).
      exists r. split; [by apply list_elem_of_In|]. right. apply clash_taken. unfold same_dest. by rewrite Hk, El.
    + intros (r & Hr & [Hp|Hc%clash_taken]); [right; eauto|left]. exists (dest r, same_dest (dest r)). split; [by apply in_group|done].
  - intros r Hr. pose proof Hr as [Hin Hq]%elem_of_live. unfold c. rewrite issues_of, Hq by done. apply told_row_told.
  - intros r Hr Hq. unfold c. by rewrite issues_of, Hq.
  - intros r Hr. unfold c. rewrite said_of_drive by done. apply space_told.
  - unfold c, validateBatch. cbn [space]. intros m [Hm|Hm]%elem_of_app.
    + right. apply list_elem_of_omap in Hm as ([k g] & [-> Hne]%groups_some & Em). apply space_of_drive in Em.
      destruct (List.filter _ live) as [|r l] eqn:El; [done|].
      assert (r ∈ List.filter (fun r => bool_decide (volumeOfDest (dest r) = k)) live) as [Hr Hk%bool_decide_eq_true]%list_elem_of_In%filter_In by (rewrite El; by left).
      exists r. split; [by apply list_elem_of_In|]. by rewrite Hk.
    + left. destruct (existsb is_short _) eqn:Es; [|by apply elem_of_nil in Hm]. apply list_elem_of_singleton in Hm as ->. split; [done|].
      apply existsb_elem in Es as (m & Hm & Hs). destruct m; try done. eexists _, _, _. apply elem_of_app. left. exact Hm.
  - unfold c, validateBatch. cbn [space]. intros v n f [Hm|Hm]%elem_of_app.
    + apply elem_of_app. right. rewrite (proj2 (existsb_elem _ _)); [by left|]. by eexists.
    + destruct (existsb is_short _); [apply list_elem_of_singleton in Hm; by subst|by apply elem_of_nil in Hm].
Qed.
End checks.

(** * The parts of a set go together *)

Lemma number_inj (ns : list str) n m : NoDup (map number ns) -> n ∈ ns -> m ∈ ns -> number n = number m -> n = m.
Proof.
  intros Hn (i & Hi)%list_elem_of_lookup (j & Hj)%list_elem_of_lookup E. assert (i = j) as ->; [|congruence].
  eapply (NoDup_lookup (map number ns)); [exact Hn| |]; rewrite list_lookup_fmap, ?Hi, ?Hj; simpl; by rewrite ?E.
Qed.

Lemma strip_part_of n p : parseArchivePart n = Some p -> strip_part (strip_archive_ext n) = stem p.
Proof.
  intros Hp. unfold parseArchivePart in Hp. unfold strip_archive_ext. destruct (cut_last "." n) as [[rest e]|]; [|done].
  destruct (bool_decide (lower e ∈ ARCHIVE_EXTS)); [simpl in Hp|done]. unfold strip_part. destruct (cut_last "." rest) as [[st mark]|]; [|done].
  destruct (bool_decide (lower (take 4 mark) = _)); [|done]. destruct (is_digits (drop 4 mark)); [simpl in *|done].
  destruct (one_line st); [|done]. destruct (_ <? FINITE); [|done]. by injection Hp as <-.
Qed.
Lemma after_last_sep_at d c n : is_sep c = true -> existsb is_sep n = false -> after_last_sep (d ++ c :: n) = n.
Proof.
  intros Hc Hn. induction d as [|a d IH]; simpl; [by rewrite Hn, Hc|]. rewrite existsb_app. simpl. by rewrite Hc, orb_true_r.
Qed.
Lemma basename_at d c n : is_sep c = true -> existsb is_sep n = false -> n <> [] -> basename (d ++ c :: n) = n.
Proof.
  intros Hc Hn Hne. unfold basename. destruct n as [|b m] using rev_ind; [done|]. clear IHm.
  change (c :: m ++ [b]) with ((c :: m) ++ [b]). rewrite app_assoc, strip_end_snoc.
  - rewrite <- app_assoc. simpl. by apply after_last_sep_at.
  - rewrite existsb_false in Hn. apply Hn, elem_of_app. right. by left.
Qed.
Lemma fileNameOf_at d c n : is_sep c = true -> existsb is_sep n = false -> fileNameOf (d ++ c :: n) = n.
Proof.
  intros Hc Hn. unfold fileNameOf. rewrite last_sep_at by done. replace (Z.to_nat (Z.of_nat (length d) + 1)) with (S (length d)) by lia. apply drop_past.
Qed.

Section one_set.
Context (volume : option str) (subpath dir : str) (c : ascii) (name : str) (names : list str) (self : ArchivePartInfo).
Context (Hc : is_sep c = true) (Hdir : dir <> []) (Hnames : forall n, n ∈ name :: names -> existsb is_sep n = false).
Context (Hself : parseArchivePart name = Some self) (Hrar : ext self <> js "rar").
Context (Halike : forall n p, n ∈ names -> parseArchivePart n = Some p -> same_set p self = true -> stem p = stem self).
(** Where a part lands. *)
Definition set_folder : str := match stem self with [] => dest_root volume subpath | s => dest_root volume subpath ++ [slash] ++ s end.

Lemma set_files : exists ns, siblingPartPaths (dir ++ c :: name) names = map (fun n => dir ++ c :: n) ns /\ NoDup (map number ns) /\
  forall n, n ∈ ns -> existsb is_sep n = false /\ exists p, parseArchivePart n = Some p /\ same_set p self = true /\ stem p = stem self.
Proof.
  destruct (siblings_of dir c name names Hc) as (ns & Hp & Hin & Hs & _); [by apply Hnames; left|done|]. exists ns. split; [done|]. split.
  - clear -Hs. induction Hs as [|n l Hs IH Hn]; simpl; constructor; [|done]. intros (m & Hm & Hin)%list_elem_of_fmap.
    rewrite Forall_forall in Hn. specialize (Hn m Hin). simpl in Hn. lia.
  - intros n Hn. destruct (Hin n Hn) as [Hnn (p & q & Hp' & Hq & Hpq)]. simplify_eq. split; [apply Hnames; by right|eauto 6].
Qed.
(** C27: The parts of a zip or 7z set (not a RAR one, which is one archive) that are offered
    with the one picked, their names alike also in case, are one upload: unpacked into a folder of their
    name they all land in the same folder, named by the set, and a batch of any of them, in any order and
    none needing a password, is not held back for going to one place. *)
Theorem set_is_one_upload rows queued free fits :
  (forall r, r ∈ rows -> sourcePath r ∈ siblingPartPaths (dir ++ c :: name) names /\
     dest r = (resolveUploadDest volume subpath (sourcePath r) true true).2 /\ needsPassword r = false) ->
  NoDup (map sourcePath rows) ->
  (forall r, r ∈ rows -> dest r = set_folder) /\ blocked (validateBatch rows queued free fits) = false.
Proof.
  intros Hr Hnd. destruct set_files as (ns & Hp & Hnum & Hns).
  assert (forall r, r ∈ rows -> exists n, n ∈ ns /\ sourcePath r = dir ++ c :: n /\ fileNameOf (sourcePath r) = n /\ dest r = set_folder) as Hrow.
  { intros r Hin. destruct (Hr r Hin) as (Hs & Hd & _). rewrite Hp in Hs. apply list_elem_of_fmap in Hs as (n & Hs & Hn). exists n.
    destruct (Hns n Hn) as (Hnosep & p & Hpn & _ & Hst). split; [done|]. split; [done|]. rewrite Hs. split; [by apply fileNameOf_at|].
    rewrite Hd, Hs. unfold resolveUploadDest. cbn [andb negb snd]. assert (n <> []) by (intros ->; discriminate Hpn). rewrite basename_at by done. rewrite (strip_part_of n p Hpn), Hst. unfold set_folder. by destruct (stem self). }
  split; [intros r Hin; by destruct (Hrow r Hin) as (? & _ & _ & _ & ?)|].
  unfold validateBatch. cbn [blocked]. apply orb_false_iff. split.
  2: { apply existsb_false. intros r [Hin _]%elem_of_live. by destruct (Hr r Hin) as (_ & _ & ?). }
  apply existsb_false. intros [d g] [-> Hne]%groups_some. unfold clash. cbn [snd]. apply andb_false_iff. right. apply negb_false_iff, isManualPartSet_spec.
  set (l := List.filter _ _) in *. assert (l `sublist_of` rows) as Hsub by (etrans; apply filter_sublist).
  assert (forall r, r ∈ l -> r ∈ rows) as Hl by (intros r Hin; eapply elem_of_submseteq; [exact Hin|by apply sublist_submseteq]). split_and!.
  - by destruct l.
  - assert (NoDup (map sourcePath l)) as Hndl by (eapply sublist_NoDup; [exact Hnd|by apply fmap_sublist]).
    clear -Hndl Hl Hrow Hnum. induction l as [|r l IH]; simpl; [constructor|]. apply NoDup_cons in Hndl as [Hn Hndl]. constructor.
    + intros (m & Hm & (o & -> & Ho)%list_elem_of_fmap)%list_elem_of_fmap. destruct (Hrow r) as (n & Hnn & Hs & Hf & _); [apply Hl; by left|].
      destruct (Hrow o) as (n' & Hnn' & Hs' & Hf' & _); [apply Hl; by right|]. rewrite Hf, Hf' in Hm. apply Hn, list_elem_of_fmap. exists o. split; [|done].
      rewrite Hs, Hs'. f_equal. f_equal. by eapply number_inj.
    + apply IH; [|done]. intros o Ho. apply Hl. by right.
  - exists self. split; [done|]. intros n (r & -> & Hin)%list_elem_of_fmap. destruct (Hrow r) as (n & Hn & _ & -> & _); [by apply Hl|].
    destruct (Hns n Hn) as (_ & p & ? & ? & _). eauto.
Qed.
End one_set.

(** * Examples *)

Definition a_row (i p d : string) (z : option Z) : BatchCheckRow := {| id := js i; sourcePath := js p; dest := js d; size := z; needsPassword := false; c_setIssue := None |}.
Definition a_batch : list BatchCheckRow := [
  a_row "1" "/d/G.part1.zip" "/data/games/G" (Some 30); a_row "2" "/d/G.part2.zip" "/data/games/G" (Some 40);
  a_row "3" "/d/H.zip" "/mnt/ext0/H" (Some 50); a_row "4" "/e/H.zip" "/mnt/ext0/H" None; a_row "5" "/d/I" "/data/games/I" (Some 10)].
Definition a_check : BatchCheck := validateBatch a_batch [(js "/d/I", js "/data/games/I")] {[js "/data" := 60; js "/mnt/ext0" := 100]} ∅.
Lemma batch_check_witness : blocked a_check = true /\ skip a_check = [js "5"] /\
  space a_check = [SpaceShort (js "/data") 70 60; SpacePartial (js "/mnt/ext0") 1 50; SpaceShortHint] /\
  (forall r, r ∈ live_rows a_batch [(js "/d/I", js "/data/games/I")] ->
     row_told a_batch [(js "/d/I", js "/data/games/I")] r (issues a_check !! id r ?? [])).
Proof.
  split; [by vm_compute|]. split; [by vm_compute|]. split; [by vm_compute|].
  apply (batch_check a_batch [(js "/d/I", js "/data/games/I")] {[js "/data" := 60; js "/mnt/ext0" := 100]} ∅).
  apply (bool_decide_eq_true_1 _). by vm_compute.
Defined.
Definition a_set : list str := map js ["Game.part01.zip"; "Game.part02.zip"; "Game.rar"].
Definition set_row (p : string) : BatchCheckRow := a_row p p "/data/games/Game" None.
Lemma set_is_one_upload_witness :
  blocked (validateBatch (map set_row ["/d/Game.part02.zip"; "/d/Game.part01.zip"]) [] ∅ ∅) = false /\
  set_folder None (js "games/") {| stem := js "Game"; index := 1; ext := js "zip" |} = js "/data/games/Game".
Proof.
  split; [|by vm_compute].
  apply (set_is_one_upload None (js "games/") (js "/d") "/"%char (js "Game.part01.zip") a_set {| stem := js "Game"; index := 1; ext := js "zip" |}).
  - done.
  - done.
  - apply (existsb_false (existsb is_sep)). by vm_compute.
  - by vm_compute.
  - by vm_compute.
  - intros n p Hn. unfold a_set in Hn. cbn [map] in Hn. rewrite !elem_of_cons, elem_of_nil in Hn. destruct Hn as [->|[->|[->|[]]]]; intros Hp _; vm_compute in Hp; by simplify_eq.
  - intros r Hr. cbn [map] in Hr. rewrite !elem_of_cons, elem_of_nil in Hr. destruct Hr as [->|[->|[]]]; split_and!; try by vm_compute.
    all: apply (bool_decide_eq_true_1 _); by vm_compute.
  - apply (bool_decide_eq_true_1 _). by vm_compute.
Defined.
Example kinds_of_entries : map (fun n => classifyScanEntry (js n) false) ["G.pkg"; "G.part1.rar"; "G.part2.rar"; "G.FFPFSC"; ".x.zip"] =
  [ScPackage; ScArchive; ScOther; ScImage; ScOther].
Proof. by vm_compute. Qed.
Example marks : map (fun n => marksGameOrPackage (js n)) ["./PPSA01234/eboot.bin"; "a/b/eboot.bin"; "Game\sce_sys\icon0.png"; "saves/x.pkg"; "readme.txt"] =
  [true; false; true; true; false].
Proof. by vm_compute. Qed.
