(* ===== verification/UploadReview.v ===== *)
(** The review list of an upload with several sources (client/src/state/uploadBatch.ts). Each row is
    inspected in the background, four at a time; a late answer for a row that was removed or inspected
    again is dropped.

    An event is an action of the screen, an inspection that lands (its [then] or [catch] and the [finally]
    after it), or the listing of a folder that lands. What an inspection answers is an argument. A row's id
    [b<n>] is its number; [log] is what the inspections did: each that began, and each answer that came. *)
From S2P Require Import Prelude RemotePath FsUploadPlan ArchiveParts UploadBatch.

(** * The list *)

Inductive BatchStatus := Inspecting | Ready | NeedsPass | Failed.
#[export] Instance batch_status_eq_dec : EqDecision BatchStatus.
Proof. solve_decision. Defined.
Inductive SourceKind := KArchive | KFile | KOther.
#[export] Instance source_kind_eq_dec : EqDecision SourceKind.
Proof. solve_decision. Defined.
(** A picked source; [what] stands for the rest of it. *)
Record PickedSource := { kind : SourceKind; zipInfo : option ZipInfo; what : nat }.
Record BatchRow := {
  id : Z; path : str; isDir : bool; size : option Z; include : bool; status : BatchStatus; source : option PickedSource;
  error : option str; password : option str; archiveChoice : option ArchiveChoice; setIssue : option ArchiveSetIssue }.
#[export] Instance settable_row : Settable BatchRow := fun r => {|
  id := id r; path := path r; isDir := isDir r; size := size r; include := include r; status := status r; source := source r;
  error := error r; password := password r; archiveChoice := archiveChoice r; setIssue := setIssue r |}.
Record BatchEntry := { e_path : str; e_isDir : bool; e_size : option Z; e_include : option bool }.
(** An inspection under way, and a folder being listed for a row. *)
Record Inspection := { i_id : Z; i_gen : Z; i_path : str; i_isDir : bool; i_password : option str }.
Inductive Note := Began (i : Inspection) | Answered (i : Inspection) (answer : PickedSource + str).
Record Listing := { l_id : Z; l_gen : Z; l_path : str }.
Record St := {
  rows : list BatchRow; seq : Z; generation : gmap Z Z; waiting : list Z; active : list Inspection; listing : list Listing;
  log : list Note }.
#[export] Instance settable_st : Settable St := fun s => {|
  rows := rows s; seq := seq s; generation := generation s; waiting := waiting s; active := active s; listing := listing s; log := log s |}.
Definition init : St := {| rows := []; seq := 0; generation := ∅; waiting := []; active := []; listing := []; log := [] |}.

Definition LIMIT : nat := 4.
Definition patch (i : Z) (p : BatchRow -> BatchRow) (s : St) : St := s <| rows := map (fun r => if decide (id r = i) then p r else r) (rows s) |>.
Definition gen_of (i : Z) (s : St) : Z := generation s !! i ?? 0.
Definition bump (i : Z) (s : St) : St := s <| generation := <[i := gen_of i s + 1]> (generation s) |>.
Definition row_of (i : Z) (s : St) : option BatchRow := find_first (fun r => bool_decide (id r = i)) (rows s).
Definition begin (r : BatchRow) (s : St) : St :=
  let s := bump (id r) s in
  let i := {| i_id := id r; i_gen := gen_of (id r) s; i_path := path r; i_isDir := isDir r; i_password := password r |} in
  s <| active := active s ++ [i] |> <| log := log s ++ [Began i] |>.
Fixpoint pump_from (w : list Z) (s : St) : St :=
  match w with
  | [] => s <| waiting := [] |>
  | i :: rest =>
      if (length (active s) <? LIMIT)%nat
      then pump_from rest (match row_of i s with Some r => begin r s | None => s end)
      else s <| waiting := w |>
  end.
Definition pump (s : St) : St := pump_from (waiting s) s.
Definition inspect (i : Z) (s : St) : St := pump (s <| waiting := waiting s ++ [i] |>).

(** * Actions *)

Definition fresh_row (n : Z) (e : BatchEntry) : BatchRow := {|
  id := n; path := e_path e; isDir := e_isDir e; size := e_size e; include := e_include e ?? true; status := Inspecting; source := None;
  error := None; password := None; archiveChoice := None; setIssue := None |}.
Fixpoint fresh_rows (have : gset str) (n : Z) (l : list BatchEntry) : list BatchRow :=
  match l with
  | [] => []
  | e :: l => if decide (e_path e ∈ have) then fresh_rows have n l else fresh_row (n + 1) e :: fresh_rows ({[e_path e]} ∪ have) (n + 1) l
  end.
Definition add (entries : list BatchEntry) (s : St) : St :=
  let fresh := fresh_rows (list_to_set (map path (rows s))) (seq s) (collapseRarVolumes e_path entries) in
  let s := s <| rows := rows s ++ fresh |> <| seq := seq s + Z.of_nat (length fresh) |> in
  fold_left (fun s r => inspect (id r) s) fresh s.
Definition remove (i : Z) (s : St) : St :=
  let s := bump i s in s <| rows := List.filter (fun r => negb (bool_decide (id r = i))) (rows s) |>.
Definition setInclude (i : Z) (b : bool) : St -> St := patch i (fun r => r <| include := b |>).
Definition setArchiveChoice (i : Z) (c : ArchiveChoice) : St -> St := patch i (fun r => r <| archiveChoice := Some c |>).
Definition setPassword (i : Z) (p : str) (s : St) : St :=
  inspect i (patch i (fun r => r <| password := Some p |> <| status := Inspecting |> <| error := None |>) s).
Definition clear (s : St) : St :=
  let s := fold_left (fun s r => bump (id r) s) (rows s) s in s <| waiting := [] |> <| rows := [] |>.

(** * Answers *)

Definition password_asked (msg : str) : bool := includes (js "rar_password_required") msg || includes (js "rar_password_wrong") msg.
Definition ready (src : PickedSource) (r : BatchRow) : BatchRow :=
  r <| status := Ready |> <| source := Some src |> <| error := None |>
    <| archiveChoice := if decide (kind src = KArchive)
         then match archiveChoice r with Some c => Some c | None => archiveDefault (zipInfo src) end else None |>.
Definition refused (msg : str) (r : BatchRow) : BatchRow :=
  if password_asked msg
  then r <| status := NeedsPass |> <| error := if includes (js "wrong") msg then Some (js "The password is wrong.") else None |>
  else r <| status := Failed |> <| error := Some msg |> <| include := false |>.
Definition current (i g : Z) (s : St) : bool := bool_decide (generation s !! i = Some g).
Definition landed (i : Inspection) (answer : PickedSource + str) (s : St) : St :=
  if negb (current (i_id i) (i_gen i) s) then s else
  match answer with
  | inl src =>
      let s := patch (i_id i) (ready src) s in
      if decide (kind src = KOther) then s else s <| listing := listing s ++ [{| l_id := i_id i; l_gen := i_gen i; l_path := i_path i |}] |>
  | inr msg => patch (i_id i) (refused msg) s
  end.
(** The [k]-th inspection under way lands. *)
Definition land (k : nat) (answer : PickedSource + str) (s : St) : St :=
  match active s !! k with
  | None => s
  | Some i => pump ((landed i answer (s <| log := log s ++ [Answered i answer] |>)) <| active := take k (active s) ++ drop (S k) (active s) |>)
  end.
(** What a folder's files say about a row's set; [None] when it cannot be listed. *)
Definition archiveSetIssue (p : str) (siblings : option (list str)) : option ArchiveSetIssue :=
  let sep := last_sep p in
  if (sep <=? 0) || isRemotePath p then None else
  let name := drop (S (Z.to_nat sep)) p in
  let part := bool_decide (is_Some (parseArchivePart name)) in
  let zip := bool_decide (js ".zip" `suffix_of` lower name) in
  if negb part && negb (bool_decide (is_Some (parseSplitVolume name))) && negb zip then None else
  match siblings with
  | None => None
  | Some names => if zip && negb part && negb (isSpannedZip name names) then None else diagnoseArchiveSet name names
  end.
Definition listed (k : nat) (siblings : option (list str)) (s : St) : St :=
  match listing s !! k with
  | None => s
  | Some l =>
      let s := s <| listing := take k (listing s) ++ drop (S k) (listing s) |> in
      match archiveSetIssue (l_path l) siblings with
      | Some issue => if current (l_id l) (l_gen l) s then patch (l_id l) (fun r => r <| setIssue := Some issue |>) s else s
      | None => s
      end
  end.

Inductive Event :=
| EAdd (entries : list BatchEntry) | ERemove (i : Z) | EInclude (i : Z) (b : bool) | EChoice (i : Z) (c : ArchiveChoice)
| EPassword (i : Z) (p : str) | EClear | ELand (k : nat) (answer : PickedSource + str) | EListed (k : nat) (siblings : option (list str)).
Definition step (s : St) (e : Event) : St :=
  match e with
  | EAdd l => add l s | ERemove i => remove i s | EInclude i b => setInclude i b s | EChoice i c => setArchiveChoice i c s
  | EPassword i p => setPassword i p s | EClear => clear s | ELand k a => land k a s | EListed k l => listed k l s
  end.
Definition run (evs : list Event) : St := fold_left step evs init.

(** * The invariant *)

(** What an answer makes of a row. *)
Definition shows (answer : PickedSource + str) (r : BatchRow) : Prop :=
  match answer with
  | inl src => status r = Ready /\ source r = Some src
  | inr msg => if password_asked msg then status r = NeedsPass else status r = Failed /\ error r = Some msg
  end.
(** The generations of the inspections of a row, as they began, and those that were answered. *)
Definition began_of (i : Z) (n : Note) : option Z := match n with Began x => if decide (i_id x = i) then Some (i_gen x) else None | _ => None end.
Definition began (i : Z) (l : list Note) : list Z := omap (began_of i) l.
Definition tag (i : Inspection) : Z * Z := (i_id i, i_gen i).
Definition answered_tag (n : Note) : option (Z * Z) := match n with Answered i _ => Some (tag i) | _ => None end.
(** The row's newest inspection has been answered by [i], or is under way. *)
Definition newest (s : St) (r : BatchRow) (i : Inspection) : Prop :=
  generation s !! id r = Some (i_gen i) \/ exists a, a ∈ active s /\ i_id a = id r /\ generation s !! id r = Some (i_gen a).
(** A row says what was answered for it, by an inspection that no other answered one is newer than, while
    none is under way. *)
Definition told (s : St) (r : BatchRow) : Prop :=
  status r <> Inspecting -> exists i answer, Answered i answer ∈ log s /\ i_id i = id r /\ shows answer r /\ newest s r i.
Definition about (s : St) (i : Inspection) : Prop :=
  i_id i <= seq s /\ forall r, r ∈ rows s -> id r = i_id i -> path r = i_path i /\ isDir r = i_isDir i.
Record inv (s : St) : Prop := {
  v_ids : NoDup (map id (rows s));
  v_range : forall r, r ∈ rows s -> id r <= seq s;
  v_paths : NoDup (map path (rows s));
  v_limit : (length (active s) <= LIMIT)%nat;
  v_active : forall a, a ∈ active s -> about s a;
  v_log : forall i ans, Answered i ans ∈ log s -> about s i /\ i_gen i <= gen_of (i_id i) s /\ (forall a, a ∈ active s -> tag a <> tag i);
  v_gens : forall a, a ∈ active s -> i_gen a <= gen_of (i_id a) s;
  v_once : NoDup (map tag (active s)) /\ NoDup (omap answered_tag (log s));
  v_sorted : forall i, StronglySorted Z.lt (began i (log s)) /\ forall g, g ∈ began i (log s) -> g <= gen_of i s;
  v_began : forall a, (a ∈ active s \/ exists ans, Answered a ans ∈ log s) -> Began a ∈ log s }.
(** Somebody looks at the row, or will. *)
Definition looked_at (w : list Z) (s : St) (r : BatchRow) : Prop :=
  id r ∈ w \/ exists a, a ∈ active s /\ i_id a = id r /\ generation s !! id r = Some (i_gen a).
Definition looked_for (X w : list Z) (s : St) : Prop := forall r, r ∈ rows s -> status r = Inspecting -> id r ∈ X \/ looked_at w s r.
(** The invariant between events; rows of [X] have just been added. *)
Record full (X : list Z) (s : St) : Prop := {
  f_inv : inv s;
  f_told : forall r, r ∈ rows s -> told s r;
  f_busy : waiting s <> [] -> (LIMIT <= length (active s))%nat;
  f_look : looked_for X (waiting s) s }.

Lemma same_row s r r' : inv s -> r ∈ rows s -> r' ∈ rows s -> id r = id r' -> r = r'.
Proof.
  intros Hv (i & Hi)%list_elem_of_lookup (j & Hj)%list_elem_of_lookup E. assert (i = j) as ->; [|congruence].
  eapply (NoDup_lookup (map id (rows s))); [apply Hv| |]; rewrite list_lookup_fmap, ?Hi, ?Hj; simpl; by rewrite ?E.
Qed.
Lemma row_of_Some i s r : row_of i s = Some r -> r ∈ rows s /\ id r = i.
Proof. intros [H1 H2%bool_decide_eq_true]%find_first_Some. done. Qed.
Lemma row_of_None i s : row_of i s = None -> forall r, r ∈ rows s -> id r <> i.
Proof. intros H r Hr E. unfold row_of in H. rewrite find_first_None in H. specialize (H r Hr). by rewrite bool_decide_true in H. Qed.
Lemma began_app i l n : began i (l ++ [n]) = began i l ++ option_list (began_of i n).
Proof. unfold began. rewrite omap_app. simpl. by destruct (began_of i n). Qed.
Lemma gen_bump i s j : gen_of j (bump i s) = if decide (j = i) then gen_of i s + 1 else gen_of j s.
Proof. unfold gen_of at 1, bump. simpl. destruct (decide (j = i)) as [->|]; [by rewrite lookup_insert_eq|by rewrite lookup_insert_ne]. Qed.
Lemma gen_only_grows i s j : gen_of j s <= gen_of j (bump i s).
Proof. rewrite gen_bump. case_decide; subst; lia. Qed.
Lemma begin_inv r s : inv s -> r ∈ rows s -> (length (active s) < LIMIT)%nat -> inv (begin r s).
Proof.
  intros Hv Hr Hl. unfold begin. set (i := {| i_id := id r; i_gen := _ |}). assert (i_gen i = gen_of (id r) s + 1) as Hg by (unfold i; simpl; by rewrite gen_bump, decide_True).
  assert (forall j, gen_of j (bump (id r) s <| active := active s ++ [i] |> <| log := log s ++ [Began i] |>) = gen_of j (bump (id r) s)) as Hgen by done.
  split; simpl; try apply Hv.
  - rewrite length_app. simpl. lia.
  - intros a [Ha|Ha%list_elem_of_singleton]%elem_of_app; [by apply (v_active s Hv)|]. subst a. split; [by apply Hv|]. intros r' Hr' E. by rewrite (same_row s r' r).
  - intros j ans [Hin|Hin%list_elem_of_singleton]%elem_of_app; [|done]. destruct (v_log s Hv j ans Hin) as (H1 & H2 & H3). split_and!; [done| |].
    + pose proof (gen_only_grows (id r) s (i_id j)). change (i_gen j <= gen_of (i_id j) (bump (id r) s)). lia.
    + intros a [Ha| ->%list_elem_of_singleton]%elem_of_app; [by apply H3|]. unfold tag. intros [= Hj Hgj]. rewrite <- Hj in H2. unfold i in Hg. simpl in Hg. lia.
  - intros a. change (a ∈ active s ++ [i] -> i_gen a <= gen_of (i_id a) (bump (id r) s)). intros [Ha| ->%list_elem_of_singleton]%elem_of_app.
    + pose proof (gen_only_grows (id r) s (i_id a)). pose proof (v_gens s Hv a Ha). lia.
    + rewrite Hg. simpl. rewrite gen_bump, decide_True by done. lia.
  - destruct (v_once s Hv) as [H1 H2]. rewrite map_app, omap_app. simpl. rewrite app_nil_r. split; [|done]. apply NoDup_app. split_and!; [done| |by apply NoDup_singleton].
    intros t (a & -> & Ha)%list_elem_of_fmap E%list_elem_of_singleton. injection E as E1 E2. pose proof (v_gens s Hv a Ha) as H. rewrite E1 in H. unfold i in Hg. simpl in Hg. lia.
  - intros j. destruct (v_sorted s Hv j) as [H1 H2]. rewrite began_app. simpl. destruct (decide (id r = j)) as [<-|Hj]; simpl.
    + split.
      * apply StronglySorted_app_2; [|done|by repeat constructor]. intros x y Hx Hy%list_elem_of_singleton. specialize (H2 x Hx). unfold i in Hg. simpl in Hg. lia.
      * intros g. change (g ∈ began (id r) (log s) ++ [i_gen i] -> g <= gen_of (id r) (bump (id r) s)). rewrite gen_bump, decide_True by done.
        intros [Hin| ->%list_elem_of_singleton]%elem_of_app; [specialize (H2 g Hin); lia|lia].
    + rewrite app_nil_r. split; [done|]. intros g Hin. specialize (H2 g Hin). pose proof (gen_only_grows (id r) s j). change (g <= gen_of j (bump (id r) s)). lia.
  - intros a H. apply elem_of_app. assert (a = i \/ a ∈ active s \/ exists ans, Answered a ans ∈ log s) as [->|Ha]; [|right; by left|left; by apply (v_began s Hv)].
    destruct H as [[Ha| ->%list_elem_of_singleton]%elem_of_app|[ans [Ha|Ha%list_elem_of_singleton]%elem_of_app]]; [right; by left|by left|right; right; by exists ans|done].
Qed.
Lemma begin_told r s : inv s -> r ∈ rows s -> (forall x, x ∈ rows s -> told s x) -> forall x, x ∈ rows s -> told (begin r s) x.
Proof.
  intros Hv Hr Ht x Hx Hs. destruct (Ht x Hx Hs) as (i & ans & H1 & H2 & H3 & H4). exists i, ans. unfold begin. simpl. split_and!; [apply elem_of_app; by left|done..|].
  destruct (decide (id x = id r)) as [E|E].
  - right. eexists. split; [apply elem_of_app; right; by left|]. simpl. split; [done|]. unfold gen_of. simpl. by rewrite E, !lookup_insert_eq.
  - unfold newest. simpl. rewrite lookup_insert_ne by done. destruct H4 as [H4|(a & Ha & H4)]; [by left|right]. exists a. split; [apply elem_of_app; by left|done].
Qed.
Lemma pump_from_ok X w s : inv s -> (forall r, r ∈ rows s -> told s r) -> looked_for X w s ->
  let s' := pump_from w s in inv s' /\ (forall r, r ∈ rows s' -> told s' r) /\ (waiting s' <> [] -> (LIMIT <= length (active s'))%nat) /\ looked_for X (waiting s') s' /\
  rows s' = rows s /\ (length (active s') + length (waiting s') <= length (active s) + length w)%nat.
Proof.
  revert s. induction w as [|i w IH]; intros s Hv Ht Hw; simpl.
  - split_and!; [by split; apply Hv|done..|simpl; lia].
  - destruct (Nat.ltb_spec (length (active s)) LIMIT) as [Hl|Hl].
    + destruct (row_of i s) as [r|] eqn:Er.
      * apply row_of_Some in Er as [Hr <-]. destruct (IH (begin r s)) as (I1 & I2 & I3 & I4 & I5 & I6); [by apply begin_inv|by apply (begin_told r s)| |].
        { intros r' Hr' Hs. destruct (decide (id r' = id r)) as [E|E].
          - right. right. unfold begin. simpl. eexists. split; [apply elem_of_app; right; by left|]. simpl. split; [done|]. unfold gen_of. simpl. by rewrite E, !lookup_insert_eq.
          - destruct (Hw r' Hr' Hs) as [HX|[Hin|(a & Ha & Hai & Hg)]]; [by left|right|right]; [left; by apply elem_of_cons in Hin as [?|?]|].
            right. exists a. unfold begin, bump. simpl. split; [apply elem_of_app; by left|]. split; [done|]. by rewrite lookup_insert_ne. }
        split_and!; [done..|]. assert (length (active (begin r s)) = S (length (active s))) by (unfold begin, bump; simpl; rewrite length_app; simpl; lia). lia.
      * destruct (IH s Hv Ht) as (I1 & I2 & I3 & I4 & I5 & I6); [|split_and!; [done..|lia]].
        intros r' Hr' Hs. destruct (Hw r' Hr' Hs) as [HX|[[E|Hin]%elem_of_cons|Ha]]; [by left| |right; by left|right; by right].
        exfalso. by eapply (row_of_None i s).
    + split_and!; [by split; apply Hv|done..|simpl; lia].
Qed.

(** ** Events *)

(** Other rows, the inspections as they were. *)
Lemma inv_rows s s' : inv s -> active s' = active s -> log s' = log s -> (forall i, gen_of i s <= gen_of i s') -> (forall a, about s a -> about s' a) ->
  NoDup (map id (rows s')) -> (forall r, r ∈ rows s' -> id r <= seq s') -> NoDup (map path (rows s')) -> inv s'.
Proof.
  intros Hv Ha Hl Hg Hb H1 H2 H3. split; [done..| | | | | | |]; rewrite ?Ha, ?Hl; try apply Hv.
  - intros a Hin. by apply Hb, Hv.
  - intros i ans Hin. destruct (v_log s Hv i ans Hin) as (L1 & L2 & L3). specialize (Hg (i_id i)). split_and!; [by apply Hb|lia|done].
  - intros a Hin. pose proof (v_gens s Hv a Hin). specialize (Hg (i_id a)). lia.
  - intros i. destruct (v_sorted s Hv i) as [S1 S2]. split; [done|]. intros g Hin. specialize (S2 g Hin). specialize (Hg i). lia.
Qed.
(** A row that is as it was, or shows the same, and whose inspections are as they were. *)
Lemma told_same s s' r r' : told s r -> active s' = active s -> log s' = log s -> generation s' !! id r = generation s !! id r ->
  id r' = id r -> (status r' <> Inspecting -> status r' = status r /\ source r' = source r /\ error r' = error r) -> told s' r'.
Proof.
  intros Ht Ha Hl Hg Hi Hs Hn. destruct (Hs Hn) as (H1 & H2 & H3). rewrite H1 in Hn. destruct (Ht Hn) as (i & ans & T1 & T2 & T3 & T4). exists i, ans.
  unfold newest. rewrite Ha, Hl, Hi, Hg. split_and!; [done|done| |exact T4]. unfold shows in *. by rewrite H1, H2, H3.
Qed.
Definition keeps_told (p : BatchRow -> BatchRow) : Prop := forall r, id (p r) = id r /\ path (p r) = path r /\ isDir (p r) = isDir r.
Lemma patch_map i p s : rows (patch i p s) = map (fun r => if decide (id r = i) then p r else r) (rows s).
Proof. done. Qed.
Lemma elem_patch i p s r : r ∈ rows (patch i p s) <-> exists o, o ∈ rows s /\ r = if decide (id o = i) then p o else o.
Proof. rewrite patch_map, list_elem_of_fmap. naive_solver. Qed.
Lemma about_patch i p s a : keeps_told p -> about s a -> about (patch i p s) a.
Proof.
  intros Hp [H1 H2]. split; [done|]. intros r (o & Ho & ->)%elem_patch. destruct (decide (id o = i)); [|by apply H2].
  destruct (Hp o) as (-> & -> & ->). by apply H2.
Qed.
Lemma patch_inv i p s : keeps_told p -> inv s -> inv (patch i p s).
Proof.
  intros Hp Hv. assert (forall f : BatchRow -> Z, (forall r, f (p r) = f r) -> map f (rows (patch i p s)) = map f (rows s)) as Hm.
  { intros f Hf. rewrite patch_map, map_map. apply map_ext. intros r. destruct (decide (id r = i)); [apply Hf|done]. }
  apply (inv_rows s); try done.
  - intros a. by apply about_patch.
  - rewrite Hm by (intros; apply Hp). apply Hv.
  - intros r (o & Ho & ->)%elem_patch. change (seq (patch i p s)) with (seq s). destruct (decide (id o = i)); [destruct (Hp o) as (-> & _)|]; by apply Hv.
  - assert (map path (rows (patch i p s)) = map path (rows s)) as ->; [|apply Hv]. rewrite patch_map, map_map. apply map_ext. intros r. destruct (decide (id r = i)); [apply Hp|done].
Qed.
Lemma looked_for_patch X w i p s : keeps_told p -> looked_for X w s -> (forall r, r ∈ rows s -> id r = i -> status (p r) = Inspecting -> status r = Inspecting \/ i ∈ X) ->
  looked_for X w (patch i p s).
Proof.
  intros Hp Hw Hx r (o & Ho & ->)%elem_patch. destruct (decide (id o = i)) as [E|E]; [|by apply Hw]. destruct (Hp o) as (Hi & _). intros Hs.
  unfold looked_at. rewrite Hi. destruct (Hx o Ho E Hs) as [Hso|Hin]; [by apply Hw|left; by rewrite E].
Qed.
Definition keeps_shown (p : BatchRow -> BatchRow) : Prop := forall r, status (p r) <> Inspecting -> status (p r) = status r /\ source (p r) = source r /\ error (p r) = error r.
Lemma told_patch i p s : keeps_told p -> keeps_shown p -> (forall r, r ∈ rows s -> told s r) -> forall r, r ∈ rows (patch i p s) -> told (patch i p s) r.
Proof.
  intros Hp Hs Ht r (o & Ho & ->)%elem_patch. apply (told_same s _ o); [by apply Ht|done|done|done| |]; destruct (decide (id o = i)); try done; [apply Hp|apply Hs].
Qed.
Lemma full_patch i p s : keeps_told p -> (forall r, status (p r) = status r /\ source (p r) = source r /\ error (p r) = error r) -> full [] s -> full [] (patch i p s).
Proof.
  intros Hp Hs Hf. split.
  - apply patch_inv; [done|apply Hf].
  - apply told_patch; [done| |apply Hf]. intros r _. apply Hs.
  - apply Hf.
  - apply looked_for_patch; [done|apply Hf|]. intros r _ _. destruct (Hs r) as (-> & _). by left.
Qed.
Lemma pump_full X w s : inv s -> (forall r, r ∈ rows s -> told s r) -> looked_for X w s -> full X (pump_from w s) /\ rows (pump_from w s) = rows s.
Proof.
  intros Hv Ht Hw. destruct (pump_from_ok X w s Hv Ht Hw) as (? & ? & ? & ? & Hr & _). split; [|done]. by split.
Qed.
Lemma inspect_full i X s : inv s -> (forall r, r ∈ rows s -> told s r) -> looked_for (i :: X) (waiting s) s ->
  full X (inspect i s) /\ rows (inspect i s) = rows s.
Proof.
  intros Hv Ht Hw. set (s0 := s <| waiting := waiting s ++ [i] |>).
  change (full X (pump_from (waiting s ++ [i]) s0) /\ rows (pump_from (waiting s ++ [i]) s0) = rows s0). apply pump_full; [by split; apply Hv|done|].
  intros r Hr Hs. destruct (Hw r Hr Hs) as [[E|HX]%elem_of_cons|[Hin|Ha]]; [right; left|by left|right; left|right; by right].
  - rewrite E. apply elem_of_app. right. by left.
  - apply elem_of_app. by left.
Qed.
Lemma inspect_all l X s : full (map id l ++ X) s -> full X (fold_left (fun s r => inspect (id r) s) l s).
Proof.
  revert s. induction l as [|r l IH]; intros s Hf; simpl; [done|]. apply IH. apply (inspect_full (id r) (map id l ++ X)); apply Hf.
Qed.
Lemma full_password i p s : full [] s -> full [] (setPassword i p s).
Proof.
  intros Hf. apply inspect_full.
  - apply patch_inv; [done|apply Hf].
  - apply told_patch; [done|done|apply Hf].
  - apply looked_for_patch; [done| |].
    + intros r Hr Hs. destruct (f_look _ _ Hf r Hr Hs) as [[]%elem_of_nil|H]. by right.
    + intros r _ _ _. right. by left.
Qed.
Lemma fresh_rows_spec have n l : let fresh := fresh_rows have n l in
  map id fresh = map (fun k => n + 1 + Z.of_nat k) (List.seq 0 (length fresh)) /\ NoDup (map path fresh) /\
  (forall r, r ∈ fresh -> (path r ∉ have) /\ status r = Inspecting).
Proof.
  revert have n. induction l as [|e l IH]; intros have n; simpl; [split_and!; [done|constructor|by intros ? ?%elem_of_nil]|].
  case_decide as Hd; [apply IH|]. destruct (IH ({[e_path e]} ∪ have) (n + 1)) as (I1 & I2 & I3). simpl. split_and!.
  - f_equal; [lia|]. rewrite I1, <- seq_shift, map_map. apply map_ext. intros k. lia.
  - constructor; [|done]. intros (r & Hr & Hin)%list_elem_of_fmap. destruct (I3 r Hin) as [Hn _]. apply Hn. rewrite <- Hr. apply elem_of_union. left. by apply elem_of_singleton.
  - intros r [->|Hr]%elem_of_cons; [done|]. destruct (I3 r Hr) as [Hn ?]. split; [|done]. intros Hh. apply Hn, elem_of_union. by right.
Qed.
Lemma fresh_ids have n l : let fresh := fresh_rows have n l in
  NoDup (map id fresh) /\ forall r, r ∈ fresh -> n < id r <= n + Z.of_nat (length fresh).
Proof.
  cbv zeta. destruct (fresh_rows_spec have n l) as (H & _). split.
  - rewrite H. apply (NoDup_fmap_2_strong (fun k : nat => n + 1 + Z.of_nat k)); [intros a b _ _ E; lia|]. apply NoDup_ListNoDup, seq_NoDup.
  - intros r Hr. assert (id r ∈ map id (fresh_rows have n l)) as Hin by (apply list_elem_of_fmap; eauto). rewrite H in Hin.
    apply list_elem_of_fmap in Hin as (k & -> & Hk%list_elem_of_In%in_seq). lia.
Qed.
Lemma full_add l s : full [] s -> full [] (add l s).
Proof.
  intros Hf. pose proof (f_inv _ _ Hf) as Hv. unfold add. set (have := list_to_set (map path (rows s)) : gset str). set (entries := collapseRarVolumes e_path l).
  destruct (fresh_rows_spec have (seq s) entries) as (_ & Hpaths & Hfresh). destruct (fresh_ids have (seq s) entries) as (Hids & Hrange).
  set (fresh := fresh_rows have (seq s) entries) in *. apply inspect_all. rewrite app_nil_r.
  assert (forall a, about s a -> about (s <| rows := rows s ++ fresh |> <| seq := seq s + Z.of_nat (length fresh) |>) a) as Habout.
  { intros a [H1 H2]. split; simpl; [lia|]. intros r [Hr|Hr]%elem_of_app E; [by apply H2|]. specialize (Hrange r Hr). lia. }
  split; [| |apply Hf|].
  - apply (inv_rows s); [done..|intros i; done|done| | |]; simpl; rewrite ?map_app.
    + apply NoDup_app. split; [apply Hv|]. split; [|done]. intros i (r & -> & Hr)%list_elem_of_fmap (r' & E & Hr')%list_elem_of_fmap.
      specialize (Hrange r' Hr'). pose proof (v_range s Hv r Hr). lia.
    + intros r [Hr|Hr]%elem_of_app; [pose proof (v_range s Hv r Hr); lia|by apply Hrange].
    + apply NoDup_app. split; [apply Hv|]. split; [|done]. intros p Hp (r' & -> & Hr')%list_elem_of_fmap.
      destruct (Hfresh r' Hr') as [Hn _]. apply Hn. unfold have. by apply elem_of_list_to_set.
  - simpl. intros r [Hr|Hr]%elem_of_app; [by apply (told_same s _ r); [by apply Hf|..]|]. destruct (Hfresh r Hr) as [_ Hs]. intros Hn. by destruct Hn.
  - intros r Hr Hs. simpl in Hr. apply elem_of_app in Hr as [Hr|Hr]; [|left; apply list_elem_of_fmap; eauto].
    destruct (f_look _ _ Hf r Hr Hs) as [[]%elem_of_nil|H]. by right.
Qed.
Lemma bump_other i s j : j <> i -> generation (bump i s) !! j = generation s !! j.
Proof. intros H. unfold bump. simpl. by rewrite lookup_insert_ne. Qed.
Lemma full_remove i s : full [] s -> full [] (remove i s).
Proof.
  intros Hf. pose proof (f_inv _ _ Hf) as Hv. unfold remove. set (f := fun r => negb (bool_decide (id r = i))).
  assert (forall r, r ∈ List.filter f (rows s) -> r ∈ rows s /\ id r <> i) as Hin.
  { intros r [Hr Hn]%list_elem_of_In%filter_In. split; [by apply list_elem_of_In|]. unfold f in Hn. by bool_prop. }
  assert (forall a, about s a -> about ((bump i s) <| rows := List.filter f (rows s) |>) a) as Habout.
  { intros a [H1 H2]. split; [done|]. intros r Hr. apply H2. by apply Hin. }
  split; [| |apply Hf|].
  - apply (inv_rows s); [done..|apply gen_only_grows|done| | |]; simpl.
    + eapply sublist_NoDup; [apply Hv|]. apply fmap_sublist, filter_sublist.
    + intros r Hr. apply Hv. by apply Hin.
    + eapply sublist_NoDup; [apply (v_paths s Hv)|]. apply fmap_sublist, filter_sublist.
  - simpl. intros r Hr. destruct (Hin r Hr) as [Hr' Hne]. apply (told_same s _ r); [by apply Hf|done|done| |done|done]. simpl. by rewrite lookup_insert_ne.
  - simpl. intros r Hr Hs. destruct (Hin r Hr) as [Hr' Hne]. destruct (f_look _ _ Hf r Hr' Hs) as [|[Hw|(a & Ha & Hai & Hg)]]; [by left|right; by left|right; right].
    exists a. split; [done|]. split; [done|]. simpl. by rewrite lookup_insert_ne.
Qed.
Lemma clear_keeps l s : let s' := fold_left (fun s r => bump (id r) s) l s in active s' = active s /\ log s' = log s /\ seq s' = seq s /\ forall i, gen_of i s <= gen_of i s'.
Proof.
  revert s. induction l as [|r l IH]; intros s; simpl; [by split_and!|]. destruct (IH (bump (id r) s)) as (-> & -> & -> & Hg). split_and!; [done..|].
  intros i. specialize (Hg i). pose proof (gen_only_grows (id r) s i). lia.
Qed.
Lemma full_clear s : full [] s -> full [] (clear s).
Proof.
  intros Hf. pose proof (f_inv _ _ Hf) as Hv. unfold clear. destruct (clear_keeps (rows s) s) as (Ha & Hl & Hs & Hg). set (s' := fold_left _ _ s) in *.
  assert (forall a, about s a -> about (s' <| waiting := [] |> <| rows := [] |>) a) as Habout.
  { intros a [H1 _]. split; [simpl; by rewrite Hs|]. intros r Hr. by apply elem_of_nil in Hr. }
  split; [|by intros r ?%elem_of_nil|done|by intros r ?%elem_of_nil].
  apply (inv_rows s); [done|exact Ha|exact Hl|exact Hg|exact Habout|constructor|by intros r ?%elem_of_nil|constructor].
Qed.
Lemma full_listed k l s : full [] s -> full [] (listed k l s).
Proof.
  intros Hf. unfold listed. destruct (listing s !! k) as [x|]; [|done].
  assert (full [] (s <| listing := take k (listing s) ++ drop (S k) (listing s) |>)) as Hf' by (split; [split|..]; apply Hf).
  destruct (archiveSetIssue _ l) as [issue|]; [|done]. destruct (current _ _ _); [|done]. by apply full_patch.
Qed.
Definition answered (answer : PickedSource + str) : BatchRow -> BatchRow := match answer with inl src => ready src | inr msg => refused msg end.
Lemma answered_keeps answer : keeps_told (answered answer).
Proof. intros r. destruct answer as [src|msg]; [done|]. unfold answered, refused. by destruct (password_asked msg). Qed.
Lemma answered_shows answer r : shows answer (answered answer r) /\ status (answered answer r) <> Inspecting.
Proof. destruct answer as [src|msg]; [done|]. unfold shows, answered, refused. by destruct (password_asked msg). Qed.
(** What an answer taken in leaves: the rows patched. *)
Lemma landed_eq i answer s : (current (i_id i) (i_gen i) s = false /\ landed i answer s = s) \/ (current (i_id i) (i_gen i) s = true /\ exists ls,
  landed i answer s = patch (i_id i) (answered answer) s <| listing := ls |>).
Proof.
  unfold landed. destruct (current _ _ _); simpl; [right|left; by split]. split; [done|]. destruct answer as [src|msg]; [|by exists (listing s)].
  destruct (decide _); [by exists (listing s)|by eexists].
Qed.
(** The answer noted, and its inspection no longer under way. *)
Definition heard (k : nat) (i : Inspection) (answer : PickedSource + str) (s : St) : St :=
  (landed i answer (s <| log := log s ++ [Answered i answer] |>)) <| active := take k (active s) ++ drop (S k) (active s) |>.
Section heard.
Context (k : nat) (i : Inspection) (answer : PickedSource + str) (s : St) (Hk : active s !! k = Some i) (Hf : full [] s).
Let rest := take k (active s) ++ drop (S k) (active s).
Let Hv := f_inv _ _ Hf.
Lemma heard_rest : active s ≡ₚ i :: rest.
Proof using Hk. rewrite <- (take_drop_middle _ _ _ Hk) at 1. unfold rest. by rewrite Permutation_middle. Qed.
Lemma heard_inv : inv (heard k i answer s).
Proof using Hk Hf.
  pose proof heard_rest as Hp. assert (i ∈ active s) as Hi by (by eapply list_elem_of_lookup_2).
  assert (forall a, a ∈ rest -> a ∈ active s /\ tag a <> tag i) as Hsub.
  { intros a Ha. split; [rewrite Hp; by right|]. destruct (v_once s Hv) as [Hn _]. rewrite Hp in Hn. simpl in Hn. apply NoDup_cons in Hn as [Hn _].
    intros E. apply Hn. rewrite <- E. by apply list_elem_of_fmap_2. }
  set (s0 := s <| log := log s ++ [Answered i answer] |> <| active := rest |>). assert (inv s0) as Hv0.
  { split; simpl; try apply Hv.
    - pose proof (v_limit s Hv) as H. rewrite Hp in H. simpl in H. lia.
    - intros a Ha. apply (v_active s Hv). by apply Hsub.
    - intros j ans [Hj|Hj%list_elem_of_singleton]%elem_of_app.
      + destruct (v_log s Hv j ans Hj) as (L1 & L2 & L3). split_and!; [done..|]. intros a Ha. apply L3. by apply Hsub.
      + injection Hj as -> ->. split_and!; [by apply (v_active s Hv)|by apply (v_gens s Hv)|]. intros a Ha. by apply Hsub.
    - intros a Ha. apply (v_gens s Hv). by apply Hsub.
    - destruct (v_once s Hv) as [H1 H2]. rewrite Hp in H1. simpl in H1. apply NoDup_cons in H1 as [_ H1]. split; [done|]. rewrite omap_app. simpl.
      apply NoDup_app. split_and!; [done| |by apply NoDup_singleton]. intros t (n & Hn & Ht)%list_elem_of_omap E%list_elem_of_singleton. subst t.
      destruct n as [|j ans]; [done|]. assert (tag i = tag j) as E by (simpl in Ht; congruence). destruct (v_log s Hv j ans Hn) as (_ & _ & L3). by apply (L3 i Hi).
    - intros j. destruct (v_sorted s Hv j) as [H1 H2]. rewrite began_app. simpl. by rewrite app_nil_r.
    - intros a Ha. apply elem_of_app. left. apply (v_began s Hv). destruct Ha as [Ha|[ans [Ha|Ha%list_elem_of_singleton]%elem_of_app]]; [left; by apply Hsub|right; by exists ans|].
      injection Ha as -> _. by left. }
  unfold heard. destruct (landed_eq i answer (s <| log := log s ++ [Answered i answer] |>)) as [[_ ->]|(_ & ls & ->)]; [exact Hv0|].
  pose proof (patch_inv (i_id i) (answered answer) s0 (answered_keeps answer) Hv0) as Hv1. by split; apply Hv1.
Qed.
Lemma heard_told r : r ∈ rows (heard k i answer s) -> told (heard k i answer s) r.
Proof using Hk Hf.
  pose proof heard_rest as Hp. unfold heard. destruct (landed_eq i answer (s <| log := log s ++ [Answered i answer] |>)) as [[Hc ->]|(Hc & ls & ->)]; unfold current in Hc; bool_prop; simpl in Hc.
  - intros Hr Hs. destruct (f_told _ _ Hf r Hr Hs) as (j & ans & T1 & T2 & T3 & T4). exists j, ans. split_and!; [simpl; apply elem_of_app; by left|done|done|].
    destruct T4 as [T4|(a & Ha & Hai & Hg)]; [by left|right]. exists a. split_and!; [|done|done]. simpl. rewrite Hp in Ha. apply elem_of_cons in Ha as [->|Ha]; [|done]. congruence.
  - intros (o & Ho & ->)%(elem_patch (i_id i) _ (s <| log := log s ++ [Answered i answer] |>)). destruct (decide (id o = i_id i)) as [E|E].
    + intros _. destruct (answered_keeps answer o) as (Hid & _). exists i, answer. rewrite Hid. split_and!; [simpl; apply elem_of_app; right; by left|done|apply answered_shows|].
      left. rewrite Hid, E. exact Hc.
    + intros Hs. destruct (f_told _ _ Hf o Ho Hs) as (j & ans & T1 & T2 & T3 & T4). exists j, ans. split_and!; [simpl; apply elem_of_app; by left|done|done|].
      destruct T4 as [T4|(a & Ha & Hai & Hg)]; [by left|right]. exists a. split_and!; [|done|done]. simpl. rewrite Hp in Ha. apply elem_of_cons in Ha as [->|Ha]; [|done]. congruence.
Qed.
Lemma heard_looked : looked_for [] (waiting s) (heard k i answer s).
Proof using Hk Hf.
  pose proof heard_rest as Hp. unfold heard. destruct (landed_eq i answer (s <| log := log s ++ [Answered i answer] |>)) as [[Hc ->]|(Hc & ls & ->)]; unfold current in Hc; bool_prop; simpl in Hc.
  - intros r Hr Hs. destruct (f_look _ _ Hf r Hr Hs) as [|[Hw|(a & Ha & Hai & Hg)]]; [by left|right; by left|right; right].
    rewrite Hp in Ha. apply elem_of_cons in Ha as [->|Ha]; [by rewrite Hai in Hc|]. by exists a.
  - intros r (o & Ho & ->)%(elem_patch (i_id i) _ (s <| log := log s ++ [Answered i answer] |>)). destruct (decide (id o = i_id i)) as [E|E].
    { intros Hs. exfalso. by apply (answered_shows answer o). }
    intros Hs. destruct (f_look _ _ Hf o Ho Hs) as [|[Hw|(a & Ha & Hai & Hg)]]; [by left|right; by left|right; right].
    rewrite Hp in Ha. apply elem_of_cons in Ha as [->|Ha]; [congruence|]. by exists a.
Qed.
Lemma full_land : full [] (land k answer s) /\ (length (active (land k answer s)) + length (waiting (land k answer s)) < length (active s) + length (waiting s))%nat.
Proof using Hk Hf.
  assert (waiting (heard k i answer s) = waiting s) as Hw by (unfold heard; by destruct (landed_eq i answer (s <| log := log s ++ [Answered i answer] |>)) as [[_ ->]|(_ & ls & ->)]).
  assert (land k answer s = pump_from (waiting s) (heard k i answer s)) as -> by (unfold land; rewrite Hk; change (pump_from (waiting (heard k i answer s)) (heard k i answer s) = pump_from (waiting s) (heard k i answer s)); by rewrite Hw).
  destruct (pump_full [] (waiting s) _ heard_inv heard_told heard_looked) as [Hfull _]. destruct (pump_from_ok [] (waiting s) _ heard_inv heard_told heard_looked) as (_ & _ & _ & _ & _ & Hm).
  split; [done|]. pose proof heard_rest as Hp. apply Permutation_length in Hp. simpl in Hp. change (active (heard k i answer s)) with rest in Hm. lia.
Qed.
End heard.
Lemma full_step s e : full [] s -> full [] (step s e).
Proof.
  intros Hf. destruct e as [l|i|i b|i c|i p| |k a|k l]; simpl.
  - by apply full_add.
  - by apply full_remove.
  - by apply full_patch.
  - by apply full_patch.
  - by apply full_password.
  - by apply full_clear.
  - destruct (active s !! k) as [i|] eqn:Ek; [by apply (full_land k i a s)|]. unfold land. by rewrite Ek.
  - by apply full_listed.
Qed.
Lemma full_run evs : full [] (run evs).
Proof.
  unfold run. assert (full [] init) as H0.
  { split; [|by intros ? ?%elem_of_nil|done|by intros ? ?%elem_of_nil].
    split; simpl; [constructor|by intros ? ?%elem_of_nil|constructor|unfold LIMIT; lia|by intros ? ?%elem_of_nil|by intros ? ? ?%elem_of_nil|by intros ? ?%elem_of_nil| | |].
    - split; constructor.
    - intros i. split; [constructor|by intros ? ?%elem_of_nil].
    - by intros a [?%elem_of_nil|[? ?%elem_of_nil]]. }
  revert H0. generalize init. induction evs as [|e evs IH]; intros s Hs; simpl; [done|]. by apply IH, full_step.
Qed.

(** * The theorems *)

(** [i] is the newest inspection of the row to have been answered; or a newer one than any that was is under way. *)
Definition up_to_date (s : St) (r : BatchRow) (i : Inspection) : Prop :=
  (forall j b, Answered j b ∈ log s -> i_id j = id r -> i_gen j <= i_gen i) \/
  (exists a, a ∈ active s /\ i_id a = id r /\ forall j b, Answered j b ∈ log s -> i_id j = id r -> i_gen j < i_gen a).
Lemma newest_up_to_date s r i : inv s -> newest s r i -> up_to_date s r i.
Proof.
  intros Hv [Hg|(a & Ha & Hai & Hg)]; [left|right].
  - intros j b Hj E. destruct (v_log s Hv j b Hj) as (_ & H & _). unfold gen_of in H. rewrite E, Hg in H. exact H.
  - exists a. split_and!; [done..|]. intros j b Hj E. destruct (v_log s Hv j b Hj) as (_ & H & Hne). unfold gen_of in H. rewrite E, Hg in H. simpl in H.
    specialize (Hne a Ha). destruct (Z.eq_dec (i_gen j) (i_gen a)) as [Eg|]; [|lia]. destruct Hne. unfold tag. congruence.
Qed.
(** C25: Over any history of the review list: no source is listed twice and no id used twice; at most four
    inspections run, and none waits while fewer do. The inspections of a row are numbered as they began,
    and none is answered twice. A row that does not say inspecting shows what one of them answered, which
    looked at the row's own path, and no later one has been answered, unless one that began after all that
    were is still under way: the late answer of an older inspection, or of a row that was removed, is
    never shown. A row that says inspecting has an inspection to come, under way and the row's newest, or
    waiting. *)
Theorem review_list_sound evs : let s := run evs in
  NoDup (map path (rows s)) /\ NoDup (map id (rows s)) /\
  (length (active s) <= 4)%nat /\ (waiting s <> [] -> length (active s) = 4%nat) /\
  (forall i, StronglySorted Z.lt (began i (log s))) /\ NoDup (omap answered_tag (log s)) /\
  (forall i b, Answered i b ∈ log s -> Began i ∈ log s) /\
  (forall r, r ∈ rows s -> status r <> Inspecting -> exists i answer, Answered i answer ∈ log s /\ i_id i = id r /\
     i_path i = path r /\ i_isDir i = isDir r /\ shows answer r /\ up_to_date s r i) /\
  (forall r, r ∈ rows s -> status r = Inspecting ->
     id r ∈ waiting s \/ exists a, a ∈ active s /\ i_id a = id r /\ forall g, g ∈ began (id r) (log s) -> g <= i_gen a).
Proof.
  intros s. pose proof (full_run evs) as Hf. fold s in Hf. pose proof (f_inv _ _ Hf) as Hv. pose proof (v_limit _ Hv) as Hl. unfold LIMIT in Hl. split_and!; [apply Hv|apply Hv|done| | |apply Hv| | |].
  - intros Hw. pose proof (f_busy _ _ Hf Hw) as Hb. unfold LIMIT in Hb. lia.
  - intros i. apply (v_sorted s Hv).
  - intros i b Hb. apply (v_began s Hv). right. by exists b.
  - intros r Hr Hs. destruct (f_told _ _ Hf r Hr Hs) as (i & ans & T1 & T2 & T3 & T4). exists i, ans. destruct (v_log s Hv i ans T1) as ((_ & Hp) & _ & _).
    destruct (Hp r Hr) as [-> ->]; [done|]. split_and!; try done. by apply newest_up_to_date.
  - intros r Hr Hs. destruct (f_look _ _ Hf r Hr Hs) as [[]%elem_of_nil|[H|(a & Ha & Hai & Hg)]]; [by left|right]. exists a. split_and!; [done..|].
    intros g Hin. destruct (v_sorted s Hv (id r)) as [_ H]. specialize (H g Hin). unfold gen_of in H. by rewrite Hg in H.
Qed.
(** A run of answers, each to an inspection under way. *)
Fixpoint lands_ok (s : St) (l : list (nat * (PickedSource + str))) : Prop :=
  match l with [] => True | (k, a) :: l => (k < length (active s))%nat /\ lands_ok (land k a s) l end.
(** The inspections come to an end: from any history on, at most as many answers come in as inspections
    are under way or wait, in whatever order and whatever they say; and when none is under way, none waits
    and every row is ready, asks for its password, or failed. *)
Theorem inspections_settle evs l : let s := run evs in lands_ok s l ->
  let s' := fold_left (fun s ka => land ka.1 ka.2 s) l s in
  (length l + length (active s') + length (waiting s') <= length (active s) + length (waiting s))%nat /\
  (active s' = [] -> waiting s' = [] /\ forall r, r ∈ rows s' -> status r <> Inspecting).
Proof.
  cbv zeta. pose proof (full_run evs) as Hf. revert Hf. generalize (run evs). induction l as [|[k a] l IH]; intros s Hf Hl; simpl.
  - split; [lia|]. intros Ha. assert (waiting s = []) as Hw.
    { destruct (waiting s) eqn:Ew; [done|]. pose proof (f_busy _ _ Hf) as Hb. rewrite Ha, Ew in Hb. unfold LIMIT in Hb. simpl in Hb. specialize (Hb ltac:(done)). lia. }
    split; [done|]. intros r Hr Hs. destruct (f_look _ _ Hf r Hr Hs) as [[]%elem_of_nil|[Hin|(x & Hin & _)]].
    + rewrite Hw in Hin. by apply elem_of_nil in Hin.
    + rewrite Ha in Hin. by apply elem_of_nil in Hin.
  - destruct Hl as [Hk Hl]. apply lookup_lt_is_Some in Hk as [i Hi]. destruct (full_land k i a s Hi Hf) as [Hf' Hlt]. destruct (IH _ Hf' Hl) as [I1 I2]. split; [lia|done].
Qed.

(** A folder is listed only for names that may belong to a set; for the others there is nothing to say. *)
Lemma zip_no_volume n : js ".zip" `suffix_of` lower n -> parseSplitVolume n = None.
Proof.
  intros [k Hk]. assert (cut_last "." (lower n) = Some (k, js "zip")) as Hc by (apply cut_last_Some; split; [done|clear; set_solver]).
  rewrite cut_last_lower in Hc. unfold parseSplitVolume. destruct (parseArchivePart n); [done|].
  unfold numeric_volume, zip_volume, rar_volume. destruct (cut_last "." n) as [[st e]|]; [|done]. simpl in Hc. injection Hc as _ He.
  assert (is_digits e = false) as -> by (rewrite <- is_digits_lower, He; done). simpl.
  destruct e as [|z ds]; [done|]. change (lower_latin1 z :: lower ds = js "zip") in He. injection He as -> He.
  assert (is_digits ds = false) as -> by (change (lower ds = js "ip") in He; rewrite <- is_digits_lower, He; done). by rewrite !andb_false_r.
Qed.
Lemma listing_enough p names : archiveSetIssue p (Some names) =
  if (last_sep p <=? 0) || isRemotePath p then None else diagnoseArchiveSet (drop (S (Z.to_nat (last_sep p))) p) names.
Proof.
  unfold archiveSetIssue. destruct (_ || _); [done|]. set (n := drop _ p). cbv zeta. unfold diagnoseArchiveSet.
  destruct (parseArchivePart n) as [self|] eqn:Ep; [rewrite bool_decide_true by done; cbn [negb andb]; rewrite ?andb_false_r; done|].
  rewrite (bool_decide_false (is_Some None)) by (by intros [? ?]). cbn [negb andb].
  destruct (bool_decide (js ".zip" `suffix_of` lower n)) eqn:Ez; bool_prop.
  - rewrite (zip_no_volume n) by done. cbn [negb]. rewrite andb_false_r. simpl. by destruct (isSpannedZip n names).
  - assert (isSpannedZip n names = false) as ->.
    { unfold isSpannedZip, zip_stem. destruct (cut_last "." n) as [[st e]|] eqn:Ec; [|done]. case_bool_decide as He; [|done]. exfalso. apply Ez.
      apply cut_last_Some in Ec as [-> _]. exists (lower st). change (lower (st ++ js "." ++ e) = lower st ++ js "." ++ js "zip"). by rewrite !lower_app, He. }
    simpl. destruct (parseSplitVolume n) as [v|]; [by rewrite bool_decide_true|by rewrite (bool_decide_false (is_Some None)) by (by intros [? ?])].
Qed.

(** * Examples *)

Definition a_zip : PickedSource := {| kind := KArchive; zipInfo := Some {| game_root := None; entry_names := Some [js "PPSA01234/eboot.bin"]; entry_names_complete := true |}; what := 1 |}.
Definition picked (p : string) : BatchEntry := {| e_path := js p; e_isDir := false; e_size := None; e_include := None |}.
(** Six files: the volume goes with its set, one is there already, and the fifth waits for its turn. *)
Definition a_day : list Event := [
  EAdd (map picked ["/d/a.zip"; "/d/b.rar"; "/d/b.r00"; "/d/a.zip"; "/d/c.zip"; "/d/d.zip"; "/d/e.zip"]);
  ELand 1 (inr (js "rar_password_required")); EPassword 2 (js "hello"); ERemove 3].
Definition an_evening : list (nat * (PickedSource + str)) :=
  [(1%nat, inr (js "gone")); (0%nat, inl a_zip); (2%nat, inl a_zip); (0%nat, inl a_zip); (0%nat, inr (js "unreadable"))].
Lemma inspections_settle_witness : let s' := fold_left (fun s ka => land ka.1 ka.2 s) an_evening (run a_day) in
  map status (rows s') = [Ready; Ready; Ready; Failed] /\ map archiveChoice (rows s') = [Some Unpack; Some Unpack; Some Unpack; None] /\
  waiting s' = [] /\ forall r, r ∈ rows s' -> status r <> Inspecting.
Proof.
  intros s'. split; [by vm_compute|]. split; [by vm_compute|]. apply (inspections_settle a_day an_evening); [|by vm_compute].
  repeat (split; [apply Nat.ltb_lt; by vm_compute|]). exact I.
Defined.
