(* ===== verification/DumpSwap.v ===== *)
(** Convert & replace (client/src/lib/dumpSwap.ts): a game dump on the console gives way to the package
    built from it, and comes back when the package does not install. The routine is a [Program]: the
    console's operations ([SwapDeps]) are its calls, and the app may close between any two of them.
    [onStep] only shows where it is. *)
From S2P Require Import Prelude Json Paths Program.

(** * Texts *)

(** A text file: what [JSON.stringify] wrote, or any other text. *)
Inductive Text := Doc (j : json) | Plain (s : str).
Definition parse (t : Text) : option json := match t with Doc j => Some j | Plain _ => None end.

Definition is_space (a : ascii) : bool := bool_decide (code a ∈ [9; 10; 11; 12; 13; 32; 160]).
Fixpoint strip_start (p : ascii -> bool) (s : str) : str :=
  match s with a :: s' => if p a then strip_start p s' else s | [] => [] end.
Definition trim_space (s : str) : str := strip_end is_space (strip_start is_space s).
(** [s.split(/\r?\n/)] *)
Definition drop_cr (s : str) : str :=
  match last s with Some a => if decide (a = "013"%char) then removelast s else s | None => s end.
Fixpoint drop_crs (l : list str) : list str :=
  match l with [] => [] | [s] => [s] | s :: l' => drop_cr s :: drop_crs l' end.
Definition split_lines (s : str) : list str := drop_crs (split_on "010"%char s).

(** * Calls *)

Inductive Cmd :=
| Exists (p : str)
| Mkdir (p : str)
| Move (from to : str)
| WriteText (p : str) (t : Text)
| ReadText (p : str)
| Remove (p : str)
| ListDir (dir : str)
| IsRunning (titleId : str)
| IsRegistered (titleId : str)
| Unregister (titleId : str)
| Install (packagePath : str)
| Sleep (ms : Z)
| Now.
Record Installed := { i_ok : bool; i_message : option str }.
Definition reply (c : Cmd) : Type :=
  match c with
  | Exists _ | IsRunning _ | IsRegistered _ => bool
  | ReadText _ => option Text
  | ListDir _ => list str
  | Install _ => Installed
  | Now => Z
  | _ => unit
  end.
Abbreviation Prog := (Prog reply str).
(** A call of a routine of this file. *)
Definition ask (c : Cmd) : Prog (reply c) := call c.

(** * Data *)

Record SwapInput := { titleId : str; dump : str; packagePath : str }.
Inductive JournalStep := Parking | Parked | Installing | InstalledStep.
Record SwapJournal := { input : SwapInput; parked : str; j_step : JournalStep; at_ : Z }.
Record SwapResult := { ok : bool; message : option str; rolledBack : bool; journal : option SwapJournal }.

Definition step_name (s : JournalStep) : str :=
  js match s with Parking => "parking" | Parked => "parked" | Installing => "installing" | InstalledStep => "installed" end.
Definition journal_json (j : SwapJournal) : json := JObj
  [(js "v", JNum 1); (js "titleId", JStr (titleId (input j))); (js "dump", JStr (dump (input j)));
   (js "packagePath", JStr (packagePath (input j))); (js "parked", JStr (parked j));
   (js "step", JStr (step_name (j_step j))); (js "at", JNum (at_ j))].
Definition with_step (s : JournalStep) (j : SwapJournal) : SwapJournal :=
  {| input := input j; parked := parked j; j_step := s; at_ := at_ j |}.

Definition JOURNAL_DIR : str := js "/data/ps5upload/swap".
Definition MANUAL_LIST : str := js "/data/shadowmount/manual.lst".
Definition RELEASE_POLL_MS : Z := 3000.
Definition RELEASE_TIMEOUT_MS : Z := 90000.
Definition SMP_LINKS : list str := [js "mount.lnk"; js "mount_img.lnk"].

Definition journalPathFor (titleId : str) : str := JOURNAL_DIR ++ js "/" ++ titleId ++ js ".json".

Definition after_last_slash (p : str) : str :=
  match last_index_of slash p with Some i => drop (S i) p | None => p end.
Definition before_last_slash (p : str) : str :=
  match last_index_of slash p with Some i => take i p | None => removelast p end.
(** [/^(\/mnt\/[^/]+)\/./]'s group. *)
Definition mnt_volume (p : str) : option str :=
  if starts_with (js "/mnt/") p then
    let rest := drop 5 p in
    match index_of slash rest with
    | Some (S _ as i) =>
        match rest !! S i with
        | Some a => if decide (a = "010"%char) then None else if decide (a = "013"%char) then None
                    else Some (js "/mnt/" ++ take i rest)
        | None => None
        end
    | _ => None
    end
  else None.
Definition parkedPathFor (dump : str) : option str :=
  let p := trim dump in
  let name := after_last_slash p in
  let volume := if starts_with (js "/data/") p then Some (js "/data") else mnt_volume p in
  match volume, name with
  | None, _ | _, [] => None
  | Some v, _ => Some (v ++ js "/ps5upload/parked/" ++ name)
  end.

(** * The routines *)

Definition writeJournal (j : SwapJournal) : Prog unit :=
  ask (WriteText (journalPathFor (titleId (input j))) (Doc (journal_json j))).
(** [p.catch(() => {})] *)
Definition ignore (p : Prog unit) : Prog unit := catch p (fun _ => Ret tt).
Definition failed (m : str) : SwapResult := {| ok := false; message := Some m; rolledBack := false; journal := None |}.

Definition rollbackSwap (j : SwapJournal) : Prog unit :=
  do there <- ask (Exists (parked j)) in
  do _ <- (if there
           then do back <- ask (Exists (dump (input j))) in
                if back then Throw (dump (input j) ++ js " exists again, so the parked dump can't go back over it")
                else ask (Move (parked j) (dump (input j)))
           else Ret tt) in
  ask (Remove (journalPathFor (titleId (input j)))).

Definition undo (j : SwapJournal) (why : str) : Prog SwapResult :=
  catch (do _ <- rollbackSwap j in
         Ret {| ok := false; message := Some (why ++ js " The dump is back where it was."); rolledBack := true; journal := None |})
    (fun e => Ret (failed (why ++ js " Moving the dump back failed too (" ++ e ++ js "); it is at " ++ parked j ++
                           js ". Convert lists this swap so you can roll it back."))).

(** The wait for ShadowMountPlus, [polls] looks at most: it let go, or the time is over. *)
Fixpoint wait_release (polls : nat) (titleId : str) (deadline : Z) : Prog bool :=
  match polls with
  | O => Spin
  | S polls =>
      do names <- catch (do l <- ask (ListDir (js "/user/app/" ++ titleId)) in Ret (Some l)) (fun _ => Ret None) in
      if match names with Some l => negb (existsb (fun n => bool_decide (n ∈ SMP_LINKS)) l) | None => false end
      then Ret true
      else
        do t <- ask Now in
        if deadline <=? t then Ret false
        else do _ <- ask (Sleep RELEASE_POLL_MS) in wait_release polls titleId deadline
  end.

(** What the install answered. *)
Definition installed (j : SwapJournal) (result : Installed) : Prog SwapResult :=
  if negb (i_ok result)
  then undo j (js "The install did not finish" ++
               match i_message result with Some ((_ :: _) as m) => js " (" ++ m ++ js ")" | _ => [] end ++ js ".")
  else
    let j := with_step InstalledStep j in
    do _ <- ignore (writeJournal j) in
    Ret {| ok := true; message := None; rolledBack := false; journal := Some j |}.
Definition install_package (j : SwapJournal) : Prog SwapResult :=
  let j := with_step Installing j in
  do _ <- ignore (writeJournal j) in
  do result <- catch (ask (Install (packagePath (input j)))) (fun e => Ret {| i_ok := false; i_message := Some e |}) in
  installed j result.

(** From the parked dump on: release, install. *)
Definition release_install (polls : nat) (j : SwapJournal) : Prog SwapResult :=
  let t := titleId (input j) in
  do start <- ask Now in
  do released <- wait_release polls t (start + RELEASE_TIMEOUT_MS) in
  if negb released then undo j (js "ShadowMountPlus did not let go of the dump.") else
  do gone <- catch (do reg <- ask (IsRegistered t) in
                    do _ <- (if reg then ask (Unregister t) else Ret tt) in Ret None)
                   (fun e => Ret (Some e)) in
  match gone with
  | Some e => undo j (js "Couldn't remove the dump's registration: " ++ e ++ js ".")
  | None => install_package j
  end.

Definition runSwap (polls : nat) (inp : SwapInput) : Prog SwapResult :=
  match parkedPathFor (dump inp) with
  | None => Ret (failed (js "Can't tell which drive " ++ dump inp ++ js " is on, so it can't be parked safely."))
  | Some to =>
      do running <- ask (IsRunning (titleId inp)) in
      if running then Ret (failed (js "The game is running. Close the game on the PS5, then start again.")) else
      do taken <- ask (Exists to) in
      if taken then Ret (failed (to ++ js " already exists (an earlier swap kept it). Delete or move it first.")) else
      do there <- ask (Exists (dump inp)) in
      if negb there then Ret (failed (dump inp ++ js " is not on the console any more.")) else
      do now <- ask Now in
      let j := {| input := inp; parked := to; j_step := Parking; at_ := now |} in
      do parking <- catch
        (do _ <- ask (Mkdir JOURNAL_DIR) in
         do _ <- writeJournal j in
         do _ <- ask (Mkdir (before_last_slash to)) in
         do _ <- ask (Move (dump inp) to) in Ret None)
        (fun e => Ret (Some e)) in
      match parking with
      | Some e =>
          do _ <- ignore (ask (Remove (journalPathFor (titleId inp)))) in
          Ret (failed (js "Couldn't park the dump: " ++ e))
      | None =>
          let j := with_step Parked j in
          do _ <- ignore (writeJournal j) in
          release_install polls j
      end
  end.

(** * Afterwards *)

Definition removeManualListLine (existing path : str) : option str :=
  let lines := split_lines existing in
  let kept := base.filter (fun ln => trim_space ln <> trim_space path) lines in
  if Nat.eqb (length kept) (length lines) then None
  else
    let body := strip_end is_space (join_with [("010"%char : ascii)] kept) in
    Some (match body with [] => [] | _ => body ++ ["010"%char] end).

Inductive Choice := DeleteIt | KeepIt.
(** A manual list is text; what [JSON.stringify] wrote reads as some text too. *)
Definition finishSwap (text_of : json -> str) (j : SwapJournal) (choice : Choice) : Prog unit :=
  do _ <- match choice with DeleteIt => ask (Remove (parked j)) | KeepIt => Ret tt end in
  do list <- ask (ReadText MANUAL_LIST) in
  do _ <- match list with
          | None => Ret tt
          | Some t =>
              match removeManualListLine (match t with Plain s => s | Doc d => text_of d end) (dump (input j)) with
              | Some next => ask (WriteText MANUAL_LIST (Plain next))
              | None => Ret tt
              end
          end in
  ask (Remove (journalPathFor (titleId (input j)))).

Definition truthy (o : option json) : bool :=
  match o with
  | None | Some JNull => false
  | Some (JBool b) => b
  | Some (JNum n) => negb (n =? 0)
  | Some (JStr s) => match s with [] => false | _ => true end
  | Some (JArr _ | JObj _) => true
  end.
Definition is_journal (j : json) : bool :=
  bool_decide (get "v" j = Some (JNum 1)) && truthy (get "titleId" j) && truthy (get "dump" j) && truthy (get "parked" j).
Definition ends_with (e s : str) : bool := bool_decide (e `suffix_of` s).
Fixpoint read_each (names : list str) : Prog (list json) :=
  match names with
  | [] => Ret []
  | n :: names =>
      if negb (ends_with (js ".json") n) then read_each names else
      do text <- catch (ask (ReadText (JOURNAL_DIR ++ js "/" ++ n))) (fun _ => Ret None) in
      let found := match (t ← text; parse t) with Some j => if is_journal j then [j] else [] | None => [] end in
      do rest <- read_each names in Ret (found ++ rest)
  end.
Definition readJournals : Prog (list json) :=
  do names <- catch (ask (ListDir JOURNAL_DIR)) (fun _ => Ret []) in read_each names.

(** * What the routines rely on *)

(** [p] is [d] or below it. *)
Definition within (d p : str) : Prop := p = d \/ (d ++ [slash]) `prefix_of` p.
Definition apart (a b : str) : Prop := ~ within a b /\ ~ within b a.
(** The console's own places: what happens there is not ours. *)
Definition theirs (p : str) : Prop := within (js "/user") p \/ within (js "/data/shadowmount") p.

Section console.
Context {X : Type}.
(** A path's item: a game folder or image with all that is in it, a text, or a folder made on the way. *)
Inductive File := Item (x : X) | TextFile (t : Text) | Folder.

Context {W : Type} (view : W -> str -> option File) (clock : W -> Z)
  (answers : W -> forall c, reply c + str -> W -> Prop).

Definition same (w w' : W) : Prop := forall p, ~ theirs p -> view w' p = view w p.
Definition moved (a b : str) (w w' : W) : Prop :=
  is_Some (view w a) /\ view w b = None /\ view w' b = view w a /\ view w' a = None /\
  forall q, ~ theirs q -> ~ within a q -> ~ within b q -> view w' q = view w q.
Definition written (p : str) (t : Text) (w w' : W) : Prop :=
  view w' p = Some (TextFile t) /\ forall q, ~ theirs q -> q <> p -> view w' q = view w q.
(** Calls that look, wait, or work in the console's own places. *)
Definition quiet (c : Cmd) : Prop :=
  match c with Mkdir _ | Move _ _ | WriteText _ _ | Remove _ => False | _ => True end.

(** The console between and during the calls: looking changes nothing of ours and tells the truth; a
    folder is made only where nothing was; a move never goes over something and happens whole; a text is
    written whole (a temporary file, then a rename); a removal touches what it removes. A call that fails
    may have happened. *)
Class ConsoleSpec : Prop := {
  quiet_spec w c r w' : quiet c -> answers w c r w' -> same w w';
  exists_spec w p b w' : ~ theirs p -> answers w (Exists p) (inl b) w' -> (b = true <-> is_Some (view w p));
  read_spec w p o w' : ~ theirs p -> answers w (ReadText p) (inl o) w' ->
    match o with Some t => view w p = Some (TextFile t) | None => view w p = None end;
  list_spec w d l w' n : ~ theirs d -> answers w (ListDir d) (inl l) w' -> n <> [] -> slash ∉ n ->
    (n ∈ l <-> is_Some (view w (d ++ js "/" ++ n)));
  mkdir_spec w p r w' q : answers w (Mkdir p) r w' -> ~ theirs q ->
    view w' q = view w q \/ (view w q = None /\ view w' q = Some Folder /\ within q p);
  move_spec w a b r w' : a <> b -> answers w (Move a b) r w' ->
    match r with inl _ => moved a b w w' | inr _ => same w w' \/ moved a b w w' end;
  write_spec w p t r w' : answers w (WriteText p t) r w' ->
    match r with inl _ => written p t w w' | inr _ => same w w' \/ written p t w w' end;
  remove_spec w p r w' : answers w (Remove p) r w' ->
    (forall q, ~ theirs q -> ~ within p q -> view w' q = view w q) /\ (r = inl tt -> view w' p = None);
  clock_spec w c r w' : answers w c r w' -> clock w <= clock w';
  now_spec w r w' : answers w Now r w' -> r = inl (clock w);
  sleep_spec w ms r w' : answers w (Sleep ms) r w' -> r = inl tt /\ clock w + ms <= clock w'
}.
(** A move whose answer is a failure did not happen. *)
Definition move_tells : Prop := forall w a b e w', answers w (Move a b) (inr e) w' -> same w w'.

End console.
Arguments File : clear implicits.

(** * Paths *)

Lemma within_prefix d p : within d p -> d `prefix_of` p.
Proof. intros [->|H]; [done|]. etransitivity; [|exact H]. by apply prefix_app_r. Qed.
(** Paths that part before either ends. *)
Lemma parted u a b s t : a <> b -> apart (u ++ a :: s) (u ++ b :: t).
Proof.
  intros Hne. split; intros [k H]%within_prefix; rewrite <- (assoc_L (++)) in H; apply app_inv_head in H; by simplify_eq/=.
Qed.
Lemma not_within_longer d p : (length p < length d)%nat -> ~ within d p.
Proof. intros Hl H%within_prefix%prefix_length. lia. Qed.
Lemma theirs_parted p : (forall s, p <> js "/u" ++ s) -> (forall s, p <> js "/data/s" ++ s) -> ~ theirs p.
Proof.
  intros Hu Hs [H|H]; apply within_prefix in H as [k ->].
  - by apply (Hu (js "ser" ++ k)).
  - by apply (Hs (js "hadowmount" ++ k)).
Qed.

(** Where a dump is parked. *)
Lemma parkedPathFor_shape d p : parkedPathFor d = Some p ->
  exists v name, p = v ++ js "/ps5upload/parked/" ++ name /\ name <> [] /\ (slash ∉ name) /\
    (v = js "/data" \/ exists s, v = js "/mnt/" ++ s).
Proof.
  unfold parkedPathFor.
  assert (forall p, slash ∉ after_last_slash p) as Hn.
  { intros q. unfold after_last_slash. destruct (last_index_of slash q) as [i|] eqn:E.
    - by apply last_index_of_Some in E as [_ ?].
    - by apply last_index_of_None in E. }
  specialize (Hn (trim d)). destruct (after_last_slash (trim d)) as [|a n]; [by repeat case_match|].
  destruct (starts_with (js "/data/") (trim d)).
  - intros [= <-]. exists (js "/data"), (a :: n). split_and!; try done. by left.
  - unfold mnt_volume. destruct (starts_with _ _); [|done]. cbv zeta.
    destruct (index_of slash (drop 5 (trim d))) as [[|i]|]; [done| |done].
    destruct (drop 5 (trim d) !! S (S i)) as [c|]; [|done].
    destruct (decide (c = "010"%char)); [done|]. destruct (decide (c = "013"%char)); [done|].
    intros [= <-]. exists (js "/mnt/" ++ take (S i) (drop 5 (trim d))), (a :: n). split_and!; try done. right. by eexists.
Qed.
Lemma parked_not_theirs d p : parkedPathFor d = Some p -> ~ theirs p.
Proof.
  intros (v & n & -> & _ & _ & Hv)%parkedPathFor_shape.
  apply theirs_parted; intros s H; destruct Hv as [->|[s' ->]]; done.
Qed.
Lemma journal_not_theirs t : ~ theirs (journalPathFor t).
Proof. apply theirs_parted; intros s H; done. Qed.
Lemma parked_journal_apart d p t : parkedPathFor d = Some p -> apart p (journalPathFor t).
Proof.
  intros (v & n & -> & _ & _ & Hv)%parkedPathFor_shape. destruct Hv as [->|[s ->]].
  - apply (parted (js "/data/ps5upload/") "p" "s"). done.
  - apply (parted (js "/") "m" "d"). done.
Qed.
Lemma parked_dir_apart d p : parkedPathFor d = Some p -> ~ within p JOURNAL_DIR /\ ~ within p (before_last_slash p).
Proof.
  intros H. split.
  - apply parkedPathFor_shape in H as (v & n & -> & _ & _ & Hv). destruct Hv as [->|[s ->]].
    + apply (parted (js "/data/ps5upload/") "p" "s"). done.
    + apply (parted (js "/") "m" "d"). done.
  - apply parkedPathFor_shape in H as (v & n & -> & Hne & Hn & _). apply not_within_longer.
    change (js "/ps5upload/parked/" ++ n) with (js "/ps5upload/parked" ++ [slash] ++ n).
    unfold before_last_slash. rewrite (assoc_L (++)), last_index_of_join by done.
    rewrite take_app_length. rewrite !length_app. simpl. lia.
Qed.

(** * The dump and its journal *)

Section swap.
Context {X W : Type} (view : W -> str -> option (File X)) (clock : W -> Z)
  (answers : W -> forall c, reply c + str -> W -> Prop) `{!ConsoleSpec view clock answers}.
Context (inp : SwapInput) (to : str) (x : File X).
Local Abbreviation jp := (journalPathFor (titleId inp)).
Local Abbreviation same := (same view).

(** The dump is named without a slash at the end, outside the console's own places, and neither its
    parking place nor its journal lies inside it. *)
Definition sane : Prop :=
  parkedPathFor (dump inp) = Some to /\ ~ theirs (dump inp) /\ apart (dump inp) to /\ apart (dump inp) jp.
Context (Hsane : sane).

Definition in_place (w : W) : Prop := view w (dump inp) = Some x /\ view w to = None.
Definition journaled (j : SwapJournal) (w : W) : Prop :=
  input j = inp /\ parked j = to /\ view w jp = Some (TextFile (Doc (journal_json j))).
Definition set_aside (w : W) : Prop := view w (dump inp) = None /\ view w to = Some x.
(** Set aside, and the console has a journal that says so. *)
Definition parked_safely (w : W) : Prop := set_aside w /\ exists j, journaled j w.
Definition unheard (w : W) : Prop := set_aside w /\ ~ move_tells view answers.
Definition safe (w : W) : Prop := in_place w \/ parked_safely w \/ unheard w.

(** Before a call of [runSwap]: the package is installed only while the dump is set aside, and nothing is
    deleted but the journal. *)
Definition careful (c : Cmd) (w : W) : Prop :=
  match c with Install _ => parked_safely w | Remove p => p = jp | _ => True end.

Lemma sane_paths : ~ theirs (dump inp) /\ ~ theirs to /\ ~ theirs jp /\ apart (dump inp) to /\ apart (dump inp) jp /\ apart to jp.
Proof.
  destruct Hsane as (Hp & Hd & Hdt & Hdj). split_and!; try done.
  - by eapply parked_not_theirs.
  - apply journal_not_theirs.
  - by eapply parked_journal_apart.
Qed.
Lemma apart_ne a b : apart a b -> a <> b.
Proof. intros [H _] ->. apply H. by left. Qed.

Lemma same_in_place w w' : same w w' -> in_place w -> in_place w'.
Proof. intros H. destruct sane_paths as (? & ? & _). unfold in_place. by rewrite !H. Qed.
Lemma same_set_aside w w' : same w w' -> set_aside w -> set_aside w'.
Proof. intros H. destruct sane_paths as (? & ? & _). unfold set_aside. by rewrite !H. Qed.
Lemma same_journaled j w w' : same w w' -> journaled j w -> journaled j w'.
Proof. intros H. destruct sane_paths as (_ & _ & ? & _). unfold journaled. by rewrite H. Qed.
Lemma same_parked w w' : same w w' -> parked_safely w -> parked_safely w'.
Proof. intros H [Ha [j Hj]]. split; [by eapply same_set_aside|]. exists j. by eapply same_journaled. Qed.

Local Abbreviation wp := (wp answers safe careful).
Hint Resolve same_in_place same_set_aside same_journaled same_parked : core.

Lemma wp_ask S c Q w :
  safe w -> careful c w -> (forall r w', answers w c r w' -> safe w' /\ Q r w') -> wp S (ask c) Q w.
Proof. apply wp_call. Qed.

(** Looking leaves everything as it was. *)
Lemma quiet_wp S c (P : W -> Prop) Q w :
  quiet c -> P w -> careful c w -> (forall w, P w -> safe w) -> (forall w w', same w w' -> P w -> P w') ->
  (forall r w', answers w c r w' -> P w' -> Q r w') -> wp S (ask c) Q w.
Proof.
  intros Hq HP Hc Hsafe Hsame HQ. apply wp_ask; [auto|done|]. intros r w' Hr.
  assert (P w') by (eapply Hsame; [by eapply (quiet_spec view clock answers)|done]). auto.
Qed.

(** Writing the journal keeps the items where they are; a failed write leaves the old journal. *)
Lemma write_place w p t w' : written view p t w w' -> p = jp -> (in_place w -> in_place w') /\ (set_aside w -> set_aside w').
Proof.
  intros [_ H] ->. destruct sane_paths as (Hd & Ht & _ & _ & Hdj & Htj).
  unfold in_place, set_aside. rewrite !H; [done|done|by apply apart_ne|done|by apply apart_ne].
Qed.
Lemma write_journal_wp S j (P : W -> Prop) Q w :
  input j = inp -> parked j = to -> P w -> (P = in_place \/ P = set_aside /\ exists j, journaled j w) ->
  (forall r w', P w' -> (r = inl tt -> journaled j w') ->
     ((exists j0, journaled j0 w) -> exists j0, journaled j0 w') -> Q r w') -> wp S (writeJournal j) Q w.
Proof.
  intros Hi Hp HP Hor HQ. unfold writeJournal. rewrite Hi.
  assert (safe w) as Hs by (destruct Hor as [->|[-> Hj]]; [by left|right; left; by split]).
  apply (wp_ask S (WriteText jp (Doc (journal_json j)))); [done|done|]. intros r w' Hr. pose proof (write_spec view clock answers _ _ _ _ _ Hr) as Hw.
  assert (P w' /\ (r = inl tt -> journaled j w') /\ ((exists j0, journaled j0 w) -> exists j0, journaled j0 w')) as (HP' & Hj & Hk).
  { assert (written view jp (Doc (journal_json j)) w w' -> P w' /\ journaled j w') as Hwr.
    { intros Hwr. pose proof (write_place w _ _ _ Hwr eq_refl) as [H1 H2]. split.
      - destruct Hor as [->|[-> _]]; auto.
      - split; [done|]. split; [done|]. apply Hwr. }
    assert (same w w' -> P w') as Hsm by (intros H; destruct Hor as [->|[-> _]]; eauto).
    destruct r as [[]|e].
    - destruct (Hwr Hw). split; [done|]. split; [done|]. intros _. by exists j.
    - destruct Hw as [Hw|Hw]; [split; [auto|]; split; [done|]; intros [j0 Hj0]; exists j0; eauto|].
      destruct (Hwr Hw). split; [done|]. split; [done|]. intros _. by exists j. }
  split; [|auto]. destruct Hor as [->|[-> Hj0]]; [by left|right; left]. split; auto.
Qed.
(** The journal goes only once the dump is in place again (or no dump was moved that we know of). *)
Lemma remove_journal_wp S (P : W -> Prop) Q w :
  P w -> (P = in_place \/ P = unheard) ->
  (forall r w', answers w (Remove jp) r w' -> P w' -> (r = inl tt -> view w' jp = None) -> Q r w') -> wp S (ask (Remove jp)) Q w.
Proof.
  intros HP Hor HQ. assert (forall w, P w -> safe w) as Hs by (intros w'; destruct Hor as [->| ->]; [by left|by right; right]).
  apply (wp_ask S (Remove jp)); [auto|done|]. intros r w' Hr.
  destruct (remove_spec view clock answers _ _ _ _ Hr) as [Ho Hg].
  destruct sane_paths as (Hd & Ht & _ & _ & Hdj & Htj).
  assert (P w') as HP'.
  { destruct Hor as [->| ->]; unfold in_place, unheard, set_aside in *; (rewrite !Ho; [done|done| |done|]); [apply Htj|apply Hdj|apply Htj|apply Hdj]. }
  auto.
Qed.

Lemma parked_safe w : parked_safely w -> safe w.
Proof. by right; left. Qed.
Hint Resolve parked_safe : core.

(** A move of what is there, on to the other of its two places. *)
Lemma moved_back w w' : set_aside w -> moved view to (dump inp) w w' -> in_place w'.
Proof. intros [_ Ht] (_ & _ & H1 & H2 & _). unfold in_place. by rewrite H1, H2. Qed.
Lemma moved_aside w w' : in_place w -> moved view (dump inp) to w w' -> set_aside w'.
Proof. intros [Hd _] (_ & _ & H1 & H2 & _). unfold set_aside. by rewrite H1, H2. Qed.

(** The console refuses only what cannot be done. *)
Definition doable (w : W) (c : Cmd) : Prop :=
  match c with
  | Move a b => is_Some (view w a) /\ view w b = None
  | ReadText p => match view w p with None | Some (TextFile _) => True | _ => False end
  | _ => True
  end.
Definition talks : Prop := forall w c e w', doable w c -> ~ answers w c (inr e) w'.

Lemma rollback_wp S j w :
  input j = inp -> parked j = to -> parked_safely w ->
  wp S (rollbackSwap j)
    (fun r w' => match r with inl _ => in_place w' /\ view w' jp = None | inr _ => safe w' /\ ~ talks end) w.
Proof.
  intros Hi Hp HP. destruct sane_paths as (Hd & Ht & Hj & Hdt & _). unfold rollbackSwap. rewrite Hi, Hp.
  apply wp_bind, (quiet_wp S (Exists to) parked_safely); [done|done|done|auto|eauto|]. intros [b|e] w1 H1 HP1; [|split; [auto|intros Hk; exact (Hk w (Exists to) e w1 I H1)]].
  assert (b = true) as ->.
  { apply (exists_spec view clock answers _ _ _ _ Ht H1). destruct HP as [[_ ->] _]. by eexists. }
  apply wp_bind, wp_bind, (quiet_wp S (Exists (dump inp)) parked_safely); [done|done|done|auto|eauto|].
  intros [b|e] w2 H2 HP2; [|split; [auto|intros Hk; exact (Hk w1 (Exists (dump inp)) e w2 I H2)]].
  assert (b = false) as ->.
  { apply not_true_iff_false. intros Hb%(exists_spec view clock answers _ _ _ _ Hd H2). destruct HP1 as [[Hn _] _].
    rewrite Hn in Hb. by destruct Hb. }
  apply (wp_ask S (Move to (dump inp))); [auto|done|]. intros r w3 H3. pose proof H3 as Hk3.
  apply (move_spec view clock answers) in H3; [|intros E; symmetry in E; by apply (apart_ne _ _ Hdt)].
  destruct r as [[]|e].
  - assert (in_place w3) by (eapply moved_back; [apply HP2|done]). split; [by left|].
    apply (remove_journal_wp S in_place); [done|by left|]. intros [[]|e] w4 H4 Hin Hg; [by auto|].
    split; [by left|]. intros Hk. exact (Hk w3 (Remove jp) e w4 I H4).
  - assert (safe w3); [|split; [done|]; split; [done|]; intros Hk].
    2:{ refine (Hk _ (Move to (dump inp)) _ _ _ Hk3). destruct HP2 as [[Hn Hsome] _]. simpl. rewrite Hsome. by split; [eexists|]. }
    destruct H3 as [H3|H3]; [eauto|]. left. eapply moved_back; [apply HP2|done].
Qed.

(** What a swap answers is how it is: installed, with the dump parked and its journal there; or put back, with
    no journal left; or, where a move that is said to have failed did not happen, neither, with the dump in
    its place or, as the message then says, parked with its journal. *)
Definition told (r : SwapResult) (w : W) : Prop :=
  (ok r = true -> exists j, journal r = Some j /\ input j = inp /\ parked j = to /\ j_step j = InstalledStep /\ parked_safely w) /\
  (rolledBack r = true -> in_place w /\ view w jp = None) /\
  (ok r = false -> rolledBack r = false -> move_tells view answers ->
     in_place w \/ (parked_safely w /\ exists why e, message r = Some (why ++ js " Moving the dump back failed too (" ++ e ++ js "); it is at " ++ to ++
       js ". Convert lists this swap so you can roll it back."))).
Definition answer (r : SwapResult + str) (w : W) : Prop :=
  match r with inl r => told r w | inr _ => in_place w end.

Lemma told_failed m w : (move_tells view answers -> in_place w) -> told (failed m) w.
Proof. intros H. split_and!; [done|done|]. intros _ _ Ht. left. by apply H. Qed.
Lemma safe_tells w : safe w -> (in_place w \/ set_aside w) /\ (move_tells view answers -> in_place w \/ parked_safely w).
Proof. intros [H|[H|[H Hn]]]; (split; [|intros Ht]); try done; [by left|by left|right; apply H|by right|by right]. Qed.
Lemma undo_wp S j why w : input j = inp -> parked j = to -> parked_safely w -> wp S (undo j why) answer w.
Proof.
  intros Hi Hp HP. unfold undo. apply wp_catch, wp_bind. eapply wp_impl; [by apply rollback_wp|].
  intros [[]|e] w' HI H; [split; [done|by split_and!]|]. split; [apply H|]. split_and!; [done|done|]. intros _ _ Ht.
  destruct (proj2 (safe_tells _ (proj1 H)) Ht) as [?|?]; [by left|right]. split; [done|]. exists why, e. simpl. by rewrite Hp.
Qed.

Lemma wait_release_wp (S : Prop) polls t deadline w : parked_safely w ->
  ((1 <= polls)%nat /\ deadline <= clock w + RELEASE_POLL_MS * (Z.of_nat polls - 1)) \/ S ->
  wp S (wait_release polls t deadline) (fun r w' => parked_safely w' /\ exists b, r = inl b) w.
Proof.
  revert w. induction polls as [|polls IH]; intros w HP HS.
  { split; [by apply parked_safe|]. destruct HS as [[? _]|?]; [lia|done]. }
  cbn [wait_release]. apply wp_bind, wp_catch, wp_bind.
  apply (quiet_wp S (ListDir (js "/user/app/" ++ t)) parked_safely); [done|done|done|auto|eauto|].
  assert (forall (released : bool) w1, clock w <= clock w1 -> parked_safely w1 ->
    wp S (if released then Ret true
        else do t0 <- ask Now in
             if deadline <=? t0 then Ret false
             else do _ <- ask (Sleep RELEASE_POLL_MS) in wait_release polls t deadline)
       (fun r w' => parked_safely w' /\ exists b, r = inl b) w1) as Hrest.
  { intros [|] w1 Hc1 HP1; [split; [auto|eauto]|].
    apply wp_bind, (quiet_wp S Now parked_safely); [done|done|done|auto|eauto|]. intros r w2 H2 HP2.
    pose proof (clock_spec view clock answers _ _ _ _ H2).
    rewrite (now_spec view clock answers _ _ _ H2). destruct (Z.leb_spec deadline (clock w1)) as [?|Hlate]; [split; [auto|eauto]|].
    apply wp_bind, (quiet_wp S (Sleep RELEASE_POLL_MS) parked_safely); [done|done|done|auto|eauto|]. intros r' w3 H3 HP3.
    destruct (sleep_spec view clock answers _ _ _ _ H3) as [-> Hc3]. apply IH; [done|].
    destruct HS as [[Hn HS]|HS]; [left|by right]. unfold RELEASE_POLL_MS in *. destruct polls; [lia|]. split; [lia|]. lia. }
  intros [l|e] w1 H1 HP1; pose proof (clock_spec view clock answers _ _ _ _ H1);
    (split; [auto|]); [exact (Hrest _ w1 H HP1)|exact (Hrest false w1 H HP1)].
Qed.

Lemma ignore_wp S (p : Prog unit) Q w :
  wp S p (fun _ w' => safe w' -> Q (inl tt) w') w -> wp S (ignore p) Q w.
Proof.
  intros H. apply wp_catch. eapply wp_impl; [exact H|]. intros [[]|e] w' Hs HQ; [auto|split; auto].
Qed.

(** The journal of a parked dump is rewritten with its next step. *)
Lemma rewrite_journal_wp S j Q w : input j = inp -> parked j = to -> parked_safely w ->
  (forall w', parked_safely w' -> Q (inl tt) w') -> wp S (ignore (writeJournal j)) Q w.
Proof.
  intros Hi Hp [Ha Hj] HQ. apply ignore_wp.
  apply (write_journal_wp S j set_aside); [done|done|done|right; by split|].
  intros r w' Ha' _ Hk _. apply HQ. split; [done|]. by apply Hk.
Qed.

Lemma installed_wp S j i w : input j = inp -> parked j = to -> parked_safely w -> wp S (installed j i) answer w.
Proof.
  intros Hi Hp HP. unfold installed. destruct (i_ok i); cbn [negb]; [|by apply undo_wp].
  apply wp_bind, rewrite_journal_wp; [done..|]. intros w' HP'. split; [auto|]. split; [intros _|].
  - eexists. split; [reflexivity|]. done.
  - by split.
Qed.
Lemma install_package_wp S j w : input j = inp -> parked j = to -> parked_safely w -> wp S (install_package j) answer w.
Proof.
  intros Hi Hp HP. unfold install_package.
  apply wp_bind, rewrite_journal_wp; [done..|]. intros w1 HP1.
  apply wp_bind, wp_catch, (quiet_wp S (Install _) parked_safely); [done|done|done|auto|eauto|].
  intros [i|e] w2 _ HP2; [|split; [auto|]]; by apply installed_wp.
Qed.
Lemma release_install_wp S polls j w : (31 <= polls)%nat \/ S -> input j = inp -> parked j = to -> parked_safely w ->
  wp S (release_install polls j) answer w.
Proof.
  intros HS Hi Hp HP. unfold release_install.
  apply wp_bind, (quiet_wp S Now parked_safely); [done|done|done|auto|eauto|]. intros r w1 H1 HP1.
  pose proof (clock_spec view clock answers _ _ _ _ H1). rewrite (now_spec view clock answers _ _ _ H1). clear r H1.
  apply wp_bind. eapply wp_impl; [apply wait_release_wp; [done|]|].
  { destruct HS as [HS|HS]; [left|by right]. unfold RELEASE_POLL_MS, RELEASE_TIMEOUT_MS. lia. }
  intros r w2 _ (HP2 & b & ->).
  destruct b; cbn [negb]; [|by apply undo_wp].
  apply wp_bind, wp_catch, wp_bind, (quiet_wp S (IsRegistered _) parked_safely); [done|done|done|auto|eauto|].
  intros [reg|e] w3 _ HP3; [|split; [auto|by apply undo_wp]].
  apply wp_bind. destruct reg; [|split; [auto|]; split; [auto|]; by apply install_package_wp].
  apply (quiet_wp S (Unregister _) parked_safely); [done|done|done|auto|eauto|].
  intros [u|e] w4 _ HP4; (split; [auto|]); [by apply install_package_wp|by apply undo_wp].
Qed.

(** Making a folder on the way leaves what is there, and the free names that are not on the way. *)
Lemma mkdir_wp S d (Q : unit + str -> W -> Prop) w :
  ~ within to d -> in_place w ->
  (forall r w', in_place w' -> (forall j, journaled j w -> journaled j w') -> Q r w') -> wp S (ask (Mkdir d)) Q w.
Proof.
  intros Hd HP HQ. destruct sane_paths as (Hsd & Hst & Hsj & _).
  apply (wp_ask S (Mkdir d)); [by left|done|]. intros r w' Hr.
  assert (forall j, journaled j w -> journaled j w') as Hj.
  { intros j (Hi & Hp & Hj). split; [done|]. split; [done|].
    destruct (mkdir_spec view clock answers _ _ _ _ _ Hr Hsj) as [H|(H & _)]; congruence. }
  assert (in_place w') as HP'; [|split; [by left|auto]]. destruct HP as [Hdump Hto]. split.
  - destruct (mkdir_spec view clock answers _ _ _ _ _ Hr Hsd) as [H|(H & _)]; congruence.
  - destruct (mkdir_spec view clock answers _ _ _ _ _ Hr Hst) as [H|(_ & _ & H)]; [congruence|done].
Qed.

Lemma runSwap_wp S polls w : (31 <= polls)%nat \/ S -> in_place w -> wp S (runSwap polls inp) answer w.
Proof.
  intros HS HP. destruct Hsane as (Hpark & _). destruct sane_paths as (Hd & Ht & Hj & Hdt & Hdj & Htj).
  unfold runSwap. rewrite Hpark.
  assert (forall m w, in_place w -> wp S (Ret (failed m)) answer w) as Hfail by (intros; split; [by left|by apply told_failed]).
  assert (forall c Q w, quiet c -> in_place w -> careful c w ->
    (forall r w', answers w c r w' -> in_place w' -> Q r w') -> wp S (ask c) Q w) as Hlook.
  { intros c Q w0 Hq HP0 Hc HQ. apply (quiet_wp S c in_place); try done; [by left|eauto]. }
  apply wp_bind, (Hlook (IsRunning _)); [done..|]. intros [[|]|e] w1 _ HP1; [by apply Hfail| |done].
  apply wp_bind, (Hlook (Exists to)); [done..|]. intros [[|]|e] w2 _ HP2; [by apply Hfail| |done].
  apply wp_bind, (Hlook (Exists (dump inp))); [done..|]. intros [[|]|e] w3 _ HP3; [|by apply Hfail|done]. cbn [negb].
  apply wp_bind, (Hlook Now); [done..|]. intros r w4 H4 HP4. rewrite (now_spec view clock answers _ _ _ H4). clear r H4.
  set (j := {| input := inp; parked := to; j_step := Parking; at_ := clock w3 |}).
  apply wp_bind, wp_catch, wp_bind.
  (* giving up before the move is known to have happened *)
  assert (forall e (P : W -> Prop) w, P w -> P = in_place \/ P = unheard ->
    wp S (do _ <- ignore (ask (Remove jp)) in Ret (failed (js "Couldn't park the dump: " ++ e))) answer w) as Hgive.
  { intros e P w' HP' Hor. apply wp_bind, ignore_wp, (remove_journal_wp S P); [done|done|].
    intros r w5 _ HP5 _ Hs. split; [exact Hs|]. apply told_failed. intros Hmt. destruct Hor as [->| ->]; [done|by destruct HP5]. }
  assert (forall e w, in_place w -> wp S (Ret (Some e)) (fun r w' => match r with
    | inl x => wp S match x with
        | Some e0 => do _ <- ignore (ask (Remove jp)) in Ret (failed (js "Couldn't park the dump: " ++ e0))
        | None => do _ <- ignore (writeJournal (with_step Parked j)) in release_install polls (with_step Parked j) end answer w'
    | inr e0 => answer (inr e0) w' end) w) as Hthrow.
  { intros e w' HP'. split; [by left|]. apply (Hgive e in_place); [done|by left]. }
  apply mkdir_wp; [by apply (parked_dir_apart _ _ Hpark)|done|]. intros [u|e] w5 HP5 _; [|by apply Hthrow].
  apply wp_bind, (write_journal_wp S j in_place); [done|done|done|by left|]. intros [[]|e] w6 HP6 Hj6 Hk6; [|by apply Hthrow].
  specialize (Hj6 eq_refl). apply wp_bind.
  apply mkdir_wp; [by apply (parked_dir_apart _ _ Hpark)|done|]. intros [u2|e] w7 HP7 Hj7; [|by apply Hthrow].
  specialize (Hj7 _ Hj6). apply wp_bind, (wp_ask S (Move (dump inp) to)); [by left|done|]. intros r w8 H8.
  pose proof (move_spec view clock answers _ _ _ _ _ (apart_ne _ _ Hdt) H8) as Hm.
  destruct r as [[]|e].
  - pose proof (moved_aside _ _ HP7 Hm) as Ha.
    assert (journaled j w8) as Hj8.
    { destruct Hj7 as (? & ? & Hj7), Hm as (_ & _ & _ & _ & Ho). split; [done|]. split; [done|].
      rewrite Ho; [exact Hj7|done|apply Hdj|apply Htj]. }
    assert (parked_safely w8) as HP8 by (split; [done|by exists j]).
    split; [auto|]. split; [auto|].
    apply wp_bind, rewrite_journal_wp; [done..|]. intros w9 HP9. by apply release_install_wp.
  - destruct Hm as [Hm|Hm]; [assert (in_place w8) by eauto; split; [by left|by apply Hthrow]|].
    pose proof (moved_aside _ _ HP7 Hm) as Ha.
    assert (unheard w8) as Hu.
    { split; [done|]. intros Htell. pose proof (Htell _ _ _ _ _ H8 to Ht) as Hsame.
      destruct Ha as [_ Ha], HP7 as [_ HP7]. congruence. }
    split; [by right; right|]. split; [by right; right|]. apply (Hgive e unheard); [done|by right].
Qed.

(** ** Finding the swap again *)

Definition waits (j : SwapJournal) (w : W) : Prop := set_aside w /\ journaled j w.
Lemma waits_safe j w : waits j w -> safe w.
Proof. intros [? ?]. right; left. split; [done|by exists j]. Qed.
Lemma waits_same j w w' : same w w' -> waits j w -> waits j w'.
Proof. intros H [? ?]. split; eauto. Qed.

Lemma is_journal_json j : titleId (input j) <> [] -> dump (input j) <> [] -> parked j <> [] -> is_journal (journal_json j) = true.
Proof.
  intros Ht Hd Hp. unfold is_journal, journal_json, get. cbn -[js].
  by destruct (titleId (input j)), (dump (input j)), (parked j).
Qed.

Lemma dir_file_not_theirs n : ~ theirs (JOURNAL_DIR ++ js "/" ++ n).
Proof. apply theirs_parted; intros s H; done. Qed.

Lemma read_each_wp S j names (Hn : titleId inp <> []) (Hk : talks) w :
  waits j w ->
  wp S (read_each names)
    (fun r w' => waits j w' /\ exists js', r = inl js' /\ (titleId inp ++ js ".json" ∈ names -> journal_json j ∈ js')) w.
Proof.
  revert w. induction names as [|n names IH]; intros w Hw; cbn [read_each].
  { split; [by eapply waits_safe|]. split; [done|]. exists []. split; [done|]. by intros ?%elem_of_nil. }
  destruct (ends_with (js ".json") n) eqn:En; cbn [negb].
  2:{ eapply wp_impl; [by apply IH|]. intros r w' _ (Hw' & l & -> & Hl). split; [done|]. exists l. split; [done|].
      intros [<-|Hin]%elem_of_cons; [|auto]. apply bool_decide_eq_false in En. destruct En. by exists (titleId inp). }
  apply wp_bind, wp_catch, (quiet_wp S (ReadText _) (waits j)); [done|done|done|apply waits_safe|apply waits_same|].
  assert (view w (JOURNAL_DIR ++ js "/" ++ titleId inp ++ js ".json") = Some (TextFile (Doc (journal_json j)))) as Hj by apply Hw.
  intros [t|e] w1 H1 Hw1.
  2:{ split; [by eapply waits_safe|]. apply wp_bind. eapply wp_impl; [by apply IH|]. intros r w' HI (Hw' & l & -> & Hl).
      split; [exact HI|]. split; [done|]. eexists. split; [done|]. intros [<-|Hin]%elem_of_cons; [|by apply Hl].
      exfalso. eapply (Hk w (ReadText _)); [|exact H1]. unfold doable. by rewrite Hj. }
  apply wp_bind. eapply wp_impl; [by apply IH|]. intros r w' HI (Hw' & l & -> & Hl).
  split; [exact HI|]. split; [done|]. eexists. split; [done|]. intros [<-|Hin]%elem_of_cons; apply elem_of_app; [left|auto].
  apply (read_spec view clock answers _ _ _ _ (dir_file_not_theirs _)) in H1.
  destruct Hw as [_ (Hi & Hp & _)].
  destruct t as [t|]; [|congruence]. rewrite Hj in H1. injection H1 as <-. cbn [mbind option_bind parse].
  rewrite is_journal_json; [left|by rewrite Hi| |].
  - rewrite Hi. intros E. destruct Hsane as (Hs & _). rewrite E in Hs. by vm_compute in Hs.
  - rewrite Hp. intros E. destruct Hsane as (Hs & _). apply parkedPathFor_shape in Hs as (v & nm & Hs & _). rewrite E in Hs.
    by destruct v.
Qed.

Lemma readJournals_wp S j (Hn : titleId inp <> []) (Hsl : slash ∉ titleId inp) (Hk : talks) w : waits j w ->
  wp S readJournals (fun r w' => waits j w' /\ exists js', r = inl js' /\ journal_json j ∈ js') w.
Proof.
  intros Hw. unfold readJournals. apply wp_bind, wp_catch, (quiet_wp S (ListDir JOURNAL_DIR) (waits j)); [done|done|done|apply waits_safe|apply waits_same|].
  intros [l|e] w1 H1 Hw1; [|by destruct (Hk w (ListDir JOURNAL_DIR) e w1 I)].
  eapply wp_impl; [by apply read_each_wp|]. intros r w' _ (Hw' & js' & -> & Hjs). split; [done|]. exists js'. split; [done|].
  apply Hjs. assert (~ theirs JOURNAL_DIR) as Hd by (apply theirs_parted; intros s H; done).
  apply (list_spec view clock answers _ _ _ _ (titleId inp ++ js ".json") Hd H1).
  - by destruct (titleId inp).
  - set_solver.
  - destruct Hw as [_ (_ & _ & Hj)]. by eexists.
Qed.
End swap.

(** * The claims *)

Section claims.
Context {X W : Type} (view : W -> str -> option (File X)) (clock : W -> Z)
  (answers : W -> forall c, reply c + str -> W -> Prop) `{!ConsoleSpec view clock answers}.


(** a swap ends: with 31 looks at what ShadowMountPlus still holds (90 s, one look every 3 s) no run of it
    waits for ever, on a console that answers or refuses every call. *)
Theorem swap_ends inp to (x : File X) polls w0 (Hsane : sane inp to) (Hplace : in_place view inp to x w0)
  (Hpolls : (31 <= polls)%nat) (Hanswers : forall w c, exists r w', answers w c r w') p w :
  rtc (step answers) (runSwap polls inp, w0) (p, w) ->
  exists p' w', rtc (step answers) (p, w) (p', w') /\ finished p'.
Proof.
  intros Hr.
  pose proof (runSwap_wp view clock answers inp to x Hsane False polls w0 ltac:(auto) Hplace) as H.
  apply (wp_reach _ _ _ _ _ _ _ Hr) in H. destruct (wp_ends answers _ _ p _ w Hanswers H) as (p' & w' & ? & ? & _). eauto.
Qed.

End claims.

(** * A console with faults

    What the witnesses run on. A call works, is refused, or works and its answer is lost. *)

Inductive Fault := Works | Refused | Lost.
Record Machine := { files : gmap str (File nat); clk : Z; faults : list Fault; installs : bool }.
#[export] Instance settable_machine : Settable Machine := fun w => {|
  files := files w; clk := clk w; faults := faults w; installs := installs w |}.
Definition shows (w : Machine) (p : str) : option (File nat) := files w !! p.

(** The names directly in a folder. *)
Definition names_in (w : Machine) (d : str) : list str :=
  omap (fun p => if starts_with (d ++ [slash]) p then
                   let n := drop (length d + 1) p in
                   if bool_decide (slash ∈ n) || bool_decide (n = []) then None else Some n
                 else None) (elements (dom (files w))).
(** A call that works. *)
Definition perform (w : Machine) (c : Cmd) : (reply c + str) * Machine :=
  match c return (reply c + str) * Machine with
  | Exists p => (inl (bool_decide (is_Some (shows w p))), w)
  | Mkdir p => (inl tt, match shows w p with None => w <| files := <[p := Folder]> (files w) |> | Some _ => w end)
  | Move a b =>
      match shows w a, shows w b with
      | Some f, None => (inl tt, w <| files := <[b := f]> (delete a (files w)) |>)
      | _, _ => (inr (js "fs_move_failed"), w)
      end
  | WriteText p t => (inl tt, w <| files := <[p := TextFile t]> (files w) |>)
  | ReadText p => (match shows w p with None => inl None | Some (TextFile t) => inl (Some t) | Some _ => inr (js "not a text") end, w)
  | Remove p => (inl tt, w <| files := delete p (files w) |>)
  | ListDir d => (inl (names_in w d), w)
  | IsRunning _ => (inl false, w)
  | IsRegistered _ => (inl true, w)
  | Unregister _ => (inl tt, w)
  | Install _ => (inl {| i_ok := installs w; i_message := None |}, w)
  | Sleep ms => (inl tt, w <| clk := clk w + Z.max 0 ms |>)
  | Now => (inl (clk w), w)
  end.
Definition timeless (c : Cmd) : bool := match c with Sleep _ | Now => true | _ => false end.
(** How the console is reached: without faults, with calls refused, or with answers lost too. *)
Inductive Link := Perfect | Clear | Lossy.
Definition respond (link : Link) (w : Machine) (c : Cmd) : (reply c + str) * Machine :=
  if timeless c || match link with Perfect => true | _ => false end then perform w c
  else
    let w1 := w <| faults := tail (faults w) |> in
    match head (faults w) with
    | Some Refused => (inr (js "refused"), w1)
    | Some Lost => match link with Lossy => (inr (js "timeout"), (perform w1 c).2) | _ => (inr (js "refused"), w1) end
    | _ => perform w1 c
    end.
Definition machine (link : Link) (w : Machine) (c : Cmd) (r : reply c + str) (w' : Machine) : Prop :=
  respond link w c = (r, w').

Lemma names_in_spec w d n : n <> [] -> slash ∉ n -> (n ∈ names_in w d <-> is_Some (shows w (d ++ js "/" ++ n))).
Proof.
  intros Hn Hs. unfold names_in. rewrite list_elem_of_omap. change (js "/") with [slash]. split.
  - intros (p & Hp & Hf). destruct (starts_with (d ++ [slash]) p) eqn:E; [|done]. apply starts_with_true in E as [k ->].
    rewrite <- (assoc_L (++)), drop_app_add in Hf. cbn [drop app] in Hf. destruct (_ || _) in Hf; [done|]. injection Hf as <-.
    apply elem_of_elements, elem_of_dom in Hp. by rewrite <- (assoc_L (++)) in Hp.
  - intros H. exists (d ++ [slash] ++ n). split; [by apply elem_of_elements, elem_of_dom|].
    assert (starts_with (d ++ [slash]) (d ++ [slash] ++ n) = true) as ->.
    { apply starts_with_true. exists n. by rewrite <- (assoc_L (++)). }
    rewrite drop_app_add. cbn [drop app]. by rewrite !bool_decide_eq_false_2.
Qed.

(** What a call does, lost or not, refused or not. *)
Lemma machine_cases lossy w c r w' : machine lossy w c r w' ->
  (r, w') = perform w c \/
  exists w1, files w1 = files w /\ clk w1 = clk w /\
    ((r, w') = perform w1 c \/ (exists e, r = inr e /\ w' = w1) \/ (lossy = Lossy /\ exists e, r = inr e /\ w' = (perform w1 c).2)).
Proof.
  unfold machine, respond. destruct (_ || _); [intros <-; by left|]. intros H. right. exists (w <| faults := tail (faults w) |>).
  split; [done|]. split; [done|]. destruct (head (faults w)) as [[| |]|].
  - left. by rewrite <- H.
  - right. left. injection H as <- <-. eauto.
  - destruct lossy; injection H as <- <-; [right; left|right; left|right; right]; eauto.
  - left. by rewrite <- H.
Qed.

Lemma perform_clk w c : clk w <= clk (perform w c).2.
Proof.
  destruct c; cbn [perform snd]; try lia; try (simpl; lia).
  - destruct (shows w p); simpl; lia.
  - destruct (shows w from), (shows w to); simpl; lia.
Qed.
Lemma perform_quiet w c p : quiet c -> shows (perform w c).2 p = shows w p.
Proof. by destruct c. Qed.
Lemma shows_files w w' p : files w' = files w -> shows w' p = shows w p.
Proof. unfold shows. by intros ->. Qed.
Lemma within_refl p : within p p.
Proof. by left. Qed.

#[export] Instance machine_spec lossy : ConsoleSpec shows clk (machine lossy).
Proof.
  split.
  - intros w c r w' Hq Hr p _. apply machine_cases in Hr as [H|(w1 & Hf & _ & [H|[(e & _ & ->)|(_ & e & _ & ->)]])].
    + apply (f_equal snd) in H. simpl in H. rewrite H. by apply perform_quiet.
    + apply (f_equal snd) in H. simpl in H. rewrite H, perform_quiet by done. by apply shows_files.
    + by apply shows_files.
    + rewrite perform_quiet by done. by apply shows_files.
  - intros w p b w' _ Hr. apply machine_cases in Hr as [H|(w1 & Hf & _ & [H|[(e & ? & _)|(_ & e & ? & _)]])]; [| |done|done];
      injection H as -> _; rewrite bool_decide_eq_true; unfold shows; by rewrite ?Hf.
  - intros w p o w' _ Hr. apply machine_cases in Hr as [H|(w1 & Hf & _ & [H|[(e & ? & _)|(_ & e & ? & _)]])]; [| |done|done];
      cbn [perform] in H; unfold shows in *; rewrite ?Hf in H; destruct (files w !! p) as [[]|]; simplify_eq/=; done.
  - intros w d l w' n _ Hr Hn Hs. apply machine_cases in Hr as [H|(w1 & Hf & _ & [H|[(e & ? & _)|(_ & e & ? & _)]])]; [| |done|done];
      injection H as -> _; rewrite names_in_spec by done; unfold shows; by rewrite ?Hf.
  - intros w p r w' q Hr _.
    assert (forall w1 : Machine, files w1 = files w -> shows (perform w1 (Mkdir p)).2 q = shows w q \/
      (shows w q = None /\ shows (perform w1 (Mkdir p)).2 q = Some Folder /\ within q p)) as Hm.
    { intros w1 Hf. cbn [perform snd]. rewrite (shows_files w w1 p Hf). destruct (shows w p) eqn:Hp; [left; by apply shows_files|].
      destruct (decide (q = p)) as [->|Hne].
      - right. split; [done|]. split; [apply lookup_insert_eq|apply within_refl].
      - left. unfold shows. simpl. rewrite lookup_insert_ne by done. by rewrite Hf. }
    apply machine_cases in Hr as [H|(w1 & Hf & _ & [H|[(e & _ & ->)|(_ & e & _ & ->)]])].
    + apply (f_equal snd) in H. simpl in H. rewrite H. by apply Hm.
    + apply (f_equal snd) in H. simpl in H. rewrite H. by apply Hm.
    + left. by apply shows_files.
    + by apply Hm.
  - intros w a b r w' Hab Hr.
    assert (forall w1 : Machine, files w1 = files w -> match (perform w1 (Move a b)).1 with
      | inl _ => moved shows a b w (perform w1 (Move a b)).2
      | inr _ => same shows w (perform w1 (Move a b)).2 end) as Hm.
    { intros w1 Hf. cbn [perform]. rewrite !(shows_files w w1 _ Hf). destruct (shows w a) as [f|] eqn:Ha, (shows w b) eqn:Hb;
        try (intros p _; by apply shows_files). unfold shows in Ha, Hb. split_and!; unfold shows; simpl.
      - rewrite Ha. by eexists.
      - done.
      - by rewrite lookup_insert_eq, Ha.
      - rewrite lookup_insert_ne by done. apply lookup_delete_eq.
      - intros q _ Hqa Hqb. rewrite lookup_insert_ne, lookup_delete_ne by (intros <-; (by apply Hqa, within_refl) || by apply Hqb, within_refl).
        by rewrite Hf. }
    apply machine_cases in Hr as [H|(w1 & Hf & _ & [H|[(e & -> & ->)|(_ & e & -> & ->)]])].
    + specialize (Hm w eq_refl). rewrite <- H in Hm. destruct r; [done|by left].
    + specialize (Hm w1 Hf). rewrite <- H in Hm. destruct r; [done|by left].
    + left. intros p _. by apply shows_files.
    + specialize (Hm w1 Hf). destruct (perform w1 (Move a b)).1; [by right|by left].
  - intros w p t r w' Hr.
    assert (forall w1 : Machine, files w1 = files w -> written shows p t w (perform w1 (WriteText p t)).2) as Hm.
    { intros w1 Hf. unfold written, shows. simpl. split; [apply lookup_insert_eq|]. intros q _ Hq. by rewrite lookup_insert_ne, Hf. }
    apply machine_cases in Hr as [H|(w1 & Hf & _ & [H|[(e & -> & ->)|(_ & e & -> & ->)]])].
    + injection H as -> ->. by apply Hm.
    + injection H as -> ->. by apply Hm.
    + left. intros q _. by apply shows_files.
    + right. by apply Hm.
  - intros w p r w' Hr.
    assert (forall w1 : Machine, files w1 = files w -> (forall q, ~ within p q -> shows (perform w1 (Remove p)).2 q = shows w q) /\
      shows (perform w1 (Remove p)).2 p = None) as Hm.
    { intros w1 Hf. unfold shows. simpl. split; [|apply lookup_delete_eq]. intros q Hq.
      rewrite lookup_delete_ne, Hf by (intros ->; by apply Hq, within_refl). done. }
    apply machine_cases in Hr as [H|(w1 & Hf & _ & [H|[(e & -> & ->)|(_ & e & -> & ->)]])].
    + apply (f_equal snd) in H. simpl in H. rewrite H. destruct (Hm w eq_refl). auto.
    + apply (f_equal snd) in H. simpl in H. rewrite H. destruct (Hm w1 Hf). auto.
    + split; [|done]. intros q _ _. by apply shows_files.
    + destruct (Hm w1 Hf). split; [auto|done].
  - intros w c r w' Hr. apply machine_cases in Hr as [H|(w1 & _ & Hc & [H|[(e & _ & ->)|(_ & e & _ & ->)]])].
    + apply (f_equal snd) in H. simpl in H. rewrite H. apply perform_clk.
    + apply (f_equal snd) in H. simpl in H. rewrite H, <- Hc. apply perform_clk.
    + by rewrite Hc.
    + rewrite <- Hc. apply perform_clk.
  - intros w r w' Hr. by injection Hr as <- _.
  - intros w ms r w' Hr. injection Hr as <- <-. split; [done|]. simpl. lia.
Qed.
Lemma machine_tells : move_tells shows (machine Clear).
Proof.
  intros w a b e w' Hr p _. apply machine_cases in Hr as [H|(w1 & Hf & _ & [H|[(e' & _ & ->)|(? & _)]])]; [| | |done].
  - cbn [perform] in H. destruct (shows w a), (shows w b); by simplify_eq.
  - cbn [perform] in H. rewrite !(shows_files w w1 _ Hf) in H. destruct (shows w a), (shows w b); simplify_eq; by apply shows_files.
  - by apply shows_files.
Qed.

(** [n] calls of a routine. *)
Definition go {A} (lossy : Link) (s : Prog A * Machine) : Prog A * Machine :=
  match s.1 with Op c k => let '(r, w) := respond lossy s.2 c in (k r, w) | _ => s end.
Definition after {A} (lossy : Link) (n : nat) (p : Prog A) (w : Machine) : Prog A * Machine := Nat.iter n (go lossy) (p, w).
Lemma after_reach {A} lossy n (p : Prog A) w : rtc (step (machine lossy)) (p, w) (after lossy n p w).
Proof.
  unfold after. induction n as [|n IH]; [done|]. etransitivity; [exact IH|]. rewrite Nat.iter_succ.
  destruct (Nat.iter n (go lossy) (p, w)) as [q v]. destruct q as [x|e|c k|].
  1,2,4: apply rtc_refl.
  change (go lossy (Op c k, v)) with (let '(r, w) := respond lossy v c in (k r, w)).
  destruct (respond lossy v c) as [r v'] eqn:E. apply rtc_once. constructor. exact E.
Qed.
Lemma machine_answers lossy w c : exists r w', machine lossy w c r w'.
Proof. unfold machine. destruct (respond lossy w c) as [r w']. eauto. Qed.

Definition w_input : SwapInput :=
  {| titleId := js "PPSA1"; dump := js "/data/homebrew/G"; packagePath := js "/out/G.pkg" |}.
Definition w_parked : str := js "/data/ps5upload/parked/G".
Definition w_journal : str := journalPathFor (js "PPSA1").
Definition w_machine (fs : list Fault) (good : bool) : Machine :=
  {| files := {[js "/data/homebrew/G" := Item 1%nat]}; clk := 1000; faults := fs; installs := good |}.
Lemma w_sane : sane w_input w_parked.
Proof.
  split; [reflexivity|]. split; [apply theirs_parted; intros s H; done|].
  split; [apply (parted (js "/data/") "h" "p"); done|apply (parted (js "/data/") "h" "p"); done].
Qed.
Lemma w_placed fs good : in_place shows w_input w_parked (Item 1%nat) (w_machine fs good).
Proof. split; reflexivity. Qed.


Lemma swap_ends_witness :
  exists p' w', rtc (step (machine Lossy)) (runSwap 31 w_input, w_machine [] true) (p', w') /\ finished p'.
Proof.
  exact (swap_ends shows clk (machine Lossy) w_input w_parked (Item 1%nat) 31 (w_machine [] true) w_sane (w_placed _ _)
    ltac:(lia) (machine_answers Lossy) (runSwap 31 w_input) (w_machine [] true) (rtc_refl _ _)).
Defined.

Lemma perfect_tells : move_tells shows (machine Perfect).
Proof.
  intros w a b e w' Hr p _. unfold machine, respond in Hr. simpl in Hr. destruct (shows w a), (shows w b); by simplify_eq.
Qed.
Lemma perfect_talks : talks shows (machine Perfect).
Proof.
  intros w c e w' Hd Hr. unfold machine, respond in Hr. rewrite orb_true_r in Hr. destruct c; try done; simpl in *.
  - destruct Hd as [[f Ha] Hb]. by rewrite Ha, Hb in Hr.
  - destruct (shows w p) as [[]|]; done.
Qed.


(** ** What the swap does otherwise *)

(** The answer to the move is lost: the dump was parked, the swap says it could not park it, and the
    journal that named it is deleted: no list of unfinished swaps shows it. *)
Theorem lost_move_forgotten :
  let s := after Lossy 40 (runSwap 31 w_input) (w_machine [Works; Works; Works; Works; Works; Works; Lost] true) in
  s.1 = Ret (failed (js "Couldn't park the dump: timeout")) /\
  shows s.2 (dump w_input) = None /\ shows s.2 w_parked = Some (Item 1%nat) /\
  (after Perfect 40 readJournals s.2).1 = Ret [].
Proof. vm_compute. auto. Qed.

(** A second swap of the same title (another dump of it) while the first is unfinished overwrites its
    journal: the first dump stays parked and no journal names it. *)
Definition w_other : SwapInput := {| titleId := js "PPSA1"; dump := js "/mnt/ext1/G2"; packagePath := js "/out/G2.pkg" |}.
Theorem second_swap_forgets_first :
  let w0 := {| files := {[js "/data/homebrew/G" := Item 1%nat; js "/mnt/ext1/G2" := Item 2%nat]};
               clk := 1000; faults := []; installs := true |} in
  let w1 := (after Perfect 14 (runSwap 31 w_input) w0).2 in
  let w2 := (after Perfect 14 (runSwap 31 w_other) w1).2 in
  shows w2 w_parked = Some (Item 1%nat) /\ shows w2 (dump w_input) = None /\
  exists j, (after Perfect 40 readJournals w2).1 = Ret [j] /\ get "dump" j = Some (JStr (js "/mnt/ext1/G2")).
Proof. split; [vm_compute; reflexivity|]. split; [vm_compute; reflexivity|]. eexists. split; vm_compute; reflexivity. Qed.

(** The dump is back where it was and only the journal could not be deleted: the swap says that moving the
    dump back failed and that it is still parked. *)
Theorem rollback_misreported :
  let s := after Clear 40 (runSwap 31 w_input)
             (w_machine [Works; Works; Works; Works; Works; Works; Works; Works; Works; Works; Works; Works; Works;
                         Works; Works; Works; Refused] false) in
  shows s.2 (dump w_input) = Some (Item 1%nat) /\ shows s.2 w_parked = None /\
  s.1 = Ret (failed (js "The install did not finish. Moving the dump back failed too (refused); it is at /data/ps5upload/parked/G. Convert lists this swap so you can roll it back.")).
Proof. vm_compute. auto. Qed.

(** The last journal cannot be written: the package is installed, but the journal says it still installs,
    and what is offered for it is to put the dump back beside the installed package. *)
Theorem installed_swap_offered_rollback :
  let s := after Clear 40 (runSwap 31 w_input)
             (w_machine [Works; Works; Works; Works; Works; Works; Works; Works; Works; Works; Works; Works; Works; Refused] true) in
  (exists j, s.1 = Ret {| ok := true; message := None; rolledBack := false; journal := Some j |}) /\
  exists j, (after Perfect 40 readJournals s.2).1 = Ret [j] /\ get "step" j = Some (JStr (js "installing")).
Proof. split; eexists; [|split]; vm_compute; reflexivity. Qed.
