(* ===== verification/BulkRename.v ===== *)
(** Bulk rename in Files (client/src/console/files/bulkRename.ts): the new names of a set of entries,
    checked as a whole, then the renames one at a time. Text is Latin-1. *)
From S2P Require Import Prelude FsUploadPlan Program.

(** * New names *)

Inductive RenameMode :=
| MReplace (find replace : str) (caseSensitive : bool)
| MPrefix (text : str)
| MSuffix (text : str)
| MNumber (template : str) (start : Z).
Record RenameItem := { ri_name : str; ri_dir : bool }.
Inductive RenameProblem := Empty | Slash | Dots | Long | Unchanged | AlreadyThere | Twice.
Record RenameRow := { from : str; to : str; problem : option RenameProblem }.
Record RenamePlan := { rows : list RenameRow; ok : bool; first : option RenameRow }.

Definition NAME_MAX_BYTES : Z := 255.

Definition splitExt (name : str) (dir : bool) : str * str :=
  match (if dir then None else last_index_of "."%char name) with
  | Some (S _ as dot) => (take dot name, drop dot name)
  | _ => (name, [])
  end.

(** Every [find] (not empty) from the left, characters compared by [fold]; [skip]: characters of a match
    still to pass over. *)
Fixpoint replace_from (fold : ascii -> ascii) (find repl : str) (skip : nat) (s : str) : str :=
  match s with
  | [] => []
  | a :: s' =>
      match skip with
      | S skip => replace_from fold find repl skip s'
      | O =>
          if starts_with (map fold find) (map fold s) then repl ++ replace_from fold find repl (pred (length find)) s'
          else a :: replace_from fold find repl 0 s'
      end
  end.
Definition replaceAll (name find repl : str) (caseSensitive : bool) : str :=
  match find with
  | [] => name
  | _ => replace_from (if caseSensitive then (fun a => a) else lower_latin1) find repl 0 name
  end.

Definition numberText (i total start : Z) : str :=
  let last := num (start + Z.max total 1 - 1) in
  let width := Nat.max 2 (length last) in
  let n := num (start + i) in
  replicate (width - length n) "0"%char ++ n.

Definition renamed (item : RenameItem) (i total : Z) (mode : RenameMode) : str :=
  let '(stem, ext) := splitExt (ri_name item) (ri_dir item) in
  match mode with
  | MReplace find repl cs => replaceAll (ri_name item) find repl cs
  | MPrefix text => text ++ ri_name item
  | MSuffix text => stem ++ text ++ ext
  | MNumber tpl start =>
      let n := numberText i total start in
      if includes (js "{n}") tpl then replaceAll tpl (js "{n}") n true ++ ext
      else (match tpl with [] => stem | _ => tpl end) ++ js " " ++ n ++ ext
  end.

Definition utf8Bytes (s : str) : Z := foldr (fun ch n => (if code ch <? 128 then 1 else 2) + n) 0 s.

(** * The plan *)

Definition count_keys (l : list str) : gmap str nat :=
  fold_left (fun m s => <[nameKey s := S (m !! nameKey s ?? O)]> m) l ∅.
Definition problem_of (taken : gset str) (count : gmap str nat) (from to : str) : option RenameProblem :=
  let k := nameKey to in
  if bool_decide (to = []) then Some Empty
  else if bool_decide ("/"%char ∈ to) || bool_decide ("000"%char ∈ to) then Some Slash
  else if bool_decide (to = js ".") || bool_decide (to = js "..") then Some Dots
  else if NAME_MAX_BYTES <? utf8Bytes to then Some Long
  else if bool_decide (to = from) then Some Unchanged
  else if bool_decide (k ∈ taken) && negb (bool_decide (k = nameKey from)) then Some AlreadyThere
  else if (1 <? count !! k ?? O)%nat then Some Twice
  else None.
Definition planRenames (items : list RenameItem) (existing : list str) (mode : RenameMode) : RenamePlan :=
  let taken : gset str := list_to_set (nameKey <$> existing) in
  let new := imap (fun i it => (ri_name it, renamed it (Z.of_nat i) (Z.of_nat (length items)) mode)) items in
  let count := count_keys (snd <$> new) in
  let rows := (fun r : str * str => {| from := r.1; to := r.2; problem := problem_of taken count r.1 r.2 |}) <$> new in
  let first := find_first (fun r => match problem r with Some _ => true | None => false end) rows in
  {| rows := rows; ok := negb (bool_decide (rows = [])) && match first with None => true | Some _ => false end; first := first |}.

(** * The run *)

(** What a run asks: whether to stop, and one rename in the folder. *)
Inductive Cmd := Stopped | Rename (name newName : str).
Definition reply (c : Cmd) : Type := match c with Stopped => bool | Rename _ _ => unit end.
Definition ask (c : Cmd) : Prog reply str (reply c) := call c.
Record RenameResult := {
  moved : list str; r_failed : list (str * str); r_skipped : list str; done : list (str * str); failedRow : option RenameRow }.
Definition nothing : RenameResult := {| moved := []; r_failed := []; r_skipped := []; done := []; failedRow := None |}.

Fixpoint runRenames (rows : list RenameRow) (r : RenameResult) : Prog reply str RenameResult :=
  match rows with
  | [] => Ret r
  | row :: rest =>
      do stop <- ask Stopped in
      if stop
      then Ret {| moved := moved r; r_failed := r_failed r; r_skipped := from <$> row :: rest; done := done r; failedRow := failedRow r |}
      else
        do error <- catch (do _ <- ask (Rename (from row) (to row)) in Ret None) (fun e => Ret (Some e)) in
        match error with
        | Some e =>
            Ret {| moved := moved r; r_failed := r_failed r ++ [(from row, e)]; r_skipped := from <$> rest;
                   done := done r; failedRow := Some row |}
        | None =>
            runRenames rest {| moved := moved r ++ [from row]; r_failed := r_failed r; r_skipped := r_skipped r;
                               done := done r ++ [(from row, to row)]; failedRow := failedRow r |}
        end
  end.

(** * A plan that is ok *)

Lemma count_keys_spec l k : count_keys l !! k ?? O = length (base.filter (fun s => nameKey s = k) l).
Proof.
  unfold count_keys.
  assert (forall m : gmap str nat, fold_left (fun m s => <[nameKey s := S (m !! nameKey s ?? O)]> m) l m !! k ?? O =
    (m !! k ?? O) + length (base.filter (fun s => nameKey s = k) l))%nat as H.
  { induction l as [|s l IH]; intros m; cbn [fold_left]; [simpl; lia|]. rewrite IH, filter_cons. clear IH.
    destruct (decide (nameKey s = k)) as [<-|Hne].
    - rewrite lookup_insert_eq. simpl. lia.
    - by rewrite lookup_insert_ne. }
  rewrite H, lookup_empty. done.
Qed.

(** Two rows with one key are counted. *)
Lemma count_two {A} (P : A -> Prop) `{forall x, Decision (P x)} l i j x y :
  l !! i = Some x -> l !! j = Some y -> i <> j -> P x -> P y -> (2 <= length (base.filter P l))%nat.
Proof.
  revert i j. induction l as [|z l IH]; intros i j Hi Hj Hne Hx Hy; [done|]. rewrite filter_cons.
  assert (forall l (k : nat) (v : A), l !! k = Some v -> P v -> (1 <= length (base.filter P l))%nat) as Hone.
  { intros l0 k v Hk Hv. apply list_elem_of_lookup_2 in Hk. assert (v ∈ base.filter P l0) as Hin by by apply list_elem_of_filter.
    destruct (base.filter P l0); [by apply elem_of_nil in Hin|simpl; lia]. }
  destruct i as [|i], j as [|j]; simplify_eq/=; try done.
  - rewrite decide_True by done. simpl. specialize (Hone _ _ _ Hj Hy). lia.
  - rewrite decide_True by done. simpl. specialize (Hone _ _ _ Hi Hx). lia.
  - specialize (IH i j Hi Hj ltac:(lia) Hx Hy). case_decide; simpl; lia.
Qed.

Definition valid_name (n : str) : Prop :=
  n <> [] /\ ("/"%char ∉ n) /\ ("000"%char ∉ n) /\ n <> js "." /\ n <> js ".." /\ utf8Bytes n <= NAME_MAX_BYTES.

Lemma problem_of_None taken count a b : problem_of taken count a b = None ->
  valid_name b /\ b <> a /\ (nameKey b ∈ taken -> nameKey b = nameKey a) /\ (count !! nameKey b ?? O <= 1)%nat.
Proof.
  unfold problem_of. repeat (case_match; [done|]). intros _.
  repeat match goal with H : _ || _ = false |- _ => apply orb_false_iff in H as [? ?] end.
  repeat match goal with H : bool_decide _ = false |- _ => apply bool_decide_eq_false in H end.
  rewrite Z.ltb_ge, Nat.ltb_ge in *.
  match goal with H : _ && _ = false |- _ => apply andb_false_iff in H as [H|H];
    [apply bool_decide_eq_false in H|apply negb_false_iff, bool_decide_eq_true in H] end; unfold valid_name; naive_solver.
Qed.

(** What the plan checks. *)
Lemma planRenames_ok items existing mode : let p := planRenames items existing mode in ok p = true ->
  rows p <> [] /\ from <$> rows p = ri_name <$> items /\
  (forall r, r ∈ rows p -> valid_name (to r) /\ to r <> from r /\
     (nameKey (to r) ∈ nameKey <$> existing -> nameKey (to r) = nameKey (from r))) /\
  NoDup ((fun r => nameKey (to r)) <$> rows p).
Proof.
  cbv zeta. set (p := planRenames items existing mode). intros Hok.
  set (new := imap (fun i it => (ri_name it, renamed it (Z.of_nat i) (Z.of_nat (length items)) mode)) items).
  assert (rows p = (fun r : str * str => {| from := r.1; to := r.2;
    problem := problem_of (list_to_set (nameKey <$> existing)) (count_keys (snd <$> new)) r.1 r.2 |}) <$> new) as Hrows by done.
  unfold p in Hok. cbn [ok planRenames] in Hok. apply andb_true_iff in Hok as [Hne Hf].
  change (negb (bool_decide (rows p = [])) = true) in Hne. apply negb_true_iff, bool_decide_eq_false in Hne.
  change (match first p with None => true | Some _ => false end = true) in Hf.
  destruct (first p) eqn:Hfirst; [done|]. clear Hf.
  change (find_first (fun r => match problem r with Some _ => true | None => false end) (rows p) = None) in Hfirst.
  rewrite find_first_None in Hfirst.
  assert (forall r, r ∈ rows p -> problem_of (list_to_set (nameKey <$> existing)) (count_keys (snd <$> new)) (from r) (to r) = None) as Hnone.
  { intros r Hr. specialize (Hfirst r Hr). rewrite Hrows in Hr. apply list_elem_of_fmap in Hr as (q & -> & _). simpl in *. by destruct (problem_of _ _ _ _). }
  split; [done|]. split; [|split].
  - rewrite Hrows, <- list_fmap_compose. unfold new. rewrite fmap_imap. clear. unfold compose. simpl.
    generalize (fun i : nat => Z.of_nat i). intros g. generalize (Z.of_nat (length items)) as n. intros n.
    revert g. induction items as [|it items IH]; intros g; [done|]. cbn [imap fmap list_fmap]. f_equal. exact (IH (fun i => g (S i))).
  - intros r Hr. apply Hnone, problem_of_None in Hr as (? & ? & Hk & _). split; [done|]. split; [done|].
    intros Hin. apply Hk. by apply elem_of_list_to_set.
  - apply NoDup_alt. intros i j key Hi Hj.
    rewrite list_lookup_fmap in Hi, Hj. destruct (rows p !! i) as [a|] eqn:Ea; [|done]. destruct (rows p !! j) as [b|] eqn:Eb; [|done].
    injection Hi as Hi. injection Hj as Hj. destruct (decide (i = j)) as [|Hij]; [done|]. exfalso.
    apply list_elem_of_lookup_2 in Ea as Hin. apply Hnone, problem_of_None in Hin as (_ & _ & _ & Hc).
    rewrite count_keys_spec in Hc. rewrite Hrows in Ea, Eb. rewrite list_lookup_fmap in Ea, Eb.
    destruct (new !! i) as [x|] eqn:Ex; [|done]. destruct (new !! j) as [y|] eqn:Ey; [|done]. simplify_eq/=.
    enough (2 <= length (base.filter (fun s => nameKey s = nameKey x.2) (snd <$> new)))%nat by lia.
    apply (count_two _ _ i j x.2 y.2); [by rewrite list_lookup_fmap, Ex|by rewrite list_lookup_fmap, Ey|done|done|done].
Qed.

(** * A folder *)

Section folder.
Context {X W : Type} (k : str -> str) (folder : W -> gmap str (str * X))
  (answers : W -> forall c, reply c + str -> W -> Prop).

(** [k]: how the drive tells names apart (exFAT by their letters, other drives exactly); an entry has its
    name and what is in it. A rename never goes over another entry, and is whole or not at all. *)
Definition allowed (a b : str) (w : W) : Prop :=
  is_Some (folder w !! k a) /\ (k b = k a \/ folder w !! k b = None).
Definition entry_moved (a b : str) (w w' : W) : Prop :=
  exists n x, folder w !! k a = Some (n, x) /\ folder w' = <[k b := (b, x)]> (delete (k a) (folder w)).
Class FolderSpec : Prop := {
  drive_fold a b : k a = k b -> nameKey a = nameKey b;
  stopped_spec w r w' : answers w Stopped r w' -> folder w' = folder w;
  rename_spec w a b r w' : answers w (Rename a b) r w' ->
    match r with inl _ => allowed a b w /\ entry_moved a b w w' | inr _ => folder w' = folder w end
}.
Context {Hspec : FolderSpec}.

(** Rows whose renames cannot meet. *)
Record ready (l : list RenameRow) (f : gmap str (str * X)) : Prop := {
  ready_from : NoDup ((fun r => k (from r)) <$> l);
  ready_to : NoDup ((fun r => k (to r)) <$> l);
  ready_there r : r ∈ l -> exists x, f !! k (from r) = Some (from r, x);
  ready_free r : r ∈ l -> k (to r) = k (from r) \/ f !! k (to r) = None
}.
(** [f'] is [f] with the entries of [l] renamed. *)
Record applied (l : list RenameRow) (f f' : gmap str (str * X)) : Prop := {
  applied_new r x : r ∈ l -> f !! k (from r) = Some (from r, x) -> f' !! k (to r) = Some (to r, x);
  applied_gone r : r ∈ l -> (k (from r) ∉ (fun r => k (to r)) <$> l) -> f' !! k (from r) = None;
  applied_other c : (c ∉ (fun r => k (from r)) <$> l) -> (c ∉ (fun r => k (to r)) <$> l) -> f' !! c = f !! c
}.

Lemma ready_clash l f a b : ready l f -> a ∈ l -> b ∈ l -> k (to a) = k (from b) -> k (from a) = k (from b).
Proof.
  intros H Ha Hb E. destruct (ready_free _ _ H a Ha) as [E'|E']; [congruence|].
  destruct (ready_there _ _ H b Hb) as [x Hx]. congruence.
Qed.

Lemma not_in_keys (g : RenameRow -> str) (r : RenameRow) l : NoDup (g <$> r :: l) -> forall q, q ∈ l -> g q <> g r.
Proof. intros [Hn _]%NoDup_cons q Hq E. apply Hn. rewrite <- E. exact (list_elem_of_fmap_2 g l q Hq). Qed.

Lemma ready_next r l f x : ready (r :: l) f -> f !! k (from r) = Some (from r, x) ->
  ready l (<[k (to r) := (to r, x)]> (delete (k (from r)) f)).
Proof.
  intros H Hx. pose proof H as [Hf Ht Hthere Hfree].
  pose proof (not_in_keys _ _ _ Hf) as Nf. pose proof (not_in_keys _ _ _ Ht) as Nt. cbn beta in Nf, Nt.
  split; [by apply NoDup_cons in Hf as [_ ?]|by apply NoDup_cons in Ht as [_ ?]| |]; intros q Hq.
  - destruct (Hthere q) as [y Hy]; [by right|]. exists y. rewrite lookup_insert_ne, lookup_delete_ne; [done| |].
    + intros E. by apply (Nf q Hq).
    + intros E. apply (Nf q Hq). symmetry. apply (ready_clash _ _ r q H); [left|by right|done].
  - destruct (decide (k (to q) = k (from q))) as [|Hne]; [by left|right].
    rewrite lookup_insert_ne by (intros E; by apply (Nt q Hq)).
    destruct (decide (k (from r) = k (to q))) as [<-|]; [apply lookup_delete_eq|]. rewrite lookup_delete_ne by done.
    destruct (Hfree q) as [?|?]; [by right|done|done].
Qed.

Lemma applied_next r l f f' x : ready (r :: l) f -> f !! k (from r) = Some (from r, x) ->
  applied l (<[k (to r) := (to r, x)]> (delete (k (from r)) f)) f' -> applied (r :: l) f f'.
Proof.
  intros H Hx [Hn Hg Ho]. pose proof H as [Hf Ht Hthere Hfree].
  pose proof (not_in_keys _ _ _ Hf) as Nf. pose proof (not_in_keys _ _ _ Ht) as Nt. cbn beta in Nf, Nt.
  assert (forall q, q ∈ l -> k (to r) <> k (from q)) as Ntf.
  { intros q Hq E. apply (Nf q Hq). symmetry. apply (ready_clash _ _ r q H); [left|by right|done]. }
  assert (k (to r) ∉ (fun r => k (from r)) <$> l) as Hrf by (intros (q & E & Hq)%list_elem_of_fmap; by apply (Ntf q Hq)).
  assert (k (to r) ∉ (fun r => k (to r)) <$> l) as Hrt by (intros (q & E & Hq)%list_elem_of_fmap; by apply (Nt q Hq)).
  split.
  - intros q y [->|Hq]%elem_of_cons Hy.
    + rewrite (Ho _ Hrf Hrt), lookup_insert_eq. congruence.
    + apply Hn; [done|]. rewrite lookup_insert_ne, lookup_delete_ne; [done|by intros E; apply (Nf q Hq)|by apply Ntf].
  - intros q Hq Hk. rewrite fmap_cons, not_elem_of_cons in Hk. destruct Hk as [Hkr Hkl]. apply elem_of_cons in Hq as [->|Hq]; [|by apply Hg].
    rewrite Ho; [|intros (q & E & Hq)%list_elem_of_fmap; by apply (Nf q Hq)|done].
    rewrite lookup_insert_ne by done. apply lookup_delete_eq.
  - intros c Hcf Hct. rewrite fmap_cons, not_elem_of_cons in Hcf, Hct. destruct Hcf as [? ?], Hct as [? ?].
    rewrite Ho by done. by rewrite lookup_insert_ne, lookup_delete_ne by done.
Qed.

Lemma ready_app l l' f : ready (l ++ l') f -> ready l f.
Proof.
  intros [Hf Ht Hthere Hfree]. rewrite fmap_app in Hf, Ht. apply NoDup_app in Hf as (? & _), Ht as (? & _).
  split; [done|done| |]; intros r Hr; [apply Hthere|apply Hfree]; apply elem_of_app; by left.
Qed.

(** Where a run ended: [did] renamed, [rest] not. *)
Definition run_end (did rest : list RenameRow) (r r' : RenameResult) : Prop :=
  moved r' = moved r ++ (from <$> did) /\ done r' = done r ++ ((fun q => (from q, to q)) <$> did) /\
  ((rest = [] /\ r_failed r' = r_failed r /\ r_skipped r' = r_skipped r /\ failedRow r' = failedRow r) \/
   (rest <> [] /\ r_failed r' = r_failed r /\ r_skipped r' = from <$> rest /\ failedRow r' = failedRow r) \/
   (exists row rest' e, rest = row :: rest' /\ r_failed r' = r_failed r ++ [(from row, e)] /\ r_skipped r' = from <$> rest' /\
      failedRow r' = Some row)).
(** Nobody stops it and no rename that could be made is refused. *)
Definition willing : Prop :=
  (forall w r w', answers w Stopped r w' -> r = inl false) /\
  (forall w a b e w', answers w (Rename a b) (inr e) w' -> ~ allowed a b w).

Lemma runRenames_wp l r w : ready l (folder w) ->
  wp answers (fun _ => True) (fun _ _ => True) False (runRenames l r)
    (fun x w' => match x with
     | inl r' => exists did rest, l = did ++ rest /\ applied did (folder w) (folder w') /\ run_end did rest r r' /\ (willing -> rest = [])
     | inr _ => exists r' w0, answers w0 Stopped (inr r') w' end) w.
Proof.
  assert (forall f, applied [] f f) as Happ.
  { intros f. split; [by intros ? ? ?%elem_of_nil|by intros ? ?%elem_of_nil|done]. }
  revert r w. induction l as [|row l IH]; intros r w Hr; cbn [runRenames].
  { split; [done|]. exists [], []. split; [done|]. split; [apply Happ|]. split; [|done].
    split; [by rewrite app_nil_r|]. split; [by rewrite app_nil_r|]. by left. }
  apply wp_bind, wp_call; [done|done|]. intros s w1 H1. split; [done|]. pose proof (stopped_spec _ _ _ H1) as E1.
  destruct s as [stop|e]; [|by exists e, w].
  destruct stop.
  { split; [done|]. exists [], (row :: l). split; [done|]. rewrite E1. split; [apply Happ|]. split.
    - split; [by rewrite app_nil_r|]. split; [by rewrite app_nil_r|]. right; left. done.
    - intros [Hs _]. by apply Hs in H1. }
  apply wp_bind, wp_catch, wp_bind. apply (wp_call answers _ _ _ (Rename (from row) (to row))); [done|done|].
  intros [u|e] w2 H2; (split; [done|]); pose proof (rename_spec _ _ _ _ _ H2) as Hren; cbn beta iota in Hren.
  - split; [done|]. destruct Hren as [_ (n & x & Hx & Hf)]. rewrite E1 in Hx, Hf.
    destruct (ready_there _ _ Hr row) as [y Hy]; [left|]. assert (n = from row) as -> by congruence.
    eapply wp_impl; [apply IH|].
    { rewrite Hf. by apply ready_next. }
    intros [r'|e] w3 _; [|done]. intros (did & rest & -> & Ha & (Hm & Hd & Hend) & Hw). exists (row :: did), rest.
    split; [done|]. split; [apply (applied_next _ _ _ _ x (ready_app (row :: did) rest _ Hr) Hx); by rewrite <- Hf|]. split; [|done].
    cbn [moved done r_failed r_skipped failedRow] in *. split; [by rewrite Hm, <- app_assoc|]. split; [by rewrite Hd, <- app_assoc|exact Hend].
  - split; [done|]. split; [done|]. exists [], (row :: l). split; [done|]. rewrite Hren, E1. split; [apply Happ|]. split.
    + split; [by rewrite app_nil_r|]. split; [by rewrite app_nil_r|]. right; right. by exists row, l, e.
    + intros [_ Hs]. exfalso. apply (Hs _ _ _ _ _ H2). unfold allowed. rewrite E1.
      destruct (ready_there _ _ Hr row) as [y Hy]; [left|]. split; [by eexists|]. apply (ready_free _ _ Hr). left.
Qed.

(** The folder the plan was made for: its names, told apart without their letters' case. *)
Definition shows (existing : list str) (w : W) : Prop :=
  forall c n x, folder w !! c = Some (n, x) -> c = k n /\ n ∈ existing.
Definition holds (names : list str) (w : W) : Prop := forall n, n ∈ names -> exists x, folder w !! k n = Some (n, x).

Lemma plan_ready items existing mode w : let p := planRenames items existing mode in
  ok p = true -> NoDup (nameKey <$> existing) -> NoDup (ri_name <$> items) -> (forall it, it ∈ items -> ri_name it ∈ existing) ->
  shows existing w -> holds (ri_name <$> items) w -> ready (rows p) (folder w).
Proof.
  cbv zeta. set (p := planRenames items existing mode). intros Hok Hn Hi Hin Hs Hh.
  apply planRenames_ok in Hok as (_ & Hfrom & Hto & Hkeys). fold p in Hfrom, Hto, Hkeys.
  assert (forall a b, a ∈ existing -> b ∈ existing -> nameKey a = nameKey b -> a = b) as Hkey.
  { intros a b Ha Hb E. apply list_elem_of_lookup in Ha as [i Ha], Hb as [j Hb].
    assert (i = j) as ->; [|congruence]. apply (NoDup_lookup _ i j (nameKey a) Hn); rewrite list_lookup_fmap, ?Ha, ?Hb; simpl; congruence. }
  assert (forall r, r ∈ rows p -> from r ∈ existing) as Hex.
  { intros r Hr. apply (list_elem_of_fmap_2 from) in Hr. rewrite Hfrom in Hr. apply list_elem_of_fmap in Hr as (it & -> & Hit). auto. }
  split.
  - rewrite <- Hfrom in Hi. clear Hfrom Hto Hkeys. revert Hex Hi. induction (rows p) as [|r l IH]; intros Hex Hi; [constructor|].
    cbn [fmap list_fmap] in *. apply NoDup_cons in Hi as [Hi Hl]. constructor; [|apply IH; [|done]; intros q Hq; apply Hex; by right].
    intros (q & E & Hq)%list_elem_of_fmap. apply Hi. apply drive_fold, Hkey in E; [|apply Hex; left|apply Hex; by right].
    rewrite E. exact (list_elem_of_fmap_2 from l q Hq).
  - eapply NoDup_fmap_1 with (f := fun c => c). rewrite list_fmap_id. clear -Hkeys Hspec. revert Hkeys.
    induction (rows p) as [|r l IH]; intros Hkeys; [constructor|]. cbn [fmap list_fmap] in *. apply NoDup_cons in Hkeys as [Hk Hl].
    constructor; [|by apply IH]. intros (q & E & Hq)%list_elem_of_fmap. apply Hk. apply drive_fold in E. rewrite E.
    exact (list_elem_of_fmap_2 (fun r => nameKey (to r)) l q Hq).
  - intros r Hr. apply Hh. rewrite <- Hfrom. exact (list_elem_of_fmap_2 from _ r Hr).
  - intros r Hr. destruct (folder w !! k (to r)) as [[n x]|] eqn:E; [left|by right].
    destruct (Hs _ _ _ E) as [Hc Hne]. apply Hto in Hr as Hr'. destruct Hr' as (_ & _ & Ht).
    assert (nameKey (to r) = nameKey n) as Hk by by apply drive_fold.
    assert (nameKey (to r) = nameKey (from r)) as Hk2 by (apply Ht; rewrite Hk; exact (list_elem_of_fmap_2 nameKey _ n Hne)).
    assert (n = from r) as -> by (apply Hkey; [done|by apply Hex|congruence]). done.
Qed.

(** a bulk rename whose plan was ok does what the plan says and nothing else: wherever it stops (Stop, or
    a rename the console refuses), what it reports as renamed is renamed with its contents, everything else
    is as it was, nothing was ever written over, and every row is reported once: renamed, the one that
    failed, or not tried. If nobody stops it and no rename that could be made is refused, all rows are
    renamed, whatever their order. *)
Theorem bulk_rename_spec items existing mode w r' w'
  (Hok : ok (planRenames items existing mode) = true) (Hnames : NoDup (nameKey <$> existing))
  (Hitems : NoDup (ri_name <$> items)) (Hin : forall it, it ∈ items -> ri_name it ∈ existing)
  (Hshows : shows existing w) (Hholds : holds (ri_name <$> items) w) :
  let p := planRenames items existing mode in
  rtc (step answers) (runRenames (rows p) nothing, w) (Ret r', w') ->
  exists did rest, rows p = did ++ rest /\ applied did (folder w) (folder w') /\
    run_end did rest nothing r' /\ (willing -> rest = []) /\
    forall r, r ∈ rows p -> valid_name (to r).
Proof.
  cbv zeta. intros Hr. pose proof (plan_ready items existing mode w Hok Hnames Hitems Hin Hshows Hholds) as Hready.
  pose proof (runRenames_wp _ nothing w Hready) as H. apply (wp_reach _ _ _ _ _ _ _ Hr) in H.
  destruct H as (_ & did & rest & ? & ? & ? & ?). exists did, rest. split_and!; try done.
  intros r Hr'. apply planRenames_ok in Hok as (_ & _ & Hto & _). by apply Hto.
Qed.
End folder.

(** * A drive *)

Section drive.
Context (k : str -> str) (kfold : forall a b, k a = k b -> nameKey a = nameKey b).
Definition respond (w : gmap str (str * nat)) (c : Cmd) : (reply c + str) * gmap str (str * nat) :=
  match c with
  | Stopped => (inl false, w)
  | Rename a b =>
      match w !! k a with
      | Some (_, x) => if decide (k b = k a \/ w !! k b = None) then (inl tt, <[k b := (b, x)]> (delete (k a) w)) else (inr (js "exists"), w)
      | None => (inr (js "not_found"), w)
      end
  end.
Definition drive (w : gmap str (str * nat)) (c : Cmd) (r : reply c + str) (w' : gmap str (str * nat)) : Prop := respond w c = (r, w').

Lemma drive_spec : FolderSpec k (fun w => w) drive.
Proof.
  split; [exact kfold| |]; unfold drive, respond.
  - intros w r w' [= _ <-]. done.
  - intros w a b r w'. destruct (w !! k a) as [[n x]|] eqn:E; [|by intros [= <- <-]].
    case_decide as D; [|by intros [= <- <-]]. intros [= <- <-]. split; [split; [by eexists|done]|]. by exists n, x.
Qed.
Lemma drive_willing : willing k (fun w => w) drive.
Proof.
  split; unfold drive, respond.
  - by intros w r w' [= <- _].
  - intros w a b e w'. destruct (w !! k a) as [[n x]|] eqn:E.
    { case_decide as D; [done|]. intros _ [_ HD]. by apply D. }
    intros _ [H _]. rewrite E in H. by destruct H.
Qed.
Definition go {A} (s : Prog reply str A * gmap str (str * nat)) : Prog reply str A * gmap str (str * nat) :=
  match s.1 with Op c f => let '(r, w) := respond s.2 c in (f r, w) | _ => s end.
Lemma go_reach {A} (n : nat) (s : Prog reply str A * gmap str (str * nat)) : rtc (step drive) s (Nat.iter n go s).
Proof.
  induction n as [|n IH]; [done|]. etransitivity; [exact IH|]. rewrite Nat.iter_succ.
  destruct (Nat.iter n go s) as [[x|e|c f|] v].
  1,2,4: apply rtc_refl.
  change (go (Op c f, v)) with (let '(r, w) := respond v c in (f r, w)).
  destruct (respond v c) as [r v'] eqn:E. apply rtc_once. constructor. exact E.
Qed.
End drive.

Definition w_names : list str := [js "b.TXT"; js "a.txt"; js "notes"].
Definition w_items : list RenameItem := [{| ri_name := js "b.TXT"; ri_dir := false |}; {| ri_name := js "a.txt"; ri_dir := false |}].
Definition w_folder : gmap str (str * nat) :=
  list_to_map (imap (fun i n => (nameKey n, (n, i))) w_names).
Definition w_mode : RenameMode := MNumber (js "Photo {n}") 9.

(** Two files of an exFAT drive numbered from 9. *)
Lemma bulk_rename_spec_witness :
  let p := planRenames w_items w_names w_mode in
  to <$> rows p = [js "Photo 09.TXT"; js "Photo 10.txt"] /\
  exists r' w', rtc (step (drive nameKey)) (runRenames (rows p) nothing, w_folder) (Ret r', w') /\
  exists did rest, rows p = did ++ rest /\ applied nameKey did w_folder w' /\
    run_end did rest nothing r' /\ (willing nameKey (fun w => w) (drive nameKey) -> rest = []) /\
    forall r, r ∈ rows p -> valid_name (to r).
Proof.
  cbv zeta. split; [vm_compute; reflexivity|].
  pose proof (go_reach nameKey 4 (runRenames (rows (planRenames w_items w_names w_mode)) nothing, w_folder)) as Hr.
  assert (exists r', (Nat.iter 4 (go nameKey) (runRenames (rows (planRenames w_items w_names w_mode)) nothing, w_folder)).1 = Ret r') as [r' E]
    by (eexists; vm_compute; reflexivity).
  destruct (Nat.iter 4 (go nameKey) (runRenames (rows (planRenames w_items w_names w_mode)) nothing, w_folder)) as [q w'].
  cbn [fst] in E. subst q. exists r', w'. split; [exact Hr|].
  refine (bulk_rename_spec (Hspec := drive_spec nameKey (fun a b H => H)) nameKey (fun w => w) (drive nameKey) w_items w_names w_mode w_folder r' w' _ _ _ _ _ _ Hr).
  - vm_compute. reflexivity.
  - apply (bool_decide_unpack _). vm_compute. exact I.
  - apply (bool_decide_unpack _). vm_compute. exact I.
  - intros it Hit. repeat (apply elem_of_cons in Hit as [->|Hit]; [apply (bool_decide_unpack _); vm_compute; exact I|]). by apply elem_of_nil in Hit.
  - intros c n x H. apply elem_of_list_to_map_2 in H. repeat (apply elem_of_cons in H as [H|H]; [injection H as -> -> _; split; [reflexivity|apply (bool_decide_unpack _); vm_compute; exact I]|]). by apply elem_of_nil in H.
  - intros n H. repeat (apply elem_of_cons in H as [->|H]; [eexists; vm_compute; reflexivity|]). by apply elem_of_nil in H.
Defined.

(** On a drive that tells letters' cases apart: the plan to rename "a.txt" to "A.txt" is ok although an
    "A.txt" is there, and the rename is then refused. *)
Theorem case_twin_planned :
  let p := planRenames [{| ri_name := js "a.txt"; ri_dir := false |}] [js "a.txt"; js "A.txt"] (MReplace (js "a.") (js "A.") true) in
  ok p = true /\
  (Nat.iter 2 (go (fun n => n)) (runRenames (rows p) nothing,
    {[js "a.txt" := (js "a.txt", 1%nat); js "A.txt" := (js "A.txt", 2%nat)]})).1 =
    Ret {| moved := []; r_failed := [(js "a.txt", js "exists")]; r_skipped := []; done := [];
           failedRow := Some {| from := js "a.txt"; to := js "A.txt"; problem := None |} |}.
Proof. vm_compute. auto. Qed.
