(* ===== verification/Paste.v ===== *)
(** Paste here (client/src/console/files/paste.ts, with the batch loop of move.ts): the clipboard's items
    go into a folder one at a time, what is already there is asked about, and a Replace goes through
    [Replace.v]. The console is an interface whose calls answer or throw; the options are there, as the
    page gives them ([batchOptions]); progress is not kept. *)
From S2P Require Import Prelude FsUploadPlan Paths Replace.

(** * Data *)

Inductive PasteMode := Copy_ | Cut.
#[export] Instance mode_eq_dec : EqDecision PasteMode.
Proof. solve_decision. Defined.
Inductive ConflictChoice := CSkip | CReplace | CKeep.
#[export] Instance conflict_choice_eq_dec : EqDecision ConflictChoice.
Proof. solve_decision. Defined.
Record Conflict := { c_item : str; c_dest : str; c_destDir : bool; c_canReplace : bool; c_left : Z }.
Record Decision_ := { d_choice : ConflictChoice; d_all : bool }.
Record PasteItem := { p_path : str; p_dir : bool }.
Record Stat := { kind : str; dev : option str; ino : option str }.
Inductive JobEnd := JDone | JFailed | JGone | JLeft | JCancelled.

Record BatchResult := {
  started : list str; b_moved : list str; failed : list (str * Err); jobFailed : list str; skipped : list str; cancelled : list str }.
#[export] Instance settable_batch : Settable BatchResult := fun r => {|
  started := started r; b_moved := b_moved r; failed := failed r; jobFailed := jobFailed r; skipped := skipped r;
  cancelled := cancelled r |}.
Definition no_batch : BatchResult := {| started := []; b_moved := []; failed := []; jobFailed := []; skipped := []; cancelled := [] |}.

(** What a paste keeps while it runs. *)
Record Locals := {
  declined : list str; here : list str; halted : list str; notes : list Err; leftRunning : list str;
  always : option ConflictChoice; current : str; folderStats : gmap str (option Stat); renamed : bool; res : BatchResult }.
#[export] Instance settable_locals : Settable Locals := fun l => {|
  declined := declined l; here := here l; halted := halted l; notes := notes l; leftRunning := leftRunning l;
  always := always l; current := current l; folderStats := folderStats l; renamed := renamed l; res := res l |}.
Definition no_locals : Locals := {|
  declined := []; here := []; halted := []; notes := []; leftRunning := []; always := None; current := [];
  folderStats := ∅; renamed := false; res := no_batch |}.

Record PasteResult := {
  r_batch : BatchResult; r_done : list str; r_left : list str; r_halted : list str; r_declined : list str; r_here : list str;
  r_notes : list Err }.

(** The console, the person asked, and the Stop button. *)
Class Console (W : Type) := {
  statOrNull : str -> M W (option Stat);
  fs_rename : str -> str -> M W unit;
  fs_copy : str -> str -> bool -> bool -> M W str;
  fs_delete : str -> M W str;
  waitJob : str -> bool -> M W JobEnd;
  jobs_status : str -> M W (option (option Z * option str));
  decide_ : Conflict -> M W Decision_;
  stopped : W -> bool
}.

(** * The batch loop *)

Section paste.
Context {W : Type} `{!Console W}.
Definition P : Type := W * Locals.

Definition lift {A} (m : M W A) : M P A := fun p => let '(r, w) := m p.1 in (r, (w, p.2)).
Definition asks {A} (f : P -> A) : M P A := fun p => (Ok (f p), p).
Definition modify (f : Locals -> Locals) : M P unit := fun p => (Ok tt, (p.1, f p.2)).

Definition on_res (f : BatchResult -> BatchResult) (l : Locals) : Locals := l <| res := f (res l) |>.
(** [eachOpts.waitJob]: a job Stop let go of is noted with its item. *)
Definition each_wait (job : str) : M P JobEnd :=
  let* e := lift (waitJob job false) in
  let* _ := match e with JLeft => modify (fun l => l <| leftRunning := leftRunning l ++ [current l] |>) | _ => ret tt end in
  ret e.

Fixpoint each (items : list str) (one : str -> M P (option str)) : M P unit :=
  match items with
  | [] => ret tt
  | item :: rest =>
      let* stop := asks (fun p => stopped p.1) in
      if stop then modify (on_res (fun r => r <| skipped := items |>))
      else
        let* sent := catch (let* job := one item in ret (inl job)) (fun e => ret (inr e)) in
        match sent with
        | inr e =>
            let* _ := modify (on_res (fun r => r <| failed := failed r ++ [(item, e)] |>)) in
            if isTokenGone e then modify (on_res (fun r => r <| skipped := rest |>)) else each rest one
        | inl (Some ((_ :: _) as job)) =>
            let* ended := catch (let* e := each_wait job in ret (inl e)) (fun e => ret (inr e)) in
            match ended with
            | inl JFailed =>
                let* _ := modify (on_res (fun r => r <| jobFailed := jobFailed r ++ [item] |>)) in each rest one
            | inl JCancelled =>
                let* _ := modify (on_res (fun r => r <| cancelled := cancelled r ++ [item] |>)) in each rest one
            | inl _ => each rest one
            | inr e =>
                modify (on_res (fun r => r <| failed := failed r ++ [(item, e)] |> <| skipped := rest |>))
            end
        | inl _ => each rest one
        end
  end.

Definition startCopy (src dest : str) (move overwrite : bool) : M P str :=
  let* job := lift (fs_copy src dest move overwrite) in
  let* _ := modify (on_res (fun r => r <| started := started r ++ [job] |>)) in ret job.

(** * One item *)

Definition sameEntry (a b : option Stat) : bool :=
  match a, b with
  | Some a, Some b =>
      match dev a, ino a, dev b, ino b with
      | Some da, Some ia, db, ib => bool_decide (db = Some da) && bool_decide (ib = Some ia)
      | _, _, _, _ => false
      end
  | _, _ => false
  end.
(** A folder's stat, read once. *)
Definition folderStat (p : str) : M P (option Stat) :=
  let* known := asks (fun s => folderStats s.2 !! p) in
  match known with
  | Some s => ret s
  | None =>
      let* s := catch (lift (statOrNull p)) (fun _ => ret None) in
      let* _ := modify (fun l => l <| folderStats := <[p := s]> (folderStats l) |>) in ret s
  end.

Definition KEEP_BOTH_TRIES : nat := 999.
Definition start_count (name : str) (isDir : bool) : Z :=
  match counted (split_ext name isDir).1 with Some (_, m2) => Z.max 2 (js_incr (parse_dec m2)) | None => 2 end.
Fixpoint freeName_from (tries : nat) (n : Z) (dir name : str) (isDir : bool) (taken : str -> M P bool) : M P str :=
  match tries with
  | O => throw (ApiError 409 (js "exists"))
  | S tries =>
      let* there := taken (joinPath dir (keepBothName name n isDir)) in
      if negb there then ret (keepBothName name n isDir) else freeName_from tries (js_incr n) dir name isDir taken
  end.
Definition freeName (dir name : str) (isDir : bool) (taken : str -> M P bool) : M P str :=
  freeName_from KEEP_BOTH_TRIES (start_count name isDir) dir name isDir taken.

(** Why a copy job failed, when the helper can say. *)
Definition jobFailure (job : str) : M P (option Err) :=
  catch (let* s := lift (jobs_status job) in
         ret (match s with
              | Some (c, m) =>
                  if bool_decide (c = Some 10) ||
                     match m with Some m => includes (js "drive is full") (to_lower m) || includes (js "no space") (to_lower m) | None => false end
                  then Some (ApiError 507 (js "no_space")) else None
              | None => None
              end))
    (fun _ => ret None).

Definition sameDrive (a b : str) (volumes : list str) : option bool :=
  match volumes with
  | [] => None
  | _ => match volumeOf a volumes, volumeOf b volumes with
         | Some va, Some vb => Some (bool_decide (va = vb))
         | _, _ => None
         end
  end.

Definition is_there (p : str) : M P bool := let* s := lift (statOrNull p) in ret (match s with Some _ => true | None => false end).
#[export] Instance side : ReplaceSide P := {|
  taken := is_there;
  rename := fun a b => lift (fs_rename a b);
  remove := fun p =>
    let* job := lift (fs_delete p) in
    let* _ := lift (waitJob job true) in
    let* there := is_there p in ret (negb there) |}.

Section one.
Context (dir : str) (mode : PasteMode) (volumes : list str).

Definition is_api (code : str) (e : Err) : bool := match e with ApiError _ c => bool_decide (c = code) | _ => false end.
(** The copy half of [place]. *)
Definition place_copy (item temp : str) : M P (Placed P) :=
  let* job := startCopy item temp false false in
  let* e := lift (waitJob job false) in
  match e with
  | JDone => ret (PDone None)
  | JCancelled => ret (PStopped)
  | JLeft => ret (PLeft)
  | JFailed => let* why := jobFailure job in ret (PFailed why false)
  | JGone => ret (PFailed None false)
  end.
(** The rename half of [place]; None: the two are on different drives. *)
Definition place_rename (item temp : str) : M P (option (Placed P)) :=
  catch
    (let* _ := renameChecked item temp in
     let* _ := modify (fun l => l <| renamed := true |>) in
     ret (Some (PDone (Some (renameChecked temp item)))))
    (fun e => if bool_decide (status e = Some 401) then throw e
              else if is_api (js "cross_mount") e then ret None else ret (Some (PFailed (Some e) true))).
Definition place (item : str) (renames : bool) (temp : str) : M P (Placed P) :=
  if renames then
    let* r := place_rename item temp in
    match r with Some p => ret p | None => place_copy item temp end
  else place_copy item temp.

Definition note (e : Err) : M P unit := modify (fun l => l <| notes := notes l ++ [e] |>).
(** [replace]: [dest] gives way to [item]. *)
Definition replace (item dest : str) (renames : bool) : M P unit :=
  let* _ := modify (fun l => l <| renamed := false |>) in
  let* r := replaceItem dir dest (place item renames) in
  let name := baseName dest in
  match r with
  | EStopped temp =>
      let* _ := modify (fun l => l <| halted := halted l ++ [item] |>) in
      match temp with Some _ => note (ReplaceError TempLeft name None temp None) | None => ret tt end
  | EDone old =>
      let* _ := match old with Some _ => note (ReplaceError OldLeft name None None old) | None => ret tt end in
      let* moved := asks (fun p => renamed p.2) in
      if moved then modify (on_res (fun r => r <| b_moved := b_moved r ++ [item] |>))
      else if decide (mode = Cut) then
        let* gone := catch (remove item) (fun _ => ret false) in
        if negb gone then note (ReplaceError SourceLeft name None None None) else ret tt
      else ret tt
  end.

Definition drop_here (item : str) : M P (option str) :=
  let* _ := modify (fun l => l <| here := here l ++ [item] |>) in ret None.

(** The request for [item] once its destination is settled. *)
Definition send (item dest : str) (overwrite : bool) : M P (option str) :=
  match mode with
  | Copy_ => let* job := startCopy item dest false overwrite in ret (Some job)
  | Cut =>
      let* sent := (if negb overwrite
        then catch (let* _ := lift (fs_rename item dest) in
                    let* _ := modify (on_res (fun r => r <| b_moved := b_moved r ++ [item] |>)) in ret true)
                   (fun e => if is_api (js "cross_mount") e then ret false else throw e)
        else ret false) in
      if sent then ret None
      else let* job := startCopy item dest true overwrite in ret (Some job)
  end.

(** What the person (or Apply to all) says about what is there. *)
Definition choose (c : Conflict) : M P ConflictChoice :=
  let* a := asks (fun p => always p.2) in
  match a with
  | Some choice => ret choice
  | None =>
      let* d := lift (decide_ c) in
      let* _ := (if d_all d then modify (fun l => l <| always := Some (d_choice d) |>) else ret tt) in
      ret (d_choice d)
  end.

Definition one_item (isDir : bool) (left : Z) (item : str) : M P (option str) :=
  let* _ := modify (fun l => l <| current := item |>) in
  if isInside dir item then throw (Thrown (js "into_itself: " ++ item)) else
  let* already :=
    (if decide (mode = Cut)
     then let from := parentPath item in
          if bool_decide (from = dir) then ret true
          else let* a := folderStat from in let* b := folderStat dir in ret (sameEntry a b)
     else ret false) in
  if already then drop_here item else
  let dest := joinPath dir (baseName item) in
  let* existing := lift (statOrNull dest) in
  match existing with
  | None => send item dest false
  | Some there =>
      let* own := lift (statOrNull item) in
      let self := sameEntry existing own in
      if self && bool_decide (mode = Cut) then drop_here item else
      let canReplace := negb self && negb (isInside item dest) in
      let* choice := choose {| c_item := item; c_dest := dest; c_destDir := bool_decide (kind there = js "dir");
                               c_canReplace := canReplace; c_left := left |} in
      match choice with
      | CKeep =>
          let* name := freeName dir (baseName item) isDir is_there in
          send item (joinPath dir name) false
      | CReplace =>
          if negb canReplace then let* _ := modify (fun l => l <| declined := declined l ++ [item] |>) in ret None
          else
            let renames := bool_decide (mode = Cut) && negb (bool_decide (sameDrive item dir volumes = Some false)) in
            if isDir || bool_decide (kind there = js "dir") || renames
            then let* _ := replace item dest renames in ret None
            else send item dest true
      | CSkip => let* _ := modify (fun l => l <| declined := declined l ++ [item] |>) in ret None
      end
  end.
End one.

Definition folder_of (destDir : str) : str := match trim destDir with [] => [slash] | d => d end.
(** [kinds.get(item) ?? false]: the last of two entries of one path counts. *)
Fixpoint dir_of (items : list PasteItem) (path : str) : bool :=
  match items with
  | [] => false
  | i :: items => if existsb (fun j => bool_decide (p_path j = path)) items then dir_of items path
                  else if bool_decide (p_path i = path) then p_dir i else dir_of items path
  end.
Definition left_after (paths : list str) (item : str) : Z :=
  Z.of_nat (length paths) - 1 - match find_index (fun p => bool_decide (p = item)) paths with Some i => Z.of_nat i | None => -1 end.

Definition result_of (paths : list str) (l : Locals) : PasteResult :=
  let r := res l in
  let notDone := declined l ++ here l ++ halted l ++ leftRunning l ++ skipped r ++ jobFailed r ++ cancelled r ++ (fst <$> failed r) in
  {| r_batch := r <| skipped := halted l ++ skipped r |>;
     r_done := base.filter (fun p => p ∉ notDone) paths;
     r_left := leftRunning l; r_halted := halted l; r_declined := declined l; r_here := here l; r_notes := notes l |}.
Definition pasteItems (items : list PasteItem) (destDir : str) (mode : PasteMode) (volumes : list str) (w : W) : Result PasteResult * W :=
  let dir := folder_of destDir in
  let paths := p_path <$> items in
  match each paths (fun item => one_item dir mode volumes (dir_of items item) (left_after paths item) item) (w, no_locals) with
  | (Ok _, (w, l)) => (Ok (result_of paths l), w)
  | (Throw e, (w, _)) => (Throw e, w)
  end.
End paste.

(** * Calls that keep an invariant *)

Section keeps.
Context {W : Type} (I : W -> Prop).
(** [m] keeps [I], and what it answers is in [Q]. *)
Definition keeps_to {A} (Q : A -> Prop) (m : M W A) : Prop := forall w, I w -> I (m w).2 /\ forall x, (m w).1 = Ok x -> Q x.
Definition keeps {A} (m : M W A) : Prop := keeps_to (fun _ => True) m.

Lemma keeps_ret {A} (Q : A -> Prop) x : Q x -> keeps_to Q (ret x).
Proof. intros HQ w Hw. split; [done|]. by intros y [= <-]. Qed.
Lemma keeps_throw {A} (Q : A -> Prop) e : keeps_to Q (throw e).
Proof. by intros w Hw. Qed.
Lemma keeps_bind {A B} (P : A -> Prop) (Q : B -> Prop) m k : keeps_to P m -> (forall x, P x -> keeps_to Q (k x)) -> keeps_to Q (bind m k).
Proof.
  intros Hm Hk w Hw. unfold bind. destruct (Hm w Hw) as [H1 H2]. destruct (m w) as [[x|e] w']; [|done]. apply Hk; [by apply H2|done].
Qed.
Lemma keeps_seq {A B} (Q : B -> Prop) (m : M W A) k : keeps m -> (forall x, keeps_to Q (k x)) -> keeps_to Q (bind m k).
Proof. intros Hm Hk. eapply keeps_bind; [exact Hm|]. intros x _. apply Hk. Qed.
Lemma keeps_catch {A} (Q : A -> Prop) m f : keeps_to Q m -> (forall e, keeps_to Q (f e)) -> keeps_to Q (catch m f).
Proof.
  intros Hm Hf w Hw. unfold catch. destruct (Hm w Hw) as [H1 H2]. destruct (m w) as [[x|e] w']; [done|]. by apply Hf.
Qed.
Lemma keeps_ite {A} (Q : A -> Prop) (b : bool) m n : keeps_to Q m -> keeps_to Q n -> keeps_to Q (if b then m else n).
Proof. by destruct b. Qed.
Lemma keeps_any {A} (Q : A -> Prop) m : keeps_to Q m -> keeps m.
Proof. intros H w Hw. split; [by apply H|done]. Qed.

(** A Replace keeps what its side's calls keep, when its calls are made on [free] names only: a name
    that was found free, the one replaced, and those of its [place]. *)
Context `{!ReplaceSide W} (free : str -> Prop).
Context (Ht : forall p, keeps_to (fun b => b = false -> free p) (taken p)).
Context (Hr : forall a b, free a -> free b -> keeps (rename a b)) (Hd : forall p, free p -> keeps (remove p)).
Lemma keeps_taken p : keeps (taken p).
Proof. eapply keeps_any, Ht. Qed.
Lemma keeps_renameChecked a b : free a -> free b -> keeps (renameChecked a b).
Proof.
  intros Ha Hb. unfold renameChecked. apply keeps_catch; [by apply Hr|]. intros e w Hw. destruct (negb _); [done|].
  pose proof (keeps_taken a w Hw) as [H1 _]. destruct (taken a w) as [f w1].
  pose proof (keeps_taken b w1 H1) as [H2 _]. destruct (taken b w1) as [t w2].
  simpl in *. destruct f, t; try done. by destruct (negb _ && _).
Qed.
Lemma keeps_tempName d n t : keeps_to (fun c => free (joinPath d c)) (tempName d n t).
Proof.
  unfold tempName. generalize TEMP_TRIES 1%nat. intros k. induction k as [|k IH]; intros i; cbn [tempName_from]; [apply keeps_throw|].
  eapply keeps_bind; [apply Ht|]. intros [|] Hf; [apply IH|apply keeps_ret; auto].
Qed.
Lemma keeps_discard t : free t -> keeps (discard t).
Proof.
  intros Hf. assert (keeps (still_taken t)) as Hs by (apply keeps_catch; [apply keeps_taken|intros ?; by apply keeps_ret]).
  unfold discard. generalize 2%nat. intros k. induction k as [|k IH]; cbn [discard_from].
  - apply keeps_seq; [done|]. intros x. by apply keeps_ret.
  - apply keeps_seq; [done|]. intros x. apply keeps_ite; [by apply keeps_ret|].
    apply keeps_seq; [|done]. apply keeps_catch; [by apply Hd|intros ?; by apply keeps_ret].
Qed.
Definition keeps_undo (u : option (M W unit)) : Prop := match u with Some u => keeps u | None => True end.
Lemma keeps_dropPlaced u t : free t -> keeps_undo u -> keeps (dropPlaced u t).
Proof.
  intros Hf. destruct u as [u|]; simpl; [|intros _; by apply keeps_discard]. intros Hu.
  apply keeps_catch; [apply keeps_seq; [done|intros _; by apply keeps_ret]|intros _; by apply keeps_ret].
Qed.
Lemma keeps_swap_in d dest item u t : free dest -> free t -> keeps_undo u -> keeps (swap_in d dest item u t).
Proof.
  intros Hdest Hf Hu. unfold swap_in. apply (keeps_bind free); [|intros a Ha; apply keeps_seq; [|intros _; apply keeps_seq]].
  - apply keeps_catch.
    + eapply keeps_bind; [apply keeps_tempName|]. intros n Hn. apply keeps_seq; [by apply keeps_renameChecked|]. intros _. by apply keeps_ret.
    + intros e. apply keeps_ite; [apply keeps_throw|]. apply keeps_seq; [by apply keeps_dropPlaced|]. intros x. apply keeps_throw.
  - apply keeps_catch; [by apply keeps_renameChecked|]. intros e. apply keeps_seq.
    + apply keeps_catch; [|intros _; by apply keeps_ret]. apply keeps_seq; [by apply keeps_renameChecked|]. intros _. by apply keeps_ret.
    + intros back. apply keeps_ite; [apply keeps_throw|]. apply keeps_seq; [by apply keeps_dropPlaced|]. intros x. apply keeps_throw.
  - apply keeps_catch; [by apply Hd|]. intros _. by apply keeps_ret.
  - intros g. by apply keeps_ret.
Qed.
Definition undoes (pl : Placed W) : Prop := match pl with PDone u => keeps_undo u | _ => True end.
Definition keeps_place (place : str -> M W (Placed W)) : Prop := forall t, free t -> keeps_to undoes (place t).
Lemma keeps_replaceItem d dest place : free dest -> keeps_place place -> keeps (replaceItem d dest place).
Proof.
  intros Hdest Hp. unfold replaceItem. apply (keeps_bind free).
  { apply keeps_catch.
    - eapply keeps_bind; [apply keeps_tempName|]. intros n Hn. by apply keeps_ret.
    - intros e. apply keeps_ite; apply keeps_throw. }
  intros t Hf. apply (keeps_bind undoes).
  { apply keeps_catch; [by apply Hp|]. intros e. apply keeps_ite; [apply keeps_throw|by apply keeps_ret]. }
  intros [u| | |why nt] Hu.
  - by apply keeps_swap_in.
  - apply keeps_seq; [by apply keeps_discard|]. intros x. by apply keeps_ret.
  - by apply keeps_ret.
  - apply keeps_seq; [apply keeps_ite; [by apply keeps_ret|by apply keeps_discard]|]. intros x. apply keeps_throw.
Qed.
End keeps.

(** ** The calls of a paste *)

Section calls.
Context {W : Type} `{!Console W}.
Local Abbreviation P := (W * Locals)%type.
Context (I : P -> Prop) (free : str -> Prop).
(** The lists of what a paste names as not done, and the item being handled. *)
Definition lists (l : Locals) :=
  (declined l, here l, halted l, leftRunning l, (skipped (res l), jobFailed (res l), cancelled (res l), failed (res l)), current l).
Definition inert (f : Locals -> Locals) : Prop := forall l, lists (f l) = lists l /\ always (f l) = always l.
Context (Hinert : forall f, inert f -> keeps I (modify f)).
Context (Hstat : forall p, keeps_to I (fun s => s = None -> free p) (lift (statOrNull p))).
Context (Hrename : forall a b, free a -> free b -> keeps I (lift (fs_rename a b))).
Context (Hcopy : forall s d mv ov, free d -> (mv = true -> free s) -> keeps I (lift (fs_copy s d mv ov))).
Context (Hdelete : forall p, free p -> keeps I (lift (fs_delete p))).
Context (Hwait : forall job b, keeps I (lift (waitJob job b))) (Hstatus : forall job, keeps I (lift (jobs_status job))).

Lemma keeps_asks {A} (f : P -> A) : keeps I (asks f).
Proof. by intros p. Qed.
Lemma keeps_stat p : keeps I (lift (statOrNull p)).
Proof. eapply keeps_any, Hstat. Qed.
Ltac keep := repeat first
  [ match goal with |- forall _, _ => intros ? end | apply keeps_asks | apply keeps_stat | apply Hwait | apply Hstatus
  | apply keeps_throw | (apply keeps_ret; done) | apply keeps_seq | apply keeps_catch | apply keeps_ite
  | (apply Hinert; by intros []) | done ].

Lemma keeps_startCopy s d mv ov : free d -> (mv = true -> free s) -> keeps I (startCopy s d mv ov).
Proof. intros Hd Hs. unfold startCopy. apply keeps_seq; [by apply Hcopy|]. keep. Qed.
Lemma keeps_folderStat p : keeps I (folderStat p).
Proof. unfold folderStat. keep. case_match; keep. Qed.
Lemma keeps_is_there p : keeps_to I (fun b => b = false -> free p) (is_there p).
Proof. unfold is_there. eapply keeps_bind; [apply Hstat|]. intros [s|] Hs; apply keeps_ret; [done|auto]. Qed.
Lemma keeps_freeName dir name isDir : keeps_to I (fun n => free (joinPath dir n)) (freeName dir name isDir is_there).
Proof.
  unfold freeName. generalize KEEP_BOTH_TRIES (start_count name isDir). intros k. induction k as [|k IH]; intros n; cbn [freeName_from].
  - apply keeps_throw.
  - eapply keeps_bind; [apply keeps_is_there|]. intros [|] Hf; cbn [negb]; [apply IH|apply keeps_ret; auto].
Qed.
Lemma keeps_remove p : free p -> keeps I (remove p).
Proof.
  intros Hp. cbn [remove side]. apply keeps_seq; [by apply Hdelete|]. intros job. apply keeps_seq; [apply Hwait|]. intros _.
  apply keeps_seq; [eapply keeps_any, keeps_is_there|]. keep.
Qed.
Lemma keeps_renamed a b : free a -> free b -> keeps I (renameChecked a b).
Proof. apply (keeps_renameChecked I free); [exact keeps_is_there|exact Hrename]. Qed.

Lemma keeps_place_copy item temp : free temp -> keeps_to I (undoes I) (place_copy item temp).
Proof.
  intros Hf. unfold place_copy. apply keeps_seq; [by apply keeps_startCopy|]. intros job. apply keeps_seq; [keep|].
  intros [| | | |]; try by apply keeps_ret. apply keeps_seq; [unfold jobFailure; keep|]. intros why. by apply keeps_ret.
Qed.
Lemma keeps_place_by item renames : (renames = true -> free item) -> keeps_place I free (place item renames).
Proof.
  intros Hi temp Hf. destruct renames; cbn [place]; [|by apply keeps_place_copy]. specialize (Hi eq_refl).
  apply (keeps_bind I (fun r => match r with Some pl => undoes I pl | None => True end)).
  - unfold place_rename. apply keeps_catch.
    + apply keeps_seq; [by apply keeps_renamed|]. intros _. apply keeps_seq; [keep|]. intros _. apply keeps_ret. by apply keeps_renamed.
    + keep.
  - intros [pl|] Hpl; [by apply keeps_ret|by apply keeps_place_copy].
Qed.
Lemma keeps_replaced dir item dest renames : free dest -> (renames = true -> free item) -> keeps I (replaceItem dir dest (place item renames)).
Proof.
  intros Hd Hi. apply (keeps_replaceItem I free); [exact keeps_is_there|exact Hrename|exact keeps_remove|done|by apply keeps_place_by].
Qed.
Lemma keeps_note e : keeps I (note e).
Proof. unfold note. keep. Qed.
Lemma keeps_send mode item dest ov : free dest -> (mode = Cut -> free item) -> keeps I (send mode item dest ov).
Proof.
  intros Hd Hi. unfold send. destruct mode.
  - apply keeps_seq; [by apply keeps_startCopy|]. keep.
  - specialize (Hi eq_refl). apply keeps_seq; [apply keeps_ite; [|keep]|].
    + apply keeps_catch; [apply keeps_seq; [by apply Hrename|keep]|keep].
    + intros sent. apply keeps_ite; [keep|]. apply keeps_seq; [by apply keeps_startCopy|]. keep.
Qed.
(** The folder an item is cut from is the one pasted into. *)
Lemma keeps_already dir mode item : keeps I
  (if decide (mode = Cut)
   then let from := parentPath item in
        if bool_decide (from = dir) then ret true
        else let* a := folderStat from in let* b := folderStat dir in ret (sameEntry a b)
   else ret false).
Proof.
  case_match; [|keep]. cbv zeta. apply keeps_ite; [keep|]. apply keeps_seq; [apply keeps_folderStat|]. intros a.
  apply keeps_seq; [apply keeps_folderStat|]. keep.
Qed.
End calls.

(** * What a paste reports *)

Section report.
Context {W : Type} `{!Console W}.
Local Abbreviation P := (W * Locals)%type.

(** The items a paste names as not done, however it came to that. *)
Definition notDone (l : Locals) : list str :=
  declined l ++ here l ++ halted l ++ leftRunning l ++ skipped (res l) ++ jobFailed (res l) ++ cancelled (res l) ++ (fst <$> failed (res l)).
Definition same_lists (p p' : P) : Prop := lists p'.2 = lists p.2.
Lemma same_lists_trans p p1 p2 : same_lists p p1 -> same_lists p1 p2 -> same_lists p p2.
Proof. unfold same_lists. congruence. Qed.

Lemma same_lists_notDone p p' : same_lists p p' -> notDone p'.2 = notDone p.2.
Proof. unfold same_lists, lists, notDone. intros H. by simplify_eq/=; congruence. Qed.

Lemma same_lists_rest p p' : same_lists p p' -> current p'.2 = current p.2 /\ skipped (res p'.2) = skipped (res p.2).
Proof. unfold same_lists, lists. intros H. split; congruence. Qed.
(** Calls that leave the lists as they are. *)
Local Abbreviation quiet_call m := (forall p, keeps (same_lists p) m).
Lemma lift_quiet_to {A} (Q : A -> Prop) (m : M W A) : (forall x, Q x) -> forall p, keeps_to (same_lists p) Q (lift m).
Proof. intros HQ p q Hq. split; [|auto]. by unfold lift; destruct (m q.1). Qed.
Lemma lift_quiet {A} (m : M W A) : quiet_call (lift m).
Proof. by apply lift_quiet_to. Qed.
Lemma modify_quiet f : inert f -> quiet_call (modify f).
Proof. intros Hf p q Hq. split; [|done]. eapply same_lists_trans; [exact Hq|]. apply Hf. Qed.
Lemma choose_quiet c : quiet_call (choose c).
Proof.
  intros p. unfold choose. apply keeps_seq; [apply keeps_asks|]. intros [choice|]; [by apply keeps_ret|].
  apply keeps_seq; [apply lift_quiet|]. intros d. apply keeps_seq; [|intros _; by apply keeps_ret].
  apply keeps_ite; [|by apply keeps_ret]. intros q Hq. split; [|done]. eapply same_lists_trans; [exact Hq|done].
Qed.
(** ** What handling one item may note *)

Definition marked (item : str) (p p' : P) : Prop :=
  current p'.2 = current p.2 /\ skipped (res p'.2) = skipped (res p.2) /\ notDone p'.2 ≡ₚ item :: notDone p.2.
(** Nothing is noted, or the item is, once, and the answer is then among [quiet]. *)
Definition tells {A} (item : str) (quiet : A -> Prop) (m : M P A) : Prop := forall p,
  post m p (fun r p' => same_lists p p' \/ (marked item p p' /\ exists x, r = Ok x /\ quiet x)).

Lemma tells_keeps {A} item quiet (m : M P A) : quiet_call m -> tells item quiet m.
Proof. intros H p. left. by apply H. Qed.
Lemma tells_bind {A B} item quiet (m : M P A) (k : A -> M P B) : quiet_call m -> (forall x, tells item quiet (k x)) -> tells item quiet (bind m k).
Proof.
  intros Hm Hk p. destruct (Hm p p eq_refl) as [H1 _]. unfold post, bind in *. destruct (m p) as [[x|e] p1]; [|by left]. simpl in H1.
  pose proof (same_lists_notDone _ _ H1) as Hn. destruct (same_lists_rest _ _ H1) as [Hc Hs].
  destruct (Hk x p1) as [H|[(H2 & H3 & H4) H]]; [left; by eapply same_lists_trans|right]. split; [|done].
  unfold marked. by rewrite <-Hn, <-Hc, <-Hs.
Qed.
Lemma tells_if {A} item quiet (b : bool) (m n : M P A) : tells item quiet m -> tells item quiet n -> tells item quiet (if b then m else n).
Proof. by destruct b. Qed.
Lemma tells_mark {A} item (quiet : A -> Prop) f k : (forall l, notDone (f l) ≡ₚ item :: notDone l /\ current (f l) = current l /\ skipped (res (f l)) = skipped (res l)) ->
  quiet_call k -> (forall p, exists x p', k p = (Ok x, p') /\ quiet x) -> tells item quiet (let* _ := modify f in k).
Proof.
  intros Hf Hk Hq p. destruct (Hf p.2) as (H1 & H2 & H3). right. unfold post, bind, modify. simpl.
  destruct (Hq (p.1, f p.2)) as (x & p' & E & Hx). destruct (Hk (p.1, f p.2) _ eq_refl) as [H4 _]. rewrite E in *. simpl in *.
  split; [|by eexists]. pose proof (same_lists_notDone _ _ H4) as Hn. destruct (same_lists_rest _ _ H4) as [Hc Hs]. simpl in *.
  unfold marked. by rewrite Hn, Hc, Hs.
Qed.
Lemma notDone_put (item : str) (a r l : list str) : r ≡ₚ item :: l -> a ++ r ≡ₚ item :: (a ++ l).
Proof. intros ->. symmetry. apply Permutation_middle. Qed.
Ltac mark1 := unfold notDone; simpl; rewrite <-?app_assoc; simpl; rewrite ?fmap_app; simpl;
  repeat first [reflexivity|apply notDone_put|symmetry; apply Permutation_cons_append].
Ltac marks := intros l; split_and!; [mark1|done..].

Lemma drop_here_tells item : tells item (fun x => x = None) (drop_here item).
Proof. unfold drop_here. apply tells_mark; [marks|intros p; by apply keeps_ret|]. intros p. by do 2 eexists. Qed.
Lemma decline_tells item : tells item (fun x : option str => x = None) (let* _ := modify (fun l => l <| declined := declined l ++ [item] |>) in ret None).
Proof. apply tells_mark; [marks|intros p; by apply keeps_ret|]. intros p. by do 2 eexists. Qed.
(** The calls of a paste, on any name, leave the lists alone. *)
Ltac quiet := intros ?; eapply keeps_any; first
  [ apply (keeps_send _ (fun _ => True)) | apply (keeps_replaced _ (fun _ => True)) | apply (keeps_freeName _ (fun _ => True))
  | apply (keeps_remove _ (fun _ => True)) | apply (keeps_already _ (fun _ => True)) | apply keeps_note ];
  intros; first [ done | by apply modify_quiet | by apply lift_quiet_to ].
Lemma note_quiet e : quiet_call (note e).
Proof. quiet. Qed.
Lemma remove_quiet p : quiet_call (remove p).
Proof. quiet. Qed.
Lemma replaced_quiet dir item dest renames : quiet_call (replaceItem dir dest (place item renames)).
Proof. quiet. Qed.
Lemma send_quiet mode item dest ov : quiet_call (send mode item dest ov).
Proof. quiet. Qed.
Lemma freeName_quiet dir name isDir : quiet_call (freeName dir name isDir is_there).
Proof. quiet. Qed.

Lemma replace_tells dir mode item dest renames : tells item (fun _ => True) (replace dir mode item dest renames).
Proof.
  unfold replace. apply tells_bind; [by apply modify_quiet|]. intros _. apply tells_bind; [apply replaced_quiet|]. intros [old|temp].
  - apply tells_keeps. intros p. apply keeps_seq; [destruct old; [apply note_quiet|by apply keeps_ret]|]. intros _.
    apply keeps_seq; [apply keeps_asks|]. intros moved. apply keeps_ite; [by apply modify_quiet|]. case_match; [|by apply keeps_ret].
    apply keeps_seq; [|intros gone; apply keeps_ite; [apply note_quiet|by apply keeps_ret]].
    apply keeps_catch; [apply remove_quiet|intros _; by apply keeps_ret].
  - apply tells_mark; [marks|destruct temp; [apply note_quiet|intros p; by apply keeps_ret]|]. intros p. by destruct temp; do 2 eexists.
Qed.

(** Handling an item makes it the current one, and notes at most it, once, and then nothing is left to wait for. *)
Definition handles (item : str) (m : M P (option str)) : Prop := forall p, exists p1,
  current p1.2 = item /\ skipped (res p1.2) = skipped (res p.2) /\ notDone p1.2 = notDone p.2
  /\ post m p (fun r p' => same_lists p1 p' \/ (marked item p1 p' /\ r = Ok None)).
Lemma one_item_handles dir mode volumes isDir left item : handles item (one_item dir mode volumes isDir left item).
Proof.
  intros p. exists (p.1, p.2 <| current := item |>). split_and!; [done..|]. unfold one_item, bind at 1, modify at 1. simpl.
  match goal with |- same_lists ?p1 (?m ?p1).2 \/ _ => assert (tells item (fun x => x = None) m) as H end; cycle 1.
  { destruct (H (p.1, p.2 <| current := item |>)) as [H1|[H1 (x & H2 & ->)]]; [by left|by right]. }
  apply tells_if; [apply tells_keeps; intros q; apply keeps_throw|]. apply tells_bind; [quiet|]. intros already.
  apply tells_if; [apply drop_here_tells|]. cbv zeta. apply tells_bind; [apply lift_quiet|]. intros [there|]; [|apply tells_keeps, send_quiet].
  apply tells_bind; [apply lift_quiet|]. intros own. apply tells_if; [apply drop_here_tells|]. apply tells_bind; [apply choose_quiet|]. intros [| |].
  - apply decline_tells.
  - apply tells_if; [apply decline_tells|]. apply tells_if; [|apply tells_keeps, send_quiet].
    intros q. unfold bind. pose proof (replace_tells dir mode item (joinPath dir (baseName item))
      (bool_decide (mode = Cut) && negb (bool_decide (sameDrive item dir volumes = Some false))) q) as H.
    unfold post in *. destruct (replace _ _ _ _ _ q) as [[[]|e] q']; simpl in *; [|destruct H as [H|(_ & x & [=] & _)]; by left].
    destruct H as [H|[H _]]; [by left|right]. split; [done|by eexists].
  - apply tells_bind; [apply freeName_quiet|]. intros name. apply tells_keeps, send_quiet.
Qed.

Lemma each_wait_spec job p : post (each_wait job) p (fun r p' => skipped (res p'.2) = skipped (res p.2) /\
  (notDone p'.2 = notDone p.2 \/ (notDone p'.2 ≡ₚ current p.2 :: notDone p.2 /\ r = Ok JLeft))).
Proof.
  unfold post, each_wait, bind, lift. destruct (waitJob job false p.1) as [[[| | | |]|e] w]; simpl; auto.
  split; [done|right]. split; [|done]. mark1.
Qed.

(** What the loop has added to the items not done since [p]: [item] at most. *)
Definition at_most (item : str) (p p' : P) : Prop :=
  skipped (res p'.2) = [] /\ (notDone p'.2 ≡ₚ notDone p.2 \/ notDone p'.2 ≡ₚ item :: notDone p.2).

(** The loop never throws; what it adds to the items not done is some of its own, each once. *)
Lemma each_spec one items : (forall item, handles item (one item)) -> forall p, skipped (res p.2) = [] ->
  exists p', each items one p = (Ok tt, p') /\ exists X, X ⊆+ items /\ notDone p'.2 ≡ₚ X ++ notDone p.2.
Proof.
  intros Hone. induction items as [|item items IH]; intros p Hskip; cbn [each].
  { exists p. split; [done|]. by exists []. }
  unfold bind at 1, asks. destruct (stopped p.1).
  { eexists. split; [done|]. exists (item :: items). split; [done|]. unfold notDone. simpl. rewrite Hskip. solve_Permutation. }
  assert (forall p', at_most item p p' -> exists p'', each items one p' = (Ok tt, p'')
    /\ exists Y, Y ⊆+ item :: items /\ notDone p''.2 ≡ₚ Y ++ notDone p.2) as Hgo.
  { intros p' [Hs Hp']. destruct (IH p' Hs) as (p'' & E & Y & HY & Hp''). exists p''. split; [done|]. destruct Hp' as [Hp'|Hp'].
    - exists Y. split; [by apply submseteq_cons|]. by rewrite Hp'', Hp'.
    - exists (item :: Y). split; [by apply submseteq_skip|]. rewrite Hp'', Hp'. symmetry. apply Permutation_middle. }
  assert (forall (p' : P) f, skipped (res p'.2) = [] -> notDone p'.2 = notDone p.2 ->
    (forall l, skipped (res l) = [] -> notDone (f l) ≡ₚ item :: items ++ notDone l) ->
    exists p'' : P, modify f p' = (Ok tt, p'') /\ exists Y, Y ⊆+ item :: items /\ notDone p''.2 ≡ₚ Y ++ notDone p.2) as Hend.
  { intros p' f Hs Hn Hf. eexists. split; [done|]. exists (item :: items). split; [done|]. simpl. by rewrite Hf, Hn. }
  destruct (Hone item p) as (p1 & Hc & Hs & Hn & H). rewrite Hskip in Hs. unfold bind at 1, catch at 1, bind at 1. unfold post in H.
  destruct (one item p) as [[[job|]|e] p2]; cbn [fst snd ret] in *.
  - destruct H as [H|[_ [=]]]. pose proof (same_lists_notDone _ _ H) as Hn2. destruct (same_lists_rest _ _ H) as [Hc2 Hs2].
    rewrite Hs in Hs2. rewrite Hn in Hn2. rewrite Hc in Hc2.
    destruct job as [|ch job]; [apply Hgo; split; [done|left; by rewrite Hn2]|].
    unfold bind at 1, catch at 1, bind at 1. pose proof (each_wait_spec (ch :: job) p2) as Hw. unfold post in Hw.
    destruct (each_wait _ p2) as [[e|e] p3]; cbn [fst snd ret] in *; destruct Hw as [Hs3 Hn3]; rewrite Hs2 in Hs3; rewrite Hn2, Hc2 in Hn3.
    + destruct e; try (apply Hgo; split; [done|by destruct Hn3 as [->|[? _]]; [left|right]]).
      all: destruct Hn3 as [Hn3|[_ [=]]]; apply Hgo; split; [done|right]; rewrite <-Hn3; mark1.
    + destruct Hn3 as [Hn3|[_ [=]]]. apply Hend; [done..|]. intros l Hl. unfold notDone. simpl. rewrite Hl. rewrite fmap_app. solve_Permutation.
  - apply Hgo. destruct H as [H|[(H1 & H2 & H3) _]]; [|split; [congruence|right; by rewrite <-Hn]].
    split; [by rewrite (proj2 (same_lists_rest _ _ H))|left]. by rewrite (same_lists_notDone _ _ H), Hn.
  - destruct H as [H|[_ [=]]]. pose proof (same_lists_notDone _ _ H) as Hn2. destruct (same_lists_rest _ _ H) as [Hc2 Hs2].
    rewrite Hs in Hs2. rewrite Hn in Hn2. unfold bind at 1, modify at 1. destruct (isTokenGone e).
    + match goal with |- context [modify ?g (_, ?f ?l)] => apply (Hend p2 (fun x => g (f x)) Hs2 Hn2) end.
      intros l Hl. unfold notDone. simpl. rewrite Hl, fmap_app. solve_Permutation.
    + apply Hgo. split; [done|right]. rewrite <-Hn2. mark1.
Qed.

Lemma filter_notin_app (l X : list str) : NoDup l -> X ⊆+ l -> base.filter (fun x => x ∉ X) l ++ X ≡ₚ l.
Proof.
  intros Hl HX. apply NoDup_Permutation; [|done|].
  - apply NoDup_app. split_and!; [by apply NoDup_filter| |]; [|destruct (submseteq_Permutation _ _ HX) as [k Hk]; rewrite Hk in Hl; by apply NoDup_app in Hl as [? _]].
    intros x Hx. by apply list_elem_of_filter in Hx as [? _].
  - intros x. rewrite elem_of_app, list_elem_of_filter. split; [|destruct (decide (x ∈ X)); auto].
    intros [[_ ?]|Hx]; [done|]. by apply (elem_of_submseteq _ _ x Hx HX).
Qed.

(** whatever the console answers, the person asked chooses and Stop does, a paste of items with
    different paths ends with a result, never an exception, that names every item exactly once: done,
    kept because the person said so, already in the folder, not started (a Replace that Stop ended
    included), still being copied by a job, failed or cancelled. *)
Theorem paste_names_each_once items destDir mode volumes (w : W) : NoDup (p_path <$> items) ->
  exists r w', pasteItems items destDir mode volumes w = (Ok r, w') /\
    r_done r ++ r_declined r ++ r_here r ++ skipped (r_batch r) ++ r_left r ++ jobFailed (r_batch r) ++ cancelled (r_batch r)
      ++ (fst <$> failed (r_batch r)) ≡ₚ p_path <$> items.
Proof.
  intros Hnd. unfold pasteItems.
  match goal with |- context [each ?ps ?one ?q] => destruct (fun H => each_spec one ps H q) as (p' & -> & X & HX & Hp') end;
    [intros item; apply one_item_handles|done|].
  destruct p' as [w' l]. simpl in Hp'. rewrite app_nil_r in Hp'. do 2 eexists. split; [done|]. rewrite <-Hp' in HX.
  unfold result_of. cbn [r_done r_declined r_here r_batch r_left skipped jobFailed cancelled failed].
  rewrite <-(filter_notin_app _ _ Hnd HX) at 2. apply Permutation_app_head. unfold notDone. simpl. rewrite <-app_assoc.
  do 2 apply Permutation_app_head. solve_Permutation.
Qed.
End report.

(** * What a paste leaves alone *)

Section spec.
Context {W X : Type} `{!Console W} (view : W -> str -> option X) (owes : W -> str -> Prop).

(** [view w p]: what is at [p]; [owes w p]: a job still running may change what is at [p]. A call changes
    what is inside the paths it names only, and what the jobs still running work on. *)
Definition inside (p q : str) : Prop := isInside p q = true.
Definition only (touch : str -> Prop) (w w' : W) : Prop := forall p, ~ touch p -> ~ owes w p -> view w' p = view w p /\ ~ owes w' p.
Class ConsoleSpec := {
  stat_spec p w : post (statOrNull p) w (fun r w' => only (fun _ => False) w w' /\ (r = Ok None -> forall q, inside q p -> view w' q = None));
  fs_rename_spec a b w : only (fun p => inside p a \/ inside p b) w (fs_rename a b w).2;
  fs_copy_spec s d mv ov w : only (fun p => inside p d \/ (mv = true /\ inside p s)) w (fs_copy s d mv ov w).2;
  fs_delete_spec d w : only (fun p => inside p d) w (fs_delete d w).2;
  wait_spec job b w : only (fun _ => False) w (waitJob job b w).2;
  status_spec job w : only (fun _ => False) w (jobs_status job w).2;
  decide_spec c w : only (fun _ => False) w (decide_ c w).2
}.
End spec.

Section spared.
Context {W X : Type} `{!Console W} (view : W -> str -> option X) (owes : W -> str -> Prop) `{!ConsoleSpec view owes}.
Context (w0 : W) (dir : str) (mode : PasteMode) (paths : list str) (agreed : str -> Prop).
Local Abbreviation P := (W * Locals)%type.
Local Abbreviation only := (only view owes).

(** The person says Replace about names in [agreed] only; for all the rest, when every item's name is. *)
Definition all_agreed : Prop := forall item, item ∈ paths -> agreed (joinPath dir (baseName item)).
Definition asked : Prop := forall c w d, (decide_ c w).1 = Ok d -> d_choice d = CReplace -> agreed (c_dest c) /\ (d_all d = true -> all_agreed).
Context (Hasked : asked).

(** What is there at the start, is no item cut and not agreed to be replaced. *)
Definition spared (p : str) : Prop :=
  is_Some (view w0 p) /\ (mode = Cut -> forall item, item ∈ paths -> ~ inside p item) /\ forall d, agreed d -> ~ inside p d.
Definition intact (p : P) : Prop :=
  (forall q, spared q -> view p.1 q = view w0 q /\ ~ owes p.1 q) /\ (always p.2 = Some CReplace -> all_agreed).
Definition spares (d : str) : Prop := forall q, spared q -> ~ inside q d.

Lemma keeps_lift {A} (touch : str -> Prop) (Q : A -> Prop) (m : M W A) :
  (forall w, only touch w (m w).2) -> (forall q, spared q -> ~ touch q) -> (forall w l x, intact ((m w).2, l) -> (m w).1 = Ok x -> Q x) ->
  keeps_to intact Q (lift m).
Proof.
  intros Hm Ht HQ [w l] [H1 H2]. unfold lift. simpl in *. specialize (Hm w). specialize (HQ w).
  assert (intact ((m w).2, l)) as H3; [|destruct (m w); simpl in *; by eauto].
  split; [|done]. intros q Hq. destruct (H1 q Hq) as [E Ho]. rewrite <-E. apply Hm; [by apply Ht|done].
Qed.
Lemma intact_modify f : (forall l, always (f l) = always l) -> keeps intact (modify f).
Proof. intros Hf [w l] [H1 H2]. split; [|done]. split; [done|]. simpl in *. by rewrite Hf. Qed.
Lemma intact_inert f : inert f -> keeps intact (modify f).
Proof. intros Hf. apply intact_modify. intros l. apply Hf. Qed.

Lemma intact_stat p : keeps_to intact (fun s => s = None -> spares p) (lift (statOrNull p)).
Proof.
  apply (keeps_lift (fun _ => False)); [intros w; exact (proj1 (stat_spec view owes p w))|tauto|]. intros w l s [H _] E -> q Hq Hp.
  pose proof (stat_spec view owes p w) as [_ Hn]. specialize (Hn E q Hp). destruct (H q Hq) as [Hv _]. simpl in Hv.
  destruct Hq as [[x Hx] _]. congruence.
Qed.
Lemma intact_rename a b : spares a -> spares b -> keeps intact (lift (fs_rename a b)).
Proof. intros Ha Hb. eapply keeps_lift; [intros w; apply (fs_rename_spec view owes)|intros q Hq; specialize (Ha q Hq); specialize (Hb q Hq); tauto|done]. Qed.
Lemma intact_copy s d mv ov : spares d -> (mv = true -> spares s) -> keeps intact (lift (fs_copy s d mv ov)).
Proof.
  intros Hd Hs. eapply keeps_lift; [intros w; apply (fs_copy_spec view owes)| |done]. intros q Hq [H|[E H]]; [by apply (Hd q)|by apply (Hs E q)].
Qed.
Lemma intact_delete p : spares p -> keeps intact (lift (fs_delete p)).
Proof. intros Hp. eapply keeps_lift; [intros w; apply (fs_delete_spec view owes)|intros q Hq; by apply Hp|done]. Qed.
Lemma intact_wait job b : keeps intact (lift (waitJob job b)).
Proof. eapply keeps_lift; [intros w; apply (wait_spec view owes)|tauto|done]. Qed.
Lemma intact_status job : keeps intact (lift (jobs_status job)).
Proof. eapply keeps_lift; [intros w; apply (status_spec view owes)|tauto|done]. Qed.
#[local] Hint Resolve intact_inert intact_stat intact_rename intact_copy intact_delete intact_wait intact_status : core.

Lemma cut_spares item : item ∈ paths -> mode = Cut -> spares item.
Proof. intros Hi Hm q (_ & Hq & _). by apply Hq. Qed.
Lemma agreed_spares d : agreed d -> spares d.
Proof. intros Hd q (_ & _ & Hq). by apply Hq. Qed.
Lemma intact_choose item c : item ∈ paths -> c_dest c = joinPath dir (baseName item) ->
  keeps_to intact (fun choice => choice = CReplace -> agreed (c_dest c)) (choose c).
Proof.
  intros Hi Hc. unfold choose.
  apply (keeps_bind _ (fun a => a = Some CReplace -> all_agreed)).
  { intros p [H1 H2]. split; [done|]. by intros a [= <-]. }
  intros [choice|] Ha; [apply keeps_ret; intros ->; rewrite Hc; by apply Ha|].
  apply (keeps_bind _ (fun d => d_choice d = CReplace -> agreed (c_dest c) /\ (d_all d = true -> all_agreed))).
  { eapply keeps_lift; [intros w; apply (decide_spec view owes)|tauto|]. intros w l d _ E. by eapply Hasked. }
  intros d Hd. apply keeps_seq; [|intros _; apply keeps_ret; intros E; by apply Hd].
  destruct (d_all d); [|by apply keeps_ret]. intros [w l] [H1 H2]. split; [|done]. split; [done|]. simpl in *. intros [= E]. by apply Hd.
Qed.
Ltac call := auto; intros; auto using cut_spares.
Lemma intact_replace item dest renames : spares dest -> (mode = Cut -> spares item) -> (renames = true -> spares item) ->
  keeps intact (replace dir mode item dest renames).
Proof.
  intros Hd Hm Hr. unfold replace. apply keeps_seq; [by apply intact_modify|]. intros _.
  apply keeps_seq; [apply (keeps_replaced _ spares); call|].
  assert (forall e, keeps intact (note e)) as Hn by (intros e; by apply keeps_note, intact_inert).
  intros [old|temp]; (apply keeps_seq; [|intros _]).
  - destruct old; [done|by apply keeps_ret].
  - apply keeps_seq; [apply keeps_asks|]. intros moved. apply keeps_ite; [by apply intact_modify|]. case_match; [|by apply keeps_ret].
    apply keeps_seq; [|intros gone; apply keeps_ite; [done|by apply keeps_ret]].
    apply keeps_catch; [apply (keeps_remove _ spares); call|intros _; by apply keeps_ret].
  - by apply intact_modify.
  - destruct temp; [done|by apply keeps_ret].
Qed.
Lemma intact_one_item volumes isDir left item : item ∈ paths -> keeps intact (one_item dir mode volumes isDir left item).
Proof.
  intros Hi. unfold one_item. apply keeps_seq; [by apply intact_modify|]. intros _. apply keeps_ite; [apply keeps_throw|].
  assert (keeps intact (drop_here item)) as Hdrop.
  { apply keeps_seq; [by apply intact_modify|]. intros _. by apply keeps_ret. }
  assert (keeps intact (let* _ := modify (fun l => l <| declined := declined l ++ [item] |>) in ret (None : option str))) as Hdecline.
  { apply keeps_seq; [by apply intact_modify|]. intros _. by apply keeps_ret. }
  assert (forall dest ov, spares dest -> keeps intact (send mode item dest ov)) as Hsend.
  { intros dest ov Hd. apply (keeps_send _ spares); call. }
  apply keeps_seq; [apply (keeps_already _ spares); call|]. intros already. apply keeps_ite; [done|]. cbv zeta.
  eapply keeps_bind; [apply intact_stat|]. intros [there|] Hnone; [|by apply Hsend, Hnone].
  apply keeps_seq; [eapply keeps_any, intact_stat|]. intros own. apply keeps_ite; [done|].
  eapply keeps_bind; [by apply (intact_choose item)|]. intros [| |] Hchoice; [done| |].
  - pose proof (agreed_spares _ (Hchoice eq_refl)) as Hd. apply keeps_ite; [done|]. apply keeps_ite; [|by apply Hsend].
    apply keeps_seq; [|intros _; by apply keeps_ret]. apply intact_replace; [done|by apply cut_spares|].
    intros H. apply cut_spares; [done|]. by apply andb_true_iff in H as [?%bool_decide_eq_true _].
  - eapply keeps_bind; [apply (keeps_freeName _ spares); call|]. intros name Hname. by apply Hsend.
Qed.
Lemma intact_each one items : (forall item, item ∈ items -> keeps intact (one item)) -> keeps intact (each items one).
Proof.
  intros Hone. induction items as [|item items IH]; cbn [each]; [by apply keeps_ret|].
  assert (keeps intact (each items one)) as Hrest by (apply IH; intros i Hi; apply Hone; by right).
  assert (forall f, (forall l, always (f l) = always l) -> keeps intact (let* _ := modify f in each items one)) as Hthen.
  { intros f Hf. apply keeps_seq; [by apply intact_modify|done]. }
  apply keeps_seq; [apply keeps_asks|]. intros stop. apply keeps_ite; [by apply intact_modify|].
  apply keeps_seq.
  { apply keeps_catch; [apply keeps_seq; [apply Hone; by left|]|]; intros ?; by apply keeps_ret. }
  intros [[[|ch job]|]|e]; [done| |done|].
  - apply keeps_seq.
    + apply keeps_catch; [|intros e; by apply keeps_ret]. apply keeps_seq; [|intros e; by apply keeps_ret].
      apply keeps_seq; [apply intact_wait|]. intros e. apply keeps_seq; [|intros _; by apply keeps_ret].
      destruct e; try by apply keeps_ret. by apply intact_modify.
    + intros [[| | | |]|e]; first [done|by apply Hthen|by apply intact_modify].
  - apply keeps_seq; [by apply intact_modify|]. intros _. apply keeps_ite; [by apply intact_modify|done].
Qed.
End spared.

(** C13: a paste touches nothing but the items it cuts and what the person agreed to replace: when no
    job was running before it, whatever else was on the console is there as it was when the paste
    ends, in every way a call can fail, and no job it leaves running can change it. *)
Theorem paste_spares_the_rest {W X} `{!Console W} (view : W -> str -> option X) owes `{!ConsoleSpec view owes}
  items destDir mode volumes agreed w r w' :
  let paths := p_path <$> items in
  asked (folder_of destDir) paths agreed -> (forall p, ~ owes w p) ->
  pasteItems items destDir mode volumes w = (r, w') ->
  forall p x, view w p = Some x ->
    (mode = Cut -> forall item, item ∈ paths -> isInside p item = false) ->
    (forall d, agreed d -> isInside p d = false) ->
    view w' p = Some x /\ ~ owes w' p.
Proof.
  intros paths Hasked Howes E p x Hx Hcut Hag.
  assert (spared view w mode paths agreed p) as Hp.
  { split_and!; [by eexists| |]; unfold inside.
    - intros Hm item Hi. by rewrite (Hcut Hm item Hi).
    - intros d Hd. by rewrite (Hag d Hd). }
  assert (keeps (intact view owes w (folder_of destDir) mode paths agreed) (each paths (fun item =>
    one_item (folder_of destDir) mode volumes (dir_of items item) (left_after paths item) item))) as Hk.
  { apply intact_each; [done..|]. intros item Hi. by apply intact_one_item. }
  destruct (Hk (w, no_locals)) as [[H _] _]; [split; [by split|done]|]. specialize (H p Hp).
  unfold pasteItems in E. fold paths in E. destruct (each _ _ _) as [[u|e] [w1 l]]; simpl in *; injection E as _ <-; by rewrite Hx in H.
Qed.

(** ** A console to run it on *)

(** Files by their paths; copies and deletes are done at once, the person says Replace about one name and
    Skip about the rest. *)
#[local] Instance disk (yes : str) : Console (gmap str Z) := {|
  statOrNull q := fun w => (Ok (if existsb (fun p => isInside p q) (map_to_list w).*1 then Some {| kind := js "file"; dev := None; ino := None |} else None), w);
  fs_rename a b := fun w => match w !! a with Some x => (Ok tt, <[b := x]> (delete a w)) | None => (Throw (ApiError 404 (js "not_found")), w) end;
  fs_copy s d mv _ := fun w => match w !! s with
    | Some x => (Ok (js "j"), <[d := x]> (if mv then delete s w else w)) | None => (Throw (ApiError 404 (js "not_found")), w) end;
  fs_delete d := fun w => (Ok (js "j"), base.filter (fun e => isInside e.1 d = false) w);
  waitJob _ _ := ret JDone;
  jobs_status _ := ret None;
  decide_ c := ret {| d_choice := if bool_decide (c_dest c = yes) then CReplace else CSkip; d_all := false |};
  stopped _ := false |}.
Definition nothing_runs (w : gmap str Z) (p : str) : Prop := False.
Lemma isInside_refl p : isInside p p = true.
Proof. unfold isInside. by rewrite bool_decide_true. Qed.
Definition disk_view (w : gmap str Z) (p : str) : option Z := w !! p.
Lemma disk_spec yes : ConsoleSpec (Console0 := disk yes) disk_view nothing_runs.
Proof.
  assert (forall (w : gmap str Z) a b x p, ~ inside p a -> ~ inside p b -> <[b := x]> (delete a w) !! p = w !! p) as Hput.
  { intros w a b x p Ha Hb. rewrite lookup_insert_ne, lookup_delete_ne; [done|..]; intros <-; [by apply Ha, isInside_refl|by apply Hb, isInside_refl]. }
  split; try (by intros; intros p; intros; split; [|intros []]).
  - intros p w. split; [by intros q; split|]. unfold disk_view. simpl. intros [= E] q Hq. apply eq_None_not_Some. intros [x Hx].
    assert (existsb (fun p0 => isInside p0 p) (map_to_list w).*1 = true) as H; [|by rewrite H in E].
    apply existsb_exists. exists q. split; [|done]. apply list_elem_of_In, list_elem_of_fmap. exists (q, x). split; [done|]. by apply elem_of_map_to_list.
  - intros a b w p Ht _. split; [|by intros []]. unfold disk_view. simpl. case_match; [|done]. apply Hput; tauto.
  - intros s d mv ov w p Ht _. split; [|by intros []]. unfold disk_view. simpl. case_match; [|done]. destruct mv; [apply Hput; tauto|].
    simpl. rewrite lookup_insert_ne; [done|]. intros <-. apply Ht. left. apply isInside_refl.
  - intros d w p Ht _. split; [|by intros []]. unfold disk_view. simpl. apply option_eq. intros x.
    rewrite map_lookup_filter_Some. simpl. unfold inside in Ht. destruct (isInside p d); [by destruct Ht|tauto].
Qed.
Definition d_items : list PasteItem := (fun p => {| p_path := js p; p_dir := false |}) <$> ["/s/a"; "/s/b"; "/s/c"]%string.
Definition d_world : gmap str Z := list_to_map [(js "/s/a", 1); (js "/s/b", 2); (js "/s/c", 3); (js "/d/b", 4); (js "/d/c", 5)].

Definition d_run : Result PasteResult * gmap str Z := pasteItems (Console0 := disk (js "/d/b")) d_items (js "/d/") Cut [] d_world.
Lemma disk_asked yes dir paths : asked (Console0 := disk yes) dir paths (fun d => d = yes).
Proof. intros c w d [= <-]. simpl. by case_bool_decide. Qed.
Example cut_run : match d_run with
  | (Ok r, w') => Some (r_done r, r_declined r, disk_view w' (js "/d/a"), disk_view w' (js "/d/b"), disk_view w' (js "/s/c"))
  | _ => None end = Some ([js "/s/a"; js "/s/b"], [js "/s/c"], Some 1, Some 2, Some 3).
Proof. vm_compute. reflexivity. Qed.

Lemma paste_names_each_once_witness : NoDup (p_path <$> d_items) /\
  exists r w', pasteItems (Console0 := disk (js "/d/b")) d_items (js "/d/") Cut [] d_world = (Ok r, w') /\
    r_done r ++ r_declined r ++ r_here r ++ skipped (r_batch r) ++ r_left r ++ jobFailed (r_batch r) ++ cancelled (r_batch r)
      ++ (fst <$> failed (r_batch r)) ≡ₚ p_path <$> d_items.
Proof.
  assert (NoDup (p_path <$> d_items)) as H by (apply (bool_decide_unpack _); vm_compute; exact I).
  split; [exact H|exact (paste_names_each_once d_items (js "/d/") Cut [] d_world H)].
Defined.
Lemma paste_spares_the_rest_witness :
  disk_view d_run.2 (js "/d/b") = Some 2 /\ disk_view d_run.2 (js "/d/c") = Some 5 /\ ~ nothing_runs d_run.2 (js "/d/c").
Proof.
  split; [vm_compute; reflexivity|].
  apply (paste_spares_the_rest (Console0 := disk (js "/d/b")) disk_view nothing_runs (ConsoleSpec0 := disk_spec (js "/d/b"))
    d_items (js "/d/") Cut [] (fun d => d = js "/d/b") d_world d_run.1).
  - apply disk_asked.
  - intros p H. exact H.
  - apply surjective_pairing.
  - vm_compute. reflexivity.
  - intros _ item Hi. repeat (apply elem_of_cons in Hi as [->|Hi]; [vm_compute; reflexivity|]). by apply elem_of_nil in Hi.
  - intros d ->. vm_compute. reflexivity.
Defined.
