(* ===== verification/Qr.v ===== *)
(** The QR code of a link (client/src/console/ui/qr.ts): bytes, error correction, the symbol's modules
    and the choice of the mask. [modules[y][x]] is a function of the two coordinates; a loop is a fold
    over the values its variable takes. Text is made of Latin-1 characters. *)
From S2P Require Import Prelude.
From stdpp Require Import list_numbers.
#[local] Open Scope Z_scope.

Inductive Ecl := L | M.
#[export] Instance ecl_eq_dec : EqDecision Ecl.
Proof. solve_decision. Defined.

(** * Tables and sizes *)

Definition ECC_PER_BLOCK (ecl : Ecl) : list Z :=
  match ecl with
  | L => [-1; 7; 10; 15; 20; 26; 18; 20; 24; 30; 18]
  | M => [-1; 10; 16; 26; 18; 24; 16; 18; 22; 22; 26]
  end.
Definition BLOCKS (ecl : Ecl) : list Z :=
  match ecl with
  | L => [-1; 1; 1; 1; 1; 1; 2; 2; 2; 2; 4]
  | M => [-1; 1; 1; 1; 2; 2; 4; 4; 4; 5; 5]
  end.
Definition FORMAT_BITS (ecl : Ecl) : Z := match ecl with L => 1 | M => 0 end.
Definition MAX_VERSION : Z := 10.
(** [table[i]] of an index in range. *)
Definition at_ (table : list Z) (i : Z) : Z := nth (Z.to_nat i) table 0.

Definition rawModules (ver : Z) : Z :=
  let n := (16 * ver + 128) * ver + 64 in
  if 2 <=? ver then
    let align := ver / 7 + 2 in
    let n := n - ((25 * align - 10) * align - 55) in
    if 7 <=? ver then n - 36 else n
  else n.
Definition dataCodewords (ver : Z) (ecl : Ecl) : Z :=
  rawModules ver / 8 - at_ (ECC_PER_BLOCK ecl) ver * at_ (BLOCKS ecl) ver.

(** * Error correction *)

(** [for (let i = n - 1; i >= 0; i--)] *)
Definition down (n : Z) : list Z := reverse (seqZ 0 n).

Definition gf_step (x y z i : Z) : Z :=
  let z := Z.lxor (Z.shiftl z 1) (Z.shiftr z 7 * 0x11d) in
  Z.lxor z (Z.land (Z.shiftr y i) 1 * x).
Definition gfMul (x y : Z) : Z := Z.land (fold_left (gf_step x y) (down 8) 0) 0xff.

(** The inner loop of [rsDivisor]: each coefficient times [root], plus the next one as it was. *)
Fixpoint times_root (root : Z) (out : list Z) : list Z :=
  match out with
  | [] => []
  | a :: out' => (match out' with [] => gfMul a root | b :: _ => Z.lxor (gfMul a root) b end) :: times_root root out'
  end.
Definition rsDivisor (degree : Z) : list Z :=
  (fold_left (fun '(out, root) _ => (times_root root out, gfMul root 0x02)) (seqZ 0 degree)
     (replicate (Z.to_nat (degree - 1)) 0 ++ [1], 1)).1.

Definition rs_step (divisor out : list Z) (b : Z) : list Z :=
  let factor := Z.lxor b (hd 0 out) in
  zip_with (fun o coef => Z.lxor o (gfMul coef factor)) (tl out ++ [0]) divisor.
Definition rsRemainder (data divisor : list Z) : list Z :=
  fold_left (rs_step divisor) data ((fun _ => 0) <$> divisor).

(** [TextEncoder]. *)
Definition utf8_char (c : ascii) : list Z :=
  if code c <? 128 then [code c] else [Z.lor 0xc0 (Z.shiftr (code c) 6); Z.lor 0x80 (Z.land (code c) 0x3f)].
Definition utf8 (text : str) : list Z := text ≫= utf8_char.

(** * The codewords *)

Definition countBits (ver : Z) : Z := if ver <=? 9 then 8 else 16.
Definition fits (bytes : list Z) (ecl : Ecl) (ver : Z) : bool :=
  4 + countBits ver + Z.of_nat (length bytes) * 8 <=? dataCodewords ver ecl * 8.
Definition versionFor (bytes : list Z) (ecl : Ecl) : option Z := List.find (fits bytes ecl) (seqZ 1 MAX_VERSION).

Definition put (val len : Z) : list bool := (fun i => Z.testbit val i) <$> down len.
Definition len {A} (l : list A) : Z := Z.of_nat (length l).
(** [for (let pad = 0xec; bits.length < capBits; pad ^= 0xec ^ 0x11) put(pad, 8)] *)
Fixpoint pad_from (fuel : nat) (bits : list bool) (pad capBits : Z) : list bool :=
  match fuel with
  | O => bits
  | S fuel => if len bits <? capBits then pad_from fuel (bits ++ put pad 8) (Z.lxor pad (Z.lxor 0xec 0x11)) capBits else bits
  end.
Definition bitStream (bytes : list Z) (ver : Z) (ecl : Ecl) : list bool :=
  let bits := put 4 4 ++ put (len bytes) (countBits ver) ++ (bytes ≫= fun b => put b 8) in
  let capBits := dataCodewords ver ecl * 8 in
  let bits := bits ++ put 0 (Z.min 4 (capBits - len bits)) in
  let bits := bits ++ put 0 ((8 - len bits mod 8) mod 8) in
  pad_from (Z.to_nat capBits) bits 0xec capBits.
Definition byte_of (bits : list bool) : Z := fold_left (fun b bit => Z.lor (Z.shiftl b 1) (Z.b2z bit)) bits 0.
Fixpoint bytes_from (n : nat) (bits : list bool) : list Z :=
  match n with O => [] | S n => byte_of (take 8 bits) :: bytes_from n (drop 8 bits) end.
Definition dataBytes (bits : list bool) : list Z := bytes_from (length bits / 8) bits.

(** The blocks, each its data, a filler where it is a short one, and its error correction. *)
Definition shortLen (ver : Z) (ecl : Ecl) : Z := rawModules ver / 8 / at_ (BLOCKS ecl) ver.
Definition nShort (ver : Z) (ecl : Ecl) : Z := at_ (BLOCKS ecl) ver - (rawModules ver / 8) mod at_ (BLOCKS ecl) ver.
Definition split_step {A} (ver : Z) (ecl : Ecl) : list (list A) * list A -> Z -> list (list A) * list A := fun '(out, rest) i =>
  let n := Z.to_nat (shortLen ver ecl - at_ (ECC_PER_BLOCK ecl) ver + (if i <? nShort ver ecl then 0 else 1)) in
  (out ++ [take n rest], drop n rest).
Definition split_data {A} (ver : Z) (ecl : Ecl) (data : list A) : list (list A) :=
  (fold_left (split_step ver ecl) (seqZ 0 (at_ (BLOCKS ecl) ver)) ([], data)).1.
Definition with_ecc {A} (filler : A) (ecc : list A -> list A) (short : Z) (i : nat) (dat : list A) : list A :=
  (if Z.of_nat i <? short then dat ++ [filler] else dat) ++ ecc dat.
Definition interleave {A} (skip short : Z) (blocks : list (list A)) : list A :=
  seqZ 0 (len (hd [] blocks)) ≫= fun i =>
    imap (fun j block => (j, block)) blocks ≫= fun '(j, block) =>
      if negb (i =? skip) || (short <=? Z.of_nat j) then option_list (block !! Z.to_nat i) else [].
Definition codewordsOf (ver : Z) (ecl : Ecl) (data : list Z) : list Z :=
  let eccLen := at_ (ECC_PER_BLOCK ecl) ver in
  let div := rsDivisor eccLen in
  let blocks := imap (with_ecc 0 (fun dat => rsRemainder dat div) (nShort ver ecl)) (split_data ver ecl data) in
  interleave (shortLen ver ecl - eccLen) (nShort ver ecl) blocks.

(** * The symbol *)

Record Grid := { modules : Z -> Z -> bool; isFn : Z -> Z -> bool }.
#[export] Instance settable_grid : Settable Grid := fun g => {| modules := modules g; isFn := isFn g |}.
Definition blank : Grid := {| modules := fun _ _ => false; isFn := fun _ _ => false |}.

(** [modules[y][x] = v] *)
Definition write (m : Z -> Z -> bool) (x y : Z) (v : bool) : Z -> Z -> bool :=
  fun y' x' => if (y' =? y) && (x' =? x) then v else m y' x'.
Definition setFn (g : Grid) (x y : Z) (dark : bool) : Grid :=
  {| modules := write (modules g) x y dark; isFn := write (isFn g) x y true |}.
(** [for (const v of l) body(v)] *)
Definition for_ {A B} (l : list A) (body : B -> A -> B) (s : B) : B := fold_left body l s.

Definition timing (size : Z) (g : Grid) : Grid :=
  for_ (seqZ 0 size) (fun g i => setFn (setFn g 6 i (i mod 2 =? 0)) i 6 (i mod 2 =? 0)) g.
Definition finder (size cx cy : Z) (g : Grid) : Grid :=
  for_ (seqZ (-4) 9) (fun g dy => for_ (seqZ (-4) 9) (fun g dx =>
    let d := Z.max (Z.abs dx) (Z.abs dy) in
    let x := cx + dx in
    let y := cy + dy in
    if (0 <=? x) && (x <? size) && (0 <=? y) && (y <? size) then setFn g x y (negb (d =? 2) && negb (d =? 4)) else g) g) g.

(** The alignment patterns' centres: 6, then down from the far edge, each put second. *)
Fixpoint align_from (fuel : nat) (n step pos : Z) (align : list Z) : list Z :=
  match fuel with
  | O => align
  | S fuel => if len align <? n then align_from fuel n step (pos - step) (take 1 align ++ [pos] ++ drop 1 align) else align
  end.
Definition ceil_div (a b : Z) : Z := - (- a / b).
Definition alignOf (ver : Z) : list Z :=
  if 1 <? ver then
    let n := ver / 7 + 2 in
    let step := ceil_div (ver * 4 + 4) (n * 2 - 2) * 2 in
    align_from (Z.to_nat n) n step (ver * 4 + 17 - 7) [6]
  else [].
Definition alignment (ver : Z) (g : Grid) : Grid :=
  let align := alignOf ver in
  let n := len align in
  for_ (seqZ 0 n) (fun g i => for_ (seqZ 0 n) (fun g j =>
    if ((i =? 0) && (j =? 0)) || ((i =? 0) && (j =? n - 1)) || ((i =? n - 1) && (j =? 0)) then g
    else for_ (seqZ (-2) 5) (fun g dy => for_ (seqZ (-2) 5) (fun g dx =>
      setFn g (at_ align i + dx) (at_ align j + dy) (negb (Z.max (Z.abs dx) (Z.abs dy) =? 1))) g) g) g) g.

Definition formatBits (ecl : Ecl) (m : Z) : Z :=
  let d := Z.lor (Z.shiftl (FORMAT_BITS ecl) 3) m in
  let rem := for_ (seqZ 0 10) (fun rem _ => Z.lxor (Z.shiftl rem 1) (Z.shiftr rem 9 * 0x537)) d in
  Z.lxor (Z.lor (Z.shiftl d 10) rem) 0x5412.
Definition drawFormat (size : Z) (ecl : Ecl) (m : Z) (g : Grid) : Grid :=
  let bit i := Z.testbit (formatBits ecl m) i in
  let g := for_ (seqZ 0 6) (fun g i => setFn g 8 i (bit i)) g in
  let g := setFn g 8 7 (bit 6) in
  let g := setFn g 8 8 (bit 7) in
  let g := setFn g 7 8 (bit 8) in
  let g := for_ (seqZ 9 6) (fun g i => setFn g (14 - i) 8 (bit i)) g in
  let g := for_ (seqZ 0 8) (fun g i => setFn g (size - 1 - i) 8 (bit i)) g in
  let g := for_ (seqZ 8 7) (fun g i => setFn g 8 (size - 15 + i) (bit i)) g in
  setFn g 8 (size - 8) true.
Definition versionBits (ver : Z) : Z :=
  let rem := for_ (seqZ 0 12) (fun rem _ => Z.lxor (Z.shiftl rem 1) (Z.shiftr rem 11 * 0x1f25)) ver in
  Z.lor (Z.shiftl ver 12) rem.
Definition drawVersion (size ver : Z) (g : Grid) : Grid :=
  if 7 <=? ver then
    for_ (seqZ 0 18) (fun g i =>
      let dark := Z.testbit (versionBits ver) i in
      let a := size - 11 + i mod 3 in
      let b := i / 3 in
      setFn (setFn g a b dark) b a dark) g
  else g.

(** The places of the zigzag, in the order it visits them. *)
Fixpoint rights (fuel : nat) (right : Z) : list Z :=
  match fuel with
  | O => []
  | S fuel =>
      if 1 <=? right then
        let right := if right =? 6 then 5 else right in
        right :: rights fuel (right - 2)
      else []
  end.
Definition zigzag (size : Z) : list (Z * Z) :=
  rights (Z.to_nat size) (size - 1) ≫= fun right =>
    seqZ 0 size ≫= fun vert =>
      (fun j =>
         let up := Z.land (right + 1) 2 =? 0 in
         (right - j, if up then size - 1 - vert else vert)) <$> [0; 1].
Definition codewordBit (codewords : list Z) (at_bit : Z) : bool :=
  Z.testbit (at_ codewords (Z.shiftr at_bit 3)) (7 - Z.land at_bit 7).
Definition place (codewords : list Z) : Grid * Z -> Z * Z -> Grid * Z := fun '(g, at_bit) '(x, y) =>
  if negb (isFn g y x) && (at_bit <? len codewords * 8)
  then (g <| modules := write (modules g) x y (codewordBit codewords at_bit) |>, at_bit + 1) else (g, at_bit).

Definition inv (m x y : Z) : bool :=
  match m with
  | 0 => (x + y) mod 2 =? 0
  | 1 => y mod 2 =? 0
  | 2 => x mod 3 =? 0
  | 3 => (x + y) mod 3 =? 0
  | 4 => (x / 3 + y / 2) mod 2 =? 0
  | 5 => (x * y) mod 2 + (x * y) mod 3 =? 0
  | 6 => ((x * y) mod 2 + (x * y) mod 3) mod 2 =? 0
  | _ => ((x + y) mod 2 + (x * y) mod 3) mod 2 =? 0
  end.
(** [modules] where x and y are in the symbol and not a function pattern's, turned over by the mask. *)
Definition applyMask (size m : Z) (g : Grid) : Grid :=
  g <| modules := fun y x =>
    if (0 <=? y) && (y <? size) && (0 <=? x) && (x <? size) && negb (isFn g y x) && inv m x y
    then negb (modules g y x) else modules g y x |>.

(** * The penalty of a mask *)

Definition addHistory (size run : Z) (hist : list Z) : list Z :=
  (if at_ hist 0 =? 0 then run + size else run) :: removelast hist.
Definition countFinders (hist : list Z) : Z :=
  let n := at_ hist 1 in
  let core := (0 <? n) && (at_ hist 2 =? n) && (at_ hist 3 =? n * 3) && (at_ hist 4 =? n) && (at_ hist 5 =? n) in
  Z.b2z (core && (n * 4 <=? at_ hist 0) && (n <=? at_ hist 6)) + Z.b2z (core && (n * 4 <=? at_ hist 6) && (n <=? at_ hist 0)).
Definition terminate (size : Z) (color : bool) (run : Z) (hist : list Z) : Z :=
  let '(run, hist) := if color then (0, addHistory size run hist) else (run, hist) in
  countFinders (addHistory size (run + size) hist).

(** One row or column: [line b] its modules. *)
Record Scan := { color : bool; run : Z; hist : list Z; score : Z }.
Definition scan_step (size : Z) (line : Z -> bool) (s : Scan) (b : Z) : Scan :=
  let v := line b in
  if Bool.eqb v (color s) then
    let run := run s + 1 in
    {| color := color s; run := run; hist := hist s;
       score := if run =? 5 then score s + 3 else if 5 <? run then score s + 1 else score s |}
  else
    let hist := addHistory size (run s) (hist s) in
    {| color := v; run := 1; hist := hist; score := if color s then score s else score s + countFinders hist * 40 |}.
Definition scan_line (size : Z) (line : Z -> bool) (score0 : Z) : Z :=
  let s := for_ (seqZ 0 size) (scan_step size line) {| color := false; run := 0; hist := replicate 7 0; score := score0 |} in
  score s + terminate size (color s) (run s) (hist s) * 40.

Definition blocks_score (size : Z) (m : Z -> Z -> bool) : Z * Z -> Z -> Z -> Z * Z := fun '(score, dark) y x =>
  let dark := if m y x then dark + 1 else dark in
  let score :=
    if (y <? size - 1) && (x <? size - 1) then
      let c := m y x in
      if Bool.eqb c (m y (x + 1)) && Bool.eqb c (m (y + 1) x) && Bool.eqb c (m (y + 1) (x + 1)) then score + 3 else score
    else score in
  (score, dark).
Definition penalty (size : Z) (m : Z -> Z -> bool) : Z :=
  let score := for_ [0; 1] (fun score pass =>
    for_ (seqZ 0 size) (fun score a => scan_line size (fun b => if pass =? 0 then m a b else m b a) score) score) 0 in
  let '(score, dark) := for_ (seqZ 0 size) (fun sd y => for_ (seqZ 0 size) (fun sd x => blocks_score size m sd y x) sd) (score, 0) in
  let total := size * size in
  let k := ceil_div (Z.abs (dark * 20 - total * 10)) total - 1 in
  score + k * 10.

(** * The encoder *)

Record QrCode := { version : Z; ecl_of : Ecl; mask : Z; size_of : Z; qr_modules : Z -> Z -> bool }.

(** The symbol before its mask: function patterns, the format area reserved, the codewords. *)
Definition patterns (ver : Z) (ecl : Ecl) : Grid :=
  let size := ver * 4 + 17 in
  let g := timing size blank in
  let g := finder size 3 (size - 4) (finder size (size - 4) 3 (finder size 3 3 g)) in
  drawVersion size ver (drawFormat size ecl 0 (alignment ver g)).
Definition unmasked (ver : Z) (ecl : Ecl) (codewords : list Z) : Grid :=
  (for_ (zigzag (ver * 4 + 17)) (place codewords) (patterns ver ecl, 0)).1.

(** The trial of one mask: (the best score, [None] for Infinity; the mask chosen; the symbol). *)
Definition try_mask (size : Z) (ecl : Ecl) : option Z * Z * Grid -> Z -> option Z * Z * Grid := fun '(best, chosen, g) m =>
  let g := drawFormat size ecl m (applyMask size m g) in
  let p := penalty size (modules g) in
  let '(best, chosen) := if (match best with Some b => p <? b | None => true end) then (Some p, m) else (best, chosen) in
  (best, chosen, applyMask size m g).

(** [None]: the text is too long. [mask]: a mask forced (none where it is negative). *)
Definition encodeQr (text : str) (ecl : Ecl) (mask : option Z) : option QrCode :=
  let bytes := utf8 text in
  match versionFor bytes ecl with
  | None => None
  | Some ver =>
      let size := ver * 4 + 17 in
      let codewords := codewordsOf ver ecl (dataBytes (bitStream bytes ver ecl)) in
      let g := unmasked ver ecl codewords in
      let '(chosen, g) :=
        if default (-1) mask <? 0
        then let '(_, chosen, g) := for_ (seqZ 0 8) (try_mask size ecl) (None, default (-1) mask, g) in (chosen, g)
        else (default (-1) mask, g) in
      let g := drawFormat size ecl chosen (applyMask size chosen g) in
      Some {| version := ver; ecl_of := ecl; mask := chosen; size_of := size; qr_modules := modules g |}
  end.

Definition qrPath (code : QrCode) (quiet : Z) : str :=
  concat (seqZ 0 (size_of code) ≫= fun y => seqZ 0 (size_of code) ≫= fun x =>
    if qr_modules code y x then [js "M" ++ num (x + quiet) ++ js " " ++ num (y + quiet) ++ js "h1v1h-1z"] else []).
