(* ===== verification/QrField.v ===== *)
(** The bytes of a QR code's error correction: GF(256) as a ring, the standard's product of two bytes,
    and the Reed-Solomon codewords [Qr.rsRemainder] makes: multiples of the generator, any two of them
    different in more places than there are error correction bytes. *)
From stdpp Require Import list_numbers.
From S2P Require Import Prelude Qr.
#[local] Open Scope Z_scope.

(** * The field *)

Definition byte_ok (z : Z) : bool := (0 <=? z) && (z <? 256).
Lemma byte_ok_range z : byte_ok z = true <-> 0 <= z < 256.
Proof. unfold byte_ok. rewrite andb_true_iff, Z.leb_le, Z.ltb_lt. done. Qed.

(** The standard's product: of the two polynomials over the bits, reduced by x^8 + x^4 + x^3 + x^2 + 1. *)
Definition clmul (x y : Z) : Z := foldr (fun i z => if Z.testbit y i then Z.lxor (Z.shiftl x i) z else z) 0 (seqZ 0 8).
Definition reduce (z : Z) : Z := fold_left (fun z i => if Z.testbit z (8 + i) then Z.lxor z (Z.shiftl 0x11d i) else z) (down 7) z.
Definition product (x y : Z) : Z := reduce (clmul x y).

Definition all_bytes : list Z := seqZ 0 256.
Lemma all_bytes_elem z : z ∈ all_bytes <-> byte_ok z = true.
Proof. unfold all_bytes. rewrite elem_of_seqZ, byte_ok_range. lia. Qed.
Lemma for_all_bytes (P : Z -> bool) : forallb P all_bytes = true -> forall z, byte_ok z = true -> P z = true.
Proof. intros H z Hz. rewrite forallb_forall in H. apply H, list_elem_of_In, all_bytes_elem, Hz. Qed.

Lemma for_all_bytes2 (P : Z -> Z -> bool) : forallb (fun x => forallb (P x) all_bytes) all_bytes = true ->
  forall x y, byte_ok x = true -> byte_ok y = true -> P x y = true.
Proof. intros H x y Hx Hy. exact (for_all_bytes _ (for_all_bytes _ H x Hx) y Hy). Qed.
Lemma byte_0 : byte_ok 0 = true.
Proof. vm_compute. reflexivity. Qed.
Lemma byte_1 : byte_ok 1 = true.
Proof. vm_compute. reflexivity. Qed.
#[global] Opaque all_bytes byte_ok.

(** [gfMul] is that product, on all bytes. *)
Lemma gfMul_is_product x y : byte_ok x = true -> byte_ok y = true -> gfMul x y = product x y.
Proof.
  intros Hx Hy. apply Z.eqb_eq. revert x y Hx Hy. apply (for_all_bytes2 (fun x y => gfMul x y =? product x y)). vm_compute. reflexivity.
Qed.

(** Powers of the primitive element 2. *)
Definition next_pow (z : Z) : Z := gfMul z 2.
Fixpoint pows (n : nat) (z : Z) : list Z := match n with O => [] | S n => z :: pows n (next_pow z) end.
Definition exp_table : list Z := Eval vm_compute in pows 255 1.
Definition gexp (i : Z) : Z := at_ exp_table (i mod 255).

Lemma gexp_table : forallb (fun i => forallb (fun j => gfMul (at_ exp_table i) (at_ exp_table j) =? at_ exp_table ((i + j) mod 255)) (seqZ 0 255)) (seqZ 0 255) = true.
Proof. vm_compute. reflexivity. Qed.
Lemma gexp_mul i j : gfMul (gexp i) (gexp j) = gexp (i + j).
Proof.
  unfold gexp. rewrite Zplus_mod. pose proof (Z.mod_pos_bound i 255 eq_refl). pose proof (Z.mod_pos_bound j 255 eq_refl).
  pose proof gexp_table as H1. rewrite forallb_forall in H1. specialize (H1 (i mod 255)). rewrite forallb_forall in H1.
  apply Z.eqb_eq, H1; apply list_elem_of_In, elem_of_seqZ; lia.
Qed.
Lemma gexp_ok i : byte_ok (gexp i) = true.
Proof.
  unfold gexp. pose proof (Z.mod_pos_bound i 255 eq_refl).
  assert (forallb (fun i => byte_ok (at_ exp_table i)) (seqZ 0 255) = true) as Ht by (vm_compute; reflexivity).
  rewrite forallb_forall in Ht. apply Ht, list_elem_of_In, elem_of_seqZ. lia.
Qed.
Lemma gexp_nonzero i : gexp i <> 0.
Proof.
  unfold gexp. pose proof (Z.mod_pos_bound i 255 eq_refl).
  assert (forallb (fun i => negb (at_ exp_table i =? 0)) (seqZ 0 255) = true) as Ht by (vm_compute; reflexivity).
  rewrite forallb_forall in Ht. specialize (Ht (i mod 255)). intros H0. rewrite H0 in Ht.
  enough (negb (0 =? 0) = true) by done. apply Ht, list_elem_of_In, elem_of_seqZ. lia.
Qed.
Lemma gexp_inj i j : 0 <= i < 255 -> 0 <= j < 255 -> gexp i = gexp j -> i = j.
Proof.
  intros Hi Hj. unfold gexp. rewrite !Z.mod_small by lia. unfold at_. intros H.
  assert (NoDup exp_table) as Hn by (apply (bool_decide_unpack _); vm_compute; exact I).
  enough (Z.to_nat i = Z.to_nat j) by lia. eapply (NoDup_nth exp_table 0); [by apply NoDup_ListNoDup|..|exact H]; change (length exp_table) with 255%nat; lia.
Qed.
(** Each byte but 0 is one of them. *)
Lemma gexp_surj z : byte_ok z = true -> z <> 0 -> exists i, z = gexp i.
Proof.
  intros Hz H0.
  assert (forallb (fun z => (z =? 0) || existsb (fun i => z =? gexp i) (seqZ 0 255)) all_bytes = true) as H by (vm_compute; reflexivity).
  pose proof (for_all_bytes _ H z Hz) as Hz'. clear H. rename Hz' into H. cbv beta in H.
  apply orb_true_iff in H as [H|H]; [lia|]. apply existsb_exists in H as (i & _ & Hi). exists i. lia.
Qed.
Lemma gfMul_0_l y : byte_ok y = true -> gfMul 0 y = 0.
Proof. intros Hy. apply Z.eqb_eq. refine (for_all_bytes (fun y => gfMul 0 y =? 0) _ _ Hy). vm_compute. reflexivity. Qed.
Lemma gfMul_0_r x : byte_ok x = true -> gfMul x 0 = 0.
Proof. intros Hx. apply Z.eqb_eq. refine (for_all_bytes (fun x => gfMul x 0 =? 0) _ _ Hx). vm_compute. reflexivity. Qed.
Lemma gfMul_1_l y : byte_ok y = true -> gfMul 1 y = y.
Proof. intros Hy. apply Z.eqb_eq. refine (for_all_bytes (fun y => gfMul 1 y =? y) _ _ Hy). vm_compute. reflexivity. Qed.

(** ** Sums *)

Lemma byte_lxor x y : byte_ok x = true -> byte_ok y = true -> byte_ok (Z.lxor x y) = true.
Proof. revert x y. apply (for_all_bytes2 (fun x y => byte_ok (Z.lxor x y))). vm_compute. reflexivity. Qed.
Lemma lxor_4 a b c d : Z.lxor (Z.lxor a b) (Z.lxor c d) = Z.lxor (Z.lxor a c) (Z.lxor b d).
Proof. rewrite !Z.lxor_assoc. f_equal. rewrite <-!Z.lxor_assoc. f_equal. apply Z.lxor_comm. Qed.

Definition doubled (z : Z) : Z := Z.lxor (Z.shiftl z 1) (Z.shiftr z 7 * 0x11d).
Lemma doubled_ok z : byte_ok z = true -> byte_ok (doubled z) = true.
Proof. revert z. apply (for_all_bytes (fun z => byte_ok (doubled z))). vm_compute. reflexivity. Qed.
Lemma doubled_lxor a b : byte_ok a = true -> byte_ok b = true -> doubled (Z.lxor a b) = Z.lxor (doubled a) (doubled b).
Proof.
  intros Ha Hb. apply Z.eqb_eq. revert a b Ha Hb.
  apply (for_all_bytes2 (fun a b => doubled (Z.lxor a b) =? Z.lxor (doubled a) (doubled b))). vm_compute. reflexivity.
Qed.
Definition bit_times (y i x : Z) : Z := Z.land (Z.shiftr y i) 1 * x.
Lemma land_1 a : Z.land a 1 = 0 \/ Z.land a 1 = 1.
Proof. assert (Z.land a 1 = a mod 2) as -> by (apply (Z.land_ones a 1); lia). pose proof (Z.mod_pos_bound a 2 eq_refl). lia. Qed.
Lemma bit_times_ok y i x : byte_ok x = true -> byte_ok (bit_times y i x) = true.
Proof. intros Hx. unfold bit_times. destruct (land_1 (Z.shiftr y i)) as [-> | ->]; [exact byte_0|by rewrite Z.mul_1_l]. Qed.
Lemma bit_times_lxor y1 y2 i x : bit_times (Z.lxor y1 y2) i x = Z.lxor (bit_times y1 i x) (bit_times y2 i x).
Proof.
  unfold bit_times. rewrite Z.shiftr_lxor.
  assert (Z.land (Z.lxor (Z.shiftr y1 i) (Z.shiftr y2 i)) 1 = Z.lxor (Z.land (Z.shiftr y1 i) 1) (Z.land (Z.shiftr y2 i) 1)) as ->.
  { apply Z.bits_inj'. intros n _. rewrite !Z.land_spec, !Z.lxor_spec, !Z.land_spec.
    by destruct (Z.testbit (Z.shiftr y1 i) n), (Z.testbit (Z.shiftr y2 i) n), (Z.testbit 1 n). }
  destruct (land_1 (Z.shiftr y1 i)) as [-> | ->], (land_1 (Z.shiftr y2 i)) as [-> | ->]; rewrite ?Z.mul_1_l, ?Z.mul_0_l; simpl;
    by rewrite ?Z.lxor_0_r, ?Z.lxor_nilpotent.
Qed.

Definition mul_loop (x y z : Z) (l : list Z) : Z := fold_left (gf_step x y) l z.
Strategy expand [gfMul mul_loop].
Lemma gf_step_is x y z i : gf_step x y z i = Z.lxor (doubled z) (bit_times y i x).
Proof. reflexivity. Qed.
Lemma mul_loop_ok x y l z : byte_ok x = true -> byte_ok z = true -> byte_ok (mul_loop x y z l) = true.
Proof.
  intros Hx. unfold mul_loop. revert z. induction l as [|i l IH]; intros z Hz; [exact Hz|]. cbn [fold_left].
  apply IH. rewrite gf_step_is. apply byte_lxor; [by apply doubled_ok|by apply bit_times_ok].
Qed.
Lemma mul_loop_lxor x y1 y2 l z1 z2 : byte_ok x = true -> byte_ok z1 = true -> byte_ok z2 = true ->
  mul_loop x (Z.lxor y1 y2) (Z.lxor z1 z2) l = Z.lxor (mul_loop x y1 z1 l) (mul_loop x y2 z2 l).
Proof.
  intros Hx. unfold mul_loop. revert z1 z2. induction l as [|i l IH]; intros z1 z2 H1 H2; [reflexivity|]. cbn [fold_left].
  rewrite !gf_step_is, doubled_lxor, bit_times_lxor, lxor_4 by done. apply IH; (apply byte_lxor; [by apply doubled_ok|by apply bit_times_ok]).
Qed.
Lemma land_ff z : byte_ok z = true -> Z.land z 0xff = z.
Proof. intros Hz. apply Z.eqb_eq. refine (for_all_bytes (fun z => Z.land z 0xff =? z) _ _ Hz). vm_compute. reflexivity. Qed.
Lemma gfMul_loop x y : byte_ok x = true -> gfMul x y = mul_loop x y 0 (down 8).
Proof.
  intros Hx. unfold gfMul, mul_loop. pose proof (mul_loop_ok x y (down 8) 0 Hx byte_0) as H. unfold mul_loop in H.
  revert H. generalize (fold_left (gf_step x y) (down 8) 0). apply land_ff.
Qed.
#[global] Opaque gfMul.
Lemma gfMul_ok x y : byte_ok x = true -> byte_ok (gfMul x y) = true.
Proof. intros Hx. rewrite gfMul_loop by done. apply mul_loop_ok; [done|apply byte_0]. Qed.
Lemma gfMul_lxor_r x y1 y2 : byte_ok x = true -> gfMul x (Z.lxor y1 y2) = Z.lxor (gfMul x y1) (gfMul x y2).
Proof. intros Hx. rewrite !gfMul_loop by done. exact (mul_loop_lxor x y1 y2 (down 8) 0 0 Hx byte_0 byte_0). Qed.
Lemma gfMul_comm x y : byte_ok x = true -> byte_ok y = true -> gfMul x y = gfMul y x.
Proof.
  intros Hx Hy. destruct (decide (x = 0)) as [->|Hx0]; [by rewrite gfMul_0_l, gfMul_0_r|].
  destruct (decide (y = 0)) as [->|Hy0]; [by rewrite gfMul_0_l, gfMul_0_r|].
  destruct (gexp_surj x Hx Hx0) as [i ->], (gexp_surj y Hy Hy0) as [j ->]. rewrite !gexp_mul. f_equal. lia.
Qed.
Lemma gfMul_assoc x y z : byte_ok x = true -> byte_ok y = true -> byte_ok z = true -> gfMul x (gfMul y z) = gfMul (gfMul x y) z.
Proof.
  intros Hx Hy Hz. destruct (decide (x = 0)) as [->|Hx0]; [by rewrite !gfMul_0_l by (done || by apply gfMul_ok)|].
  destruct (decide (y = 0)) as [->|Hy0]; [by rewrite gfMul_0_l, gfMul_0_r, gfMul_0_l|].
  destruct (decide (z = 0)) as [->|Hz0]; [by rewrite !gfMul_0_r by (done || by apply gfMul_ok)|].
  destruct (gexp_surj x Hx Hx0) as [i ->], (gexp_surj y Hy Hy0) as [j ->], (gexp_surj z Hz Hz0) as [k ->].
  rewrite !gexp_mul. f_equal. lia.
Qed.

(** ** The field as a ring *)

Record F := mkF { fz : Z; f_ok : byte_ok fz = true }.
Lemma F_eq a b : fz a = fz b -> a = b.
Proof. destruct a as [a Ha], b as [b Hb]. simpl. intros <-. f_equal. apply proof_irrel. Qed.
#[export] Instance F_eq_dec : EqDecision F.
Proof. intros a b. destruct (decide (fz a = fz b)) as [H|H]; [left; by apply F_eq|right; by intros ->]. Defined.
Definition f0 : F := mkF 0 byte_0.
Definition f1 : F := mkF 1 byte_1.
Definition fadd (a b : F) : F := mkF (Z.lxor (fz a) (fz b)) (byte_lxor _ _ (f_ok a) (f_ok b)).
Definition fmul (a b : F) : F := mkF (gfMul (fz a) (fz b)) (gfMul_ok _ _ (f_ok a)).
Definition fexp (i : Z) : F := mkF (gexp i) (gexp_ok i).

Lemma F_ring : ring_theory f0 f1 fadd fmul fadd id eq.
Proof.
  split; intros; apply F_eq; simpl.
  - apply Z.lxor_0_l.
  - apply Z.lxor_comm.
  - symmetry. apply Z.lxor_assoc.
  - apply gfMul_1_l, f_ok.
  - apply gfMul_comm; apply f_ok.
  - apply gfMul_assoc; apply f_ok.
  - rewrite (gfMul_comm (Z.lxor _ _)) by (apply f_ok || by apply byte_lxor; apply f_ok).
    rewrite gfMul_lxor_r by apply f_ok. f_equal; apply gfMul_comm; apply f_ok.
  - done.
  - apply Z.lxor_nilpotent.
Qed.
Add Ring GF256 : F_ring.
#[global] Arguments fadd : simpl never.
#[global] Arguments fmul : simpl never.
#[global] Arguments f0 : simpl never.
#[global] Arguments f1 : simpl never.
Declare Scope gf_scope.
Delimit Scope gf_scope with gf.
Notation "a + b" := (fadd a b) : gf_scope.
Notation "a * b" := (fmul a b) : gf_scope.

Lemma fadd_self a : fadd a a = f0.
Proof. apply F_eq, Z.lxor_nilpotent. Qed.
Lemma fadd_0 a b : fadd a b = f0 -> a = b.
Proof. intros H. apply F_eq. by apply Z.lxor_eq, (f_equal fz H). Qed.
Lemma fexp_add i j : fexp (i + j) = fmul (fexp i) (fexp j).
Proof. apply F_eq. simpl. by rewrite gexp_mul. Qed.
Lemma fmul_0 a b : fmul a b = f0 -> a = f0 \/ b = f0.
Proof.
  intros H. destruct (decide (a = f0)) as [|Ha]; [by left|]. destruct (decide (b = f0)) as [|Hb]; [by right|]. exfalso.
  assert (forall c, c <> f0 -> exists i, fz c = gexp i) as Hx.
  { intros c Hc. apply gexp_surj; [apply f_ok|]. intros E. by apply Hc, F_eq. }
  destruct (Hx a Ha) as [i Hi], (Hx b Hb) as [j Hj]. apply (f_equal fz) in H. simpl in H. rewrite Hi, Hj, gexp_mul in H. by apply (gexp_nonzero (i + j)).
Qed.

(** * Words as polynomials *)

Local Open Scope gf_scope.
(** The value at [a] of the word [l], its first byte the leading coefficient, after [acc]. *)
Definition feval (acc : F) (l : list F) (a : F) : F := fold_left (fun acc c => acc * a + c) l acc.
Fixpoint fpow (a : F) (n : nat) : F := match n with O => f1 | S n => a * fpow a n end.

Lemma feval_app acc l k a : feval acc (l ++ k) a = feval (feval acc l a) k a.
Proof. apply fold_left_app. Qed.
Lemma feval_acc acc l a : feval acc l a = acc * fpow a (length l) + feval f0 l a.
Proof.
  revert acc. induction l as [|c l IH]; intros acc; cbn; [ring|]. fold (feval (acc * a + c) l a) (feval (f0 * a + c) l a).
  rewrite IH, (IH (f0 * a + c)). ring.
Qed.
Lemma feval_add l k a : length l = length k -> feval f0 (zip_with fadd l k) a = feval f0 l a + feval f0 k a.
Proof.
  revert k. induction l as [|x l IH]; intros [|y k] H; try done; cbn; [by rewrite fadd_self|].
  fold (feval (f0 * a + (x + y)) (zip_with fadd l k) a) (feval (f0 * a + x) l a) (feval (f0 * a + y) k a).
  rewrite (feval_acc _ (zip_with _ _ _)), (feval_acc _ l), (feval_acc _ k), IH by (simpl in H; lia).
  rewrite length_zip_with. simpl in H. replace (length l) with (length k) by lia. rewrite Nat.min_id. ring.
Qed.
Lemma feval_scale f l a : feval f0 ((fun c => c * f) <$> l) a = feval f0 l a * f.
Proof.
  induction l as [|x l IH]; [cbn; ring|]. rewrite fmap_cons. cbn. fold (feval (f0 * a + x * f) ((fun c => c * f) <$> l) a) (feval (f0 * a + x) l a).
  rewrite feval_acc, IH, (feval_acc (f0 * a + x)), length_fmap. ring.
Qed.
Lemma feval_zeros n a : feval f0 (replicate n f0) a = f0.
Proof. induction n as [|n IH]; [done|]. cbn. fold (feval (f0 * a + f0) (replicate n f0) a). by replace (f0 * a + f0) with f0 by ring. Qed.

(** ** The remainder *)

Definition frem_step (div out : list F) (b : F) : list F :=
  zip_with (fun o c => o + c * (b + hd f0 out)) (tl out ++ [f0]) div.
Lemma frem_step_eval div out b a : length out = length div -> div <> [] -> feval f1 div a = f0 ->
  feval f0 (frem_step div out b) a = feval f0 out a * a + b * fpow a (length div).
Proof.
  intros Hl Hne Hroot. destruct out as [|o out]; [by destruct div|]. unfold frem_step. cbn [hd tl].
  set (f := b + o).
  assert (zip_with (fun o c => o + c * f) (out ++ [f0]) div = zip_with fadd (out ++ [f0]) ((fun c => c * f) <$> div)) as ->.
  { by rewrite zip_with_fmap_r. }
  assert (length (out ++ [f0]) = length div) as Hlen by (rewrite length_app; simpl in *; lia).
  rewrite feval_add by by rewrite length_fmap. rewrite feval_scale, feval_app. cbn [feval fold_left].
  fold (feval f0 out a). fold (feval (f0 * a + o) out a). rewrite (feval_acc (f0 * a + o)).
  rewrite feval_acc in Hroot. assert (feval f0 div a = fpow a (length div)) as ->.
  { symmetry. apply fadd_0. etransitivity; [|exact Hroot]. ring. }
  rewrite <-Hl. cbn [length fpow]. unfold f.
  transitivity (feval f0 out a * a + b * (a * fpow a (length out)) + o * (a * fpow a (length out))); [ring|].
  transitivity (feval f0 out a * a + (o * fpow a (length out)) * a + b * (a * fpow a (length out))); ring.
Qed.
Lemma frem_step_length div out b : length out = length div -> div <> [] -> length (frem_step div out b) = length div.
Proof. intros Hl Hne. unfold frem_step. rewrite length_zip_with, length_app. destruct out, div; simpl in *; try done; lia. Qed.
Lemma frem_eval div data out a : length out = length div -> div <> [] -> feval f1 div a = f0 ->
  feval f0 (fold_left (frem_step div) data out) a = feval f0 out a * fpow a (length data) + feval f0 data a * fpow a (length div).
Proof.
  intros Hl Hne Hr. revert out Hl. induction data as [|b data IH]; intros out Hl; cbn [fold_left].
  { change (feval f0 [] a) with f0. cbn [length fpow]. ring. }
  rewrite IH, frem_step_eval by (done || by rewrite frem_step_length). cbn [length fpow].
  change (feval f0 (b :: data) a) with (feval (f0 * a + b) data a). rewrite (feval_acc (f0 * a + b)). ring.
Qed.
(** A block with its remainder is a multiple of the generator: 0 at its roots. *)
Lemma frem_root div data a : div <> [] -> feval f1 div a = f0 ->
  feval f0 (data ++ fold_left (frem_step div) data (replicate (length div) f0)) a = f0.
Proof.
  intros Hne Hr. assert (length (fold_left (frem_step div) data (replicate (length div) f0)) = length div) as Hl.
  { generalize (length_replicate (length div) f0). generalize (replicate (length div) f0). induction data as [|b data IH]; intros out Ho; [done|].
    apply IH. by apply frem_step_length. }
  rewrite feval_app, feval_acc, Hl, frem_eval by (done || by rewrite length_replicate). rewrite feval_zeros.
  transitivity (feval f0 data a * fpow a (length div) + feval f0 data a * fpow a (length div)); [ring|apply fadd_self].
Qed.

(** * Distance *)

(** The word's bytes with the exponents they stand at: its value at the [i]th power. *)
Definition psum (i : Z) (l : list (F * Z)) : F := foldr (fun '(c, p) s => c * fexp (i * p)%Z + s) f0 l.
Fixpoint placed (l : list F) : list (F * Z) := match l with [] => [] | c :: l => (c, len l) :: placed l end.

Lemma psum_cons i c p l : psum i ((c, p) :: l) = c * fexp (i * p)%Z + psum i l.
Proof. reflexivity. Qed.
Lemma fexp_pow i n : fpow (fexp i) n = fexp (i * Z.of_nat n)%Z.
Proof.
  induction n as [|n IH]; [apply F_eq; by rewrite Z.mul_0_r|]. cbn [fpow]. rewrite IH, <-fexp_add. f_equal. lia.
Qed.
Lemma feval_psum l i : feval f0 l (fexp i) = psum i (placed l).
Proof.
  induction l as [|c l IH]; [done|]. change (feval f0 (c :: l) (fexp i)) with (feval (f0 * fexp i + c) l (fexp i)).
  cbn [placed]. rewrite feval_acc, IH, fexp_pow, psum_cons. unfold len. ring.
Qed.
Lemma placed_bound l c p : (c, p) ∈ placed l -> (0 <= p < len l)%Z.
Proof.
  induction l as [|d l IH]; simpl; [by intros ?%elem_of_nil|]. unfold len in *. intros [[= -> ->]|H]%elem_of_cons; simpl; [lia|]. specialize (IH H). lia.
Qed.
Lemma placed_NoDup l : NoDup (snd <$> placed l).
Proof.
  induction l as [|c l IH]; simpl; constructor; [|done]. intros ((d & p) & E & Hp)%list_elem_of_fmap. simpl in E. subst p. apply placed_bound in Hp. lia.
Qed.

Lemma psum_zeros i k : (forall c p, (c, p) ∈ k -> c = f0) -> psum i k = f0.
Proof.
  induction k as [|[d q] k IH]; intros H; [done|]. rewrite psum_cons, (H d q) by by left. rewrite IH; [ring|].
  intros d' q' ?. apply (H d' q'). by right.
Qed.
(** Each byte times the difference of its power with [p0]'s. *)
Definition differences (p0 : Z) (l : list (F * Z)) : list (F * Z) := (fun '(c, p) => (c * (fexp p + fexp p0), p)) <$> l.
Lemma psum_differences p0 l i : psum i (differences p0 l) = psum (i + 1)%Z l + fexp p0 * psum i l.
Proof.
  induction l as [|[c p] l IH]; [cbn; ring|]. change (differences p0 ((c, p) :: l)) with ((c * (fexp p + fexp p0), p) :: differences p0 l).
  rewrite !psum_cons, IH. replace ((i + 1) * p)%Z with (i * p + p)%Z by lia. rewrite fexp_add. ring.
Qed.
Lemma differences_snd p0 l : snd <$> differences p0 l = snd <$> l.
Proof. unfold differences. rewrite <-list_fmap_compose. apply list_fmap_ext. by intros i [c p]. Qed.

(** As many powers as there are bytes tell them: if the sums at them vanish, so do the bytes. *)
Lemma psum_vanish l : NoDup (snd <$> l) -> (forall c p, (c, p) ∈ l -> (0 <= p < 255)%Z) ->
  (forall i, (0 <= i < len l)%Z -> psum i l = f0) -> forall c p, (c, p) ∈ l -> c = f0.
Proof.
  remember (length l) as n eqn:Hn. revert l Hn. induction n as [|n IH]; intros l Hn Hd Hp Hs; [destruct l; [by intros c p H%elem_of_nil|done]|].
  destruct l as [|[c0 p0] l]; [done|]. simpl in Hn. injection Hn as Hn. apply NoDup_cons in Hd as [Hp0 Hd].
  assert (forall c p, (c, p) ∈ l -> c = f0) as Hrest.
  { intros c p Hc. assert (c * (fexp p + fexp p0) = f0) as H0.
    { apply (IH (differences p0 l)) with (p := p); [by unfold differences; rewrite length_fmap|by rewrite differences_snd|..].
      - intros d q ([d' q'] & [= -> ->] & Hq)%list_elem_of_fmap. apply (Hp d' q'). by right.
      - intros i Hi. rewrite psum_differences. unfold len, differences in Hi. rewrite length_fmap in Hi.
        pose proof (Hs i) as H1. pose proof (Hs (i + 1)%Z) as H2. unfold len in H1, H2. cbn [length] in H1, H2.
        rewrite psum_cons in H1, H2. specialize (H1 ltac:(lia)). specialize (H2 ltac:(lia)). apply fadd_0 in H1, H2.
        rewrite <-H1, <-H2. replace ((i + 1) * p0)%Z with (i * p0 + p0)%Z by lia. rewrite fexp_add.
        rewrite <-(fadd_self (c0 * (fexp (i * p0) * fexp p0))). ring.
      - apply list_elem_of_fmap. by exists (c, p). }
    apply fmul_0 in H0 as [|H0]; [done|]. exfalso. apply Hp0. apply fadd_0, (f_equal fz) in H0.
    apply gexp_inj in H0 as <-; [apply list_elem_of_fmap; by exists (c, p)|apply (Hp c); by right|apply (Hp c0); by left]. }
  intros c p [[= -> ->]|Hc]%elem_of_cons; [|by eapply Hrest].
  specialize (Hs 0%Z). unfold len in Hs. cbn [length] in Hs. specialize (Hs ltac:(lia)). rewrite psum_cons, (psum_zeros 0 l Hrest) in Hs.
  etransitivity; [|exact Hs]. replace (0 * p0)%Z with 0%Z by lia. replace (fexp 0) with f1 by (by apply F_eq). ring.
Qed.

(** * The code's codewords *)

Local Open Scope Z_scope.
Definition toF (z : Z) : F := match bool_dec (byte_ok z) true with left H => mkF z H | right _ => f0 end.
Definition bytes (l : list Z) : Prop := Forall (fun b => byte_ok b = true) l.
Lemma fz_toF z : byte_ok z = true -> fz (toF z) = z.
Proof. intros Hz. unfold toF. by destruct (bool_dec _ _). Qed.
Lemma toF_list l : bytes l -> fz <$> (toF <$> l) = l.
Proof.
  intros Hl. induction Hl as [|z l Hz Hl IH]; [done|]. rewrite !fmap_cons. f_equal; [by apply fz_toF|exact IH].
Qed.
Lemma fz_bytes (l : list F) : bytes (fz <$> l).
Proof. apply Forall_fmap, Forall_true. intros x. apply f_ok. Qed.

(** The syndrome of a word at the power [i] of 2: the word's value there. *)
Definition zeval (acc : Z) (l : list Z) (a : Z) : Z := fold_left (fun acc c => Z.lxor (gfMul acc a) c) l acc.
Definition syndrome (l : list Z) (i : Z) : Z := zeval 0 l (gexp i).
Lemma fz_feval acc l a : fz (feval acc l a) = zeval (fz acc) (fz <$> l) (fz a).
Proof. revert acc. induction l as [|c l IH]; intros acc; [done|]. apply (IH (fadd (fmul acc a) c)). Qed.
Lemma fz_rem div data out : fz <$> fold_left (frem_step div) data out = fold_left (rs_step (fz <$> div)) (fz <$> data) (fz <$> out).
Proof.
  revert out. induction data as [|b data IH]; intros out; [done|]. rewrite fmap_cons. cbn [fold_left]. rewrite IH. f_equal.
  unfold frem_step, rs_step. replace (hd 0 (fz <$> out)) with (fz (hd f0 out)) by (by destruct out).
  replace (tl (fz <$> out) ++ [0]) with (fz <$> (tl out ++ [f0])) by (rewrite fmap_app; by destruct out).
  generalize (tl out ++ [f0]). generalize (hd f0 out). intros o l. clear. revert l. induction div as [|c div IH]; intros [|x l]; try done.
  simpl. by rewrite IH.
Qed.

(** The lengths of error correction in the tables, and what is computed of their generators. *)
Definition ecc_lengths : list Z := [7; 10; 15; 16; 18; 20; 22; 24; 26; 30].
Definition generator_ok (k : Z) : bool :=
  (len (rsDivisor k) =? k) && forallb byte_ok (rsDivisor k) && forallb (fun i => zeval 1 (rsDivisor k) (gexp i) =? 0) (seqZ 0 k).
Lemma generators_ok : forallb generator_ok ecc_lengths = true.
Proof. vm_compute. reflexivity. Qed.
Lemma ecc_in_tables ecl ver : 1 <= ver <= 10 -> at_ (ECC_PER_BLOCK ecl) ver ∈ ecc_lengths.
Proof.
  intros Hv. assert (ver ∈ seqZ 1 10) as H by (apply elem_of_seqZ; lia). clear Hv; revert ver H. apply Forall_forall.
  apply (bool_decide_unpack _). destruct ecl; vm_compute; exact I.
Qed.
Lemma generator k : k ∈ ecc_lengths -> exists D, fz <$> D = rsDivisor k /\ Z.of_nat (length D) = k /\ D <> []
  /\ forall i, 0 <= i < k -> feval f1 D (fexp i) = f0.
Proof.
  intros Hk. pose proof generators_ok as H. rewrite forallb_forall in H. specialize (H k (proj1 (list_elem_of_In _ _) Hk)).
  unfold generator_ok in H. rewrite !andb_true_iff in H. destruct H as [[Hl Hb] Hr].
  assert (bytes (rsDivisor k)) as Hb'. { apply Forall_forall. rewrite forallb_forall in Hb. intros x Hx. by apply Hb, list_elem_of_In. }
  exists (toF <$> rsDivisor k). rewrite toF_list by done. rewrite length_fmap. apply Z.eqb_eq in Hl. unfold len in Hl.
  assert (0 < k) as Hpos. { assert (Forall (fun k => 0 < k) ecc_lengths) as Hall by (apply (bool_decide_unpack _); vm_compute; exact I). rewrite Forall_forall in Hall. auto. }
  split_and!; [done|done| |].
  - intros E. apply (f_equal length) in E. rewrite length_fmap in E. simpl in E. lia.
  - intros i Hi. apply F_eq. rewrite fz_feval, toF_list by done. rewrite forallb_forall in Hr. apply Z.eqb_eq, (Hr i), list_elem_of_In, elem_of_seqZ. lia.
Qed.

Definition codeword (k : Z) (data : list Z) : list Z := data ++ rsRemainder data (rsDivisor k).
Lemma codeword_F k data : k ∈ ecc_lengths -> bytes data -> exists w : list F, fz <$> w = codeword k data
  /\ length w = (length data + Z.to_nat k)%nat /\ forall i, 0 <= i < k -> feval f0 w (fexp i) = f0.
Proof.
  intros Hk Hd. destruct (generator k Hk) as (D & HD & Hl & Hne & Hr). set (df := toF <$> data).
  exists (df ++ fold_left (frem_step D) df (replicate (length D) f0)). split_and!.
  - rewrite fmap_app, fz_rem. unfold df. rewrite toF_list by done. unfold codeword, rsRemainder. f_equal. rewrite <-HD. f_equal.
    rewrite <-list_fmap_compose. clear. induction D as [|d D IH]; [done|]. simpl. by f_equal.
  - rewrite length_app. unfold df at 1. rewrite length_fmap. f_equal.
    assert (forall l out, length out = length D -> length (fold_left (frem_step D) l out) = length D) as H.
    { intros l. induction l as [|b l IH]; intros out Ho; [done|]. apply IH. by apply frem_step_length. }
    rewrite H by apply length_replicate. lia.
  - intros i Hi. apply frem_root; [done|auto].
Qed.

(** With its error correction a block of data is a multiple of the code's generator, whatever the
    bytes: every syndrome a reader computes of it is 0, at each version and level. *)
Lemma block_syndromes_vanish ecl ver data i : 1 <= ver <= 10 -> bytes data -> 0 <= i < at_ (ECC_PER_BLOCK ecl) ver ->
  syndrome (codeword (at_ (ECC_PER_BLOCK ecl) ver) data) i = 0.
Proof.
  intros Hv Hd Hi. destruct (codeword_F _ data (ecc_in_tables ecl ver Hv) Hd) as (w & <- & _ & Hw).
  unfold syndrome. change (zeval 0 (fz <$> w) (gexp i)) with (zeval (fz f0) (fz <$> w) (fz (fexp i))). by rewrite <-fz_feval, Hw.
Qed.

(** How many places two words differ in. *)
Definition differ (l k : list Z) : Z := len (base.filter (fun '(a, b) => a <> b) (zip l k)).
Definition nonzero (l : list (F * Z)) : list (F * Z) := base.filter (fun cp => cp.1 <> f0) l.
Lemma nonzero_psum i l : psum i (nonzero l) = psum i l.
Proof.
  induction l as [|[c p] l IH]; [done|]. unfold nonzero in *. rewrite filter_cons. destruct (decide _) as [H|H]; rewrite !psum_cons, IH; [done|].
  simpl in H. destruct (decide (c = f0)) as [->|]; [ring|by destruct H].
Qed.
Lemma nonzero_nil (w v : list F) : length w = length v -> nonzero (placed (zip_with fadd w v)) = [] -> w = v.
Proof.
  revert v. induction w as [|a w IH]; intros [|b v] H; try done. injection H as H. unfold nonzero. cbn [zip_with placed]. rewrite filter_cons.
  destruct (decide _) as [Hn|Hz]; [done|]. intros E. f_equal; [|by apply IH].
  simpl in Hz. apply fadd_0. by destruct (decide (fadd a b = f0)).
Qed.
Lemma differ_nonzero (w v : list F) : length w = length v ->
  differ (fz <$> w) (fz <$> v) = len (nonzero (placed (zip_with fadd w v))).
Proof.
  revert v. induction w as [|a w IH]; intros [|b v] H; try done. injection H as H. specialize (IH v H).
  unfold differ, nonzero, len in *. cbn [fmap list_fmap zip_with zip placed]. rewrite !filter_cons. simpl fst.
  destruct (decide (fz a <> fz b)) as [Hne|He], (decide (fadd a b <> f0)) as [Hn|Hz]; cbn [length]; try lia; exfalso.
  - apply Hz. intros E. apply Hne. by rewrite (fadd_0 _ _ E).
  - apply He. intros E. apply Hn. rewrite (F_eq a b E). apply fadd_self.
Qed.

(** C16: the blocks of two different data of one length differ, error correction included, in more
    places than there are error correction bytes: up to half as many wrong bytes can always be told and
    corrected. *)
Theorem blocks_far_apart ecl ver data data' : 1 <= ver <= 10 -> bytes data -> bytes data' -> length data = length data' ->
  len data + at_ (ECC_PER_BLOCK ecl) ver <= 255 -> data <> data' ->
  at_ (ECC_PER_BLOCK ecl) ver < differ (codeword (at_ (ECC_PER_BLOCK ecl) ver) data) (codeword (at_ (ECC_PER_BLOCK ecl) ver) data').
Proof.
  intros Hv Hd Hd' Hl Hlen Hne. pose proof (ecc_in_tables ecl ver Hv) as Hk. revert Hk Hlen. generalize (at_ (ECC_PER_BLOCK ecl) ver). intros k Hk Hlen.
  destruct (codeword_F k data Hk Hd) as (w & Ew & Lw & Rw), (codeword_F k data' Hk Hd') as (v & Ev & Lv & Rv).
  apply Z.nle_gt. intros Hle. apply Hne. rewrite <-Ew, <-Ev, differ_nonzero in Hle by lia. set (l := placed (zip_with fadd w v)) in Hle.
  assert (0 < k) as Hpos. { assert (Forall (fun k => 0 < k) ecc_lengths) as Hall by (apply (bool_decide_unpack _); vm_compute; exact I). rewrite Forall_forall in Hall. auto. }
  assert (forall c p, (c, p) ∈ nonzero l -> c = f0) as Hall.
  { apply psum_vanish.
    - unfold nonzero. eapply sublist_NoDup; [apply placed_NoDup|]. apply fmap_sublist, sublist_filter.
    - intros c p [_ H]%list_elem_of_filter. apply placed_bound in H. unfold len in *. rewrite length_zip_with in H. lia.
    - intros i Hi. rewrite nonzero_psum. unfold l. rewrite <-feval_psum, feval_add by lia. rewrite Rw, Rv by lia. apply fadd_self. }
  enough (w = v) as ->.
  { assert (codeword k data = codeword k data') as E by congruence. by apply app_inj_1 in E as [? _]. }
  apply nonzero_nil; [lia|]. fold l.
  destruct (nonzero l) as [|[c p] t] eqn:E; [done|]. assert ((c, p) ∈ nonzero l) as Hc by (rewrite E; by left).
  apply list_elem_of_filter in Hc as [Hc _]. exfalso. apply Hc, (Hall c p). by left.
Qed.

Lemma blocks_far_apart_witness : at_ (ECC_PER_BLOCK M) 1 < differ (codeword (at_ (ECC_PER_BLOCK M) 1) [1; 2]) (codeword (at_ (ECC_PER_BLOCK M) 1) [1; 3]).
Proof.
  assert (forall z, 0 <= z < 256 -> byte_ok z = true) as H by (intros z; apply byte_ok_range).
  apply (blocks_far_apart M 1); [lia|repeat constructor; apply H; lia|repeat constructor; apply H; lia|reflexivity| |discriminate].
  vm_compute. discriminate.
Defined.
