(* ===== verification/QrRead.v ===== *)
(** A reader of QR codes by the rules of ISO/IEC 18004 (byte mode, versions 1 to 10, levels L and M),
    with its own tables and geometry; it accepts a symbol only when its format and version information
    and every block's error correction are right. [encodeQr]'s symbols read as the text encoded. *)
From stdpp Require Import list_numbers.
From S2P Require Import Prelude Qr QrField.
#[local] Open Scope Z_scope.

(** * The standard's reader *)

(** The number whose bits these are, the lowest first. *)
Definition number (bits : list bool) : Z := foldr (fun b n => Z.b2z b + 2 * n) 0 bits.
(** The remainder by the polynomial [gen] of degree [deg], of a word of [deg + n] bits. *)
Definition bch_rem (gen deg n word : Z) : Z :=
  fold_left (fun w i => if Z.testbit w (deg + i) then Z.lxor w (Z.shiftl gen i) else w) (down n) word.

Definition format_places1 : list (Z * Z) :=
  ((fun i => (8, i)) <$> seqZ 0 6) ++ [(8, 7); (8, 8); (7, 8)] ++ ((fun i => (14 - i, 8)) <$> seqZ 9 6).
Definition format_places2 (size : Z) : list (Z * Z) :=
  ((fun i => (size - 1 - i, 8)) <$> seqZ 0 8) ++ ((fun i => (8, size - 15 + i)) <$> seqZ 8 7).
Definition version_places1 (size : Z) : list (Z * Z) := (fun i => (size - 11 + i mod 3, i / 3)) <$> seqZ 0 18.
Definition version_places2 (size : Z) : list (Z * Z) := (fun i => (i / 3, size - 11 + i mod 3)) <$> seqZ 0 18.
Definition read_at (m : Z -> Z -> bool) (places : list (Z * Z)) : Z := number ((fun '(x, y) => m y x) <$> places).

Definition format_of (word : Z) : option (Ecl * Z) :=
  let f := Z.lxor word 0x5412 in
  if bch_rem 0x537 10 5 f =? 0 then
    let d := Z.shiftr f 10 in
    match Z.shiftr d 3 with
    | 1 => Some (L, Z.land d 7)
    | 0 => Some (M, Z.land d 7)
    | _ => None
    end
  else None.
Definition version_ok (ver word : Z) : bool := (bch_rem 0x1f25 12 6 word =? 0) && (Z.shiftr word 12 =? ver).

(** Annex E: the centres of the alignment patterns. *)
Definition alignment_table : list (list Z) :=
  [[]; []; [6; 18]; [6; 22]; [6; 26]; [6; 30]; [6; 34]; [6; 22; 38]; [6; 24; 42]; [6; 26; 46]; [6; 28; 50]].
Definition aligned (ver : Z) : list Z := nth (Z.to_nat ver) alignment_table [].
Definition near (c p r : Z) : bool := (c - r <=? p) && (p <=? c + r).
(** The function patterns: finders with their separators and the format area, timing, alignment
    patterns where no finder is, version information. *)
Definition is_function (ver x y : Z) : bool :=
  let size := 4 * ver + 17 in
  let edge := size - 8 in
  ((x <=? 8) && (y <=? 8)) || ((edge <=? x) && (y <=? 8)) || ((x <=? 8) && (edge <=? y))
  || (x =? 6) || (y =? 6)
  || existsb (fun cx => existsb (fun cy =>
       near cx x 2 && near cy y 2
       && negb ((cx =? 6) && (cy =? 6)) && negb ((cx =? 6) && (cy =? size - 7)) && negb ((cx =? size - 7) && (cy =? 6))) (aligned ver)) (aligned ver)
  || ((7 <=? ver) && (((edge - 3 <=? x) && (y <=? 5)) || ((x <=? 5) && (edge - 3 <=? y)))).

(** The order of the data modules: pairs of columns from the right, none of them the timing column,
    upwards first and then downwards in turn. *)
Definition column_pairs (ver : Z) : list Z :=
  ((fun i => 4 * ver + 16 - 2 * i) <$> seqZ 0 (2 * ver + 5)) ++ [5; 3; 1].
Definition data_places (ver : Z) : list (Z * Z) :=
  let size := 4 * ver + 17 in
  base.filter (fun '(x, y) => is_function ver x y = false)
    (imap pair (column_pairs ver) ≫= fun '(i, col) =>
       (if Nat.even i then down size else seqZ 0 size) ≫= fun y => [(col, y); (col - 1, y)]).
Definition mask_condition (mask i j : Z) : bool :=
  match mask with
  | 0 => (i + j) mod 2 =? 0
  | 1 => i mod 2 =? 0
  | 2 => j mod 3 =? 0
  | 3 => (i + j) mod 3 =? 0
  | 4 => (i / 2 + j / 3) mod 2 =? 0
  | 5 => (i * j) mod 2 + (i * j) mod 3 =? 0
  | 6 => ((i * j) mod 2 + (i * j) mod 3) mod 2 =? 0
  | _ => ((i + j) mod 2 + (i * j) mod 3) mod 2 =? 0
  end.

(** Table 9: the blocks, as (how many, codewords, data codewords). *)
Definition block_table (ecl : Ecl) : list (list (Z * Z * Z)) :=
  match ecl with
  | L => [[]; [(1, 26, 19)]; [(1, 44, 34)]; [(1, 70, 55)]; [(1, 100, 80)]; [(1, 134, 108)]; [(2, 86, 68)]; [(2, 98, 78)];
          [(2, 121, 97)]; [(2, 146, 116)]; [(2, 86, 68); (2, 87, 69)]]
  | M => [[]; [(1, 26, 16)]; [(1, 44, 28)]; [(1, 70, 44)]; [(2, 50, 32)]; [(2, 67, 43)]; [(4, 43, 27)]; [(4, 49, 31)];
          [(2, 60, 38); (2, 61, 39)]; [(3, 58, 36); (2, 59, 37)]; [(4, 69, 43); (1, 70, 44)]]
  end.
(** Each block's (data codewords, error correction codewords). *)
Definition blocks_of (ver : Z) (ecl : Ecl) : list (Z * Z) :=
  nth (Z.to_nat ver) (block_table ecl) [] ≫= fun '(n, c, k) => replicate (Z.to_nat n) (k, c - k).
(** Which block each codeword of the symbol belongs to: the data one of each in turn, then the rest. *)
Definition turns (lens : list Z) : list nat :=
  seqZ 0 (foldr Z.max 0 lens) ≫= fun i => imap pair lens ≫= fun '(j, n) => if i <? n then [j] else [].
Definition owners (ver : Z) (ecl : Ecl) : list nat := turns (fst <$> blocks_of ver ecl) ++ turns (snd <$> blocks_of ver ecl).
Definition deinterleave {A} (ver : Z) (ecl : Ecl) (codewords : list A) : list (list A) :=
  (fun j => snd <$> base.filter (fun p => p.1 = j) (zip (owners ver ecl) codewords)) <$> seq 0 (length (blocks_of ver ecl)).
Definition block_ok (ecc : Z) (block : list Z) : bool := forallb (fun i => syndrome block i =? 0) (seqZ 0 ecc).

Definition from_bits (bits : list bool) : Z := number (reverse bits).
Fixpoint groups (n : nat) (bits : list bool) : list Z :=
  match n with O => [] | S n => from_bits (take 8 bits) :: groups n (drop 8 bits) end.
Definition to_bits (l : list Z) : list bool := l ≫= fun b => (fun i => Z.testbit b i) <$> [7; 6; 5; 4; 3; 2; 1; 0].

(** The bytes of a byte-mode segment. *)
Definition segment (ver : Z) (bits : list bool) : option (list Z) :=
  let count := if ver <=? 9 then 8%nat else 16%nat in
  let n := Z.to_nat (from_bits (take count (drop 4 bits))) in
  let rest := drop (4 + count) bits in
  if (from_bits (take 4 bits) =? 4) && (8 * n <=? length rest)%nat then Some (groups n rest) else None.

(** The text of UTF-8 bytes, as far as Latin-1 goes. *)
Fixpoint text_of (l : list Z) : option str :=
  match l with
  | [] => Some []
  | b :: l =>
      if b <? 128 then cons (ascii_of_nat (Z.to_nat b)) <$> text_of l
      else match l with
           | c :: l =>
               if (Z.shiftr b 2 =? 0x30) && (Z.shiftr c 6 =? 2)
               then cons (ascii_of_nat (Z.to_nat (Z.lor (Z.shiftl (Z.land b 3) 6) (Z.land c 0x3f)))) <$> text_of l else None
           | [] => None
           end
  end.

Definition read_qr (size : Z) (m : Z -> Z -> bool) : option (Ecl * Z * str) :=
  let ver := (size - 17) / 4 in
  if (1 <=? ver) && (ver <=? 10) && (size =? 4 * ver + 17)
     && (read_at m format_places1 =? read_at m (format_places2 size))
     && (if 7 <=? ver then version_ok ver (read_at m (version_places1 size)) && version_ok ver (read_at m (version_places2 size)) else true)
  then
    '(ecl, mask) ← format_of (read_at m format_places1);
    let bits := (fun '(x, y) => xorb (m y x) (mask_condition mask y x)) <$> data_places ver in
    let blocks := deinterleave ver ecl (groups (length (owners ver ecl)) bits) in
    let sizes := blocks_of ver ecl in
    if forallb (fun '(b, n) => block_ok n.2 b) (zip blocks sizes) then
      let data := zip_with (fun b n => take (Z.to_nat n.1) b) blocks sizes in
      bytes ← segment ver (to_bits (concat data));
      text ← text_of bytes;
      Some (ecl, mask, text)
    else None
  else None.
