(* ===== verification/QrFacts.v ===== *)
(** What [QrProps] computes about the ten versions and both levels: where the codewords' modules are and
    that none is visited twice, whose block each codeword is, and that the format and version bits read. *)
From stdpp Require Import list_numbers gmap fin_sets.
From S2P Require Import Prelude Qr QrField QrRead.
#[local] Open Scope Z_scope.

Definition format_places (size : Z) : list (Z * Z) := format_places1 ++ format_places2 size ++ [(8, size - 8)].
Definition in_symbol (size x y : Z) : bool := (0 <=? y) && (y <? size) && (0 <=? x) && (x <? size).
Definition free (fn : Z -> Z -> bool) (l : list (Z * Z)) : list (Z * Z) := base.filter (fun '(x, y) => fn y x = false) l.

(** Labels for the codewords: the data's by their place, then each block's error correction. *)
Definition labels (ver : Z) (ecl : Ecl) : list (list Z) :=
  let n := dataCodewords ver ecl in
  let e := at_ (ECC_PER_BLOCK ecl) ver in
  imap (fun i dat => dat ++ seqZ (n + Z.of_nat i * e) e) (split_data ver ecl (seqZ 0 n)).
Definition with_filler (ver : Z) (ecl : Ecl) : list (list Z) :=
  let n := dataCodewords ver ecl in
  let e := at_ (ECC_PER_BLOCK ecl) ver in
  imap (fun i dat => (if Z.of_nat i <? nShort ver ecl then dat ++ [-1] else dat) ++ seqZ (n + Z.of_nat i * e) e) (split_data ver ecl (seqZ 0 n)).
Definition blocks_fact (ver : Z) (ecl : Ecl) : bool :=
  let n := dataCodewords ver ecl in
  let e := at_ (ECC_PER_BLOCK ecl) ver in
  let dats := split_data ver ecl (seqZ 0 n) in
  bool_decide (deinterleave ver ecl (interleave (shortLen ver ecl - e) (nShort ver ecl) (with_filler ver ecl)) = labels ver ecl)
  && bool_decide (length (interleave (shortLen ver ecl - e) (nShort ver ecl) (with_filler ver ecl)) = length (owners ver ecl))
  && bool_decide (concat dats = seqZ 0 n)
  && bool_decide (blocks_of ver ecl = (fun d => (len d, e)) <$> dats)
  && forallb (fun d => len d + e <=? 255) dats
  && (0 <=? e) && (0 <=? n).
Definition nodup_fact (ver : Z) : bool :=
  let codes : list Z := (fun '(x, y) => x * 64 + y) <$> data_places ver in
  bool_decide (size (list_to_set codes : gset Z) = length codes).
Definition places_fact (ver : Z) (ecl : Ecl) : bool :=
  let p := patterns ver ecl in
  let size := ver * 4 + 17 in
  bool_decide (free (isFn p) (zigzag size) = data_places ver)
  && (len (owners ver ecl) * 8 <=? len (data_places ver))
  && forallb (fun '(x, y) => in_symbol size x y) (data_places ver)
  && forallb (fun '(x, y) => isFn p y x) (format_places size ++ (if 7 <=? ver then version_places1 size ++ version_places2 size else [])).
Definition format_fact (ver : Z) (ecl : Ecl) (m : Z) : bool :=
  let size := ver * 4 + 17 in
  let s := modules (drawFormat size ecl m (patterns ver ecl)) in
  (read_at s format_places1 =? read_at s (format_places2 size))
  && bool_decide (format_of (read_at s format_places1) = Some (ecl, m))
  && (if 7 <=? ver then version_ok ver (read_at s (version_places1 size)) && version_ok ver (read_at s (version_places2 size)) else true).
Definition stream_fact (ver : Z) (ecl : Ecl) : bool :=
  (dataCodewords ver ecl <? 2 ^ countBits ver) && (4 + countBits ver <=? dataCodewords ver ecl * 8).
Lemma size_set_le (l : list Z) : (size (list_to_set l : gset Z) <= length l)%nat.
Proof. induction l as [|x l IH]; [done|]. cbn [list_to_set length]. rewrite size_union_alt, size_singleton. pose proof (subseteq_size (list_to_set l ∖ {[x]} : gset Z) (list_to_set l)) as H. specialize (H ltac:(set_solver)). lia. Qed.
Lemma set_nodup (l : list Z) : size (list_to_set l : gset Z) = length l -> NoDup l.
Proof.
  induction l as [|x l IH]; [constructor|]. cbn [list_to_set length]. intros H. pose proof (size_set_le l) as Hl.
  destruct (decide (x ∈ (list_to_set l : gset Z))) as [Hx|Hx].
  - assert (({[x]} ∪ list_to_set l : gset Z) = list_to_set l) as E by set_solver. rewrite E in H. lia.
  - rewrite size_union, size_singleton in H by set_solver. constructor; [by rewrite elem_of_list_to_set in Hx|]. apply IH. lia.
Qed.
Lemma facts : forallb (fun ver => nodup_fact ver && forallb (fun ecl => blocks_fact ver ecl && places_fact ver ecl && stream_fact ver ecl
  && forallb (format_fact ver ecl) (seqZ 0 8)) [L; M]) (seqZ 1 10) = true.
Proof. vm_compute. reflexivity. Qed.
