(* ===== verification/QrProps.v ===== *)
(** [encodeQr]'s symbols are right: the reader of [QrRead] gets the text back, at every length that
    fits, both levels and all masks; the mask chosen by itself is the one of least penalty. *)
From stdpp Require Import list_numbers.
From Stdlib Require Import FunctionalExtensionality.
From S2P Require Import Prelude Qr QrField QrRead QrFacts.
#[local] Open Scope Z_scope.

(** * Drawing function patterns *)

Definition draw (l : list (Z * Z * bool)) (g : Grid) : Grid := fold_left (fun g '(x, y, v) => setFn g x y v) l g.
(** What a list of modules drawn in turn leaves at a place. *)
Definition drawn (l : list (Z * Z * bool)) (y x : Z) : option bool :=
  fold_left (fun o '(px, py, v) => if (y =? py) && (x =? px) then Some v else o) l None.
Lemma draw_snoc l x y v g : draw (l ++ [(x, y, v)]) g = setFn (draw l g) x y v.
Proof. unfold draw. by rewrite fold_left_app. Qed.
Lemma drawn_snoc l px py v y x : drawn (l ++ [(px, py, v)]) y x = if (y =? py) && (x =? px) then Some v else drawn l y x.
Proof. unfold drawn. by rewrite fold_left_app. Qed.
Lemma draw_modules l g y x : modules (draw l g) y x = default (modules g y x) (drawn l y x).
Proof.
  induction l as [|[[px py] v] l IH] using rev_ind; [done|]. rewrite draw_snoc, drawn_snoc. cbn [setFn modules]. unfold write.
  destruct ((y =? py) && (x =? px)); [done|exact IH].
Qed.
Lemma draw_isFn l g y x : isFn (draw l g) y x = isFn g y x || match drawn l y x with Some _ => true | None => false end.
Proof.
  induction l as [|[[px py] v] l IH] using rev_ind; [by rewrite orb_false_r|]. rewrite draw_snoc, drawn_snoc. cbn [setFn isFn]. unfold write.
  destruct ((y =? py) && (x =? px)); [by rewrite orb_true_r|exact IH].
Qed.
Lemma drawn_Some l y x v : drawn l y x = Some v -> (x, y) ∈ l.*1.
Proof.
  induction l as [|[[px py] w] l IH] using rev_ind; [done|]. rewrite drawn_snoc, fmap_app. intros H. apply elem_of_app.
  destruct ((y =? py) && (x =? px)) eqn:E; [|left; by apply IH]. right. apply andb_true_iff in E as [->%Z.eqb_eq ->%Z.eqb_eq]. by left.
Qed.
Lemma drawn_None l y x : drawn l y x = None -> (x, y) ∉ l.*1.
Proof.
  induction l as [|[[px py] w] l IH] using rev_ind; [by intros _ ?%elem_of_nil|]. rewrite drawn_snoc, fmap_app.
  destruct ((y =? py) && (x =? px)) eqn:E; [done|]. intros H [Hl|Hl]%elem_of_app; [by apply IH in H|].
  apply list_elem_of_singleton in Hl. simplify_eq/=. by rewrite !Z.eqb_refl in E.
Qed.

Definition format_bits (ecl : Ecl) (m : Z) : list bool := (Z.testbit (formatBits ecl m)) <$> (seqZ 0 15 ++ seqZ 0 15).
Definition format_list (size : Z) (ecl : Ecl) (m : Z) : list (Z * Z * bool) := zip (format_places size) (format_bits ecl m ++ [true]).
Lemma drawFormat_draw size ecl m g : drawFormat size ecl m g = draw (format_list size ecl m) g.
Proof. reflexivity. Qed.
Lemma format_list_places size ecl m : (format_list size ecl m).*1 = format_places size.
Proof. reflexivity. Qed.
#[global] Opaque formatBits.

(** * The trial of the masks *)

Section trial.
Context (size : Z) (ecl : Ecl) (u : Grid).
(** The format area is all function patterns. *)
Context (Hformat : forall x y, (x, y) ∈ format_places size -> isFn u y x = true).

(** As [u], but for the bits in the format area. *)
Definition like (g : Grid) : Prop := forall y x, isFn g y x = isFn u y x /\ ((x, y) ∉ format_places size -> modules g y x = modules u y x).
Lemma like_refl : like u.
Proof. by intros y x. Qed.

(** The symbol with mask [m]. *)
Definition with_mask (m : Z) : Grid := drawFormat size ecl m (applyMask size m u).

Lemma drawFormat_isFn m g : (forall y x, isFn g y x = isFn u y x) -> forall y x, isFn (drawFormat size ecl m g) y x = isFn u y x.
Proof.
  intros Hg y x. rewrite drawFormat_draw, draw_isFn, Hg. destruct (drawn _ _ _) as [v|] eqn:E; [|apply orb_false_r].
  apply drawn_Some in E. rewrite format_list_places in E. by rewrite (Hformat _ _ E).
Qed.
Lemma drawFormat_modules m g g' y x : ((x, y) ∉ format_places size -> modules g y x = modules g' y x) ->
  modules (drawFormat size ecl m g) y x = modules (drawFormat size ecl m g') y x.
Proof.
  intros H. rewrite !drawFormat_draw, !draw_modules. destruct (drawn _ _ _) as [v|] eqn:E; [done|]. apply H.
  apply drawn_None in E. by rewrite format_list_places in E.
Qed.
Lemma applyMask_modules m g y x : modules (applyMask size m g) y x = xorb (modules g y x) (in_symbol size x y && negb (isFn g y x) && inv m x y).
Proof.
  unfold applyMask, in_symbol. cbn [modules set]. simpl. destruct (_ && _ && inv m x y); [by rewrite xorb_true_r|by rewrite xorb_false_r].
Qed.
Lemma applyMask_isFn m g : isFn (applyMask size m g) = isFn g.
Proof. reflexivity. Qed.

(** Masked from any grid like [u], the symbol is the same. *)
Lemma with_mask_like m g : like g -> drawFormat size ecl m (applyMask size m g) = with_mask m.
Proof.
  intros Hg. unfold with_mask.
  assert (forall a b : Grid, modules a = modules b -> isFn a = isFn b -> a = b) as Heq by (intros [] []; simpl; congruence).
  apply Heq; apply functional_extensionality; intros y; apply functional_extensionality; intros x.
  - apply drawFormat_modules. intros Hn. rewrite !applyMask_modules. destruct (Hg y x) as [-> Hm]. by rewrite Hm.
  - rewrite !drawFormat_isFn; try done. intros y0 x0. by destruct (Hg y0 x0).
Qed.
(** Masking twice puts the symbol back. *)
Lemma like_unmask m : like (applyMask size m (with_mask m)).
Proof.
  intros y x. rewrite applyMask_isFn. unfold with_mask. split; [by apply drawFormat_isFn|]. intros Hn.
  rewrite applyMask_modules, drawFormat_isFn by done. rewrite drawFormat_draw, draw_modules.
  destruct (drawn _ _ _) as [v|] eqn:E.
  { apply drawn_Some in E. by rewrite format_list_places in E. }
  cbn [from_option]. rewrite applyMask_modules. by destruct (modules u y x), (in_symbol size x y && negb (isFn u y x) && inv m x y).
Qed.

Definition score_of (m : Z) : Z := penalty size (modules (with_mask m)).
Lemma try_mask_like best chosen g m : like g -> try_mask size ecl (best, chosen, g) m =
  (if (match best with Some b => score_of m <? b | None => true end) then (Some (score_of m), m) else (best, chosen), applyMask size m (with_mask m)).
Proof. intros Hg. unfold try_mask. rewrite (with_mask_like m g Hg). unfold score_of. by destruct (match best with Some b => _ | None => true end). Qed.

(** The loop ends with the first mask of least score. *)
Definition first_least (l : list Z) (m : Z) : Prop := exists l1 l2, l = l1 ++ m :: l2
  /\ Forall (fun k => score_of m < score_of k) l1 /\ Forall (fun k => score_of m <= score_of k) l2.
Lemma try_masks_from l best m done_ g : first_least done_ m -> best = Some (score_of m) -> like g ->
  exists m' g', for_ l (try_mask size ecl) (best, m, g) = (Some (score_of m'), m', g') /\ first_least (done_ ++ l) m' /\ like g'.
Proof.
  revert best m done_ g. induction l as [|k l IH]; intros best m done_ g Hm -> Hg.
  { exists m, g. split_and!; [done|by rewrite app_nil_r|done]. }
  unfold for_ in *. cbn [fold_left]. rewrite try_mask_like by done. destruct (score_of k <? score_of m) eqn:E.
  - destruct (IH (Some (score_of k)) k (done_ ++ [k]) (applyMask size k (with_mask k))) as (m' & g' & -> & H & Hl); [|done|apply like_unmask|].
    + exists done_, []. split_and!; [done| |constructor]. apply Z.ltb_lt in E.
      destruct Hm as (l1 & l2 & -> & H1 & H2). apply Forall_app. split; [|constructor]; [|lia|].
      * eapply Forall_impl; [exact H1|]. simpl. lia.
      * eapply Forall_impl; [exact H2|]. simpl. lia.
    + exists m', g'. split_and!; [done|by rewrite <-app_assoc in H|done].
  - destruct (IH (Some (score_of m)) m (done_ ++ [k]) (applyMask size k (with_mask k))) as (m' & g' & -> & H & Hl); [|done|apply like_unmask|].
    + destruct Hm as (l1 & l2 & -> & H1 & H2). exists l1, (l2 ++ [k]). rewrite <-app_assoc. split_and!; [done..|].
      apply Forall_app. split; [done|]. constructor; [|constructor]. apply Z.ltb_ge in E. lia.
    + exists m', g'. split_and!; [done|by rewrite <-app_assoc in H|done].
Qed.
Lemma try_masks k l chosen : exists m g, for_ (k :: l) (try_mask size ecl) (None, chosen, u) = (Some (score_of m), m, g)
  /\ first_least (k :: l) m /\ like g.
Proof.
  unfold for_. cbn [fold_left]. rewrite try_mask_like by apply like_refl.
  apply (try_masks_from l (Some (score_of k)) k [k]); [|done|apply like_unmask]. by exists [], [].
Qed.
End trial.

(** * The codewords in the symbol *)

Section placing.
Context (cw : list Z) (fn : Z -> Z -> bool).
Lemma free_cons x y l : free fn ((x, y) :: l) = if fn y x then free fn l else (x, y) :: free fn l.
Proof. unfold free. rewrite filter_cons. destruct (decide _) as [H|H]; simpl in H; [by rewrite H|]. by destruct (fn y x). Qed.

(** The zigzag writes the bits at the free places in turn, and nowhere else. *)
Lemma place_all l g k : isFn g = fn -> 0 <= k -> NoDup (free fn l) ->
  let r := for_ l (place cw) (g, k) in
  isFn r.1 = fn
  /\ (forall i x y, free fn l !! i = Some (x, y) -> k + Z.of_nat i < len cw * 8 -> modules r.1 y x = codewordBit cw (k + Z.of_nat i))
  /\ (forall x y, (x, y) ∉ free fn l -> modules r.1 y x = modules g y x).
Proof.
  revert g k. induction l as [|[px py] l IH]; intros g k Hg Hk Hn; [split_and!; [done| |done]; intros i x y Hi; by destruct i|].
  cbn zeta. unfold for_ in *. cbn [fold_left]. rewrite free_cons in *. unfold place at 2 4 6. rewrite Hg. destruct (fn py px); simpl negb.
  { apply IH; done. }
  apply NoDup_cons in Hn as [Hp Hn]. cbn [andb].
  assert (forall x y v, (x, y) <> (px, py) -> write (modules g) px py v y x = modules g y x) as Hw.
  { intros x y v Hne. unfold write. destruct (Z.eqb_spec y py) as [->|]; [|done]. destruct (Z.eqb_spec x px) as [->|]; [done|done]. }
  destruct (k <? len cw * 8) eqn:Hlt.
  - destruct (IH (g <| modules := write (modules g) px py (codewordBit cw k) |>) (k + 1)) as (H1 & H2 & H3); [done|lia|done|]. split_and!; [done|..].
    + intros [|i] x y Hi Hlt'; simpl in Hi.
      * injection Hi as -> ->. rewrite H3 by done. simpl. unfold write. rewrite !Z.eqb_refl. simpl. f_equal. lia.
      * rewrite (H2 i) by (done || lia). f_equal. lia.
    + intros x y Hx. apply not_elem_of_cons in Hx as [Hne Hx]. rewrite H3 by done. by apply Hw.
  - destruct (IH g k Hg Hk Hn) as (H1 & H2 & H3). split_and!; [done|..].
    + intros [|i] x y Hi Hlt'; simpl in Hi; [lia|]. apply Z.ltb_ge in Hlt. lia.
    + intros x y Hx. apply not_elem_of_cons in Hx as [Hne Hx]. by apply H3.
Qed.
End placing.

(** ** Bits and bytes *)

Lemma down_8 : down 8 = [7; 6; 5; 4; 3; 2; 1; 0].
Proof. reflexivity. Qed.
Lemma to_bits_put l : to_bits l = l ≫= fun b => put b 8.
Proof. reflexivity. Qed.
Lemma to_bits_app a b : to_bits (a ++ b) = to_bits a ++ to_bits b.
Proof. apply bind_app. Qed.
Lemma to_bits_length l : length (to_bits l) = (8 * length l)%nat.
Proof. induction l as [|b l IH]; [done|]. change (to_bits (b :: l)) with (put b 8 ++ to_bits l). rewrite length_app, IH. change (length (put b 8)) with 8%nat. simpl. lia. Qed.
Lemma from_bits_byte b : byte_ok b = true -> from_bits (put b 8) = b.
Proof. intros Hb. apply Z.eqb_eq. refine (for_all_bytes (fun b => from_bits (put b 8) =? b) _ _ Hb). vm_compute. reflexivity. Qed.
Lemma groups_bytes l rest n : bytes l -> (n <= length l)%nat -> groups n (to_bits l ++ rest) = take n l.
Proof.
  revert n. induction l as [|b l IH]; intros n Hl Hn; destruct n as [|n]; try done; [simpl in Hn; lia|].
  apply Forall_cons in Hl as [Hb Hl]. change (to_bits (b :: l)) with (put b 8 ++ to_bits l). rewrite <-app_assoc. cbn [groups].
  rewrite take_app_length' by done. rewrite drop_app_length' by done. rewrite from_bits_byte by done. cbn [take]. f_equal. apply IH; [done|simpl in Hn; lia].
Qed.
Lemma codeword_bits cw : codewordBit cw <$> seqZ 0 (len cw * 8) = to_bits cw.
Proof.
  assert (forall pre, codewordBit (pre ++ cw) <$> seqZ (len pre * 8) (len cw * 8) = to_bits cw) as H; [|exact (H [])].
  induction cw as [|b cw IH]; intros pre; [done|]. unfold len in *. cbn [length].
  replace (Z.of_nat (S (length cw)) * 8) with (8 + Z.of_nat (length cw) * 8) by lia. rewrite seqZ_app by lia. rewrite fmap_app.
  change (to_bits (b :: cw)) with (put b 8 ++ to_bits cw). f_equal.
  - unfold put. rewrite down_8. change 8 with (Z.of_nat 8) at 2. unfold seqZ. rewrite Nat2Z.id, <-list_fmap_compose.
    assert (forall i : nat, (i < 8)%nat -> codewordBit (pre ++ b :: cw) (Z.of_nat (length pre) * 8 + Z.of_nat i) = Z.testbit b (7 - Z.of_nat i)) as Hb.
    { intros i Hi. unfold codewordBit. rewrite Z.shiftr_div_pow2 by lia. change (2 ^ 3) with 8.
      change 7 with (Z.ones 3) at 2. rewrite Z.land_ones by lia. change (2 ^ 3) with 8.
      replace ((Z.of_nat (length pre) * 8 + Z.of_nat i) / 8) with (Z.of_nat (length pre)) by (Z.div_mod_to_equations; lia).
      replace ((Z.of_nat (length pre) * 8 + Z.of_nat i) mod 8) with (Z.of_nat i) by (Z.div_mod_to_equations; lia).
      unfold at_. rewrite Nat2Z.id, app_nth2, Nat.sub_diag by lia. done. }
    cbn [seq fmap list_fmap]. unfold compose. by rewrite !Z.add_comm with (m := Z.of_nat (length pre) * 8), !Hb by lia.
  - specialize (IH (pre ++ [b])). rewrite <-app_assoc, length_app in IH. simpl in IH. rewrite <-IH. do 2 f_equal. lia.
Qed.

(** * Blocks *)

Lemma split_data_fmap {A B} (f : A -> B) ver ecl (data : list A) : split_data ver ecl (f <$> data : list B) = (fmap f : list A -> list B) <$> split_data ver ecl data.
Proof.
  unfold split_data. generalize (seqZ 0 (at_ (BLOCKS ecl) ver)). intros l.
  change (@nil (list B)) with ((fmap f : list A -> list B) <$> @nil (list A)) at 1. generalize (@nil (list A)). revert data.
  induction l as [|i l IH]; intros data acc; [done|]. cbn [fold_left split_step]. rewrite <-IH. f_equal. cbn [split_step].
  by rewrite fmap_app, <-fmap_take, <-fmap_drop.
Qed.
Lemma interleave_fmap {A B} (f : A -> B) skip short (blocks : list (list A)) : interleave skip short ((fmap f : list A -> list B) <$> blocks) = f <$> interleave skip short blocks.
Proof.
  unfold interleave. replace (len (hd [] ((fmap f : list A -> list B) <$> blocks))) with (len (hd [] blocks)) by (destruct blocks; simpl; unfold len; by rewrite ?length_fmap).
  induction (seqZ 0 _) as [|i l IH]; [done|]. cbn [mbind list_bind]. rewrite fmap_app, <-IH. f_equal.
  rewrite imap_fmap. unfold compose.
  assert (forall k (bs : list (list A)), imap (fun j b => (k j, f <$> b)) bs ≫= (fun '(j, block) => if negb (i =? skip) || (short <=? Z.of_nat j) then option_list (block !! Z.to_nat i) else [])
    = f <$> (imap (fun j b => (k j, b)) bs ≫= (fun '(j, block) => if negb (i =? skip) || (short <=? Z.of_nat j) then option_list (block !! Z.to_nat i) else []))) as H.
  { intros k bs. revert k. induction bs as [|b bs IHb]; intros k; [done|]. rewrite !imap_cons. cbn [mbind list_bind]. rewrite fmap_app. f_equal; [|exact (IHb (k ∘ S))].
    destruct (negb _ || _); [|done]. rewrite list_lookup_fmap. by destruct (b !! _). }
  exact (H id blocks).
Qed.
Lemma deinterleave_fmap {A B} (f : A -> B) ver ecl (cw : list A) : deinterleave ver ecl (f <$> cw : list B) = (fmap f : list A -> list B) <$> deinterleave ver ecl cw.
Proof.
  unfold deinterleave. rewrite <-list_fmap_compose. apply list_fmap_ext. intros _ j _. unfold compose. generalize (owners ver ecl). intros o. revert cw.
  induction o as [|k o IH]; intros [|c cw]; try done. cbn [fmap list_fmap zip zip_with]. rewrite !filter_cons. cbn [fst].
  destruct (decide (k = j)); [|apply IH]. rewrite !fmap_cons. f_equal. apply IH.
Qed.

#[global] Opaque rsDivisor patterns zigzag data_places owners blocks_of.

Section facts_for.
Context (ver : Z) (ecl : Ecl) (Hver : 1 <= ver <= 10).
Local Abbreviation n := (dataCodewords ver ecl).
Local Abbreviation e := (at_ (ECC_PER_BLOCK ecl) ver).
Local Abbreviation dats := (split_data ver ecl (seqZ 0 n)).
Lemma facts_of : nodup_fact ver = true /\ blocks_fact ver ecl = true /\ places_fact ver ecl = true /\ stream_fact ver ecl = true
  /\ forall m, 0 <= m < 8 -> format_fact ver ecl m = true.
Proof.
  pose proof facts as H. rewrite forallb_forall in H. assert (In ver (seqZ 1 10)) as Hin by (apply list_elem_of_In, elem_of_seqZ; lia). specialize (H ver Hin).
  apply andb_true_iff in H as [H0 H]. rewrite forallb_forall in H. specialize (H ecl ltac:(destruct ecl; simpl; auto)).
  rewrite !andb_true_iff in H. destruct H as [[[H1 H2] H3] H4]. split_and!; [done..|]. intros m Hm.
  rewrite forallb_forall in H4. apply H4, list_elem_of_In, elem_of_seqZ. lia.
Qed.
Lemma blocks_facts : deinterleave ver ecl (interleave (shortLen ver ecl - e) (nShort ver ecl) (with_filler ver ecl)) = labels ver ecl
  /\ length (interleave (shortLen ver ecl - e) (nShort ver ecl) (with_filler ver ecl)) = length (owners ver ecl)
  /\ concat dats = seqZ 0 n /\ blocks_of ver ecl = (fun d => (len d, e)) <$> dats /\ (forall d, d ∈ dats -> len d + e <= 255) /\ 0 <= e /\ 0 <= n.
Proof.
  destruct facts_of as (_ & H & _). unfold blocks_fact in H. rewrite !andb_true_iff in H.
  destruct H as [[[[[[H1%bool_decide_eq_true H2%bool_decide_eq_true] H3%bool_decide_eq_true] H4%bool_decide_eq_true] H5] H6%Z.leb_le] H7%Z.leb_le].
  split_and!; try assumption. intros d Hd. rewrite forallb_forall in H5. apply Z.leb_le, H5. by apply list_elem_of_In.
Qed.
End facts_for.

Lemma nth_seqZ (l : list Z) (a b : nat) : (a + b <= length l)%nat ->
  (fun k => nth (Z.to_nat k) l 0) <$> seqZ (Z.of_nat a) (Z.of_nat b) = take b (drop a l).
Proof.
  revert a. induction b as [|b IH]; intros a H; [done|]. rewrite seqZ_cons by lia. rewrite fmap_cons.
  replace (Z.succ (Z.of_nat a)) with (Z.of_nat (S a)) by lia. replace (Z.pred (Z.of_nat (S b))) with (Z.of_nat b) by lia.
  rewrite IH by lia. rewrite Nat2Z.id. destruct (lookup_lt_is_Some_2 l a ltac:(lia)) as [x Hx].
  rewrite (drop_S _ _ _ Hx). cbn [take]. f_equal. by apply nth_lookup_Some.
Qed.
Lemma concat_uniform (e : nat) (ls : list (list Z)) i r : Forall (fun l => length l = e) ls -> ls !! i = Some r ->
  take e (drop (i * e) (concat ls)) = r /\ (i * e + e <= length (concat ls))%nat.
Proof.
  intros Hl. revert i. induction Hl as [|l ls Hle Hl IH]; intros i Hi; [done|]. cbn [concat]. rewrite length_app.
  destruct i as [|i]; simpl in Hi.
  - injection Hi as <-. simpl. rewrite drop_0, take_app_length' by done. split; [done|lia].
  - destruct (IH i Hi) as [H1 H2]. cbn [Nat.mul]. rewrite drop_app_ge by lia. replace (e + i * e - length l)%nat with (i * e)%nat by lia. split; [done|lia].
Qed.

Section blocks.
Context (ver : Z) (ecl : Ecl) (Hver : 1 <= ver <= 10) (data : list Z) (Hdata : bytes data) (Hlen : len data = dataCodewords ver ecl).
Local Abbreviation n := (dataCodewords ver ecl).
Local Abbreviation e := (at_ (ECC_PER_BLOCK ecl) ver).
Definition the_blocks : list (list Z) := split_data ver ecl data.
Definition rems : list (list Z) := (fun d => rsRemainder d (rsDivisor e)) <$> the_blocks.
(** The codeword of a label. *)
Definition of_label (k : Z) : Z := if k <? 0 then 0 else nth (Z.to_nat k) (data ++ concat rems) 0.

Lemma of_label_data : of_label <$> seqZ 0 n = data.
Proof.
  rewrite <-Hlen. unfold len. transitivity ((fun k => nth (Z.to_nat k) (data ++ concat rems) 0) <$> seqZ (Z.of_nat 0) (Z.of_nat (length data))).
  - apply list_fmap_ext. intros i k Hk. apply lookup_seqZ in Hk as [Hk _]. unfold of_label.
    by replace (k <? 0) with false by (symmetry; apply Z.ltb_ge; lia).
  - rewrite nth_seqZ by (rewrite length_app; lia). by rewrite drop_0, take_app_length.
Qed.
Lemma blocks_label : the_blocks = (fmap of_label : list Z -> list Z) <$> split_data ver ecl (seqZ 0 n).
Proof. unfold the_blocks. by rewrite <-split_data_fmap, of_label_data. Qed.
Lemma the_blocks_concat : concat the_blocks = data.
Proof.
  destruct (blocks_facts ver ecl Hver) as (_ & _ & Hc & _). rewrite blocks_label.
  transitivity (of_label <$> concat (split_data ver ecl (seqZ 0 n))); [|by rewrite Hc, of_label_data].
  generalize (split_data ver ecl (seqZ 0 n)). intros ls. induction ls as [|l ls IH]; [done|]. rewrite fmap_cons. cbn [concat]. by rewrite fmap_app, IH.
Qed.
Lemma the_blocks_bytes d : d ∈ the_blocks -> bytes d.
Proof.
  intros Hd. apply Forall_forall. intros x Hx. unfold bytes in Hdata. rewrite Forall_forall in Hdata. apply Hdata.
  rewrite <-the_blocks_concat. apply list_elem_of_In, in_concat. exists d. by rewrite <-!list_elem_of_In.
Qed.
Lemma rems_length : Forall (fun l => length l = Z.to_nat e) rems.
Proof.
  apply Forall_forall. intros l (d & -> & Hd)%list_elem_of_fmap.
  destruct (codeword_F e d (ecc_in_tables ecl ver Hver) (the_blocks_bytes d Hd)) as (w & Ew & Lw & _).
  apply (f_equal length) in Ew. unfold codeword in Ew. rewrite length_app, length_fmap in Ew. lia.
Qed.
Lemma of_label_ecc i d : the_blocks !! i = Some d -> of_label <$> seqZ (n + Z.of_nat i * e) e = rsRemainder d (rsDivisor e).
Proof.
  intros Hi. destruct (blocks_facts ver ecl Hver) as (_ & _ & _ & _ & _ & He & Hn).
  destruct (concat_uniform (Z.to_nat e) rems i (rsRemainder d (rsDivisor e)) rems_length) as [H1 H2]; [by unfold rems; rewrite list_lookup_fmap, Hi|].
  transitivity ((fun k => nth (Z.to_nat k) (data ++ concat rems) 0) <$> seqZ (Z.of_nat (length data + i * Z.to_nat e)) (Z.of_nat (Z.to_nat e))).
  - unfold len in Hlen. rewrite Nat2Z.inj_add, Nat2Z.inj_mul, Z2Nat.id, Hlen by lia. apply list_fmap_ext. intros j k Hk.
    apply lookup_seqZ in Hk as [Hk _]. unfold of_label. by replace (k <? 0) with false by (symmetry; apply Z.ltb_ge; nia).
  - rewrite nth_seqZ by (rewrite length_app; lia). by rewrite drop_app_add, H1.
Qed.

Lemma codewords_labels : codewordsOf ver ecl data
  = of_label <$> interleave (shortLen ver ecl - e) (nShort ver ecl) (with_filler ver ecl).
Proof.
  rewrite <-interleave_fmap. unfold codewordsOf. fold the_blocks. f_equal. unfold with_filler. rewrite fmap_imap. unfold compose.
  pose proof blocks_label as Hl. apply list_eq. intros i. rewrite !list_lookup_imap.
  pose proof (of_label_ecc i) as He. rewrite Hl in He |- *. rewrite list_lookup_fmap in He |- *.
  destruct (split_data ver ecl (seqZ 0 n) !! i) as [d|]; [|done].
  simpl in *. f_equal. unfold with_ecc. rewrite fmap_app, (He _ eq_refl). f_equal. destruct (_ <? _); [|done]. by rewrite fmap_app.
Qed.
(** The codewords of the symbol, taken apart, are the blocks with their error correction. *)
Lemma codewords_apart : deinterleave ver ecl (codewordsOf ver ecl data) = codeword e <$> the_blocks.
Proof.
  destruct (blocks_facts ver ecl Hver) as (Hd & _). rewrite codewords_labels, deinterleave_fmap, Hd.
  unfold labels. rewrite fmap_imap. unfold compose.
  pose proof blocks_label as Hl. apply list_eq. intros i. rewrite list_lookup_imap, list_lookup_fmap. pose proof (of_label_ecc i) as He.
  rewrite Hl in He |- *. rewrite list_lookup_fmap in He |- *. destruct (split_data ver ecl (seqZ 0 n) !! i) as [d|]; [|done]. simpl in *.
  f_equal. unfold codeword. by rewrite fmap_app, (He _ eq_refl).
Qed.
Lemma codewords_length : length (codewordsOf ver ecl data) = length (owners ver ecl).
Proof. destruct (blocks_facts ver ecl Hver) as (_ & H & _). by rewrite codewords_labels, length_fmap. Qed.
Lemma codewords_bytes : bytes (codewordsOf ver ecl data).
Proof.
  rewrite codewords_labels. apply Forall_fmap, Forall_true. intros k. unfold compose, of_label. destruct (k <? 0); [apply byte_0|].
  assert (bytes (data ++ concat rems)) as H.
  { apply Forall_app. split; [done|]. apply Forall_concat, Forall_forall. intros l (d & -> & Hd)%list_elem_of_fmap.
    destruct (codeword_F e d (ecc_in_tables ecl ver Hver) (the_blocks_bytes d Hd)) as (w & Ew & _).
    pose proof (fz_bytes w) as Hw. rewrite Ew in Hw. by apply Forall_app in Hw as [_ Hw]. }
  destruct (nth_in_or_default (Z.to_nat k) (data ++ concat rems) 0) as [Hin|E]; [|rewrite E; apply byte_0].
  unfold bytes in H. rewrite Forall_forall in H. by apply H, list_elem_of_In.
Qed.
End blocks.

(** * The bit stream *)

Lemma down_length k : length (down k) = Z.to_nat k.
Proof. unfold down. by rewrite length_reverse, length_seqZ. Qed.
Lemma put_length v k : length (put v k) = Z.to_nat k.
Proof. unfold put. by rewrite length_fmap, down_length. Qed.
Lemma number_bits (k : nat) v : 0 <= v -> number ((fun i => Z.testbit v i) <$> seqZ 0 (Z.of_nat k)) = v mod 2 ^ Z.of_nat k.
Proof.
  revert v. induction k as [|k IH]; intros v Hv; [by rewrite Z.mod_1_r|].
  rewrite seqZ_cons by lia. replace (Z.pred (Z.of_nat (S k))) with (Z.of_nat k) by lia. rewrite fmap_cons. cbn [number foldr].
  fold (number ((fun i => Z.testbit v i) <$> seqZ (Z.succ 0) (Z.of_nat k))).
  replace ((fun i => Z.testbit v i) <$> seqZ (Z.succ 0) (Z.of_nat k)) with ((fun i => Z.testbit (v / 2) i) <$> seqZ 0 (Z.of_nat k)).
  - rewrite IH by (apply Z.div_pos; lia). rewrite Nat2Z.inj_succ, Z.pow_succ_r by lia. rewrite Z.rem_mul_r by lia.
    rewrite Z.bit0_mod. lia.
  - rewrite <-(fmap_add_seqZ 1 0), <-list_fmap_compose. apply list_fmap_ext. intros i j [-> _]%lookup_seqZ. unfold compose.
    rewrite <-Z.div2_div, Z.div2_spec, Z.shiftr_spec by lia. f_equal. lia.
Qed.
Lemma from_bits_put v k : 0 <= v -> 0 <= k -> from_bits (put v k) = v mod 2 ^ k.
Proof.
  intros Hv Hk. unfold from_bits, put, down. rewrite <-fmap_reverse, reverse_involutive. rewrite <-(Z2Nat.id k) by done. by apply number_bits.
Qed.

Lemma pad_from_spec fuel bits pad cap : len bits <= cap -> (cap - len bits) mod 8 = 0 -> cap - len bits <= Z.of_nat fuel ->
  exists t, pad_from fuel bits pad cap = bits ++ t /\ len (bits ++ t) = cap.
Proof.
  revert bits pad. induction fuel as [|fuel IH]; intros bits pad H1 H2 H3; cbn [pad_from].
  - exists []. rewrite app_nil_r. split; [done|lia].
  - destruct (Z.ltb_spec (len bits) cap) as [Hlt|]; [|exists []; rewrite app_nil_r; split; [done|lia]].
    assert (len (bits ++ put pad 8) = len bits + 8) as Hl by (unfold len; rewrite length_app, put_length; lia).
    destruct (IH (bits ++ put pad 8) (Z.lxor pad (Z.lxor 236 17))) as (t & E & Ht); [Z.div_mod_to_equations; lia|..].
    + rewrite Hl. replace (cap - (len bits + 8)) with (cap - len bits + (-1) * 8) by lia. by rewrite Z.mod_add.
    + lia.
    + exists (put pad 8 ++ t). by rewrite E, <-app_assoc in *.
Qed.
Lemma bitStream_spec bytes ver ecl : fits bytes ecl ver = true -> exists t,
  bitStream bytes ver ecl = (put 4 4 ++ put (len bytes) (countBits ver) ++ to_bits bytes) ++ t
  /\ len (bitStream bytes ver ecl) = dataCodewords ver ecl * 8.
Proof.
  intros Hf. unfold fits in Hf. apply Z.leb_le in Hf. unfold bitStream. set (cap := dataCodewords ver ecl * 8) in *.
  set (b0 := put 4 4 ++ put (len bytes) (countBits ver) ++ (bytes ≫= fun b => put b 8)).
  assert (0 <= countBits ver) by (unfold countBits; destruct (ver <=? 9); lia).
  assert (len b0 = 4 + countBits ver + len bytes * 8) as H0.
  { unfold b0, len. rewrite !length_app, !put_length. change (bytes ≫= (fun b => put b 8)) with (to_bits bytes). rewrite to_bits_length. lia. }
  set (b1 := b0 ++ put 0 (Z.min 4 (cap - len b0))). set (b2 := b1 ++ put 0 ((8 - len b1 mod 8) mod 8)).
  assert (len b1 = len b0 + Z.min 4 (cap - len b0)) as H1 by (unfold b1; unfold len at 1; rewrite length_app, put_length; unfold len in *; lia).
  assert (len b2 = len b1 + (8 - len b1 mod 8) mod 8) as H2.
  { unfold b2. unfold len at 1. rewrite length_app, put_length. pose proof (Z.mod_pos_bound (8 - len b1 mod 8) 8 eq_refl). unfold len in *. lia. }
  assert (len b0 <= cap) as Hc by (unfold len in *; lia).
  destruct (pad_from_spec (Z.to_nat cap) b2 0xec cap) as (t & E & Ht).
  - rewrite H2. assert (len b1 <= cap) by lia. assert (cap mod 8 = 0) by (unfold cap; by apply Z.mod_mul). Z.div_mod_to_equations; lia.
  - rewrite H2. assert (cap mod 8 = 0) by (unfold cap; by apply Z.mod_mul). Z.div_mod_to_equations; lia.
  - unfold len in *. lia.
  - rewrite E. exists (put 0 (Z.min 4 (cap - len b0)) ++ put 0 ((8 - len b1 mod 8) mod 8) ++ t). split; [|done].
    unfold b2, b1, b0, to_bits, put. rewrite !down_8. by rewrite <-!app_assoc.
Qed.

Lemma put_byte_of l : length l = 8%nat -> put (byte_of l) 8 = l /\ byte_ok (byte_of l) = true.
Proof.
  intros H. destruct l as [|b0 [|b1 [|b2 [|b3 [|b4 [|b5 [|b6 [|b7 [|b8 l]]]]]]]]]; try done.
  destruct b0, b1, b2, b3, b4, b5, b6, b7; vm_compute; done.
Qed.
Lemma bytes_from_spec k bits : length bits = (8 * k)%nat -> to_bits (bytes_from k bits) = bits /\ bytes (bytes_from k bits) /\ length (bytes_from k bits) = k.
Proof.
  revert bits. induction k as [|k IH]; intros bits H; cbn [bytes_from]; [destruct bits; [split_and!; [done|constructor|done]|done]|].
  destruct (put_byte_of (take 8 bits)) as [E Hok]; [rewrite length_take; lia|]. destruct (IH (drop 8 bits)) as (H1 & H2 & H3); [rewrite length_drop; lia|].
  split_and!; [|by constructor|simpl; by f_equal].
  change (to_bits (byte_of (take 8 bits) :: bytes_from k (drop 8 bits))) with (put (byte_of (take 8 bits)) 8 ++ to_bits (bytes_from k (drop 8 bits))).
  by rewrite E, H1, take_drop.
Qed.
Lemma dataBytes_spec bits k : len bits = k * 8 -> 0 <= k -> to_bits (dataBytes bits) = bits /\ bytes (dataBytes bits) /\ len (dataBytes bits) = k.
Proof.
  intros H Hk. unfold dataBytes, len in *. replace (length bits / 8)%nat with (Z.to_nat k).
  - destruct (bytes_from_spec (Z.to_nat k) bits) as (H1 & H2 & H3); [lia|]. split_and!; [done..|lia].
  - replace (length bits) with (Z.to_nat k * 8)%nat by lia. by rewrite Nat.div_mul.
Qed.

(** A byte-mode segment reads as the bytes it was made of. *)
Lemma segment_reads ver ecl l t : 1 <= ver <= 10 -> bytes l -> fits l ecl ver = true ->
  segment ver ((put 4 4 ++ put (len l) (countBits ver) ++ to_bits l) ++ t) = Some l.
Proof.
  intros Hver Hl Hf. assert (len l < 2 ^ countBits ver) as Hn.
  { destruct (facts_of ver ecl Hver) as (_ & _ & _ & Hs & _). unfold stream_fact in Hs. apply andb_true_iff in Hs as [Hs%Z.ltb_lt _].
    unfold fits in Hf. apply Z.leb_le in Hf. unfold countBits, len in *. destruct (ver <=? 9); lia. }
  unfold segment. cbv zeta. replace (if ver <=? 9 then 8%nat else 16%nat) with (Z.to_nat (countBits ver)) by (unfold countBits; by destruct (ver <=? 9)).
  assert (0 <= countBits ver) as Hc by (unfold countBits; destruct (ver <=? 9); lia).
  rewrite <-!app_assoc. rewrite take_app_length' by (by rewrite put_length). rewrite drop_app_length' by (by rewrite put_length).
  rewrite take_app_length' by (by rewrite put_length). rewrite (from_bits_put (len l)) by (unfold len; lia). rewrite (Z.mod_small (len l)) by (unfold len in *; lia).
  replace (drop (4 + Z.to_nat (countBits ver)) (put 4 4 ++ put (len l) (countBits ver) ++ to_bits l ++ t)) with (to_bits l ++ t).
  - change (from_bits (put 4 4) =? 4) with true. unfold len. rewrite Nat2Z.id, andb_true_l. rewrite (proj2 (Nat.leb_le _ _)).
    + by rewrite groups_bytes, firstn_all by done.
    + rewrite length_app, to_bits_length. lia.
  - rewrite drop_app_add' by by rewrite put_length. by rewrite drop_app_length' by (by rewrite put_length).
Qed.

Lemma text_of_char c l : text_of (utf8_char c ++ l) = cons c <$> text_of l.
Proof. destruct c as [[] [] [] [] [] [] [] []]; reflexivity. Qed.
Lemma utf8_reads text : text_of (utf8 text) = Some text.
Proof. induction text as [|c text IH]; [done|]. change (utf8 (c :: text)) with (utf8_char c ++ utf8 text). by rewrite text_of_char, IH. Qed.
Lemma utf8_bytes text : bytes (utf8 text).
Proof.
  induction text as [|c text IH]; [constructor|]. change (utf8 (c :: text)) with (utf8_char c ++ utf8 text). apply Forall_app. split; [|done].
  assert (forallb byte_ok (utf8_char c) = true) as H by (destruct c as [[] [] [] [] [] [] [] []]; vm_compute; reflexivity).
  apply Forall_forall. intros x Hx. rewrite forallb_forall in H. by apply H, list_elem_of_In.
Qed.

(** * The whole symbol *)

Section symbol.
Context (ver : Z) (ecl : Ecl) (Hver : 1 <= ver <= 10) (cw : list Z) (Hcw : bytes cw) (Hlen : length cw = length (owners ver ecl)).
Local Abbreviation size := (ver * 4 + 17).
Local Abbreviation P := (patterns ver ecl).
Local Abbreviation U := (unmasked ver ecl cw).

Lemma places_facts : free (isFn P) (zigzag size) = data_places ver /\ NoDup (data_places ver) /\ len (owners ver ecl) * 8 <= len (data_places ver)
  /\ (forall x y, (x, y) ∈ data_places ver -> in_symbol size x y = true /\ isFn P y x = false)
  /\ (forall x y, (x, y) ∈ format_places size ++ (if 7 <=? ver then version_places1 size ++ version_places2 size else []) -> isFn P y x = true).
Proof.
  destruct (facts_of ver ecl Hver) as (H0 & _ & H & _). unfold places_fact in H. rewrite !andb_true_iff in H.
  destruct H as [[[H1%bool_decide_eq_true H2%Z.leb_le] H3] H4]. rewrite forallb_forall in H3, H4. split_and!; [done| |done|..].
  - unfold nodup_fact in H0. apply bool_decide_eq_true, set_nodup in H0. by apply NoDup_fmap_1 in H0.
  - intros x y Hp. split; [apply (H3 (x, y)); by apply list_elem_of_In|]. rewrite <-H1 in Hp. by apply list_elem_of_filter in Hp as [? _].
  - intros x y Hp. apply (H4 (x, y)). by apply list_elem_of_In.
Qed.
Lemma unmasked_spec : isFn U = isFn P
  /\ (forall i x y, data_places ver !! i = Some (x, y) -> Z.of_nat i < len cw * 8 -> modules U y x = codewordBit cw (Z.of_nat i))
  /\ (forall x y, isFn P y x = true -> modules U y x = modules P y x).
Proof.
  destruct places_facts as (H1 & H2 & _). destruct (place_all cw (isFn P) (zigzag size) P 0) as (A1 & A2 & A3); [done..|by rewrite H1|].
  rewrite H1 in A2. split_and!; [exact A1| |].
  - intros i x y Hi Hlt. by apply (A2 i x y).
  - intros x y Hf. apply A3. intros Hp. apply list_elem_of_filter in Hp as [Hp _]. congruence.
Qed.
Lemma format_is_fn x y : (x, y) ∈ format_places size -> isFn U y x = true.
Proof. destruct unmasked_spec as (-> & _). intros H. apply places_facts, elem_of_app. by left. Qed.

Lemma symbol_fn m x y : isFn P y x = true -> modules (with_mask size ecl U m) y x = modules (drawFormat size ecl m P) y x.
Proof.
  intros Hf. destruct unmasked_spec as (A1 & _ & A3). apply drawFormat_modules. intros _. rewrite applyMask_modules, A1, Hf.
  rewrite andb_false_r. cbn [negb andb]. rewrite A3 by done. apply xorb_false_r.
Qed.
Lemma symbol_data m i x y : data_places ver !! i = Some (x, y) -> Z.of_nat i < len cw * 8 ->
  modules (with_mask size ecl U m) y x = xorb (codewordBit cw (Z.of_nat i)) (inv m x y).
Proof.
  intros Hi Hlt. destruct unmasked_spec as (A1 & A2 & _). destruct places_facts as (_ & _ & _ & Hp & _).
  destruct (Hp x y) as [Hin Hf]; [by eapply list_elem_of_lookup_2|]. unfold with_mask.
  rewrite drawFormat_draw, draw_modules. destruct (drawn _ _ _) as [v|] eqn:E.
  { apply drawn_Some in E. rewrite format_list_places in E. apply format_is_fn in E. rewrite A1 in E. congruence. }
  cbn [from_option]. rewrite applyMask_modules, A1, Hf, Hin. by rewrite (A2 i x y).
Qed.
Lemma mask_condition_inv m x y : mask_condition m y x = inv m x y.
Proof. unfold mask_condition, inv. by rewrite (Z.add_comm y x), (Z.mul_comm y x), (Z.add_comm (y / 2)). Qed.

(** The bits read off the symbol are the codewords'. *)
Lemma symbol_bits m : exists rest,
  (fun '(x, y) => xorb (modules (with_mask size ecl U m) y x) (mask_condition m y x)) <$> data_places ver = to_bits cw ++ rest.
Proof.
  destruct places_facts as (_ & _ & Hl & _). set (f := fun '(x, y) => _). exists (drop (8 * length cw) (f <$> data_places ver)).
  rewrite <-(take_drop (8 * length cw) (f <$> data_places ver)) at 1. f_equal. rewrite <-codeword_bits. apply list_eq. intros i.
  destruct (decide (i < 8 * length cw)%nat) as [Hi|Hi].
  - rewrite lookup_take_lt by done. rewrite !list_lookup_fmap. unfold len in Hl.
    destruct (lookup_lt_is_Some_2 (data_places ver) i) as [[x y] Hxy]; [lia|]. rewrite Hxy.
    assert (seqZ 0 (len cw * 8) !! i = Some (Z.of_nat i)) as -> by (apply lookup_seqZ; unfold len; lia). cbn [fmap option_fmap option_map]. f_equal. unfold f.
    rewrite (symbol_data m i) by (done || unfold len; lia). rewrite mask_condition_inv. by destruct (codewordBit _ _), (inv _ _ _).
  - rewrite lookup_take_ge by lia. symmetry. apply lookup_ge_None. rewrite length_fmap, length_seqZ. unfold len. lia.
Qed.
Lemma read_at_fn m places : (forall x y, (x, y) ∈ places -> isFn P y x = true) ->
  read_at (modules (with_mask size ecl U m)) places = read_at (modules (drawFormat size ecl m P)) places.
Proof.
  intros H. unfold read_at. refine (f_equal number _). apply list_fmap_ext. intros i [x y] Hi. cbv beta. apply symbol_fn, H. by eapply list_elem_of_lookup_2.
Qed.
End symbol.

Section roundtrip.
Context (ver : Z) (ecl : Ecl) (Hver : 1 <= ver <= 10) (text : str) (Hfits : fits (utf8 text) ecl ver = true).
Local Abbreviation size := (ver * 4 + 17).
Local Abbreviation data := (dataBytes (bitStream (utf8 text) ver ecl)).
Local Abbreviation U := (unmasked ver ecl (codewordsOf ver ecl data)).

Lemma data_spec : to_bits data = bitStream (utf8 text) ver ecl /\ bytes data /\ len data = dataCodewords ver ecl.
Proof.
  destruct (bitStream_spec (utf8 text) ver ecl Hfits) as (t & _ & H). apply dataBytes_spec; [done|].
  by destruct (blocks_facts ver ecl Hver) as (_ & _ & _ & _ & _ & _ & ?).
Qed.
(** The reader takes the symbol's blocks apart and finds them whole. *)
Lemma blocks_read : let blocks := codeword (at_ (ECC_PER_BLOCK ecl) ver) <$> the_blocks ver ecl data in
  forallb (fun '(b, n) => block_ok n.2 b) (zip blocks (blocks_of ver ecl)) = true
  /\ concat (zip_with (fun b n => take (Z.to_nat n.1) b) blocks (blocks_of ver ecl)) = data.
Proof.
  destruct data_spec as (_ & Hb & Hl). destruct (blocks_facts ver ecl Hver) as (_ & _ & _ & Ht & _).
  pose proof (the_blocks_bytes ver ecl Hver data Hb Hl) as Hok.
  assert (blocks_of ver ecl = (fun d => (len d, at_ (ECC_PER_BLOCK ecl) ver)) <$> the_blocks ver ecl data) as Hbs.
  { rewrite Ht, (blocks_label ver ecl data Hl), <-list_fmap_compose. apply list_fmap_ext. intros i d _. unfold compose, len. by rewrite length_fmap. }
  pose proof (the_blocks_concat ver ecl Hver data Hl) as Hc. revert Hok Hbs Hc. generalize (the_blocks ver ecl data). intros ds Hok -> Hc. cbn zeta. split.
  - apply forallb_forall. intros [b n] Hin%list_elem_of_In. rewrite zip_with_fmap_l, zip_with_fmap_r, zip_with_diag in Hin.
    apply list_elem_of_fmap in Hin as (d & [= -> ->] & Hd). unfold block_ok. apply forallb_forall. intros i Hi%list_elem_of_In%elem_of_seqZ.
    apply Z.eqb_eq, block_syndromes_vanish; [done|by apply Hok|simpl in *; lia].
  - rewrite zip_with_fmap_l, zip_with_fmap_r, zip_with_diag. rewrite <-Hc at 1. f_equal. rewrite <-(list_fmap_id ds) at 2. apply list_fmap_ext.
    intros i d _. cbn [fst]. unfold codeword, len. rewrite Nat2Z.id. apply take_app_length.
Qed.
Lemma symbol_reads m : 0 <= m < 8 -> read_qr size (modules (with_mask size ecl U m)) = Some (ecl, m, text).
Proof.
  intros Hm. destruct data_spec as (Hbits & Hbytes & Hlen).
  pose proof (codewords_bytes ver ecl Hver data Hbytes Hlen) as Hcb. pose proof (codewords_length ver ecl Hver data Hbytes Hlen) as Hcl.
  unfold read_qr. replace ((size - 17) / 4) with ver by (Z.div_mod_to_equations; lia). cbv zeta.
  destruct (places_facts ver ecl Hver) as (_ & _ & _ & _ & Hfn).
  pose proof (read_at_fn ver ecl Hver (codewordsOf ver ecl data) m) as Hread.
  destruct (facts_of ver ecl Hver) as (_ & _ & _ & _ & Hf). specialize (Hf m Hm). unfold format_fact in Hf. rewrite !andb_true_iff in Hf.
  destruct Hf as [[Hf1 Hf2%bool_decide_eq_true] Hf3].
  assert (forall places, (forall p, p ∈ places -> p ∈ format_places size) -> read_at (modules (with_mask size ecl U m)) places = read_at (modules (drawFormat size ecl m (patterns ver ecl))) places) as Hr.
  { intros places Hp. apply Hread. intros x y H. apply Hfn, elem_of_app. left. by apply Hp. }
  rewrite (Hr format_places1), (Hr (format_places2 size)) by (intros p Hp; unfold format_places; rewrite !elem_of_app; auto).
  rewrite Hf1, Hf2.
  match goal with |- context [if 7 <=? ver then ?a else true] => assert ((if 7 <=? ver then a else true) = true) as Hv end.
  { destruct (7 <=? ver) eqn:E7; [|reflexivity]. rewrite (Hread (version_places1 size)), (Hread (version_places2 size)); [exact Hf3|..];
      intros x y Hp; apply Hfn; rewrite !elem_of_app; auto. }
  rewrite Hv.
  assert ((1 <=? ver) && (ver <=? 10) && (size =? 4 * ver + 17) && true && true = true) as Hsize by (rewrite !andb_true_iff, !Z.leb_le, Z.eqb_eq; lia).
  rewrite Hsize.
  cbn [mbind option_bind]. destruct (symbol_bits ver ecl Hver (codewordsOf ver ecl data) Hcl m) as [rest ->].
  rewrite <-Hcl, groups_bytes, firstn_all, (codewords_apart ver ecl Hver data Hbytes Hlen) by done.
  destruct blocks_read as [-> ->]. rewrite Hbits.
  destruct (bitStream_spec (utf8 text) ver ecl Hfits) as (t & -> & _). rewrite (segment_reads ver ecl) by (done || apply utf8_bytes).
  cbn [mbind option_bind]. by rewrite utf8_reads.
Qed.
End roundtrip.

(** * What [encodeQr] promises *)

Lemma versionFor_spec l ecl : match versionFor l ecl with
  | Some ver => 1 <= ver <= 10 /\ fits l ecl ver = true /\ forall v, 1 <= v < ver -> fits l ecl v = false
  | None => forall v, 1 <= v <= 10 -> fits l ecl v = false
  end.
Proof.
  unfold versionFor, MAX_VERSION. assert (forall k a, match List.find (fits l ecl) (seqZ a (Z.of_nat k)) with
    | Some ver => a <= ver < a + Z.of_nat k /\ fits l ecl ver = true /\ forall v, a <= v < ver -> fits l ecl v = false
    | None => forall v, a <= v < a + Z.of_nat k -> fits l ecl v = false end) as H.
  { intros k. induction k as [|k IH]; intros a; [simpl; lia|]. rewrite seqZ_cons by lia. replace (Z.pred (Z.of_nat (S k))) with (Z.of_nat k) by lia.
    cbn [List.find]. destruct (fits l ecl a) eqn:E; [split_and!; [lia|lia|done|lia]|]. specialize (IH (Z.succ a)).
    destruct (List.find _ _) as [ver|].
    - destruct IH as (H1 & H2 & H3). split_and!; [lia|lia|done|]. intros v Hv. destruct (decide (v = a)) as [->|]; [done|]. apply H3. lia.
    - intros v Hv. destruct (decide (v = a)) as [->|]; [done|]. apply IH. lia. }
  specialize (H 10%nat 1). change (Z.of_nat 10) with 10 in H. destruct (List.find _ _) as [ver|].
  - destruct H as (H1 & H2 & H3). split_and!; [lia|lia|done..].
  - intros v Hv. apply H. lia.
Qed.

(** The grid before the mask, and the symbols of a text. *)
Definition symbol_of (text : str) (ecl : Ecl) (ver : Z) : Grid :=
  unmasked ver ecl (codewordsOf ver ecl (dataBytes (bitStream (utf8 text) ver ecl))).
Lemma encode_forced text ecl m : 0 <= m -> encodeQr text ecl (Some m) =
  (fun ver => {| version := ver; ecl_of := ecl; mask := m; size_of := ver * 4 + 17;
                 qr_modules := modules (with_mask (ver * 4 + 17) ecl (symbol_of text ecl ver) m) |}) <$> versionFor (utf8 text) ecl.
Proof.
  intros Hm. unfold encodeQr. destruct (versionFor (utf8 text) ecl) as [ver|]; [|done]. cbn [default from_option id].
  assert ((m <? 0) = false) as -> by by apply Z.ltb_ge. done.
Qed.
Lemma encode_chosen text ecl ver : 1 <= ver <= 10 -> versionFor (utf8 text) ecl = Some ver -> exists m,
  encodeQr text ecl None = Some {| version := ver; ecl_of := ecl; mask := m; size_of := ver * 4 + 17;
    qr_modules := modules (with_mask (ver * 4 + 17) ecl (symbol_of text ecl ver) m) |}
  /\ first_least (ver * 4 + 17) ecl (symbol_of text ecl ver) (seqZ 0 8) m.
Proof.
  intros Hver Hv. unfold encodeQr. rewrite Hv. cbn [default from_option id]. change (-1 <? 0) with true. cbv iota. fold (symbol_of text ecl ver).
  assert (forall x y, (x, y) ∈ format_places (ver * 4 + 17) -> isFn (symbol_of text ecl ver) y x = true) as Hf by (intros x y; by apply format_is_fn).
  destruct (try_masks (ver * 4 + 17) ecl (symbol_of text ecl ver) Hf 0 (seqZ 1 7) (-1)) as (m & g & E & H & Hl).
  change (0 :: seqZ 1 7) with (seqZ 0 8) in *. exists m. rewrite E. split; [|exact H].
  by rewrite (with_mask_like (ver * 4 + 17) ecl (symbol_of text ecl ver) Hf m g Hl).
Qed.

(** C7: every symbol [encodeQr] makes reads as the text it was asked for: a reader that follows the
    standard (its own geometry and tables, both copies of the format and version information, the
    syndromes of every block) gets the level, the mask and the text, for any text that fits, at both
    levels, with the mask chosen or forced. *)
Theorem encoded_text_reads text ecl forced code : encodeQr text ecl forced = Some code -> (forall m, forced = Some m -> 0 <= m < 8) ->
  read_qr (size_of code) (qr_modules code) = Some (ecl, mask code, text).
Proof.
  intros E Hf. pose proof (versionFor_spec (utf8 text) ecl) as Hv. destruct (versionFor (utf8 text) ecl) as [ver|] eqn:Ev.
  2: { unfold encodeQr in E. by rewrite Ev in E. }
  destruct Hv as (Hver & Hfits & _). destruct forced as [m|].
  - specialize (Hf m eq_refl). rewrite encode_forced, Ev in E by lia. apply (inj Some) in E. subst code. by apply symbol_reads.
  - destruct (encode_chosen text ecl ver Hver Ev) as (m & E' & l1 & l2 & El & _). rewrite E in E'. apply (inj Some) in E'. subst code. apply symbol_reads; [done..|].
    assert (m ∈ seqZ 0 8) as Hm by (rewrite El; set_solver). apply elem_of_seqZ in Hm. exact Hm.
Qed.

(** the mask [encodeQr] chooses is the one of least penalty, the first such: its symbol is the one
    it makes with that mask forced, and each other forced mask's symbol scores no less, an earlier
    one's more; the trials leave no trace in the symbol. *)
Theorem chosen_mask_is_best text ecl code : encodeQr text ecl None = Some code ->
  encodeQr text ecl (Some (mask code)) = Some code
  /\ forall k other, 0 <= k < 8 -> encodeQr text ecl (Some k) = Some other ->
       penalty (size_of code) (qr_modules code) <= penalty (size_of other) (qr_modules other)
       /\ (k < mask code -> penalty (size_of code) (qr_modules code) < penalty (size_of other) (qr_modules other)).
Proof.
  intros E. pose proof (versionFor_spec (utf8 text) ecl) as Hv. destruct (versionFor (utf8 text) ecl) as [ver|] eqn:Ev.
  2: { unfold encodeQr in E. by rewrite Ev in E. }
  destruct Hv as (Hver & _ & _). destruct (encode_chosen text ecl ver Hver Ev) as (m & E' & l1 & l2 & El & H1 & H2).
  rewrite E in E'. apply (inj Some) in E'. subst code. cbn [mask size_of qr_modules].
  assert (0 <= m < 8) as Hm. { assert (m ∈ seqZ 0 8) as Hin by (rewrite El; set_solver). by apply elem_of_seqZ in Hin. }
  split; [by rewrite encode_forced, Ev by lia|]. intros k other Hk Eo. rewrite encode_forced, Ev in Eo by lia. apply (inj Some) in Eo. subst other. cbn [size_of qr_modules].
  assert (k ∈ l1 ++ m :: l2) as Hin by (rewrite <-El; apply elem_of_seqZ; lia).
  rewrite Forall_forall in H1, H2. unfold score_of in *. apply elem_of_app in Hin as [Hin|[->|Hin]%elem_of_cons].
  - specialize (H1 k Hin). split; [lia|done].
  - split; [lia|]. lia.
  - specialize (H2 k Hin). split; [done|]. intros Hlt. exfalso.
    apply list_elem_of_lookup in Hin as [j Hj]. assert (seqZ 0 8 !! length l1 = Some m) as Ea by (by rewrite El, lookup_app_r, Nat.sub_diag by lia).
    assert (seqZ 0 8 !! (length l1 + S j)%nat = Some k) as Eb by (rewrite El, lookup_app_r by lia; by replace (length l1 + S j - length l1)%nat with (S j) by lia).
    apply lookup_seqZ in Ea as [-> _], Eb as [-> _]. lia.
Qed.

(** [encodeQr] fails exactly on texts of more than 271 bytes of UTF-8 at level L, 213 at M, and
    otherwise takes the smallest version whose data codewords hold the text. *)
Theorem encodeQr_fits text ecl forced :
  (encodeQr text ecl forced = None <-> (match ecl with L => 271 | M => 213 end) < len (utf8 text))
  /\ forall code, encodeQr text ecl forced = Some code ->
       fits (utf8 text) ecl (version code) = true /\ forall v, 1 <= v < version code -> fits (utf8 text) ecl v = false.
Proof.
  pose proof (versionFor_spec (utf8 text) ecl) as Hv.
  assert (encodeQr text ecl forced = None <-> versionFor (utf8 text) ecl = None) as ->.
  { unfold encodeQr. destruct (versionFor _ _) as [ver|]; [|done]. split; [|done]. by destruct (if _ <? _ then _ else _) as [c g]. }
  assert (fits (utf8 text) ecl 10 = (len (utf8 text) <=? match ecl with L => 271 | M => 213 end)) as H10.
  { unfold fits. change (countBits 10) with 16. destruct ecl; [change (dataCodewords 10 L) with 274|change (dataCodewords 10 M) with 216];
      unfold len; match goal with |- (?a <=? ?b) = (?c <=? ?d) => destruct (Z.leb_spec a b), (Z.leb_spec c d); done || lia end. }
  destruct (versionFor (utf8 text) ecl) as [ver|] eqn:Ev.
  - destruct Hv as (Hver & Hfits & Hmin). split.
    + split; [done|]. intros Hlt. exfalso. assert (fits (utf8 text) ecl 10 = true) as H; [|rewrite H10 in H; apply Z.leb_le in H; lia].
      unfold fits in *. apply Z.leb_le. apply Z.leb_le in Hfits.
      assert (forallb (fun v => dataCodewords v ecl * 8 - countBits v <=? dataCodewords 10 ecl * 8 - countBits 10) (seqZ 1 10) = true) as Hmono by (destruct ecl; vm_compute; reflexivity).
      rewrite forallb_forall in Hmono. specialize (Hmono ver). rewrite Z.leb_le, <-list_elem_of_In, elem_of_seqZ in Hmono. lia.
    + intros code E. unfold encodeQr in E. rewrite Ev in E. destruct (if _ <? _ then _ else _) as [c g]. by injection E as <-.
  - split; [|intros code E; unfold encodeQr in E; by rewrite Ev in E]. split; [|done]. intros _. specialize (Hv 10 ltac:(lia)). rewrite H10 in Hv. by apply Z.leb_gt.
Qed.

(** ** Witnesses *)

Lemma encoded_text_reads_witness : (forall m, Some 3 = Some m -> 0 <= m < 8) /\
  exists code, encodeQr (js "HELLO") M (Some 3) = Some code /\ read_qr (size_of code) (qr_modules code) = Some (M, mask code, js "HELLO").
Proof.
  assert (forall m, Some 3 = Some m -> 0 <= m < 8) as H by (intros m [= <-]; lia).
  assert (versionFor (utf8 (js "HELLO")) M = Some 1) as Hv by (vm_compute; reflexivity).
  pose proof (encode_forced (js "HELLO") M 3 ltac:(lia)) as E. rewrite Hv in E. split; [exact H|].
  eexists. split; [exact E|]. exact (encoded_text_reads (js "HELLO") M (Some 3) _ E H).
Defined.
Lemma chosen_mask_is_best_witness : exists code, encodeQr (js "HELLO") M None = Some code /\
  (encodeQr (js "HELLO") M (Some (mask code)) = Some code
  /\ forall k other, 0 <= k < 8 -> encodeQr (js "HELLO") M (Some k) = Some other ->
       penalty (size_of code) (qr_modules code) <= penalty (size_of other) (qr_modules other)
       /\ (k < mask code -> penalty (size_of code) (qr_modules code) < penalty (size_of other) (qr_modules other))).
Proof.
  assert (versionFor (utf8 (js "HELLO")) M = Some 1) as Hv by (vm_compute; reflexivity).
  destruct (encode_chosen (js "HELLO") M 1 ltac:(lia) Hv) as (m & E & _). eexists. split; [exact E|].
  exact (chosen_mask_is_best (js "HELLO") M _ E).
Defined.
