(* ===== verification/ConvertQueue.v ===== *)
(** The Convert queue (client/src/state/convertQueue.ts): games made one at a time on this computer,
    and a finished package handed to the console's queue while the next one is made.

    The store is [Store]; what runs between two awaits is one event of [exec]: an action of the store,
    the answer to something the runner was asked ([ready], [build], [handOff]), or a restart of the app
    at any moment. [start]'s loop is cut at its two awaits ([Phase]). [step] says what identifiers a
    clock gives. *)
From S2P Require Import Prelude Addr.

(** * Data *)

Inductive ConvertThen := Keep | Stream | Upload.
Inductive ConvertStatus := SPending | SRunning | SInstalling | SHanded | SDone | SFailed | SCancelled.
Inductive ImageFormat := Ffpkg | Exfat | Ffpfs.
Inductive Level := Fast | Balanced | Smallest | Stored.
Record AmprLz4Options := { level : option Z; profileToml : option str; installRuntime : option bool; zstdLevel : option Z }.
Record ImageBuild := { format : ImageFormat; compress : bool; lz4 : option AmprLz4Options }.
Inductive ConvertBuild := BPkg | BImage (b : ImageBuild) | BFolder.
#[export] Instance then_eq_dec : EqDecision ConvertThen.
Proof. solve_decision. Defined.
#[export] Instance status_eq_dec : EqDecision ConvertStatus.
Proof. solve_decision. Defined.

Definition format_name (f : ImageFormat) : str :=
  js match f with Ffpkg => "ffpkg" | Exfat => "exfat" | Ffpfs => "ffpfs" end.
Definition buildExtension (build : option ConvertBuild) : str :=
  match build with
  | None | Some BPkg => js ".pkg"
  | Some BFolder => js "folder"
  | Some (BImage b) => if compress b && bool_decide (lz4 b = None) then js ".ffpfsc" else js "." ++ format_name (format b)
  end.
Definition imageBuildWith (build : ImageBuild) (l : option AmprLz4Options) : ImageBuild :=
  match l with Some o => {| format := format build; compress := false; lz4 := Some o |} | None => build end.
Definition thenFor (kind : ConvertBuild) (then_ : ConvertThen) (canInstall : bool) : ConvertThen :=
  match kind with
  | BFolder => Keep
  | _ => if canInstall then match kind, then_ with BImage _, Stream => Upload | _, t => t end else Keep
  end.

Record Dest := { volume : option str; subpath : str }.
(** What a game is queued with. *)
Record NewConvertItem := {
  source : str; isDir : option bool; password : option str; outputDir : option str; keepBoth : option bool;
  compression : Level; build_ : option ConvertBuild; imageDest : option Dest; firmware : option str;
  language : option str; then_ : ConvertThen; host : option str; deleteAfterInstall : option bool;
  fullVerify : option bool; imageLevel : option Level }.
Record ConvertItem := { game : NewConvertItem; id : str; status : ConvertStatus; packagePath : option str; error : option str }.
#[export] Instance settable_item : Settable ConvertItem := fun i =>
  {| game := game i; id := id i; status := status i; packagePath := packagePath i; error := error i |}.
Definition with_password (p : option str) (g : NewConvertItem) : NewConvertItem :=
  {| source := source g; isDir := isDir g; password := p; outputDir := outputDir g; keepBoth := keepBoth g;
     compression := compression g; build_ := build_ g; imageDest := imageDest g; firmware := firmware g;
     language := language g; then_ := then_ g; host := host g; deleteAfterInstall := deleteAfterInstall g;
     fullVerify := fullVerify g; imageLevel := imageLevel g |}.
Definition set_password (p : option str) (i : ConvertItem) : ConvertItem := i <| game := with_password p (game i) |>.

(** The choices that can change while a game waits: each is in the change or not. *)
Record ConvertItemChange := {
  c_build : option (option ConvertBuild); c_then : option ConvertThen; c_host : option (option str);
  c_deleteAfterInstall : option (option bool); c_imageDest : option (option Dest); c_outputDir : option (option str);
  c_keepBoth : option (option bool); c_compression : option Level; c_language : option (option str);
  c_fullVerify : option (option bool); c_imageLevel : option (option Level) }.
Definition change_item (c : ConvertItemChange) (i : ConvertItem) : ConvertItem :=
  let g := game i in
  i <| game := {| source := source g; isDir := isDir g; password := password g; outputDir := c_outputDir c ?? outputDir g;
     keepBoth := c_keepBoth c ?? keepBoth g; compression := c_compression c ?? compression g;
     build_ := c_build c ?? build_ g; imageDest := c_imageDest c ?? imageDest g; firmware := firmware g;
     language := c_language c ?? language g; then_ := c_then c ?? then_ g; host := c_host c ?? host g;
     deleteAfterInstall := c_deleteAfterInstall c ?? deleteAfterInstall g; fullVerify := c_fullVerify c ?? fullVerify g;
     imageLevel := c_imageLevel c ?? imageLevel g |} |>.

(** What the runner answers; [r_ready]: it has a [ready] to wait for. *)
Record Runner := { r_ready : bool }.
Record BuildResult := { b_ok : bool; b_packagePath : option str; b_message : option str; b_installed : bool; b_cancelled : bool }.
Record HandResult := { h_ok : bool; h_message : option str }.

(** The [await] the loop of [start] is stopped at; [next] is the item it took, as it was. *)
Inductive Phase := AtReady (r0 : Runner) | AtBuild (r0 : Runner) (next : ConvertItem).
(** What the runner was asked to do. *)
Inductive Call := CBuild (item : ConvertItem) | CHandOff (item : ConvertItem) (packagePath : str).

Record Store := {
  items : list ConvertItem;
  running : bool;
  armed : bool;
  runner : option Runner;
  seq : Z;
  stopRequested : bool;
  loops : list Phase;
  handOffs : list (ConvertItem * str);   (* not answered yet *)
  calls : list Call;
  stored : list ConvertItem;             (* what storage holds, parsed *)
  writable : bool                        (* storage takes writes *)
}.
#[export] Instance settable_store : Settable Store := fun s => {|
  items := items s; running := running s; armed := armed s; runner := runner s; seq := seq s;
  stopRequested := stopRequested s; loops := loops s; handOffs := handOffs s; calls := calls s;
  stored := stored s; writable := writable s |}.

(** * Operations *)

Definition is_status (t : ConvertStatus) (i : ConvertItem) : bool := bool_decide (status i = t).
Definition has_id (n : str) (i : ConvertItem) : bool := bool_decide (id i = n).
Definition find_id (n : str) (s : Store) : option ConvertItem := find (has_id n) (items s).

Definition hydrate_item (i : ConvertItem) : ConvertItem :=
  match status i with
  | SRunning => i <| status := SPending |>
  | SInstalling => i <| status := SHanded |>
  | _ => i
  end.
Definition hydrateConvertQueue (l : list ConvertItem) : list ConvertItem := map hydrate_item l.
Definition savedItems (l : list ConvertItem) : list ConvertItem := map (set_password None) l.

Definition save (s : Store) : Store := if writable s then s <| stored := savedItems (items s) |> else s.
Definition set_items (l : list ConvertItem) (s : Store) : Store := save (s <| items := l |>).
Definition patch (n : str) (f : ConvertItem -> ConvertItem) (s : Store) : Store :=
  set_items (map (fun i => if has_id n i then f i else i) (items s)) s.

Definition same_game (item : NewConvertItem) (i : ConvertItem) : bool :=
  bool_decide (source (game i) = source item) &&
  bool_decide (hostOf (host (game i) ?? []) = hostOf (host item ?? [])) &&
  (is_status SPending i || is_status SRunning i).
(** [t] is the clock's [Date.now().toString(36)]. *)
Definition new_id (t : str) (k : Z) : str := js "c" ++ t ++ num k.
Definition add (t : str) (item : NewConvertItem) (s : Store) : bool * Store :=
  if existsb (same_game item) (items s) then (false, s) else
  let s := s <| seq := seq s + 1 |> in
  (true, set_items (items s ++ [{| game := item; id := new_id t (seq s); status := SPending; packagePath := None; error := None |}]) s).
Definition update (n : str) (c : ConvertItemChange) (s : Store) : bool * Store :=
  match find_id n s with
  | Some i => if is_status SPending i then (true, patch n (change_item c) s) else (false, s)
  | None => (false, s)
  end.
Definition remove (n : str) (s : Store) : Store :=
  if match find_id n s with Some i => is_status SRunning i | None => false end then s
  else set_items (List.filter (fun i => negb (has_id n i)) (items s)) s.
Fixpoint find_index (n : str) (l : list ConvertItem) : option nat :=
  match l with [] => None | i :: l' => if has_id n i then Some 0%nat else S <$> find_index n l' end.
(** [delta] is 1 ([down]) or -1. *)
Definition move (n : str) (down : bool) (s : Store) : Store :=
  match find_index n (items s) with
  | None => s
  | Some at_ =>
      let to := if down then Some (S at_) else match at_ with S k => Some k | O => None end in
      match to with
      | None => s
      | Some to =>
          match items s !! at_, items s !! to with
          | Some a, Some b => set_items (<[to := a]> (<[at_ := b]> (items s))) s
          | _, _ => s
          end
      end
  end.
Definition kept_by_clear (i : ConvertItem) : bool := is_status SPending i || is_status SRunning i || is_status SInstalling i.
Definition clearFinished (s : Store) : Store := set_items (List.filter kept_by_clear (items s)) s.
Definition stop (s : Store) : Store := s <| stopRequested := true |> <| armed := false |>.
Definition holdNext (s : Store) : Store := s <| stopRequested := true |> <| armed := false |>.

(** ** The loop of [start] *)

Definition finish (s : Store) : Store := s <| running := false |>.
Definition take_next (r0 : Runner) (s : Store) : Store :=
  if stopRequested s then finish s else
  match find (is_status SPending) (items s) with
  | None => finish s
  | Some next =>
      let s := patch (id next) (fun i => i <| status := SRunning |> <| error := None |>) s in
      s <| calls := calls s ++ [CBuild next] |> <| loops := loops s ++ [AtBuild r0 next] |>
  end.
Definition next_round (r0 : Runner) (s : Store) : Store :=
  if stopRequested s then finish s
  else if r_ready r0 then s <| loops := loops s ++ [AtReady r0] |> else take_next r0 s.
Definition start (s : Store) : Store :=
  let s := s <| armed := false |> in
  match runner s with
  | Some r0 => if running s then s else next_round r0 (s <| stopRequested := false |> <| running := true |>)
  | None => s
  end.

Definition not_finished : str := js "The build did not finish.".
Definition not_installed : str := js "The install did not finish.".
Definition nonempty (o : option str) : option str := match o with Some [] => None | _ => o end.
(** What a build's end does to its item, and the package to hand off. *)
Definition build_failed (m : option str) (i : ConvertItem) : ConvertItem := i <| status := SFailed |> <| error := Some (m ?? not_finished) |>.
Definition built (next : ConvertItem) (r : BuildResult) (s : Store) : Store :=
  let n := id next in
  if b_cancelled r then patch n (fun i => set_password None (i <| status := SCancelled |>)) s else
  match b_ok r, nonempty (b_packagePath r) with
  | true, Some pkg =>
      let s := patch n (set_password None) s in
      if bool_decide (then_ (game next) = Keep) || bool_decide (nonempty (host (game next)) = None) || b_installed r
      then patch n (fun i => i <| status := SDone |> <| packagePath := Some pkg |>) s
      else
        let s := patch n (fun i => i <| status := SInstalling |> <| packagePath := Some pkg |>) s in
        s <| calls := calls s ++ [CHandOff next pkg] |> <| handOffs := handOffs s ++ [(next, pkg)] |>
  | _, _ => patch n (build_failed (b_message r)) s
  end.
(** The answer of a build, or what it threw. *)
Definition thrown (r : BuildResult + str) : BuildResult :=
  match r with inl r => r | inr m => {| b_ok := false; b_packagePath := None; b_message := Some m; b_installed := false; b_cancelled := false |} end.
Definition handed_off (next : ConvertItem) (r : HandResult + str) (s : Store) : Store :=
  patch (id next)
    (match r with
     | inl h => if h_ok h then fun i => i <| status := SDone |>
                else fun i => i <| status := SFailed |> <| error := Some (h_message h ?? not_installed) |>
     | inr e => fun i => i <| status := SFailed |> <| error := Some e |>
     end) s.

(** A [.rar] refused for its password, once more. *)
Definition retryWithPassword (n : str) (p : str) (s : Store) : Store :=
  match find_id n s with
  | Some i =>
      if is_status SFailed i
      then start (patch n (fun i => set_password (Some p) (i <| status := SPending |> <| error := None |>)) s)
      else s
  | None => s
  end.
Definition startAfterBuild (building queueAutoStart : bool) (s : Store) : Store :=
  if negb building || negb queueAutoStart then s
  else if running s || negb (existsb (is_status SPending) (items s)) then s
  else s <| armed := true |>.
Definition pipelinePhaseChanged (phase : str) (s : Store) : Store :=
  if negb (armed s) then s
  else if bool_decide (phase = js "failed") then s <| armed := false |>
  else if bool_decide (phase = js "idle") then start s
  else s.

(** The app's start: [load]. *)
Definition load (stored : list ConvertItem) (writable : bool) : Store := {|
  items := hydrateConvertQueue stored; running := false; armed := false; runner := None; seq := 0;
  stopRequested := false; loops := []; handOffs := []; calls := []; stored := stored; writable := writable |}.

(** ** Events *)

Inductive Event :=
| Add (t : str) (item : NewConvertItem)
| Update (n : str) (c : ConvertItemChange)
| Remove (n : str)
| Move (n : str) (down : bool)
| Retry (n : str) (p : str)
| Start
| Stop
| HoldNext
| ClearFinished
| AfterBuild (building queueAutoStart : bool)
| PhaseChanged (phase : str)
| SetRunner (r : Runner)
| ReadyAnswers (k : nat) (ok : bool)              (* loop [k]'s [ready()] resolves or rejects *)
| BuildAnswers (k : nat) (r : BuildResult + str)
| HandOffAnswers (k : nat) (r : HandResult + str)
| Restart.

Definition remove_at {A} (k : nat) (l : list A) : list A := take k l ++ drop (S k) l.
Definition exec (e : Event) (s : Store) : option Store :=
  match e with
  | Add t item => Some (add t item s).2
  | Update n c => Some (update n c s).2
  | Remove n => Some (remove n s)
  | Move n down => Some (move n down s)
  | Retry n p => Some (retryWithPassword n p s)
  | Start => Some (start s)
  | Stop => Some (stop s)
  | HoldNext => Some (holdNext s)
  | ClearFinished => Some (clearFinished s)
  | AfterBuild building auto => Some (startAfterBuild building auto s)
  | PhaseChanged phase => Some (pipelinePhaseChanged phase s)
  | SetRunner r => Some (s <| runner := Some r |>)
  | ReadyAnswers k ok =>
      match loops s !! k with
      | Some (AtReady r0) =>
          let s := s <| loops := remove_at k (loops s) |> in
          Some (if ok then take_next r0 s else finish s)
      | _ => None
      end
  | BuildAnswers k r =>
      match loops s !! k with
      | Some (AtBuild r0 next) => Some (next_round r0 (built next (thrown r) (s <| loops := remove_at k (loops s) |>)))
      | _ => None
      end
  | HandOffAnswers k r =>
      match handOffs s !! k with
      | Some (next, _) => Some (handed_off next r (s <| handOffs := remove_at k (handOffs s) |>))
      | None => None
      end
  | Restart => Some (load (stored s) (writable s))
  end.

(** [Date.now().toString(36)] is eight characters long from 1972 to 2059, and a clock that does not go
    back gives none that a queue restored from an earlier run used. *)
Definition stamped (t : str) (n : str) : Prop := exists k, n = new_id t k.
Definition ticks (old : list str) (t : str) : Prop := length t = 8%nat /\ forall n, n ∈ old -> ~ stamped t n.
(** The ids the storage held when the app started. *)
Definition step (old : list str) (s : Store) (e : Event) (s' : Store) : Prop :=
  exec e s = Some s' /\ match e with Add t _ => ticks old t | _ => True end.
Inductive run : list str -> Store -> Prop :=
| run_load l w : NoDup (id <$> l) -> Forall (fun i => password (game i) = None) l -> run (id <$> l) (load l w)
| run_step old s e s' : run old s -> e <> Restart -> step old s e s' -> run old s'
| run_restart old s : run old s -> run (id <$> stored s) (load (stored s) (writable s)).

(** * Lists of items *)

Lemma has_id_eq n i : has_id n i = true <-> id i = n.
Proof. apply bool_decide_eq_true. Qed.
Lemma is_status_true t i : is_status t i = true <-> status i = t.
Proof. apply bool_decide_eq_true. Qed.

Definition edit (n : str) (f : ConvertItem -> ConvertItem) (l : list ConvertItem) : list ConvertItem :=
  map (fun i => if has_id n i then f i else i) l.
Definition keeps_id (f : ConvertItem -> ConvertItem) : Prop := forall i, id (f i) = id i.
Lemma edit_ids n f l : keeps_id f -> id <$> edit n f l = id <$> l.
Proof.
  intros Hf. induction l as [|i l IH]; [done|]. rewrite fmap_cons, <-IH. unfold edit. simpl. f_equal.
  case_match; [apply Hf|done].
Qed.
Lemma edit_other n f l : n ∉ id <$> l -> edit n f l = l.
Proof.
  intros Hn. unfold edit. rewrite <-(map_id l) at 2. apply map_ext_in. intros i Hi%list_elem_of_In.
  destruct (has_id n i) eqn:E; [|done]. apply has_id_eq in E as <-. destruct Hn. by apply list_elem_of_fmap_2.
Qed.
Lemma edit_split n f l1 i l2 : NoDup (id <$> l1 ++ i :: l2) -> id i = n -> edit n f (l1 ++ i :: l2) = l1 ++ f i :: l2.
Proof.
  intros Hd <-. rewrite fmap_app, fmap_cons in Hd. apply NoDup_app in Hd as (_ & H1 & [H2 _]%NoDup_cons).
  unfold edit. rewrite map_app. simpl. fold (edit (id i) f l1) (edit (id i) f l2).
  rewrite !edit_other; [|done|intros H; apply (H1 _ H); left]. unfold has_id. by rewrite bool_decide_true.
Qed.
Lemma elem_of_edit n f l i : i ∈ edit n f l -> (i ∈ l /\ id i <> n) \/ (exists j, j ∈ l /\ id j = n /\ i = f j).
Proof.
  unfold edit. rewrite list_elem_of_In, in_map_iff. intros (j & Hij & Hj%list_elem_of_In).
  destruct (has_id n j) eqn:E; subst i; [apply has_id_eq in E|]; [by right; exists j|left; split; [done|]].
  intros H%has_id_eq. congruence.
Qed.
Lemma edit_edit n f g l : keeps_id f -> edit n g (edit n f l) = edit n (fun i => g (f i)) l.
Proof.
  intros Hf. unfold edit. rewrite map_map. apply map_ext. intros i. destruct (has_id n i) eqn:E; [|by rewrite E].
  unfold has_id. rewrite Hf. fold (has_id n i). by rewrite E.
Qed.
Lemma items_set_items l s : items (set_items l s) = l.
Proof. unfold set_items, save. simpl. by destruct (writable s). Qed.
Lemma items_of_patch n f s : items (patch n f s) = edit n f (items s).
Proof. apply items_set_items. Qed.
Lemma patch_patch n f g s : keeps_id f -> patch n g (patch n f s) = patch n (fun i => g (f i)) s.
Proof.
  intros Hf. unfold patch, set_items, save. simpl. destruct (writable s) eqn:E; simpl; rewrite ?E;
    fold (edit n f (items s)); fold (edit n g (edit n f (items s))); by rewrite edit_edit.
Qed.
(** [patch] and [set_items] write the list and the storage, nothing else. *)
Definition rest (s : Store) := (running s, armed s, runner s, seq s, stopRequested s, loops s, handOffs s, calls s, writable s).
Lemma rest_set_items l s : rest (set_items l s) = rest s.
Proof. unfold set_items, save. simpl. by destruct (writable s) eqn:E; unfold rest; simpl; rewrite ?E. Qed.
Lemma find_split {A} (p : A -> bool) l x : find p l = Some x ->
  exists l1 l2, l = l1 ++ x :: l2 /\ p x = true /\ Forall (fun y => p y = false) l1.
Proof.
  induction l as [|a l IH]; [done|]. simpl. destruct (p a) eqn:E.
  - intros [= ->]. by exists [], l.
  - intros (l1 & l2 & -> & Hx & H1)%IH. exists (a :: l1), l2. split; [done|]. split; [done|]. by constructor.
Qed.
Lemma find_id_spec n s i : find_id n s = Some i -> i ∈ items s /\ id i = n.
Proof. intros [Hi Hn]%find_some. by rewrite list_elem_of_In, <-has_id_eq. Qed.

(** * The invariant *)

(** The item as the loop has it while it is made. *)
Definition taken (next : ConvertItem) : ConvertItem := next <| status := SRunning |> <| error := None |>.
Definition hand_ids (H : list (ConvertItem * str)) : list str := (fun h => id h.1) <$> H.
Definition item_ok (b : option ConvertItem) (H : list (ConvertItem * str)) (i : ConvertItem) : Prop :=
  (status i = SRunning <-> id <$> b = Some (id i)) /\
  (forall next, b = Some next -> id next = id i -> i = taken next) /\
  (status i = SInstalling <-> id i ∈ hand_ids H) /\
  (forall next pkg, (next, pkg) ∈ H -> id next = id i -> packagePath i = Some pkg) /\
  (password (game i) <> None -> status i ∈ [SPending; SRunning; SFailed]).
(** An id the restored queue had, or one made since. *)
Definition made (old : list str) (q : Z) (n : str) : Prop :=
  n ∈ old \/ exists t k, n = new_id t k /\ ticks old t /\ 1 <= k <= q.
Record core (old : list str) (q : Z) (b : option ConvertItem) (H : list (ConvertItem * str)) (l : list ConvertItem) : Prop := {
  core_q : 0 <= q;
  core_ids : NoDup (id <$> l);
  core_hands : NoDup (hand_ids H);
  core_made : Forall (made old q) ((id <$> l) ++ hand_ids H);
  core_items : Forall (item_ok b H) l;
  core_build : forall next, b = Some next -> id next ∈ id <$> l
}.
Definition building (ls : list Phase) : option ConvertItem := match ls with [AtBuild _ next] => Some next | _ => None end.
(** At most one loop, and [running] says whether there is one. *)
Definition loop_ok (s : Store) : Prop := match loops s with [] => running s = false | [_] => running s = true | _ => False end.
Definition restored (i : ConvertItem) : ConvertItem := hydrate_item (set_password None i).
Record WF (old : list str) (s : Store) : Prop := {
  wf_core : core old (seq s) (building (loops s)) (handOffs s) (items s);
  wf_loop : loop_ok s;
  wf_stored : NoDup (id <$> stored s) /\ Forall (fun i => password (game i) = None) (stored s);
  wf_saved : writable s = true -> hydrateConvertQueue (stored s) = restored <$> items s
}.

Lemma ids_stay_made old q q' n : q <= q' -> made old q n -> made old q' n.
Proof. intros Hq [?|(t & k & ? & ? & ?)]; [by left|right]. exists t, k. split; [done|]. split; [done|]. lia. Qed.
Lemma app_same_length {A} (a a' b b' : list A) : length a = length a' -> a ++ b = a' ++ b' -> a = a' /\ b = b'.
Proof. intros Hl H. by apply app_inj_1 in H. Qed.
Lemma new_id_fresh old q t : ticks old t -> ~ made old q (new_id t (q + 1)).
Proof.
  intros (Hl & Hf) [Ho|(t' & k & Hn & (Hl' & _) & Hk)]; [by apply (Hf _ Ho); exists (q + 1)|].
  unfold new_id in Hn. apply app_same_length in Hn as [_ Hn]; [|done].
  apply app_same_length in Hn as [_ Hn]; [|congruence]. apply num_inj in Hn. lia.
Qed.
Lemma elem_of_ids i (l : list ConvertItem) : i ∈ l -> id i ∈ id <$> l.
Proof. apply list_elem_of_fmap_2. Qed.
Lemma same_id_same (l : list ConvertItem) i j : NoDup (id <$> l) -> i ∈ l -> j ∈ l -> id i = id j -> i = j.
Proof. apply NoDup_map_inj. Qed.

(** Editing one item: the others may stand in another light, if that is right for them. *)
Lemma core_edit old q b b' H H' l n f : core old q b H l ->
  keeps_id f ->
  (forall i, i ∈ l -> id i <> n -> item_ok b H i -> item_ok b' H' i) ->
  (forall i, i ∈ l -> id i = n -> item_ok b H i -> item_ok b' H' (f i)) ->
  NoDup (hand_ids H') -> Forall (made old q) (hand_ids H') ->
  (forall next, b' = Some next -> id next ∈ id <$> l) ->
  core old q b' H' (edit n f l).
Proof.
  intros [Hq Hids Hh Hm Hi Hb] Hf Hother Hthis Hh' Hm' Hb'. rewrite Forall_app in Hm. destruct Hm as [Hm _].
  split; [done|by rewrite edit_ids|done|rewrite edit_ids by done; by apply Forall_app_2| |by rewrite edit_ids].
  rewrite Forall_forall in *. intros i [[Hil Hne]|(j & Hj & Hn & ->)]%elem_of_edit; auto.
Qed.
(** An edit that leaves what the loop and the hand-offs rely on. *)
Lemma core_edit_same old q b H l n f : core old q b H l -> keeps_id f ->
  (forall i, i ∈ l -> id i = n -> item_ok b H i -> item_ok b H (f i)) -> core old q b H (edit n f l).
Proof.
  intros Hc Hf Hthis. destruct (Hc) as [_ _ Hh Hm _ Hb]. rewrite Forall_app in Hm. destruct Hm as [_ Hm].
  by eapply core_edit.
Qed.
Lemma core_sub old q b H l l' : core old q b H l -> NoDup (id <$> l') -> l' ⊆ l ->
  (forall next, b = Some next -> id next ∈ id <$> l') -> core old q b H l'.
Proof.
  intros [Hq Hids Hh Hm Hi Hb] Hd Hs Hb'. rewrite Forall_app in Hm. destruct Hm as [Hm Hm'].
  split; [done|done|done| | |done]; [|by rewrite !Forall_forall in *; eauto].
  apply Forall_app_2; [|done]. rewrite Forall_forall in *.
  intros n (i & -> & Hi')%list_elem_of_fmap. apply Hm, elem_of_ids. by apply Hs.
Qed.

Lemma savedItems_ok l : NoDup (id <$> l) -> NoDup (id <$> savedItems l) /\ Forall (fun i => password (game i) = None) (savedItems l).
Proof.
  intros Hd. split.
  - assert (id <$> savedItems l = id <$> l) as ->; [|done]. unfold savedItems. change (map ?f ?l) with (f <$> l).
    by rewrite <-list_fmap_compose.
  - apply Forall_forall. intros i. unfold savedItems. rewrite list_elem_of_In, in_map_iff. by intros (j & <- & _).
Qed.
(** What every write of the list keeps. *)
Definition stored_ok (s : Store) : Prop :=
  (NoDup (id <$> stored s) /\ Forall (fun i => password (game i) = None) (stored s)) /\
  (writable s = true -> hydrateConvertQueue (stored s) = restored <$> items s).
Lemma set_items_stored l s : NoDup (id <$> l) -> NoDup (id <$> stored s) /\ Forall (fun i => password (game i) = None) (stored s) ->
  stored_ok (set_items l s).
Proof.
  intros Hd Hs. unfold set_items, save. simpl. destruct (writable s) eqn:E; split; simpl; [| |done|by rewrite ?E].
  - by apply savedItems_ok.
  - intros _. unfold hydrateConvertQueue, savedItems. by rewrite map_map.
Qed.
Lemma WF_intro old s : core old (seq s) (building (loops s)) (handOffs s) (items s) -> loop_ok s -> stored_ok s -> WF old s.
Proof. intros Hc Hl [Hs Hw]. by split. Qed.
Lemma WF_set old s l q b H : core old q b H l -> loop_ok s -> q = seq s -> b = building (loops s) -> H = handOffs s ->
  NoDup (id <$> stored s) /\ Forall (fun i => password (game i) = None) (stored s) -> WF old (set_items l s).
Proof.
  intros Hc Hl -> -> -> Hs. pose proof (rest_set_items l s) as Hr. unfold rest in Hr. injection Hr as E1 _ _ E2 _ E3 E4 _ _.
  apply WF_intro; [|unfold loop_ok; by rewrite E1, E3|apply set_items_stored; [apply Hc|done]].
  by rewrite items_set_items, E2, E3, E4.
Qed.
(** Changes beside the list. *)
Lemma WF_beside old s s' : WF old s -> items s' = items s -> seq s' = seq s -> building (loops s') = building (loops s) ->
  handOffs s' = handOffs s -> loop_ok s' -> stored s' = stored s -> writable s' = writable s -> WF old s'.
Proof.
  intros [Hc Hl Hs Hw] E1 E2 E3 E4 Hl' E5 E6. split; [congruence|done|by rewrite E5|]. rewrite E1, E5, E6. done.
Qed.

Lemma WF_load old l w : NoDup (id <$> l) -> Forall (fun i => password (game i) = None) l -> old = id <$> l -> WF old (load l w).
Proof.
  intros Hd Hp ->. rewrite Forall_forall in Hp.
  assert (id <$> hydrateConvertQueue l = id <$> l) as Hids.
  { unfold hydrateConvertQueue. change (map ?f ?l) with (f <$> l). rewrite <-list_fmap_compose.
    apply list_fmap_ext. intros k i _. unfold compose, hydrate_item. by destruct (status i). }
  split; simpl; [|done|split; [done|by rewrite Forall_forall]|].
  - split; [done|by rewrite Hids|constructor| |  |done].
    + rewrite Hids, app_nil_r. apply Forall_forall. by left.
    + apply Forall_forall. intros i. unfold hydrateConvertQueue. rewrite list_elem_of_In, in_map_iff.
      intros (j & <- & Hj%list_elem_of_In). specialize (Hp _ Hj). unfold hydrate_item.
      destruct (status j) eqn:E; (split_and!; simpl; rewrite ?E; [by split|done|split; [done|by intros ?%elem_of_nil]|by intros next pkg Hx%elem_of_nil|by rewrite Hp]).
  - intros _. unfold hydrateConvertQueue. rewrite map_map. apply map_ext_in. intros i Hi%list_elem_of_In.
    unfold restored, hydrate_item, set_password, with_password. specialize (Hp _ Hi).
    destruct i as [g n st p e]. destruct g; simpl in *; subst. by destruct st.
Qed.

Lemma WF_patch_same old s n f : WF old s -> keeps_id f ->
  (forall i, i ∈ items s -> id i = n -> item_ok (building (loops s)) (handOffs s) i -> item_ok (building (loops s)) (handOffs s) (f i)) ->
  WF old (patch n f s).
Proof. intros [Hc Hl Hs Hw] Hf Hi. eapply WF_set; [by eapply core_edit_same|done..]. Qed.
(** A waiting game may change in anything but its id and status. *)
Lemma item_ok_pending b H i g : item_ok b H i -> status i = SPending -> item_ok b H (i <| game := g |>).
Proof.
  intros (H1 & H2 & H3 & H4 & H5) Hp. split_and!; simpl; [done| |done|done|rewrite Hp; set_solver].
  intros next -> Hn. destruct H1 as [_ H1]. simpl in H1. rewrite Hn in H1. by rewrite H1 in Hp.
Qed.

Lemma WF_add old t item s : WF old s -> ticks old t -> WF old (add t item s).2.
Proof.
  intros Hwf Ht. unfold add. case_match; [done|]. destruct Hwf as [Hc Hl Hs Hw].
  pose proof (new_id_fresh old (seq s) t Ht) as Hn. destruct Hc as [Hq Hids Hh Hm Hi Hb].
  rewrite Forall_app, !Forall_forall in Hm. destruct Hm as [Hm Hm'].
  assert (new_id t (seq s + 1) ∉ id <$> items s) as Hn1 by (intros Hx; by apply Hn, Hm).
  assert (new_id t (seq s + 1) ∉ hand_ids (handOffs s)) as Hn2 by (intros Hx; by apply Hn, Hm').
  eapply (WF_set old _ _ (seq s + 1)); [|exact Hl|done..]. split; [lia| |exact Hh| | | ].
  - rewrite fmap_app. simpl. apply NoDup_app. split; [done|]. split; [|apply NoDup_singleton].
    intros n Hx ->%list_elem_of_singleton. done.
  - rewrite fmap_app, !Forall_app, !Forall_forall. split_and!.
    + intros n Hx. eapply ids_stay_made; [|by apply Hm]. lia.
    + intros n ->%list_elem_of_singleton. right. exists t, (seq s + 1). split; [done|]. split; [done|]. lia.
    + intros n Hx. eapply ids_stay_made; [|by apply Hm']. lia.
  - apply Forall_app_2; [exact Hi|]. apply Forall_singleton. split_and!; simpl.
    + split; [done|]. intros Hx. destruct (building (loops s)) as [next|]; [|done]. injection Hx as Hx. destruct Hn1. rewrite <-Hx. by apply Hb.
    + intros next Hx E. destruct Hn1. rewrite <-E. by apply Hb.
    + split; [done|]. intros Hx. by destruct Hn2.
    + intros next pkg Hx E. destruct Hn2. rewrite <-E. exact (list_elem_of_fmap_2 (fun h => id h.1) _ _ Hx).
    + set_solver.
  - intros next Hx. rewrite fmap_app. apply elem_of_app. left. by apply Hb.
Qed.
Lemma WF_update old n c s : WF old s -> WF old (update n c s).2.
Proof.
  intros Hwf. unfold update. destruct (find_id n s) as [i|] eqn:E; [|done]. case_match eqn:Ep; [|done].
  apply find_id_spec in E as [Hi Hn]. apply is_status_true in Ep. apply WF_patch_same; [done|done|].
  intros j Hj Hjn Hok. apply item_ok_pending; [done|].
  rewrite (same_id_same (items s) j i); [done|by destruct Hwf as [[]]|done|done|congruence].
Qed.
Lemma filter_ids (p : ConvertItem -> bool) l : NoDup (id <$> l) -> NoDup (id <$> List.filter p l).
Proof.
  intros Hd. eapply sublist_NoDup; [exact Hd|]. apply fmap_sublist. clear Hd. induction l as [|i l IH]; [constructor|].
  simpl. destruct (p i); by constructor.
Qed.
Lemma filter_sub (p : ConvertItem -> bool) l : List.filter p l ⊆ l.
Proof. intros i. rewrite !list_elem_of_In, filter_In. by intros [Hi _]. Qed.
(** Dropping items other than the one being made. *)
Lemma WF_filter old p s : WF old s -> (forall i, i ∈ items s -> status i = SRunning -> p i = true) ->
  WF old (set_items (List.filter p (items s)) s).
Proof.
  intros [Hc Hl Hs Hw] Hp. eapply WF_set; [|done..]. destruct (Hc) as [Hq Hids Hh Hm Hi Hb].
  eapply core_sub; [done|by apply filter_ids|apply filter_sub|]. intros next E.
  destruct (list_elem_of_fmap_1 _ _ _ (Hb next E)) as (i & Hn & Hin). rewrite Hn. apply elem_of_ids.
  rewrite list_elem_of_In, filter_In, <-list_elem_of_In. split; [done|]. apply Hp; [done|].
  rewrite Forall_forall in Hi. destruct (Hi _ Hin) as ((_ & H1) & _). apply H1. rewrite E. simpl. by f_equal.
Qed.
Lemma find_id_all n s i : NoDup (id <$> items s) -> i ∈ items s -> id i = n -> find_id n s = Some i.
Proof.
  intros Hd Hi Hn. unfold find_id. destruct (find (has_id n) (items s)) as [j|] eqn:E.
  - apply (find_id_spec n s) in E as [Hj Hjn]. f_equal. eapply same_id_same; [done..|congruence].
  - apply list_elem_of_In in Hi. pose proof (find_none _ _ E i Hi) as Hx. apply not_true_iff_false in Hx.
    by destruct Hx; apply has_id_eq.
Qed.
Lemma WF_remove old n s : WF old s -> WF old (remove n s).
Proof.
  intros Hwf. unfold remove. case_match eqn:E; [done|]. apply WF_filter; [done|]. intros i Hi Hr.
  apply negb_true_iff, not_true_iff_false. intros Hn%has_id_eq.
  rewrite (find_id_all n s i) in E; [|by destruct Hwf as [[]]|done..]. unfold is_status in E.
  by rewrite bool_decide_true in E.
Qed.
Lemma WF_clear old s : WF old s -> WF old (clearFinished s).
Proof.
  intros Hwf. apply WF_filter; [done|]. intros i _ Hr. unfold kept_by_clear, is_status. rewrite Hr. done.
Qed.
Lemma find_index_lookup n l k : find_index n l = Some k -> exists i, l !! k = Some i.
Proof.
  revert k. induction l as [|i l IH]; intros k; simpl; [done|]. case_match; [intros [= <-]; by exists i|].
  destruct (find_index n l) as [j|]; [|done]. intros [= <-]. by apply IH.
Qed.
Lemma insert_swap_perm (l : list ConvertItem) i j a b : l !! i = Some a -> l !! j = Some b -> <[j := a]> (<[i := b]> l) ≡ₚ l.
Proof.
  intros Hi Hj. apply (Permutation_inj). split; [by rewrite !length_insert|].
  exists (fun k => if decide (k = i) then j else if decide (k = j) then i else k). split.
  - intros x y. repeat case_decide; congruence.
  - intros k. cbv beta. pose proof (lookup_lt_Some _ _ _ Hi). pose proof (lookup_lt_Some _ _ _ Hj).
    destruct (decide (k = j)) as [->|Hkj].
    + rewrite list_lookup_insert_eq by (by rewrite length_insert). destruct (decide (j = i)) as [->|]; congruence.
    + rewrite list_lookup_insert_ne by done. destruct (decide (k = i)) as [->|Hki].
      * rewrite list_lookup_insert_eq by done. congruence.
      * by rewrite list_lookup_insert_ne by done.
Qed.
Lemma WF_perm old l s : WF old s -> l ≡ₚ items s -> WF old (set_items l s).
Proof.
  intros [Hc Hl Hs Hw] Hp. eapply WF_set; [|done..]. destruct (Hc) as [Hq Hids Hh Hm Hi Hb].
  eapply core_sub; [done|by rewrite Hp|intros i; by rewrite Hp|]. intros next E. rewrite Hp. by apply Hb.
Qed.
Lemma WF_move old n down s : WF old s -> WF old (move n down s).
Proof.
  intros Hwf. unfold move. destruct (find_index n (items s)) as [k|] eqn:E; [|done].
  destruct (if down then Some (S k) else _) as [to|]; [|done].
  destruct (items s !! k) as [a|] eqn:E1, (items s !! to) as [b|] eqn:E2; [|done..].
  apply WF_perm; [done|]. by apply insert_swap_perm.
Qed.

(** ** Rounds of the loop *)

(** The loop is between two awaits. *)
Record mid (old : list str) (s : Store) : Prop := {
  mid_core : core old (seq s) None (handOffs s) (items s);
  mid_loops : loops s = [];
  mid_running : running s = true;
  mid_stored : stored_ok s
}.
Lemma mid_finish old s : mid old s -> WF old (finish s).
Proof. intros [Hc Hl Hr Hs]. apply WF_intro; simpl; [by rewrite Hl|unfold loop_ok; simpl; by rewrite Hl|done]. Qed.
Lemma item_ok_taken H i : item_ok None H i -> status i = SPending -> item_ok (Some i) H (taken i).
Proof.
  intros (H1 & H2 & H3 & H4 & H5) Hp. split_and!; simpl; [done|by intros _ [= <-]| |done|set_solver].
  rewrite <-H3, Hp. done.
Qed.
Lemma item_ok_beside b H i next : item_ok b H i -> id next <> id i -> (id <$> b) <> Some (id i) -> item_ok (Some next) H i.
Proof.
  intros (H1 & H2 & H3 & H4 & H5) Hne Hb. split_and!; [|by intros _ [= <-]|done|done|done].
  split; [by intros ?%H1|]. intros [= ?]. done.
Qed.
Lemma mid_take old r0 s : mid old s -> WF old (take_next r0 s).
Proof.
  intros Hm. unfold take_next. case_match; [by apply mid_finish|].
  destruct (find (is_status SPending) (items s)) as [next|] eqn:E; [|by apply mid_finish].
  apply find_some in E as [Hin%list_elem_of_In Hp%is_status_true]. destruct Hm as [Hc Hl Hr Hs].
  pose proof (rest_set_items (edit (id next) taken (items s)) s) as Hrest. unfold rest in Hrest.
  injection Hrest as E1 _ _ E2 _ E3 E4 _ _.
  unfold patch. fold taken. change (map _ (items s)) with (edit (id next) taken (items s)).
  apply WF_intro; simpl; [|unfold loop_ok; simpl; by rewrite E3, Hl, E1|].
  - rewrite E2, E3, E4, Hl, items_set_items. simpl. destruct (Hc) as [_ _ Hh Hmade _ _].
    rewrite Forall_app in Hmade. destruct Hmade as [_ Hmade]. eapply core_edit; [done|done| | |done|done|].
    + intros i Hi Hne Hok. by eapply item_ok_beside.
    + intros i Hi Hn Hok. assert (i = next) as -> by (eapply same_id_same; [apply Hc|done..]). by apply item_ok_taken.
    + intros next' [= <-]. by apply elem_of_ids.
  - destruct Hs as [Hs _]. apply (set_items_stored (edit (id next) taken (items s)) s); [|done].
    rewrite edit_ids by done. apply Hc.
Qed.
Lemma mid_round old r0 s : mid old s -> WF old (next_round r0 s).
Proof.
  intros Hm. unfold next_round. case_match; [by apply mid_finish|]. case_match; [|by apply mid_take].
  destruct Hm as [Hc Hl Hr Hs]. apply WF_intro; simpl; [by rewrite Hl|unfold loop_ok; simpl; by rewrite Hl|done].
Qed.
Lemma WF_start old s : WF old s -> WF old (start s).
Proof.
  intros Hwf. unfold start.
  assert (WF old (s <| armed := false |>)) as Hwf' by (eapply WF_beside; [exact Hwf|try done..]; apply Hwf).
  cbv zeta. set (s1 := s <| armed := false |>) in *. clearbody s1. clear s Hwf. rename s1 into s, Hwf' into Hwf.
  destruct (runner s) as [r0|]; [|done]. destruct (running s) eqn:Er; [done|]. apply mid_round.
  destruct Hwf as [Hc Hl Hs Hw]. unfold loop_ok in Hl.
  assert (loops s = []) as El by (destruct (loops s) as [|? [|]]; [done|congruence|done]).
  split; simpl; [by rewrite El in Hc|done|done|done].
Qed.
Lemma WF_stop old s : WF old s -> WF old (stop s).
Proof. intros Hwf. eapply WF_beside; [exact Hwf|try done..]. apply Hwf. Qed.

(** ** A build's end, as one edit *)

(** The package goes to the console's queue, unless it is kept or the build installed it. *)
Definition kept (next : ConvertItem) (r : BuildResult) : bool :=
  bool_decide (then_ (game next) = Keep) || bool_decide (nonempty (host (game next)) = None) || b_installed r.
Definition made_package (r : BuildResult) : option str :=
  if b_cancelled r then None else if b_ok r then nonempty (b_packagePath r) else None.
Definition outcome (next : ConvertItem) (r : BuildResult) (i : ConvertItem) : ConvertItem :=
  match made_package r with
  | Some pkg => set_password None i <| status := if kept next r then SDone else SInstalling |> <| packagePath := Some pkg |>
  | None => if b_cancelled r then set_password None (i <| status := SCancelled |>) else build_failed (b_message r) i
  end.
Definition hands (next : ConvertItem) (r : BuildResult) : list (ConvertItem * str) :=
  match made_package r with Some pkg => if kept next r then [] else [(next, pkg)] | None => [] end.
Definition hand_call (h : ConvertItem * str) : Call := CHandOff h.1 h.2.

Lemma with_nothing s : s <| calls := calls s ++ [] |> <| handOffs := handOffs s ++ [] |> = s.
Proof. destruct s. simpl. unfold set; simpl. by rewrite !app_nil_r. Qed.
Lemma set_password_ids p : keeps_id (set_password p).
Proof. done. Qed.
Lemma built_eq next r s :
  built next r s = let s := patch (id next) (outcome next r) s in
    s <| calls := calls s ++ map hand_call (hands next r) |> <| handOffs := handOffs s ++ hands next r |>.
Proof.
  unfold built, outcome, hands, made_package. cbv zeta.
  destruct (b_cancelled r); [cbn [map]; by rewrite with_nothing|].
  destruct (b_ok r); [|cbn [map]; by rewrite with_nothing].
  destruct (nonempty (b_packagePath r)) as [pkg|]; [|cbn [map]; by rewrite with_nothing].
  fold (kept next r). rewrite !patch_patch by apply set_password_ids.
  destruct (kept next r); [cbn [map]; by rewrite with_nothing|done].
Qed.
Lemma outcome_ids next r : keeps_id (outcome next r).
Proof. intros i. unfold outcome. by repeat case_match. Qed.
Lemma hands_ids next r : hand_ids (hands next r) = if decide (status (outcome next r (taken next)) = SInstalling) then [id next] else [].
Proof.
  unfold hands, outcome. destruct (made_package r) as [pkg|]; [|by destruct (b_cancelled r)].
  by destruct (kept next r).
Qed.
Lemma hand_ids_app H H' : hand_ids (H ++ H') = hand_ids H ++ hand_ids H'.
Proof. apply fmap_app. Qed.
Lemma elem_of_hand_ids next (pkg : str) H : (next, pkg) ∈ H -> id next ∈ hand_ids H.
Proof. apply (list_elem_of_fmap_2 (fun h => id h.1)). Qed.

(** The item just made, as the rest of the queue sees it. *)
Lemma item_ok_outcome next r H : item_ok (Some next) H (taken next) -> item_ok None (H ++ hands next r) (outcome next r (taken next)).
Proof.
  intros (_ & _ & H3 & _ & _).
  assert (id next ∉ hand_ids H) as Hn by (intros Hx; by apply H3 in Hx).
  split_and!.
  - split; [|done]. unfold outcome. destruct (made_package r); [by destruct (kept next r)|by destruct (b_cancelled r)].
  - done.
  - rewrite hand_ids_app, hands_ids, elem_of_app, outcome_ids. case_decide as Hd; [set_solver|].
    split; [done|]. intros [Hx|Hx%elem_of_nil]; by try destruct Hn.
  - intros next' pkg Hin Hid. rewrite outcome_ids in Hid. simpl in Hid. apply elem_of_app in Hin as [Hin|Hin].
    + destruct Hn. rewrite <-Hid. by eapply elem_of_hand_ids.
    + revert Hin. unfold hands, outcome. destruct (made_package r) as [pkg'|]; [|by intros ?%elem_of_nil].
      destruct (kept next r); [by intros ?%elem_of_nil|]. by intros [= _ ->]%list_elem_of_singleton.
  - unfold outcome. destruct (made_package r); [by simpl|]. destruct (b_cancelled r); simpl; [done|set_solver].
Qed.
Lemma item_ok_after next r H i : item_ok (Some next) H i -> id i <> id next -> item_ok None (H ++ hands next r) i.
Proof.
  intros (H1 & H2 & H3 & H4 & H5) Hne. split_and!; [| done| | |done].
  - rewrite H1. simpl. split; [intros [= ?]; congruence|done].
  - rewrite H3, hand_ids_app, elem_of_app, hands_ids. split; [by left|]. intros [?|Hx]; [done|].
    case_decide; set_solver.
  - intros next' pkg [Hin|Hin]%elem_of_app Hid; [by eapply H4|].
    revert Hin. unfold hands. destruct (made_package r); [|by intros ?%elem_of_nil].
    destruct (kept next r); [by intros ?%elem_of_nil|]. intros [= -> _]%list_elem_of_singleton. congruence.
Qed.
Lemma WF_one_loop old s k ph : WF old s -> loops s !! k = Some ph -> loops s = [ph] /\ remove_at k (loops s) = [] /\ running s = true.
Proof.
  intros [_ Hl _ _] Hk. unfold loop_ok in Hl. destruct (loops s) as [|p [|? ?]]; [done| |done].
  destruct k as [|k]; [|done]. by injection Hk as ->.
Qed.
Lemma mid_built old s k r0 next r : WF old s -> loops s !! k = Some (AtBuild r0 next) ->
  mid old (built next r (s <| loops := remove_at k (loops s) |>)).
Proof.
  intros Hwf Hk. destruct (WF_one_loop _ _ _ _ Hwf Hk) as (El & Er & Hrun). rewrite built_eq, Er.
  set (s0 := s <| loops := [] |>). destruct Hwf as [Hc Hl Hs Hw]. rewrite El in Hc. simpl in Hc.
  pose proof (rest_set_items (edit (id next) (outcome next r) (items s)) s0) as Hrest. unfold rest in Hrest.
  injection Hrest as E1 _ _ E2 _ E3 E4 _ _. unfold patch. change (map _ (items s0)) with (edit (id next) (outcome next r) (items s)).
  assert (taken next ∈ items s) as Hin.
  { destruct (list_elem_of_fmap_1 _ _ _ (core_build _ _ _ _ _ Hc next eq_refl)) as (i & Hid & Hi).
    destruct (proj1 (Forall_forall _ _) (core_items _ _ _ _ _ Hc) i Hi) as (_ & H2 & _). by rewrite <-(H2 next). }
  pose proof (proj1 (Forall_forall _ _) (core_items _ _ _ _ _ Hc) _ Hin) as Hok.
  split; [|done|by simpl; rewrite E1|].
  - simpl. rewrite E2, E4, items_set_items. simpl. destruct (Hc) as [_ Hids Hh Hmade _ _].
    rewrite Forall_app in Hmade. destruct Hmade as [_ Hmade]. eapply core_edit; [done|apply outcome_ids| | | | |done].
    + intros i Hi Hne Hi'. by apply item_ok_after.
    + intros i Hi Hn _. assert (i = taken next) as -> by (eapply same_id_same; [exact Hids|done..]). by apply item_ok_outcome.
    + rewrite hand_ids_app. apply NoDup_app. split; [done|]. rewrite hands_ids. case_decide; [|split; [set_solver|constructor]].
      split; [|apply NoDup_singleton]. intros n Hx ->%list_elem_of_singleton.
      destruct Hok as (_ & _ & H3 & _). by apply H3 in Hx.
    + rewrite hand_ids_app. apply Forall_app_2; [done|]. rewrite hands_ids. case_decide; [|constructor].
      apply Forall_singleton. destruct (Hc) as [_ _ _ Hm _ Hb]. rewrite Forall_app, Forall_forall in Hm. apply Hm. by apply Hb.
  - apply (set_items_stored (edit (id next) (outcome next r) (items s)) s0); [|done].
    rewrite edit_ids by apply outcome_ids. apply Hc.
Qed.

Lemma remove_at_split {A} k (l : list A) x : l !! k = Some x -> exists l1 l2, l = l1 ++ x :: l2 /\ remove_at k l = l1 ++ l2.
Proof. intros Hk. exists (take k l), (drop (S k) l). split; [by rewrite take_drop_middle|done]. Qed.
Definition hand_end (r : HandResult + str) (i : ConvertItem) : ConvertItem :=
  match r with
  | inl h => if h_ok h then i <| status := SDone |> else i <| status := SFailed |> <| error := Some (h_message h ?? not_installed) |>
  | inr e => i <| status := SFailed |> <| error := Some e |>
  end.
Lemma handed_off_eq next r s : handed_off next r s = patch (id next) (hand_end r) s.
Proof. unfold handed_off, hand_end. destruct r as [h|e]; [|done]. by destruct (h_ok h). Qed.
Lemma hand_end_ids r : keeps_id (hand_end r).
Proof. intros i. unfold hand_end. by repeat case_match. Qed.
Lemma WF_hand old s k next pkg r : WF old s -> handOffs s !! k = Some (next, pkg) ->
  WF old (handed_off next r (s <| handOffs := remove_at k (handOffs s) |>)).
Proof.
  intros [Hc Hl Hs Hw] Hk. rewrite handed_off_eq. destruct (remove_at_split _ _ _ Hk) as (H1 & H2 & E & ->).
  eapply WF_set; [|exact Hl|done..|exact Hs]. simpl. destruct (Hc) as [Hq Hids Hh Hm Hi Hb].
  rewrite E, hand_ids_app in Hh, Hm. rewrite E in Hi.
  change (hand_ids ((next, pkg) :: H2)) with (id next :: hand_ids H2) in Hh, Hm. apply NoDup_app in Hh as (Hh1 & Hh2 & [Hh3 Hh4]%NoDup_cons).
  assert (id next ∉ hand_ids (H1 ++ H2)) as Hn.
  { rewrite hand_ids_app. intros [Hx|Hx]%elem_of_app; [|done]. apply (Hh2 _ Hx). left. }
  eapply core_edit; [exact Hc|apply hand_end_ids| | | | |exact Hb]; rewrite ?E.
  - intros i _ Hne (P1 & P2 & P3 & P4 & P5). split_and!; [done|done| | |done].
    + rewrite P3, !hand_ids_app, !elem_of_app. change (hand_ids ((next, pkg) :: H2)) with (id next :: hand_ids H2).
      rewrite elem_of_cons. naive_solver.
    + intros next' pkg' Hin. apply P4. rewrite elem_of_app in *. rewrite elem_of_cons. naive_solver.
  - intros i Hil Hid (P1 & P2 & P3 & P4 & P5).
    assert (status i = SInstalling) as Hst.
    { apply P3. rewrite hand_ids_app, elem_of_app, Hid. right. left. }
    assert (id <$> building (loops s) <> Some (id i)) as Hnb by (intros Hx; apply P1 in Hx; congruence).
    assert (password (game i) = None) as Hp.
    { destruct (password (game i)) eqn:Ep; [|done]. specialize (P5 ltac:(done)). rewrite Hst in P5. set_solver. }
    split_and!; rewrite ?hand_end_ids, ?Hid.
    + split; [|by rewrite <-Hid]. unfold hand_end. destruct r as [h|]; [destruct (h_ok h)|]; done.
    + intros nb Enb Hx. destruct Hnb. rewrite Enb. simpl. by rewrite Hx, <-Hid.
    + split; [|done]. unfold hand_end. destruct r as [h|]; [destruct (h_ok h)|]; done.
    + intros next' pkg' Hin Hx. destruct Hn. rewrite <-Hx. by eapply elem_of_hand_ids.
    + unfold hand_end. destruct r as [h|]; [destruct (h_ok h)|]; simpl; by rewrite Hp.
  - rewrite hand_ids_app. apply NoDup_app. split; [done|]. split; [|done]. intros n Hx Hy. apply (Hh2 _ Hx). by right.
  - rewrite !Forall_app, Forall_cons in Hm. rewrite hand_ids_app. apply Forall_app_2; apply Hm.
Qed.
Lemma WF_retry old n p s : WF old s -> WF old (retryWithPassword n p s).
Proof.
  intros Hwf. unfold retryWithPassword. destruct (find_id n s) as [i|] eqn:E; [|done]. case_match eqn:Ef; [|done].
  apply find_id_spec in E as [Hi Hn]. apply is_status_true in Ef. apply WF_start, WF_patch_same; [done|done|].
  intros j Hj Hjn (P1 & P2 & P3 & P4 & P5). assert (j = i) as -> by (eapply same_id_same; [by destruct Hwf as [[]]|done..|congruence]).
  rewrite Ef in P1, P3. split_and!; simpl; [ | |split; [done|by intros ?%P3]|done|set_solver].
  - split; [done|by intros ?%P1].
  - intros next Hb Hx. rewrite Hb in P1. simpl in P1. rewrite Hx in P1. by apply proj2 in P1; specialize (P1 eq_refl).
Qed.
Lemma WF_step old s e s' : WF old s -> e <> Restart -> step old s e s' -> WF old s'.
Proof.
  intros Hwf He [Hx Ht]. destruct e; simpl in Hx; try (injection Hx as <-).
  - by apply WF_add. - by apply WF_update. - by apply WF_remove. - by apply WF_move. - by apply WF_retry.
  - by apply WF_start. - by apply WF_stop. - by apply WF_stop. - by apply WF_clear.
  - unfold startAfterBuild. repeat case_match; [done..|]. eapply WF_beside; [exact Hwf|try done..]. apply Hwf.
  - unfold pipelinePhaseChanged. repeat case_match; [done| |by apply WF_start|done].
    eapply WF_beside; [exact Hwf|try done..]. apply Hwf.
  - eapply WF_beside; [exact Hwf|try done..]. apply Hwf.
  - destruct (loops s !! k) as [[r0|]|] eqn:Ek; [|done..]. injection Hx as <-.
    destruct (WF_one_loop _ _ _ _ Hwf Ek) as (El & -> & Hr). destruct Hwf as [Hc Hl Hs Hw]. rewrite El in Hc.
    assert (mid old (s <| loops := [] |>)) by done.
    destruct ok; [by apply mid_take|by apply mid_finish].
  - destruct (loops s !! k) as [[|r0 next]|] eqn:Ek; [done| |done]. injection Hx as <-. apply mid_round. by eapply mid_built.
  - destruct (handOffs s !! k) as [[next pkg]|] eqn:Ek; [|done]. injection Hx as <-. by eapply WF_hand.
  - done.
Qed.
Lemma run_WF old s : run old s -> WF old s.
Proof.
  induction 1 as [l w Hd Hp|old s e s' _ IH He Hs|old s _ [_ _ [Hd Hp] _]]; [by apply WF_load|by eapply WF_step|by apply WF_load].
Qed.

(** * The properties *)

(** C21: The queue's state is well formed in every reachable state, whatever is added, edited, stopped,
    answered or restarted and in whatever order: ids are unique; at most one loop runs, exactly while
    [running] says so; the one item that says Converting is the one the loop is making, as the loop took
    it; an item says Installing exactly while its package's hand-off is unanswered, never two for one
    item, and shows that package; and a password is held only by an item that still needs it. *)
Theorem queue_well_formed old s : run old s ->
  NoDup (id <$> items s) /\ (length (loops s) <= 1)%nat /\ (running s = true <-> loops s <> []) /\
  (forall i, i ∈ items s -> status i = SRunning <-> exists next, building (loops s) = Some next /\ i = taken next) /\
  (forall next, building (loops s) = Some next -> taken next ∈ items s) /\
  NoDup (hand_ids (handOffs s)) /\
  (forall i, i ∈ items s -> status i = SInstalling <-> exists next pkg, (next, pkg) ∈ handOffs s /\ id next = id i /\ packagePath i = Some pkg) /\
  (forall i, i ∈ items s -> password (game i) <> None -> status i ∈ [SPending; SRunning; SFailed]).
Proof.
  intros Hr. destruct (run_WF _ _ Hr) as [[_ Hids Hh _ Hi Hb] Hl _ _]. rewrite Forall_forall in Hi.
  split_and!; [done| | | | |done| |].
  - unfold loop_ok in Hl. destruct (loops s) as [|ph [|]]; simpl; [lia..|done].
  - unfold loop_ok in Hl. destruct (loops s) as [|ph [|]]; [by rewrite Hl|by rewrite Hl|done].
  - intros i Hin. destruct (Hi i Hin) as (H1 & H2 & _). rewrite H1. split.
    + intros (next & Hn & E)%fmap_Some. exists next. split; [done|]. by apply H2.
    + intros (next & -> & ->). done.
  - intros next E. destruct (list_elem_of_fmap_1 _ _ _ (Hb next E)) as (i & Hn & Hin).
    destruct (Hi i Hin) as (_ & H2 & _). by rewrite <-(H2 next).
  - intros i Hin. destruct (Hi i Hin) as (_ & _ & H3 & H4 & _). rewrite H3. split.
    + intros ([next pkg] & Hid & Hp)%list_elem_of_fmap. exists next, pkg. split_and!; [done..|by eapply H4].
    + intros (next & pkg & Hp & <- & _). by eapply elem_of_hand_ids.
  - intros i Hin. by destruct (Hi i Hin) as (_ & _ & _ & _ & H5).
Qed.

(** ** Start makes every waiting game *)

(** The next answer the loop waits for: this computer is free, or the build ends. *)
Definition answer (ans : ConvertItem -> BuildResult + str) (s : Store) : option Store :=
  match loops s with
  | [AtReady _] => exec (ReadyAnswers 0 true) s
  | [AtBuild _ next] => exec (BuildAnswers 0 (ans next)) s
  | _ => None
  end.
Fixpoint answers (n : nat) (ans : ConvertItem -> BuildResult + str) (s : Store) : option Store :=
  match n with O => Some s | S n => answer ans s ≫= answers n ans end.
Definition made_by (ans : ConvertItem -> BuildResult + str) (i : ConvertItem) : ConvertItem :=
  if is_status SPending i then outcome i (thrown (ans i)) (taken i) else i.
Definition waiting (l : list ConvertItem) : list ConvertItem := List.filter (is_status SPending) l.
Definition builds (l : list Call) : list ConvertItem := omap (fun c => match c with CBuild i => Some i | _ => None end) l.

Lemma answers_app n m ans s s1 : answers n ans s = Some s1 -> answers (n + m) ans s = answers m ans s1.
Proof.
  revert s. induction n as [|n IH]; intros s; simpl; [by intros [= ->]|].
  destruct (answer ans s) as [s2|]; [|done]. simpl. apply IH.
Qed.
Lemma outcome_not_pending next r i : status (outcome next r i) <> SPending.
Proof. unfold outcome. destruct (made_package r); [by destruct (kept next r)|by destruct (b_cancelled r)]. Qed.
Lemma builds_app l l' : builds (l ++ l') = builds l ++ builds l'.
Proof. apply omap_app. Qed.
Lemma builds_hands h : builds (map hand_call h) = [].
Proof. induction h; [done|]. simpl. done. Qed.

Definition idle_loop (s : Store) : Prop := loops s = [] /\ stopRequested s = false /\ running s = true.
Lemma loops_gone s : loops s = [] -> s <| loops := [] |> = s.
Proof. destruct s. simpl. by intros ->. Qed.
(** A round waits for this computer at most once before it takes a game. *)
Lemma round_takes ans r0 s : idle_loop s -> exists n, (n <= 1)%nat /\ answers n ans (next_round r0 s) = Some (take_next r0 s).
Proof.
  intros (El & Es & Er). unfold next_round. rewrite Es. destruct (r_ready r0); [|by exists 0%nat; split; [lia|]].
  exists 1%nat. split; [done|]. simpl. unfold answer. simpl. rewrite El. simpl. unfold set; simpl.
  unfold remove_at. simpl. f_equal. f_equal. destruct s. simpl in *. by subst.
Qed.
Lemma find_waiting l1 i l2 : Forall (fun j => status j <> SPending) l1 -> status i = SPending ->
  find (is_status SPending) (l1 ++ i :: l2) = Some i.
Proof.
  induction 1 as [|j l1 Hj _ IH]; simpl; intros Hi; unfold is_status at 1; [by rewrite bool_decide_true|].
  rewrite bool_decide_false by done. by apply IH.
Qed.
(** The store once game [i] was made. *)
Definition after_build (r : BuildResult) (i : ConvertItem) (s : Store) : Store :=
  built i r ((patch (id i) taken s) <| calls := calls s ++ [CBuild i] |>).
Lemma take_builds ans r0 l1 i l2 s : idle_loop s -> items s = l1 ++ i :: l2 ->
  Forall (fun j => status j <> SPending) l1 -> status i = SPending ->
  answer ans (take_next r0 s) = Some (next_round r0 (after_build (thrown (ans i)) i s)).
Proof.
  intros (El & Es & Er) Ei Hl1 Hi. unfold take_next. rewrite Es, Ei, find_waiting by done.
  pose proof (rest_set_items (edit (id i) taken (items s)) s) as Hrest. unfold rest in Hrest.
  injection Hrest as _ _ _ _ _ E3 _ E5 _. unfold answer. simpl. fold taken.
  unfold after_build, patch. change (map _ (items s)) with (edit (id i) taken (items s)). set (s1 := set_items _ s) in *.
  rewrite E3, El, E5. simpl. do 3 f_equal. unfold set; simpl. by rewrite E3, El.
Qed.
Lemma after_build_spec r l1 i l2 s : idle_loop s -> NoDup (id <$> l1 ++ i :: l2) -> items s = l1 ++ i :: l2 ->
  let s' := after_build r i s in
  idle_loop s' /\ items s' = l1 ++ outcome i r (taken i) :: l2 /\
  builds (calls s') = builds (calls s) ++ [i] /\ handOffs s' = handOffs s ++ hands i r.
Proof.
  intros (El & Es & Er) Hd Ei. unfold after_build. rewrite built_eq. cbv zeta.
  set (s0 := (patch (id i) taken s) <| calls := calls s ++ [CBuild i] |>).
  assert (rest s0 = (running s, armed s, runner s, seq s, stopRequested s, loops s, handOffs s, calls s ++ [CBuild i], writable s)) as H0.
  { pose proof (rest_set_items (edit (id i) taken (items s)) s) as H. unfold rest in *. simpl.
    unfold patch. change (map _ (items s)) with (edit (id i) taken (items s)). by injection H as -> -> -> -> -> -> -> _ ->. }
  assert (items s0 = edit (id i) taken (items s)) as Ei0 by apply items_of_patch.
  pose proof (rest_set_items (edit (id i) (outcome i r) (items s0)) s0) as H1. rewrite H0 in H1. unfold rest in H1.
  set (s1 := patch (id i) (outcome i r) s0). change (set_items _ s0) with s1 in H1. injection H1 as E1 _ _ _ E2 E3 E4 E5 _.
  split_and!; simpl; [split_and!; simpl; congruence| | |by rewrite E4].
  - unfold s1. rewrite items_of_patch, Ei0, edit_edit, Ei by done. rewrite edit_split by done. done.
  - rewrite E5, builds_app, builds_hands, builds_app, app_nil_r. done.
Qed.
Definition all_hands (ans : ConvertItem -> BuildResult + str) (l : list ConvertItem) : list (ConvertItem * str) :=
  waiting l ≫= fun i => hands i (thrown (ans i)).
Lemma is_pending i : is_status SPending i = bool_decide (status i = SPending).
Proof. done. Qed.
Lemma waiting_one ans i l : status i = SPending ->
  waiting (i :: l) = i :: waiting l /\ made_by ans i = outcome i (thrown (ans i)) (taken i) /\
  all_hands ans (i :: l) = hands i (thrown (ans i)) ++ all_hands ans l.
Proof. intros Hi. unfold all_hands, waiting, made_by. simpl. by rewrite is_pending, bool_decide_true. Qed.
Lemma waiting_none ans i l : status i <> SPending ->
  waiting (i :: l) = waiting l /\ made_by ans i = i /\ all_hands ans (i :: l) = all_hands ans l.
Proof. intros Hi. unfold all_hands, waiting, made_by. simpl. by rewrite is_pending, bool_decide_false. Qed.
(** The loop's rounds from a list whose first part has nothing waiting. *)
Lemma rounds_make ans r0 l2 : forall l1 s, idle_loop s -> NoDup (id <$> l1 ++ l2) -> items s = l1 ++ l2 ->
  Forall (fun j => status j <> SPending) l1 ->
  exists n s', (n <= 2 * length (waiting l2) + 1)%nat /\ answers n ans (next_round r0 s) = Some s' /\
    loops s' = [] /\ running s' = false /\ items s' = l1 ++ map (made_by ans) l2 /\
    builds (calls s') = builds (calls s) ++ waiting l2 /\ handOffs s' = handOffs s ++ all_hands ans l2.
Proof.
  induction l2 as [|i l2 IH]; intros l1 s Hs Hd Ei Hl1; destruct (round_takes ans r0 s Hs) as (n & Hn & Ha).
  - exists n, (finish s). split; [simpl; lia|]. split.
    + rewrite Ha. unfold take_next. destruct Hs as (_ & -> & _). rewrite Ei, app_nil_r.
      destruct (find (is_status SPending) l1) as [j|] eqn:E; [|done]. apply find_some in E as [Hj%list_elem_of_In Hp%is_status_true].
      by rewrite Forall_forall in Hl1; destruct (Hl1 j Hj).
    + destruct Hs as (El & _). simpl. rewrite Ei. unfold all_hands. simpl. by rewrite !app_nil_r.
  - destruct (decide (status i = SPending)) as [Hi|Hi].
    + pose proof (after_build_spec (thrown (ans i)) l1 i l2 s Hs Hd Ei) as (Hs' & Ei' & Eb & Eh).
      destruct (IH (l1 ++ [outcome i (thrown (ans i)) (taken i)]) (after_build (thrown (ans i)) i s)) as (m & s' & Hm & Ha' & El & Er & Ei2 & Eb2 & Eh2).
      * done.
      * rewrite <-app_assoc. rewrite !fmap_app, !fmap_cons in *. simpl. by rewrite outcome_ids.
      * by rewrite <-app_assoc.
      * apply Forall_app_2; [done|]. apply Forall_singleton, outcome_not_pending.
      * destruct (waiting_one ans i l2 Hi) as (Ew & Em & Eall). exists (n + (1 + m))%nat, s'. rewrite Ew, Eall, map_cons, Em.
        split; [simpl; lia|]. split.
        { rewrite (answers_app _ _ _ _ _ Ha). simpl. by rewrite (take_builds ans r0 l1 i l2). }
        split_and!; [done|done|by rewrite Ei2, <-app_assoc|by rewrite Eb2, Eb, <-app_assoc|by rewrite Eh2, Eh, <-app_assoc].
    + destruct (IH (l1 ++ [i]) s) as (m & s' & Hm & Ha' & El & Er & Ei2 & Eb2 & Eh2);
        [done|by rewrite <-app_assoc|by rewrite <-app_assoc|by apply Forall_app_2; [|apply Forall_singleton]|].
      destruct (waiting_none ans i l2 Hi) as (Ew & Em & Eall). exists m, s'. rewrite Ew, Eall, map_cons, Em.
      split_and!; try done. by rewrite Ei2, <-app_assoc.
Qed.

(** C20: Start on a queue at rest makes every waiting game: however the builds end, after at most two
    answers per waiting game and one more the loop is over, the games were built one after another in
    the list's order, each item tells how its own build ended, the others are as they were, and exactly
    the packages that are to be installed were handed to the console's queue, in order. *)
Theorem start_makes_all_waiting old s r0 ans : run old s -> running s = false -> runner s = Some r0 ->
  exists n s', (n <= 2 * length (waiting (items s)) + 1)%nat /\ answers n ans (start s) = Some s' /\
    loops s' = [] /\ running s' = false /\ waiting (items s') = [] /\
    items s' = map (made_by ans) (items s) /\
    builds (calls s') = builds (calls s) ++ waiting (items s) /\
    handOffs s' = handOffs s ++ all_hands ans (items s).
Proof.
  intros Hr Hrun Hrunner. destruct (run_WF _ _ Hr) as [[_ Hids _ _ _ _] Hl _ _]. unfold loop_ok in Hl.
  assert (loops s = []) as El by (destruct (loops s) as [|? [|]]; [done|congruence|done]).
  unfold start. cbv zeta. change (runner (s <| armed := false |>)) with (runner s). rewrite Hrunner.
  change (running (s <| armed := false |>)) with (running s). rewrite Hrun. simpl.
  set (s1 := {| items := items s |}).
  destruct (rounds_make ans r0 (items s) [] s1) as (n & s' & Hn & Ha & H1 & H2 & H3 & H4 & H5); [done..|].
  exists n, s'. split_and!; [done..| |done|done|done]. rewrite H3. unfold waiting. simpl.
  clear. induction (items s) as [|i l IH]; [done|]. simpl. rewrite is_pending, bool_decide_false; [done|].
  unfold made_by. case_match eqn:E; [apply outcome_not_pending|]. intros Hp%is_status_true. congruence.
Qed.

(** ** Stop *)

Definition starts (e : Event) : bool := match e with Start | Retry _ _ | PhaseChanged _ => true | _ => false end.
(** Events after a Stop: nothing starts the queue once its loop is over, and the app runs on. *)
Fixpoint held (es : list Event) (s s' : Store) : Prop :=
  match es with
  | [] => s' = s
  | e :: es => e <> Restart /\ (starts e = true -> running s = true) /\ exists s1, exec e s = Some s1 /\ held es s1 s'
  end.
Definition stopping (s0 s : Store) : Prop := stopRequested s = true /\ builds (calls s) = builds (calls s0).
Lemma set_items_stopping s0 l s : stopping s0 s -> stopping s0 (set_items l s).
Proof. pose proof (rest_set_items l s) as H. unfold rest in H. injection H as _ _ _ _ E1 _ _ E2 _. unfold stopping. by rewrite E1, E2. Qed.
Lemma set_items_running l s : running (set_items l s) = running s.
Proof. pose proof (rest_set_items l s) as H. unfold rest in H. by injection H. Qed.
Lemma start_stopping s0 s : stopping s0 s -> running s = true -> stopping s0 (start s).
Proof. intros Hs Hr. unfold start. cbv zeta. destruct (runner _); [|done]. change (running (s <| armed := false |>)) with (running s). by rewrite Hr. Qed.
Lemma round_stopping s0 r0 s : stopping s0 s -> stopping s0 (next_round r0 s) /\ running (next_round r0 s) = false.
Proof. intros Hs. unfold next_round. destruct Hs as [Hs Hb]. rewrite Hs. by split. Qed.
Lemma take_stopping s0 r0 s : stopping s0 s -> stopping s0 (take_next r0 s) /\ running (take_next r0 s) = false.
Proof. intros Hs. unfold take_next. destruct Hs as [Hs Hb]. rewrite Hs. by split. Qed.
Lemma built_stopping s0 next r s : stopping s0 s -> stopping s0 (built next r s).
Proof.
  intros Hs. rewrite built_eq. cbv zeta.
  pose proof (set_items_stopping s0 (edit (id next) (outcome next r) (items s)) s Hs) as [H1 H2].
  change (set_items _ s) with (patch (id next) (outcome next r) s) in H1, H2.
  split; simpl; [done|]. by rewrite builds_app, builds_hands, app_nil_r.
Qed.
Lemma exec_stopping s0 e s s' : stopping s0 s -> e <> Restart -> (starts e = true -> running s = true) ->
  exec e s = Some s' -> stopping s0 s' /\
  (match e with BuildAnswers _ _ | ReadyAnswers _ _ => running s' = false | _ => True end).
Proof.
  intros Hs He Hst Hx. destruct e; simpl in Hx; try (injection Hx as <-); (split; [|done]) || idtac.
  - unfold add. case_match; [done|]. by apply set_items_stopping.
  - unfold update. repeat case_match; try done. by apply set_items_stopping.
  - unfold remove. case_match; [done|]. by apply set_items_stopping.
  - unfold move. repeat case_match; try done; by apply set_items_stopping.
  - unfold retryWithPassword. repeat case_match; try done. apply start_stopping; [by apply set_items_stopping|].
    unfold patch. rewrite set_items_running. by apply Hst.
  - apply start_stopping; [done|by apply Hst].
  - by destruct Hs.
  - by destruct Hs.
  - by apply set_items_stopping.
  - unfold startAfterBuild. by repeat case_match.
  - unfold pipelinePhaseChanged. repeat case_match; try done. apply start_stopping; [done|by apply Hst].
  - done.
  - destruct (loops s !! k) as [[r0|]|]; [|done..]. injection Hx as <-. destruct ok; [by apply take_stopping|done].
  - destruct (loops s !! k) as [[|r0 next]|]; [done| |done]. injection Hx as <-. apply round_stopping. by apply built_stopping.
  - destruct (handOffs s !! k) as [[next pkg]|]; [|done]. injection Hx as <-. rewrite handed_off_eq. by apply set_items_stopping.
  - done.
Qed.
(** After Stop no further build begins, whatever is added, changed, retried or answered and even if
    Start is pressed while the running build goes on; and the running build's end (or this computer
    becoming free) ends the loop. *)
Theorem stop_holds_the_rest es s s' : held es (stop s) s' ->
  builds (calls s') = builds (calls s) /\
  forall e s'', exec e s' = Some s'' -> (match e with BuildAnswers _ _ | ReadyAnswers _ _ => True | _ => False end) ->
    running s'' = false /\ builds (calls s'') = builds (calls s).
Proof.
  intros H. assert (stopping s s') as Hs.
  { assert (stopping s (stop s)) as H0 by done. revert H H0. generalize (stop s).
    induction es as [|e es IH]; intros s1; simpl; [by intros ->|]. intros (He & Hst & s2 & Hx & Hh) H1.
    apply (IH _ Hh). by eapply exec_stopping. }
  split; [apply Hs|]. intros e s'' Hx He. destruct (exec_stopping s e s' s'' Hs) as [[_ H1] H2]; [by destruct e|by destruct e|done|].
  by destruct e.
Qed.

(** A restart at any moment of any run brings the queue back as it was: the same games in the same
    order and with the same choices; the one that was converting waits again, one that was installing is
    the console queue's, and only the passwords are gone. *)
Theorem restart_resumes old s : run old s -> writable s = true ->
  exists s', exec Restart s = Some s' /\ loops s' = [] /\ running s' = false /\ items s' = (fun i =>
    (set_password None i) <| status := match status i with SRunning => SPending | SInstalling => SHanded | t => t end |>) <$> items s.
Proof.
  intros Hr Hw. exists (load (stored s) (writable s)). split_and!; [done..|].
  destruct (run_WF _ _ Hr) as [_ _ _ Hsaved]. simpl. rewrite (Hsaved Hw). apply list_fmap_ext. intros k i _.
  unfold restored, hydrate_item. by destruct i as [g n [] p e].
Qed.

(** * A run *)

Fixpoint execs (es : list Event) (s : Store) : option Store := match es with [] => Some s | e :: es => exec e s ≫= execs es end.
Definition can (old : list str) (e : Event) : Prop := e <> Restart /\ match e with Add t _ => ticks old t | _ => True end.
Lemma run_execs old es s s' : run old s -> Forall (can old) es -> execs es s = Some s' -> run old s'.
Proof.
  intros Hr He. revert s Hr. induction He as [|e es [He Ht] _ IH]; intros s Hr; simpl; [by intros [= <-]|].
  destruct (exec e s) as [s1|] eqn:E; [|done]. simpl. apply IH. by eapply run_step.
Qed.
Definition game_at (src : str) (t : ConvertThen) : NewConvertItem := {|
  source := src; isDir := None; password := Some (js "pw"); outputDir := None; keepBoth := None; compression := Balanced;
  build_ := None; imageDest := None; firmware := None; language := None; then_ := t; host := Some (js "10.0.0.2");
  deleteAfterInstall := None; fullVerify := None; imageLevel := None |}.
Definition now36 : str := js "mfk2x9ab".
Definition demo_events : list Event :=
  [SetRunner {| r_ready := true |}; Add now36 (game_at (js "/g/A") Stream); Add now36 (game_at (js "/g/B") Keep);
   Add now36 (game_at (js "/g/C") Keep); Add now36 (game_at (js "/g/A") Keep); Move (new_id now36 3) false].
Definition fresh : Store := load [] true.
Definition demo : Store := default fresh (execs demo_events fresh).
Definition good (p : str) : BuildResult := {| b_ok := true; b_packagePath := Some p; b_message := None; b_installed := false; b_cancelled := false |}.
(** [A] is made, [B] throws, [C]'s build is cancelled. *)
Definition demo_answers (i : ConvertItem) : BuildResult + str :=
  if bool_decide (source (game i) = js "/g/A") then inl (good (js "/out/A.pkg"))
  else if bool_decide (source (game i) = js "/g/B") then inr (js "disk full")
  else inl {| b_ok := false; b_packagePath := None; b_message := None; b_installed := false; b_cancelled := true |}.
Definition demo_building : Store := default fresh (execs [Start; ReadyAnswers 0 true; Stop] demo).
Lemma demo_ticks : ticks [] now36.
Proof. split; [done|]. by intros n ?%elem_of_nil. Qed.
Lemma demo_run : run [] demo.
Proof.
  apply (run_execs [] demo_events fresh); [apply (run_load []); constructor| |vm_compute; reflexivity].
  repeat constructor; try done; by intros n ?%elem_of_nil.
Qed.
Lemma demo_building_run : run [] demo_building.
Proof.
  apply (run_execs [] [Start; ReadyAnswers 0 true; Stop] demo); [apply demo_run| |vm_compute; reflexivity].
  by repeat constructor.
Qed.

Lemma queue_well_formed_witness : run [] demo_building /\ length (items demo_building) = 3%nat /\ (length (loops demo_building) <= 1)%nat.
Proof.
  split; [apply demo_building_run|]. split; [vm_compute; reflexivity|].
  destruct (queue_well_formed [] demo_building demo_building_run) as (_ & H & _). exact H.
Defined.
Lemma start_makes_all_waiting_witness : length (waiting (items demo)) = 3%nat /\
  exists n s', answers n demo_answers (start demo) = Some s' /\ waiting (items s') = [].
Proof.
  split; [vm_compute; reflexivity|].
  destruct (start_makes_all_waiting [] demo {| r_ready := true |} demo_answers demo_run) as (n & s' & H1 & H2 & H3 & H4 & H5 & H6);
    [vm_compute; reflexivity|vm_compute; reflexivity|]. exists n, s'. exact (conj H2 H5).
Defined.
(** The order of the list, after the move; only [A]'s package is installed. *)
Example demo_made : option_map (fun s => (map (fun i => (source (game i), status i)) (items s), map snd (handOffs s)))
    (answers 7 demo_answers (start demo)) =
  Some ([(js "/g/A", SInstalling); (js "/g/C", SCancelled); (js "/g/B", SFailed)], [js "/out/A.pkg"]).
Proof. vm_compute. reflexivity. Qed.
Definition after_stop : list Event := [Start; Add now36 (game_at (js "/g/D") Keep); Remove (new_id now36 1); BuildAnswers 0 (inr (js "no"))].
Definition demo_stopped : Store := default fresh (execs after_stop (stop demo_building)).
Lemma stop_holds_the_rest_witness : running demo_building = true /\ running demo_stopped = false /\
  builds (calls demo_stopped) = builds (calls demo_building) /\ length (waiting (items demo_stopped)) = 3%nat.
Proof.
  split; [vm_compute; reflexivity|]. split; [vm_compute; reflexivity|]. split; [|vm_compute; reflexivity].
  apply (stop_holds_the_rest after_stop demo_building demo_stopped).
  unfold after_stop. cbn [held].
  split; [discriminate|]. split; [intros _; vm_compute; reflexivity|]. eexists. split; [reflexivity|].
  split; [discriminate|]. split; [discriminate|]. eexists. split; [reflexivity|].
  split; [discriminate|]. split; [discriminate|]. eexists. split; [reflexivity|].
  split; [discriminate|]. split; [discriminate|]. eexists. split; [vm_compute; reflexivity|]. vm_compute. reflexivity.
Defined.
Lemma restart_resumes_witness : writable demo_building = true /\ exists s', exec Restart demo_building = Some s' /\
  map status (items demo_building) = [SRunning; SPending; SPending] /\ map status (items s') = [SPending; SPending; SPending].
Proof.
  split; [vm_compute; reflexivity|].
  destruct (restart_resumes [] demo_building demo_building_run eq_refl) as (s' & H1 & _ & _ & H4). exists s'.
  split; [exact H1|]. split; [vm_compute; reflexivity|]. rewrite H4. vm_compute. reflexivity.
Defined.
