(* ===== verification/QueueLeader.v ===== *)
(** [lib/queueLeader.ts], with the election of [state/uploadQueue.ts] it serves: one tab of a browser
    profile runs the upload queue, elected by a lease in localStorage.

    One tab's [claim] is three synchronous pieces with other tabs' in between: it reads the lease
    ([claim_read]), writes its own ([claim_write]) and, after the settle sleep, reads it back
    ([claim_settle]). [apply] interleaves the pieces of any number of tabs under one clock;
    [Timely] says when time may pass: a tab writes within the settle time of its read, and a tab
    whose own lease stands renews (or settles) it before it expires. Reads are exact in the browser;
    the timing is what its timers give a tab that is not held up. *)
From S2P Require Import Prelude Json.

Definition LEASE_TTL_MS : Z := 6000.
Definition HEARTBEAT_MS : Z := 2000.
Definition CLAIM_SETTLE_MS : Z := 150.

Record Lease := { lease_id : str; ts : Z }.

(** The stored text, parsed ([None]: no entry, or one that does not parse). *)
Definition parseLease (raw : option json) : option Lease :=
  v ← raw;
  match as_str (get "id" v), as_num (get "ts" v) with
  | Some i, Some n => Some {| lease_id := i; ts := n |}
  | _, _ => None
  end.
Definition lease_json (l : Lease) : json := JObj [(js "id", JStr (lease_id l)); (js "ts", JNum (ts l))].

Lemma parseLease_json l : parseLease (Some (lease_json l)) = Some l.
Proof. by destruct l. Qed.

(** What the tab has for a storage: none at all, or one whose reads and writes may throw. *)
Inductive Access := NoStorage | Storage (reads writes : bool).

Definition read (acc : Access) (cell : option json) : option Lease :=
  match acc with Storage true _ => parseLease cell | _ => None end.
(** Whether the write did not throw, and the entry afterwards. *)
Definition write (acc : Access) (id : str) (now : Z) (cell : option json) : bool * option json :=
  match acc with
  | NoStorage => (true, cell)
  | Storage _ false => (false, cell)
  | Storage _ true => (true, Some (lease_json {| lease_id := id; ts := now |}))
  end.

(** Where a tab's [claimOnce] stands: about to write (having read at [since]), or asleep until it
    reads back what it wrote at [since]. *)
Inductive Claim := Writing (renew : bool) (since : Z) | Settling (since : Z).

(** A tab: its [leader] flag, the claim under way, the queue store's [isLeader] (which [onChange]
    and the awaited claim of [ensureLeaderElection] set), whether that claim is still awaited, and
    whether the page is hidden in the back/forward cache. *)
Record Tab := {
  leader : bool;
  claiming : option Claim;
  isLeader : bool;
  awaited : bool;
  hidden : bool
}.
#[export] Instance settable_tab : Settable Tab := fun t => {|
  leader := leader t; claiming := claiming t; isLeader := isLeader t; awaited := awaited t; hidden := hidden t |}.

(** A tab that has just loaded: the store starts with [isLeader: true], and hydration awaits the
    first claim. *)
Definition new_tab : Tab :=
  {| leader := false; claiming := None; isLeader := true; awaited := true; hidden := false |}.

(** [set(v)]: [onChange] hears of a transition only. *)
Definition set_leader (v : bool) (t : Tab) : Tab :=
  if Bool.eqb (leader t) v then t else t <| leader := v |> <| isLeader := v |>.
(** The claim's promise resolves: [set({ isLeader: lead })] in the one that awaits it. *)
Definition resolve (t : Tab) : Tab :=
  let t := t <| claiming := None |> in
  if awaited t then t <| isLeader := leader t |> <| awaited := false |> else t.

(** [claimOnce] up to its decision. *)
Definition claim_read (acc : Access) (id : str) (now : Z) (cell : option json) (t : Tab) : Tab :=
  match acc with
  | NoStorage => resolve (set_leader true t)
  | _ =>
      let cur := read acc cell in
      let theirs := match cur with
                    | Some l => negb (bool_decide (lease_id l = id)) && (now - ts l <? LEASE_TTL_MS)
                    | None => false
                    end in
      let ours := match cur with Some l => bool_decide (lease_id l = id) | None => false end in
      if theirs then resolve (set_leader false t)
      else t <| claiming := Some (Writing (ours && leader t) now) |>
  end.
(** Its write: a renewal is done, a new claim settles first; a write that throws leaves nothing to
    coordinate with. *)
Definition claim_write (acc : Access) (id : str) (now : Z) (renew : bool) (cell : option json) (t : Tab)
  : Tab * option json :=
  match write acc id now cell with
  | (false, cell') => (resolve (set_leader true t), cell')
  | (true, cell') => (if renew then resolve t else t <| claiming := Some (Settling now) |>, cell')
  end.
Definition holds (id : str) (l : option Lease) : bool :=
  match l with Some l => bool_decide (lease_id l = id) | None => false end.
Definition claim_settle (acc : Access) (id : str) (cell : option json) (t : Tab) : Tab :=
  resolve (set_leader (holds id (read acc cell)) t).

(** [relinquish]: the page is going away; [onChange] does not hear of it. *)
Definition relinquish (acc : Access) (id : str) (cell : option json) (t : Tab) : Tab * option json :=
  (t <| leader := false |>, if holds id (read acc cell) then None else cell).

(** * The tabs of a profile *)

(** Shared storage that works: what the election is for. *)
Definition ok : Access := Storage true true.

Record World := { clock : Z; cell : option json; tabs : gmap str Tab }.

Inductive Event :=
| Open (id : str)        (* a tab with a fresh id loads *)
| ClaimRead (id : str)   (* its heartbeat, a storage event, or hydration *)
| ClaimWrite (id : str)
| ClaimSettle (id : str)
| PageHide (id : str)    (* [pagehide]: relinquish, then the page is frozen *)
| Restore (id : str)     (* the page comes back from the cache *)
| Crash (id : str)       (* gone without [pagehide] *)
| Tick (d : Z).

Definition put (id : str) (t : Tab) (w : World) : World :=
  {| clock := clock w; cell := cell w; tabs := <[id := t]> (tabs w) |}.
Definition put_both (id : str) (r : Tab * option json) (w : World) : World :=
  {| clock := clock w; cell := r.2; tabs := <[id := r.1]> (tabs w) |}.
(** A page that is shown runs its scripts. *)
Definition awake (id : str) (w : World) : option Tab :=
  t ← tabs w !! id; if hidden t then None else Some t.

Definition apply (e : Event) (w : World) : option World :=
  match e with
  | Open i => match tabs w !! i with Some _ => None | None => Some (put i new_tab w) end
  | ClaimRead i =>
      t ← awake i w;
      (* one claim at a time *)
      match claiming t with
      | Some _ => None
      | None => Some (put i (claim_read ok i (clock w) (cell w) t) w)
      end
  | ClaimWrite i =>
      t ← awake i w;
      match claiming t with
      | Some (Writing renew _) => Some (put_both i (claim_write ok i (clock w) renew (cell w) t) w)
      | _ => None
      end
  | ClaimSettle i =>
      t ← awake i w;
      match claiming t with
      | Some (Settling since) =>
          if since + CLAIM_SETTLE_MS <=? clock w then Some (put i (claim_settle ok i (cell w) t) w) else None
      | _ => None
      end
  | PageHide i =>
      t ← awake i w;
      match claiming t with
      | Some (Writing _ _) => None (* no event runs between the read and the write of one tab *)
      | _ => let '(t', c) := relinquish ok i (cell w) t in Some (put_both i (t' <| hidden := true |>, c) w)
      end
  | Restore i => t ← tabs w !! i; if hidden t then Some (put i (t <| hidden := false |>) w) else None
  | Crash i => Some {| clock := clock w; cell := cell w; tabs := delete i (tabs w) |}
  | Tick d => if 0 <? d then Some {| clock := clock w + d; cell := cell w; tabs := tabs w |} else None
  end.

Definition leads (i : str) (w : World) : Prop := exists t, tabs w !! i = Some t /\ leader t = true.

(** Time may pass to [now]: no shown tab is held up past what its write or its lease needs. *)
Definition in_time (now : Z) (w : World) : Prop :=
  forall i t, tabs w !! i = Some t -> hidden t = false ->
    match claiming t with Some (Writing _ since) => now < since + CLAIM_SETTLE_MS | _ => True end /\
    (forall l, parseLease (cell w) = Some l -> lease_id l = i ->
       leader t = true \/ (exists since, claiming t = Some (Settling since)) -> now < ts l + LEASE_TTL_MS).
Definition timely (e : Event) (w : World) : Prop :=
  match e with Tick d => in_time (clock w + d) w | _ => True end.

(** Nothing is open yet; the storage may hold a lease left by an earlier tab. *)
Definition starts (w : World) : Prop := tabs w = ∅.

(** The runs whose events [guard] lets happen. *)
Definition step (guard : Event -> World -> Prop) (w w' : World) : Prop :=
  exists e, guard e w /\ apply e w = Some w'.
Definition reachable (guard : Event -> World -> Prop) (w : World) : Prop :=
  exists w0, starts w0 /\ rtc (step guard) w0 w.

(** * The invariant of the timed protocol *)

Definition writing (t : Tab) : bool := match claiming t with Some (Writing _ _) => true | _ => false end.
Definition settling (t : Tab) : bool := match claiming t with Some (Settling _) => true | _ => false end.

(** A tab that leads is shown, its lease stands and is fresh, and no other tab is about to write. *)
Definition lead_ok (w : World) (i : str) (t : Tab) : Prop :=
  leader t = true -> hidden t = false /\
    (exists l, parseLease (cell w) = Some l /\ lease_id l = i /\ clock w < ts l + LEASE_TTL_MS) /\
    (forall j u, tabs w !! j = Some u -> j <> i -> writing u = false).
(** What a tab wrote and is settling still stands: then it is as old as the write, fresh, and who
    is about to write read before it. *)
Definition settle_ok (w : World) (i : str) (t : Tab) : Prop :=
  forall since l, claiming t = Some (Settling since) -> parseLease (cell w) = Some l -> lease_id l = i ->
    hidden t = false /\ ts l = since /\ clock w < since + LEASE_TTL_MS /\
    (forall j u b r, tabs w !! j = Some u -> claiming u = Some (Writing b r) -> r <= since).
(** A write comes less than the settle time after its read. *)
Definition write_ok (w : World) (t : Tab) : Prop :=
  forall b r, claiming t = Some (Writing b r) -> hidden t = false /\ r <= clock w < r + CLAIM_SETTLE_MS.

Definition inv (w : World) : Prop :=
  forall i t, tabs w !! i = Some t -> lead_ok w i t /\ settle_ok w i t /\ write_ok w t.

Lemma awake_Some i w t : awake i w = Some t <-> tabs w !! i = Some t /\ hidden t = false.
Proof.
  unfold awake. destruct (tabs w !! i) as [u|]; simpl.
  - destruct (hidden u) eqn:E; split; [done|intros [[= <-] ?]; congruence|by intros [= <-]|by intros [[= <-] _]].
  - split; [done|by intros [? _]].
Qed.

Lemma writing_false t : writing t = false <-> forall b r, claiming t <> Some (Writing b r).
Proof. unfold writing. destruct (claiming t) as [[]|]; split; try done. intros H. by destruct (H renew since). Qed.

(** One tab that is not about to write changes, the lease does not. *)
Lemma inv_put i t w :
  inv w -> writing t = false -> lead_ok w i t -> settle_ok w i t -> inv (put i t w).
Proof.
  intros I Hw L S j u. simpl. rewrite lookup_insert_Some.
  assert (forall k v, (put i t w).(tabs) !! k = Some v -> writing v = true -> tabs w !! k = Some v) as Hout.
  { intros k v. simpl. rewrite lookup_insert_Some. intros [[-> ->]|[_ ?]]; congruence. }
  assert (forall k v, (put i t w).(tabs) !! k = Some v -> writing v = false \/ tabs w !! k = Some v) as Hnew.
  { intros k v Hk. destruct (writing v) eqn:E; eauto. }
  assert (forall k v, lead_ok w k v -> lead_ok (put i t w) k v) as HL.
  { intros k v H Hl. destruct (H Hl) as (H1 & H2 & H3). split; [done|]. split; [done|].
    intros m x [Hm|Hm]%Hnew Hne; eauto. }
  assert (forall k v, settle_ok w k v -> settle_ok (put i t w) k v) as HS.
  { intros k v H since l H1 H2 H3. destruct (H since l H1 H2 H3) as (? & ? & ? & H4). do 3 (split; [done|]).
    intros m x b r Hm Hc. apply (H4 m x b r); [|done]. apply Hout; [done|]. unfold writing. by rewrite Hc. }
  intros [[<- <-]|[Hne Hj]].
  - split; [auto|]. split; [auto|]. intros b r Hc. by apply writing_false in Hc.
  - destruct (I j u Hj) as (? & ? & ?). split; [auto|]. split; auto.
Qed.

Lemma set_leader_claiming v t : claiming (set_leader v t) = claiming t.
Proof. unfold set_leader. by destruct (Bool.eqb _ _). Qed.
Lemma set_leader_hidden v t : hidden (set_leader v t) = hidden t.
Proof. unfold set_leader. by destruct (Bool.eqb _ _). Qed.
Lemma set_leader_leader v t : leader (set_leader v t) = v.
Proof. unfold set_leader. destruct (Bool.eqb (leader t) v) eqn:E; [by apply eqb_prop|done]. Qed.
Lemma resolve_claiming t : claiming (resolve t) = None.
Proof. unfold resolve. simpl. by destruct (awaited t). Qed.
Lemma resolve_hidden t : hidden (resolve t) = hidden t.
Proof. unfold resolve. simpl. by destruct (awaited t). Qed.
Lemma resolve_leader t : leader (resolve t) = leader t.
Proof. unfold resolve. simpl. by destruct (awaited t). Qed.
Create Rewrite HintDb tab.
#[local] Hint Rewrite set_leader_claiming set_leader_hidden set_leader_leader
  resolve_claiming resolve_hidden resolve_leader : tab.

(** A tab with no claim under way owes nothing for one. *)
Lemma settled_ok w i t : claiming t = None -> settle_ok w i t /\ writing t = false.
Proof. intros H. split; [intros ? ? E; congruence|]. unfold writing. by rewrite H. Qed.

Lemma inv_put_idle i t w : inv w -> claiming t = None -> lead_ok w i t -> inv (put i t w).
Proof. intros I H L. destruct (settled_ok w i t H). by apply inv_put. Qed.

Lemma lead_ok_not w i t : leader t = false -> lead_ok w i t.
Proof. intros H E. congruence. Qed.

(** The tab whose lease stands: a fresh one that is somebody else's keeps [i] from claiming. *)
Definition theirs (i : str) (w : World) : Prop :=
  exists l, parseLease (cell w) = Some l /\ lease_id l <> i /\ clock w < ts l + LEASE_TTL_MS.

Lemma claim_read_cases i w t :
  (theirs i w /\ claim_read ok i (clock w) (cell w) t = resolve (set_leader false t)) \/
  (~ theirs i w /\ exists b, (leader t = false -> b = false) /\ claim_read ok i (clock w) (cell w) t = t <| claiming := Some (Writing b (clock w)) |>).
Proof.
  unfold claim_read, theirs. cbn [ok read].
  assert (forall x, leader t = false -> x && leader t = false) as Hx by (intros x ->; apply andb_false_r).
  destruct (parseLease (cell w)) as [l|]; [|right; split; [naive_solver|eauto]].
  destruct (bool_decide_reflect (lease_id l = i)) as [H|H]; cbn [negb andb].
  { right. split; [naive_solver|eauto]. }
  destruct (clock w - ts l <? LEASE_TTL_MS) eqn:E; bool_prop; [left|right].
  - split; [|done]. exists l. split; [done|]. split; [done|lia].
  - split; [|eauto]. intros (l' & [= <-] & ? & ?). lia.
Qed.

(** Whoever leads, or settles what still stands, keeps every other tab from starting to write. *)
Lemma in_force_theirs w i j u :
  inv w -> tabs w !! j = Some u -> j <> i ->
  leader u = true \/ (exists since l, claiming u = Some (Settling since) /\ parseLease (cell w) = Some l /\ lease_id l = j) ->
  theirs i w.
Proof.
  intros I Hj Hne H. destruct (I j u Hj) as (L & S & _). destruct H as [Hl|(since & l & Hc & Hp & He)].
  - destruct (L Hl) as (_ & (l & ? & ? & ?) & _). exists l. split; [done|]. split; [congruence|done].
  - destruct (S since l Hc Hp He) as (_ & ? & ? & _). exists l. split; [done|]. split; [congruence|lia].
Qed.

Lemma inv_claim_read w i t :
  inv w -> tabs w !! i = Some t -> hidden t = false -> claiming t = None ->
  inv (put i (claim_read ok i (clock w) (cell w) t) w).
Proof.
  intros I Hi Hh Hc. destruct (claim_read_cases i w t) as [[_ ->]|[Hno (b & _ & ->)]].
  { apply inv_put_idle; [done|by autorewrite with tab|]. apply lead_ok_not. by autorewrite with tab. }
  assert (forall j u, tabs w !! j = Some u -> j <> i -> leader u = false) as Hlead.
  { intros j u Hj Hne. destruct (leader u) eqn:E; [|done]. destruct Hno. by eapply in_force_theirs; eauto. }
  assert (forall j u since l, tabs w !! j = Some u -> j <> i -> claiming u = Some (Settling since) ->
            parseLease (cell w) = Some l -> lease_id l <> j) as Hset.
  { intros j u since l Hj Hne Hu Hp He. destruct Hno. eapply in_force_theirs; eauto 10. }
  intros j u. simpl. rewrite lookup_insert_Some. intros [[<- <-]|[Hne Hj]].
  - destruct (I i t Hi) as (L & _ & _). split; [|split].
    + intros Hl. destruct (L Hl) as (_ & ? & H3). split; [done|]. split; [done|].
      intros j u. simpl. rewrite lookup_insert_Some. intros [[-> _]|[_ ?]]; [done|eauto].
    + by intros since l [=].
    + intros b' r [= <- <-]. simpl. unfold CLAIM_SETTLE_MS. split; [done|lia].
  - destruct (I j u Hj) as (_ & _ & W). split; [|split; [|done]].
    + apply lead_ok_not. eauto.
    + intros since l Hu Hp He. exfalso. exact (Hset j u since l Hj (not_eq_sym Hne) Hu Hp He).
Qed.

(** The write of [i] replaces the lease: nobody else leads, and who wrote before no longer holds it. *)
Lemma inv_claim_write w i t b r :
  inv w -> tabs w !! i = Some t -> hidden t = false -> claiming t = Some (Writing b r) ->
  inv (put_both i (claim_write ok i (clock w) b (cell w) t) w).
Proof.
  intros I Hi Hh Hc. cbn [ok claim_write write].
  set (l0 := {| lease_id := i; ts := clock w |}).
  set (t' := if b then resolve t else t <| claiming := Some (Settling (clock w)) |>).
  assert (writing t = true) as Hw by (unfold writing; by rewrite Hc).
  assert (hidden t' = false) as Hh' by (unfold t'; destruct b; autorewrite with tab; done).
  assert (writing t' = false) as Hw' by (unfold t', writing; destruct b; autorewrite with tab; done).
  assert (forall j u, tabs w !! j = Some u -> j <> i -> leader u = false) as Hlead.
  { intros j u Hj Hne. destruct (leader u) eqn:E; [|done].
    destruct (I j u Hj) as (L & _ & _). destruct (L E) as (_ & _ & H). by rewrite (H i t Hi (not_eq_sym Hne)) in Hw. }
  intros j u. simpl. fold t'. rewrite lookup_insert_Some. intros [[<- <-]|[Hne Hj]].
  - split; [|split].
    + intros Hl. split; [done|]. split.
      { exists l0. split; [apply parseLease_json|]. split; [done|]. simpl. unfold LEASE_TTL_MS. lia. }
      intros j u. simpl. fold t'. rewrite lookup_insert_Some. intros [[-> _]|[_ Hj]] Hne; [done|].
      assert (leader t = true) as Hlt by (revert Hl; unfold t'; destruct b; autorewrite with tab; done).
      destruct (I i t Hi) as (L & _ & _). destruct (L Hlt) as (_ & _ & H). eauto.
    + intros since l Hs. cbn [cell put_both snd]. fold (lease_json l0). rewrite parseLease_json. intros [= <-] _.
      assert (since = clock w) as ->.
      { revert Hs. unfold t'. destruct b; autorewrite with tab; [done|]. by intros [= <-]. }
      split; [done|]. split; [done|]. cbn [clock put_both]. unfold LEASE_TTL_MS. split; [lia|].
      intros j u b' r'. simpl. fold t'. rewrite lookup_insert_Some. intros [[_ <-]|[_ Hj]] Hu.
      * unfold writing in Hw'. by rewrite Hu in Hw'.
      * destruct (I j u Hj) as (_ & _ & W). destruct (W b' r' Hu) as [_ ?]. lia.
    + intros b' r' Hu. unfold writing in Hw'. by rewrite Hu in Hw'.
  - destruct (I j u Hj) as (_ & _ & W). split; [|split; [|done]].
    + apply lead_ok_not. eauto.
    + intros since l Hu. cbn [cell put_both snd]. fold (lease_json l0). rewrite parseLease_json. by intros [= <-].
Qed.

Lemma holds_Some i c : holds i (parseLease c) = true <-> exists l, parseLease c = Some l /\ lease_id l = i.
Proof.
  unfold holds. destruct (parseLease c) as [l|]; [|split; [done|naive_solver]].
  rewrite bool_decide_eq_true. naive_solver.
Qed.

Lemma inv_claim_settle w i t since :
  inv w -> tabs w !! i = Some t -> hidden t = false -> claiming t = Some (Settling since) ->
  since + CLAIM_SETTLE_MS <= clock w -> inv (put i (claim_settle ok i (cell w) t) w).
Proof.
  intros I Hi Hh Hc Hle. unfold claim_settle. cbn [ok read].
  apply inv_put_idle; [done|by autorewrite with tab|]. intros Hl.
  autorewrite with tab in *. split; [done|].
  apply holds_Some in Hl as (l & Hp & He).
  destruct (I i t Hi) as (_ & S & _). destruct (S since l Hc Hp He) as (_ & Hts & Hfresh & Hold).
  split; [exists l; split; [done|]; split; [done|lia]|].
  intros j u Hj _. apply writing_false. intros b r Hu.
  destruct (I j u Hj) as (_ & _ & W). destruct (W b r Hu) as [_ ?]. specialize (Hold j u b r Hj Hu). lia.
Qed.

(** Freeing a lease frees it for the others only. *)
Lemma inv_page_hide w i t :
  inv w -> tabs w !! i = Some t -> writing t = false ->
  inv (put_both i ((relinquish ok i (cell w) t).1 <| hidden := true |>, (relinquish ok i (cell w) t).2) w).
Proof.
  intros I Hi Hw. cbn [relinquish fst snd ok read].
  set (c := if holds i _ then None else cell w). set (t' := t <| leader := false |> <| hidden := true |>).
  assert (writing t' = false) as Hw' by done.
  assert (forall l, parseLease c = Some l -> parseLease (cell w) = Some l /\ lease_id l <> i) as Hc.
  { intros l. unfold c. destruct (holds i _) eqn:E; [done|]. intros Hp. split; [done|]. intros He.
    assert (holds i (parseLease (cell w)) = true) by (apply holds_Some; eauto). congruence. }
  intros j u. simpl. fold t' c. rewrite lookup_insert_Some. intros [[<- <-]|[Hne Hj]].
  - split; [by apply lead_ok_not|]. split.
    + intros since l _ Hp He. by apply Hc in Hp as [_ ?].
    + intros b r Hu. by apply writing_false in Hu.
  - destruct (I j u Hj) as (L & S & W). split; [|split; [|done]].
    + intros Hl. destruct (L Hl) as (H1 & (l & Hp & He & Hf) & H3). split; [done|]. split.
      * exists l. split; [|done]. cbn [cell put_both snd]. unfold c.
        destruct (holds i _) eqn:E; [|done]. apply holds_Some in E as (l' & ? & ?). congruence.
      * intros k v. simpl. fold t'. rewrite lookup_insert_Some. intros [[_ <-]|[_ ?]] ?; eauto.
    + intros since l Hu Hp He. apply Hc in Hp as [Hp _]. destruct (S since l Hu Hp He) as (? & ? & ? & H4).
      do 3 (split; [done|]). intros k v b r. simpl. fold t'. rewrite lookup_insert_Some.
      intros [[_ <-]|[_ ?]] Hv; [by apply writing_false in Hv|eauto].
Qed.

Lemma inv_tick w d : inv w -> 0 < d -> in_time (clock w + d) w ->
  inv {| clock := clock w + d; cell := cell w; tabs := tabs w |}.
Proof.
  intros I Hd H i t Hi. destruct (I i t Hi) as (L & S & W). specialize (H i t Hi). split; [|split].
  - intros Hl. destruct (L Hl) as (Hh & (l & Hp & He & _) & H3). split; [done|]. split; [|done].
    exists l. split; [done|]. split; [done|]. apply (H Hh); eauto.
  - intros since l Hc Hp He. destruct (S since l Hc Hp He) as (Hh & Hts & _ & H4). do 2 (split; [done|]).
    split; [|done]. cbn [clock]. rewrite <- Hts. apply (H Hh); eauto.
  - intros b r Hc. destruct (W b r Hc) as [Hh ?]. split; [done|]. destruct (H Hh) as [Hr _]. rewrite Hc in Hr.
    cbn [clock]. lia.
Qed.

Lemma inv_crash w i : inv w -> inv {| clock := clock w; cell := cell w; tabs := delete i (tabs w) |}.
Proof.
  intros I j u Hj. simpl in Hj. apply lookup_delete_Some in Hj as [_ Hj]. destruct (I j u Hj) as (L & S & W). split; [|split; [|done]].
  - intros Hl. destruct (L Hl) as (H1 & H2 & H3). do 2 (split; [done|]).
    intros k v. simpl. rewrite lookup_delete_Some. intros [_ ?]. eauto.
  - intros since l Hc Hp He. destruct (S since l Hc Hp He) as (? & ? & ? & H4). do 3 (split; [done|]).
    intros k v b r. simpl. rewrite lookup_delete_Some. intros [_ ?]. eauto.
Qed.

Lemma inv_restore w i t : inv w -> tabs w !! i = Some t -> hidden t = true -> inv (put i (t <| hidden := false |>) w).
Proof.
  intros I Hi Hh. destruct (I i t Hi) as (L & S & W). apply inv_put; [done| | |].
  - apply writing_false. intros b r Hc. destruct (W b r Hc). congruence.
  - intros Hl. destruct (L Hl). congruence.
  - intros since l Hc Hp He. destruct (S since l Hc Hp He). congruence.
Qed.

Lemma inv_apply w e w' : inv w -> timely e w -> apply e w = Some w' -> inv w'.
Proof.
  intros I Ht. destruct e as [i|i|i|i|i|i|i|d]; cbn [apply]; intros H.
  - destruct (tabs w !! i); [done|]. apply (inj Some) in H as <-. by apply inv_put_idle.
  - apply bind_Some in H as (t & [Hi Hh]%awake_Some & H).
    destruct (claiming t) eqn:Hc; [done|]. apply (inj Some) in H as <-. by apply inv_claim_read.
  - apply bind_Some in H as (t & [Hi Hh]%awake_Some & H).
    destruct (claiming t) as [[b r|]|] eqn:Hc; try done. apply (inj Some) in H as <-. by eapply inv_claim_write.
  - apply bind_Some in H as (t & [Hi Hh]%awake_Some & H).
    destruct (claiming t) as [[|since]|] eqn:Hc; try done.
    destruct (since + CLAIM_SETTLE_MS <=? clock w) eqn:E; [|done]. apply (inj Some) in H as <-. bool_prop.
    by eapply inv_claim_settle.
  - apply bind_Some in H as (t & [Hi Hh]%awake_Some & H).
    assert (writing t = false) as Hw by (unfold writing; destruct (claiming t) as [[]|]; done).
    destruct (claiming t) as [[]|]; try done; apply (inj Some) in H as <-; by apply inv_page_hide.
  - apply bind_Some in H as (t & Hi & H). destruct (hidden t) eqn:Hh; [|done]. apply (inj Some) in H as <-.
    by apply inv_restore.
  - apply (inj Some) in H as <-. by apply inv_crash.
  - destruct (0 <? d) eqn:E; [|done]. apply (inj Some) in H as <-. bool_prop. by apply inv_tick.
Qed.

(** An invariant of the steps holds wherever they lead. *)
Lemma reachable_ind guard (P : World -> Prop) :
  (forall w, starts w -> P w) ->
  (forall w e w', P w -> guard e w -> apply e w = Some w' -> P w') ->
  forall w, reachable guard w -> P w.
Proof.
  intros H0 HS w (w0 & Hs & Hr). apply H0 in Hs. revert Hs.
  induction Hr as [|x y z (e & Hg & Ha) _ IH]; eauto.
Qed.

Lemma starts_none w i : starts w -> tabs w !! i = None.
Proof. unfold starts. intros ->. apply lookup_empty. Qed.

Lemma inv_reachable guard w : (forall e w, guard e w -> timely e w) -> reachable guard w -> inv w.
Proof.
  intros Hg. apply reachable_ind; [|eauto using inv_apply].
  intros w' H i t. by rewrite starts_none.
Qed.

Lemma inv_one_leader w i j : inv w -> leads i w -> leads j w -> i = j.
Proof.
  intros I (t & Hi & Hl) (u & Hj & Hm). destruct (I i t Hi) as (L & _ & _). destruct (I j u Hj) as (M & _ & _).
  destruct (L Hl) as (_ & (l & Hp & <- & _) & _). destruct (M Hm) as (_ & (l' & Hp' & <- & _) & _). congruence.
Qed.

(** * One runner *)

(** C2: However the tabs of a profile interleave their reads, writes and heartbeats, are hidden,
    restored or killed, at most one holds the queue's lease, as long as no tab is held up past its
    settle time or its lease. *)
Theorem one_tab_leads w i j : reachable timely w -> leads i w -> leads j w -> i = j.
Proof. intros H%inv_reachable; [|done]. by apply inv_one_leader. Qed.

(** The lock this is to be: free, or one tab's. A tab takes it, when it is free, on reading its own id back
    after the settle time, and gives it up by going away; nothing else any tab does changes it. [holder] is
    whose id the storage holds. *)
Inductive lock_step (holder : option str) : Event -> option str -> option str -> Prop :=
| lock_take i : holder = Some i -> lock_step holder (ClaimSettle i) None (Some i)
| lock_own i : lock_step holder (ClaimSettle i) (Some i) (Some i)
| lock_refused i o : holder <> Some i -> o <> Some i -> lock_step holder (ClaimSettle i) o o
| lock_hidden i : lock_step holder (PageHide i) (Some i) None
| lock_killed i : lock_step holder (Crash i) (Some i) None
| lock_other_hidden i o : o <> Some i -> lock_step holder (PageHide i) o o
| lock_other_killed i o : o <> Some i -> lock_step holder (Crash i) o o
| lock_open i o : lock_step holder (Open i) o o
| lock_read i o : lock_step holder (ClaimRead i) o o
| lock_write i o : lock_step holder (ClaimWrite i) o o
| lock_restore i o : lock_step holder (Restore i) o o
| lock_tick d o : lock_step holder (Tick d) o o.
Definition holder (w : World) : option str := option_map lease_id (parseLease (cell w)).
Definition owns (w : World) (o : option str) : Prop := forall i, leads i w <-> o = Some i.

Lemma leader_dec w : (exists i, leads i w) \/ (forall i, ~ leads i w).
Proof.
  destruct (decide (map_Exists (fun _ t => leader t = true) (tabs w))) as [(i & t & ? & ?)|H]; [left|right].
  - by exists i, t.
  - intros i (t & Hi & Hl). apply H. by exists i, t.
Qed.

Lemma inv_owner w : inv w -> exists o, owns w o.
Proof.
  intros I. destruct (leader_dec w) as [[i Hi]|H].
  - exists (Some i). intros j. split; [intros Hj; f_equal; by eapply inv_one_leader|by intros [= <-]].
  - exists None. intros j. split; [by intros Hj%H|done].
Qed.

Lemma leads_insert i t m c k j : leads j {| clock := c; cell := k; tabs := <[i := t]> m |} <->
  (j = i /\ leader t = true) \/ (j <> i /\ exists u, m !! j = Some u /\ leader u = true).
Proof.
  unfold leads. simpl. setoid_rewrite lookup_insert_Some. split.
  - intros (u & [[-> ->]|[? ?]] & ?); [by left|right]. split; [done|eauto].
  - intros [[-> ?]|(? & u & ? & ?)]; [exists t|exists u]; auto.
Qed.
(** A tab that goes on as it was. *)
Lemma owns_same w w' i t t' : tabs w !! i = Some t -> leader t' = leader t -> tabs w' = <[i := t']> (tabs w) -> forall o, owns w o -> owns w' o.
Proof.
  intros Hi Hl Ht o Ho j. rewrite <- (Ho j). destruct w' as [c k m]. simpl in Ht. subst m. rewrite leads_insert. unfold leads. split.
  - intros [[-> ?]|(_ & ?)]; [exists t; split; [done|congruence]|done].
  - intros (u & Hu & ?). destruct (decide (j = i)) as [->|]; [left; split; [done|congruence]|right; eauto].
Qed.
(** A tab that goes away, or was not there. *)
Lemma owns_less w w' i o : owns w o -> (forall j, leads j w' <-> leads j w /\ j <> i) -> owns w' (if decide (o = Some i) then None else o).
Proof.
  intros Ho Hl j. rewrite Hl, (Ho j). destruct (decide (o = Some i)) as [->|Hne]; [naive_solver|]. split; [by intros [? _]|]. intros ->. split; [done|congruence].
Qed.
Lemma lock_of_step w e w' o : inv w -> timely e w -> apply e w = Some w' -> owns w o -> exists o', owns w' o' /\ lock_step (holder w) e o o'.
Proof.
  intros I Ht Ha Ho. pose proof (inv_apply _ _ _ I Ht Ha) as I'.
  assert (forall i t, tabs w !! i = Some t -> leader t = true -> holder w = Some i) as Hhold.
  { intros i t Hi Hl. destruct (I i t Hi) as (L & _). destruct (L Hl) as (_ & (l & Hp & He & _) & _). unfold holder. rewrite Hp. simpl. by rewrite He. }
  destruct e as [i|i|i|i|i|i|i|d]; cbn [apply] in Ha.
  - destruct (tabs w !! i) eqn:Hi; [done|]. apply (inj Some) in Ha as <-. exists o. split; [|constructor]. intros j. rewrite <- (Ho j).
    unfold put. rewrite leads_insert. unfold leads. split; [intros [[_ ?]|[_ ?]]; done|]. intros (u & Hu & Hl). right. split; [congruence|eauto].
  - apply bind_Some in Ha as (t & [Hi Hh]%awake_Some & Ha). destruct (claiming t); [done|]. apply (inj Some) in Ha as <-. exists o. split; [|constructor].
    eapply owns_same; [done| |done|done]. destruct (claim_read_cases i w t) as [[(l & Hp & Hne & _) ->]|[_ (b & _ & ->)]]; [|done].
    autorewrite with tab. destruct (leader t) eqn:El; [|done]. specialize (Hhold i t Hi El). unfold holder in Hhold. rewrite Hp in Hhold. simpl in Hhold. congruence.
  - apply bind_Some in Ha as (t & [Hi Hh]%awake_Some & Ha). destruct (claiming t) as [[b r|]|]; try done. apply (inj Some) in Ha as <-.
    exists o. split; [|constructor]. eapply owns_same; [done| |done|done]. cbn [ok claim_write write fst]. destruct b; [apply resolve_leader|done].
  - apply bind_Some in Ha as (t & [Hi Hh]%awake_Some & Ha). destruct (claiming t) as [[|r]|]; try done. destruct (_ <=? _); [|done].
    apply (inj Some) in Ha as <-. set (w' := put _ _ _) in *.
    assert (leader (claim_settle ok i (cell w) t) = true <-> holder w = Some i) as Hs.
    { unfold claim_settle. autorewrite with tab. cbn [ok read]. unfold holds, holder. destruct (parseLease (cell w)) as [l|]; simpl; [|done].
      rewrite bool_decide_eq_true. naive_solver. }
    destruct (leader (claim_settle ok i (cell w) t)) eqn:El.
    + assert (leads i w') as Hli by (exists (claim_settle ok i (cell w) t); split; [apply lookup_insert_eq|done]).
      exists (Some i). split; [intros j; split; [intros Hj; f_equal; by eapply inv_one_leader|by intros [= <-]]|].
      destruct o as [a|]; [|constructor; by apply Hs]. destruct (decide (a = i)) as [->|Hne]; [constructor|exfalso]. apply Hne.
      apply (inv_one_leader w'); [done| |done]. destruct (proj2 (Ho a) eq_refl) as (u & Hu & Hlu). exists u. split; [|done].
      simpl. by rewrite lookup_insert_ne.
    + assert (leader t = false) as Hlt.
      { destruct (leader t) eqn:E; [|done]. assert (false = true) by (apply Hs; by eapply Hhold). done. }
      exists o. split; [eapply owns_same; [done| |done|done]; congruence|]. constructor; [by intros H%Hs|].
      intros ->. destruct (proj2 (Ho i) eq_refl) as (u & Hu & Hlu). congruence.
  - apply bind_Some in Ha as (t & [Hi Hh]%awake_Some & Ha).
    assert (w' = put_both i ((relinquish ok i (cell w) t).1 <| hidden := true |>, (relinquish ok i (cell w) t).2) w) as ->
      by (destruct (claiming t) as [[]|]; try done; by apply (inj Some) in Ha as <-).
    exists (if decide (o = Some i) then None else o). split; [|destruct (decide _) as [->|]; by constructor].
    apply owns_less with w; [done|]. intros j. unfold put_both. rewrite leads_insert. unfold leads. simpl. naive_solver.
  - apply bind_Some in Ha as (t & Hi & Ha). destruct (hidden t); [|done]. apply (inj Some) in Ha as <-. exists o. split; [|constructor].
    eapply owns_same; [exact Hi| |reflexivity|exact Ho]. done.
  - apply (inj Some) in Ha as <-. exists (if decide (o = Some i) then None else o). split; [|destruct (decide _) as [->|]; by constructor].
    apply owns_less with w; [done|]. intros j. unfold leads. simpl. setoid_rewrite lookup_delete_Some. naive_solver.
  - destruct (0 <? d); [|done]. apply (inj Some) in Ha as <-. exists o. split; [exact Ho|constructor].
Qed.

(** C11: The election refines a lock, as long as no tab is held up past its settle time or its lease
    (held_up_tab_overlaps shows the need): with no tab open the lock is free; every state of the tabs stands
    for a state of the lock, free or held by the one tab that leads; and every event of every tab is the
    step of the lock that goes with it. So a tab takes the lock only when it is free and on reading its own
    id back after the settle time, and with its id there it does take it; a page that is hidden or killed
    gives it up; and no heartbeat, write, opening or restoring of any tab changes who holds it. *)
Theorem election_refines_lock :
  (forall w, starts w -> owns w None) /\
  forall w, reachable timely w -> exists o, owns w o /\
    forall e w', timely e w -> apply e w = Some w' -> exists o', owns w' o' /\ lock_step (holder w) e o o'.
Proof.
  split.
  - intros w Hw i. unfold leads. rewrite Hw. split; [|done]. intros (t & Ht & _). by rewrite lookup_empty in Ht.
  - intros w I%inv_reachable; [|done]. destruct (inv_owner w I) as [o Ho]. exists o. split; [done|]. intros e w' Ht Ha. by eapply lock_of_step.
Qed.

(** * The queue store's own flag *)

(** A shown tab whose election is done and whose queue store believes it runs the queue. *)
Definition runs_queue (i : str) (w : World) : Prop :=
  exists t, tabs w !! i = Some t /\ hidden t = false /\ awaited t = false /\ isLeader t = true.

Definition no_restore (e : Event) : Prop := match e with Restore _ => False | _ => True end.

(** The store follows the lease in every tab that never came back from the cache. *)
Definition told (w : World) : Prop :=
  forall i t, tabs w !! i = Some t -> hidden t = false -> awaited t = false -> isLeader t = leader t.

Lemma told_put i t w c :
  told w -> (hidden t = false -> awaited t = false -> isLeader t = leader t) -> told (put_both i (t, c) w).
Proof. intros T H j u. simpl. rewrite lookup_insert_Some. intros [[<- <-]|[_ Hj]]; eauto. Qed.

Lemma told_put1 i t w :
  told w -> (hidden t = false -> awaited t = false -> isLeader t = leader t) -> told (put i t w).
Proof. exact (told_put i t w (cell w)). Qed.

(** [resolve] and [set_leader] keep the store's flag in step. *)
Lemma told_resolve v t :
  (awaited t = false -> isLeader t = leader t) ->
  let t' := resolve (set_leader v t) in awaited t' = false -> isLeader t' = leader t'.
Proof.
  intros H. cbn zeta. unfold resolve, set_leader.
  destruct (Bool.eqb (leader t) v) eqn:E; simpl; destruct (awaited t) eqn:Ea; simpl; auto.
Qed.

Lemma told_apply w e w' : told w -> no_restore e -> apply e w = Some w' -> told w'.
Proof.
  intros T Hn. destruct e as [i|i|i|i|i|i|i|d]; cbn [apply]; intros H; try done.
  - destruct (tabs w !! i); [done|]. apply (inj Some) in H as <-. by apply told_put1.
  - apply bind_Some in H as (t & [Hi Hh]%awake_Some & H). destruct (claiming t); [done|]. apply (inj Some) in H as <-.
    apply told_put1; [done|]. intros _.
    destruct (claim_read_cases i w t) as [[_ ->]|[_ (b & _ & ->)]]; [apply told_resolve|]; exact (T i t Hi Hh).
  - apply bind_Some in H as (t & [Hi Hh]%awake_Some & H). destruct (claiming t) as [[b r|]|]; try done.
    apply (inj Some) in H as <-. apply told_put; [done|]. intros _. specialize (T i t Hi Hh).
    cbn [ok]. destruct b; [|done]. unfold resolve. simpl. destruct (awaited t); auto.
  - apply bind_Some in H as (t & [Hi Hh]%awake_Some & H). destruct (claiming t) as [[|r]|]; try done.
    destruct (_ <=? _); [|done]. apply (inj Some) in H as <-. apply told_put1; [done|]. intros _.
    apply told_resolve. exact (T i t Hi Hh).
  - apply bind_Some in H as (t & [Hi Hh]%awake_Some & H).
    destruct (claiming t) as [[]|]; try done; apply (inj Some) in H as <-; by apply told_put.
  - apply (inj Some) in H as <-. intros j u. simpl. rewrite lookup_delete_Some. intros [_ ?]. eauto.
  - destruct (0 <? d); [|done]. by apply (inj Some) in H as <-.
Qed.

(** While no page comes back from the back/forward cache, at most one tab's queue store runs the
    queue: the others show it read-only. *)
Theorem one_tab_runs_queue w i j :
  reachable (fun e w => timely e w /\ no_restore e) w -> runs_queue i w -> runs_queue j w -> i = j.
Proof.
  intros R (t & Hi & Hh & Ha & Hl) (u & Hj & Hh' & Ha' & Hl').
  assert (told w) as T.
  { revert R. apply reachable_ind; [|intros ? ? ? ? []; eauto using told_apply].
    intros v Hv k x. by rewrite starts_none. }
  apply (inv_one_leader w); [by eapply inv_reachable; [|exact R]; naive_solver|exists t|exists u]; split; try done.
  - by rewrite <- (T i).
  - by rewrite <- (T j).
Qed.

(** * Taking over *)

Definition quiet (w : World) : Prop := forall i t, tabs w !! i = Some t -> leader t = false /\ claiming t = None.

Lemma step_intro (guard : Event -> World -> Prop) e w w' : guard e w -> apply e w = Some w' -> step guard w w'.
Proof. by exists e. Qed.

Lemma awake_intro i w t : tabs w !! i = Some t -> hidden t = false -> awake i w = Some t.
Proof. intros. by apply awake_Some. Qed.

(** Time passes freely while nobody leads or claims. *)
Lemma tick_quiet w n : quiet w -> 0 <= n ->
  rtc (step timely) w {| clock := clock w + n; cell := cell w; tabs := tabs w |}.
Proof.
  intros Q Hn. destruct (decide (n = 0)) as [->|Hne].
  { rewrite Z.add_0_r. destruct w. constructor. }
  apply rtc_once, (step_intro _ (Tick n)).
  - intros i t Hi Hh. destruct (Q i t Hi) as [Hl ->]. split; [done|]. intros l _ _ [H|[? [=]]]. congruence.
  - cbn [apply]. by rewrite (proj2 (Z.ltb_lt 0 n)) by lia.
Qed.

(** The whole of a claim nobody disturbs, from a lease that does not stand. *)
Lemma claim_alone w i t :
  quiet w -> tabs w !! i = Some t -> hidden t = false -> ~ theirs i w ->
  exists w', rtc (step timely) w w' /\ leads i w' /\ clock w' = clock w + CLAIM_SETTLE_MS.
Proof.
  intros Q Hi Hh Hno. destruct (Q i t Hi) as [Hl Hc].
  destruct (claim_read_cases i w t) as [[? _]|[_ (b & Hb & Hr)]]; [done|].
  set (t1 := claim_read ok i (clock w) (cell w) t) in *.
  assert (b = false) as -> by auto.
  set (w1 := put i t1 w).
  set (t2 := t1 <| claiming := Some (Settling (clock w)) |>).
  set (l := {| lease_id := i; ts := clock w |}).
  set (w2 := {| clock := clock w; cell := Some (lease_json l); tabs := <[i := t2]> (tabs w1) |}).
  set (w3 := {| clock := clock w + CLAIM_SETTLE_MS; cell := cell w2; tabs := tabs w2 |}).
  assert (tabs w1 !! i = Some t1) as H1 by apply lookup_insert_eq.
  assert (tabs w2 !! i = Some t2) as H2 by apply lookup_insert_eq.
  assert (hidden t1 = false /\ claiming t1 = Some (Writing false (clock w))) as [Hh1 Hc1] by (rewrite Hr; simpl; by rewrite Hh).
  exists (put i (claim_settle ok i (cell w3) t2) w3). split; [|split; [|done]].
  - eapply rtc_l; [apply (step_intro _ (ClaimRead i) w w1); [done|]|].
    { cbn [apply]. rewrite (awake_intro i w t) by done. simpl. by rewrite Hc. }
    eapply rtc_l; [apply (step_intro _ (ClaimWrite i) w1 w2); [done|]|].
    { cbn [apply]. rewrite (awake_intro i w1 t1) by done. simpl. by rewrite Hc1. }
    eapply rtc_l; [apply (step_intro _ (Tick CLAIM_SETTLE_MS) w2 w3)|].
    { intros j u Hj Hhj. destruct (decide (j = i)) as [->|Hne].
      - rewrite H2 in Hj. injection Hj as <-. split; [done|]. cbn [cell w2]. rewrite parseLease_json.
        intros l' [= <-] _ _. unfold l, CLAIM_SETTLE_MS, LEASE_TTL_MS. simpl. lia.
      - simpl in Hj. rewrite !lookup_insert_ne in Hj by done. destruct (Q j u Hj) as [Hlj ->]. split; [done|].
        intros l' _ _ [H|[? [=]]]. congruence. }
    { done. }
    apply rtc_once, (step_intro _ (ClaimSettle i)); [done|].
    cbn [apply]. rewrite (awake_intro i w3 t2) by done. simpl. by rewrite Z.leb_refl.
  - exists (claim_settle ok i (cell w3) t2). split; [apply lookup_insert_eq|].
    unfold claim_settle. autorewrite with tab. cbn [ok read cell w3 w2]. rewrite parseLease_json.
    by apply bool_decide_eq_true.
Qed.

(** The queue never stays without a runner: in a profile where no tab leads or is claiming, any
    tab that is shown can lead within the lease's time and the settle time, whatever the storage
    holds, provided no lease is stamped later than now. *)
Theorem takeover w i t :
  quiet w -> tabs w !! i = Some t -> hidden t = false ->
  (forall l, parseLease (cell w) = Some l -> ts l <= clock w) ->
  exists w', rtc (step timely) w w' /\ leads i w' /\
    clock w' <= clock w + LEASE_TTL_MS + CLAIM_SETTLE_MS.
Proof.
  intros Q Hi Hh Hpast.
  set (w1 := {| clock := clock w + LEASE_TTL_MS; cell := cell w; tabs := tabs w |}).
  destruct (claim_alone w1 i t) as (w' & Hr & Hl & Hc); [done..| |].
  - intros (l & Hp & _ & Hf). apply Hpast in Hp. cbn in Hf. lia.
  - exists w'. split; [|split; [done|rewrite Hc; simpl; lia]].
    etransitivity; [apply (tick_quiet w LEASE_TTL_MS)|exact Hr]; done.
Qed.

(** ** A lease that stands is respected *)

Definition not_back (holder : str) (e : Event) : Prop := match e with Open i => i <> holder | _ => True end.

Definition kept (l : Lease) (w : World) : Prop :=
  clock w < ts l + LEASE_TTL_MS ->
  parseLease (cell w) = Some l /\ tabs w !! lease_id l = None /\ quiet w.

Lemma clock_mono e w w' : apply e w = Some w' -> clock w <= clock w'.
Proof.
  destruct e as [i|i|i|i|i|i|i|d]; cbn [apply]; intros H;
    repeat match type of H with
    | (_ ≫= _) = Some _ => apply bind_Some in H as (? & _ & H)
    | (if 0 <? d then _ else _) = _ => destruct (Z.ltb_spec 0 d); [|done]
    | (match ?x with _ => _ end) = Some _ => destruct x; try done
    end; apply (inj Some) in H as <-; simpl; lia.
Qed.

Lemma quiet_put i t w : quiet w -> leader t = false -> claiming t = None -> quiet (put i t w).
Proof. intros Q Hl Hc j u. simpl. rewrite lookup_insert_Some. intros [[<- <-]|[_ Hj]]; eauto. Qed.

Lemma kept_apply l w e w' : kept l w -> not_back (lease_id l) e -> apply e w = Some w' -> kept l w'.
Proof.
  intros K Hn H Hlt. pose proof (clock_mono e w w' H).
  assert (clock w < ts l + LEASE_TTL_MS) as Hf by lia. destruct (K Hf) as (Hp & Ho & Q).
  destruct e as [i|i|i|i|i|i|i|d]; cbn [apply] in H; simpl in Hn.
  - destruct (tabs w !! i); [done|]. apply (inj Some) in H as <-.
    split; [done|]. split; [by simpl; rewrite lookup_insert_ne|by apply quiet_put].
  - apply bind_Some in H as (t & [Hi Hh]%awake_Some & H). destruct (Q i t Hi) as [Hl Hc]. rewrite Hc in H.
    apply (inj Some) in H as <-.
    assert (i <> lease_id l) as Hne by congruence.
    destruct (claim_read_cases i w t) as [[_ ->]|[Hno _]].
    + split; [done|]. split; [by simpl; rewrite lookup_insert_ne|apply quiet_put; [done|by autorewrite with tab..]].
    + destruct Hno. exists l. split; [done|]. by split.
  - apply bind_Some in H as (t & [Hi Hh]%awake_Some & H). destruct (Q i t Hi) as [Hl Hc]. by rewrite Hc in H.
  - apply bind_Some in H as (t & [Hi Hh]%awake_Some & H). destruct (Q i t Hi) as [Hl Hc]. by rewrite Hc in H.
  - apply bind_Some in H as (t & [Hi Hh]%awake_Some & H). destruct (Q i t Hi) as [Hl Hc]. rewrite Hc in H.
    apply (inj Some) in H as <-. assert (i <> lease_id l) as Hne by congruence.
    cbn [ok read] in *. unfold holds. rewrite Hp. rewrite bool_decide_eq_false_2 by done.
    split; [done|]. split; [by simpl; rewrite lookup_insert_ne|]. by apply (quiet_put i _ w).
  - apply bind_Some in H as (t & Hi & H). destruct (hidden t); [|done]. apply (inj Some) in H as <-.
    assert (i <> lease_id l) as Hne by congruence. destruct (Q i t Hi).
    split; [done|]. split; [by simpl; rewrite lookup_insert_ne|]. by apply quiet_put.
  - apply (inj Some) in H as <-. split; [done|]. split.
    + simpl. apply lookup_delete_None. by right.
    + intros j u. simpl. rewrite lookup_delete_Some. intros [_ ?]. eauto.
  - destruct (0 <? d); [|done]. by apply (inj Some) in H as <-.
Qed.

(** A lease left behind (its tab was killed, or the clock was set back since) keeps every tab from
    leading until [LEASE_TTL_MS] after its stamp, however long that is. *)
Theorem standing_lease_blocks l w w' i :
  tabs w = ∅ -> parseLease (cell w) = Some l ->
  rtc (step (fun e _ => not_back (lease_id l) e)) w w' ->
  clock w' < ts l + LEASE_TTL_MS -> ~ leads i w'.
Proof.
  intros Ht Hp Hr Hlt.
  assert (kept l w') as K.
  { assert (kept l w) as K0.
    { intros _. split; [done|]. rewrite Ht. split; [apply lookup_empty|]. intros j u. by rewrite Ht, lookup_empty. }
    clear Ht Hp Hlt. induction Hr as [|x y z (e & Hg & Ha) _ IH]; [done|]. apply IH. by eapply kept_apply. }
  destruct (K Hlt) as (_ & _ & Q). intros (t & Hi & Hl). destruct (Q i t Hi). congruence.
Qed.

(** * Concrete runs *)

Definition in_timeb (now : Z) (w : World) : bool :=
  forallb (fun '(i, t) =>
    hidden t ||
    (match claiming t with Some (Writing _ since) => now <? since + CLAIM_SETTLE_MS | _ => true end &&
     match parseLease (cell w) with
     | Some l => negb (bool_decide (lease_id l = i) && (leader t || settling t)) || (now <? ts l + LEASE_TTL_MS)
     | None => true
     end)) (map_to_list (tabs w)).
Definition timelyb (e : Event) (w : World) : bool :=
  match e with Tick d => in_timeb (clock w + d) w | _ => true end.

Lemma timelyb_sound e w : timelyb e w = true -> timely e w.
Proof.
  destruct e as [| | | | | | |d]; try done. cbn [timelyb timely]. unfold in_timeb. rewrite forallb_elem.
  intros H i t Hi Hh. apply elem_of_map_to_list, H in Hi. rewrite Hh in Hi. cbn [orb] in Hi. bool_prop.
  split.
  - destruct (claiming t) as [[]|]; [by bool_prop|done..].
  - intros l Hp <- Hl. rewrite Hp, bool_decide_eq_true_2 in * by done. cbn [andb] in *.
    assert (leader t || settling t = true) as E.
    { destruct Hl as [->|[s Hs]]; [done|]. unfold settling. rewrite Hs. apply orb_true_r. }
    rewrite E in *. cbn [negb orb] in *. by bool_prop.
Qed.

(** Runs the events, [None] if one cannot happen or is not allowed. *)
Fixpoint run (allow : Event -> World -> bool) (l : list Event) (w : World) : option World :=
  match l with
  | [] => Some w
  | e :: l' => if allow e w then w' ← apply e w; run allow l' w' else None
  end.

Lemma run_steps (guard : Event -> World -> Prop) allow l w w' :
  (forall e v, allow e v = true -> guard e v) -> run allow l w = Some w' -> rtc (step guard) w w'.
Proof.
  intros Hg. revert w. induction l as [|e l IH]; intros w; cbn [run].
  - intros [= ->]. constructor.
  - destruct (allow e w) eqn:E; [|done]. intros (v & Hv & H)%bind_Some.
    eapply rtc_l; [exists e; split; [by apply Hg|exact Hv]|by apply IH].
Qed.

(** An empty browser profile, and tab [i] loading and electing itself. *)
Definition fresh_world : World := {| clock := 0; cell := None; tabs := ∅ |}.
Definition elect (i : str) : list Event := [Open i; ClaimRead i; ClaimWrite i; Tick 150; ClaimSettle i].
Definition A : str := js "tab-a".
Definition B : str := js "tab-b".
Definition at_end (allow : Event -> World -> bool) (l : list Event) : World :=
  default fresh_world (run allow l fresh_world).

Lemma at_end_reachable (guard : Event -> World -> Prop) allow l :
  (forall e v, allow e v = true -> guard e v) ->
  (if run allow l fresh_world is Some _ then true else false) = true -> reachable guard (at_end allow l).
Proof.
  intros Hg H. exists fresh_world. split; [done|]. unfold at_end.
  destruct (run allow l fresh_world) as [w|] eqn:E; [|done]. by eapply run_steps.
Qed.

Definition leadsb (i : str) (w : World) : bool := match tabs w !! i with Some t => leader t | None => false end.
Lemma leadsb_true i w : leadsb i w = true -> leads i w.
Proof. unfold leadsb, leads. destruct (tabs w !! i) as [t|]; [eauto|done]. Qed.
Definition runs_queueb (i : str) (w : World) : bool :=
  match tabs w !! i with Some t => negb (hidden t) && negb (awaited t) && isLeader t | None => false end.
Lemma runs_queueb_true i w : runs_queueb i w = true -> runs_queue i w.
Proof.
  unfold runs_queueb, runs_queue. destruct (tabs w !! i) as [t|]; [|done].
  intros H. bool_prop. eauto.
Qed.

(** One tab leads, the other was refused. *)
Definition two_tabs : list Event := elect A ++ [Open B; Tick 2000; ClaimRead B; ClaimRead A; ClaimWrite A].

Lemma one_tab_leads_witness : leads A (at_end timelyb two_tabs) /\ A = A.
Proof.
  assert (leads A (at_end timelyb two_tabs)) as H by (apply leadsb_true; vm_compute; reflexivity).
  split; [exact H|]. apply (one_tab_leads (at_end timelyb two_tabs)); [|exact H..].
  apply (at_end_reachable _ _ _ timelyb_sound). vm_compute. reflexivity.
Defined.

Lemma election_refines_lock_witness : exists o, owns (at_end timelyb two_tabs) o /\
  forall e w', timely e (at_end timelyb two_tabs) -> apply e (at_end timelyb two_tabs) = Some w' ->
    exists o', owns w' o' /\ lock_step (holder (at_end timelyb two_tabs)) e o o'.
Proof.
  apply (proj2 election_refines_lock), (at_end_reachable _ _ _ timelyb_sound). vm_compute. reflexivity.
Defined.

Definition no_restoreb (e : Event) (w : World) : bool :=
  timelyb e w && match e with Restore _ => false | _ => true end.
Lemma no_restoreb_sound e w : no_restoreb e w = true -> timely e w /\ no_restore e.
Proof. unfold no_restoreb. intros [H%timelyb_sound ?]%andb_true_iff. split; [done|]. by destruct e. Qed.

Lemma one_tab_runs_queue_witness : runs_queue A (at_end no_restoreb two_tabs) /\ A = A.
Proof.
  assert (runs_queue A (at_end no_restoreb two_tabs)) as H by (apply runs_queueb_true; vm_compute; reflexivity).
  split; [exact H|]. apply (one_tab_runs_queue (at_end no_restoreb two_tabs)); [|exact H..].
  apply (at_end_reachable _ _ _ no_restoreb_sound). vm_compute. reflexivity.
Defined.

(** The leader was killed: its lease stays, and tab B takes over. *)
Definition orphaned : World :=
  {| clock := 1000; cell := Some (lease_json {| lease_id := A; ts := 500 |}); tabs := {[ B := new_tab ]} |}.

Lemma takeover_witness : exists w', rtc (step timely) orphaned w' /\ leads B w' /\ clock w' <= 1000 + 6000 + 150.
Proof.
  apply (takeover orphaned B new_tab).
  - intros i t. simpl. rewrite lookup_singleton_Some. by intros [_ <-].
  - apply lookup_singleton_eq.
  - reflexivity.
  - intros l [= <-]. simpl. lia.
Defined.

(** A's clock was an hour ahead when it was killed. *)
Definition ahead : World :=
  {| clock := 0; cell := Some (lease_json {| lease_id := A; ts := 3600000 |}); tabs := ∅ |}.

Lemma standing_lease_blocks_witness : exists w', clock w' = 3600000 /\ tabs w' !! B <> None /\ ~ leads B w'.
Proof.
  exists (default ahead (run (fun e _ => match e with Open i => negb (bool_decide (i = A)) | _ => true end)
            [Open B; ClaimRead B; Tick 3600000; ClaimRead B] ahead)).
  split; [vm_compute; reflexivity|]. split; [vm_compute; discriminate|].
  apply (standing_lease_blocks {| lease_id := A; ts := 3600000 |} ahead); [reflexivity|reflexivity| |vm_compute; reflexivity].
  apply (run_steps _ (fun e _ => match e with Open i => negb (bool_decide (i = A)) | _ => true end)
           [Open B; ClaimRead B; Tick 3600000; ClaimRead B]).
  - intros [] ? H; try exact I. simpl in H |- *. apply negb_true_iff, bool_decide_eq_false in H. exact H.
  - vm_compute. reflexivity.
Defined.

(** * What the election does not give *)

(** A loses its lease while its page is in the back/forward cache. *)
Definition restored : list Event := elect A ++ [PageHide A] ++ elect B ++ [Restore A].

(** A page restored from the back/forward cache after another tab took the lease goes on running
    the queue beside it, and its heartbeats do not stop it: [relinquish] cleared [leader] without
    telling the store, so the refused claim is no transition and [onChange] never fires. *)
Theorem restored_page_still_runs : exists w,
  reachable timely w /\ A <> B /\ runs_queue A w /\ runs_queue B w /\
  forall w', apply (ClaimRead A) w = Some w' -> runs_queue A w' /\ runs_queue B w'.
Proof.
  exists (at_end timelyb restored). split; [apply (at_end_reachable _ _ _ timelyb_sound); vm_compute; reflexivity|].
  split; [discriminate|].
  split; [apply runs_queueb_true; vm_compute; reflexivity|].
  split; [apply runs_queueb_true; vm_compute; reflexivity|].
  intros w' H. enough (runs_queueb A w' && runs_queueb B w' = true) as E.
  { apply andb_true_iff in E as [? ?]. split; by apply runs_queueb_true. }
  enough (option_map (fun w => runs_queueb A w && runs_queueb B w) (apply (ClaimRead A) (at_end timelyb restored)) = Some true) as E.
  { rewrite H in E. simpl in E. by injection E. }
  vm_compute. reflexivity.
Qed.

(** The timing is needed: a tab held up past its lease still believes it leads once another took over. *)
Example held_up_tab_overlaps : exists w, reachable (fun _ _ => True) w /\ leads A w /\ leads B w.
Proof.
  exists (at_end (fun _ _ => true) (elect A ++ [Tick 6000] ++ elect B)).
  split; [by apply (at_end_reachable _ _ _ (fun _ _ _ => I)); vm_compute|].
  split; apply leadsb_true; vm_compute; reflexivity.
Qed.
