(* ===== verification/RpSps.v ===== *)
(** [lib/rpSps.ts]: the visible size of a Remote Play picture and its codec string, read from the
    sequence parameter set (SPS) of an H.264 or HEVC header. Bytes are integers below 256; the bit
    reader [Bits] is a state and error monad over a byte array ([None]: the reader threw), whose
    positions stay below 2^31, so [>>] on them is a division. *)
From S2P Require Import Prelude.

Record VisibleRect := { x : Z; y : Z; w : Z; h : Z }.
#[export] Instance rect_eq_dec : EqDecision VisibleRect.
Proof. solve_decision. Defined.

(** * NAL units *)

(** The loop of [rbsp]: [zeros] counted so far. *)
Fixpoint rbsp_go (zeros : Z) (nal : list Z) : list Z :=
  match nal with
  | [] => []
  | b :: nal' =>
      if (2 <=? zeros) && (b =? 3) then rbsp_go 0 nal'
      else b :: rbsp_go (if b =? 0 then zeros + 1 else 0) nal'
  end.
Definition rbsp (nal : list Z) : list Z := rbsp_go 0 nal.

(** Where each start code of [stream] ends, [i] bytes into it. *)
Fixpoint starts_from (i : nat) (stream : list Z) : list nat :=
  match stream with
  | a :: ((b :: c :: rest2) as rest) =>
      if (a =? 0) && (b =? 0) && (c =? 1) then (i + 3)%nat :: starts_from (i + 3) rest2
      else starts_from (S i) rest
  | _ => []
  end.
(** [while (end > s && stream[end - 1] === 0) end--]. *)
Fixpoint trim (stream : list Z) (s stop : nat) : nat :=
  match stop with
  | O => O
  | S stop' => if (s <? stop)%nat && (stream !!! stop' =? 0) then trim stream s stop' else stop
  end.
Definition subarray (stream : list Z) (s stop : nat) : list Z := take (stop - s) (drop s stream).
(** [starts.map(...)]. *)
Fixpoint cut (stream : list Z) (starts : list nat) : list (list Z) :=
  match starts with
  | [] => []
  | s :: later =>
      let stop := match later with s' :: _ => (s' - 3)%nat | [] => length stream end in
      subarray stream s (trim stream s stop) :: cut stream later
  end.
Definition nals (stream : list Z) : list (list Z) := cut stream (starts_from 0 stream).

(** * The bit reader *)

Definition Bits (A : Type) : Type := list Z -> nat -> option (A * nat).
Definition ret {A} (a : A) : Bits A := fun _ pos => Some (a, pos).
Definition throw {A} : Bits A := fun _ _ => None.
Definition bind {A B} (p : Bits A) (k : A -> Bits B) : Bits B := fun b pos =>
  match p b pos with Some (a, pos') => k a b pos' | None => None end.

Declare Scope bits_scope.
Delimit Scope bits_scope with bits.
Notation "x <- p ;; k" := (bind p (fun x => k)) (at level 100, p at next level, right associativity) : bits_scope.
Notation "p ;; k" := (bind p (fun _ => k)) (at level 100, right associativity) : bits_scope.
#[local] Open Scope bits_scope.

Definition bit : Bits Z := fun b pos =>
  match b !! (pos / 8)%nat with
  | Some byte => Some (Z.land (Z.shiftr byte (7 - Z.of_nat (pos mod 8))) 1, S pos)
  | None => None (* SPS ended early *)
  end.
Fixpoint u_from (v : Z) (n : nat) : Bits Z :=
  match n with O => ret v | S n => d <- bit ;; u_from (v * 2 + d) n end.
Definition u (n : nat) : Bits Z := u_from 0 n.
Definition skip (n : nat) : Bits unit := fun b pos =>
  if (length b * 8 <? pos + n)%nat then None else Some (tt, (pos + n)%nat).

(** The leading zeros of an Exp-Golomb code; [allowed] more are allowed. *)
Fixpoint ue_zeros (allowed : nat) (zeros : nat) : Bits nat :=
  d <- u 1 ;;
  if d =? 0 then match allowed with O => throw | S allowed => ue_zeros allowed (S zeros) end
  else ret zeros.
Definition ue : Bits Z :=
  zeros <- ue_zeros 31 0 ;; v <- u zeros ;; ret (2 ^ Z.of_nat zeros - 1 + v).
Definition se : Bits Z := k <- ue ;; ret (if k mod 2 =? 1 then (k + 1) / 2 else - (k / 2)).

Definition flag : Bits bool := d <- u 1 ;; ret (d =? 1).
Definition when {A} (c : bool) (d : A) (p : Bits A) : Bits A := if c then p else ret d.

(** * HEVC *)

Fixpoint sub_layer_flags (n : nat) : Bits (list (bool * bool)) :=
  match n with
  | O => ret []
  | S n => p <- flag ;; l <- flag ;; more <- sub_layer_flags n ;; ret ((p, l) :: more)
  end.
Fixpoint skip_times (times n : nat) : Bits unit :=
  match times with O => ret tt | S times => skip n ;; skip_times times n end.
Fixpoint skip_sub_layers (flags : list (bool * bool)) : Bits unit :=
  match flags with
  | [] => ret tt
  | (p, l) :: flags =>
      when p tt (skip 88) ;; when l tt (skip 8) ;; skip_sub_layers flags
  end.

Definition hevcSps : Bits VisibleRect :=
  skip 16 ;; skip 4 ;;
  maxSubLayersMinus1 <- u 3 ;;
  skip 1 ;;
  skip 96 ;;
  flags <- sub_layer_flags (Z.to_nat maxSubLayersMinus1) ;;
  when (0 <? maxSubLayersMinus1) tt (skip_times (8 - Z.to_nat maxSubLayersMinus1) 2) ;;
  skip_sub_layers flags ;;
  ue ;;
  chroma <- ue ;;
  separate <- when (chroma =? 3) false flag ;;
  width <- ue ;;
  height <- ue ;;
  let subW := if negb separate && ((chroma =? 1) || (chroma =? 2)) then 2 else 1 in
  let subH := if negb separate && (chroma =? 1) then 2 else 1 in
  crop <- u 1 ;;
  if crop =? 0 then ret {| x := 0; y := 0; w := width; h := height |}
  else
    l <- ue ;; r <- ue ;; t <- ue ;; bt <- ue ;;
    ret {| x := subW * l; y := subH * t;
           w := width - subW * (l + r); h := height - subH * (t + bt) |}.

(** * H.264 *)

Definition AVC_HIGH_PROFILES : list Z := [100; 110; 122; 244; 44; 83; 86; 118; 128; 138; 139; 134; 135].

(** One scaling list of [size] entries; [%] keeps its dividend's sign. *)
Fixpoint scaling_list (size : nat) (last next : Z) : Bits unit :=
  match size with
  | O => ret tt
  | S size =>
      next' <- (if negb (next =? 0) then d <- se ;; ret (Z.rem (last + d + 256) 256) else ret next) ;;
      scaling_list size (if next' =? 0 then last else next') next'
  end.
Definition list_size (i : nat) : nat := if (i <? 6)%nat then 16 else 64.
(** The lists from the [i]th on, [n] of them. *)
Fixpoint scaling_lists (n i : nat) : Bits unit :=
  match n with
  | O => ret tt
  | S n =>
      present <- u 1 ;;
      when (negb (present =? 0)) tt (scaling_list (list_size i) 8 8) ;;
      scaling_lists n (S i)
  end.

(** [for (let i = 0; i < n; i++) r.se()]. A reader past its end throws, so more rounds than bits are
    never reached: [fuel] is one more than the array has bits ([se_loop_spec]). *)
Fixpoint se_loop (fuel : nat) (n : Z) : Bits unit :=
  if n <=? 0 then ret tt else
  match fuel with O => throw | S fuel => se ;; se_loop fuel (n - 1) end.
Definition se_times (n : Z) : Bits unit := fun b pos => se_loop (S (length b * 8)) n b pos.

Definition high_profile : Bits (Z * bool) :=
  chroma <- ue ;;
  separate <- when (chroma =? 3) false flag ;;
  ue ;; ue ;; skip 1 ;;
  scaling <- flag ;;
  when scaling tt (scaling_lists (if negb (chroma =? 3) then 8 else 12) 0) ;;
  ret (chroma, separate).
Definition pic_order : Bits unit :=
  pocType <- ue ;;
  if pocType =? 0 then ue ;; ret tt
  else if pocType =? 1 then skip 1 ;; se ;; se ;; n <- ue ;; se_times n
  else ret tt.

Definition avcSps : Bits VisibleRect :=
  skip 8 ;;
  profileIdc <- u 8 ;;
  skip 16 ;;
  ue ;;
  cs <- when (bool_decide (profileIdc ∈ AVC_HIGH_PROFILES)) (1, false) high_profile ;;
  let '(chroma, separate) := cs in
  ue ;;
  pic_order ;;
  ue ;;
  skip 1 ;;
  mbsW <- (v <- ue ;; ret (v + 1)) ;;
  mapH <- (v <- ue ;; ret (v + 1)) ;;
  frameMbsOnly <- u 1 ;;
  when (frameMbsOnly =? 0) tt (skip 1) ;;
  skip 1 ;;
  let width := mbsW * 16 in
  let height := (2 - frameMbsOnly) * mapH * 16 in
  crop <- u 1 ;;
  if crop =? 0 then ret {| x := 0; y := 0; w := width; h := height |}
  else
    let arrayType := if (separate : bool) then 0 else chroma in
    let cropX := if arrayType =? 0 then 1 else if arrayType =? 3 then 1 else 2 in
    let cropY := (if arrayType =? 0 then 1 else if arrayType =? 1 then 2 else 1) * (2 - frameMbsOnly) in
    l <- ue ;; r <- ue ;; t <- ue ;; bt <- ue ;;
    ret {| x := cropX * l; y := cropY * t;
           w := width - cropX * (l + r); h := height - cropY * (t + bt) |}.

(** * The header *)

Definition is_sps (hevc : bool) (nal : list Z) : bool :=
  if hevc then Z.land (Z.shiftr (nal !!! 0%nat) 1) 63 =? 33 else Z.land (nal !!! 0%nat) 31 =? 7.

Fixpoint first_sps (hevc : bool) (l : list (list Z)) : option VisibleRect :=
  match l with
  | [] => None
  | nal :: l =>
      if (length nal <? 2)%nat || negb (is_sps hevc nal) then first_sps hevc l
      else
        match (if hevc then hevcSps else avcSps) (rbsp nal) 0%nat with
        | Some (v, _) => if (0 <? w v) && (0 <? h v) && (0 <=? x v) && (0 <=? y v) then Some v else None
        | None => None
        end
  end.
Definition spsVisibleRect (header : list Z) (hevc : bool) : option VisibleRect := first_sps hevc (nals header).

Record Frame := { codedWidth : Z; codedHeight : Z; visibleRect : option (Z * Z) }.
Definition visibleFix (frame : Frame) (sps : option VisibleRect) : option VisibleRect :=
  match sps, visibleRect frame with
  | Some sps, Some (vw, vh) =>
      if (w sps - 16 <=? vw) && (h sps - 16 <=? vh) then None
      else if (codedWidth frame <? x sps + w sps) || (codedHeight frame <? y sps + h sps) then None
      else Some sps
  | _, _ => None
  end.

(** [n.toString(16).toUpperCase()] of a number below 2^64. *)
Definition hex_digit (upper : bool) (d : Z) : ascii :=
  ascii_of_nat (Z.to_nat (if d <? 10 then 48 + d else (if upper then 55 else 87) + d)).
Fixpoint hex_from (upper : bool) (fuel : nat) (n : Z) (acc : str) : str :=
  let acc := hex_digit upper (n mod 16) :: acc in
  match fuel with
  | O => acc
  | S fuel => if n <? 16 then acc else hex_from upper fuel (n / 16) acc
  end.
Definition to_hex (upper : bool) (n : Z) : str := hex_from upper 15 n [].

Fixpoint read_each {A} (p : nat -> Bits A) (n i : nat) : Bits (list A) :=
  match n with O => ret [] | S n => a <- p i ;; more <- read_each p n (S i) ;; ret (a :: more) end.
Definition sum_of (l : list Z) : Z := foldr Z.add 0 l.
(** [while (constraint.length > 1 && last === 0) constraint.pop()]. *)
Fixpoint pop_rev (l : list Z) : list Z :=
  match l with
  | z :: ((_ :: _) as rest) => if z =? 0 then pop_rev rest else l
  | _ => l
  end.
Definition pop_zeros (l : list Z) : list Z := reverse (pop_rev (reverse l)).
Definition space_tag (space : Z) : str :=
  if space =? 1 then js "A" else if space =? 2 then js "B" else if space =? 3 then js "C" else [].

Definition codec_fields : Bits str :=
  skip 16 ;; skip 8 ;;
  space <- u 2 ;; tier <- u 1 ;; profile <- u 5 ;;
  compat <- read_each (fun i => d <- u 1 ;; ret (d * 2 ^ Z.of_nat i)) 32 0 ;;
  constraint <- read_each (fun _ => u 8) 6 0 ;;
  level <- u 8 ;;
  ret (js "hev1." ++ space_tag space ++ num profile ++ js "." ++ to_hex true (sum_of compat) ++ js "." ++
       (if tier =? 0 then js "L" else js "H") ++ num level ++ js "." ++
       join_with (js ".") (to_hex true <$> pop_zeros constraint)).
Fixpoint first_codec (l : list (list Z)) : option str :=
  match l with
  | [] => None
  | nal :: l =>
      if (length nal <? 2)%nat || negb (is_sps true nal) then first_codec l
      else fst <$> codec_fields (rbsp nal) 0%nat
  end.
Definition hevcCodecString (header : list Z) : option str := first_codec (nals header).
