(* ===== verification/NalUnits.v ===== *)
(** The NAL layer of [lib/rpSps.ts] against the standard's encoder (ITU-T H.264 7.4.1 and Annex B):
    the reader undoes emulation prevention and finds exactly the units of a stream, whatever zero
    bytes stand between them. *)
From S2P Require Import Prelude RpSps.

(** * Emulation prevention *)

(** The encoder: a 3 before every byte up to 3 that two zeros precede. *)
Fixpoint escape_go (zeros : Z) (l : list Z) : list Z :=
  match l with
  | [] => []
  | b :: l =>
      if (2 <=? zeros) && (b <=? 3) then 3 :: b :: escape_go (if b =? 0 then 1 else 0) l
      else b :: escape_go (if b =? 0 then zeros + 1 else 0) l
  end.
Definition escape (l : list Z) : list Z := escape_go 0 l.

Lemma rbsp_escape_go z l : 0 <= z -> rbsp_go z (escape_go z l) = l.
Proof.
  revert z. induction l as [|b l IH]; intros z Hz; [done|]. cbn [escape_go].
  destruct (2 <=? z) eqn:E2; cbn [andb].
  - destruct (b <=? 3) eqn:E3; cbn [rbsp_go]; rewrite E2.
    + cbn [andb Z.eqb Pos.eqb]. rewrite andb_false_l. f_equal. destruct (b =? 0); by rewrite IH.
    + rewrite (proj2 (Z.eqb_neq b 3)) by (bool_prop; lia). cbn [andb]. f_equal.
      destruct (b =? 0); rewrite IH; [done|lia|done|lia].
  - cbn [rbsp_go]. rewrite E2. cbn [andb]. f_equal. destruct (b =? 0); rewrite IH; [done|lia|done|lia].
Qed.

(** ** No start code inside *)

(** No 00 00 01 in [l] after [z] zeros. *)
Fixpoint clean_from (z : Z) (l : list Z) : bool :=
  match l with
  | [] => true
  | b :: l => negb ((2 <=? z) && (b =? 1)) && clean_from (if b =? 0 then z + 1 else 0) l
  end.

Lemma escape_clean z l : 0 <= z -> clean_from z (escape_go z l) = true.
Proof.
  revert z. induction l as [|b l IH]; intros z Hz; [done|]. cbn [escape_go].
  destruct (2 <=? z) eqn:E2; cbn [andb].
  - destruct (b <=? 3) eqn:E3; cbn [clean_from]; rewrite E2.
    + cbn. destruct (b =? 0); cbn; by rewrite IH.
    + rewrite (proj2 (Z.eqb_neq b 1)) by (bool_prop; lia). cbn [andb negb].
      destruct (b =? 0); rewrite IH; [done|lia|done|lia].
  - cbn [clean_from]. rewrite E2. cbn [andb negb]. destruct (b =? 0); rewrite IH; [done|lia|done|lia].
Qed.

Lemma escape_last z l : last (escape_go z l) = last l.
Proof.
  revert z. induction l as [|b l IH]; intros z; [done|]. cbn [escape_go].
  assert (forall z', last (b :: escape_go z' l) = last (b :: l)) as H.
  { intros z'. specialize (IH z'). destruct l as [|c l]; [done|].
    rewrite (last_cons_cons b c l), <- IH. cbn [escape_go]. by destruct (_ && _). }
  destruct (_ && _); [|apply H]. rewrite last_cons_cons. apply H.
Qed.

(** A NAL unit as a stream carries it: no start code inside, no zero byte at its end. *)
Definition unit_ok (n : list Z) : Prop := clean_from 0 n = true /\ exists b, last n = Some b /\ b <> 0.

Lemma clean_step z a l : 0 <= z -> clean_from z (a :: l) = true -> exists z', 0 <= z' /\ clean_from z' l = true.
Proof.
  cbn [clean_from]. intros Hz [_ H]%andb_true_iff. eexists. split; [|exact H]. destruct (a =? 0); lia.
Qed.
Lemma clean_no_code z l : 0 <= z -> clean_from z (0 :: 0 :: 1 :: l) = false.
Proof.
  intros Hz. cbn [clean_from Z.eqb]. rewrite (proj2 (Z.leb_le 2 (z + 1 + 1))) by lia.
  cbn [andb negb Z.eqb Pos.eqb]. by rewrite !andb_false_r.
Qed.

(** The search passes over a unit. *)
Lemma starts_unit z n i tail b :
  0 <= z -> clean_from z n = true -> last n = Some b -> b <> 0 ->
  starts_from i (n ++ tail) = starts_from (i + length n) tail.
Proof.
  revert z i. induction n as [|a n IH]; intros z i Hz Hc Hl Hb; [done|].
  assert (starts_from i ((a :: n) ++ tail) = starts_from (S i) (n ++ tail)) as ->.
  { cbn [app starts_from].
    destruct n as [|b2 n]; [injection Hl as ->; destruct tail as [|? [|? ?]]; try done;
      by rewrite (proj2 (Z.eqb_neq b 0) Hb)|].
    destruct n as [|c n]; [injection Hl as ->; cbn [app]; destruct tail; [done|];
      by rewrite (proj2 (Z.eqb_neq b 0) Hb), andb_false_r|].
    cbn [app]. destruct ((a =? 0) && (b2 =? 0) && (c =? 1)) eqn:E; [|done]. bool_prop. subst.
    by rewrite clean_no_code in Hc. }
  destruct n as [|b2 n]; [by rewrite Nat.add_1_r|].
  destruct (clean_step z a (b2 :: n) Hz Hc) as (z' & Hz' & Hc').
  rewrite (IH z' (S i)); [f_equal; simpl; lia|done..].
Qed.

(** * Annex B *)

(** A stream: every unit behind a start code of three or more bytes, zeros after the last. *)
Fixpoint annexB (l : list (nat * list Z)) (zeros : nat) : list Z :=
  match l with
  | [] => replicate zeros 0
  | (k, n) :: l => replicate k 0 ++ [0; 0; 1] ++ n ++ annexB l zeros
  end.

Lemma starts_code k i tail : starts_from i (replicate k 0 ++ [0; 0; 1] ++ tail) = (i + k + 3)%nat :: starts_from (i + k + 3) tail.
Proof.
  revert i. induction k as [|k IH]; intros i; [by rewrite Nat.add_0_r|].
  assert (starts_from i (replicate (S k) 0 ++ [0; 0; 1] ++ tail) = starts_from (S i) (replicate k 0 ++ [0; 0; 1] ++ tail)) as ->.
  { destruct k as [|[|k]]; reflexivity. }
  rewrite IH. do 2 f_equal; lia.
Qed.
Lemma starts_zeros i k : starts_from i (replicate k 0) = [].
Proof.
  revert i. induction k as [|k IH]; intros i; [done|].
  destruct k as [|[|k]]; [done..|]. exact (IH (S i)).
Qed.

(** The zeros before the next start code, or the end, are not part of the unit. *)
Lemma trim_zeros pre j rest s :
  (s < length pre)%nat -> (exists b, last pre = Some b /\ b <> 0) ->
  trim (pre ++ replicate j 0 ++ rest) s (length pre + j) = length pre.
Proof.
  intros Hs (b & Hl & Hb). revert rest. induction j as [|j IH]; intros rest.
  - rewrite Nat.add_0_r. apply last_Some in Hl as [pre' ->]. rewrite length_app in *. simpl in *.
    rewrite Nat.add_1_r. cbn [trim].
    rewrite list_lookup_total_alt, <- app_assoc, lookup_app_r by lia. rewrite Nat.sub_diag. simpl.
    by rewrite (proj2 (Z.eqb_neq b 0) Hb), andb_false_r.
  - rewrite Nat.add_succ_r. cbn [trim].
    assert ((pre ++ replicate (S j) 0 ++ rest) !!! (length pre + j)%nat = 0) as ->.
    { rewrite list_lookup_total_alt, lookup_app_r by lia.
      replace (length pre + j - length pre)%nat with j by lia.
      rewrite lookup_app_l by (rewrite length_replicate; lia).
      by rewrite lookup_replicate_2 by lia. }
    rewrite (proj2 (Nat.ltb_lt s _)) by lia. cbn [andb Z.eqb]. 
    replace (replicate (S j) 0 ++ rest) with (replicate j 0 ++ 0 :: rest); [apply (IH (0 :: rest))|].
    by rewrite replicate_S_end, <- app_assoc.
Qed.

Lemma subarray_app (pre n post : list Z) s :
  s = length pre -> subarray (pre ++ n ++ post) s (length (pre ++ n)) = n.
Proof.
  intros ->. unfold subarray. rewrite drop_app_length, length_app.
  replace (length pre + length n - length pre)%nat with (length n) by lia. apply take_app_length.
Qed.

Lemma cut_annexB pre l zeros :
  Forall (fun e => unit_ok e.2) l ->
  cut (pre ++ annexB l zeros) (starts_from (length pre) (annexB l zeros)) = snd <$> l.
Proof.
  revert pre. induction l as [|[k n] l IH]; intros pre Hl; cbn [annexB].
  { by rewrite starts_zeros. }
  apply Forall_cons in Hl as [(Hc & b & Hb & Hne) Hl]. cbn [snd] in *. rewrite starts_code.
  set (lead := replicate k 0 ++ [0; 0; 1]).
  assert (length (pre ++ lead) = length pre + k + 3)%nat as Hlead.
  { unfold lead. rewrite !length_app, length_replicate. simpl. lia. }
  rewrite <- Hlead. rewrite (starts_unit 0 n _ _ b) by done. rewrite <- length_app.
  set (pre' := (pre ++ lead) ++ n).
  replace (pre ++ replicate k 0 ++ [0; 0; 1] ++ n ++ annexB l zeros) with (pre' ++ annexB l zeros)
    by (unfold pre', lead; by rewrite <- !app_assoc).
  cbn [cut]. rewrite IH by done. rewrite fmap_cons. f_equal.
  assert (n <> []) as Hn by (intros ->; done).
  assert (exists j rest, annexB l zeros = replicate j 0 ++ rest /\
            match starts_from (length pre') (annexB l zeros) with
            | s' :: _ => (s' - 3)%nat | [] => length (pre' ++ annexB l zeros) end = (length pre' + j)%nat)
    as (j & rest & -> & ->).
  { destruct l as [|[k' n'] l']; cbn [annexB].
    - exists zeros, []. rewrite app_nil_r, starts_zeros, length_app, length_replicate. done.
    - exists k', ([0; 0; 1] ++ n' ++ annexB l' zeros). rewrite starts_code. split; [done|lia]. }
  rewrite trim_zeros.
  - unfold pre'. rewrite <- (app_assoc (pre ++ lead)). by apply subarray_app.
  - unfold pre'. rewrite (length_app _ n). destruct n; [done|]. simpl. lia.
  - exists b. split; [|done]. unfold pre'. apply last_Some in Hb as [n0 ->]. by rewrite app_assoc, last_snoc.
Qed.

(** Reading a stream gives back its units. *)
Lemma nals_annexB l zeros : Forall (fun e => unit_ok e.2) l -> nals (annexB l zeros) = snd <$> l.
Proof. exact (cut_annexB [] l zeros). Qed.

(** ** Whole units: a payload escaped *)

Definition payload_ok (p : list Z) : Prop := exists b, last p = Some b /\ b <> 0.
Definition as_stream (l : list (nat * list Z)) (zeros : nat) : list Z :=
  annexB ((fun e => (e.1, escape e.2)) <$> l) zeros.

Lemma escape_ok p : payload_ok p -> unit_ok (escape p).
Proof. intros H. split; [by apply escape_clean|]. unfold escape. by rewrite escape_last. Qed.

(** Whatever a header holds comes back: the payloads of a stream, escaped against start codes and
    put behind start codes with any number of zero bytes between and after them, are exactly what
    the reader finds and unescapes. *)
Theorem stream_comes_back l zeros :
  Forall (fun e => payload_ok e.2) l -> rbsp <$> nals (as_stream l zeros) = snd <$> l.
Proof.
  intros H. unfold as_stream. rewrite nals_annexB.
  - rewrite <- !list_fmap_compose. apply list_fmap_ext. intros _ [k p] _. by apply rbsp_escape_go.
  - apply Forall_fmap. eapply Forall_impl; [exact H|]. intros [k p]. apply escape_ok.
Qed.

Lemma stream_comes_back_witness :
  rbsp <$> nals (as_stream [(1%nat, [103; 0; 0; 0; 1; 3]); (0%nat, [104; 0; 0; 3; 128])] 2) =
  [[103; 0; 0; 0; 1; 3]; [104; 0; 0; 3; 128]].
Proof.
  apply (stream_comes_back [(1%nat, [103; 0; 0; 0; 1; 3]); (0%nat, [104; 0; 0; 3; 128])] 2).
  repeat constructor; eexists; split; reflexivity || discriminate.
Defined.
