(* ===== verification/SpsSyntax.v ===== *)
(** The parameter sets as the standards write them (ITU-T H.264 7.3.2.1.1, H.265 7.3.2.2.1): the bit
    coding of each syntax element, the two syntax tables as writers, and the proof that the readers
    of [lib/rpSps.ts] invert them. [reads p bits a]: wherever the bits stand in a byte array, [p]
    consumes exactly them and answers [a]. *)
From S2P Require Import Prelude RpSps NalUnits.
#[local] Open Scope bits_scope.

(** * Bits of bytes *)

Definition byte_bits (b : Z) : list bool := Z.testbit b <$> [7; 6; 5; 4; 3; 2; 1; 0].
Fixpoint bits_of (l : list Z) : list bool :=
  match l with [] => [] | b :: l => byte_bits b ++ bits_of l end.

Lemma length_bits_of l : length (bits_of l) = (length l * 8)%nat.
Proof. induction l as [|b l IH]; [done|]. cbn [bits_of]. rewrite length_app, IH. simpl. lia. Qed.

Lemma bits_of_lookup l pos :
  bits_of l !! pos = (fun b => Z.testbit b (7 - Z.of_nat (pos mod 8))) <$> l !! (pos / 8)%nat.
Proof.
  revert pos. induction l as [|b l IH]; intros pos; [done|]. cbn [bits_of].
  destruct (Nat.lt_ge_cases pos 8) as [H|H].
  - rewrite lookup_app_l by (simpl; lia). rewrite Nat.div_small, Nat.mod_small by done. cbn [lookup list_lookup].
    do 8 (destruct pos as [|pos]; [reflexivity|]). lia.
  - rewrite lookup_app_r by (simpl; lia). cbn [length byte_bits fmap list_fmap]. rewrite IH.
    assert (exists q, pos = (q + 1 * 8)%nat) as [q ->] by (exists (pos - 8)%nat; lia).
    rewrite Nat.div_add, Nat.Div0.mod_add, Nat.add_1_r by lia.
    by replace (q + 1 * 8 - 8)%nat with q by lia.
Qed.

Lemma bit_spec l pos :
  bit l pos = match bits_of l !! pos with Some d => Some (Z.b2z d, S pos) | None => None end.
Proof.
  unfold bit. rewrite bits_of_lookup. destruct (l !! (pos / 8)%nat) as [b|]; [|done]. simpl.
  do 2 f_equal. rewrite (Z.land_ones _ 1) by lia.
  pose proof (Nat.mod_upper_bound pos 8 ltac:(lia)).
  rewrite Z.shiftr_div_pow2, Z.testbit_spec' by lia. done.
Qed.

(** * Readers and the bits they read *)

Definition reads {A} (p : Bits A) (bits : list bool) (a : A) : Prop :=
  forall l pos rest, drop pos (bits_of l) = bits ++ rest -> p l pos = Some (a, (pos + length bits)%nat).

Create HintDb reads.

Lemma reads_ret {A} (a : A) : reads (ret a) [] a.
Proof. intros l pos rest _. simpl. by rewrite Nat.add_0_r. Qed.

Lemma reads_bind {A B} (p : Bits A) (k : A -> Bits B) bs a cs b :
  reads p bs a -> reads (k a) cs b -> reads (bind p k) (bs ++ cs) b.
Proof.
  intros Hp Hk l pos rest H. unfold bind. rewrite <- app_assoc in H. rewrite (Hp l pos (cs ++ rest) H).
  rewrite (Hk l (pos + length bs)%nat rest).
  - by rewrite length_app, Nat.add_assoc.
  - rewrite <- drop_drop, H. apply drop_app_length.
Qed.
Lemma reads_bind_last {A B} (p : Bits A) (k : A -> Bits B) bs a b :
  reads p bs a -> reads (k a) [] b -> reads (bind p k) bs b.
Proof. intros Hp Hk. rewrite <- (app_nil_r bs). by eapply reads_bind. Qed.
Lemma reads_bind_none {A B} (p : Bits A) (k : A -> Bits B) a cs b :
  reads p [] a -> reads (k a) cs b -> reads (bind p k) cs b.
Proof. exact (reads_bind p k [] a cs b). Qed.

Lemma drop_cons_inv {A} (m : list A) pos d rest :
  drop pos m = d :: rest -> m !! pos = Some d /\ drop (S pos) m = rest.
Proof.
  intros H. split.
  - rewrite <- (Nat.add_0_r pos), <- lookup_drop, H. done.
  - rewrite <- Nat.add_1_r, <- drop_drop, H. done.
Qed.

Lemma reads_bit d : reads bit [d] (Z.b2z d).
Proof.
  intros l pos rest [H _]%drop_cons_inv. rewrite bit_spec, H. simpl. by rewrite Nat.add_1_r.
Qed.

(** The number [n] bits write, most significant first. *)
Definition value_from (v : Z) (bits : list bool) : Z := foldl (fun v d => v * 2 + Z.b2z d) v bits.
Fixpoint bin (n : nat) (v : Z) : list bool :=
  match n with O => [] | S n => Z.testbit v (Z.of_nat n) :: bin n v end.

Lemma length_bin n v : length (bin n v) = n.
Proof. induction n as [|n IH]; [done|]. simpl. by rewrite IH. Qed.

Lemma value_bin n v a : value_from a (bin n v) = a * 2 ^ Z.of_nat n + v mod 2 ^ Z.of_nat n.
Proof.
  revert a. induction n as [|n IH]; intros a.
  { simpl. rewrite Z.mod_1_r. lia. }
  cbn [bin]. unfold value_from in *. cbn [foldl]. rewrite IH, Nat2Z.inj_succ, Z.pow_succ_r by lia.
  rewrite Z.testbit_spec' by lia. set (p := 2 ^ Z.of_nat n).
  assert (0 < p) by (apply Z.pow_pos_nonneg; lia).
  rewrite (Z.mul_comm 2 p), Z.rem_mul_r by lia. lia.
Qed.

Lemma reads_u_from bits v : reads (u_from v (length bits)) bits (value_from v bits).
Proof.
  revert v. induction bits as [|d bits IH]; intros v; [apply reads_ret|].
  apply (reads_bind bit _ [d] (Z.b2z d)); [apply reads_bit|apply IH].
Qed.
Lemma reads_u n v : 0 <= v < 2 ^ Z.of_nat n -> reads (u n) (bin n v) v.
Proof.
  intros H. pose proof (reads_u_from (bin n v) 0) as R. rewrite length_bin, value_bin, Z.mod_small in R by done. exact R.
Qed.
Lemma reads_u1 (d : bool) : reads (u 1) [d] (Z.b2z d).
Proof. destruct d; [apply (reads_u_from [true] 0)|apply (reads_u_from [false] 0)]. Qed.
Lemma reads_flag (d : bool) : reads flag [d] d.
Proof. eapply reads_bind_last; [apply reads_u1|]. destruct d; apply reads_ret. Qed.

Lemma reads_skip n bits : length bits = S n -> reads (skip (S n)) bits tt.
Proof.
  intros E l pos rest H. unfold skip. rewrite <- length_bits_of, <- E.
  apply (f_equal length) in H. rewrite length_drop, length_app in H.
  destruct (Nat.ltb_spec (length (bits_of l)) (pos + length bits)); [lia|done].
Qed.

(** ** Exp-Golomb codes (9.1) *)

(** [ue(v)]: as many zeros as [v + 1] has bits after its first, then [v + 1]. *)
Definition ue_bits (v : Z) : list bool :=
  let z := Z.to_nat (Z.log2 (v + 1)) in replicate z false ++ bin (S z) (v + 1).
(** [se(v)]: 1, -1, 2, -2, ... are coded 1, 2, 3, 4, ... *)
Definition se_code (v : Z) : Z := if 0 <? v then 2 * v - 1 else - 2 * v.
Definition se_bits (v : Z) : list bool := ue_bits (se_code v).

Definition ue_ok (v : Z) : Prop := 0 <= v < 2 ^ 32 - 1.
Definition se_ok (v : Z) : Prop := - 2 ^ 31 < v < 2 ^ 31.

Lemma reads_ue_zeros z allowed zeros :
  (z <= allowed)%nat -> reads (ue_zeros allowed zeros) (replicate z false ++ [true]) (zeros + z)%nat.
Proof.
  revert allowed zeros. induction z as [|z IH]; intros allowed zeros H.
  - rewrite Nat.add_0_r. destruct allowed; (eapply reads_bind_last; [apply (reads_u1 true)|apply reads_ret]).
  - destruct allowed as [|allowed]; [lia|]. cbn [ue_zeros replicate app].
    apply (reads_bind _ _ [false] (Z.b2z false)); [apply reads_u1|]. cbn.
    rewrite <- Nat.add_succ_comm. apply IH. lia.
Qed.

Lemma reads_ue v : ue_ok v -> reads ue (ue_bits v) v.
Proof.
  intros [H0 H1]. unfold ue, ue_bits. set (z := Z.to_nat (Z.log2 (v + 1))).
  assert (Z.of_nat z = Z.log2 (v + 1)) as Hz by (unfold z; pose proof (Z.log2_nonneg (v + 1)); lia).
  assert (Z.log2 (v + 1) < 32) as Hlt by (apply Z.log2_lt_pow2; lia).
  pose proof (Z.log2_spec (v + 1) ltac:(lia)) as [Hlo Hhi]. rewrite <- Hz in Hlt, Hlo, Hhi.
  rewrite Z.pow_succ_r in Hhi by lia.
  cbn [bin]. rewrite Hz, Z.bit_log2 by lia.
  change (true :: bin z (v + 1)) with ([true] ++ bin z (v + 1)). rewrite app_assoc.
  eapply reads_bind; [apply (reads_ue_zeros z 31 0); lia|]. cbn [Nat.add].
  pose proof (reads_u_from (bin z (v + 1)) 0) as R. rewrite length_bin, value_bin in R.
  eapply reads_bind_last; [exact R|].
  replace (2 ^ Z.of_nat z - 1 + (0 * 2 ^ Z.of_nat z + (v + 1) mod 2 ^ Z.of_nat z)) with v; [apply reads_ret|].
  assert ((v + 1) mod 2 ^ Z.of_nat z = v + 1 - 2 ^ Z.of_nat z); [|lia].
  symmetry. apply (Z.mod_unique_pos _ _ 1); lia.
Qed.

Lemma reads_se v : se_ok v -> reads se (se_bits v) v.
Proof.
  intros H. unfold se_ok in H. unfold se, se_bits. eapply reads_bind_last.
  - apply reads_ue. unfold ue_ok, se_code. destruct (Z.ltb_spec 0 v); lia.
  - replace (if se_code v mod 2 =? 1 then (se_code v + 1) / 2 else - (se_code v / 2)) with v; [apply reads_ret|].
    unfold se_code. destruct (Z.ltb_spec 0 v).
    + replace (2 * v - 1) with (1 + (v - 1) * 2) by lia. rewrite Z.mod_add by lia. cbn.
      replace (1 + (v - 1) * 2 + 1) with (v * 2) by lia. by rewrite Z.div_mul.
    + replace (- 2 * v) with (- v * 2) by lia. rewrite Z.mod_mul, Z.div_mul by lia. cbn. lia.
Qed.
#[export] Hint Resolve reads_ret reads_u reads_u1 reads_flag reads_skip reads_ue reads_se : reads.

(** * The H.264 sequence parameter set *)

Record AvcHigh := {
  chroma_format_idc : Z;
  separate_colour_plane : bool;
  bit_depth_luma : Z;
  bit_depth_chroma : Z;
  qpprime : bool;
  (* one entry per list: the [delta_scale]s of a list that is sent *)
  scaling_matrix : option (list (option (list Z)))
}.
Inductive Poc :=
| Poc0 (log2_max_lsb : Z)
| Poc1 (delta_always_zero : bool) (offset_non_ref offset_top_bottom : Z) (offsets : list Z)
| Poc2.
Record Crop := { crop_left : Z; crop_right : Z; crop_top : Z; crop_bottom : Z }.
Record AvcSyntax := {
  nal_header : Z; profile_idc : Z; constraints_level : Z;
  sps_id : Z;
  high : AvcHigh;          (* sent by the high profiles only *)
  log2_max_frame_num : Z;
  poc : Poc;
  max_num_ref_frames : Z;
  gaps_allowed : bool;
  mbs_width_minus1 : Z; map_units_minus1 : Z;
  frame_mbs_only : bool; mb_adaptive : bool;
  direct_8x8 : bool;
  crop : option Crop
}.

(** The profiles whose sequence parameter sets carry the chroma format (7.3.2.1.1). *)
Definition high_profiles : list Z := [44; 83; 86; 100; 110; 118; 122; 128; 134; 135; 138; 139; 244].
Definition is_high (s : AvcSyntax) : bool := bool_decide (profile_idc s ∈ high_profiles).
Lemma is_high_code s : bool_decide (profile_idc s ∈ AVC_HIGH_PROFILES) = is_high s.
Proof. apply bool_decide_ext. unfold AVC_HIGH_PROFILES, high_profiles. rewrite !elem_of_cons. tauto. Qed.

(** [scaling_list()]: a list is sent up to where it stays as it is. *)
Fixpoint scaling_bits (size : nat) (last next : Z) (deltas : list Z) : list bool :=
  match size with
  | O => []
  | S size =>
      if next =? 0 then [] else
      let d := deltas !!! 0%nat in
      let next' := (last + d + 256) mod 256 in
      se_bits d ++ scaling_bits size (if next' =? 0 then last else next') next' (tail deltas)
  end.
Fixpoint matrix_bits (i : nat) (m : list (option (list Z))) : list bool :=
  match m with
  | [] => []
  | None :: m => [false] ++ matrix_bits (S i) m
  | Some deltas :: m => [true] ++ scaling_bits (list_size i) 8 8 deltas ++ matrix_bits (S i) m
  end.
Definition high_bits (h : AvcHigh) : list bool :=
  ue_bits (chroma_format_idc h) ++
  (if chroma_format_idc h =? 3 then [separate_colour_plane h] else []) ++
  ue_bits (bit_depth_luma h) ++ ue_bits (bit_depth_chroma h) ++ [qpprime h] ++
  match scaling_matrix h with None => [false] | Some m => [true] ++ matrix_bits 0 m end.
Definition poc_bits (p : Poc) : list bool :=
  match p with
  | Poc0 log2 => ue_bits 0 ++ ue_bits log2
  | Poc1 zero a b l =>
      ue_bits 1 ++ [zero] ++ se_bits a ++ se_bits b ++ ue_bits (Z.of_nat (length l)) ++ mjoin (se_bits <$> l)
  | Poc2 => ue_bits 2
  end.
Definition crop_bits (c : Crop) : list bool :=
  ue_bits (crop_left c) ++ ue_bits (crop_right c) ++ ue_bits (crop_top c) ++ ue_bits (crop_bottom c).
Definition avc_bits (s : AvcSyntax) : list bool :=
  bin 8 (nal_header s) ++ bin 8 (profile_idc s) ++ bin 16 (constraints_level s) ++ ue_bits (sps_id s) ++
  (if is_high s then high_bits (high s) else []) ++
  ue_bits (log2_max_frame_num s) ++ poc_bits (poc s) ++ ue_bits (max_num_ref_frames s) ++ [gaps_allowed s] ++
  ue_bits (mbs_width_minus1 s) ++ ue_bits (map_units_minus1 s) ++
  [frame_mbs_only s] ++ (if frame_mbs_only s then [] else [mb_adaptive s]) ++ [direct_8x8 s] ++
  match crop s with None => [false] | Some c => [true] ++ crop_bits c end.

(** The picture it describes (7.4.2.1.1). *)
Definition ChromaArrayType (s : AvcSyntax) : Z :=
  if is_high s then (if separate_colour_plane (high s) then 0 else chroma_format_idc (high s)) else 1.
Definition SubWidthC (c : Z) : Z := if (c =? 1) || (c =? 2) then 2 else 1.
Definition SubHeightC (c : Z) : Z := if c =? 1 then 2 else 1.
Definition cropped (unitX unitY width height : Z) (c : Crop) : VisibleRect :=
  {| x := unitX * crop_left c; y := unitY * crop_top c;
     w := width - unitX * (crop_left c + crop_right c); h := height - unitY * (crop_top c + crop_bottom c) |}.
Definition no_crop : Crop := {| crop_left := 0; crop_right := 0; crop_top := 0; crop_bottom := 0 |}.
Definition avc_picture (s : AvcSyntax) : VisibleRect :=
  let cat := ChromaArrayType s in
  let field := 2 - Z.b2z (frame_mbs_only s) in
  cropped (SubWidthC cat) (SubHeightC cat * field)
    ((mbs_width_minus1 s + 1) * 16) (field * (map_units_minus1 s + 1) * 16) (default no_crop (crop s)).

(** Every element in the range its coding and the standard give it. *)
Definition delta_ok (d : Z) : Prop := -128 <= d <= 127.
Definition high_ok (h : AvcHigh) : Prop :=
  0 <= chroma_format_idc h <= 3 /\ (separate_colour_plane h = true -> chroma_format_idc h = 3) /\
  ue_ok (bit_depth_luma h) /\ ue_ok (bit_depth_chroma h) /\
  forall m, scaling_matrix h = Some m ->
    length m = (if chroma_format_idc h =? 3 then 12%nat else 8%nat) /\
    Forall (fun l => forall deltas, l = Some deltas -> Forall delta_ok deltas) m.
Definition poc_ok (p : Poc) : Prop :=
  match p with
  | Poc0 log2 => ue_ok log2
  | Poc1 _ a b l => se_ok a /\ se_ok b /\ Z.of_nat (length l) <= 255 /\ Forall se_ok l
  | Poc2 => True
  end.
Definition crop_ok (c : Crop) : Prop :=
  ue_ok (crop_left c) /\ ue_ok (crop_right c) /\ ue_ok (crop_top c) /\ ue_ok (crop_bottom c).
Definition avc_ok (s : AvcSyntax) : Prop :=
  0 <= nal_header s < 256 /\ 0 <= profile_idc s < 256 /\ ue_ok (sps_id s) /\
  (is_high s = true -> high_ok (high s)) /\
  ue_ok (log2_max_frame_num s) /\ poc_ok (poc s) /\ ue_ok (max_num_ref_frames s) /\
  ue_ok (mbs_width_minus1 s) /\ ue_ok (map_units_minus1 s) /\
  (forall c, crop s = Some c -> crop_ok c).

(** ** The reader inverts it *)

(** One step of a reader: the next element and the bits it takes. *)
Ltac read_step :=
  first [eapply reads_bind; [solve [eauto with reads]|] | eapply reads_bind_last; [solve [eauto with reads]|]].

Lemma reads_scaling_done size last : reads (scaling_list size last 0) [] tt.
Proof.
  revert last. induction size as [|size IH]; intros last; [apply reads_ret|].
  cbn [scaling_list Z.eqb negb]. eapply reads_bind_none; [apply reads_ret|]. apply IH.
Qed.

Lemma reads_scaling size last next deltas :
  0 <= last < 256 -> Forall delta_ok deltas ->
  reads (scaling_list size last next) (scaling_bits size last next deltas) tt.
Proof.
  revert last next deltas. induction size as [|size IH]; intros last next deltas Hl Hd; [apply reads_ret|].
  cbn [scaling_bits]. destruct (next =? 0) eqn:E.
  { bool_prop. subst. apply reads_scaling_done. }
  cbn [scaling_list]. rewrite E. cbn [negb].
  assert (delta_ok (deltas !!! 0%nat)) as Hd0.
  { destruct Hd as [|d deltas H _]; [|exact H]. unfold delta_ok. cbn. lia. }
  unfold delta_ok in Hd0. eapply reads_bind.
  - eapply reads_bind_last; [apply reads_se; unfold se_ok; lia|]. apply reads_ret.
  - rewrite Z.rem_mod_nonneg by lia.
    pose proof (Z.mod_pos_bound (last + (deltas !!! 0%nat) + 256) 256 ltac:(lia)).
    apply IH; [case_match; lia|by destruct Hd].
Qed.

Lemma reads_matrix m i :
  Forall (fun l => forall deltas, l = Some deltas -> Forall delta_ok deltas) m ->
  reads (scaling_lists (length m) i) (matrix_bits i m) tt.
Proof.
  intros H. revert i. induction H as [|l m Hl _ IH]; intros i; [apply reads_ret|].
  cbn [length scaling_lists matrix_bits]. destruct l as [deltas|].
  - read_step. cbn. eapply reads_bind; [apply reads_scaling; [lia|auto]|]. apply IH.
  - read_step. cbn. eapply reads_bind_none; [apply reads_ret|]. apply IH.
Qed.

Lemma reads_when_false {A} (d : A) p : reads (when false d p) [] d.
Proof. apply reads_ret. Qed.

Lemma reads_separate c (s : bool) :
  (s = true -> c = 3) -> reads (when (c =? 3) false flag) (if c =? 3 then [s] else []) s.
Proof.
  intros H. destruct (c =? 3) eqn:E; [apply reads_flag|]. bool_prop.
  destruct s; [by destruct E; apply H|apply reads_when_false].
Qed.

Lemma reads_high h : high_ok h ->
  reads high_profile (high_bits h) (chroma_format_idc h, separate_colour_plane h).
Proof.
  intros (Hc & Hs & Hl & Hcr & Hm). unfold high_profile, high_bits.
  eapply reads_bind; [apply reads_ue; unfold ue_ok; lia|].
  eapply reads_bind; [by apply reads_separate|].
  do 2 read_step. eapply reads_bind; [by apply reads_skip|].
  destruct (scaling_matrix h) as [m|].
  - read_step. cbn [when]. destruct (Hm m eq_refl) as [Hlen Hall].
    replace (if negb (chroma_format_idc h =? 3) then 8%nat else 12%nat) with (length m)
      by (rewrite Hlen; by destruct (_ =? 3)).
    eapply reads_bind_last; [by apply reads_matrix|]. apply reads_ret.
  - read_step. eapply reads_bind_none; [apply reads_when_false|]. apply reads_ret.
Qed.

(** ** The offsets' loop ends with the bits *)

(** What a reader takes lies in the array: it starts at the position and ends within the bits. *)
Definition within {A} (min : nat) (p : Bits A) : Prop :=
  forall l pos a pos', p l pos = Some (a, pos') ->
    (pos + min <= pos' /\ (pos = pos' \/ pos' <= length l * 8))%nat.

Lemma within_ret {A} (a : A) : within 0 (ret a).
Proof. intros l pos a' pos' [= _ ->]. lia. Qed.
Lemma within_bind {A B} m n (p : Bits A) (k : A -> Bits B) :
  within m p -> (forall a, within n (k a)) -> within (m + n) (bind p k).
Proof.
  intros Hp Hk l pos b pos' H. unfold bind in H. destruct (p l pos) as [[a pos1]|] eqn:E; [|done].
  apply Hp in E. apply Hk in H. lia.
Qed.
Lemma within_bit : within 1 bit.
Proof.
  intros l pos a pos'. rewrite bit_spec. destruct (bits_of l !! pos) eqn:E; [|done]. intros [= _ <-].
  apply lookup_lt_Some in E. rewrite length_bits_of in E. lia.
Qed.
Lemma within_u n : within n (u n).
Proof.
  unfold u. generalize 0. induction n as [|n IH]; intros v; [apply within_ret|].
  apply (within_bind 1 n); [apply within_bit|auto].
Qed.
Lemma within_weaken {A} m n (p : Bits A) : (n <= m)%nat -> within m p -> within n p.
Proof. intros Hle H l pos a pos' E. apply H in E. lia. Qed.
Lemma within_ue_zeros allowed zeros : within 1 (ue_zeros allowed zeros).
Proof.
  revert zeros. induction allowed as [|allowed IH]; intros zeros;
    apply (within_bind 1 0); try apply (within_u 1); intros d; destruct (d =? 0).
  - by intros ?.
  - apply within_ret.
  - eapply within_weaken; [|apply IH]. lia.
  - apply within_ret.
Qed.
Lemma within_se : within 1 se.
Proof.
  apply (within_bind 1 0); [|intros; apply within_ret].
  apply (within_bind 1 0); [apply within_ue_zeros|]. intros z.
  apply (within_bind 0 0); [|intros; apply within_ret].
  apply (within_weaken z); [lia|apply within_u].
Qed.

(** The plain loop. *)
Fixpoint repeat_se (n : nat) : Bits unit := match n with O => ret tt | S n => se ;; repeat_se n end.

Lemma se_loop_spec fuel n l pos :
  (length l * 8 < fuel + pos)%nat -> se_loop fuel n l pos = repeat_se (Z.to_nat n) l pos.
Proof.
  revert n pos. induction fuel as [|fuel IH]; intros n pos H; cbn [se_loop];
    (destruct (Z.leb_spec n 0) as [|Hn]; [by rewrite Z2Nat.nonpos by done|]);
    replace (Z.to_nat n) with (S (Z.to_nat (n - 1))) by lia; cbn [repeat_se]; unfold bind.
  - destruct (se l pos) as [[a pos']|] eqn:E; [|done]. apply within_se in E. lia.
  - destruct (se l pos) as [[a pos']|] eqn:E; [|done]. apply within_se in E. apply IH. lia.
Qed.

(** The loop over the frame offsets of an SPS, whose count is a number of up to 32 bits read from
    the stream, is the plain loop however large the count: a reader throws at the end of the array, so
    no more rounds than the array has bits are ever made. *)
Theorem se_times_total n l pos : se_times n l pos = repeat_se (Z.to_nat n) l pos.
Proof. apply se_loop_spec. lia. Qed.

Lemma reads_repeat_se l : Forall se_ok l -> reads (repeat_se (length l)) (mjoin (se_bits <$> l)) tt.
Proof.
  induction 1 as [|v l Hv _ IH]; [apply reads_ret|]. cbn [length repeat_se fmap list_fmap].
  apply (reads_bind _ _ (se_bits v) v); [by apply reads_se|exact IH].
Qed.

Lemma reads_poc p : poc_ok p -> reads pic_order (poc_bits p) tt.
Proof.
  unfold pic_order. destruct p as [log2|z a b l|]; cbn [poc_ok poc_bits].
  - intros H. eapply reads_bind; [apply reads_ue; unfold ue_ok; lia|]. cbn. read_step. apply reads_ret.
  - intros (Ha & Hb & Hlen & Hl). eapply reads_bind; [apply reads_ue; unfold ue_ok; lia|]. cbn [Z.eqb Pos.eqb].
    change [z] with ([z] : list bool). eapply reads_bind; [by apply reads_skip|]. do 2 read_step.
    eapply reads_bind; [apply reads_ue; unfold ue_ok; lia|].
    intros bytes pos rest H. rewrite se_times_total, Nat2Z.id. by eapply reads_repeat_se.
  - intros _. eapply reads_bind_last; [apply reads_ue; unfold ue_ok; lia|]. apply reads_ret.
Qed.

Lemma reads_plus1 v : ue_ok v -> reads (v <- ue ;; ret (v + 1)) (ue_bits v) (v + 1).
Proof. intros H. eapply reads_bind_last; [by apply reads_ue|apply reads_ret]. Qed.

(** The reader's cropping units are the standard's. *)
Lemma crop_unit_x cat : 0 <= cat <= 3 -> (if cat =? 0 then 1 else if cat =? 3 then 1 else 2) = SubWidthC cat.
Proof. intros H. unfold SubWidthC. repeat case_match; bool_prop; lia. Qed.
Lemma crop_unit_y cat : 0 <= cat <= 3 -> (if cat =? 0 then 1 else if cat =? 1 then 2 else 1) = SubHeightC cat.
Proof. intros H. unfold SubHeightC. repeat case_match; bool_prop; lia. Qed.
Lemma reads_rect (a b : VisibleRect) : a = b -> reads (ret a) [] b.
Proof. intros ->. apply reads_ret. Qed.

Lemma reads_avc s : avc_ok s -> reads avcSps (avc_bits s) (avc_picture s).
Proof.
  intros (Hn & Hp & Hid & Hh & Hlog & Hpoc & Href & Hw & Hm & Hc). unfold avcSps, avc_bits.
  eapply reads_bind; [by apply reads_skip, length_bin|].
  eapply reads_bind; [by apply reads_u|].
  eapply reads_bind; [by apply reads_skip, length_bin|].
  read_step.
  eapply (reads_bind _ _ _ (if is_high s then (chroma_format_idc (high s), separate_colour_plane (high s)) else (1, false))).
  { rewrite is_high_code. destruct (is_high s); [by apply reads_high, Hh|apply reads_when_false]. }
  set (cs := if is_high s then _ else _). destruct cs as [chroma separate] eqn:Ecs.
  read_step. eapply reads_bind; [by apply reads_poc|]. read_step.
  eapply reads_bind; [by apply reads_skip|].
  eapply reads_bind; [by apply reads_plus1|]. eapply reads_bind; [by apply reads_plus1|].
  read_step.
  eapply (reads_bind _ _ _ tt).
  { destruct (frame_mbs_only s); [apply reads_when_false|by apply reads_skip]. }
  eapply reads_bind; [by apply reads_skip|].
  assert (ChromaArrayType s = (if separate then 0 else chroma) /\ 0 <= (if separate then 0 else chroma) <= 3)
    as [Hcat Hrange].
  { unfold ChromaArrayType. unfold cs in Ecs. destruct (is_high s); injection Ecs as <- <-; [|done].
    split; [done|]. destruct (Hh eq_refl) as [? _]. case_match; lia. }
  unfold avc_picture. rewrite Hcat. clear Hcat Ecs cs. set (cat := if separate then 0 else chroma) in *.
  destruct (crop s) as [c|] eqn:Ec.
  - destruct (Hc c eq_refl) as (? & ? & ? & ?).
    eapply (reads_bind _ _ [true]); [apply (reads_u1 true)|]. cbn [Z.b2z Z.eqb]. unfold crop_bits. do 4 read_step.
    rewrite <- (crop_unit_x cat), <- (crop_unit_y cat) by done. apply reads_rect; unfold cropped; simpl; f_equal; lia.
  - eapply (reads_bind_last _ _ [false]); [apply (reads_u1 false)|]. cbn [Z.b2z Z.eqb].
    apply reads_rect; unfold cropped; simpl; f_equal; lia.
Qed.

(** * The HEVC sequence parameter set *)

Record HevcSyntax := {
  h_header : Z; h_vps_id : Z; h_nesting : bool;
  (* the 88 bits of the general profile and the general level *)
  h_general : list bool;
  (* each temporal sub-layer below the highest: its profile and its level, where they are sent *)
  h_sub_layers : list (option (list bool) * option (list bool));
  h_reserved : list bool;
  h_sps_id : Z; h_chroma_format_idc : Z; h_separate : bool;
  h_width : Z; h_height : Z;
  h_crop : option Crop
}.
Definition given {A} (o : option A) : bool := match o with Some _ => true | None => false end.
Definition hevc_bits (s : HevcSyntax) : list bool :=
  let n := length (h_sub_layers s) in
  bin 16 (h_header s) ++ bin 4 (h_vps_id s) ++ bin 3 (Z.of_nat n) ++ [h_nesting s] ++ h_general s ++
  mjoin ((fun e => [given e.1; given e.2]) <$> h_sub_layers s) ++
  h_reserved s ++
  mjoin ((fun e => default [] e.1 ++ default [] e.2) <$> h_sub_layers s) ++
  ue_bits (h_sps_id s) ++ ue_bits (h_chroma_format_idc s) ++
  (if h_chroma_format_idc s =? 3 then [h_separate s] else []) ++
  ue_bits (h_width s) ++ ue_bits (h_height s) ++
  match h_crop s with None => [false] | Some c => [true] ++ crop_bits c end.
Definition hevc_picture (s : HevcSyntax) : VisibleRect :=
  let cat := if h_separate s then 0 else h_chroma_format_idc s in
  cropped (SubWidthC cat) (SubHeightC cat) (h_width s) (h_height s) (default no_crop (h_crop s)).
Definition hevc_ok (s : HevcSyntax) : Prop :=
  let n := length (h_sub_layers s) in
  (n <= 7)%nat /\ length (h_general s) = 96%nat /\
  length (h_reserved s) = (if Nat.eqb n 0 then 0 else 2 * (8 - n))%nat /\
  Forall (fun e => (forall b, e.1 = Some b -> length b = 88%nat) /\ (forall b, e.2 = Some b -> length b = 8%nat))
    (h_sub_layers s) /\
  ue_ok (h_sps_id s) /\ 0 <= h_chroma_format_idc s <= 3 /\
  (h_separate s = true -> h_chroma_format_idc s = 3) /\
  ue_ok (h_width s) /\ ue_ok (h_height s) /\ (forall c, h_crop s = Some c -> crop_ok c).

Definition sub_flags (e : option (list bool) * option (list bool)) : bool * bool := (given e.1, given e.2).

Lemma reads_sub_layer_flags l :
  reads (sub_layer_flags (length l)) (mjoin ((fun e => [given e.1; given e.2]) <$> l)) (sub_flags <$> l).
Proof.
  induction l as [|[p v] l IH]; [apply reads_ret|]. cbn [length sub_layer_flags fmap list_fmap fst snd].
  change (mjoin ([given p; given v] :: ?m)) with ([given p] ++ [given v] ++ mjoin m).
  do 2 read_step. eapply reads_bind_last; [exact IH|]. apply reads_ret.
Qed.

Lemma reads_when_given (o : option (list bool)) n :
  (forall b, o = Some b -> length b = S n) ->
  reads (when (given o) tt (skip (S n))) (default [] o) tt.
Proof. intros H. destruct o as [b|]; [by apply reads_skip, H|apply reads_when_false]. Qed.

Lemma reads_skip_sub_layers l :
  Forall (fun e => (forall b, e.1 = Some b -> length b = 88%nat) /\ (forall b, e.2 = Some b -> length b = 8%nat)) l ->
  reads (skip_sub_layers (sub_flags <$> l)) (mjoin ((fun e => default [] e.1 ++ default [] e.2) <$> l)) tt.
Proof.
  induction 1 as [|[p v] l [Hp Hv] _ IH]; [apply reads_ret|]. cbn [fst snd] in *.
  cbn [fmap list_fmap sub_flags skip_sub_layers fst snd].
  change (mjoin ((default [] p ++ default [] v) :: ?m)) with ((default [] p ++ default [] v) ++ mjoin m).
  rewrite <- app_assoc.
  eapply reads_bind; [by apply reads_when_given|]. eapply reads_bind; [by apply reads_when_given|]. exact IH.
Qed.

Lemma reads_skip_times times n bits : length bits = (times * S n)%nat -> reads (skip_times times (S n)) bits tt.
Proof.
  revert bits. induction times as [|times IH]; intros bits H.
  { destruct bits; [apply reads_ret|done]. }
  rewrite <- (take_drop (S n) bits). cbn [skip_times].
  eapply reads_bind; [apply reads_skip; rewrite length_take; lia|]. apply IH. rewrite length_drop. lia.
Qed.

Lemma reads_hevc s : hevc_ok s -> reads hevcSps (hevc_bits s) (hevc_picture s).
Proof.
  intros (Hn & Hg & Hr & Hsub & Hid & Hc & Hsep & Hw & Hh & Hcrop). unfold hevcSps, hevc_bits.
  set (n := length (h_sub_layers s)) in *.
  eapply reads_bind; [by apply reads_skip, length_bin|].
  eapply reads_bind; [by apply reads_skip, length_bin|].
  eapply reads_bind; [apply reads_u; simpl; lia|].
  eapply reads_bind; [by apply reads_skip|].
  eapply reads_bind; [by apply reads_skip|].
  rewrite Nat2Z.id. eapply reads_bind; [apply reads_sub_layer_flags|].
  eapply (reads_bind _ _ _ tt).
  { destruct (Z.ltb_spec 0 (Z.of_nat n)); cbn [when].
    - apply reads_skip_times. rewrite Hr. destruct (Nat.eqb_spec n 0); lia.
    - destruct (Nat.eqb_spec n 0); [|lia]. destruct (h_reserved s); [apply reads_ret|done]. }
  eapply reads_bind; [by apply reads_skip_sub_layers|].
  read_step. eapply reads_bind; [apply reads_ue; unfold ue_ok; lia|].
  eapply reads_bind; [by apply reads_separate|]. do 2 read_step.
  set (c := h_chroma_format_idc s) in *. set (sep := h_separate s) in *.
  assert ((if negb sep && ((c =? 1) || (c =? 2)) then 2 else 1) = SubWidthC (if sep then 0 else c)) as ->.
  { unfold SubWidthC. by destruct sep. }
  assert ((if negb sep && (c =? 1) then 2 else 1) = SubHeightC (if sep then 0 else c)) as ->.
  { unfold SubHeightC. by destruct sep. }
  unfold hevc_picture. fold c sep.
  destruct (h_crop s) as [cr|] eqn:Ec.
  - destruct (Hcrop cr eq_refl) as (? & ? & ? & ?).
    eapply (reads_bind _ _ [true]); [apply (reads_u1 true)|]. cbn [Z.b2z Z.eqb]. unfold crop_bits. do 4 read_step.
    apply reads_rect. reflexivity.
  - eapply (reads_bind_last _ _ [false]); [apply (reads_u1 false)|]. cbn [Z.b2z Z.eqb].
    apply reads_rect; unfold cropped; simpl; f_equal; lia.
Qed.

(** * From the stream to the picture *)

Inductive Sps := Avc (s : AvcSyntax) | Hevc (s : HevcSyntax).
Definition is_hevc (s : Sps) : bool := match s with Avc _ => false | Hevc _ => true end.
Definition sps_bits (s : Sps) : list bool := match s with Avc s => avc_bits s | Hevc s => hevc_bits s end.
Definition sps_ok (s : Sps) : Prop := match s with Avc s => avc_ok s | Hevc s => hevc_ok s end.
Definition picture (s : Sps) : VisibleRect := match s with Avc s => avc_picture s | Hevc s => hevc_picture s end.

Lemma reads_sps s : sps_ok s -> reads (if is_hevc s then hevcSps else avcSps) (sps_bits s) (picture s).
Proof. destruct s; [apply reads_avc|apply reads_hevc]. Qed.

Lemma cropped_inside ux uy width height c :
  0 <= ux -> 0 <= uy -> (forall c', c = Some c' -> crop_ok c') ->
  0 <= x (cropped ux uy width height (default no_crop c)) /\ 0 <= y (cropped ux uy width height (default no_crop c)).
Proof.
  intros Hx Hy H. assert (0 <= crop_left (default no_crop c) /\ 0 <= crop_top (default no_crop c)) as [? ?].
  { destruct c as [c|]; [|done]. destruct (H c eq_refl) as ([? _] & _ & [? _] & _). done. }
  simpl. lia.
Qed.
Lemma units_nonneg c : 0 <= SubWidthC c /\ 0 <= SubHeightC c.
Proof. unfold SubWidthC, SubHeightC. repeat case_match; lia. Qed.
Lemma picture_inside s : sps_ok s -> 0 <= x (picture s) /\ 0 <= y (picture s).
Proof.
  destruct s as [s|s]; cbn [sps_ok picture]; intros H; apply cropped_inside; try apply units_nonneg; try apply H.
  pose proof (proj2 (units_nonneg (ChromaArrayType s))). destruct (frame_mbs_only s); simpl; lia.
Qed.

Lemma sps_bits_16 s : (16 <= length (sps_bits s))%nat.
Proof.
  destruct s as [s|s]; cbn [sps_bits]; unfold avc_bits, hevc_bits; rewrite !length_app, !length_bin; lia.
Qed.

Lemma escape_head b p : exists p', escape (b :: p) = b :: p' /\ (length p <= length p')%nat.
Proof.
  unfold escape. cbn [escape_go]. eexists. split; [reflexivity|].
  generalize (if b =? 0 then 0 + 1 else 0). clear. induction p as [|c p IH]; intros z; [simpl; lia|].
  cbn [escape_go]. destruct (_ && _); cbn [length].
  - specialize (IH (if c =? 0 then 1 else 0)). lia.
  - specialize (IH (if c =? 0 then z + 1 else 0)). lia.
Qed.
Lemma is_sps_escape hevc p : is_sps hevc (escape p) = is_sps hevc p.
Proof. destruct p as [|b p]; [done|]. by destruct (escape_head b p) as (p' & -> & _). Qed.

(** C8: The size the viewer shows is the one the stream describes: in a header whose first sequence
    parameter set is coded as its standard says, with every element in its range, among whatever
    other units, start codes and zero bytes, [spsVisibleRect] answers that set's cropped picture,
    for H.264 and for HEVC. *)
Theorem header_picture before k p after zeros s rest :
  Forall (fun e => payload_ok e.2) (before ++ (k, p) :: after) ->
  Forall (fun e => is_sps (is_hevc s) e.2 = false) before -> is_sps (is_hevc s) p = true ->
  sps_ok s -> bits_of p = sps_bits s ++ rest -> 0 < w (picture s) -> 0 < h (picture s) ->
  spsVisibleRect (as_stream (before ++ (k, p) :: after) zeros) (is_hevc s) = Some (picture s).
Proof.
  intros Hall Hb Hp Hs Hbits Hw Hh. unfold spsVisibleRect, as_stream. rewrite nals_annexB.
  2:{ apply Forall_fmap. eapply Forall_impl; [exact Hall|]. intros [? ?]. apply escape_ok. }
  rewrite fmap_app, fmap_app, fmap_cons, fmap_cons. cbn [fst snd].
  clear Hall. induction Hb as [|[k0 p0] before Hp0 _ IH]; cbn [app fmap list_fmap fst snd first_sps].
  - rewrite is_sps_escape, Hp.
    assert ((length (escape p) <? 2)%nat = false) as ->.
    { apply Nat.ltb_ge. apply (f_equal length) in Hbits. rewrite length_bits_of, length_app in Hbits.
      pose proof (sps_bits_16 s). destruct p as [|b p]; simpl in Hbits; [lia|].
      destruct (escape_head b p) as (p' & -> & ?). simpl. lia. }
    cbn [orb negb]. unfold rbsp, escape. rewrite rbsp_escape_go by done.
    rewrite (reads_sps s Hs p 0%nat rest) by done.
    destruct (picture_inside s Hs).
    by rewrite !(proj2 (Z.ltb_lt _ _)), !(proj2 (Z.leb_le _ _)) by done.
  - cbn [snd] in Hp0. rewrite is_sps_escape, Hp0. cbn [negb]. rewrite orb_true_r. exact IH.
Qed.

(** Whatever the bytes are, what is answered is a picture: not empty, and not before the origin. *)
Lemma spsVisibleRect_sane header hevc v :
  spsVisibleRect header hevc = Some v -> 0 < w v /\ 0 < h v /\ 0 <= x v /\ 0 <= y v.
Proof.
  unfold spsVisibleRect. induction (nals header) as [|n l IH]; cbn [first_sps]; [done|].
  destruct (_ || _); [done|]. 
  destruct ((if hevc then hevcSps else avcSps) (rbsp n) 0%nat) as [[v' pos]|]; [|done].
  destruct (_ && _) eqn:E; [|done]. intros [= ->]. by bool_prop.
Qed.

(** A frame is only ever rebuilt as the stream's own picture, when the frame shows less of it than
    its last macroblock and the picture lies in the coded frame; a frame that shows at least that is
    left alone. *)
Theorem visibleFix_spec header hevc frame v :
  visibleFix frame (spsVisibleRect header hevc) = Some v ->
  spsVisibleRect header hevc = Some v /\
  0 <= x v /\ 0 <= y v /\ x v + w v <= codedWidth frame /\ y v + h v <= codedHeight frame /\
  exists vw vh, visibleRect frame = Some (vw, vh) /\ (vw < w v - 16 \/ vh < h v - 16).
Proof.
  destruct (spsVisibleRect header hevc) as [v0|] eqn:E; [|done]. unfold visibleFix.
  destruct (visibleRect frame) as [[vw vh]|]; [|done].
  destruct ((w v0 - 16 <=? vw) && _) eqn:E1; [done|]. destruct (_ || _) eqn:E2; [done|]. intros [= <-].
  apply spsVisibleRect_sane in E as (? & ? & ? & ?). bool_prop.
  do 5 (split; [done|]). exists vw, vh. split; [done|].
  apply andb_false_iff in E1 as [?|?]; bool_prop; lia.
Qed.

(** ** A concrete header *)

(** 1920x1080 in 120 by 68 macroblocks, High profile with scaling lists, the four rows cropped. *)
Definition pic_1080 : AvcSyntax := {|
  nal_header := 103; profile_idc := 100; constraints_level := 40; sps_id := 0;
  high := {| chroma_format_idc := 1; separate_colour_plane := false; bit_depth_luma := 0; bit_depth_chroma := 0;
             qpprime := false;
             scaling_matrix := Some [Some [8; -3; -12; -1]; None; None; None; None; None; Some [-8]; None] |};
  log2_max_frame_num := 4; poc := Poc1 false (-1) 2 [3; -4]; max_num_ref_frames := 1; gaps_allowed := false;
  mbs_width_minus1 := 119; map_units_minus1 := 67; frame_mbs_only := true; mb_adaptive := false;
  direct_8x8 := true;
  crop := Some {| crop_left := 0; crop_right := 0; crop_top := 0; crop_bottom := 4 |} |}.
Definition bytes_1080 : list Z := [103; 100; 0; 40; 173; 132; 14; 25; 96; 132; 69; 70; 70; 97; 40; 7; 128; 34; 126; 88].
Definition header_1080 : list Z := as_stream ([(1%nat, [9; 16])] ++ (0%nat, bytes_1080) :: [(0%nat, [104; 238])]) 1.

Lemma header_picture_witness : spsVisibleRect header_1080 false = Some {| x := 0; y := 0; w := 1920; h := 1080 |}.
Proof.
  apply (header_picture [(1%nat, [9; 16])] 0 bytes_1080 [(0%nat, [104; 238])] 1 (Avc pic_1080)
           (drop 156 (bits_of bytes_1080))).
  - repeat constructor; eexists; (split; [reflexivity|discriminate]).
  - repeat constructor.
  - reflexivity.
  - assert (forall v, 0 <= v <= 1000 -> ue_ok v) as Hue by (unfold ue_ok; intros; lia).
    assert (forall v, - 1000 <= v <= 1000 -> se_ok v) as Hse by (unfold se_ok; intros; lia).
    split; [done|]. split; [done|]. split; [by apply Hue|]. split.
    { intros _. split; [done|]. split; [done|]. split; [by apply Hue|]. split; [by apply Hue|].
      intros m [= <-]. split; [done|].
      repeat constructor; intros deltas [= <-]; repeat constructor; discriminate. }
    split; [by apply Hue|]. split.
    { split; [by apply Hse|]. split; [by apply Hse|]. split; [done|].
      constructor; [by apply Hse|]. constructor; [by apply Hse|constructor]. }
    split; [by apply Hue|]. split; [by apply Hue|]. split; [by apply Hue|].
    intros c [= <-]. split; [by apply Hue|]. split; [by apply Hue|]. split; by apply Hue.
  - vm_compute. reflexivity.
  - reflexivity.
  - reflexivity.
Defined.

Definition small_frame : Frame := {| codedWidth := 1920; codedHeight := 1088; visibleRect := Some (1280, 720) |}.
Lemma visibleFix_spec_witness : exists v,
  visibleFix small_frame (spsVisibleRect header_1080 false) = Some v /\ x v + w v <= 1920.
Proof.
  exists {| x := 0; y := 0; w := 1920; h := 1080 |}.
  assert (visibleFix small_frame (spsVisibleRect header_1080 false) = Some {| x := 0; y := 0; w := 1920; h := 1080 |})
    as E by (vm_compute; reflexivity).
  split; [exact E|]. destruct (visibleFix_spec header_1080 false small_frame _ E) as (_ & _ & _ & H & _). exact H.
Defined.
