(* ===== verification/Fmp4.v ===== *)
(** [lib/fmp4.ts]: fragmented MP4 for Media Source Extensions, built from the stream's access units
    and Opus packets. Bytes are integers below 256; a number stored in a byte array is cut to its low
    bits, as a [Uint8Array] and a [DataView] do; [|], [&] and [<<] work on 32-bit signed integers. *)
From S2P Require Import Prelude RpSps.

(** * Integers of 32 bits *)

Definition to_int32 (n : Z) : Z := let m := n mod 2 ^ 32 in if m <? 2 ^ 31 then m else m - 2 ^ 32.
Definition bor (a b : Z) : Z := Z.lor (to_int32 a) (to_int32 b).
Definition band (a b : Z) : Z := Z.land (to_int32 a) (to_int32 b).
Definition shl (a n : Z) : Z := to_int32 (Z.shiftl (to_int32 a) n).
(** [n >>> 0]. *)
Definition to_uint32 (n : Z) : Z := n mod 2 ^ 32.

(** * Boxes *)

Definition ascii_bytes (s : string) : list Z := code <$> js s.
(** One field of [n] bytes, most significant first: [Math.floor(v / 2 ** (8 * i)) & 0xff]. *)
Fixpoint field (v : Z) (n : nat) : list Z :=
  match n with O => [] | S n => band (v / 2 ^ (8 * Z.of_nat n)) 255 :: field v n end.
Definition u (fields : list (Z * nat)) : list Z := mjoin ((fun f => field f.1 f.2) <$> fields).
(** [setUint32]. *)
Definition uint32 (v : Z) : list Z := field (v mod 2 ^ 32) 4.

Definition len {A} (l : list A) : Z := Z.of_nat (length l).
Definition zeros (n : nat) : list Z := replicate n 0.

Definition box (type : string) (parts : list (list Z)) : list Z :=
  let size := 8 + foldl (fun a p => a + len p) 0 parts in
  uint32 size ++ ascii_bytes type ++ mjoin parts.
Definition full (type : string) (version flags : Z) (parts : list (list Z)) : list Z :=
  box type (u [(version, 1%nat); (flags, 3%nat)] :: parts).

Definition MATRIX : list Z :=
  u [(0x10000, 4%nat); (0, 4%nat); (0, 4%nat); (0, 4%nat); (0x10000, 4%nat); (0, 4%nat); (0, 4%nat); (0, 4%nat);
     (0x40000000, 4%nat)].

Record Track := {
  handler : string; (* vide or soun *)
  timescale : Z;
  sampleEntry : list Z;
  width : option Z;
  height : option Z
}.

Definition initSegment (t : Track) : list Z :=
  let video := bool_decide (handler t = "vide"%string) in
  let ftyp := box "ftyp" [ascii_bytes "isom"; u [(1, 4%nat)]; ascii_bytes "isomiso6mp41"] in
  let mvhd := full "mvhd" 0 0
    [u [(0, 4%nat); (0, 4%nat); (timescale t, 4%nat); (0, 4%nat); (0x10000, 4%nat); (0x100, 2%nat); (0, 2%nat);
        (0, 4%nat); (0, 4%nat)]; MATRIX; zeros 24; u [(2, 4%nat)]] in
  let tkhd := full "tkhd" 0 3
    [u [(0, 4%nat); (0, 4%nat); (1, 4%nat); (0, 4%nat); (0, 4%nat); (0, 4%nat); (0, 4%nat); (0, 2%nat); (0, 2%nat);
        (if video then 0 else 0x100, 2%nat); (0, 2%nat)]; MATRIX;
     u [((width t ?? 0) * 0x10000, 4%nat); ((height t ?? 0) * 0x10000, 4%nat)]] in
  let mdhd := full "mdhd" 0 0
    [u [(0, 4%nat); (0, 4%nat); (timescale t, 4%nat); (0, 4%nat); (0x55c4, 2%nat); (0, 2%nat)]] in
  let hdlr := full "hdlr" 0 0 [u [(0, 4%nat)]; ascii_bytes (handler t); zeros 12; u [(0, 1%nat)]] in
  let head := if video then full "vmhd" 0 1 [zeros 8] else full "smhd" 0 0 [u [(0, 4%nat)]] in
  let dinf := box "dinf" [full "dref" 0 0 [u [(1, 4%nat)]; full "url " 0 1 []]] in
  let stbl := box "stbl"
    [full "stsd" 0 0 [u [(1, 4%nat)]; sampleEntry t]; full "stts" 0 0 [u [(0, 4%nat)]];
     full "stsc" 0 0 [u [(0, 4%nat)]]; full "stsz" 0 0 [u [(0, 4%nat); (0, 4%nat)]];
     full "stco" 0 0 [u [(0, 4%nat)]]] in
  let trak := box "trak" [tkhd; box "mdia" [mdhd; hdlr; box "minf" [head; dinf; stbl]]] in
  let mvex := box "mvex"
    [full "trex" 0 0 [u [(1, 4%nat); (1, 4%nat); (0, 4%nat); (0, 4%nat); (0, 4%nat)]]] in
  let moov := box "moov" [mvhd; trak; mvex] in
  ftyp ++ moov.

Definition trun (duration : Z) (data : list Z) (flags offset : Z) : list Z :=
  full "trun" 0 0x000701
    [u [(1, 4%nat); (offset, 4%nat); (duration, 4%nat); (len data, 4%nat); (flags, 4%nat)]].
Definition traf (time : Z) (run : list Z) : list Z :=
  box "traf" [full "tfhd" 0 0x020000 [u [(1, 4%nat)]]; full "tfdt" 1 0 [u [(time, 8%nat)]]; run].
Definition mediaSegment (seq time duration : Z) (data : list Z) (key : bool) : list Z :=
  let flags := if key then 0x02000000 else 0x01010000 in
  let mfhd := full "mfhd" 0 0 [u [(seq, 4%nat)]] in
  let moof_with offset := box "moof" [mfhd; traf time (trun duration data flags offset)] in
  let moofLen := len (moof_with 0) in
  moof_with (moofLen + 8) ++ box "mdat" [data].

(** * NAL units *)

Definition annexBNals (stream : list Z) : list (list Z) :=
  filter (fun n : list Z => n <> []) (cut stream (starts_from 0 stream)).
Definition nalType (n : list Z) (hevc : bool) : Z :=
  if hevc then Z.land (Z.shiftr (n !!! 0%nat) 1) 63 else Z.land (n !!! 0%nat) 31.

Definition skipped (hevc dropParams : bool) : list Z :=
  if hevc then [35] ++ (if dropParams then [32; 33; 34] else [])
  else [9] ++ (if dropParams then [7; 8] else []).
Definition lengthPrefixed (au : list Z) (hevc dropParams : bool) : list Z :=
  mjoin ((fun n => uint32 (len n) ++ n) <$>
    filter (fun n => nalType n hevc ∉ skipped hevc dropParams) (annexBNals au)).

(** A byte in two hex digits. *)
Definition hex (b : Z) : str := if b <? 16 then js "0" ++ to_hex false b else to_hex false b.
Definition sized (n : list Z) : list Z := [(len n / 256) mod 256; band (len n) 255] ++ n.

Definition of_type (t : Z) (hevc : bool) (l : list (list Z)) : list (list Z) :=
  filter (fun n => nalType n hevc = t) l.
Definition avcDescription (header : list Z) : option (list Z) :=
  let nals := annexBNals header in
  let sps := of_type 7 false nals in
  let pps := of_type 8 false nals in
  match sps, pps with
  | first :: _, _ :: _ =>
      if (length first <? 4)%nat then None
      else Some (u [(1, 1%nat); (first !!! 1%nat, 1%nat); (first !!! 2%nat, 1%nat); (first !!! 3%nat, 1%nat);
                    (0xff, 1%nat); (bor 0xe0 (len sps), 1%nat)] ++
                 mjoin (sized <$> sps) ++ u [(len pps, 1%nat)] ++ mjoin (sized <$> pps))
  | _, _ => None
  end.

(** * Init segments *)

Definition visual (fourcc : string) (config : list Z) (w h : Z) : list Z :=
  box fourcc
    [zeros 6;
     u [(1, 2%nat); (0, 16%nat); (w, 2%nat); (h, 2%nat); (0x480000, 4%nat); (0x480000, 4%nat); (0, 4%nat); (1, 2%nat)];
     zeros 32; u [(0x18, 2%nat); (0xffff, 2%nat)]; config].
Definition array (type : Z) (list : list (list Z)) : Datatypes.list Z :=
  u [(bor 0x80 type, 1%nat); (len list, 2%nat)] ++ mjoin (sized <$> list).

(** The four compatibility bytes, and their bits in reverse: the loop's first [n] rounds. *)
Definition c32 (ptl : list Z) : Z :=
  to_uint32 (bor (bor (bor (shl (ptl !!! 1%nat) 24) (shl (ptl !!! 2%nat) 16)) (shl (ptl !!! 3%nat) 8)) (ptl !!! 4%nat)).
Fixpoint compat_loop (c : Z) (n : nat) : Z :=
  match n with
  | O => 0
  | S i =>
      let compat := compat_loop c i in
      if negb (band c (shl 1 (Z.of_nat i)) =? 0) then bor compat (shl 1 (31 - Z.of_nat i)) else compat
  end.
(** [while (constraint.length && last === 0) constraint.pop()]. *)
Fixpoint drop_zeros (l : list Z) : list Z :=
  match l with
  | [] => []
  | b :: l => match drop_zeros l with [] => if b =? 0 then [] else [b] | t => b :: t end
  end.
Definition hvc_codec (ptl : list Z) : str :=
  let profileIdc := band (ptl !!! 0%nat) 31 in
  let space := space_tag (Z.shiftr (ptl !!! 0%nat) 6) in
  let constraint := drop_zeros (subarray ptl 5 11) in
  join_with (js ".")
    ([js "hvc1." ++ space ++ num profileIdc;
      to_hex false (to_uint32 (compat_loop (c32 ptl) 32));
      (if negb (band (ptl !!! 0%nat) 32 =? 0) then js "H" else js "L") ++ num (ptl !!! 11%nat)] ++
     (to_hex false <$> constraint)).
Definition mime_of (codec : str) : str :=
  js "video/mp4; codecs=" ++ [ascii_of_nat 34] ++ codec ++ [ascii_of_nat 34].

Definition videoInit (header : list Z) (hevc : bool) (w h : Z) : option (list Z * str) :=
  let nals := annexBNals header in
  let init entry := initSegment {| handler := "vide"; timescale := 90000; sampleEntry := entry;
                                   width := Some w; height := Some h |} in
  if negb hevc then
    match avcDescription header, of_type 7 false nals with
    | Some record, first :: _ =>
        Some (init (visual "avc1" (box "avcC" [record]) w h),
              mime_of (js "avc1." ++ hex (first !!! 1%nat) ++ hex (first !!! 2%nat) ++ hex (first !!! 3%nat)))
    | _, _ => None
    end
  else
    let vps := of_type 32 true nals in
    let sps := of_type 33 true nals in
    let pps := of_type 34 true nals in
    match vps, sps, pps with
    | _ :: _, first :: _, _ :: _ =>
        let r := rbsp first in
        if (length r <? 15)%nat then None else
        let ptl := subarray r 3 15 in
        let depth := if band (ptl !!! 0%nat) 31 =? 2 then 2 else 0 in
        let hvcC := box "hvcC"
          [u [(1, 1%nat)]; ptl;
           u [(0xf000, 2%nat); (0xfc, 1%nat); (0xfd, 1%nat); (bor 0xf8 depth, 1%nat); (bor 0xf8 depth, 1%nat);
              (0, 2%nat); (0x0f, 1%nat); (3, 1%nat)];
           array 32 vps; array 33 sps; array 34 pps] in
        Some (init (visual "hvc1" hvcC w h), mime_of (hvc_codec ptl))
    | _, _, _ => None
    end.

Definition videoSegment (seq time duration : Z) (au : list Z) (hevc key : bool) : list Z :=
  mediaSegment seq time duration (lengthPrefixed au hevc false) key.

(** * Sound *)

Definition opusInit (channels rate : Z) : list Z :=
  let dOps := box "dOps"
    [u [(0, 1%nat); (channels, 1%nat); (312, 2%nat); (rate, 4%nat); (0, 2%nat); (0, 1%nat)]] in
  let entry := box "Opus"
    [zeros 6; u [(1, 2%nat); (0, 8%nat); (channels, 2%nat); (16, 2%nat); (0, 4%nat); (48000 * 0x10000, 4%nat)]; dOps] in
  initSegment {| handler := "soun"; timescale := 48000; sampleEntry := entry; width := None; height := None |}.

Definition opusSamples (packet : list Z) : Z :=
  match packet with
  | [] => 960
  | toc :: rest =>
      let config := Z.shiftr toc 3 in
      let at_ (l : list Z) (m : Z) := l !!! Z.to_nat (config mod m) in
      let per :=
        if config <? 12 then at_ [480; 960; 1920; 2880] 4
        else if config <? 16 then at_ [480; 960] 2 else at_ [120; 240; 480; 960] 4 in
      let c := Z.land toc 3 in
      let frames := if c =? 0 then 1 else if c =? 3 then Z.land (head rest ?? 1) 63 else 2 in
      per * Z.max 1 frames
  end.
Definition opusSegment (seq time : Z) (packet : list Z) : list Z :=
  mediaSegment seq time (opusSamples packet) packet true.
