(* ===== verification/Fmp4Demux.v ===== *)
(** What [lib/fmp4.ts] builds, read back with the container's own rules (ISO/IEC 14496-12): a reader
    of boxes, of a media segment's one sample and of length-prefixed units, and the proofs that it
    finds there what was put in. *)
From S2P Require Import Prelude RpSps NalUnits Fmp4.

(** * Fields *)

Definition be (l : list Z) : Z := foldl (fun v b => v * 256 + b) 0 l.

Lemma to_int32_mod n m : (m | 2 ^ 32) -> to_int32 n mod m = n mod m.
Proof.
  intros [q Hq]. unfold to_int32. assert (n mod 2 ^ 32 mod m = n mod m) as H.
  { rewrite (Z.mod_eq n (2 ^ 32)) by lia. rewrite Hq.
    replace (n - q * m * (n / (q * m))) with (n + - (q * (n / (q * m))) * m) by lia. apply Z_mod_plus_full. }
  destruct (_ <? _); [done|]. rewrite <- H, Hq.
  replace (n mod (q * m) - q * m) with (n mod (q * m) + - q * m) by lia. apply Z_mod_plus_full.
Qed.

Lemma band_255 n : band n 255 = n mod 256.
Proof.
  unfold band. change (to_int32 255) with (Z.ones 8). rewrite Z.land_ones by lia.
  apply to_int32_mod. by exists (2 ^ 24).
Qed.

Lemma length_field v n : length (field v n) = n.
Proof. induction n as [|n IH]; [done|]. simpl. by rewrite IH. Qed.

Lemma be_from a l : foldl (fun v b => v * 256 + b) a l = a * 256 ^ len l + be l.
Proof.
  unfold be, len. revert a. induction l as [|b l IH]; intros a; [simpl; lia|].
  cbn [foldl length]. rewrite (IH (a * 256 + b)), (IH (0 * 256 + b)), Nat2Z.inj_succ, Z.pow_succ_r by lia. lia.
Qed.

Lemma be_cons b l : be (b :: l) = foldl (fun v b => v * 256 + b) (0 * 256 + b) l.
Proof. done. Qed.

Lemma be_field v n : be (field v n) = v mod 256 ^ Z.of_nat n.
Proof.
  induction n as [|n IH]; [by rewrite Z.mod_1_r|]. cbn [field]. rewrite band_255.
  rewrite be_cons.
  rewrite be_from. unfold len. rewrite length_field, IH, Nat2Z.inj_succ, Z.pow_succ_r by lia.
  replace (2 ^ (8 * Z.of_nat n)) with (256 ^ Z.of_nat n) by (rewrite Z.pow_mul_r by lia; done).
  set (p := 256 ^ Z.of_nat n). assert (0 < p) by (apply Z.pow_pos_nonneg; lia).
  rewrite (Z.mul_comm 256 p), Z.rem_mul_r by lia. lia.
Qed.

(** * Boxes *)

Fixpoint boxes (fuel : nat) (l : list Z) : option (list (list Z * list Z)) :=
  match l, fuel with
  | [], _ => Some []
  | _, O => None
  | _, S fuel =>
      let size := be (take 4 l) in
      if (8 <=? size) && (size <=? len l)
      then (fun more => (take 4 (drop 4 l), take (Z.to_nat size - 8) (drop 8 l)) :: more) <$>
             boxes fuel (drop (Z.to_nat size) l)
      else None
  end.
Definition parse_boxes (l : list Z) : option (list (list Z * list Z)) := boxes (length l) l.
(** The contents of the first box of a type. *)
Fixpoint child (type : string) (l : list (list Z * list Z)) : option (list Z) :=
  match l with
  | [] => None
  | (t, p) :: l => if decide (t = ascii_bytes type) then Some p else child type l
  end.

Lemma child_here type p l : child type ((ascii_bytes type, p) :: l) = Some p.
Proof. cbn [child]. by rewrite decide_True. Qed.
Lemma child_next type t p l : ascii_bytes t <> ascii_bytes type -> child type ((ascii_bytes t, p) :: l) = child type l.
Proof. intros H. cbn [child]. by rewrite decide_False. Qed.

Definition fits (parts : list (list Z)) : Prop := 8 + len (mjoin parts) < 2 ^ 32.

Lemma len_app {A} (l k : list A) : len (l ++ k) = len l + len k.
Proof. unfold len. rewrite length_app. lia. Qed.
Lemma foldl_len parts a : foldl (fun a (p : list Z) => a + len p) a parts = a + len (mjoin parts).
Proof.
  revert a. induction parts as [|p parts IH]; intros a; [unfold len; simpl; lia|]. cbn [foldl].
  change (mjoin (p :: parts)) with (p ++ mjoin parts). rewrite IH, len_app. lia.
Qed.

Lemma box_eq type parts : String.length type = 4%nat ->
  box type parts = uint32 (8 + len (mjoin parts)) ++ ascii_bytes type ++ mjoin parts.
Proof. intros _. unfold box. by rewrite foldl_len. Qed.

Lemma length_ascii type : length (ascii_bytes type) = String.length type.
Proof.
  unfold ascii_bytes, js. rewrite length_fmap. induction type as [|c s IH]; [done|]. simpl. by rewrite IH.
Qed.

Lemma length_box type parts : String.length type = 4%nat -> len (box type parts) = 8 + len (mjoin parts).
Proof.
  intros H. rewrite box_eq, !len_app by done. unfold len, uint32. rewrite length_field, length_ascii, H. lia.
Qed.

Lemma boxes_mono fuel fuel' l r : (fuel <= fuel')%nat -> boxes fuel l = Some r -> boxes fuel' l = Some r.
Proof.
  revert fuel' l r. induction fuel as [|fuel IH]; intros [|fuel'] l r Hle; destruct l as [|b l]; try done; [lia|].
  cbn [boxes]. destruct (_ && _); [|done]. intros (r' & Hr & ->)%fmap_Some.
  by rewrite (IH fuel' _ r') by (lia || done).
Qed.

Lemma boxes_box fuel type parts rest :
  String.length type = 4%nat -> fits parts ->
  boxes (S fuel) (box type parts ++ rest) = (cons (ascii_bytes type, mjoin parts)) <$> boxes fuel rest.
Proof.
  intros Ht Hf. unfold fits in Hf. pose proof (length_box type parts Ht) as Hlen.
  set (n := 8 + len (mjoin parts)) in *. assert (0 <= len (mjoin parts)) by (unfold len; lia).
  assert (box type parts = uint32 n ++ ascii_bytes type ++ mjoin parts) as E by (by rewrite box_eq).
  assert (length (uint32 n) = 4%nat) as H4 by apply length_field.
  assert (length (ascii_bytes type) = 4%nat) as H4' by (by rewrite length_ascii).
  assert (be (take 4 (box type parts ++ rest)) = n) as Hsize.
  { rewrite E, <- app_assoc, take_app_length' by done. unfold uint32. rewrite be_field, Z.mod_mod, Z.mod_small; lia. }
  assert (take 4 (drop 4 (box type parts ++ rest)) = ascii_bytes type) as Htype.
  { rewrite E, <- !app_assoc, drop_app_length' by done. by apply take_app_length'. }
  assert (take (Z.to_nat n - 8) (drop 8 (box type parts ++ rest)) = mjoin parts) as Hpay.
  { rewrite E, app_assoc, <- app_assoc, drop_app_length' by (rewrite length_app; lia).
    apply take_app_length'. unfold len in *. lia. }
  assert (drop (Z.to_nat n) (box type parts ++ rest) = rest) as Hrest.
  { apply drop_app_length'. unfold len in Hlen. lia. }
  destruct (box type parts ++ rest) as [|b l] eqn:El.
  { apply (f_equal length) in El. rewrite length_app in El. unfold len in Hlen. simpl in El. lia. }
  cbn [boxes]. rewrite Hsize, Htype, Hpay, Hrest.
  rewrite (proj2 (Z.leb_le 8 n)), (proj2 (Z.leb_le n _)).
  - done.
  - rewrite <- El, len_app, Hlen. unfold len. lia.
  - lia.
Qed.

(** A sequence of boxes comes back. *)
Definition all_boxes (l : list (string * list (list Z))) : list (list Z) :=
  (fun e : string * list (list Z) => box e.1 e.2) <$> l.
Definition contents (l : list (string * list (list Z))) : list (list Z * list Z) :=
  (fun e : string * list (list Z) => (ascii_bytes e.1, mjoin e.2)) <$> l.
Definition boxes_ok (l : list (string * list (list Z))) : Prop :=
  Forall (fun e => String.length e.1 = 4%nat /\ fits e.2) l.

Lemma boxes_ok_nil : boxes_ok [].
Proof. constructor. Qed.
Lemma boxes_ok_cons t p l :
  String.length t = 4%nat -> 8 + len (mjoin p) < 2 ^ 32 -> boxes_ok l -> boxes_ok ((t, p) :: l).
Proof. by constructor. Qed.

Lemma parse_boxes_seq l : boxes_ok l -> parse_boxes (mjoin (all_boxes l)) = Some (contents l).
Proof.
  intros Hl. unfold parse_boxes.
  assert (forall fuel, (length l <= fuel)%nat -> boxes fuel (mjoin (all_boxes l)) = Some (contents l)) as H.
  { induction Hl as [|[t p] l [Ht Hp] _ IH]; intros fuel Hf; [by destruct fuel|].
    destruct fuel as [|fuel]; [simpl in Hf; lia|]. cbn [length] in Hf.
    change (mjoin (all_boxes ((t, p) :: l))) with (box t p ++ mjoin (all_boxes l)).
    rewrite boxes_box, IH by (done || lia). done. }
  apply H. clear H. induction Hl as [|[t p] l [Ht Hp] _ IH]; [simpl; lia|]. cbn [fst snd length] in *.
  change (mjoin (all_boxes ((t, p) :: l))) with (box t p ++ mjoin (all_boxes l)). rewrite length_app.
  pose proof (length_box t p Ht). unfold len in *. lia.
Qed.

(** * The sample of a media segment *)

Record Sample := { s_track : Z; s_seq : Z; s_time : Z; s_duration : Z; s_key : bool; s_data : list Z }.

(** A number of [n] bytes, and what stands after it; one that stands there only when a flag says so. *)
Definition number (n : nat) (l : list Z) : option (Z * list Z) :=
  if (length l <? n)%nat then None else Some (be (take n l), drop n l).
Definition number_if (there : bool) (n : nat) (l : list Z) : option (option Z * list Z) :=
  if there then '(v, l) ← number n l; Some (Some v, l) else Some (None, l).
Definition over {A} (a b : option A) : option A := match a with Some _ => a | None => b end.

(** [tfhd]: the track and what its samples have unless they say otherwise. The offsets of the run count from
    the start of the [moof], as Media Source Extensions demands: no base of its own, and flag 0x020000. *)
Record TrackHeader := { h_track : Z; h_duration : option Z; h_size : option Z; h_flags : option Z }.
Definition read_tfhd (l : list Z) : option TrackHeader :=
  '(flags, l) ← number 4 l; '(track, l) ← number 4 l;
  '(base, l) ← number_if (Z.testbit flags 0) 8 l; '(_, l) ← number_if (Z.testbit flags 1) 4 l;
  '(duration, l) ← number_if (Z.testbit flags 3) 4 l; '(size, l) ← number_if (Z.testbit flags 4) 4 l;
  '(sflags, l) ← number_if (Z.testbit flags 5) 4 l;
  if bool_decide (l = []) && bool_decide (base = None) && Z.testbit flags 17
  then Some {| h_track := track; h_duration := duration; h_size := size; h_flags := sflags |} else None.
(** [tfdt]: 8 bytes in version 1, else 4. *)
Definition read_tfdt (l : list Z) : option Z :=
  '(flags, l) ← number 4 l; '(time, l) ← number (if Z.shiftr flags 24 =? 1 then 8 else 4) l;
  if bool_decide (l = []) then Some time else None.
(** [trun]: its one sample's place, duration, size, flags and time offset. *)
Record Run := { r_offset : Z; r_duration : Z; r_size : Z; r_flags : Z; r_shift : Z }.
Definition read_trun (hd : TrackHeader) (l : list Z) : option Run :=
  '(flags, l) ← number 4 l; '(count, l) ← number 4 l;
  '(offset, l) ← number_if (Z.testbit flags 0) 4 l; '(first, l) ← number_if (Z.testbit flags 2) 4 l;
  '(duration, l) ← number_if (Z.testbit flags 8) 4 l; '(size, l) ← number_if (Z.testbit flags 9) 4 l;
  '(sflags, l) ← number_if (Z.testbit flags 10) 4 l; '(shift, l) ← number_if (Z.testbit flags 11) 4 l;
  if negb (bool_decide (l = []) && (count =? 1)) then None else
  offset ← offset; duration ← over duration (h_duration hd); size ← over size (h_size hd);
  sflags ← over sflags (over first (h_flags hd));
  Some {| r_offset := offset; r_duration := duration; r_size := size; r_flags := sflags; r_shift := shift ?? 0 |}.

(** A player's way to the sample, whose fields are where the flags of their boxes put them. The fragment
    starts with its [moof]; bit 16 of a sample's flags marks one that is no sync sample. *)
Definition demux (seg : list Z) : option Sample :=
  top ← parse_boxes seg;
  m ← child "moof" top; moof ← parse_boxes m;
  mfhd ← child "mfhd" moof; '(_, mfhd) ← number 4 mfhd; '(seq, mfhd) ← number 4 mfhd;
  tr ← child "traf" moof; traf ← parse_boxes tr;
  tfhd ← child "tfhd" traf; hd ← read_tfhd tfhd;
  tfdt ← child "tfdt" traf; time ← read_tfdt tfdt;
  trun ← child "trun" traf; run ← read_trun hd trun;
  Some {| s_track := h_track hd; s_seq := seq; s_time := time + r_shift run; s_duration := r_duration run;
          s_key := negb (Z.testbit (r_flags run) 16);
          s_data := take (Z.to_nat (r_size run)) (drop (Z.to_nat (r_offset run)) seg) |}.

(** [u]'s fields stand one after the other. *)
Lemma u_cons v n fields : u ((v, n) :: fields) = field v n ++ u fields.
Proof. done. Qed.

Lemma number_here v n rest : 0 <= v < 256 ^ Z.of_nat n -> number n (field v n ++ rest) = Some (v, rest).
Proof.
  intros H. unfold number. replace (length (field v n ++ rest) <? n)%nat with false.
  - by rewrite take_app_length', drop_app_length', be_field, Z.mod_small by (rewrite ?length_field; done).
  - symmetry. apply Nat.ltb_ge. rewrite length_app, length_field. lia.
Qed.
Lemma number_last v n : 0 <= v < 256 ^ Z.of_nat n -> number n (field v n) = Some (v, []).
Proof. intros H. rewrite <- (app_nil_r (field v n)) at 1. by apply number_here. Qed.

(** The fields of a box's contents, written out. *)
Ltac fields := unfold full, u; cbn [fmap list_fmap fst snd mjoin list_join]; rewrite ?app_nil_r, <- ?app_assoc.
(** The next number of them. *)
Ltac read_number := (rewrite number_here by (cbn; lia)) || (rewrite number_last by (cbn; lia)); cbn [mbind option_bind].

Definition run_contents (duration : Z) (data : list Z) (flags offset : Z) : list (list Z) :=
  [u [(0, 1%nat); (0x000701, 3%nat)];
   u [(1, 4%nat); (offset, 4%nat); (duration, 4%nat); (len data, 4%nat); (flags, 4%nat)]].
Definition traf_contents (time : Z) (run : list (list Z)) : list (string * list (list Z)) :=
  [("tfhd"%string, [u [(0, 1%nat); (0x020000, 3%nat)]; u [(1, 4%nat)]]);
   ("tfdt"%string, [u [(1, 1%nat); (0, 3%nat)]; u [(time, 8%nat)]]);
   ("trun"%string, run)].
Definition moof_contents (seq : Z) (traf : list (list Z)) : list (string * list (list Z)) :=
  [("mfhd"%string, [u [(0, 1%nat); (0, 3%nat)]; u [(seq, 4%nat)]]); ("traf"%string, traf)].

Lemma len_field v n : len (field v n) = Z.of_nat n.
Proof. unfold len. by rewrite length_field. Qed.
Lemma len_run duration data flags offset : len (mjoin (run_contents duration data flags offset)) = 24.
Proof. unfold run_contents. fields. rewrite !len_app, !len_field. done. Qed.

Lemma trun_fields duration data flags offset :
  mjoin (run_contents duration data flags offset) =
    field 0 1 ++ field 0x000701 3 ++ field 1 4 ++ field offset 4 ++
      field duration 4 ++ field (len data) 4 ++ field flags 4.
Proof. unfold run_contents. by fields. Qed.

Definition traf_boxes (time : Z) (run : list (list Z)) : list (list Z) := all_boxes (traf_contents time run).
Definition moof_boxes (seq : Z) (traf : list (list Z)) : list (list Z) := all_boxes (moof_contents seq traf).

Lemma len_traf time run : len (mjoin run) = 24 -> len (mjoin (traf_boxes time run)) = 68.
Proof.
  intros H. unfold traf_boxes, traf_contents, all_boxes. cbn [fmap list_fmap fst snd mjoin list_join].
  rewrite !len_app, !length_box, H by done. fields. rewrite !len_app, !len_field. done.
Qed.
Lemma len_moof seq traf : len (mjoin traf) = 68 -> len (mjoin (moof_boxes seq traf)) = 92.
Proof.
  intros H. unfold moof_boxes, moof_contents, all_boxes. cbn [fmap list_fmap fst snd mjoin list_join].
  rewrite !len_app, !length_box, H by done. fields. rewrite !len_app, !len_field. done.
Qed.

Definition key_flags (key : bool) : Z := if key then 0x02000000 else 0x01010000.

Lemma media_boxes seq time duration data key :
  mediaSegment seq time duration data key =
    mjoin (all_boxes [("moof"%string, moof_boxes seq (traf_boxes time (run_contents duration data (key_flags key) 108)));
                      ("mdat"%string, [data])]).
Proof.
  assert (forall o, box "moof" [full "mfhd" 0 0 [u [(seq, 4%nat)]]; traf time (trun duration data (key_flags key) o)] =
            box "moof" (moof_boxes seq (traf_boxes time (run_contents duration data (key_flags key) o)))) as E by done.
  unfold mediaSegment. fold (key_flags key). rewrite !E, length_box, len_moof by (done || apply len_traf, len_run).
  unfold all_boxes. cbn [fmap list_fmap fst snd mjoin list_join]. by rewrite app_nil_r.
Qed.

(** The boxes of a segment, level by level. *)
Lemma segment_boxes seq time duration data key :
  len data + 108 < 2 ^ 32 ->
  parse_boxes (mediaSegment seq time duration data key) =
    Some [(ascii_bytes "moof",
             mjoin (moof_boxes seq (traf_boxes time (run_contents duration data (key_flags key) 108))));
          (ascii_bytes "mdat", data)].
Proof.
  intros H. assert (0 <= len data) by (unfold len; lia).
  rewrite media_boxes, parse_boxes_seq; [by cbn; rewrite app_nil_r|].
  apply boxes_ok_cons; [done|by rewrite len_moof by apply len_traf, len_run|].
  apply boxes_ok_cons; [done| |apply boxes_ok_nil].
  cbn [mjoin list_join]. rewrite app_nil_r. lia.
Qed.
Lemma fragment_boxes seq traf : len (mjoin traf) = 68 ->
  parse_boxes (mjoin (moof_boxes seq traf)) =
    Some [(ascii_bytes "mfhd", field 0 1 ++ field 0 3 ++ field seq 4); (ascii_bytes "traf", mjoin traf)].
Proof.
  intros H. unfold moof_boxes. rewrite parse_boxes_seq; [done|].
  apply boxes_ok_cons; [done|fields; by rewrite !len_app, !len_field|].
  apply boxes_ok_cons; [done|by rewrite H|apply boxes_ok_nil].
Qed.
Lemma track_boxes time run : len (mjoin run) = 24 ->
  parse_boxes (mjoin (traf_boxes time run)) =
    Some [(ascii_bytes "tfhd", field 0 1 ++ field 0x020000 3 ++ field 1 4);
          (ascii_bytes "tfdt", field 1 1 ++ field 0 3 ++ field time 8);
          (ascii_bytes "trun", mjoin run)].
Proof.
  intros H. unfold traf_boxes. rewrite parse_boxes_seq; [done|].
  do 2 (apply boxes_ok_cons; [done|fields; by rewrite !len_app, !len_field|]).
  apply boxes_ok_cons; [done|by rewrite H|apply boxes_ok_nil].
Qed.

(** The data stands 108 bytes into the segment. *)
Lemma segment_data seq time duration data key :
  take (Z.to_nat (len data)) (drop (Z.to_nat 108) (mediaSegment seq time duration data key)) = data.
Proof.
  rewrite media_boxes. unfold all_boxes. cbn [fmap list_fmap fst snd mjoin list_join].
  rewrite (box_eq "mdat") by done. cbn [mjoin list_join]. rewrite !app_nil_r, !app_assoc.
  rewrite drop_app_length'.
  - unfold len. rewrite Nat2Z.id. by apply take_ge.
  - set (moof := moof_boxes _ _). pose proof (length_box "moof" moof eq_refl) as L. unfold moof in *.
    rewrite len_moof in L by apply len_traf, len_run. unfold len in L.
    rewrite !length_app. unfold uint32. rewrite length_field, length_ascii. simpl. lia.
Qed.

Lemma tfhd_read : read_tfhd (field 0 1 ++ field 0x020000 3 ++ field 1 4) =
  Some {| h_track := 1; h_duration := None; h_size := None; h_flags := None |}.
Proof. reflexivity. Qed.
Lemma tfdt_read time : 0 <= time < 2 ^ 64 -> read_tfdt (field 1 1 ++ field 0 3 ++ field time 8) = Some time.
Proof.
  intros H. unfold read_tfdt. change (field 1 1 ++ field 0 3 ++ field time 8) with (field 0x01000000 4 ++ field time 8).
  read_number. change (Z.shiftr _ 24 =? 1) with true. cbn iota. by read_number.
Qed.
Lemma trun_read duration data flags offset :
  0 <= duration < 2 ^ 32 -> len data < 2 ^ 32 -> 0 <= flags < 2 ^ 32 -> 0 <= offset < 2 ^ 32 ->
  read_trun {| h_track := 1; h_duration := None; h_size := None; h_flags := None |} (mjoin (run_contents duration data flags offset)) =
    Some {| r_offset := offset; r_duration := duration; r_size := len data; r_flags := flags; r_shift := 0 |}.
Proof.
  intros Hd Hl Hf Ho. assert (0 <= len data) by (unfold len; lia). rewrite trun_fields. unfold read_trun.
  match goal with |- context [number 4 ?l] => change l with
    (field 0x000701 4 ++ field 1 4 ++ field offset 4 ++ field duration 4 ++ field (len data) 4 ++ field flags 4) end.
  read_number. read_number.
  change (Z.testbit 0x000701 0) with true. change (Z.testbit 0x000701 2) with false. change (Z.testbit 0x000701 8) with true.
  change (Z.testbit 0x000701 9) with true. change (Z.testbit 0x000701 10) with true. change (Z.testbit 0x000701 11) with false.
  cbn [number_if]. repeat read_number. done.
Qed.

(** A player finds in a media segment exactly the sample put in it: the flags of its boxes, the
    fragment's offsets and sizes are right, so the data, its time, duration, sequence number and
    key-frame mark come back, as long as they fit their fields and the segment its 32-bit sizes. *)
Theorem sample_comes_back seq time duration data key :
  0 <= seq < 2 ^ 32 -> 0 <= time < 2 ^ 64 -> 0 <= duration < 2 ^ 32 -> len data + 108 < 2 ^ 32 ->
  demux (mediaSegment seq time duration data key) =
    Some {| s_track := 1; s_seq := seq; s_time := time; s_duration := duration; s_key := key; s_data := data |}.
Proof.
  intros Hs Ht Hd Hlen. assert (0 <= len data) by (unfold len; lia).
  assert (0 <= key_flags key < 2 ^ 32) as Hf by (destruct key; done).
  pose proof (len_run duration data (key_flags key) 108) as Lrun.
  unfold demux. rewrite segment_boxes by done. cbn [mbind option_bind]. rewrite child_here. cbn [mbind option_bind].
  rewrite fragment_boxes by by apply len_traf.
  cbn [mbind option_bind]. rewrite child_here. cbn [mbind option_bind].
  change (field 0 1 ++ field 0 3 ++ field seq 4) with (field 0 4 ++ field seq 4). read_number. read_number.
  rewrite child_next, child_here by done. cbn [mbind option_bind].
  rewrite track_boxes by done. cbn [mbind option_bind]. rewrite child_here. cbn [mbind option_bind].
  rewrite tfhd_read. cbn [mbind option_bind].
  rewrite (child_next "tfdt" "tfhd"), child_here by done. cbn [mbind option_bind]. rewrite tfdt_read by done. cbn [mbind option_bind].
  rewrite (child_next "trun" "tfhd"), (child_next "trun" "tfdt"), child_here by done. cbn [mbind option_bind].
  rewrite trun_read by (done || lia). cbn [mbind option_bind h_track r_shift r_duration r_flags r_size r_offset].
  rewrite segment_data, Z.add_0_r. f_equal. f_equal. by destruct key.
Qed.

Lemma sample_comes_back_witness :
  demux (mediaSegment 7 90000 1500 [0; 0; 0; 1; 101] true) =
    Some {| s_track := 1; s_seq := 7; s_time := 90000; s_duration := 1500; s_key := true; s_data := [0; 0; 0; 1; 101] |}.
Proof. apply sample_comes_back; [lia|lia|lia|reflexivity]. Defined.

(** * Access units *)

(** The units of a sample, each behind its length in four bytes. *)
Fixpoint units (fuel : nat) (l : list Z) : option (list (list Z)) :=
  match l, fuel with
  | [], _ => Some []
  | _, O => None
  | _, S fuel =>
      let n := be (take 4 l) in
      if 4 + n <=? len l
      then (fun more => take (Z.to_nat n) (drop 4 l) :: more) <$> units fuel (drop (4 + Z.to_nat n) l)
      else None
  end.
Definition prefixed (l : list (list Z)) : list Z := mjoin ((fun n : list Z => uint32 (len n) ++ n) <$> l).

Lemma units_prefixed l fuel :
  Forall (fun n => len n < 2 ^ 32) l -> (length l <= fuel)%nat -> units fuel (prefixed l) = Some l.
Proof.
  intros Hl. revert fuel. induction Hl as [|n l Hn _ IH]; intros fuel Hf; [by destruct fuel|].
  destruct fuel as [|fuel]; [simpl in Hf; lia|]. cbn [length] in Hf. assert (0 <= len n) by (unfold len; lia).
  change (prefixed (n :: l)) with ((uint32 (len n) ++ n) ++ prefixed l).
  assert (length (uint32 (len n)) = 4%nat) as H4 by apply length_field.
  set (rest := prefixed l) in *.
  assert (be (take 4 ((uint32 (len n) ++ n) ++ rest)) = len n) as Hsize.
  { rewrite <- app_assoc, take_app_length' by done. unfold uint32. rewrite be_field, Z.mod_mod, Z.mod_small; lia. }
  assert (take (Z.to_nat (len n)) (drop 4 ((uint32 (len n) ++ n) ++ rest)) = n) as Hn'.
  { rewrite <- app_assoc, drop_app_length' by done. apply take_app_length'. unfold len. lia. }
  assert (drop (4 + Z.to_nat (len n)) ((uint32 (len n) ++ n) ++ rest) = rest) as Hrest.
  { apply drop_app_length'. rewrite length_app, H4. unfold len. lia. }
  assert (4 + len n <= len ((uint32 (len n) ++ n) ++ rest)) as Hfit.
  { rewrite !len_app. unfold len at 2. rewrite H4. unfold len. lia. }
  destruct ((uint32 (len n) ++ n) ++ rest) as [|b k] eqn:E.
  { rewrite <- E in Hfit. rewrite E in Hfit. unfold len in *. simpl in Hfit. lia. }
  cbn [units]. rewrite Hsize, Hn', Hrest, (proj2 (Z.leb_le _ _) Hfit), IH by lia. done.
Qed.
Lemma length_prefixed l : (length l <= length (prefixed l))%nat.
Proof.
  induction l as [|n l IH]; [done|]. change (prefixed (n :: l)) with ((uint32 (len n) ++ n) ++ prefixed l).
  rewrite !length_app. unfold uint32. rewrite length_field. simpl. lia.
Qed.

(** An access unit delimiter: type 9 in the low five bits of an H.264 unit's first byte, type 35 in the six
    bits above the lowest of an H.265 one's. *)
Definition delimiter (hevc : bool) (n : list Z) : bool :=
  match n with b :: _ => if hevc then (b / 2) mod 64 =? 35 else b mod 32 =? 9 | [] => false end.
(** The units a segment carries: all the others. *)
Definition carried (hevc : bool) (l : list (list Z)) : list (list Z) := List.filter (fun n => negb (delimiter hevc n)) l.
Lemma carried_kept hevc l : Forall (fun n => n <> []) l -> filter (fun n => nalType n hevc ∉ skipped hevc false) l = carried hevc l.
Proof.
  induction 1 as [|n l Hn _ IH]; [done|]. destruct n as [|b n]; [done|].
  assert (nalType (b :: n) hevc ∉ skipped hevc false <-> delimiter hevc (b :: n) = false) as H.
  { unfold nalType, skipped, delimiter. cbn [lookup_total list_lookup_total].
    assert (forall x, Z.land x 31 = x mod 32) as H31 by (intros x; change 31 with (Z.ones 5); by rewrite Z.land_ones).
    assert (forall x, Z.land x 63 = x mod 64) as H63 by (intros x; change 63 with (Z.ones 6); by rewrite Z.land_ones).
    destruct hevc; rewrite ?H31, ?H63, ?(Z.shiftr_div_pow2 b 1) by lia; rewrite app_nil_r, list_elem_of_singleton, Z.eqb_neq; done. }
  unfold carried. cbn [List.filter]. fold (carried hevc l). rewrite <- IH. destruct (delimiter hevc (b :: n)) eqn:E; cbn [negb].
  - apply filter_cons_False. intros H'. apply H in H'. done.
  - apply filter_cons_True. by apply H.
Qed.

Lemma annexBNals_stream l zeros : Forall (fun e => unit_ok e.2) l -> annexBNals (annexB l zeros) = snd <$> l.
Proof.
  intros H. unfold annexBNals. change (cut _ _) with (nals (annexB l zeros)). rewrite nals_annexB by done.
  induction H as [|[k n] l (_ & b & Hb & _) _ IH]; [done|]. cbn [fmap list_fmap snd].
  rewrite filter_cons_True; [by f_equal|]. intros ->. done.
Qed.

(** C14: Every picture of the stream reaches the player as it was: the segment made of an access unit
    holds, where the flags of its boxes say, at the time and for the duration given and with its key-frame
    mark, the NAL units in order and unchanged, the access unit delimiters alone left out (H.264's type 9,
    H.265's 35). *)
Theorem picture_comes_back seq time duration l zeros hevc key :
  Forall (fun e => unit_ok e.2) l ->
  0 <= seq < 2 ^ 32 -> 0 <= time < 2 ^ 64 -> 0 <= duration < 2 ^ 32 ->
  len (prefixed (carried hevc (snd <$> l))) + 108 < 2 ^ 32 ->
  exists s, demux (videoSegment seq time duration (annexB l zeros) hevc key) = Some s /\
    s_track s = 1 /\ s_seq s = seq /\ s_time s = time /\ s_duration s = duration /\ s_key s = key /\
    units (length (s_data s)) (s_data s) = Some (carried hevc (snd <$> l)).
Proof.
  intros Hl Hs Ht Hd Hlen. unfold videoSegment.
  assert (lengthPrefixed (annexB l zeros) hevc false = prefixed (carried hevc (snd <$> l))) as ->.
  { unfold lengthPrefixed, prefixed. rewrite annexBNals_stream, carried_kept; [done| |done].
    apply Forall_fmap. eapply Forall_impl; [exact Hl|]. intros [k n] (_ & b & Hb & _) E. simpl in *. by rewrite E in Hb. }
  eexists. split; [by apply sample_comes_back|]. cbn [s_track s_seq s_time s_duration s_key s_data].
  do 5 (split; [done|]). apply units_prefixed; [|apply length_prefixed].
  apply Forall_forall. intros n Hn.
  assert (len n <= len (prefixed (carried hevc (snd <$> l)))); [|lia].
  apply list_elem_of_split in Hn as (l1 & l2 & ->). unfold prefixed.
  rewrite fmap_app, fmap_cons, join_app. cbn [mjoin list_join]. rewrite !len_app. unfold len. lia.
Qed.

Lemma picture_comes_back_witness :
  exists s, demux (videoSegment 3 6000 1500 (annexB [(1%nat, [9; 16]); (0%nat, [101; 0; 7]); (1%nat, [1; 5])] 1) false true)
      = Some s /\
    s_track s = 1 /\ s_seq s = 3 /\ s_time s = 6000 /\ s_duration s = 1500 /\ s_key s = true /\
    units (length (s_data s)) (s_data s) = Some [[101; 0; 7]; [1; 5]].
Proof.
  apply (picture_comes_back 3 6000 1500 [(1%nat, [9; 16]); (0%nat, [101; 0; 7]); (1%nat, [1; 5])] 1 false true).
  - repeat constructor; eexists; (split; [reflexivity|discriminate]).
  - lia.
  - lia.
  - lia.
  - vm_compute. reflexivity.
Defined.
