(* ===== verification/Fmp4Codec.v ===== *)
(** The two codec strings of an HEVC stream: [hevcCodecString] of [lib/rpSps.ts] reads its fields bit
    by bit, [videoInit] of [lib/fmp4.ts] takes them from whole bytes with 32-bit operators. They name
    the same profile, compatibility flags, tier, level and constraints. *)
From S2P Require Import Prelude RpSps SpsSyntax Fmp4.
#[local] Open Scope bits_scope.

(** * The 32-bit operators, bit by bit *)

Lemma testbit_int32 n k : 0 <= k -> Z.testbit (to_int32 n) k = Z.testbit n (Z.min k 31).
Proof.
  intros Hk. unfold to_int32. pose proof (Z.mod_pos_bound n (2 ^ 32) ltac:(lia)) as Hm.
  assert (forall j, 0 <= j < 32 -> Z.testbit (n mod 2 ^ 32) j = Z.testbit n j) as Hlow
    by (intros; apply Z.mod_pow2_bits_low; lia).
  assert (Z.testbit n 31 = negb (n mod 2 ^ 32 <? 2 ^ 31)) as H31.
  { rewrite <- Hlow by lia. apply eq_true_iff_eq. rewrite Z.testbit_true, negb_true_iff, Z.ltb_ge by lia.
    set (m := n mod 2 ^ 32) in *. pose proof (Z.div_mod m (2 ^ 31) ltac:(lia)).
    pose proof (Z.mod_pos_bound m (2 ^ 31) ltac:(lia)). rewrite Z.mod_small by lia. lia. }
  destruct (Z.ltb_spec (n mod 2 ^ 32) (2 ^ 31)) as [Hs|Hs]; simpl negb in H31.
  - destruct (Z.lt_ge_cases k 32); [rewrite Hlow by lia|].
    + destruct (Z.le_gt_cases k 31); [by rewrite Z.min_l by lia|lia].
    + rewrite Z.min_r, H31 by lia. apply Z.bits_above_log2; [lia|].
      destruct (Z.eq_dec (n mod 2 ^ 32) 0) as [->|]; [simpl; lia|]. apply Z.log2_lt_pow2; [lia|].
      apply Z.lt_le_trans with (2 ^ 32); [lia|]. apply Z.pow_le_mono_r; lia.
  - destruct (Z.lt_ge_cases k 32).
    + rewrite Z.min_l by lia. rewrite <- Hlow by lia.
      rewrite <- (Z.mod_pow2_bits_low (n mod 2 ^ 32 - 2 ^ 32) 32) by lia.
      replace (n mod 2 ^ 32 - 2 ^ 32) with (n mod 2 ^ 32 + (-1) * 2 ^ 32) by lia.
      by rewrite Z.mod_add, Z.mod_mod by lia.
    + rewrite Z.min_r, H31 by lia. apply Z.bits_above_log2_neg; [lia|].
      apply Z.lt_le_trans with 32; [|lia].
      destruct (Z.eq_dec (Z.pred (- (n mod 2 ^ 32 - 2 ^ 32))) 0) as [->|]; [simpl; lia|].
      apply Z.log2_lt_pow2; lia.
Qed.

Lemma testbit_bor a b k : 0 <= k < 32 -> Z.testbit (bor a b) k = Z.testbit a k || Z.testbit b k.
Proof. intros H. unfold bor. rewrite Z.lor_spec, !testbit_int32, Z.min_l by lia. done. Qed.
Lemma testbit_shl a n k : 0 <= k < 32 -> 0 <= n -> Z.testbit (shl a n) k = Z.testbit a (k - n).
Proof.
  intros H Hn. unfold shl. rewrite testbit_int32, Z.min_l, Z.shiftl_spec by lia.
  destruct (Z.lt_ge_cases k n); [by rewrite !Z.testbit_neg_r by lia|].
  by rewrite testbit_int32, Z.min_l by lia.
Qed.
Lemma testbit_uint32 n k : 0 <= k < 32 -> Z.testbit (to_uint32 n) k = Z.testbit n k.
Proof. intros H. apply Z.mod_pow2_bits_low. lia. Qed.

Lemma testbit_one k : 0 <= k -> Z.testbit 1 k = (k =? 0).
Proof. intros H. destruct (Z.eqb_spec k 0) as [->|]; [done|]. by apply (Z.bits_above_log2 1 k); simpl; lia. Qed.

(** [c & (1 << i)] is zero exactly when bit [i] is clear, bit 31 and its sign included. *)
Lemma band_bit c i : 0 <= i < 32 -> (band c (shl 1 i) =? 0) = negb (Z.testbit c i).
Proof.
  intros Hi. destruct (Z.testbit c i) eqn:E; simpl.
  - apply Z.eqb_neq. intros H0. apply (f_equal (fun z => Z.testbit z i)) in H0. revert H0.
    unfold band. rewrite Z.land_spec, !testbit_int32, Z.min_l, testbit_shl, Z.sub_diag, E, Z.testbit_0_l by lia. done.
  - apply Z.eqb_eq, Z.bits_inj'. intros k Hk. unfold band.
    rewrite Z.land_spec, !testbit_int32, testbit_shl, Z.testbit_0_l by lia.
    destruct (Z.eq_dec (Z.min k 31) i) as [<-|Hne]; [by rewrite E|].
    destruct (Z.lt_ge_cases (Z.min k 31) i); [by rewrite (Z.testbit_neg_r 1), andb_false_r by lia|].
    rewrite testbit_one by lia. rewrite (proj2 (Z.eqb_neq _ _)) by lia. apply andb_false_r.
Qed.

(** The loop reverses the bits. *)
Lemma compat_loop_bit c n k : (n <= 32)%nat -> 0 <= k < 32 ->
  Z.testbit (compat_loop c n) k = (31 - k <? Z.of_nat n) && Z.testbit c (31 - k).
Proof.
  intros Hn Hk. induction n as [|n IH]; cbn [compat_loop].
  { rewrite Z.testbit_0_l, (proj2 (Z.ltb_ge _ _)) by lia. done. }
  rewrite band_bit, negb_involutive by lia. specialize (IH ltac:(lia)).
  destruct (Z.eq_dec (31 - k) (Z.of_nat n)) as [E|E].
  - rewrite (proj2 (Z.ltb_lt (31 - k) _)) by lia. rewrite (proj2 (Z.ltb_ge (31 - k) _)) in IH by lia. rewrite E in *.
    destruct (Z.testbit c (Z.of_nat n)); [|done].
    rewrite testbit_bor, IH, testbit_shl, testbit_one by lia. simpl. apply Z.eqb_eq. lia.
  - assert ((31 - k <? Z.of_nat (S n)) = (31 - k <? Z.of_nat n)) as -> by (apply eq_true_iff_eq; rewrite !Z.ltb_lt; lia).
    destruct (Z.testbit c (Z.of_nat n)); [|done].
    rewrite testbit_bor, IH, testbit_shl by lia.
    destruct (Z.lt_ge_cases k (31 - Z.of_nat n)); [by rewrite (Z.testbit_neg_r 1), orb_false_r by lia|].
    rewrite testbit_one by lia. rewrite (proj2 (Z.eqb_neq _ _)) by lia. apply orb_false_r.
Qed.

Lemma c32_bit ptl j : 0 <= j < 32 ->
  Z.testbit (c32 ptl) j = Z.testbit (ptl !!! 1%nat) (j - 24) || Z.testbit (ptl !!! 2%nat) (j - 16) ||
    Z.testbit (ptl !!! 3%nat) (j - 8) || Z.testbit (ptl !!! 4%nat) j.
Proof. intros H. unfold c32. by rewrite testbit_uint32, !testbit_bor, !testbit_shl by lia. Qed.

(** * Reading the flags one by one *)

(** The number whose bits, lowest first, are [bits]. *)
Fixpoint low_first (bits : list bool) : Z :=
  match bits with [] => 0 | d :: bits => Z.b2z d + 2 * low_first bits end.

Lemma low_first_bits V n : low_first ((fun i => Z.testbit V (Z.of_nat i)) <$> seq 0 n) = V mod 2 ^ Z.of_nat n.
Proof.
  revert V. induction n as [|n IH]; intros V; [by rewrite Z.mod_1_r|].
  cbn [seq fmap list_fmap low_first]. rewrite <- seq_shift, <- list_fmap_compose.
  assert (((fun i => Z.testbit V (Z.of_nat i)) ∘ S <$> seq 0 n) = (fun i => Z.testbit (V / 2) (Z.of_nat i)) <$> seq 0 n) as ->.
  { apply list_fmap_ext. intros _ i _. unfold compose. rewrite Nat2Z.inj_succ, Z.div2_bits by lia. done. }
  rewrite IH, Nat2Z.inj_succ, Z.pow_succ_r by lia. rewrite Z.rem_mul_r by lia.
  rewrite <- Z.bit0_mod. done.
Qed.

Lemma reads_weighted bits i :
  reads (read_each (fun i => d <- RpSps.u 1 ;; ret (d * 2 ^ Z.of_nat i)) (length bits) i) bits
    (imap (fun j d => Z.b2z d * 2 ^ Z.of_nat (i + j)) bits).
Proof.
  revert i. induction bits as [|d bits IH]; intros i; [apply reads_ret|]. cbn [length read_each imap].
  apply (reads_bind _ _ [d] (Z.b2z d * 2 ^ Z.of_nat (i + 0))).
  - rewrite Nat.add_0_r. eapply reads_bind_last; [apply reads_u1|apply reads_ret].
  - eapply reads_bind_last; [apply (IH (S i))|].
    assert (imap (fun j d0 => Z.b2z d0 * 2 ^ Z.of_nat (S i + j)) bits =
            imap ((fun j d0 => Z.b2z d0 * 2 ^ Z.of_nat (i + j)) ∘ S) bits) as ->.
    { apply imap_ext. intros j d0 _. unfold compose. by rewrite Nat.add_succ_r. }
    apply reads_ret.
Qed.

Lemma sum_weighted bits i : sum_of (imap (fun j d => Z.b2z d * 2 ^ Z.of_nat (i + j)) bits) = 2 ^ Z.of_nat i * low_first bits.
Proof.
  revert i. induction bits as [|d bits IH]; intros i; [simpl; lia|]. cbn [imap sum_of foldr low_first].
  assert (imap ((fun j d0 => Z.b2z d0 * 2 ^ Z.of_nat (i + j)) ∘ S) bits =
          imap (fun j d0 => Z.b2z d0 * 2 ^ Z.of_nat (S i + j)) bits) as ->.
  { apply imap_ext. intros j d0 _. unfold compose. by rewrite Nat.add_succ_r. }
  change (foldr Z.add 0 ?l) with (sum_of l). rewrite IH, Nat.add_0_r, Nat2Z.inj_succ, Z.pow_succ_r by lia. lia.
Qed.

Lemma byte_high b j : 0 <= b < 256 -> 8 <= j -> Z.testbit b j = false.
Proof.
  intros Hb Hj. destruct (Z.eq_dec b 0) as [->|]; [apply Z.testbit_0_l|].
  apply Z.bits_above_log2; [lia|]. apply Z.lt_le_trans with 8; [|done]. apply Z.log2_lt_pow2; lia.
Qed.

Lemma c32_byte ptl (i : nat) (base j : Z) :
  (forall i, 0 <= ptl !!! i < 256) -> (base = 24 /\ i = 1%nat) \/ (base = 16 /\ i = 2%nat) \/ (base = 8 /\ i = 3%nat) \/ (base = 0 /\ i = 4%nat) ->
  base <= j < base + 8 -> Z.testbit (c32 ptl) j = Z.testbit (ptl !!! i) (j - base).
Proof.
  intros Hb H Hj. rewrite c32_bit by lia.
  destruct H as [[-> ->]|[[-> ->]|[[-> ->]|[-> ->]]]]; rewrite ?Z.sub_0_r;
    repeat first [rewrite (Z.testbit_neg_r (ptl !!! 1%nat)) by lia | rewrite (Z.testbit_neg_r (ptl !!! 2%nat)) by lia
                 |rewrite (Z.testbit_neg_r (ptl !!! 3%nat)) by lia
                 |rewrite (byte_high (ptl !!! 2%nat)) by (auto || lia)|rewrite (byte_high (ptl !!! 3%nat)) by (auto || lia)
                 |rewrite (byte_high (ptl !!! 4%nat)) by (auto || lia)]; by rewrite ?orb_false_r.
Qed.

(** Both ways the flags are the same number. *)
Lemma compat_agrees ptl b1 b2 b3 b4 :
  (forall i, 0 <= ptl !!! i < 256) ->
  ptl !!! 1%nat = b1 -> ptl !!! 2%nat = b2 -> ptl !!! 3%nat = b3 -> ptl !!! 4%nat = b4 ->
  low_first (byte_bits b1 ++ byte_bits b2 ++ byte_bits b3 ++ byte_bits b4) = to_uint32 (compat_loop (c32 ptl) 32).
Proof.
  intros Hb <- <- <- <-. unfold to_uint32. change (2 ^ 32) with (2 ^ Z.of_nat 32). rewrite <- low_first_bits. f_equal.
  assert (forall k, (k < 32)%nat -> Z.testbit (compat_loop (c32 ptl) 32) (Z.of_nat k) = Z.testbit (c32 ptl) (31 - Z.of_nat k)) as Hc.
  { intros k Hk. rewrite compat_loop_bit by lia. by rewrite (proj2 (Z.ltb_lt _ _)) by lia. }
  cbn [seq fmap list_fmap byte_bits app].
  repeat match goal with |- _ :: _ = _ :: _ => f_equal end; try reflexivity;
    rewrite Hc by lia;
    first [rewrite (c32_byte ptl 1 24) by (auto || lia) | rewrite (c32_byte ptl 2 16) by (auto || lia)
          |rewrite (c32_byte ptl 3 8) by (auto || lia) | rewrite (c32_byte ptl 4 0) by (auto || lia)]; reflexivity.
Qed.

(** * The two strings *)

(** What both say of the stream. *)
Record CodecFields := {
  f_space : Z; f_profile : Z; f_compat : Z; f_tier : Z; f_level : Z; f_constraint : list Z
}.
Definition hev1_string (f : CodecFields) : str :=
  js "hev1." ++ space_tag (f_space f) ++ num (f_profile f) ++ js "." ++ to_hex true (f_compat f) ++ js "." ++
  (if f_tier f =? 0 then js "L" else js "H") ++ num (f_level f) ++ js "." ++
  join_with (js ".") (to_hex true <$> pop_zeros (f_constraint f)).
Definition hvc1_string (f : CodecFields) : str :=
  join_with (js ".")
    ([js "hvc1." ++ space_tag (f_space f) ++ num (f_profile f); to_hex false (f_compat f);
      (if f_tier f =? 0 then js "L" else js "H") ++ num (f_level f)] ++
     (to_hex false <$> drop_zeros (f_constraint f))).
Definition fields_of (ptl : list Z) : CodecFields := {|
  f_space := ptl !!! 0%nat / 64; f_profile := ptl !!! 0%nat mod 32;
  f_compat := to_uint32 (compat_loop (c32 ptl) 32); f_tier := ptl !!! 0%nat / 32 mod 2;
  f_level := ptl !!! 11%nat; f_constraint := subarray ptl 5 11 |}.

(** The three fields of the first byte, as bits. *)
Lemma bin_app n m v : bin (n + m) v = bin n (v / 2 ^ Z.of_nat m) ++ bin m v.
Proof.
  induction n as [|n IH]; [done|]. cbn [Nat.add bin app]. rewrite IH. f_equal.
  rewrite Z.div_pow2_bits by lia. f_equal. lia.
Qed.
Lemma reads_u_mod n v : reads (RpSps.u n) (bin n v) (v mod 2 ^ Z.of_nat n).
Proof. pose proof (reads_u_from (bin n v) 0) as R. rewrite length_bin, value_bin in R. exact R. Qed.
Lemma first_byte b : byte_bits b = bin 2 (b / 64) ++ bin 1 (b / 32) ++ bin 5 b.
Proof. change (byte_bits b) with (bin (2 + (1 + 5)) b). by rewrite !bin_app. Qed.
Lemma byte_is_bin b : byte_bits b = bin 8 b.
Proof. done. Qed.

Lemma bits_of_app l k : bits_of (l ++ k) = bits_of l ++ bits_of k.
Proof. induction l as [|b l IH]; [done|]. cbn [app bits_of]. by rewrite IH, app_assoc. Qed.

Lemma reads_bytes (l : list Z) i :
  Forall (fun b => 0 <= b < 256) l -> reads (read_each (fun _ => RpSps.u 8) (length l) i) (bits_of l) l.
Proof.
  intros H. revert i. induction H as [|b l Hb _ IH]; intros i; [apply reads_ret|]. cbn [length read_each bits_of].
  rewrite byte_is_bin. eapply reads_bind; [by apply reads_u|].
  eapply reads_bind_last; [apply IH|apply reads_ret].
Qed.

Lemma reads_codec (b0 b1 b2 : Z) (ptl : list Z) :
  length ptl = 12%nat -> (forall i, 0 <= ptl !!! i < 256) ->
  reads codec_fields (bits_of (b0 :: b1 :: b2 :: ptl)) (hev1_string (fields_of ptl)).
Proof.
  intros Hl Hb. do 12 (destruct ptl as [|? ptl]; [done|]). destruct ptl; [|done]. clear Hl.
  set (ptl := [z; z0; z1; z2; z3; z4; z5; z6; z7; z8; z9; z10]) in *.
  assert (forall b, b ∈ ptl -> 0 <= b < 256) as Hin.
  { intros b (i & Hi)%list_elem_of_lookup. specialize (Hb i). by rewrite list_lookup_total_alt, Hi in Hb. }
  change (bits_of (b0 :: b1 :: b2 :: ptl)) with
    ((byte_bits b0 ++ byte_bits b1) ++ byte_bits b2 ++ byte_bits z ++
     (byte_bits z0 ++ byte_bits z1 ++ byte_bits z2 ++ byte_bits z3) ++ bits_of [z4; z5; z6; z7; z8; z9] ++ byte_bits z10).
  rewrite (first_byte z), <- !(app_assoc (bin _ _)).
  unfold codec_fields.
  eapply reads_bind; [by apply reads_skip|]. eapply reads_bind; [by apply reads_skip|].
  do 3 (eapply reads_bind; [apply reads_u_mod|]).
  eapply reads_bind; [apply (reads_weighted (byte_bits z0 ++ byte_bits z1 ++ byte_bits z2 ++ byte_bits z3) 0)|].
  eapply reads_bind; [apply (reads_bytes [z4; z5; z6; z7; z8; z9]); repeat constructor; apply Hin; set_solver|].
  eapply reads_bind_last; [rewrite byte_is_bin; apply reads_u; apply Hin; set_solver|].
  rewrite sum_weighted, Z.mul_1_l. rewrite (compat_agrees ptl z0 z1 z2 z3 Hb) by done.
  rewrite (Z.mod_small (z / 64)) by (pose proof (Hin z ltac:(set_solver)); simpl; split;
    [apply Z.div_pos|apply Z.div_lt_upper_bound]; lia).
  unfold hev1_string, fields_of. cbn [f_space f_profile f_compat f_tier f_level f_constraint].
  generalize (to_uint32 (compat_loop (c32 ptl) 32)). intros C. apply reads_ret.
Qed.

(** In a set of at least 15 bytes, the fields are those of the bytes from the fourth on. *)
Lemma reads_codec_prefix r :
  (15 <= length r)%nat -> (forall i, 0 <= subarray r 3 15 !!! i < 256) ->
  exists pos, codec_fields r 0%nat = Some (hev1_string (fields_of (subarray r 3 15)), pos).
Proof.
  intros Hl Hb. do 3 (destruct r as [|? r]; [simpl in Hl; lia|]). cbn [length] in Hl.
  change (subarray (z :: z0 :: z1 :: r) 3 15) with (take 12 r) in *.
  assert (length (take 12 r) = 12%nat) as H12 by (rewrite length_take; lia).
  eexists. apply (reads_codec z z0 z1 (take 12 r) H12 Hb _ 0%nat (bits_of (drop 12 r))).
  rewrite <- (take_drop 12 r) at 1. cbn [bits_of drop]. by rewrite bits_of_app, <- !app_assoc.
Qed.

(** [videoInit]'s string, from the same fields. *)
Lemma hvc_codec_fields ptl : (forall i, 0 <= ptl !!! i < 256) -> hvc_codec ptl = hvc1_string (fields_of ptl).
Proof.
  intros Hb. specialize (Hb 0%nat). unfold hvc_codec, hvc1_string, fields_of. cbn [f_space f_profile f_compat f_tier f_level f_constraint].
  set (p := ptl !!! 0%nat) in *.
  assert (band p 31 = p mod 32) as ->.
  { unfold band. change (to_int32 31) with (Z.ones 5). rewrite Z.land_ones by lia.
    assert (to_int32 p = p) as ->; [|done].
    unfold to_int32. rewrite (Z.mod_small p) by lia. by rewrite (proj2 (Z.ltb_lt p _)) by lia. }
  assert ((band p 32 =? 0) = (p / 32 mod 2 =? 0)) as ->.
  { change 32 with (shl 1 5) at 1. rewrite band_bit by lia.
    change 32 with (2 ^ 5). rewrite <- Z.testbit_spec' by lia. by destruct (Z.testbit p 5). }
  rewrite Z.shiftr_div_pow2 by lia. by destruct (p / 32 mod 2 =? 0).
Qed.

(** ** Bytes stay bytes *)

Definition bytes_ok (l : list Z) : Prop := Forall (fun b => 0 <= b < 256) l.

Lemma rbsp_bytes z l : bytes_ok l -> bytes_ok (rbsp_go z l).
Proof.
  intros H. revert z. induction H as [|b l Hb _ IH]; intros z; cbn [rbsp_go]; [constructor|].
  destruct (_ && _); [apply IH|]. constructor; [done|apply IH].
Qed.
Lemma subarray_bytes l s e : bytes_ok l -> bytes_ok (subarray l s e).
Proof. intros H. by apply Forall_take, Forall_drop. Qed.
Lemma cut_bytes l starts n : bytes_ok l -> n ∈ cut l starts -> bytes_ok n.
Proof.
  intros H. induction starts as [|s starts IH]; cbn [cut]; [by intros ?%not_elem_of_nil|].
  intros [->|?]%elem_of_cons; [by apply subarray_bytes|auto].
Qed.
Lemma total_ok l i : bytes_ok l -> 0 <= l !!! i < 256.
Proof.
  intros H. rewrite list_lookup_total_alt. destruct (l !! i) eqn:E; [|simpl; lia].
  by apply (Forall_lookup_1 _ _ _ _ H E).
Qed.

Lemma rbsp_length z l : (length (rbsp_go z l) <= length l)%nat.
Proof.
  revert z. induction l as [|b l IH]; intros z; [done|]. cbn [rbsp_go].
  destruct (_ && _); cbn [length]; [specialize (IH 0)|specialize (IH (if b =? 0 then z + 1 else 0))]; lia.
Qed.

(** The first parameter set both find. *)
Lemma first_codec_of l first rest :
  of_type 33 true (filter (fun n : list Z => n <> []) l) = first :: rest -> (2 <= length first)%nat ->
  first_codec l = fst <$> codec_fields (rbsp first) 0%nat.
Proof.
  intros H Hlen. unfold of_type in H. induction l as [|n l IH]; [done|]. cbn [first_codec].
  destruct n as [|b n]; [by apply IH|].
  rewrite filter_cons_True in H by done. rewrite filter_cons in H. case_decide as Ht.
  - injection H as <- _. rewrite (proj2 (Nat.ltb_ge _ 2)) by done. cbn [orb].
    change (is_sps true (b :: n)) with (nalType (b :: n) true =? 33). by rewrite Ht.
  - change (is_sps true (b :: n)) with (nalType (b :: n) true =? 33).
    rewrite (proj2 (Z.eqb_neq _ _) Ht), orb_true_r. by apply IH.
Qed.

(** C17: Whatever the header, when an HEVC init segment can be made, WebCodecs and Media Source are told
    the same thing: the codec string read bit by bit and the one computed with 32-bit operators, bit
    reversal of the compatibility flags included, print the same profile, flags, tier, level and
    constraint bytes. *)
Theorem codec_strings_agree header w h init mime :
  bytes_ok header -> videoInit header true w h = Some (init, mime) ->
  exists f, hevcCodecString header = Some (hev1_string f) /\ mime = mime_of (hvc1_string f).
Proof.
  intros Hb. unfold videoInit. cbn [negb].
  destruct (of_type 32 true _); [done|].
  destruct (of_type 33 true (annexBNals header)) as [|first more] eqn:E; [done|].
  destruct (of_type 34 true _); [done|].
  destruct (length (rbsp first) <? 15)%nat eqn:Hlen; [done|]. apply Nat.ltb_ge in Hlen. intros [= _ <-].
  assert (bytes_ok (rbsp first)) as Hr.
  { apply rbsp_bytes, (cut_bytes header (starts_from 0 header)); [done|].
    assert (first ∈ first :: more) as Hin by left. rewrite <- E in Hin.
    by apply list_elem_of_filter in Hin as [_ [_ Hin]%list_elem_of_filter]. }
  pose proof (rbsp_length 0 first) as Hle. fold (rbsp first) in Hle.
  exists (fields_of (subarray (rbsp first) 3 15)). split.
  - unfold hevcCodecString, nals. rewrite (first_codec_of _ _ _ E) by lia.
    destruct (reads_codec_prefix (rbsp first) Hlen) as [pos ->]; [|done].
    intros i. by apply total_ok, subarray_bytes.
  - f_equal. apply hvc_codec_fields. intros i. by apply total_ok, subarray_bytes.
Qed.

Lemma mime_inj a b : mime_of a = mime_of b -> a = b.
Proof. intros H%app_inv_head. apply (app_inv_head [_]) in H. by apply app_inv_tail in H. Qed.

Definition main10 : list Z :=
  [0; 0; 0; 1; 0x40; 1; 12; 0; 0; 0; 1; 0x42; 0x01; 0x01; 0x02; 0x20; 0; 0; 3; 0; 0xb0; 0; 0; 3; 0; 0; 3; 0; 153; 0xa0;
   0; 0; 0; 1; 0x44; 1; 0xc1].
Lemma codec_strings_agree_witness : exists f,
  hevcCodecString main10 = Some (hev1_string f) /\ js "hvc1.2.4.L153.b0" = hvc1_string f.
Proof.
  destruct (videoInit main10 true 1920 1080) as [[init mime]|] eqn:E; [|by vm_compute in E].
  assert (bytes_ok main10) as Hb by (repeat constructor; lia).
  destruct (codec_strings_agree main10 1920 1080 init mime Hb E) as (f & Hf & Hm).
  exists f. split; [exact Hf|].
  assert (mime = mime_of (js "hvc1.2.4.L153.b0")) as Hm'.
  { assert (snd <$> videoInit main10 true 1920 1080 = Some (mime_of (js "hvc1.2.4.L153.b0"))) as H
      by (vm_compute; reflexivity). rewrite E in H. by injection H. }
  rewrite Hm' in Hm. by apply mime_inj.
Defined.
